(* ===== verification/_CoqProject ===== *)
-Q . S2P
Prelude.v
Errors.v
Types.v
Options.v
Budget.v
Logic.v
Checksum.v
Cursor.v
Utf8.v
Encoding.v
FileUrl.v
Source.v
Normalize.v
Crypto.v
Compression.v
Descriptors.v
Header.v
KeySection.v
V1Keyword.v
V2Keyword.v
RecordSection.v
V1Record.v
V2Record.v
Samples.v
Format.v
LocatorIndex.v
Arcs.v
Core.v
Dictionary.v
SampleDictionary.v
Keys.v
Records.v
Iter.v
Locator.v
History.v
Locate.v
CaseVariants.v
Lookup.v
Mdx.v
Mdd.v
IndexFormat.v
Writers.v
IndexWrite.v
Scratch.v
ExternalSort.v
MergeRuns.v
MergeProofs.v
IndexBuild.v
IndexBuildProofs.v
IndexCache.v
IndexOpen.v
IndexSearch.v
IndexQuery.v
IndexScan.v
IndexRoundTrip.v
IndexSample.v
IndexTheorems.v
BuildTheorems.v
Slices.v
Sha256.v
ToolText.v
FuzzSupport.v
Flow.v
FuzzExercise.v
FuzzTargets.v
AuditSupport.v
AuditV1.v
CorpusAudit.v
Dump.v
Bench.v
WrittenHeader.v
Written.v
WrittenKeywords.v
WholeFile.v
Intact.v
IntactRecords.v
IntactLocator.v
IntactReads.v
WrittenReads.v
Served.v
