(* ===== verification/Prelude.v ===== *)
(** * A verification of the library [mdictlib]

    The library reads MDict dictionaries: an MDX file holds text entries, an
    MDD file resources.  [open] parses a header, a keyword section and a record
    section into a validated layout; lookups then decode key blocks and record
    blocks on demand, behind one-block caches, under an aggregate memory
    budget.  A lookup by key goes through an index of the normalized keys,
    built in memory on first use or kept in a file that is built once by an
    external sort and is not trusted when it is read.

    This development translates the Rust code of [src/src] into executable
    definitions and proves what makes it correct.  Names of definitions follow
    the code; a name that occurs twice in the code carries a prefix here
    ([index_locate] is [core/persistent/query.rs]'s [locate]).

    ** Conventions

    Integers are [Z]; checked, saturating and wrapping operations are written
    out with the bound of their width on a 64-bit target ([Prelude]).  Bytes are
    [list Z], text is its UTF-8 byte sequence.  A function that can fail is in
    [Result], a function with state in [M S], which add to an error two outcomes
    that Rust's [Result] does not show: [Panic], where the code would panic
    (an index out of range, an overflow, [unwrap]), and [OutOfFuel].  [wp],
    [wpM], [budgeted], [triple] and [keeps] are the specification predicates;
    all of them exclude both outcomes, so every theorem stated with them says
    that the code neither panics nor runs forever.

    Recursion that is not structural takes fuel, computed where the loop is
    entered from a bound on its rounds: the length of the input of a loop that
    consumes a byte a round ([write_all], the section writer, the cursors of
    runs), the number of keys of a binary search, the number of rows of a
    merge and the number of runs of a sort, whose passes each leave fewer.

    What is not in the repository is an argument.  [Env] ([Types]) holds the
    allocator, the decompressors, the codecs and the Unicode tables, [EnvOk]
    ([Encoding]) the documented behaviour the theorems rely on, and
    [simple_env] an instance that has it; [BuildIo] ([Writers]) holds the
    outcomes of file operations and of the caller's [cancelled], with
    [BuildIoOk] (a write takes at most the bytes it is given).  Files that are
    read may change at any time: their content is a function of the number of
    accesses made before, and [stable] says that a file does not change.

    ** Files

    Foundations: [Prelude] (integers, slices, generic lemmas, tactics),
    [Errors] (src/error.rs and the two monads), [Types] (src/types.rs,
    src/lookup.rs, src/index.rs, src/limits.rs, format/common/checked.rs),
    [Options] (the builder methods of the options), [Budget] (the memory budget
    of src/limits.rs, sequentially and with interleaved threads), [Logic] (the
    Hoare triples over a resource invariant), [Arcs] (reference counts).

    Parsing (src/format): [Checksum], [Cursor], [Utf8], [Encoding], [FileUrl],
    [Source], [Crypto], [Compression], [Descriptors], [Header], [KeySection],
    [V1Keyword], [V2Keyword], [RecordSection], [V1Record], [V2Record] and
    [Format], which composes them into [open_layout].  [layout_ok] is the
    contract of the parsers towards the core.

    The open dictionary (src/core): [Normalize], [LocatorIndex] (the index as a
    data structure), [Core] (the shared state and its invariant [core_ok]: the
    budget counts exactly what the layout, the live values, the cached failures
    and the caller hold), [Dictionary] (what a file contains, as functions of
    its bytes), [Keys], [Records], [Iter], [Locator] (the construction of the
    index, and what a call of it leaves in its cell), [Locate], [CaseVariants],
    and [History], on what the key block cache remembers of a failure and how it
    takes it for a failure of the next block.

    The public interface: [Lookup] (src/lookup.rs), [Mdx] (src/mdx.rs), [Mdd]
    (src/mdd.rs).

    The persistent index (src/core/persistent): [IndexFormat] (mod.rs and the
    header of format.rs), [Writers] and [IndexWrite] (the writing part of
    format.rs), [Scratch] (the scratch writers of build.rs), [ExternalSort] and
    [MergeRuns] (sort.rs), [IndexBuild] (build.rs), [IndexCache] and [IndexOpen]
    (cache.rs), [IndexSearch] (its binary search), [IndexQuery] (query.rs and
    the index methods of mdx.rs); [MergeProofs], [IndexBuildProofs],
    [IndexScan] and [IndexRoundTrip] hold the larger proofs.

    The tools around the library: [Slices] (writes into byte buffers), [Flow]
    (their control flow), [FuzzSupport], [FuzzExercise] and [FuzzTargets]
    (fuzz, src/fuzzing.rs), [Sha256], [ToolText] and [AuditSupport]
    (examples/support and what the audits share), [AuditV1] (v1_audit.rs),
    [CorpusAudit] (corpus_audit.rs), [Dump] (v1_dump.rs) and [Bench] (the scans
    of bench_local.rs).

    Writing and availability, which no file of the repository implements and
    which specify what reading must achieve: [WrittenHeader], [Written],
    [WrittenKeywords] and [WholeFile] (a file of either version, written from
    keys and records, opens and holds them); [Intact], [IntactRecords],
    [IntactLocator], [IntactReads] and [Served] (an intact dictionary is
    served); [WrittenReads] (a written dictionary answers with what was
    written).

    [Samples], [SampleDictionary] and [IndexSample] are concrete files, on
    which the witnesses evaluate the model.

    ** What the theorems show

    Parsing.  Whatever the bytes, opening never panics and yields a well-formed
    layout or an error; the checks of [verify] are exactly well-formedness; the
    parsers invert encoders of the wire formats (keyword index, key rows,
    record index, blocks, ciphers, header tags).  The optimised ADLER32 is the
    textbook one; the three normalization loops agree.

    The core.  A key, a record span, a batch of keys, an iterator returns what
    the rows and the record stream of the file are, whatever the caches hold;
    a span that is inverted, leaves the stream or exceeds the limit is refused
    before anything is read; the in-memory index is built once and shared, and
    a failure to build it replayed; every operation keeps [core_ok], so no reservation or handle leaks, on
    error paths too.  The in-memory index sorts the rows, and every lookup
    (plain, paged, case variants, prefix) returns what its specification over
    the list of keys says ([locate_spec], [variants_spec], [prefix_spec]).
    The concurrent budget never exceeds its ceiling under any interleaving.

    The facades.  [Mdx.lookup] returns the entry of the first row its lookup
    finds, [Mdd.copy_to] writes the bytes of the span in order and once; when it
    fails, a beginning of the span is written and the error is the writer's or
    that of reading the span.

    The persistent index.  The section writer keeps one checksum per chunk for
    bytes in pieces of any size; the external sort sorts in any number of
    passes; a built index written to any destination leaves exactly its image
    there; the header is parsed back and its layout accepted.  For every
    content of an index file, opening yields a well-formed index or an error,
    an index of another dictionary file is refused, chunk arithmetic stays in
    range, the binary search ends, a lookup returns keys of the dictionary
    that match the query, and a scan visits no text but the dictionary's, even
    before it fails.  When the file does not change and its checksums are
    right, a read of a section succeeds and returns the bytes of the file.  An
    index that is built, written and opened answers every query as the
    in-memory index does ([BuildTheorems]).

    Availability. The theorems above say that what is returned is right and
    what is refused is an error. [serves] is the other half: on an intact
    dictionary ([intact]: the file does not change, its blocks decode, the key
    index and the offsets agree with the rows) an operation returns the right
    value in every state the served operations reach; the only other outcome is
    [over_limit], a configured limit or the memory budget. It is shown for
    reading by ordinal, single and in batches, for the iterators, and for every
    lookup of the facades ([intact_dictionary_served],
    [intact_lookups_served]). In particular no check of the caches refuses an
    intact file, and the failures they remember are failures to stay within a
    limit. Together with the writer: keys and texts written into a file of
    either version, in UTF-8 or UTF-16, come back from any sequence of lookups
    and from the iterator ([written_lookup_round_trip]).

    The tools.  Every fuzz target returns on every input; the digests of the
    audits are SHA-256, fed in pieces of any size, against the standard written
    down on its own ([Sha256.Fips]); the cross-checks of the
    audits cannot fail on a file that never changes, and what they report
    follows from the rows and the records; a printed dump determines the keys
    and the digests; the two scans of the benchmark agree.

    ** Not modelled

    Poisoned mutexes (a panic in another thread under the lock); real
    concurrency other than that of the memory budget, since the mutexes
    serialize the operations of an open dictionary; retries after an
    interrupted system call; the content of a destination after a failed
    write; the sizes of vectors other than through the reservations the code
    makes and, in the sort buffer, through [vec_capacity]; the directory a
    scratch file is made in; file names and the creation of files beyond
    success and failure; [Debug] output and re-exports, which have no behaviour
    of their own.  Of bench_local.rs, its clocks, threads and timed lookups;
    inspect.rs and persistent_index_cost.rs, which print what modelled calls
    return and time them; the bindings and the tests.  The accessors of the
    value types are record projections.  Written files hold stored blocks
    without encryption: compression and the ciphers have their own round trips
    ([Compression], [Crypto]), and [intact] does not fix how a block is
    stored. *)

From Stdlib Require Export ZArith Lia Bool Permutation Sorting.Sorted.
From stdpp Require Export base tactics option list sets strings pretty.

#[export] Set Default Goal Selector "!".

Open Scope Z_scope.

(** * Machine integers

    Every unsigned machine integer is a [Z]; the checked operations of the
    standard library are written out with the bound of their width.  The model
    fixes a 64-bit target, so [usize] and [u64] have the same range. *)

Definition u8_max : Z := 255.

Definition u16_max : Z := 65535.

Definition u32_max : Z := 4294967295.

Definition u64_max : Z := 18446744073709551615.

Definition usize_max : Z := u64_max.

Definition isize_max : Z := 9223372036854775807.

Definition is_u8 (x : Z) : Prop := 0 <= x <= u8_max.

Definition is_u32 (x : Z) : Prop := 0 <= x <= u32_max.

Definition is_u64 (x : Z) : Prop := 0 <= x <= u64_max.

(** [checked_add], [checked_mul], [checked_sub] of [u64] and [usize]. *)
Definition checked_add (a b : Z) : option Z :=
  if a + b <=? u64_max then Some (a + b) else None.

Definition checked_mul (a b : Z) : option Z :=
  if a * b <=? u64_max then Some (a * b) else None.

Definition checked_sub (a b : Z) : option Z :=
  if b <=? a then Some (a - b) else None.

Definition saturating_sub (a b : Z) : Z := Z.max 0 (a - b).

Definition saturating_add (a b : Z) : Z := Z.min u64_max (a + b).

Definition saturating_mul (a b : Z) : Z := Z.min u64_max (a * b).

(** [u64::try_from], [usize::try_from] and [u32::try_from]. *)
Definition try_u64 (x : Z) : option Z := if x <=? u64_max then Some x else None.

Definition try_usize (x : Z) : option Z := if x <=? usize_max then Some x else None.

Definition try_u32 (x : Z) : option Z := if x <=? u32_max then Some x else None.

(** Wrapping operations on 32-bit words. *)
Definition wrap32 (x : Z) : Z := x mod 2 ^ 32.

Definition wrapping_add32 (a b : Z) : Z := wrap32 (a + b).

Definition wrapping_mul32 (a b : Z) : Z := wrap32 (a * b).

Definition not32 (x : Z) : Z := u32_max - x.

Definition rotate_left32 (x n : Z) : Z :=
  Z.lor (wrap32 (Z.shiftl x n)) (Z.shiftr x (32 - n)).

(** [u8::rotate_left(4)]: the two nibbles of a byte trade places. *)
Definition swap_nibbles (x : Z) : Z :=
  Z.lor (Z.land (Z.shiftl x 4) 255) (Z.shiftr x 4).

(** * Bytes, slices and text *)

Notation byte := Z (only parsing).

Notation bytes := (list Z) (only parsing).

(** Text is the UTF-8 byte sequence of a Rust [String] or [&str]. *)
Notation text := (list Z) (only parsing).

Notation zlen l := (Z.of_nat (length l)).

Definition is_byte (b : Z) : Prop := 0 <= b < 256.

Definition bytes_ok (l : bytes) : Prop := Forall is_byte l.

(** [slice.get(a..b)]. *)
Definition slice {A} (l : list A) (a b : Z) : option (list A) :=
  if (0 <=? a) && (a <=? b) && (b <=? zlen l)
  then Some (take (Z.to_nat (b - a)) (drop (Z.to_nat a) l))
  else None.

(** [slice.get(i)]. *)
Definition get_at {A} (l : list A) (i : Z) : option A :=
  if 0 <=? i then l !! Z.to_nat i else None.

(** The bytes of an ASCII literal. *)
Definition lit (s : string) : bytes :=
  map (fun c => Z.of_N (Ascii.N_of_ascii c)) (String.list_ascii_of_string s).

(** A byte sequence inside a message; messages are byte strings. *)
Definition msg_of_bytes (l : bytes) : string :=
  String.string_of_list_ascii (map (fun b => Ascii.ascii_of_N (Z.to_N b)) l).

Definition bytes_eqb (a b : bytes) : bool := bool_decide (a = b).

(** ** Formatting used by error messages *)

Definition fmt_dec (x : Z) : string := pretty x.

Definition hex_digit (x : Z) : string :=
  nth (Z.to_nat x)
    ["0"; "1"; "2"; "3"; "4"; "5"; "6"; "7";
     "8"; "9"; "a"; "b"; "c"; "d"; "e"; "f"]%string "?"%string.

(** [{:02x}] of a byte. *)
Definition fmt_hex2 (x : Z) : string :=
  String.append (hex_digit (x / 16)) (hex_digit (x mod 16)).

(** [{:02x?}] of a byte slice. *)
Fixpoint fmt_hex_items (l : bytes) : string :=
  match l with
  | [] => ""
  | [b] => fmt_hex2 b
  | b :: rest => String.append (fmt_hex2 b) (String.append ", " (fmt_hex_items rest))
  end.

Definition fmt_hex_list (l : bytes) : string :=
  String.append "[" (String.append (fmt_hex_items l) "]").

Infix "+++" := String.append (at level 60, right associativity) : string_scope.

(** ** Byte order

    [be_combine] and [le_combine] are [from_be_bytes] and [from_le_bytes] of
    any width; [be_split] and [le_split] the inverse conversions. *)

Fixpoint le_combine (l : bytes) : Z :=
  match l with
  | [] => 0
  | b :: rest => b + 256 * le_combine rest
  end.

Fixpoint le_split (n : nat) (x : Z) : bytes :=
  match n with
  | O => []
  | S n => x mod 256 :: le_split n (x / 256)
  end.

Definition be_combine (l : bytes) : Z := le_combine (rev l).

Definition be_split (n : nat) (x : Z) : bytes := rev (le_split n x).

(** * Lexicographic order on bytes: [Ord] of [[u8]] and [str] *)

Fixpoint bytes_cmp (a b : bytes) : comparison :=
  match a, b with
  | [], [] => Eq
  | [], _ :: _ => Lt
  | _ :: _, [] => Gt
  | x :: a, y :: b =>
      match Z.compare x y with
      | Eq => bytes_cmp a b
      | c => c
      end
  end.

Definition bytes_ltb (a b : bytes) : bool :=
  match bytes_cmp a b with Lt => true | _ => false end.

Definition bytes_leb (a b : bytes) : bool :=
  match bytes_cmp a b with Gt => false | _ => true end.

Fixpoint starts_with (l p : bytes) {struct p} : bool :=
  match p, l with
  | [], _ => true
  | x :: p, y :: l => (x =? y) && starts_with l p
  | _ :: _, [] => false
  end.

(** * Shared lemmas *)

Create HintDb mdict discriminated.

Lemma checked_add_Some a b c :
  checked_add a b = Some c <-> c = a + b /\ a + b <= u64_max.
Proof. unfold checked_add. destruct (Z.leb_spec (a + b) u64_max); naive_solver lia. Qed.

Lemma checked_mul_Some a b c :
  checked_mul a b = Some c <-> c = a * b /\ a * b <= u64_max.
Proof. unfold checked_mul. destruct (Z.leb_spec (a * b) u64_max); naive_solver lia. Qed.

Lemma checked_sub_Some a b c :
  checked_sub a b = Some c <-> c = a - b /\ b <= a.
Proof. unfold checked_sub. destruct (Z.leb_spec b a); naive_solver lia. Qed.

Lemma try_u64_Some a c : try_u64 a = Some c <-> c = a /\ a <= u64_max.
Proof. unfold try_u64. destruct (Z.leb_spec a u64_max); naive_solver lia. Qed.

Lemma try_usize_Some a c : try_usize a = Some c <-> c = a /\ a <= usize_max.
Proof. unfold try_usize. destruct (Z.leb_spec a usize_max); naive_solver lia. Qed.

Lemma try_u32_Some a c : try_u32 a = Some c <-> c = a /\ a <= u32_max.
Proof. unfold try_u32. destruct (Z.leb_spec a u32_max); naive_solver lia. Qed.

Lemma slice_Some {A} (l : list A) a b s :
  slice l a b = Some s <->
  (0 <= a <= b /\ b <= zlen l) /\ s = take (Z.to_nat (b - a)) (drop (Z.to_nat a) l).
Proof.
  unfold slice.
  destruct (Z.leb_spec 0 a), (Z.leb_spec a b), (Z.leb_spec b (zlen l)); simpl; naive_solver lia.
Qed.

Lemma slice_None {A} (l : list A) a b :
  slice l a b = None <-> ~ (0 <= a <= b /\ b <= zlen l).
Proof.
  unfold slice.
  destruct (Z.leb_spec 0 a), (Z.leb_spec a b), (Z.leb_spec b (zlen l)); simpl; naive_solver lia.
Qed.

Lemma slice_is_Some {A} (l : list A) a b : 0 <= a <= b -> b <= zlen l -> is_Some (slice l a b).
Proof.
  intros ? ?. destruct (slice l a b) eqn:Hs; [by eexists|]. apply slice_None in Hs. lia.
Qed.

Lemma slice_length {A} (l : list A) a b s :
  slice l a b = Some s -> zlen s = b - a.
Proof.
  intros [? ->]%slice_Some. rewrite length_take, length_drop. lia.
Qed.

Lemma slice_Forall {A} (P : A -> Prop) (l : list A) a b s :
  slice l a b = Some s -> Forall P l -> Forall P s.
Proof. intros [? ->]%slice_Some ?. by apply Forall_take, Forall_drop. Qed.

(** A slice of a slice, and two slices end to end. *)
Lemma slice_slice {A} (l m r : list A) a b x y :
  slice l a b = Some m -> slice m x y = Some r -> slice l (a + x) (a + y) = Some r.
Proof.
  intros Hm Hr. pose proof (slice_length _ _ _ _ Hm). apply slice_Some in Hm as [[? ?] Hm].
  apply slice_Some in Hr as [[? ?] Hr]. apply slice_Some. split; [lia|].
  rewrite Hr, Hm, skipn_firstn_comm, take_take, drop_drop. f_equal; [lia|]. f_equal. lia.
Qed.

Lemma slice_join {A} (l m r : list A) a b c :
  slice l a b = Some m -> slice l b c = Some r -> slice l a c = Some (m ++ r).
Proof.
  intros Hm Hr. apply slice_Some in Hm as [[? ?] ->]. apply slice_Some in Hr as [[? ?] ->].
  apply slice_Some. split; [lia|].
  replace (Z.to_nat (c - a)) with (Z.to_nat (b - a) + Z.to_nat (c - b))%nat by lia.
  rewrite <- take_take_drop, drop_drop. do 3 f_equal. lia.
Qed.

Lemma slice_app_mid {A} (p m q : list A) :
  slice (p ++ m ++ q) (zlen p) (zlen p + zlen m) = Some m.
Proof.
  apply slice_Some. rewrite !length_app. split; [lia|].
  replace (Z.to_nat (zlen p)) with (length p) by lia.
  replace (Z.to_nat (zlen p + zlen m - zlen p)) with (length m) by lia.
  by rewrite drop_app_length, take_app_length.
Qed.

Lemma get_at_Some {A} (l : list A) i x :
  get_at l i = Some x -> 0 <= i < zlen l.
Proof.
  unfold get_at. destruct (Z.leb_spec 0 i); [|done].
  intros Hl%lookup_lt_Some. lia.
Qed.

Lemma get_at_is_Some {A} (l : list A) i :
  0 <= i < zlen l -> is_Some (get_at l i).
Proof.
  intros ?. unfold get_at. rewrite (proj2 (Z.leb_le 0 i)) by lia.
  apply lookup_lt_is_Some. lia.
Qed.

Lemma get_at_None {A} (l : list A) i :
  0 <= i -> get_at l i = None -> zlen l <= i.
Proof.
  intros ?. unfold get_at. rewrite (proj2 (Z.leb_le 0 i)) by lia.
  intros ?%lookup_ge_None. lia.
Qed.

Lemma get_at_elem_of {A} (l : list A) i x : get_at l i = Some x -> x ∈ l.
Proof.
  unfold get_at. destruct (0 <=? i); [|done]. apply list_elem_of_lookup_2.
Qed.

Lemma length_le_split n x : length (le_split n x) = n.
Proof. revert x; induction n as [|n IH]; intros x; simpl; [done|]. by rewrite IH. Qed.

Lemma length_be_split n x : length (be_split n x) = n.
Proof. unfold be_split. by rewrite length_rev, length_le_split. Qed.

Lemma le_split_ok n x : bytes_ok (le_split n x).
Proof.
  revert x; induction n as [|n IH]; intros x; simpl; constructor; [|apply IH].
  unfold is_byte. pose proof (Z.mod_pos_bound x 256). lia.
Qed.

Lemma be_split_ok n x : bytes_ok (be_split n x).
Proof. apply Forall_rev, le_split_ok. Qed.

Lemma le_combine_split n x :
  0 <= x < 256 ^ Z.of_nat n -> le_combine (le_split n x) = x.
Proof.
  revert x; induction n as [|n IH]; intros x Hx.
  - simpl in *. lia.
  - rewrite Nat2Z.inj_succ, Z.pow_succ_r in Hx by lia. simpl.
    rewrite IH.
    + pose proof (Z.div_mod x 256). lia.
    + split; [apply Z.div_pos; lia | apply Z.div_lt_upper_bound; lia].
Qed.

Lemma be_combine_split n x :
  0 <= x < 256 ^ Z.of_nat n -> be_combine (be_split n x) = x.
Proof. unfold be_combine, be_split. rewrite rev_involutive. apply le_combine_split. Qed.

Lemma le_split_combine n l :
  bytes_ok l -> length l = n -> le_split n (le_combine l) = l.
Proof.
  intros Hl; revert n; induction Hl as [|b l Hb _ IH]; intros n <-; [done|].
  cbn [length le_split le_combine]. unfold is_byte in Hb.
  rewrite (Z.mul_comm 256), Z.mod_add, Z.div_add, Z.mod_small, Z.div_small by lia.
  by rewrite Z.add_0_l, IH.
Qed.

Lemma be_split_combine n l :
  bytes_ok l -> length l = n -> be_split n (be_combine l) = l.
Proof.
  intros Hl Hn. unfold be_split, be_combine.
  rewrite le_split_combine; [apply rev_involutive|by apply Forall_rev|by rewrite length_rev].
Qed.

Lemma le_combine_bound l :
  bytes_ok l -> 0 <= le_combine l < 256 ^ Z.of_nat (length l).
Proof.
  induction 1 as [|b l Hb _ IH]; cbn [le_combine length]; [lia|].
  rewrite Nat2Z.inj_succ, Z.pow_succ_r by lia. unfold is_byte in Hb. lia.
Qed.

Lemma be_combine_bound l :
  bytes_ok l -> 0 <= be_combine l < 256 ^ Z.of_nat (length l).
Proof.
  intros Hl. unfold be_combine. rewrite <- (length_rev l).
  by apply le_combine_bound, Forall_rev.
Qed.

Lemma be_combine_width l n :
  bytes_ok l -> length l = n -> 0 <= be_combine l <= 256 ^ Z.of_nat n - 1.
Proof. intros Hl <-. pose proof (be_combine_bound l Hl). lia. Qed.

Lemma bytes_ok_app l1 l2 : bytes_ok (l1 ++ l2) <-> bytes_ok l1 /\ bytes_ok l2.
Proof. apply Forall_app. Qed.

Lemma bytes_ok_check (l : bytes) : forallb (fun b => (0 <=? b) && (b <? 256)) l = true -> bytes_ok l.
Proof.
  intros H. apply Forall_forall. intros b Hb%list_elem_of_In.
  rewrite forallb_forall in H. apply H in Hb. apply andb_true_iff in Hb. unfold is_byte. lia.
Qed.

(** ** The byte order is a total order *)

Lemma bytes_cmp_refl a : bytes_cmp a a = Eq.
Proof. induction a as [|x a IH]; simpl; [done|]. by rewrite Z.compare_refl. Qed.

Lemma bytes_cmp_eq a b : bytes_cmp a b = Eq <-> a = b.
Proof.
  split; [|intros ->; apply bytes_cmp_refl].
  revert b; induction a as [|x a IH]; intros [|y b]; simpl; try done.
  destruct (Z.compare_spec x y); try done. intros H1. f_equal; auto.
Qed.

Lemma bytes_cmp_antisym a b : bytes_cmp b a = CompOpp (bytes_cmp a b).
Proof.
  revert b; induction a as [|x a IH]; intros [|y b]; simpl; try done.
  rewrite (Z.compare_antisym x y). destruct (Z.compare x y); simpl; auto.
Qed.

Lemma bytes_cmp_lt_trans a b c :
  bytes_cmp a b = Lt -> bytes_cmp b c = Lt -> bytes_cmp a c = Lt.
Proof.
  revert b c; induction a as [|x a IH]; intros [|y b] [|z c]; simpl; try done.
  destruct (Z.compare_spec x y); try done;
    destruct (Z.compare_spec y z); try done; intros;
    destruct (Z.compare_spec x z); try lia; try done; eauto.
Qed.

Lemma bytes_ltb_spec a b : bytes_ltb a b = true <-> bytes_cmp a b = Lt.
Proof. unfold bytes_ltb. destruct (bytes_cmp a b); naive_solver. Qed.

Lemma bytes_leb_spec a b : bytes_leb a b = true <-> bytes_cmp a b <> Gt.
Proof. unfold bytes_leb. destruct (bytes_cmp a b); naive_solver. Qed.

Lemma bytes_leb_refl a : bytes_leb a a = true.
Proof. unfold bytes_leb. by rewrite bytes_cmp_refl. Qed.

Lemma bytes_leb_total a b : bytes_leb a b = true \/ bytes_leb b a = true.
Proof. unfold bytes_leb. rewrite (bytes_cmp_antisym a b). destruct (bytes_cmp a b); auto. Qed.

Lemma bytes_leb_antisym a b : bytes_leb a b = true -> bytes_leb b a = true -> a = b.
Proof.
  unfold bytes_leb. rewrite (bytes_cmp_antisym a b).
  destruct (bytes_cmp a b) eqn:E; simpl; try done. by apply bytes_cmp_eq in E.
Qed.

Lemma bytes_leb_trans a b c :
  bytes_leb a b = true -> bytes_leb b c = true -> bytes_leb a c = true.
Proof.
  unfold bytes_leb.
  destruct (bytes_cmp a b) eqn:E1; try done; destruct (bytes_cmp b c) eqn:E2; try done.
  - apply bytes_cmp_eq in E1 as ->. by rewrite E2.
  - apply bytes_cmp_eq in E1 as ->. by rewrite E2.
  - apply bytes_cmp_eq in E2 as ->. by rewrite E1.
  - by rewrite (bytes_cmp_lt_trans a b c).
Qed.

Lemma bytes_ltb_leb a b : bytes_ltb a b = negb (bytes_leb b a).
Proof.
  unfold bytes_ltb, bytes_leb. rewrite (bytes_cmp_antisym a b).
  by destruct (bytes_cmp a b).
Qed.

Lemma bytes_eqb_true a b : bytes_eqb a b = true <-> a = b.
Proof. unfold bytes_eqb. by rewrite bool_decide_eq_true. Qed.

Lemma starts_with_spec l p : starts_with l p = true <-> exists q, l = p ++ q.
Proof.
  revert l; induction p as [|x p IH]; intros l; simpl.
  { split; [intros _; by exists l | done]. }
  destruct l as [|y l]; [split; [done|by intros [q ?]]|].
  rewrite andb_true_iff, Z.eqb_eq, IH. split.
  - intros [-> [q ->]]. eauto.
  - intros [q [= -> ->]]. eauto.
Qed.

(** A property of all numbers below a bound, by evaluation. *)
Lemma check_below (n : nat) (p : Z -> bool) :
  forallb (fun k => p (Z.of_nat k)) (seq 0 n) = true ->
  forall b, 0 <= b < Z.of_nat n -> p b = true.
Proof.
  intros H b Hb. rewrite forallb_forall in H.
  specialize (H (Z.to_nat b) ltac:(apply in_seq; lia)). by rewrite Z2Nat.id in H by lia.
Qed.

Lemma swap_nibbles_involutive b : is_byte b -> swap_nibbles (swap_nibbles b) = b.
Proof.
  intros Hb. apply Z.eqb_eq.
  by apply (check_below 256 (fun b => swap_nibbles (swap_nibbles b) =? b)); [by vm_compute|].
Qed.

Lemma swap_nibbles_byte b : is_byte b -> is_byte (swap_nibbles b).
Proof.
  intros Hb.
  pose proof (check_below 256 (fun b => (0 <=? swap_nibbles b) && (swap_nibbles b <? 256))
    ltac:(by vm_compute) b Hb) as H. apply andb_true_iff in H. unfold is_byte. lia.
Qed.

Lemma lxor_byte a b : is_byte a -> is_byte b -> is_byte (Z.lxor a b).
Proof.
  unfold is_byte. intros Ha Hb. split; [apply Z.lxor_nonneg; lia|].
  destruct (Z.eq_dec (Z.lxor a b) 0) as [->|Hn]; [lia|].
  apply Z.log2_lt_cancel. change (Z.log2 256) with 8.
  eapply Z.le_lt_trans; [apply Z.log2_lxor; lia|].
  apply Z.max_lub_lt.
  - destruct (Z.eq_dec a 0) as [->|]; [simpl; lia|]. apply Z.log2_lt_pow2; lia.
  - destruct (Z.eq_dec b 0) as [->|]; [simpl; lia|]. apply Z.log2_lt_pow2; lia.
Qed.

#[export] Hint Resolve be_split_ok le_split_ok lxor_byte swap_nibbles_byte : mdict.

(** * Tactics *)

(** Turns boolean comparisons in the context into propositions for [lia]. *)
Ltac zbool :=
  repeat match goal with
  | H : (_ <? _) = true |- _ => apply Z.ltb_lt in H
  | H : (_ <? _) = false |- _ => apply Z.ltb_ge in H
  | H : (_ <=? _) = true |- _ => apply Z.leb_le in H
  | H : (_ <=? _) = false |- _ => apply Z.leb_gt in H
  | H : (_ >? _) = true |- _ => rewrite Z.gtb_ltb in H; apply Z.ltb_lt in H
  | H : (_ >? _) = false |- _ => rewrite Z.gtb_ltb in H; apply Z.ltb_ge in H
  | H : (_ =? _) = true |- _ => apply Z.eqb_eq in H
  | H : (_ =? _) = false |- _ => apply Z.eqb_neq in H
  | H : (_ && _) = true |- _ => apply andb_true_iff in H as [? ?]
  | H : (_ || _) = false |- _ => apply orb_false_iff in H as [? ?]
  | H : negb _ = true |- _ => apply negb_true_iff in H
  | H : negb _ = false |- _ => apply negb_false_iff in H
  end.
