(* ===== verification/Errors.v ===== *)
(** Errors ([src/error.rs], the rejection reasons of [src/index.rs]) and the
    two computation types of the development: [Result], which adds to Rust's
    [Result] the outcomes "the code panics" and "the model ran out of fuel",
    and [M], a state monad over [Result].  [wp] and [wpM] are the
    postcondition predicates the proofs are written with: both demand that a
    computation neither panics nor runs out of fuel. *)

From S2P Require Import Prelude.

(** * Error values *)

(** [KeyIndexRejection] *)
Inductive KeyIndexRejection :=
| RejInvalidMagic
| RejUnsupportedFormatRevision (found : Z)
| RejUnsupportedEndianMarker (found : Z)
| RejIncompatibleParserRevision (found : Z)
| RejIncompatibleNormalizationRevision (found : Z)
| RejSourceIdentityMismatch
| RejSourceLengthMismatch (expected actual : Z)
| RejSourceModifiedMismatch (expected actual : Z)
| RejKeyCountMismatch (expected actual : Z)
| RejFileLengthMismatch (declared actual : Z)
| RejInvalidLayout (reason : string)
| RejChecksumMismatch (section : string) (chunk : option Z) (expected actual : Z)
| RejSourceKeyMismatch (ordinal : Z).

(** [Error] *)
Inductive Error :=
| Io (kind : string)
| InvalidFormat (context : string)
| InvalidData (context : string)
| Truncated (context : string) (needed remaining : Z)
| LimitExceeded (limit : string) (value max : Z)
| AllocationFailed (context : string) (requested : Z)
| ChecksumMismatch (context : string) (expected actual : Z)
| Decode (context encoding : string)
| MissingPasscode
| InvalidPasscode (context : string)
| Unsupported (feature : string)
| KeyIndexRejected (reason : KeyIndexRejection)
| Cancelled (operation : string)
| SourceChanged (operation : string).

#[export] Instance KeyIndexRejection_eq_dec : EqDecision KeyIndexRejection.
Proof. solve_decision. Defined.

#[export] Instance Error_eq_dec : EqDecision Error.
Proof. solve_decision. Defined.

(** [Error::truncated] *)
Definition truncated (context : string) (needed remaining : Z) : Error :=
  Truncated context needed remaining.

(** [reject] of [core/persistent/format.rs] *)
Definition reject (reason : KeyIndexRejection) : Error := KeyIndexRejected reason.

(** [{:#010x}] *)
Definition fmt_hex_u32 (x : Z) : string :=
  ("0x" +++ fmt_hex2 (x / 2 ^ 24 mod 256) +++ fmt_hex2 (x / 2 ^ 16 mod 256)
   +++ fmt_hex2 (x / 2 ^ 8 mod 256) +++ fmt_hex2 (x mod 256))%string.

(** [impl Display for KeyIndexRejection] *)
Definition rejection_display (r : KeyIndexRejection) : string :=
  match r with
  | RejInvalidMagic => "invalid magic"
  | RejUnsupportedFormatRevision found => "unsupported format revision " +++ fmt_dec found
  | RejUnsupportedEndianMarker found => "unsupported endian marker " +++ fmt_hex_u32 found
  | RejIncompatibleParserRevision found => "incompatible parser revision " +++ fmt_dec found
  | RejIncompatibleNormalizationRevision found =>
      "incompatible normalization revision " +++ fmt_dec found
  | RejSourceIdentityMismatch => "source identity mismatch"
  | RejSourceLengthMismatch expected actual =>
      "source length mismatch: expected " +++ fmt_dec expected +++ ", got " +++ fmt_dec actual
  | RejSourceModifiedMismatch expected actual =>
      "source modification time mismatch: expected " +++ fmt_dec expected
        +++ ", got " +++ fmt_dec actual
  | RejKeyCountMismatch expected actual =>
      "source key-count mismatch: expected " +++ fmt_dec expected
        +++ ", got " +++ fmt_dec actual
  | RejFileLengthMismatch declared actual =>
      "file length mismatch: declared " +++ fmt_dec declared +++ ", got " +++ fmt_dec actual
  | RejInvalidLayout reason => "invalid layout: " +++ reason
  | RejChecksumMismatch section (Some chunk) expected actual =>
      "checksum mismatch for " +++ section +++ " chunk " +++ fmt_dec chunk
        +++ ": expected " +++ fmt_hex_u32 expected +++ ", got " +++ fmt_hex_u32 actual
  | RejChecksumMismatch section None expected actual =>
      "checksum mismatch for " +++ section
        +++ ": expected " +++ fmt_hex_u32 expected +++ ", got " +++ fmt_hex_u32 actual
  | RejSourceKeyMismatch ordinal => "source key mismatch at ordinal " +++ fmt_dec ordinal
  end%string.

(** [impl Display for Error] *)
Definition error_display (e : Error) : string :=
  match e with
  | Io kind => "I/O error: " +++ kind
  | InvalidFormat context => "invalid format: " +++ context
  | InvalidData context => "invalid data: " +++ context
  | Truncated context needed remaining =>
      "truncated " +++ context +++ ": need " +++ fmt_dec needed
        +++ " bytes, have " +++ fmt_dec remaining
  | LimitExceeded limit value max =>
      "limit exceeded for " +++ limit +++ ": " +++ fmt_dec value +++ " > " +++ fmt_dec max
  | AllocationFailed context requested =>
      "failed to reserve " +++ fmt_dec requested +++ " bytes for " +++ context
  | ChecksumMismatch context expected actual =>
      "checksum mismatch for " +++ context +++ ": expected " +++ fmt_hex_u32 expected
        +++ ", got " +++ fmt_hex_u32 actual
  | Decode context encoding => "failed to decode " +++ context +++ " using " +++ encoding
  | MissingPasscode => "dictionary requires a passcode"
  | InvalidPasscode context => "invalid passcode: " +++ context
  | Unsupported feature => "unsupported feature: " +++ feature
  | KeyIndexRejected reason => "key index rejected: " +++ rejection_display reason
  | Cancelled operation => operation +++ " was cancelled"
  | SourceChanged operation => "source changed while " +++ operation +++ " was running"
  end%string.

(** * Computations that may fail *)

Inductive Result (A : Type) :=
| Ok (a : A)
| Err (e : Error)
| Panic (site : string)
| OutOfFuel.

Arguments Ok {A} a.
Arguments Err {A} e.
Arguments Panic {A} site.
Arguments OutOfFuel {A}.

Definition rbind {A B} (r : Result A) (k : A -> Result B) : Result B :=
  match r with
  | Ok a => k a
  | Err e => Err e
  | Panic s => Panic s
  | OutOfFuel => OutOfFuel
  end.

(** [option.ok_or(error)?] *)
Definition ok_or {A} (o : option A) (e : Error) : Result A :=
  match o with Some a => Ok a | None => Err e end.

(** An index, slice or [expect] that panics when it is out of range. *)
Definition or_panic {A} (o : option A) (site : string) : Result A :=
  match o with Some a => Ok a | None => Panic site end.

(** [if !condition { return Err(error) }] *)
Definition ensure (b : bool) (e : Error) : Result unit :=
  if b then Ok tt else Err e.

Declare Scope mdict_scope.

Notation "'let?' x ':=' e 'in' k" := (rbind e (fun x => k))
  (at level 200, x binder, e at level 100, k at level 200, right associativity) : mdict_scope.

Notation "e ';;?' k" := (rbind e (fun _ => k))
  (at level 100, k at level 200, right associativity) : mdict_scope.

(** A state monad: a failing computation still leaves a state behind. *)
Definition M (S A : Type) : Type := S -> Result A * S.

Definition mret {S A} (a : A) : M S A := fun s => (Ok a, s).

Definition merr {S A} (e : Error) : M S A := fun s => (Err e, s).

Definition lift {S A} (r : Result A) : M S A := fun s => (r, s).

Definition mbind {S A B} (m : M S A) (k : A -> M S B) : M S B := fun s =>
  match m s with
  | (Ok a, s) => k a s
  | (Err e, s) => (Err e, s)
  | (Panic site, s) => (Panic site, s)
  | (OutOfFuel, s) => (OutOfFuel, s)
  end.

Notation "'let!' x ':=' e 'in' k" := (mbind e (fun x => k))
  (at level 200, x binder, e at level 100, k at level 200, right associativity) : mdict_scope.

Notation "e ';;!' k" := (mbind e (fun _ => k))
  (at level 100, k at level 200, right associativity) : mdict_scope.

Open Scope mdict_scope.

(** * Postconditions *)

(** [r] returns a value in [Q] or one of Rust's errors: it does not panic and
    the fuel of the model was enough. *)
Definition wp {A} (r : Result A) (Q : A -> Prop) : Prop :=
  match r with
  | Ok a => Q a
  | Err _ => True
  | Panic _ | OutOfFuel => False
  end.

(** [r] returns a value in [Q]: it does not even fail. *)
Definition returns {A} (r : Result A) (Q : A -> Prop) : Prop :=
  match r with
  | Ok a => Q a
  | _ => False
  end.

(** The same for [M], with a condition [E] on the state an error leaves. *)
Definition wpM {S A} (m : M S A) (s : S) (Q : A -> S -> Prop) (E : Error -> S -> Prop) : Prop :=
  match m s with
  | (Ok a, s') => Q a s'
  | (Err e, s') => E e s'
  | (Panic _, _) | (OutOfFuel, _) => False
  end.

(** A computation that has one of Rust's two outcomes. *)
Definition safe {A} (r : Result A) : Prop := wp r (fun _ => True).

(** * Rules *)

Lemma wp_bind {A B} (r : Result A) (k : A -> Result B) Q :
  wp r (fun a => wp (k a) Q) -> wp (rbind r k) Q.
Proof. by destruct r. Qed.

Lemma wp_mono {A} (r : Result A) (P Q : A -> Prop) :
  wp r P -> (forall a, P a -> Q a) -> wp r Q.
Proof. destruct r; simpl; auto. Qed.

Lemma wp_and {A} (r : Result A) (P Q : A -> Prop) :
  wp r P -> wp r Q -> wp r (fun a => P a /\ Q a).
Proof. destruct r; simpl; auto. Qed.

Lemma wp_Ok {A} (r : Result A) (Q : A -> Prop) a : wp r Q -> r = Ok a -> Q a.
Proof. by intros H ->. Qed.

Lemma wp_safe {A} (r : Result A) (Q : A -> Prop) : wp r Q -> safe r.
Proof. intros H. eapply wp_mono; [exact H|done]. Qed.

Lemma wp_eq {A} (r : Result A) (Q : A -> Prop) :
  safe r -> (forall a, r = Ok a -> Q a) -> wp r Q.
Proof. destruct r; simpl; auto. Qed.

Lemma wp_ok_or {A} (o : option A) e (Q : A -> Prop) :
  (forall a, o = Some a -> Q a) -> wp (ok_or o e) Q.
Proof. destruct o; simpl; auto. Qed.

Lemma wp_or_panic {A} (o : option A) site (Q : A -> Prop) :
  is_Some o -> (forall a, o = Some a -> Q a) -> wp (or_panic o site) Q.
Proof. intros [a ->]; simpl; auto. Qed.

Lemma wp_ensure (b : bool) e (Q : unit -> Prop) :
  (b = true -> Q tt) -> wp (ensure b e) Q.
Proof. destruct b; simpl; auto. Qed.

Lemma wp_if {A} (b : bool) (r1 r2 : Result A) Q :
  (b = true -> wp r1 Q) -> (b = false -> wp r2 Q) -> wp (if b then r1 else r2) Q.
Proof. destruct b; auto. Qed.

Lemma returns_wp {A} (r : Result A) (Q : A -> Prop) : returns r Q -> wp r Q.
Proof. by destruct r. Qed.

Lemma returns_Ok {A} (r : Result A) (Q : A -> Prop) :
  returns r Q <-> exists a, r = Ok a /\ Q a.
Proof. destruct r; simpl; naive_solver. Qed.

Lemma returns_bind {A B} (r : Result A) (k : A -> Result B) Q :
  returns r (fun a => returns (k a) Q) -> returns (rbind r k) Q.
Proof. by destruct r. Qed.

Lemma returns_mono {A} (r : Result A) (P Q : A -> Prop) :
  returns r P -> (forall a, P a -> Q a) -> returns r Q.
Proof. destruct r; simpl; auto. Qed.

Lemma returns_or_panic {A} (o : option A) site (Q : A -> Prop) :
  is_Some o -> (forall a, o = Some a -> Q a) -> returns (or_panic o site) Q.
Proof. intros [a ->]; simpl; auto. Qed.

Lemma returns_if {A} (b : bool) (r1 r2 : Result A) Q :
  (b = true -> returns r1 Q) -> (b = false -> returns r2 Q) -> returns (if b then r1 else r2) Q.
Proof. destruct b; auto. Qed.

Lemma wpM_bind {S A B} (m : M S A) (k : A -> M S B) s Q E :
  wpM m s (fun a s' => wpM (k a) s' Q E) E -> wpM (mbind m k) s Q E.
Proof. unfold wpM, mbind. by destruct (m s) as [[] ?]. Qed.

Lemma wpM_mono {S A} (m : M S A) s (P Q : A -> S -> Prop) (E F : Error -> S -> Prop) :
  wpM m s P E -> (forall a s', P a s' -> Q a s') -> (forall e s', E e s' -> F e s') ->
  wpM m s Q F.
Proof. unfold wpM. destruct (m s) as [[] ?]; auto. Qed.

Lemma wpM_lift {S A} (r : Result A) (s : S) (Q : A -> S -> Prop) E :
  wp r (fun a => Q a s) -> (forall e, E e s) -> wpM (lift r) s Q E.
Proof. unfold wpM, lift. destruct r; simpl; auto. Qed.

Lemma wpM_ret {S A} (a : A) (s : S) (Q : A -> S -> Prop) E : Q a s -> wpM (mret a) s Q E.
Proof. done. Qed.

Lemma wpM_err {S A} e (s : S) (Q : A -> S -> Prop) E : E e s -> wpM (merr e) s Q E.
Proof. done. Qed.

Lemma wpM_if {S A} (b : bool) (m1 m2 : M S A) s Q E :
  (b = true -> wpM m1 s Q E) -> (b = false -> wpM m2 s Q E) ->
  wpM (if b then m1 else m2) s Q E.
Proof. destruct b; auto. Qed.

Lemma wpM_run {S A} (m : M S A) s Q E a s' :
  wpM m s Q E -> m s = (Ok a, s') -> Q a s'.
Proof. unfold wpM. by intros H Hm; rewrite Hm in H. Qed.

Lemma wp_self {A} (r : Result A) : safe r -> wp r (fun a => r = Ok a).
Proof. by destruct r. Qed.

(** A family of postconditions. *)
Lemma wpM_all {S A X} (x : X) (m : M S A) s (Q : X -> A -> S -> Prop) E :
  (forall x, wpM m s (Q x) E) -> wpM m s (fun a s' => forall x, Q x a s') E.
Proof.
  unfold wpM. intros Hm. pose proof (Hm x). destruct (m s) as [[] ?]; done.
Qed.

(** The result of a computation whose final state is dropped. *)
Lemma wp_fst {S A} (m : M S A) s (Q : A -> Prop) :
  wpM m s (fun a _ => Q a) (fun _ _ => True) -> wp (fst (m s)) Q.
Proof. unfold wpM. by destruct (m s) as [[] ?]. Qed.

Lemma wpM_total {S A} (m : M S A) s Q E :
  wpM m s Q E -> exists r s', m s = (r, s') /\ safe r.
Proof. unfold wpM. destruct (m s) as [[] s'] eqn:E1; try done; eexists _, _; done. Qed.

Lemma rbind_Ok {A B} (r : Result A) (k : A -> Result B) b :
  rbind r k = Ok b <-> exists a, r = Ok a /\ k a = Ok b.
Proof. destruct r; simpl; split; try done; try naive_solver. Qed.

Lemma ok_or_Ok {A} (o : option A) e a : ok_or o e = Ok a <-> o = Some a.
Proof. destruct o; simpl; naive_solver. Qed.

Lemma or_panic_Ok {A} (o : option A) site a : or_panic o site = Ok a <-> o = Some a.
Proof. destruct o; simpl; naive_solver. Qed.

Lemma ensure_Ok b e u : ensure b e = Ok u <-> b = true.
Proof. destruct b, u; simpl; naive_solver. Qed.

Lemma mbind_Ok {S A B} (m : M S A) (k : A -> M S B) s b s' :
  mbind m k s = (Ok b, s') <-> exists a s1, m s = (Ok a, s1) /\ k a s1 = (Ok b, s').
Proof. unfold mbind. destruct (m s) as [[] ?]; naive_solver. Qed.

(** * Tactics *)

(** Inverts every step of a hypothesis that says a computation succeeded. *)
Ltac rinv_step :=
  match goal with
  | H : rbind _ _ = Ok _ |- _ => apply rbind_Ok in H as (? & ? & H)
  | H : ok_or _ _ = Ok _ |- _ => apply ok_or_Ok in H
  | H : or_panic _ _ = Ok _ |- _ => apply or_panic_Ok in H
  | H : ensure _ _ = Ok _ |- _ => apply ensure_Ok in H
  | H : Ok _ = Ok _ |- _ => injection H as H; try subst
  | H : Err _ = Ok _ |- _ => discriminate H
  | H : Panic _ = Ok _ |- _ => discriminate H
  | H : OutOfFuel = Ok _ |- _ => discriminate H
  | H : (if ?b then _ else _) = Ok _ |- _ => destruct b eqn:?
  | H : checked_add _ _ = Some _ |- _ => apply checked_add_Some in H as [? ?]; try subst
  | H : checked_mul _ _ = Some _ |- _ => apply checked_mul_Some in H as [? ?]; try subst
  | H : checked_sub _ _ = Some _ |- _ => apply checked_sub_Some in H as [? ?]; try subst
  | H : try_usize _ = Some _ |- _ => apply try_usize_Some in H as [? ?]; try subst
  | H : try_u64 _ = Some _ |- _ => apply try_u64_Some in H as [? ?]; try subst
  | H : try_u32 _ = Some _ |- _ => apply try_u32_Some in H as [? ?]; try subst
  end.

Ltac rinv := repeat rinv_step.

(** One step of symbolic execution of a [wp] goal. *)
Ltac wp_step :=
  match goal with
  | |- wp (rbind _ _) _ => apply wp_bind
  | |- wp (Ok _) _ => simpl
  | |- wp (Err _) _ => exact I
  | |- wp (ok_or _ _) _ => apply wp_ok_or; intros ? ?
  | |- wp (ensure _ _) _ => apply wp_ensure; intros ?
  | |- wp (if _ then _ else _) _ => apply wp_if; intros ?
  end.

Ltac wp_steps := repeat wp_step.
