(* ===== verification/Types.v ===== *)
(** The value types of [src/types.rs], [src/lookup.rs] and the option types of
    [src/index.rs], the checked helpers of [src/limits.rs] and
    [src/format/common/checked.rs], and [Env]: the interface of the code that
    is not in the repository (allocator, codecs, character tables). *)

From S2P Require Import Prelude Errors.

(** * The environment *)

(** The charsets the [encoding_rs] crate decodes. *)
Inductive Charset := GBK | GB18030 | BIG5.

(** [encoding_rs::DecoderResult] *)
Inductive DecoderResult := InputEmpty | OutputFull | Malformed.

(** What one call of [miniz_oxide::inflate::core::decompress] reports: whether
    the status is [Done], its debug name, the bytes read and written, and the
    output buffer afterwards. *)
Record Inflated := {
  inf_done : bool;
  inf_status : string;
  inf_read : Z;
  inf_written : Z;
  inf_output : bytes;
}.

(** Code outside the repository.  Every definition takes it as an argument. *)
Class Env := {
  (** Whether the allocator grants a request: its context and total size. *)
  allocator : string -> Z -> bool;
  (** [cfg!(feature = "lzo")] *)
  lzo_enabled : bool;
  (** [miniz_oxide::inflate::core::decompress]: payload, output length, and
      whether the inner ADLER32 is ignored. *)
  miniz_inflate : bytes -> Z -> bool -> Inflated;
  (** [lzokay::decompress::decompress]: payload and output length; the number
      of bytes written and the output buffer. *)
  lzokay_decompress : bytes -> Z -> option (Z * bytes);
  (** [max_utf8_buffer_length_without_replacement] *)
  charset_max_len : Charset -> Z -> option Z;
  (** [decode_to_string_without_replacement]: the result, the bytes read and
      the UTF-8 text appended, for the given output capacity. *)
  charset_decode : Charset -> bytes -> Z -> DecoderResult * Z * text;
  (** [char::to_lowercase], on scalar values *)
  to_lowercase : Z -> list Z;
}.

(** * Sizes of Rust types on a 64-bit target *)

Definition size_of_string : Z := 24.

Definition size_of_string_pair : Z := 48.

Definition size_of_header : Z := 296.

Definition size_of_u32 : Z := 4.

(** * Values *)

(** [ContainerKind] *)
Inductive ContainerKind := Mdx | Mdd.

#[export] Instance ContainerKind_eq_dec : EqDecision ContainerKind.
Proof. solve_decision. Defined.

(** [KeyEntry]; a [KeyOrdinal] is its [u64] value. *)
Record KeyEntry := {
  ke_ordinal : Z;
  ke_key : text;
}.

(** [EncryptionMode::has_keyword_header] *)
Definition has_keyword_header (bits : Z) : bool := negb (Z.land bits 1 =? 0).

(** [EncryptionMode::has_keyword_index] *)
Definition has_keyword_index (bits : Z) : bool := negb (Z.land bits 2 =? 0).

(** [Header] *)
Record Header := {
  raw_xml : text;
  tag_name : text;
  attributes : list (text * text);
  generated_by_engine_version : text;
  required_engine_version : text;
  encoding_label : option text;
  format : option text;
  key_case_sensitive : bool;
  strip_key : bool;
  encrypted : Z;
  register_by : option text;
  reg_code : option text;
  description : option text;
  title : option text;
  creation_date : option text;
}.

(** [Header::attribute] *)
Definition header_attribute (h : Header) (name : text) : option text :=
  snd <$> List.find (fun p => bytes_eqb (fst p) name) (attributes h).

(** [Passcode] *)
Record Passcode := {
  reg_code_hex : text;
  user_id : text;
}.

(** [ChecksumPolicy] *)
Inductive ChecksumPolicy := Skip | Verify.

#[export] Instance ChecksumPolicy_eq_dec : EqDecision ChecksumPolicy.
Proof. solve_decision. Defined.

Definition is_verify (p : ChecksumPolicy) : bool :=
  match p with Verify => true | Skip => false end.

(** [Limits] *)
Record Limits := {
  header_xml_bytes : Z;
  header_attributes : Z;
  key_index_bytes : Z;
  record_index_bytes : Z;
  compressed_block_bytes : Z;
  decompressed_block_bytes : Z;
  block_metadata_bytes : Z;
  key_block_entries : Z;
  materialized_record_bytes : Z;
  locator_entries : Z;
  locator_bytes : Z;
  working_memory_bytes : Z;
}.

(** [Limits::new] *)
Definition limits_new : Limits := {|
  header_xml_bytes := 16 * 1024 * 1024;
  header_attributes := 4 * 1024;
  key_index_bytes := 64 * 1024 * 1024;
  record_index_bytes := 64 * 1024 * 1024;
  compressed_block_bytes := 256 * 1024 * 1024;
  decompressed_block_bytes := 512 * 1024 * 1024;
  block_metadata_bytes := 64 * 1024 * 1024;
  key_block_entries := 2000000;
  materialized_record_bytes := 64 * 1024 * 1024;
  locator_entries := 10000000;
  locator_bytes := 512 * 1024 * 1024;
  working_memory_bytes := 1024 * 1024 * 1024;
|}.

(** [Limits::large_dictionary] *)
Definition limits_large_dictionary : Limits := {|
  header_xml_bytes := 64 * 1024 * 1024;
  header_attributes := 16 * 1024;
  key_index_bytes := 512 * 1024 * 1024;
  record_index_bytes := 512 * 1024 * 1024;
  compressed_block_bytes := 1024 * 1024 * 1024;
  decompressed_block_bytes := 2 * 1024 * 1024 * 1024;
  block_metadata_bytes := 512 * 1024 * 1024;
  key_block_entries := 16000000;
  materialized_record_bytes := 512 * 1024 * 1024;
  locator_entries := u32_max;
  locator_bytes := 1024 * 1024 * 1024;
  working_memory_bytes := 2 * 1024 * 1024 * 1024;
|}.

(** Every ceiling is a value of its Rust type. *)
Definition limits_ok (l : Limits) : Prop :=
  is_u64 (header_xml_bytes l) /\ is_u64 (header_attributes l) /\
  is_u64 (key_index_bytes l) /\ is_u64 (record_index_bytes l) /\
  is_u64 (compressed_block_bytes l) /\ is_u64 (decompressed_block_bytes l) /\
  is_u64 (block_metadata_bytes l) /\ is_u64 (key_block_entries l) /\
  is_u64 (materialized_record_bytes l) /\ is_u64 (locator_entries l) /\
  is_u64 (locator_bytes l) /\ is_u64 (working_memory_bytes l).

(** [OpenOptions] *)
Record OpenOptions := {
  passcode : option Passcode;
  limits : Limits;
  checksum_policy : ChecksumPolicy;
}.

(** [OpenOptions::new] *)
Definition open_options_new : OpenOptions :=
  {| passcode := None; limits := limits_new; checksum_policy := Skip |}.

(** [MemoryUsage] *)
Record MemoryUsage := {
  mu_current_bytes : Z;
  mu_peak_bytes : Z;
  mu_metadata_bytes : Z;
  mu_locator_bytes : Z;
  mu_key_cache_bytes : Z;
  mu_record_cache_bytes : Z;
}.

(** [MatchMode] *)
Inductive MatchMode := PreferExact | IncludeCaseVariants.

(** [MatchBasis] *)
Inductive MatchBasis := RawExact | HeaderNormalized | CaseVariants.

#[export] Instance MatchBasis_eq_dec : EqDecision MatchBasis.
Proof. solve_decision. Defined.

(** [KeyIndexSourceIdentity] *)
Record KeyIndexSourceIdentity := {
  source_bytes : Z;
  source_modified_unix_nanos : Z;
  key_count : Z;
}.

#[export] Instance KeyIndexSourceIdentity_eq_dec : EqDecision KeyIndexSourceIdentity.
Proof. solve_decision. Defined.

(** [KeyIndexBuild] *)
Record KeyIndexBuild := {
  kb_source_identity : KeyIndexSourceIdentity;
  bytes_written : Z;
}.

(** [KeyIndexOptions]; the scratch directory only chooses where temporary
    files live and has no counterpart. *)
Record KeyIndexOptions := {
  max_index_bytes : Z;
  max_metadata_bytes : Z;
  build_memory_bytes : Z;
  chunk_bytes : Z;
  ki_checksum_policy : ChecksumPolicy;
}.

Definition KEY_INDEX_FORMAT_REVISION : Z := 3.

Definition KEY_INDEX_PARSER_REVISION : Z := 1.

Definition KEY_INDEX_NORMALIZATION_REVISION : Z := 1.

(** [KeyIndexOptions::new] *)
Definition key_index_options_new : KeyIndexOptions := {|
  max_index_bytes := 64 * 1024 * 1024 * 1024;
  max_metadata_bytes := 64 * 1024 * 1024;
  build_memory_bytes := 32 * 1024 * 1024;
  chunk_bytes := 64 * 1024;
  ki_checksum_policy := Skip;
|}.

(** * ASCII classes of [u8] *)

(** [u8::is_ascii_whitespace]: space, tab, line feed, form feed, return *)
Definition is_ascii_whitespace (b : Z) : bool :=
  (b =? 32) || (b =? 9) || (b =? 10) || (b =? 12) || (b =? 13).

Definition is_ascii_digit (b : Z) : bool := (48 <=? b) && (b <=? 57).

Definition is_ascii_alphabetic (b : Z) : bool :=
  ((65 <=? b) && (b <=? 90)) || ((97 <=? b) && (b <=? 122)).

Definition is_ascii_alphanumeric (b : Z) : bool := is_ascii_digit b || is_ascii_alphabetic b.

Definition is_ascii_hexdigit (b : Z) : bool :=
  is_ascii_digit b || ((65 <=? b) && (b <=? 70)) || ((97 <=? b) && (b <=? 102)).

(** [to_ascii_lowercase] *)
Definition to_ascii_lowercase (b : Z) : Z :=
  if (65 <=? b) && (b <=? 90) then b + 32 else b.

(** [str::eq_ignore_ascii_case] *)
Definition eq_ignore_ascii_case (a b : text) : bool :=
  bytes_eqb (map to_ascii_lowercase a) (map to_ascii_lowercase b).

(** [str::is_ascii] *)
Definition is_ascii (a : text) : bool := forallb (fun b => b <? 128) a.

(** * The helpers of [limits.rs] and [checked.rs] *)

Section Helpers.

Context `{Env}.

(** [widen_u32] *)
Definition widen_u32 (value : Z) : Z := value.

(** [add_u64] *)
Definition add_u64 (left right : Z) (context : string) : Result Z :=
  ok_or (checked_add left right) (InvalidFormat context).

(** [mul_u64] *)
Definition mul_u64 (left right : Z) (context : string) : Result Z :=
  ok_or (checked_mul left right) (InvalidFormat context).

(** [ensure_u64_ceiling] *)
Definition ensure_u64_ceiling (limit : string) (value max : Z) : Result unit :=
  if max <? value then Err (LimitExceeded limit value max) else Ok tt.

(** [ensure_u64_limit] *)
Definition ensure_u64_limit (limit : string) (value max : Z) : Result unit :=
  let? max := ok_or (try_u64 max) (InvalidFormat "limit exceeds u64") in
  ensure_u64_ceiling limit value max.

Definition or_u64_max (o : option Z) : Z := default u64_max o.

(** [ensure_usize_limit] *)
Definition ensure_usize_limit (limit : string) (value max : Z) : Result unit :=
  if max <? value
  then Err (LimitExceeded limit (or_u64_max (try_u64 value)) (or_u64_max (try_u64 max)))
  else Ok tt.

(** [checked_usize] *)
Definition checked_usize (value : Z) (context : string) : Result Z :=
  ok_or (try_usize value)
    (InvalidData (context +++ " value " +++ fmt_dec value
                  +++ " exceeds the platform address space")%string).

(** [checked_u64] *)
Definition checked_u64 (value : Z) (context : string) : Result Z :=
  ok_or (try_u64 value)
    (InvalidData (context +++ " value " +++ fmt_dec value
                  +++ " cannot be represented as u64")%string).

(** Unsigned subtraction and division, which panic. *)
Definition sub_or_panic (a b : Z) : Result Z :=
  or_panic (checked_sub a b) "attempt to subtract with overflow".

Definition div_or_panic (a b : Z) : Result Z :=
  if b =? 0 then Panic "attempt to divide by zero" else Ok (a / b).

(** A request to the allocator: the standard library refuses more than
    [isize::MAX] bytes, and an empty request never reaches the allocator. *)
Definition reserve_bytes (context : string) (requested : Z) : Result unit :=
  if (requested =? 0) || ((requested <=? isize_max) && allocator context requested)
  then Ok tt
  else Err (AllocationFailed context requested).

(** [try_reserve_vec] and [try_reserve_vec_amortized]: a vector of [len]
    elements of [elem] bytes that must hold [additional] more. *)
Definition try_reserve_vec (len elem additional : Z) (context : string) : Result unit :=
  reserve_bytes context
    (or_u64_max (count ← checked_add len additional; size ← checked_mul count elem; try_u64 size)).

(** [try_reserve_string] and [try_reserve_string_amortized] *)
Definition try_reserve_string (len additional : Z) (context : string) : Result unit :=
  reserve_bytes context (or_u64_max (size ← checked_add len additional; try_u64 size)).

(** [try_clone_string], and [clone_header_text] and [clone_text], which have
    the same body *)
Definition try_clone_string (value : text) (context : string) : Result text :=
  try_reserve_string 0 (zlen value) context ;;?
  Ok value.

(** [Passcode::new] *)
Definition passcode_new (reg_code_hex user_id : text) : Result Passcode :=
  if negb (zlen reg_code_hex =? 32) || negb (forallb is_ascii_hexdigit reg_code_hex)
  then Err (InvalidPasscode "registration code must contain exactly 32 hex digits")
  else if 4 * 1024 <? zlen user_id
  then Err (InvalidPasscode "user identity must not exceed 4096 UTF-8 bytes")
  else
    let? reg_code_hex := try_clone_string reg_code_hex "passcode registration code" in
    let? user_id := try_clone_string user_id "passcode user identity" in
    Ok {| reg_code_hex := reg_code_hex; user_id := user_id |}.

(** * Lemmas *)

Lemma ensure_u64_ceiling_Ok limit value max u :
  ensure_u64_ceiling limit value max = Ok u <-> value <= max.
Proof.
  unfold ensure_u64_ceiling. destruct (Z.ltb_spec max value), u; split; try done; lia.
Qed.

Lemma ensure_u64_limit_Ok limit value max u :
  ensure_u64_limit limit value max = Ok u -> value <= max.
Proof.
  unfold ensure_u64_limit. intros H0. rinv.
  by apply ensure_u64_ceiling_Ok in H0.
Qed.

Lemma ensure_usize_limit_Ok limit value max u :
  ensure_usize_limit limit value max = Ok u <-> value <= max.
Proof.
  unfold ensure_usize_limit. destruct (Z.ltb_spec max value), u; split; try done; lia.
Qed.

Lemma wp_ensure_u64_ceiling limit value max (Q : unit -> Prop) :
  (value <= max -> Q tt) -> wp (ensure_u64_ceiling limit value max) Q.
Proof. unfold ensure_u64_ceiling. destruct (Z.ltb_spec max value); simpl; auto. Qed.

Lemma wp_ensure_u64_limit limit value max (Q : unit -> Prop) :
  (value <= max -> Q tt) -> wp (ensure_u64_limit limit value max) Q.
Proof.
  intros HQ. unfold ensure_u64_limit. wp_steps. apply try_u64_Some in H0 as [-> ?].
  by apply wp_ensure_u64_ceiling.
Qed.

Lemma wp_ensure_usize_limit limit value max (Q : unit -> Prop) :
  (value <= max -> Q tt) -> wp (ensure_usize_limit limit value max) Q.
Proof. unfold ensure_usize_limit. destruct (Z.ltb_spec max value); simpl; auto. Qed.

Lemma wp_checked_usize value context (Q : Z -> Prop) :
  (value <= usize_max -> Q value) -> wp (checked_usize value context) Q.
Proof.
  intros HQ. unfold checked_usize. wp_steps. apply try_usize_Some in H0 as [-> ?]. auto.
Qed.

Lemma wp_checked_u64 value context (Q : Z -> Prop) :
  (value <= u64_max -> Q value) -> wp (checked_u64 value context) Q.
Proof.
  intros HQ. unfold checked_u64. wp_steps. apply try_u64_Some in H0 as [-> ?]. auto.
Qed.

Lemma wp_add_u64 left right context (Q : Z -> Prop) :
  (left + right <= u64_max -> Q (left + right)) -> wp (add_u64 left right context) Q.
Proof.
  intros HQ. unfold add_u64. wp_steps. apply checked_add_Some in H0 as [-> ?]. auto.
Qed.

Lemma wp_mul_u64 left right context (Q : Z -> Prop) :
  (left * right <= u64_max -> Q (left * right)) -> wp (mul_u64 left right context) Q.
Proof.
  intros HQ. unfold mul_u64. wp_steps. apply checked_mul_Some in H0 as [-> ?]. auto.
Qed.

Lemma wp_reserve_bytes context requested (Q : unit -> Prop) :
  Q tt -> wp (reserve_bytes context requested) Q.
Proof. intros. unfold reserve_bytes. by apply wp_if; intros _. Qed.

(** A request the allocator grants. *)
Lemma try_reserve_vec_Ok len elem additional context :
  0 <= len -> 0 <= additional -> 0 <= elem -> (len + additional) * elem <= isize_max ->
  len + additional <= isize_max ->
  allocator context ((len + additional) * elem) = true ->
  try_reserve_vec len elem additional context = Ok tt.
Proof.
  intros ? ? ? ? ? Hal.
  unfold try_reserve_vec, reserve_bytes, checked_add, checked_mul, try_u64, or_u64_max.
  assert (isize_max <= u64_max) by done.
  rewrite (proj2 (Z.leb_le (len + additional) u64_max)) by lia. simpl.
  rewrite (proj2 (Z.leb_le _ u64_max)) by lia. simpl.
  rewrite (proj2 (Z.leb_le _ u64_max)) by lia. simpl.
  rewrite (proj2 (Z.leb_le _ isize_max)) by lia. by rewrite Hal, orb_true_r.
Qed.

Lemma wp_try_reserve_vec len elem additional context (Q : unit -> Prop) :
  Q tt -> wp (try_reserve_vec len elem additional context) Q.
Proof. apply wp_reserve_bytes. Qed.

Lemma wp_try_reserve_string len additional context (Q : unit -> Prop) :
  Q tt -> wp (try_reserve_string len additional context) Q.
Proof. apply wp_reserve_bytes. Qed.

Lemma wp_try_clone_string value context (Q : text -> Prop) :
  Q value -> wp (try_clone_string value context) Q.
Proof. intros. unfold try_clone_string. wp_steps. by apply wp_try_reserve_string. Qed.

Lemma try_clone_string_Ok value context v :
  try_clone_string value context = Ok v -> v = value.
Proof. unfold try_clone_string. intros H0. rinv. done. Qed.

Lemma checked_usize_Ok value context v :
  checked_usize value context = Ok v -> v = value /\ value <= usize_max.
Proof. unfold checked_usize. intros H0. rinv. done. Qed.

Lemma checked_u64_Ok value context v :
  checked_u64 value context = Ok v -> v = value /\ value <= u64_max.
Proof. unfold checked_u64. intros H0. rinv. done. Qed.

Lemma add_u64_Ok left right context v :
  add_u64 left right context = Ok v -> v = left + right /\ left + right <= u64_max.
Proof. unfold add_u64. intros H0. rinv. done. Qed.

Lemma mul_u64_Ok left right context v :
  mul_u64 left right context = Ok v -> v = left * right /\ left * right <= u64_max.
Proof. unfold mul_u64. intros H0. rinv. done. Qed.

Lemma passcode_new_shape reg_code_hex user_id :
  wp (passcode_new reg_code_hex user_id)
     (fun p => Types.reg_code_hex p = reg_code_hex /\ Types.user_id p = user_id /\
               zlen reg_code_hex = 32 /\ Forall (fun b => is_ascii_hexdigit b = true) reg_code_hex /\
               zlen user_id <= 4096).
Proof.
  unfold passcode_new. wp_steps. apply wp_try_clone_string. wp_steps.
  apply wp_try_clone_string. wp_steps. zbool. repeat split; try lia.
  by apply Forall_forall; intros b Hb%list_elem_of_In; eapply forallb_forall in H2.
Qed.

End Helpers.

Lemma limits_new_ok : limits_ok limits_new.
Proof. repeat split; vm_compute; discriminate. Qed.

Ltac wp_step ::=
  match goal with
  | |- wp (rbind _ _) _ => apply wp_bind
  | |- wp (Ok _) _ => simpl
  | |- wp (Err _) _ => exact I
  | |- wp (ok_or _ _) _ => apply wp_ok_or; intros ? ?
  | |- wp (ensure _ _) _ => apply wp_ensure; intros ?
  | |- wp (ensure_u64_limit _ _ _) _ => apply wp_ensure_u64_limit; intros ?
  | |- wp (ensure_u64_ceiling _ _ _) _ => apply wp_ensure_u64_ceiling; intros ?
  | |- wp (ensure_usize_limit _ _ _) _ => apply wp_ensure_usize_limit; intros ?
  | |- wp (checked_usize _ _) _ => apply wp_checked_usize; intros ?
  | |- wp (checked_u64 _ _) _ => apply wp_checked_u64; intros ?
  | |- wp (add_u64 _ _ _) _ => apply wp_add_u64; intros ?
  | |- wp (mul_u64 _ _ _) _ => apply wp_mul_u64; intros ?
  | |- wp (try_reserve_vec _ _ _ _) _ => apply wp_try_reserve_vec
  | |- wp (try_reserve_string _ _ _) _ => apply wp_try_reserve_string
  | |- wp (try_clone_string _ _) _ => apply wp_try_clone_string
  | |- wp (if _ then _ else _) _ => apply wp_if; intros ?
  end.

Ltac rinv_step ::=
  match goal with
  | H : rbind _ _ = Ok _ |- _ => apply rbind_Ok in H as (? & ? & H)
  | H : ok_or _ _ = Ok _ |- _ => apply ok_or_Ok in H
  | H : or_panic _ _ = Ok _ |- _ => apply or_panic_Ok in H
  | H : ensure _ _ = Ok _ |- _ => apply ensure_Ok in H
  | H : ensure_u64_limit _ _ _ = Ok _ |- _ => apply ensure_u64_limit_Ok in H
  | H : ensure_u64_ceiling _ _ _ = Ok _ |- _ => apply ensure_u64_ceiling_Ok in H
  | H : ensure_usize_limit _ _ _ = Ok _ |- _ => apply ensure_usize_limit_Ok in H
  | H : checked_usize _ _ = Ok _ |- _ => apply checked_usize_Ok in H as [? ?]; try subst
  | H : checked_u64 _ _ = Ok _ |- _ => apply checked_u64_Ok in H as [? ?]; try subst
  | H : add_u64 _ _ _ = Ok _ |- _ => apply add_u64_Ok in H as [? ?]; try subst
  | H : mul_u64 _ _ _ = Ok _ |- _ => apply mul_u64_Ok in H as [? ?]; try subst
  | H : try_clone_string _ _ = Ok _ |- _ => apply try_clone_string_Ok in H; try subst
  | H : Ok _ = Ok _ |- _ => injection H as H; try subst
  | H : Err _ = Ok _ |- _ => discriminate H
  | H : Panic _ = Ok _ |- _ => discriminate H
  | H : OutOfFuel = Ok _ |- _ => discriminate H
  | H : (if ?b then _ else _) = Ok _ |- _ => destruct b eqn:?
  | H : checked_add _ _ = Some _ |- _ => apply checked_add_Some in H as [? ?]; try subst
  | H : checked_mul _ _ = Some _ |- _ => apply checked_mul_Some in H as [? ?]; try subst
  | H : checked_sub _ _ = Some _ |- _ => apply checked_sub_Some in H as [? ?]; try subst
  | H : try_usize _ = Some _ |- _ => apply try_usize_Some in H as [? ?]; try subst
  | H : try_u64 _ = Some _ |- _ => apply try_u64_Some in H as [? ?]; try subst
  | H : try_u32 _ = Some _ |- _ => apply try_u32_Some in H as [? ?]; try subst
  end.
