(* ===== verification/Options.v ===== *)
(** The builder methods of [Limits], [OpenOptions] and [KeyIndexOptions]
    ([src/types.rs], [src/index.rs]): every one replaces a field, and options
    that are built from values of their types are valid for [open]. *)

From S2P Require Import Prelude Errors Types.

(** [Limits::with_header_xml_bytes] *)
Definition with_header_xml_bytes (l : Limits) (value : Z) : Limits := {|
  header_xml_bytes := value; header_attributes := header_attributes l; key_index_bytes := key_index_bytes l;
  record_index_bytes := record_index_bytes l; compressed_block_bytes := compressed_block_bytes l; decompressed_block_bytes := decompressed_block_bytes l;
  block_metadata_bytes := block_metadata_bytes l; key_block_entries := key_block_entries l; materialized_record_bytes := materialized_record_bytes l;
  locator_entries := locator_entries l; locator_bytes := locator_bytes l; working_memory_bytes := working_memory_bytes l |}.

(** [Limits::with_header_attributes] *)
Definition with_header_attributes (l : Limits) (value : Z) : Limits := {|
  header_xml_bytes := header_xml_bytes l; header_attributes := value; key_index_bytes := key_index_bytes l;
  record_index_bytes := record_index_bytes l; compressed_block_bytes := compressed_block_bytes l; decompressed_block_bytes := decompressed_block_bytes l;
  block_metadata_bytes := block_metadata_bytes l; key_block_entries := key_block_entries l; materialized_record_bytes := materialized_record_bytes l;
  locator_entries := locator_entries l; locator_bytes := locator_bytes l; working_memory_bytes := working_memory_bytes l |}.

(** [Limits::with_key_index_bytes] *)
Definition with_key_index_bytes (l : Limits) (value : Z) : Limits := {|
  header_xml_bytes := header_xml_bytes l; header_attributes := header_attributes l; key_index_bytes := value;
  record_index_bytes := record_index_bytes l; compressed_block_bytes := compressed_block_bytes l; decompressed_block_bytes := decompressed_block_bytes l;
  block_metadata_bytes := block_metadata_bytes l; key_block_entries := key_block_entries l; materialized_record_bytes := materialized_record_bytes l;
  locator_entries := locator_entries l; locator_bytes := locator_bytes l; working_memory_bytes := working_memory_bytes l |}.

(** [Limits::with_record_index_bytes] *)
Definition with_record_index_bytes (l : Limits) (value : Z) : Limits := {|
  header_xml_bytes := header_xml_bytes l; header_attributes := header_attributes l; key_index_bytes := key_index_bytes l;
  record_index_bytes := value; compressed_block_bytes := compressed_block_bytes l; decompressed_block_bytes := decompressed_block_bytes l;
  block_metadata_bytes := block_metadata_bytes l; key_block_entries := key_block_entries l; materialized_record_bytes := materialized_record_bytes l;
  locator_entries := locator_entries l; locator_bytes := locator_bytes l; working_memory_bytes := working_memory_bytes l |}.

(** [Limits::with_compressed_block_bytes] *)
Definition with_compressed_block_bytes (l : Limits) (value : Z) : Limits := {|
  header_xml_bytes := header_xml_bytes l; header_attributes := header_attributes l; key_index_bytes := key_index_bytes l;
  record_index_bytes := record_index_bytes l; compressed_block_bytes := value; decompressed_block_bytes := decompressed_block_bytes l;
  block_metadata_bytes := block_metadata_bytes l; key_block_entries := key_block_entries l; materialized_record_bytes := materialized_record_bytes l;
  locator_entries := locator_entries l; locator_bytes := locator_bytes l; working_memory_bytes := working_memory_bytes l |}.

(** [Limits::with_decompressed_block_bytes] *)
Definition with_decompressed_block_bytes (l : Limits) (value : Z) : Limits := {|
  header_xml_bytes := header_xml_bytes l; header_attributes := header_attributes l; key_index_bytes := key_index_bytes l;
  record_index_bytes := record_index_bytes l; compressed_block_bytes := compressed_block_bytes l; decompressed_block_bytes := value;
  block_metadata_bytes := block_metadata_bytes l; key_block_entries := key_block_entries l; materialized_record_bytes := materialized_record_bytes l;
  locator_entries := locator_entries l; locator_bytes := locator_bytes l; working_memory_bytes := working_memory_bytes l |}.

(** [Limits::with_block_metadata_bytes] *)
Definition with_block_metadata_bytes (l : Limits) (value : Z) : Limits := {|
  header_xml_bytes := header_xml_bytes l; header_attributes := header_attributes l; key_index_bytes := key_index_bytes l;
  record_index_bytes := record_index_bytes l; compressed_block_bytes := compressed_block_bytes l; decompressed_block_bytes := decompressed_block_bytes l;
  block_metadata_bytes := value; key_block_entries := key_block_entries l; materialized_record_bytes := materialized_record_bytes l;
  locator_entries := locator_entries l; locator_bytes := locator_bytes l; working_memory_bytes := working_memory_bytes l |}.

(** [Limits::with_key_block_entries] *)
Definition with_key_block_entries (l : Limits) (value : Z) : Limits := {|
  header_xml_bytes := header_xml_bytes l; header_attributes := header_attributes l; key_index_bytes := key_index_bytes l;
  record_index_bytes := record_index_bytes l; compressed_block_bytes := compressed_block_bytes l; decompressed_block_bytes := decompressed_block_bytes l;
  block_metadata_bytes := block_metadata_bytes l; key_block_entries := value; materialized_record_bytes := materialized_record_bytes l;
  locator_entries := locator_entries l; locator_bytes := locator_bytes l; working_memory_bytes := working_memory_bytes l |}.

(** [Limits::with_materialized_record_bytes] *)
Definition with_materialized_record_bytes (l : Limits) (value : Z) : Limits := {|
  header_xml_bytes := header_xml_bytes l; header_attributes := header_attributes l; key_index_bytes := key_index_bytes l;
  record_index_bytes := record_index_bytes l; compressed_block_bytes := compressed_block_bytes l; decompressed_block_bytes := decompressed_block_bytes l;
  block_metadata_bytes := block_metadata_bytes l; key_block_entries := key_block_entries l; materialized_record_bytes := value;
  locator_entries := locator_entries l; locator_bytes := locator_bytes l; working_memory_bytes := working_memory_bytes l |}.

(** [Limits::with_locator_entries] *)
Definition with_locator_entries (l : Limits) (value : Z) : Limits := {|
  header_xml_bytes := header_xml_bytes l; header_attributes := header_attributes l; key_index_bytes := key_index_bytes l;
  record_index_bytes := record_index_bytes l; compressed_block_bytes := compressed_block_bytes l; decompressed_block_bytes := decompressed_block_bytes l;
  block_metadata_bytes := block_metadata_bytes l; key_block_entries := key_block_entries l; materialized_record_bytes := materialized_record_bytes l;
  locator_entries := value; locator_bytes := locator_bytes l; working_memory_bytes := working_memory_bytes l |}.

(** [Limits::with_unlimited_locator_entries] *)
Definition with_unlimited_locator_entries (l : Limits) : Limits := with_locator_entries l u64_max.

(** [Limits::with_locator_bytes] *)
Definition with_locator_bytes (l : Limits) (value : Z) : Limits := {|
  header_xml_bytes := header_xml_bytes l; header_attributes := header_attributes l; key_index_bytes := key_index_bytes l;
  record_index_bytes := record_index_bytes l; compressed_block_bytes := compressed_block_bytes l; decompressed_block_bytes := decompressed_block_bytes l;
  block_metadata_bytes := block_metadata_bytes l; key_block_entries := key_block_entries l; materialized_record_bytes := materialized_record_bytes l;
  locator_entries := locator_entries l; locator_bytes := value; working_memory_bytes := working_memory_bytes l |}.

(** [Limits::with_working_memory_bytes] *)
Definition with_working_memory_bytes (l : Limits) (value : Z) : Limits := {|
  header_xml_bytes := header_xml_bytes l; header_attributes := header_attributes l; key_index_bytes := key_index_bytes l;
  record_index_bytes := record_index_bytes l; compressed_block_bytes := compressed_block_bytes l; decompressed_block_bytes := decompressed_block_bytes l;
  block_metadata_bytes := block_metadata_bytes l; key_block_entries := key_block_entries l; materialized_record_bytes := materialized_record_bytes l;
  locator_entries := locator_entries l; locator_bytes := locator_bytes l; working_memory_bytes := value |}.

(** [OpenOptions::with_passcode] *)
Definition with_passcode (o : OpenOptions) (value : Passcode) : OpenOptions := {|
  passcode := Some value; limits := limits o; checksum_policy := checksum_policy o |}.

(** [OpenOptions::with_limits] *)
Definition with_limits (o : OpenOptions) (value : Limits) : OpenOptions := {|
  passcode := passcode o; limits := value; checksum_policy := checksum_policy o |}.

(** [OpenOptions::with_checksum_policy] *)
Definition with_checksum_policy (o : OpenOptions) (value : ChecksumPolicy) : OpenOptions := {|
  passcode := passcode o; limits := limits o; checksum_policy := value |}.

(** [KeyIndexOptions::with_max_index_bytes] *)
Definition with_max_index_bytes (o : KeyIndexOptions) (value : Z) : KeyIndexOptions := {|
  max_index_bytes := value; max_metadata_bytes := max_metadata_bytes o; build_memory_bytes := build_memory_bytes o;
  chunk_bytes := chunk_bytes o; ki_checksum_policy := ki_checksum_policy o |}.

(** [KeyIndexOptions::with_max_metadata_bytes] *)
Definition with_max_metadata_bytes (o : KeyIndexOptions) (value : Z) : KeyIndexOptions := {|
  max_index_bytes := max_index_bytes o; max_metadata_bytes := value; build_memory_bytes := build_memory_bytes o;
  chunk_bytes := chunk_bytes o; ki_checksum_policy := ki_checksum_policy o |}.

(** [KeyIndexOptions::with_build_memory_bytes] *)
Definition with_build_memory_bytes (o : KeyIndexOptions) (value : Z) : KeyIndexOptions := {|
  max_index_bytes := max_index_bytes o; max_metadata_bytes := max_metadata_bytes o; build_memory_bytes := value;
  chunk_bytes := chunk_bytes o; ki_checksum_policy := ki_checksum_policy o |}.

(** [KeyIndexOptions::with_chunk_bytes] *)
Definition with_chunk_bytes (o : KeyIndexOptions) (value : Z) : KeyIndexOptions := {|
  max_index_bytes := max_index_bytes o; max_metadata_bytes := max_metadata_bytes o; build_memory_bytes := build_memory_bytes o;
  chunk_bytes := value; ki_checksum_policy := ki_checksum_policy o |}.

(** [KeyIndexOptions::with_checksum_policy] *)
Definition with_ki_checksum_policy (o : KeyIndexOptions) (value : ChecksumPolicy) : KeyIndexOptions := {|
  max_index_bytes := max_index_bytes o; max_metadata_bytes := max_metadata_bytes o; build_memory_bytes := build_memory_bytes o;
  chunk_bytes := chunk_bytes o; ki_checksum_policy := value |}.

(** * Lemmas *)

(** The builder methods of [Limits] that take a number. *)
Definition limit_builders : list (Limits -> Z -> Limits) :=
  [with_header_xml_bytes; with_header_attributes; with_key_index_bytes; with_record_index_bytes;
   with_compressed_block_bytes; with_decompressed_block_bytes; with_block_metadata_bytes; with_key_block_entries;
   with_materialized_record_bytes; with_locator_entries; with_locator_bytes; with_working_memory_bytes].

(** Limits that are built are values of their types. *)
Lemma limit_builders_ok l builder value :
  limits_ok l -> is_u64 value -> builder ∈ limit_builders -> limits_ok (builder l value).
Proof.
  intros Hl Hv Hb. unfold limits_ok in *. destruct_and! Hl.
  unfold limit_builders in Hb. rewrite !elem_of_cons in Hb.
  destruct_or? Hb; [subst; simpl; by split_and!..|by apply not_elem_of_nil in Hb].
Qed.

(** Any sequence of calls keeps them so. *)
Lemma built_limits_ok calls :
  Forall (fun call => fst call ∈ limit_builders /\ is_u64 (snd call)) calls ->
  limits_ok (fold_left (fun l call => fst call l (snd call)) calls limits_new).
Proof.
  assert (limits_ok limits_new) as Hnew by (unfold limits_ok; repeat split; vm_compute; congruence).
  revert Hnew. generalize limits_new. induction calls as [|[builder value] calls IH]; intros l Hl Hall; [done|].
  apply Forall_cons in Hall as [[Hb Hv] Hall]. simpl. apply IH; [by apply limit_builders_ok|done].
Qed.
