(* ===== verification/Budget.v ===== *)
(** The aggregate memory budget of [src/limits.rs].

    [MemoryBudget] and its operations are modelled twice.  The sequential
    model threads the budget through every parser function: [scoped] is
    [let _x = memory.reserve(..)?; rest], whose reservation is dropped when
    [rest] returns, and [retained] a reservation that is moved into the value
    [rest] returns.  The concurrent model [Conc] keeps the atomic counters and
    the compare-and-exchange loop of [claim] and lets any number of threads
    interleave.  [HasWorld] is the interface the parser functions need of the
    state they run in; [budgeted] is the specification they satisfy. *)

From S2P Require Import Prelude Errors Types.

(** * Sequential model *)

(** [MemoryBudget]; the counters are plain numbers. *)
Record MemoryBudget := {
  mb_max : Z;
  mb_used : Z;
  mb_peak : Z;
}.

(** [MemoryBudget::new] *)
Definition memory_budget_new (max : Z) : MemoryBudget :=
  {| mb_max := max; mb_used := 0; mb_peak := 0 |}.

(** The value [claim] wants to store when it has observed [current]. *)
Definition claim_next (max current bytes : Z) : Result Z :=
  let? next := ok_or (checked_add current bytes)
                 (LimitExceeded "working_memory_bytes" u64_max (or_u64_max (try_u64 max))) in
  if max <? next
  then Err (LimitExceeded "working_memory_bytes" (or_u64_max (try_u64 next))
              (or_u64_max (try_u64 max)))
  else Ok next.

(** [MemoryBudget::claim] without contention: the first exchange succeeds. *)
Definition claim (b : MemoryBudget) (bytes : Z) : Result MemoryBudget :=
  let? next := claim_next (mb_max b) (mb_used b) bytes in
  Ok {| mb_max := mb_max b; mb_used := next; mb_peak := Z.max (mb_peak b) next |}.

(** [Drop for MemoryReservation] *)
Definition release (b : MemoryBudget) (bytes : Z) : MemoryBudget :=
  {| mb_max := mb_max b; mb_used := mb_used b - bytes; mb_peak := mb_peak b |}.

(** What every operation on one open dictionary shares: its budget and the
    number of file accesses made so far, which tells them apart in time. *)
Record World := {
  w_budget : MemoryBudget;
  w_clock : nat;
}.

(** A state that contains a [World]. *)
Class HasWorld (S : Type) := {
  get_world : S -> World;
  set_world : World -> S -> S;
  get_set_world : forall w s, get_world (set_world w s) = w;
  set_get_world : forall s, set_world (get_world s) s = s;
  set_set_world : forall w w' s, set_world w (set_world w' s) = set_world w s;
}.

#[export] Program Instance HasWorld_World : HasWorld World :=
  {| get_world := fun w => w; set_world := fun w _ => w |}.
Solve All Obligations with done.

Section Reservations.

Context {S : Type} `{HasWorld S}.

Definition get_budget (s : S) : MemoryBudget := w_budget (get_world s).

Definition set_budget (b : MemoryBudget) (s : S) : S :=
  set_world {| w_budget := b; w_clock := w_clock (get_world s) |} s.

(** [memory.reserve(bytes, context)?]; the reservation is its size. *)
Definition reserve (bytes : Z) : M S Z := fun s =>
  match claim (get_budget s) bytes with
  | Ok b => (Ok bytes, set_budget b s)
  | Err e => (Err e, s)
  | Panic site => (Panic site, s)
  | OutOfFuel => (OutOfFuel, s)
  end.

(** Dropping a reservation. *)
Definition drop_reservation (bytes : Z) (s : S) : S :=
  set_budget (release (get_budget s) bytes) s.

(** [let _memory = memory.reserve(bytes, context)?; body] *)
Definition scoped {A} (bytes : Z) (context : string) (body : M S A) : M S A :=
  let! _ := reserve bytes in
  fun s => let (r, s) := body s in (r, drop_reservation bytes s).

(** A computation that owns a reservation and drops it when it fails. *)
Definition or_drop {A} (bytes : Z) (body : M S A) : M S A := fun s =>
  match body s with
  | (Ok a, s) => (Ok a, s)
  | (r, s) => (r, drop_reservation bytes s)
  end.

(** [let memory = memory.reserve(bytes, context)?; body], where [body] moves
    [memory] into the value it returns. *)
Definition retained {A} (bytes : Z) (context : string) (body : M S A) : M S A :=
  let! bytes := reserve bytes in
  or_drop bytes body.

(** [MemoryReservation::grow]: the new size. *)
Definition grow (bytes additional : Z) : M S Z :=
  let! next := lift (ok_or (checked_add bytes additional)
                       (InvalidFormat "memory reservation size overflow")) in
  let! _ := reserve additional in
  mret next.

(** The counters are consistent. *)
Definition budget_ok (b : MemoryBudget) : Prop :=
  0 <= mb_used b <= mb_max b /\ mb_used b <= mb_peak b <= mb_max b.

(** [s'] is [s] with [d] more bytes accounted for; nothing but the world has
    changed, the ceiling is the same and the peak only grows. *)
Definition accounts (s s' : S) (d : Z) : Prop :=
  budget_ok (get_budget s') /\
  mb_max (get_budget s') = mb_max (get_budget s) /\
  mb_used (get_budget s') = mb_used (get_budget s) + d /\
  mb_peak (get_budget s) <= mb_peak (get_budget s') /\
  s' = set_world (get_world s') s.

(** The contract of the parser functions: whatever the state, they return or
    fail without a panic; a value satisfies [P] and leaves [d] of its bytes
    reserved; an error leaves the budget as it was. *)
Definition budgeted {A} (m : M S A) (P : A -> Prop) (d : A -> Z) : Prop :=
  forall s, budget_ok (get_budget s) ->
    wpM m s (fun a s' => P a /\ accounts s s' (d a)) (fun _ s' => accounts s s' 0).

(** * Rules *)

Lemma get_set_budget b s : get_budget (set_budget b s) = b.
Proof. unfold get_budget, set_budget. by rewrite get_set_world. Qed.

Lemma claim_Ok b bytes b' :
  claim b bytes = Ok b' <->
  b' = {| mb_max := mb_max b; mb_used := mb_used b + bytes;
          mb_peak := Z.max (mb_peak b) (mb_used b + bytes) |} /\
  mb_used b + bytes <= u64_max /\ mb_used b + bytes <= mb_max b.
Proof.
  unfold claim, claim_next. split.
  - intros H0. rinv. zbool. split; [done|lia].
  - intros (-> & ? & ?). unfold checked_add. rewrite (proj2 (Z.leb_le _ _)) by lia. simpl.
    rewrite (proj2 (Z.ltb_ge _ _)) by lia. done.
Qed.

Lemma claim_safe b bytes : safe (claim b bytes).
Proof. unfold safe, claim, claim_next. wp_steps; done. Qed.

Lemma accounts_refl s : budget_ok (get_budget s) -> accounts s s 0.
Proof. intros ?. split_and!; try done; try lia. by rewrite set_get_world. Qed.

Lemma accounts_trans s1 s2 s3 d1 d2 :
  accounts s1 s2 d1 -> accounts s2 s3 d2 -> accounts s1 s3 (d1 + d2).
Proof.
  intros (? & ? & ? & ? & E1) (? & ? & ? & ? & E2).
  split_and!; try done; try lia.
  transitivity (set_world (get_world s3) (set_world (get_world s2) s1)).
  - by rewrite <- E1.
  - apply set_set_world.
Qed.

Lemma accounts_reserve s bytes :
  0 <= bytes -> budget_ok (get_budget s) ->
  mb_used (get_budget s) + bytes <= mb_max (get_budget s) ->
  accounts s (set_budget {| mb_max := mb_max (get_budget s);
                            mb_used := mb_used (get_budget s) + bytes;
                            mb_peak := Z.max (mb_peak (get_budget s))
                                             (mb_used (get_budget s) + bytes) |} s) bytes.
Proof.
  intros ? (? & ?) ?. unfold accounts. rewrite !get_set_budget.
  unfold budget_ok; simpl. split_and!; try lia.
  unfold set_budget. by rewrite get_set_world.
Qed.

Lemma accounts_drop s s' bytes d :
  0 <= bytes -> 0 <= mb_used (get_budget s) + d ->
  accounts s s' (bytes + d) -> accounts s (drop_reservation bytes s') d.
Proof.
  intros ? ? ((? & ?) & ? & ? & ? & E). unfold accounts, drop_reservation.
  rewrite get_set_budget. unfold budget_ok, release; simpl. split_and!; try lia.
  unfold set_budget. rewrite get_set_world.
  transitivity (set_world {| w_budget := release (w_budget (get_world s')) bytes;
                             w_clock := w_clock (get_world s') |}
                  (set_world (get_world s') s)).
  - by rewrite <- E.
  - apply set_set_world.
Qed.

Lemma reserve_wpM bytes s (Q : Z -> S -> Prop) E :
  0 <= bytes -> budget_ok (get_budget s) ->
  (forall s', accounts s s' bytes -> Q bytes s') -> (forall e, E e s) ->
  wpM (reserve bytes) s Q E.
Proof.
  intros ? ? HQ HE. unfold wpM, reserve. pose proof (claim_safe (get_budget s) bytes) as Hs.
  destruct (claim (get_budget s) bytes) as [b|e| |] eqn:Hc; try done.
  apply claim_Ok in Hc as (-> & ? & ?). by apply HQ, accounts_reserve.
Qed.

Lemma budgeted_mono {A} (m : M S A) (P Q : A -> Prop) d d' :
  budgeted m P d -> (forall a, P a -> Q a) -> (forall a, P a -> d a = d' a) -> budgeted m Q d'.
Proof.
  intros Hm HPQ Hd s Hs. eapply wpM_mono; [by apply Hm| |done].
  intros a s' [? ?]. rewrite <- Hd by done. auto.
Qed.

Lemma budgeted_ret {A} (a : A) (P : A -> Prop) : P a -> budgeted (mret a) P (fun _ => 0).
Proof. intros ? s ?. apply wpM_ret. split; [done|by apply accounts_refl]. Qed.

Lemma budgeted_lift {A} (r : Result A) (P : A -> Prop) :
  wp r P -> budgeted (lift r) P (fun _ => 0).
Proof.
  intros Hr s ?. apply wpM_lift.
  - eapply wp_mono; [exact Hr|]. intros a ?. split; [done|by apply accounts_refl].
  - intros _. by apply accounts_refl.
Qed.

Lemma budgeted_bind {A B} (m : M S A) (k : A -> M S B) P Q d :
  budgeted m P (fun _ => 0) -> (forall a, P a -> budgeted (k a) Q d) ->
  budgeted (mbind m k) Q d.
Proof.
  intros Hm Hk s Hs. apply wpM_bind. eapply wpM_mono; [by apply Hm| |done].
  intros a s' [Ha Hs']. eapply wpM_mono; [apply (Hk a Ha s'), Hs'| |].
  - intros b s'' [? ?]. split; [done|]. by eapply (accounts_trans s s' s'' 0).
  - intros e s'' ?. by eapply (accounts_trans s s' s'' 0 0).
Qed.

Lemma budgeted_if {A} (b : bool) (m1 m2 : M S A) P d :
  (b = true -> budgeted m1 P d) -> (b = false -> budgeted m2 P d) ->
  budgeted (if b then m1 else m2) P d.
Proof. destruct b; auto. Qed.

Lemma budgeted_scoped {A} bytes context (body : M S A) P d :
  0 <= bytes -> (forall a, P a -> 0 <= d a) ->
  budgeted body P d -> budgeted (scoped bytes context body) P d.
Proof.
  intros Hb Hd Hbody s Hs. apply wpM_bind. apply reserve_wpM; [done..| |].
  2: { intros _. by apply accounts_refl. }
  intros s1 Hs1. pose proof (Hbody s1 (proj1 Hs1)) as Hr. unfold wpM in *.
  destruct Hs as [[? ?] ?].
  destruct (body s1) as [[a|e| |] s2]; try done.
  - destruct Hr as [Ha Hr]. split; [done|].
    apply accounts_drop; [done|specialize (Hd a Ha); lia|]. by eapply accounts_trans.
  - apply accounts_drop; [done|lia|]. by eapply accounts_trans.
Qed.

Lemma budgeted_or_drop {A} bytes (body : M S A) P d s :
  0 <= bytes -> budget_ok (get_budget s) ->
  forall s1, accounts s s1 bytes -> budgeted body P d ->
  wpM (or_drop bytes body) s1 (fun a s' => P a /\ accounts s s' (bytes + d a))
    (fun _ s' => accounts s s' 0).
Proof.
  intros Hb [[? ?] ?] s1 Hs1 Hbody. pose proof (Hbody s1 (proj1 Hs1)) as Hr.
  unfold wpM, or_drop in *. destruct (body s1) as [[a|e| |] s2]; try done.
  - destruct Hr as [Ha Hr]. split; [done|]. by eapply accounts_trans.
  - apply accounts_drop; [done|lia|]. by eapply accounts_trans.
Qed.

Lemma budgeted_retained {A} bytes context (body : M S A) P d :
  0 <= bytes -> budgeted body P d ->
  budgeted (retained bytes context body) P (fun a => bytes + d a).
Proof.
  intros Hb Hbody s Hs. apply wpM_bind. apply reserve_wpM; [done..| |].
  - intros s1 Hs1. by eapply budgeted_or_drop.
  - intros _. by apply accounts_refl.
Qed.

End Reservations.

(** * Concurrent model *)

Module Conc.

(** Where a thread is inside [claim]: not in it; in the loop with the last
    observed counter; past the exchange but before the peak is raised. *)
Inductive Phase :=
| Idle
| Claiming (bytes current : Z)
| Claimed (bytes next : Z).

(** A thread and the bytes of the reservation it owns. *)
Record Thread := {
  held : Z;
  phase : Phase;
}.

(** The shared counters and the threads. *)
Record State := {
  used : Z;
  peak : Z;
  threads : list Thread;
}.

Definition set_thread (s : State) (i : nat) (t : Thread) : list Thread :=
  <[i := t]> (threads s).

(** The atomic steps of [claim], [grow] and [Drop].  [compare_exchange_weak]
    may fail although the counter has the expected value. *)
Inductive step (max : Z) : State -> State -> Prop :=
| step_load s i t bytes :
    threads s !! i = Some t -> phase t = Idle -> 0 <= bytes ->
    step max s {| used := used s; peak := peak s;
                  threads := set_thread s i {| held := held t; phase := Claiming bytes (used s) |} |}
| step_refuse s i t bytes current e :
    threads s !! i = Some t -> phase t = Claiming bytes current ->
    claim_next max current bytes = Err e ->
    step max s {| used := used s; peak := peak s;
                  threads := set_thread s i {| held := held t; phase := Idle |} |}
| step_exchange s i t bytes next :
    threads s !! i = Some t -> phase t = Claiming bytes (used s) ->
    claim_next max (used s) bytes = Ok next ->
    step max s {| used := next; peak := peak s;
                  threads := set_thread s i {| held := held t; phase := Claimed bytes next |} |}
| step_retry s i t bytes current next :
    threads s !! i = Some t -> phase t = Claiming bytes current ->
    claim_next max current bytes = Ok next ->
    step max s {| used := used s; peak := peak s;
                  threads := set_thread s i {| held := held t; phase := Claiming bytes (used s) |} |}
| step_raise s i t bytes next :
    threads s !! i = Some t -> phase t = Claimed bytes next ->
    step max s {| used := used s; peak := Z.max (peak s) next;
                  threads := set_thread s i {| held := held t + bytes; phase := Idle |} |}
| step_drop s i t :
    threads s !! i = Some t -> phase t = Idle ->
    step max s {| used := used s - held t; peak := peak s;
                  threads := set_thread s i {| held := 0; phase := Idle |} |}.

Inductive steps (max : Z) : State -> State -> Prop :=
| steps_refl s : steps max s s
| steps_more s1 s2 s3 : steps max s1 s2 -> step max s2 s3 -> steps max s1 s3.

(** A fresh budget and [n] threads that own nothing. *)
Definition initial (n : nat) : State :=
  {| used := 0; peak := 0; threads := replicate n {| held := 0; phase := Idle |} |}.

(** The bytes a thread has claimed. *)
Definition owned (t : Thread) : Z :=
  held t + match phase t with Claimed bytes _ => bytes | _ => 0 end.

Definition total (ts : list Thread) : Z := foldr (fun t n => owned t + n) 0 ts.

Definition thread_ok (max : Z) (t : Thread) : Prop :=
  0 <= held t /\
  match phase t with
  | Idle => True
  | Claiming bytes _ => 0 <= bytes
  | Claimed bytes next => 0 <= bytes /\ next <= max
  end.

(** The counter is exactly what the threads own, within the ceiling. *)
Definition consistent (max : Z) (s : State) : Prop :=
  used s = total (threads s) /\ used s <= max /\ peak s <= max /\
  Forall (thread_ok max) (threads s).

Lemma claim_next_Ok max current bytes next :
  claim_next max current bytes = Ok next -> next = current + bytes /\ next <= max.
Proof. unfold claim_next. intros H. rinv. zbool. lia. Qed.

Lemma total_insert ts i t t' :
  ts !! i = Some t -> total (<[i := t']> ts) = total ts - owned t + owned t'.
Proof.
  revert i; induction ts as [|u ts IH]; intros [|i]; simpl; try done.
  - intros [= ->]. lia.
  - intros Hi. rewrite (IH _ Hi). lia.
Qed.

Lemma total_bound max ts i t :
  Forall (thread_ok max) ts -> ts !! i = Some t -> 0 <= owned t <= total ts.
Proof.
  intros Hts; revert i; induction Hts as [|u ts Hu Hts IH]; intros i Hi; [done|].
  assert (forall v, thread_ok max v -> 0 <= owned v) as Hpos.
  { intros v [? Hv]. unfold owned. destruct (phase v); lia. }
  assert (0 <= total ts) as Htot.
  { clear -Hts Hpos. induction Hts as [|v ts Hv _ IH]; simpl; [lia|].
    specialize (Hpos v Hv). lia. }
  destruct i as [|i]; simpl in *.
  - injection Hi as ->. specialize (Hpos t Hu). lia.
  - specialize (IH i Hi). specialize (Hpos u Hu). lia.
Qed.

Lemma thread_ok_insert max ts i t :
  Forall (thread_ok max) ts -> thread_ok max t -> Forall (thread_ok max) (<[i := t]> ts).
Proof. intros ? ?. by apply Forall_insert. Qed.

Lemma step_consistent max s s' : step max s s' -> consistent max s -> consistent max s'.
Proof.
  intros Hstep (Hused & Hmax & Hpeak & Hts).
  destruct Hstep as [s i t bytes Ht Hp Hb|s i t bytes current e Ht Hp He
    |s i t bytes next Ht Hp He|s i t bytes current next Ht Hp He
    |s i t bytes next Ht Hp|s i t Ht Hp];
    unfold consistent, set_thread; simpl;
    rewrite (total_insert _ _ _ _ Ht);
    pose proof (total_bound _ _ _ _ Hts Ht) as Hbound;
    pose proof (Forall_lookup_1 _ _ _ _ Hts Ht) as [Hheld Hphase];
    unfold owned in *; rewrite Hp in *; simpl.
  all: try (apply claim_next_Ok in He as [-> He]).
  all: split_and!; try lia; apply thread_ok_insert; try done; split; simpl; lia.
Qed.

Lemma initial_consistent max n : 0 <= max -> consistent max (initial n).
Proof.
  intros ?. unfold consistent, initial; simpl. split_and!; try lia.
  - induction n; simpl; [done|]. unfold owned; simpl. lia.
  - apply Forall_replicate. by split.
Qed.

Lemma steps_consistent max s s' : steps max s s' -> consistent max s -> consistent max s'.
Proof. induction 1; eauto using step_consistent. Qed.

(** C37: whatever the interleaving of any number of threads
    that reserve, grow and drop, and however often the weak exchange fails,
    the shared counter equals the bytes the threads own, it and the recorded
    peak never exceed the ceiling, and a drop never underflows the counter. *)
Theorem concurrent_budget_safe max n s i t :
  0 <= max -> steps max (initial n) s -> threads s !! i = Some t ->
  used s = total (threads s) /\ 0 <= held t <= used s /\ used s <= max /\ peak s <= max.
Proof.
  intros Hmax Hs Ht. pose proof (steps_consistent _ _ _ Hs (initial_consistent _ n Hmax))
    as (Hused & ? & ? & Hts).
  pose proof (total_bound _ _ _ _ Hts Ht).
  pose proof (Forall_lookup_1 _ _ _ _ Hts Ht) as [? Hp].
  unfold owned in *. destruct (phase t); split_and!; lia.
Qed.

(** Two threads race for 10 of 16 bytes: both have observed an empty counter,
    the first exchanges it and the second must retry. *)
Definition raced : State :=
  {| used := 10; peak := 0;
     threads := [{| held := 0; phase := Claimed 10 10 |}; {| held := 0; phase := Claiming 10 10 |}] |}.

Definition race_state (used : Z) (p0 p1 : Phase) : State :=
  {| used := used; peak := 0;
     threads := [{| held := 0; phase := p0 |}; {| held := 0; phase := p1 |}] |}.

Lemma raced_reachable : steps 16 (initial 2) raced.
Proof.
  apply (steps_more 16 _ (race_state 10 (Claimed 10 10) (Claiming 10 0))).
  - apply (steps_more 16 _ (race_state 0 (Claiming 10 0) (Claiming 10 0))).
    + apply (steps_more 16 _ (race_state 0 (Claiming 10 0) Idle)).
      * apply (steps_more 16 _ (race_state 0 Idle Idle)); [apply steps_refl|].
        by apply (step_load 16 (race_state 0 Idle Idle) 0 {| held := 0; phase := Idle |} 10).
      * by apply (step_load 16 (race_state 0 (Claiming 10 0) Idle) 1 {| held := 0; phase := Idle |} 10).
    + by apply (step_exchange 16 (race_state 0 (Claiming 10 0) (Claiming 10 0)) 0
                  {| held := 0; phase := Claiming 10 0 |} 10 10).
  - by apply (step_retry 16 (race_state 10 (Claimed 10 10) (Claiming 10 0)) 1
                {| held := 0; phase := Claiming 10 0 |} 10 0 10).
Qed.

Example concurrent_budget_safe_witness :
  used raced = total (threads raced) /\ 0 <= 0 <= used raced /\ used raced <= 16 /\ peak raced <= 16.
Proof.
  apply (concurrent_budget_safe 16 2 raced 0 {| held := 0; phase := Claimed 10 10 |}).
  - discriminate.
  - exact raced_reachable.
  - reflexivity.
Defined.

End Conc.
