(* ===== verification/Logic.v ===== *)
(** The logic the operations on an open dictionary are proved in.  A state
    invariant [Inv base hs s] says that [s] is consistent when the caller holds
    reservations of [base] bytes and the handles [hs]; [Resources] is what it
    must satisfy for the budget operations of [Budget]; [htriple] is the
    Hoare triple of a computation under it. *)

From S2P Require Import Prelude Errors Types Budget.

(** What an invariant promises to the rules below. *)
Class Resources {S} `{HasWorld S} (Inv : Z -> list nat -> S -> Prop) : Prop := {
  inv_nonneg base hs s : Inv base hs s -> 0 <= base;
  inv_budget base hs s : Inv base hs s -> budget_ok (get_budget s);
  (** It survives a change of the budget that is accounted for. *)
  inv_accounts base hs s s' d :
    Inv base hs s -> accounts s s' d -> 0 <= base + d -> Inv (base + d) hs s';
  (** It survives the return of a reservation. *)
  inv_drop base hs s bytes :
    0 <= bytes -> 0 <= base -> Inv (base + bytes) hs s -> Inv base hs (drop_reservation bytes s);
}.

Section Logic.

Context {S} `{HasWorld S} (Inv : Z -> list nat -> S -> Prop) `{!Resources Inv}.

(** From reservations [base] and handles [hs], [m] returns an [a] that
    satisfies [P a] and leaves [base' a] and [hs' a], or fails and leaves
    [base_e] and [hs_e]. *)
Definition htriple {A} (base : Z) (hs : list nat) (m : M S A) (P : A -> Prop)
    (base' : A -> Z) (hs' : A -> list nat) (base_e : Z) (hs_e : list nat) : Prop :=
  forall s, Inv base hs s ->
    wpM m s (fun a s' => P a /\ Inv (base' a) (hs' a) s') (fun _ s' => Inv base_e hs_e s').

(** [m] gives back everything it took, whatever happens. *)
Definition hkeeps {A} (m : M S A) (P : A -> Prop) : Prop :=
  forall base hs, htriple base hs m P (fun _ => base) (fun _ => hs) base hs.

Lemma htriple_bind {A B} base hs (m : M S A) (k : A -> M S B) P base1 hs1 P' base' hs' base_e hs_e :
  htriple base hs m P base1 hs1 base_e hs_e ->
  (forall a, P a -> htriple (base1 a) (hs1 a) (k a) P' base' hs' base_e hs_e) ->
  htriple base hs (mbind m k) P' base' hs' base_e hs_e.
Proof.
  intros Hm Hk s Hs. apply wpM_bind. eapply wpM_mono; [by apply Hm| |done].
  intros a s' [Ha Hs']. by apply Hk.
Qed.

Lemma htriple_mono {A} base hs (m : M S A) (P P' : A -> Prop) base1 hs1 base' hs' base_e hs_e :
  htriple base hs m P base1 hs1 base_e hs_e ->
  (forall a, P a -> P' a /\ base1 a = base' a /\ hs1 a = hs' a) ->
  htriple base hs m P' base' hs' base_e hs_e.
Proof.
  intros Hm HP s Hs. eapply wpM_mono; [by apply Hm| |done].
  intros a s' [Ha Hs']. destruct (HP a Ha) as (? & <- & <-). done.
Qed.

Lemma htriple_ret {A} base hs (a : A) (P : A -> Prop) base' hs' base_e hs_e :
  P a -> base' a = base -> hs' a = hs -> htriple base hs (mret a) P base' hs' base_e hs_e.
Proof. intros ? <- <- s Hs. by apply wpM_ret. Qed.

Lemma htriple_err {A} base hs e (P : A -> Prop) base' hs' :
  htriple base hs (merr e) P base' hs' base hs.
Proof. intros s Hs. by apply wpM_err. Qed.

Lemma htriple_lift {A} base hs (r : Result A) (P : A -> Prop) :
  wp r P -> htriple base hs (lift r) P (fun _ => base) (fun _ => hs) base hs.
Proof.
  intros Hr s Hs. apply wpM_lift; [|done]. eapply wp_mono; [exact Hr|]. done.
Qed.

Lemma htriple_if {A} (b : bool) base hs (m1 m2 : M S A) P base' hs' base_e hs_e :
  (b = true -> htriple base hs m1 P base' hs' base_e hs_e) ->
  (b = false -> htriple base hs m2 P base' hs' base_e hs_e) ->
  htriple base hs (if b then m1 else m2) P base' hs' base_e hs_e.
Proof. destruct b; auto. Qed.

Lemma hkeeps_bind {A B} (m : M S A) (k : A -> M S B) P Q :
  hkeeps m P -> (forall a, P a -> hkeeps (k a) Q) -> hkeeps (mbind m k) Q.
Proof.
  intros Hm Hk base hs. eapply htriple_bind; [apply Hm|]. intros a Ha. by apply Hk.
Qed.

Lemma hkeeps_mono {A} (m : M S A) (P Q : A -> Prop) :
  hkeeps m P -> (forall a, P a -> Q a) -> hkeeps m Q.
Proof. intros Hm HPQ base hs. eapply htriple_mono; [apply Hm|]. naive_solver. Qed.

Lemma hkeeps_ret {A} (a : A) (P : A -> Prop) : P a -> hkeeps (mret a) P.
Proof. intros ? base hs. by apply htriple_ret. Qed.

Lemma hkeeps_err {A} e (P : A -> Prop) : hkeeps (merr e) P.
Proof. intros base hs. apply htriple_err. Qed.

Lemma hkeeps_lift {A} (r : Result A) (P : A -> Prop) : wp r P -> hkeeps (lift r) P.
Proof. intros Hr base hs. by apply htriple_lift. Qed.

Lemma hkeeps_if {A} (b : bool) (m1 m2 : M S A) P :
  (b = true -> hkeeps m1 P) -> (b = false -> hkeeps m2 P) -> hkeeps (if b then m1 else m2) P.
Proof. destruct b; auto. Qed.

(** A fact about the caller's reservations that every state knows. *)
Lemma htriple_nonneg {A} base hs (m : M S A) P base' hs' base_e hs_e :
  (0 <= base -> htriple base hs m P base' hs' base_e hs_e) ->
  htriple base hs m P base' hs' base_e hs_e.
Proof. intros Hm s Hs. apply Hm; [by eapply inv_nonneg|done]. Qed.

Lemma htriple_budgeted {A} base hs (m : M S A) (P : A -> Prop) (d : A -> Z) :
  budgeted m P d -> (forall a, P a -> 0 <= d a) ->
  htriple base hs m P (fun a => base + d a) (fun _ => hs) base hs.
Proof.
  intros Hm Hd s Hs. pose proof (inv_nonneg _ _ _ Hs). eapply wpM_mono; [eapply Hm, inv_budget, Hs| |].
  - intros a s' [Ha Hacc]. split; [done|]. eapply inv_accounts; [done..|]. specialize (Hd a Ha). lia.
  - intros ? s' Hacc. replace base with (base + 0) by lia. eapply inv_accounts; [done..|]. lia.
Qed.

Lemma hkeeps_budgeted {A} (m : M S A) (P : A -> Prop) :
  budgeted m P (fun _ => 0) -> hkeeps m P.
Proof.
  intros Hm base hs. eapply htriple_mono; [by apply htriple_budgeted|].
  intros a ?. split_and!; [done|lia|done].
Qed.

Lemma htriple_reserve base hs bytes :
  0 <= bytes ->
  htriple base hs (reserve bytes) (fun n => n = bytes) (fun _ => base + bytes) (fun _ => hs) base hs.
Proof.
  intros Hb s Hs. pose proof (inv_nonneg _ _ _ Hs).
  apply reserve_wpM; [done|by eapply inv_budget| |].
  - intros s' Hacc. split; [done|]. eapply inv_accounts; [done..|]. lia.
  - done.
Qed.

Lemma htriple_scoped {A} base hs bytes context (m : M S A) P base' hs' :
  0 <= bytes -> 0 <= base -> (forall a, P a -> 0 <= base' a) ->
  htriple (base + bytes) hs m P (fun a => base' a + bytes) hs' (base + bytes) hs ->
  htriple base hs (scoped bytes context m) P base' hs' base hs.
Proof.
  intros Hb Hbase Hb' Hm. unfold scoped. eapply htriple_bind; [by apply htriple_reserve|].
  intros ? ->. intros s Hs. specialize (Hm s Hs). unfold wpM in *.
  destruct (m s) as [[a|e| |] s']; try done.
  - destruct Hm as [Ha Hm]. split; [done|]. apply inv_drop; auto.
  - by apply inv_drop.
Qed.

Lemma hkeeps_scoped {A} bytes context (m : M S A) P :
  0 <= bytes -> hkeeps m P -> hkeeps (scoped bytes context m) P.
Proof.
  intros Hb Hm base hs. apply htriple_nonneg. intros ?. by apply htriple_scoped; [..|apply Hm].
Qed.

Lemma htriple_retained {A} base hs bytes context (m : M S A) P base' hs' :
  0 <= bytes ->
  htriple (base + bytes) hs m P base' hs' (base + bytes) hs ->
  htriple base hs (retained bytes context m) P base' hs' base hs.
Proof.
  intros Hb Hm. apply htriple_nonneg. intros Hbase. unfold retained.
  eapply htriple_bind; [by apply htriple_reserve|]. intros ? ->. intros s Hs. specialize (Hm s Hs).
  unfold wpM, or_drop in *. destruct (m s) as [[a|e| |] s']; try done. by apply inv_drop.
Qed.

(** Returning a reservation in a step of its own. *)
Lemma htriple_drop {A} base hs bytes (a : A) (P : A -> Prop) base' hs' base_e hs_e :
  0 <= bytes -> 0 <= base -> P a -> base' a = base -> hs' a = hs ->
  htriple (base + bytes) hs (fun s => (Ok a, drop_reservation bytes s)) P base' hs' base_e hs_e.
Proof. intros Hb Hbase Ha <- <- s Hs. split; [done|]. by apply inv_drop. Qed.

End Logic.
