(* ===== verification/Checksum.v ===== *)
(** ADLER32: [src/format/common/checksum.rs] and the incremental variant of
    [src/core/persistent/build.rs].  The sums are reduced once per block of
    5552 bytes; the theorems show that the unreduced 32-bit sums cannot
    overflow and that the result is the textbook byte-by-byte checksum. *)

From S2P Require Import Prelude Errors Types.

(** [slice.chunks(n)] for a positive [n]; the length of the list is enough fuel. *)
Fixpoint chunks_fuel {A} (fuel n : nat) (l : list A) : list (list A) :=
  match fuel, l with
  | S fuel, _ :: _ => take n l :: chunks_fuel fuel n (drop n l)
  | _, _ => []
  end.

Definition chunks {A} (n : Z) (l : list A) : list (list A) :=
  chunks_fuel (length l) (Z.to_nat n) l.

Definition MOD_ADLER : Z := 65521.

Definition REDUCTION_BLOCK_BYTES : Z := 5552.

(** The inner loop body of a release build: 32-bit sums that would wrap. *)
Definition adler_byte (ab : Z * Z) (byte : Z) : Z * Z :=
  let a := wrapping_add32 (fst ab) byte in
  (a, wrapping_add32 (snd ab) a).

(** The outer loop body: one block, then the two reductions. *)
Definition adler_block (ab : Z * Z) (block : bytes) : Z * Z :=
  let ab := fold_left adler_byte block ab in
  (fst ab mod MOD_ADLER, snd ab mod MOD_ADLER).

(** [(b << 16) | a] *)
Definition adler_pack (ab : Z * Z) : Z := Z.lor (Z.shiftl (snd ab) 16) (fst ab).

(** [adler32] *)
Definition adler32 (input : bytes) : Z :=
  adler_pack (fold_left adler_block (chunks REDUCTION_BLOCK_BYTES input) (1, 0)).

(** The inner loop body of a build with overflow checks: an overflow panics. *)
Definition adler_byte_checked (ab : Z * Z) (byte : Z) : Result (Z * Z) :=
  let? a := or_panic (try_u32 (fst ab + byte)) "attempt to add with overflow" in
  let? b := or_panic (try_u32 (snd ab + a)) "attempt to add with overflow" in
  Ok (a, b).

Fixpoint adler_bytes_checked (block : bytes) (ab : Z * Z) : Result (Z * Z) :=
  match block with
  | [] => Ok ab
  | byte :: block => let? ab := adler_byte_checked ab byte in adler_bytes_checked block ab
  end.

Fixpoint adler_blocks_checked (blocks : list bytes) (ab : Z * Z) : Result (Z * Z) :=
  match blocks with
  | [] => Ok ab
  | block :: blocks =>
      let? ab := adler_bytes_checked block ab in
      adler_blocks_checked blocks (fst ab mod MOD_ADLER, snd ab mod MOD_ADLER)
  end.

(** [adler32] with overflow checks. *)
Definition adler32_checked (input : bytes) : Result Z :=
  let? ab := adler_blocks_checked (chunks REDUCTION_BLOCK_BYTES input) (1, 0) in
  Ok (adler_pack ab).

(** [verify_adler32] *)
Definition verify_adler32 (context : string) (input : bytes) (expected : Z) : Result unit :=
  let actual := adler32 input in
  if actual =? expected then Ok tt else Err (ChecksumMismatch context expected actual).

(** [IncrementalAdler32]: [new], [update] and [finish]. *)
Record IncrementalAdler32 := { ia_a : Z; ia_b : Z }.

Definition incremental_new : IncrementalAdler32 := {| ia_a := 1; ia_b := 0 |}.

Definition incremental_update (s : IncrementalAdler32) (input : bytes) : IncrementalAdler32 :=
  let ab := fold_left adler_block (chunks REDUCTION_BLOCK_BYTES input) (ia_a s, ia_b s) in
  {| ia_a := fst ab; ia_b := snd ab |}.

Definition incremental_finish (s : IncrementalAdler32) : Z := adler_pack (ia_a s, ia_b s).

(** * Specification: the byte-by-byte checksum of RFC 1950 *)

Definition adler_spec_byte (ab : Z * Z) (byte : Z) : Z * Z :=
  let a := (fst ab + byte) mod MOD_ADLER in
  (a, (snd ab + a) mod MOD_ADLER).

Definition adler_spec_sums (input : bytes) (ab : Z * Z) : Z * Z :=
  fold_left adler_spec_byte input ab.

Definition adler32_spec (input : bytes) : Z :=
  let ab := adler_spec_sums input (1, 0) in snd ab * 65536 + fst ab.

(** * Lemmas *)

Lemma chunks_fuel_concat {A} fuel n (l : list A) :
  (0 < n)%nat -> (length l <= fuel)%nat -> concat (chunks_fuel fuel n l) = l.
Proof.
  intros Hn. revert l; induction fuel as [|fuel IH]; intros [|x l] Hl; simpl in *; try done; try lia.
  rewrite IH; [by rewrite take_drop|]. rewrite length_drop. simpl. lia.
Qed.

Lemma chunks_fuel_bounded {A} fuel n (l : list A) :
  Forall (fun c => (length c <= n)%nat) (chunks_fuel fuel n l).
Proof.
  revert l; induction fuel as [|fuel IH]; intros [|x l]; cbn [chunks_fuel]; try done; constructor.
  - rewrite length_take. lia.
  - apply IH.
Qed.

Lemma chunks_concat {A} n (l : list A) : 0 < n -> concat (chunks n l) = l.
Proof. intros ?. apply chunks_fuel_concat; lia. Qed.

Lemma chunks_bounded {A} n (l : list A) :
  0 < n -> Forall (fun c => zlen c <= n) (chunks n l).
Proof.
  intros ?. eapply Forall_impl; [apply chunks_fuel_bounded|]. simpl. lia.
Qed.

Definition adler_reduced (ab : Z * Z) : Prop :=
  0 <= fst ab < MOD_ADLER /\ 0 <= snd ab < MOD_ADLER.

(** How far the sums can be after [k] bytes of a block. *)
Definition adler_bound (k : Z) (ab : Z * Z) : Prop :=
  0 <= fst ab <= 65520 + 255 * k /\
  0 <= snd ab /\ 2 * snd ab <= 2 * 65520 * (k + 1) + 255 * k * (k + 1).

Lemma adler_bound_fits k ab :
  0 <= k <= REDUCTION_BLOCK_BYTES -> adler_bound k ab ->
  fst ab <= u32_max /\ snd ab <= u32_max.
Proof. unfold adler_bound, REDUCTION_BLOCK_BYTES, u32_max. nia. Qed.

Lemma adler_bound_step k ab byte :
  0 <= k -> is_byte byte -> adler_bound k ab ->
  adler_bound (k + 1) (fst ab + byte, snd ab + (fst ab + byte)).
Proof. unfold adler_bound, is_byte; simpl. nia. Qed.

Lemma wrap32_small x : 0 <= x <= u32_max -> wrap32 x = x.
Proof. intros ?. apply Z.mod_small. unfold u32_max in *. lia. Qed.

Lemma adler_byte_bound k ab byte :
  0 <= k < REDUCTION_BLOCK_BYTES -> is_byte byte -> adler_bound k ab ->
  adler_byte ab byte = (fst ab + byte, snd ab + (fst ab + byte)) /\
  adler_byte_checked ab byte = Ok (fst ab + byte, snd ab + (fst ab + byte)) /\
  adler_bound (k + 1) (fst ab + byte, snd ab + (fst ab + byte)).
Proof.
  intros Hk Hb Hab. pose proof (adler_bound_step k ab byte ltac:(lia) Hb Hab) as Hs.
  pose proof (adler_bound_fits (k + 1) _ ltac:(lia) Hs) as Hf. simpl in Hf.
  destruct (proj1 Hs), (proj2 Hs) as [? _]; simpl in *.
  unfold adler_byte, adler_byte_checked, wrapping_add32, try_u32.
  rewrite !(wrap32_small (fst ab + byte)) by lia. rewrite wrap32_small by lia.
  rewrite (proj2 (Z.leb_le (fst ab + byte) u32_max)) by lia. simpl.
  rewrite (proj2 (Z.leb_le (snd ab + (fst ab + byte)) u32_max)) by lia. done.
Qed.

Lemma adler_spec_byte_mod a b byte :
  adler_spec_byte (a mod MOD_ADLER, b mod MOD_ADLER) byte =
  ((a + byte) mod MOD_ADLER, (b + (a + byte)) mod MOD_ADLER).
Proof.
  unfold adler_spec_byte, MOD_ADLER; simpl.
  rewrite (Zplus_mod_idemp_l a byte), <- Zplus_mod. done.
Qed.

(** Inside a block the wide sums agree with the reduced ones modulo the
    modulus, and both build modes compute the same sums. *)
Lemma adler_block_agrees block k ab :
  0 <= k -> k + zlen block <= REDUCTION_BLOCK_BYTES -> bytes_ok block -> adler_bound k ab ->
  let r := fold_left adler_byte block ab in
  adler_bytes_checked block ab = Ok r /\
  adler_spec_sums block (fst ab mod MOD_ADLER, snd ab mod MOD_ADLER) =
    (fst r mod MOD_ADLER, snd r mod MOD_ADLER).
Proof.
  intros Hk Hlen Hok; revert k ab Hk Hlen.
  induction Hok as [|byte block Hb _ IH]; intros k ab Hk Hlen Hab; simpl in *; [done|].
  destruct (adler_byte_bound k ab byte ltac:(lia) Hb Hab) as (E & Ec & Hn).
  rewrite E, Ec. simpl.
  specialize (IH (k + 1) _ ltac:(lia) ltac:(lia) Hn) as [IH1 IH2]. split; [done|].
  unfold adler_spec_sums in *; simpl. rewrite adler_spec_byte_mod. apply IH2.
Qed.

Lemma adler_block_spec block ab :
  zlen block <= REDUCTION_BLOCK_BYTES -> bytes_ok block -> adler_reduced ab ->
  adler_bytes_checked block ab = Ok (fold_left adler_byte block ab) /\
  adler_block ab block = adler_spec_sums block ab /\
  adler_reduced (adler_block ab block).
Proof.
  intros Hlen Hok [Ha Hb]. unfold MOD_ADLER in *.
  destruct (adler_block_agrees block 0 ab) as [Hc Hs]; [lia|lia|done| |].
  { unfold adler_bound. lia. }
  rewrite (Z.mod_small (fst ab)), (Z.mod_small (snd ab)), <- surjective_pairing in Hs
    by (unfold MOD_ADLER; lia).
  split_and!; [done| |].
  - unfold adler_block. by rewrite Hs.
  - unfold adler_block, adler_reduced, MOD_ADLER; simpl.
    split; apply Z.mod_pos_bound; lia.
Qed.

Lemma adler_blocks_spec blocks ab :
  Forall (fun c => zlen c <= REDUCTION_BLOCK_BYTES) blocks ->
  Forall bytes_ok blocks -> adler_reduced ab ->
  fold_left adler_block blocks ab = adler_spec_sums (concat blocks) ab /\
  adler_blocks_checked blocks ab = Ok (fold_left adler_block blocks ab) /\
  adler_reduced (fold_left adler_block blocks ab).
Proof.
  revert ab; induction blocks as [|block blocks IH]; intros ab; [done|].
  intros [Hl Hls]%Forall_cons [Hk Hks]%Forall_cons Hr; simpl.
  destruct (adler_block_spec block ab Hl Hk Hr) as (Hc & Hs & Hr').
  destruct (IH _ Hls Hks Hr') as (IH1 & IH2 & IH3).
  rewrite Hc; simpl. split_and!; [|by apply IH2|done].
  rewrite IH1. unfold adler_spec_sums. by rewrite fold_left_app, Hs.
Qed.

Lemma Forall_concat_inv {A} (P : A -> Prop) ls : Forall P (concat ls) -> Forall (Forall P) ls.
Proof.
  induction ls as [|l ls IH]; simpl; [constructor|].
  intros [? ?]%Forall_app. constructor; auto.
Qed.

Lemma adler_chunks_spec input ab :
  bytes_ok input -> adler_reduced ab ->
  fold_left adler_block (chunks REDUCTION_BLOCK_BYTES input) ab = adler_spec_sums input ab /\
  adler_blocks_checked (chunks REDUCTION_BLOCK_BYTES input) ab = Ok (adler_spec_sums input ab) /\
  adler_reduced (adler_spec_sums input ab).
Proof.
  intros Hok Hr. unfold bytes_ok in Hok.
  rewrite <- (chunks_concat REDUCTION_BLOCK_BYTES input) in Hok by done.
  apply Forall_concat_inv in Hok.
  destruct (adler_blocks_spec _ ab (chunks_bounded REDUCTION_BLOCK_BYTES input eq_refl) Hok Hr)
    as (H1 & H2 & H3).
  rewrite chunks_concat in H1 by done. rewrite H1 in H2, H3. done.
Qed.

Lemma adler_pack_sum ab : adler_reduced ab -> adler_pack ab = snd ab * 65536 + fst ab.
Proof.
  intros [? ?]. unfold adler_pack, MOD_ADLER in *.
  rewrite Z.shiftl_mul_pow2 by lia. change (2 ^ 16) with 65536.
  rewrite <- Z.lxor_lor, <- Z.add_nocarry_lxor; [done| |];
    (apply Z.bits_inj_0; intros n; rewrite Z.land_spec;
     destruct (Z_lt_ge_dec n 0) as [?|?];
     [by rewrite !Z.testbit_neg_r by lia|];
     destruct (Z_lt_ge_dec n 16) as [?|?];
     [change 65536 with (2 ^ 16); by rewrite Z.mul_pow2_bits_low|];
     rewrite andb_comm; replace (Z.testbit (fst ab) n) with false; [done|];
     symmetry; destruct (Z.eq_dec (fst ab) 0) as [->|?]; [apply Z.bits_0|];
     apply Z.bits_above_log2; [lia|];
     apply Z.lt_le_trans with 16; [apply Z.log2_lt_pow2; lia|lia]).
Qed.

Lemma one_zero_reduced : adler_reduced (1, 0).
Proof. unfold adler_reduced, MOD_ADLER; simpl. lia. Qed.

Lemma adler32_u32 input : bytes_ok input -> is_u32 (adler32 input).
Proof.
  intros Hok. destruct (adler_chunks_spec input (1, 0) Hok one_zero_reduced) as (H1 & _ & Hr).
  unfold adler32. rewrite H1, (adler_pack_sum _ Hr).
  unfold adler_reduced, MOD_ADLER, is_u32, u32_max in *. lia.
Qed.

Lemma incremental_update_spec s input :
  bytes_ok input -> adler_reduced (ia_a s, ia_b s) ->
  (ia_a (incremental_update s input), ia_b (incremental_update s input)) =
    adler_spec_sums input (ia_a s, ia_b s).
Proof.
  intros Hok Hr. unfold incremental_update; simpl.
  destruct (adler_chunks_spec input _ Hok Hr) as (-> & _ & _).
  by rewrite <- surjective_pairing.
Qed.

Lemma verify_adler32_safe context input expected :
  wp (verify_adler32 context input expected) (fun _ => adler32 input = expected).
Proof. unfold verify_adler32. wp_steps; zbool; done. Qed.

Lemma wp_verify_adler32 context input expected (Q : unit -> Prop) :
  (adler32 input = expected -> Q tt) -> wp (verify_adler32 context input expected) Q.
Proof.
  intros HQ. unfold verify_adler32. cbv zeta. wp_steps. zbool. auto.
Qed.

Lemma adler32_eq_spec input : bytes_ok input -> adler32 input = adler32_spec input.
Proof.
  intros Hok.
  destruct (adler_chunks_spec input (1, 0) Hok one_zero_reduced) as (H1 & _ & Hr).
  unfold adler32, adler32_spec. by rewrite H1, (adler_pack_sum _ Hr).
Qed.

(** * Properties *)

(** For every byte sequence, the block-reduced [adler32] equals the
    byte-by-byte ADLER32 of RFC 1950, and a build with overflow checks computes
    the same value without a single 32-bit overflow: 5552 is a safe block
    length. *)
Theorem adler32_correct input :
  bytes_ok input ->
  adler32 input = adler32_spec input /\ adler32_checked input = Ok (adler32_spec input).
Proof.
  intros Hok. split; [by apply adler32_eq_spec|].
  destruct (adler_chunks_spec input (1, 0) Hok one_zero_reduced) as (_ & H2 & Hr).
  unfold adler32_checked, adler32_spec. rewrite H2; simpl. by rewrite (adler_pack_sum _ Hr).
Qed.

Example adler32_correct_witness :
  bytes_ok (lit "Wikipedia") /\
  adler32 (lit "Wikipedia") = adler32_spec (lit "Wikipedia") /\
  adler32_checked (lit "Wikipedia") = Ok (adler32_spec (lit "Wikipedia")).
Proof.
  assert (bytes_ok (lit "Wikipedia")) as Hok.
  { unfold bytes_ok, is_byte. repeat constructor; vm_compute; done. }
  split; [exact Hok|]. apply (adler32_correct (lit "Wikipedia") Hok).
Defined.

Example adler32_wikipedia : adler32 (lit "Wikipedia") = 300286872.
Proof. vm_compute. reflexivity. Qed.

(** Feeding a section to the incremental checksum piece by piece, in any
    pieces, finishes with the ADLER32 of the whole section. *)
Theorem incremental_adler32_correct (pieces : list bytes) :
  bytes_ok (concat pieces) ->
  incremental_finish (fold_left incremental_update pieces incremental_new) =
  adler32 (concat pieces).
Proof.
  intros Hok. rewrite (adler32_eq_spec _ Hok).
  assert (forall s, bytes_ok (concat pieces) -> adler_reduced (ia_a s, ia_b s) ->
    let r := fold_left incremental_update pieces s in
    (ia_a r, ia_b r) = adler_spec_sums (concat pieces) (ia_a s, ia_b s) /\
    adler_reduced (ia_a r, ia_b r)) as Hgen.
  { clear Hok. induction pieces as [|p pieces IH]; intros s Hok Hr; simpl in *; [done|].
    apply bytes_ok_app in Hok as [Hp Hps].
    pose proof (incremental_update_spec s p Hp Hr) as Hu.
    destruct (IH (incremental_update s p) Hps) as [H1 H2].
    { rewrite Hu. by apply adler_chunks_spec. }
    split; [|done]. rewrite H1, Hu. unfold adler_spec_sums. by rewrite fold_left_app. }
  destruct (Hgen incremental_new Hok one_zero_reduced) as [H1 H2].
  unfold incremental_finish, adler32_spec. rewrite (adler_pack_sum _ H2), H1. done.
Qed.

Example incremental_adler32_witness :
  bytes_ok (concat [lit "Wiki"; []; lit "pedia"]) /\
  incremental_finish (fold_left incremental_update [lit "Wiki"; []; lit "pedia"] incremental_new)
  = adler32 (concat [lit "Wiki"; []; lit "pedia"]).
Proof.
  assert (bytes_ok (concat [lit "Wiki"; []; lit "pedia"])) as Hok.
  { unfold bytes_ok, is_byte. repeat constructor; vm_compute; done. }
  split; [exact Hok|]. apply (incremental_adler32_correct [lit "Wiki"; []; lit "pedia"] Hok).
Defined.
