(* ===== verification/Cursor.v ===== *)
(** The bounded cursor of [src/format/common/cursor.rs].  A [&mut self] method
    is a computation in [M Cursor]; an error leaves the cursor in place. *)

From S2P Require Import Prelude Errors Types.

(** [Cursor] *)
Record Cursor := {
  c_bytes : bytes;
  c_offset : Z;
}.

(** [Cursor::new] *)
Definition cursor_new (input : bytes) : Cursor := {| c_bytes := input; c_offset := 0 |}.

(** [Cursor::remaining] *)
Definition remaining (c : Cursor) : Z := saturating_sub (zlen (c_bytes c)) (c_offset c).

(** [Cursor::is_empty] *)
Definition cursor_is_empty (c : Cursor) : bool := remaining c =? 0.

(** [Cursor::read_bytes] *)
Definition read_bytes (len : Z) (context : string) : M Cursor bytes := fun c =>
  match checked_add (c_offset c) len with
  | None => (Err (InvalidFormat "cursor offset overflow"), c)
  | Some end_ =>
      match slice (c_bytes c) (c_offset c) end_ with
      | None => (Err (truncated context len (remaining c)), c)
      | Some s => (Ok s, {| c_bytes := c_bytes c; c_offset := end_ |})
      end
  end.

(** [Cursor::read_array]; [copy_from_slice] panics when the lengths differ. *)
Definition read_array (n : nat) (context : string) : M Cursor bytes :=
  let! s := read_bytes (Z.of_nat n) context in
  if bool_decide (length s = n) then mret s
  else lift (Panic "copy_from_slice: source slice length does not match").

(** [Cursor::read_u8] *)
Definition read_u8 (context : string) : M Cursor Z :=
  let! s := read_array 1 context in
  lift (or_panic (get_at s 0) "index out of bounds").

Definition read_be (n : nat) (context : string) : M Cursor Z :=
  let! s := read_array n context in mret (be_combine s).

(** [Cursor::read_u16_be] *)
Definition read_u16_be (context : string) : M Cursor Z := read_be 2 context.

(** [Cursor::read_u32_be] *)
Definition read_u32_be (context : string) : M Cursor Z := read_be 4 context.

(** [Cursor::read_u32_le] *)
Definition read_u32_le (context : string) : M Cursor Z :=
  let! s := read_array 4 context in mret (le_combine s).

(** [Cursor::read_u64_be] *)
Definition read_u64_be (context : string) : M Cursor Z := read_be 8 context.

(** [Cursor::read_u32_be_widened] *)
Definition read_u32_be_widened (context : string) : M Cursor Z :=
  let! x := read_be 4 context in mret (widen_u32 x).

(** Runs a cursor computation from the start of a slice. *)
Definition with_cursor {A} (input : bytes) (m : M Cursor A) : Result A :=
  fst (m (cursor_new input)).

(** * Invariant *)

Definition cursor_ok (c : Cursor) : Prop :=
  0 <= c_offset c <= zlen (c_bytes c) /\ bytes_ok (c_bytes c).

(** [c'] is [c] moved [n] bytes forward. *)
Definition advanced (c c' : Cursor) (n : Z) : Prop :=
  c_bytes c' = c_bytes c /\ c_offset c' = c_offset c + n.

(** The unread bytes. *)
Definition rest (c : Cursor) : bytes := drop (Z.to_nat (c_offset c)) (c_bytes c).

(** A cursor that has read [p] and will read [q]. *)
Definition cursor_at (p q : bytes) : Cursor := {| c_bytes := p ++ q; c_offset := zlen p |}.

Lemma cursor_new_ok input : bytes_ok input -> cursor_ok (cursor_new input).
Proof. intros ?. split; [simpl; lia|done]. Qed.

Lemma cursor_new_at input : cursor_new input = cursor_at [] input.
Proof. done. Qed.

Lemma remaining_ok c : cursor_ok c -> remaining c = zlen (c_bytes c) - c_offset c.
Proof. intros [? ?]. unfold remaining, saturating_sub. lia. Qed.

Lemma remaining_at p q : remaining (cursor_at p q) = zlen q.
Proof. unfold remaining, saturating_sub; simpl. rewrite length_app. lia. Qed.

Lemma cursor_is_empty_at p q : cursor_is_empty (cursor_at p q) = true <-> q = [].
Proof.
  unfold cursor_is_empty. rewrite remaining_at, Z.eqb_eq. destruct q; simpl; split; try done; lia.
Qed.

Lemma cursor_is_empty_false c :
  cursor_ok c -> cursor_is_empty c = false -> c_offset c < zlen (c_bytes c).
Proof.
  intros Hc. unfold cursor_is_empty. rewrite remaining_ok by done.
  destruct Hc as [? ?]. intros ?. zbool. lia.
Qed.

Lemma cursor_is_empty_true c :
  cursor_ok c -> cursor_is_empty c = true -> c_offset c = zlen (c_bytes c).
Proof.
  intros Hc. unfold cursor_is_empty. rewrite remaining_ok by done.
  destruct Hc as [? ?]. intros ?. zbool. lia.
Qed.

Lemma wp_read_bytes len context c (Q : bytes -> Cursor -> Prop) :
  0 <= len -> cursor_ok c ->
  (forall s c', slice (c_bytes c) (c_offset c) (c_offset c + len) = Some s ->
     zlen s = len -> bytes_ok s -> cursor_ok c' -> advanced c c' len -> Q s c') ->
  wpM (read_bytes len context) c Q (fun _ _ => True).
Proof.
  intros Hl [Hc Hok] HQ. unfold wpM, read_bytes.
  destruct (checked_add (c_offset c) len) as [e|] eqn:Ha; [|done].
  apply checked_add_Some in Ha as [-> ?].
  destruct (slice _ _ _) as [s|] eqn:Hs; [|done].
  apply HQ; [done| | | |done].
  - apply slice_length in Hs. lia.
  - by eapply slice_Forall.
  - apply slice_Some in Hs. split; simpl; [lia|done].
Qed.

Lemma wp_read_array n context c (Q : bytes -> Cursor -> Prop) :
  cursor_ok c ->
  (forall s c', slice (c_bytes c) (c_offset c) (c_offset c + Z.of_nat n) = Some s ->
     length s = n -> bytes_ok s -> cursor_ok c' ->
     advanced c c' (Z.of_nat n) -> Q s c') ->
  wpM (read_array n context) c Q (fun _ _ => True).
Proof.
  intros Hc HQ. apply wpM_bind, wp_read_bytes; [lia|done|].
  intros s c' ? ? ? ? ?. rewrite bool_decide_true by lia. apply wpM_ret. apply HQ; try done. lia.
Qed.

Lemma wp_read_be n context c (Q : Z -> Cursor -> Prop) :
  cursor_ok c ->
  (forall v c', 0 <= v < 256 ^ Z.of_nat n -> cursor_ok c' -> advanced c c' (Z.of_nat n) -> Q v c') ->
  wpM (read_be n context) c Q (fun _ _ => True).
Proof.
  intros Hc HQ. apply wpM_bind, wp_read_array; [done|].
  intros s c' _ <- Hs ? ?. apply wpM_ret. apply HQ; try done. by apply be_combine_bound.
Qed.

Lemma wp_read_u16_be context c (Q : Z -> Cursor -> Prop) :
  cursor_ok c ->
  (forall v c', 0 <= v <= u16_max -> cursor_ok c' -> advanced c c' 2 -> Q v c') ->
  wpM (read_u16_be context) c Q (fun _ _ => True).
Proof.
  intros Hc HQ. apply wp_read_be; [done|]. intros v c' ? ? ?.
  apply HQ; try done. unfold u16_max. simpl in *. lia.
Qed.

Lemma wp_read_u32_be context c (Q : Z -> Cursor -> Prop) :
  cursor_ok c ->
  (forall v c', is_u32 v -> cursor_ok c' -> advanced c c' 4 -> Q v c') ->
  wpM (read_u32_be context) c Q (fun _ _ => True).
Proof.
  intros Hc HQ. apply wp_read_be; [done|]. intros v c' ? ? ?.
  apply HQ; try done. unfold is_u32, u32_max. simpl in *. lia.
Qed.

Lemma wp_read_u32_be_widened context c (Q : Z -> Cursor -> Prop) :
  cursor_ok c ->
  (forall v c', is_u32 v -> cursor_ok c' -> advanced c c' 4 -> Q v c') ->
  wpM (read_u32_be_widened context) c Q (fun _ _ => True).
Proof. intros Hc HQ. apply wpM_bind, (wp_read_u32_be context); [done|]. intros. by apply HQ. Qed.

Lemma wp_read_u64_be context c (Q : Z -> Cursor -> Prop) :
  cursor_ok c ->
  (forall v c', is_u64 v -> cursor_ok c' -> advanced c c' 8 -> Q v c') ->
  wpM (read_u64_be context) c Q (fun _ _ => True).
Proof.
  intros Hc HQ. apply wp_read_be; [done|]. intros v c' ? ? ?.
  apply HQ; try done. unfold is_u64, u64_max. simpl in *. lia.
Qed.

Lemma wp_read_u32_le context c (Q : Z -> Cursor -> Prop) :
  cursor_ok c ->
  (forall v c', is_u32 v -> cursor_ok c' -> advanced c c' 4 -> Q v c') ->
  wpM (read_u32_le context) c Q (fun _ _ => True).
Proof.
  intros Hc HQ. apply wpM_bind, wp_read_array; [done|].
  intros s c' _ Hl Hs ? ?. apply wpM_ret. apply HQ; try done.
  pose proof (le_combine_bound s Hs). rewrite Hl in *. unfold is_u32, u32_max. simpl in *. lia.
Qed.

Lemma wp_read_u8 context c (Q : Z -> Cursor -> Prop) :
  cursor_ok c ->
  (forall v c', is_byte v -> cursor_ok c' -> advanced c c' 1 -> Q v c') ->
  wpM (read_u8 context) c Q (fun _ _ => True).
Proof.
  intros Hc HQ. apply wpM_bind, wp_read_array; [done|].
  intros s c' _ Hl Hs ? ?. apply wpM_lift; [|done].
  destruct s as [|v [|? ?]]; simpl in Hl; try lia. simpl. apply HQ; try done.
  by inversion Hs.
Qed.

Lemma wp_with_cursor {A} input (m : M Cursor A) (Q : A -> Prop) :
  wpM m (cursor_new input) (fun a _ => Q a) (fun _ _ => True) -> wp (with_cursor input m) Q.
Proof. apply wp_fst. Qed.

(** * Reading what was written *)

Lemma read_bytes_at p m q context :
  zlen p + zlen m <= u64_max ->
  read_bytes (zlen m) context (cursor_at p (m ++ q)) = (Ok m, cursor_at (p ++ m) q).
Proof.
  intros Hl. unfold read_bytes, checked_add; simpl.
  rewrite (proj2 (Z.leb_le _ _)) by lia. rewrite slice_app_mid.
  unfold cursor_at. by rewrite <- app_assoc, length_app, Nat2Z.inj_add.
Qed.

Lemma read_array_at p m q context n :
  length m = n -> zlen p + zlen m <= u64_max ->
  read_array n context (cursor_at p (m ++ q)) = (Ok m, cursor_at (p ++ m) q).
Proof.
  intros <- Hl. unfold read_array, mbind. rewrite read_bytes_at by done.
  by rewrite bool_decide_true.
Qed.

Lemma read_be_at n p x q context :
  0 <= x < 256 ^ Z.of_nat n -> zlen p + Z.of_nat n <= u64_max ->
  read_be n context (cursor_at p (be_split n x ++ q)) = (Ok x, cursor_at (p ++ be_split n x) q).
Proof.
  intros Hx Hl. unfold read_be, mbind. rewrite read_array_at.
  - unfold mret. by rewrite be_combine_split.
  - apply length_be_split.
  - rewrite length_be_split. lia.
Qed.

Lemma read_u16_be_at p x q context :
  0 <= x <= u16_max -> zlen p + 2 <= u64_max ->
  read_u16_be context (cursor_at p (be_split 2 x ++ q)) = (Ok x, cursor_at (p ++ be_split 2 x) q).
Proof. intros ? ?. apply read_be_at; [unfold u16_max in *; simpl|]; lia. Qed.

Lemma read_u32_be_widened_at p x q context :
  is_u32 x -> zlen p + 4 <= u64_max ->
  read_u32_be_widened context (cursor_at p (be_split 4 x ++ q)) =
    (Ok x, cursor_at (p ++ be_split 4 x) q).
Proof.
  intros Hx ?. unfold read_u32_be_widened, mbind. rewrite read_be_at; [done| |lia].
  unfold is_u32, u32_max in Hx. simpl. lia.
Qed.

Lemma read_u64_be_at p x q context :
  is_u64 x -> zlen p + 8 <= u64_max ->
  read_u64_be context (cursor_at p (be_split 8 x ++ q)) = (Ok x, cursor_at (p ++ be_split 8 x) q).
Proof. intros Hx ?. apply read_be_at; [unfold is_u64, u64_max in Hx; simpl|]; lia. Qed.

Lemma read_u8_at p x q context :
  zlen p + 1 <= u64_max ->
  read_u8 context (cursor_at p (x :: q)) = (Ok x, cursor_at (p ++ [x]) q).
Proof.
  intros ?. unfold read_u8, mbind. change (x :: q) with ([x] ++ q).
  rewrite read_array_at; [done|done|simpl; lia].
Qed.
