(* ===== verification/Utf8.v ===== *)
(** UTF-8 and UTF-16 as the standard library has them: [str::from_utf8],
    [str::chars], [String::push], [char::decode_utf16] and the trimming
    functions.  Text is a UTF-8 byte sequence; [chars] is its scalar values. *)

From S2P Require Import Prelude Errors Types.

(** A Unicode scalar value: [char::from_u32] accepts exactly these. *)
Definition is_scalar (c : Z) : bool :=
  ((0 <=? c) && (c <=? 55295)) || ((57344 <=? c) && (c <=? 1114111)).

(** [char::from_u32] *)
Definition char_from_u32 (c : Z) : option Z := if is_scalar c then Some c else None.

(** [char::encode_utf8] *)
Definition utf8_encode_char (c : Z) : bytes :=
  if c <? 128 then [c]
  else if c <? 2048 then [192 + c / 64; 128 + c mod 64]
  else if c <? 65536 then [224 + c / 4096; 128 + c / 64 mod 64; 128 + c mod 64]
  else [240 + c / 262144; 128 + c / 4096 mod 64; 128 + c / 64 mod 64; 128 + c mod 64].

Definition utf8_encode (cs : list Z) : bytes := concat (map utf8_encode_char cs).

(** [char::len_utf8] *)
Definition len_utf8 (c : Z) : Z :=
  if c <? 128 then 1 else if c <? 2048 then 2 else if c <? 65536 then 3 else 4.

Definition in_range (lo hi b : Z) : bool := (lo <=? b) && (b <=? hi).

Definition is_continuation (b : Z) : bool := in_range 128 191 b.

(** The well-formed sequences of two, three and four bytes. *)
Definition utf8_two (b0 b1 : Z) : bool := in_range 194 223 b0 && is_continuation b1.

Definition utf8_three (b0 b1 b2 : Z) : bool :=
  ((b0 =? 224) && in_range 160 191 b1
   || in_range 225 236 b0 && is_continuation b1
   || (b0 =? 237) && in_range 128 159 b1
   || in_range 238 239 b0 && is_continuation b1)
  && is_continuation b2.

Definition utf8_four (b0 b1 b2 b3 : Z) : bool :=
  ((b0 =? 240) && in_range 144 191 b1
   || in_range 241 243 b0 && is_continuation b1
   || (b0 =? 244) && in_range 128 143 b1)
  && is_continuation b2 && is_continuation b3.

(** [str::from_utf8] followed by [chars]: the scalar values of well-formed
    UTF-8, [None] for anything else. *)
Fixpoint utf8_decode (l : bytes) : option (list Z) :=
  match l with
  | [] => Some []
  | b0 :: l1 =>
      if in_range 0 127 b0 then cons b0 <$> utf8_decode l1 else
      match l1 with
      | [] => None
      | b1 :: l2 =>
          if utf8_two b0 b1
          then cons ((b0 - 192) * 64 + (b1 - 128)) <$> utf8_decode l2 else
          match l2 with
          | [] => None
          | b2 :: l3 =>
              if utf8_three b0 b1 b2
              then cons ((b0 - 224) * 4096 + (b1 - 128) * 64 + (b2 - 128)) <$> utf8_decode l3 else
              match l3 with
              | [] => None
              | b3 :: l4 =>
                  if utf8_four b0 b1 b2 b3
                  then cons ((b0 - 240) * 262144 + (b1 - 128) * 4096 + (b2 - 128) * 64 + (b3 - 128))
                         <$> utf8_decode l4
                  else None
              end
          end
      end
  end.

(** The invariant of [str]. *)
Definition text_ok (t : text) : Prop := is_Some (utf8_decode t).

(** [str::chars] *)
Definition chars (t : text) : list Z := default [] (utf8_decode t).

(** [char::decode_utf16] over little-endian code units; [None] on an unpaired
    surrogate. *)
Fixpoint utf16_decode (units : list Z) : option (list Z) :=
  match units with
  | [] => Some []
  | u :: units1 =>
      if in_range 55296 57343 u then
        if in_range 55296 56319 u then
          match units1 with
          | [] => None
          | u2 :: units2 =>
              if in_range 56320 57343 u2
              then cons (65536 + (u - 55296) * 1024 + (u2 - 56320)) <$> utf16_decode units2
              else None
          end
        else None
      else cons u <$> utf16_decode units1
  end.

(** [char::encode_utf16] *)
Definition utf16_encode_char (c : Z) : list Z :=
  if c <? 65536 then [c]
  else [55296 + (c - 65536) / 1024; 56320 + (c - 65536) mod 1024].

Definition utf16_encode (cs : list Z) : list Z := concat (map utf16_encode_char cs).

(** [bytes.chunks_exact(2)] as little-endian code units *)
Fixpoint utf16_units (l : bytes) : list Z :=
  match l with
  | b0 :: b1 :: l => (b0 + 256 * b1) :: utf16_units l
  | _ => []
  end.

(** The bytes of little-endian code units. *)
Fixpoint utf16_bytes (units : list Z) : bytes :=
  match units with
  | [] => []
  | u :: units => u mod 256 :: u / 256 :: utf16_bytes units
  end.

(** [char::is_whitespace]: the Unicode White_Space property *)
Definition is_whitespace (c : Z) : bool :=
  in_range 9 13 c || (c =? 32) || (c =? 133) || (c =? 160) || (c =? 5760)
  || in_range 8192 8202 c || in_range 8232 8233 c || (c =? 8239) || (c =? 8287) || (c =? 12288).

Fixpoint drop_while (p : Z -> bool) (l : list Z) : list Z :=
  match l with
  | [] => []
  | c :: rest => if p c then drop_while p rest else l
  end.

Definition drop_while_end (p : Z -> bool) (l : list Z) : list Z := rev (drop_while p (rev l)).

(** [str::trim_matches] for a character predicate *)
Definition trim_matches (p : Z -> bool) (t : text) : text :=
  utf8_encode (drop_while_end p (drop_while p (chars t))).

(** [str::trim] *)
Definition trim (t : text) : text := trim_matches is_whitespace t.

(** [str::trim_end_matches] *)
Definition trim_end_matches (p : Z -> bool) (t : text) : text :=
  utf8_encode (drop_while_end p (chars t)).

(** [str::is_char_boundary] *)
Definition is_char_boundary (t : text) (i : Z) : bool :=
  (i =? 0) || (i =? zlen t)
  || match get_at t i with Some b => negb (is_continuation b) | None => false end.

(** [&t[a..b]], which panics out of range or inside a character *)
Definition str_slice (t : text) (a b : Z) : Result text :=
  if is_char_boundary t a && is_char_boundary t b
  then or_panic (slice t a b) "str slice out of range"
  else Panic "byte index is not a char boundary".

(** The number of leading bytes that satisfy [p]: a [while] loop over an index. *)
Fixpoint count_while (p : Z -> bool) (l : bytes) : Z :=
  match l with
  | [] => 0
  | b :: l => if p b then 1 + count_while p l else 0
  end.

(** [while index < bytes.len() && p(bytes[index]) { index += 1 }] *)
Definition skip_while (p : Z -> bool) (t : bytes) (index : Z) : Z :=
  index + count_while p (drop (Z.to_nat index) t).

(** [t.find(b)] for an ASCII byte: the text before it and the text behind it. *)
Fixpoint split_at_byte (b : Z) (t : text) : option (text * text) :=
  match t with
  | [] => None
  | x :: t =>
      if x =? b then Some ([], t)
      else match split_at_byte b t with
           | Some (before, after) => Some (x :: before, after)
           | None => None
           end
  end.

(** * Lemmas *)

Ltac div_lia := Z.to_euclidean_division_equations; lia.

Lemma in_range_true lo hi b : in_range lo hi b = true <-> lo <= b <= hi.
Proof. unfold in_range. rewrite andb_true_iff, !Z.leb_le. done. Qed.

Lemma in_range_false lo hi b : in_range lo hi b = false <-> ~ (lo <= b <= hi).
Proof. rewrite <- in_range_true. by destruct (in_range lo hi b). Qed.

Lemma is_scalar_true c :
  is_scalar c = true <-> 0 <= c <= 55295 \/ 57344 <= c <= 1114111.
Proof. unfold is_scalar. rewrite orb_true_iff, !andb_true_iff, !Z.leb_le. done. Qed.

Ltac range_prop :=
  repeat (rewrite orb_true_iff || rewrite andb_true_iff || rewrite orb_false_iff
    || rewrite andb_false_iff || rewrite in_range_true || rewrite in_range_false
    || rewrite Z.eqb_eq || rewrite Z.eqb_neq).

Ltac range_prop_in H :=
  repeat (rewrite orb_true_iff in H || rewrite andb_true_iff in H
    || rewrite in_range_true in H || rewrite Z.eqb_eq in H).

Ltac range_solve := range_prop; div_lia.

Lemma utf8_decode_encode_char c l :
  is_scalar c = true -> utf8_decode (utf8_encode_char c ++ l) = cons c <$> utf8_decode l.
Proof.
  intros Hc%is_scalar_true. unfold utf8_encode_char.
  destruct (Z.ltb_spec c 128); [|destruct (Z.ltb_spec c 2048); [|destruct (Z.ltb_spec c 65536)]];
    cbn [app utf8_decode].
  - rewrite (proj2 (in_range_true 0 127 c)) by lia. done.
  - rewrite (proj2 (in_range_false 0 127 _)) by div_lia.
    replace (utf8_two (192 + c / 64) (128 + c mod 64)) with true
      by (symmetry; unfold utf8_two, is_continuation; range_solve).
    do 2 f_equal. div_lia.
  - rewrite (proj2 (in_range_false 0 127 _)) by div_lia.
    replace (utf8_two (224 + c / 4096) (128 + c / 64 mod 64)) with false
      by (symmetry; unfold utf8_two, is_continuation; range_solve).
    replace (utf8_three (224 + c / 4096) (128 + c / 64 mod 64) (128 + c mod 64)) with true
      by (symmetry; unfold utf8_three, is_continuation; range_solve).
    do 2 f_equal. div_lia.
  - rewrite (proj2 (in_range_false 0 127 _)) by div_lia.
    replace (utf8_two (240 + c / 262144) (128 + c / 4096 mod 64)) with false
      by (symmetry; unfold utf8_two, is_continuation; range_solve).
    replace (utf8_three (240 + c / 262144) (128 + c / 4096 mod 64) (128 + c / 64 mod 64)) with false
      by (symmetry; unfold utf8_three, is_continuation; range_solve).
    replace (utf8_four (240 + c / 262144) (128 + c / 4096 mod 64) (128 + c / 64 mod 64)
               (128 + c mod 64)) with true
      by (symmetry; unfold utf8_four, is_continuation; range_solve).
    do 2 f_equal. div_lia.
Qed.

Lemma utf8_decode_encode_app cs l :
  Forall (fun c => is_scalar c = true) cs ->
  utf8_decode (utf8_encode cs ++ l) = app cs <$> utf8_decode l.
Proof.
  induction 1 as [|c cs Hc _ IH]; cbn [utf8_encode map concat].
  - simpl. by destruct (utf8_decode l).
  - rewrite <- app_assoc, utf8_decode_encode_char by done.
    unfold utf8_encode in IH. rewrite IH. by destruct (utf8_decode l).
Qed.

Lemma utf8_decode_encode cs :
  Forall (fun c => is_scalar c = true) cs -> utf8_decode (utf8_encode cs) = Some cs.
Proof.
  intros Hcs. pose proof (utf8_decode_encode_app cs [] Hcs) as H.
  rewrite app_nil_r in H. simpl in H. by rewrite app_nil_r in H.
Qed.

(** What one decoding step can be. *)
Inductive utf8_head : bytes -> Z -> bytes -> Prop :=
| head1 b0 l : in_range 0 127 b0 = true -> utf8_head (b0 :: l) b0 l
| head2 b0 b1 l : utf8_two b0 b1 = true ->
    utf8_head (b0 :: b1 :: l) ((b0 - 192) * 64 + (b1 - 128)) l
| head3 b0 b1 b2 l : utf8_three b0 b1 b2 = true ->
    utf8_head (b0 :: b1 :: b2 :: l) ((b0 - 224) * 4096 + (b1 - 128) * 64 + (b2 - 128)) l
| head4 b0 b1 b2 b3 l : utf8_four b0 b1 b2 b3 = true ->
    utf8_head (b0 :: b1 :: b2 :: b3 :: l)
      ((b0 - 240) * 262144 + (b1 - 128) * 4096 + (b2 - 128) * 64 + (b3 - 128)) l.

Lemma utf8_decode_inv l cs :
  utf8_decode l = Some cs ->
  (l = [] /\ cs = []) \/
  exists c l' cs', cs = c :: cs' /\ utf8_head l c l' /\ utf8_decode l' = Some cs'.
Proof.
  destruct l as [|b0 l1]; cbn [utf8_decode]; [intros [= <-]; by left|].
  intros H; right. repeat case_match; try done;
    apply fmap_Some in H as (cs' & ? & ->); eexists _, _, cs'; split_and!; try done;
    by constructor.
Qed.

Lemma utf8_head_encode l c l' :
  utf8_head l c l' -> is_scalar c = true /\ l = utf8_encode_char c ++ l'.
Proof.
  intros Hh. rewrite is_scalar_true. unfold utf8_encode_char.
  destruct Hh as [b0 l H|b0 b1 l H|b0 b1 b2 l H|b0 b1 b2 b3 l H];
    unfold utf8_two, utf8_three, utf8_four, is_continuation in *; range_prop_in H.
  - rewrite (proj2 (Z.ltb_lt b0 128)) by lia. split; [lia|done].
  - rewrite (proj2 (Z.ltb_ge _ 128)), (proj2 (Z.ltb_lt _ 2048)) by lia.
    split; [lia|]. cbn [app]. repeat f_equal; div_lia.
  - rewrite (proj2 (Z.ltb_ge _ 128)), (proj2 (Z.ltb_ge _ 2048)), (proj2 (Z.ltb_lt _ 65536)) by lia.
    split; [lia|]. cbn [app]. repeat f_equal; div_lia.
  - rewrite (proj2 (Z.ltb_ge _ 128)), (proj2 (Z.ltb_ge _ 2048)), (proj2 (Z.ltb_ge _ 65536)) by lia.
    split; [lia|]. cbn [app]. repeat f_equal; div_lia.
Qed.

Lemma utf8_encode_decode l cs :
  utf8_decode l = Some cs -> utf8_encode cs = l /\ Forall (fun c => is_scalar c = true) cs.
Proof.
  remember (length l) as n eqn:Hn. revert l cs Hn.
  induction n as [n IH] using lt_wf_ind; intros l cs -> H.
  apply utf8_decode_inv in H as [[-> ->]|(c & l' & cs' & -> & Hh & H)]; [done|].
  apply utf8_head_encode in Hh as [Hc ->].
  destruct (IH (length l') ltac:(
    rewrite length_app; unfold utf8_encode_char; repeat case_match; simpl; lia) l' cs' eq_refl H)
    as [<- ?].
  split; [done|by constructor].
Qed.

Lemma chars_encode cs : Forall (fun c => is_scalar c = true) cs -> chars (utf8_encode cs) = cs.
Proof. intros ?. unfold chars. by rewrite utf8_decode_encode. Qed.

Lemma encode_chars t : text_ok t -> utf8_encode (chars t) = t.
Proof.
  intros [cs H]. unfold chars. rewrite H. simpl. by apply utf8_encode_decode in H as [? _].
Qed.

Lemma chars_scalar t : Forall (fun c => is_scalar c = true) (chars t).
Proof.
  unfold chars. destruct (utf8_decode t) as [cs|] eqn:H; simpl; [|constructor].
  by apply utf8_encode_decode in H as [_ ?].
Qed.

Lemma text_ok_encode cs : Forall (fun c => is_scalar c = true) cs -> text_ok (utf8_encode cs).
Proof. intros ?. exists cs. by apply utf8_decode_encode. Qed.

Lemma text_ok_nil : text_ok [].
Proof. by exists []. Qed.

Lemma utf8_encode_app a b : utf8_encode (a ++ b) = utf8_encode a ++ utf8_encode b.
Proof. unfold utf8_encode. by rewrite map_app, concat_app. Qed.

Lemma text_ok_app a b : text_ok a -> text_ok b -> text_ok (a ++ b).
Proof.
  intros Ha Hb. rewrite <- (encode_chars a Ha), <- (encode_chars b Hb), <- utf8_encode_app.
  apply text_ok_encode, Forall_app; split; apply chars_scalar.
Qed.

Lemma chars_inj a b : text_ok a -> text_ok b -> chars a = chars b -> a = b.
Proof. intros Ha Hb H. by rewrite <- (encode_chars a Ha), <- (encode_chars b Hb), H. Qed.

Lemma length_utf8_encode_char c : zlen (utf8_encode_char c) = len_utf8 c.
Proof. unfold utf8_encode_char, len_utf8. by repeat case_match. Qed.

Lemma utf8_encode_char_ok c : is_scalar c = true -> bytes_ok (utf8_encode_char c).
Proof.
  intros Hc%is_scalar_true. unfold utf8_encode_char, bytes_ok, is_byte.
  repeat case_match; zbool; repeat constructor; div_lia.
Qed.

Lemma utf8_encode_ok cs : Forall (fun c => is_scalar c = true) cs -> bytes_ok (utf8_encode cs).
Proof.
  induction 1 as [|c cs Hc _ IH]; [constructor|].
  unfold utf8_encode; simpl. apply Forall_app; split; [by apply utf8_encode_char_ok|done].
Qed.

Lemma text_ok_bytes t : text_ok t -> bytes_ok t.
Proof. intros Ht. rewrite <- (encode_chars t Ht). apply utf8_encode_ok, chars_scalar. Qed.

Lemma utf16_decode_encode_char c us :
  is_scalar c = true -> utf16_decode (utf16_encode_char c ++ us) = cons c <$> utf16_decode us.
Proof.
  intros Hc%is_scalar_true. unfold utf16_encode_char.
  destruct (Z.ltb_spec c 65536); cbn [app utf16_decode].
  - by rewrite (proj2 (in_range_false 55296 57343 c)) by lia.
  - rewrite !(proj2 (in_range_true _ _ _)) by div_lia. do 2 f_equal. div_lia.
Qed.

Lemma utf16_decode_encode cs :
  Forall (fun c => is_scalar c = true) cs -> utf16_decode (utf16_encode cs) = Some cs.
Proof.
  induction 1 as [|c cs Hc _ IH]; [done|].
  unfold utf16_encode in *; cbn [map concat]. by rewrite utf16_decode_encode_char, IH.
Qed.

Lemma utf16_units_bytes us :
  Forall (fun u => 0 <= u < 65536) us -> utf16_units (utf16_bytes us) = us.
Proof.
  induction 1 as [|u us Hu _ IH]; [done|]. cbn [utf16_bytes utf16_units].
  rewrite IH. f_equal. div_lia.
Qed.

Lemma utf16_encode_units cs :
  Forall (fun c => is_scalar c = true) cs -> Forall (fun u => 0 <= u < 65536) (utf16_encode cs).
Proof.
  induction 1 as [|c cs Hc _ IH]; [constructor|].
  unfold utf16_encode in *; cbn [map concat]. apply Forall_app; split; [|done].
  apply is_scalar_true in Hc. unfold utf16_encode_char.
  destruct (Z.ltb_spec c 65536); repeat constructor; div_lia.
Qed.

Lemma utf16_decode_scalar us cs :
  Forall (fun u => 0 <= u < 65536) us -> utf16_decode us = Some cs ->
  Forall (fun c => is_scalar c = true) cs.
Proof.
  remember (length us) as n eqn:Hn. revert us cs Hn.
  induction n as [n IH] using lt_wf_ind; intros us cs -> Hus H.
  destruct us as [|u us]; cbn [utf16_decode] in H; [by injection H as <-|].
  apply Forall_cons in Hus as [Hu Hus].
  repeat case_match; try done; subst; apply fmap_Some in H as (cs' & H & ->).
  - apply Forall_cons in Hus as [? Hus]. rewrite ?in_range_true in *. constructor.
    + apply is_scalar_true. lia.
    + eapply IH; [|reflexivity|exact Hus|exact H]. simpl. lia.
  - rewrite in_range_false in *. constructor.
    + apply is_scalar_true. lia.
    + eapply IH; [|reflexivity|exact Hus|exact H]. simpl. lia.
Qed.

Lemma utf16_units_range l : bytes_ok l -> Forall (fun u => 0 <= u < 65536) (utf16_units l).
Proof.
  remember (length l) as n eqn:Hn. revert l Hn.
  induction n as [n IH] using lt_wf_ind; intros l -> Hl.
  destruct l as [|b0 [|b1 l]]; simpl; [constructor..|].
  apply Forall_cons in Hl as [? Hl]. apply Forall_cons in Hl as [? Hl]. unfold is_byte in *.
  constructor; [lia|]. eapply IH; [|reflexivity|done]. simpl. lia.
Qed.

Lemma drop_while_suffix p l : exists k, drop_while p l = drop k l.
Proof.
  induction l as [|c l [k IH]]; simpl; [by exists 0%nat|].
  destruct (p c); [by exists (S k)|by exists 0%nat].
Qed.

Lemma drop_while_Forall (P : Z -> Prop) p l : Forall P l -> Forall P (drop_while p l).
Proof. intros ?. destruct (drop_while_suffix p l) as [k ->]. by apply Forall_drop. Qed.

Lemma drop_while_end_Forall (P : Z -> Prop) p l : Forall P l -> Forall P (drop_while_end p l).
Proof. intros ?. by apply Forall_rev, drop_while_Forall, Forall_rev. Qed.

Lemma trim_matches_ok p t : text_ok (trim_matches p t).
Proof. apply text_ok_encode, drop_while_end_Forall, drop_while_Forall, chars_scalar. Qed.

Lemma trim_end_matches_ok p t : text_ok (trim_end_matches p t).
Proof. apply text_ok_encode, drop_while_end_Forall, chars_scalar. Qed.

(** ** Slicing text *)

Lemma text_ok_head x l : text_ok (x :: l) -> is_continuation x = false.
Proof.
  intros [cs H]. apply utf8_decode_inv in H as [[? _]|(c & l' & cs' & _ & Hh & _)]; [done|].
  unfold is_continuation. apply in_range_false.
  inversion Hh as [? ? H|? ? ? H|? ? ? ? H|? ? ? ? ? H]; subst;
    unfold utf8_two, utf8_three, utf8_four, is_continuation in *; range_prop_in H; lia.
Qed.

Lemma encode_char_tail c i b :
  utf8_encode_char c !! S i = Some b -> is_scalar c = true -> is_continuation b = true.
Proof.
  intros Hb Hc%is_scalar_true. unfold utf8_encode_char, is_continuation in *.
  repeat case_match; zbool; repeat (destruct i as [|i]; simpl in Hb; try done);
    injection Hb as <-; apply in_range_true; div_lia.
Qed.

Definition text_start (l : text) : Prop :=
  match l with [] => True | x :: _ => is_continuation x = false end.

Lemma utf8_encode_split cs a b :
  Forall (fun c => is_scalar c = true) cs -> utf8_encode cs = a ++ b -> text_start b ->
  text_ok a /\ text_ok b.
Proof.
  intros Hcs; revert a; induction Hcs as [|c cs Hc Hcs IH]; intros a E Hb.
  { symmetry in E. apply app_eq_nil in E as [-> ->]. auto using text_ok_nil. }
  destruct a as [|x a].
  { simpl in E. rewrite <- E. split; [apply text_ok_nil|]. apply text_ok_encode. by constructor. }
  change (utf8_encode_char c ++ utf8_encode cs = (x :: a) ++ b) in E.
  apply app_eq_inv in E as [(k & E1 & E2)|(k & E1 & E2)].
  - destruct k as [|y k].
    + rewrite app_nil_r in E1. simpl in E2. subst b. split; [|by apply text_ok_encode].
      rewrite <- E1. replace (utf8_encode_char c) with (utf8_encode [c]) by apply app_nil_r.
      apply text_ok_encode. by repeat constructor.
    + exfalso. subst b. simpl in Hb. rewrite (encode_char_tail c (length a) y) in Hb; [done| |done].
      rewrite E1. by apply (list_lookup_middle (x :: a) k y).
  - destruct (IH k E2 Hb) as [Hk ?]. split; [|done]. rewrite E1.
    apply text_ok_app; [|done].
    replace (utf8_encode_char c) with (utf8_encode [c]) by apply app_nil_r.
    apply text_ok_encode. by repeat constructor.
Qed.

Lemma text_ok_split a b : text_ok (a ++ b) -> text_start b -> text_ok a /\ text_ok b.
Proof.
  intros Ht. apply (utf8_encode_split (chars (a ++ b))); [apply chars_scalar|by apply encode_chars].
Qed.

Lemma text_start_ok l : text_ok l -> text_start l.
Proof. destruct l; [done|]. apply text_ok_head. Qed.

Lemma text_ok_tail b l : 0 <= b < 128 -> text_ok (b :: l) -> text_ok l.
Proof.
  intros Hb [cs H]. apply utf8_decode_inv in H as [[? _]|(c & l' & cs' & _ & Hh & Hl')]; [done|].
  inversion Hh as [? ? H|? ? ? H|? ? ? ? H|? ? ? ? ? H]; subst;
    unfold utf8_two, utf8_three, utf8_four, is_continuation in *; range_prop_in H; try lia.
  by eexists.
Qed.

Lemma boundary_start t i :
  text_ok t -> is_char_boundary t i = true ->
  0 <= i <= zlen t /\ text_start (drop (Z.to_nat i) t).
Proof.
  intros Ht. unfold is_char_boundary. rewrite !orb_true_iff, !Z.eqb_eq.
  intros [[->| ->]|H].
  - split; [lia|]. by apply text_start_ok.
  - split; [lia|]. by rewrite drop_ge by lia.
  - destruct (get_at t i) as [b|] eqn:Hb; [|done]. pose proof (get_at_Some _ _ _ Hb).
    split; [lia|]. unfold get_at in Hb. rewrite (proj2 (Z.leb_le 0 i)) in Hb by lia.
    rewrite (drop_S _ _ _ Hb). by apply negb_true_iff in H.
Qed.

Lemma boundary_zero t : is_char_boundary t 0 = true.
Proof. done. Qed.

Lemma boundary_end t : is_char_boundary t (zlen t) = true.
Proof. unfold is_char_boundary. by rewrite Z.eqb_refl, orb_true_r. Qed.

Lemma boundary_ascii t i b :
  get_at t i = Some b -> b < 128 -> is_char_boundary t i = true.
Proof.
  intros Hb ?. unfold is_char_boundary. rewrite Hb. unfold is_continuation, in_range.
  rewrite (proj2 (Z.leb_gt 128 b)) by lia. by rewrite orb_true_r.
Qed.

Lemma boundary_next t i b :
  text_ok t -> get_at t i = Some b -> 0 <= b < 128 -> is_char_boundary t (i + 1) = true.
Proof.
  intros Ht Hb Hr. pose proof (get_at_Some _ _ _ Hb).
  destruct (boundary_start t i Ht) as [_ Hs]; [eapply boundary_ascii; [done|lia]|].
  destruct (text_ok_split (take (Z.to_nat i) t) (drop (Z.to_nat i) t)) as [_ Hd];
    [by rewrite take_drop|done|].
  unfold get_at in Hb. rewrite (proj2 (Z.leb_le 0 i)) in Hb by lia.
  rewrite (drop_S _ _ _ Hb) in Hd. apply text_ok_tail, text_start_ok in Hd; [|done].
  destruct (decide (i + 1 = zlen t)) as [->|]; [apply boundary_end|].
  destruct (get_at_is_Some t (i + 1)) as [b' Hb']; [lia|].
  unfold is_char_boundary. rewrite Hb'.
  unfold get_at in Hb'. rewrite (proj2 (Z.leb_le 0 (i + 1))) in Hb' by lia.
  replace (Z.to_nat (i + 1)) with (S (Z.to_nat i)) in Hb' by lia.
  rewrite (drop_S _ _ _ Hb') in Hd. simpl in Hd. by rewrite Hd, orb_true_r.
Qed.

(** A slice between two character boundaries is text. *)
Lemma wp_str_slice t a b :
  text_ok t -> is_char_boundary t a = true -> is_char_boundary t b = true -> a <= b ->
  wp (str_slice t a b) (fun s => text_ok s /\ slice t a b = Some s).
Proof.
  intros Ht Ha Hb Hab. unfold str_slice. rewrite Ha, Hb. simpl.
  destruct (boundary_start _ _ Ht Ha) as [? Hsa], (boundary_start _ _ Ht Hb) as [? Hsb].
  apply wp_or_panic; [by apply slice_is_Some; lia|]. intros s Hs. split; [|done].
  apply slice_Some in Hs as [_ ->].
  destruct (text_ok_split (take (Z.to_nat a) t) (drop (Z.to_nat a) t)) as [_ Hd];
    [by rewrite take_drop|done|].
  apply (text_ok_split _ (drop (Z.to_nat (b - a)) (drop (Z.to_nat a) t))); [by rewrite take_drop|].
  rewrite drop_drop. by replace (Z.to_nat a + Z.to_nat (b - a))%nat with (Z.to_nat b) by lia.
Qed.

Lemma count_while_bound p l : 0 <= count_while p l <= zlen l.
Proof. induction l as [|b l IH]; simpl; [lia|]. destruct (p b); lia. Qed.

Lemma count_while_stop p l :
  count_while p l = zlen l \/ exists b, l !! Z.to_nat (count_while p l) = Some b /\ p b = false.
Proof.
  induction l as [|b l IH]; [by left|]. cbn [count_while].
  destruct (p b) eqn:Hp; [|right; by exists b].
  pose proof (count_while_bound p l). destruct IH as [IH|(x & Hx & ?)]; [left; simpl; lia|right].
  exists x. split; [|done]. by replace (Z.to_nat (1 + count_while p l))
    with (S (Z.to_nat (count_while p l))) by lia.
Qed.

(** Where such a loop stops. *)
Lemma skip_while_stop p t i :
  0 <= i <= zlen t ->
  i <= skip_while p t i <= zlen t /\
  (skip_while p t i = zlen t \/
   exists b, get_at t (skip_while p t i) = Some b /\ p b = false).
Proof.
  intros Hi. unfold skip_while. pose proof (count_while_bound p (drop (Z.to_nat i) t)) as Hb.
  rewrite length_drop in Hb. split; [lia|].
  destruct (count_while_stop p (drop (Z.to_nat i) t)) as [E|(b & Hlk & Hp)].
  - left. rewrite E, length_drop. lia.
  - right. exists b. split; [|done]. unfold get_at. rewrite (proj2 (Z.leb_le 0 _)) by lia.
    rewrite lookup_drop in Hlk. rewrite <- Hlk. f_equal. lia.
Qed.

(** The loop runs exactly over a prefix whose elements satisfy [p]. *)
Lemma skip_while_app p a m b :
  Forall (fun x => p x = true) m -> (match b with [] => True | x :: _ => p x = false end) ->
  skip_while p (a ++ m ++ b) (zlen a) = zlen a + zlen m.
Proof.
  intros Hm Hb. unfold skip_while. rewrite Nat2Z.id, drop_app_length. f_equal.
  induction Hm as [|x m Hx _ IH]; simpl.
  - destruct b as [|y b]; [done|]. simpl. by rewrite Hb.
  - rewrite Hx, IH. lia.
Qed.

Lemma split_at_byte_Some b t before after :
  split_at_byte b t = Some (before, after) -> t = before ++ b :: after.
Proof.
  revert before; induction t as [|x t IH]; intros before; simpl; [done|].
  destruct (Z.eqb_spec x b) as [->|]; [by intros [= <- <-]|].
  destruct (split_at_byte b t) as [[bf af]|]; [|done]. intros [= <- <-].
  by rewrite (IH bf).
Qed.

Lemma split_at_byte_text b t before after :
  0 <= b < 128 -> text_ok t -> split_at_byte b t = Some (before, after) ->
  text_ok before /\ text_ok after.
Proof.
  intros Hb Ht ->%split_at_byte_Some. apply text_ok_split in Ht as [? Ht].
  - split; [done|]. by eapply text_ok_tail.
  - simpl. unfold is_continuation. apply in_range_false. lia.
Qed.

Lemma split_at_byte_app b before after :
  b ∉ before -> split_at_byte b (before ++ b :: after) = Some (before, after).
Proof.
  intros Hb. induction before as [|x before IH]; simpl; [by rewrite Z.eqb_refl|].
  apply not_elem_of_cons in Hb as [? Hb]. rewrite (proj2 (Z.eqb_neq x b)) by done.
  by rewrite (IH Hb).
Qed.

Lemma split_at_byte_None b t : b ∉ t -> split_at_byte b t = None.
Proof.
  intros Hb. induction t as [|x t IH]; simpl; [done|].
  apply not_elem_of_cons in Hb as [? Hb]. rewrite (proj2 (Z.eqb_neq x b)) by done.
  by rewrite (IH Hb).
Qed.

#[export] Hint Resolve text_ok_nil text_ok_app text_ok_bytes trim_matches_ok
  trim_end_matches_ok text_ok_encode chars_scalar : mdict.
