(* ===== verification/Encoding.v ===== *)
(** Text encodings: [src/format/common/encoding.rs].  [EnvOk] collects the
    documented behaviour of the external codecs that the theorems rely on, and
    [simple_env] is a concrete environment that has it. *)

From S2P Require Import Prelude Errors Types Utf8.

(** * What the external code promises *)

Class EnvOk `{Env} : Prop := {
  (** [encoding_rs] reports a buffer length that is a [usize]. *)
  env_charset_max_len c n m :
    charset_max_len c n = Some m -> 0 <= m <= usize_max;
  (** A decoder appends to a [String], which stays UTF-8. *)
  env_charset_text c input cap r read t :
    charset_decode c input cap = (r, read, t) -> text_ok t;
  (** [decompress] fills the slice it is given and cannot read past its input. *)
  env_inflate_output p n ign :
    0 <= n -> zlen (inf_output (miniz_inflate p n ign)) = n /\
              bytes_ok (inf_output (miniz_inflate p n ign));
  env_inflate_read p n ign : 0 <= inf_read (miniz_inflate p n ign) <= zlen p;
  env_lzo_output p n k out :
    0 <= n -> lzokay_decompress p n = Some (k, out) -> zlen out = n /\ bytes_ok out;
  (** [char::to_lowercase] yields characters, and on ASCII it is
      [to_ascii_lowercase]. *)
  env_lower_scalar c :
    is_scalar c = true -> Forall (fun c => is_scalar c = true) (to_lowercase c);
  env_lower_ascii c : 0 <= c < 128 -> to_lowercase c = [to_ascii_lowercase c];
}.

(** An environment whose allocator never fails, whose legacy charsets decode
    ASCII only, and which has no decompressor. *)
Definition simple_env : Env := {|
  allocator := fun _ _ => true;
  lzo_enabled := true;
  miniz_inflate := fun p n _ =>
    {| inf_done := false; inf_status := "Failed"; inf_read := 0; inf_written := 0;
       inf_output := replicate (Z.to_nat n) 0 |};
  lzokay_decompress := fun _ _ => None;
  charset_max_len := fun _ n => if (0 <=? n) && (n <=? usize_max) then Some n else None;
  charset_decode := fun _ input _ =>
    if forallb (in_range 0 127) input then (InputEmpty, zlen input, input)
    else (Malformed, 0, []);
  to_lowercase := fun c => [to_ascii_lowercase c];
|}.

(** * Encodings *)

(** [TextEncoding] *)
Inductive TextEncoding := EncUtf8 | EncUtf16Le | EncGbk | EncGb18030 | EncBig5.

#[export] Instance TextEncoding_eq_dec : EqDecision TextEncoding.
Proof. solve_decision. Defined.

Section Encoding.

Context `{Env}.

(** [TextEncoding::from_label] *)
Definition from_label (label : option text) : Result TextEncoding :=
  let label := trim (default (lit "UTF-8") label) in
  let label_is (name : string) := eq_ignore_ascii_case label (lit name) in
  if label_is "UTF-8" || label_is "UTF8" then Ok EncUtf8
  else if label_is "UTF-16" || label_is "UTF-16LE" || label_is "UTF16" then Ok EncUtf16Le
  else if label_is "GBK" || label_is "GB2312" then Ok EncGbk
  else if label_is "GB18030" then Ok EncGb18030
  else if label_is "BIG5" then Ok EncBig5
  else if label_is "ISO8859-1" || label_is "ISO-8859-1" || label_is "LATIN1"
  then Err (Unsupported "ISO8859-1 text encoding (MDict byte semantics unresolved)")
  else Err (Unsupported "text encoding").

(** [TextEncoding::for_keys] *)
Definition for_keys (kind : ContainerKind) (header : Header) : Result TextEncoding :=
  match kind with
  | Mdd => Ok EncUtf16Le
  | Mdx => from_label (encoding_label header)
  end.

(** [TextEncoding::for_records] *)
Definition for_records (kind : ContainerKind) (header : Header) : Result (option TextEncoding) :=
  match kind with
  | Mdd => Ok None
  | Mdx => let? e := from_label (encoding_label header) in Ok (Some e)
  end.

(** [TextEncoding::unit_size] *)
Definition unit_size (e : TextEncoding) : Z :=
  match e with
  | EncUtf16Le => 2
  | EncUtf8 | EncGbk | EncGb18030 | EncBig5 => 1
  end.

(** [max_encoding_rs_output] *)
Definition max_encoding_rs_output (charset : Charset) (input_len : Z) : Result Z :=
  ok_or (charset_max_len charset input_len) (InvalidFormat "decoded text length overflow").

(** [TextEncoding::max_decoded_len] *)
Definition max_decoded_len (e : TextEncoding) (input_len : Z) : Result Z :=
  match e with
  | EncUtf8 => Ok input_len
  | EncUtf16Le =>
      ok_or (n ← checked_add input_len 1; checked_mul (n / 2) 3)
        (InvalidFormat "UTF-16 decoded length overflow")
  | EncGbk => max_encoding_rs_output GBK input_len
  | EncGb18030 => max_encoding_rs_output GB18030 input_len
  | EncBig5 => max_encoding_rs_output BIG5 input_len
  end.

(** [decode_encoding_rs] *)
Definition decode_encoding_rs (charset : Charset) (input : bytes) (context name : string)
    : Result text :=
  let? max_output := max_encoding_rs_output charset (zlen input) in
  try_reserve_string 0 max_output context ;;?
  match charset_decode charset input max_output with
  | (InputEmpty, read, output) =>
      if read =? zlen input then Ok output
      else Err (InvalidFormat "text decoder did not consume bounded input")
  | (Malformed, _, _) => Err (Decode context name)
  | (OutputFull, _, _) => Err (InvalidFormat "text decoder did not consume bounded input")
  end.

(** [TextEncoding::decode] *)
Definition decode (e : TextEncoding) (input : bytes) (context : string) : Result text :=
  match e with
  | EncUtf8 =>
      let? cs := ok_or (utf8_decode input) (Decode context "utf-8") in
      try_clone_string input context
  | EncUtf16Le =>
      if negb (zlen input mod 2 =? 0) then Err (Decode context "utf-16le")
      else
        let? max_output := ok_or (checked_mul (zlen input / 2) 3)
                             (InvalidFormat "UTF-16 decoded length overflow") in
        try_reserve_string 0 max_output context ;;?
        let? cs := ok_or (utf16_decode (utf16_units input)) (Decode context "utf-16le") in
        Ok (utf8_encode cs)
  | EncGbk => decode_encoding_rs GBK input context "gbk"
  | EncGb18030 => decode_encoding_rs GB18030 input context "gb18030"
  | EncBig5 => decode_encoding_rs BIG5 input context "big5"
  end.

(** The index of the first zero unit among [chunks_exact(2)]. *)
Fixpoint find_zero_unit (l : bytes) : option Z :=
  match l with
  | b0 :: b1 :: rest =>
      if (b0 =? 0) && (b1 =? 0) then Some 0 else Z.succ <$> find_zero_unit rest
  | _ => None
  end.

(** The index of the first zero byte. *)
Fixpoint find_zero_byte (l : bytes) : option Z :=
  match l with
  | [] => None
  | b :: rest => if b =? 0 then Some 0 else Z.succ <$> find_zero_byte rest
  end.

(** [TextEncoding::split_terminated]: the bytes before the terminator and the
    offset behind it. *)
Definition split_terminated (e : TextEncoding) (input : bytes) (offset : Z) (context : string)
    : Result (bytes * Z) :=
  match e with
  | EncUtf16Le =>
      let? tail := ok_or (slice input offset (zlen input))
                     (InvalidFormat "terminated string offset overflow") in
      let? unit_index := ok_or (find_zero_unit tail)
          (InvalidData ("missing UTF-16 terminator for " +++ context)%string) in
      let? relative := ok_or (checked_mul unit_index 2)
                         (InvalidFormat "terminated string length overflow") in
      let? end_ := ok_or (checked_add offset relative)
                     (InvalidFormat "terminated string end overflow") in
      let? next := ok_or (checked_add end_ 2) (InvalidFormat "terminated string end overflow") in
      let? found := or_panic (slice input offset end_) "range out of bounds" in
      Ok (found, next)
  | EncUtf8 | EncGbk | EncGb18030 | EncBig5 =>
      let? tail := ok_or (slice input offset (zlen input))
                     (InvalidFormat "terminated string offset overflow") in
      let? rel := ok_or (find_zero_byte tail)
                    (InvalidData ("missing terminator for " +++ context)%string) in
      let? end_ := ok_or (checked_add offset rel)
                     (InvalidFormat "terminated string end overflow") in
      let? next := ok_or (checked_add end_ 1) (InvalidFormat "terminated string end overflow") in
      let? found := or_panic (slice input offset end_) "range out of bounds" in
      Ok (found, next)
  end.

(** * Lemmas *)

Lemma unit_size_cases e : unit_size e = 1 \/ unit_size e = 2.
Proof. destruct e; simpl; auto. Qed.

Lemma wp_for_keys kind header (Q : TextEncoding -> Prop) :
  (forall e, Q e) -> wp (for_keys kind header) Q.
Proof. intros HQ. unfold for_keys, from_label. destruct kind; wp_steps; apply HQ. Qed.

Lemma wp_for_records kind header (Q : option TextEncoding -> Prop) :
  (forall e, Q e) -> wp (for_records kind header) Q.
Proof. intros HQ. unfold for_records, from_label. destruct kind; wp_steps; apply HQ. Qed.

Lemma wp_max_decoded_len `{!EnvOk} e n :
  is_u64 n -> wp (max_decoded_len e n) (fun m => 0 <= m <= usize_max).
Proof.
  intros [? ?]. unfold max_decoded_len, max_encoding_rs_output. destruct e; wp_steps;
    try by eapply env_charset_max_len.
  - done.
  - match goal with Hb : (_ ≫= _) = Some _ |- _ => apply bind_Some in Hb as (m & Hm & Hb) end.
    rinv. unfold usize_max. split; [|done].
    apply Z.mul_nonneg_nonneg; [apply Z.div_pos; lia|lia].
Qed.

Lemma wp_decode `{!EnvOk} e input context :
  bytes_ok input -> wp (decode e input context) text_ok.
Proof.
  intros Hok. unfold decode, decode_encoding_rs, max_encoding_rs_output.
  destruct e; wp_steps; try by (destruct (charset_decode _ _ _) as [[[] ?] ?] eqn:E; wp_steps;
    eapply env_charset_text).
  - by eexists.
  - apply text_ok_encode. eapply utf16_decode_scalar; [|done]. by apply utf16_units_range.
Qed.

Lemma find_zero_unit_bound l k :
  find_zero_unit l = Some k -> 0 <= k /\ 2 * k + 2 <= zlen l.
Proof.
  remember (length l) as n eqn:Hn. revert l k Hn.
  induction n as [n IH] using lt_wf_ind; intros [|b0 [|b1 l]] k -> H1; simpl in *; try done.
  destruct ((b0 =? 0) && (b1 =? 0)); [injection H1 as <-; lia|].
  apply fmap_Some in H1 as (k' & H1 & ->).
  apply (IH (length l)) in H1; [lia|lia|done].
Qed.

Lemma find_zero_byte_bound l k :
  find_zero_byte l = Some k -> 0 <= k /\ k + 1 <= zlen l.
Proof.
  revert k; induction l as [|b l IH]; intros k H1; simpl in *; [done|].
  destruct (b =? 0); [injection H1 as <-; lia|].
  apply fmap_Some in H1 as (k' & H1%IH & ->). lia.
Qed.

(** A split succeeds inside the block and makes progress. *)
Lemma wp_split_terminated e input offset context :
  0 <= offset ->
  wp (split_terminated e input offset context) (fun r =>
    exists k, 0 <= k /\ slice input offset (offset + k) = Some (fst r) /\
      snd r = offset + k + unit_size e /\ snd r <= zlen input).
Proof.
  intros Hoff. unfold split_terminated.
  destruct e; wp_steps.
  all: match goal with
  | Hs : slice _ ?o (zlen _) = Some _ |- _ =>
      pose proof (slice_length _ _ _ _ Hs); apply slice_Some in Hs as [? _]
  end.
  all: match goal with
  | Hf : find_zero_byte _ = Some _ |- _ => apply find_zero_byte_bound in Hf
  | Hf : find_zero_unit _ = Some _ |- _ => apply find_zero_unit_bound in Hf
  end.
  all: repeat match goal with
  | Hc : checked_add _ _ = Some _ |- _ => apply checked_add_Some in Hc as [-> ?]
  | Hc : checked_mul _ _ = Some _ |- _ => apply checked_mul_Some in Hc as [-> ?]
  end.
  all: apply wp_or_panic;
    [unfold slice; rewrite !(proj2 (Z.leb_le _ _)) by lia; by eexists|].
  all: intros found Hfound; simpl; eexists; split_and!; [| exact Hfound | |]; lia.
Qed.

End Encoding.

Lemma simple_env_ok : @EnvOk simple_env.
Proof.
  split; simpl.
  - intros _ n m. destruct (_ && _) eqn:E; [|done]. intros [= <-]. zbool. done.
  - intros _ input _ r read t. destruct (forallb _ _) eqn:E; intros [= <- <- <-]; [|by exists []].
    exists input. induction input as [|b l IH]; simpl in *; [done|].
    apply andb_true_iff in E as [-> E]. by rewrite (IH E).
  - intros _ n _ Hn. rewrite length_replicate. split; [lia|].
    apply Forall_replicate. unfold is_byte. lia.
  - intros p n _. lia.
  - done.
  - intros c Hc%is_scalar_true. constructor; [|done]. apply is_scalar_true.
    unfold to_ascii_lowercase. destruct (_ && _) eqn:E; zbool; lia.
  - done.
Qed.
