(* ===== verification/FileUrl.v ===== *)
(** Paths and [file://] URLs: [src/format/common/file_url.rs].  A path is a
    byte sequence; [Path::to_str] succeeds when it is UTF-8. *)

From S2P Require Import Prelude Errors Types Utf8.

Definition SCHEME : text := lit "file://".

(** [hex_value] *)
Definition hex_value (byte : Z) : option Z :=
  if (48 <=? byte) && (byte <=? 57) then Some (byte - 48)
  else if (97 <=? byte) && (byte <=? 102) then Some (byte - 97 + 10)
  else if (65 <=? byte) && (byte <=? 70) then Some (byte - 65 + 10)
  else None.

(** The loop of [percent_decode], on the bytes from [index] on. *)
Fixpoint percent_decode_bytes (l : bytes) : Result bytes :=
  match l with
  | [] => Ok []
  | byte :: l1 =>
      if negb (byte =? 37)
      then let? rest := percent_decode_bytes l1 in Ok (byte :: rest)
      else
        match l1 with
        | h :: l2 =>
            match l2 with
            | l :: l3 =>
                match hex_value h, hex_value l with
                | Some high, Some low =>
                    let? rest := percent_decode_bytes l3 in
                    Ok (Z.lor (Z.shiftl high 4) low :: rest)
                | _, _ => Err (InvalidData "file URL contains a malformed percent-escape")
                end
            | [] => Err (InvalidData "file URL contains a malformed percent-escape")
            end
        | [] => Err (InvalidData "file URL contains a malformed percent-escape")
        end
  end.

(** [percent_decode] *)
Definition percent_decode (encoded : text) : Result text :=
  let? decoded := percent_decode_bytes encoded in
  let? _ := ok_or (utf8_decode decoded)
              (InvalidData "file URL does not decode to valid UTF-8") in
  Ok decoded.

(** [windows_drive_path] *)
Definition windows_drive_path (decoded : text) : text :=
  match decoded with
  | b0 :: b1 :: b2 :: _ =>
      if (b0 =? 47) && is_ascii_alphabetic b1 && (b2 =? 58) then drop 1 decoded else decoded
  | _ => decoded
  end.

(** [str::find('/')] followed by [split_at] *)
Fixpoint split_at_slash (l : text) : option (text * text) :=
  match l with
  | [] => None
  | b :: rest =>
      if b =? 47 then Some ([], l)
      else prod_map (cons b) id <$> split_at_slash rest
  end.

(** [resolve] *)
Definition resolve (path : bytes) : Result bytes :=
  match utf8_decode path with
  | None => Ok path
  | Some _ =>
      if negb (starts_with path SCHEME) then Ok path
      else
        let rest := drop (length SCHEME) path in
        let '(authority, encoded) := default (rest, lit "/") (split_at_slash rest) in
        if negb (match authority with [] => true | _ => false end
                 || eq_ignore_ascii_case authority (lit "localhost"))
        then Err (InvalidData ("file URL names the remote host " +++ msg_of_bytes authority
                               +++ ", which is not a local dictionary")%string)
        else
          let? decoded := percent_decode encoded in
          Ok (windows_drive_path decoded)
  end.

(** * Specification: what a file picker does to a path (RFC 3986) *)

(** The bytes a URL carries unescaped. *)
Definition is_unreserved (b : Z) : bool :=
  is_ascii_alphanumeric b || existsb (Z.eqb b) [45; 46; 95; 126; 47; 58].

Definition hex_char (x : Z) : Z := if x <? 10 then 48 + x else 55 + x.

Definition percent_encode (path : text) : text :=
  concat (map (fun b => if is_unreserved b then [b] else [37; hex_char (b / 16); hex_char (b mod 16)])
              path).

Definition file_url (path : text) : text := SCHEME ++ percent_encode path.

(** * Lemmas *)

Lemma hex_value_char x : 0 <= x < 16 -> hex_value (hex_char x) = Some x.
Proof.
  intros Hx. assert (forallb (fun n => bool_decide (hex_value (hex_char (Z.of_nat n))
    = Some (Z.of_nat n))) (seq 0 16) = true) as H by (vm_compute; done).
  rewrite forallb_forall in H. specialize (H (Z.to_nat x)).
  rewrite Z2Nat.id in H by lia. eapply bool_decide_eq_true, H, in_seq. lia.
Qed.

Lemma nibbles_join b : is_byte b -> Z.lor (Z.shiftl (b / 16) 4) (b mod 16) = b.
Proof.
  intros Hb. assert (forallb (fun n => Z.lor (Z.shiftl (Z.of_nat n / 16) 4) (Z.of_nat n mod 16)
    =? Z.of_nat n) (seq 0 256) = true) as H by (vm_compute; done).
  rewrite forallb_forall in H. specialize (H (Z.to_nat b)). unfold is_byte in Hb.
  rewrite Z2Nat.id in H by lia. apply Z.eqb_eq, H, in_seq. lia.
Qed.

Lemma is_unreserved_not_percent b : is_unreserved b = true -> b <> 37.
Proof. intros H ->. done. Qed.

Lemma percent_decode_encode_bytes path :
  bytes_ok path -> percent_decode_bytes (percent_encode path) = Ok path.
Proof.
  induction 1 as [|b path Hb _ IH]; [done|].
  unfold percent_encode in *. cbn [map concat].
  destruct (is_unreserved b) eqn:Hu; cbn [app percent_decode_bytes].
  - rewrite (proj2 (Z.eqb_neq b 37)) by by apply is_unreserved_not_percent.
    simpl. by rewrite IH.
  - simpl negb. cbv iota.
    assert (0 <= b / 16 < 16 /\ 0 <= b mod 16 < 16) as [? ?] by (unfold is_byte in Hb; div_lia).
    rewrite !hex_value_char, IH by done. simpl. by rewrite nibbles_join.
Qed.

(** Resolving never panics. *)
Lemma percent_decode_bytes_safe l : safe (percent_decode_bytes l).
Proof.
  remember (length l) as n eqn:En. revert l En.
  induction n as [n IH] using lt_wf_ind; intros l ->.
  assert (forall l', (length l' < length l)%nat -> safe (percent_decode_bytes l')) as Hrec
    by (intros l' ?; by eapply IH).
  destruct l as [|b l1]; [done|]. cbn [percent_decode_bytes].
  assert (forall b l', (length l' < length (b :: l1))%nat ->
    forall c, safe (let? rest := percent_decode_bytes l' in Ok (c :: rest))) as Hk.
  { intros ? l' ? c. specialize (Hrec l'). unfold safe in *. apply wp_bind.
    eapply wp_mono; [apply Hrec; simpl in *; lia|]. done. }
  apply wp_if; intros _; [apply (Hk b); simpl; lia|].
  destruct l1 as [|h [|lo l3]]; [done|done|].
  destruct (hex_value h), (hex_value lo); try done. apply (Hk b). simpl. lia.
Qed.

Lemma resolve_safe path : safe (resolve path).
Proof.
  unfold resolve. destruct (utf8_decode path); [|done]. apply wp_if; intros _; [done|].
  destruct (default _ _) as [authority encoded]. apply wp_if; intros _; [done|].
  unfold percent_decode. apply wp_bind, wp_bind.
  eapply wp_mono; [apply percent_decode_bytes_safe|]. intros decoded _. by wp_steps.
Qed.

Lemma percent_encode_ascii path :
  bytes_ok path -> Forall (fun c => 0 <= c < 128) (percent_encode path).
Proof.
  induction 1 as [|b path Hb _ IH]; [constructor|].
  unfold percent_encode in *. cbn [map concat]. apply Forall_app; split; [|done].
  destruct (is_unreserved b) eqn:Hu.
  - constructor; [|done]. unfold is_unreserved, is_ascii_alphanumeric, is_ascii_digit,
      is_ascii_alphabetic in Hu. cbn [existsb] in Hu.
    rewrite !orb_true_iff, !andb_true_iff, !Z.leb_le, !Z.eqb_eq in Hu. lia.
  - unfold is_byte in Hb. repeat constructor; try lia;
      unfold hex_char; case_match; zbool; div_lia.
Qed.

Lemma utf8_decode_ascii l : Forall (fun c => 0 <= c < 128) l -> utf8_decode l = Some l.
Proof.
  induction 1 as [|c l Hc _ IH]; [done|]. cbn [utf8_decode].
  rewrite (proj2 (in_range_true 0 127 c)) by lia. by rewrite IH.
Qed.

Lemma percent_encode_slash path :
  percent_encode (47 :: path) = 47 :: percent_encode path.
Proof. done. Qed.

Lemma lit_ascii_scheme : Forall (fun c => 0 <= c < 128) SCHEME.
Proof. repeat constructor; vm_compute; done. Qed.

(** * Properties *)

(** The URL a file picker writes for an absolute UTF-8 path (every byte
    outside the unreserved set percent-escaped) resolves to that path, less the
    URL's own slash before a Windows drive letter. *)
Theorem resolve_file_url path :
  text_ok (47 :: path) ->
  resolve (file_url (47 :: path)) = Ok (windows_drive_path (47 :: path)).
Proof.
  intros Ht. pose proof (text_ok_bytes _ Ht) as Hok.
  unfold resolve, file_url.
  rewrite utf8_decode_ascii
    by (apply Forall_app; split; [apply lit_ascii_scheme|by apply percent_encode_ascii]).
  rewrite (proj2 (starts_with_spec _ _)) by eauto. simpl negb. cbv iota.
  rewrite drop_app_length, percent_encode_slash. cbn [split_at_slash].
  simpl default. cbv beta iota zeta. simpl negb. cbv iota.
  rewrite <- percent_encode_slash. unfold percent_decode.
  rewrite percent_decode_encode_bytes by done. cbn [rbind].
  destruct Ht as [cs Hcs]. by rewrite Hcs.
Qed.

Example resolve_file_url_witness :
  text_ok (47 :: lit "tmp/WordNet 3.1.mdx") /\
  resolve (lit "file:///tmp/WordNet%203.1.mdx") = Ok (lit "/tmp/WordNet 3.1.mdx").
Proof.
  assert (text_ok (47 :: lit "tmp/WordNet 3.1.mdx")) as H
    by (vm_compute; eexists; reflexivity).
  split; [exact H|]. exact (resolve_file_url (lit "tmp/WordNet 3.1.mdx") H).
Defined.

Example resolve_drive : resolve (lit "file:///C:/Users/oald.mdx") = Ok (lit "C:/Users/oald.mdx").
Proof. vm_compute. reflexivity. Qed.

Example resolve_root : resolve (lit "file://") = Ok (lit "/").
Proof. vm_compute. reflexivity. Qed.

Example resolve_untouched :
  resolve (lit "/tmp/file://not-a-url/oald.mdx") = Ok (lit "/tmp/file://not-a-url/oald.mdx").
Proof. vm_compute. reflexivity. Qed.
