(* ===== verification/Source.v ===== *)
(** Positional reads: [src/format/common/source.rs].  The file behind a handle
    may change while the dictionary is open, so its contents are a function of
    the number of accesses made before: an access sees [Some] state, or fails
    with an I/O error. *)

From S2P Require Import Prelude Errors Types Budget Utf8 FileUrl.

(** What a file holds at one moment. *)
Record FileState := {
  fc_content : bytes;
  fc_modified : Z;
}.

(** [FileSource]: the length seen by [open] and the file itself. *)
Record FileSource := {
  fs_len : Z;
  fs_file : nat -> option FileState;
}.

(** [FileIdentity] *)
Record FileIdentity := {
  fi_len : Z;
  fi_modified_unix_nanos : Z;
}.

#[export] Instance FileIdentity_eq_dec : EqDecision FileIdentity.
Proof. solve_decision. Defined.

Section Source.

Context `{Env} {S : Type} `{HasWorld S}.

(** One access of the file: [seek] and [read_exact], or [metadata]. *)
Definition access (file : nat -> option FileState) : M S FileState := fun s =>
  let w := get_world s in
  let s := set_world {| w_budget := w_budget w; w_clock := Datatypes.S (w_clock w) |} s in
  match file (w_clock w) with
  | Some f => (Ok f, s)
  | None => (Err (Io "input/output error"), s)
  end.

(** [FileSource::open] on a file system. *)
Definition source_open (fs : bytes -> nat -> option FileState) (path : bytes) : M S FileSource :=
  let! path := lift (resolve path) in
  let! file := access (fs path) in
  let len := zlen (fc_content file) in
  if len =? 0 then merr (InvalidFormat "empty input file")
  else mret {| fs_len := len; fs_file := fs path |}.

(** [FileSource::ensure_range] *)
Definition ensure_range (source : FileSource) (offset len : Z) (context : string) : Result unit :=
  let? end_ := ok_or (checked_add offset len) (InvalidFormat "source range overflow") in
  if fs_len source <? end_ then
    let needed := default usize_max (try_usize len) in
    let remaining := default usize_max (try_usize (saturating_sub (fs_len source) offset)) in
    Err (truncated context needed remaining)
  else Ok tt.

(** [FileSource::read_exact_at] *)
Definition read_exact_at (source : FileSource) (offset len : Z) (context : string) : M S bytes :=
  let! len_u64 := lift (checked_u64 len context) in
  let! _ := lift (ensure_range source offset len_u64 context) in
  let! _ := lift (try_reserve_vec 0 1 len context) in
  let! file := access (fs_file source) in
  lift (ok_or (slice (fc_content file) offset (offset + len))
          (Io "failed to fill whole buffer")).

(** [FileSource::current_identity] *)
Definition current_identity (source : FileSource) : M S FileIdentity :=
  let! file := access (fs_file source) in
  mret {| fi_len := zlen (fc_content file); fi_modified_unix_nanos := fc_modified file |}.

(** Every state the file goes through is a byte sequence of realistic length. *)
Definition source_ok (source : FileSource) : Prop :=
  is_u64 (fs_len source) /\
  forall t f, fs_file source t = Some f -> bytes_ok (fc_content f).

(** The file never changes and can always be read. *)
Definition stable (source : FileSource) (content : bytes) (modified : Z) : Prop :=
  fs_len source = zlen content /\
  forall t, fs_file source t = Some {| fc_content := content; fc_modified := modified |}.

(** A file that never changes. *)
Definition constant_source (content : bytes) (modified : Z) : FileSource :=
  {| fs_len := zlen content;
     fs_file := fun _ => Some {| fc_content := content; fc_modified := modified |} |}.

(** * Lemmas *)

Lemma wp_ensure_range source offset len context (Q : unit -> Prop) :
  (offset + len <= fs_len source -> Q tt) -> wp (ensure_range source offset len context) Q.
Proof.
  intros HQ. unfold ensure_range. wp_steps. rinv. zbool. by apply HQ.
Qed.

Lemma ensure_range_Ok source offset len context u :
  ensure_range source offset len context = Ok u -> offset + len <= fs_len source.
Proof. unfold ensure_range. intros H1. rinv. by zbool. Qed.

Lemma budgeted_access file (P : FileState -> Prop) :
  (forall t f, file t = Some f -> P f) -> budgeted (access file) P (fun _ => 0).
Proof.
  intros HP s Hs. unfold wpM, access.
  assert (accounts s (set_world {| w_budget := w_budget (get_world s);
                                   w_clock := Datatypes.S (w_clock (get_world s)) |} s) 0).
  { unfold accounts, get_budget in *. rewrite !get_set_world. simpl. by split_and!; try lia. }
  destruct (file _) as [f|] eqn:Hf; [|done]. split; [by eapply HP|done].
Qed.

(** A read returns exactly the requested number of bytes of the file; of a file
    that does not change, these bytes are known. *)
Lemma budgeted_read_content source offset len context :
  source_ok source -> 0 <= offset -> 0 <= len ->
  budgeted (read_exact_at source offset len context)
    (fun out => (zlen out = len /\ bytes_ok out /\ offset + len <= fs_len source) /\
       forall content modified, stable source content modified ->
         slice content offset (offset + len) = Some out) (fun _ => 0).
Proof.
  intros [_ Hok] Hoff Hlen. unfold read_exact_at.
  apply (budgeted_bind _ _ (fun n => n = len)).
  { by apply budgeted_lift, wp_checked_u64. }
  intros ? ->. apply (budgeted_bind _ _ (fun _ => offset + len <= fs_len source)).
  { by apply budgeted_lift, wp_ensure_range. }
  intros _ Hr. apply (budgeted_bind _ _ (fun _ => True)).
  { by apply budgeted_lift, wp_try_reserve_vec. }
  intros _ _.
  eapply budgeted_bind; [apply (budgeted_access _ (fun f => bytes_ok (fc_content f) /\
    forall content modified, stable source content modified -> fc_content f = content))|].
  { intros t f Hf. split; [by eapply Hok|]. intros content modified [_ Hst].
    rewrite Hst in Hf. by injection Hf as <-. }
  intros f [Hf Hst]. apply budgeted_lift, wp_ok_or. intros out Hout.
  split; [split_and!; [|by eapply slice_Forall|done]|].
  - apply slice_length in Hout. lia.
  - intros content modified Hs. by rewrite <- (Hst _ _ Hs).
Qed.

Lemma budgeted_read_exact_at source offset len context :
  source_ok source -> 0 <= offset -> 0 <= len ->
  budgeted (read_exact_at source offset len context)
    (fun out => zlen out = len /\ bytes_ok out /\ offset + len <= fs_len source) (fun _ => 0).
Proof.
  intros. eapply budgeted_mono; [by apply budgeted_read_content| |done]. by intros a [? _].
Qed.

(** Every file of the file system is a byte sequence of realistic length. *)
Definition file_system_ok (fs : bytes -> nat -> option FileState) : Prop :=
  forall path t file, fs path t = Some file ->
    bytes_ok (fc_content file) /\ zlen (fc_content file) <= u64_max.

Lemma budgeted_source_open fs path :
  file_system_ok fs -> budgeted (source_open fs path) source_ok (fun _ => 0).
Proof.
  intros Hfs. unfold source_open.
  eapply (budgeted_bind _ _ (fun _ => True)); [apply budgeted_lift, resolve_safe|]. intros resolved _.
  eapply (budgeted_bind _ _ (fun file => zlen (fc_content file) <= u64_max)).
  { apply budgeted_access. intros t file Ht. by destruct (Hfs _ _ _ Ht). }
  intros file ?. cbv beta zeta. apply budgeted_if; intros _.
  - intros s Hs. apply wpM_err. by apply accounts_refl.
  - apply budgeted_ret. split; [unfold is_u64; simpl; lia|].
    intros t file' Ht. by destruct (Hfs _ _ _ Ht).
Qed.

End Source.

Lemma stable_ok source content modified :
  stable source content modified -> bytes_ok content -> zlen content <= u64_max ->
  source_ok source.
Proof.
  intros [Hl Hf] Hok ?. split; [unfold is_u64; lia|].
  intros t f Ht. rewrite Hf in Ht. by injection Ht as <-.
Qed.

Lemma constant_source_ok content modified :
  bytes_ok content -> zlen content <= u64_max -> source_ok (constant_source content modified).
Proof. intros ? ?. by apply (stable_ok _ content modified). Qed.
