(* ===== verification/Normalize.v ===== *)
(** Key normalization: [src/core/normalize.rs].  The three loops of the file
    are written out as they are; [key_form] is the specification they share. *)

From S2P Require Import Prelude Errors Types Utf8 Encoding.

(** [StripKeyProfile] *)
Inductive StripKeyProfile := AsciiAlphanumeric.

(** [KeyNormalizer] *)
Record KeyNormalizer := {
  case_sensitive : bool;
  strip_profile : option StripKeyProfile;
  resource_path : bool;
}.

(** [KeyNormalizer::from_header] *)
Definition from_header (header : Header) (kind : ContainerKind) : KeyNormalizer := {|
  case_sensitive := key_case_sensitive header;
  strip_profile := if strip_key header then Some AsciiAlphanumeric else None;
  resource_path := match kind with Mdd => true | Mdx => false end;
|}.

(** [KeyNormalizer::retains] *)
Definition retains (n : KeyNormalizer) (character : Z) : bool :=
  negb (match strip_profile n with Some AsciiAlphanumeric => true | None => false end)
  || negb (character <? 128) || is_ascii_alphanumeric character.

(** A path separator, ['/'] or ['\']. *)
Definition is_separator (c : Z) : bool := (c =? 47) || (c =? 92).

(** The head of the loop body the three loops share: the [at_path_start] of the
    next round and, unless the round ends with [continue], the character. *)
Definition visit_char (n : KeyNormalizer) (at_path_start : bool) (character : Z)
    : bool * option Z :=
  if resource_path n && at_path_start && is_separator character then (at_path_start, None)
  else if negb (retains n character) then (false, None)
  else (false, Some (if resource_path n && (character =? 47) then 92 else character)).

Section Normalize.

Context `{Env}.

(** The loop of [KeyNormalizer::normalize_into]; [push] and [extend] append
    characters to the [String]. *)
Fixpoint normalize_loop (n : KeyNormalizer) (at_path_start : bool) (characters : list Z)
    (out : text) : text :=
  match characters with
  | [] => out
  | character :: characters =>
      let (at_path_start, visited) := visit_char n at_path_start character in
      match visited with
      | None => normalize_loop n at_path_start characters out
      | Some character =>
          let out :=
            if case_sensitive n || (character <? 128)
            then out ++ utf8_encode_char
                   (if case_sensitive n then character else to_ascii_lowercase character)
            else out ++ utf8_encode (to_lowercase character) in
          normalize_loop n at_path_start characters out
      end
  end.

(** [KeyNormalizer::normalize_into] *)
Definition normalize_into (n : KeyNormalizer) (raw out : text) : text :=
  normalize_loop n true (chars raw) out.

(** The loop of [KeyNormalizer::normalize_bytes_into]; every character is
    encoded into a small buffer that is appended to the byte arena. *)
Fixpoint normalize_bytes_loop (n : KeyNormalizer) (at_path_start : bool) (characters : list Z)
    (out : bytes) : bytes :=
  match characters with
  | [] => out
  | character :: characters =>
      let (at_path_start, visited) := visit_char n at_path_start character in
      match visited with
      | None => normalize_bytes_loop n at_path_start characters out
      | Some character =>
          let out :=
            if case_sensitive n || (character <? 128)
            then out ++ utf8_encode_char
                   (if case_sensitive n then character else to_ascii_lowercase character)
            else fold_left (fun out c => out ++ utf8_encode_char c) (to_lowercase character) out in
          normalize_bytes_loop n at_path_start characters out
      end
  end.

(** [KeyNormalizer::normalize_bytes_into] *)
Definition normalize_bytes_into (n : KeyNormalizer) (raw : text) (out : bytes) : bytes :=
  normalize_bytes_loop n true (chars raw) out.

(** The checked sum of the inner loop of [normalized_len]. *)
Fixpoint add_len_utf8 (length : Z) (characters : list Z) : Result Z :=
  match characters with
  | [] => Ok length
  | c :: characters =>
      let? length := ok_or (checked_add length (len_utf8 c))
                       (InvalidFormat "normalized key length overflow") in
      add_len_utf8 length characters
  end.

(** The loop of [KeyNormalizer::normalized_len]. *)
Fixpoint normalized_len_loop (n : KeyNormalizer) (at_path_start : bool) (characters : list Z)
    (length : Z) : Result Z :=
  match characters with
  | [] => Ok length
  | character :: characters =>
      let (at_path_start, visited) := visit_char n at_path_start character in
      match visited with
      | None => normalized_len_loop n at_path_start characters length
      | Some character =>
          let? length :=
            if case_sensitive n || (character <? 128)
            then ok_or (checked_add length (len_utf8 character))
                   (InvalidFormat "normalized key length overflow")
            else add_len_utf8 length (to_lowercase character) in
          normalized_len_loop n at_path_start characters length
      end
  end.

(** [KeyNormalizer::normalized_len] *)
Definition normalized_len (n : KeyNormalizer) (raw : text) : Result Z :=
  normalized_len_loop n true (chars raw) 0.

(** [KeyNormalizer::normalize] *)
Definition normalize (n : KeyNormalizer) (raw : text) : Result text :=
  let? capacity := normalized_len n raw in
  try_reserve_string 0 capacity "normalized key" ;;?
  Ok (normalize_into n raw []).

(** * Specification *)

(** The characters one retained character contributes. *)
Definition fold_char (n : KeyNormalizer) (c : Z) : list Z :=
  let c := if resource_path n && (c =? 47) then 92 else c in
  if case_sensitive n then [c]
  else if c <? 128 then [to_ascii_lowercase c] else to_lowercase c.

(** The normalized form of a key: leading separators of a resource path are
    dropped, stripped characters removed, the others folded. *)
Definition key_form (n : KeyNormalizer) (characters : list Z) : list Z :=
  let characters := if resource_path n then drop_while is_separator characters else characters in
  flat_map (fold_char n) (List.filter (retains n) characters).

Definition normalized (n : KeyNormalizer) (raw : text) : text := utf8_encode (key_form n (chars raw)).

(** What Unicode's tables say about lower case beyond [EnvOk]: a lower-case
    character is its own lower case, the mapping is never empty, and the ASCII
    characters that non-ASCII ones map to are letters. *)
Definition lower_stable : Prop :=
  forall c, is_scalar c = true -> 128 <= c ->
    to_lowercase c <> [] /\
    Forall (fun d => to_lowercase d = [d] /\ (d < 128 -> is_ascii_alphabetic d = true))
      (to_lowercase c).

End Normalize.

(** * Lemmas *)

Lemma visit_char_started n c :
  visit_char n false c =
  (false, if retains n c then Some (if resource_path n && (c =? 47) then 92 else c) else None).
Proof. unfold visit_char. rewrite andb_false_r. simpl. by destruct (retains n c). Qed.

Section NormalizeProofs.

Context `{EnvOk}.

Lemma separator_scalar n c :
  is_scalar c = true -> is_scalar (if resource_path n && (c =? 47) then 92 else c) = true.
Proof. by destruct (_ && _). Qed.

Lemma ascii_lowercase_range c : 0 <= c < 128 -> 0 <= to_ascii_lowercase c < 128.
Proof. unfold to_ascii_lowercase. destruct (_ && _) eqn:E; [|done]. zbool. lia. Qed.

Lemma fold_char_scalar n c :
  is_scalar c = true -> Forall (fun c => is_scalar c = true) (fold_char n c).
Proof.
  intros Hc%(separator_scalar n). unfold fold_char.
  set (c' := if resource_path n && (c =? 47) then 92 else c) in *.
  apply is_scalar_true in Hc. destruct (case_sensitive n); [|destruct (Z.ltb_spec c' 128)].
  - constructor; [by apply is_scalar_true|done].
  - constructor; [|done]. apply is_scalar_true. pose proof (ascii_lowercase_range c'). lia.
  - by apply env_lower_scalar, is_scalar_true.
Qed.

Lemma key_form_scalar n cs :
  Forall (fun c => is_scalar c = true) cs -> Forall (fun c => is_scalar c = true) (key_form n cs).
Proof.
  intros Hcs. unfold key_form.
  assert (Forall (fun c => is_scalar c = true)
            (if resource_path n then drop_while is_separator cs else cs)) as Hd
    by (destruct (resource_path n); [by apply drop_while_Forall|done]).
  induction Hd as [|c l Hc _ IH]; [done|]. cbn [List.filter].
  destruct (retains n c); [|done]. cbn [flat_map].
  apply Forall_app. split; [by apply fold_char_scalar|done].
Qed.

Lemma normalized_text n raw : text_ok (normalized n raw).
Proof. apply text_ok_encode, key_form_scalar, chars_scalar. Qed.

(** The two ways the loops append a retained character. *)
Lemma push_folded n c out :
  let c' := if resource_path n && (c =? 47) then 92 else c in
  (if case_sensitive n || (c' <? 128)
   then out ++ utf8_encode_char (if case_sensitive n then c' else to_ascii_lowercase c')
   else out ++ utf8_encode (to_lowercase c')) = out ++ utf8_encode (fold_char n c).
Proof.
  intros c'. unfold fold_char. fold c'. unfold utf8_encode.
  destruct (case_sensitive n); simpl; [by rewrite app_nil_r|].
  destruct (c' <? 128); simpl; [by rewrite app_nil_r|done].
Qed.

Lemma utf8_encode_cons c cs : utf8_encode (c :: cs) = utf8_encode_char c ++ utf8_encode cs.
Proof. done. Qed.

Lemma fold_left_push cs out :
  fold_left (fun out c => out ++ utf8_encode_char c) cs out = out ++ utf8_encode cs.
Proof.
  revert out; induction cs as [|c cs IH]; intros out; simpl; [by rewrite app_nil_r|].
  by rewrite IH, utf8_encode_cons, app_assoc.
Qed.

Lemma normalize_loop_started n cs out :
  normalize_loop n false cs out =
  out ++ utf8_encode (flat_map (fold_char n) (List.filter (retains n) cs)).
Proof.
  revert out; induction cs as [|c cs IH]; intros out; cbn [normalize_loop List.filter];
    [by rewrite app_nil_r|].
  rewrite visit_char_started. destruct (retains n c); [|apply IH].
  rewrite (push_folded n c out), IH. cbn [flat_map].
  by rewrite utf8_encode_app, app_assoc.
Qed.

Lemma normalize_loop_spec n cs out :
  normalize_loop n true cs out = out ++ utf8_encode (key_form n cs).
Proof.
  unfold key_form. induction cs as [|c cs IH]; [by destruct (resource_path n); simpl; rewrite app_nil_r|].
  destruct (resource_path n && is_separator c) eqn:Hs.
  - apply andb_true_iff in Hs as [Hr Hs]. cbn [normalize_loop]. unfold visit_char.
    rewrite Hr, Hs in *. simpl. by rewrite Hs.
  - transitivity (normalize_loop n false (c :: cs) out).
    { cbn [normalize_loop]. unfold visit_char at 1. rewrite andb_true_r, Hs.
      rewrite visit_char_started. by destruct (retains n c). }
    rewrite normalize_loop_started. destruct (resource_path n); [|done]. simpl in Hs.
    cbn [drop_while]. by rewrite Hs.
Qed.

Lemma normalize_into_spec n raw out : normalize_into n raw out = out ++ normalized n raw.
Proof. apply normalize_loop_spec. Qed.

Lemma normalize_bytes_loop_eq n b cs out : normalize_bytes_loop n b cs out = normalize_loop n b cs out.
Proof.
  revert b out; induction cs as [|c cs IH]; intros b out; [done|].
  cbn [normalize_loop normalize_bytes_loop].
  destruct (visit_char n b c) as [b' [c'|]]; [|apply IH]. by rewrite fold_left_push, IH.
Qed.

Lemma normalize_bytes_into_spec n raw out : normalize_bytes_into n raw out = out ++ normalized n raw.
Proof. unfold normalize_bytes_into. by rewrite normalize_bytes_loop_eq, normalize_loop_spec. Qed.

Lemma len_utf8_pos c : 0 <= len_utf8 c.
Proof. unfold len_utf8. repeat destruct (_ <? _); lia. Qed.

Lemma zlen_utf8_cons c cs : zlen (utf8_encode (c :: cs)) = len_utf8 c + zlen (utf8_encode cs).
Proof. rewrite utf8_encode_cons, length_app, <- length_utf8_encode_char. lia. Qed.

Lemma zlen_utf8_app cs ds :
  zlen (utf8_encode (cs ++ ds)) = zlen (utf8_encode cs) + zlen (utf8_encode ds).
Proof. rewrite utf8_encode_app, length_app. lia. Qed.

(** A length that fits, or the overflow error. *)
Definition checked_len (total : Z) : Result Z :=
  if total <=? usize_max then Ok total else Err (InvalidFormat "normalized key length overflow").

Lemma checked_len_step length d k rest :
  0 <= length -> 0 <= d -> 0 <= rest ->
  (forall length, 0 <= length -> length <= usize_max -> k length = checked_len (length + rest)) ->
  rbind (ok_or (checked_add length d) (InvalidFormat "normalized key length overflow")) k =
  checked_len (length + (d + rest)).
Proof.
  intros ? ? ? Hk. unfold checked_add. change usize_max with u64_max in *.
  destruct (Z.leb_spec (length + d) u64_max); simpl.
  - rewrite Hk by lia. f_equal. lia.
  - unfold checked_len. change usize_max with u64_max.
    by rewrite (proj2 (Z.leb_gt _ _)) by lia.
Qed.

Lemma add_len_utf8_spec cs length :
  0 <= length <= usize_max -> add_len_utf8 length cs = checked_len (length + zlen (utf8_encode cs)).
Proof.
  revert length; induction cs as [|c cs IH]; intros length Hl; cbn [add_len_utf8].
  - unfold checked_len. simpl. rewrite Z.add_0_r. by rewrite (proj2 (Z.leb_le _ _)) by lia.
  - rewrite zlen_utf8_cons. apply checked_len_step; [lia|apply len_utf8_pos|lia|].
    intros ? ? ?. apply IH. lia.
Qed.

Lemma checked_len_bind length d k rest :
  0 <= d -> 0 <= rest ->
  (forall length', length' = length + d -> length' <= usize_max -> k length' = checked_len (length' + rest)) ->
  rbind (checked_len (length + d)) k = checked_len (length + (d + rest)).
Proof.
  intros ? ? Hk. unfold checked_len at 1. destruct (Z.leb_spec (length + d) usize_max); simpl.
  - rewrite Hk by done. f_equal. lia.
  - unfold checked_len. by rewrite (proj2 (Z.leb_gt _ _)) by lia.
Qed.

Lemma len_utf8_ascii c : 0 <= c < 128 -> len_utf8 c = 1.
Proof. intros ?. unfold len_utf8. by rewrite (proj2 (Z.ltb_lt c 128)) by lia. Qed.

(** What the length loop adds for a retained character. *)
Lemma visited_len n c length :
  is_scalar c = true -> 0 <= length <= usize_max ->
  let c' := if resource_path n && (c =? 47) then 92 else c in
  (if case_sensitive n || (c' <? 128)
   then ok_or (checked_add length (len_utf8 c')) (InvalidFormat "normalized key length overflow")
   else add_len_utf8 length (to_lowercase c')) =
  checked_len (length + zlen (utf8_encode (fold_char n c))).
Proof.
  intros Hc%(separator_scalar n) Hl c'. unfold fold_char. fold c' in Hc |- *.
  apply is_scalar_true in Hc.
  assert (forall d, len_utf8 d = len_utf8 c' ->
    ok_or (checked_add length (len_utf8 c')) (InvalidFormat "normalized key length overflow") =
    checked_len (length + zlen (utf8_encode [d]))) as Hone.
  { intros d Hd. rewrite zlen_utf8_cons, Hd. simpl. rewrite Z.add_0_r. unfold checked_add, checked_len.
    change usize_max with u64_max. by destruct (_ <=? _). }
  destruct (case_sensitive n); [by apply Hone|]. simpl.
  destruct (Z.ltb_spec c' 128); [|by apply add_len_utf8_spec].
  apply Hone. rewrite !len_utf8_ascii; [done|lia|]. apply ascii_lowercase_range. lia.
Qed.

Lemma normalized_len_loop_started n cs length :
  Forall (fun c => is_scalar c = true) cs -> 0 <= length <= usize_max ->
  normalized_len_loop n false cs length =
  checked_len (length + zlen (utf8_encode (flat_map (fold_char n) (List.filter (retains n) cs)))).
Proof.
  intros Hcs; revert length; induction Hcs as [|c cs Hc _ IH]; intros length Hl;
    cbn [normalized_len_loop List.filter].
  - unfold checked_len. simpl. rewrite Z.add_0_r. by rewrite (proj2 (Z.leb_le _ _)) by lia.
  - rewrite visit_char_started. destruct (retains n c); [|by apply IH].
    rewrite (visited_len n c length Hc Hl). cbn [flat_map]. rewrite zlen_utf8_app.
    apply checked_len_bind; [lia|lia|]. intros length' ? ?. apply IH. lia.
Qed.

Lemma normalized_len_spec n raw : normalized_len n raw = checked_len (zlen (normalized n raw)).
Proof.
  unfold normalized_len, normalized, key_form. pose proof (chars_scalar raw) as Hcs.
  induction Hcs as [|c cs Hc Hcs IH]; [by destruct (resource_path n)|].
  destruct (resource_path n && is_separator c) eqn:Hs.
  - apply andb_true_iff in Hs as [Hr Hs]. cbn [normalized_len_loop]. unfold visit_char.
    rewrite Hr, Hs in *. simpl. by rewrite Hs.
  - transitivity (normalized_len_loop n false (c :: cs) 0).
    { cbn [normalized_len_loop]. unfold visit_char at 1. rewrite andb_true_r, Hs.
      rewrite visit_char_started. by destruct (retains n c). }
    rewrite normalized_len_loop_started; [|by constructor|done].
    rewrite Z.add_0_l. destruct (resource_path n); [|done]. simpl in Hs.
    cbn [drop_while]. by rewrite Hs.
Qed.

Lemma wp_normalized_len n raw :
  wp (normalized_len n raw) (fun len => len = zlen (normalized n raw) /\ 0 <= len <= usize_max).
Proof. rewrite normalized_len_spec. unfold checked_len. wp_steps. zbool. lia. Qed.

Lemma wp_normalize n raw : wp (normalize n raw) (fun t => t = normalized n raw).
Proof.
  unfold normalize. apply wp_bind. eapply wp_mono; [apply wp_normalized_len|]. intros len [_ ?].
  apply wp_bind, wp_try_reserve_string. by rewrite normalize_into_spec.
Qed.

Lemma normalize_Ok n raw t : normalize n raw = Ok t -> t = normalized n raw.
Proof. intros E. pose proof (wp_normalize n raw) as Hw. by rewrite E in Hw. Qed.

(** * Idempotence *)

Lemma retains_ascii n c :
  retains n c = true <-> strip_profile n = None \/ 128 <= c \/ is_ascii_alphanumeric c = true.
Proof.
  unfold retains. rewrite !orb_true_iff, !negb_true_iff, Z.ltb_ge.
  destruct (strip_profile n) as [[]|]; naive_solver.
Qed.

Lemma lowercase_alphanumeric c : is_ascii_alphanumeric c = true -> is_ascii_alphanumeric (to_ascii_lowercase c) = true.
Proof.
  unfold to_ascii_lowercase. destruct ((65 <=? c) && (c <=? 90)) eqn:E; [|done].
  unfold is_ascii_alphanumeric, is_ascii_digit, is_ascii_alphabetic. intros _.
  apply andb_true_iff in E as [?%Z.leb_le ?%Z.leb_le].
  apply orb_true_iff. right. rewrite !orb_true_iff, !andb_true_iff, !Z.leb_le. lia.
Qed.

Lemma ascii_lowercase_twice c : to_ascii_lowercase (to_ascii_lowercase c) = to_ascii_lowercase c.
Proof.
  unfold to_ascii_lowercase at 2 3. destruct ((65 <=? c) && (c <=? 90)) eqn:E.
  - zbool. unfold to_ascii_lowercase. rewrite (proj2 (Z.leb_gt (c + 32) 90)) by lia.
    by rewrite andb_false_r.
  - unfold to_ascii_lowercase. by rewrite E.
Qed.

Lemma ascii_lowercase_separator c :
  0 <= c < 128 -> is_separator (to_ascii_lowercase c) = is_separator c.
Proof.
  intros ?. unfold to_ascii_lowercase, is_separator. destruct (_ && _) eqn:E; [|done]. zbool.
  rewrite !(proj2 (Z.eqb_neq _ _)) by lia. done.
Qed.

Lemma alphabetic_not_separator d : is_ascii_alphabetic d = true -> is_separator d = false.
Proof.
  unfold is_ascii_alphabetic, is_separator. rewrite !orb_true_iff, !andb_true_iff, !Z.leb_le.
  intros ?. apply orb_false_iff. rewrite !Z.eqb_neq. lia.
Qed.

(** A character of a normalized key, made from [c]. *)
Definition stable_char (n : KeyNormalizer) (c d : Z) : Prop :=
  retains n d = true /\ fold_char n d = [d] /\
  (resource_path n = true -> is_separator d = true -> is_separator c = true).

Lemma fold_char_kept n d :
  (resource_path n = true -> d <> 47) ->
  (case_sensitive n = false -> 0 <= d < 128 -> to_ascii_lowercase d = d) ->
  (case_sensitive n = false -> 128 <= d -> to_lowercase d = [d]) ->
  is_scalar d = true -> fold_char n d = [d].
Proof.
  intros Hr Hl Hu Hd%is_scalar_true. unfold fold_char.
  replace (resource_path n && (d =? 47)) with false.
  - destruct (case_sensitive n); [done|]. destruct (Z.ltb_spec d 128).
    + by rewrite Hl by lia.
    + by apply Hu.
  - symmetry. apply andb_false_iff. destruct (resource_path n); [|by left].
    right. apply Z.eqb_neq. by apply Hr.
Qed.

Lemma fold_char_stable n c :
  lower_stable -> is_scalar c = true -> retains n c = true ->
  fold_char n c <> [] /\ Forall (stable_char n c) (fold_char n c).
Proof.
  intros Hlow Hc Hr. pose proof (separator_scalar n c Hc) as Hc'. pose proof (fold_char_scalar n c Hc) as Hf.
  unfold fold_char in *. set (c' := if resource_path n && (c =? 47) then 92 else c) in *.
  assert (retains n c' = true /\ (resource_path n = true -> c' <> 47) /\
          (is_separator c' = true -> is_separator c = true)) as (Hr' & Hne & Hsep).
  { unfold c'. destruct (resource_path n) eqn:Er; simpl; [|done].
    destruct (Z.eqb_spec c 47) as [->|]; [|done]. split_and!; [|done|done].
    apply retains_ascii in Hr as [Hr|[Hr|Hr]]; [|done|done]. apply retains_ascii. by left. }
  clearbody c'. pose proof (proj1 (is_scalar_true c') Hc') as Hrange.
  destruct (case_sensitive n) eqn:Ecs; [|destruct (Z.ltb_spec c' 128)].
  - split; [done|]. constructor; [|done]. split_and!; [done| |by intros _].
    by apply fold_char_kept; rewrite ?Ecs.
  - split; [done|]. constructor; [|done]. apply Forall_cons in Hf as [Hf _].
    pose proof (ascii_lowercase_range c' ltac:(lia)).
    assert (is_separator (to_ascii_lowercase c') = is_separator c') as Es
      by (apply ascii_lowercase_separator; lia).
    split_and!.
    + apply retains_ascii in Hr' as [|[|]]; apply retains_ascii; [by left|lia|].
      right. right. by apply lowercase_alphanumeric.
    + apply fold_char_kept; [|by rewrite ascii_lowercase_twice|lia|done].
      intros Er E. apply (Hne Er). rewrite E in Es. unfold is_separator in Es. simpl in Es.
      symmetry in Es. apply orb_true_iff in Es as [?%Z.eqb_eq|?%Z.eqb_eq]; [done|].
      subst. by vm_compute in E.
    + rewrite Es. by intros _.
  - destruct (Hlow c' Hc') as [Hne' Hall]; [lia|]. split; [done|].
    eapply Forall_impl; [apply Forall_and; split; [exact Hf|exact Hall]|].
    intros d [Hd [Hfix Hasc]].
    assert (0 <= d) by (apply is_scalar_true in Hd; lia).
    assert (d < 128 -> is_separator d = false) as Hns by (intros ?; by apply alphabetic_not_separator, Hasc).
    assert (is_separator d = true -> d < 128) by (unfold is_separator; intros ?%orb_true_iff; lia).
    split_and!.
    + apply retains_ascii. right. destruct (Z.ltb_spec d 128); [right|by left].
      unfold is_ascii_alphanumeric. rewrite Hasc by done. apply orb_true_r.
    + apply fold_char_kept; [|intros _ ?|done|done].
      * intros _ ->. by specialize (Hns ltac:(lia)).
      * specialize (env_lower_ascii d ltac:(lia)). rewrite Hfix. by intros [= <-].
    + intros _ Hs. rewrite Hns in Hs by auto. done.
Qed.

Lemma key_form_stable n cs :
  lower_stable -> Forall (fun c => is_scalar c = true) cs -> key_form n (key_form n cs) = key_form n cs.
Proof.
  intros Hlow Hcs. unfold key_form at 2 3.
  set (ds := if resource_path n then drop_while is_separator cs else cs).
  assert (Forall (fun c => is_scalar c = true) ds) as Hds
    by (unfold ds; destruct (resource_path n); [by apply drop_while_Forall|done]).
  assert (resource_path n = true -> match ds with c :: _ => is_separator c = false | [] => True end) as Hhead.
  { intros Hr. unfold ds. rewrite Hr. clear. induction cs as [|c cs IH]; [done|]. simpl.
    by destruct (is_separator c) eqn:E. }
  clearbody ds. set (l := List.filter (retains n) ds).
  assert (Forall (fun c => fold_char n c <> [] /\ Forall (stable_char n c) (fold_char n c)) l) as Hl.
  { apply Forall_forall. intros c [Hin Hr]%list_elem_of_In%filter_In. apply fold_char_stable; [done| |done].
    rewrite Forall_forall in Hds. by apply Hds, list_elem_of_In. }
  assert (resource_path n = true ->
          match flat_map (fold_char n) l with d :: _ => is_separator d = false | [] => True end) as Hfirst.
  { intros Hr. unfold l in *. destruct (strip_profile n) as [[]|] eqn:Hp.
    - destruct (flat_map _ _) as [|d t] eqn:E; [done|].
      assert (In d (flat_map (fold_char n) (List.filter (retains n) ds))) as Hin by (rewrite E; by left).
      apply in_flat_map in Hin as (c & Hc & Hd). rewrite Forall_forall in Hl.
      destruct (Hl c) as [_ Hall]; [by apply list_elem_of_In|]. rewrite Forall_forall in Hall.
      destruct (Hall d) as (Hrd & _); [by apply list_elem_of_In|].
      apply not_true_iff_false. intros Hsep. apply retains_ascii in Hrd. rewrite Hp in Hrd.
      unfold is_separator in Hsep. apply orb_true_iff in Hsep as [->%Z.eqb_eq| ->%Z.eqb_eq];
        by destruct Hrd as [|[|]].
    - specialize (Hhead Hr). destruct ds as [|c ds']; [done|]. cbn [List.filter] in *.
      replace (retains n c) with true in * by (symmetry; apply retains_ascii; by left).
      apply Forall_cons in Hl as [[Hne Hall] _]. cbn [flat_map].
      destruct (fold_char n c) as [|d ?]; [done|]. simpl. apply Forall_cons in Hall as [(_ & _ & Hs) _].
      apply not_true_iff_false. intros Hd. specialize (Hs Hr Hd). congruence. }
  assert (Forall (fun d => retains n d = true /\ fold_char n d = [d]) (flat_map (fold_char n) l)) as Hall.
  { clear Hfirst. induction Hl as [|c l' [_ Hc] _ IH]; [constructor|]. cbn [flat_map].
    apply Forall_app. split; [|done]. eapply Forall_impl; [exact Hc|]. by intros d (? & ? & _). }
  set (out := flat_map (fold_char n) l) in *. clearbody out. unfold key_form.
  replace (if resource_path n then drop_while is_separator out else out) with out.
  - clear Hfirst. induction Hall as [|d out [Hr Hd] _ IH]; [done|].
    cbn [List.filter]. rewrite Hr. cbn [flat_map]. rewrite Hd. simpl. by rewrite IH.
  - destruct (resource_path n); [|done]. specialize (Hfirst eq_refl).
    destruct out as [|d out]; [done|]. simpl. by rewrite Hfirst.
Qed.

End NormalizeProofs.

Lemma simple_lower_stable : @lower_stable simple_env.
Proof.
  intros c _ Hc. simpl. split; [done|]. constructor; [|done].
  assert (to_ascii_lowercase c = c) as E.
  { unfold to_ascii_lowercase. rewrite (proj2 (Z.leb_gt c 90)) by lia. by rewrite andb_false_r. }
  rewrite E. split; [simpl; by rewrite E|lia].
Qed.

(** * Properties *)

(** C39: the three loops of the normalizer agree: for every key of any
    length, [normalized_len] is exactly the length of what [normalize_into] and
    [normalize_bytes_into] append (or the overflow error, when that exceeds
    [usize]), both append the same bytes, and the result is the UTF-8 text of
    the specification: leading separators of a resource path dropped, stripped
    characters removed, '/' rewritten and case folded. *)
Theorem normalize_loops_agree `{EnvOk} n raw out :
  normalize_into n raw out = out ++ utf8_encode (key_form n (chars raw)) /\
  normalize_bytes_into n raw out = normalize_into n raw out /\
  text_ok (normalize_into n raw []) /\
  normalized_len n raw =
    (if zlen (normalize_into n raw []) <=? usize_max then Ok (zlen (normalize_into n raw []))
     else Err (InvalidFormat "normalized key length overflow")) /\
  wp (normalize n raw) (fun t => t = normalize_into n raw []).
Proof.
  rewrite normalize_bytes_into_spec, !normalize_into_spec, normalized_len_spec.
  split_and!; try done; [apply normalized_text|apply wp_normalize].
Qed.

(** Normalization is idempotent: normalizing a normalized key changes
    nothing, so a key's normalized form finds the same entries as the key. *)
Theorem normalize_idempotent `{EnvOk} n raw :
  lower_stable -> normalize_into n (normalize_into n raw []) [] = normalize_into n raw [].
Proof.
  intros Hlow. rewrite !normalize_into_spec, !app_nil_l. unfold normalized.
  rewrite (chars_encode (key_form n (chars raw))) by apply key_form_scalar, chars_scalar.
  by rewrite key_form_stable by (done || apply chars_scalar).
Qed.

Definition resource_normalizer : KeyNormalizer :=
  {| case_sensitive := false; strip_profile := None; resource_path := true |}.

Example normalize_loops_agree_witness :
  @normalize_bytes_into simple_env resource_normalizer (lit "/Assets/Theme.css") [] =
    lit "assets\theme.css" /\
  @normalized_len simple_env resource_normalizer (lit "/Assets/Theme.css") = Ok 16.
Proof.
  destruct (@normalize_loops_agree simple_env simple_env_ok resource_normalizer
              (lit "/Assets/Theme.css") []) as (_ & E & _ & L & _).
  split; [rewrite E; reflexivity|rewrite L; reflexivity].
Defined.

Example normalize_idempotent_witness :
  @normalize_into simple_env resource_normalizer
    (@normalize_into simple_env resource_normalizer (lit "//A/B") []) [] =
  @normalize_into simple_env resource_normalizer (lit "//A/B") [].
Proof.
  apply (@normalize_idempotent simple_env simple_env_ok resource_normalizer (lit "//A/B")).
  exact simple_lower_stable.
Defined.

(** The cases of the unit tests. *)
Example strip_key_removes_non_alphanumeric_ascii_anywhere :
  @normalize simple_env {| case_sensitive := false; strip_profile := Some AsciiAlphanumeric;
                           resource_path := false |} (lit " A-b.c_D ") = Ok (lit "abcd").
Proof. reflexivity. Qed.

Example preserves_raw_shape_without_strip_key :
  @normalize simple_env {| case_sensitive := true; strip_profile := None;
                           resource_path := false |} (lit " A-b.c ") = Ok (lit " A-b.c ").
Proof. reflexivity. Qed.
