(* ===== verification/Crypto.v ===== *)
(** The primitives of [src/format/common/crypto.rs] and the version 2 framing
    of [src/format/v2/crypto.rs]: RIPEMD-128, Salsa20/8, the keyword-index
    cipher and the passcode-protected keyword header. *)

From S2P Require Import Prelude Errors Types Checksum Encoding.

(** * RIPEMD-128 *)

Definition RIPEMD128_R : list Z :=
  [0; 1; 2; 3; 4; 5; 6; 7; 8; 9; 10; 11; 12; 13; 14; 15; 7; 4; 13; 1; 10; 6; 15; 3; 12; 0; 9; 5;
   2; 14; 11; 8; 3; 10; 14; 4; 9; 15; 8; 1; 2; 7; 0; 6; 13; 11; 5; 12; 1; 9; 11; 10; 0; 8; 12; 4;
   13; 3; 7; 15; 14; 5; 6; 2].

Definition RIPEMD128_RP : list Z :=
  [5; 14; 7; 0; 9; 2; 11; 4; 13; 6; 15; 8; 1; 10; 3; 12; 6; 11; 3; 7; 0; 13; 5; 10; 14; 15; 8; 12;
   4; 9; 1; 2; 15; 5; 1; 3; 7; 14; 6; 9; 11; 8; 12; 2; 10; 0; 4; 13; 8; 6; 4; 1; 3; 11; 15; 0; 5;
   12; 2; 13; 9; 7; 10; 14].

Definition RIPEMD128_S : list Z :=
  [11; 14; 15; 12; 5; 8; 7; 9; 11; 13; 14; 15; 6; 7; 9; 8; 7; 6; 8; 13; 11; 9; 7; 15; 7; 12; 15;
   9; 11; 7; 13; 12; 11; 13; 6; 7; 14; 9; 13; 15; 14; 8; 13; 6; 5; 12; 7; 5; 11; 12; 14; 15; 14;
   15; 9; 8; 9; 14; 5; 6; 8; 6; 5; 12].

Definition RIPEMD128_SP : list Z :=
  [8; 9; 9; 11; 13; 15; 15; 5; 7; 7; 8; 11; 14; 14; 12; 6; 9; 13; 15; 7; 12; 8; 9; 11; 7; 7; 12;
   7; 6; 15; 13; 11; 9; 7; 15; 11; 8; 6; 6; 14; 12; 13; 5; 14; 13; 13; 7; 5; 15; 5; 8; 11; 14; 14;
   6; 14; 6; 9; 12; 9; 12; 5; 15; 8].

(** Array indexing by a constant table; all indices are in range. *)
Definition at_ (l : list Z) (i : Z) : Z := nth (Z.to_nat i) l 0.

(** [f] *)
Definition rmd_f (idx x y z : Z) : Z :=
  if idx <=? 15 then Z.lxor (Z.lxor x y) z
  else if idx <=? 31 then Z.lor (Z.land x y) (Z.land (not32 x) z)
  else if idx <=? 47 then Z.lxor (Z.lor x (not32 y)) z
  else Z.lor (Z.land x z) (Z.land y (not32 z)).

(** [fp] *)
Definition rmd_fp (idx x y z : Z) : Z :=
  if idx <=? 15 then Z.lor (Z.land x z) (Z.land y (not32 z))
  else if idx <=? 31 then Z.lxor (Z.lor x (not32 y)) z
  else if idx <=? 47 then Z.lor (Z.land x y) (Z.land (not32 x) z)
  else Z.lxor (Z.lxor x y) z.

(** [k] *)
Definition rmd_k (idx : Z) : Z :=
  if idx <=? 15 then 0
  else if idx <=? 31 then 0x5a827999
  else if idx <=? 47 then 0x6ed9eba1
  else 0x8f1bbcdc.

(** [kp] *)
Definition rmd_kp (idx : Z) : Z :=
  if idx <=? 15 then 0x50a28be6
  else if idx <=? 31 then 0x5c4dd124
  else if idx <=? 47 then 0x6d703ef3
  else 0.

(** Four 32-bit words. *)
Record Words4 := { w0 : Z; w1 : Z; w2 : Z; w3 : Z }.

(** One of the two lines of the compression loop. *)
Definition rmd_line (f : Z -> Z -> Z -> Z -> Z) (k : Z -> Z) (r s : list Z) (words : list Z)
    (idx : Z) (v : Words4) : Words4 :=
  let tmp := rotate_left32
    (wrapping_add32 (wrapping_add32 (wrapping_add32 (w0 v) (f idx (w1 v) (w2 v) (w3 v)))
                       (at_ words (at_ r idx))) (k idx))
    (at_ s idx) in
  {| w0 := w3 v; w1 := tmp; w2 := w1 v; w3 := w2 v |}.

(** The 64 rounds: both lines advance together. *)
Definition rmd_rounds (words : list Z) (state : Words4) : Words4 * Words4 :=
  fold_left (fun v idx =>
    (rmd_line rmd_f rmd_k RIPEMD128_R RIPEMD128_S words idx (fst v),
     rmd_line rmd_fp rmd_kp RIPEMD128_RP RIPEMD128_SP words idx (snd v)))
    (map Z.of_nat (seq 0 64)) (state, state).

(** [bytes.chunks_exact(4)] as little-endian words *)
Fixpoint le_words (l : bytes) : list Z :=
  match l with
  | b0 :: b1 :: b2 :: b3 :: l => le_combine [b0; b1; b2; b3] :: le_words l
  | _ => []
  end.

(** [ripemd128_compress] *)
Definition ripemd128_compress (state : Words4) (chunk : bytes) : Words4 :=
  let '(v, p) := rmd_rounds (le_words chunk) state in
  {| w0 := wrapping_add32 (wrapping_add32 (w1 state) (w2 v)) (w3 p);
     w1 := wrapping_add32 (wrapping_add32 (w2 state) (w3 v)) (w0 p);
     w2 := wrapping_add32 (wrapping_add32 (w3 state) (w0 v)) (w1 p);
     w3 := wrapping_add32 (wrapping_add32 (w0 state) (w1 v)) (w2 p) |}.

(** [slice.chunks_exact(n)] and its remainder. *)
Definition chunks_exact (n : Z) (l : bytes) : list bytes :=
  filter (fun c => zlen c = n) (chunks n l).

Definition chunks_remainder (n : Z) (l : bytes) : bytes :=
  drop (Z.to_nat (zlen l / n * n)) l.

(** [ripemd128] *)
Definition ripemd128 (input : bytes) : bytes :=
  let init := {| w0 := 0x67452301; w1 := 0xefcdab89; w2 := 0x98badcfe; w3 := 0x10325476 |} in
  let state := fold_left ripemd128_compress (chunks_exact 64 input) init in
  let remainder := chunks_remainder 64 input in
  let padded_len := if zlen remainder <? 56 then 64 else 128 in
  let bit_len := (zlen input * 8) mod 2 ^ 64 in
  let tail := remainder ++ [0x80]
                ++ replicate (Z.to_nat (padded_len - 8 - zlen remainder - 1)) 0
                ++ le_split 8 bit_len in
  let state := fold_left ripemd128_compress (chunks_exact 64 tail) state in
  le_split 4 (w0 state) ++ le_split 4 (w1 state) ++ le_split 4 (w2 state) ++ le_split 4 (w3 state).

(** * Registration codes *)

(** [hex_nibble] *)
Definition hex_nibble (byte : Z) : Result Z :=
  if (48 <=? byte) && (byte <=? 57) then Ok (byte - 48)
  else if (97 <=? byte) && (byte <=? 102) then Ok (byte - 97 + 10)
  else if (65 <=? byte) && (byte <=? 70) then Ok (byte - 65 + 10)
  else Err (InvalidData "registration code contains non-hex bytes").

(** The loop of [decode_hex_16] over [chunks_exact(2)]. *)
Fixpoint decode_hex_pairs (l : bytes) : Result bytes :=
  match l with
  | h :: l :: rest =>
      let? high := hex_nibble h in
      let? low := hex_nibble l in
      let? out := decode_hex_pairs rest in
      Ok (Z.lor (Z.shiftl high 4) low :: out)
  | _ => Ok []
  end.

(** [decode_hex_16] *)
Definition decode_hex_16 (t : text) : Result bytes :=
  if negb (zlen t =? 32) then Err (InvalidData "registration code must be 32 hex digits")
  else decode_hex_pairs t.

(** * Salsa20/8 *)

(** [quarter_round] on the sixteen words of the state *)
Definition quarter_round (a b c d : nat) (state : list Z) : list Z :=
  let w i st := nth i st 0 in
  let mix (dst x y : nat) (n : Z) st :=
    <[dst := Z.lxor (w dst st) (rotate_left32 (wrapping_add32 (w x st) (w y st)) n)]> st in
  mix a d c 18 (mix d c b 13 (mix c b a 9 (mix b a d 7 state))).

(** [column_round] *)
Definition column_round (state : list Z) : list Z :=
  quarter_round 15 3 7 11 (quarter_round 10 14 2 6
    (quarter_round 5 9 13 1 (quarter_round 0 4 8 12 state))).

(** [row_round] *)
Definition row_round (state : list Z) : list Z :=
  quarter_round 15 12 13 14 (quarter_round 10 11 8 9
    (quarter_round 5 6 7 4 (quarter_round 0 1 2 3 state))).

(** [double_round] *)
Definition double_round (state : list Z) : list Z := row_round (column_round state).

(** The initial state of [salsa20_8_block]. *)
Definition salsa_state (key : bytes) (counter : Z) : list Z :=
  let constants := le_words (lit "expand 16-byte k") in
  let k := le_words key in
  [at_ constants 0; at_ k 0; at_ k 1; at_ k 2; at_ k 3; at_ constants 1; 0; 0;
   counter mod 2 ^ 32; (counter / 2 ^ 32) mod 2 ^ 32;
   at_ constants 2; at_ k 0; at_ k 1; at_ k 2; at_ k 3; at_ constants 3].

(** [salsa20_8_block] *)
Definition salsa20_8_block (key : bytes) (counter : Z) : bytes :=
  let state := salsa_state key counter in
  let working := double_round (double_round (double_round (double_round state))) in
  concat (map (le_split 4) (zip_with wrapping_add32 working state)).

(** The loop of [salsa20_8_xor] from the chunk [counter] on. *)
Fixpoint salsa_chunks (key : bytes) (counter : Z) (chunks : list bytes) : list bytes :=
  match chunks with
  | [] => []
  | chunk :: rest =>
      zip_with Z.lxor chunk (salsa20_8_block key counter) :: salsa_chunks key (counter + 1) rest
  end.

(** [salsa20_8_xor] *)
Definition salsa20_8_xor (data key : bytes) : bytes :=
  concat (salsa_chunks key 0 (chunks 64 data)).

(** * Version 2 framing *)

(** The key of the keyword index: derived from the block's own checksum. *)
Definition keyword_index_key (checksum : Z) : bytes :=
  ripemd128 (be_split 4 checksum ++ [0x95; 0x36; 0x00; 0x00]).

(** The loop of [decrypt_keyword_index_block]. *)
Fixpoint decrypt_index_bytes (key : bytes) (index previous : Z) (data : bytes) : bytes :=
  match data with
  | [] => []
  | cipher :: rest =>
      Z.lxor (Z.lxor (Z.lxor (swap_nibbles cipher) (index mod 256))
                     (at_ key (index mod zlen key))) previous
      :: decrypt_index_bytes key (index + 1) cipher rest
  end.

(** [decrypt_keyword_index_block] *)
Definition decrypt_keyword_index_block (checksum : Z) (data : bytes) : bytes :=
  decrypt_index_bytes (keyword_index_key checksum) 0 0x36 data.

(** The loop of [encrypt_keyword_index_block] (a test helper of the source). *)
Fixpoint encrypt_index_bytes (key : bytes) (index previous : Z) (data : bytes) : bytes :=
  match data with
  | [] => []
  | plain :: rest =>
      let cipher := swap_nibbles (Z.lxor (Z.lxor (Z.lxor plain (index mod 256))
                                    (at_ key (index mod zlen key))) previous) in
      cipher :: encrypt_index_bytes key (index + 1) cipher rest
  end.

(** [encrypt_keyword_index_block] *)
Definition encrypt_keyword_index_block (checksum : Z) (data : bytes) : bytes :=
  encrypt_index_bytes (keyword_index_key checksum) 0 0x36 data.

(** [derive_keyword_header_key] *)
Definition derive_keyword_header_key (p : Passcode) : Result bytes :=
  let? encrypted_hash := decode_hex_16 (reg_code_hex p) in
  let user_hash := ripemd128 (user_id p) in
  Ok (salsa20_8_xor encrypted_hash user_hash).

(** [decrypt_keyword_header_block] *)
Definition decrypt_keyword_header_block (data : bytes) (p : Passcode) : Result bytes :=
  let? key := derive_keyword_header_key p in
  Ok (salsa20_8_xor data key).

(** * Lemmas *)

Lemma at_byte l i : bytes_ok l -> is_byte (at_ l i).
Proof.
  intros Hl. unfold at_. destruct (nth_in_or_default (Z.to_nat i) l 0) as [Hin| ->].
  - unfold bytes_ok in Hl. rewrite Forall_forall in Hl. by apply Hl, list_elem_of_In.
  - unfold is_byte. lia.
Qed.

Lemma ripemd128_ok input : bytes_ok (ripemd128 input) /\ length (ripemd128 input) = 16%nat.
Proof.
  unfold ripemd128. split.
  - repeat (apply Forall_app; split); apply le_split_ok.
  - by rewrite !length_app, !length_le_split.
Qed.

Lemma lxor_3_cancel a b c d : Z.lxor (Z.lxor (Z.lxor (Z.lxor (Z.lxor (Z.lxor a b) c) d) b) c) d = a.
Proof.
  apply Z.bits_inj'. intros n _. rewrite !Z.lxor_spec.
  by destruct (Z.testbit a n), (Z.testbit b n), (Z.testbit c n), (Z.testbit d n).
Qed.

Lemma index_byte_ok i : is_byte (i mod 256).
Proof. unfold is_byte. pose proof (Z.mod_pos_bound i 256). lia. Qed.

Lemma decrypt_encrypt_bytes key index previous data :
  bytes_ok key -> is_byte previous -> bytes_ok data ->
  decrypt_index_bytes key index previous (encrypt_index_bytes key index previous data) = data.
Proof.
  intros Hk Hp Hd; revert index previous Hp.
  induction Hd as [|b data Hb _ IH]; intros index previous Hp; [done|].
  cbn [encrypt_index_bytes decrypt_index_bytes].
  assert (is_byte (Z.lxor (Z.lxor (Z.lxor b (index mod 256)) (at_ key (index mod zlen key)))
                     previous)) as Hx
    by (repeat apply lxor_byte; auto using index_byte_ok, at_byte).
  rewrite swap_nibbles_involutive, lxor_3_cancel by done.
  f_equal. apply IH. by apply swap_nibbles_byte.
Qed.

Lemma encrypt_decrypt_bytes key index previous data :
  bytes_ok key -> is_byte previous -> bytes_ok data ->
  encrypt_index_bytes key index previous (decrypt_index_bytes key index previous data) = data.
Proof.
  intros Hk Hp Hd; revert index previous Hp.
  induction Hd as [|b data Hb _ IH]; intros index previous Hp; [done|].
  cbn [encrypt_index_bytes decrypt_index_bytes].
  rewrite lxor_3_cancel, swap_nibbles_involutive by done.
  f_equal. by apply IH.
Qed.

Lemma length_decrypt_bytes key index previous data :
  length (decrypt_index_bytes key index previous data) = length data.
Proof.
  revert index previous; induction data as [|b data IH]; intros; simpl; [done|].
  by rewrite IH.
Qed.

Lemma decrypt_bytes_ok key index previous data :
  bytes_ok key -> is_byte previous -> bytes_ok data ->
  bytes_ok (decrypt_index_bytes key index previous data).
Proof.
  intros Hk Hp Hd; revert index previous Hp.
  induction Hd as [|b data Hb _ IH]; intros index previous Hp; constructor.
  - repeat apply lxor_byte; auto using index_byte_ok, at_byte, swap_nibbles_byte.
  - by apply IH.
Qed.

Lemma decrypt_keyword_index_ok checksum data :
  bytes_ok data ->
  bytes_ok (decrypt_keyword_index_block checksum data) /\
  length (decrypt_keyword_index_block checksum data) = length data.
Proof.
  intros ?. split; [|apply length_decrypt_bytes].
  apply decrypt_bytes_ok; [apply ripemd128_ok|unfold is_byte; lia|done].
Qed.

Lemma length_concat_le4 (l : list Z) : length (concat (map (le_split 4) l)) = (4 * length l)%nat.
Proof. induction l as [|x l IH]; [done|]. cbn [map concat length]. rewrite length_app, IH, length_le_split. lia. Qed.

Lemma length_quarter_round a b c d st : length (quarter_round a b c d st) = length st.
Proof. unfold quarter_round. by rewrite !length_insert. Qed.

Lemma length_double_round st : length (double_round st) = length st.
Proof. unfold double_round, row_round, column_round. by rewrite !length_quarter_round. Qed.

Lemma concat_le4_ok l : bytes_ok (concat (map (le_split 4) l)).
Proof.
  induction l as [|x l IH]; [constructor|].
  cbn [map concat]. apply Forall_app; split; [apply le_split_ok|done].
Qed.

Lemma length_salsa_state key counter : length (salsa_state key counter) = 16%nat.
Proof. reflexivity. Qed.

Opaque salsa_state double_round.

Lemma length_salsa20_8_block key counter : length (salsa20_8_block key counter) = 64%nat.
Proof.
  unfold salsa20_8_block. cbv zeta.
  rewrite length_concat_le4, length_zip_with, !length_double_round, length_salsa_state.
  exact eq_refl.
Qed.

Lemma salsa20_8_block_ok key counter : bytes_ok (salsa20_8_block key counter).
Proof. apply concat_le4_ok. Qed.

Lemma zip_xor_twice (data ks : bytes) :
  (length data <= length ks)%nat -> zip_with Z.lxor (zip_with Z.lxor data ks) ks = data.
Proof.
  revert ks; induction data as [|b data IH]; intros [|k ks] Hl; simpl in *; try done; try lia.
  rewrite Z.lxor_assoc, Z.lxor_nilpotent, Z.lxor_0_r, IH; [done|lia].
Qed.

Lemma length_zip_xor (data ks : bytes) :
  (length data <= length ks)%nat -> length (zip_with Z.lxor data ks) = length data.
Proof. intros ?. rewrite length_zip_with. lia. Qed.

(** Chunks of a list are determined by their lengths. *)
Lemma chunks_fuel_salsa key fuel counter (data : bytes) :
  (length data <= fuel)%nat ->
  chunks_fuel fuel 64 (concat (salsa_chunks key counter (chunks_fuel fuel 64 data))) =
  salsa_chunks key counter (chunks_fuel fuel 64 data).
Proof.
  revert counter data; induction fuel as [|fuel IH]; intros counter [|b data] Hl;
    cbn [chunks_fuel salsa_chunks concat]; try done.
  set (d := b :: data) in *.
  assert (length (zip_with Z.lxor (take 64 d) (salsa20_8_block key counter)) = length (take 64 d))
    as Hz by (apply length_zip_xor; rewrite length_take, length_salsa20_8_block; lia).
  destruct (zip_with Z.lxor (take 64 d) (salsa20_8_block key counter)) as [|x z] eqn:Ez.
  { subst d. simpl in Hz. lia. }
  cbn [app chunks_fuel]. rewrite app_comm_cons, <- Ez.
  rewrite <- Ez in Hz.
  destruct (decide (length d <= 64)%nat) as [Hs|Hs].
  - rewrite (drop_ge d) by lia.
    assert (forall f, chunks_fuel f 64 (@nil Z) = []) as Hnil by (intros []; done).
    rewrite Hnil. cbn [salsa_chunks concat]. rewrite app_nil_r.
    rewrite length_take in Hz. rewrite take_ge, drop_ge by lia. by rewrite Hnil.
  - rewrite length_take in Hz.
    rewrite take_app_length', drop_app_length' by lia.
    f_equal. apply IH. rewrite length_drop. subst d. simpl in *. lia.
Qed.

Lemma salsa_chunks_twice key counter cs :
  Forall (fun c => zlen c <= 64) cs ->
  salsa_chunks key counter (salsa_chunks key counter cs) = cs.
Proof.
  intros Hc; revert counter; induction Hc as [|c cs Hc _ IH]; intros counter; [done|].
  cbn [salsa_chunks]. rewrite IH, zip_xor_twice; [done|].
  rewrite length_salsa20_8_block. lia.
Qed.

Lemma length_salsa_chunks key counter cs :
  Forall (fun c => zlen c <= 64) cs ->
  length (concat (salsa_chunks key counter cs)) = length (concat cs).
Proof.
  intros Hc; revert counter; induction Hc as [|c cs Hc _ IH]; intros counter; [done|].
  cbn [salsa_chunks concat]. rewrite !length_app, IH, length_zip_xor; [done|].
  rewrite length_salsa20_8_block. lia.
Qed.

Lemma length_salsa20_8_xor data key : length (salsa20_8_xor data key) = length data.
Proof.
  unfold salsa20_8_xor. rewrite length_salsa_chunks by by apply chunks_bounded.
  by rewrite chunks_concat.
Qed.

Lemma zip_xor_ok a b : bytes_ok a -> bytes_ok b -> bytes_ok (zip_with Z.lxor a b).
Proof.
  intros Ha; revert b; induction Ha as [|x a Hx _ IH]; intros b Hb; [constructor|].
  destruct Hb as [|y b Hy Hb]; [constructor|]. constructor; [by apply lxor_byte|by apply IH].
Qed.

Lemma salsa20_8_xor_ok data key : bytes_ok data -> bytes_ok (salsa20_8_xor data key).
Proof.
  intros Hd. unfold salsa20_8_xor. unfold bytes_ok in Hd.
  rewrite <- (chunks_concat 64 data) in Hd by lia. apply Forall_concat_inv in Hd.
  generalize 0. induction Hd as [|c cs Hc _ IH]; intros counter; [constructor|].
  cbn [salsa_chunks concat]. apply Forall_app; split; [|apply IH].
  apply zip_xor_ok; [done|apply salsa20_8_block_ok].
Qed.

Lemma salsa_twice data key : salsa20_8_xor (salsa20_8_xor data key) key = data.
Proof.
  unfold salsa20_8_xor at 1. unfold chunks at 1.
  rewrite length_salsa20_8_xor. unfold salsa20_8_xor, chunks.
  change (Z.to_nat 64) with 64%nat.
  rewrite chunks_fuel_salsa by done.
  rewrite salsa_chunks_twice; [apply chunks_fuel_concat; lia|].
  eapply Forall_impl; [apply chunks_fuel_bounded|]. simpl. lia.
Qed.

Lemma hex_nibble_digit b :
  is_ascii_hexdigit b = true -> exists v, hex_nibble b = Ok v /\ 0 <= v < 16.
Proof.
  intros H. unfold is_ascii_hexdigit, is_ascii_digit, hex_nibble in *.
  rewrite !orb_true_iff, !andb_true_iff, !Z.leb_le in H.
  repeat case_match; zbool; first [exfalso; lia | eexists; split; [reflexivity|lia]].
Qed.

Lemma wp_hex_nibble b (Q : Z -> Prop) :
  (forall v, 0 <= v < 16 -> Q v) -> wp (hex_nibble b) Q.
Proof. intros HQ. unfold hex_nibble. wp_steps; zbool; apply HQ; lia. Qed.

Lemma nibble_pair_byte h l : 0 <= h < 16 -> 0 <= l < 16 -> is_byte (Z.lor (Z.shiftl h 4) l).
Proof.
  intros Hh Hl.
  pose proof (check_below 16 (fun h => forallb (fun m =>
    let v := Z.lor (Z.shiftl h 4) (Z.of_nat m) in (0 <=? v) && (v <? 256)) (seq 0 16))
    ltac:(by vm_compute) h Hh) as H.
  pose proof (check_below 16 (fun m =>
    let v := Z.lor (Z.shiftl h 4) m in (0 <=? v) && (v <? 256)) H l Hl) as H1.
  cbv beta zeta in H1. zbool. by split.
Qed.

Lemma wp_decode_hex_pairs l :
  wp (decode_hex_pairs l) (fun out => bytes_ok out /\ zlen out = zlen l / 2).
Proof.
  remember (length l) as n eqn:Hn. revert l Hn.
  induction n as [n IH] using lt_wf_ind; intros [|h [|b l]] ->; [split; [constructor|reflexivity]..|].
  cbn [decode_hex_pairs]. wp_steps. apply wp_hex_nibble; intros ? ?. wp_steps.
  apply wp_hex_nibble; intros ? ?. wp_steps.
  eapply wp_mono; [eapply (IH (length l)); simpl; [lia|done]|].
  intros out [Hout Hl]. split; [constructor; [by apply nibble_pair_byte|done]|].
  cbn [length]. rewrite !Nat2Z.inj_succ, Hl.
  replace (Z.succ (Z.succ (zlen l))) with (zlen l + 1 * 2) by lia.
  rewrite Z.div_add; lia.
Qed.

Lemma decode_hex_digits l :
  Forall (fun b => is_ascii_hexdigit b = true) l -> is_Some (match decode_hex_pairs l with Ok o => Some o | _ => None end).
Proof.
  remember (length l) as n eqn:Hn. revert l Hn.
  induction n as [n IH] using lt_wf_ind; intros [|h [|b l]] -> Hl; [by eexists..|].
  apply Forall_cons in Hl as [Hh Hl]. apply Forall_cons in Hl as [Hb Hl].
  cbn [decode_hex_pairs].
  destruct (hex_nibble_digit h Hh) as (? & -> & _), (hex_nibble_digit b Hb) as (? & -> & _).
  cbn [rbind]. destruct (IH (length l) ltac:(simpl; lia) l eq_refl Hl) as [o Ho].
  destruct (decode_hex_pairs l); try done; by eexists.
Qed.

Lemma wp_decrypt_keyword_header_block data p :
  bytes_ok data ->
  wp (decrypt_keyword_header_block data p)
     (fun out => bytes_ok out /\ length out = length data).
Proof.
  intros Hd. unfold decrypt_keyword_header_block, derive_keyword_header_key, decode_hex_16.
  wp_steps. eapply wp_mono; [apply wp_decode_hex_pairs|]. intros key _. wp_steps.
  split; [by apply salsa20_8_xor_ok|apply length_salsa20_8_xor].
Qed.

(** * Properties *)

(** C40: the keyword-index cipher is invertible with the same
    checksum-derived key: decrypting what the documented encryption produced
    gives the plain index back, and re-encrypting a decrypted index gives the
    file's bytes back. *)
Theorem keyword_index_cipher_round_trip checksum data :
  bytes_ok data ->
  decrypt_keyword_index_block checksum (encrypt_keyword_index_block checksum data) = data /\
  encrypt_keyword_index_block checksum (decrypt_keyword_index_block checksum data) = data.
Proof.
  intros Hd. pose proof (proj1 (ripemd128_ok (be_split 4 checksum ++ [0x95; 0x36; 0; 0]))) as Hk.
  unfold decrypt_keyword_index_block, encrypt_keyword_index_block, keyword_index_key.
  split; [apply decrypt_encrypt_bytes|apply encrypt_decrypt_bytes]; auto; unfold is_byte; lia.
Qed.

Example keyword_index_cipher_witness :
  bytes_ok (lit "example payload") /\
  decrypt_keyword_index_block 0x12345678
    (encrypt_keyword_index_block 0x12345678 (lit "example payload")) = lit "example payload" /\
  encrypt_keyword_index_block 0x12345678
    (decrypt_keyword_index_block 0x12345678 (lit "example payload")) = lit "example payload".
Proof.
  assert (bytes_ok (lit "example payload")) as H.
  { unfold bytes_ok, is_byte. repeat constructor; vm_compute; done. }
  split; [exact H|]. apply (keyword_index_cipher_round_trip 0x12345678 _ H).
Defined.

(** Salsa20/8 in counter mode is its own inverse under every key, keeps
    the length of the data, and for every passcode [Passcode::new] accepts the
    keyword header it protects is recovered by decrypting. *)
Theorem keyword_header_cipher_round_trip `{Env} reg user data p :
  passcode_new reg user = Ok p ->
  exists cipher, decrypt_keyword_header_block data p = Ok cipher /\
    length cipher = length data /\ decrypt_keyword_header_block cipher p = Ok data.
Proof.
  intros Hp. pose proof (passcode_new_shape reg user) as Hs. rewrite Hp in Hs.
  destruct Hs as (<- & _ & Hl & Hh & _).
  assert (exists key, derive_keyword_header_key p = Ok key) as [key Hkey].
  { unfold derive_keyword_header_key, decode_hex_16. rewrite (proj2 (Z.eqb_eq _ _) Hl).
    cbn [negb]. destruct (decode_hex_digits _ Hh) as [o Ho].
    destruct (decode_hex_pairs (reg_code_hex p)); try done; by eexists. }
  unfold decrypt_keyword_header_block. rewrite Hkey. cbn [rbind].
  eexists; split_and!; [done|apply length_salsa20_8_xor|]. by rewrite salsa_twice.
Qed.

Example keyword_header_cipher_witness :
  exists cipher p, decrypt_keyword_header_block (lit "forty bytes of keyword header go here..") p
    = Ok cipher /\ decrypt_keyword_header_block cipher p
    = Ok (lit "forty bytes of keyword header go here..").
Proof.
  destruct (@keyword_header_cipher_round_trip simple_env (lit "0123456789abcdefABCDEF0123456789")
              (lit "user@example.com") (lit "forty bytes of keyword header go here..")
              {| reg_code_hex := lit "0123456789abcdefABCDEF0123456789";
                 user_id := lit "user@example.com" |} eq_refl) as (cipher & Hc & _ & Hd).
  exact (ex_intro _ cipher (ex_intro _ _ (conj Hc Hd))).
Defined.

Example ripemd128_empty :
  ripemd128 [] = [0xcd; 0xf2; 0x62; 0x13; 0xa1; 0x50; 0xdc; 0x3e;
                  0xcb; 0x61; 0x0f; 0x18; 0xf6; 0xb3; 0x8b; 0x46].
Proof. vm_compute. reflexivity. Qed.

Example ripemd128_a :
  ripemd128 (lit "a") = [0x86; 0xbe; 0x7a; 0xfa; 0x33; 0x9d; 0x0f; 0xc7;
                         0xcf; 0xc7; 0x85; 0xe7; 0x2f; 0x57; 0x8d; 0x33].
Proof. vm_compute. reflexivity. Qed.
