(* ===== verification/Compression.v ===== *)
(** Block decompression: [src/format/common/compression.rs]. *)

From S2P Require Import Prelude Errors Types Checksum Encoding.

(** [CompressionType] *)
Inductive CompressionType := CtNone | CtLzo | CtZlib.

#[export] Instance CompressionType_eq_dec : EqDecision CompressionType.
Proof. solve_decision. Defined.

(** [parse_comp_type] *)
Definition parse_comp_type (tag : bytes) : Result CompressionType :=
  if bytes_eqb tag [0; 0; 0; 0] then Ok CtNone
  else if bytes_eqb tag [1; 0; 0; 0] then Ok CtLzo
  else if bytes_eqb tag [2; 0; 0; 0] then Ok CtZlib
  else Err (InvalidData ("unknown compression tag: " +++ fmt_hex_list tag)%string).

(** The message every decoder uses for a wrong decompressed length. *)
Definition wrong_length (context : string) (actual expected : Z) : Error :=
  InvalidData (context +++ " decompressed to " +++ fmt_dec actual +++ " bytes, expected "
               +++ fmt_dec expected)%string.

(** An inflater that knows one stream: its payload is the data itself. *)
Definition identity_env : Env := {|
  allocator := fun _ _ => true;
  lzo_enabled := false;
  miniz_inflate := fun p n _ =>
    {| inf_done := zlen p =? n; inf_status := "Done"; inf_read := zlen p; inf_written := zlen p;
       inf_output := p |};
  lzokay_decompress := fun _ _ => None;
  charset_max_len := fun _ _ => None;
  charset_decode := fun _ _ _ => (Malformed, 0, []);
  to_lowercase := fun c => [c];
|}.

Section Compression.

Context `{Env}.

(** [decode_uncompressed_block] *)
Definition decode_uncompressed_block (context : string) (payload : bytes) (expected : Z)
    : Result bytes :=
  if negb (zlen payload =? expected)
  then Err (InvalidData (context +++ " contains " +++ fmt_dec (zlen payload)
                         +++ " uncompressed bytes, expected " +++ fmt_dec expected)%string)
  else
    try_reserve_vec 0 1 (zlen payload) context ;;?
    Ok payload.

(** [decode_zlib_block] *)
Definition decode_zlib_block (context : string) (payload : bytes) (expected : Z)
    (policy : ChecksumPolicy) : Result bytes :=
  try_reserve_vec 0 1 expected context ;;?
  let r := miniz_inflate payload expected (negb (is_verify policy)) in
  if negb (inf_done r)
  then Err (InvalidData ("invalid or oversized zlib block in " +++ context +++ ": "
                         +++ inf_status r)%string)
  else if negb (inf_read r =? zlen payload)
  then
    let? trailing := or_panic (checked_sub (zlen payload) (inf_read r))
                       "attempt to subtract with overflow" in
    Err (InvalidData ("zlib block in " +++ context +++ " has " +++ fmt_dec trailing
                      +++ " trailing compressed bytes")%string)
  else if negb (inf_written r =? expected)
  then Err (wrong_length context (inf_written r) expected)
  else Ok (inf_output r).

(** [decode_lzo_block], with and without the [lzo] feature *)
Definition decode_lzo_block (context : string) (payload : bytes) (expected : Z) : Result bytes :=
  if negb lzo_enabled
  then Err (Unsupported "LZO compressed blocks (enable the `lzo` feature)")
  else
    try_reserve_vec 0 1 expected context ;;?
    let? '(actual, output) := ok_or (lzokay_decompress payload expected)
                                (InvalidData ("invalid lzo block in " +++ context)%string) in
    if negb (actual =? expected) then Err (wrong_length context actual expected)
    else Ok output.

(** [decode_block] *)
Definition decode_block (context : string) (block : bytes) (expected : Z) (lim : Limits)
    (policy : ChecksumPolicy) : Result bytes :=
  if zlen block <? 8 then Err (truncated context 8 (zlen block))
  else
    ensure_usize_limit "compressed_block_bytes" (zlen block) (compressed_block_bytes lim) ;;?
    ensure_usize_limit "decompressed_block_bytes" expected (decompressed_block_bytes lim) ;;?
    let? tag := or_panic (slice block 0 4) "range end index 4 out of range" in
    let? comp_type := parse_comp_type tag in
    let? checksum_bytes := or_panic (slice block 4 8) "index out of bounds" in
    let checksum := be_combine checksum_bytes in
    let? payload := or_panic (slice block 8 (zlen block)) "range start index 8 out of range" in
    let? decoded :=
      match comp_type with
      | CtNone => decode_uncompressed_block context payload expected
      | CtZlib => decode_zlib_block context payload expected policy
      | CtLzo => decode_lzo_block context payload expected
      end in
    if negb (zlen decoded =? expected) then Err (wrong_length context (zlen decoded) expected)
    else
      (if is_verify policy then verify_adler32 context decoded checksum else Ok tt) ;;?
      Ok decoded.

(** The compressed form of a block: its type, the checksum of its contents and
    the payload. *)
Definition encode_block (tag : Z) (data payload : bytes) : bytes :=
  [tag; 0; 0; 0] ++ be_split 4 (adler32 data) ++ payload.

(** [encode_zlib_block], a helper of the source's tests, for any compressor. *)
Definition encode_zlib_block (compress : bytes -> bytes) (data : bytes) : bytes :=
  encode_block 2 data (compress data).

(** * Lemmas *)

Lemma wp_parse_comp_type tag (Q : CompressionType -> Prop) :
  (forall t, Q t) -> wp (parse_comp_type tag) Q.
Proof. intros HQ. unfold parse_comp_type. wp_steps; apply HQ. Qed.

Context `{!EnvOk}.

Lemma wp_decode_uncompressed_block context payload expected :
  bytes_ok payload ->
  wp (decode_uncompressed_block context payload expected) (fun out => bytes_ok out).
Proof. intros ?. unfold decode_uncompressed_block. by wp_steps. Qed.

Lemma wp_decode_zlib_block context payload expected policy :
  0 <= expected -> wp (decode_zlib_block context payload expected policy) (fun out => bytes_ok out).
Proof.
  intros He. unfold decode_zlib_block. wp_steps.
  - apply wp_or_panic; [|intros; exact I].
    pose proof (env_inflate_read payload expected (negb (is_verify policy))).
    eexists. apply checked_sub_Some. split; [reflexivity|lia].
  - by apply env_inflate_output.
Qed.

Lemma wp_decode_lzo_block context payload expected :
  0 <= expected -> wp (decode_lzo_block context payload expected) (fun out => bytes_ok out).
Proof.
  intros He. unfold decode_lzo_block. wp_steps. destruct a as [k out]. wp_steps.
  by eapply env_lzo_output.
Qed.

(** The contract of [decode_block] towards its callers. *)
Lemma wp_decode_block context block expected lim policy :
  bytes_ok block -> 0 <= expected ->
  wp (decode_block context block expected lim policy)
     (fun out => zlen out = expected /\ bytes_ok out /\
        expected <= decompressed_block_bytes lim /\
        zlen block <= compressed_block_bytes lim /\
        (policy = Verify -> be_split 4 (adler32 out) = take 4 (drop 4 block))).
Proof.
  intros Hb He. unfold decode_block. wp_steps. zbool.
  apply wp_or_panic; [apply slice_is_Some; lia|]; intros tag Htag. wp_steps.
  apply wp_parse_comp_type; intros t. wp_steps.
  apply wp_or_panic; [apply slice_is_Some; lia|]; intros ck Hck. wp_steps.
  apply wp_or_panic; [apply slice_is_Some; lia|]; intros payload Hpayload.
  pose proof (slice_Forall _ _ _ _ _ Hpayload Hb) as Hp.
  pose proof (slice_Forall _ _ _ _ _ Hck Hb) as Hc.
  pose proof (slice_length _ _ _ _ Hck) as Hl.
  apply slice_Some in Hck as [_ Hck]. wp_steps.
  apply (wp_mono _ (fun out => bytes_ok out)).
  { destruct t; [by apply wp_decode_uncompressed_block|by apply wp_decode_lzo_block
                |by apply wp_decode_zlib_block]. }
  intros out Hout.
  assert (be_split 4 (be_combine ck) = ck) as Hsplit by (apply be_split_combine; [done|lia]).
  wp_steps; zbool.
  - apply wp_verify_adler32. intros Had. wp_steps. split_and!; try done.
    intros _. by rewrite Had, Hsplit, Hck.
  - destruct policy; [by split_and!|done].
Qed.

Lemma length_encode_block tag data payload : zlen (encode_block tag data payload) = 8 + zlen payload.
Proof. unfold encode_block. rewrite !length_app, length_be_split. simpl. lia. Qed.

Lemma encode_block_parts tag data payload :
  slice (encode_block tag data payload) 0 4 = Some [tag; 0; 0; 0] /\
  slice (encode_block tag data payload) 4 8 = Some (be_split 4 (adler32 data)) /\
  slice (encode_block tag data payload) 8 (8 + zlen payload) = Some payload.
Proof.
  split_and!; apply slice_Some; rewrite length_encode_block; (split; [lia|]); [done..|].
  replace (Z.to_nat (8 + zlen payload - 8)) with (length payload) by lia.
  unfold encode_block. rewrite app_assoc, drop_app_length'; [by rewrite take_ge|].
  by rewrite length_app, length_be_split.
Qed.

(** On an encoded block [decode_block] runs the decoder of its type. *)
Lemma decode_block_encoded context tag ct data payload lim policy :
  bytes_ok data -> zlen data <= decompressed_block_bytes lim ->
  8 + zlen payload <= compressed_block_bytes lim ->
  parse_comp_type [tag; 0; 0; 0] = Ok ct ->
  match ct with
  | CtNone => decode_uncompressed_block context payload (zlen data)
  | CtZlib => decode_zlib_block context payload (zlen data) policy
  | CtLzo => decode_lzo_block context payload (zlen data)
  end = Ok data ->
  decode_block context (encode_block tag data payload) (zlen data) lim policy = Ok data.
Proof.
  intros Hok Hd Hc Ht Hdec. unfold decode_block.
  destruct (encode_block_parts tag data payload) as (H1 & H2 & H3).
  rewrite length_encode_block, (proj2 (Z.ltb_ge _ _)) by lia.
  rewrite !(proj2 (ensure_usize_limit_Ok _ _ _ tt)) by done. cbn [rbind].
  rewrite H1, H2, H3. cbn [rbind or_panic]. rewrite Ht. cbn [rbind].
  rewrite Hdec. cbn [rbind]. rewrite Z.eqb_refl. cbn [negb].
  unfold verify_adler32. rewrite be_combine_split.
  - rewrite Z.eqb_refl. by destruct policy.
  - pose proof (adler32_u32 data Hok). unfold is_u32, u32_max in *. simpl. lia.
Qed.

(** * Properties *)

(** Whatever the bytes of a block, decompressing it neither panics nor
    returns a wrong amount of data: the result has exactly the declared length,
    both lengths are within the configured ceilings, and under the verifying
    policy the stored checksum is the ADLER32 of the result. *)
Theorem decode_block_exact context block expected lim policy :
  bytes_ok block -> 0 <= expected ->
  wp (decode_block context block expected lim policy)
     (fun out => zlen out = expected /\ bytes_ok out /\
        expected <= decompressed_block_bytes lim /\
        zlen block <= compressed_block_bytes lim /\
        (policy = Verify -> be_split 4 (adler32 out) = take 4 (drop 4 block))).
Proof. apply wp_decode_block. Qed.

(** C36: a block written in the documented form is read back under either
    checksum policy: stored data always, zlib data whenever the inflater
    inverts the compressor with the whole payload consumed. *)
Theorem decode_block_round_trip context data lim policy (compress : bytes -> bytes) zlib :
  bytes_ok data ->
  allocator context (zlen data) = true -> zlen data <= isize_max ->
  zlen data <= decompressed_block_bytes lim ->
  8 + zlen (if (zlib : bool) then compress data else data) <= compressed_block_bytes lim ->
  (zlib = true -> forall ign, miniz_inflate (compress data) (zlen data) ign =
     {| inf_done := true; inf_status := "Done"; inf_read := zlen (compress data);
        inf_written := zlen data; inf_output := data |}) ->
  decode_block context
    (if zlib then encode_zlib_block compress data else encode_block 0 data data)
    (zlen data) lim policy = Ok data.
Proof.
  intros Hok Hal Hmax Hd Hc Hz.
  assert (try_reserve_vec 0 1 (zlen data) context = Ok tt) as Hres
    by (apply try_reserve_vec_Ok; rewrite ?Z.mul_1_r; try lia; done).
  destruct zlib.
  - apply (decode_block_encoded _ _ CtZlib); try done. unfold decode_zlib_block.
    rewrite Hres, (Hz eq_refl). cbn [rbind inf_done inf_read inf_written inf_output negb].
    by rewrite !Z.eqb_refl.
  - apply (decode_block_encoded _ _ CtNone); try done. unfold decode_uncompressed_block.
    by rewrite Z.eqb_refl, Hres.
Qed.

End Compression.

Example decode_block_exact_witness :
  bytes_ok [0; 0; 0; 0; 0; 1; 0; 1] /\ 0 <= 0 /\
  wp (@decode_block simple_env "test block" [0; 0; 0; 0; 0; 0; 0; 1] 0 limits_new Verify)
    (fun out => zlen out = 0).
Proof.
  assert (bytes_ok [0; 0; 0; 0; 0; 0; 0; 1]) as Hb by (repeat constructor; done).
  split; [repeat constructor; done|]. split; [done|].
  eapply wp_mono; [apply (@decode_block_exact simple_env simple_env_ok "test block" _ 0 limits_new
                            Verify Hb (Z.le_refl 0))|].
  intros out Hout. exact (proj1 Hout).
Defined.

Example decode_block_round_trip_witness :
  @decode_block identity_env "zlib block" (encode_zlib_block (fun d => d) (lit "hello mdict"))
    11 limits_new Verify = Ok (lit "hello mdict").
Proof.
  refine (@decode_block_round_trip identity_env "zlib block" (lit "hello mdict") limits_new Verify
            (fun d => d) true _ _ _ _ _ _).
  - repeat constructor; done.
  - reflexivity.
  - done.
  - done.
  - done.
  - intros _ ign. reflexivity.
Defined.
