(* ===== verification/Descriptors.v ===== *)
(** The boundary between the wire grammars and the core:
    [src/format/common/descriptors.rs].  A grammar produces one
    [ValidatedLayout]; [well_formed] is what the core may assume of it and
    [verify] the check that establishes it. *)

From S2P Require Import Prelude Errors Types Encoding.

(** * Ranges that follow each other

    [consecutive start size from l to]: the items of [l] occupy adjacent
    ranges, the first starting at [from] and the last ending at [to]. *)

Fixpoint consecutive {A} (start size : A -> Z) (from : Z) (l : list A) (to : Z) : Prop :=
  match l with
  | [] => from = to
  | b :: l => start b = from /\ consecutive start size (from + size b) l to
  end.

(** * Data *)

(** [SectionRange] *)
Record SectionRange := { sr_offset : Z; sr_len : Z }.

(** [SectionRange::end] *)
Definition section_end (r : SectionRange) : Result Z :=
  ok_or (checked_add (sr_offset r) (sr_len r)) (InvalidFormat "section range end overflow").

(** [SectionRanges] *)
Record SectionRanges := {
  s_header : SectionRange;
  s_keyword_header : SectionRange;
  s_keyword_index : SectionRange;
  s_keyword_blocks : SectionRange;
  s_record_header : SectionRange;
  s_record_index : SectionRange;
  s_record_blocks : SectionRange;
}.

Definition ordered_sections (s : SectionRanges) : list (string * SectionRange) :=
  [("header", s_header s); ("keyword header", s_keyword_header s);
   ("keyword index", s_keyword_index s); ("keyword blocks", s_keyword_blocks s);
   ("record header", s_record_header s); ("record index", s_record_index s);
   ("record blocks", s_record_blocks s)]%string.

(** The loop of [verify_contiguous]. *)
Fixpoint verify_sections (expected : string) (cursor : Z) (l : list (string * SectionRange))
    : Result unit :=
  match l with
  | [] => Ok tt
  | (name, section) :: l =>
      if negb (sr_offset section =? cursor)
      then Err (InvalidData (name +++ " section starts at " +++ fmt_dec (sr_offset section)
                             +++ " but " +++ expected +++ " ended at " +++ fmt_dec cursor)%string)
      else
        let? cursor := section_end section in
        verify_sections name cursor l
  end.

(** [SectionRanges::verify_contiguous] *)
Definition verify_contiguous (s : SectionRanges) : Result unit :=
  verify_sections "header" (sr_offset (s_header s)) (ordered_sections s).

(** [KeyBlockDescriptor] *)
Record KeyBlockDescriptor := {
  entry_count : Z;
  entry_start_index : Z;
  first_key : text;
  last_key : text;
  kb_comp_offset : Z;
  kb_comp_size : Z;
  kb_decomp_size : Z;
}.

(** [RecordBlockDescriptor] *)
Record RecordBlockDescriptor := {
  rb_comp_offset : Z;
  rb_comp_size : Z;
  rb_decomp_offset : Z;
  rb_decomp_size : Z;
}.

(** Sizes of the Rust types on a 64-bit target. *)
Definition size_of_key_block_descriptor : Z := 88.

Definition size_of_record_block_descriptor : Z := 32.

Definition size_of_decoded_key_row : Z := 32.

(** The loop of [find_record_block]. *)
Fixpoint find_record_block_loop (fuel : nat) (blocks : list RecordBlockDescriptor)
    (record_offset left right : Z) : Result (option Z) :=
  match fuel with
  | O => OutOfFuel
  | S fuel =>
      if left <? right then
        let mid := (left + right) / 2 in
        let? block := or_panic (get_at blocks mid) "index out of bounds" in
        match checked_add (rb_decomp_offset block) (rb_decomp_size block) with
        | None => Ok None
        | Some end_ =>
            if record_offset <? rb_decomp_offset block
            then find_record_block_loop fuel blocks record_offset left mid
            else if end_ <=? record_offset
            then find_record_block_loop fuel blocks record_offset (mid + 1) right
            else Ok (Some mid)
        end
      else Ok None
  end.

(** [find_record_block]; each round halves an interval of at most
    [blocks.len()] blocks, so one unit of fuel per block and one more do. *)
Definition find_record_block (blocks : list RecordBlockDescriptor) (record_offset : Z)
    : Result (option Z) :=
  find_record_block_loop (S (length blocks)) blocks record_offset 0 (zlen blocks).

(** [DecodedKeyRow] *)
Record DecodedKeyRow := {
  row_key : text;
  record_start : Z;
}.

#[export] Instance DecodedKeyRow_eq_dec : EqDecision DecodedKeyRow.
Proof. solve_decision. Defined.

(** [KeyRowContext] *)
Record KeyRowContext := {
  krc_encoding : TextEncoding;
  expected_entries : Z;
  krc_total_decoded_record_len : Z;
}.

(** [WireOperations]: the row decoder is a plain function. *)
Record WireOperations := {
  decode_key_rows : bytes -> KeyRowContext -> Result (list DecodedKeyRow);
}.

(** [RetainedBudget]; a reservation is its size. *)
Record RetainedBudget := {
  retained_header : Z;
  retained_key_metadata : Z;
  retained_record_metadata : Z;
}.

(** [RetainedBudget::metadata_bytes] *)
Definition metadata_bytes (r : RetainedBudget) : Result Z :=
  ok_or (bytes ← checked_add (retained_header r) (retained_key_metadata r);
         checked_add bytes (retained_record_metadata r))
    (InvalidFormat "metadata memory accounting overflow").

(** [ValidatedLayout] *)
Record ValidatedLayout := {
  vl_header : Header;
  vl_key_encoding : TextEncoding;
  vl_record_encoding : option TextEncoding;
  vl_sections : SectionRanges;
  vl_total_entries : Z;
  vl_total_decoded_record_len : Z;
  vl_key_blocks : list KeyBlockDescriptor;
  vl_record_blocks : list RecordBlockDescriptor;
  vl_wire : WireOperations;
  vl_retained : RetainedBudget;
}.

(** The first loop of [verify]: the ordinal behind the last key block. *)
Fixpoint verify_key_blocks (expected_start : Z) (l : list KeyBlockDescriptor) : Result Z :=
  match l with
  | [] => Ok expected_start
  | block :: l =>
      if negb (entry_start_index block =? expected_start)
      then Err (InvalidData ("key block starts at ordinal " +++ fmt_dec (entry_start_index block)
                             +++ " but " +++ fmt_dec expected_start +++ " was expected")%string)
      else
        let? next := ok_or (checked_add (entry_start_index block) (entry_count block))
                       (InvalidFormat "keyword entry count overflow") in
        verify_key_blocks next l
  end.

(** The second loop of [verify]. *)
Fixpoint verify_record_blocks (expected_offset : Z) (l : list RecordBlockDescriptor) : Result Z :=
  match l with
  | [] => Ok expected_offset
  | block :: l =>
      if negb (rb_decomp_offset block =? expected_offset)
      then Err (InvalidData ("record block starts at " +++ fmt_dec (rb_decomp_offset block)
                             +++ " but " +++ fmt_dec expected_offset +++ " was expected")%string)
      else
        let? next := ok_or (checked_add (rb_decomp_offset block) (rb_decomp_size block))
                       (InvalidFormat "record block offset overflow") in
        verify_record_blocks next l
  end.

(** [ValidatedLayout::verify] *)
Definition verify (layout : ValidatedLayout) : Result unit :=
  verify_contiguous (vl_sections layout) ;;?
  let? covered := verify_key_blocks 0 (vl_key_blocks layout) in
  if negb (covered =? vl_total_entries layout)
  then Err (InvalidData ("key blocks cover " +++ fmt_dec covered +++ " entries but "
                         +++ fmt_dec (vl_total_entries layout) +++ " were declared")%string)
  else
    let? covered := verify_record_blocks 0 (vl_record_blocks layout) in
    if negb (covered =? vl_total_decoded_record_len layout)
    then Err (InvalidData ("record blocks cover " +++ fmt_dec covered +++ " bytes but "
                           +++ fmt_dec (vl_total_decoded_record_len layout)
                           +++ " were declared")%string)
    else Ok tt.

(** * What the core assumes *)

Definition section_ok (r : SectionRange) : Prop := 0 <= sr_offset r /\ 0 <= sr_len r.

Definition key_block_ok (b : KeyBlockDescriptor) : Prop :=
  0 <= entry_count b /\ 0 <= kb_comp_offset b /\ 0 <= kb_comp_size b /\ 0 <= kb_decomp_size b.

Definition record_block_ok (b : RecordBlockDescriptor) : Prop :=
  0 <= rb_comp_offset b /\ 0 <= rb_comp_size b /\ 0 <= rb_decomp_size b.

(** The fields are numbers of their unsigned types. *)
Definition layout_unsigned (l : ValidatedLayout) : Prop :=
  Forall (fun p => section_ok (snd p)) (ordered_sections (vl_sections l)) /\
  Forall key_block_ok (vl_key_blocks l) /\ Forall record_block_ok (vl_record_blocks l).

(** The seven sections are adjacent, the key blocks number all entries in
    order and the record blocks cover the decoded record stream in order. *)
Definition well_formed (l : ValidatedLayout) : Prop :=
  let s := vl_sections l in
  (exists file_end, file_end <= u64_max /\
     consecutive sr_offset sr_len (sr_offset (s_header s)) (map snd (ordered_sections s)) file_end) /\
  vl_total_entries l <= u64_max /\
  consecutive entry_start_index entry_count 0 (vl_key_blocks l) (vl_total_entries l) /\
  vl_total_decoded_record_len l <= u64_max /\
  consecutive rb_decomp_offset rb_decomp_size 0 (vl_record_blocks l)
    (vl_total_decoded_record_len l).

(** A layout of two record blocks with an empty one between them. *)
Definition sample_layout : ValidatedLayout :=
  let section o l := {| sr_offset := o; sr_len := l |} in
  let block o c d l := {| rb_comp_offset := o; rb_comp_size := c; rb_decomp_offset := d;
                          rb_decomp_size := l |} in
  {| vl_header := {| raw_xml := []; tag_name := []; attributes := [];
       generated_by_engine_version := []; required_engine_version := []; encoding_label := None;
       format := None; key_case_sensitive := false; strip_key := false; encrypted := 0;
       register_by := None; reg_code := None; description := None; title := None;
       creation_date := None |};
     vl_key_encoding := EncUtf8; vl_record_encoding := Some EncUtf8;
     vl_sections := {| s_header := section 0 100; s_keyword_header := section 100 44;
       s_keyword_index := section 144 20; s_keyword_blocks := section 164 30;
       s_record_header := section 194 32; s_record_index := section 226 48;
       s_record_blocks := section 274 60 |};
     vl_total_entries := 3;
     vl_total_decoded_record_len := 30;
     vl_key_blocks := [{| entry_count := 3; entry_start_index := 0; first_key := lit "a";
       last_key := lit "c"; kb_comp_offset := 164; kb_comp_size := 30; kb_decomp_size := 40 |}];
     vl_record_blocks := [block 274 20 0 10; block 294 20 10 0; block 314 20 10 20];
     vl_wire := {| decode_key_rows := fun _ _ => Ok [] |};
     vl_retained := {| retained_header := 0; retained_key_metadata := 0;
       retained_record_metadata := 0 |} |}.

(** * Lemmas *)

Section Consecutive.

Context {A : Type} (start size : A -> Z).

Lemma consecutive_app from l1 l2 to :
  consecutive start size from (l1 ++ l2) to <->
  exists mid, consecutive start size from l1 mid /\ consecutive start size mid l2 to.
Proof.
  revert from; induction l1 as [|b l1 IH]; intros from; simpl.
  - split; [eauto|]. by intros (mid & -> & ?).
  - rewrite IH. naive_solver.
Qed.

Lemma consecutive_le from l to :
  Forall (fun b => 0 <= size b) l -> consecutive start size from l to -> from <= to.
Proof.
  intros Hl; revert from; induction Hl as [|b l Hb _ IH]; intros from; simpl; [lia|].
  intros [_ H]. apply IH in H. lia.
Qed.

Lemma consecutive_lookup from l to i b :
  Forall (fun b => 0 <= size b) l -> consecutive start size from l to -> l !! i = Some b ->
  consecutive start size from (take i l) (start b) /\
  consecutive start size (start b + size b) (drop (S i) l) to.
Proof.
  intros Hl Hc Hi. rewrite <- (take_drop_middle _ _ _ Hi) in Hc.
  apply consecutive_app in Hc as (mid & H1 & H2). simpl in H2. destruct H2 as [-> H2]. done.
Qed.

Lemma consecutive_bounds from l to i b :
  Forall (fun b => 0 <= size b) l -> consecutive start size from l to -> l !! i = Some b ->
  from <= start b /\ start b + size b <= to.
Proof.
  intros Hl Hc Hi. destruct (consecutive_lookup _ _ _ _ _ Hl Hc Hi) as [H1 H2].
  apply consecutive_le in H1; [|by apply Forall_take].
  apply consecutive_le in H2; [|by apply Forall_drop]. done.
Qed.

Lemma consecutive_order from l to i j b c :
  Forall (fun b => 0 <= size b) l -> consecutive start size from l to ->
  l !! i = Some b -> l !! j = Some c -> (i < j)%nat -> start b + size b <= start c.
Proof.
  intros Hl Hc Hi Hj Hij. destruct (consecutive_lookup _ _ _ _ _ Hl Hc Hi) as [_ H2].
  apply (consecutive_bounds _ _ _ (j - S i) c) in H2 as [? _]; [done|by apply Forall_drop|].
  rewrite lookup_drop. rewrite <- Hj. f_equal. lia.
Qed.

(** Some item covers every position of the whole range. *)
Lemma consecutive_cover from l to x :
  Forall (fun b => 0 <= size b) l -> consecutive start size from l to -> from <= x < to ->
  exists i b, l !! i = Some b /\ start b <= x < start b + size b.
Proof.
  intros Hl; revert from; induction Hl as [|b l Hb _ IH]; intros from; simpl; [lia|].
  intros [Hs Hc] Hx. destruct (decide (x < from + size b)).
  - exists 0%nat, b. split; [done|lia].
  - destruct (IH _ Hc) as (i & c & ? & ?); [lia|]. by exists (S i), c.
Qed.

(** What the searches keep of the blocks outside their interval: those on the
    left end before [x], those on the right start behind it. *)
Definition outside (l : list A) (x left right : Z) : Prop :=
  (forall i b, l !! i = Some b -> Z.of_nat i < left -> start b + size b <= x) /\
  (forall i b, l !! i = Some b -> right <= Z.of_nat i -> x < start b).

Lemma outside_init l x : outside l x 0 (zlen l).
Proof. split; intros i b Hi; [lia|]. apply lookup_lt_Some in Hi. lia. Qed.

Lemma outside_left l to x left right mid b :
  Forall (fun b => 0 <= size b) l -> consecutive start size 0 l to ->
  outside l x left right -> l !! Z.to_nat mid = Some b -> 0 <= mid -> x < start b ->
  outside l x left mid.
Proof.
  intros Hsz Hc [Hl Hr] Hb Hm Hx. split; [done|]. intros i c Hi Hge.
  destruct (decide (i = Z.to_nat mid)) as [->|]; [congruence|].
  pose proof (consecutive_order _ _ _ (Z.to_nat mid) i _ _ Hsz Hc Hb Hi ltac:(lia)).
  assert (0 <= size b) by (eapply (Forall_lookup_1 _ _ _ _ Hsz Hb)). lia.
Qed.

Lemma outside_right l to x left right mid b :
  Forall (fun b => 0 <= size b) l -> consecutive start size 0 l to ->
  outside l x left right -> l !! Z.to_nat mid = Some b -> 0 <= mid -> start b + size b <= x ->
  outside l x (mid + 1) right.
Proof.
  intros Hsz Hc [Hl Hr] Hb Hm Hx. split; [|done]. intros i c Hi Hge.
  destruct (decide (i = Z.to_nat mid)) as [->|]; [congruence|].
  pose proof (consecutive_order _ _ _ i (Z.to_nat mid) _ _ Hsz Hc Hi Hb ltac:(lia)).
  assert (0 <= size b) by (eapply (Forall_lookup_1 _ _ _ _ Hsz Hb)). lia.
Qed.

Lemma outside_none l to x left right :
  Forall (fun b => 0 <= size b) l -> consecutive start size 0 l to -> 0 <= x ->
  right <= left -> outside l x left right -> to <= x.
Proof.
  intros Hsz Hc Hx Hlr [Hl Hr]. destruct (decide (x < to)); [|lia].
  destruct (consecutive_cover _ _ _ x Hsz Hc) as (i & b & Hi & ?); [lia|].
  destruct (decide (Z.of_nat i < left)).
  - specialize (Hl i b Hi ltac:(lia)). lia.
  - specialize (Hr i b Hi ltac:(lia)). lia.
Qed.

End Consecutive.

Lemma wp_section_end r (Q : Z -> Prop) :
  (sr_offset r + sr_len r <= u64_max -> Q (sr_offset r + sr_len r)) -> wp (section_end r) Q.
Proof. intros HQ. unfold section_end. wp_steps. rinv. auto. Qed.

Lemma verify_sections_Ok expected cursor l :
  cursor <= u64_max -> Forall (fun p => section_ok (snd p)) l ->
  verify_sections expected cursor l = Ok tt <->
  exists to, to <= u64_max /\ consecutive sr_offset sr_len cursor (map snd l) to.
Proof.
  intros Hc Hl; revert expected cursor Hc.
  induction Hl as [|[name r] l Hr Hl IH]; intros expected cursor Hc; simpl; [naive_solver|].
  destruct (Z.eqb_spec (sr_offset r) cursor) as [Ho|Ho]; cbn [negb].
  2: { split; [done|]. by intros (to & _ & ? & _). }
  unfold section_end, checked_add. destruct (Z.leb_spec (sr_offset r + sr_len r) u64_max);
    cbn [ok_or rbind].
  - rewrite IH by done. rewrite Ho. naive_solver.
  - split; [done|]. intros (to & Hto & _ & H1). apply consecutive_le in H1; [lia|].
    apply Forall_map. eapply Forall_impl; [exact Hl|]. intros p [_ ?]. done.
Qed.

Lemma verify_key_blocks_Ok from l to :
  from <= u64_max -> Forall key_block_ok l ->
  verify_key_blocks from l = Ok to <->
  to <= u64_max /\ consecutive entry_start_index entry_count from l to.
Proof.
  intros Hc Hl; revert from Hc.
  induction Hl as [|b l Hb Hl IH]; intros from Hc; simpl; [naive_solver|].
  destruct (Z.eqb_spec (entry_start_index b) from) as [Ho|Ho]; cbn [negb]; [|naive_solver].
  unfold checked_add. destruct (Z.leb_spec (entry_start_index b + entry_count b) u64_max);
    cbn [ok_or rbind].
  - rewrite IH by done. rewrite Ho. naive_solver.
  - split; [done|]. intros (Hto & _ & H1). apply consecutive_le in H1; [lia|].
    eapply Forall_impl; [exact Hl|]. intros c ?. apply H0.
Qed.

Lemma verify_record_blocks_Ok from l to :
  from <= u64_max -> Forall record_block_ok l ->
  verify_record_blocks from l = Ok to <->
  to <= u64_max /\ consecutive rb_decomp_offset rb_decomp_size from l to.
Proof.
  intros Hc Hl; revert from Hc.
  induction Hl as [|b l Hb Hl IH]; intros from Hc; simpl; [naive_solver|].
  destruct (Z.eqb_spec (rb_decomp_offset b) from) as [Ho|Ho]; cbn [negb]; [|naive_solver].
  unfold checked_add. destruct (Z.leb_spec (rb_decomp_offset b + rb_decomp_size b) u64_max);
    cbn [ok_or rbind].
  - rewrite IH by done. rewrite Ho. naive_solver.
  - split; [done|]. intros (Hto & _ & H1). apply consecutive_le in H1; [lia|].
    eapply Forall_impl; [exact Hl|]. intros c ?. apply H0.
Qed.

Lemma wp_verify_key_blocks from l : wp (verify_key_blocks from l) (fun _ => True).
Proof. revert from; induction l as [|b l IH]; intros from; simpl; wp_steps; [done|apply IH]. Qed.

Lemma wp_verify_record_blocks from l : wp (verify_record_blocks from l) (fun _ => True).
Proof. revert from; induction l as [|b l IH]; intros from; simpl; wp_steps; [done|apply IH]. Qed.

Lemma wp_verify_sections expected cursor l : wp (verify_sections expected cursor l) (fun _ => True).
Proof.
  revert expected cursor; induction l as [|[name r] l IH]; intros expected cursor; simpl; [done|].
  wp_steps. apply wp_section_end. intros _. apply IH.
Qed.

Lemma verify_safe layout : safe (verify layout).
Proof.
  unfold safe, verify. wp_steps. eapply wp_mono; [apply wp_verify_sections|]. intros _ _.
  wp_steps. eapply wp_mono; [apply wp_verify_key_blocks|]. intros covered _. wp_steps.
  eapply wp_mono; [apply wp_verify_record_blocks|]. intros covered' _. by wp_steps.
Qed.

Lemma verify_parts layout :
  verify layout = Ok tt <->
  verify_contiguous (vl_sections layout) = Ok tt /\
  verify_key_blocks 0 (vl_key_blocks layout) = Ok (vl_total_entries layout) /\
  verify_record_blocks 0 (vl_record_blocks layout) = Ok (vl_total_decoded_record_len layout).
Proof.
  unfold verify. split.
  - intros H. rinv. zbool. subst. by destruct x.
  - intros (-> & -> & ->). cbn [rbind]. by rewrite !Z.eqb_refl.
Qed.

Lemma verify_Ok layout :
  layout_unsigned layout -> sr_offset (s_header (vl_sections layout)) <= u64_max ->
  verify layout = Ok tt <-> well_formed layout.
Proof.
  intros (Hs & Hk & Hr) Hh. rewrite verify_parts.
  rewrite verify_key_blocks_Ok, verify_record_blocks_Ok by done.
  unfold verify_contiguous. rewrite verify_sections_Ok by done. unfold well_formed. cbv zeta. tauto.
Qed.

(** The binary search narrows the interval until it finds the block. *)
Lemma find_record_block_loop_spec fuel blocks off left right to :
  Forall record_block_ok blocks -> to <= u64_max -> 0 <= off ->
  consecutive rb_decomp_offset rb_decomp_size 0 blocks to ->
  0 <= left -> left <= right -> right <= zlen blocks -> right - left < Z.of_nat fuel ->
  outside rb_decomp_offset rb_decomp_size blocks off left right ->
  returns (find_record_block_loop fuel blocks off left right) (fun r =>
    match r with
    | Some i => exists b, get_at blocks i = Some b /\
        rb_decomp_offset b <= off < rb_decomp_offset b + rb_decomp_size b
    | None => to <= off
    end).
Proof.
  intros Hok Hto Hoff Hc.
  assert (Forall (fun b => 0 <= rb_decomp_size b) blocks) as Hsz
    by (eapply Forall_impl; [exact Hok|]; by intros b (? & ? & ?)).
  revert left right. induction fuel as [|fuel IH]; intros left right Hl Hlr Hr Hf Hout; [lia|].
  cbn [find_record_block_loop]. apply returns_if; intros Hlt; zbool.
  - pose proof (Z.div_mod (left + right) 2). pose proof (Z.mod_pos_bound (left + right) 2).
    set (mid := (left + right) / 2) in *.
    apply returns_bind, returns_or_panic; [apply get_at_is_Some; lia|]. intros b Hb.
    assert (blocks !! Z.to_nat mid = Some b) as Hlk.
    { unfold get_at in Hb. by rewrite (proj2 (Z.leb_le 0 mid)) in Hb by lia. }
    destruct (consecutive_bounds _ _ _ _ _ _ _ Hsz Hc Hlk).
    unfold checked_add. rewrite (proj2 (Z.leb_le _ u64_max)) by lia.
    apply returns_if; intros ?; [|apply returns_if; intros ?]; zbool.
    + apply IH; try lia. by eapply outside_left; [..|lia|].
    + apply IH; try lia. by eapply outside_right; [..|lia|].
    + exists b. split; [done|lia].
  - by eapply outside_none.
Qed.

Lemma find_record_block_returns blocks off to :
  Forall record_block_ok blocks -> to <= u64_max -> 0 <= off ->
  consecutive rb_decomp_offset rb_decomp_size 0 blocks to ->
  returns (find_record_block blocks off) (fun r =>
    match r with
    | Some i => exists b, get_at blocks i = Some b /\
        rb_decomp_offset b <= off < rb_decomp_offset b + rb_decomp_size b
    | None => to <= off
    end).
Proof.
  intros. apply find_record_block_loop_spec; try done; try lia. apply outside_init.
Qed.

(** * Properties *)

(** C38: the check every opened layout goes through is sound and complete:
    it accepts exactly the layouts whose sections are adjacent, whose key
    blocks number all declared entries without a gap and whose record blocks
    cover the declared decoded stream without a gap; on any layout it returns
    or fails without a panic. *)
Theorem verify_correct layout :
  safe (verify layout) /\
  (layout_unsigned layout -> sr_offset (s_header (vl_sections layout)) <= u64_max ->
   verify layout = Ok tt <-> well_formed layout).
Proof. split; [apply verify_safe|apply verify_Ok]. Qed.

(** In the record blocks of a well-formed layout the binary search
    terminates without a panic and finds a block exactly for the offsets
    inside the decoded stream, and that block covers the offset; empty blocks
    are skipped. *)
Theorem find_record_block_correct layout off :
  layout_unsigned layout -> well_formed layout -> 0 <= off ->
  exists r, find_record_block (vl_record_blocks layout) off = Ok r /\
    (off < vl_total_decoded_record_len layout <-> is_Some r) /\
    (forall i, r = Some i -> exists b, get_at (vl_record_blocks layout) i = Some b /\
       rb_decomp_offset b <= off < rb_decomp_offset b + rb_decomp_size b).
Proof.
  intros (_ & _ & Hr) (_ & _ & _ & Hmax & Hc) Hoff.
  assert (Forall (fun b => 0 <= rb_decomp_size b) (vl_record_blocks layout)) as Hsz
    by (eapply Forall_impl; [exact Hr|]; by intros b (? & ? & ?)).
  destruct (proj1 (returns_Ok _ _) (find_record_block_returns _ off _ Hr Hmax Hoff Hc))
    as ([i|] & E & Hi).
  - exists (Some i). split_and!; [done| |naive_solver]. split; [by eexists|intros _].
    destruct Hi as (b & Hb & ?). pose proof (get_at_Some _ _ _ Hb).
    unfold get_at in Hb. rewrite (proj2 (Z.leb_le 0 i)) in Hb by lia.
    pose proof (consecutive_bounds _ _ _ _ _ _ _ Hsz Hc Hb). lia.
  - exists None. split_and!; [done| |done]. split; [lia|]. by intros [? ?].
Qed.

Lemma sample_layout_ok : layout_unsigned sample_layout /\ well_formed sample_layout.
Proof.
  assert (layout_unsigned sample_layout) as H by (repeat constructor; simpl; lia).
  split; [done|]. apply verify_Ok; [done|done|reflexivity].
Qed.

Example verify_correct_witness :
  safe (verify sample_layout) /\ (verify sample_layout = Ok tt <-> well_formed sample_layout).
Proof.
  split; [exact (proj1 (verify_correct sample_layout))|].
  apply (proj2 (verify_correct sample_layout)); [exact (proj1 sample_layout_ok)|done].
Defined.

Example find_record_block_witness :
  exists r, find_record_block (vl_record_blocks sample_layout) 10 = Ok r /\
    (10 < vl_total_decoded_record_len sample_layout <-> is_Some r).
Proof.
  destruct (find_record_block_correct sample_layout 10 (proj1 sample_layout_ok)
              (proj2 sample_layout_ok) ltac:(done)) as (r & H1 & H2 & _).
  exact (ex_intro _ r (conj H1 H2)).
Defined.
