(* ===== verification/Header.v ===== *)
(** The top-level header: [src/format/common/header.rs].  The section is a
    big-endian length, UTF-16LE XML holding a single tag, and an ADLER32. *)

From S2P Require Import Prelude Errors Types Budget Checksum Cursor Utf8 Encoding Source Descriptors.

(** [HeaderSection] *)
Record HeaderSection := {
  hs_header : Header;
  keyword_section_offset : Z;
  hs_retained_bytes : Z;
  hs_section : SectionRange;
}.

(** [u32::from_str_radix] and [str::parse] of an unsigned type with maximum
    [max]: an optional plus sign and at least one digit, without overflow. *)
Definition digit_value (radix b : Z) : option Z :=
  let value :=
    if is_ascii_digit b then Some (b - 48)
    else if (97 <=? b) && (b <=? 122) then Some (b - 97 + 10)
    else if (65 <=? b) && (b <=? 90) then Some (b - 65 + 10)
    else None in
  d ← value; if d <? radix then Some d else None.

Fixpoint parse_digits (radix max acc : Z) (t : text) : option Z :=
  match t with
  | [] => Some acc
  | b :: t =>
      d ← digit_value radix b;
      let acc := acc * radix + d in
      if acc <=? max then parse_digits radix max acc t else None
  end.

Definition parse_unsigned (radix max : Z) (t : text) : option Z :=
  match t with
  | [] => None
  | b :: digits =>
      if b =? 43
      then match digits with [] => None | _ => parse_digits radix max 0 digits end
      else parse_digits radix max 0 t
  end.

Section HeaderText.

Context `{Env}.

(** [clone_header_text] *)
Definition clone_header_text (value : text) (context : string) : Result text :=
  try_clone_string value context.

(** What one entity reference stands for. *)
Definition entity_char (entity : text) : Result Z :=
  if bytes_eqb entity (lit "amp") then Ok 38
  else if bytes_eqb entity (lit "lt") then Ok 60
  else if bytes_eqb entity (lit "gt") then Ok 62
  else if bytes_eqb entity (lit "quot") then Ok 34
  else if bytes_eqb entity (lit "apos") then Ok 39
  else if starts_with entity (lit "#x") || starts_with entity (lit "#X") then
    let? codepoint := ok_or (parse_unsigned 16 u32_max (drop 2 entity))
                        (InvalidFormat "invalid hex xml entity") in
    ok_or (char_from_u32 codepoint) (InvalidFormat "invalid hex xml codepoint")
  else if starts_with entity (lit "#") then
    let? codepoint := ok_or (parse_unsigned 10 u32_max (drop 1 entity))
                        (InvalidFormat "invalid decimal xml entity") in
    ok_or (char_from_u32 codepoint) (InvalidFormat "invalid decimal xml codepoint")
  else Err (InvalidFormat "unsupported xml entity").

(** The loop of [unescape_xml] over the remaining text. *)
Fixpoint unescape_loop (fuel : nat) (output remaining : text) : Result text :=
  match fuel with
  | O => OutOfFuel
  | S fuel =>
      match split_at_byte 38 remaining with
      | None => Ok (output ++ remaining)
      | Some (before, after_ampersand) =>
          let output := output ++ before in
          let? '(entity, remaining) := ok_or (split_at_byte 59 after_ampersand)
                                         (InvalidFormat "unterminated XML entity") in
          let? ch := entity_char entity in
          unescape_loop fuel (output ++ utf8_encode_char ch) remaining
      end
  end.

(** [unescape_xml]; every round consumes at least two bytes. *)
Definition unescape_xml (value : text) : Result text :=
  try_reserve_string 0 (zlen value) "header attribute value" ;;?
  unescape_loop (S (length value)) [] value.

(** [skip_ascii_whitespace] *)
Definition skip_ascii_whitespace (t : text) (index : Z) : Z :=
  skip_while is_ascii_whitespace t index.

Definition byte_is (o : option Z) (b : Z) : bool := bool_decide (o = Some b).

(** The quoted value whose opening quote is at [index], inside the loop of
    [parse_single_tag]: the value and the index behind the closing quote. *)
Definition parse_quoted_value (xml : text) (index : Z) : Result (text * Z) :=
  let? quote :=
    if byte_is (get_at xml index) 34 then Ok 34
    else if byte_is (get_at xml index) 39 then Ok 39
    else Err (InvalidFormat "expected quoted header xml attribute") in
  let value_start := index + 1 in
  let index := skip_while (fun b => negb (b =? quote)) xml value_start in
  if zlen xml <=? index
  then Err (InvalidFormat "unterminated header xml attribute value")
  else
    let? value := str_slice xml value_start index in
    let? value := unescape_xml value in
    Ok (value, index + 1).

(** One attribute: the body of the loop of [parse_single_tag] from the name at
    [index] on; the attribute and the index behind its closing quote. *)
Definition parse_attribute (xml : text) (attrs : list (text * text)) (index : Z)
    : Result ((text * text) * Z) :=
  let name_start := index in
  let index := skip_while (fun b => negb (is_ascii_whitespace b) && negb (b =? 61) && negb (b =? 62))
                 xml index in
  if name_start =? index then Err (InvalidFormat "empty header XML attribute name")
  else
    let? name := str_slice xml name_start index in
    let? name := clone_header_text name "header attribute name" in
    if existsb (fun p => bytes_eqb (fst p) name) attrs
    then Err (InvalidData "duplicate exact header XML attribute")
    else
      let index := skip_ascii_whitespace xml index in
      if negb (byte_is (get_at xml index) 61)
      then Err (InvalidFormat "expected '=' in header xml attribute")
      else
        let index := skip_ascii_whitespace xml (index + 1) in
        let? '(value, index) := parse_quoted_value xml index in
        try_reserve_vec (zlen attrs) size_of_string_pair 1 "header attributes" ;;?
        Ok ((name, value), index).

(** The loop of [parse_single_tag]: the attributes, whether the tag closes
    itself, and the index of the final [>]. *)
Fixpoint parse_attributes (fuel : nat) (xml : text) (lim : Limits) (attrs : list (text * text))
    (index : Z) : Result (list (text * text) * bool * Z) :=
  match fuel with
  | O => OutOfFuel
  | S fuel =>
      let index := skip_ascii_whitespace xml index in
      if zlen xml <=? index then Err (InvalidFormat "unterminated header xml tag")
      else
        let? byte := or_panic (get_at xml index) "index out of bounds" in
        if byte =? 47 then
          let index := index + 1 in
          if byte_is (get_at xml index) 62 then Ok (attrs, true, index)
          else Err (InvalidFormat "invalid self-closing header tag")
        else if byte =? 62 then Ok (attrs, false, index)
        else if header_attributes lim <=? zlen attrs
        then Err (LimitExceeded "header_attributes"
                    (or_u64_max (try_u64 (saturating_add (zlen attrs) 1)))
                    (or_u64_max (try_u64 (header_attributes lim))))
        else
          let? '(attr, index) := parse_attribute xml attrs index in
          parse_attributes fuel xml lim (attrs ++ [attr]) index
  end.

(** The end of [parse_single_tag]: what follows the opening tag. *)
Definition parse_closing (xml tag_name : text) (self_closing : bool) (index : Z) : Result unit :=
  let index := skip_ascii_whitespace xml (index + 1) in
  if negb (index =? zlen xml) && self_closing
  then Err (InvalidFormat "trailing content after top-level header tag")
  else if negb (index =? zlen xml) then
    if negb match slice xml index (zlen xml) with
            | Some tail => starts_with tail (lit "</")
            | None => false
            end
    then Err (InvalidFormat "content inside top-level header element is not supported")
    else
      let closing_name_start := index + 2 in
      let index := skip_while (fun b => negb (is_ascii_whitespace b) && negb (b =? 62)) xml
                     closing_name_start in
      if negb (bool_decide (slice xml closing_name_start index = Some tag_name))
      then Err (InvalidFormat "mismatched top-level header closing tag")
      else
        let index := skip_ascii_whitespace xml index in
        if negb (byte_is (get_at xml index) 62)
        then Err (InvalidFormat "malformed top-level header closing tag")
        else
          let index := skip_ascii_whitespace xml (index + 1) in
          if negb (index =? zlen xml)
          then Err (InvalidFormat "trailing content after top-level header element")
          else Ok tt
  else Ok tt.

(** [parse_single_tag]; every attribute takes at least one byte. *)
Definition parse_single_tag (xml : text) (lim : Limits) : Result (text * list (text * text)) :=
  if negb (starts_with xml (lit "<")) then Err (InvalidFormat "header xml must start with '<'")
  else
    let index := skip_while
      (fun b => negb (is_ascii_whitespace b) && negb (b =? 47) && negb (b =? 62)) xml 1 in
    if index =? 1 then Err (InvalidFormat "empty top-level header tag")
    else
      let? tag_name := str_slice xml 1 index in
      let? tag_name := clone_header_text tag_name "header tag name" in
      let? '(attrs, self_closing, index) :=
        parse_attributes (S (length xml)) xml lim [] index in
      parse_closing xml tag_name self_closing index ;;?
      Ok (tag_name, attrs).

(** The loop of [known_attribute]. *)
Fixpoint known_attribute_loop (found : option text) (attrs : list (text * text))
    (canonical_name : string) : Result (option text) :=
  match attrs with
  | [] => Ok found
  | (name, value) :: attrs =>
      if negb (eq_ignore_ascii_case name (lit canonical_name))
      then known_attribute_loop found attrs canonical_name
      else if match found with Some previous => negb (bytes_eqb previous value) | None => false end
      then Err (InvalidData ("conflicting aliases for header attribute "
                             +++ canonical_name)%string)
      else known_attribute_loop (Some value) attrs canonical_name
  end.

(** [known_attribute] *)
Definition known_attribute (attrs : list (text * text)) (canonical_name : string)
    : Result (option text) :=
  known_attribute_loop None attrs canonical_name.

(** [clone_optional_attribute] *)
Definition clone_optional_attribute (attrs : list (text * text)) (canonical_name : string)
    : Result (option text) :=
  let? found := known_attribute attrs canonical_name in
  match found with
  | Some ((_ :: _) as value) =>
      let? value := clone_header_text value canonical_name in Ok (Some value)
  | Some [] | None => Ok None
  end.

(** [value] as a boolean attribute. *)
Definition parse_bool_value (value : text) (canonical_name : string) : Result bool :=
  if eq_ignore_ascii_case value (lit "yes") then Ok true
  else if eq_ignore_ascii_case value (lit "no") then Ok false
  else Err (InvalidData ("header attribute " +++ canonical_name
                         +++ " must be Yes or No")%string).

(** The loops of [parse_known_bool] and [parse_known_encryption], which differ
    in how a value is read. *)
Fixpoint parse_known_loop {A} `{EqDecision A} (parse : text -> Result A) (found : option A)
    (attrs : list (text * text)) (canonical_name : string) : Result (option A) :=
  match attrs with
  | [] => Ok found
  | (name, value) :: attrs =>
      if negb (eq_ignore_ascii_case name (lit canonical_name))
      then parse_known_loop parse found attrs canonical_name
      else
        let? parsed := parse value in
        if match found with Some previous => negb (bool_decide (previous = parsed)) | None => false end
        then Err (InvalidData ("conflicting aliases for header attribute "
                               +++ canonical_name)%string)
        else parse_known_loop parse (Some parsed) attrs canonical_name
  end.

(** [parse_known_bool] *)
Definition parse_known_bool (attrs : list (text * text)) (canonical_name : string) (dflt : bool)
    : Result bool :=
  let? found := parse_known_loop (fun v => parse_bool_value v canonical_name) None attrs
                  canonical_name in
  Ok (default dflt found).

(** [{bits:#04x}] *)
Definition fmt_hex_u8 (x : Z) : string := ("0x" +++ fmt_hex2 x)%string.

(** [parse_encryption_value] *)
Definition parse_encryption_value (value : text) : Result Z :=
  let? bits :=
    if eq_ignore_ascii_case value (lit "yes") then Ok 1
    else if eq_ignore_ascii_case value (lit "no") then Ok 0
    else ok_or (parse_unsigned 10 u8_max value)
           (InvalidData "header attribute Encrypted is malformed") in
  if negb (Z.land bits (Z.lxor 255 3) =? 0)
  then Err (InvalidData ("header attribute Encrypted contains unknown bits "
                         +++ fmt_hex_u8 bits)%string)
  else Ok bits.

(** [parse_known_encryption] *)
Definition parse_known_encryption (attrs : list (text * text)) : Result Z :=
  let? found := parse_known_loop parse_encryption_value None attrs "Encrypted" in
  Ok (default 0 found).

(** [build_header_section] *)
Definition build_header_section (kind : ContainerKind) (xml_len : Z) (raw_xml tag_name : text)
    (attrs : list (text * text)) (retained_bytes : Z) : Result HeaderSection :=
  let expected := match kind with Mdx => lit "Dictionary" | Mdd => lit "Library_Data" end in
  if negb (bytes_eqb tag_name expected)
  then Err (InvalidFormat "unexpected top-level header tag")
  else
    let? generated := known_attribute attrs "GeneratedByEngineVersion" in
    let? generated := ok_or generated (InvalidFormat "missing GeneratedByEngineVersion") in
    let? generated := clone_header_text generated "GeneratedByEngineVersion" in
    let? required := known_attribute attrs "RequiredEngineVersion" in
    let? required :=
      match required with
      | Some value => clone_header_text value "RequiredEngineVersion"
      | None => clone_header_text generated "effective RequiredEngineVersion"
      end in
    let? encrypted := parse_known_encryption attrs in
    let? encoding_label := clone_optional_attribute attrs "Encoding" in
    let? format := clone_optional_attribute attrs "Format" in
    let? key_case_sensitive := parse_known_bool attrs "KeyCaseSensitive"
                                 (match kind with Mdd => true | Mdx => false end) in
    let? strip_key := parse_known_bool attrs "StripKey" false in
    let? register_by := clone_optional_attribute attrs "RegisterBy" in
    let? reg_code := clone_optional_attribute attrs "RegCode" in
    let? description := clone_optional_attribute attrs "Description" in
    let? title := clone_optional_attribute attrs "Title" in
    let? creation_date := clone_optional_attribute attrs "CreationDate" in
    let header := {|
      raw_xml := raw_xml; tag_name := tag_name; attributes := attrs;
      generated_by_engine_version := generated; required_engine_version := required;
      encoding_label := encoding_label; format := format;
      key_case_sensitive := key_case_sensitive; strip_key := strip_key; encrypted := encrypted;
      register_by := register_by; reg_code := reg_code; description := description;
      title := title; creation_date := creation_date |} in
    let? xml_len := checked_u64 xml_len "header XML length" in
    let? offset := ok_or (value ← checked_add 4 xml_len; checked_add value 4)
                     (InvalidFormat "header section offset overflow") in
    Ok {| hs_header := header; keyword_section_offset := offset;
          hs_retained_bytes := retained_bytes;
          hs_section := {| sr_offset := 0; sr_len := offset |} |}.

(** [header_memory_estimate] *)
Definition header_memory_estimate (xml_len : Z) (lim : Limits) : Result Z :=
  let possible_attributes := Z.min (header_attributes lim) (saturating_add (xml_len / 4) 1) in
  ok_or (bytes ← checked_mul xml_len 8;
         attributes ← checked_mul possible_attributes size_of_string_pair;
         bytes ← checked_add bytes attributes;
         checked_add bytes size_of_header)
    (InvalidFormat "header memory estimate overflow").

End HeaderText.

Section ParseHeader.

Context `{Env} {S : Type} `{HasWorld S}.

(** The two reads of [parse_header_bytes_with_limits] behind the length. *)
Definition read_header_fields (xml_len : Z) : M Cursor (bytes * Z) :=
  let! xml_bytes := read_bytes xml_len "header xml" in
  let! expected := read_u32_le "header checksum" in
  mret (xml_bytes, expected).

(** [parse_header_bytes_with_limits] behind its reservation: the length has
    been read, the cursor stands at the XML. *)
Definition parse_header_xml (kind : ContainerKind) (xml_len : Z) (lim : Limits)
    (policy : ChecksumPolicy) (retained_bytes : Z) (cursor : Cursor) : Result HeaderSection :=
  let? '(xml_bytes, expected) := fst (read_header_fields xml_len cursor) in
  (if is_verify policy then verify_adler32 "header xml" xml_bytes expected else Ok tt) ;;?
  let? decoded_xml := decode EncUtf16Le xml_bytes "header xml" in
  let? raw_xml := clone_header_text (trim (trim_matches (Z.eqb 0) decoded_xml)) "header XML" in
  let? '(tag_name, attrs) := parse_single_tag raw_xml lim in
  build_header_section kind xml_len raw_xml tag_name attrs retained_bytes.

(** The length field and its checks, shared by both parsers. *)
Definition header_xml_len (xml_len : Z) (lim : Limits) : Result unit :=
  ensure_u64_limit "header_xml_bytes" xml_len (header_xml_bytes lim) ;;?
  if negb (xml_len mod 2 =? 0)
  then Err (InvalidFormat "header XML length is not UTF-16LE aligned")
  else Ok tt.

(** [parse_header_bytes_with_limits] *)
Definition parse_header_bytes_with_limits (input : bytes) (kind : ContainerKind) (lim : Limits)
    (policy : ChecksumPolicy) : M S HeaderSection :=
  let '(r, cursor) := read_u32_be "header length" (cursor_new input) in
  let! xml_len := lift r in
  let! _ := lift (header_xml_len xml_len lim) in
  let! xml_len := lift (checked_usize xml_len "header XML length") in
  let! retained_bytes := lift (header_memory_estimate xml_len lim) in
  scoped retained_bytes "parsed header"
    (lift (parse_header_xml kind xml_len lim policy retained_bytes cursor)).

(** [parse_header] *)
Definition parse_header (source : FileSource) (kind : ContainerKind) (lim : Limits)
    (policy : ChecksumPolicy) : M S HeaderSection :=
  scoped 4 "header length read" (
    let! len_bytes := read_exact_at source 0 4 "header length" in
    let! xml_len := lift (with_cursor len_bytes (read_u32_be "header length")) in
    let! _ := lift (header_xml_len xml_len lim) in
    let! total_len := lift (ok_or (value ← checked_add 4 xml_len; checked_add value 4)
                              (InvalidFormat "header size overflow")) in
    let! _ := lift (ensure_range source 0 total_len "header section") in
    let! total_len := lift (checked_usize total_len "header section length") in
    scoped total_len "header section read" (
      let! input := read_exact_at source 0 total_len "header section" in
      parse_header_bytes_with_limits input kind lim policy)).

End ParseHeader.

(** * Writing a tag *)

(** The XML escape of one byte. *)
Definition escape_byte (b : Z) : text :=
  if b =? 38 then lit "&amp;"
  else if b =? 60 then lit "&lt;"
  else if b =? 62 then lit "&gt;"
  else if b =? 34 then lit "&quot;"
  else if b =? 39 then lit "&apos;"
  else [b].

Definition escape_xml (v : text) : text := concat (map escape_byte v).

Definition render_attribute (p : text * text) : text :=
  [32] ++ fst p ++ [61; 34] ++ escape_xml (snd p) ++ [34].

(** A self-closing tag with escaped attribute values. *)
Definition render_tag (name : text) (attrs : list (text * text)) : text :=
  [60] ++ name ++ concat (map render_attribute attrs) ++ [47; 62].

(** Names the grammar of the header can express. *)
Definition tag_name_ok (name : text) : Prop :=
  text_ok name /\ name <> [] /\
  Forall (fun b => negb (is_ascii_whitespace b) && negb (b =? 47) && negb (b =? 62) = true) name.

Definition attribute_name_ok (name : text) : Prop :=
  text_ok name /\ (exists b rest, name = b :: rest /\ b <> 47) /\
  Forall (fun b => negb (is_ascii_whitespace b) && negb (b =? 61) && negb (b =? 62) = true) name.

(** A whole header section: length, UTF-16LE XML, checksum. *)
Definition encode_header (xml : text) : bytes :=
  let body := utf16_bytes (utf16_encode (chars xml)) in
  be_split 4 (zlen body) ++ body ++ le_split 4 (adler32 body).

Definition sample_header : bytes :=
  encode_header (render_tag (lit "Dictionary")
    [(lit "GeneratedByEngineVersion", lit "2.0"); (lit "Encoding", lit "UTF-8");
     (lit "Title", lit "A & B <c>")]).

(** * Invariant *)

(** A parsed header: every text is valid, the names of the attributes are
    distinct and as many as the limit allows, the flags have two bits. *)
Definition header_ok (lim : Limits) (h : Header) : Prop :=
  text_ok (raw_xml h) /\ text_ok (tag_name h) /\
  Forall (fun p => text_ok (fst p) /\ text_ok (snd p)) (attributes h) /\
  NoDup (map fst (attributes h)) /\ zlen (attributes h) <= header_attributes lim /\
  text_ok (generated_by_engine_version h) /\ text_ok (required_engine_version h) /\
  0 <= encrypted h <= 3.

Definition header_section_ok (lim : Limits) (hs : HeaderSection) : Prop :=
  header_ok lim (hs_header hs) /\
  hs_section hs = {| sr_offset := 0; sr_len := keyword_section_offset hs |} /\
  8 <= keyword_section_offset hs <= u64_max /\ is_u64 (hs_retained_bytes hs).

(** * Lemmas *)

Lemma digit_value_bound radix b d : digit_value radix b = Some d -> 0 <= d < radix.
Proof.
  unfold digit_value, is_ascii_digit. intros (v & Hv & Hd)%bind_Some.
  assert (0 <= v) by (repeat case_match; zbool; simplify_eq; lia).
  destruct (Z.ltb_spec v radix); [|done]. simplify_eq. lia.
Qed.

Lemma parse_digits_bound radix max acc t v :
  0 <= radix -> 0 <= acc <= max -> parse_digits radix max acc t = Some v -> 0 <= v <= max.
Proof.
  intros Hr. revert acc; induction t as [|b t IH]; intros acc Hacc; simpl; [by intros [= <-]|].
  intros (d & Hd%digit_value_bound & Hp)%bind_Some.
  destruct (Z.leb_spec (acc * radix + d) max); [|done]. apply IH in Hp; [done|nia].
Qed.

Lemma parse_unsigned_bound radix max t v :
  0 <= radix -> 0 <= max -> parse_unsigned radix max t = Some v -> 0 <= v <= max.
Proof.
  intros ? ? Hp. unfold parse_unsigned in Hp. repeat case_match; try done;
    refine (parse_digits_bound radix max 0 _ _ _ _ Hp); lia.
Qed.

Section Boundaries.

(** Skipping ASCII bytes stays at a character boundary. *)
Lemma skip_while_boundary p t i :
  text_ok t -> is_char_boundary t i = true -> (forall b, p b = true -> 0 <= b < 128) ->
  is_char_boundary t (skip_while p t i) = true.
Proof.
  intros Ht Hi Hp. destruct (boundary_start _ _ Ht Hi) as [Hb _]. unfold skip_while.
  remember (drop (Z.to_nat i) t) as l eqn:El. revert i Hi Hb El.
  induction l as [|b l IH]; intros i Hi Hb El; simpl; [by rewrite Z.add_0_r|].
  destruct (p b) eqn:E; [|by rewrite Z.add_0_r].
  assert (t !! Z.to_nat i = Some b) as Hlk.
  { rewrite <- (Nat.add_0_r (Z.to_nat i)), <- lookup_drop, <- El. done. }
  rewrite Z.add_assoc. pose proof (lookup_lt_Some _ _ _ Hlk).
  apply IH; [|lia|].
  - apply (boundary_next t i b Ht); [|by apply Hp].
    unfold get_at. by rewrite (proj2 (Z.leb_le 0 i)) by lia.
  - replace (Z.to_nat (i + 1)) with (S (Z.to_nat i)) by lia.
    rewrite (drop_S _ _ _ Hlk) in El. by injection El.
Qed.

Lemma skip_whitespace_boundary t i :
  text_ok t -> is_char_boundary t i = true ->
  is_char_boundary t (skip_ascii_whitespace t i) = true /\
  i <= skip_ascii_whitespace t i <= zlen t.
Proof.
  intros Ht Hi. destruct (boundary_start _ _ Ht Hi) as [Hb _]. split.
  - apply skip_while_boundary; [done..|]. unfold is_ascii_whitespace. intros b Hb'.
    rewrite !orb_true_iff, !Z.eqb_eq in Hb'. lia.
  - by apply skip_while_stop.
Qed.

(** A scan that can only stop at ASCII bytes stops at a character boundary. *)
Lemma scan_boundary p t i :
  text_ok t -> is_char_boundary t i = true -> (forall b, p b = false -> 0 <= b < 128) ->
  is_char_boundary t (skip_while p t i) = true /\ i <= skip_while p t i <= zlen t.
Proof.
  intros Ht Hi Hp. destruct (boundary_start _ _ Ht Hi) as [Hb _].
  destruct (skip_while_stop p t i Hb) as [? [->|(b & Hg & Hf)]]; split; try lia.
  - apply boundary_end.
  - eapply boundary_ascii; [done|]. apply Hp in Hf. lia.
Qed.

End Boundaries.

Section HeaderProofs.

Context `{Env}.

Lemma wp_entity_char entity (Q : Z -> Prop) :
  (forall c, is_scalar c = true -> Q c) -> wp (entity_char entity) Q.
Proof.
  intros HQ. unfold entity_char. wp_steps; try by apply HQ.
  all: apply HQ; unfold char_from_u32 in *; by destruct (is_scalar a) eqn:E; simplify_eq.
Qed.

Lemma wp_unescape_loop fuel output remaining :
  (length remaining < fuel)%nat -> text_ok output -> text_ok remaining ->
  wp (unescape_loop fuel output remaining) text_ok.
Proof.
  revert output remaining; induction fuel as [|fuel IH]; intros output remaining Hf Ho Hr; [lia|].
  cbn [unescape_loop].
  destruct (split_at_byte 38 remaining) as [[before after]|] eqn:E; [|by apply text_ok_app].
  pose proof (split_at_byte_text 38 _ _ _ ltac:(lia) Hr E) as [Hb Ha].
  apply split_at_byte_Some in E as ->.
  wp_steps. destruct a as [entity remaining].
  match goal with E : split_at_byte 59 _ = _ |- _ => rename E into E2 end.
  pose proof (split_at_byte_text 59 _ _ _ ltac:(lia) Ha E2) as [_ Hr2].
  apply split_at_byte_Some in E2 as ->.
  wp_steps. apply wp_entity_char; intros c Hc.
  apply IH; [|apply text_ok_app; [by apply text_ok_app|]|done].
  - rewrite !length_app in Hf. simpl in Hf. rewrite length_app in Hf. simpl in Hf. lia.
  - exists [c]. rewrite <- (app_nil_r (utf8_encode_char c)). by rewrite utf8_decode_encode_char.
Qed.

Lemma wp_unescape_xml value : text_ok value -> wp (unescape_xml value) text_ok.
Proof. intros ?. unfold unescape_xml. wp_steps. apply wp_unescape_loop; [lia|apply text_ok_nil|done]. Qed.

Lemma byte_is_true o b : byte_is o b = true <-> o = Some b.
Proof. apply bool_decide_eq_true. Qed.

Lemma wp_parse_quoted_value xml index :
  text_ok xml -> is_char_boundary xml index = true ->
  wp (parse_quoted_value xml index) (fun '(value, index') =>
    text_ok value /\ is_char_boundary xml index' = true /\ index < index').
Proof.
  intros Ht Hi. unfold parse_quoted_value. apply wp_bind.
  apply (wp_mono _ (fun quote => get_at xml index = Some quote /\ (quote = 34 \/ quote = 39))).
  { wp_steps; rewrite !byte_is_true in *; auto. }
  intros quote [Hq Hquote]. cbv zeta.
  pose proof (boundary_next _ _ _ Ht Hq ltac:(lia)) as Hi'.
  destruct (scan_boundary (fun b => negb (b =? quote)) xml (index + 1) Ht Hi') as [Hj ?].
  { intros b Hb. zbool. lia. }
  destruct (skip_while_stop (fun b => negb (b =? quote)) xml (index + 1)) as [_ Hstop].
  { apply (boundary_start _ _ Ht Hi'). }
  set (j := skip_while _ xml (index + 1)) in *. clearbody j.
  wp_steps. zbool. eapply wp_mono; [apply wp_str_slice; [done..|lia]|]. intros value [Hv _].
  wp_steps. eapply wp_mono; [by apply wp_unescape_xml|]. intros value' Hv'. wp_steps.
  destruct Hstop as [?|(b & Hb & Hbq)]; [lia|]. zbool. subst b.
  split_and!; [done|eapply boundary_next; [done..|lia]|lia].
Qed.

(** One attribute is read without a panic and moves the index forward. *)
Lemma wp_parse_attribute xml attrs index :
  text_ok xml -> is_char_boundary xml index = true ->
  wp (parse_attribute xml attrs index) (fun '((name, value), index') =>
    text_ok name /\ text_ok value /\ name ∉ map fst attrs /\
    is_char_boundary xml index' = true /\ index < index').
Proof.
  intros Ht Hi. unfold parse_attribute.
  destruct (scan_boundary (fun b => negb (is_ascii_whitespace b) && negb (b =? 61) && negb (b =? 62))
              xml index Ht Hi) as [Hj Hij].
  { intros b Hb. rewrite !andb_false_iff, !negb_false_iff in Hb.
    unfold is_ascii_whitespace in Hb. rewrite !orb_true_iff, !Z.eqb_eq in Hb. lia. }
  set (j := skip_while _ xml index) in *. clearbody j.
  wp_steps. eapply wp_mono; [apply wp_str_slice; [done..|lia]|]. intros name [Hname _].
  unfold clone_header_text. wp_steps. zbool. rewrite byte_is_true in *.
  destruct (skip_whitespace_boundary xml j Ht Hj) as [_ ?].
  set (j1 := skip_ascii_whitespace xml j) in *. clearbody j1.
  match goal with E : get_at _ _ = Some 61 |- _ =>
    pose proof (boundary_next _ _ _ Ht E ltac:(lia)) as Hj1 end.
  destruct (skip_whitespace_boundary xml (j1 + 1) Ht Hj1) as [Hj2 ?].
  eapply wp_mono; [by apply wp_parse_quoted_value|]. intros [value j3] (? & ? & ?).
  wp_steps. split_and!; [done..| |done|lia].
  match goal with E : existsb _ _ = false |- _ => rename E into Hex end.
  intros (p & Hp & Hin)%list_elem_of_fmap. apply not_true_iff_false in Hex. apply Hex.
  apply existsb_exists. exists p. split; [by apply list_elem_of_In|]. by apply bytes_eqb_true.
Qed.

Definition attributes_ok (lim : Limits) (attrs : list (text * text)) : Prop :=
  Forall (fun p => text_ok (fst p) /\ text_ok (snd p)) attrs /\
  NoDup (map fst attrs) /\ zlen attrs <= header_attributes lim.

Lemma attributes_ok_snoc lim attrs name value :
  attributes_ok lim attrs -> zlen attrs < header_attributes lim ->
  text_ok name -> text_ok value -> name ∉ map fst attrs ->
  attributes_ok lim (attrs ++ [(name, value)]).
Proof.
  intros (Ha & Hn & Hl) ? ? ? Hin. unfold attributes_ok. rewrite map_app, length_app. simpl.
  split_and!; [|apply NoDup_app; split_and!|lia].
  - apply Forall_app; split; [done|]. by repeat constructor.
  - done.
  - intros x Hx Hy. apply list_elem_of_singleton in Hy as ->. done.
  - apply NoDup_singleton.
Qed.

Lemma wp_parse_attributes fuel xml lim attrs index :
  text_ok xml -> is_char_boundary xml index = true -> zlen xml - index < Z.of_nat fuel ->
  attributes_ok lim attrs ->
  wp (parse_attributes fuel xml lim attrs index) (fun '(attrs, _, _) => attributes_ok lim attrs).
Proof.
  intros Ht. revert attrs index; induction fuel as [|fuel IH]; intros attrs index Hi Hf Ha;
    destruct (boundary_start _ _ Ht Hi) as [? _]; [lia|].
  cbn [parse_attributes]. destruct (skip_whitespace_boundary xml index Ht Hi) as [Hj ?].
  set (j := skip_ascii_whitespace xml index) in *. clearbody j.
  wp_steps. zbool. apply wp_or_panic; [apply get_at_is_Some; lia|]. intros b Hb.
  wp_steps; try done. eapply wp_mono; [by apply wp_parse_attribute|].
  intros [[name value] index'] (? & ? & ? & ? & ?). zbool.
  apply IH; [done|lia|]. by apply attributes_ok_snoc.
Qed.

Lemma wp_parse_closing xml tag closing index : wp (parse_closing xml tag closing index) (fun _ => True).
Proof. unfold parse_closing. by wp_steps. Qed.

Lemma wp_parse_single_tag xml lim :
  text_ok xml -> 0 <= header_attributes lim ->
  wp (parse_single_tag xml lim) (fun '(tag, attrs) => text_ok tag /\ attributes_ok lim attrs).
Proof.
  intros Ht Hl. unfold parse_single_tag. wp_steps. zbool.
  match goal with E : starts_with _ _ = true |- _ => apply starts_with_spec in E as [xml' Hxml] end.
  assert (is_char_boundary xml 1 = true) as Hb1.
  { apply (boundary_next xml 0 60 Ht); [by subst xml|lia]. }
  destruct (scan_boundary (fun b => negb (is_ascii_whitespace b) && negb (b =? 47) && negb (b =? 62))
              xml 1 Ht Hb1) as [Hj ?].
  { intros b Hb. rewrite !andb_false_iff, !negb_false_iff in Hb.
    unfold is_ascii_whitespace in Hb. rewrite !orb_true_iff, !Z.eqb_eq in Hb. lia. }
  set (j := skip_while _ xml 1) in *. clearbody j.
  eapply wp_mono; [apply wp_str_slice; [done..|lia]|]. intros tag [Htag _].
  unfold clone_header_text. wp_steps.
  eapply wp_mono; [apply (wp_parse_attributes _ xml lim); [done..|lia|]|].
  { split_and!; [constructor|constructor|simpl; lia]. }
  intros [[attrs closing] index] Ha. wp_steps.
  eapply wp_mono; [apply wp_parse_closing|]. intros _ _. by wp_steps.
Qed.

Lemma wp_known_attribute_loop found attrs name :
  (forall v, found = Some v -> text_ok v) ->
  Forall (fun p => text_ok (fst p) /\ text_ok (snd p)) attrs ->
  wp (known_attribute_loop found attrs name) (fun o => forall v, o = Some v -> text_ok v).
Proof.
  intros Hf Ha; revert found Hf; induction Ha as [|[n v] attrs [_ Hv] _ IH]; intros found Hf;
    cbn [known_attribute_loop]; wp_steps; [done|by apply IH|].
  apply IH. by intros ? [= <-].
Qed.

Lemma wp_known_attribute lim attrs name :
  attributes_ok lim attrs ->
  wp (known_attribute attrs name) (fun o => forall v, o = Some v -> text_ok v).
Proof. intros [? _]. by apply wp_known_attribute_loop. Qed.

Lemma wp_clone_optional_attribute attrs name (Q : option text -> Prop) :
  (forall o, Q o) -> wp (clone_optional_attribute attrs name) Q.
Proof.
  intros HQ. unfold clone_optional_attribute. apply wp_bind. apply (wp_mono _ (fun _ => True)).
  - unfold known_attribute. generalize (@None text). induction attrs as [|[n v] attrs IH];
      intros found; simpl; wp_steps; auto.
  - intros [[|b v]|] _; unfold clone_header_text; wp_steps; apply HQ.
Qed.

Lemma wp_parse_known_loop {A} `{EqDecision A} (parse : text -> Result A) (P : A -> Prop) found attrs
    name :
  (forall v, wp (parse v) P) -> (forall a, found = Some a -> P a) ->
  wp (parse_known_loop parse found attrs name) (fun o => forall a, o = Some a -> P a).
Proof.
  intros Hp; revert found; induction attrs as [|[n v] attrs IH]; intros found Hf;
    cbn [parse_known_loop]; wp_steps; [done|by apply IH|].
  eapply wp_mono; [apply Hp|]. intros a Ha. wp_steps. apply IH. by intros ? [= <-].
Qed.

Lemma wp_parse_known_bool attrs name dflt (Q : bool -> Prop) :
  (forall b, Q b) -> wp (parse_known_bool attrs name dflt) Q.
Proof.
  intros HQ. unfold parse_known_bool. wp_steps.
  eapply wp_mono; [apply (wp_parse_known_loop _ (fun _ => True)); [|done]|].
  - intros v. unfold parse_bool_value. by wp_steps.
  - intros o _. apply HQ.
Qed.

Lemma encryption_bits bits :
  0 <= bits <= 255 -> Z.land bits (Z.lxor 255 3) = 0 -> 0 <= bits <= 3.
Proof.
  intros Hb Hl.
  pose proof (check_below 256 (fun bits => negb (Z.land bits (Z.lxor 255 3) =? 0) || (bits <=? 3))
    ltac:(by vm_compute) bits ltac:(lia)) as H0. cbv beta in H0. rewrite Hl in H0. simpl in H0.
  zbool. lia.
Qed.

Lemma wp_parse_encryption_value v : wp (parse_encryption_value v) (fun bits => 0 <= bits <= 3).
Proof.
  unfold parse_encryption_value. apply wp_bind. apply (wp_mono _ (fun bits => 0 <= bits <= 255)).
  - wp_steps; [lia|lia|]. match goal with E : parse_unsigned _ _ _ = Some _ |- _ =>
      apply parse_unsigned_bound in E; unfold u8_max in *; lia end.
  - intros bits Hb. wp_steps. zbool. by apply encryption_bits.
Qed.

Lemma wp_parse_known_encryption attrs : wp (parse_known_encryption attrs) (fun bits => 0 <= bits <= 3).
Proof.
  unfold parse_known_encryption. wp_steps.
  eapply wp_mono; [apply (wp_parse_known_loop _ (fun bits => 0 <= bits <= 3));
    [apply wp_parse_encryption_value|done]|].
  intros [bits|] Hb; simpl; [by apply Hb|lia].
Qed.

Lemma wp_build_header_section kind xml_len raw tag attrs retained lim :
  0 <= xml_len -> is_u64 retained -> text_ok raw -> text_ok tag -> attributes_ok lim attrs ->
  wp (build_header_section kind xml_len raw tag attrs retained) (fun hs =>
    header_section_ok lim hs /\ keyword_section_offset hs = 8 + xml_len /\
    hs_retained_bytes hs = retained).
Proof.
  intros Hx Hr Hraw Htag Ha. unfold build_header_section, clone_header_text. wp_steps.
  eapply wp_mono; [by eapply wp_known_attribute|]. intros generated Hg. wp_steps.
  eapply wp_mono; [by eapply wp_known_attribute|]. intros required Hreq. wp_steps.
  apply (wp_mono _ text_ok).
  { destruct required as [v|]; wp_steps; [by apply Hreq|by apply Hg]. }
  intros required' Hreq'. wp_steps.
  eapply wp_mono; [apply wp_parse_known_encryption|]. intros bits Hbits. wp_steps.
  repeat first [apply wp_clone_optional_attribute; intros ?; wp_steps
               |apply wp_parse_known_bool; intros ?; wp_steps].
  match goal with E : (_ ≫= _) = Some _ |- _ => apply bind_Some in E as (n & E1 & E2) end.
  rinv. destruct Ha as (? & ? & ?). unfold header_section_ok, header_ok. simpl in *.
  split_and!; try done; try lia; by apply Hg.
Qed.

Lemma wp_header_memory_estimate xml_len lim (Q : Z -> Prop) :
  0 <= xml_len -> 0 <= header_attributes lim -> (forall n, is_u64 n -> Q n) ->
  wp (header_memory_estimate xml_len lim) Q.
Proof.
  intros Hx Hl HQ. unfold header_memory_estimate, saturating_add. wp_steps.
  match goal with E : (_ ≫= _) = Some _ |- _ => apply bind_Some in E as (n1 & E1 & E2) end.
  apply bind_Some in E2 as (n2 & E2 & E3). apply bind_Some in E3 as (n3 & E3 & E4).
  pose proof (Z.div_pos xml_len 4).
  rinv. apply HQ. unfold is_u64, size_of_header, size_of_string_pair in *. lia.
Qed.

End HeaderProofs.

Section ParseHeaderProofs.

Context `{EnvOk} {S : Type} `{HasWorld S}.

Lemma wp_header_xml_len xml_len lim (Q : unit -> Prop) :
  (xml_len <= header_xml_bytes lim -> xml_len mod 2 = 0 -> Q tt) -> wp (header_xml_len xml_len lim) Q.
Proof. intros HQ. unfold header_xml_len. wp_steps. zbool. auto. Qed.

Lemma wp_read_header_fields xml_len cursor :
  cursor_ok cursor -> 0 <= xml_len ->
  wp (fst (read_header_fields xml_len cursor)) (fun p =>
    bytes_ok (fst p) /\ c_offset cursor + xml_len + 4 <= zlen (c_bytes cursor)).
Proof.
  intros Hc Hx. apply (wp_fst (read_header_fields xml_len)), wpM_bind, wp_read_bytes; [done..|].
  intros xml c' _ _ Hxml Hc' [E1 E2]. apply wpM_bind, wp_read_u32_le; [done|].
  intros v c'' _ Hc'' [E3 E4]. apply wpM_ret. split; [done|].
  destruct Hc'' as [[_ ?] _]. rewrite E4, E3, E2, E1 in *. lia.
Qed.

Lemma wp_parse_header_xml kind xml_len lim policy retained cursor :
  cursor_ok cursor -> 0 <= xml_len -> 0 <= header_attributes lim -> is_u64 retained ->
  wp (parse_header_xml kind xml_len lim policy retained cursor) (fun hs =>
    header_section_ok lim hs /\ keyword_section_offset hs = 8 + xml_len /\
    c_offset cursor + xml_len + 4 <= zlen (c_bytes cursor)).
Proof.
  intros Hc Hx Hl Hr. unfold parse_header_xml. apply wp_bind.
  eapply wp_mono; [by apply wp_read_header_fields|]. intros [xml expected] [Hxml Hend].
  simpl in Hxml. apply wp_bind. apply (wp_mono _ (fun _ => True)).
  { wp_steps; [by apply wp_verify_adler32|exact I]. }
  intros _ _. wp_steps. eapply wp_mono; [by apply wp_decode|]. intros decoded _.
  unfold clone_header_text. wp_steps.
  eapply wp_mono; [apply (wp_parse_single_tag _ lim); [apply trim_matches_ok|done]|].
  intros [tag attrs] [Htag Ha].
  eapply wp_mono; [apply wp_build_header_section; try done; apply trim_matches_ok|].
  intros hs (? & ? & _). done.
Qed.

Lemma budgeted_parse_header_bytes input kind lim policy :
  bytes_ok input -> 0 <= header_attributes lim ->
  budgeted (parse_header_bytes_with_limits (S:=S) input kind lim policy)
    (fun hs => header_section_ok lim hs /\ keyword_section_offset hs <= zlen input)
    (fun _ => 0).
Proof.
  intros Hin Hl. unfold parse_header_bytes_with_limits.
  assert (wpM (read_u32_be "header length") (cursor_new input)
    (fun v c => is_u32 v /\ cursor_ok c /\ advanced (cursor_new input) c 4) (fun _ _ => True)) as W.
  { apply wp_read_u32_be; [by apply cursor_new_ok|done]. }
  unfold wpM in W. destruct (read_u32_be _ _) as [r cursor].
  eapply (budgeted_bind _ _ (fun v => is_u32 v /\ cursor_ok cursor /\
                                      advanced (cursor_new input) cursor 4)).
  { apply budgeted_lift. by destruct r. }
  intros xml_len ([? ?] & Hc & [E1 E2]).
  eapply budgeted_bind; [apply budgeted_lift, (wp_header_xml_len _ _ (fun _ => True)); auto|].
  intros _ _.
  eapply budgeted_bind;
    [apply budgeted_lift, (wp_checked_usize _ _ (fun n => n = xml_len)); auto|]. intros ? ->.
  eapply budgeted_bind;
    [apply budgeted_lift, (wp_header_memory_estimate _ _ is_u64); auto|]. intros retained Hr.
  apply budgeted_scoped; [apply Hr|done|]. apply budgeted_lift.
  eapply wp_mono; [by apply wp_parse_header_xml|]. intros hs (Hhs & Hoff & Hend).
  split; [done|]. rewrite E1, E2 in Hend. simpl in Hend. lia.
Qed.

Lemma budgeted_parse_header source kind lim policy :
  source_ok source -> 0 <= header_attributes lim ->
  budgeted (parse_header (S:=S) source kind lim policy)
    (fun hs => header_section_ok lim hs /\ keyword_section_offset hs <= fs_len source)
    (fun _ => 0).
Proof.
  intros Hs Hl. unfold parse_header. apply budgeted_scoped; [lia|done|].
  eapply budgeted_bind; [by apply budgeted_read_exact_at|]. intros len_bytes (_ & Hlb & _).
  eapply (budgeted_bind _ _ is_u32).
  { apply budgeted_lift, wp_with_cursor, wp_read_u32_be; [by apply cursor_new_ok|done]. }
  intros xml_len [? _].
  eapply budgeted_bind; [apply budgeted_lift, (wp_header_xml_len _ _ (fun _ => True)); auto|].
  intros _ _. eapply (budgeted_bind _ _ (fun n => n = 8 + xml_len)).
  { apply budgeted_lift, wp_ok_or. intros n (m & E1 & E2)%bind_Some. rinv. lia. }
  intros ? ->.
  eapply budgeted_bind; [apply budgeted_lift, (wp_ensure_range _ _ _ _ (fun _ =>
    8 + xml_len <= fs_len source)); auto; lia|]. intros ? Hlen.
  eapply budgeted_bind;
    [apply budgeted_lift, (wp_checked_usize _ _ (fun n => n = 8 + xml_len)); auto|]. intros ? ->.
  apply budgeted_scoped; [lia|done|].
  eapply budgeted_bind; [apply budgeted_read_exact_at; [done|lia..]|]. intros input (Hil & Hio & _).
  eapply budgeted_mono; [by apply budgeted_parse_header_bytes| |done].
  intros hs [? ?]. split; [done|]. cbv beta in *; lia.
Qed.

End ParseHeaderProofs.

Section RoundTrip.

Context `{Env} (alloc_ok : forall context n, allocator context n = true).

Lemma try_reserve_string_granted n context :
  0 <= n <= isize_max -> try_reserve_string 0 n context = Ok tt.
Proof.
  intros ?. unfold try_reserve_string, reserve_bytes, checked_add, try_u64, or_u64_max.
  assert (isize_max <= u64_max) by done.
  rewrite Z.add_0_l, (proj2 (Z.leb_le n u64_max)) by lia. simpl.
  rewrite (proj2 (Z.leb_le n u64_max)) by lia. simpl.
  rewrite (proj2 (Z.leb_le n isize_max)) by lia. by rewrite alloc_ok, orb_true_r.
Qed.

Lemma clone_granted v context : zlen v <= isize_max -> try_clone_string v context = Ok v.
Proof. intros ?. unfold try_clone_string. rewrite try_reserve_string_granted; [done|lia]. Qed.

Lemma boundary_app a b : text_ok b -> is_char_boundary (a ++ b) (zlen a) = true.
Proof.
  intros Hb. unfold is_char_boundary. destruct b as [|x b].
  { by rewrite app_nil_r, Z.eqb_refl, orb_true_r. }
  unfold get_at. rewrite (proj2 (Z.leb_le 0 _)), Nat2Z.id, list_lookup_middle by (done || lia).
  by rewrite (text_ok_head _ _ Hb), orb_true_r.
Qed.

Lemma str_slice_mid a m b :
  text_ok m -> text_ok b ->
  str_slice (a ++ m ++ b) (zlen a) (zlen a + zlen m) = Ok m.
Proof.
  intros Hm Hb. unfold str_slice. rewrite boundary_app by by apply text_ok_app.
  replace (is_char_boundary (a ++ m ++ b) (zlen a + zlen m)) with true.
  - simpl. by rewrite slice_app_mid.
  - symmetry. rewrite app_assoc, <- Nat2Z.inj_add, <- length_app. by apply boundary_app.
Qed.

Lemma unescape_loop_push fuel out b r :
  b <> 38 -> unescape_loop fuel out (b :: r) = unescape_loop fuel (out ++ [b]) r.
Proof.
  intros Hb. destruct fuel as [|fuel]; [done|]. cbn [unescape_loop split_at_byte].
  rewrite (proj2 (Z.eqb_neq b 38)) by done.
  destruct (split_at_byte 38 r) as [[before after]|].
  - by rewrite <- app_assoc.
  - by rewrite <- app_assoc.
Qed.

Lemma unescape_loop_entity fuel out entity c r :
  59 ∉ entity -> entity_char entity = Ok c ->
  unescape_loop (S fuel) out (38 :: entity ++ 59 :: r) =
  unescape_loop fuel (out ++ utf8_encode_char c) r.
Proof.
  intros Hin Hc. cbn [unescape_loop].
  pose proof (split_at_byte_app 38 [] (entity ++ 59 :: r) ltac:(set_solver)) as E.
  cbn [app] in E. rewrite E, split_at_byte_app by done.
  cbn [ok_or rbind]. rewrite Hc. cbn [rbind]. by rewrite app_nil_r.
Qed.

Lemma unescape_loop_escape fuel out v :
  (length (escape_xml v) < fuel)%nat -> unescape_loop fuel out (escape_xml v) = Ok (out ++ v).
Proof.
  revert fuel out; induction v as [|b v IH]; intros fuel out Hf.
  { destruct fuel; [simpl in Hf; lia|]. done. }
  change (escape_xml (b :: v)) with (escape_byte b ++ escape_xml v) in *.
  assert (forall entity, escape_byte b = 38 :: entity ++ [59] -> 59 ∉ entity ->
    entity_char entity = Ok b -> utf8_encode_char b = [b] ->
    unescape_loop fuel out (escape_byte b ++ escape_xml v) = Ok (out ++ b :: v)) as Hent.
  { intros entity E Hin Hc Hu. rewrite E in *. destruct fuel as [|fuel]; [simpl in Hf; lia|].
    cbn [app]. rewrite <- app_assoc. cbn [app]. rewrite (unescape_loop_entity _ _ _ b) by done.
    rewrite Hu, IH; [by rewrite <- app_assoc|].
    cbn [app length] in Hf. rewrite !length_app in Hf. simpl in Hf. lia. }
  unfold escape_byte in *.
  destruct (Z.eqb_spec b 38) as [->|]; [by apply (Hent (lit "amp")); [|compute; set_solver|..]|].
  destruct (Z.eqb_spec b 60) as [->|]; [by apply (Hent (lit "lt")); [|compute; set_solver|..]|].
  destruct (Z.eqb_spec b 62) as [->|]; [by apply (Hent (lit "gt")); [|compute; set_solver|..]|].
  destruct (Z.eqb_spec b 34) as [->|]; [by apply (Hent (lit "quot")); [|compute; set_solver|..]|].
  destruct (Z.eqb_spec b 39) as [->|]; [by apply (Hent (lit "apos")); [|compute; set_solver|..]|].
  cbn [app]. rewrite unescape_loop_push, IH; [by rewrite <- app_assoc|cbn [app length] in Hf; lia|done].
Qed.

Lemma unescape_escape v :
  zlen (escape_xml v) <= isize_max -> unescape_xml (escape_xml v) = Ok v.
Proof.
  intros ?. unfold unescape_xml. rewrite try_reserve_string_granted by lia. cbn [rbind].
  by rewrite unescape_loop_escape by lia.
Qed.

(** Reading at the end of a prefix. *)
Lemma get_at_app (a : bytes) b l : get_at (a ++ b :: l) (zlen a) = Some b.
Proof.
  unfold get_at. rewrite (proj2 (Z.leb_le 0 _)) by lia. by rewrite Nat2Z.id, list_lookup_middle.
Qed.

Lemma skip_none p a b l : p b = false -> skip_while p (a ++ b :: l) (zlen a) = zlen a.
Proof.
  intros Hb. pose proof (skip_while_app p a [] (b :: l) (List.Forall_nil _) Hb) as E.
  simpl in E. by rewrite Z.add_0_r in E.
Qed.

Lemma escape_no_quote v : Forall (fun b => negb (b =? 34) = true) (escape_xml v).
Proof.
  induction v as [|b v IH]; [constructor|].
  change (escape_xml (b :: v)) with (escape_byte b ++ escape_xml v). apply Forall_app; split; [|done].
  unfold escape_byte. repeat case_match; repeat constructor. by apply negb_true_iff.
Qed.

Lemma escape_text_ok v : text_ok v -> text_ok (escape_xml v).
Proof.
  intros Hv. rewrite <- (encode_chars v Hv). pose proof (chars_scalar v) as Hc.
  induction Hc as [|c cs Hc Hcs IH]; [apply text_ok_nil|].
  change (utf8_encode (c :: cs)) with (utf8_encode_char c ++ utf8_encode cs).
  unfold escape_xml in *. rewrite map_app, concat_app. apply text_ok_app; [|done].
  destruct (decide (c < 128)).
  - pose proof (proj1 (is_scalar_true c) Hc). unfold utf8_encode_char.
    rewrite (proj2 (Z.ltb_lt c 128)) by done. cbn [map concat]. rewrite app_nil_r.
    unfold escape_byte. repeat case_match; try (by eexists).
    exists [c]. cbn [utf8_decode]. by rewrite (proj2 (in_range_true 0 127 c)) by lia.
  - replace (concat (map escape_byte (utf8_encode_char c))) with (utf8_encode [c]).
    { apply text_ok_encode. by repeat constructor. }
    cbn [utf8_encode map concat]. rewrite app_nil_r.
    assert (Forall (fun b => 128 <= b) (utf8_encode_char c)) as Hb.
    { apply is_scalar_true in Hc. unfold utf8_encode_char. repeat case_match; zbool; try lia;
        repeat constructor; div_lia. }
    induction Hb as [|b l Hb _ IHb]; [done|]. cbn [map concat]. rewrite <- IHb.
    unfold escape_byte. repeat (rewrite (proj2 (Z.eqb_neq b _)) by lia). done.
Qed.

(** The parser at a rendered attribute. *)
Lemma parse_attribute_rendered pre attrs name value rest :
  attribute_name_ok name -> text_ok value -> text_ok rest ->
  name ∉ map fst attrs -> zlen name <= isize_max -> zlen (escape_xml value) <= isize_max ->
  (zlen attrs + 1) * size_of_string_pair <= isize_max ->
  parse_attribute (pre ++ name ++ [61; 34] ++ escape_xml value ++ [34] ++ rest) attrs (zlen pre) =
    Ok ((name, value), zlen pre + zlen name + 3 + zlen (escape_xml value)).
Proof.
  intros (Hn & (b & name' & Hne & _) & Hf) Hv Hr Hin Hl1 Hl2 Hl3.
  pose proof (escape_text_ok value Hv) as He. unfold parse_attribute.
  rewrite skip_while_app by (done || by compute).
  assert (text_ok ([61; 34] ++ escape_xml value ++ [34] ++ rest)) as Ht.
  { apply text_ok_app; [by eexists|]. apply text_ok_app; [done|].
    apply text_ok_app; [by eexists|done]. }
  destruct (Z.eqb_spec (zlen pre) (zlen pre + zlen name)) as [E|_].
  { rewrite Hne in E. simpl in E. lia. }
  rewrite str_slice_mid by done. cbn [rbind].
  unfold clone_header_text. rewrite clone_granted by done. cbn [rbind].
  replace (existsb (fun p => bytes_eqb (fst p) name) attrs) with false.
  2: { symmetry. apply not_true_iff_false. intros (p & Hp & E)%existsb_exists. apply Hin.
    apply list_elem_of_fmap. exists p. apply bytes_eqb_true in E. split; [done|].
    by apply list_elem_of_In. }
  set (p1 := pre ++ name). set (e := escape_xml value) in *.
  replace (pre ++ name ++ [61; 34] ++ e ++ [34] ++ rest) with (p1 ++ 61 :: 34 :: e ++ [34] ++ rest)
    by (unfold p1; by rewrite <- app_assoc).
  replace (zlen pre + zlen name) with (zlen p1) by (unfold p1; rewrite length_app; lia).
  unfold skip_ascii_whitespace. rewrite skip_none by done.
  rewrite get_at_app. change (byte_is (Some 61) 61) with true. cbn [negb].
  set (p2 := p1 ++ [61]).
  replace (p1 ++ 61 :: 34 :: e ++ [34] ++ rest) with (p2 ++ 34 :: e ++ [34] ++ rest)
    by (unfold p2; by rewrite <- app_assoc).
  replace (zlen p1 + 1) with (zlen p2) by (unfold p2; rewrite length_app; simpl; lia).
  rewrite skip_none by done.
  unfold parse_quoted_value. rewrite get_at_app. change (byte_is (Some 34) 34) with true.
  cbn [rbind]. set (p3 := p2 ++ [34]).
  replace (p2 ++ 34 :: e ++ [34] ++ rest) with (p3 ++ e ++ [34] ++ rest)
    by (unfold p3; by rewrite <- app_assoc).
  replace (zlen p2 + 1) with (zlen p3) by (unfold p3; rewrite length_app; simpl; lia).
  rewrite (skip_while_app (fun b => negb (b =? 34)) p3 e) by (done || apply escape_no_quote).
  rewrite (proj2 (Z.leb_gt _ _)) by (rewrite !length_app; simpl; lia).
  rewrite str_slice_mid; [cbn [rbind]|done|].
  2: { apply text_ok_app; [by eexists|done]. }
  unfold e. rewrite unescape_escape by done. cbn [rbind].
  rewrite try_reserve_vec_Ok; try lia; try done; [|unfold size_of_string_pair in *; lia].
  cbn [rbind]. do 2 f_equal. unfold p3, p2, p1. rewrite !length_app. simpl. lia.
Qed.

Definition renderable (p : text * text) : Prop :=
  attribute_name_ok (fst p) /\ text_ok (snd p) /\
  zlen (fst p) <= isize_max /\ zlen (escape_xml (snd p)) <= isize_max.

Lemma render_text_ok attrs :
  Forall renderable attrs -> text_ok (concat (map render_attribute attrs) ++ [47; 62]).
Proof.
  induction 1 as [|p attrs (Hn & Hv & _) _ IH]; [by eexists|].
  cbn [map concat]. unfold render_attribute at 1. rewrite <- !app_assoc.
  destruct Hn as (? & _). apply text_ok_app; [by eexists|]. apply text_ok_app; [done|].
  apply text_ok_app; [by eexists|]. apply text_ok_app; [by apply escape_text_ok|].
  by apply text_ok_app; [eexists|].
Qed.

Lemma length_render_attribute p :
  zlen (render_attribute p) = 1 + (zlen (fst p) + 3 + zlen (escape_xml (snd p))).
Proof. unfold render_attribute. rewrite !length_app. simpl. lia. Qed.

Lemma parse_attributes_rendered fuel pre lim attrs more :
  Forall renderable more -> NoDup (map fst (attrs ++ more)) ->
  zlen (attrs ++ more) <= header_attributes lim ->
  zlen (attrs ++ more) * size_of_string_pair <= isize_max -> (length more < fuel)%nat ->
  parse_attributes fuel (pre ++ concat (map render_attribute more) ++ [47; 62]) lim attrs (zlen pre) =
    Ok (attrs ++ more, true, zlen pre + zlen (concat (map render_attribute more)) + 1).
Proof.
  intros Hm; revert fuel pre attrs; induction Hm as [|[name value] more Hp Hm IH];
    intros fuel pre attrs Hnd Hcount Hsize Hf; (destruct fuel as [|fuel]; [simpl in Hf; lia|]);
    cbn [parse_attributes map concat app]; unfold skip_ascii_whitespace.
  - rewrite skip_none, length_app by done. rewrite (proj2 (Z.leb_gt _ _)) by (simpl; lia).
    rewrite get_at_app. cbn [or_panic rbind]. change (47 =? 47) with true. cbv iota.
    pose proof (get_at_app (pre ++ [47]) 62 []) as E. rewrite <- app_assoc, length_app in E.
    rewrite Nat2Z.inj_add in E. change (Z.of_nat (length [47])) with 1 in E. cbn [app] in E.
    rewrite E.
    change (byte_is (Some 62) 62) with true. cbv iota. rewrite app_nil_r. do 2 f_equal. simpl. lia.
  - destruct Hp as (Hn & Hv & Hl1 & Hl2). cbn [fst snd] in *.
    destruct (id Hn) as (_ & (b & name' & Hname & Hb47) & Hchars).
    assert (is_ascii_whitespace b = false /\ b <> 62) as [Hws Hb62].
    { rewrite Hname in Hchars. apply Forall_cons in Hchars as [Hchars _]. zbool. done. }
    pose proof (render_text_ok more Hm) as Ht.
    set (R := concat (map render_attribute more) ++ [47; 62]) in *.
    rewrite <- app_assoc. fold R. set (xml := pre ++ render_attribute (name, value) ++ R).
    set (tail := [61; 34] ++ escape_xml value ++ [34] ++ R). set (pre' := pre ++ [32]).
    assert (xml = pre' ++ name ++ tail) as Hxml.
    { unfold xml, pre', tail, render_attribute. cbn [fst snd]. by rewrite <- !app_assoc. }
    assert (skip_while is_ascii_whitespace xml (zlen pre) = zlen pre') as Hskip.
    { rewrite Hxml. unfold pre'. rewrite <- app_assoc, skip_while_app, length_app; [simpl; lia| |].
      - by repeat constructor.
      - by rewrite Hname. }
    rewrite !Hskip, Hxml.
    assert (get_at (pre' ++ name ++ tail) (zlen pre') = Some b) as E
      by (rewrite Hname; apply get_at_app).
    rewrite E. apply get_at_Some in E. rewrite (proj2 (Z.leb_gt _ _)) by lia.
    cbn [or_panic rbind]. rewrite (proj2 (Z.eqb_neq b 47)), (proj2 (Z.eqb_neq b 62)) by done.
    rewrite length_app in Hcount, Hsize. simpl in Hcount, Hsize.
    rewrite (proj2 (Z.leb_gt _ _)) by lia.
    unfold tail. rewrite parse_attribute_rendered; try done; [cbn [rbind]| |unfold size_of_string_pair in *; lia].
    2: { rewrite map_app in Hnd. apply NoDup_app in Hnd as (_ & Hnd & _).
      intros Hin. apply (Hnd name Hin). simpl. by left. }
    set (pre2 := pre ++ render_attribute (name, value)).
    fold tail. rewrite <- Hxml. replace xml with (pre2 ++ R)
      by (unfold xml, pre2; by rewrite <- app_assoc).
    replace (zlen pre' + zlen name + 3 + zlen (escape_xml value)) with (zlen pre2).
    2: { unfold pre2, pre'. rewrite !length_app, !Nat2Z.inj_add, length_render_attribute. simpl. lia. }
    unfold R. rewrite IH.
    + rewrite <- app_assoc. unfold pre2. rewrite !length_app. cbn [app]. do 2 f_equal. lia.
    + by rewrite <- app_assoc.
    + rewrite !length_app. simpl. lia.
    + rewrite !length_app. simpl. lia.
    + simpl in Hf. lia.
Qed.

Lemma parse_single_tag_rendered name attrs lim :
  tag_name_ok name -> Forall renderable attrs -> NoDup (map fst attrs) ->
  zlen attrs <= header_attributes lim -> zlen attrs * size_of_string_pair <= isize_max ->
  zlen name <= isize_max ->
  parse_single_tag (render_tag name attrs) lim = Ok (name, attrs).
Proof.
  intros (Hn & Hne & Hchars) Ha Hnd Hc Hs Hl. unfold parse_single_tag, render_tag.
  pose proof (render_text_ok attrs Ha) as Ht.
  set (R := concat (map render_attribute attrs) ++ [47; 62]) in *.
  change (starts_with ([60] ++ name ++ R) (lit "<")) with true. cbn [negb].
  assert (skip_while (fun b => negb (is_ascii_whitespace b) && negb (b =? 47) && negb (b =? 62))
            ([60] ++ name ++ R) 1 = 1 + zlen name) as Hskip.
  { apply (skip_while_app _ [60]); [done|]. unfold R. destruct attrs as [|p attrs]; [done|].
    cbn [map concat]. unfold render_attribute. by cbn [app]. }
  rewrite !Hskip. destruct (Z.eqb_spec (1 + zlen name) 1) as [E|_].
  { destruct name; [done|simpl in E; lia]. }
  pose proof (str_slice_mid [60] name R Hn Ht) as E. change (zlen [60]) with 1 in E.
  rewrite E. cbn [rbind].
  unfold clone_header_text. rewrite clone_granted by done. cbn [rbind].
  rewrite app_assoc. replace (1 + zlen name) with (zlen ([60] ++ name)) by (simpl; lia).
  unfold R. rewrite parse_attributes_rendered; try done.
  2: { rewrite !length_app. assert (length attrs <= length (concat (map render_attribute attrs)))%nat;
    [|simpl; lia]. clear. induction attrs as [|p attrs IH]; [done|]. cbn [map concat length].
    rewrite length_app. unfold render_attribute at 1. simpl. lia. }
  cbn [rbind app]. unfold parse_closing, skip_ascii_whitespace, skip_while.
  set (body := 60 :: name ++ concat (map render_attribute attrs) ++ [47; 62]).
  replace ((60 :: name) ++ concat (map render_attribute attrs) ++ [47; 62]) with body by done.
  replace (zlen (60 :: name) + zlen (concat (map render_attribute attrs)) + 1 + 1) with (zlen body).
  2: { unfold body. rewrite !app_comm_cons, !length_app. simpl. lia. }
  rewrite Nat2Z.id, drop_all. cbn [count_while]. by rewrite Z.add_0_r, Z.eqb_refl.
Qed.

End RoundTrip.

(** * Properties *)

(** Reading the top-level header of any file, whatever its bytes, and
    however the file changes between the reads, neither panics nor runs out of
    fuel; a failure leaves the memory budget as it was, and a success too,
    with a header whose texts are valid UTF-8, whose attribute names are
    distinct and no more than the limit, whose encryption flags have two bits
    and whose section lies inside the file. *)
Theorem parse_header_total `{EnvOk} source kind lim policy (w : World) :
  source_ok source -> limits_ok lim -> budget_ok (w_budget w) ->
  wpM (parse_header source kind lim policy) w
    (fun hs w' => header_section_ok lim hs /\ keyword_section_offset hs <= fs_len source /\
                  accounts w w' 0)
    (fun _ w' => accounts w w' 0).
Proof.
  intros Hs (_ & [Hl _] & _) Hw.
  eapply wpM_mono; [by apply budgeted_parse_header| |done]. intros hs w' [[? ?] ?]. done.
Qed.

(** A header tag written with XML-escaped attribute values is read back
    as exactly the tag name and the attributes, in order, for every name the
    grammar can express and every attribute text. *)
Theorem header_tag_round_trip `{Env} name attrs lim :
  (forall context n, allocator context n = true) ->
  tag_name_ok name -> Forall renderable attrs -> NoDup (map fst attrs) ->
  zlen attrs <= header_attributes lim -> zlen attrs * size_of_string_pair <= isize_max ->
  zlen name <= isize_max ->
  parse_single_tag (render_tag name attrs) lim = Ok (name, attrs).
Proof. intros. by apply parse_single_tag_rendered. Qed.

Example parse_header_total_witness :
  let w := {| w_budget := memory_budget_new 1000000; w_clock := 0 |} in
  wpM (@parse_header simple_env World _ (constant_source sample_header 0) Mdx limits_new Verify) w
    (fun hs w' => header_section_ok limits_new hs /\ accounts w w' 0) (fun _ w' => accounts w w' 0).
Proof.
  intros w.
  assert (source_ok (constant_source sample_header 0)) as Hs.
  { apply constant_source_ok; [apply bytes_ok_check; vm_compute; reflexivity|vm_compute; discriminate]. }
  assert (budget_ok (w_budget w)) as Hw by (repeat split; vm_compute; discriminate).
  eapply wpM_mono;
    [exact (@parse_header_total simple_env simple_env_ok _ Mdx limits_new Verify w Hs limits_new_ok Hw)
    | |done].
  intros hs w' Hhs. exact (conj (proj1 Hhs) (proj2 (proj2 Hhs))).
Defined.

Example sample_header_parses :
  let w := {| w_budget := memory_budget_new 1000000; w_clock := 0 |} in
  match @parse_header simple_env World _ (constant_source sample_header 0) Mdx limits_new Verify w with
  | (Ok hs, _) => title (hs_header hs) = Some (lit "A & B <c>") /\
                  keyword_section_offset hs = zlen sample_header
  | _ => False
  end.
Proof. vm_compute. done. Qed.

Example header_tag_round_trip_witness :
  let attrs := [(lit "StripKey", lit "Yes"); (lit "Description", lit "a <b>c</b> & 'd'")] in
  @parse_single_tag simple_env (render_tag (lit "Dictionary") attrs) limits_new =
    Ok (lit "Dictionary", attrs).
Proof.
  intros attrs. apply (@header_tag_round_trip simple_env).
  - reflexivity.
  - split; [by eexists|]. split; [done|]. repeat constructor.
  - repeat constructor; try (by eexists); try done; eexists _, _; by split.
  - apply (bool_decide_unpack _). vm_compute. exact I.
  - vm_compute. discriminate.
  - vm_compute. discriminate.
  - vm_compute. discriminate.
Defined.

Example accepts_single_quoted_attributes_and_entities :
  @parse_single_tag simple_env (lit "<Dictionary V='2.0' Title='A &#X42; &#x43; &apos;C&apos;'></Dictionary >")
    limits_new =
  Ok (lit "Dictionary", [(lit "V", lit "2.0"); (lit "Title", lit "A B C 'C'")]).
Proof. vm_compute. reflexivity. Qed.
