(* ===== verification/KeySection.v ===== *)
(** What the keyword sections of both versions share
    ([src/format/v1/keyword.rs], [src/format/v2/keyword.rs]): the validated
    result, the loop over the rows of the index, the reconciliation with the
    header and the decoder of a key block, whose record offsets are 32 bits
    wide in version 1 and 64 in version 2. *)

From S2P Require Import Prelude Errors Types Budget Cursor Utf8 Encoding Source Descriptors.

(** [KeywordSectionRanges] *)
Record KeywordSectionRanges := {
  ksr_header : SectionRange;
  ksr_index : SectionRange;
  ksr_blocks : SectionRange;
}.

(** [KeywordSection] *)
Record KeywordSection := {
  ks_num_entries : Z;
  ks_blocks : list KeyBlockDescriptor;
  ks_record_section_offset : Z;
  ks_retained_bytes : Z;
  ks_sections : KeywordSectionRanges;
}.

(** One row of the keyword index. *)
Record IndexRow := {
  ir_entry_count : Z;
  ir_first_key : text;
  ir_last_key : text;
  ir_comp_size : Z;
  ir_decomp_size : Z;
}.

Section KeySection.

Context `{Env}.

(** [validate_key_block_sizes] with the width of a record offset *)
Definition validate_key_block_sizes (offset_bytes entry_count comp_size decomp_size : Z)
    (e : TextEncoding) (lim : Limits) : Result unit :=
  if entry_count =? 0
  then Err (InvalidData "keyword blocks must contain at least one entry")
  else
    ensure_u64_ceiling "keyword_block_entries" entry_count (key_block_entries lim) ;;?
    ensure_u64_limit "keyword_block_compressed_bytes" comp_size (compressed_block_bytes lim) ;;?
    ensure_u64_limit "keyword_block_decompressed_bytes" decomp_size (decompressed_block_bytes lim) ;;?
    if comp_size <? 8
    then Err (InvalidData ("keyword block is " +++ fmt_dec comp_size
                           +++ " bytes; at least 8 are required")%string)
    else
      let? unit_bytes := ok_or (try_u64 (unit_size e))
                           (InvalidFormat "encoding unit size exceeds u64") in
      let? minimum_entry_bytes := add_u64 offset_bytes unit_bytes
                                    "minimum keyword entry size overflow" in
      let? minimum_decompressed_len := mul_u64 entry_count minimum_entry_bytes
                                         "minimum keyword block size overflow" in
      if decomp_size <? minimum_decompressed_len
      then Err (InvalidData ("keyword block declares " +++ fmt_dec entry_count +++ " entries in "
                             +++ fmt_dec decomp_size +++ " decompressed bytes")%string)
      else Ok tt.

(** The end of [validate_keyword_header_counts]: the block count as a size. *)
Definition validate_block_count (num_blocks minimum_index_len index_len : Z) (lim : Limits)
    : Result Z :=
  if index_len <? minimum_index_len
  then Err (InvalidData ("keyword index length " +++ fmt_dec index_len +++ " cannot contain "
                         +++ fmt_dec num_blocks +++ " blocks")%string)
  else
    let? num_blocks := checked_usize num_blocks "keyword block count" in
    let? metadata_bytes := ok_or (checked_mul num_blocks size_of_key_block_descriptor)
                             (InvalidFormat "keyword block metadata size overflow") in
    ensure_usize_limit "keyword_block_metadata_bytes" metadata_bytes (block_metadata_bytes lim) ;;?
    Ok num_blocks.

(** The loop of [parse_keyword_index_entries] over [n] rows. *)
Fixpoint parse_index_rows (read_row : M Cursor IndexRow) (offset_bytes : Z) (e : TextEncoding)
    (lim : Limits) (n : nat) (comp_offset start : Z) : M Cursor (list KeyBlockDescriptor) :=
  match n with
  | O => mret []
  | S n =>
      let! row := read_row in
      let! _ := lift (validate_key_block_sizes offset_bytes (ir_entry_count row)
                        (ir_comp_size row) (ir_decomp_size row) e lim) in
      let! next_comp_offset := lift (add_u64 comp_offset (ir_comp_size row)
                                       "keyword block offset overflow") in
      let! next_start := lift (add_u64 start (ir_entry_count row) "keyword entry index overflow") in
      let! blocks := parse_index_rows read_row offset_bytes e lim n next_comp_offset next_start in
      mret ({| entry_count := ir_entry_count row; entry_start_index := start;
               first_key := ir_first_key row; last_key := ir_last_key row;
               kb_comp_offset := comp_offset; kb_comp_size := ir_comp_size row;
               kb_decomp_size := ir_decomp_size row |} :: blocks)
  end.

(** [parse_keyword_index_entries] behind the computation of the minimum row *)
Definition parse_index_entries (read_row : M Cursor IndexRow) (offset_bytes minimum_row : Z)
    (input : bytes) (num_blocks : Z) (e : TextEncoding) (key_blocks_offset : Z) (lim : Limits)
    : Result (list KeyBlockDescriptor) :=
  let? minimum_len := ok_or (checked_mul num_blocks minimum_row)
                        (InvalidFormat "minimum keyword index length overflow") in
  if zlen input <? minimum_len
  then Err (InvalidData ("keyword index has " +++ fmt_dec (zlen input) +++ " bytes but "
                         +++ fmt_dec num_blocks +++ " blocks require at least "
                         +++ fmt_dec minimum_len)%string)
  else
    try_reserve_vec 0 size_of_key_block_descriptor num_blocks "keyword block metadata" ;;?
    match parse_index_rows read_row offset_bytes e lim (Z.to_nat num_blocks) key_blocks_offset 0
            (cursor_new input) with
    | (Ok blocks, cursor) =>
        if negb (cursor_is_empty cursor)
        then Err (InvalidData ("keyword index has " +++ fmt_dec (remaining cursor)
                               +++ " trailing bytes")%string)
        else Ok blocks
    | (r, _) => r
    end.

(** The sum of the compressed sizes. *)
Fixpoint sum_comp (acc : Z) (blocks : list KeyBlockDescriptor) : Result Z :=
  match blocks with
  | [] => Ok acc
  | b :: blocks =>
      let? acc := add_u64 acc (kb_comp_size b) "keyword blocks length overflow" in
      sum_comp acc blocks
  end.

(** [source.ensure_range] of every block *)
Fixpoint ensure_block_ranges (source : FileSource) (blocks : list KeyBlockDescriptor)
    : Result unit :=
  match blocks with
  | [] => Ok tt
  | b :: blocks =>
      ensure_range source (kb_comp_offset b) (kb_comp_size b) "keyword block" ;;?
      ensure_block_ranges source blocks
  end.

(** The end of [parse_keyword_section]: the blocks agree with the header. *)
Definition reconcile_key_blocks (source : FileSource) (blocks : list KeyBlockDescriptor)
    (num_entries key_blocks_len : Z) : Result unit :=
  let? total_entries :=
    match last blocks with
    | Some b => add_u64 (entry_start_index b) (entry_count b) "keyword entry count overflow"
    | None => Ok 0
    end in
  if negb (total_entries =? num_entries)
  then Err (InvalidData ("keyword entry count mismatch: header=" +++ fmt_dec num_entries
                         +++ ", summed=" +++ fmt_dec total_entries)%string)
  else
    let? total_comp := sum_comp 0 blocks in
    if negb (total_comp =? key_blocks_len)
    then Err (InvalidData ("keyword blocks length mismatch: header=" +++ fmt_dec key_blocks_len
                           +++ ", summed=" +++ fmt_dec total_comp)%string)
    else ensure_block_ranges source blocks.

(** The bytes kept for the decoded summaries and the descriptors. *)
Definition keyword_retained_bytes (e : TextEncoding) (index_len num_blocks : Z) : Result Z :=
  let? decoded_summary_bytes := max_decoded_len e index_len in
  let? descriptors := ok_or (checked_mul num_blocks size_of_key_block_descriptor)
                        (InvalidFormat "keyword metadata size overflow") in
  ok_or (checked_add decoded_summary_bytes descriptors)
    (InvalidFormat "keyword metadata size overflow").

(** ** Key rows *)

(** The loop of [decode_key_rows]: [entries] holds the rows decoded so far. *)
Fixpoint key_rows_loop (fuel : nat) (read_offset : string -> M Cursor Z) (ctx : KeyRowContext)
    (expected_count : Z) (previous : option Z) (entries : list DecodedKeyRow)
    : M Cursor (list DecodedKeyRow) := fun c =>
  match fuel with
  | O => (OutOfFuel, c)
  | S fuel =>
      if cursor_is_empty c then (Ok entries, c)
      else if zlen entries =? expected_count
      then (Err (InvalidData ("key block contains data after its declared "
                              +++ fmt_dec expected_count +++ " entries")%string), c)
      else (
        let! start := read_offset "key block record offset" in
        if krc_total_decoded_record_len ctx <? start
        then merr (InvalidData ("record start " +++ fmt_dec start +++ " exceeds total record bytes "
                                +++ fmt_dec (krc_total_decoded_record_len ctx))%string)
        else if match previous with Some p => start <? p | None => false end
        then merr (InvalidData ("record starts decrease inside key block from "
                                +++ fmt_dec (default 0 previous) +++ " to "
                                +++ fmt_dec start)%string)
        else fun c => (
          let key_start := c_offset c in
          let! '(key_bytes, next_offset) := lift (split_terminated (krc_encoding ctx) (c_bytes c)
                                                    key_start "key block entry key") in
          let! key := lift (decode (krc_encoding ctx) key_bytes "key block entry key") in
          let! key_len := lift (ok_or (checked_sub next_offset key_start)
                                  (InvalidFormat "key block cursor underflow")) in
          let! _ := read_bytes key_len "key block entry key bytes" in
          key_rows_loop fuel read_offset ctx expected_count (Some start)
            (entries ++ [{| row_key := key; record_start := start |}])) c) c
  end.

(** [decode_key_rows]; every row consumes at least one byte. *)
Definition decode_key_rows_with (read_offset : string -> M Cursor Z) (input : bytes)
    (ctx : KeyRowContext) : Result (list DecodedKeyRow) :=
  let? expected_count := checked_usize (expected_entries ctx) "decoded key entry count" in
  try_reserve_vec 0 size_of_decoded_key_row expected_count "decoded key entries" ;;?
  let? entries := with_cursor input
    (key_rows_loop (S (length input)) read_offset ctx expected_count None []) in
  if negb (zlen entries =? expected_count)
  then Err (InvalidData ("key block entry count mismatch: expected " +++ fmt_dec expected_count
                         +++ ", decoded " +++ fmt_dec (zlen entries))%string)
  else Ok entries.

End KeySection.

(** * Writing keys, rows and indexes *)

(** The bytes of a key in the two encodings the standard library handles. *)
Definition encode_key (e : TextEncoding) (key : text) : bytes :=
  match e with
  | EncUtf16Le => utf16_bytes (utf16_encode (chars key))
  | _ => key
  end.

Definition key_terminator (e : TextEncoding) : bytes := replicate (Z.to_nat (unit_size e)) 0.

Definition encodable (e : TextEncoding) (key : text) : Prop :=
  (e = EncUtf8 \/ e = EncUtf16Le) /\ text_ok key /\ 0 ∉ key /\ zlen (encode_key e key) * 3 <= isize_max.

(** The units of an encoded summary. *)
Definition summary_units (e : TextEncoding) (key : text) : Z := zlen (encode_key e key) / unit_size e.

(** A key row with a record offset of [width] bytes. *)
Definition encode_row (width : nat) (e : TextEncoding) (r : DecodedKeyRow) : bytes :=
  be_split width (record_start r) ++ encode_key e (row_key r) ++ key_terminator e.

Definition encode_rows (width : nat) (e : TextEncoding) (rows : list DecodedKeyRow) : bytes :=
  concat (map (encode_row width e) rows).

(** The descriptors an index of these rows stands for. *)
Fixpoint describe (comp_offset start : Z) (rows : list IndexRow) : list KeyBlockDescriptor :=
  match rows with
  | [] => []
  | row :: rows =>
      {| entry_count := ir_entry_count row; entry_start_index := start;
         first_key := ir_first_key row; last_key := ir_last_key row;
         kb_comp_offset := comp_offset; kb_comp_size := ir_comp_size row;
         kb_decomp_size := ir_decomp_size row |}
      :: describe (comp_offset + ir_comp_size row) (start + ir_entry_count row) rows
  end.

(** A row the limits allow. *)
Definition row_valid (offset_bytes : Z) (e : TextEncoding) (lim : Limits) (r : IndexRow) : Prop :=
  1 <= ir_entry_count r <= key_block_entries lim /\
  8 <= ir_comp_size r <= compressed_block_bytes lim /\
  0 <= ir_decomp_size r <= decompressed_block_bytes lim /\
  ir_entry_count r * (offset_bytes + unit_size e) <= ir_decomp_size r.

Definition sum_of {A} (f : A -> Z) (l : list A) : Z := foldr (fun a n => f a + n) 0 l.

(** * What a keyword section promises *)

(** A block within the limits, with enough room for its entries. *)
Definition key_block_valid (offset_bytes : Z) (e : TextEncoding) (lim : Limits)
    (b : KeyBlockDescriptor) : Prop :=
  1 <= entry_count b <= key_block_entries lim /\
  8 <= kb_comp_size b <= compressed_block_bytes lim /\
  kb_decomp_size b <= decompressed_block_bytes lim /\
  entry_count b * (offset_bytes + unit_size e) <= kb_decomp_size b /\
  text_ok (first_key b) /\ text_ok (last_key b) /\
  0 <= kb_comp_offset b /\ 0 <= entry_start_index b.

Definition row_ok (r : IndexRow) : Prop :=
  0 <= ir_entry_count r /\ 0 <= ir_comp_size r /\ 0 <= ir_decomp_size r /\
  text_ok (ir_first_key r) /\ text_ok (ir_last_key r).

(** The blocks of a keyword section: they number [total] entries and fill the
    range from [from] to [to]. *)
Definition key_blocks_ok (offset_bytes : Z) (e : TextEncoding) (lim : Limits)
    (blocks : list KeyBlockDescriptor) (total from to : Z) : Prop :=
  Forall (key_block_valid offset_bytes e lim) blocks /\
  consecutive entry_start_index entry_count 0 blocks total /\
  consecutive kb_comp_offset kb_comp_size from blocks to.

(** The whole section, read at [offset] from a file of [file_len] bytes. *)
Definition keyword_section_ok (offset_bytes : Z) (e : TextEncoding) (lim : Limits)
    (file_len offset : Z) (ks : KeywordSection) : Prop :=
  let s := ks_sections ks in
  is_u64 (ks_num_entries ks) /\ is_u64 (ks_retained_bytes ks) /\
  zlen (ks_blocks ks) * size_of_key_block_descriptor <= block_metadata_bytes lim /\
  section_ok (ksr_header s) /\ section_ok (ksr_index s) /\ section_ok (ksr_blocks s) /\
  consecutive sr_offset sr_len offset [ksr_header s; ksr_index s; ksr_blocks s]
    (ks_record_section_offset ks) /\
  ks_record_section_offset ks <= file_len /\
  key_blocks_ok offset_bytes e lim (ks_blocks ks) (ks_num_entries ks)
    (sr_offset (ksr_blocks s)) (ks_record_section_offset ks).

(** The contract of a row decoder: as many rows as declared, with valid keys
    and ordered record offsets inside the stream. *)
Definition starts_sorted (rows : list DecodedKeyRow) : Prop :=
  Sorted (fun a b => record_start a <= record_start b) rows.

Definition key_rows_ok (ctx : KeyRowContext) (rows : list DecodedKeyRow) : Prop :=
  zlen rows = expected_entries ctx /\
  Forall (fun r => text_ok (row_key r) /\
                   0 <= record_start r <= krc_total_decoded_record_len ctx) rows /\
  starts_sorted rows.

(** * Lemmas *)

Section Lemmas.

Context `{Env}.

Lemma wp_validate_key_block_sizes offset_bytes count comp decomp e lim (Q : unit -> Prop) :
  0 <= count ->
  (1 <= count <= key_block_entries lim -> 8 <= comp <= compressed_block_bytes lim ->
   decomp <= decompressed_block_bytes lim ->
   count * (offset_bytes + unit_size e) <= decomp -> Q tt) ->
  wp (validate_key_block_sizes offset_bytes count comp decomp e lim) Q.
Proof.
  intros Hc HQ. unfold validate_key_block_sizes. wp_steps. zbool. rinv. apply HQ; lia.
Qed.

Lemma wp_index_rows read_row offset_bytes e lim n comp start c :
  (forall c, cursor_ok c -> wpM read_row c (fun r c' => row_ok r /\ cursor_ok c') (fun _ _ => True)) ->
  cursor_ok c -> 0 <= comp -> 0 <= start ->
  wpM (parse_index_rows read_row offset_bytes e lim n comp start) c
    (fun blocks c' => length blocks = n /\ cursor_ok c' /\
       Forall (key_block_valid offset_bytes e lim) blocks /\
       (exists to, consecutive kb_comp_offset kb_comp_size comp blocks to) /\
       (exists to, consecutive entry_start_index entry_count start blocks to))
    (fun _ _ => True).
Proof.
  intros Hr; revert comp start c; induction n as [|n IH]; intros comp start c Hc Hcomp Hstart;
    cbn [parse_index_rows].
  { apply wpM_ret. split_and!; try done; by eexists. }
  apply wpM_bind. eapply wpM_mono; [by apply Hr| |done].
  intros row c1 [(? & ? & ? & ? & ?) Hc1].
  apply wpM_bind, wpM_lift; [|done]. apply wp_validate_key_block_sizes; [done|]. intros ? ? ? ?.
  apply wpM_bind, wpM_lift; [|done]. apply wp_add_u64. intros ?.
  apply wpM_bind, wpM_lift; [|done]. apply wp_add_u64. intros ?.
  apply wpM_bind. eapply wpM_mono; [apply (IH _ _ c1 Hc1); lia| |done].
  intros blocks c2 (Hlen & Hc2 & Hv & [to1 Hto1] & [to2 Hto2]).
  apply wpM_ret. split_and!; [simpl; by rewrite Hlen|done| | |].
  - by constructor.
  - by exists to1.
  - by exists to2.
Qed.

Lemma wp_parse_index_entries read_row offset_bytes minimum input n e comp lim :
  (forall c, cursor_ok c -> wpM read_row c (fun r c' => row_ok r /\ cursor_ok c') (fun _ _ => True)) ->
  bytes_ok input -> 0 <= n -> 0 <= comp ->
  wp (parse_index_entries read_row offset_bytes minimum input n e comp lim)
    (fun blocks => zlen blocks = n /\ exists total to, key_blocks_ok offset_bytes e lim blocks total comp to).
Proof.
  intros Hr Hi Hn Hc. unfold parse_index_entries. wp_steps.
  pose proof (wp_index_rows read_row offset_bytes e lim (Z.to_nat n) comp 0 (cursor_new input) Hr
    (cursor_new_ok _ Hi) Hc (Z.le_refl 0)) as W. unfold wpM in W.
  destruct (parse_index_rows _ _ _ _ _ _ _ _) as [[blocks|err| |] c]; try done.
  destruct W as (Hlen & _ & Hv & [to1 ?] & [to2 ?]). wp_steps. split; [lia|].
  by exists to2, to1.
Qed.

Lemma sum_comp_consecutive acc blocks from to s :
  consecutive kb_comp_offset kb_comp_size from blocks to -> sum_comp acc blocks = Ok s ->
  s = acc + (to - from).
Proof.
  revert acc from; induction blocks as [|b blocks IH]; intros acc from; simpl.
  - intros -> [= <-]. lia.
  - intros [_ Hc] H1. rinv. apply (IH _ _ Hc) in H1. lia.
Qed.

Lemma wp_sum_comp acc blocks : wp (sum_comp acc blocks) (fun _ => True).
Proof. revert acc; induction blocks as [|b blocks IH]; intros acc; simpl; wp_steps; auto. Qed.

Lemma wp_ensure_block_ranges source blocks :
  wp (ensure_block_ranges source blocks) (fun _ => True).
Proof.
  induction blocks as [|b blocks IH]; simpl; [done|]. wp_steps. by apply wp_ensure_range.
Qed.

Lemma consecutive_last {A} (start size : A -> Z) from l to :
  consecutive start size from l to ->
  match last l with Some b => start b + size b | None => from end = to.
Proof.
  revert from; induction l as [|b l IH]; intros from; [done|]. simpl consecutive.
  intros [Hb Hc]. apply IH in Hc. rewrite last_cons. destruct (last l); simpl; lia.
Qed.

Lemma wp_reconcile source offset_bytes e lim blocks total from to num_entries len :
  key_blocks_ok offset_bytes e lim blocks total from to ->
  wp (reconcile_key_blocks source blocks num_entries len)
    (fun _ => key_blocks_ok offset_bytes e lim blocks num_entries from (from + len)).
Proof.
  intros (Hv & Ht & Hc). unfold reconcile_key_blocks. apply wp_bind.
  apply (wp_mono _ (fun n => n = total)).
  { apply consecutive_last in Ht. destruct (last blocks); [|done].
    apply wp_add_u64. intros _. done. }
  intros ? ->. wp_steps. zbool. subst.
  apply wp_eq; [eapply wp_safe, wp_sum_comp|]. intros s Hs.
  apply (sum_comp_consecutive 0 _ _ _ _ Hc) in Hs. wp_steps. zbool.
  eapply wp_mono; [apply wp_ensure_block_ranges|]. intros _ _.
  split_and!; [done|done|]. by replace (from + len) with to by lia.
Qed.

Context `{!EnvOk}.

Lemma wp_keyword_retained_bytes e index_len n (Q : Z -> Prop) :
  is_u64 index_len -> 0 <= n -> (forall r, is_u64 r -> Q r) ->
  wp (keyword_retained_bytes e index_len n) Q.
Proof.
  intros Hi Hn HQ. unfold keyword_retained_bytes. wp_steps.
  eapply wp_mono; [by apply wp_max_decoded_len|]. intros m [? ?]. wp_steps. rinv. apply HQ.
  unfold is_u64, size_of_key_block_descriptor in *. lia.
Qed.

Lemma wp_validate_block_count n minimum len lim (Q : Z -> Prop) :
  (minimum <= len -> n * size_of_key_block_descriptor <= block_metadata_bytes lim -> Q n) ->
  wp (validate_block_count n minimum len lim) Q.
Proof. intros HQ. unfold validate_block_count. wp_steps. zbool. rinv. auto. Qed.

(** ** Key rows *)

Lemma starts_sorted_snoc rows r :
  starts_sorted rows ->
  match last rows with Some p => record_start p <= record_start r | None => True end ->
  starts_sorted (rows ++ [r]).
Proof.
  unfold starts_sorted. induction 1 as [|a rows Hs IH Hhd]; intros Hl; [by repeat constructor|].
  cbn [app]. constructor.
  - apply IH. destruct rows; [done|]. done.
  - destruct rows as [|b rows]; simpl in *; constructor; [done|]. by inversion Hhd.
Qed.

Lemma wp_key_rows_loop fuel read_offset ctx expected previous entries c :
  (forall context c, cursor_ok c ->
     wpM (read_offset context) c (fun v c' => 0 <= v /\ cursor_ok c' /\ c_bytes c' = c_bytes c /\
            c_offset c < c_offset c') (fun _ _ => True)) ->
  cursor_ok c -> zlen (c_bytes c) - c_offset c < Z.of_nat fuel ->
  previous = record_start <$> last entries ->
  Forall (fun r => text_ok (row_key r) /\
                   0 <= record_start r <= krc_total_decoded_record_len ctx) entries ->
  starts_sorted entries ->
  wpM (key_rows_loop fuel read_offset ctx expected previous entries) c
    (fun rows _ => Forall (fun r => text_ok (row_key r) /\
        0 <= record_start r <= krc_total_decoded_record_len ctx) rows /\ starts_sorted rows)
    (fun _ _ => True).
Proof.
  intros Hread; revert previous entries c; induction fuel as [|fuel IH];
    intros previous entries c Hc Hf Hp He Hs; [destruct Hc as [[? ?] _]; lia|].
  unfold wpM. cbn [key_rows_loop].
  destruct (cursor_is_empty c) eqn:Hempty; [done|].
  destruct (zlen entries =? expected) eqn:Hcount; [done|].
  refine (_ : wpM (let! start := read_offset _ in _) c _ _).
  apply wpM_bind. eapply wpM_mono; [by apply Hread| |done].
  intros start c1 (Hst & Hc1 & Hb1 & Ho1).
  apply wpM_if; intros Htot; [done|]. apply wpM_if; intros Hprev; [done|]. zbool.
  refine (_ : wpM (let! '(key_bytes, next_offset) := lift _ in _) c1 _ _).
  destruct Hc1 as [[? ?] Hok1]. assert (cursor_ok c1) as Hc1 by done.
  apply wpM_bind, wpM_lift; [|done]. eapply wp_mono; [by apply wp_split_terminated|].
  intros [key_bytes next] (k & Hk & Hkey & Hnext & Hend). simpl in Hkey, Hnext, Hend.
  apply wpM_bind, wpM_lift; [|done]. eapply wp_mono.
  { apply wp_decode. by eapply slice_Forall. }
  intros key Hkeyok. apply wpM_bind, wpM_lift; [|done]. apply wp_ok_or.
  intros key_len Hlen. rinv. pose proof (unit_size_cases (krc_encoding ctx)).
  apply wpM_bind, wp_read_bytes; [lia|done|]. intros _ c2 _ _ _ Hc2 [Hb2 Ho2].
  apply IH; [done| | | |].
  - rewrite Hb2, Hb1, Ho2 in *. lia.
  - by rewrite last_snoc.
  - apply Forall_app; split; [done|]. repeat constructor; simpl; [done|lia|lia].
  - apply starts_sorted_snoc; [done|]. destruct (last entries); [|done]. simpl in *. zbool. lia.
Qed.

Lemma wp_decode_key_rows read_offset input ctx :
  (forall context c, cursor_ok c ->
     wpM (read_offset context) c (fun v c' => 0 <= v /\ cursor_ok c' /\ c_bytes c' = c_bytes c /\
            c_offset c < c_offset c') (fun _ _ => True)) ->
  bytes_ok input -> wp (decode_key_rows_with read_offset input ctx) (key_rows_ok ctx).
Proof.
  intros Hread Hin. unfold decode_key_rows_with. wp_steps. subst. apply wp_with_cursor.
  eapply wpM_mono; [apply wp_key_rows_loop; try done| |done].
  - by apply cursor_new_ok.
  - simpl. lia.
  - constructor.
  - intros rows _ [? ?]. wp_steps. zbool. by split_and!.
Qed.

End Lemmas.

(** * Reading what was written *)

Lemma find_zero_byte_app key rest : 0 ∉ key -> find_zero_byte (key ++ 0 :: rest) = Some (zlen key).
Proof.
  induction key as [|b key IH]; [done|]. intros Hb. apply not_elem_of_cons in Hb as [? Hb].
  cbn [app find_zero_byte]. rewrite (proj2 (Z.eqb_neq b 0)), IH by done. simpl. f_equal. lia.
Qed.

Lemma find_zero_unit_app us rest :
  Forall (fun u => 0 < u < 65536) us ->
  find_zero_unit (utf16_bytes us ++ 0 :: 0 :: rest) = Some (zlen us).
Proof.
  induction 1 as [|u us Hu _ IH]; [done|]. cbn [utf16_bytes app find_zero_unit].
  replace ((u mod 256 =? 0) && (u / 256 =? 0)) with false.
  - rewrite IH. simpl. f_equal. lia.
  - symmetry. rewrite andb_false_iff, !Z.eqb_neq. destruct (decide (u mod 256 = 0)); [right|by left].
    div_lia.
Qed.

Lemma length_utf16_bytes us : zlen (utf16_bytes us) = 2 * zlen us.
Proof. induction us as [|u us IH]; [done|]. simpl in *. lia. Qed.

Lemma zero_char_byte t : text_ok t -> 0 ∉ t -> 0 ∉ chars t.
Proof.
  intros Ht Hz Hin. apply Hz. rewrite <- (encode_chars t Ht). unfold utf8_encode.
  apply list_elem_of_In, in_concat. exists [0]. split; [|by left].
  apply in_map_iff. exists 0. split; [done|]. by apply list_elem_of_In.
Qed.

Lemma utf16_units_nonzero cs :
  Forall (fun c => is_scalar c = true) cs -> 0 ∉ cs ->
  Forall (fun u => 0 < u < 65536) (utf16_encode cs).
Proof.
  induction 1 as [|c cs Hc _ IH]; [constructor|]. intros Hz. apply not_elem_of_cons in Hz as [? Hz].
  unfold utf16_encode in *; cbn [map concat]. apply Forall_app; split; [|by apply IH].
  apply is_scalar_true in Hc. unfold utf16_encode_char.
  destruct (Z.ltb_spec c 65536); repeat constructor; div_lia.
Qed.

Lemma summary_len e key :
  encodable e key ->
  summary_units e key * unit_size e = zlen (encode_key e key) /\ 0 <= summary_units e key.
Proof.
  intros ([->| ->] & _); unfold summary_units; cbn [unit_size encode_key].
  - rewrite Z.div_1_r. lia.
  - rewrite length_utf16_bytes. rewrite (Z.mul_comm 2), Z.div_mul by lia. lia.
Qed.

Section Written.

Context `{Env} (alloc_ok : forall context n, allocator context n = true).

Lemma slice_to_end {A} (a b : list A) : slice (a ++ b) (zlen a) (zlen (a ++ b)) = Some b.
Proof.
  pose proof (slice_app_mid a b []) as E. rewrite app_nil_r in E.
  by rewrite length_app, Nat2Z.inj_add.
Qed.

Lemma split_terminated_encoded e pre key rest context :
  encodable e key -> zlen (pre ++ encode_key e key ++ key_terminator e ++ rest) <= isize_max ->
  split_terminated e (pre ++ encode_key e key ++ key_terminator e ++ rest) (zlen pre) context =
    Ok (encode_key e key, zlen pre + zlen (encode_key e key) + unit_size e).
Proof.
  intros (He & Ht & Hz & _) Hlen. assert (isize_max <= u64_max) by done.
  unfold split_terminated. rewrite slice_to_end. cbn [ok_or rbind].
  destruct He as [->| ->]; cbn [encode_key unit_size].
  - change (key_terminator EncUtf8 ++ rest) with (0 :: rest) in *. rewrite find_zero_byte_app by done.
    rewrite !length_app in Hlen. cbn [encode_key] in Hlen.
    cbn [ok_or rbind]. unfold checked_add.
    rewrite (proj2 (Z.leb_le _ u64_max)) by lia. cbn [ok_or rbind].
    simpl in Hlen. rewrite (proj2 (Z.leb_le _ u64_max)) by lia. cbn [ok_or rbind].
    by rewrite slice_app_mid.
  - change (key_terminator EncUtf16Le ++ rest) with (0 :: 0 :: rest) in *.
    pose proof (utf16_units_nonzero _ (chars_scalar key) (zero_char_byte key Ht Hz)) as Hu.
    rewrite find_zero_unit_app by done. rewrite !length_app in Hlen.
    cbn [ok_or rbind encode_key] in *.
    pose proof (length_utf16_bytes (utf16_encode (chars key))) as El. simpl in Hlen.
    unfold checked_mul, checked_add. rewrite (proj2 (Z.leb_le _ u64_max)) by lia. cbn [ok_or rbind].
    rewrite (proj2 (Z.leb_le _ u64_max)) by lia. cbn [ok_or rbind].
    rewrite (proj2 (Z.leb_le _ u64_max)) by lia. cbn [ok_or rbind].
    replace (zlen (utf16_encode (chars key)) * 2) with (zlen (utf16_bytes (utf16_encode (chars key))))
      by lia.
    by rewrite slice_app_mid.
Qed.

Lemma reserve_string_granted n context : 0 <= n <= isize_max -> try_reserve_string 0 n context = Ok tt.
Proof.
  intros ?. unfold try_reserve_string, reserve_bytes, checked_add, try_u64, or_u64_max.
  assert (isize_max <= u64_max) by done.
  rewrite Z.add_0_l, (proj2 (Z.leb_le n u64_max)) by lia. simpl.
  rewrite (proj2 (Z.leb_le n u64_max)) by lia. simpl.
  rewrite (proj2 (Z.leb_le n isize_max)) by lia. by rewrite alloc_ok, orb_true_r.
Qed.

Lemma decode_encoded_text e t context :
  e = EncUtf8 \/ e = EncUtf16Le -> text_ok t -> zlen (encode_key e t) * 3 <= isize_max ->
  decode e (encode_key e t) context = Ok t.
Proof.
  intros He Ht Hl. destruct He as [->| ->]; cbn [encode_key decode] in *.
  - destruct Ht as [cs Hcs]. rewrite Hcs. cbn [ok_or rbind]. unfold try_clone_string.
    rewrite reserve_string_granted by lia. done.
  - pose proof (chars_scalar t) as Hc. rewrite length_utf16_bytes in *.
    set (us := utf16_encode (chars t)) in *.
    replace (2 * zlen us mod 2 =? 0) with true by (symmetry; apply Z.eqb_eq; div_lia).
    cbn [negb]. unfold checked_mul. replace (2 * zlen us / 2) with (zlen us) by div_lia.
    assert (isize_max <= u64_max) by done.
    rewrite (proj2 (Z.leb_le _ u64_max)) by lia. cbn [ok_or rbind].
    rewrite reserve_string_granted by lia. cbn [rbind].
    unfold us. rewrite utf16_units_bytes, utf16_decode_encode by auto using utf16_encode_units.
    cbn [ok_or rbind]. by rewrite encode_chars.
Qed.

Lemma decode_encoded e key context : encodable e key -> decode e (encode_key e key) context = Ok key.
Proof. intros (He & Ht & _ & Hl). by apply decode_encoded_text. Qed.

(** What reading an offset of [width] bytes does to a written one. *)
Definition reads_width (width : nat) (read_offset : string -> M Cursor Z) : Prop :=
  forall context p x q, 0 <= x < 256 ^ Z.of_nat width -> zlen p + Z.of_nat width <= u64_max ->
    read_offset context (cursor_at p (be_split width x ++ q)) =
      (Ok x, cursor_at (p ++ be_split width x) q).

Lemma key_rows_encoded width read_offset fuel ctx pre entries rows :
  reads_width width read_offset ->
  let e := krc_encoding ctx in
  Forall (fun r => encodable e (row_key r) /\ 0 <= record_start r < 256 ^ Z.of_nat width /\
                   record_start r <= krc_total_decoded_record_len ctx) rows ->
  starts_sorted (entries ++ rows) -> zlen (entries ++ rows) = expected_entries ctx ->
  zlen (pre ++ encode_rows width e rows) <= isize_max -> (length rows < fuel)%nat ->
  fst (key_rows_loop fuel read_offset ctx (expected_entries ctx) (record_start <$> last entries)
         entries (cursor_at pre (encode_rows width e rows))) = Ok (entries ++ rows).
Proof.
  intros Hread e Hrows. revert fuel pre entries. assert (isize_max <= u64_max) as Hmax by done.
  induction Hrows as [|r rows (Henc & Hw & Htot) Hrows IH]; intros fuel pre entries Hs Hn Hlen Hf;
    (destruct fuel as [|fuel]; [simpl in Hf; lia|]); cbn [key_rows_loop].
  { rewrite (proj2 (cursor_is_empty_at _ _)) by done. by rewrite app_nil_r. }
  change (encode_rows width e (r :: rows)) with (encode_row width e r ++ encode_rows width e rows) in *.
  set (tail := encode_rows width e rows) in *. unfold encode_row in *. rewrite <- !app_assoc in *.
  assert (cursor_is_empty (cursor_at pre (be_split width (record_start r) ++
    encode_key e (row_key r) ++ key_terminator e ++ tail)) = false) as ->.
  { apply not_true_iff_false. rewrite cursor_is_empty_at. intros E.
    apply (f_equal (@length Z)) in E. rewrite !length_app in E. unfold key_terminator in E.
    rewrite length_replicate in E. pose proof (unit_size_cases e). simpl in E. lia. }
  rewrite length_app in Hn. rewrite !length_app, length_be_split in Hlen.
  rewrite (proj2 (Z.eqb_neq _ _)) by (simpl in Hn; lia). unfold Errors.mbind at 1. rewrite Hread by (done || lia).
  rewrite (proj2 (Z.ltb_ge _ _)) by done.
  replace (match record_start <$> last entries with Some p => record_start r <? p | None => false end)
    with false.
  2: { destruct (last entries) as [p|] eqn:Hp; [|done]. symmetry. apply Z.ltb_ge.
    apply last_Some in Hp as [l ->]. rewrite <- app_assoc in Hs.
    clear -Hs. induction l as [|a l IHl]; simpl in Hs; apply Sorted_inv in Hs as [Hs Hhd];
      [by inversion Hhd|by apply IHl]. }
  set (pre1 := pre ++ be_split width (record_start r)).
  assert (zlen pre1 = zlen pre + Z.of_nat width) as Hpre1
    by (unfold pre1; rewrite length_app, length_be_split; lia).
  unfold Errors.mbind, lift. cbn [c_offset c_bytes cursor_at].
  rewrite split_terminated_encoded; [|done|rewrite !length_app; lia].
  rewrite decode_encoded by done.
  replace (checked_sub (zlen pre1 + zlen (encode_key e (row_key r)) + unit_size e) (zlen pre1))
    with (Some (zlen (encode_key e (row_key r) ++ key_terminator e))).
  2: { symmetry. apply checked_sub_Some. pose proof (unit_size_cases e).
    rewrite length_app. unfold key_terminator. rewrite length_replicate. lia. }
  cbn [ok_or]. unfold cursor_at at 1. fold (cursor_at pre1 (encode_key e (row_key r) ++ key_terminator e ++ tail)).
  rewrite (app_assoc (encode_key e (row_key r))), read_bytes_at by (rewrite length_app; lia).
  replace (Some (record_start r)) with (record_start <$> last (entries ++ [{| row_key := row_key r;
    record_start := record_start r |}])) by (by rewrite last_snoc).
  destruct r as [key start]; cbn [row_key record_start] in *.
  rewrite IH.
  - by rewrite <- app_assoc.
  - by rewrite <- app_assoc.
  - rewrite !length_app. simpl in *. lia.
  - fold tail. unfold pre1. rewrite !length_app, length_be_split. lia.
  - simpl in Hf. lia.
Qed.

Lemma ensure_u64_limit_granted name v max : v <= max <= u64_max -> ensure_u64_limit name v max = Ok tt.
Proof.
  intros ?. unfold ensure_u64_limit, try_u64. rewrite (proj2 (Z.leb_le max u64_max)) by lia.
  cbn [ok_or rbind]. apply ensure_u64_ceiling_Ok. lia.
Qed.

Lemma row_valid_accepted offset_bytes e lim r :
  limits_ok lim -> 0 <= offset_bytes <= 8 -> row_valid offset_bytes e lim r ->
  validate_key_block_sizes offset_bytes (ir_entry_count r) (ir_comp_size r) (ir_decomp_size r) e lim
    = Ok tt.
Proof.
  intros (_ & _ & _ & _ & [_ ?] & [_ ?] & _ & [_ ?] & _) Hob (? & ? & ? & ?).
  unfold validate_key_block_sizes. rewrite (proj2 (Z.eqb_neq _ _)) by lia.
  rewrite (proj2 (ensure_u64_ceiling_Ok _ _ _ tt)) by lia. cbn [rbind].
  rewrite !ensure_u64_limit_granted by lia. cbn [rbind].
  rewrite (proj2 (Z.ltb_ge _ _)) by lia.
  pose proof (unit_size_cases e). assert (16 <= u64_max) by done.
  unfold try_u64. rewrite (proj2 (Z.leb_le (unit_size e) u64_max)) by lia. cbn [ok_or rbind].
  unfold add_u64, checked_add. rewrite (proj2 (Z.leb_le _ u64_max)) by lia. cbn [ok_or rbind].
  unfold mul_u64, checked_mul. rewrite (proj2 (Z.leb_le _ u64_max)) by lia. cbn [ok_or rbind].
  by rewrite (proj2 (Z.ltb_ge _ _)) by lia.
Qed.

Section Index.

Context (read_row : M Cursor IndexRow) (encode_index_row : IndexRow -> bytes) (ok : IndexRow -> Prop).

(** The row read inverts the row written. *)
Context (read_written : forall p r q, ok r -> zlen (p ++ encode_index_row r) <= isize_max ->
  read_row (cursor_at p (encode_index_row r ++ q)) = (Ok r, cursor_at (p ++ encode_index_row r) q)).

Lemma index_rows_encoded offset_bytes e lim rows pre comp start :
  limits_ok lim -> 0 <= offset_bytes <= 8 ->
  Forall (fun r => ok r /\ row_valid offset_bytes e lim r) rows ->
  comp + sum_of ir_comp_size rows <= u64_max -> start + sum_of ir_entry_count rows <= u64_max ->
  zlen (pre ++ concat (map encode_index_row rows)) <= isize_max ->
  parse_index_rows read_row offset_bytes e lim (length rows) comp start
    (cursor_at pre (concat (map encode_index_row rows))) =
    (Ok (describe comp start rows), cursor_at (pre ++ concat (map encode_index_row rows)) []).
Proof.
  intros Hl Hob Hrows; revert pre comp start.
  induction Hrows as [|r rows (Hok & Hv) Hrows IH]; intros pre comp start Hc Hs Hlen;
    cbn [length parse_index_rows map concat describe].
  { by rewrite app_nil_r. }
  assert (0 <= sum_of ir_comp_size rows /\ 0 <= sum_of ir_entry_count rows) as [? ?].
  { clear -Hrows. induction Hrows as [|r rows [_ (? & ? & _)] _ IH]; simpl in *; lia. }
  cbn [map concat sum_of foldr] in *. fold (sum_of ir_comp_size rows) in Hc.
  fold (sum_of ir_entry_count rows) in Hs. rewrite !length_app in Hlen.
  unfold Errors.mbind at 1. rewrite read_written by (rewrite ?length_app; done || lia).
  unfold Errors.mbind, lift. rewrite row_valid_accepted by done.
  unfold add_u64, checked_add. rewrite !(proj2 (Z.leb_le _ u64_max)) by lia. cbn [ok_or].
  rewrite IH; [by rewrite <- app_assoc|lia|lia|rewrite !length_app; lia].
Qed.

Lemma index_encoded offset_bytes minimum e lim rows blocks_offset :
  limits_ok lim -> 0 <= offset_bytes <= 8 ->
  Forall (fun r => ok r /\ row_valid offset_bytes e lim r) rows ->
  Forall (fun r => minimum <= zlen (encode_index_row r)) rows -> 0 <= minimum ->
  blocks_offset + sum_of ir_comp_size rows <= u64_max -> sum_of ir_entry_count rows <= u64_max ->
  zlen (concat (map encode_index_row rows)) <= isize_max ->
  zlen rows * size_of_key_block_descriptor <= isize_max ->
  parse_index_entries read_row offset_bytes minimum (concat (map encode_index_row rows)) (zlen rows) e
    blocks_offset lim = Ok (describe blocks_offset 0 rows).
Proof.
  intros Hl Hob Hrows Hmin Hm Hc Hs Hlen Hsize. unfold parse_index_entries.
  assert (zlen rows * minimum <= zlen (concat (map encode_index_row rows))) as Hml.
  { clear -Hmin. induction Hmin as [|r rows Hr _ IH]; [simpl; lia|].
    cbn [map concat length]. rewrite length_app, !Nat2Z.inj_succ. lia. }
  assert (isize_max <= u64_max) by done.
  unfold checked_mul. rewrite (proj2 (Z.leb_le _ u64_max)) by lia. cbn [ok_or rbind].
  rewrite (proj2 (Z.ltb_ge _ _)) by lia.
  rewrite try_reserve_vec_Ok; try done; try lia;
    [cbn [rbind]|unfold size_of_key_block_descriptor in *; lia].
  rewrite Nat2Z.id, cursor_new_at, index_rows_encoded by (done || (simpl; lia)).
  by rewrite (proj2 (cursor_is_empty_at _ _)) by done.
Qed.

End Index.

(** The whole-block decoder on written rows. *)
Lemma decode_rows_encoded width read_offset ctx rows :
  reads_width width read_offset ->
  Forall (fun r => encodable (krc_encoding ctx) (row_key r) /\
                   0 <= record_start r < 256 ^ Z.of_nat width /\
                   record_start r <= krc_total_decoded_record_len ctx) rows ->
  starts_sorted rows -> zlen rows = expected_entries ctx ->
  zlen (encode_rows width (krc_encoding ctx) rows) <= isize_max ->
  zlen rows * size_of_decoded_key_row <= isize_max ->
  decode_key_rows_with read_offset (encode_rows width (krc_encoding ctx) rows) ctx = Ok rows.
Proof.
  intros Hread Hrows Hs Hn Hlen Hsize. unfold decode_key_rows_with.
  assert (isize_max <= usize_max) by done.
  unfold checked_usize, try_usize.
  rewrite (proj2 (Z.leb_le (expected_entries ctx) _)) by (unfold size_of_decoded_key_row in *; lia).
  cbn [ok_or rbind]. rewrite <- Hn at 1.
  rewrite try_reserve_vec_Ok; try done; try lia;
    [cbn [rbind]|unfold size_of_decoded_key_row in *; lia].
  unfold with_cursor. rewrite cursor_new_at.
  rewrite (key_rows_encoded width read_offset _ ctx [] [] rows Hread); try done.
  - cbn [app rbind]. by rewrite Hn, Z.eqb_refl.
  - assert (length rows <= length (encode_rows width (krc_encoding ctx) rows))%nat; [|lia].
    clear. induction rows as [|r rows IH]; [done|].
    change (encode_rows width (krc_encoding ctx) (r :: rows)) with
      (encode_row width (krc_encoding ctx) r ++ encode_rows width (krc_encoding ctx) rows).
    rewrite length_app. unfold encode_row at 1. rewrite !length_app.
    unfold key_terminator. rewrite length_replicate. pose proof (unit_size_cases (krc_encoding ctx)).
    simpl. lia.
Qed.

End Written.
