(* ===== verification/V1Keyword.v ===== *)
(** The keyword section of version 1: [src/format/v1/keyword.rs]. *)

From S2P Require Import Prelude Errors Types Budget Cursor Utf8 Encoding Source Descriptors KeySection.

Definition KEYWORD_HEADER_LEN : Z := 16.

Definition MIN_KEY_INFO_ROW_LEN : Z := 4 + 1 + 1 + 4 + 4.

(** The four fields of the keyword header. *)
Record KeywordHeader := {
  kh_num_blocks : Z;
  kh_num_entries : Z;
  kh_key_info_len : Z;
  kh_key_blocks_len : Z;
}.

Definition read_keyword_header : M Cursor KeywordHeader :=
  let! num_blocks := read_u32_be_widened "keyword num_blocks" in
  let! num_entries := read_u32_be_widened "keyword num_entries" in
  let! key_info_len := read_u32_be_widened "keyword index length" in
  let! key_blocks_len := read_u32_be_widened "keyword blocks length" in
  mret {| kh_num_blocks := num_blocks; kh_num_entries := num_entries;
          kh_key_info_len := key_info_len; kh_key_blocks_len := key_blocks_len |}.

(** Two rows of an index. *)
Definition sample_rows : list IndexRow :=
  [{| ir_entry_count := 2; ir_first_key := lit "alpha"; ir_last_key := lit "beta";
      ir_comp_size := 40; ir_decomp_size := 60 |};
   {| ir_entry_count := 1; ir_first_key := lit "gamma"; ir_last_key := lit "gamma";
      ir_comp_size := 30; ir_decomp_size := 30 |}].

Section V1Keyword.

Context `{Env}.

(** [validate_keyword_header_counts] *)
Definition validate_keyword_header_counts (num_blocks num_entries key_info_len : Z) (lim : Limits)
    : Result Z :=
  if num_entries <? num_blocks
  then Err (InvalidData ("keyword block count " +++ fmt_dec num_blocks +++ " exceeds entry count "
                         +++ fmt_dec num_entries)%string)
  else
    let? minimum_index_len := mul_u64 num_blocks MIN_KEY_INFO_ROW_LEN
                                "minimum keyword index length overflow" in
    validate_block_count num_blocks minimum_index_len key_info_len lim.

(** [read_summary] *)
Definition read_summary (e : TextEncoding) (context : string) : M Cursor text :=
  let! units := read_u8 context in
  let! len := lift (ok_or (checked_mul units (unit_size e))
                      (InvalidFormat "keyword summary length overflow")) in
  let! input := read_bytes len context in
  lift (decode e input context).

(** The reads of one round of [parse_keyword_index_entries]. *)
Definition read_row (e : TextEncoding) : M Cursor IndexRow :=
  let! count := read_u32_be_widened "keyword block entry count" in
  let! first := read_summary e "keyword block first key" in
  let! last := read_summary e "keyword block last key" in
  let! comp := read_u32_be_widened "keyword block compressed size" in
  let! decomp := read_u32_be_widened "keyword block decompressed size" in
  mret {| ir_entry_count := count; ir_first_key := first; ir_last_key := last;
          ir_comp_size := comp; ir_decomp_size := decomp |}.

(** [parse_keyword_index_entries] *)
Definition parse_keyword_index_entries (input : bytes) (num_blocks : Z) (e : TextEncoding)
    (key_blocks_offset : Z) (lim : Limits) : Result (list KeyBlockDescriptor) :=
  let? minimum_row := checked_usize MIN_KEY_INFO_ROW_LEN "minimum keyword index row length" in
  parse_index_entries (read_row e) 4 minimum_row input num_blocks e key_blocks_offset lim.

(** [decode_key_rows] *)
Definition decode_key_rows (input : bytes) (ctx : KeyRowContext) : Result (list DecodedKeyRow) :=
  decode_key_rows_with read_u32_be_widened input ctx.

(** [WIRE_OPERATIONS] *)
Definition WIRE_OPERATIONS : WireOperations := {| Descriptors.decode_key_rows := decode_key_rows |}.

Context {S : Type} `{HasWorld S}.

(** The raw index: everything [parse_keyword_section] does while it holds it. *)
Definition parse_key_info (source : FileSource) (e : TextEncoding) (h : KeywordHeader)
    (num_blocks key_info_offset key_blocks_offset : Z) (lim : Limits)
    : M S (list KeyBlockDescriptor * Z) :=
  let! key_info_len := lift (checked_usize (kh_key_info_len h) "keyword index length") in
  scoped key_info_len "raw keyword index" (
    let! key_info := read_exact_at source key_info_offset key_info_len "keyword index" in
    let! retained_bytes := lift (keyword_retained_bytes e key_info_len num_blocks) in
    scoped retained_bytes "keyword block metadata" (lift (
      let? blocks := parse_keyword_index_entries key_info num_blocks e key_blocks_offset lim in
      reconcile_key_blocks source blocks (kh_num_entries h) (kh_key_blocks_len h) ;;?
      Ok (blocks, retained_bytes)))).

(** [parse_keyword_section] *)
Definition parse_keyword_section (source : FileSource) (header : Header) (e : TextEncoding)
    (keyword_section_offset : Z) (options : OpenOptions) : M S KeywordSection :=
  if has_keyword_header (encrypted header) || has_keyword_index (encrypted header)
  then merr (Unsupported "encrypted MDict version 1 keyword sections")
  else
    let! header_len := lift (checked_usize KEYWORD_HEADER_LEN "keyword section header length") in
    scoped header_len "keyword section header" (
      let! raw_header := read_exact_at source keyword_section_offset header_len
                           "keyword section header" in
      let! h := lift (with_cursor raw_header read_keyword_header) in
      let! _ := lift (ensure_u64_limit "key_index_bytes" (kh_key_info_len h)
                        (key_index_bytes (limits options))) in
      let! num_blocks := lift (validate_keyword_header_counts (kh_num_blocks h) (kh_num_entries h)
                                 (kh_key_info_len h) (limits options)) in
      let! key_info_offset := lift (add_u64 keyword_section_offset KEYWORD_HEADER_LEN
                                      "keyword index offset overflow") in
      let! key_blocks_offset := lift (add_u64 key_info_offset (kh_key_info_len h)
                                        "keyword blocks offset overflow") in
      let! record_section_offset := lift (add_u64 key_blocks_offset (kh_key_blocks_len h)
                                            "record section offset overflow") in
      let! _ := lift (ensure_range source key_info_offset (kh_key_info_len h) "keyword index") in
      let! _ := lift (ensure_range source key_blocks_offset (kh_key_blocks_len h)
                        "keyword block section") in
      let! '(blocks, retained_bytes) := parse_key_info source e h num_blocks key_info_offset
                                          key_blocks_offset (limits options) in
      mret {|
        ks_num_entries := kh_num_entries h;
        ks_blocks := blocks;
        ks_record_section_offset := record_section_offset;
        ks_retained_bytes := retained_bytes;
        ks_sections := {|
          ksr_header := {| sr_offset := keyword_section_offset; sr_len := KEYWORD_HEADER_LEN |};
          ksr_index := {| sr_offset := key_info_offset; sr_len := kh_key_info_len h |};
          ksr_blocks := {| sr_offset := key_blocks_offset; sr_len := kh_key_blocks_len h |} |} |}).

(** ** Writing an index *)

Definition encode_summary (e : TextEncoding) (key : text) : bytes :=
  summary_units e key :: encode_key e key.

Definition encode_index_row (e : TextEncoding) (r : IndexRow) : bytes :=
  be_split 4 (ir_entry_count r) ++ encode_summary e (ir_first_key r)
    ++ encode_summary e (ir_last_key r) ++ be_split 4 (ir_comp_size r) ++ be_split 4 (ir_decomp_size r).

Definition encode_index (e : TextEncoding) (rows : list IndexRow) : bytes :=
  concat (map (encode_index_row e) rows).

Definition row_writable (e : TextEncoding) (r : IndexRow) : Prop :=
  is_u32 (ir_entry_count r) /\ is_u32 (ir_comp_size r) /\ is_u32 (ir_decomp_size r) /\
  encodable e (ir_first_key r) /\ summary_units e (ir_first_key r) <= 255 /\
  encodable e (ir_last_key r) /\ summary_units e (ir_last_key r) <= 255.

(** * Lemmas *)

Context `{!EnvOk}.

Lemma v1_wp_read_keyword_header input :
  bytes_ok input ->
  wp (with_cursor input read_keyword_header) (fun h =>
    is_u32 (kh_num_blocks h) /\ is_u32 (kh_num_entries h) /\ is_u32 (kh_key_info_len h) /\
    is_u32 (kh_key_blocks_len h)).
Proof.
  intros Hi. apply wp_with_cursor. unfold read_keyword_header.
  apply wpM_bind, wp_read_u32_be_widened; [by apply cursor_new_ok|]. intros v1 c1 ? Hc1 _.
  apply wpM_bind, wp_read_u32_be_widened; [done|]. intros v2 c2 ? Hc2 _.
  apply wpM_bind, wp_read_u32_be_widened; [done|]. intros v3 c3 ? Hc3 _.
  apply wpM_bind, wp_read_u32_be_widened; [done|]. intros v4 c4 ? Hc4 _.
  by apply wpM_ret.
Qed.

Lemma v1_wp_read_summary e context c :
  cursor_ok c ->
  wpM (read_summary e context) c (fun t c' => text_ok t /\ cursor_ok c') (fun _ _ => True).
Proof.
  intros Hc. unfold read_summary. apply wpM_bind, wp_read_u8; [done|]. intros v c1 [? ?] Hc1 _.
  apply wpM_bind, wpM_lift; [|done]. apply wp_ok_or. intros len Hlen. rinv.
  pose proof (unit_size_cases e).
  apply wpM_bind, wp_read_bytes; [nia|done|]. intros s c2 _ _ Hs Hc2 _.
  apply wpM_lift; [|done]. eapply wp_mono; [by apply wp_decode|]. done.
Qed.

Lemma v1_wp_read_row e c :
  cursor_ok c -> wpM (read_row e) c (fun r c' => row_ok r /\ cursor_ok c') (fun _ _ => True).
Proof.
  intros Hc. unfold read_row.
  apply wpM_bind, wp_read_u32_be_widened; [done|]. intros v1 c1 [? _] Hc1 _.
  apply wpM_bind. eapply wpM_mono; [by apply v1_wp_read_summary| |done]. intros t1 c2 [? Hc2].
  apply wpM_bind. eapply wpM_mono; [by apply v1_wp_read_summary| |done]. intros t2 c3 [? Hc3].
  apply wpM_bind, wp_read_u32_be_widened; [done|]. intros v2 c4 [? _] Hc4 _.
  apply wpM_bind, wp_read_u32_be_widened; [done|]. intros v3 c5 [? _] Hc5 _.
  by apply wpM_ret.
Qed.

Lemma v1_wp_decode_rows input ctx : bytes_ok input -> wp (decode_key_rows input ctx) (key_rows_ok ctx).
Proof.
  intros Hi. apply wp_decode_key_rows; [|done]. intros context c Hc.
  apply wp_read_u32_be_widened; [done|]. intros v c' [? _] Hc' [? ->]. split_and!; try done. lia.
Qed.

Lemma budgeted_parse_key_info source e h n info_offset blocks_offset lim :
  source_ok source -> 0 <= info_offset -> 0 <= blocks_offset -> 0 <= n ->
  is_u32 (kh_key_info_len h) ->
  budgeted (S:=S) (parse_key_info source e h n info_offset blocks_offset lim)
    (fun '(blocks, retained) => is_u64 retained /\ zlen blocks = n /\
       key_blocks_ok 4 e lim blocks (kh_num_entries h) blocks_offset
         (blocks_offset + kh_key_blocks_len h))
    (fun _ => 0).
Proof.
  intros Hs ? ? ? [? ?]. unfold parse_key_info.
  eapply (budgeted_bind _ _ (fun n => n = kh_key_info_len h)).
  { by apply budgeted_lift, wp_checked_usize. }
  intros ? ->. apply budgeted_scoped; [done|by intros []|].
  eapply budgeted_bind; [by apply budgeted_read_exact_at|]. intros info (_ & Hinfo & _).
  eapply (budgeted_bind _ _ is_u64).
  { apply budgeted_lift, wp_keyword_retained_bytes; try done. unfold is_u64, u32_max, u64_max in *. lia. }
  intros retained Hr. apply budgeted_scoped; [apply Hr|by intros []|]. apply budgeted_lift.
  apply wp_bind. unfold parse_keyword_index_entries. wp_steps.
  eapply wp_mono; [apply wp_parse_index_entries; try done; apply v1_wp_read_row|].
  intros blocks (Hlen & total & to & Hb). wp_steps.
  eapply wp_mono; [by eapply wp_reconcile|]. intros ? Hok. by wp_steps.
Qed.

(** The contract of the section parser. *)
Lemma v1_budgeted_parse_keyword_section source header e offset options :
  source_ok source -> 0 <= offset ->
  budgeted (S:=S) (parse_keyword_section source header e offset options)
    (keyword_section_ok 4 e (limits options) (fs_len source) offset) (fun _ => 0).
Proof.
  intros Hs Hoff. unfold parse_keyword_section. apply budgeted_if; intros _.
  { by apply (budgeted_lift (Err _)). }
  eapply (budgeted_bind _ _ (fun n => n = 16)).
  { by apply budgeted_lift, wp_checked_usize. }
  intros ? ->. apply budgeted_scoped; [lia|done|].
  eapply budgeted_bind; [by apply budgeted_read_exact_at|]. intros raw (_ & Hraw & _).
  eapply budgeted_bind; [by apply budgeted_lift, v1_wp_read_keyword_header|].
  intros h ([? ?] & [? ?] & Hinfo & [? ?]).
  eapply (budgeted_bind _ _ (fun _ => True)); [by apply budgeted_lift, wp_ensure_u64_limit|].
  intros _ _.
  eapply (budgeted_bind _ _ (fun n => n = kh_num_blocks h /\
    n * size_of_key_block_descriptor <= block_metadata_bytes (limits options))).
  { apply budgeted_lift. unfold validate_keyword_header_counts. wp_steps.
    by apply wp_validate_block_count. }
  intros ? [-> Hmeta].
  eapply (budgeted_bind _ _ (fun n => n = offset + 16)); [by apply budgeted_lift, wp_add_u64|].
  intros ? ->. destruct (id Hinfo) as [? ?].
  eapply (budgeted_bind _ _ (fun n => n = offset + 16 + kh_key_info_len h));
    [by apply budgeted_lift, wp_add_u64|].
  intros ? ->.
  eapply (budgeted_bind _ _ (fun n => n = offset + 16 + kh_key_info_len h + kh_key_blocks_len h));
    [by apply budgeted_lift, wp_add_u64|].
  intros ? ->.
  eapply (budgeted_bind _ _ (fun _ => True)); [by apply budgeted_lift, wp_ensure_range|].
  intros _ _.
  eapply (budgeted_bind _ _ (fun _ =>
    offset + 16 + kh_key_info_len h + kh_key_blocks_len h <= fs_len source));
    [by apply budgeted_lift, wp_ensure_range|].
  intros _ Hlen.
  eapply budgeted_bind; [apply budgeted_parse_key_info; try done; lia|].
  intros [blocks retained] (? & Hn & Hb). apply budgeted_ret.
  unfold keyword_section_ok, KEYWORD_HEADER_LEN, section_ok; simpl. rewrite Hn.
  split_and!; try done; try lia; unfold is_u64, u32_max, u64_max in *; lia.
Qed.

End V1Keyword.

Section RoundTrip.

Context `{Env} (alloc_ok : forall context n, allocator context n = true).

Lemma v1_read_summary_encoded e key context p q :
  encodable e key -> summary_units e key <= 255 ->
  zlen (p ++ encode_summary e key) <= isize_max ->
  read_summary e context (cursor_at p (encode_summary e key ++ q)) =
    (Ok key, cursor_at (p ++ encode_summary e key) q).
Proof.
  intros He Hu Hl. destruct (summary_len e key He) as [Hs ?]. unfold read_summary, encode_summary in *.
  rewrite length_app in Hl. simpl in Hl. assert (isize_max <= u64_max) by done.
  unfold Errors.mbind at 1. cbn [app]. rewrite read_u8_at by lia.
  unfold Errors.mbind, lift, checked_mul. rewrite Hs.
  rewrite (proj2 (Z.leb_le _ u64_max)) by lia. cbn [ok_or].
  rewrite read_bytes_at by (rewrite length_app; simpl; lia).
  rewrite decode_encoded by done. by rewrite <- app_assoc.
Qed.

Lemma v1_read_row_encoded e p r q :
  row_writable e r -> zlen (p ++ encode_index_row e r) <= isize_max ->
  read_row e (cursor_at p (encode_index_row e r ++ q)) =
    (Ok r, cursor_at (p ++ encode_index_row e r) q).
Proof.
  intros (Hc & Hcs & Hds & Hf & Hfu & Hla & Hlu) Hl. unfold encode_index_row in *.
  rewrite !length_app, !length_be_split in Hl. assert (isize_max <= u64_max) by done.
  unfold read_row, Errors.mbind. rewrite <- !app_assoc.
  rewrite read_u32_be_widened_at by (done || lia).
  rewrite v1_read_summary_encoded by (rewrite ?length_app, ?length_be_split; done || lia).
  rewrite v1_read_summary_encoded by (rewrite ?length_app, ?length_be_split; done || lia).
  rewrite read_u32_be_widened_at by (rewrite ?length_app, ?length_be_split; done || lia).
  rewrite read_u32_be_widened_at by (rewrite ?length_app, ?length_be_split; done || lia).
  rewrite <- !app_assoc. by destruct r.
Qed.

Lemma v1_length_index_row e r : MIN_KEY_INFO_ROW_LEN <= zlen (encode_index_row e r).
Proof.
  unfold encode_index_row, encode_summary, MIN_KEY_INFO_ROW_LEN.
  rewrite !length_app, !length_be_split. simpl. lia.
Qed.

Lemma reads_u32 : reads_width 4 read_u32_be_widened.
Proof. intros context p x q ? ?. apply read_u32_be_widened_at; [unfold is_u32, u32_max|]; simpl in *; lia. Qed.

End RoundTrip.

(** * Properties *)

(** Version 1 key blocks: decoding any bytes neither panics nor runs out
    of fuel and yields exactly the declared number of rows, with valid keys and
    non-decreasing record offsets inside the decoded stream; and the rows of a
    block written with 32-bit offsets and terminated keys are read back
    unchanged. *)
Theorem v1_key_rows_correct `{EnvOk} ctx :
  (forall input, bytes_ok input -> wp (decode_key_rows input ctx) (key_rows_ok ctx)) /\
  (forall rows, (forall context n, allocator context n = true) ->
     Forall (fun r => encodable (krc_encoding ctx) (row_key r) /\ is_u32 (record_start r) /\
                      record_start r <= krc_total_decoded_record_len ctx) rows ->
     starts_sorted rows -> zlen rows = expected_entries ctx ->
     zlen (encode_rows 4 (krc_encoding ctx) rows) <= isize_max ->
     zlen rows * size_of_decoded_key_row <= isize_max ->
     decode_key_rows (encode_rows 4 (krc_encoding ctx) rows) ctx = Ok rows).
Proof.
  split; [intros; by apply v1_wp_decode_rows|]. intros rows Ha Hrows Hs Hn Hl Hz.
  apply decode_rows_encoded; try done; [apply reads_u32|].
  eapply Forall_impl; [exact Hrows|]. intros r (? & [? ?] & ?). unfold u32_max in *.
  split_and!; try done; simpl; lia.
Qed.

(** Version 1 keyword index: the raw index of any list of rows within
    the limits is parsed into exactly the descriptors it stands for, with
    cumulative ordinals and block offsets. *)
Theorem v1_keyword_index_round_trip `{Env} e lim rows blocks_offset :
  (forall context n, allocator context n = true) -> limits_ok lim ->
  Forall (fun r => row_writable e r /\ row_valid 4 e lim r) rows ->
  blocks_offset + sum_of ir_comp_size rows <= u64_max -> sum_of ir_entry_count rows <= u64_max ->
  zlen (encode_index e rows) <= isize_max ->
  zlen rows * size_of_key_block_descriptor <= isize_max ->
  parse_keyword_index_entries (encode_index e rows) (zlen rows) e blocks_offset lim =
    Ok (describe blocks_offset 0 rows).
Proof.
  intros Ha Hl Hrows Hc Hs Hlen Hsize.
  apply (index_encoded Ha _ (encode_index_row e) (row_writable e)); try done.
  - intros p r q Hr Hp. by apply v1_read_row_encoded.
  - apply Forall_forall. intros r _. apply v1_length_index_row.
Qed.

Example v1_keyword_index_round_trip_witness :
  @parse_keyword_index_entries simple_env (encode_index EncUtf16Le sample_rows) 2 EncUtf16Le 100
    limits_new = Ok (describe 100 0 sample_rows).
Proof.
  apply (@v1_keyword_index_round_trip simple_env EncUtf16Le limits_new sample_rows 100).
  - reflexivity.
  - exact limits_new_ok.
  - repeat constructor; try (vm_compute; discriminate); try (right; reflexivity);
      try (by eexists); apply (bool_decide_unpack _); vm_compute; exact I.
  - vm_compute. discriminate.
  - vm_compute. discriminate.
  - vm_compute. discriminate.
  - vm_compute. discriminate.
Defined.

Example v1_key_rows_witness :
  let ctx := {| krc_encoding := EncUtf8; expected_entries := 2; krc_total_decoded_record_len := 9 |} in
  let rows := [{| row_key := lit "alpha"; record_start := 0 |};
               {| row_key := lit "beta"; record_start := 9 |}] in
  @decode_key_rows simple_env (encode_rows 4 EncUtf8 rows) ctx = Ok rows.
Proof.
  intros ctx rows. apply (proj2 (@v1_key_rows_correct simple_env simple_env_ok ctx) rows).
  - reflexivity.
  - repeat constructor; try (vm_compute; discriminate); try (left; reflexivity);
      try (by eexists); apply (bool_decide_unpack _); vm_compute; exact I.
  - repeat constructor; vm_compute; discriminate.
  - reflexivity.
  - vm_compute. discriminate.
  - vm_compute. discriminate.
Defined.
