(* ===== verification/V2Keyword.v ===== *)
(** The keyword section of version 2: [src/format/v2/keyword.rs].  The header
    is checksummed and may be encrypted, the index is compressed and may be
    encrypted, and a little-endian header checksum selects a legacy layout of
    the index whose summaries have no terminators. *)

From S2P Require Import Prelude Errors Types Budget Checksum Cursor Utf8 Encoding Source Crypto Compression Descriptors KeySection.

(** [KeywordIndexLayout] *)
Inductive KeywordIndexLayout :=
| Canonical
| LegacyLittleEndianChecksumWithoutSummaryTerminators.

#[export] Instance KeywordIndexLayout_eq_dec : EqDecision KeywordIndexLayout.
Proof. solve_decision. Defined.

(** [detect_keyword_index_layout] *)
Definition detect_keyword_index_layout (header checksum_bytes : bytes) (policy : ChecksumPolicy)
    : Result KeywordIndexLayout :=
  let actual := adler32 header in
  let canonical_checksum := be_combine checksum_bytes in
  if actual =? canonical_checksum then Ok Canonical
  else if actual =? le_combine checksum_bytes
  then Ok LegacyLittleEndianChecksumWithoutSummaryTerminators
  else if negb (is_verify policy) then Ok Canonical
  else Err (ChecksumMismatch "keyword section header" canonical_checksum actual).

(** [minimum_keyword_index_entry_bytes] *)
Definition minimum_keyword_index_entry_bytes (e : TextEncoding) (layout : KeywordIndexLayout)
    : Result Z :=
  let? unit_bytes := ok_or (try_u64 (unit_size e))
                       (InvalidFormat "encoding unit size exceeds u64") in
  let summary_terminators :=
    match layout with
    | Canonical => 2
    | LegacyLittleEndianChecksumWithoutSummaryTerminators => 0
    end in
  let? terminators := ok_or (checked_mul unit_bytes summary_terminators)
                        (InvalidFormat "keyword index entry size overflow") in
  ok_or (checked_add 28 terminators) (InvalidFormat "keyword index entry size overflow").

(** [validate_keyword_header_counts] *)
Definition validate_keyword_header_counts (num_blocks num_entries key_index_decomp_len : Z)
    (e : TextEncoding) (layout : KeywordIndexLayout) (lim : Limits) : Result Z :=
  if num_entries <? num_blocks
  then Err (InvalidData ("keyword block count " +++ fmt_dec num_blocks +++ " exceeds entry count "
                         +++ fmt_dec num_entries)%string)
  else
    let? minimum_row := minimum_keyword_index_entry_bytes e layout in
    let? minimum_index_len := ok_or (checked_mul num_blocks minimum_row)
                                (InvalidFormat "minimum keyword index length overflow") in
    validate_block_count num_blocks minimum_index_len key_index_decomp_len lim.

(** The five fields of the keyword header. *)
Record KeywordHeader := {
  kh_num_blocks : Z;
  kh_num_entries : Z;
  kh_index_decomp_len : Z;
  kh_index_comp_len : Z;
  kh_key_blocks_len : Z;
}.

Definition read_keyword_header : M Cursor KeywordHeader :=
  let! num_blocks := read_u64_be "keyword num_blocks" in
  let! num_entries := read_u64_be "keyword num_entries" in
  let! decomp_len := read_u64_be "keyword index decompressed length" in
  let! comp_len := read_u64_be "keyword index compressed length" in
  let! key_blocks_len := read_u64_be "keyword blocks length" in
  mret {| kh_num_blocks := num_blocks; kh_num_entries := num_entries;
          kh_index_decomp_len := decomp_len; kh_index_comp_len := comp_len;
          kh_key_blocks_len := key_blocks_len |}.

(** The checks of the header fields that need no other state. *)
Definition check_keyword_header (h : KeywordHeader) (lim : Limits) : Result unit :=
  ensure_u64_limit "key_index_decompressed_bytes" (kh_index_decomp_len h) (key_index_bytes lim) ;;?
  ensure_u64_limit "key_index_compressed_bytes" (kh_index_comp_len h) (key_index_bytes lim) ;;?
  if kh_index_comp_len h <? 8
  then Err (InvalidData ("keyword index block is " +++ fmt_dec (kh_index_comp_len h)
                         +++ " bytes; at least 8 are required")%string)
  else Ok tt.

(** The decryption of the index block in [parse_keyword_section]. *)
Definition decrypt_index_block (header : Header) (block : bytes) : Result bytes :=
  if has_keyword_index (encrypted header) then
    if zlen block <? 8 then Err (truncated "keyword index block" 8 (zlen block))
    else
      let? checksum := or_panic (slice block 4 8) "index out of bounds" in
      let? body := or_panic (slice block 8 (zlen block)) "range start index out of range" in
      Ok (take 8 block ++ decrypt_keyword_index_block (be_combine checksum) body)
  else Ok block.

(** Two rows of an index. *)
Definition sample_rows : list IndexRow :=
  [{| ir_entry_count := 2; ir_first_key := lit "alpha"; ir_last_key := lit "beta";
      ir_comp_size := 40; ir_decomp_size := 60 |};
   {| ir_entry_count := 1; ir_first_key := lit "gamma"; ir_last_key := lit "gamma";
      ir_comp_size := 30; ir_decomp_size := 30 |}].

Section V2Keyword.

Context `{Env}.

(** The summary reads of [parse_keyword_index_entries]; [which] is [first] or
    [last]. *)
Definition read_summary (e : TextEncoding) (layout : KeywordIndexLayout) (which : string)
    : M Cursor text :=
  let context := ("keyword block " +++ which +++ " key")%string in
  let! units := read_u16_be (context +++ " size")%string in
  let! len := lift (ok_or (checked_mul units (unit_size e))
                      (InvalidFormat (context +++ " length overflow")%string)) in
  let! input := read_bytes len context in
  let! key := lift (decode e input context) in
  match layout with
  | Canonical =>
      let! terminator := read_bytes (unit_size e) (context +++ " terminator")%string in
      if existsb (fun byte => negb (byte =? 0)) terminator
      then merr (InvalidFormat ("invalid keyword block " +++ which +++ "-key terminator")%string)
      else mret key
  | LegacyLittleEndianChecksumWithoutSummaryTerminators => mret key
  end.

(** The reads of one round of [parse_keyword_index_entries]. *)
Definition read_row (e : TextEncoding) (layout : KeywordIndexLayout) : M Cursor IndexRow :=
  let! count := read_u64_be "keyword block entry count" in
  let! first := read_summary e layout "first" in
  let! last := read_summary e layout "last" in
  let! comp := read_u64_be "keyword block compressed size" in
  let! decomp := read_u64_be "keyword block decompressed size" in
  mret {| ir_entry_count := count; ir_first_key := first; ir_last_key := last;
          ir_comp_size := comp; ir_decomp_size := decomp |}.

(** [parse_keyword_index_entries] *)
Definition parse_keyword_index_entries (input : bytes) (num_blocks : Z) (e : TextEncoding)
    (layout : KeywordIndexLayout) (key_blocks_offset : Z) (lim : Limits)
    : Result (list KeyBlockDescriptor) :=
  let? minimum_row := minimum_keyword_index_entry_bytes e layout in
  let? minimum_row := checked_usize minimum_row "minimum keyword index entry length" in
  parse_index_entries (read_row e layout) 8 minimum_row input num_blocks e key_blocks_offset lim.

(** [decode_key_rows] *)
Definition decode_key_rows (input : bytes) (ctx : KeyRowContext) : Result (list DecodedKeyRow) :=
  decode_key_rows_with read_u64_be input ctx.

(** [WIRE_OPERATIONS] *)
Definition WIRE_OPERATIONS : WireOperations := {| Descriptors.decode_key_rows := decode_key_rows |}.

Context {S : Type} `{HasWorld S}.

(** The keyword header: read, decrypted and checked against its checksum. *)
Definition read_keyword_header_section (raw_header : bytes) (header : Header)
    (options : OpenOptions) : Result (KeywordHeader * KeywordIndexLayout) :=
  let? checksum_bytes := or_panic (slice raw_header 40 44) "index out of bounds" in
  let? fields := or_panic (slice raw_header 0 40) "range end index 40 out of range" in
  let? fields :=
    if has_keyword_header (encrypted header) then
      let? passcode := ok_or (passcode options) MissingPasscode in
      decrypt_keyword_header_block fields passcode
    else Ok fields in
  let? layout := detect_keyword_index_layout fields checksum_bytes (checksum_policy options) in
  let? h := with_cursor fields read_keyword_header in
  Ok (h, layout).

(** The compressed index: everything [parse_keyword_section] does while it
    holds it. *)
Definition parse_key_index (source : FileSource) (header : Header) (e : TextEncoding)
    (h : KeywordHeader) (layout : KeywordIndexLayout)
    (num_blocks key_index_offset key_blocks_offset : Z) (options : OpenOptions)
    : M S (list KeyBlockDescriptor * Z) :=
  let! comp_len := lift (checked_usize (kh_index_comp_len h) "keyword index compressed length") in
  scoped comp_len "compressed keyword index" (
    let! block := read_exact_at source key_index_offset comp_len "keyword index block" in
    let! block := lift (decrypt_index_block header block) in
    let! decomp_len := lift (checked_usize (kh_index_decomp_len h)
                               "keyword index decompressed length") in
    scoped decomp_len "decoded keyword index" (
      let! retained_bytes := lift (keyword_retained_bytes e decomp_len num_blocks) in
      scoped retained_bytes "keyword block metadata" (lift (
        let? decoded := decode_block "keyword index block" block decomp_len (limits options)
                          (checksum_policy options) in
        let? blocks := parse_keyword_index_entries decoded num_blocks e layout key_blocks_offset
                         (limits options) in
        reconcile_key_blocks source blocks (kh_num_entries h) (kh_key_blocks_len h) ;;?
        Ok (blocks, retained_bytes))))).

(** [parse_keyword_section] *)
Definition parse_keyword_section (source : FileSource) (header : Header) (e : TextEncoding)
    (keyword_section_offset : Z) (options : OpenOptions) : M S KeywordSection :=
  scoped 44 "keyword section header" (
    let! raw_header := read_exact_at source keyword_section_offset 44 "keyword section header" in
    let! '(h, layout) := lift (read_keyword_header_section raw_header header options) in
    let! _ := lift (check_keyword_header h (limits options)) in
    let! num_blocks := lift (validate_keyword_header_counts (kh_num_blocks h) (kh_num_entries h)
                               (kh_index_decomp_len h) e layout (limits options)) in
    let! key_index_offset := lift (ok_or (checked_add keyword_section_offset 44)
                                     (InvalidFormat "keyword index offset overflow")) in
    let! key_blocks_offset := lift (ok_or (checked_add key_index_offset (kh_index_comp_len h))
                                      (InvalidFormat "keyword blocks offset overflow")) in
    let! record_section_offset := lift (ok_or (checked_add key_blocks_offset (kh_key_blocks_len h))
                                          (InvalidFormat "record section offset overflow")) in
    let! _ := lift (ensure_range source key_index_offset (kh_index_comp_len h)
                      "keyword index block") in
    let! _ := lift (ensure_range source key_blocks_offset (kh_key_blocks_len h)
                      "keyword block section") in
    let! '(blocks, retained_bytes) := parse_key_index source header e h layout num_blocks
                                        key_index_offset key_blocks_offset options in
    mret {|
      ks_num_entries := kh_num_entries h;
      ks_blocks := blocks;
      ks_record_section_offset := record_section_offset;
      ks_retained_bytes := retained_bytes;
      ks_sections := {|
        ksr_header := {| sr_offset := keyword_section_offset; sr_len := 44 |};
        ksr_index := {| sr_offset := key_index_offset; sr_len := kh_index_comp_len h |};
        ksr_blocks := {| sr_offset := key_blocks_offset; sr_len := kh_key_blocks_len h |} |} |}).

(** ** Writing an index *)

Definition summary_terminator (e : TextEncoding) (layout : KeywordIndexLayout) : bytes :=
  match layout with
  | Canonical => key_terminator e
  | LegacyLittleEndianChecksumWithoutSummaryTerminators => []
  end.

Definition encode_summary (e : TextEncoding) (layout : KeywordIndexLayout) (key : text) : bytes :=
  be_split 2 (summary_units e key) ++ encode_key e key ++ summary_terminator e layout.

Definition encode_index_row (e : TextEncoding) (layout : KeywordIndexLayout) (r : IndexRow) : bytes :=
  be_split 8 (ir_entry_count r) ++ encode_summary e layout (ir_first_key r)
    ++ encode_summary e layout (ir_last_key r)
    ++ be_split 8 (ir_comp_size r) ++ be_split 8 (ir_decomp_size r).

Definition encode_index (e : TextEncoding) (layout : KeywordIndexLayout) (rows : list IndexRow)
    : bytes :=
  concat (map (encode_index_row e layout) rows).

Definition row_writable (e : TextEncoding) (r : IndexRow) : Prop :=
  is_u64 (ir_entry_count r) /\ is_u64 (ir_comp_size r) /\ is_u64 (ir_decomp_size r) /\
  encodable e (ir_first_key r) /\ summary_units e (ir_first_key r) <= u16_max /\
  encodable e (ir_last_key r) /\ summary_units e (ir_last_key r) <= u16_max.

(** * Lemmas *)

Context `{!EnvOk}.

Lemma v2_wp_read_keyword_header input :
  bytes_ok input ->
  wp (with_cursor input read_keyword_header) (fun h =>
    is_u64 (kh_num_blocks h) /\ is_u64 (kh_num_entries h) /\ is_u64 (kh_index_decomp_len h) /\
    is_u64 (kh_index_comp_len h) /\ is_u64 (kh_key_blocks_len h)).
Proof.
  intros Hi. apply wp_with_cursor. unfold read_keyword_header.
  apply wpM_bind, wp_read_u64_be; [by apply cursor_new_ok|]. intros v1 c1 ? Hc1 _.
  apply wpM_bind, wp_read_u64_be; [done|]. intros v2 c2 ? Hc2 _.
  apply wpM_bind, wp_read_u64_be; [done|]. intros v3 c3 ? Hc3 _.
  apply wpM_bind, wp_read_u64_be; [done|]. intros v4 c4 ? Hc4 _.
  apply wpM_bind, wp_read_u64_be; [done|]. intros v5 c5 ? Hc5 _.
  by apply wpM_ret.
Qed.

Lemma wp_detect_layout fields checksum policy :
  wp (detect_keyword_index_layout fields checksum policy) (fun _ => True).
Proof. unfold detect_keyword_index_layout. cbv zeta. by wp_steps. Qed.

Lemma wp_read_keyword_header_section raw header options :
  bytes_ok raw -> zlen raw = 44 ->
  wp (read_keyword_header_section raw header options) (fun '(h, _) =>
    is_u64 (kh_num_blocks h) /\ is_u64 (kh_num_entries h) /\ is_u64 (kh_index_decomp_len h) /\
    is_u64 (kh_index_comp_len h) /\ is_u64 (kh_key_blocks_len h)).
Proof.
  intros Hr Hl. unfold read_keyword_header_section.
  apply wp_bind, wp_or_panic; [apply slice_is_Some; lia|]. intros ck _.
  apply wp_bind, wp_or_panic; [apply slice_is_Some; lia|]. intros fields Hf.
  apply wp_bind, (wp_mono _ bytes_ok).
  { wp_steps; [|by eapply slice_Forall].
    eapply wp_mono; [apply wp_decrypt_keyword_header_block; by eapply slice_Forall|]. naive_solver. }
  intros fields' Hf'. wp_steps. eapply wp_mono; [apply wp_detect_layout|]. intros layout _.
  wp_steps. eapply wp_mono; [by apply v2_wp_read_keyword_header|]. intros h Hh. by wp_steps.
Qed.

Lemma wp_decrypt_index_block header block :
  bytes_ok block -> wp (decrypt_index_block header block) bytes_ok.
Proof.
  intros Hb. unfold decrypt_index_block. apply wp_if; intros _; [|done]. apply wp_if; intros ?; [done|].
  zbool.
  apply wp_bind, wp_or_panic; [apply slice_is_Some; lia|]. intros ck _.
  apply wp_bind, wp_or_panic; [apply slice_is_Some; lia|]. intros body Hbody.
  simpl. apply Forall_app; split; [by apply Forall_take|].
  apply decrypt_keyword_index_ok. by eapply slice_Forall.
Qed.

Lemma wp_minimum_row e layout (Q : Z -> Prop) :
  (forall n, 0 <= n -> Q n) -> wp (minimum_keyword_index_entry_bytes e layout) Q.
Proof.
  intros HQ. unfold minimum_keyword_index_entry_bytes. wp_steps. rinv. apply HQ.
  pose proof (unit_size_cases e). destruct layout; lia.
Qed.

Lemma v2_wp_read_summary e layout which c :
  cursor_ok c ->
  wpM (read_summary e layout which) c (fun t c' => text_ok t /\ cursor_ok c') (fun _ _ => True).
Proof.
  intros Hc. unfold read_summary. apply wpM_bind, wp_read_u16_be; [done|]. intros v c1 [? ?] Hc1 _.
  apply wpM_bind, wpM_lift; [|done]. apply wp_ok_or. intros len Hlen. rinv.
  pose proof (unit_size_cases e).
  apply wpM_bind, wp_read_bytes; [nia|done|]. intros s c2 _ _ Hs Hc2 _.
  apply wpM_bind, wpM_lift; [|done]. eapply wp_mono; [by apply wp_decode|]. intros key Hkey.
  destruct layout; [|by apply wpM_ret].
  apply wpM_bind, wp_read_bytes; [lia|done|]. intros term c3 _ _ _ Hc3 _.
  apply wpM_if; intros _; [done|]. by apply wpM_ret.
Qed.

Lemma v2_wp_read_row e layout c :
  cursor_ok c -> wpM (read_row e layout) c (fun r c' => row_ok r /\ cursor_ok c') (fun _ _ => True).
Proof.
  intros Hc. unfold read_row.
  apply wpM_bind, wp_read_u64_be; [done|]. intros v1 c1 [? _] Hc1 _.
  apply wpM_bind. eapply wpM_mono; [by apply v2_wp_read_summary| |done]. intros t1 c2 [? Hc2].
  apply wpM_bind. eapply wpM_mono; [by apply v2_wp_read_summary| |done]. intros t2 c3 [? Hc3].
  apply wpM_bind, wp_read_u64_be; [done|]. intros v2 c4 [? _] Hc4 _.
  apply wpM_bind, wp_read_u64_be; [done|]. intros v3 c5 [? _] Hc5 _.
  by apply wpM_ret.
Qed.

Lemma v2_wp_decode_rows input ctx : bytes_ok input -> wp (decode_key_rows input ctx) (key_rows_ok ctx).
Proof.
  intros Hi. apply wp_decode_key_rows; [|done]. intros context c Hc.
  apply wp_read_u64_be; [done|]. intros v c' [? _] Hc' [? ->]. split_and!; try done. lia.
Qed.

Lemma budgeted_parse_key_index source header e h layout n index_offset blocks_offset options :
  source_ok source -> 0 <= index_offset -> 0 <= blocks_offset -> 0 <= n ->
  is_u64 (kh_index_comp_len h) -> is_u64 (kh_index_decomp_len h) ->
  budgeted (S:=S) (parse_key_index source header e h layout n index_offset blocks_offset options)
    (fun '(blocks, retained) => is_u64 retained /\ zlen blocks = n /\
       key_blocks_ok 8 e (limits options) blocks (kh_num_entries h) blocks_offset
         (blocks_offset + kh_key_blocks_len h))
    (fun _ => 0).
Proof.
  intros Hs ? ? ? [? ?] [? ?]. unfold parse_key_index.
  eapply (budgeted_bind _ _ (fun n => n = kh_index_comp_len h)).
  { by apply budgeted_lift, wp_checked_usize. }
  intros ? ->. apply budgeted_scoped; [done|by intros []|].
  eapply budgeted_bind; [by apply budgeted_read_exact_at|]. intros block (_ & Hblock & _).
  eapply budgeted_bind; [by apply budgeted_lift, wp_decrypt_index_block|]. intros block' Hblock'.
  eapply (budgeted_bind _ _ (fun n => n = kh_index_decomp_len h)).
  { by apply budgeted_lift, wp_checked_usize. }
  intros ? ->. apply budgeted_scoped; [done|by intros []|].
  eapply (budgeted_bind _ _ is_u64).
  { by apply budgeted_lift, wp_keyword_retained_bytes. }
  intros retained Hr. apply budgeted_scoped; [apply Hr|by intros []|]. apply budgeted_lift.
  apply wp_bind. eapply wp_mono; [by apply wp_decode_block|]. intros decoded (_ & Hdec & _).
  apply wp_bind. unfold parse_keyword_index_entries. apply wp_bind, wp_minimum_row. intros m Hm.
  wp_steps. eapply wp_mono; [apply wp_parse_index_entries; try done; apply v2_wp_read_row|].
  intros blocks (Hlen & total & to & Hb). wp_steps.
  eapply wp_mono; [by eapply wp_reconcile|]. intros ? Hok. by wp_steps.
Qed.

(** The contract of the section parser. *)
Lemma v2_budgeted_parse_keyword_section source header e offset options :
  source_ok source -> 0 <= offset ->
  budgeted (S:=S) (parse_keyword_section source header e offset options)
    (keyword_section_ok 8 e (limits options) (fs_len source) offset) (fun _ => 0).
Proof.
  intros Hs Hoff. unfold parse_keyword_section. apply budgeted_scoped; [lia|done|].
  eapply budgeted_bind; [by apply budgeted_read_exact_at|]. intros raw (Hrl & Hraw & _).
  eapply budgeted_bind; [by apply budgeted_lift, wp_read_keyword_header_section|].
  intros [h layout] ([? ?] & Hent & Hdl & Hcl & [? ?]). destruct (id Hcl) as [? ?].
  eapply (budgeted_bind _ _ (fun _ => True)).
  { apply budgeted_lift. unfold check_keyword_header. by wp_steps. }
  intros _ _.
  eapply (budgeted_bind _ _ (fun n => n = kh_num_blocks h /\
    n * size_of_key_block_descriptor <= block_metadata_bytes (limits options))).
  { apply budgeted_lift. unfold validate_keyword_header_counts. wp_steps.
    apply wp_minimum_row. intros ? ?. wp_steps. by apply wp_validate_block_count. }
  intros ? [-> Hmeta].
  eapply (budgeted_bind _ _ (fun n => n = offset + 44)).
  { apply budgeted_lift, wp_ok_or. intros n Hn. by rinv. }
  intros ? ->.
  eapply (budgeted_bind _ _ (fun n => n = offset + 44 + kh_index_comp_len h)).
  { apply budgeted_lift, wp_ok_or. intros n Hn. by rinv. }
  intros ? ->.
  eapply (budgeted_bind _ _ (fun n => n = offset + 44 + kh_index_comp_len h + kh_key_blocks_len h)).
  { apply budgeted_lift, wp_ok_or. intros n Hn. by rinv. }
  intros ? ->.
  eapply (budgeted_bind _ _ (fun _ => True)); [by apply budgeted_lift, wp_ensure_range|].
  intros _ _.
  eapply (budgeted_bind _ _ (fun _ =>
    offset + 44 + kh_index_comp_len h + kh_key_blocks_len h <= fs_len source));
    [by apply budgeted_lift, wp_ensure_range|].
  intros _ Hlen.
  eapply budgeted_bind; [apply budgeted_parse_key_index; try done; lia|].
  intros [blocks retained] (? & Hn & Hb). apply budgeted_ret.
  unfold keyword_section_ok, section_ok; simpl. rewrite Hn.
  split_and!; try done; lia.
Qed.

End V2Keyword.

Section RoundTrip.

Context `{Env} (alloc_ok : forall context n, allocator context n = true).

Lemma length_terminator e : zlen (key_terminator e) = unit_size e.
Proof. unfold key_terminator. rewrite length_replicate. pose proof (unit_size_cases e). lia. Qed.

Lemma v2_read_summary_encoded e layout which key p q :
  encodable e key -> summary_units e key <= u16_max ->
  zlen (p ++ encode_summary e layout key) <= isize_max ->
  read_summary e layout which (cursor_at p (encode_summary e layout key ++ q)) =
    (Ok key, cursor_at (p ++ encode_summary e layout key) q).
Proof.
  intros He Hu Hl. destruct (summary_len e key He) as [Hs ?]. unfold read_summary, encode_summary in *.
  rewrite !length_app, length_be_split in Hl. assert (isize_max <= u64_max) by done.
  unfold Errors.mbind at 1. rewrite <- !app_assoc. rewrite read_u16_be_at by lia.
  unfold Errors.mbind at 1, lift at 1, checked_mul. rewrite Hs.
  rewrite (proj2 (Z.leb_le _ u64_max)) by lia. cbn [ok_or].
  unfold Errors.mbind at 1. rewrite read_bytes_at by (rewrite !length_app, length_be_split; lia).
  unfold Errors.mbind at 1, lift at 1. rewrite decode_encoded by done.
  destruct layout; cbn [summary_terminator] in *.
  - unfold Errors.mbind at 1. rewrite <- (length_terminator e).
    rewrite read_bytes_at by (rewrite !length_app, length_be_split; lia).
    replace (existsb (fun byte => negb (byte =? 0)) (key_terminator e)) with false by by destruct e.
    by rewrite <- !app_assoc.
  - by rewrite app_nil_r, <- app_assoc.
Qed.

Lemma v2_read_row_encoded e layout p r q :
  row_writable e r -> zlen (p ++ encode_index_row e layout r) <= isize_max ->
  read_row e layout (cursor_at p (encode_index_row e layout r ++ q)) =
    (Ok r, cursor_at (p ++ encode_index_row e layout r) q).
Proof.
  intros (Hc & Hcs & Hds & Hf & Hfu & Hla & Hlu) Hl. unfold encode_index_row in *.
  rewrite !length_app, !length_be_split in Hl. assert (isize_max <= u64_max) by done.
  unfold read_row, Errors.mbind. rewrite <- !app_assoc.
  rewrite read_u64_be_at by (done || lia).
  rewrite v2_read_summary_encoded by (rewrite ?length_app, ?length_be_split; done || lia).
  rewrite v2_read_summary_encoded by (rewrite ?length_app, ?length_be_split; done || lia).
  rewrite read_u64_be_at by (rewrite ?length_app, ?length_be_split; done || lia).
  rewrite read_u64_be_at by (rewrite ?length_app, ?length_be_split; done || lia).
  rewrite <- !app_assoc. by destruct r.
Qed.

Lemma minimum_row_Ok e layout :
  minimum_keyword_index_entry_bytes e layout =
    Ok (28 + 2 * zlen (summary_terminator e layout)).
Proof. by destruct e, layout. Qed.

Lemma v2_length_index_row e layout r :
  28 + 2 * zlen (summary_terminator e layout) <= zlen (encode_index_row e layout r).
Proof.
  unfold encode_index_row, encode_summary. rewrite !length_app, !length_be_split. lia.
Qed.

Lemma reads_u64 : reads_width 8 read_u64_be.
Proof. intros context p x q ? ?. apply read_u64_be_at; [unfold is_u64, u64_max|]; simpl in *; lia. Qed.

End RoundTrip.

(** * Properties *)

(** Version 2 key blocks: decoding any bytes neither panics nor runs out
    of fuel and yields exactly the declared number of rows, with valid keys and
    non-decreasing record offsets inside the decoded stream; and the rows of a
    block written with 64-bit offsets and terminated keys are read back
    unchanged. *)
Theorem v2_key_rows_correct `{EnvOk} ctx :
  (forall input, bytes_ok input -> wp (decode_key_rows input ctx) (key_rows_ok ctx)) /\
  (forall rows, (forall context n, allocator context n = true) ->
     Forall (fun r => encodable (krc_encoding ctx) (row_key r) /\ is_u64 (record_start r) /\
                      record_start r <= krc_total_decoded_record_len ctx) rows ->
     starts_sorted rows -> zlen rows = expected_entries ctx ->
     zlen (encode_rows 8 (krc_encoding ctx) rows) <= isize_max ->
     zlen rows * size_of_decoded_key_row <= isize_max ->
     decode_key_rows (encode_rows 8 (krc_encoding ctx) rows) ctx = Ok rows).
Proof.
  split; [intros; by apply v2_wp_decode_rows|]. intros rows Ha Hrows Hs Hn Hl Hz.
  apply decode_rows_encoded; try done; [apply reads_u64|].
  eapply Forall_impl; [exact Hrows|]. intros r (? & [? ?] & ?). unfold u64_max in *.
  split_and!; try done; simpl; lia.
Qed.

(** Version 2 keyword index: the decompressed index of any list of rows
    within the limits is parsed into exactly the descriptors it stands for, in
    the canonical layout and in the legacy one without terminators. *)
Theorem v2_keyword_index_round_trip `{Env} e layout lim rows blocks_offset :
  (forall context n, allocator context n = true) -> limits_ok lim ->
  Forall (fun r => row_writable e r /\ row_valid 8 e lim r) rows ->
  blocks_offset + sum_of ir_comp_size rows <= u64_max -> sum_of ir_entry_count rows <= u64_max ->
  zlen (encode_index e layout rows) <= isize_max ->
  zlen rows * size_of_key_block_descriptor <= isize_max ->
  parse_keyword_index_entries (encode_index e layout rows) (zlen rows) e layout blocks_offset lim =
    Ok (describe blocks_offset 0 rows).
Proof.
  intros Ha Hl Hrows Hc Hs Hlen Hsize. unfold parse_keyword_index_entries.
  rewrite minimum_row_Ok. cbn [rbind].
  replace (checked_usize _ _) with (@Ok Z (28 + 2 * zlen (summary_terminator e layout)))
    by by destruct e, layout.
  cbn [rbind].
  apply (index_encoded Ha _ (encode_index_row e layout) (row_writable e)); try done; try lia.
  - intros p r q Hr Hp. by apply v2_read_row_encoded.
  - apply Forall_forall. intros r _. apply v2_length_index_row.
Qed.

Example v2_keyword_index_round_trip_witness :
  @parse_keyword_index_entries simple_env (encode_index EncUtf8 Canonical sample_rows) 2 EncUtf8
    Canonical 100 limits_new = Ok (describe 100 0 sample_rows).
Proof.
  apply (@v2_keyword_index_round_trip simple_env EncUtf8 Canonical limits_new sample_rows 100).
  - reflexivity.
  - exact limits_new_ok.
  - repeat constructor; try (vm_compute; discriminate); try (left; reflexivity);
      try (by eexists); apply (bool_decide_unpack _); vm_compute; exact I.
  - vm_compute. discriminate.
  - vm_compute. discriminate.
  - vm_compute. discriminate.
  - vm_compute. discriminate.
Defined.

Example v2_key_rows_witness :
  let ctx := {| krc_encoding := EncUtf16Le; expected_entries := 2; krc_total_decoded_record_len := 9 |} in
  let rows := [{| row_key := lit "alpha"; record_start := 0 |};
               {| row_key := lit "beta"; record_start := 9 |}] in
  @decode_key_rows simple_env (encode_rows 8 EncUtf16Le rows) ctx = Ok rows.
Proof.
  intros ctx rows. apply (proj2 (@v2_key_rows_correct simple_env simple_env_ok ctx) rows).
  - reflexivity.
  - repeat constructor; try (vm_compute; discriminate); try (right; reflexivity);
      try (by eexists); apply (bool_decide_unpack _); vm_compute; exact I.
  - repeat constructor; vm_compute; discriminate.
  - reflexivity.
  - vm_compute. discriminate.
  - vm_compute. discriminate.
Defined.
