(* ===== verification/RecordSection.v ===== *)
(** The record section: [src/format/v1/record.rs] and
    [src/format/v2/record.rs] differ only in the width of their fields, 32
    bits in version 1 and 64 in version 2, which is a parameter here. *)

From S2P Require Import Prelude Errors Types Budget Cursor Encoding Source Descriptors.

(** [RecordSectionRanges] *)
Record RecordSectionRanges := {
  rsr_header : SectionRange;
  rsr_index : SectionRange;
  rsr_blocks : SectionRange;
}.

(** [RecordSection] *)
Record RecordSection := {
  rs_num_entries : Z;
  rs_total_decompressed_len : Z;
  rs_blocks : list RecordBlockDescriptor;
  rs_retained_bytes : Z;
  rs_sections : RecordSectionRanges;
}.

(** The four fields of the record header. *)
Record RecordHeader := {
  rh_num_blocks : Z;
  rh_num_entries : Z;
  rh_index_len : Z;
  rh_blocks_len : Z;
}.

(** How a version stores a size: its width and the read of one field. *)
Record FieldWidth := {
  field_bytes : Z;
  read_field : string -> M Cursor Z;
}.

Definition v1_fields : FieldWidth := {| field_bytes := 4; read_field := read_u32_be_widened |}.

Definition v2_fields : FieldWidth := {| field_bytes := 8; read_field := read_u64_be |}.

Section RecordSection.

Context `{Env} (w : FieldWidth).

(** [RECORD_HEADER_LEN] *)
Definition record_header_len : Z := 4 * field_bytes w.

(** [RECORD_INDEX_ROW_LEN] *)
Definition record_index_row_len : Z := 2 * field_bytes w.

Definition read_record_header : M Cursor RecordHeader :=
  let! num_blocks := read_field w "record num_blocks" in
  let! num_entries := read_field w "record num_entries" in
  let! index_len := read_field w "record index length" in
  let! blocks_len := read_field w "record blocks length" in
  mret {| rh_num_blocks := num_blocks; rh_num_entries := num_entries;
          rh_index_len := index_len; rh_blocks_len := blocks_len |}.

(** [validate_record_header]: the block count and the index length. *)
Definition validate_record_header (num_blocks index_len : Z) (lim : Limits) : Result (Z * Z) :=
  let? expected_index_len := ok_or (checked_mul num_blocks record_index_row_len)
                               (InvalidFormat "record index length overflow") in
  if negb (index_len =? expected_index_len)
  then Err (InvalidData ("record index length mismatch: header=" +++ fmt_dec index_len
                         +++ ", expected=" +++ fmt_dec expected_index_len)%string)
  else
    ensure_u64_limit "record_index_bytes" index_len (record_index_bytes lim) ;;?
    let? index_len := checked_usize index_len "record index length" in
    let? num_blocks := checked_usize num_blocks "record block count" in
    let? metadata_bytes := ok_or (checked_mul num_blocks size_of_record_block_descriptor)
                             (InvalidFormat "record block metadata size overflow") in
    ensure_usize_limit "record_block_metadata_bytes" metadata_bytes (block_metadata_bytes lim) ;;?
    Ok (num_blocks, index_len).

(** [validate_record_block_sizes] *)
Definition validate_record_block_sizes (comp_size decomp_size : Z) (lim : Limits) : Result unit :=
  ensure_u64_limit "record_block_compressed_bytes" comp_size (compressed_block_bytes lim) ;;?
  ensure_u64_limit "record_block_decompressed_bytes" decomp_size (decompressed_block_bytes lim) ;;?
  if comp_size <? 8
  then Err (InvalidData ("record block is " +++ fmt_dec comp_size
                         +++ " bytes; at least 8 are required")%string)
  else Ok tt.

(** The loop of [parse_record_section] over [n] rows: the blocks, the offsets
    behind the last one and the sum of the compressed sizes. *)
Fixpoint parse_record_rows (source : FileSource) (lim : Limits) (n : nat)
    (comp_offset decomp_offset total_comp : Z)
    : M Cursor (list RecordBlockDescriptor * Z * Z * Z) :=
  match n with
  | O => mret ([], comp_offset, decomp_offset, total_comp)
  | S n =>
      let! comp_size := read_field w "record block compressed size" in
      let! decomp_size := read_field w "record block decompressed size" in
      let! _ := lift (validate_record_block_sizes comp_size decomp_size lim) in
      let! _ := lift (ensure_range source comp_offset comp_size "record block") in
      let! next_comp := lift (add_u64 comp_offset comp_size "record block offset overflow") in
      let! next_decomp := lift (add_u64 decomp_offset decomp_size "record block offset overflow") in
      let! total_comp := lift (add_u64 total_comp comp_size "record block length overflow") in
      let! '(blocks, comp_end, decomp_end, total) :=
        parse_record_rows source lim n next_comp next_decomp total_comp in
      mret ({| rb_comp_offset := comp_offset; rb_comp_size := comp_size;
               rb_decomp_offset := decomp_offset; rb_decomp_size := decomp_size |} :: blocks,
            comp_end, decomp_end, total)
  end.

(** The index of [num_blocks] rows: the blocks and the decoded length. *)
Definition parse_record_index (source : FileSource) (lim : Limits) (index : bytes)
    (num_blocks blocks_offset blocks_len : Z) : Result (list RecordBlockDescriptor * Z) :=
  try_reserve_vec 0 size_of_record_block_descriptor num_blocks "record block metadata" ;;?
  match parse_record_rows source lim (Z.to_nat num_blocks) blocks_offset 0 0 (cursor_new index) with
  | (Ok (blocks, comp_end, decomp_end, total_comp), cursor) =>
      if negb (total_comp =? blocks_len)
      then Err (InvalidData ("record blocks length mismatch: header=" +++ fmt_dec blocks_len
                             +++ ", summed=" +++ fmt_dec total_comp)%string)
      else if negb (cursor_is_empty cursor)
      then Err (InvalidData ("record block index has " +++ fmt_dec (remaining cursor)
                             +++ " trailing bytes")%string)
      else
        let? expected_blocks_end := add_u64 blocks_offset blocks_len
                                      "record block section end overflow" in
        if negb (comp_end =? expected_blocks_end)
        then Err (InvalidData "record block ranges do not cover the declared section")
        else Ok (blocks, decomp_end)
  | (Err e, _) => Err e
  | (Panic site, _) => Panic site
  | (OutOfFuel, _) => OutOfFuel
  end.

Context {S : Type} `{HasWorld S}.

(** [parse_record_section] *)
Definition parse_record_section_with (source : FileSource) (record_section_offset : Z)
    (lim : Limits) : M S RecordSection :=
  scoped record_header_len "record section header" (
    let! header_bytes := read_exact_at source record_section_offset record_header_len
                           "record section header" in
    let! h := lift (with_cursor header_bytes read_record_header) in
    let! '(num_blocks, index_len) := lift (validate_record_header (rh_num_blocks h)
                                             (rh_index_len h) lim) in
    let! index_offset := lift (add_u64 record_section_offset record_header_len
                                 "record index offset overflow") in
    let! blocks_offset := lift (add_u64 index_offset (rh_index_len h)
                                  "record blocks offset overflow") in
    let! _ := lift (ensure_range source index_offset (rh_index_len h) "record block index") in
    let! _ := lift (ensure_range source blocks_offset (rh_blocks_len h) "record block section") in
    scoped index_len "record block index" (
      let! retained_bytes := lift (ok_or (checked_mul num_blocks size_of_record_block_descriptor)
                                     (InvalidFormat "record metadata size overflow")) in
      scoped retained_bytes "record block metadata" (
        let! index_bytes := read_exact_at source index_offset index_len "record block index" in
        let! '(blocks, decoded_len) := lift (parse_record_index source lim index_bytes num_blocks
                                               blocks_offset (rh_blocks_len h)) in
        mret {|
          rs_num_entries := rh_num_entries h;
          rs_total_decompressed_len := decoded_len;
          rs_blocks := blocks;
          rs_retained_bytes := retained_bytes;
          rs_sections := {|
            rsr_header := {| sr_offset := record_section_offset; sr_len := record_header_len |};
            rsr_index := {| sr_offset := index_offset; sr_len := rh_index_len h |};
            rsr_blocks := {| sr_offset := blocks_offset; sr_len := rh_blocks_len h |} |} |}))).

(** ** Writing an index *)

(** The compressed and decompressed size of each block. *)
Definition encode_record_index (rows : list (Z * Z)) : bytes :=
  concat (map (fun r => be_split (Z.to_nat (field_bytes w)) (fst r)
                          ++ be_split (Z.to_nat (field_bytes w)) (snd r)) rows).

Fixpoint describe_records (comp_offset decomp_offset : Z) (rows : list (Z * Z))
    : list RecordBlockDescriptor :=
  match rows with
  | [] => []
  | (comp, decomp) :: rows =>
      {| rb_comp_offset := comp_offset; rb_comp_size := comp;
         rb_decomp_offset := decomp_offset; rb_decomp_size := decomp |}
      :: describe_records (comp_offset + comp) (decomp_offset + decomp) rows
  end.

Definition record_row_valid (lim : Limits) (r : Z * Z) : Prop :=
  8 <= fst r <= compressed_block_bytes lim /\ 0 <= snd r <= decompressed_block_bytes lim /\
  fst r < 256 ^ field_bytes w /\ snd r < 256 ^ field_bytes w.

Definition sum_fst (rows : list (Z * Z)) : Z := foldr (fun r n => fst r + n) 0 rows.

Definition sum_snd (rows : list (Z * Z)) : Z := foldr (fun r n => snd r + n) 0 rows.

(** * What a record section promises *)

Definition record_block_valid (lim : Limits) (b : RecordBlockDescriptor) : Prop :=
  8 <= rb_comp_size b <= compressed_block_bytes lim /\
  0 <= rb_decomp_size b <= decompressed_block_bytes lim /\
  0 <= rb_comp_offset b /\ 0 <= rb_decomp_offset b.

Definition record_blocks_ok (lim : Limits) (blocks : list RecordBlockDescriptor)
    (decoded_len from to : Z) : Prop :=
  Forall (record_block_valid lim) blocks /\
  consecutive rb_decomp_offset rb_decomp_size 0 blocks decoded_len /\
  consecutive rb_comp_offset rb_comp_size from blocks to.

Definition record_section_ok (lim : Limits) (file_len offset : Z) (rs : RecordSection) : Prop :=
  let s := rs_sections rs in
  let file_end := sr_offset (rsr_blocks s) + sr_len (rsr_blocks s) in
  is_u64 (rs_num_entries rs) /\ is_u64 (rs_retained_bytes rs) /\
  zlen (rs_blocks rs) * size_of_record_block_descriptor <= block_metadata_bytes lim /\
  section_ok (rsr_header s) /\ section_ok (rsr_index s) /\ section_ok (rsr_blocks s) /\
  consecutive sr_offset sr_len offset [rsr_header s; rsr_index s; rsr_blocks s] file_end /\
  file_end <= file_len /\
  is_u64 (rs_total_decompressed_len rs) /\
  record_blocks_ok lim (rs_blocks rs) (rs_total_decompressed_len rs)
    (sr_offset (rsr_blocks s)) file_end.

(** * Lemmas *)

(** What the field reads of both widths do. *)
Definition field_width_ok : Prop :=
  0 <= field_bytes w <= 8 /\
  forall context c (Q : Z -> Cursor -> Prop), cursor_ok c ->
    (forall v c', is_u64 v -> cursor_ok c' -> Q v c') ->
    wpM (read_field w context) c Q (fun _ _ => True).

Context (Hw : field_width_ok).

Lemma wp_read_record_header input :
  bytes_ok input ->
  wp (with_cursor input read_record_header) (fun h =>
    is_u64 (rh_num_blocks h) /\ is_u64 (rh_num_entries h) /\ is_u64 (rh_index_len h) /\
    is_u64 (rh_blocks_len h)).
Proof.
  intros Hi. destruct Hw as [_ Hr]. apply wp_with_cursor. unfold read_record_header.
  apply wpM_bind, Hr; [by apply cursor_new_ok|]. intros v1 c1 ? Hc1.
  apply wpM_bind, Hr; [done|]. intros v2 c2 ? Hc2.
  apply wpM_bind, Hr; [done|]. intros v3 c3 ? Hc3.
  apply wpM_bind, Hr; [done|]. intros v4 c4 ? Hc4. by apply wpM_ret.
Qed.

Lemma wp_record_rows source lim n comp decomp total c :
  cursor_ok c -> is_u64 comp -> is_u64 decomp ->
  wpM (parse_record_rows source lim n comp decomp total) c
    (fun '(blocks, comp_end, decomp_end, total_end) _ =>
       length blocks = n /\ Forall (record_block_valid lim) blocks /\ is_u64 decomp_end /\
       consecutive rb_comp_offset rb_comp_size comp blocks comp_end /\
       consecutive rb_decomp_offset rb_decomp_size decomp blocks decomp_end)
    (fun _ _ => True).
Proof.
  destruct Hw as [_ Hr]. revert comp decomp total c.
  induction n as [|n IH]; intros comp decomp total c Hc [? ?] [? ?]; cbn [parse_record_rows].
  { by apply wpM_ret. }
  apply wpM_bind, Hr; [done|]. intros v1 c1 [? ?] Hc1.
  apply wpM_bind, Hr; [done|]. intros v2 c2 [? ?] Hc2.
  apply (wpM_bind (lift _)), wpM_lift; [|done]. unfold validate_record_block_sizes. wp_steps. zbool.
  apply wpM_bind, wpM_lift; [|done]. apply wp_ensure_range. intros _.
  apply wpM_bind, wpM_lift; [|done]. apply wp_add_u64. intros ?.
  apply wpM_bind, wpM_lift; [|done]. apply wp_add_u64. intros ?.
  apply wpM_bind, wpM_lift; [|done]. apply wp_add_u64. intros ?.
  apply wpM_bind. eapply wpM_mono; [apply (IH _ _ _ c2 Hc2); split; lia| |done].
  intros [[[blocks ce] de] te] c3 (Hlen & Hv & ? & Hce & Hde). apply wpM_ret.
  split_and!; [simpl; by rewrite Hlen| |done|done|done].
  constructor; [|done]. repeat split; simpl; lia.
Qed.

Lemma wp_parse_record_index source lim index n blocks_offset blocks_len :
  bytes_ok index -> 0 <= n -> is_u64 blocks_offset ->
  wp (parse_record_index source lim index n blocks_offset blocks_len) (fun '(blocks, decoded) =>
    zlen blocks = n /\ is_u64 decoded /\
    record_blocks_ok lim blocks decoded blocks_offset (blocks_offset + blocks_len)).
Proof.
  intros Hi Hn Hb. unfold parse_record_index. wp_steps.
  pose proof (wp_record_rows source lim (Z.to_nat n) blocks_offset 0 0 _ (cursor_new_ok _ Hi) Hb
    ltac:(done)) as W. unfold wpM in W.
  destruct (parse_record_rows _ _ _ _ _ _ _) as [[[[[blocks ce] de] te]|err| |] c]; try done.
  destruct W as (Hlen & Hv & Hde & Hc & Hd). wp_steps. zbool. subst.
  split; [lia|]. split; [done|]. by split_and!.
Qed.

(** The contract of the section parser. *)
Lemma budgeted_parse_record_section source offset lim :
  source_ok source -> 0 <= offset ->
  budgeted (parse_record_section_with source offset lim)
    (record_section_ok lim (fs_len source) offset) (fun _ => 0).
Proof.
  intros Hs Hoff. destruct Hw as [Hfw _]. unfold parse_record_section_with.
  assert (0 <= record_header_len) by (unfold record_header_len; lia).
  apply budgeted_scoped; [done|done|].
  eapply budgeted_bind; [by apply budgeted_read_exact_at|]. intros raw (_ & Hraw & _).
  eapply budgeted_bind; [by apply budgeted_lift, wp_read_record_header|].
  intros h ([? ?] & [? ?] & Hil & [? ?]). destruct (id Hil) as [? ?].
  eapply (budgeted_bind _ _ (fun '(n, l) => n = rh_num_blocks h /\ l = rh_index_len h /\
    n * size_of_record_block_descriptor <= block_metadata_bytes lim)).
  { apply budgeted_lift. unfold validate_record_header. by wp_steps; rinv. }
  intros [? ?] (-> & -> & Hmeta).
  eapply (budgeted_bind _ _ (fun n => n = offset + record_header_len));
    [by apply budgeted_lift, wp_add_u64|].
  intros ? ->.
  eapply (budgeted_bind _ _ (fun n => n = offset + record_header_len + rh_index_len h /\ n <= u64_max));
    [by apply budgeted_lift, wp_add_u64|].
  intros ? [-> ?].
  eapply (budgeted_bind _ _ (fun _ => True)); [by apply budgeted_lift, wp_ensure_range|].
  intros _ _.
  eapply (budgeted_bind _ _ (fun _ =>
    offset + record_header_len + rh_index_len h + rh_blocks_len h <= fs_len source));
    [by apply budgeted_lift, wp_ensure_range|].
  intros _ Hlen. apply budgeted_scoped; [done|done|].
  eapply (budgeted_bind _ _ is_u64).
  { apply budgeted_lift, wp_ok_or. intros n Hn. rinv.
    unfold is_u64, size_of_record_block_descriptor in *. lia. }
  intros retained [? ?]. apply budgeted_scoped; [done|done|].
  eapply budgeted_bind; [apply budgeted_read_exact_at; [done|lia..]|]. intros index (_ & Hindex & _).
  eapply budgeted_bind; [apply budgeted_lift, wp_parse_record_index; try done; split; lia|].
  intros [blocks decoded] (Hn & Hdec & Hok). apply budgeted_ret.
  unfold record_section_ok, section_ok; simpl. rewrite Hn. split_and!; try done; lia.
Qed.

End RecordSection.

Lemma v1_fields_ok : field_width_ok v1_fields.
Proof.
  split; [simpl; lia|]. intros context c Q Hc HQ. apply wp_read_u32_be_widened; [done|].
  intros v c' [? ?] Hc' _. apply HQ; [|done]. unfold is_u64, u32_max, u64_max in *. lia.
Qed.

Lemma v2_fields_ok : field_width_ok v2_fields.
Proof.
  split; [simpl; lia|]. intros context c Q Hc HQ. apply wp_read_u64_be; [done|].
  intros v c' Hv Hc' _. by apply HQ.
Qed.

Section RoundTrip.

Context `{Env} (w : FieldWidth).

(** What a field read does to a written field. *)
Definition field_round_trip : Prop :=
  0 <= field_bytes w <= 8 /\
  forall context p x q, 0 <= x < 256 ^ field_bytes w -> zlen p + field_bytes w <= u64_max ->
    read_field w context (cursor_at p (be_split (Z.to_nat (field_bytes w)) x ++ q)) =
      (Ok x, cursor_at (p ++ be_split (Z.to_nat (field_bytes w)) x) q).

Context (Hw : field_round_trip).

Lemma record_rows_encoded source lim rows pre comp decomp total :
  limits_ok lim -> Forall (record_row_valid w lim) rows ->
  comp + sum_fst rows <= fs_len source -> fs_len source <= u64_max ->
  decomp + sum_snd rows <= u64_max -> 0 <= total <= comp ->
  zlen (pre ++ encode_record_index w rows) <= isize_max ->
  parse_record_rows w source lim (length rows) comp decomp total
    (cursor_at pre (encode_record_index w rows)) =
    (Ok (describe_records comp decomp rows, comp + sum_fst rows, decomp + sum_snd rows,
         total + sum_fst rows), cursor_at (pre ++ encode_record_index w rows) []).
Proof.
  intros (_ & _ & _ & _ & [_ Hlc] & [_ Hld] & _) Hrows Hcomp Hfs Hdecomp Htotal Hlen.
  destruct Hw as [[? ?] Hread]. assert (isize_max <= u64_max) by done.
  revert pre comp decomp total Hcomp Hdecomp Htotal Hlen.
  induction Hrows as [|[c d] rows (Hc & Hd & Hcw & Hdw) Hrows IH];
    intros pre comp decomp total Hcomp Hdecomp Htotal Hlen;
    cbn [length parse_record_rows describe_records sum_fst sum_snd foldr].
  { unfold encode_record_index; simpl. by rewrite !Z.add_0_r, app_nil_r. }
  assert (0 <= sum_fst rows /\ 0 <= sum_snd rows) as [? ?].
  { clear -Hrows. induction Hrows as [|r rows ([? ?] & [? ?] & _) _ IH]; simpl in *; lia. }
  cbn [sum_fst sum_snd foldr fst snd] in *. fold (sum_fst rows) in *. fold (sum_snd rows) in *.
  change (encode_record_index w ((c, d) :: rows)) with
    ((be_split (Z.to_nat (field_bytes w)) c ++ be_split (Z.to_nat (field_bytes w)) d)
       ++ encode_record_index w rows) in *.
  rewrite <- app_assoc in *. rewrite !length_app, !length_be_split in Hlen.
  unfold Errors.mbind, lift. rewrite Hread by lia.
  rewrite Hread by (rewrite ?length_app, ?length_be_split; lia).
  unfold validate_record_block_sizes, ensure_u64_limit, try_u64.
  rewrite !(proj2 (Z.leb_le _ u64_max)) by lia. cbn [ok_or rbind].
  rewrite !(proj2 (ensure_u64_ceiling_Ok _ _ _ tt)) by lia. cbn [rbind].
  rewrite (proj2 (Z.ltb_ge _ _)) by lia.
  unfold ensure_range, checked_add. rewrite (proj2 (Z.leb_le _ u64_max)) by lia. cbn [ok_or rbind].
  rewrite (proj2 (Z.ltb_ge _ _)) by lia.
  unfold add_u64, checked_add. rewrite !(proj2 (Z.leb_le _ u64_max)) by lia. cbn [ok_or].
  rewrite IH by (rewrite ?length_app, ?length_be_split; lia).
  rewrite <- !app_assoc. unfold mret. by rewrite !Z.add_assoc.
Qed.

End RoundTrip.

Lemma v1_round_trip : field_round_trip v1_fields.
Proof.
  split; [simpl; lia|]. intros context p x q Hx Hp. apply read_u32_be_widened_at; [|done].
  unfold is_u32, u32_max. simpl in *. lia.
Qed.

Lemma v2_round_trip : field_round_trip v2_fields.
Proof.
  split; [simpl; lia|]. intros context p x q Hx Hp. apply read_u64_be_at; [|done].
  unfold is_u64, u64_max. simpl in *. lia.
Qed.

(** * Properties *)

(** Record index of either version: the index of any list of block
    sizes within the limits is parsed into exactly the descriptors it stands
    for, with cumulative file and stream offsets, and the decoded length is
    the sum of the decompressed sizes. *)
Theorem record_index_round_trip `{Env} w source lim rows blocks_offset :
  w = v1_fields \/ w = v2_fields ->
  (forall context n, allocator context n = true) -> limits_ok lim ->
  Forall (record_row_valid w lim) rows -> 0 <= blocks_offset ->
  blocks_offset + sum_fst rows <= fs_len source -> fs_len source <= u64_max ->
  sum_snd rows <= u64_max -> zlen (encode_record_index w rows) <= isize_max ->
  zlen rows * size_of_record_block_descriptor <= isize_max ->
  parse_record_index w source lim (encode_record_index w rows) (zlen rows) blocks_offset (sum_fst rows)
    = Ok (describe_records blocks_offset 0 rows, sum_snd rows).
Proof.
  intros Hw Ha Hl Hrows Hb Hc Hfs Hd Hlen Hsize.
  assert (field_round_trip w) as Hrt by (destruct Hw as [->| ->]; auto using v1_round_trip, v2_round_trip).
  unfold parse_record_index. assert (isize_max <= u64_max) by done.
  rewrite try_reserve_vec_Ok; try done; try lia;
    [cbn [rbind]|unfold size_of_record_block_descriptor in *; lia].
  rewrite Nat2Z.id, cursor_new_at.
  rewrite (record_rows_encoded w Hrt) by (done || (simpl; lia)).
  cbn [app]. rewrite !Z.add_0_l, Z.eqb_refl. cbn [negb].
  rewrite (proj2 (cursor_is_empty_at _ _)) by done. cbn [negb].
  unfold add_u64, checked_add. rewrite (proj2 (Z.leb_le _ u64_max)) by lia. cbn [ok_or rbind].
  by rewrite Z.eqb_refl.
Qed.

Example record_index_round_trip_witness :
  @parse_record_index simple_env v2_fields (constant_source (replicate 200 0) 0) limits_new
    (encode_record_index v2_fields [(40, 100); (30, 0)]) 2 100 70 =
  Ok (describe_records 100 0 [(40, 100); (30, 0)], 100).
Proof.
  apply (@record_index_round_trip simple_env v2_fields (constant_source (replicate 200 0) 0)
           limits_new [(40, 100); (30, 0)] 100).
  - right. reflexivity.
  - reflexivity.
  - exact limits_new_ok.
  - repeat constructor; vm_compute; discriminate.
  - vm_compute. discriminate.
  - vm_compute. discriminate.
  - vm_compute. discriminate.
  - vm_compute. discriminate.
  - vm_compute. discriminate.
  - vm_compute. discriminate.
Defined.
