(* ===== verification/V2Record.v ===== *)
(** The record section of version 2: [src/format/v2/record.rs]. *)

From S2P Require Import Prelude Errors Types Budget Source Descriptors RecordSection.

Section V2Record.

Context `{Env} {S : Type} `{HasWorld S}.

(** [validate_record_header] *)
Definition validate_record_header (num_blocks index_len : Z) (lim : Limits) : Result (Z * Z) :=
  RecordSection.validate_record_header v2_fields num_blocks index_len lim.

(** [parse_record_section] *)
Definition parse_record_section (source : FileSource) (record_section_offset : Z) (lim : Limits)
    : M S RecordSection :=
  parse_record_section_with v2_fields source record_section_offset lim.

End V2Record.
