(* ===== verification/Samples.v ===== *)
(** Small dictionary files, written with the encoders of the wire grammars.
    The witnesses of the theorems about opened dictionaries evaluate the model
    on them. *)

From S2P Require Import Prelude Errors Types Checksum Encoding Source Compression Descriptors Header KeySection V1Keyword V2Keyword RecordSection.

(** A stored (uncompressed) block. *)
Definition stored (data : bytes) : bytes := encode_block 0 data data.

(** Keys and records: a key block is a list of rows, a record block is bytes. *)
Record Contents := {
  ct_key_blocks : list (list DecodedKeyRow);
  ct_record_blocks : list bytes;
}.

Definition index_row (width : nat) (e : TextEncoding) (rows : list DecodedKeyRow) : IndexRow :=
  {| ir_entry_count := zlen rows;
     ir_first_key := match rows with r :: _ => row_key r | [] => [] end;
     ir_last_key := match last rows with Some r => row_key r | None => [] end;
     ir_comp_size := 8 + zlen (encode_rows width e rows);
     ir_decomp_size := zlen (encode_rows width e rows) |}.

Definition num_entries (c : Contents) : Z := sum_of (fun rows => zlen rows) (ct_key_blocks c).

Definition record_rows (c : Contents) : list (Z * Z) :=
  map (fun b => (8 + zlen b, zlen b)) (ct_record_blocks c).

Definition record_section (w : FieldWidth) (c : Contents) : bytes :=
  let field := be_split (Z.to_nat (field_bytes w)) in
  let index := encode_record_index w (record_rows c) in
  let blocks := concat (map stored (ct_record_blocks c)) in
  field (zlen (ct_record_blocks c)) ++ field (num_entries c) ++ field (zlen index)
    ++ field (zlen blocks) ++ index ++ blocks.

(** A version 2 file whose blocks are all stored. *)
Definition v2_file (header : bytes) (e : TextEncoding) (c : Contents) : bytes :=
  let index := V2Keyword.encode_index e Canonical (map (index_row 8 e) (ct_key_blocks c)) in
  let blocks := concat (map (fun rows => stored (encode_rows 8 e rows)) (ct_key_blocks c)) in
  let fields := be_split 8 (zlen (ct_key_blocks c)) ++ be_split 8 (num_entries c)
                  ++ be_split 8 (zlen index) ++ be_split 8 (8 + zlen index)
                  ++ be_split 8 (zlen blocks) in
  header ++ fields ++ be_split 4 (adler32 fields) ++ stored index ++ blocks
    ++ record_section v2_fields c.

(** A version 1 file. *)
Definition v1_file (header : bytes) (e : TextEncoding) (c : Contents) : bytes :=
  let index := V1Keyword.encode_index e (map (index_row 4 e) (ct_key_blocks c)) in
  let blocks := concat (map (fun rows => stored (encode_rows 4 e rows)) (ct_key_blocks c)) in
  header ++ be_split 4 (zlen (ct_key_blocks c)) ++ be_split 4 (num_entries c)
    ++ be_split 4 (zlen index) ++ be_split 4 (zlen blocks) ++ index ++ blocks
    ++ record_section v1_fields c.

Definition row (key : string) (start : Z) : DecodedKeyRow :=
  {| row_key := lit key; record_start := start |}.

(** Four entries in two key blocks and two record blocks; the record of
    [Beta] spans both blocks. *)
Definition sample_contents : Contents := {|
  ct_key_blocks := [[row "Alpha" 0; row "Beta" 3]; [row "alpha" 12; row "gamma" 14]];
  ct_record_blocks := [lit "one-two-th"; lit "reefourfive"];
|}.

Definition dictionary_header (version : string) : bytes :=
  encode_header (render_tag (lit "Dictionary")
    [(lit "GeneratedByEngineVersion", lit version); (lit "Encoding", lit "UTF-8")]).

Definition sample_v2 : bytes := v2_file (dictionary_header "2.0") EncUtf8 sample_contents.

Definition sample_v1 : bytes := v1_file (dictionary_header "1.2") EncUtf8 sample_contents.

Definition sample_source : FileSource := constant_source sample_v2 1700000000000000000.

Definition sample_options : OpenOptions :=
  {| passcode := None; limits := limits_new; checksum_policy := Verify |}.

Lemma sample_source_ok : source_ok sample_source.
Proof.
  apply constant_source_ok; [apply bytes_ok_check; vm_compute; reflexivity|vm_compute; discriminate].
Qed.

Lemma sample_v1_source_ok : source_ok (constant_source sample_v1 0).
Proof.
  apply constant_source_ok; [apply bytes_ok_check; vm_compute; reflexivity|vm_compute; discriminate].
Qed.
