(* ===== verification/Format.v ===== *)
(** One-time grammar dispatch: [src/format/mod.rs] and the two assemblers
    [src/format/v1/mod.rs] and [src/format/v2/mod.rs].  [layout_ok] is the
    contract of [open_layout] towards the core. *)

From S2P Require Import Prelude Errors Types Budget Encoding Source Descriptors Header KeySection V1Keyword V2Keyword RecordSection V1Record V2Record Samples.

(** [WireVersion] *)
Inductive WireVersion := V1 | V2.

#[export] Instance WireVersion_eq_dec : EqDecision WireVersion.
Proof. solve_decision. Defined.

(** [version.split('.')] *)
Fixpoint split_dots (t : text) : list text :=
  match t with
  | [] => [[]]
  | b :: t =>
      if b =? 46 then [] :: split_dots t
      else match split_dots t with
           | c :: cs => (b :: c) :: cs
           | [] => [[b]]
           end
  end.

Definition is_number (component : text) : bool :=
  negb (bytes_eqb component []) && forallb is_ascii_digit component.

(** [declared_major_version] *)
Definition declared_major_version (version : text) (malformed : string) : Result Z :=
  match split_dots version with
  | [] => Err (InvalidFormat malformed)
  | first :: others =>
      let? major := ok_or (if is_number first then parse_unsigned 10 u32_max first else None)
                      (InvalidFormat malformed) in
      if existsb (fun component => negb (is_number component)) others
      then Err (InvalidFormat malformed)
      else Ok major
  end.

(** [validate_version_relationship] *)
Definition validate_version_relationship (generated_major required_major : Z) : Result unit :=
  if required_major =? 0
  then Err (InvalidFormat "RequiredEngineVersion must have a non-zero major version")
  else if 2 <? required_major
  then Err (Unsupported "required MDict engine major version other than 1 or 2")
  else if (generated_major =? 1) && negb (required_major =? 1)
  then Err (InvalidFormat "GeneratedByEngineVersion 1 conflicts with RequiredEngineVersion")
  else Ok tt.

(** [resolve_wire_version] *)
Definition resolve_wire_version (declared_major : Z) : Result WireVersion :=
  if declared_major =? 1 then Ok V1
  else if declared_major =? 2 then Ok V2
  else Err (Unsupported "MDict format major version other than 1 or 2").

(** [LayoutRequest] *)
Record LayoutRequest := {
  rq_source : FileSource;
  rq_header_section : HeaderSection;
  rq_kind : ContainerKind;
  rq_options : OpenOptions;
}.

Section Format.

Context `{Env} {S : Type} `{HasWorld S}.

(** The layout made of the three parsed parts. *)
Definition assemble_layout (request : LayoutRequest) (key_encoding : TextEncoding)
    (record_encoding : option TextEncoding) (wire : WireOperations) (keys : KeywordSection)
    (records : RecordSection) : Result ValidatedLayout :=
  if negb (ks_num_entries keys =? rs_num_entries records)
  then Err (InvalidData ("entry count mismatch between key index ("
                         +++ fmt_dec (ks_num_entries keys) +++ ") and record index ("
                         +++ fmt_dec (rs_num_entries records) +++ ")")%string)
  else
    let hs := rq_header_section request in
    Ok {|
      vl_header := hs_header hs;
      vl_key_encoding := key_encoding;
      vl_record_encoding := record_encoding;
      vl_sections := {|
        s_header := hs_section hs;
        s_keyword_header := ksr_header (ks_sections keys);
        s_keyword_index := ksr_index (ks_sections keys);
        s_keyword_blocks := ksr_blocks (ks_sections keys);
        s_record_header := rsr_header (rs_sections records);
        s_record_index := rsr_index (rs_sections records);
        s_record_blocks := rsr_blocks (rs_sections records) |};
      vl_total_entries := ks_num_entries keys;
      vl_total_decoded_record_len := rs_total_decompressed_len records;
      vl_key_blocks := ks_blocks keys;
      vl_record_blocks := rs_blocks records;
      vl_wire := wire;
      vl_retained := {|
        retained_header := hs_retained_bytes hs;
        retained_key_metadata := ks_retained_bytes keys;
        retained_record_metadata := rs_retained_bytes records |} |}.

(** [parse_layout] of a version, given its two section parsers. *)
Definition parse_layout_with
    (parse_keywords : FileSource -> Header -> TextEncoding -> Z -> OpenOptions -> M S KeywordSection)
    (parse_records : FileSource -> Z -> Limits -> M S RecordSection)
    (wire : WireOperations) (request : LayoutRequest) : M S ValidatedLayout :=
  let hs := rq_header_section request in
  retained (hs_retained_bytes hs) "parsed header" (
    let! key_encoding := lift (for_keys (rq_kind request) (hs_header hs)) in
    let! record_encoding := lift (for_records (rq_kind request) (hs_header hs)) in
    let! keys := parse_keywords (rq_source request) (hs_header hs) key_encoding
                   (keyword_section_offset hs) (rq_options request) in
    retained (ks_retained_bytes keys) "keyword block metadata" (
      let! records := parse_records (rq_source request) (ks_record_section_offset keys)
                        (limits (rq_options request)) in
      retained (rs_retained_bytes records) "record block metadata" (
        lift (assemble_layout request key_encoding record_encoding wire keys records)))).

(** [v1::parse_layout] *)
Definition v1_parse_layout (request : LayoutRequest) : M S ValidatedLayout :=
  parse_layout_with V1Keyword.parse_keyword_section V1Record.parse_record_section
    V1Keyword.WIRE_OPERATIONS request.

(** [v2::parse_layout] *)
Definition v2_parse_layout (request : LayoutRequest) : M S ValidatedLayout :=
  parse_layout_with V2Keyword.parse_keyword_section V2Record.parse_record_section
    V2Keyword.WIRE_OPERATIONS request.

(** The bytes the reservations of a layout hold. *)
Definition retained_total (layout : ValidatedLayout) : Z :=
  let r := vl_retained layout in
  retained_header r + (retained_key_metadata r + retained_record_metadata r).

(** The version checks of [open_layout]. *)
Definition layout_version (header : Header) : Result WireVersion :=
  let? generated_major := declared_major_version (generated_by_engine_version header)
                            "malformed GeneratedByEngineVersion" in
  let? version := resolve_wire_version generated_major in
  let? required_major := declared_major_version (required_engine_version header)
                           "malformed RequiredEngineVersion" in
  validate_version_relationship generated_major required_major ;;?
  Ok version.

(** [open_layout]; a layout that fails its verification is dropped, with its
    reservations. *)
Definition open_layout (source : FileSource) (kind : ContainerKind) (options : OpenOptions)
    : M S ValidatedLayout :=
  let! header_section := parse_header source kind (limits options) (checksum_policy options) in
  let! version := lift (layout_version (hs_header header_section)) in
  let request := {| rq_source := source; rq_header_section := header_section;
                    rq_kind := kind; rq_options := options |} in
  let! layout := match version with
                 | V1 => v1_parse_layout request
                 | V2 => v2_parse_layout request
                 end in
  or_drop (retained_total layout) (
    let! _ := lift (verify layout) in
    mret layout).

End Format.

(** * The contract of [open_layout] *)

(** What the core may assume of an opened layout. *)
Definition layout_ok `{Env} (source : FileSource) (kind : ContainerKind) (lim : Limits)
    (layout : ValidatedLayout) : Prop :=
  let s := vl_sections layout in
  0 <= retained_total layout /\ header_ok lim (vl_header layout) /\
  layout_unsigned layout /\ well_formed layout /\
  (exists offset_bytes, 0 <= offset_bytes /\
     key_blocks_ok offset_bytes (vl_key_encoding layout) lim (vl_key_blocks layout)
       (vl_total_entries layout) (sr_offset (s_keyword_blocks s)) (sr_offset (s_record_header s))) /\
  record_blocks_ok lim (vl_record_blocks layout) (vl_total_decoded_record_len layout)
    (sr_offset (s_record_blocks s)) (sr_offset (s_record_blocks s) + sr_len (s_record_blocks s)) /\
  sr_offset (s_record_blocks s) + sr_len (s_record_blocks s) <= fs_len source /\
  for_keys kind (vl_header layout) = Ok (vl_key_encoding layout) /\
  for_records kind (vl_header layout) = Ok (vl_record_encoding layout) /\
  (forall input ctx, bytes_ok input ->
     wp (Descriptors.decode_key_rows (vl_wire layout) input ctx) (key_rows_ok ctx)).

(** A number in decimal digits. *)
Definition decimal_value (t : text) : Z := fold_left (fun acc b => acc * 10 + (b - 48)) t 0.

Fixpoint join_dots (components : list text) : text :=
  match components with
  | [] => []
  | [c] => c
  | c :: cs => c ++ 46 :: join_dots cs
  end.

(** A dotted version whose components are numbers and whose first is [v]. *)
Definition has_major (version : text) (v : Z) : Prop :=
  exists first others, version = join_dots (first :: others) /\
    Forall (fun c => is_number c = true) (first :: others) /\
    decimal_value first = v /\ v <= u32_max.

(** * Lemmas *)

Lemma join_split_dots t : join_dots (split_dots t) = t /\ split_dots t <> [].
Proof.
  induction t as [|b t [IH Hne]]; [done|]. cbn [split_dots].
  destruct (Z.eqb_spec b 46) as [->|]; (destruct (split_dots t) as [|c cs]; [done|]).
  - split; [|done]. change (46 :: join_dots (c :: cs) = 46 :: t). by rewrite IH.
  - split; [|done]. rewrite <- IH. by destruct cs.
Qed.

Lemma split_dots_component c rest :
  46 ∉ c -> split_dots (c ++ 46 :: rest) = c :: split_dots rest /\ split_dots c = [c].
Proof.
  induction c as [|b c IH]; [done|]. intros Hb. apply not_elem_of_cons in Hb as [? Hb].
  destruct (IH Hb) as [E1 E2]. cbn [app split_dots]. rewrite (proj2 (Z.eqb_neq b 46)) by done.
  by rewrite E1, E2.
Qed.

Lemma split_join_dots first others :
  Forall (fun c => 46 ∉ c) (first :: others) -> split_dots (join_dots (first :: others)) = first :: others.
Proof.
  intros Hc; revert first Hc; induction others as [|c others IH]; intros first Hc;
    apply Forall_cons in Hc as [Hf Hc].
  - by apply (split_dots_component first []).
  - cbn [join_dots]. rewrite (proj1 (split_dots_component first _ Hf)). f_equal. by apply IH.
Qed.

Lemma number_no_dot c : is_number c = true -> 46 ∉ c.
Proof.
  intros [_ Hd]%andb_true_iff Hin. rewrite forallb_forall in Hd.
  apply list_elem_of_In, Hd in Hin. done.
Qed.

Lemma digit_value_decimal b : is_ascii_digit b = true -> digit_value 10 b = Some (b - 48).
Proof.
  intros Hb. unfold digit_value. rewrite Hb. unfold is_ascii_digit in Hb. zbool. simpl.
  by rewrite (proj2 (Z.ltb_lt (b - 48) 10)) by lia.
Qed.

Lemma decimal_mono t a :
  forallb is_ascii_digit t = true -> 0 <= a ->
  a <= fold_left (fun acc b => acc * 10 + (b - 48)) t a.
Proof.
  revert a; induction t as [|b t IH]; intros a Ht Ha; simpl in *; [lia|].
  apply andb_true_iff in Ht as [Hb Ht]. unfold is_ascii_digit in Hb. zbool.
  specialize (IH (a * 10 + (b - 48)) Ht ltac:(lia)). lia.
Qed.

Lemma has_major_nonneg version v : has_major version v -> 0 <= v.
Proof.
  intros (first & others & _ & Hall & <- & _). apply Forall_cons in Hall as [Hf _].
  apply andb_true_iff in Hf as [_ Hf]. by apply decimal_mono.
Qed.

Lemma parse_digits_decimal max acc t v :
  0 <= acc <= max -> forallb is_ascii_digit t = true ->
  parse_digits 10 max acc t = Some v <->
  fold_left (fun acc b => acc * 10 + (b - 48)) t acc = v /\ v <= max.
Proof.
  revert acc; induction t as [|b t IH]; intros acc Hacc Ht;
    cbn [parse_digits fold_left forallb] in *; [naive_solver lia|].
  apply andb_true_iff in Ht as [Hb Ht]. rewrite (digit_value_decimal b Hb).
  unfold is_ascii_digit in Hb. zbool. cbv [base.mbind option_bind]. cbv beta zeta iota.
  destruct (Z.leb_spec (acc * 10 + (b - 48)) max).
  - apply IH; [lia|done].
  - split; [done|]. intros [<- Hle]. exfalso.
    pose proof (decimal_mono t (acc * 10 + (b - 48)) Ht ltac:(lia)). lia.
Qed.

Lemma parse_unsigned_number c v :
  is_number c = true -> parse_unsigned 10 u32_max c = Some v <-> decimal_value c = v /\ v <= u32_max.
Proof.
  intros [Hne Hd]%andb_true_iff. destruct c as [|b c]; [done|]. unfold parse_unsigned.
  assert (b <> 43).
  { simpl in Hd. apply andb_true_iff in Hd as [Hb _]. unfold is_ascii_digit in Hb. zbool. lia. }
  rewrite (proj2 (Z.eqb_neq b 43)) by done. by apply parse_digits_decimal.
Qed.

Lemma declared_major_version_Ok version malformed v :
  declared_major_version version malformed = Ok v <-> has_major version v.
Proof.
  unfold declared_major_version, has_major. destruct (join_split_dots version) as [Ej Hne]. split.
  - destruct (split_dots version) as [|first others]; [done|]. intros H. rinv.
    destruct (is_number first) eqn:Hf; [|done].
    match goal with E : parse_unsigned _ _ _ = Some _ |- _ =>
      apply (parse_unsigned_number _ _ Hf) in E as [? ?] end.
    exists first, others. split_and!; try done. constructor; [done|].
    apply Forall_forall. intros c Hc%list_elem_of_In.
    match goal with E : existsb _ _ = false |- _ => rename E into Hex end.
    destruct (is_number c) eqn:Hn; [done|]. apply not_true_iff_false in Hex. exfalso. apply Hex.
    apply existsb_exists. exists c. by rewrite Hn.
  - intros (first & others & E & Hall & Hv & Hmax).
    rewrite E, split_join_dots by (eapply Forall_impl; [exact Hall|apply number_no_dot]).
    apply Forall_cons in Hall as [Hf Ho]. rewrite Hf.
    rewrite (proj2 (parse_unsigned_number first v Hf)) by done. cbn [ok_or rbind].
    replace (existsb _ others) with false; [done|]. symmetry. apply not_true_iff_false.
    intros (c & Hc & Hn)%existsb_exists. rewrite Forall_forall in Ho.
    apply list_elem_of_In, Ho in Hc. by rewrite Hc in Hn.
Qed.

Lemma wp_declared_major_version version malformed (Q : Z -> Prop) :
  (forall n, Q n) -> wp (declared_major_version version malformed) Q.
Proof.
  intros HQ. unfold declared_major_version. destruct (split_dots version); wp_steps; apply HQ.
Qed.

Lemma wp_layout_version header : wp (layout_version header) (fun _ => True).
Proof.
  unfold layout_version. apply wp_bind, wp_declared_major_version. intros g. apply wp_bind.
  eapply (wp_mono _ (fun _ => True)); [unfold resolve_wire_version; by wp_steps|]. intros v _.
  apply wp_bind, wp_declared_major_version. intros r. apply wp_bind.
  eapply (wp_mono _ (fun _ => True)); [unfold validate_version_relationship; by wp_steps|].
  done.
Qed.

Section FormatProofs.

Context `{EnvOk} {S : Type} `{HasWorld S}.

(** The three parts fit together. *)
Lemma wp_assemble_layout offset_bytes request key_encoding record_encoding wire keys records lim :
  let hs := rq_header_section request in
  let source := rq_source request in
  0 <= offset_bytes -> source_ok source ->
  header_section_ok lim hs -> keyword_section_offset hs <= fs_len source ->
  for_keys (rq_kind request) (hs_header hs) = Ok key_encoding ->
  for_records (rq_kind request) (hs_header hs) = Ok record_encoding ->
  keyword_section_ok offset_bytes key_encoding lim (fs_len source) (keyword_section_offset hs) keys ->
  record_section_ok lim (fs_len source) (ks_record_section_offset keys) records ->
  (forall input ctx, bytes_ok input ->
     wp (Descriptors.decode_key_rows wire input ctx) (key_rows_ok ctx)) ->
  wp (assemble_layout request key_encoding record_encoding wire keys records) (fun layout =>
    layout_ok source (rq_kind request) lim layout /\
    retained_total layout =
      hs_retained_bytes hs + (ks_retained_bytes keys + rs_retained_bytes records)).
Proof.
  intros hs source Hob [[? ?] _] (Hh & Hsec & Hoff & [? ?]) Hlen He Hr Hk Hrec Hwire.
  unfold assemble_layout. wp_steps. zbool. split; [|done].
  destruct Hk as ([? ?] & [? ?] & Hkm & Hk1 & Hk2 & Hk3 & Hkc & Hkl & Hkb).
  destruct Hrec as (? & [? ?] & Hrm & Hr1 & Hr2 & Hr3 & Hrc & Hrl & [? ?] & Hrb).
  simpl in Hkc, Hrc. destruct Hkc as (E1 & E2 & E3 & E4), Hrc as (E5 & E6 & E7 & E8).
  unfold layout_ok; simpl. fold hs source. rewrite Hsec.
  assert (Forall key_block_ok (ks_blocks keys)) as Hkok.
  { destruct Hkb as (Hv & _). eapply Forall_impl; [exact Hv|]. intros b Hb.
    destruct Hb as (? & ? & ? & ? & _ & _ & ? & _). pose proof (unit_size_cases key_encoding).
    unfold key_block_ok. nia. }
  assert (Forall record_block_ok (rs_blocks records)) as Hrok.
  { destruct Hrb as (Hv & _). eapply Forall_impl; [exact Hv|]. intros b Hb.
    destruct Hb as (? & ? & ? & ?). unfold record_block_ok. lia. }
  split_and!; try done.
  - unfold retained_total; simpl. fold hs. lia.
  - unfold layout_unsigned, ordered_sections, section_ok in *; simpl. split_and!; [|done|done].
    repeat constructor; simpl; lia.
  - unfold well_formed, ordered_sections; simpl. destruct Hkb as (_ & Hc & _), Hrb as (_ & Hd & _).
    split_and!; [|lia|done|lia|done].
    exists (sr_offset (rsr_blocks (rs_sections records)) + sr_len (rsr_blocks (rs_sections records))).
    split; [lia|]. split_and!; try done; lia.
  - exists offset_bytes. split; [done|]. by rewrite E5.
Qed.

Lemma budgeted_parse_layout offset_bytes parse_keywords parse_records wire request :
  let hs := rq_header_section request in
  let source := rq_source request in
  let lim := limits (rq_options request) in
  0 <= offset_bytes -> source_ok source ->
  header_section_ok lim hs -> keyword_section_offset hs <= fs_len source ->
  (forall header e offset, 0 <= offset ->
     budgeted (S:=S) (parse_keywords source header e offset (rq_options request))
       (keyword_section_ok offset_bytes e lim (fs_len source) offset) (fun _ => 0)) ->
  (forall offset, 0 <= offset ->
     budgeted (S:=S) (parse_records source offset lim)
       (record_section_ok lim (fs_len source) offset) (fun _ => 0)) ->
  (forall input ctx, bytes_ok input ->
     wp (Descriptors.decode_key_rows wire input ctx) (key_rows_ok ctx)) ->
  budgeted (parse_layout_with parse_keywords parse_records wire request)
    (layout_ok source (rq_kind request) lim) retained_total.
Proof.
  intros hs source lim Hob Hs Hh Hlen Hkeys Hrecs Hwire. unfold parse_layout_with. fold hs source lim.
  destruct (id Hh) as (_ & _ & Hoff & [? ?]).
  eapply budgeted_mono; [apply (budgeted_retained _ _ _
    (fun layout => layout_ok source (rq_kind request) lim layout /\
       retained_total layout = hs_retained_bytes hs + (retained_total layout - hs_retained_bytes hs))
    (fun layout => retained_total layout - hs_retained_bytes hs)); [done|]|by intros a []|
    intros a _; cbv beta; lia].
  eapply (budgeted_bind _ _ (fun e => for_keys (rq_kind request) (hs_header hs) = Ok e)).
  { apply budgeted_lift, wp_eq; [by apply (wp_for_keys _ _ (fun _ => True))|done]. }
  intros key_encoding He.
  eapply (budgeted_bind _ _ (fun e => for_records (rq_kind request) (hs_header hs) = Ok e)).
  { apply budgeted_lift, wp_eq; [by apply (wp_for_records _ _ (fun _ => True))|done]. }
  intros record_encoding Hre.
  eapply budgeted_bind; [apply Hkeys; lia|]. intros keys Hk.
  destruct (id Hk) as (_ & [? ?] & _ & [? ?] & [? ?] & [? ?] & Hkc & _).
  assert (0 <= ks_record_section_offset keys) by (simpl in Hkc; lia).
  eapply budgeted_mono; [apply (budgeted_retained _ _ _
    (fun layout => layout_ok source (rq_kind request) lim layout)
    (fun layout => retained_total layout - hs_retained_bytes hs - ks_retained_bytes keys)); [done|]
    |intros a ?; split; [done|lia]|intros a _; cbv beta; lia].
  eapply budgeted_bind; [by apply Hrecs|]. intros records Hr.
  destruct (id Hr) as (_ & [? ?] & _).
  eapply budgeted_mono; [apply (budgeted_retained _ _ _
    (fun layout => layout_ok source (rq_kind request) lim layout /\
       retained_total layout =
         hs_retained_bytes hs + (ks_retained_bytes keys + rs_retained_bytes records))
    (fun _ => 0)); [done|]|by intros a []|intros a [_ ?]; cbv beta in *; lia].
  apply budgeted_lift. by eapply (wp_assemble_layout offset_bytes).
Qed.

Lemma budgeted_open_layout source kind options :
  source_ok source -> limits_ok (limits options) ->
  budgeted (S:=S) (open_layout source kind options)
    (layout_ok source kind (limits options)) retained_total.
Proof.
  intros Hs (_ & [? _] & _). unfold open_layout.
  eapply budgeted_bind; [by apply budgeted_parse_header|]. intros hs [Hh Hlen].
  eapply (budgeted_bind _ _ (fun _ => True)); [apply budgeted_lift, wp_layout_version|].
  intros version _.
  set (request := {| rq_source := source; rq_header_section := hs; rq_kind := kind;
                     rq_options := options |}).
  assert (budgeted (S:=S)
    (match version with V1 => v1_parse_layout request | V2 => v2_parse_layout request end)
    (layout_ok source kind (limits options)) retained_total) as Hparse.
  { destruct version.
    - apply (budgeted_parse_layout 4 _ _ _ request); try done.
      + intros. by apply v1_budgeted_parse_keyword_section.
      + intros. by apply budgeted_parse_record_section; [apply v1_fields_ok| |].
      + apply v1_wp_decode_rows.
    - apply (budgeted_parse_layout 8 _ _ _ request); try done.
      + intros. by apply v2_budgeted_parse_keyword_section.
      + intros. by apply budgeted_parse_record_section; [apply v2_fields_ok| |].
      + apply v2_wp_decode_rows. }
  intros s Hb. apply wpM_bind. eapply wpM_mono; [by apply Hparse| |done].
  intros layout s1 [Hl Ha]. unfold wpM, or_drop, mbind, lift.
  assert (safe (verify layout)) as Hv by apply verify_safe.
  destruct (verify layout) as [[]|e| |]; try done.
  apply (accounts_drop s s1 _ 0); [|destruct Hb as [[? ?] ?]; lia|].
  - apply Hl.
  - by rewrite Z.add_0_r.
Qed.

End FormatProofs.

(** * Properties *)

(** C3: opening any file as a dictionary, whatever its bytes, its declared
    version, the options and the memory ceiling, and however the file changes
    between reads, neither panics nor runs out of fuel.  On success the layout
    is well formed: adjacent sections inside the file, key blocks that number
    every entry, record blocks that cover the decoded stream, every size within
    its limit, and exactly the layout's own bytes remain reserved.  On failure
    every reservation has been returned. *)
Theorem open_layout_total `{EnvOk} source kind options (w : World) :
  source_ok source -> limits_ok (limits options) -> budget_ok (w_budget w) ->
  wpM (open_layout source kind options) w
    (fun layout w' => layout_ok source kind (limits options) layout /\
                      accounts w w' (retained_total layout))
    (fun _ w' => accounts w w' 0).
Proof. intros Hs Hl Hw. by apply budgeted_open_layout. Qed.

(** The grammar is chosen by the version texts alone: a header is
    accepted exactly when both versions are dotted numbers and their majors
    are 1 and 1, which selects version 1, or 2 and at most 2, which selects
    version 2. *)
Theorem version_dispatch header version :
  layout_version header = Ok version <->
  exists generated required,
    has_major (generated_by_engine_version header) generated /\
    has_major (required_engine_version header) required /\
    match version with
    | V1 => generated = 1 /\ required = 1
    | V2 => generated = 2 /\ (required = 1 \/ required = 2)
    end.
Proof.
  unfold layout_version, resolve_wire_version, validate_version_relationship. split.
  - intros H. rinv; rewrite declared_major_version_Ok in *; eexists _, _; split_and!; try done;
      match goal with Hr : has_major (required_engine_version _) _ |- _ =>
        apply has_major_nonneg in Hr as ? end; zbool; subst; simpl in *; zbool; lia.
  - intros (g & r & Hg%(declared_major_version_Ok _ "malformed GeneratedByEngineVersion")
      & Hr%(declared_major_version_Ok _ "malformed RequiredEngineVersion") & Hv).
    rewrite Hg. cbn [rbind]. destruct version.
    + destruct Hv as [-> ->]. simpl. by rewrite Hr.
    + destruct Hv as [-> [->| ->]]; simpl; by rewrite Hr.
Qed.

Definition world_new : World := {| w_budget := memory_budget_new (working_memory_bytes limits_new);
                                   w_clock := 0 |}.

Lemma world_new_ok : budget_ok (w_budget world_new).
Proof. repeat split; vm_compute; discriminate. Qed.

Example open_layout_total_witness :
  wpM (@open_layout simple_env World _ sample_source Mdx sample_options) world_new
    (fun layout w' => @layout_ok simple_env sample_source Mdx (limits sample_options) layout /\
                      accounts world_new w' (retained_total layout))
    (fun _ w' => accounts world_new w' 0).
Proof.
  apply (@open_layout_total simple_env simple_env_ok sample_source Mdx sample_options world_new).
  - exact sample_source_ok.
  - exact limits_new_ok.
  - exact world_new_ok.
Defined.

(** Both sample files open, with the entries they were written with. *)
Example samples_open :
  match fst (@open_layout simple_env World _ sample_source Mdx sample_options world_new),
        fst (@open_layout simple_env World _ (constant_source sample_v1 0) Mdx sample_options world_new)
  with
  | Ok l2, Ok l1 => vl_total_entries l2 = 4 /\ vl_total_entries l1 = 4 /\
                    vl_total_decoded_record_len l2 = 21 /\ vl_total_decoded_record_len l1 = 21
  | _, _ => False
  end.
Proof. vm_compute. repeat split. Qed.
