(* ===== verification/LocatorIndex.v ===== *)
(** The in-memory index of [src/core/locator.rs] as a data structure: the
    arena of normalized keys, the sorted row order, the raw digests and the
    searches on them.  [locator_of] says which keys an index describes;
    [matching] is the specification of a lookup. *)

From stdpp Require Import sorting list_numbers.
From S2P Require Import Prelude Errors Types Utf8 Encoding Normalize.

(** [KeyLocator]; its reservation is its size. *)
Record KeyLocator := {
  kl_text : text;
  kl_bounds : list Z;
  kl_order : list Z;
  kl_raw_digest : list Z;
  kl_memory : Z;
}.

(** [str::get(a..b)] *)
Definition str_get (t : text) (a b : Z) : option text :=
  match str_slice t a b with Ok s => Some s | _ => None end.

(** [row_text] *)
Definition row_text (text : text) (bounds : list Z) (row : Z) : Prelude.text :=
  match get_at bounds row, get_at bounds (row + 1) with
  | Some start, Some end_ => default [] (str_get text start end_)
  | _, _ => []
  end.

(** [compare_rows] *)
Definition compare_rows (text : text) (bounds : list Z) (left right : Z) : comparison :=
  match bytes_cmp (row_text text bounds left) (row_text text bounds right) with
  | Eq => left ?= right
  | c => c
  end.

(** [raw_digest]: FNV-1a *)
Definition raw_digest (raw : text) : Z :=
  fold_left (fun hash byte => wrapping_mul32 (Z.lxor hash byte) 16777619) raw 2166136261.

(** [enforce_locator_size] *)
Definition enforce_locator_size (bytes maximum : Z) : Result unit :=
  if maximum <? bytes
  then Err (LimitExceeded "locator_bytes" (or_u64_max (try_u64 bytes)) (or_u64_max (try_u64 maximum)))
  else Ok tt.

(** [sort_unstable_by] with a comparator that never answers "equal" for two
    different rows: every sorting algorithm gives this result. *)
Definition not_greater (compare : Z -> Z -> comparison) (a b : Z) : Prop := compare a b <> Gt.

#[export] Instance not_greater_dec compare a b : Decision (not_greater compare a b).
Proof. unfold not_greater. apply _. Defined.

Definition sort_rows (compare : Z -> Z -> comparison) (rows : list Z) : list Z :=
  merge_sort (not_greater compare) rows.

(** [partition_point], on the slices the standard library documents it for:
    those whose elements satisfying [p] come first. *)
Fixpoint partition_point {A} (p : A -> bool) (l : list A) : Z :=
  match l with
  | [] => 0
  | x :: l => if p x then 1 + partition_point p l else 0
  end.

(** [KeyLocator::row] *)
Definition kl_row (l : KeyLocator) (row : Z) : text := row_text (kl_text l) (kl_bounds l) row.

(** [KeyLocator::row_count]; [as u32] truncates. *)
Definition row_count (l : KeyLocator) : Z := wrap32 (zlen (kl_order l)).

(** [KeyLocator::equal_range] *)
Definition equal_range (l : KeyLocator) (query : text) : option (Z * Z) :=
  let start := partition_point (fun row => bytes_ltb (kl_row l row) query) (kl_order l) in
  let end_ := partition_point (fun row => bytes_leb (kl_row l row) query) (kl_order l) in
  if start <? end_ then Some (start, end_) else None.

(** * Specification *)

Section Spec.

Context `{Env} (n : KeyNormalizer).

(** The normalized form of the key of a physical row. *)
Definition normalized_row (keys : list text) (row : Z) : text :=
  normalized n (default [] (get_at keys row)).

Definition arena (keys : list text) : text := concat (map (normalized n) keys).

Fixpoint offsets_from (start : Z) (keys : list text) : list Z :=
  start :: match keys with
           | [] => []
           | key :: keys => offsets_from (start + zlen (normalized n key)) keys
           end.

Definition row_le (keys : list text) (i j : Z) : Prop :=
  bytes_cmp (normalized_row keys i) (normalized_row keys j) = Lt \/
  (normalized_row keys i = normalized_row keys j /\ i <= j).

(** [l] is the index of [keys]. *)
Definition locator_of (keys : list text) (l : KeyLocator) : Prop :=
  kl_text l = arena keys /\ kl_bounds l = offsets_from 0 keys /\
  kl_raw_digest l = map raw_digest keys /\
  kl_order l ≡ₚ seqZ 0 (zlen keys) /\
  StronglySorted (row_le keys) (kl_order l).

(** The rows whose normalized key is [query], in physical order. *)
Definition matching (keys : list text) (query : text) : list Z :=
  List.filter (fun row => bytes_eqb (normalized_row keys row) query) (seqZ 0 (zlen keys)).

(** The rows whose raw key is [query], in physical order. *)
Definition raw_matching (keys : list text) (query : text) : list Z :=
  List.filter (fun row => bytes_eqb (default [] (get_at keys row)) query) (seqZ 0 (zlen keys)).

End Spec.

(** * Lemmas *)

Lemma partition_point_app {A} (p : A -> bool) (l1 l2 : list A) :
  Forall (fun x => p x = true) l1 -> (forall x, head l2 = Some x -> p x = false) ->
  partition_point p (l1 ++ l2) = zlen l1.
Proof.
  intros H1 H2. induction H1 as [|x l1 Hx _ IH]; simpl.
  - destruct l2 as [|y l2]; [done|]. simpl. by rewrite (H2 y).
  - rewrite Hx, IH. lia.
Qed.

Lemma enforce_locator_size_Ok bytes maximum u :
  enforce_locator_size bytes maximum = Ok u <-> bytes <= maximum.
Proof. unfold enforce_locator_size. destruct (Z.ltb_spec maximum bytes), u; split; try done; lia. Qed.

Lemma wp_enforce_locator_size bytes maximum (Q : unit -> Prop) :
  (bytes <= maximum -> Q tt) -> wp (enforce_locator_size bytes maximum) Q.
Proof. intros HQ. unfold enforce_locator_size. wp_steps. zbool. by apply HQ. Qed.

Lemma filter_none {A} (p : A -> bool) l : (forall y, y ∈ l -> p y = false) -> List.filter p l = [].
Proof.
  induction l as [|x l IH]; intros Hl; [done|]. simpl. rewrite (Hl x) by apply list_elem_of_here.
  apply IH. intros y Hy. apply Hl. by apply list_elem_of_further.
Qed.

(** Membership in a filter over the rows. *)
Lemma filter_seqZ_In (p : Z -> bool) m i :
  In i (List.filter p (seqZ 0 m)) <-> 0 <= i < m /\ p i = true.
Proof.
  rewrite filter_In. rewrite <- list_elem_of_In, elem_of_seqZ. naive_solver lia.
Qed.

Lemma seqZ_sorted a m : StronglySorted Z.le (seqZ a m).
Proof.
  destruct (decide (m <= 0)) as [|Hm]; [rewrite seqZ_nil by done; constructor|].
  rewrite <- (Z2Nat.id m) by lia. generalize (Z.to_nat m) as k. clear Hm m.
  intros k. revert a. induction k as [|k IH]; intros a; [constructor|].
  rewrite Nat2Z.inj_succ, seqZ_cons by lia. rewrite Z.pred_succ. constructor; [done|].
  apply Forall_seqZ. lia.
Qed.

Lemma filter_sorted (R : Z -> Z -> Prop) (p : Z -> bool) l :
  StronglySorted R l -> StronglySorted R (List.filter p l).
Proof.
  induction 1 as [|x l _ IH Hx]; simpl; [constructor|].
  destruct (p x); [|done]. constructor; [done|].
  rewrite Forall_forall in *. intros y [Hy _]%list_elem_of_In%filter_In. apply Hx. by apply list_elem_of_In.
Qed.

(** The index holds the normalized keys. *)
Section Rows.

Context `{EnvOk} (n : KeyNormalizer).

Lemma offsets_get keys start i :
  0 <= i <= zlen keys ->
  get_at (offsets_from n start keys) i = Some (start + zlen (arena n (take (Z.to_nat i) keys))).
Proof.
  revert start i; induction keys as [|k keys IH]; intros start i Hi; simpl in *.
  - replace i with 0 by lia. unfold get_at, arena; simpl. f_equal. lia.
  - destruct (Z.eq_dec i 0) as [->|]; [unfold get_at, arena; simpl; f_equal; lia|].
    assert (get_at (start :: offsets_from n (start + zlen (normalized n k)) keys) i =
            get_at (offsets_from n (start + zlen (normalized n k)) keys) (i - 1)) as ->.
    { unfold get_at. rewrite !(proj2 (Z.leb_le _ _)) by lia.
      by replace (Z.to_nat i) with (Datatypes.S (Z.to_nat (i - 1))) by lia. }
    rewrite IH by lia. replace (Z.to_nat i) with (Datatypes.S (Z.to_nat (i - 1))) by lia.
    unfold arena. simpl. rewrite length_app. f_equal. lia.
Qed.

Lemma arena_text keys : text_ok (arena n keys).
Proof.
  unfold arena. induction keys as [|k keys IH]; simpl; [apply text_ok_nil|].
  apply text_ok_app; [apply normalized_text|done].
Qed.

Lemma boundary_split a b : text_ok a -> text_ok b -> is_char_boundary (a ++ b) (zlen a) = true.
Proof.
  intros Ha Hb. destruct b as [|x b]; [rewrite app_nil_r; apply boundary_end|].
  unfold is_char_boundary. apply orb_true_iff. right.
  unfold get_at. rewrite (proj2 (Z.leb_le 0 _)) by lia. rewrite Nat2Z.id.
  rewrite lookup_app_r, Nat.sub_diag by lia. simpl. by rewrite (text_ok_head _ _ Hb).
Qed.

(** Where a row is in the arena. *)
Lemma arena_row keys row :
  0 <= row < zlen keys ->
  exists p q, arena n keys = p ++ normalized_row n keys row ++ q /\ text_ok p /\ text_ok q /\
    get_at (offsets_from n 0 keys) row = Some (zlen p) /\
    get_at (offsets_from n 0 keys) (row + 1) = Some (zlen p + zlen (normalized_row n keys row)).
Proof.
  intros Hr. unfold normalized_row. rewrite !offsets_get by lia. rewrite !Z.add_0_l.
  destruct (get_at keys row) as [key|] eqn:Hk.
  2: { pose proof (get_at_is_Some keys row Hr) as [? ?]. congruence. }
  simpl. unfold get_at in Hk. rewrite (proj2 (Z.leb_le 0 row)) in Hk by lia.
  replace (Z.to_nat (row + 1)) with (Datatypes.S (Z.to_nat row)) by lia.
  exists (arena n (take (Z.to_nat row) keys)), (arena n (drop (Datatypes.S (Z.to_nat row)) keys)).
  split_and!; [|apply arena_text|apply arena_text|done|].
  - rewrite <- (take_drop_middle _ _ _ Hk) at 1. unfold arena. by rewrite map_app, concat_app.
  - rewrite (take_S_r _ _ _ Hk). unfold arena. rewrite map_app, concat_app, length_app. simpl.
    rewrite app_nil_r. f_equal. lia.
Qed.

Lemma row_text_spec keys row :
  0 <= row < zlen keys ->
  row_text (arena n keys) (offsets_from n 0 keys) row = normalized_row n keys row.
Proof.
  intros Hr. destruct (arena_row keys row Hr) as (p & q & E & Hp & Hq & E1 & E2).
  unfold row_text. rewrite E1, E2, E. unfold str_get, str_slice.
  assert (text_ok (normalized_row n keys row)) by apply normalized_text.
  rewrite boundary_split by (done || by apply text_ok_app).
  rewrite <- Nat2Z.inj_add, <- length_app, (app_assoc p), boundary_split by (done || by apply text_ok_app).
  simpl. by rewrite length_app, Nat2Z.inj_add, <- app_assoc, slice_app_mid.
Qed.

Lemma row_le_total keys i j : row_le n keys i j \/ row_le n keys j i.
Proof.
  unfold row_le. rewrite (bytes_cmp_antisym (normalized_row n keys i)).
  destruct (bytes_cmp (normalized_row n keys i) (normalized_row n keys j)) eqn:E; simpl; [|naive_solver..].
  apply bytes_cmp_eq in E. rewrite E. destruct (Z.le_ge_cases i j); [left|right]; right; split; done || lia.
Qed.

Lemma row_le_trans keys i j k : row_le n keys i j -> row_le n keys j k -> row_le n keys i k.
Proof.
  unfold row_le. intros [E1|[E1 ?]] [E2|[E2 ?]].
  - left. by eapply bytes_cmp_lt_trans.
  - left. by rewrite <- E2.
  - left. by rewrite E1.
  - right. split; [congruence|lia].
Qed.

(** Sorting the rows makes the order of the specification. *)
Lemma compare_rows_le keys i j :
  0 <= i < zlen keys -> 0 <= j < zlen keys ->
  not_greater (compare_rows (arena n keys) (offsets_from n 0 keys)) i j <-> row_le n keys i j.
Proof.
  intros Hi Hj. unfold not_greater, compare_rows, row_le. rewrite !row_text_spec by done.
  destruct (bytes_cmp _ _) eqn:E.
  - apply bytes_cmp_eq in E. rewrite E.
    destruct (Z.compare_spec i j); naive_solver lia.
  - naive_solver.
  - assert (normalized_row n keys i <> normalized_row n keys j)
      by (intros E'; rewrite E', bytes_cmp_refl in E; done). naive_solver.
Qed.

Lemma merge_sort_rows keys l :
  let compare := compare_rows (arena n keys) (offsets_from n 0 keys) in
  Forall (fun i => 0 <= i < zlen keys) l ->
  sort_rows compare l ≡ₚ l /\ StronglySorted (row_le n keys) (sort_rows compare l).
Proof.
  intros compare Hl. pose proof (merge_sort_Permutation (not_greater compare) l) as Hp.
  split; [exact Hp|].
  assert (Total (not_greater compare)) as Htot.
  { intros i j. unfold not_greater, compare, compare_rows.
    rewrite (bytes_cmp_antisym (row_text _ _ i)).
    destruct (bytes_cmp _ _); simpl; [|naive_solver..].
    rewrite (Z.compare_antisym i j). destruct (i ?= j); naive_solver. }
  pose proof (Sorted_merge_sort (not_greater compare) l) as Hs. fold (sort_rows compare l) in Hs, Hp.
  assert (Forall (fun i => 0 <= i < zlen keys) (sort_rows compare l)) as Hall by (by rewrite Hp).
  apply Sorted_StronglySorted; [intros i j k; apply row_le_trans|].
  clear Hp. induction Hs as [|x m Hm IH Hd]; [constructor|]. apply Forall_cons in Hall as [Hx Hall].
  constructor; [by apply IH|]. inversion Hd as [|y m' Hxy]; subst; constructor.
  apply Forall_cons in Hall as [Hy _]. by apply compare_rows_le.
Qed.

(** ** Searching *)

Lemma locator_rows keys l row :
  locator_of n keys l -> row ∈ kl_order l -> 0 <= row < zlen keys /\ kl_row l row = normalized_row n keys row.
Proof.
  intros (Ht & Hb & _ & Hp & _) Hin. rewrite Hp in Hin. apply elem_of_seqZ in Hin.
  unfold kl_row. rewrite Ht, Hb. split; [lia|]. apply row_text_spec. lia.
Qed.

(** On which side of the query a row is. *)
Definition on_side (keys : list text) (query : text) (c : comparison) (row : Z) : bool :=
  match bytes_cmp (normalized_row n keys row) query, c with
  | Lt, Lt | Eq, Eq | Gt, Gt => true
  | _, _ => false
  end.

Lemma on_side_true keys query c row :
  on_side keys query c row = true <-> bytes_cmp (normalized_row n keys row) query = c.
Proof. unfold on_side. destruct (bytes_cmp _ _), c; done. Qed.

Lemma on_side_false keys query c row :
  on_side keys query c row = false <-> bytes_cmp (normalized_row n keys row) query <> c.
Proof. rewrite <- on_side_true. by destruct (on_side _ _ _ _). Qed.

(** A row behind [x] is not smaller than it. *)
Lemma row_le_side keys query x y :
  row_le n keys x y -> bytes_cmp (normalized_row n keys x) query <> Lt ->
  bytes_cmp (normalized_row n keys y) query <> Lt /\
  (bytes_cmp (normalized_row n keys x) query = Gt -> bytes_cmp (normalized_row n keys y) query = Gt).
Proof.
  intros [Hlt|[<- _]]; [|done]. intros Hx.
  assert (bytes_cmp (normalized_row n keys y) query = Gt) as ->; [|done].
  rewrite (bytes_cmp_antisym query) in Hx |- *.
  destruct (bytes_cmp query (normalized_row n keys x)) eqn:E; simpl in Hx; [| |done].
  - apply bytes_cmp_eq in E as ->. by rewrite Hlt.
  - by rewrite (bytes_cmp_lt_trans _ _ _ E Hlt).
Qed.

Lemma split_by_side keys query m :
  StronglySorted (row_le n keys) m ->
  m = List.filter (on_side keys query Lt) m ++ List.filter (on_side keys query Eq) m
      ++ List.filter (on_side keys query Gt) m.
Proof.
  induction 1 as [|x m _ IH Hx]; [done|]. rewrite Forall_forall in Hx. cbn [List.filter].
  destruct (bytes_cmp (normalized_row n keys x) query) eqn:Ex.
  - assert (List.filter (on_side keys query Lt) m = []) as E0.
    { apply filter_none. intros y Hy. apply on_side_false, (row_le_side _ _ x); [by apply Hx|].
      by rewrite Ex. }
    rewrite E0 in *. rewrite (proj2 (on_side_false _ _ Lt x)) by (by rewrite Ex).
    rewrite (proj2 (on_side_true _ _ Eq x) Ex), (proj2 (on_side_false _ _ Gt x)) by (by rewrite Ex).
    simpl in *. by f_equal.
  - rewrite (proj2 (on_side_true _ _ Lt x) Ex), !(proj2 (on_side_false _ _ _ x)) by (by rewrite Ex).
    simpl. by f_equal.
  - assert (forall c, c <> Gt -> List.filter (on_side keys query c) m = []) as E0.
    { intros c Hc. apply filter_none. intros y Hy. apply on_side_false.
      destruct (row_le_side keys query x y) as [_ ->]; [by apply Hx|by rewrite Ex|done|done]. }
    rewrite !E0 in * by done. rewrite (proj2 (on_side_true _ _ Gt x) Ex).
    rewrite !(proj2 (on_side_false _ _ _ x)) by (by rewrite Ex). simpl in *. by f_equal.
Qed.

Lemma filter_equal_side keys l query :
  locator_of n keys l -> List.filter (on_side keys query Eq) (kl_order l) = matching n keys query.
Proof.
  intros (_ & _ & _ & Hp & Hs). apply (StronglySorted_unique Z.le).
  - pose proof (filter_sorted _ (on_side keys query Eq) _ Hs) as Hf.
    assert (Forall (fun x => normalized_row n keys x = query)
              (List.filter (on_side keys query Eq) (kl_order l))) as Hq.
    { apply Forall_forall. intros x [_ Hx]%list_elem_of_In%filter_In.
      by apply bytes_cmp_eq, on_side_true. }
    induction Hf as [|x m _ IH Hx]; [constructor|]. apply Forall_cons in Hq as [Hq Hqs].
    constructor; [by apply IH|]. rewrite Forall_forall in *. intros y Hy.
    destruct (Hx y Hy) as [Hlt|[_ ?]]; [|done].
    rewrite Hq, (Hqs y Hy), bytes_cmp_refl in Hlt. done.
  - apply filter_sorted, seqZ_sorted.
  - apply NoDup_Permutation.
    + apply NoDup_ListNoDup, List.NoDup_filter, NoDup_ListNoDup. rewrite Hp. apply NoDup_seqZ.
    + apply NoDup_ListNoDup, List.NoDup_filter, NoDup_ListNoDup, NoDup_seqZ.
    + intros x. rewrite !list_elem_of_In. unfold matching. rewrite !filter_In, <- !list_elem_of_In, Hp.
      by rewrite on_side_true, bytes_eqb_true, bytes_cmp_eq.
Qed.

(** The sorted order splits into smaller, equal and greater rows. *)
Lemma order_split keys l query :
  locator_of n keys l ->
  exists before after,
    kl_order l = before ++ matching n keys query ++ after /\
    Forall (fun row => bytes_cmp (kl_row l row) query = Lt) before /\
    Forall (fun row => kl_row l row = query) (matching n keys query) /\
    Forall (fun row => bytes_cmp (kl_row l row) query = Gt) after.
Proof.
  intros Hl. destruct (id Hl) as (_ & _ & _ & _ & Hs).
  rewrite <- (filter_equal_side keys l query Hl).
  exists (List.filter (on_side keys query Lt) (kl_order l)),
    (List.filter (on_side keys query Gt) (kl_order l)).
  assert (forall c row, row ∈ List.filter (on_side keys query c) (kl_order l) ->
            bytes_cmp (kl_row l row) query = c) as Hc.
  { intros c row [Hin Hr]%list_elem_of_In%filter_In. apply list_elem_of_In in Hin.
    destruct (locator_rows _ _ _ Hl Hin) as [_ ->]. by apply on_side_true. }
  split; [by apply split_by_side|].
  split_and!; apply Forall_forall; intros row Hrow%Hc; [done| |done]. by apply bytes_cmp_eq.
Qed.

(** [equal_range] finds exactly the matching rows. *)
Lemma equal_range_spec keys l query :
  locator_of n keys l ->
  match equal_range l query with
  | Some (start, end_) => 0 <= start < end_ /\ slice (kl_order l) start end_ = Some (matching n keys query)
  | None => matching n keys query = []
  end.
Proof.
  intros Hl. destruct (order_split keys l query Hl) as (before & after & E & Hb & Hm & Ha).
  unfold equal_range. rewrite E.
  rewrite (partition_point_app _ before).
  2: { eapply Forall_impl; [exact Hb|]. intros row Hrow. by apply bytes_ltb_spec. }
  2: { intros row Hrow. apply not_true_iff_false. rewrite bytes_ltb_spec.
       destruct (matching n keys query) as [|y m]; simpl in Hrow.
       - destruct after as [|z after]; [done|]. injection Hrow as <-. apply Forall_cons in Ha as [-> _]. done.
       - injection Hrow as <-. apply Forall_cons in Hm as [-> _]. by rewrite bytes_cmp_refl. }
  rewrite (app_assoc before), (partition_point_app _ (before ++ _)).
  2: { apply Forall_app. split.
       - eapply Forall_impl; [exact Hb|]. intros row Hrow. apply bytes_leb_spec. by rewrite Hrow.
       - eapply Forall_impl; [exact Hm|]. intros row Hrow. rewrite Hrow. apply bytes_leb_refl. }
  2: { intros row Hrow. destruct after as [|z after]; [done|]. injection Hrow as <-.
       apply Forall_cons in Ha as [Hz _]. unfold bytes_leb. by rewrite Hz. }
  rewrite length_app. destruct (Z.ltb_spec (zlen before) (Z.of_nat (length before + length (matching n keys query)))).
  - split; [lia|]. rewrite <- app_assoc. rewrite Nat2Z.inj_add. apply slice_app_mid.
  - destruct (matching n keys query); [done|]. simpl in *. lia.
Qed.

End Rows.
