(* ===== verification/Arcs.v ===== *)
(** Shared ownership: [std::sync::Arc].  The decoded blocks, the locator and
    some match lists live behind an [Arc] together with the memory reservation
    that is returned when the last handle is dropped.  The store keeps, for
    every live value, its reference count and the bytes reserved for it; a
    handle [Arc A] carries the value itself, which never changes. *)

From stdpp Require Import gmap.
From S2P Require Import Prelude.

(** What the store knows of a live value. *)
Record ArcCell := {
  ac_refs : Z;
  ac_bytes : Z;
}.

Record Arcs := {
  arc_cells : gmap nat ArcCell;
  arc_next : nat;
}.

(** A handle. *)
Record Arc (A : Type) := {
  arc_id : nat;
  arc_value : A;
}.

Arguments arc_id {A}.
Arguments arc_value {A}.

Definition arcs_empty : Arcs := {| arc_cells := ∅; arc_next := 0 |}.

(** [Arc::new] of a value that owns a reservation of [bytes]: its identity. *)
Definition arcs_new (bytes : Z) (a : Arcs) : nat * Arcs :=
  (arc_next a,
   {| arc_cells := <[arc_next a := {| ac_refs := 1; ac_bytes := bytes |}]> (arc_cells a);
      arc_next := Datatypes.S (arc_next a) |}).

(** [Arc::clone] *)
Definition arcs_clone (id : nat) (a : Arcs) : Arcs :=
  {| arc_cells := alter (fun c => {| ac_refs := ac_refs c + 1; ac_bytes := ac_bytes c |}) id
                    (arc_cells a);
     arc_next := arc_next a |}.

(** Dropping a handle: the bytes of the reservation that this returns. *)
Definition arcs_drop (id : nat) (a : Arcs) : Z * Arcs :=
  match arc_cells a !! id with
  | Some c =>
      if ac_refs c <=? 1
      then (ac_bytes c, {| arc_cells := delete id (arc_cells a); arc_next := arc_next a |})
      else (0, {| arc_cells := <[id := {| ac_refs := ac_refs c - 1; ac_bytes := ac_bytes c |}]>
                                 (arc_cells a);
                  arc_next := arc_next a |})
  | None => (0, a)
  end.

(** The bytes reserved for live values. *)
Definition arcs_bytes (a : Arcs) : Z := map_fold (fun _ c n => ac_bytes c + n) 0 (arc_cells a).

Definition handles (id : nat) (l : list nat) : Z := Z.of_nat (count_occ Nat.eq_dec l id).

(** [l] lists every handle in existence: the counts agree with it, and
    identities are fresh. *)
Definition arcs_ok (l : list nat) (a : Arcs) : Prop :=
  (forall id, match arc_cells a !! id with
              | Some c => ac_refs c = handles id l /\ 0 < ac_refs c /\ 0 <= ac_bytes c
              | None => handles id l = 0
              end) /\
  (forall id, (arc_next a <= id)%nat -> arc_cells a !! id = None).

(** * Lemmas *)

Lemma handles_cons id i l : handles id (i :: l) = (if Nat.eq_dec i id then 1 else 0) + handles id l.
Proof. unfold handles. simpl. destruct (Nat.eq_dec i id); lia. Qed.

Lemma handles_elem id l : id ∈ l -> 0 < handles id l.
Proof.
  intros Hin%list_elem_of_In. unfold handles. apply (count_occ_In Nat.eq_dec) in Hin. lia.
Qed.

Lemma handles_perm id l l' : l ≡ₚ l' -> handles id l = handles id l'.
Proof.
  intros Hp. unfold handles. f_equal. by apply Permutation_count_occ.
Qed.

Lemma arcs_ok_perm l l' a : l ≡ₚ l' -> arcs_ok l a -> arcs_ok l' a.
Proof.
  intros Hp [H1 H2]. split; [|done]. intros id. specialize (H1 id).
  by rewrite <- (handles_perm id _ _ Hp).
Qed.

Lemma arcs_empty_ok : arcs_ok [] arcs_empty.
Proof. split; [|done]. intros id. simpl. by rewrite lookup_empty. Qed.

Lemma fold_insert (m : gmap nat ArcCell) id c :
  m !! id = None ->
  map_fold (fun _ c n => ac_bytes c + n) 0 (<[id := c]> m) =
  ac_bytes c + map_fold (fun _ c n => ac_bytes c + n) 0 m.
Proof. intros. rewrite map_fold_insert_L; [done| |done]. intros. lia. Qed.

Lemma fold_delete (m : gmap nat ArcCell) id c :
  m !! id = Some c ->
  map_fold (fun _ c n => ac_bytes c + n) 0 (delete id m) =
  map_fold (fun _ c n => ac_bytes c + n) 0 m - ac_bytes c.
Proof.
  intros Hid. rewrite <- (insert_delete_id m id c Hid) at 2.
  rewrite fold_insert by apply lookup_delete_eq. lia.
Qed.

Lemma fold_update (m : gmap nat ArcCell) id c c' :
  m !! id = Some c -> ac_bytes c' = ac_bytes c ->
  map_fold (fun _ c n => ac_bytes c + n) 0 (<[id := c']> m) =
  map_fold (fun _ c n => ac_bytes c + n) 0 m.
Proof.
  intros Hid Hb. rewrite <- insert_delete_eq, fold_insert by apply lookup_delete_eq.
  rewrite (fold_delete _ _ _ Hid). lia.
Qed.

Lemma arcs_bytes_nonneg l a : arcs_ok l a -> 0 <= arcs_bytes a.
Proof.
  intros [H1 _]. unfold arcs_bytes.
  assert (forall id c, arc_cells a !! id = Some c -> 0 <= ac_bytes c) as Hpos.
  { intros id c Hc. specialize (H1 id). rewrite Hc in H1. lia. }
  revert Hpos. generalize (arc_cells a). apply (map_ind (fun m => _ -> _)); [done|].
  intros id c m Hm IH Hpos. rewrite fold_insert by done.
  pose proof (Hpos id c (lookup_insert_eq _ _ _)).
  enough (0 <= map_fold (fun _ c n => ac_bytes c + n) 0 m) by lia.
  apply IH. intros j d Hj. apply (Hpos j). rewrite lookup_insert_ne; [done|congruence].
Qed.

Lemma arcs_new_ok l a bytes :
  arcs_ok l a -> 0 <= bytes ->
  arcs_ok (fst (arcs_new bytes a) :: l) (snd (arcs_new bytes a)) /\
  arcs_bytes (snd (arcs_new bytes a)) = arcs_bytes a + bytes.
Proof.
  intros [H1 H2] Hb. pose proof (H2 (arc_next a) ltac:(lia)) as Hnew. simpl. split.
  - split; simpl.
    + intros id. rewrite handles_cons. specialize (H1 id). destruct (Nat.eq_dec (arc_next a) id) as [<-|].
      * rewrite lookup_insert_eq. rewrite Hnew in H1. simpl. lia.
      * by rewrite lookup_insert_ne.
    + intros id Hid. rewrite lookup_insert_ne by lia. apply H2. lia.
  - unfold arcs_bytes; simpl. rewrite fold_insert by done. simpl. lia.
Qed.

Lemma arcs_clone_ok l a id :
  arcs_ok l a -> id ∈ l ->
  arcs_ok (id :: l) (arcs_clone id a) /\ arcs_bytes (arcs_clone id a) = arcs_bytes a.
Proof.
  intros [H1 H2] Hin. pose proof (handles_elem _ _ Hin). pose proof (H1 id) as Hid.
  destruct (arc_cells a !! id) as [c|] eqn:Hc; [|lia].
  assert (arc_cells (arcs_clone id a) =
          <[id := {| ac_refs := ac_refs c + 1; ac_bytes := ac_bytes c |}]> (arc_cells a)) as E.
  { simpl. apply map_eq. intros j. destruct (decide (j = id)) as [->|].
    - by rewrite lookup_alter_eq, lookup_insert_eq, Hc.
    - by rewrite lookup_alter_ne, lookup_insert_ne by done. }
  split; [split|].
  - intros j. rewrite E, handles_cons. specialize (H1 j). destruct (Nat.eq_dec id j) as [<-|].
    + rewrite lookup_insert_eq. simpl. lia.
    + by rewrite lookup_insert_ne.
  - intros j Hj. rewrite E. simpl in Hj. specialize (H2 j Hj).
    rewrite lookup_insert_ne; [done|congruence].
  - unfold arcs_bytes. rewrite E. by eapply fold_update.
Qed.

Lemma arcs_drop_ok l a id :
  arcs_ok (id :: l) a ->
  arcs_ok l (snd (arcs_drop id a)) /\ 0 <= fst (arcs_drop id a) /\
  arcs_bytes (snd (arcs_drop id a)) = arcs_bytes a - fst (arcs_drop id a).
Proof.
  intros [H1 H2]. pose proof (H1 id) as Hid. rewrite handles_cons in Hid.
  destruct (Nat.eq_dec id id); [|done]. unfold arcs_drop.
  destruct (arc_cells a !! id) as [c|] eqn:Hc; [|unfold handles in Hid; lia].
  destruct (Z.leb_spec (ac_refs c) 1); simpl; (split; [split|]); simpl.
  - intros j. specialize (H1 j). rewrite handles_cons in H1. destruct (Nat.eq_dec id j) as [<-|].
    + rewrite lookup_delete_eq. lia.
    + by rewrite lookup_delete_ne.
  - intros j Hj. rewrite lookup_delete_ne; [by apply H2|].
    intros <-. specialize (H2 id Hj). congruence.
  - split; [lia|]. unfold arcs_bytes. simpl. by apply fold_delete.
  - intros j. specialize (H1 j). rewrite handles_cons in H1. destruct (Nat.eq_dec id j) as [<-|].
    + rewrite lookup_insert_eq. simpl. lia.
    + by rewrite lookup_insert_ne.
  - intros j Hj. rewrite lookup_insert_ne; [by apply H2|].
    intros <-. specialize (H2 id Hj). congruence.
  - split; [lia|]. unfold arcs_bytes. simpl. rewrite (fold_update _ _ _ _ Hc) by done. lia.
Qed.
