(* ===== verification/Core.v ===== *)
(** One open dictionary: [src/core/mod.rs].  [MdictFile] holds what never
    changes after [open]; [CoreState] what the operations share: the memory
    budget, the live [Arc]s, the two one-block caches and the key locator.
    [core_ok] is the invariant of that state: every byte the budget counts is
    accounted for by the layout, the live values, a cached failure or the
    caller, and every reference count by the handles in existence.

    The mutexes of the code serialize the operations on a cache, so the model
    runs one operation at a time; a poisoned mutex, which needs a panic in
    another thread while it holds the lock, is not modelled. *)

From S2P Require Import Prelude Errors Types Budget Logic Encoding Source Descriptors Header Format Normalize LocatorIndex Arcs.

(** * State *)

(** [CachedFailureKind] *)
Inductive CachedFailureKind :=
| CfkInvalidFormat (context : string)
| CfkInvalidData (context : string)
| CfkTruncated (context : string) (needed remaining : Z)
| CfkLimitExceeded (limit : string) (value max : Z)
| CfkChecksumMismatch (context : string) (expected actual : Z)
| CfkDecode (context encoding : string)
| CfkMissingPasscode
| CfkInvalidPasscode (context : string)
| CfkUnsupported (feature : string).

(** [CachedFailure]; its reservation is its size. *)
Record CachedFailure := {
  cf_kind : CachedFailureKind;
  cf_memory : option Z;
}.

(** [CachedValue] *)
Inductive CachedValue (A : Type) :=
| Ready (value : Arc A)
| Failed (failure : CachedFailure).

Arguments Ready {A}.
Arguments Failed {A}.

(** [DecodedKeyBlock] of [core/keys.rs] *)
Record DecodedKeyBlock := {
  kb_entries : list DecodedKeyRow;
  kb_memory : Z;
}.

(** [DecodedRecordBlock] of [core/records.rs] *)
Record DecodedRecordBlock := {
  rb_bytes : bytes;
  rb_memory : Z;
}.

(** [MdictFile], its immutable part. *)
Record MdictFile := {
  mf_kind : ContainerKind;
  mf_source : FileSource;
  mf_layout : ValidatedLayout;
  mf_normalizer : KeyNormalizer;
  mf_limits : Limits;
  mf_checksum_policy : ChecksumPolicy;
}.

(** [MdictFile], its mutable part. *)
Record CoreState := {
  cs_world : World;
  cs_arcs : Arcs;
  cs_key_block_cache : option (Z * CachedValue DecodedKeyBlock);
  cs_record_block_cache : option (Z * CachedValue DecodedRecordBlock);
  cs_locator : option (CachedValue KeyLocator);
}.

Definition set_core_world (w : World) (s : CoreState) : CoreState :=
  {| cs_world := w; cs_arcs := cs_arcs s; cs_key_block_cache := cs_key_block_cache s;
     cs_record_block_cache := cs_record_block_cache s; cs_locator := cs_locator s |}.

#[export] Instance HasWorld_CoreState : HasWorld CoreState.
Proof. refine {| get_world := cs_world; set_world := set_core_world |}; [done|by intros []|done]. Defined.

Definition set_arcs (a : Arcs) (s : CoreState) : CoreState :=
  {| cs_world := cs_world s; cs_arcs := a; cs_key_block_cache := cs_key_block_cache s;
     cs_record_block_cache := cs_record_block_cache s; cs_locator := cs_locator s |}.

Definition core_state_new (w : World) : CoreState :=
  {| cs_world := w; cs_arcs := arcs_empty; cs_key_block_cache := None;
     cs_record_block_cache := None; cs_locator := None |}.

(** * Shared values *)

(** [Arc::new] of a value that owns a reservation of [bytes]. *)
Definition arc_new {A} (value : A) (bytes : Z) : M CoreState (Arc A) := fun s =>
  let (id, a) := arcs_new bytes (cs_arcs s) in
  (Ok {| arc_id := id; arc_value := value |}, set_arcs a s).

(** [Arc::clone] *)
Definition arc_clone {A} (arc : Arc A) : M CoreState (Arc A) := fun s =>
  (Ok arc, set_arcs (arcs_clone (arc_id arc) (cs_arcs s)) s).

(** Dropping a handle. *)
Definition arc_drop {A} (arc : Arc A) (s : CoreState) : CoreState :=
  let (freed, a) := arcs_drop (arc_id arc) (cs_arcs s) in
  drop_reservation freed (set_arcs a s).

(** The step that drops a handle. *)
Definition drop_handle {A} (arc : Arc A) : M CoreState unit := fun s => (Ok tt, arc_drop arc s).

(** A scope that owns a handle and drops it on every exit. *)
Definition with_arc {A B} (arc : Arc A) (body : M CoreState B) : M CoreState B := fun s =>
  let (r, s) := body s in (r, arc_drop arc s).

(** A scope that moves the handle into its result and drops it when it fails. *)
Definition or_drop_arc {A B} (arc : Arc A) (body : M CoreState B) : M CoreState B := fun s =>
  match body s with
  | (Ok b, s) => (Ok b, s)
  | (r, s) => (r, arc_drop arc s)
  end.

(** The outcome of a computation as a value; panics still propagate. *)
Definition attempt {A} (m : M CoreState A) : M CoreState (A + Error) := fun s =>
  match m s with
  | (Ok a, s) => (Ok (inl a), s)
  | (Err e, s) => (Ok (inr e), s)
  | (Panic site, s) => (Panic site, s)
  | (OutOfFuel, s) => (OutOfFuel, s)
  end.

Definition read_state {A} (get : CoreState -> A) : M CoreState A := fun s => (Ok (get s), s).

Section Core.

Context `{Env}.

(** * Cached failures *)

(** The deterministic failures, which are worth remembering. *)
Definition failure_kind (error : Error) : option CachedFailureKind :=
  match error with
  | Io _ | AllocationFailed _ _ | KeyIndexRejected _ | Cancelled _ | SourceChanged _ => None
  | LimitExceeded limit value max =>
      if (limit =? "working_memory_bytes")%string then None
      else Some (CfkLimitExceeded limit value max)
  | InvalidFormat context => Some (CfkInvalidFormat context)
  | InvalidData context => Some (CfkInvalidData context)
  | Truncated context needed remaining => Some (CfkTruncated context needed remaining)
  | ChecksumMismatch context expected actual => Some (CfkChecksumMismatch context expected actual)
  | Decode context encoding => Some (CfkDecode context encoding)
  | MissingPasscode => Some CfkMissingPasscode
  | InvalidPasscode context => Some (CfkInvalidPasscode context)
  | Unsupported feature => Some (CfkUnsupported feature)
  end.

(** [CachedFailure::capture] *)
Definition capture (error : Error) : M CoreState (option CachedFailure) := fun s =>
  match failure_kind error with
  | None => (Ok None, s)
  | Some (CfkInvalidData context) =>
      match reserve (Z.of_nat (String.length context)) s with
      | (Ok bytes, s) =>
          match try_reserve_string 0 (Z.of_nat (String.length context))
                  "cached deterministic failure" with
          | Ok _ => (Ok (Some {| cf_kind := CfkInvalidData context; cf_memory := Some bytes |}), s)
          | _ => (Ok None, drop_reservation bytes s)
          end
      | (_, s) => (Ok None, s)
      end
  | Some kind => (Ok (Some {| cf_kind := kind; cf_memory := None |}), s)
  end.

(** [CachedFailure::replay] *)
Definition replay (failure : CachedFailure) : Error :=
  match cf_kind failure with
  | CfkInvalidFormat context => InvalidFormat context
  | CfkInvalidData context =>
      match try_reserve_string 0 (Z.of_nat (String.length context))
              "replayed deterministic failure" with
      | Err error => error
      | _ => InvalidData context
      end
  | CfkTruncated context needed remaining => Truncated context needed remaining
  | CfkLimitExceeded limit value max => LimitExceeded limit value max
  | CfkChecksumMismatch context expected actual => ChecksumMismatch context expected actual
  | CfkDecode context encoding => Decode context encoding
  | CfkMissingPasscode => MissingPasscode
  | CfkInvalidPasscode context => InvalidPasscode context
  | CfkUnsupported feature => Unsupported feature
  end.

(** Dropping a cached value. *)
Definition drop_cached {A} (value : CachedValue A) (s : CoreState) : CoreState :=
  match value with
  | Ready arc => arc_drop arc s
  | Failed failure => drop_reservation (default 0 (cf_memory failure)) s
  end.

(** [*cache = value] for the key block cache. *)
Definition set_key_block_cache (value : option (Z * CachedValue DecodedKeyBlock))
    : M CoreState unit := fun s =>
  let old := cs_key_block_cache s in
  let s := {| cs_world := cs_world s; cs_arcs := cs_arcs s; cs_key_block_cache := value;
              cs_record_block_cache := cs_record_block_cache s; cs_locator := cs_locator s |} in
  (Ok tt, match old with Some (_, value) => drop_cached value s | None => s end).

(** [*cache = value] for the record block cache. *)
Definition set_record_block_cache (value : option (Z * CachedValue DecodedRecordBlock))
    : M CoreState unit := fun s =>
  let old := cs_record_block_cache s in
  let s := {| cs_world := cs_world s; cs_arcs := cs_arcs s;
              cs_key_block_cache := cs_key_block_cache s;
              cs_record_block_cache := value; cs_locator := cs_locator s |} in
  (Ok tt, match old with Some (_, value) => drop_cached value s | None => s end).

(** [let _ = self.locator.set(value)]: a cell that is already set keeps its
    value, and the refused one is dropped. *)
Definition set_locator (value : CachedValue KeyLocator) : M CoreState unit := fun s =>
  (Ok tt,
   match cs_locator s with
   | Some _ => drop_cached value s
   | None =>
       {| cs_world := cs_world s; cs_arcs := cs_arcs s;
          cs_key_block_cache := cs_key_block_cache s;
          cs_record_block_cache := cs_record_block_cache s; cs_locator := Some value |}
   end).

(** The value of a cache that holds block [index]. *)
Definition cache_hit {A} (cache : option (Z * CachedValue A)) (index : Z) : option (CachedValue A) :=
  match cache with
  | Some (cached_index, value) => if cached_index =? index then Some value else None
  | None => None
  end.

(** * [MdictFile] *)

(** [MdictFile::open], in a world where [clock] file accesses have happened. *)
Definition open (fs : bytes -> nat -> option FileState) (path : bytes) (kind : ContainerKind)
    (options : OpenOptions) (clock : nat) : Result (MdictFile * CoreState) :=
  let w := {| w_budget := memory_budget_new (working_memory_bytes (limits options));
              w_clock := clock |} in
  match (let! source := source_open fs path in
         let! layout := open_layout source kind options in
         mret (source, layout)) w with
  | (Ok (source, layout), w) =>
      Ok ({| mf_kind := kind; mf_source := source; mf_layout := layout;
             mf_normalizer := from_header (vl_header layout) kind;
             mf_limits := limits options; mf_checksum_policy := checksum_policy options |},
          core_state_new w)
  | (Err e, _) => Err e
  | (Panic site, _) => Panic site
  | (OutOfFuel, _) => OutOfFuel
  end.

(** [MdictFile::len] *)
Definition mdict_len (f : MdictFile) : Z := vl_total_entries (mf_layout f).

(** [MdictFile::is_empty] *)
Definition mdict_is_empty (f : MdictFile) : bool := mdict_len f =? 0.

(** [MdictFile::key_block_count] *)
Definition key_block_count (f : MdictFile) : Z := zlen (vl_key_blocks (mf_layout f)).

(** The bytes of a cached value, as [memory_usage] reports them. *)
Definition cached_bytes {A} (memory_bytes : A -> Z) (value : CachedValue A) : Z :=
  match value with
  | Ready arc => memory_bytes (arc_value arc)
  | Failed _ => 0
  end.

(** [MdictFile::memory_usage] *)
Definition memory_usage (f : MdictFile) : M CoreState MemoryUsage := fun s =>
  match metadata_bytes (vl_retained (mf_layout f)) with
  | Ok metadata =>
      let current := mb_used (get_budget s) in
      (Ok {| mu_current_bytes := current;
             mu_peak_bytes := Z.max (mb_peak (get_budget s)) current;
             mu_metadata_bytes := metadata;
             mu_locator_bytes :=
               match cs_locator s with
               | Some value => cached_bytes kl_memory value
               | None => 0
               end;
             mu_key_cache_bytes :=
               match cs_key_block_cache s with
               | Some (_, value) => cached_bytes kb_memory value
               | None => 0
               end;
             mu_record_cache_bytes :=
               match cs_record_block_cache s with
               | Some (_, value) => cached_bytes rb_memory value
               | None => 0
               end |}, s)
  | Err e => (Err e, s)
  | Panic site => (Panic site, s)
  | OutOfFuel => (OutOfFuel, s)
  end.

(** [MdictFile::record_text_encoding] *)
Definition record_text_encoding (f : MdictFile) : Result TextEncoding :=
  ok_or (vl_record_encoding (mf_layout f)) (InvalidFormat "container records are not text").

(** The size [MdictFile::reserve_decoded_record_text] reserves. *)
Definition decoded_record_text_bytes (f : MdictFile) (encoded_len : Z) : Result Z :=
  let? encoding := record_text_encoding f in
  let? encoded_len := checked_usize encoded_len "encoded MDX record length" in
  ensure_usize_limit "materialized_record_bytes" encoded_len
    (materialized_record_bytes (mf_limits f)) ;;?
  let? decoded_len := max_decoded_len encoding encoded_len in
  ensure_usize_limit "materialized_record_bytes" decoded_len
    (materialized_record_bytes (mf_limits f)) ;;?
  ok_or (checked_add encoded_len decoded_len)
    (InvalidFormat "decoded record working size overflow").

(** [let _memory = self.reserve_decoded_record_text(encoded_len)?; body] *)
Definition with_decoded_record_text {A} (f : MdictFile) (encoded_len : Z) (body : M CoreState A)
    : M CoreState A :=
  let! combined := lift (decoded_record_text_bytes f encoded_len) in
  scoped combined "decoded MDX record" body.

End Core.

(** * The invariant *)

(** The handles and the failure bytes a cache slot owns. *)
Definition slot_handles {A} (slot : option (CachedValue A)) : list nat :=
  match slot with Some (Ready arc) => [arc_id arc] | _ => [] end.

Definition slot_failure {A} (slot : option (CachedValue A)) : Z :=
  match slot with Some (Failed failure) => default 0 (cf_memory failure) | _ => 0 end.

(** A remembered value satisfies the contract of its cache. *)
Definition slot_ok {A} (P : A -> Prop) (slot : option (CachedValue A)) : Prop :=
  match slot with
  | Some (Ready arc) => P (arc_value arc)
  | Some (Failed failure) => 0 <= default 0 (cf_memory failure)
  | None => True
  end.

(** What the caches promise of their values, by block index. *)
Record Contracts := {
  key_contract : Z -> DecodedKeyBlock -> Prop;
  record_contract : Z -> DecodedRecordBlock -> Prop;
  locator_contract : KeyLocator -> Prop;
}.

Definition cache_handles (s : CoreState) : list nat :=
  slot_handles (snd <$> cs_key_block_cache s) ++ slot_handles (snd <$> cs_record_block_cache s)
  ++ slot_handles (cs_locator s).

Definition failure_bytes (s : CoreState) : Z :=
  slot_failure (snd <$> cs_key_block_cache s) + slot_failure (snd <$> cs_record_block_cache s)
  + slot_failure (cs_locator s).

Definition caches_ok (c : Contracts) (s : CoreState) : Prop :=
  slot_ok (key_contract c (from_option fst 0 (cs_key_block_cache s)))
    (snd <$> cs_key_block_cache s) /\
  slot_ok (record_contract c (from_option fst 0 (cs_record_block_cache s)))
    (snd <$> cs_record_block_cache s) /\
  slot_ok (locator_contract c) (cs_locator s).

(** The state is consistent when the caller (and the layout) hold reservations
    of [base] bytes and the handles [hs]. *)
Definition core_ok (max : Z) (c : Contracts) (base : Z) (hs : list nat) (s : CoreState) : Prop :=
  budget_ok (get_budget s) /\ mb_max (get_budget s) = max /\ 0 <= base /\
  mb_used (get_budget s) = base + arcs_bytes (cs_arcs s) + failure_bytes s /\
  arcs_ok (cache_handles s ++ hs) (cs_arcs s) /\ caches_ok c s.

Section Triples.

Context (max : Z) (c : Contracts).

(** The triples of [Logic] under this invariant. *)
Definition triple {A} (base : Z) (hs : list nat) (m : M CoreState A) (P : A -> Prop)
    (base' : A -> Z) (hs' : A -> list nat) (base_e : Z) (hs_e : list nat) : Prop :=
  htriple (core_ok max c) base hs m P base' hs' base_e hs_e.

Definition keeps {A} (m : M CoreState A) (P : A -> Prop) : Prop := hkeeps (core_ok max c) m P.

(** [m] returns a new handle. *)
Definition acquires {A} (m : M CoreState (Arc A)) (P : A -> Prop) : Prop :=
  forall base hs, triple base hs m (fun a => P (arc_value a)) (fun _ => base)
    (fun a => arc_id a :: hs) base hs.

Lemma triple_bind {A B} base hs (m : M CoreState A) (k : A -> M CoreState B) P base1 hs1 P' base' hs'
    base_e hs_e :
  triple base hs m P base1 hs1 base_e hs_e ->
  (forall a, P a -> triple (base1 a) (hs1 a) (k a) P' base' hs' base_e hs_e) ->
  triple base hs (Errors.mbind m k) P' base' hs' base_e hs_e.
Proof. apply htriple_bind. Qed.

Lemma triple_mono {A} base hs (m : M CoreState A) (P P' : A -> Prop) base1 hs1 base' hs' base_e hs_e :
  triple base hs m P base1 hs1 base_e hs_e ->
  (forall a, P a -> P' a /\ base1 a = base' a /\ hs1 a = hs' a) ->
  triple base hs m P' base' hs' base_e hs_e.
Proof. apply htriple_mono. Qed.

Lemma triple_ret {A} base hs (a : A) (P : A -> Prop) base' hs' base_e hs_e :
  P a -> base' a = base -> hs' a = hs -> triple base hs (mret a) P base' hs' base_e hs_e.
Proof. apply htriple_ret. Qed.

Lemma triple_err {A} base hs e (P : A -> Prop) base' hs' :
  triple base hs (merr e) P base' hs' base hs.
Proof. apply htriple_err. Qed.

Lemma triple_lift {A} base hs (r : Result A) (P : A -> Prop) :
  wp r P -> triple base hs (lift r) P (fun _ => base) (fun _ => hs) base hs.
Proof. apply htriple_lift. Qed.

Lemma triple_if {A} (b : bool) base hs (m1 m2 : M CoreState A) P base' hs' base_e hs_e :
  (b = true -> triple base hs m1 P base' hs' base_e hs_e) ->
  (b = false -> triple base hs m2 P base' hs' base_e hs_e) ->
  triple base hs (if b then m1 else m2) P base' hs' base_e hs_e.
Proof. destruct b; auto. Qed.

Lemma keeps_bind {A B} (m : M CoreState A) (k : A -> M CoreState B) P Q :
  keeps m P -> (forall a, P a -> keeps (k a) Q) -> keeps (Errors.mbind m k) Q.
Proof. apply hkeeps_bind. Qed.

Lemma keeps_mono {A} (m : M CoreState A) (P Q : A -> Prop) :
  keeps m P -> (forall a, P a -> Q a) -> keeps m Q.
Proof. apply hkeeps_mono. Qed.

Lemma keeps_ret {A} (a : A) (P : A -> Prop) : P a -> keeps (mret a) P.
Proof. apply hkeeps_ret. Qed.

Lemma keeps_err {A} e (P : A -> Prop) : keeps (merr e) P.
Proof. apply hkeeps_err. Qed.

Lemma keeps_lift {A} (r : Result A) (P : A -> Prop) : wp r P -> keeps (lift r) P.
Proof. apply hkeeps_lift. Qed.

Lemma keeps_if {A} (b : bool) (m1 m2 : M CoreState A) P :
  (b = true -> keeps m1 P) -> (b = false -> keeps m2 P) -> keeps (if b then m1 else m2) P.
Proof. destruct b; auto. Qed.

(** A change of the budget alone. *)
Lemma core_ok_accounts base hs s s' d :
  core_ok max c base hs s -> accounts s s' d -> 0 <= base + d -> core_ok max c (base + d) hs s'.
Proof.
  intros (Hb & Hm & Hbase & Hu & Ha & Hc) (Hb' & Hm' & Hu' & _ & E) Hd.
  assert (cs_arcs s' = cs_arcs s /\ cs_key_block_cache s' = cs_key_block_cache s /\
          cs_record_block_cache s' = cs_record_block_cache s /\ cs_locator s' = cs_locator s)
    as (E1 & E2 & E3 & E4) by (rewrite E; done).
  unfold core_ok, failure_bytes, cache_handles, caches_ok in *.
  rewrite E1, E2, E3, E4. split_and!; try done; try lia. all: apply Hc.
Qed.

(** Returning a reservation. *)
Lemma core_ok_drop base hs s bytes :
  0 <= bytes -> 0 <= base ->
  core_ok max c (base + bytes) hs s -> core_ok max c base hs (drop_reservation bytes s).
Proof.
  intros Hb Hbase (Hbud & Hm & _ & Hu & Ha & Hc).
  pose proof (arcs_bytes_nonneg _ _ Ha).
  assert (0 <= failure_bytes s) as Hf.
  { clear -Hc. unfold caches_ok, failure_bytes in *. destruct Hc as (H1 & H2 & H3).
    unfold slot_ok, slot_failure in *.
    destruct (snd <$> cs_key_block_cache s) as [[]|], (snd <$> cs_record_block_cache s) as [[]|],
      (cs_locator s) as [[]|]; lia. }
  unfold core_ok, drop_reservation in *. rewrite !get_set_budget.
  unfold budget_ok, release in *. destruct Hbud as [[? ?] [? ?]].
  assert (forall w, failure_bytes (set_core_world w s) = failure_bytes s) as Ef by done.
  simpl. rewrite Ef. split_and!; try done; try lia; apply Hc.
Qed.

#[export] Instance core_resources : Resources (core_ok max c).
Proof.
  split.
  - by intros base hs s (_ & _ & ? & _).
  - by intros base hs s (? & _).
  - apply core_ok_accounts.
  - intros. by apply core_ok_drop.
Qed.

Lemma triple_budgeted {A} base hs (m : M CoreState A) (P : A -> Prop) (d : A -> Z) :
  budgeted m P d -> (forall a, P a -> 0 <= d a) ->
  triple base hs m P (fun a => base + d a) (fun _ => hs) base hs.
Proof. by apply (htriple_budgeted (core_ok max c)). Qed.

Lemma keeps_budgeted {A} (m : M CoreState A) (P : A -> Prop) :
  budgeted m P (fun _ => 0) -> keeps m P.
Proof. by apply (hkeeps_budgeted (core_ok max c)). Qed.

Lemma triple_reserve base hs bytes :
  0 <= bytes ->
  triple base hs (reserve bytes) (fun n => n = bytes) (fun _ => base + bytes) (fun _ => hs) base hs.
Proof. by apply (htriple_reserve (core_ok max c)). Qed.

Lemma triple_scoped {A} base hs bytes context (m : M CoreState A) P base' hs' :
  0 <= bytes -> 0 <= base -> (forall a, P a -> 0 <= base' a) ->
  triple (base + bytes) hs m P (fun a => base' a + bytes) hs' (base + bytes) hs ->
  triple base hs (scoped bytes context m) P base' hs' base hs.
Proof. by apply (htriple_scoped (core_ok max c)). Qed.

Lemma keeps_scoped {A} bytes context (m : M CoreState A) P :
  0 <= bytes -> keeps m P -> keeps (scoped bytes context m) P.
Proof. by apply (hkeeps_scoped (core_ok max c)). Qed.

Lemma core_ok_perm base hs hs' s : hs ≡ₚ hs' -> core_ok max c base hs s -> core_ok max c base hs' s.
Proof.
  intros Hp (? & ? & ? & ? & Ha & ?). split_and!; try done.
  eapply arcs_ok_perm; [|done]. by rewrite Hp.
Qed.

Lemma triple_arc_new {A} base hs (value : A) bytes (P : A -> Prop) base_e hs_e :
  0 <= bytes -> 0 <= base -> P value ->
  triple (base + bytes) hs (arc_new value bytes) (fun a => P (arc_value a)) (fun _ => base)
    (fun a => arc_id a :: hs) base_e hs_e.
Proof.
  intros Hb Hbase HP s (Hbud & Hm & _ & Hu & Ha & Hc). unfold wpM, arc_new.
  destruct (arcs_new_ok _ _ bytes Ha Hb) as [Hn Ht].
  destruct (arcs_new bytes (cs_arcs s)) as [id a] eqn:E. simpl in *. split; [done|].
  split_and!; try done; simpl; [|].
  - change (failure_bytes (set_arcs a s)) with (failure_bytes s). unfold get_budget in *. simpl in *. lia.
  - eapply arcs_ok_perm; [|exact Hn]. unfold cache_handles. simpl. by rewrite Permutation_middle.
Qed.

Lemma core_ok_clone base hs s id :
  core_ok max c base hs s -> id ∈ cache_handles s ++ hs ->
  core_ok max c base (id :: hs) (set_arcs (arcs_clone id (cs_arcs s)) s).
Proof.
  intros (Hbud & Hm & Hbase & Hu & Ha & Hc) Hin.
  destruct (arcs_clone_ok _ _ id Ha Hin) as [Hn Ht].
  split_and!; try done; simpl.
  - change (failure_bytes (set_arcs _ s)) with (failure_bytes s). unfold get_budget in *. simpl in *. lia.
  - eapply arcs_ok_perm; [|exact Hn]. unfold cache_handles. simpl. by rewrite Permutation_middle.
Qed.

Lemma triple_arc_clone {A} base hs (arc : Arc A) base_e hs_e :
  arc_id arc ∈ hs ->
  triple base hs (arc_clone arc) (fun a => a = arc) (fun _ => base) (fun _ => arc_id arc :: hs)
    base_e hs_e.
Proof.
  intros Hin s Hs. split; [done|]. apply core_ok_clone; [done|].
  apply elem_of_app. by right.
Qed.

Lemma core_ok_arc_drop {A} base hs s (arc : Arc A) :
  core_ok max c base (arc_id arc :: hs) s -> core_ok max c base hs (arc_drop arc s).
Proof.
  intros (Hbud & Hm & Hbase & Hu & Ha & Hc). unfold arc_drop.
  assert (arcs_ok (arc_id arc :: cache_handles s ++ hs) (cs_arcs s)) as Ha'
    by (eapply arcs_ok_perm; [|exact Ha]; by rewrite Permutation_middle).
  destruct (arcs_drop_ok _ _ _ Ha') as (Hn & Hf & Ht).
  destruct (arcs_drop (arc_id arc) (cs_arcs s)) as [freed a]. cbn [fst snd] in *.
  apply core_ok_drop; [done|done|]. split_and!; try done; simpl; [lia|].
  change (failure_bytes (set_arcs a s)) with (failure_bytes s). unfold get_budget in *. simpl in *. lia.
Qed.

Lemma triple_drop_handle {A} base hs (arc : Arc A) base_e hs_e :
  triple base (arc_id arc :: hs) (drop_handle arc) (fun _ => True)
    (fun _ => base) (fun _ => hs) base_e hs_e.
Proof. intros s Hs. split; [done|]. by apply core_ok_arc_drop. Qed.

Lemma triple_with_arc_bytes {A B} base hs (arc : Arc A) (m : M CoreState B) P base' :
  triple base (arc_id arc :: hs) m P base' (fun _ => arc_id arc :: hs) base (arc_id arc :: hs) ->
  triple base (arc_id arc :: hs) (with_arc arc m) P base' (fun _ => hs) base hs.
Proof.
  intros Hm s Hs. specialize (Hm s Hs). unfold wpM, with_arc in *.
  destruct (m s) as [[a|e| |] s']; try done.
  - destruct Hm as [? Hm]. split; [done|]. by apply core_ok_arc_drop.
  - by apply core_ok_arc_drop.
Qed.

Lemma triple_with_arc {A B} base hs (arc : Arc A) (m : M CoreState B) P :
  triple base (arc_id arc :: hs) m P (fun _ => base) (fun _ => arc_id arc :: hs)
    base (arc_id arc :: hs) ->
  triple base (arc_id arc :: hs) (with_arc arc m) P (fun _ => base) (fun _ => hs) base hs.
Proof. apply triple_with_arc_bytes. Qed.

Lemma triple_or_drop_arc {A B} base hs (arc : Arc A) (m : M CoreState B) P base' hs' :
  triple base (arc_id arc :: hs) m P base' hs' base (arc_id arc :: hs) ->
  triple base (arc_id arc :: hs) (or_drop_arc arc m) P base' hs' base hs.
Proof.
  intros Hm s Hs. specialize (Hm s Hs). unfold wpM, or_drop_arc in *.
  destruct (m s) as [[a|e| |] s']; try done. by apply core_ok_arc_drop.
Qed.

(** Using an acquired value. *)
Lemma keeps_with_arc {A B} (m : M CoreState (Arc A)) (k : Arc A -> M CoreState B) P Q :
  acquires m P -> (forall a, P (arc_value a) -> keeps (k a) Q) ->
  keeps (let! a := m in with_arc a (k a)) Q.
Proof.
  intros Hm Hk base hs. eapply triple_bind; [apply Hm|]. intros a Ha. apply triple_with_arc.
  by apply Hk.
Qed.

Lemma triple_retained_bytes {A} base hs bytes context (m : M CoreState A) P base' :
  0 <= bytes ->
  triple (base + bytes) hs m P base' (fun _ => hs) (base + bytes) hs ->
  triple base hs (retained bytes context m) P base' (fun _ => hs) base hs.
Proof. by apply (htriple_retained (core_ok max c)). Qed.

Lemma triple_retained {A} base hs bytes context (m : M CoreState A) P :
  0 <= bytes ->
  triple (base + bytes) hs m P (fun _ => base + bytes) (fun _ => hs) (base + bytes) hs ->
  triple base hs (retained bytes context m) P (fun _ => base + bytes) (fun _ => hs) base hs.
Proof. intros Hb. by apply triple_retained_bytes. Qed.

(** Dropping the old value of a cache. *)
Lemma drop_cached_ok {A} base hs s (value : CachedValue A) (P : A -> Prop) :
  slot_ok P (Some value) -> 0 <= base ->
  core_ok max c (base + slot_failure (Some value)) (slot_handles (Some value) ++ hs) s ->
  core_ok max c base hs (drop_cached value s).
Proof.
  intros Hv Hbase Hs. destruct value as [arc|failure]; simpl in *.
  - apply core_ok_arc_drop. by rewrite Z.add_0_r in Hs.
  - by apply core_ok_drop.
Qed.

Lemma slot_failure_nonneg {A} (P : A -> Prop) slot : slot_ok P slot -> 0 <= slot_failure slot.
Proof. destruct slot as [[]|]; simpl; lia. Qed.

(** Exchanging the value of a cache. *)
Lemma set_key_cache_ok base hs (value : option (Z * CachedValue DecodedKeyBlock)) base_e hs_e :
  0 <= base ->
  slot_ok (key_contract c (from_option fst 0 value)) (snd <$> value) ->
  triple (base + slot_failure (snd <$> value)) (slot_handles (snd <$> value) ++ hs)
    (set_key_block_cache value) (fun _ => True) (fun _ => base) (fun _ => hs) base_e hs_e.
Proof.
  intros Hbase Hv s Hs. split; [done|]. simpl. destruct (cs_key_block_cache s) as [[i old]|] eqn:E.
  - destruct (id Hs) as (_ & _ & _ & _ & _ & Hold & _). rewrite E in Hold.
    change (slot_ok (key_contract c i) (Some old)) in Hold.
    eapply drop_cached_ok; [exact Hold|done|].
    destruct Hs as (Hbud & Hm & ? & Hu & Ha & H1 & H2 & H3).
    apply slot_failure_nonneg in Hold. split; [done|]. split; [done|]. split; [lia|].
    split_and!; simpl.
    + unfold get_budget, failure_bytes in *. rewrite E in Hu. simpl in *. lia.
    + eapply arcs_ok_perm; [|exact Ha]. unfold cache_handles. rewrite E. simpl. solve_Permutation.
    + by split_and!.
  - destruct Hs as (Hbud & Hm & ? & Hu & Ha & H1 & H2 & H3).
    split; [done|]. split; [done|]. split; [done|]. split_and!; simpl.
    + unfold get_budget, failure_bytes in *. rewrite E in Hu. simpl in *. lia.
    + eapply arcs_ok_perm; [|exact Ha]. unfold cache_handles. rewrite E. simpl. solve_Permutation.
    + by split_and!.
Qed.

Lemma set_record_cache_ok base hs (value : option (Z * CachedValue DecodedRecordBlock)) base_e hs_e :
  0 <= base ->
  slot_ok (record_contract c (from_option fst 0 value)) (snd <$> value) ->
  triple (base + slot_failure (snd <$> value)) (slot_handles (snd <$> value) ++ hs)
    (set_record_block_cache value) (fun _ => True) (fun _ => base) (fun _ => hs) base_e hs_e.
Proof.
  intros Hbase Hv s Hs. split; [done|]. simpl. destruct (cs_record_block_cache s) as [[i old]|] eqn:E.
  - destruct (id Hs) as (_ & _ & _ & _ & _ & _ & Hold & _). rewrite E in Hold.
    change (slot_ok (record_contract c i) (Some old)) in Hold.
    eapply drop_cached_ok; [exact Hold|done|].
    destruct Hs as (Hbud & Hm & ? & Hu & Ha & H1 & H2 & H3).
    apply slot_failure_nonneg in Hold. split; [done|]. split; [done|]. split; [lia|].
    split_and!; simpl.
    + unfold get_budget, failure_bytes in *. rewrite E in Hu. simpl in *. lia.
    + eapply arcs_ok_perm; [|exact Ha]. unfold cache_handles. rewrite E. simpl. solve_Permutation.
    + by split_and!.
  - destruct Hs as (Hbud & Hm & ? & Hu & Ha & H1 & H2 & H3).
    split; [done|]. split; [done|]. split; [done|]. split_and!; simpl.
    + unfold get_budget, failure_bytes in *. rewrite E in Hu. simpl in *. lia.
    + eapply arcs_ok_perm; [|exact Ha]. unfold cache_handles. rewrite E. simpl. solve_Permutation.
    + by split_and!.
Qed.

Lemma set_locator_ok base hs (value : CachedValue KeyLocator) base_e hs_e :
  0 <= base -> slot_ok (locator_contract c) (Some value) ->
  triple (base + slot_failure (Some value)) (slot_handles (Some value) ++ hs) (set_locator value)
    (fun _ => True) (fun _ => base) (fun _ => hs) base_e hs_e.
Proof.
  intros Hbase Hv s Hs. split; [done|]. simpl. destruct (cs_locator s) as [old|] eqn:E.
  { by eapply drop_cached_ok. }
  destruct Hs as (Hbud & Hm & ? & Hu & Ha & H1 & H2 & H3).
  split; [done|]. split; [done|]. split; [done|]. split_and!; simpl.
  - unfold get_budget, failure_bytes in *. rewrite E in Hu. simpl in *. lia.
  - eapply arcs_ok_perm; [|exact Ha]. unfold cache_handles. rewrite E. simpl. solve_Permutation.
  - by split_and!.
Qed.

(** The bytes a captured failure keeps reserved. *)
Definition captured_bytes (failure : option CachedFailure) : Z :=
  match failure with Some failure => default 0 (cf_memory failure) | None => 0 end.

Lemma capture_ok `{Env} base hs error base_e hs_e :
  triple base hs (capture error) (fun r => 0 <= captured_bytes r)
    (fun r => base + captured_bytes r) (fun _ => hs) base_e hs_e.
Proof.
  intros s Hs. unfold capture. destruct (failure_kind error) as [kind|].
  2: { split; [done|]. simpl. by rewrite Z.add_0_r. }
  destruct kind; try (split; [done|]; simpl; by rewrite Z.add_0_r).
  pose proof (triple_reserve base hs (Z.of_nat (String.length context)) ltac:(lia) s Hs) as Hr.
  unfold wpM in *. destruct (reserve _ s) as [[n|e| |] s']; try done.
  - destruct Hr as [-> Hr]. destruct (try_reserve_string _ _ _).
    + split; [simpl; lia|]. done.
    + split; [done|]. simpl. rewrite Z.add_0_r. apply core_ok_drop; [lia|apply Hs|done].
    + split; [done|]. simpl. rewrite Z.add_0_r. apply core_ok_drop; [lia|apply Hs|done].
    + split; [done|]. simpl. rewrite Z.add_0_r. apply core_ok_drop; [lia|apply Hs|done].
  - split; [done|]. simpl. by rewrite Z.add_0_r.
Qed.

(** An attempt never fails. *)
Lemma triple_attempt {A} base hs (m : M CoreState A) P base' hs' base_e hs_e base_x hs_x :
  triple base hs m P base' hs' base_e hs_e ->
  triple base hs (attempt m) (fun r => match r with inl a => P a | inr _ => True end)
    (fun r => match r with inl a => base' a | inr _ => base_e end)
    (fun r => match r with inl a => hs' a | inr _ => hs_e end) base_x hs_x.
Proof.
  intros Hm s Hs. specialize (Hm s Hs). unfold wpM, attempt in *.
  by destruct (m s) as [[a|e| |] s'].
Qed.

End Triples.
