(* ===== verification/Dictionary.v ===== *)
(** What an open dictionary contains, as functions of the file's bytes: the
    rows of a key block, the bytes of a record block, the row of an ordinal.
    [contracts] is what the caches of the core promise of the values they
    hold, whether the file changes or not. *)

From stdpp Require Import list_numbers gmap.
From S2P Require Import Prelude Errors Types Budget Utf8 Encoding Source Compression Descriptors Header KeySection RecordSection Format Normalize LocatorIndex Arcs Core.

Section Dictionary.

Context `{Env} (f : MdictFile).

Definition key_row_context (block : KeyBlockDescriptor) : KeyRowContext := {|
  krc_encoding := vl_key_encoding (mf_layout f);
  expected_entries := entry_count block;
  krc_total_decoded_record_len := vl_total_decoded_record_len (mf_layout f);
|}.

(** The rows of a key block, read from [content]. *)
Definition block_rows (content : bytes) (block : KeyBlockDescriptor) : Result (list DecodedKeyRow) :=
  let? block_bytes := ok_or (slice content (kb_comp_offset block)
                               (kb_comp_offset block + kb_comp_size block))
                        (Io "failed to fill whole buffer") in
  let? decoded := decode_block "key block" block_bytes (kb_decomp_size block) (mf_limits f)
                    (mf_checksum_policy f) in
  Descriptors.decode_key_rows (vl_wire (mf_layout f)) decoded (key_row_context block).

(** The decoded bytes of a record block, read from [content]. *)
Definition block_bytes (content : bytes) (block : RecordBlockDescriptor) : Result bytes :=
  let? block_bytes := ok_or (slice content (rb_comp_offset block)
                               (rb_comp_offset block + rb_comp_size block))
                        (Io "failed to fill whole buffer") in
  decode_block "record block" block_bytes (rb_decomp_size block) (mf_limits f)
    (mf_checksum_policy f).

(** Key block [i] holds [rows]. *)
Definition rows_at (content : bytes) (i : Z) (rows : list DecodedKeyRow) : Prop :=
  exists block, get_at (vl_key_blocks (mf_layout f)) i = Some block /\
    block_rows content block = Ok rows.

(** The row of an ordinal. *)
Definition row_at (content : bytes) (ordinal : Z) (row : DecodedKeyRow) : Prop :=
  exists i block rows, get_at (vl_key_blocks (mf_layout f)) i = Some block /\
    block_rows content block = Ok rows /\
    get_at rows (ordinal - entry_start_index block) = Some row.

(** Every block decodes: all results of [decode] in order. *)
Fixpoint decode_all {A B} (decode : A -> Result B) (l : list A) : Result (list B) :=
  match l with
  | [] => Ok []
  | a :: l => let? b := decode a in let? bs := decode_all decode l in Ok (b :: bs)
  end.

(** All rows of the dictionary in physical order. *)
Definition all_rows (content : bytes) : Result (list DecodedKeyRow) :=
  let? blocks := decode_all (block_rows content) (vl_key_blocks (mf_layout f)) in
  Ok (concat blocks).

(** The decoded record stream. *)
Definition record_stream (content : bytes) : Result bytes :=
  let? blocks := decode_all (block_bytes content) (vl_record_blocks (mf_layout f)) in
  Ok (concat blocks).

(** * The contracts of the caches *)

Definition key_block_at (i : Z) (b : DecodedKeyBlock) : Prop :=
  exists block, get_at (vl_key_blocks (mf_layout f)) i = Some block /\
    key_rows_ok (key_row_context block) (kb_entries b) /\ 0 < zlen (kb_entries b) /\
    forall content modified, stable (mf_source f) content modified ->
      block_rows content block = Ok (kb_entries b).

(** The block in front of block [i] ends where [b] starts, or before. *)
Definition starts_after (content : bytes) (i : Z) (b : DecodedKeyBlock) : Prop :=
  exists previous a r, rows_at content (i - 1) previous /\ last previous = Some a /\
    head (kb_entries b) = Some r /\ record_start a <= record_start r.

(** What [decode_key_block] checks in addition. *)
Definition cached_key_block_at (i : Z) (b : DecodedKeyBlock) : Prop :=
  key_block_at i b /\
  forall content modified, stable (mf_source f) content modified -> i <> 0 -> starts_after content i b.

Definition record_block_at (i : Z) (b : DecodedRecordBlock) : Prop :=
  exists block, get_at (vl_record_blocks (mf_layout f)) i = Some block /\
    zlen (rb_bytes b) = rb_decomp_size block /\ bytes_ok (rb_bytes b) /\
    forall content modified, stable (mf_source f) content modified ->
      block_bytes content block = Ok (rb_bytes b).

Definition locator_at (l : KeyLocator) : Prop :=
  exists keys, locator_of (mf_normalizer f) keys l /\ zlen keys = mdict_len f /\
    zlen keys <= u32_max /\ Forall text_ok keys /\
    forall content modified, stable (mf_source f) content modified ->
      exists rows, all_rows content = Ok rows /\ keys = map row_key rows.

Definition contracts : Contracts := {|
  key_contract := cached_key_block_at;
  record_contract := record_block_at;
  locator_contract := locator_at;
|}.

(** A dictionary as [open] leaves it. *)
Definition file_ok : Prop :=
  source_ok (mf_source f) /\ limits_ok (mf_limits f) /\
  layout_ok (mf_source f) (mf_kind f) (mf_limits f) (mf_layout f) /\
  mf_normalizer f = from_header (vl_header (mf_layout f)) (mf_kind f).

(** The invariant of its state. *)
Definition state_ok (base : Z) (hs : list nat) (s : CoreState) : Prop :=
  core_ok (working_memory_bytes (mf_limits f)) contracts base hs s.

End Dictionary.

(** * Lemmas *)

(** What follows from [layout_ok] for the key blocks. *)
Lemma layout_key_blocks `{Env} source kind lim layout :
  layout_ok source kind lim layout ->
  Forall key_block_ok (vl_key_blocks layout) /\ 0 <= vl_total_entries layout <= u64_max /\
  consecutive entry_start_index entry_count 0 (vl_key_blocks layout) (vl_total_entries layout) /\
  Forall (fun b => 1 <= entry_count b /\ 0 <= entry_start_index b /\
                   kb_decomp_size b <= decompressed_block_bytes lim) (vl_key_blocks layout).
Proof.
  intros (_ & _ & (_ & Hk & _) & (_ & ? & Hc & _) & (ob & _ & Hv & _) & _).
  assert (Forall (fun b => 0 <= entry_count b) (vl_key_blocks layout)) as Hsz
    by (eapply Forall_impl; [exact Hk|]; by intros b (? & ? & ?)).
  pose proof (consecutive_le _ _ _ _ _ Hsz Hc). split_and!; try done.
  eapply Forall_impl; [exact Hv|]. intros b (? & ? & ? & ? & ? & ? & ? & ?). lia.
Qed.

(** What follows from [layout_ok] for the record blocks. *)
Lemma layout_record_blocks `{Env} source kind lim layout :
  layout_ok source kind lim layout ->
  Forall record_block_ok (vl_record_blocks layout) /\
  0 <= vl_total_decoded_record_len layout <= u64_max /\
  consecutive rb_decomp_offset rb_decomp_size 0 (vl_record_blocks layout)
    (vl_total_decoded_record_len layout) /\
  Forall (fun b => 0 <= rb_decomp_size b /\ 0 <= rb_decomp_offset b) (vl_record_blocks layout).
Proof.
  intros (_ & _ & (_ & _ & Hr) & (_ & _ & _ & ? & Hc) & _ & (Hv & _) & _).
  assert (Forall (fun b => 0 <= rb_decomp_size b) (vl_record_blocks layout)) as Hsz
    by (eapply Forall_impl; [exact Hr|]; by intros b (? & ? & ?)).
  pose proof (consecutive_le _ _ _ _ _ Hsz Hc). split_and!; try done.
  eapply Forall_impl; [exact Hv|]. intros b (? & ? & ? & ?). lia.
Qed.

Lemma get_at_lookup {A} (l : list A) i x : get_at l i = Some x -> l !! Z.to_nat i = Some x /\ 0 <= i.
Proof. unfold get_at. destruct (Z.leb_spec 0 i); done. Qed.

Lemma lookup_get_at {A} (l : list A) (i : nat) x : l !! i = Some x -> get_at l (Z.of_nat i) = Some x.
Proof. intros Hi. unfold get_at. rewrite (proj2 (Z.leb_le 0 _)) by lia. by rewrite Nat2Z.id. Qed.

Lemma slice_get_at {A} (l : list A) a b s k :
  slice l a b = Some s -> 0 <= k < zlen s -> get_at s k = get_at l (a + k).
Proof.
  intros Hs Hk. pose proof (slice_length _ _ _ _ Hs). apply slice_Some in Hs as [? ->].
  unfold get_at. rewrite !(proj2 (Z.leb_le _ _)) by lia.
  rewrite lookup_take_lt by lia. rewrite lookup_drop. f_equal. lia.
Qed.

Lemma get_at_app_cases {A} (l1 l2 : list A) k x :
  get_at (l1 ++ l2) k = Some x <->
  (k < zlen l1 /\ get_at l1 k = Some x) \/ (zlen l1 <= k /\ get_at l2 (k - zlen l1) = Some x).
Proof.
  unfold get_at. destruct (Z.leb_spec 0 k); [|split; [done|intros [[? ?]|[? ?]]; [done|lia]]].
  rewrite lookup_app_Some. split.
  - intros [Hk|[? Hk]].
    + left. split; [|done]. apply lookup_lt_Some in Hk. lia.
    + right. split; [lia|]. rewrite (proj2 (Z.leb_le _ _)) by lia. rewrite <- Hk. f_equal. lia.
  - intros [[? Hk]|[? Hk]]; [by left|]. right. split; [lia|].
    rewrite (proj2 (Z.leb_le _ _)) in Hk by lia. rewrite <- Hk. f_equal. lia.
Qed.

(** The contents of consecutive blocks, one after the other. *)
Lemma concat_consecutive {A B} (start size : A -> Z) l (bs : list (list B)) from to :
  consecutive start size from l to -> Forall2 (fun a b => zlen b = size a) l bs ->
  zlen (concat bs) = to - from /\
  forall i a b k x, l !! i = Some a -> bs !! i = Some b -> get_at b k = Some x ->
    get_at (concat bs) (start a - from + k) = Some x.
Proof.
  intros Hc Hlen; revert from Hc; induction Hlen as [|a b l bs Hab Hlen IH]; intros from Hc.
  - simpl in Hc. subst. simpl. split; [lia|done].
  - simpl in Hc. destruct Hc as [<- Hc]. destruct (IH _ Hc) as [Hl Hat]. simpl. split.
    + rewrite length_app. lia.
    + intros [|i] a' b' k x Ha Hb Hx; simpl in *.
      * injection Ha as <-. injection Hb as <-. apply get_at_app_cases. left.
        pose proof (get_at_Some _ _ _ Hx). split; [lia|]. by replace (start a - start a + k) with k by lia.
      * specialize (Hat i a' b' k x Ha Hb Hx). pose proof (get_at_Some _ _ _ Hat).
        apply get_at_app_cases. right. split; [lia|].
        by replace (start a' - start a + k - zlen b) with (start a' - (start a + size a) + k) by lia.
Qed.

Lemma decode_all_Forall2 {A B} (decode : A -> Result B) l bs :
  decode_all decode l = Ok bs <-> Forall2 (fun a b => decode a = Ok b) l bs.
Proof.
  revert bs; induction l as [|a l IH]; intros bs; simpl; split.
  - intros [= <-]. constructor.
  - by inversion 1.
  - intros Hd. rinv. constructor; [done|]. by apply IH.
  - inversion 1 as [|? b ? bs' Ha Hl]; subst. rewrite Ha. simpl.
    by rewrite (proj2 (IH bs') Hl).
Qed.

Section DictionaryProofs.

Context `{EnvOk} (f : MdictFile) (Hf : file_ok f) (content : bytes) (modified : Z).

Hypothesis (Hst : stable (mf_source f) content modified).

Lemma stable_bytes : bytes_ok content.
Proof. destruct Hf as ([_ Hs] & _), Hst as [_ Ht]. by apply (Hs 0%nat _ (Ht 0%nat)). Qed.

Lemma block_rows_ok block rows :
  block ∈ vl_key_blocks (mf_layout f) -> block_rows f content block = Ok rows ->
  key_rows_ok (key_row_context f block) rows.
Proof.
  intros Hin Hr. destruct Hf as (_ & _ & Hl & _). destruct (layout_key_blocks _ _ _ _ Hl) as (Hk & _).
  rewrite Forall_forall in Hk. destruct (Hk block Hin) as (_ & _ & _ & ?).
  destruct Hl as (_ & _ & _ & _ & _ & _ & _ & _ & _ & Hwire).
  unfold block_rows in Hr. rinv.
  match goal with Hs : slice _ _ _ = Some ?bb, Hd : decode_block _ ?bb _ _ _ = Ok ?d |- _ =>
    pose proof (slice_Forall _ _ _ _ _ Hs stable_bytes) as Hbb;
    pose proof (wp_decode_block "key block" bb (kb_decomp_size block) (mf_limits f)
      (mf_checksum_policy f) Hbb ltac:(done)) as Hw; rewrite Hd in Hw; destruct Hw as (_ & Hdd & _);
    pose proof (Hwire d (key_row_context f block) Hdd) as Hrows
  end.
  by rewrite Hr in Hrows.
Qed.

Lemma block_bytes_ok block data :
  block ∈ vl_record_blocks (mf_layout f) -> block_bytes f content block = Ok data ->
  zlen data = rb_decomp_size block.
Proof.
  intros Hin Hr. destruct Hf as (_ & _ & Hl & _). destruct (layout_record_blocks _ _ _ _ Hl) as (Hk & _).
  rewrite Forall_forall in Hk. destruct (Hk block Hin) as (_ & _ & ?).
  unfold block_bytes in Hr. rinv.
  match goal with Hs : slice _ _ _ = Some ?bb |- _ =>
    pose proof (slice_Forall _ _ _ _ _ Hs stable_bytes) as Hbb;
    pose proof (wp_decode_block "record block" bb (rb_decomp_size block) (mf_limits f)
      (mf_checksum_policy f) Hbb ltac:(done)) as Hw; rewrite Hr in Hw; by destruct Hw
  end.
Qed.

(** The rows of a dictionary that decodes completely. *)
Lemma all_rows_spec rows :
  all_rows f content = Ok rows ->
  zlen rows = mdict_len f /\
  forall ordinal row, row_at f content ordinal row -> get_at rows ordinal = Some row.
Proof.
  intros Ha. unfold all_rows in Ha. rinv.
  match goal with Hd : decode_all _ _ = Ok ?bs |- _ => rename bs into blocks; apply decode_all_Forall2 in Hd as Hall end.
  destruct (id Hf) as (_ & _ & Hl & _). destruct (layout_key_blocks _ _ _ _ Hl) as (_ & _ & Hc & _).
  assert (Forall2 (fun a b => zlen b = entry_count a) (vl_key_blocks (mf_layout f)) blocks) as Hlen.
  { apply Forall2_same_length_lookup. split; [by eapply Forall2_length|]. intros i a b Hi Hb.
    pose proof (Forall2_lookup_lr _ _ _ _ _ _ Hall Hi Hb) as Hr.
    apply list_elem_of_lookup_2 in Hi. by destruct (block_rows_ok a b Hi Hr) as (? & _). }
  destruct (concat_consecutive _ _ _ _ _ _ Hc Hlen) as [Hz Hat]. unfold mdict_len. split; [lia|].
  intros ordinal row (i & block & rows & Hb & Hr & Hg).
  destruct (get_at_lookup _ _ _ Hb) as [Hlk _].
  destruct (Forall2_lookup_l _ _ _ _ _ Hall Hlk) as (rows' & Hlk' & Hr').
  assert (rows' = rows) as -> by congruence. specialize (Hat _ _ _ _ _ Hlk Hlk' Hg).
  by replace (entry_start_index block - 0 + (ordinal - entry_start_index block)) with ordinal in Hat by lia.
Qed.

(** The record stream of a dictionary that decodes completely. *)
Lemma record_stream_length stream :
  record_stream f content = Ok stream -> zlen stream = vl_total_decoded_record_len (mf_layout f).
Proof.
  intros Ha. unfold record_stream in Ha. rinv.
  match goal with Hd : decode_all _ _ = Ok ?bs |- _ => rename bs into blocks; apply decode_all_Forall2 in Hd as Hall end.
  destruct (id Hf) as (_ & _ & Hl & _). destruct (layout_record_blocks _ _ _ _ Hl) as (_ & _ & Hc & _).
  assert (Forall2 (fun a b => zlen b = rb_decomp_size a) (vl_record_blocks (mf_layout f)) blocks) as Hlen.
  { apply Forall2_same_length_lookup. split; [by eapply Forall2_length|]. intros i a b Hi Hb.
    pose proof (Forall2_lookup_lr _ _ _ _ _ _ Hall Hi Hb) as Hr.
    apply list_elem_of_lookup_2 in Hi. by eapply block_bytes_ok. }
  destruct (concat_consecutive _ _ _ _ _ _ Hc Hlen) as [Hz _]. lia.
Qed.

Lemma record_stream_get stream block data offset b :
  record_stream f content = Ok stream -> block ∈ vl_record_blocks (mf_layout f) ->
  block_bytes f content block = Ok data -> get_at data (offset - rb_decomp_offset block) = Some b ->
  get_at stream offset = Some b.
Proof.
  intros Ha Hin Hd Hg. unfold record_stream in Ha. rinv.
  match goal with Hd : decode_all _ _ = Ok ?bs |- _ => rename bs into blocks; apply decode_all_Forall2 in Hd as Hall end.
  destruct (id Hf) as (_ & _ & Hl & _). destruct (layout_record_blocks _ _ _ _ Hl) as (_ & _ & Hc & _).
  assert (Forall2 (fun a b => zlen b = rb_decomp_size a) (vl_record_blocks (mf_layout f)) blocks) as Hlen.
  { apply Forall2_same_length_lookup. split; [by eapply Forall2_length|]. intros i a c Hi Hb.
    pose proof (Forall2_lookup_lr _ _ _ _ _ _ Hall Hi Hb) as Hr.
    apply list_elem_of_lookup_2 in Hi. by eapply block_bytes_ok. }
  destruct (concat_consecutive _ _ _ _ _ _ Hc Hlen) as [_ Hat].
  apply list_elem_of_lookup_1 in Hin as [i Hi].
  destruct (Forall2_lookup_l _ _ _ _ _ Hall Hi) as (data' & Hi' & Hd').
  assert (data' = data) as -> by congruence. specialize (Hat _ _ _ _ _ Hi Hi' Hg).
  by replace (rb_decomp_offset block - 0 + (offset - rb_decomp_offset block)) with offset in Hat by lia.
Qed.

End DictionaryProofs.

(** [open] establishes the invariant: the budget holds the layout's bytes and
    nothing else. *)
Lemma open_ok `{EnvOk} fs path kind options clock :
  file_system_ok fs -> limits_ok (limits options) ->
  wp (open fs path kind options clock) (fun '(f, s) =>
    file_ok f /\ state_ok f (retained_total (mf_layout f)) [] s /\
    mf_kind f = kind /\ mf_limits f = limits options /\
    mf_checksum_policy f = checksum_policy options).
Proof.
  intros Hfs Hlim. unfold open.
  set (w := {| w_budget := memory_budget_new _; w_clock := clock |}).
  assert (budget_ok (get_budget w)) as Hw.
  { destruct Hlim as (_ & _ & _ & _ & _ & _ & _ & _ & _ & _ & _ & [? ?]).
    unfold budget_ok, get_budget; simpl. lia. }
  assert (budgeted (S:=World) (let! source := source_open fs path in
            let! layout := open_layout source kind options in mret (source, layout))
    (fun '(source, layout) => source_ok source /\ layout_ok source kind (limits options) layout)
    (fun p => retained_total (snd p))) as Hb.
  { eapply budgeted_bind; [by apply budgeted_source_open|]. intros source Hs.
    intros s Hbs. apply wpM_bind. eapply wpM_mono; [by apply budgeted_open_layout| |done].
    intros layout s' [Hl Ha]. apply wpM_ret. done. }
  specialize (Hb w Hw). unfold wpM in Hb. destruct (Errors.mbind _ _ w) as [[[source layout]|e| |] w']; try done.
  destruct Hb as [[Hs Hl] (Hb' & Hm & Hu & _ & _)]. simpl. split_and!; try done.
  split_and!; try done; simpl.
  - apply Hl.
  - unfold arcs_bytes. simpl. rewrite map_fold_empty. unfold failure_bytes; simpl.
    unfold get_budget in *. simpl in *. lia.
Qed.
