(* ===== verification/SampleDictionary.v ===== *)
(** The sample file of [Samples], opened: the concrete dictionary on which the
    witnesses evaluate the core. *)

From S2P Require Import Prelude Errors Types Budget Encoding Source Descriptors Normalize Format Samples Arcs Core Dictionary.

Definition sample_fs : bytes -> nat -> option FileState :=
  fun _ _ => Some {| fc_content := sample_v2; fc_modified := 1700000000000000000 |}.

(** A stand-in for an [open] that fails, which this one does not. *)
Definition unopened : MdictFile * CoreState :=
  ({| mf_kind := Mdx; mf_source := sample_source; mf_layout := sample_layout;
      mf_normalizer := from_header (vl_header sample_layout) Mdx;
      mf_limits := limits_new; mf_checksum_policy := Verify |}, core_state_new world_new).

Definition sample_opened : MdictFile * CoreState :=
  match @open simple_env sample_fs (lit "words.mdx") Mdx sample_options 0 with
  | Ok opened => opened
  | _ => unopened
  end.

Definition sample_file : MdictFile := fst sample_opened.

Definition sample_state : CoreState := snd sample_opened.

Definition sample_base : Z := retained_total (mf_layout sample_file).

Lemma sample_fs_ok : file_system_ok sample_fs.
Proof.
  intros path t file [= <-]. simpl.
  split; [apply bytes_ok_check; vm_compute; reflexivity|vm_compute; discriminate].
Qed.

Lemma sample_opens :
  @open simple_env sample_fs (lit "words.mdx") Mdx sample_options 0 = Ok (sample_file, sample_state).
Proof.
  unfold sample_file, sample_state, sample_opened.
  destruct (@open simple_env sample_fs (lit "words.mdx") Mdx sample_options 0) as [[f s]|e|site|] eqn:E;
    [done|exfalso..];
    assert (match @open simple_env sample_fs (lit "words.mdx") Mdx sample_options 0 with
            | Ok _ => true | _ => false end = true) as Hok by (vm_compute; reflexivity);
    by rewrite E in Hok.
Qed.

Lemma sample_ok :
  @file_ok simple_env sample_file /\ @state_ok simple_env sample_file sample_base [] sample_state.
Proof.
  pose proof (@open_ok simple_env simple_env_ok sample_fs (lit "words.mdx") Mdx sample_options 0
                sample_fs_ok limits_new_ok) as Hw.
  rewrite sample_opens in Hw. destruct Hw as (Hf & Hs & _). by split.
Qed.

Lemma sample_stable : stable (mf_source sample_file) sample_v2 1700000000000000000.
Proof. vm_compute. by split. Qed.
