(* ===== verification/Keys.v ===== *)
(** Key blocks and ordinals: [src/core/keys.rs]. *)

From stdpp Require Import list_numbers sorting.
From S2P Require Import Prelude Errors Types Budget Utf8 Encoding Source Compression Descriptors Header KeySection Format Normalize LocatorIndex Samples Arcs Core Dictionary SampleDictionary.

(** [KeyBlockHit] *)
Record KeyBlockHit := {
  kh_block_index : Z;
  kh_entry_index : Z;
  kh_entries : Arc DecodedKeyBlock;
}.

(** One request of [keys_at_ordinals]. *)
Record KeyRequest := {
  kr_block_index : Z;
  kr_entry_index : Z;
  kr_input_index : Z;
  kr_ordinal : Z;
}.

(** The order of [sort_unstable_by_key] on the block index.  The sort of the
    model is stable; which of two requests for one block comes first has no
    effect on the results. *)
Definition request_le (a b : KeyRequest) : Prop := kr_block_index a <= kr_block_index b.

#[export] Instance request_le_dec a b : Decision (request_le a b).
Proof. unfold request_le. apply _. Defined.

(** The loop of [find_key_block_by_ordinal]. *)
Fixpoint find_key_block_loop (fuel : nat) (blocks : list KeyBlockDescriptor)
    (ordinal left right : Z) : Result (option Z) :=
  match fuel with
  | O => OutOfFuel
  | S fuel =>
      if left <? right then
        let mid := (left + right) / 2 in
        let? block := or_panic (get_at blocks mid) "index out of bounds" in
        let? block_end := ok_or (checked_add (entry_start_index block) (entry_count block))
                            (InvalidFormat "keyword entry count overflow") in
        if ordinal <? entry_start_index block
        then find_key_block_loop fuel blocks ordinal left mid
        else if block_end <=? ordinal
        then find_key_block_loop fuel blocks ordinal (mid + 1) right
        else Ok (Some mid)
      else Ok None
  end.

Section Keys.

Context `{Env} (f : MdictFile).

(** [find_key_block_by_ordinal]; each round halves an interval of at most
    [blocks.len()] blocks. *)
Definition find_key_block_by_ordinal (ordinal : Z) : Result (option Z) :=
  let blocks := vl_key_blocks (mf_layout f) in
  find_key_block_loop (S (length blocks)) blocks ordinal 0 (zlen blocks).

(** [key_summary_matches] *)
Definition key_summary_matches (decoded_key index_summary : text) : M CoreState bool :=
  let! decoded_len := lift (normalized_len (mf_normalizer f) decoded_key) in
  let! summary_len := lift (normalized_len (mf_normalizer f) index_summary) in
  let! memory_len := lift (ok_or (checked_add decoded_len summary_len)
                             (InvalidFormat "normalized key summary size overflow")) in
  scoped memory_len "normalized key block summaries" (
    let! decoded := lift (normalize (mf_normalizer f) decoded_key) in
    let! summary := lift (normalize (mf_normalizer f) index_summary) in
    mret (bytes_eqb decoded summary)).

(** The bytes [decode_key_block_uncached] retains for a block. *)
Definition key_block_retained_bytes (entry_count decomp_size : Z) : Result Z :=
  let? decoded_text_bytes := max_decoded_len (vl_key_encoding (mf_layout f)) decomp_size in
  let? metadata := ok_or (checked_mul entry_count size_of_decoded_key_row)
                     (InvalidFormat "decoded key metadata size overflow") in
  ok_or (checked_add decoded_text_bytes metadata)
    (InvalidFormat "decoded key block size overflow").

(** The rows of a block, read and checked against the key index. *)
Definition read_key_block (block : KeyBlockDescriptor) (comp_size decomp_size : Z)
    : M CoreState (list DecodedKeyRow) :=
  let! block_bytes := read_exact_at (mf_source f) (kb_comp_offset block) comp_size "key block" in
  let! decoded := lift (decode_block "key block" block_bytes decomp_size (mf_limits f)
                          (mf_checksum_policy f)) in
  let! parsed := lift (Descriptors.decode_key_rows (vl_wire (mf_layout f)) decoded
                         (key_row_context f block)) in
  let! first := lift (ok_or (head parsed) (InvalidFormat "empty decoded key block")) in
  let! last := lift (ok_or (last parsed) (InvalidFormat "empty decoded key block")) in
  let! first_matches := key_summary_matches (row_key first) (first_key block) in
  let! last_matches :=
    if first_matches then key_summary_matches (row_key last) (last_key block)
    else mret false in
  if negb (first_matches && last_matches)
  then merr (InvalidFormat "keyword block summaries do not match decoded boundary keys")
  else mret parsed.

(** [decode_key_block_uncached] *)
Definition decode_key_block_uncached (index : Z) : M CoreState (Arc DecodedKeyBlock) :=
  let! block := lift (ok_or (get_at (vl_key_blocks (mf_layout f)) index)
                        (InvalidFormat "key block index out of range")) in
  let! comp_size := lift (checked_usize (kb_comp_size block) "key block compressed length") in
  let! decomp_size := lift (checked_usize (kb_decomp_size block) "key block decompressed length") in
  let! entry_count := lift (checked_usize (entry_count block) "key block entry count") in
  let! retained_bytes := lift (key_block_retained_bytes entry_count decomp_size) in
  let! entries :=
    retained retained_bytes "decoded key block" (
      scoped comp_size "compressed key block" (
        scoped decomp_size "raw decoded key block" (
          let! parsed := read_key_block block comp_size decomp_size in
          mret {| kb_entries := parsed; kb_memory := retained_bytes |}))) in
  arc_new entries retained_bytes.

(** [previous.last()?.record_start] *)
Definition last_start (block : DecodedKeyBlock) : Result Z :=
  let? row := ok_or (last (kb_entries block)) (InvalidFormat "empty decoded key block") in
  Ok (record_start row).

(** [entries.first()?.record_start] *)
Definition first_start (block : DecodedKeyBlock) : Result Z :=
  let? row := ok_or (head (kb_entries block)) (InvalidFormat "empty decoded key block") in
  Ok (record_start row).

(** The check across the boundary of two key blocks. *)
Definition check_boundary (previous_last : option Z) (entries : DecodedKeyBlock) : Result unit :=
  match previous_last with
  | None => Ok tt
  | Some previous_last =>
      let? current_first := first_start entries in
      if current_first <? previous_last
      then Err (InvalidData ("record starts decrease across key blocks from "
                             +++ fmt_dec previous_last +++ " to " +++ fmt_dec current_first)%string)
      else Ok tt
  end.

(** The closure of [decode_key_block], run on a cache miss. *)
Definition decode_key_block_miss (index : Z) : M CoreState (Arc DecodedKeyBlock) :=
  match get_at (vl_key_blocks (mf_layout f)) index with
  | None => merr (InvalidFormat "key block index out of range")
  | Some _ =>
      let! cache := read_state cs_key_block_cache in
      let! previous_last :=
        if index =? 0 then mret None
        else match cache_hit cache (index - 1) with
             | Some (Ready previous) => let! start := lift (last_start (arc_value previous)) in
                                        mret (Some start)
             | Some (Failed error) => merr (replay error)
             | None =>
                 let! previous := decode_key_block_uncached (index - 1) in
                 with_arc previous (let! start := lift (last_start (arc_value previous)) in
                                    mret (Some start))
             end in
      let! _ := set_key_block_cache None in
      let! entries := decode_key_block_uncached index in
      or_drop_arc entries (
        let! _ := lift (check_boundary previous_last (arc_value entries)) in
        mret entries)
  end.

(** [decode_key_block] *)
Definition decode_key_block (index : Z) : M CoreState (Arc DecodedKeyBlock) :=
  let! cache := read_state cs_key_block_cache in
  match cache_hit cache index with
  | Some (Ready entries) => arc_clone entries
  | Some (Failed error) => merr (replay error)
  | None =>
      let! result := attempt (decode_key_block_miss index) in
      match result with
      | inl entries =>
          let! cached := arc_clone entries in
          let! _ := set_key_block_cache (Some (index, Ready cached)) in
          mret entries
      | inr error =>
          let! cached := capture error in
          let! _ := match cached with
                    | Some cached => set_key_block_cache (Some (index, Failed cached))
                    | None => mret tt
                    end in
          merr error
      end
  end.

(** The block and the entry of an ordinal below [len()], the first half of
    [key_entry_at_ordinal] and of the loop of [keys_at_ordinals]. *)
Definition resolve_ordinal (ordinal : Z) : Result (Z * Z) :=
  let? found := find_key_block_by_ordinal ordinal in
  let? block_index := ok_or found (InvalidFormat "key ordinal not covered by key blocks") in
  let? block := ok_or (get_at (vl_key_blocks (mf_layout f)) block_index)
                  (InvalidFormat "key block index out of range") in
  let? entry_offset := ok_or (checked_sub ordinal (entry_start_index block))
                         (InvalidFormat "key ordinal underflow") in
  let? entry_index := ok_or (try_usize entry_offset) (InvalidFormat "key ordinal exceeds usize") in
  Ok (block_index, entry_index).

(** [key_entry_at_ordinal]; the caller owns the handle of a hit. *)
Definition key_entry_at_ordinal (ordinal : Z) : M CoreState (option KeyBlockHit) :=
  if mdict_len f <=? ordinal then mret None
  else
    let! '(block_index, entry_index) := lift (resolve_ordinal ordinal) in
    let! entries := decode_key_block block_index in
    or_drop_arc entries (
      if zlen (kb_entries (arc_value entries)) <=? entry_index
      then merr (InvalidData ("key ordinal " +++ fmt_dec ordinal
                              +++ " resolved past decoded block length "
                              +++ fmt_dec (zlen (kb_entries (arc_value entries))))%string)
      else mret (Some {| kh_block_index := block_index; kh_entry_index := entry_index;
                         kh_entries := entries |})).

(** [&hit.entries[hit.entry_index]] *)
Definition hit_row (hit : KeyBlockHit) : Result DecodedKeyRow :=
  or_panic (get_at (kb_entries (arc_value (kh_entries hit))) (kh_entry_index hit))
    "index out of bounds".

(** [key_at_ordinal] *)
Definition key_at_ordinal (ordinal : Z) : M CoreState (option KeyEntry) :=
  let! hit := key_entry_at_ordinal ordinal in
  match hit with
  | None => mret None
  | Some hit =>
      with_arc (kh_entries hit) (
        let! row := lift (hit_row hit) in
        let! key := lift (try_clone_string (row_key row) "physical key result") in
        mret (Some {| ke_ordinal := ordinal; ke_key := key |}))
  end.

(** The first loop of [keys_at_ordinals]. *)
Fixpoint key_requests (input_index : Z) (ordinals : list Z) : Result (list KeyRequest) :=
  match ordinals with
  | [] => Ok []
  | ordinal :: ordinals =>
      if mdict_len f <=? ordinal then key_requests (input_index + 1) ordinals
      else
        let? '(block_index, entry_index) := resolve_ordinal ordinal in
        let? requests := key_requests (input_index + 1) ordinals in
        Ok ({| kr_block_index := block_index; kr_entry_index := entry_index;
               kr_input_index := input_index; kr_ordinal := ordinal |} :: requests)
  end.

(** The loop over the requests of one block. *)
Fixpoint fill_results (entries : DecodedKeyBlock) (requests : list KeyRequest)
    (results : list (option KeyEntry)) : Result (list (option KeyEntry)) :=
  match requests with
  | [] => Ok results
  | request :: requests =>
      let? entry := ok_or (get_at (kb_entries entries) (kr_entry_index request))
        (InvalidData ("key ordinal " +++ fmt_dec (kr_ordinal request)
                      +++ " resolved past decoded block length "
                      +++ fmt_dec (zlen (kb_entries entries)))%string) in
      let? key := try_clone_string (row_key entry) "batched physical key result" in
      let? _ := or_panic (get_at results (kr_input_index request)) "index out of bounds" in
      fill_results entries requests
        (<[Z.to_nat (kr_input_index request) :=
             Some {| ke_ordinal := kr_ordinal request; ke_key := key |}]> results)
  end.

(** The requests for [block_index] at the front of the list, and the others. *)
Fixpoint take_block (block_index : Z) (requests : list KeyRequest)
    : list KeyRequest * list KeyRequest :=
  match requests with
  | request :: requests =>
      if kr_block_index request =? block_index
      then let (same, rest) := take_block block_index requests in (request :: same, rest)
      else ([], request :: requests)
  | [] => ([], [])
  end.

(** The outer loop over the sorted requests; each round serves at least one. *)
Fixpoint serve_requests (fuel : nat) (requests : list KeyRequest)
    (results : list (option KeyEntry)) : M CoreState (list (option KeyEntry)) :=
  match fuel with
  | O => lift OutOfFuel
  | S fuel =>
      match requests with
      | [] => mret results
      | request :: _ =>
          let block_index := kr_block_index request in
          let (same, rest) := take_block block_index requests in
          let! entries := decode_key_block block_index in
          let! results := with_arc entries (lift (fill_results (arc_value entries) same results)) in
          serve_requests fuel rest results
      end
  end.

(** Sizes of the batch vectors' elements on a 64-bit target:
    [Option<KeyEntry>], [(usize, usize, usize, KeyOrdinal)]. *)
Definition size_of_key_entry_option : Z := 32.

Definition size_of_key_request : Z := 32.

(** [keys_at_ordinals] *)
Definition keys_at_ordinals (ordinals : list Z) : M CoreState (list (option KeyEntry)) :=
  let! _ := lift (try_reserve_vec 0 size_of_key_entry_option (zlen ordinals)
                    "batched key results") in
  let results := replicate (length ordinals) None in
  let! _ := lift (try_reserve_vec 0 size_of_key_request (zlen ordinals) "batched key requests") in
  let! requests := lift (key_requests 0 ordinals) in
  let requests := merge_sort request_le requests in
  serve_requests (S (length requests)) requests results.

End Keys.

(** * Lemmas *)

Lemma find_key_block_loop_spec fuel blocks ordinal left right total :
  Forall key_block_ok blocks -> total <= u64_max -> 0 <= ordinal ->
  consecutive entry_start_index entry_count 0 blocks total ->
  0 <= left -> left <= right -> right <= zlen blocks -> right - left < Z.of_nat fuel ->
  outside entry_start_index entry_count blocks ordinal left right ->
  returns (find_key_block_loop fuel blocks ordinal left right) (fun r =>
    match r with
    | Some i => exists b, get_at blocks i = Some b /\
        entry_start_index b <= ordinal < entry_start_index b + entry_count b
    | None => total <= ordinal
    end).
Proof.
  intros Hok Htot Hord Hc.
  assert (Forall (fun b => 0 <= entry_count b) blocks) as Hsz
    by (eapply Forall_impl; [exact Hok|]; by intros b (? & ? & ?)).
  revert left right. induction fuel as [|fuel IH]; intros left right Hl Hlr Hr Hf Hout; [lia|].
  cbn [find_key_block_loop]. apply returns_if; intros Hlt; zbool.
  - pose proof (Z.div_mod (left + right) 2). pose proof (Z.mod_pos_bound (left + right) 2).
    set (mid := (left + right) / 2) in *.
    apply returns_bind, returns_or_panic; [apply get_at_is_Some; lia|]. intros b Hb.
    assert (blocks !! Z.to_nat mid = Some b) as Hlk.
    { unfold get_at in Hb. by rewrite (proj2 (Z.leb_le 0 mid)) in Hb by lia. }
    destruct (consecutive_bounds _ _ _ _ _ _ _ Hsz Hc Hlk).
    unfold checked_add. rewrite (proj2 (Z.leb_le _ u64_max)) by lia. simpl.
    apply returns_if; intros ?; [|apply returns_if; intros ?]; zbool.
    + apply IH; try lia. by eapply outside_left; [..|lia|].
    + apply IH; try lia. by eapply outside_right; [..|lia|].
    + exists b. split; [done|lia].
  - by eapply outside_none.
Qed.

Section KeysProofs.

Context `{EnvOk} (f : MdictFile) (Hf : file_ok f).

Let max := working_memory_bytes (mf_limits f).

Lemma find_key_block_returns ordinal :
  0 <= ordinal ->
  returns (find_key_block_by_ordinal f ordinal) (fun r =>
    match r with
    | Some i => exists b, get_at (vl_key_blocks (mf_layout f)) i = Some b /\
        entry_start_index b <= ordinal < entry_start_index b + entry_count b
    | None => mdict_len f <= ordinal
    end).
Proof.
  intros Hord. destruct Hf as (_ & _ & Hl & _).
  destruct (layout_key_blocks _ _ _ _ Hl) as (Hk & [? ?] & Hc & _).
  apply find_key_block_loop_spec; try done; try lia. apply outside_init.
Qed.

(** An ordinal of the dictionary resolves to its block and entry. *)
Lemma resolve_ordinal_returns ordinal :
  0 <= ordinal < mdict_len f ->
  returns (resolve_ordinal f ordinal) (fun r =>
    exists b, get_at (vl_key_blocks (mf_layout f)) (fst r) = Some b /\
      snd r = ordinal - entry_start_index b /\ 0 <= snd r < entry_count b).
Proof.
  intros Hord. unfold resolve_ordinal. apply returns_bind.
  eapply returns_mono; [apply find_key_block_returns; lia|]. intros [i|] Hi; [|lia].
  destruct Hi as (b & Hb & ?). simpl. rewrite Hb. simpl.
  destruct Hf as (_ & _ & Hl & _). destruct (layout_key_blocks _ _ _ _ Hl) as (_ & [_ ?] & _ & Hv).
  rewrite Forall_forall in Hv. destruct (Hv b) as (? & ? & _); [by eapply get_at_elem_of|].
  unfold checked_sub. rewrite (proj2 (Z.leb_le _ ordinal)) by lia. simpl.
  unfold try_usize, usize_max. unfold mdict_len in Hord.
  rewrite (proj2 (Z.leb_le _ u64_max)) by lia. simpl. exists b. split_and!; [done|done|lia..].
Qed.

Lemma keeps_key_summary_matches decoded_key index_summary :
  keeps max (contracts f) (key_summary_matches f decoded_key index_summary) (fun _ => True).
Proof.
  unfold key_summary_matches. eapply keeps_bind; [apply keeps_lift, wp_normalized_len|].
  intros decoded_len [_ ?]. eapply keeps_bind; [apply keeps_lift, wp_normalized_len|].
  intros summary_len [_ ?].
  eapply (keeps_bind _ _ _ _ (fun n => 0 <= n)); [apply keeps_lift, wp_ok_or; intros; rinv; lia|].
  intros memory_len ?. apply keeps_scoped; [done|].
  eapply keeps_bind; [apply keeps_lift, wp_normalize|]. intros decoded _.
  eapply keeps_bind; [apply keeps_lift, wp_normalize|]. intros summary _. by apply keeps_ret.
Qed.

(** Reading a block gives the rows the file holds. *)
Lemma keeps_read_key_block block :
  block ∈ vl_key_blocks (mf_layout f) ->
  keeps max (contracts f) (read_key_block f block (kb_comp_size block) (kb_decomp_size block))
    (fun rows => key_rows_ok (key_row_context f block) rows /\ 0 < zlen rows /\
       forall content modified, stable (mf_source f) content modified ->
         block_rows f content block = Ok rows).
Proof.
  intros Hin. destruct (id Hf) as (Hsrc & _ & Hl & _).
  destruct (layout_key_blocks _ _ _ _ Hl) as (Hk & _ & _ & _).
  rewrite Forall_forall in Hk. destruct (Hk block Hin) as (? & ? & ? & ?).
  unfold read_key_block.
  eapply keeps_bind; [by apply keeps_budgeted, budgeted_read_content|].
  intros block_bytes [(Hlen & Hok & _) Hst].
  eapply (keeps_bind _ _ _ _ (fun decoded =>
    (zlen decoded = kb_decomp_size block /\ bytes_ok decoded) /\
    decode_block "key block" block_bytes (kb_decomp_size block) (mf_limits f)
      (mf_checksum_policy f) = Ok decoded)).
  { apply keeps_lift, wp_eq.
    - by eapply wp_safe, wp_decode_block.
    - intros decoded E. split; [|done]. pose proof (wp_decode_block "key block" block_bytes
        (kb_decomp_size block) (mf_limits f) (mf_checksum_policy f) Hok ltac:(done)) as Hw.
      rewrite E in Hw. simpl in Hw. by destruct Hw as (? & ? & _). }
  intros decoded [[Hdl Hdok] Hd].
  destruct Hl as (_ & _ & _ & _ & _ & _ & _ & _ & _ & Hwire).
  eapply (keeps_bind _ _ _ _ (fun rows =>
    key_rows_ok (key_row_context f block) rows /\
    Descriptors.decode_key_rows (vl_wire (mf_layout f)) decoded (key_row_context f block) = Ok rows)).
  { apply keeps_lift, wp_and; [by apply Hwire|]. apply wp_eq; [|done].
    by eapply wp_safe, Hwire. }
  intros rows [Hrows Hr].
  eapply (keeps_bind _ _ _ _ (fun row => head rows = Some row)).
  { apply keeps_lift, wp_ok_or. done. }
  intros first Hfirst.
  eapply (keeps_bind _ _ _ _ (fun row => last rows = Some row)).
  { apply keeps_lift, wp_ok_or. done. }
  intros last _. eapply keeps_bind; [apply keeps_key_summary_matches|]. intros first_matches _.
  eapply (keeps_bind _ _ _ _ (fun _ => True)).
  { apply keeps_if; intros _; [apply keeps_key_summary_matches|by apply keeps_ret]. }
  intros last_matches _. apply keeps_if; intros _; [apply keeps_err|]. apply keeps_ret.
  split_and!; [done| |].
  - destruct rows; [done|simpl; lia].
  - intros content modified Hs. unfold block_rows.
    rewrite (Hst _ _ Hs). cbn [ok_or rbind]. rewrite Hd. cbn [rbind]. done.
Qed.

Lemma wp_key_block_retained_bytes entry_count decomp_size :
  0 <= entry_count -> is_u64 decomp_size ->
  wp (key_block_retained_bytes f entry_count decomp_size) (fun n => 0 <= n).
Proof.
  intros ? ?. unfold key_block_retained_bytes. apply wp_bind.
  eapply wp_mono; [by apply wp_max_decoded_len|]. intros n [? ?]. unfold size_of_decoded_key_row.
  wp_steps. rinv. nia.
Qed.

(** Decoding a block without the cache. *)
Lemma acquires_decode_uncached index :
  acquires max (contracts f) (decode_key_block_uncached f index) (key_block_at f index).
Proof.
  unfold decode_key_block_uncached. intros base hs s0 Hs0.
  destruct (id Hs0) as (_ & _ & Hbase & _). revert s0 Hs0.
  eapply triple_bind; [apply triple_lift, (wp_ok_or _ _ (fun b =>
    get_at (vl_key_blocks (mf_layout f)) index = Some b)); done|]. intros block Hb. cbv beta.
  pose proof (get_at_elem_of _ _ _ Hb) as Hin. destruct (id Hf) as (_ & _ & Hl & _).
  destruct (layout_key_blocks _ _ _ _ Hl) as (Hk & _).
  rewrite Forall_forall in Hk. destruct (Hk block Hin) as (? & ? & ? & ?).
  eapply triple_bind; [apply triple_lift, (wp_checked_usize _ _ (fun n => n = kb_comp_size block)); done|].
  intros ? ->. cbv beta.
  eapply triple_bind; [apply triple_lift, (wp_checked_usize _ _ (fun n =>
    n = kb_decomp_size block /\ n <= usize_max)); done|].
  intros ? [-> ?]. cbv beta.
  eapply triple_bind; [apply triple_lift, (wp_checked_usize _ _ (fun n => n = entry_count block)); done|].
  intros ? ->. cbv beta.
  eapply triple_bind; [by apply triple_lift, wp_key_block_retained_bytes|].
  intros retained_bytes Hrb. cbv beta.
  eapply triple_bind; [apply triple_retained; [exact Hrb|]|].
  - apply (keeps_scoped _ _ _ _ _ (key_block_at f index)); [done|].
    apply keeps_scoped; [done|]. eapply keeps_bind; [by apply keeps_read_key_block|].
    intros rows (Hrows & Hne & Hst). apply keeps_ret. exists block. by split_and!.
  - intros entries Hent. cbv beta. by apply triple_arc_new.
Qed.

Lemma wp_last_start b : wp (last_start b) (fun start =>
  exists row, last (kb_entries b) = Some row /\ record_start row = start).
Proof. unfold last_start. wp_steps. eauto. Qed.

(** A row at the front of a decoded block. *)
Lemma check_boundary_ok previous_last b :
  wp (check_boundary previous_last b) (fun _ =>
    forall start, previous_last = Some start ->
      exists row, head (kb_entries b) = Some row /\ start <= record_start row).
Proof.
  unfold check_boundary, first_start. destruct previous_last as [start|]; [|done].
  wp_steps. rinv. zbool. intros ? [= <-]. eexists. split; [done|lia].
Qed.

(** The start of the block in front, as a cache miss learns it. *)
Definition previous_start (index : Z) (start : option Z) : Prop :=
  index <> 0 -> exists x, start = Some x /\
    forall content modified, stable (mf_source f) content modified ->
      exists rows row, rows_at f content (index - 1) rows /\ last rows = Some row /\
        record_start row = x.

Lemma key_block_previous index b x :
  key_block_at f (index - 1) b ->
  (exists row, last (kb_entries b) = Some row /\ record_start row = x) ->
  previous_start index (Some x).
Proof.
  intros (block & Hb & _ & _ & Hst) (row & Hrow & Hx) _. exists x. split; [done|].
  intros content modified Hs. exists (kb_entries b), row. split; [|done].
  exists block. split; [done|]. by eapply Hst.
Qed.

Lemma acquires_decode_miss index :
  acquires max (contracts f) (decode_key_block_miss f index) (cached_key_block_at f index).
Proof.
  intros base hs s Hs. unfold decode_key_block_miss.
  destruct (get_at (vl_key_blocks (mf_layout f)) index) as [?|]; [|by apply triple_err].
  apply wpM_bind. unfold read_state at 1. unfold wpM at 1.
  destruct (id Hs) as (_ & _ & Hbase & _ & _ & Hcache & _). revert s Hs Hcache.
  intros s Hs Hcache. set (cache := cs_key_block_cache s) in *. clearbody cache. revert s Hs.
  eapply triple_bind with (P := previous_start index).
  - destruct (Z.eqb_spec index 0) as [->|Hne].
    { apply (triple_ret _ _ _ _ _ _ (fun _ => base) (fun _ => hs)); [by intros []|done|done]. }
    destruct (cache_hit cache (index - 1)) as [[previous|failure]|] eqn:Ehit.
    + destruct cache as [[i value]|]; [|done]. simpl in Ehit.
      destruct (Z.eqb_spec i (index - 1)) as [->|]; [|done]. injection Ehit as ->.
      simpl in Hcache. destruct Hcache as [Hprev _].
      eapply triple_bind; [apply triple_lift, wp_last_start|]. intros x Hx.
      apply triple_ret; [|done|done]. exact (key_block_previous _ _ _ Hprev Hx).
    + apply triple_err.
    + eapply triple_bind; [apply (acquires_decode_uncached _ base hs)|]. intros previous Hprev. cbv beta.
      apply triple_with_arc. eapply triple_bind; [apply triple_lift, wp_last_start|]. intros x Hx.
      apply triple_ret; [|done|done]. exact (key_block_previous _ _ _ Hprev Hx).
  - intros previous_last Hprev. cbv beta.
    eapply triple_bind.
    { pose proof (set_key_cache_ok max (contracts f) base hs None base hs Hbase I) as Ht.
      simpl in Ht. rewrite Z.add_0_r in Ht. exact Ht. }
    intros [] _. cbv beta. eapply triple_bind; [apply (acquires_decode_uncached _ base hs)|]. intros entries Hent. cbv beta.
    apply triple_or_drop_arc. eapply triple_bind; [apply triple_lift, check_boundary_ok|].
    intros [] Hbound. apply triple_ret; [|done|done]. split; [done|].
    intros content modified Hst Hne. destruct (Hprev Hne) as (x & -> & Hx).
    destruct (Hx _ _ Hst) as (rows & a & Ha & Hl & <-). destruct (Hbound _ eq_refl) as (r & Hr & ?).
    by exists rows, a, r.
Qed.

(** The contract of [decode_key_block]. *)
Lemma acquires_decode_key_block index :
  acquires max (contracts f) (decode_key_block f index) (cached_key_block_at f index).
Proof.
  intros base hs s Hs. unfold decode_key_block. apply wpM_bind. unfold read_state at 1, wpM at 1.
  destruct (cache_hit (cs_key_block_cache s) index) as [[entries|failure]|] eqn:Ehit.
  - unfold cache_hit in Ehit. destruct (cs_key_block_cache s) as [[i value]|] eqn:Ec; [|done].
    destruct (Z.eqb_spec i index) as [->|]; [|done]. injection Ehit as ->.
    unfold wpM, arc_clone. split.
    + destruct Hs as (_ & _ & _ & _ & _ & Hc & _). by rewrite Ec in Hc.
    + apply core_ok_clone; [done|]. apply elem_of_app. left. unfold cache_handles. rewrite Ec.
      simpl. apply list_elem_of_here.
  - by apply triple_err.
  - destruct (id Hs) as (_ & _ & Hbase & _). revert s Hs Ehit. intros s Hs _. revert s Hs.
    eapply triple_bind; [apply triple_attempt, acquires_decode_miss|].
    + intros [entries|error] Hent; cbv beta iota.
      * eapply triple_bind; [apply triple_arc_clone, list_elem_of_here|]. intros cached ->. cbv beta.
        eapply triple_bind.
        { pose proof (set_key_cache_ok max (contracts f) base (arc_id entries :: hs)
                        (Some (index, Ready entries)) base hs Hbase Hent) as Ht.
          simpl in Ht. rewrite Z.add_0_r in Ht. exact Ht. }
        intros [] _. cbv beta. by apply triple_ret.
      * eapply triple_bind; [apply capture_ok|]. intros captured Hcap. cbv beta.
        eapply (triple_bind _ _ _ _ _ _ (fun _ => True) (fun _ => base) (fun _ => hs)).
        { destruct captured as [failure|]; simpl.
          - apply (set_key_cache_ok max (contracts f) base hs (Some (index, Failed failure)));
              [done|exact Hcap].
          - apply triple_ret; [done|lia|done]. }
        intros [] _. cbv beta. apply triple_err.
Qed.

(** ** Ordinals *)

(** A hit is the row of its ordinal. *)
Definition hit_ok (ordinal : Z) (hit : KeyBlockHit) : Prop :=
  let b := arc_value (kh_entries hit) in
  cached_key_block_at f (kh_block_index hit) b /\
  exists block row, get_at (vl_key_blocks (mf_layout f)) (kh_block_index hit) = Some block /\
    ordinal = entry_start_index block + kh_entry_index hit /\
    0 <= kh_entry_index hit < entry_count block /\
    get_at (kb_entries b) (kh_entry_index hit) = Some row.

(** The answer for an ordinal: nothing behind the last entry, and below it the
    key of the row, which is the row of the file when the file is stable. *)
Definition key_answer (ordinal : Z) (r : option KeyEntry) : Prop :=
  match r with
  | None => mdict_len f <= ordinal
  | Some e =>
      ordinal < mdict_len f /\ ke_ordinal e = ordinal /\ text_ok (ke_key e) /\
      forall content modified, stable (mf_source f) content modified ->
        exists row, row_at f content ordinal row /\ ke_key e = row_key row
  end.

Lemma key_block_lookup index b block entry :
  key_block_at f index b -> get_at (vl_key_blocks (mf_layout f)) index = Some block ->
  0 <= entry < entry_count block ->
  exists row, get_at (kb_entries b) entry = Some row /\ text_ok (row_key row) /\
    0 <= record_start row <= vl_total_decoded_record_len (mf_layout f) /\
    forall content modified, stable (mf_source f) content modified ->
      row_at f content (entry_start_index block + entry) row.
Proof.
  intros (block' & Hb & (Hlen & Hrows & _) & _ & Hst) Hb' He.
  assert (block' = block) as -> by congruence. simpl in Hlen.
  destruct (get_at_is_Some (kb_entries b) entry) as [row Hrow]; [lia|]. exists row. split; [done|].
  rewrite Forall_forall in Hrows. destruct (Hrows row) as [? ?]; [by eapply get_at_elem_of|].
  split_and!; [done|lia|simpl in *; lia|]. intros content modified Hs.
  exists index, block, (kb_entries b). split_and!; [done|by eapply Hst|].
  by replace (entry_start_index block + entry - entry_start_index block) with entry by lia.
Qed.

Lemma triple_key_entry_at_ordinal base hs ordinal :
  0 <= ordinal ->
  triple max (contracts f) base hs (key_entry_at_ordinal f ordinal)
    (fun r => match r with
              | None => mdict_len f <= ordinal
              | Some hit => ordinal < mdict_len f /\ hit_ok ordinal hit
              end)
    (fun _ => base)
    (fun r => match r with Some hit => arc_id (kh_entries hit) :: hs | None => hs end) base hs.
Proof.
  intros Hord. unfold key_entry_at_ordinal. apply triple_if; intros Hlen; zbool.
  { by apply triple_ret. }
  eapply triple_bind; [apply triple_lift, returns_wp, resolve_ordinal_returns; lia|].
  intros [i e] (block & Hb & He & Hr). simpl in Hb, He, Hr.
  eapply triple_bind; [apply (acquires_decode_key_block i base hs)|].
  intros entries Hent. cbv beta. apply triple_or_drop_arc. cbv beta in Hent.
  apply triple_if; intros ?; [apply triple_err|]. apply triple_ret; [|done|done].
  split; [done|]. unfold hit_ok; simpl. split; [done|].
  destruct (key_block_lookup _ _ _ e (proj1 Hent) Hb) as (row & Hrow & _); [lia|].
  exists block, row. split_and!; try done; lia.
Qed.

Lemma keeps_key_at_ordinal ordinal :
  0 <= ordinal -> keeps max (contracts f) (key_at_ordinal f ordinal) (key_answer ordinal).
Proof.
  intros Hord base hs. unfold key_at_ordinal.
  eapply triple_bind; [by apply triple_key_entry_at_ordinal|]. intros [hit|] Hhit; cbv beta iota.
  2: { by apply triple_ret. }
  destruct Hhit as (Hlt & Hc & block & row & Hb & Ho & He & Hrow).
  apply triple_with_arc.
  eapply triple_bind; [apply triple_lift, (wp_or_panic _ _ (fun r => r = row)); [by eexists|congruence]|].
  intros ? ->. cbv beta.
  eapply triple_bind; [apply triple_lift, (wp_try_clone_string _ _ (fun k => k = row_key row)); done|].
  intros ? ->. apply triple_ret; [|done|done].
  destruct (key_block_lookup _ _ _ (kh_entry_index hit) (proj1 Hc) Hb) as (row' & Hrow' & Ht & _ & Hst);
    [done|].
  assert (row' = row) as -> by congruence. simpl. split_and!; [done|done|done|].
  intros content modified Hs. exists row. split; [|done]. subst ordinal. by eapply Hst.
Qed.

(** ** Batches *)

Definition request_ok (ordinals : list Z) (r : KeyRequest) : Prop :=
  get_at ordinals (kr_input_index r) = Some (kr_ordinal r) /\ 0 <= kr_ordinal r < mdict_len f /\
  exists block, get_at (vl_key_blocks (mf_layout f)) (kr_block_index r) = Some block /\
    kr_entry_index r = kr_ordinal r - entry_start_index block /\
    0 <= kr_entry_index r < entry_count block.

(** Every position is answered or still requested. *)
Definition batch_ok (ordinals : list Z) (requests : list KeyRequest)
    (results : list (option KeyEntry)) : Prop :=
  length results = length ordinals /\ Forall (request_ok ordinals) requests /\
  forall pos ordinal, get_at ordinals pos = Some ordinal ->
    (exists r, get_at results pos = Some r /\ key_answer ordinal r) \/
    (exists request, request ∈ requests /\ kr_input_index request = pos).

Lemma key_requests_spec ordinals :
  forall done todo, ordinals = done ++ todo -> Forall (fun o => 0 <= o) todo ->
  returns (key_requests f (zlen done) todo) (fun requests =>
    Forall (request_ok ordinals) requests /\
    forall pos ordinal, zlen done <= pos -> get_at ordinals pos = Some ordinal ->
      ordinal < mdict_len f -> exists request, request ∈ requests /\ kr_input_index request = pos).
Proof.
  intros done todo. revert done. induction todo as [|o todo IH]; intros done E Hpos.
  { simpl. split; [done|]. intros pos ordinal ? Hg%get_at_Some. rewrite E, app_nil_r in Hg. lia. }
  apply Forall_cons in Hpos as [Ho Hpos].
  assert (get_at ordinals (zlen done) = Some o) as Hhere.
  { rewrite E. unfold get_at. rewrite (proj2 (Z.leb_le 0 _)) by lia. rewrite Nat2Z.id.
    by rewrite lookup_app_r, Nat.sub_diag by lia. }
  specialize (IH (done ++ [o])). rewrite length_app in IH. simpl in IH.
  replace (Z.of_nat (length done + 1)) with (zlen done + 1) in IH by lia.
  specialize (IH ltac:(by rewrite <- app_assoc) Hpos). simpl.
  destruct (Z.leb_spec (mdict_len f) o).
  - eapply returns_mono; [exact IH|]. intros requests [Hall Hcov]. split; [done|].
    intros pos ordinal Hp Hg Hlt. destruct (decide (pos = zlen done)) as [->|].
    + rewrite Hhere in Hg. injection Hg as <-. lia.
    + apply (Hcov pos ordinal); [lia|done|done].
  - apply returns_bind. eapply returns_mono; [apply resolve_ordinal_returns; lia|].
    intros [i e] (block & Hb & He & Hr). simpl in Hb, He, Hr. apply returns_bind.
    eapply returns_mono; [exact IH|]. intros requests [Hall Hcov]. simpl. split.
    + constructor; [|done]. split; [done|]. split; [simpl; lia|]. exists block. done.
    + intros pos ordinal Hp Hg Hlt. destruct (decide (pos = zlen done)) as [->|].
      * eexists. split; [apply list_elem_of_here|done].
      * destruct (Hcov pos ordinal) as (r & ? & ?); [lia|done|done|].
        exists r. split; [by apply list_elem_of_further|done].
Qed.

Lemma take_block_spec i requests same rest :
  take_block i requests = (same, rest) ->
  requests = same ++ rest /\ Forall (fun r => kr_block_index r = i) same.
Proof.
  revert same rest; induction requests as [|r requests IH]; intros same rest; simpl.
  { by intros [= <- <-]. }
  destruct (Z.eqb_spec (kr_block_index r) i) as [Er|].
  - destruct (take_block i requests) as [same' rest']. intros [= <- <-].
    destruct (IH same' rest' eq_refl) as [-> ?]. split; [done|by constructor].
  - by intros [= <- <-].
Qed.

Lemma wp_fill_results ordinals i b same rest results :
  cached_key_block_at f i b -> Forall (fun r => kr_block_index r = i) same ->
  batch_ok ordinals (same ++ rest) results ->
  wp (fill_results b same results) (batch_ok ordinals rest).
Proof.
  intros [Hkb _]. revert results; induction same as [|r same IH]; intros results Hi (Hlen & Hreq & Hcov);
    [by split_and!|].
  apply Forall_cons in Hi as [Hi Hsame]. simpl in Hreq. apply Forall_cons in Hreq as [Hr Hreq].
  destruct Hr as (Hg & Ho & block & Hb & He & Hrange). rewrite Hi in Hb.
  destruct (key_block_lookup _ _ _ _ Hkb Hb Hrange) as (row & Hrow & Ht & _ & Hst).
  cbn [fill_results]. rewrite Hrow. cbn [ok_or rbind].
  apply wp_bind. eapply wp_mono;
    [apply (wp_try_clone_string _ _ (fun k => k = row_key row)); done|]. intros ? ->.
  pose proof (get_at_Some _ _ _ Hg) as Hbound.
  apply wp_bind, wp_or_panic; [apply get_at_is_Some; lia|]. intros ? _.
  set (answer := Some {| ke_ordinal := kr_ordinal r; ke_key := row_key row |}).
  assert (key_answer (kr_ordinal r) answer) as Hans.
  { simpl. split_and!; [lia|done|done|]. intros content modified Hs. exists row. split; [|done].
    replace (kr_ordinal r) with (entry_start_index block + kr_entry_index r) by lia. by eapply Hst. }
  apply IH; [done|]. split_and!; [by rewrite length_insert|done|].
  intros pos ordinal Hpos. destruct (decide (pos = kr_input_index r)) as [->|Hne].
  - left. exists answer. rewrite Hg in Hpos. injection Hpos as <-. split; [|done].
    unfold get_at. rewrite (proj2 (Z.leb_le 0 _)) by lia. apply list_lookup_insert_eq. lia.
  - destruct (Hcov pos ordinal Hpos) as [(x & Hx & ?)|(x & Hx & ?)].
    + left. exists x. split; [|done]. rewrite <- Hx. unfold get_at.
      destruct (Z.leb_spec 0 pos); [|done]. apply list_lookup_insert_ne. lia.
    + right. simpl in Hx. apply elem_of_cons in Hx as [->|Hx]; [done|]. by exists x.
Qed.

Lemma keeps_serve_requests ordinals fuel requests results :
  (length requests < fuel)%nat -> batch_ok ordinals requests results ->
  keeps max (contracts f) (serve_requests f fuel requests results)
    (fun results => Forall2 key_answer ordinals results).
Proof.
  revert requests results; induction fuel as [|fuel IH]; intros requests results Hfuel Hb; [lia|].
  cbn [serve_requests]. destruct requests as [|r requests].
  - apply keeps_ret. destruct Hb as (Hlen & _ & Hcov). apply Forall2_same_length_lookup.
    split; [done|]. intros pos ordinal r Ho Hr.
    destruct (Hcov (Z.of_nat pos) ordinal) as [(x & Hx & ?)|(x & Hx & _)];
      [unfold get_at; by rewrite (proj2 (Z.leb_le 0 _)), Nat2Z.id by lia| |by apply elem_of_nil in Hx].
    unfold get_at in Hx. rewrite (proj2 (Z.leb_le 0 _)), Nat2Z.id in Hx by lia. congruence.
  - destruct (take_block (kr_block_index r) (r :: requests)) as [same rest] eqn:Et.
    pose proof (take_block_spec _ _ _ _ Et) as [E Hsame].
    assert (length rest < fuel)%nat as Hrest.
    { simpl in Et. rewrite Z.eqb_refl in Et. destruct (take_block _ requests) as [s' r'] eqn:Et'.
      injection Et as <- <-. apply take_block_spec in Et' as [-> _]. simpl in Hfuel.
      rewrite length_app in Hfuel. lia. }
    rewrite E in Hb. intros base hs.
    eapply triple_bind; [apply (acquires_decode_key_block _ base hs)|]. intros entries Hent. cbv beta.
    eapply triple_bind; [apply triple_with_arc, triple_lift; eapply wp_fill_results; [exact Hent|exact Hsame|exact Hb]|].
    intros results' Hb'. cbv beta. by apply IH.
Qed.

Lemma keeps_keys_at_ordinals ordinals :
  Forall (fun o => 0 <= o) ordinals ->
  keeps max (contracts f) (keys_at_ordinals f ordinals)
    (fun results => Forall2 key_answer ordinals results).
Proof.
  intros Hpos. unfold keys_at_ordinals.
  eapply (keeps_bind _ _ _ _ (fun _ => True)); [by apply keeps_lift, wp_try_reserve_vec|]. intros _ _.
  eapply (keeps_bind _ _ _ _ (fun _ => True)); [by apply keeps_lift, wp_try_reserve_vec|]. intros _ _.
  eapply keeps_bind; [apply keeps_lift, returns_wp, (key_requests_spec ordinals []); done|].
  intros requests [Hall Hcov]. cbv beta. apply keeps_serve_requests; [lia|].
  pose proof (merge_sort_Permutation request_le requests) as Hp.
  split_and!; [by rewrite length_replicate|by rewrite Hp|].
  intros pos ordinal Hg. destruct (Z.le_gt_cases (mdict_len f) ordinal).
  - left. exists None. split; [|done]. pose proof (get_at_Some _ _ _ Hg). unfold get_at.
    rewrite (proj2 (Z.leb_le 0 _)) by lia. apply lookup_replicate. split; [done|lia].
  - right. destruct (Hcov pos ordinal) as (r & Hr & ?); [|done|done|].
    + apply get_at_Some in Hg. simpl. lia.
    + exists r. by rewrite Hp.
Qed.

End KeysProofs.

(** * Properties *)

(** The entry of a row. *)
Definition row_entry (ordinal : Z) (row : DecodedKeyRow) : KeyEntry :=
  {| ke_ordinal := ordinal; ke_key := row_key row |}.

(** In a file that decodes completely the answer is the row of the list. *)
Lemma key_answer_rows `{EnvOk} f content modified rows ordinal r :
  file_ok f -> stable (mf_source f) content modified -> all_rows f content = Ok rows ->
  0 <= ordinal -> key_answer f ordinal r -> r = row_entry ordinal <$> get_at rows ordinal.
Proof.
  intros Hf Hs Hrows Hord Hr. destruct (all_rows_spec f Hf content modified Hs rows Hrows) as [Hlen Hat].
  destruct r as [[o k]|]; simpl in Hr.
  - destruct Hr as (_ & -> & _ & Hst). destruct (Hst _ _ Hs) as (row & Hrow & ->).
    by rewrite (Hat _ _ Hrow).
  - destruct (get_at rows ordinal) eqn:E; [|done]. apply get_at_Some in E. lia.
Qed.

(** C13: looking an ordinal up, whatever the caches hold and however the file
    changes, neither panics nor leaks: the handles and the reservations are
    those of before, on success and on failure.  The answer is [None] exactly
    behind the last entry, and while the file is stable an entry is the row
    of the file: when all key blocks decode to [rows], it is [rows[ordinal]]. *)
Theorem key_at_ordinal_correct `{EnvOk} f base hs s ordinal :
  file_ok f -> state_ok f base hs s -> 0 <= ordinal ->
  wpM (key_at_ordinal f ordinal) s
    (fun r s' => (key_answer f ordinal r /\
        forall content modified rows, stable (mf_source f) content modified ->
          all_rows f content = Ok rows -> r = row_entry ordinal <$> get_at rows ordinal) /\
      state_ok f base hs s')
    (fun _ s' => state_ok f base hs s').
Proof.
  intros Hf Hs Hord. eapply wpM_mono; [by apply (keeps_key_at_ordinal f Hf ordinal Hord base hs)| |done].
  intros r s' [Hr Hs']. split; [|done]. split; [done|]. intros. by eapply key_answer_rows.
Qed.

(** A batch of answers about a file that decodes to [rows]. *)
Lemma answers_rows `{EnvOk} f content modified rows ordinals results :
  file_ok f -> stable (mf_source f) content modified -> all_rows f content = Ok rows ->
  Forall (fun o => 0 <= o) ordinals -> Forall2 (key_answer f) ordinals results ->
  results = map (fun o => row_entry o <$> get_at rows o) ordinals.
Proof.
  intros Hf Hst Hrows Hord Hr. induction Hr as [|o r ordinals results Ho _ IH]; [done|].
  apply Forall_cons in Hord as [? Hord]. simpl. f_equal; [by eapply key_answer_rows|by apply IH].
Qed.

(** C31: the batch lookup, which groups the ordinals by block and decodes
    every block once, agrees with the single lookup: the results are in input
    order, one per ordinal, repeated and out-of-range ordinals included; it
    needs no more than one round per ordinal, never panics and leaks nothing. *)
Theorem keys_at_ordinals_correct `{EnvOk} f base hs s ordinals :
  file_ok f -> state_ok f base hs s -> Forall (fun o => 0 <= o) ordinals ->
  wpM (keys_at_ordinals f ordinals) s
    (fun results s' => (Forall2 (key_answer f) ordinals results /\
        forall content modified rows, stable (mf_source f) content modified ->
          all_rows f content = Ok rows ->
          results = map (fun o => row_entry o <$> get_at rows o) ordinals) /\
      state_ok f base hs s')
    (fun _ s' => state_ok f base hs s').
Proof.
  intros Hf Hs Hord. eapply wpM_mono; [by apply (keeps_keys_at_ordinals f Hf ordinals Hord base hs)| |done].
  intros results s' [Hr Hs']. split; [|done]. split; [done|]. intros content modified rows Hst Hrows.
  by eapply answers_rows.
Qed.

(** Every entry of the sample, in order and nothing behind them. *)
Definition sample_entries : list (option KeyEntry) :=
  [Some (row_entry 0 (row "Alpha" 0)); Some (row_entry 1 (row "Beta" 3));
   Some (row_entry 2 (row "alpha" 12)); Some (row_entry 3 (row "gamma" 14)); None].

Example key_at_ordinal_witness :
  wpM (@key_at_ordinal simple_env sample_file 3) sample_state
    (fun r s' => @key_answer simple_env sample_file 3 r /\
       @state_ok simple_env sample_file sample_base [] s')
    (fun _ s' => @state_ok simple_env sample_file sample_base [] s') /\
  fst (@key_at_ordinal simple_env sample_file 3 sample_state) =
    Ok (Some (row_entry 3 (row "gamma" 14))).
Proof.
  split; [|vm_compute; reflexivity].
  eapply wpM_mono; [apply (@key_at_ordinal_correct simple_env simple_env_ok sample_file sample_base []
    sample_state 3 (proj1 sample_ok) (proj2 sample_ok)); lia| |done].
  intros r s' [[Hr _] Hs]. exact (conj Hr Hs).
Defined.

Example keys_at_ordinals_witness :
  wpM (@keys_at_ordinals simple_env sample_file [2; 9; 0; 2]) sample_state
    (fun results s' => Forall2 (@key_answer simple_env sample_file) [2; 9; 0; 2] results)
    (fun _ s' => @state_ok simple_env sample_file sample_base [] s') /\
  fst (@keys_at_ordinals simple_env sample_file [2; 9; 0; 2] sample_state) =
    Ok [Some (row_entry 2 (row "alpha" 12)); None; Some (row_entry 0 (row "Alpha" 0));
        Some (row_entry 2 (row "alpha" 12))].
Proof.
  split; [|vm_compute; reflexivity].
  eapply wpM_mono; [apply (@keys_at_ordinals_correct simple_env simple_env_ok sample_file sample_base []
    sample_state [2; 9; 0; 2] (proj1 sample_ok) (proj2 sample_ok)); repeat constructor; lia| |done].
  intros r s' [[Hr _] _]. exact Hr.
Defined.
