(* ===== verification/Records.v ===== *)
(** Record spans: [src/core/records.rs]. *)

From stdpp Require Import list_numbers.
From S2P Require Import Prelude Errors Types Budget Utf8 Encoding Source Compression Descriptors Header KeySection RecordSection Format Normalize LocatorIndex Samples Arcs Core Dictionary SampleDictionary Keys.

(** [RecordDescriptor] *)
Record RecordDescriptor := {
  rd_key : KeyEntry;
  rd_start : Z;
  rd_end : Z;
}.

Section Records.

Context `{Env} (f : MdictFile).

(** What [record_descriptor_from_hit] takes from the hit: the ordinal, the
    start, the key, and the end when the next entry is in the same block. *)
Definition hit_fields (hit : KeyBlockHit) : Result (Z * Z * text * option Z) :=
  let entries := kb_entries (arc_value (kh_entries hit)) in
  let? block := ok_or (get_at (vl_key_blocks (mf_layout f)) (kh_block_index hit))
                  (InvalidFormat "key block index out of range") in
  let? local_ordinal := ok_or (try_u64 (kh_entry_index hit))
                          (InvalidFormat "key entry index exceeds u64") in
  let? ordinal := ok_or (checked_add (entry_start_index block) local_ordinal)
                    (InvalidFormat "key ordinal overflow") in
  let? entry := ok_or (get_at entries (kh_entry_index hit))
                  (InvalidFormat "key entry index out of range") in
  let? key := try_clone_string (row_key entry) "record descriptor key" in
  Ok (ordinal, record_start entry, key, record_start <$> get_at entries (kh_entry_index hit + 1)).

(** [next_block.first()?.record_start] *)
Definition next_block_start (block : DecodedKeyBlock) : Result Z :=
  let? row := ok_or (head (kb_entries block)) (InvalidFormat "empty key block") in
  Ok (record_start row).

(** [record_descriptor_from_hit]; it owns the handle of the hit. *)
Definition record_descriptor_from_hit (hit : KeyBlockHit) : M CoreState RecordDescriptor :=
  let! '(ordinal, start, key, next) := with_arc (kh_entries hit) (lift (hit_fields hit)) in
  let! end_ :=
    match next with
    | Some next => mret next
    | None =>
        if kh_block_index hit + 1 <? key_block_count f
        then
          let! next_block := decode_key_block f (kh_block_index hit + 1) in
          with_arc next_block (lift (next_block_start (arc_value next_block)))
        else mret (vl_total_decoded_record_len (mf_layout f))
    end in
  if end_ <? start
  then merr (InvalidData ("record span decreases from " +++ fmt_dec start +++ " to "
                          +++ fmt_dec end_)%string)
  else mret {| rd_key := {| ke_ordinal := ordinal; ke_key := key |};
               rd_start := start; rd_end := end_ |}.

(** [record_descriptor_at_position] *)
Definition record_descriptor_at_position (block_index entry_index : Z)
    (entries : Arc DecodedKeyBlock) : M CoreState RecordDescriptor :=
  record_descriptor_from_hit {| kh_block_index := block_index; kh_entry_index := entry_index;
                                kh_entries := entries |}.

(** [record_at_ordinal] *)
Definition record_at_ordinal (ordinal : Z) : M CoreState (option RecordDescriptor) :=
  let! hit := key_entry_at_ordinal f ordinal in
  match hit with
  | None => mret None
  | Some hit => let! descriptor := record_descriptor_from_hit hit in mret (Some descriptor)
  end.

(** [validate_record_span] *)
Definition validate_record_span (start end_ : Z) : Result Z :=
  if end_ <? start then Err (InvalidFormat "record range is inverted")
  else
    let? len := ok_or (checked_sub end_ start) (InvalidFormat "record range overflow") in
    if vl_total_decoded_record_len (mf_layout f) <? end_
    then Err (InvalidFormat "record range exceeds record data")
    else Ok len.

(** [materialized_record_span_len] *)
Definition materialized_record_span_len (start end_ : Z) : Result Z :=
  let? len := validate_record_span start end_ in
  let? max := checked_u64 (materialized_record_bytes (mf_limits f)) "materialized record limit" in
  if max <? len then Err (LimitExceeded "materialized_record_bytes" len max)
  else ok_or (try_usize len) (InvalidFormat "materialized record length exceeds usize").

(** [decode_record_block_uncached] *)
Definition decode_record_block_uncached (index : Z) : M CoreState (Arc DecodedRecordBlock) :=
  let! block := lift (ok_or (get_at (vl_record_blocks (mf_layout f)) index)
                        (InvalidFormat "record block index out of range")) in
  let! comp_size := lift (checked_usize (rb_comp_size block) "record block compressed length") in
  let! decomp_size := lift (checked_usize (rb_decomp_size block)
                              "record block decompressed length") in
  let! decoded :=
    retained decomp_size "decoded record block" (
      scoped comp_size "compressed record block" (
        let! block_bytes := read_exact_at (mf_source f) (rb_comp_offset block) comp_size
                              "record block" in
        let! bytes := lift (decode_block "record block" block_bytes decomp_size (mf_limits f)
                              (mf_checksum_policy f)) in
        mret {| rb_bytes := bytes; rb_memory := decomp_size |})) in
  arc_new decoded decomp_size.

(** [decode_record_block] *)
Definition decode_record_block (index : Z) : M CoreState (Arc DecodedRecordBlock) :=
  let! cache := read_state cs_record_block_cache in
  match cache_hit cache index with
  | Some (Ready data) => arc_clone data
  | Some (Failed error) => merr (replay error)
  | None =>
      let! _ := set_record_block_cache None in
      let! result := attempt (decode_record_block_uncached index) in
      match result with
      | inl decoded =>
          let! cached := arc_clone decoded in
          let! _ := set_record_block_cache (Some (index, Ready cached)) in
          mret decoded
      | inr error =>
          let! cached := capture error in
          let! _ := match cached with
                    | Some cached => set_record_block_cache (Some (index, Failed cached))
                    | None => mret tt
                    end in
          merr error
      end
  end.

(** The part of a decoded block a span covers, from [cursor] on: the chunk and
    the next cursor. *)
Definition span_chunk (block : RecordBlockDescriptor) (decoded : bytes) (cursor end_ : Z)
    : Result (bytes * Z) :=
  let? local_start := ok_or (checked_sub cursor (rb_decomp_offset block))
                        (InvalidFormat "record block offset underflow") in
  let? local_start := checked_usize local_start "record block local start" in
  let? block_end := ok_or (checked_add (rb_decomp_offset block) (rb_decomp_size block))
                      (InvalidFormat "record block end overflow") in
  let chunk_end := Z.min end_ block_end in
  let? local_end := ok_or (checked_sub chunk_end (rb_decomp_offset block))
                      (InvalidFormat "record block offset underflow") in
  let? local_end := checked_usize local_end "record block local end" in
  if (local_end <? local_start) || (zlen decoded <? local_end)
  then Err (InvalidFormat "record block slice is out of range")
  else
    let? chunk := or_panic (slice decoded local_start local_end) "slice index out of range" in
    Ok (chunk, local_end).

(** The loop of [visit_record_span]; [acc] is the state of the visitor. *)
Fixpoint visit_loop {A} (visitor : A -> bytes -> Result A) (fuel : nat) (acc : A)
    (cursor end_ : Z) : M CoreState A :=
  match fuel with
  | O => lift OutOfFuel
  | S fuel =>
      if cursor <? end_ then
        let! found := lift (find_record_block (vl_record_blocks (mf_layout f)) cursor) in
        let! block_index := lift (ok_or found
          (InvalidFormat "record offset not covered by record blocks")) in
        let! block := lift (or_panic (get_at (vl_record_blocks (mf_layout f)) block_index)
                              "index out of bounds") in
        let! decoded := decode_record_block block_index in
        let! '(acc, next_cursor) := with_arc decoded (lift (
          let? '(chunk, local_end) := span_chunk block (rb_bytes (arc_value decoded)) cursor end_ in
          let? acc := visitor acc chunk in
          let? local_end := ok_or (try_u64 local_end)
                              (InvalidFormat "record block offset exceeds u64") in
          let? next_cursor := ok_or (checked_add (rb_decomp_offset block) local_end)
                                (InvalidFormat "record cursor overflow") in
          if next_cursor <=? cursor
          then Err (InvalidFormat "record traversal made no progress")
          else Ok (acc, next_cursor))) in
        visit_loop visitor fuel acc next_cursor end_
      else mret acc
  end.

(** [visit_record_span]; every round but the last finishes a block. *)
Definition visit_record_span {A} (visitor : A -> bytes -> Result A) (acc : A) (start end_ : Z)
    : M CoreState A :=
  let! _ := lift (validate_record_span start end_) in
  visit_loop visitor (S (length (vl_record_blocks (mf_layout f)))) acc start end_.

(** [read_record_span] *)
Definition read_record_span (start end_ : Z) : M CoreState bytes :=
  let! len := lift (materialized_record_span_len start end_) in
  scoped len "materialized record" (
    let! _ := lift (try_reserve_vec 0 1 len "materialized record") in
    visit_record_span (fun output chunk => Ok (output ++ chunk)) [] start end_).

(** * Specification *)

(** The byte of the decoded stream at an offset. *)
Definition stream_byte (content : bytes) (offset b : Z) : Prop :=
  exists block data, block ∈ vl_record_blocks (mf_layout f) /\
    rb_decomp_offset block <= offset < rb_decomp_offset block + rb_decomp_size block /\
    block_bytes f content block = Ok data /\ get_at data (offset - rb_decomp_offset block) = Some b.

(** [out] is the span from [start] to [end_] of the stream of a stable file. *)
Definition span_of (start end_ : Z) (out : bytes) : Prop :=
  zlen out = end_ - start /\ bytes_ok out /\
  forall content modified, stable (mf_source f) content modified ->
    forall k b, get_at out k = Some b -> stream_byte content (start + k) b.

(** The spans that are refused, with their error: before a block is read and
    before anything is reserved. *)
Definition refused_span (start end_ : Z) : option Error :=
  let limit := materialized_record_bytes (mf_limits f) in
  if end_ <? start then Some (InvalidFormat "record range is inverted")
  else if vl_total_decoded_record_len (mf_layout f) <? end_
  then Some (InvalidFormat "record range exceeds record data")
  else if limit <? end_ - start
  then Some (LimitExceeded "materialized_record_bytes" (end_ - start) limit)
  else None.

(** A record descriptor of an ordinal: a span inside the stream, from the
    start of the row to the start of the next one. *)
Definition descriptor_ok (ordinal : Z) (d : RecordDescriptor) : Prop :=
  ke_ordinal (rd_key d) = ordinal /\ text_ok (ke_key (rd_key d)) /\
  0 <= rd_start d <= rd_end d /\ rd_end d <= vl_total_decoded_record_len (mf_layout f) /\
  forall content modified, stable (mf_source f) content modified ->
    exists row, row_at f content ordinal row /\ ke_key (rd_key d) = row_key row /\
      rd_start d = record_start row /\
      if ordinal + 1 <? mdict_len f
      then exists next, row_at f content (ordinal + 1) next /\ rd_end d = record_start next
      else rd_end d = vl_total_decoded_record_len (mf_layout f).

(** The chunks a visitor saw. *)
Fixpoint visit_chunks {A} (visitor : A -> bytes -> Result A) (acc : A) (chunks : list bytes)
    : Result A :=
  match chunks with
  | [] => Ok acc
  | chunk :: chunks => let? acc := visitor acc chunk in visit_chunks visitor acc chunks
  end.

End Records.

(** * Lemmas *)

Section RecordsProofs.

Context `{EnvOk} (f : MdictFile) (Hf : file_ok f).

Let max := working_memory_bytes (mf_limits f).

Lemma acquires_decode_record_uncached index :
  acquires max (contracts f) (decode_record_block_uncached f index) (record_block_at f index).
Proof.
  unfold decode_record_block_uncached. intros base hs s0 Hs0.
  destruct (id Hs0) as (_ & _ & Hbase & _). revert s0 Hs0.
  eapply triple_bind; [apply triple_lift, (wp_ok_or _ _ (fun b =>
    get_at (vl_record_blocks (mf_layout f)) index = Some b)); done|]. intros block Hb. cbv beta.
  pose proof (get_at_elem_of _ _ _ Hb) as Hin. destruct (id Hf) as (Hsrc & _ & Hl & _).
  destruct (layout_record_blocks _ _ _ _ Hl) as (Hk & _).
  rewrite Forall_forall in Hk. destruct (Hk block Hin) as (? & ? & ?).
  eapply triple_bind; [apply triple_lift, (wp_checked_usize _ _ (fun n => n = rb_comp_size block)); done|].
  intros ? ->. cbv beta.
  eapply triple_bind; [apply triple_lift, (wp_checked_usize _ _ (fun n => n = rb_decomp_size block)); done|].
  intros ? ->. cbv beta.
  eapply triple_bind; [apply triple_retained; [done|]|].
  - apply (keeps_scoped _ _ _ _ _ (record_block_at f index)); [done|].
    eapply keeps_bind; [by apply keeps_budgeted, budgeted_read_content|].
    intros block_bytes [(Hlen & Hok & _) Hst].
    eapply (keeps_bind _ _ _ _ (fun decoded =>
      (zlen decoded = rb_decomp_size block /\ bytes_ok decoded) /\
      decode_block "record block" block_bytes (rb_decomp_size block) (mf_limits f)
        (mf_checksum_policy f) = Ok decoded)).
    { apply keeps_lift, wp_and; [|apply wp_eq; [by eapply wp_safe, wp_decode_block|done]].
      eapply wp_mono; [by apply wp_decode_block|]. by intros a (? & ? & _). }
    intros decoded [[? ?] Hd]. apply keeps_ret. exists block. split_and!; [done..|].
    intros content modified Hs. unfold Dictionary.block_bytes. rewrite (Hst _ _ Hs). cbn [ok_or rbind].
    done.
  - intros decoded Hdec. cbv beta. by apply triple_arc_new.
Qed.

(** The contract of [decode_record_block]. *)
Lemma acquires_decode_record_block index :
  acquires max (contracts f) (decode_record_block f index) (record_block_at f index).
Proof.
  intros base hs s Hs. unfold decode_record_block. apply wpM_bind. unfold read_state at 1, wpM at 1.
  destruct (cache_hit (cs_record_block_cache s) index) as [[data|failure]|] eqn:Ehit.
  - unfold cache_hit in Ehit. destruct (cs_record_block_cache s) as [[i value]|] eqn:Ec; [|done].
    destruct (Z.eqb_spec i index) as [->|]; [|done]. injection Ehit as ->.
    unfold wpM, arc_clone. split.
    + destruct Hs as (_ & _ & _ & _ & _ & _ & Hc & _). by rewrite Ec in Hc.
    + apply core_ok_clone; [done|]. apply elem_of_app. left. unfold cache_handles. rewrite Ec.
      apply elem_of_app. right. simpl. apply list_elem_of_here.
  - by apply triple_err.
  - destruct (id Hs) as (_ & _ & Hbase & _). revert s Hs Ehit. intros s Hs _. revert s Hs.
    eapply triple_bind.
    { pose proof (set_record_cache_ok max (contracts f) base hs None base hs Hbase I) as Ht.
      simpl in Ht. rewrite Z.add_0_r in Ht. exact Ht. }
    intros [] _. cbv beta.
    eapply triple_bind; [apply triple_attempt, acquires_decode_record_uncached|].
    + intros [decoded|error] Hdec; cbv beta iota.
      * eapply triple_bind; [apply triple_arc_clone, list_elem_of_here|]. intros cached ->. cbv beta.
        eapply triple_bind.
        { pose proof (set_record_cache_ok max (contracts f) base (arc_id decoded :: hs)
                        (Some (index, Ready decoded)) base hs Hbase Hdec) as Ht.
          simpl in Ht. rewrite Z.add_0_r in Ht. exact Ht. }
        intros [] _. cbv beta. by apply triple_ret.
      * eapply triple_bind; [apply capture_ok|]. intros captured Hcap. cbv beta.
        eapply (triple_bind _ _ _ _ _ _ (fun _ => True) (fun _ => base) (fun _ => hs)).
        { destruct captured as [failure|]; simpl.
          - apply (set_record_cache_ok max (contracts f) base hs (Some (index, Failed failure)));
              [done|exact Hcap].
          - apply triple_ret; [done|lia|done]. }
        intros [] _. cbv beta. apply triple_err.
Qed.

Lemma wp_validate_record_span start end_ (Q : Z -> Prop) :
  (start <= end_ -> end_ <= vl_total_decoded_record_len (mf_layout f) -> Q (end_ - start)) ->
  wp (validate_record_span f start end_) Q.
Proof. intros HQ. unfold validate_record_span. wp_steps. rinv. zbool. apply HQ; lia. Qed.

Lemma wp_materialized_len start end_ (Q : Z -> Prop) :
  (start <= end_ -> end_ <= vl_total_decoded_record_len (mf_layout f) -> Q (end_ - start)) ->
  wp (materialized_record_span_len f start end_) Q.
Proof.
  intros HQ. unfold materialized_record_span_len. apply wp_bind, wp_validate_record_span. intros ? ?.
  apply wp_bind, wp_checked_u64. intros _. wp_steps. rinv. auto.
Qed.

Lemma refused_span_None start end_ :
  refused_span f start end_ = None ->
  start <= end_ /\ end_ <= vl_total_decoded_record_len (mf_layout f) /\
  end_ - start <= materialized_record_bytes (mf_limits f).
Proof.
  unfold refused_span. destruct (Z.ltb_spec end_ start); [done|].
  destruct (Z.ltb_spec (vl_total_decoded_record_len (mf_layout f)) end_); [done|].
  by destruct (Z.ltb_spec (materialized_record_bytes (mf_limits f)) (end_ - start)).
Qed.

Lemma wp_hit_fields ordinal hit :
  hit_ok f ordinal hit ->
  wp (hit_fields f hit) (fun '(o, start, key, next) =>
    exists row, get_at (kb_entries (arc_value (kh_entries hit))) (kh_entry_index hit) = Some row /\
      o = ordinal /\ start = record_start row /\ key = row_key row /\
      next = record_start <$> get_at (kb_entries (arc_value (kh_entries hit))) (kh_entry_index hit + 1)).
Proof.
  intros (_ & block & row & Hb & Ho & He & Hrow). unfold hit_fields.
  rewrite Hb. cbn [ok_or rbind]. wp_steps. rinv.
  eexists. split_and!; try done; lia.
Qed.

(** The next entry of a hit in the same block. *)
Lemma hit_next ordinal hit next :
  hit_ok f ordinal hit -> ordinal < mdict_len f ->
  get_at (kb_entries (arc_value (kh_entries hit))) (kh_entry_index hit + 1) = Some next ->
  ordinal + 1 < mdict_len f /\ record_start next <= vl_total_decoded_record_len (mf_layout f) /\
  forall content modified, stable (mf_source f) content modified -> row_at f content (ordinal + 1) next.
Proof.
  intros ((Hkb & _) & block & row & Hb & Ho & He & Hrow) Hlt Hnext.
  destruct (id Hkb) as (block' & Hb' & (Hlen & _) & _).
  assert (block' = block) as -> by congruence. simpl in Hlen.
  pose proof (get_at_Some _ _ _ Hnext).
  destruct (key_block_lookup f _ _ _ (kh_entry_index hit + 1) Hkb Hb)
    as (row' & Hrow' & _ & ? & Hst); [lia|].
  assert (row' = next) as -> by congruence.
  destruct Hf as (_ & _ & Hl & _). destruct (layout_key_blocks _ _ _ _ Hl) as (Hk & _ & Hc & _).
  assert (Forall (fun b => 0 <= entry_count b) (vl_key_blocks (mf_layout f))) as Hsz
    by (eapply Forall_impl; [exact Hk|]; by intros b (? & ? & ?)).
  destruct (get_at_lookup _ _ _ Hb) as [Hlk _].
  destruct (consecutive_bounds _ _ _ _ _ _ _ Hsz Hc Hlk). unfold mdict_len.
  split_and!; [lia|lia|]. intros content modified Hs. subst ordinal.
  replace (entry_start_index block + kh_entry_index hit + 1)
    with (entry_start_index block + (kh_entry_index hit + 1)) by lia. by eapply Hst.
Qed.

(** The last entry of a block is followed by the first of the next one, or is
    the last of the file. *)
Lemma hit_last ordinal hit :
  hit_ok f ordinal hit -> ordinal < mdict_len f ->
  get_at (kb_entries (arc_value (kh_entries hit))) (kh_entry_index hit + 1) = None ->
  (kh_block_index hit + 1 < key_block_count f ->
   exists block, get_at (vl_key_blocks (mf_layout f)) (kh_block_index hit + 1) = Some block /\
     entry_start_index block = ordinal + 1 /\ 1 <= entry_count block /\ ordinal + 1 < mdict_len f) /\
  (key_block_count f <= kh_block_index hit + 1 -> ordinal + 1 = mdict_len f).
Proof.
  intros ((Hkb & _) & block & row & Hb & Ho & He & Hrow) Hlt Hnext.
  destruct (id Hkb) as (block' & Hb' & (Hlen & _) & _).
  assert (block' = block) as -> by congruence. simpl in Hlen.
  apply get_at_None in Hnext; [|lia].
  destruct Hf as (_ & _ & Hl & _). destruct (layout_key_blocks _ _ _ _ Hl) as (Hk & _ & Hc & Hv).
  assert (Forall (fun b => 0 <= entry_count b) (vl_key_blocks (mf_layout f))) as Hsz
    by (eapply Forall_impl; [exact Hk|]; by intros b (? & ? & ?)).
  destruct (get_at_lookup _ _ _ Hb) as [Hlk Hi].
  destruct (consecutive_lookup _ _ _ _ _ _ _ Hsz Hc Hlk) as [_ Hrest].
  unfold key_block_count, mdict_len in *. split; intros Hn.
  - destruct (get_at_is_Some (vl_key_blocks (mf_layout f)) (kh_block_index hit + 1)) as [next Hnb]; [lia|].
    destruct (get_at_lookup _ _ _ Hnb) as [Hnlk _].
    replace (Z.to_nat (kh_block_index hit + 1)) with (Datatypes.S (Z.to_nat (kh_block_index hit)))
      in Hnlk by lia.
    rewrite (drop_S _ _ _ Hnlk) in Hrest. simpl in Hrest. destruct Hrest as [Es _].
    exists next. rewrite Forall_forall in Hv. destruct (Hv next) as (? & ? & _); [by eapply get_at_elem_of|].
    destruct (consecutive_bounds _ _ _ _ _ _ _ Hsz Hc Hnlk). split_and!; [done|lia|done|lia].
  - rewrite drop_ge in Hrest by lia. simpl in Hrest. lia.
Qed.

Lemma triple_record_descriptor base hs ordinal hit :
  hit_ok f ordinal hit -> ordinal < mdict_len f ->
  triple max (contracts f) base (arc_id (kh_entries hit) :: hs) (record_descriptor_from_hit f hit)
    (descriptor_ok f ordinal) (fun _ => base) (fun _ => hs) base hs.
Proof.
  intros Hhit Hlt. unfold record_descriptor_from_hit.
  eapply triple_bind; [apply triple_with_arc, triple_lift; by apply (wp_hit_fields ordinal)|].
  intros [[[o start] key] next] (row & Hrow & -> & -> & -> & ->). cbv beta.
  destruct (id Hhit) as ((Hkb & _) & block & row' & Hb & Ho & He & Hrow').
  assert (row' = row) as -> by congruence. clear Hrow'.
  destruct (key_block_lookup f _ _ _ _ Hkb Hb He) as (row' & Hrow' & Ht & Hrange & Hst).
  assert (row' = row) as -> by congruence. clear Hrow'. rewrite <- Ho in Hst.
  eapply (triple_bind _ _ _ _ _ _ (fun end_ => end_ <= vl_total_decoded_record_len (mf_layout f) /\
    forall content modified, stable (mf_source f) content modified ->
      if ordinal + 1 <? mdict_len f
      then exists next, row_at f content (ordinal + 1) next /\ end_ = record_start next
      else end_ = vl_total_decoded_record_len (mf_layout f)) (fun _ => base) (fun _ => hs)).
  - destruct (get_at _ (kh_entry_index hit + 1)) as [next|] eqn:En; cbn [fmap option_fmap option_map].
    + destruct (hit_next _ _ _ Hhit Hlt En) as (Hn & ? & Hsn). apply triple_ret; [|done|done].
      split; [done|]. intros content modified Hs. rewrite (proj2 (Z.ltb_lt _ _)) by lia.
      exists next. split; [by eapply Hsn|done].
    + destruct (hit_last _ _ Hhit Hlt En) as [Hmore Hend]. apply triple_if; intros Hc; zbool.
      * destruct (Hmore Hc) as (nb & Hnb & Hns & Hnc & Hno).
        eapply triple_bind; [apply (acquires_decode_key_block f Hf _ base hs)|].
        intros next_block [Hnext _]. cbv beta. apply triple_with_arc, triple_lift.
        unfold next_block_start. wp_steps.
        destruct (key_block_lookup f _ _ _ 0 Hnext Hnb) as (r0 & Hr0 & _ & Hr & Hs0); [lia|].
        match goal with Hh : head _ = Some ?r |- _ => assert (r = r0) as -> by
          (destruct (kb_entries (arc_value next_block)); [done|]; unfold get_at in Hr0; simpl in *; congruence) end.
        split; [lia|]. intros content modified Hs. rewrite (proj2 (Z.ltb_lt _ _)) by lia.
        exists r0. split; [|done]. specialize (Hs0 content modified Hs).
        by replace (ordinal + 1) with (entry_start_index nb + 0) by lia.
      * specialize (Hend Hc). apply triple_ret; [|done|done]. split; [done|]. intros content modified Hs.
        by rewrite (proj2 (Z.ltb_ge _ _)) by lia.
  - intros end_ [Hle Hend]. cbv beta. apply triple_if; intros Hinv; zbool; [apply triple_err|].
    apply triple_ret; [|done|done]. unfold descriptor_ok; simpl. split_and!; try done; try lia.
    intros content modified Hs. exists row. split_and!; [by eapply Hst|done|done|by eapply Hend].
Qed.

Lemma keeps_record_at_ordinal ordinal :
  0 <= ordinal ->
  keeps max (contracts f) (record_at_ordinal f ordinal) (fun r =>
    match r with
    | None => mdict_len f <= ordinal
    | Some d => ordinal < mdict_len f /\ descriptor_ok f ordinal d
    end).
Proof.
  intros Hord base hs. unfold record_at_ordinal.
  eapply triple_bind; [by apply triple_key_entry_at_ordinal|]. intros [hit|] Hhit; cbv beta iota.
  2: { by apply triple_ret. }
  destruct Hhit as [Hlt Hhit]. eapply triple_bind; [by apply triple_record_descriptor|].
  intros d Hd. by apply triple_ret.
Qed.

(** ** Spans *)

Lemma span_of_nil start : span_of f start start [].
Proof. split_and!; [simpl; lia|constructor|]. intros content modified _ k b Hk%get_at_Some. simpl in Hk. lia. Qed.

Lemma span_of_app start mid end_ a b :
  span_of f start mid a -> span_of f mid end_ b -> span_of f start end_ (a ++ b).
Proof.
  intros (Hla & Ha & Hba) (Hlb & Hb & Hbb). split_and!.
  - rewrite length_app. lia.
  - by apply Forall_app.
  - intros content modified Hs k x [[Hk Hx]|[Hk Hx]]%get_at_app_cases.
    + by eapply Hba.
    + replace (start + k) with (mid + (k - zlen a)) by lia. by eapply Hbb.
Qed.

Lemma wp_span_chunk index block data cursor end_ :
  record_block_at f index data -> get_at (vl_record_blocks (mf_layout f)) index = Some block ->
  0 <= cursor < end_ ->
  rb_decomp_offset block <= cursor < rb_decomp_offset block + rb_decomp_size block ->
  wp (span_chunk block (rb_bytes data) cursor end_) (fun '(chunk, local_end) =>
    let next := Z.min end_ (rb_decomp_offset block + rb_decomp_size block) in
    local_end = next - rb_decomp_offset block /\ span_of f cursor next chunk).
Proof.
  intros (block' & Hb & Hlen & Hok & Hst) Hb' Hc Hin.
  assert (block' = block) as -> by congruence. unfold span_chunk. wp_steps. rinv.
  match goal with Hor : _ || _ = false |- _ => apply orb_false_iff in Hor as [? ?] end. zbool.
  apply wp_or_panic; [apply slice_is_Some; lia|]. intros chunk Hchunk.
  pose proof (slice_length _ _ _ _ Hchunk). simpl. split; [lia|]. split_and!; [lia|by eapply slice_Forall|].
  intros content modified Hs k b Hk. pose proof (get_at_Some _ _ _ Hk).
  rewrite (slice_get_at _ _ _ _ _ Hchunk) in Hk by lia.
  exists block, (rb_bytes data). split_and!; [by eapply get_at_elem_of|lia..|by eapply Hst|].
  rewrite <- Hk. f_equal. lia.
Qed.

(** Enough rounds are left: one per block from the one at the cursor on. *)
Definition enough_fuel (fuel : nat) (cursor end_ : Z) : Prop :=
  (0 < fuel)%nat /\
  (cursor < end_ -> forall i b, vl_record_blocks (mf_layout f) !! i = Some b ->
     rb_decomp_offset b <= cursor < rb_decomp_offset b + rb_decomp_size b ->
     (length (vl_record_blocks (mf_layout f)) - i < fuel)%nat).

Lemma enough_fuel_next fuel cursor end_ i block :
  enough_fuel (Datatypes.S fuel) cursor end_ -> cursor < end_ ->
  vl_record_blocks (mf_layout f) !! i = Some block ->
  rb_decomp_offset block <= cursor < rb_decomp_offset block + rb_decomp_size block ->
  enough_fuel fuel (Z.min end_ (rb_decomp_offset block + rb_decomp_size block)) end_.
Proof.
  intros [_ Hf'] Hlt Hi Hin. specialize (Hf' Hlt i block Hi Hin).
  apply lookup_lt_Some in Hi as Hlen. split; [lia|]. intros Hn j b Hj Hjn.
  destruct Hf as (_ & _ & Hl & _). destruct (layout_record_blocks _ _ _ _ Hl) as (Hk & _ & Hc & _).
  assert (Forall (fun b => 0 <= rb_decomp_size b) (vl_record_blocks (mf_layout f))) as Hsz
    by (eapply Forall_impl; [exact Hk|]; by intros ? (? & ? & ?)).
  destruct (Nat.lt_trichotomy j i) as [Hji|[->|Hji]]; [| |lia].
  - pose proof (consecutive_order _ _ _ _ _ j i _ _ Hsz Hc Hj Hi Hji). lia.
  - assert (b = block) as -> by congruence. lia.
Qed.

(** One round: what the visitor and the arithmetic behind it give. *)
Definition visit_round {A} (visitor : A -> bytes -> Result A) (block : RecordBlockDescriptor)
    (data : bytes) (acc : A) (cursor end_ : Z) : Result (A * Z) :=
  let? '(chunk, local_end) := span_chunk block data cursor end_ in
  let? acc := visitor acc chunk in
  let? local_end := ok_or (try_u64 local_end) (InvalidFormat "record block offset exceeds u64") in
  let? next_cursor := ok_or (checked_add (rb_decomp_offset block) local_end)
                        (InvalidFormat "record cursor overflow") in
  if next_cursor <=? cursor
  then Err (InvalidFormat "record traversal made no progress")
  else Ok (acc, next_cursor).

Lemma wp_visit_round {A} (Inv : A -> Prop) (visitor : A -> bytes -> Result A) index block data acc cursor end_ :
  record_block_at f index data -> get_at (vl_record_blocks (mf_layout f)) index = Some block ->
  0 <= cursor < end_ -> rb_decomp_offset block <= cursor < rb_decomp_offset block + rb_decomp_size block ->
  (forall chunk, wp (visitor acc chunk) Inv) ->
  wp (visit_round visitor block (rb_bytes data) acc cursor end_) (fun '(acc', next) =>
    next = Z.min end_ (rb_decomp_offset block + rb_decomp_size block) /\ Inv acc' /\
    exists chunk, visitor acc chunk = Ok acc' /\ span_of f cursor next chunk).
Proof.
  intros Hdec Hb Hc Hin Hv. apply wp_bind. eapply wp_mono; [by eapply wp_span_chunk|].
  intros [chunk local_end] [-> Hspan]. pose proof (Hv chunk) as Hw.
  apply wp_bind, wp_eq; [by eapply wp_safe|]. intros acc' Hacc'. rewrite Hacc' in Hw. wp_steps. rinv. zbool.
  split; [lia|]. split; [exact Hw|]. exists chunk. split; [done|]. by rewrite Zplus_minus.
Qed.

Lemma keeps_visit_loop {A} (Inv : A -> Prop) (visitor : A -> bytes -> Result A) fuel acc cursor end_ :
  (forall acc chunk, Inv acc -> wp (visitor acc chunk) Inv) -> Inv acc ->
  0 <= cursor -> cursor <= end_ -> end_ <= vl_total_decoded_record_len (mf_layout f) ->
  enough_fuel fuel cursor end_ ->
  keeps max (contracts f) (visit_loop f visitor fuel acc cursor end_) (fun acc' =>
    exists chunks, visit_chunks visitor acc chunks = Ok acc' /\ span_of f cursor end_ (concat chunks)).
Proof.
  intros Hv. revert acc cursor; induction fuel as [|fuel IH]; intros acc cursor Hinv Hc0 Hce Het Hfuel;
    [by destruct Hfuel; lia|].
  cbn [visit_loop]. apply keeps_if; intros Hlt; zbool.
  2: { apply keeps_ret. exists []. split; [done|]. replace end_ with cursor by lia. apply span_of_nil. }
  intros base hs. destruct (id Hf) as (_ & _ & Hl & _).
  destruct (layout_record_blocks _ _ _ _ Hl) as (Hok & [_ Htot] & Hcons & _).
  eapply triple_bind; [apply triple_lift, returns_wp, (find_record_block_returns _ cursor _ Hok Htot Hc0 Hcons)|].
  intros [index|] Hfound; cbv beta iota in *; [|lia].
  destruct Hfound as (block & Hb & Hin).
  eapply triple_bind; [apply triple_lift, (wp_ok_or _ _ (fun i => i = index)); congruence|].
  intros ? ->. cbv beta.
  eapply triple_bind; [apply triple_lift, (wp_or_panic _ _ (fun b => b = block)); [by eexists|congruence]|].
  intros ? ->. cbv beta.
  eapply triple_bind; [apply (acquires_decode_record_block index base hs)|]. intros decoded Hdec. cbv beta.
  set (next := Z.min end_ (rb_decomp_offset block + rb_decomp_size block)).
  destruct (get_at_lookup _ _ _ Hb) as [Hlk _].
  eapply (triple_bind _ _ _ _ _ _ (fun '(acc', next_cursor) =>
    next_cursor = next /\ Inv acc' /\ exists chunk, visitor acc chunk = Ok acc' /\ span_of f cursor next chunk)
    (fun _ => base) (fun _ => hs)).
  { apply triple_with_arc, triple_lift. eapply wp_mono;
      [by apply (wp_visit_round Inv visitor index block (arc_value decoded) acc cursor end_); auto|].
    intros [acc' n] (-> & Hinv' & Hc). by split. }
  intros [acc' ?] (-> & Hinv' & chunk & Hchunk & Hspan).
  eapply triple_mono; [apply IH|].
  - exact Hinv'.
  - unfold next. lia.
  - unfold next. lia.
  - done.
  - by eapply enough_fuel_next.
  - intros acc'' (chunks & Hchunks & Hrest). split; [|done].
    exists (chunk :: chunks). split; [|by eapply span_of_app].
    cbn [visit_chunks]. by rewrite Hchunk.
Qed.

(** How a visit fails: the [chunks] accepted so far are the beginning of the
    span, and either the visitor refused the chunk behind them, or the reading
    failed, and then it fails in the same way for any visitor that accepts every
    chunk, [alone] being the visit with such a visitor. *)
Definition visit_failed {A} (visitor : A -> bytes -> Result A) (acc : A) (start end_ : Z) (e : Error)
    (alone : forall B, (B -> bytes -> Result B) -> B -> Result B) : Prop :=
  exists chunks acc', visit_chunks visitor acc chunks = Ok acc' /\
    ((exists chunk reached, span_of f start reached (concat (chunks ++ [chunk])) /\ reached <= end_ /\
        visitor acc' chunk = Err e) \/
     (exists reached, span_of f start reached (concat chunks) /\ reached <= end_) /\
       forall B (reader : B -> bytes -> Result B) b,
         (forall b chunk, exists b', reader b chunk = Ok b') ->
         alone B reader b = Err e).

Lemma visit_failed_cons {A} (visitor : A -> bytes -> Result A) acc acc1 chunk start mid end_ e alone alone1 :
  visitor acc chunk = Ok acc1 -> span_of f start mid chunk ->
  visit_failed visitor acc1 mid end_ e alone1 ->
  (forall B (reader : B -> bytes -> Result B) b b1, reader b chunk = Ok b1 ->
     alone B reader b = alone1 B reader b1) ->
  visit_failed visitor acc start end_ e alone.
Proof.
  intros Hv Hspan (chunks & acc' & Hc & Hcase) Halone. exists (chunk :: chunks), acc'.
  split; [cbn [visit_chunks]; by rewrite Hv|]. destruct Hcase as [(last & reached & Hr & Hle & He)|[(reached & Hr & Hle) He]].
  - left. exists last, reached. split; [|done]. by apply (span_of_app _ mid).
  - right. split; [exists reached; split; [by apply (span_of_app _ mid)|done]|].
    intros B reader b Hb. destruct (Hb b chunk) as [b1 Hb1]. rewrite (Halone _ _ _ _ Hb1). by apply He.
Qed.

Lemma visit_loop_round {A} (visitor : A -> bytes -> Result A) fuel acc cursor end_ index block s :
  cursor < end_ -> find_record_block (vl_record_blocks (mf_layout f)) cursor = Ok (Some index) ->
  get_at (vl_record_blocks (mf_layout f)) index = Some block ->
  visit_loop f visitor (Datatypes.S fuel) acc cursor end_ s =
  match decode_record_block f index s with
  | (Ok decoded, s1) =>
      match visit_round visitor block (rb_bytes (arc_value decoded)) acc cursor end_ with
      | Ok (acc1, next) => visit_loop f visitor fuel acc1 next end_ (arc_drop decoded s1)
      | Err e => (Err e, arc_drop decoded s1)
      | Panic site => (Panic site, arc_drop decoded s1)
      | OutOfFuel => (OutOfFuel, arc_drop decoded s1)
      end
  | (Err e, s1) => (Err e, s1)
  | (Panic site, s1) => (Panic site, s1)
  | (OutOfFuel, s1) => (OutOfFuel, s1)
  end.
Proof.
  intros Hlt Hfind Hb. cbn [visit_loop]. rewrite (proj2 (Z.ltb_lt _ _) Hlt), Hfind.
  unfold Errors.mbind at 1, lift at 1. cbn [ok_or]. unfold Errors.mbind at 1, lift at 1. rewrite Hb.
  cbn [or_panic]. unfold Errors.mbind at 1, lift at 1. unfold Errors.mbind at 1.
  destruct (decode_record_block f index s) as [[decoded|e| |] s1]; try done.
  unfold Errors.mbind at 1, with_arc, lift at 1. unfold visit_round.
  by destruct (rbind (span_chunk _ _ _ _) _) as [[]| | |].
Qed.

(** The visitor is the only difference between two rounds from one state. *)
Lemma visit_round_same {A B} (visitor : A -> bytes -> Result A) (reader : B -> bytes -> Result B)
    block data acc b cursor end_ chunk local_end acc1 b1 :
  span_chunk block data cursor end_ = Ok (chunk, local_end) ->
  visitor acc chunk = Ok acc1 -> reader b chunk = Ok b1 ->
  match visit_round visitor block data acc cursor end_ with
  | Ok (acc1', next) => acc1' = acc1 /\ next = rb_decomp_offset block + local_end /\
      visit_round reader block data b cursor end_ = Ok (b1, next)
  | Err e => visit_round reader block data b cursor end_ = Err e
  | _ => True
  end.
Proof.
  intros Hc Hv Hr. unfold visit_round. rewrite Hc. cbn [rbind]. rewrite Hv, Hr. cbn [rbind].
  unfold try_u64. destruct (local_end <=? u64_max); cbn [ok_or rbind]; [|done].
  unfold checked_add. destruct (_ <=? u64_max); cbn [ok_or rbind]; [|done].
  by destruct (_ <=? cursor).
Qed.

Lemma visit_failed_ext {A} (visitor : A -> bytes -> Result A) acc start end_ e
    (alone alone' : forall B, (B -> bytes -> Result B) -> B -> Result B) :
  visit_failed visitor acc start end_ e alone -> (forall B reader b, alone' B reader b = alone B reader b) ->
  visit_failed visitor acc start end_ e alone'.
Proof.
  intros (chunks & acc' & Hc & [Hw|[Hr He]]) Halone; exists chunks, acc'; split; [done| |done|]; [by left|].
  right. split; [done|]. intros B reader b Hb. rewrite Halone. by apply He.
Qed.

Lemma visit_failed_now {A} (visitor : A -> bytes -> Result A) acc start end_ e alone :
  start <= end_ -> (forall B (reader : B -> bytes -> Result B) b, alone B reader b = Err e) ->
  visit_failed visitor acc start end_ e alone.
Proof.
  intros Hle He. exists [], acc. split; [done|]. right. split; [|by intros].
  exists start. split; [apply span_of_nil|done].
Qed.

(** A round that fails: in the chunk, in the visitor, or behind it. *)
Lemma visit_round_fails {A} (visitor : A -> bytes -> Result A) index block data acc cursor end_ e
    (rest : forall B, (B -> bytes -> Result B) -> B * Z -> Result B) :
  record_block_at f index data -> get_at (vl_record_blocks (mf_layout f)) index = Some block ->
  0 <= cursor < end_ -> rb_decomp_offset block <= cursor < rb_decomp_offset block + rb_decomp_size block ->
  visit_round visitor block (rb_bytes data) acc cursor end_ = Err e ->
  visit_failed visitor acc cursor end_ e
    (fun B reader b => rbind (visit_round reader block (rb_bytes data) b cursor end_) (rest B reader)).
Proof.
  intros Hdec Hb Hc Hin Hrun. pose proof (wp_span_chunk index block data cursor end_ Hdec Hb Hc Hin) as Hchunk.
  unfold visit_round in Hrun.
  destruct (span_chunk _ _ _ _) as [[chunk local_end]|e1| |] eqn:Ec; cbn [rbind] in Hrun; try done.
  2: { injection Hrun as ->. apply visit_failed_now; [lia|]. intros. unfold visit_round. by rewrite Ec. }
  destruct Hchunk as [-> Hspan]. set (next := Z.min end_ _) in Hspan.
  destruct (visitor acc chunk) as [acc1|e1| |] eqn:Ev; cbn [rbind] in Hrun; try done.
  2: { injection Hrun as ->. exists [], acc. split; [done|]. left. exists chunk, next. cbn [app concat].
       rewrite app_nil_r. split_and!; [done|lia|done]. }
  exists [chunk], acc1. split; [cbn [visit_chunks]; by rewrite Ev|]. right.
  split; [exists next; cbn [concat]; rewrite app_nil_r; split; [done|lia]|].
  intros B reader b Hreader. destruct (Hreader b chunk) as [b1 Hr].
  pose proof (visit_round_same visitor reader _ _ acc b _ _ _ _ _ _ Ec Ev Hr) as Hsame.
  unfold visit_round at 1 in Hsame. rewrite Ec in Hsame. cbn [rbind] in Hsame. rewrite Ev in Hsame.
  cbn [rbind] in Hsame. rewrite Hrun in Hsame. by rewrite Hsame.
Qed.

(** A round that goes on. *)
Lemma visit_round_next {A} (visitor : A -> bytes -> Result A) index block data acc cursor end_ acc1 next :
  record_block_at f index data -> get_at (vl_record_blocks (mf_layout f)) index = Some block ->
  0 <= cursor < end_ -> rb_decomp_offset block <= cursor < rb_decomp_offset block + rb_decomp_size block ->
  visit_round visitor block (rb_bytes data) acc cursor end_ = Ok (acc1, next) ->
  next = Z.min end_ (rb_decomp_offset block + rb_decomp_size block) /\
  exists chunk, visitor acc chunk = Ok acc1 /\ span_of f cursor next chunk /\
    forall B (reader : B -> bytes -> Result B) b b1, reader b chunk = Ok b1 ->
      visit_round reader block (rb_bytes data) b cursor end_ = Ok (b1, next).
Proof.
  intros Hdec Hb Hc Hin Hrun. pose proof (wp_span_chunk index block data cursor end_ Hdec Hb Hc Hin) as Hchunk.
  destruct (span_chunk block (rb_bytes data) cursor end_) as [[chunk local_end]|e1| |] eqn:Ec;
    [|by unfold visit_round in Hrun; rewrite Ec in Hrun..].
  destruct Hchunk as [-> Hspan]. set (mid := Z.min end_ _) in *.
  destruct (visitor acc chunk) as [acc2|e1| |] eqn:Ev;
    [|by unfold visit_round in Hrun; rewrite Ec in Hrun; cbn [rbind] in Hrun; rewrite Ev in Hrun..].
  assert (acc1 = acc2 /\ next = mid) as [-> ->].
  { pose proof (visit_round_same visitor visitor _ _ acc acc _ _ _ _ _ _ Ec Ev Ev) as Hsame. rewrite Hrun in Hsame.
    destruct Hsame as (-> & -> & _). split; [done|lia]. }
  split; [done|]. exists chunk. split; [done|]. split; [exact Hspan|]. intros B reader b b1 Hr.
  pose proof (visit_round_same visitor reader _ _ acc b _ _ _ _ _ _ Ec Ev Hr) as Hsame. rewrite Hrun in Hsame.
  by destruct Hsame as (_ & _ & Hsame).
Qed.

Lemma visit_loop_fails {A} (visitor : A -> bytes -> Result A) fuel acc cursor end_ base hs s e s' :
  0 <= cursor -> cursor <= end_ -> end_ <= vl_total_decoded_record_len (mf_layout f) ->
  enough_fuel fuel cursor end_ -> state_ok f base hs s ->
  visit_loop f visitor fuel acc cursor end_ s = (Err e, s') ->
  visit_failed visitor acc cursor end_ e (fun B reader b => fst (visit_loop f reader fuel b cursor end_ s)).
Proof.
  revert acc cursor s; induction fuel as [|fuel IH]; intros acc cursor s Hc0 Hce Het Hfuel Hs Hrun;
    [by destruct Hfuel; lia|].
  destruct (Z.ltb_spec cursor end_) as [Hlt|Hge].
  2: { cbn [visit_loop] in Hrun. by rewrite (proj2 (Z.ltb_ge _ _) Hge) in Hrun. }
  destruct (id Hf) as (_ & _ & Hl & _).
  destruct (layout_record_blocks _ _ _ _ Hl) as (Hok & [_ Htot] & Hcons & _).
  pose proof (find_record_block_returns _ cursor _ Hok Htot Hc0 Hcons) as Hfind.
  destruct (find_record_block _ cursor) as [[index|]| | |] eqn:Ef; try done; cbn [returns] in Hfind; [|lia].
  destruct Hfind as (block & Hb & Hin).
  pose proof (fun B reader b => visit_loop_round (A := B) reader fuel b cursor end_ index block s Hlt Ef Hb) as Hround.
  rewrite Hround in Hrun.
  pose proof (acquires_decode_record_block index base hs s Hs) as Hdec. unfold wpM in Hdec.
  destruct (decode_record_block f index s) as [[decoded|e1| |] s1] eqn:Ed; try done.
  2: { injection Hrun as -> ->. apply visit_failed_now; [done|]. intros. by rewrite Hround. }
  destruct Hdec as [Hdec Hs1]. apply core_ok_arc_drop in Hs1.
  destruct (visit_round visitor _ _ _ _ _) as [[acc1 next]|e1| |] eqn:Er; try done.
  - apply (visit_round_next _ index) in Er as (-> & chunk & Hv & Hspan & Hsame); [|done..].
    eapply (visit_failed_cons _ _ _ _ _ (Z.min end_ (rb_decomp_offset block + rb_decomp_size block)));
      [done|done|eapply IH; [lia|lia|done| |exact Hs1|exact Hrun]|].
    + destruct (get_at_lookup _ _ _ Hb). by eapply enough_fuel_next.
    + intros B reader b b1 Hr. cbv beta. by rewrite Hround, (Hsame _ _ _ _ Hr).
  - injection Hrun as -> <-. eapply visit_failed_ext; [by eapply (visit_round_fails _ index)|].
    intros B reader b. cbv beta. rewrite Hround.
    instantiate (1 := fun B reader '(b1, next) => fst (visit_loop f reader fuel b1 next end_ (arc_drop decoded s1))).
    by destruct (visit_round reader _ _ _ _ _) as [[]| | |].
Qed.

(** A visit that fails: see [visit_failed]; or the span was refused. *)
Lemma visit_record_span_fails {A} (visitor : A -> bytes -> Result A) acc start end_ base hs s e s' :
  0 <= start -> state_ok f base hs s -> visit_record_span f visitor acc start end_ s = (Err e, s') ->
  visit_failed visitor acc start (Z.max start (Z.min end_ (vl_total_decoded_record_len (mf_layout f)))) e
    (fun B reader b => fst (visit_record_span f reader b start end_ s)).
Proof.
  intros Hs0 Hs Hrun. pose proof (wp_validate_record_span start end_ (fun _ => start <= end_ /\
    end_ <= vl_total_decoded_record_len (mf_layout f)) ltac:(done)) as Hw.
  destruct (validate_record_span f start end_) as [len|e1| |] eqn:Ev; try done.
  - assert (forall B (reader : B -> bytes -> Result B) b, visit_record_span f reader b start end_ s =
      visit_loop f reader (Datatypes.S (length (vl_record_blocks (mf_layout f)))) b start end_ s) as Hvisit
      by (intros; unfold visit_record_span; by rewrite Ev).
    destruct Hw as [Hle Hend]. rewrite Hvisit in Hrun. rewrite Z.max_r, Z.min_l by lia.
    eapply visit_failed_ext; [eapply visit_loop_fails; [..|exact Hrun]|]; try done.
    + split; [lia|]. intros _ i b Hi _. lia.
    + intros B reader b. cbv beta. by rewrite Hvisit.
  - unfold visit_record_span in Hrun. rewrite Ev in Hrun. injection Hrun as -> _.
    apply visit_failed_now; [lia|]. intros. unfold visit_record_span. by rewrite Ev.
Qed.

(** Visiting a span with a visitor that succeeds or fails cleanly in the states
    it goes through. *)
Lemma keeps_visit_record_span_inv {A} (Inv : A -> Prop) (visitor : A -> bytes -> Result A) acc start end_ :
  (forall acc chunk, Inv acc -> wp (visitor acc chunk) Inv) -> Inv acc -> 0 <= start ->
  keeps max (contracts f) (visit_record_span f visitor acc start end_) (fun acc' =>
    (start <= end_ /\ end_ <= vl_total_decoded_record_len (mf_layout f)) /\
    exists chunks, visit_chunks visitor acc chunks = Ok acc' /\ span_of f start end_ (concat chunks)).
Proof.
  intros Hv Hinv Hs. unfold visit_record_span.
  eapply (keeps_bind _ _ _ _ (fun _ => start <= end_ /\ end_ <= vl_total_decoded_record_len (mf_layout f))).
  { by apply keeps_lift, wp_validate_record_span. }
  intros _ [? ?]. eapply keeps_mono; [by apply (keeps_visit_loop Inv); try done; split; [lia|]; intros _ i b Hi _; lia|done].
Qed.

Lemma keeps_visit_record_span {A} (visitor : A -> bytes -> Result A) acc start end_ :
  (forall acc chunk, safe (visitor acc chunk)) -> 0 <= start ->
  keeps max (contracts f) (visit_record_span f visitor acc start end_) (fun acc' =>
    (start <= end_ /\ end_ <= vl_total_decoded_record_len (mf_layout f)) /\
    exists chunks, visit_chunks visitor acc chunks = Ok acc' /\ span_of f start end_ (concat chunks)).
Proof. intros Hv Hs. by apply (keeps_visit_record_span_inv (fun _ => True)); [intros; apply Hv| |]. Qed.

Lemma visit_chunks_append chunks acc :
  visit_chunks (fun output chunk => Ok (output ++ chunk)) acc chunks = Ok (acc ++ concat chunks).
Proof.
  revert acc; induction chunks as [|c chunks IH]; intros acc; simpl; [by rewrite app_nil_r|].
  by rewrite IH, app_assoc.
Qed.

Lemma keeps_read_record_span_within start end_ :
  0 <= start ->
  keeps max (contracts f) (read_record_span f start end_) (fun out =>
    end_ <= vl_total_decoded_record_len (mf_layout f) /\ span_of f start end_ out).
Proof.
  intros Hs. unfold read_record_span.
  eapply (keeps_bind _ _ _ _ (fun len => 0 <= len)).
  { apply keeps_lift, wp_materialized_len. lia. }
  intros len Hlen. apply keeps_scoped; [done|].
  eapply (keeps_bind _ _ _ _ (fun _ => True)); [by apply keeps_lift, wp_try_reserve_vec|]. intros _ _.
  eapply keeps_mono; [by apply keeps_visit_record_span|].
  intros out ([_ ?] & chunks & Hc & Hspan). rewrite visit_chunks_append in Hc. by injection Hc as <-.
Qed.

Lemma keeps_read_record_span start end_ :
  0 <= start -> keeps max (contracts f) (read_record_span f start end_) (span_of f start end_).
Proof. intros Hs. eapply keeps_mono; [by apply keeps_read_record_span_within|]. by intros out [_ ?]. Qed.

Lemma read_record_span_refused start end_ e s :
  0 <= start -> refused_span f start end_ = Some e -> read_record_span f start end_ s = (Err e, s).
Proof.
  destruct (id Hf) as (_ & Hlim & _). unfold limits_ok, is_u64 in Hlim.
  intros Hs. unfold refused_span. intros He.
  unfold read_record_span, materialized_record_span_len, validate_record_span.
  destruct (Z.ltb_spec end_ start); [by injection He as <-|].
  unfold checked_sub. rewrite (proj2 (Z.leb_le start end_)) by lia. cbn [ok_or rbind].
  destruct (Z.ltb_spec (vl_total_decoded_record_len (mf_layout f)) end_); [by injection He as <-|].
  cbn [rbind]. unfold checked_u64, try_u64. rewrite (proj2 (Z.leb_le _ u64_max)) by lia. cbn [ok_or rbind].
  destruct (Z.ltb_spec (materialized_record_bytes (mf_limits f)) (end_ - start)); [by injection He as <-|done].
Qed.

(** Lists agree when every element of one is found in the other. *)
Lemma slice_pointwise {A} (l out : list A) start end_ :
  0 <= start -> end_ <= zlen l -> zlen out = end_ - start ->
  (forall k x, get_at out k = Some x -> get_at l (start + k) = Some x) ->
  slice l start end_ = Some out.
Proof.
  intros ? ? Hlen Hk. apply slice_Some. split; [lia|]. apply list_eq. intros i.
  destruct (out !! i) as [x|] eqn:Hi.
  - specialize (Hk (Z.of_nat i) x (lookup_get_at _ _ _ Hi)). apply lookup_lt_Some in Hi as Hlt.
    unfold get_at in Hk. rewrite (proj2 (Z.leb_le _ _)) in Hk by lia.
    rewrite lookup_take_lt by lia. rewrite lookup_drop. rewrite <- Hk. f_equal. lia.
  - symmetry. apply lookup_ge_None in Hi. apply lookup_ge_None. rewrite length_take. lia.
Qed.

(** A span of a stream that decodes completely is a slice of it. *)
Lemma span_of_slice content modified stream start end_ out :
  stable (mf_source f) content modified -> record_stream f content = Ok stream ->
  0 <= start -> end_ <= vl_total_decoded_record_len (mf_layout f) ->
  span_of f start end_ out -> slice stream start end_ = Some out.
Proof.
  intros Hs Hstream Hstart Hend (Hlen & _ & Hb).
  pose proof (record_stream_length f Hf content modified Hs stream Hstream).
  apply slice_pointwise; [done|lia|done|]. intros k x Hk.
  destruct (Hb content modified Hs k x Hk) as (block & data & ? & ? & ? & ?).
  by eapply (record_stream_get f Hf content modified Hs).
Qed.

End RecordsProofs.

(** * Properties *)

(** The descriptor of an ordinal in a file that decodes to [rows]. *)
Definition row_descriptor (total : Z) (rows : list DecodedKeyRow) (ordinal : Z)
    : option RecordDescriptor :=
  match get_at rows ordinal with
  | Some row => Some {| rd_key := row_entry ordinal row; rd_start := record_start row;
                        rd_end := default total (record_start <$> get_at rows (ordinal + 1)) |}
  | None => None
  end.

Lemma descriptor_ok_rows `{EnvOk} f content modified rows ordinal d :
  file_ok f -> stable (mf_source f) content modified -> all_rows f content = Ok rows ->
  0 <= ordinal -> descriptor_ok f ordinal d ->
  Some d = row_descriptor (vl_total_decoded_record_len (mf_layout f)) rows ordinal.
Proof.
  intros Hf Hs Hrows Hord (Hk & _ & _ & _ & Hd).
  destruct (all_rows_spec f Hf content modified Hs rows Hrows) as [Hlen Hat].
  destruct (Hd _ _ Hs) as (row & Hrow & Hkey & Hstart & Hend). unfold row_descriptor.
  rewrite (Hat _ _ Hrow). destruct d as [[o k] start end_]; simpl in *. subst. f_equal.
  destruct (Z.ltb_spec (ordinal + 1) (mdict_len f)).
  - destruct Hend as (next & Hnext & ->). by rewrite (Hat _ _ Hnext).
  - destruct (get_at rows (ordinal + 1)) eqn:E; [apply get_at_Some in E; lia|]. by subst.
Qed.

(** The record descriptor of an ordinal is a span inside the decoded
    stream, from the start of its row to the start of the next row (in the
    next key block, if need be) or the end of the stream; consecutive entries
    tile the stream.  No panic, no leak, whatever the caches hold. *)
Theorem record_at_ordinal_correct `{EnvOk} f base hs s ordinal :
  file_ok f -> state_ok f base hs s -> 0 <= ordinal ->
  wpM (record_at_ordinal f ordinal) s
    (fun r s' =>
      (match r with
       | None => mdict_len f <= ordinal
       | Some d => ordinal < mdict_len f /\ descriptor_ok f ordinal d
       end /\
       forall content modified rows, stable (mf_source f) content modified ->
         all_rows f content = Ok rows ->
         r = row_descriptor (vl_total_decoded_record_len (mf_layout f)) rows ordinal) /\
      state_ok f base hs s')
    (fun _ s' => state_ok f base hs s').
Proof.
  intros Hf Hs Hord. eapply wpM_mono; [by apply (keeps_record_at_ordinal f Hf ordinal Hord base hs)| |done].
  intros r s' [Hr Hs']. split; [|done]. split; [done|]. intros content modified rows Hst Hrows.
  destruct r as [d|]; [destruct Hr; by eapply descriptor_ok_rows|].
  destruct (all_rows_spec f Hf content modified Hst rows Hrows) as [Hlen _]. unfold row_descriptor.
  destruct (get_at rows ordinal) eqn:E; [apply get_at_Some in E; lia|done].
Qed.

(** C14: reading a span either refuses it or returns exactly the bytes of the
    decoded stream between its ends: when every record block of a stable file
    decodes, the slice of their concatenation.  A span that is inverted, leaves
    the stream or is longer than the limit on materialized records is refused,
    each with its own error, before anything is read or reserved, so a record
    that is returned is never longer than the limit.  The loop needs at most
    one round per record block; nothing panics, and every exit gives back what
    it had reserved. *)
Theorem read_record_span_correct `{EnvOk} f base hs s start end_ :
  file_ok f -> state_ok f base hs s -> 0 <= start ->
  match refused_span f start end_ with
  | Some e => read_record_span f start end_ s = (Err e, s)
  | None =>
      wpM (read_record_span f start end_) s
        (fun out s' =>
          (span_of f start end_ out /\ zlen out <= materialized_record_bytes (mf_limits f) /\
           forall content modified stream, stable (mf_source f) content modified ->
             record_stream f content = Ok stream -> slice stream start end_ = Some out) /\
          state_ok f base hs s')
        (fun _ s' => state_ok f base hs s')
  end.
Proof.
  intros Hf Hs Hstart. destruct (refused_span f start end_) as [e|] eqn:E;
    [by apply read_record_span_refused|].
  apply refused_span_None in E as (_ & Hend & Hlim).
  eapply wpM_mono; [apply (keeps_read_record_span_within f Hf start end_ Hstart base hs s Hs)| |done].
  intros out s' [[_ Hr] Hs']. split; [|done]. split; [done|]. split; [destruct Hr; lia|].
  intros content modified stream Hst Hstream. by eapply span_of_slice.
Qed.

(** Whatever a visitor does with the chunks, it is called on chunks
    whose concatenation is the span, in order, and its failure is the failure
    of the visit; the visit itself neither panics nor leaks. *)
Theorem visit_record_span_correct `{EnvOk} {A} f (visitor : A -> bytes -> Result A) acc base hs s
    start end_ :
  file_ok f -> state_ok f base hs s -> 0 <= start -> (forall acc chunk, safe (visitor acc chunk)) ->
  wpM (visit_record_span f visitor acc start end_) s
    (fun acc' s' =>
      (exists chunks, visit_chunks visitor acc chunks = Ok acc' /\ span_of f start end_ (concat chunks)) /\
      state_ok f base hs s')
    (fun _ s' => state_ok f base hs s').
Proof.
  intros Hf Hs Hstart Hv.
  eapply wpM_mono; [by apply (keeps_visit_record_span f Hf visitor acc start end_ Hv Hstart base hs)| |done].
  intros acc' s' [(_ & Hc) Hs']. split; [exact Hc|exact Hs'].
Qed.

Example record_at_ordinal_witness :
  wpM (@record_at_ordinal simple_env sample_file 1) sample_state
    (fun r s' => @state_ok simple_env sample_file sample_base [] s')
    (fun _ s' => @state_ok simple_env sample_file sample_base [] s') /\
  fst (@record_at_ordinal simple_env sample_file 1 sample_state) =
    Ok (Some {| rd_key := row_entry 1 (row "Beta" 3); rd_start := 3; rd_end := 12 |}).
Proof.
  split; [|vm_compute; reflexivity].
  eapply wpM_mono; [apply (@record_at_ordinal_correct simple_env simple_env_ok sample_file sample_base []
    sample_state 1 (proj1 sample_ok) (proj2 sample_ok)); lia| |done].
  intros r s' [_ Hs]. exact Hs.
Defined.

(** A span over both record blocks of the sample, and one that is inverted. *)
Example read_record_span_witness :
  wpM (@read_record_span simple_env sample_file 3 12) sample_state
    (fun out s' => @span_of simple_env sample_file 3 12 out)
    (fun _ s' => @state_ok simple_env sample_file sample_base [] s') /\
  @read_record_span simple_env sample_file 12 3 sample_state =
    (Err (InvalidFormat "record range is inverted"), sample_state) /\
  fst (@read_record_span simple_env sample_file 3 12 sample_state) = Ok (lit "-two-thre").
Proof.
  split_and!; [| |vm_compute; reflexivity].
  - pose proof (@read_record_span_correct simple_env simple_env_ok sample_file sample_base []
      sample_state 3 12 (proj1 sample_ok) (proj2 sample_ok) ltac:(lia)) as Hw.
    assert (refused_span sample_file 3 12 = None) as E by (vm_compute; reflexivity). rewrite E in Hw.
    eapply wpM_mono; [exact Hw| |exact (fun _ _ h => h)]. clear. intros r s' [[Hr _] _]. exact Hr.
  - pose proof (@read_record_span_correct simple_env simple_env_ok sample_file sample_base []
      sample_state 12 3 (proj1 sample_ok) (proj2 sample_ok) ltac:(lia)) as Hw.
    assert (refused_span sample_file 12 3 = Some (InvalidFormat "record range is inverted")) as E
      by (vm_compute; reflexivity). rewrite E in Hw. exact Hw.
Defined.

Example visit_record_span_witness :
  wpM (@visit_record_span simple_env sample_file _ (fun n chunk => Ok (n + zlen chunk)) 0 3 12)
    sample_state
    (fun n s' => @state_ok simple_env sample_file sample_base [] s')
    (fun _ s' => @state_ok simple_env sample_file sample_base [] s') /\
  fst (@visit_record_span simple_env sample_file _ (fun n chunk => Ok (n + zlen chunk)) 0 3 12
         sample_state) = Ok 9.
Proof.
  split; [|vm_compute; reflexivity].
  eapply wpM_mono; [apply (@visit_record_span_correct simple_env simple_env_ok _ sample_file
    (fun n chunk => Ok (n + zlen chunk)) 0 sample_base [] sample_state 3 12
    (proj1 sample_ok) (proj2 sample_ok)); done| |done].
  intros r s' [_ Hs]. exact Hs.
Defined.
