(* ===== verification/Iter.v ===== *)
(** The iterators over keys and records: [src/core/iter.rs].  An iterator is a
    state that owns a handle of the key block it is in; an item is an entry or
    the error that ends the iteration. *)

From stdpp Require Import list_numbers.
From S2P Require Import Prelude Errors Types Budget Utf8 Encoding Source Descriptors Header KeySection Format Normalize Samples LocatorIndex Arcs Core Dictionary SampleDictionary Keys Records.

(** [KeyIter] and [RecordIter], which have the same fields. *)
Record BlockIter := {
  bi_block_index : Z;
  bi_entry_index : Z;
  bi_current_block : option (Arc DecodedKeyBlock);
  bi_done : bool;
}.

(** [KeyIter::new] and [RecordIter::new] *)
Definition block_iter_new : BlockIter :=
  {| bi_block_index := 0; bi_entry_index := 0; bi_current_block := None; bi_done := false |}.

Definition iter_done (it : BlockIter) : BlockIter :=
  {| bi_block_index := bi_block_index it; bi_entry_index := bi_entry_index it;
     bi_current_block := bi_current_block it; bi_done := true |}.

(** Dropping an iterator drops its handle. *)
Definition drop_iter (it : BlockIter) (s : CoreState) : CoreState :=
  match bi_current_block it with Some entries => arc_drop entries s | None => s end.

Section Iter.

Context `{Env} (f : MdictFile).

(** The head of both loops: the current block, decoded when there is none. *)
Definition iter_load (it : BlockIter) : M CoreState (BlockIter + Error) :=
  match bi_current_block it with
  | Some _ => mret (inl it)
  | None =>
      let! result := attempt (decode_key_block f (bi_block_index it)) in
      match result with
      | inl entries =>
          mret (inl {| bi_block_index := bi_block_index it; bi_entry_index := 0;
                       bi_current_block := Some entries; bi_done := bi_done it |})
      | inr error => mret (inr error)
      end
  end.

(** The [and_then] chain of [KeyIter::next]. *)
Definition key_item (it : BlockIter) (entries : DecodedKeyBlock) : Result KeyEntry :=
  let? block := or_panic (get_at (vl_key_blocks (mf_layout f)) (bi_block_index it))
                  "index out of bounds" in
  let? ordinal := ok_or (local ← try_u64 (bi_entry_index it);
                         checked_add (entry_start_index block) local)
                    (InvalidFormat "key ordinal overflow") in
  let? row := or_panic (get_at (kb_entries entries) (bi_entry_index it)) "index out of bounds" in
  let? key := try_clone_string (row_key row) "iterated physical key" in
  Ok {| ke_ordinal := ordinal; ke_key := key |}.

(** The loop of [KeyIter::next]. *)
Fixpoint key_next_loop (fuel : nat) (it : BlockIter)
    : M CoreState (option (KeyEntry + Error) * BlockIter) :=
  match fuel with
  | O => lift OutOfFuel
  | S fuel =>
      if key_block_count f <=? bi_block_index it then mret (None, iter_done it)
      else
        let! loaded := iter_load it in
        match loaded with
        | inr error => mret (Some (inr error), iter_done it)
        | inl it =>
            match bi_current_block it with
            | None => key_next_loop fuel it
            | Some entries =>
                if zlen (kb_entries (arc_value entries)) <=? bi_entry_index it then
                  let! _ := drop_handle entries in
                  key_next_loop fuel
                    {| bi_block_index := bi_block_index it + 1; bi_entry_index := bi_entry_index it;
                       bi_current_block := None; bi_done := bi_done it |}
                else
                  let! item := attempt (lift (key_item it (arc_value entries))) in
                  let it := {| bi_block_index := bi_block_index it;
                               bi_entry_index := bi_entry_index it + 1;
                               bi_current_block := bi_current_block it; bi_done := bi_done it |} in
                  mret (Some item, match item with inl _ => it | inr _ => iter_done it end)
            end
        end
  end.

(** [KeyIter::next]; a round that goes on has finished a block. *)
Definition key_next (it : BlockIter) : M CoreState (option (KeyEntry + Error) * BlockIter) :=
  if bi_done it then mret (None, it)
  else key_next_loop (S (S (Z.to_nat (key_block_count f)))) it.

(** The loop of [RecordIter::next]. *)
Fixpoint record_next_loop (fuel : nat) (it : BlockIter)
    : M CoreState (option (RecordDescriptor + Error) * BlockIter) :=
  match fuel with
  | O => lift OutOfFuel
  | S fuel =>
      if key_block_count f <=? bi_block_index it then mret (None, iter_done it)
      else
        let! loaded := iter_load it in
        match loaded with
        | inr error => mret (Some (inr error), iter_done it)
        | inl it =>
            match bi_current_block it with
            | None => record_next_loop fuel it
            | Some entries =>
                if zlen (kb_entries (arc_value entries)) <=? bi_entry_index it then
                  let! _ := drop_handle entries in
                  record_next_loop fuel
                    {| bi_block_index := bi_block_index it + 1; bi_entry_index := bi_entry_index it;
                       bi_current_block := None; bi_done := bi_done it |}
                else
                  let is_last_in_block :=
                    bi_entry_index it + 1 =? zlen (kb_entries (arc_value entries)) in
                  let! owned := if is_last_in_block then mret entries else arc_clone entries in
                  let! item := attempt (record_descriptor_at_position f (bi_block_index it)
                                          (bi_entry_index it) owned) in
                  let it :=
                    if is_last_in_block
                    then {| bi_block_index := bi_block_index it + 1; bi_entry_index := 0;
                            bi_current_block := None; bi_done := bi_done it |}
                    else {| bi_block_index := bi_block_index it;
                            bi_entry_index := bi_entry_index it + 1;
                            bi_current_block := bi_current_block it; bi_done := bi_done it |} in
                  mret (Some item, match item with inl _ => it | inr _ => iter_done it end)
            end
        end
  end.

(** [RecordIter::next] *)
Definition record_next (it : BlockIter) : M CoreState (option (RecordDescriptor + Error) * BlockIter) :=
  if bi_done it then mret (None, it)
  else record_next_loop (S (S (Z.to_nat (key_block_count f)))) it.

(** A [for] loop over an iterator: the items up to the first error or the end. *)
Fixpoint collect {I A} (next : I -> M CoreState (option (A + Error) * I)) (fuel : nat) (it : I)
    : M CoreState (list A * option Error * I) :=
  match fuel with
  | O => lift OutOfFuel
  | S fuel =>
      let! '(item, it) := next it in
      match item with
      | None => mret ([], None, it)
      | Some (inr error) => mret ([], Some error, it)
      | Some (inl a) =>
          let! '(items, error, it) := collect next fuel it in
          mret (a :: items, error, it)
      end
  end.

(** The handle an iterator owns. *)
Definition iter_handles (it : BlockIter) : list nat :=
  match bi_current_block it with Some entries => [arc_id entries] | None => [] end.

(** The iterator is about to yield the entry [pos]. *)
Definition iter_at (it : BlockIter) (pos : Z) : Prop :=
  bi_done it = false /\ 0 <= bi_block_index it <= key_block_count f /\
  match bi_current_block it with
  | Some entries =>
      exists block, get_at (vl_key_blocks (mf_layout f)) (bi_block_index it) = Some block /\
        cached_key_block_at f (bi_block_index it) (arc_value entries) /\
        0 <= bi_entry_index it <= entry_count block /\
        pos = entry_start_index block + bi_entry_index it
  | None =>
      consecutive entry_start_index entry_count 0
        (take (Z.to_nat (bi_block_index it)) (vl_key_blocks (mf_layout f))) pos
  end.

(** What a call of [next] yields at position [pos], for iterators whose
    position is [at_] and that are exhausted when [exhausted]. *)
Definition next_ok_at {I A} (at_ : I -> Z -> Prop) (exhausted : I -> bool) (P : Z -> A -> Prop)
    (pos : Z) (r : option (A + Error) * I) : Prop :=
  match r with
  | (None, it) => pos = mdict_len f /\ exhausted it = true
  | (Some (inl a), it) => pos < mdict_len f /\ P pos a /\ at_ it (pos + 1)
  | (Some (inr _), it) => pos < mdict_len f /\ exhausted it = true
  end.

Definition next_ok {A} : (Z -> A -> Prop) -> Z -> option (A + Error) * BlockIter -> Prop :=
  next_ok_at iter_at bi_done.

End Iter.

(** * Lemmas *)

Lemma consecutive_unique {A} (start size : A -> Z) from l a b :
  consecutive start size from l a -> consecutive start size from l b -> a = b.
Proof.
  revert from; induction l as [|x l IH]; intros from; simpl; [congruence|].
  intros [_ Ha] [_ Hb]. by eapply IH.
Qed.

Section IterProofs.

Context `{EnvOk} (f : MdictFile) (Hf : file_ok f).

Let max := working_memory_bytes (mf_limits f).

Lemma key_blocks_consecutive :
  Forall (fun b => 0 <= entry_count b) (vl_key_blocks (mf_layout f)) /\
  consecutive entry_start_index entry_count 0 (vl_key_blocks (mf_layout f)) (mdict_len f) /\
  Forall (fun b => 1 <= entry_count b) (vl_key_blocks (mf_layout f)).
Proof.
  destruct Hf as (_ & _ & Hl & _). destruct (layout_key_blocks _ _ _ _ Hl) as (Hk & _ & Hc & Hv).
  split_and!; [|done|].
  - eapply Forall_impl; [exact Hk|]. by intros b (? & ? & ?).
  - eapply Forall_impl; [exact Hv|]. by intros b (? & ? & ?).
Qed.

(** The entries before block [i]. *)
Lemma block_position i block pos :
  get_at (vl_key_blocks (mf_layout f)) i = Some block ->
  consecutive entry_start_index entry_count 0 (take (Z.to_nat i) (vl_key_blocks (mf_layout f))) pos ->
  pos = entry_start_index block.
Proof.
  intros Hb Hp. destruct key_blocks_consecutive as (Hsz & Hc & _).
  destruct (get_at_lookup _ _ _ Hb) as [Hlk _].
  destruct (consecutive_lookup _ _ _ _ _ _ _ Hsz Hc Hlk) as [Ht _]. by eapply consecutive_unique.
Qed.

Lemma block_position_next i block :
  get_at (vl_key_blocks (mf_layout f)) i = Some block ->
  consecutive entry_start_index entry_count 0
    (take (Z.to_nat (i + 1)) (vl_key_blocks (mf_layout f))) (entry_start_index block + entry_count block).
Proof.
  intros Hb. destruct key_blocks_consecutive as (Hsz & Hc & _).
  destruct (get_at_lookup _ _ _ Hb) as [Hlk ?].
  destruct (consecutive_lookup _ _ _ _ _ _ _ Hsz Hc Hlk) as [Ht _].
  replace (Z.to_nat (i + 1)) with (Datatypes.S (Z.to_nat i)) by lia.
  rewrite (take_S_r _ _ _ Hlk). apply consecutive_app. exists (entry_start_index block). by split.
Qed.

Lemma block_bound i block :
  get_at (vl_key_blocks (mf_layout f)) i = Some block ->
  1 <= entry_count block /\ 0 <= entry_start_index block /\
  entry_start_index block + entry_count block <= mdict_len f /\ mdict_len f <= u64_max.
Proof.
  intros Hb. destruct key_blocks_consecutive as (Hsz & Hc & Hv).
  destruct (get_at_lookup _ _ _ Hb) as [Hlk ?].
  destruct (consecutive_bounds _ _ _ _ _ _ _ Hsz Hc Hlk).
  rewrite Forall_forall in Hv. destruct Hf as (_ & _ & Hl & _).
  destruct (layout_key_blocks _ _ _ _ Hl) as (_ & [_ ?] & _).
  split_and!; [apply Hv; by eapply get_at_elem_of|lia|lia|done].
Qed.

(** The position of a live iterator. *)
Lemma iter_at_bound it pos :
  iter_at f it pos -> bi_block_index it < key_block_count f ->
  match bi_current_block it with
  | Some entries => bi_entry_index it < zlen (kb_entries (arc_value entries)) -> pos < mdict_len f
  | None => pos < mdict_len f
  end.
Proof.
  intros (_ & Hi & Hcur) Hlt. destruct (bi_current_block it) as [entries|].
  - destruct Hcur as (block & Hb & (Hkb & _) & He & ->). intros Hen.
    destruct Hkb as (block' & Hb' & (Hlen & _) & _). assert (block' = block) as -> by congruence.
    simpl in Hlen. pose proof (block_bound _ _ Hb). lia.
  - destruct (get_at_is_Some (vl_key_blocks (mf_layout f)) (bi_block_index it)) as [block Hb];
      [unfold key_block_count in *; lia|].
    rewrite (block_position _ _ _ Hb Hcur). pose proof (block_bound _ _ Hb). lia.
Qed.

Lemma live_bound it pos entries :
  iter_at f it pos -> bi_current_block it = Some entries ->
  bi_entry_index it < zlen (kb_entries (arc_value entries)) -> pos < mdict_len f.
Proof.
  intros Hat Ec Hlt. pose proof (iter_at_bound it pos Hat) as Hb. rewrite Ec in Hb. apply Hb; [|done].
  destruct Hat as (_ & _ & Hcur). rewrite Ec in Hcur. destruct Hcur as (block & Hblk & _).
  apply get_at_Some in Hblk. unfold key_block_count. lia.
Qed.

(** At the end of the blocks every entry has been yielded. *)
Lemma iter_at_end it pos :
  iter_at f it pos -> key_block_count f <= bi_block_index it -> pos = mdict_len f.
Proof.
  intros (_ & Hi & Hcur) Hge. destruct (bi_current_block it) as [entries|].
  - destruct Hcur as (block & Hb & _). apply get_at_Some in Hb. unfold key_block_count in *. lia.
  - destruct key_blocks_consecutive as (_ & Hc & _).
    rewrite take_ge in Hcur by (unfold key_block_count in *; lia). by eapply consecutive_unique.
Qed.

Lemma triple_iter_load base hs it pos base_e hs_e :
  iter_at f it pos -> bi_block_index it < key_block_count f ->
  triple max (contracts f) base (iter_handles it ++ hs) (iter_load f it)
    (fun r => match r with
              | inl it' => iter_at f it' pos /\ is_Some (bi_current_block it') /\
                           bi_block_index it' = bi_block_index it
              | inr _ => pos < mdict_len f
              end)
    (fun _ => base)
    (fun r => match r with inl it' => iter_handles it' ++ hs | inr _ => iter_handles it ++ hs end)
    base_e hs_e.
Proof.
  intros Hat Hlt. pose proof (iter_at_bound _ _ Hat Hlt) as Hbound.
  destruct (id Hat) as (Hd & Hi & Hcur). unfold iter_load.
  destruct (bi_current_block it) as [entries|] eqn:Ec.
  { apply triple_ret; [|done|done]. rewrite Ec. split_and!; [done|by eexists|done]. }
  assert (iter_handles it = []) as -> by (unfold iter_handles; by rewrite Ec).
  eapply triple_bind.
  { eapply triple_attempt. apply (acquires_decode_key_block f Hf). }
  intros [entries|error] Hent; cbv beta iota; apply triple_ret; try done.
  destruct Hent as [Hkb Hst]. destruct (id Hkb) as (block & Hb & _).
  split_and!; [|by eexists|done]. split_and!; try done; simpl; try lia.
  exists block. split_and!; try done; try lia.
  - pose proof (block_bound _ _ Hb). lia.
  - rewrite (block_position _ _ _ Hb Hcur). lia.
Qed.

(** What the entry of a live iterator gives. *)
Lemma iter_at_entry it pos entries :
  iter_at f it pos -> bi_current_block it = Some entries ->
  bi_entry_index it < zlen (kb_entries (arc_value entries)) ->
  hit_ok f pos {| kh_block_index := bi_block_index it; kh_entry_index := bi_entry_index it;
                  kh_entries := entries |}.
Proof.
  intros (_ & _ & Hcur) Ec Hlt. rewrite Ec in Hcur. destruct Hcur as (block & Hb & Hc & He & ->).
  split; [done|]. simpl. destruct (id Hc) as [(block' & Hb' & (Hlen & _) & _) _].
  assert (block' = block) as -> by congruence. simpl in Hlen.
  destruct (get_at_is_Some (kb_entries (arc_value entries)) (bi_entry_index it)) as [row Hrow]; [lia|].
  exists block, row. split_and!; try done; lia.
Qed.

Lemma wp_key_item it pos entries :
  iter_at f it pos -> bi_current_block it = Some entries ->
  bi_entry_index it < zlen (kb_entries (arc_value entries)) ->
  wp (key_item f it (arc_value entries)) (fun e => key_answer f pos (Some e)).
Proof.
  intros Hat Ec Hlt. destruct (iter_at_entry _ _ _ Hat Ec Hlt) as ([Hkb _] & block & row & Hb & Hp & He & Hrow).
  simpl in *. destruct (key_block_lookup f _ _ _ _ Hkb Hb He) as (row' & Hrow' & Ht & _ & Hst).
  assert (row' = row) as -> by congruence. unfold key_item. rewrite Hb. cbn [or_panic rbind].
  pose proof (block_bound _ _ Hb). unfold try_u64. rewrite (proj2 (Z.leb_le _ u64_max)) by lia.
  unfold checked_add. simpl. rewrite (proj2 (Z.leb_le _ u64_max)) by lia. cbn [ok_or rbind].
  rewrite Hrow. cbn [or_panic rbind]. apply wp_bind.
  eapply wp_mono; [apply (wp_try_clone_string _ _ (fun k => k = row_key row)); done|]. intros ? ->.
  simpl. split_and!; [lia|lia|done|]. intros content modified Hs. exists row. split; [|done].
  rewrite Hp. by eapply Hst.
Qed.

(** A finished block hands over to the next one. *)
Lemma iter_at_next_block it pos entries :
  iter_at f it pos -> bi_current_block it = Some entries ->
  zlen (kb_entries (arc_value entries)) <= bi_entry_index it ->
  iter_at f {| bi_block_index := bi_block_index it + 1; bi_entry_index := bi_entry_index it;
               bi_current_block := None; bi_done := bi_done it |} pos.
Proof.
  intros (Hd & Hi & Hcur) Ec Hge. rewrite Ec in Hcur. destruct Hcur as (block & Hb & [Hc _] & He & ->).
  destruct Hc as (block' & Hb' & (Hlen & _) & _). assert (block' = block) as -> by congruence.
  simpl in Hlen. pose proof (get_at_Some _ _ _ Hb). split_and!; simpl; try done; unfold key_block_count in *; try lia.
  replace (entry_start_index block + bi_entry_index it)
    with (entry_start_index block + entry_count block) by lia. by apply block_position_next.
Qed.

(** Stepping over an entry. *)
Lemma iter_at_step it pos entries :
  iter_at f it pos -> bi_current_block it = Some entries ->
  bi_entry_index it < zlen (kb_entries (arc_value entries)) ->
  iter_at f {| bi_block_index := bi_block_index it; bi_entry_index := bi_entry_index it + 1;
               bi_current_block := bi_current_block it; bi_done := bi_done it |} (pos + 1).
Proof.
  intros (Hd & Hi & Hcur) Ec Hlt. split_and!; simpl; try done; try lia. rewrite Ec in *.
  destruct Hcur as (block & Hb & Hc & He & ->). exists block.
  destruct (id Hc) as [(block' & Hb' & (Hlen & _) & _) _]. assert (block' = block) as -> by congruence.
  simpl in Hlen. split_and!; try done; lia.
Qed.

Lemma iter_handles_done it : iter_handles (iter_done it) = iter_handles it.
Proof. done. Qed.

Lemma triple_key_next base hs it pos base_e hs_e :
  iter_at f it pos ->
  triple max (contracts f) base (iter_handles it ++ hs) (key_next f it)
    (next_ok f (fun pos e => key_answer f pos (Some e)) pos)
    (fun _ => base) (fun r => iter_handles (snd r) ++ hs) base_e hs_e.
Proof.
  intros Hat. unfold key_next. destruct (id Hat) as (-> & Hi & _).
  assert (Z.to_nat (key_block_count f - bi_block_index it)
          < Datatypes.S (Datatypes.S (Z.to_nat (key_block_count f))))%nat as Hfuel by lia.
  revert Hfuel. generalize (Datatypes.S (Datatypes.S (Z.to_nat (key_block_count f)))) as fuel. intros fuel.
  clear Hi. revert it Hat. induction fuel as [|fuel IH]; intros it Hat Hfuel; [lia|].
  cbn [key_next_loop]. apply triple_if; intros Hend; zbool.
  { apply triple_ret; [|done|done]. split; [by eapply iter_at_end|done]. }
  eapply triple_bind; [by apply triple_iter_load|].
  intros [it'|error] Hload; cbv beta iota.
  2: { apply triple_ret; [|done|done]. by split. }
  destruct Hload as (Hat' & [entries Ec] & Hbi). rewrite Ec.
  apply triple_if; intros Hlen; zbool.
  - assert (iter_handles it' ++ hs = arc_id entries :: hs) as ->
      by (unfold iter_handles; by rewrite Ec).
    eapply triple_bind; [apply triple_drop_handle|]. intros [] _. cbv beta.
    apply (IH {| bi_block_index := bi_block_index it' + 1; bi_entry_index := bi_entry_index it';
                 bi_current_block := None; bi_done := bi_done it' |}).
    + by eapply iter_at_next_block.
    + simpl. lia.
  - eapply triple_bind; [eapply triple_attempt, triple_lift; by eapply wp_key_item|].
    intros [e|error] Hitem; cbv beta iota.
    + apply triple_ret; [|done|unfold iter_handles; by rewrite Ec].
      split; [by eapply live_bound|]. split; [done|]. rewrite <- Ec. by eapply iter_at_step.
    + apply triple_ret; [|done|unfold iter_handles; by rewrite Ec]. split; [by eapply live_bound|done].
Qed.

(** Behind the last entry of a block comes the next block. *)
Lemma iter_at_last it pos entries :
  iter_at f it pos -> bi_current_block it = Some entries ->
  bi_entry_index it + 1 = zlen (kb_entries (arc_value entries)) ->
  iter_at f {| bi_block_index := bi_block_index it + 1; bi_entry_index := 0;
               bi_current_block := None; bi_done := bi_done it |} (pos + 1).
Proof.
  intros Hat Ec Hlast.
  assert (bi_entry_index it < zlen (kb_entries (arc_value entries))) as Hlt by lia.
  pose proof (iter_at_step _ _ _ Hat Ec Hlt) as Hstep.
  eapply iter_at_next_block in Hstep; [|exact Ec|simpl; lia].
  destruct Hstep as (? & ? & ?). split_and!; try done; simpl in *; lia.
Qed.

Lemma triple_record_next base hs it pos base_e hs_e :
  iter_at f it pos ->
  triple max (contracts f) base (iter_handles it ++ hs) (record_next f it)
    (next_ok f (descriptor_ok f) pos)
    (fun _ => base) (fun r => iter_handles (snd r) ++ hs) base_e hs_e.
Proof.
  intros Hat. unfold record_next. destruct (id Hat) as (-> & Hi & _).
  assert (Z.to_nat (key_block_count f - bi_block_index it)
          < Datatypes.S (Datatypes.S (Z.to_nat (key_block_count f))))%nat as Hfuel by lia.
  revert Hfuel. generalize (Datatypes.S (Datatypes.S (Z.to_nat (key_block_count f)))) as fuel. intros fuel.
  clear Hi. revert it Hat. induction fuel as [|fuel IH]; intros it Hat Hfuel; [lia|].
  cbn [record_next_loop]. apply triple_if; intros Hend; zbool.
  { apply triple_ret; [|done|done]. split; [by eapply iter_at_end|done]. }
  eapply triple_bind; [by apply triple_iter_load|].
  intros [it'|error] Hload; cbv beta iota.
  2: { apply triple_ret; [|done|done]. by split. }
  destruct Hload as (Hat' & [entries Ec] & Hbi). rewrite Ec.
  assert (iter_handles it' ++ hs = arc_id entries :: hs) as ->
    by (unfold iter_handles; by rewrite Ec).
  apply triple_if; intros Hlen; zbool.
  - eapply triple_bind; [apply triple_drop_handle|]. intros [] _. cbv beta.
    apply (IH {| bi_block_index := bi_block_index it' + 1; bi_entry_index := bi_entry_index it';
                 bi_current_block := None; bi_done := bi_done it' |}).
    + by eapply iter_at_next_block.
    + simpl. lia.
  - pose proof (live_bound _ _ _ Hat' Ec Hlen) as Hpos.
    pose proof (iter_at_entry _ _ _ Hat' Ec Hlen) as Hhit.
    destruct (Z.eqb_spec (bi_entry_index it' + 1) (zlen (kb_entries (arc_value entries)))) as [Hl|Hl];
      cbv beta iota zeta.
    + eapply triple_bind; [by apply (triple_ret _ _ _ _ entries (fun a => a = entries) (fun _ => base)
                                     (fun _ => arc_id entries :: hs))|].
      intros ? ->. cbv beta.
      eapply triple_bind; [eapply triple_attempt; exact (triple_record_descriptor f Hf base hs pos _ Hhit Hpos)|].
      intros [d|error] Hd; cbv beta iota; apply triple_ret; try done.
      split; [done|]. split; [done|]. by eapply iter_at_last.
    + eapply triple_bind; [apply triple_arc_clone, list_elem_of_here|]. intros ? ->. cbv beta.
      eapply triple_bind;
        [eapply triple_attempt;
         exact (triple_record_descriptor f Hf base (arc_id entries :: hs) pos _ Hhit Hpos)|].
      intros [d|error] Hd; cbv beta iota; apply triple_ret; try done.
      split; [done|]. split; [done|]. rewrite <- Ec. by eapply iter_at_step.
Qed.

(** What a [for] loop over the iterator collects from position [pos] on. *)
Definition collected {I A} (exhausted : I -> bool) (P : Z -> A -> Prop) (pos : Z)
    (r : list A * option Error * I) : Prop :=
  let '(items, error, it) := r in
  (forall k a, get_at items k = Some a -> P (pos + k) a) /\ exhausted it = true /\
  pos + zlen items <= mdict_len f /\ (error = None -> pos + zlen items = mdict_len f).

Lemma triple_collect {I A} (next : I -> M CoreState (option (A + Error) * I)) (at_ : I -> Z -> Prop)
    (exhausted : I -> bool) (owned : I -> list nat) P base hs fuel it pos base_e hs_e :
  (forall it pos base_e hs_e, at_ it pos ->
     triple max (contracts f) base (owned it ++ hs) (next it) (next_ok_at f at_ exhausted P pos)
       (fun _ => base) (fun r => owned (snd r) ++ hs) base_e hs_e) ->
  at_ it pos -> (Z.to_nat (mdict_len f - pos) < fuel)%nat ->
  triple max (contracts f) base (owned it ++ hs) (collect next fuel it) (collected exhausted P pos)
    (fun _ => base) (fun r => owned (snd r) ++ hs) base_e hs_e.
Proof.
  intros Hnext. revert it pos. induction fuel as [|fuel IH]; intros it pos Hat Hfuel; [lia|].
  cbn [collect]. eapply triple_bind; [by apply Hnext|]. intros [[[a|error]|] it'] Hr; cbv beta iota.
  - destruct Hr as (Hpos & Ha & Hat'). eapply triple_bind; [apply (IH it' (pos + 1)); [done|lia]|].
    intros [[items error] it''] (Hitems & Hd & Hb & Hc). cbv beta iota. apply triple_ret; [|done|done].
    assert (zlen (a :: items) = 1 + zlen items) as Hz by (rewrite length_cons; lia).
    split; [|split; [done|split; [lia|intros Herr; specialize (Hc Herr); lia]]].
    intros k b Hk. destruct (Z.eq_dec k 0) as [->|].
    + simpl in Hk. injection Hk as <-. by rewrite Z.add_0_r.
    + pose proof (get_at_Some _ _ _ Hk). replace (pos + k) with (pos + 1 + (k - 1)) by lia.
      apply Hitems. unfold get_at in *. rewrite (proj2 (Z.leb_le 0 k)) in Hk by lia.
      rewrite (proj2 (Z.leb_le 0 (k - 1))) by lia.
      replace (Z.to_nat k) with (Datatypes.S (Z.to_nat (k - 1))) in Hk by lia. done.
  - destruct Hr as [Hpos Hd]. apply triple_ret; [|done|done]. split_and!; [by intros [] ?|done|cbn [length]; lia|intros; cbn [length]; first [done|lia]].
  - destruct Hr as [Hpos Hd]. apply triple_ret; [|done|done]. split_and!; [by intros [] ?|done|cbn [length]; lia|intros; cbn [length]; first [done|lia]].
Qed.

Lemma iter_at_new : iter_at f block_iter_new 0.
Proof. split_and!; try done. unfold key_block_count. simpl. lia. Qed.

Lemma core_ok_drop_iter base hs s it :
  core_ok max (contracts f) base (iter_handles it ++ hs) s ->
  core_ok max (contracts f) base hs (drop_iter it s).
Proof.
  unfold iter_handles, drop_iter. destruct (bi_current_block it); [|done]. apply core_ok_arc_drop.
Qed.

End IterProofs.

(** * Properties *)

(** Collected items agree with the list that the whole file decodes to. *)
Lemma collected_rows {I A} (g : Z -> option A) P f (exhausted : I -> bool) items error it :
  (forall pos a, 0 <= pos -> P pos a -> Some a = g pos) ->
  collected f exhausted P 0 (items, error, it) -> map Some items = map g (seqZ 0 (zlen items)).
Proof.
  intros HP (Hitems & _). apply list_eq. intros i. rewrite !list_lookup_fmap.
  destruct (items !! i) as [a|] eqn:Ea; simpl.
  - pose proof (lookup_lt_Some _ _ _ Ea). rewrite lookup_seqZ_lt by lia. simpl.
    f_equal. rewrite Z.add_0_l. apply HP; [lia|]. apply (Hitems (Z.of_nat i)). unfold get_at.
    rewrite (proj2 (Z.leb_le 0 _)) by lia. by rewrite Nat2Z.id.
  - apply lookup_ge_None in Ea. by rewrite lookup_seqZ_ge by lia.
Qed.

(** Iterating the keys terminates and never panics.  The items are the
    entries 0, 1, 2, ... of the file in order; without an error they are all
    of them, and in a stable file that decodes to [rows] the k-th item is
    [rows[k]].  An iterator that has ended stays ended, and dropping it gives
    back every handle and reservation. *)
Theorem key_iter_correct `{EnvOk} f base hs s :
  file_ok f -> state_ok f base hs s ->
  wpM (collect (key_next f) (S (Z.to_nat (mdict_len f))) block_iter_new) s
    (fun '(items, error, it) s' =>
      (forall k e, get_at items k = Some e -> key_answer f k (Some e)) /\
     (error = None -> zlen items = mdict_len f) /\
     (forall content modified rows, stable (mf_source f) content modified ->
         all_rows f content = Ok rows ->
         map Some items = map (fun o => row_entry o <$> get_at rows o) (seqZ 0 (zlen items))) /\
     key_next f it s' = (Ok (None, it), s') /\ state_ok f base hs (drop_iter it s'))
    (fun _ _ => False).
Proof.
  intros Hf Hs.
  pose proof (triple_collect f (key_next f) (iter_at f) bi_done iter_handles
    (fun pos e => key_answer f pos (Some e)) base hs
    (S (Z.to_nat (mdict_len f))) block_iter_new 0 (-1) []) as Ht.
  eapply wpM_mono; [apply Ht; [|by apply iter_at_new|lia|exact Hs]| |by intros ? ? (_ & _ & ? & _)].
  { intros. by apply triple_key_next. }
  intros [[items error] it] s' [Hc Hs']. cbv beta iota. destruct (id Hc) as (Hi & Hd & _ & He).
  split; [intros k e Hk; apply (Hi _ _ Hk)|]. split; [exact He|]. split.
  { intros content modified rows Hst Hrows. eapply collected_rows; [|exact Hc].
    intros pos e Hpos Hk. by eapply (key_answer_rows f content modified rows pos (Some e)). }
  split; [unfold key_next; by rewrite Hd|]. by apply core_ok_drop_iter.
Qed.

(** Iterating the records visits every entry once, in order, across the
    blocks: the k-th item is the descriptor of entry k, so consecutive items
    tile the decoded stream.  The iteration terminates, never panics, stays
    ended, and gives its handles back when it is dropped. *)
Theorem record_iter_correct `{EnvOk} f base hs s :
  file_ok f -> state_ok f base hs s ->
  wpM (collect (record_next f) (S (Z.to_nat (mdict_len f))) block_iter_new) s
    (fun '(items, error, it) s' =>
      (forall k d, get_at items k = Some d -> descriptor_ok f k d) /\
     (error = None -> zlen items = mdict_len f) /\
     (forall content modified rows, stable (mf_source f) content modified ->
         all_rows f content = Ok rows ->
         map Some items =
           map (row_descriptor (vl_total_decoded_record_len (mf_layout f)) rows) (seqZ 0 (zlen items))) /\
     record_next f it s' = (Ok (None, it), s') /\ state_ok f base hs (drop_iter it s'))
    (fun _ _ => False).
Proof.
  intros Hf Hs.
  pose proof (triple_collect f (record_next f) (iter_at f) bi_done iter_handles (descriptor_ok f) base hs
    (S (Z.to_nat (mdict_len f))) block_iter_new 0 (-1) []) as Ht.
  eapply wpM_mono; [apply Ht; [|by apply iter_at_new|lia|exact Hs]| |by intros ? ? (_ & _ & ? & _)].
  { intros. by apply triple_record_next. }
  intros [[items error] it] s' [Hc Hs']. cbv beta iota. destruct (id Hc) as (Hi & Hd & _ & He).
  split; [intros k e Hk; apply (Hi _ _ Hk)|]. split; [exact He|]. split.
  { intros content modified rows Hst Hrows. eapply collected_rows; [|exact Hc].
    intros pos d Hpos Hk. by eapply descriptor_ok_rows. }
  split; [unfold record_next; by rewrite Hd|]. by apply core_ok_drop_iter.
Qed.

Example key_iter_witness :
  wpM (collect (@key_next simple_env sample_file) 5 block_iter_new) sample_state
    (fun '(items, error, it) s' => @state_ok simple_env sample_file sample_base [] (drop_iter it s'))
    (fun _ _ => False) /\
 match fst (collect (@key_next simple_env sample_file) 5 block_iter_new sample_state) with
  | Ok (items, error, _) => map Some items = take 4 sample_entries /\ error = None
  | _ => False
  end.
Proof.
  split; [|vm_compute; split; reflexivity].
  eapply wpM_mono; [apply (@key_iter_correct simple_env simple_env_ok sample_file sample_base []
    sample_state (proj1 sample_ok) (proj2 sample_ok))| |done].
  intros [[items error] it] s' (_ & _ & _ & _ & Hs). exact Hs.
Defined.

Example record_iter_witness :
  wpM (collect (@record_next simple_env sample_file) 5 block_iter_new) sample_state
    (fun '(items, error, it) s' => @state_ok simple_env sample_file sample_base [] (drop_iter it s'))
    (fun _ _ => False) /\
 match fst (collect (@record_next simple_env sample_file) 5 block_iter_new sample_state) with
  | Ok (items, error, _) => map (fun d => (rd_start d, rd_end d)) items = [(0, 3); (3, 12); (12, 14); (14, 21)]
  | _ => False
  end.
Proof.
  split; [|vm_compute; reflexivity].
  eapply wpM_mono; [apply (@record_iter_correct simple_env simple_env_ok sample_file sample_base []
    sample_state (proj1 sample_ok) (proj2 sample_ok))| |done].
  intros [[items error] it] s' (_ & _ & _ & _ & Hs). exact Hs.
Defined.
