(* ===== verification/Locator.v ===== *)
(** The construction of the in-memory index: [build_key_locator] and
    [key_locator] of [src/core/locator.rs].  The index is built once, from all
    key blocks in physical order, and shared by every lookup. *)

From stdpp Require Import list_numbers sorting.
From S2P Require Import Prelude Errors Types Budget Utf8 Encoding Source Descriptors Header KeySection Format Normalize LocatorIndex Samples Arcs Core Dictionary SampleDictionary Keys.

(** * Building the index *)

(** The local variables of [build_key_locator]; the reservation is its size. *)
Record LocatorBuilder := {
  lb_text : text;
  lb_bounds : list Z;
  lb_digests : list Z;
  lb_estimated : Z;
  lb_previous : option Z;
  lb_memory : Z;
}.

(** A computation on the state and the local variables.  A failure leaves the
    variables too, because their reservation is dropped behind it. *)
Definition Build (A : Type) : Type := M (CoreState * LocatorBuilder) A.

Definition in_core {A} (m : M CoreState A) : Build A := fun '(s, b) =>
  let (r, s) := m s in (r, (s, b)).

Definition get_builder : Build LocatorBuilder := fun '(s, b) => (Ok b, (s, b)).

Definition put_builder (b : LocatorBuilder) : Build unit := fun '(s, _) => (Ok tt, (s, b)).

(** A scope that owns a handle. *)
Definition building_with {A B} (arc : Arc A) (body : Build B) : Build B := fun sb =>
  match body sb with (r, (s, b)) => (r, (arc_drop arc s, b)) end.

Section Locator.

Context `{Env} (f : MdictFile).

(** [enforce_locator_size] and the checks on one row of the inner loop. *)
Definition check_record_start (previous : option Z) (start : Z) : Result unit :=
  if vl_total_decoded_record_len (mf_layout f) <? start
  then Err (InvalidData ("record start " +++ fmt_dec start +++ " exceeds total record bytes "
                         +++ fmt_dec (vl_total_decoded_record_len (mf_layout f)))%string)
  else match previous with
       | Some previous =>
           if start <? previous
           then Err (InvalidData ("record starts decrease from " +++ fmt_dec previous +++ " to "
                                  +++ fmt_dec start)%string)
           else Ok tt
       | None => Ok tt
       end.

(** One round of the inner loop of [build_key_locator]. *)
Definition build_row (entry : DecodedKeyRow) : Build unit :=
  let! b := get_builder in
  let! _ := lift (check_record_start (lb_previous b) (record_start entry)) in
  let! normalized_len := lift (normalized_len (mf_normalizer f) (row_key entry)) in
  let! estimated := lift (ok_or (checked_add (lb_estimated b) normalized_len)
                            (InvalidFormat "key locator size overflow")) in
  let! _ := lift (enforce_locator_size estimated (locator_bytes (mf_limits f))) in
  let! memory := in_core (grow (lb_memory b) normalized_len) in
  let! _ := put_builder {| lb_text := lb_text b; lb_bounds := lb_bounds b;
                           lb_digests := lb_digests b; lb_estimated := estimated;
                           lb_previous := Some (record_start entry); lb_memory := memory |} in
  let! _ := lift (try_reserve_string (zlen (lb_text b)) normalized_len "key locator text") in
  let text := normalize_into (mf_normalizer f) (row_key entry) (lb_text b) in
  let! bound := lift (ok_or (try_u32 (zlen text)) (InvalidFormat "key locator text exceeds u32")) in
  put_builder {| lb_text := text; lb_bounds := lb_bounds b ++ [bound];
                 lb_digests := lb_digests b ++ [raw_digest (row_key entry)];
                 lb_estimated := estimated; lb_previous := Some (record_start entry);
                 lb_memory := memory |}.

Fixpoint build_rows (entries : list DecodedKeyRow) : Build unit :=
  match entries with
  | [] => mret tt
  | entry :: entries => let! _ := build_row entry in build_rows entries
  end.

(** The check behind each block. *)
Definition check_row_count (block : KeyBlockDescriptor) (block_index rows : Z) : Result unit :=
  let? end_ := ok_or (checked_add (entry_start_index block) (entry_count block))
                 (InvalidFormat "keyword entry count overflow") in
  let? expected_end := ok_or (try_usize end_) (InvalidFormat "keyword entry count exceeds usize") in
  if negb (rows =? expected_end)
  then Err (InvalidData ("locator row count mismatch after block " +++ fmt_dec block_index
                         +++ ": expected " +++ fmt_dec expected_end +++ ", decoded "
                         +++ fmt_dec rows)%string)
  else Ok tt.

(** One round of the outer loop. *)
Definition build_block (block_index : Z) : Build unit :=
  let! block := lift (ok_or (get_at (vl_key_blocks (mf_layout f)) block_index)
                        (InvalidFormat "key block index out of range")) in
  let! entries := in_core (decode_key_block f block_index) in
  building_with entries (
    let! _ := build_rows (kb_entries (arc_value entries)) in
    let! b := get_builder in
    lift (check_row_count block block_index (zlen (lb_digests b)))).

Fixpoint build_blocks (block_indexes : list Z) : Build unit :=
  match block_indexes with
  | [] => mret tt
  | block_index :: block_indexes =>
      let! _ := build_block block_index in build_blocks block_indexes
  end.

(** The loop that pushes the rows before they are sorted. *)
Fixpoint push_indexes (indexes : list Z) : Result (list Z) :=
  match indexes with
  | [] => Ok []
  | index :: indexes =>
      let? index := ok_or (try_u32 index) (InvalidFormat "locator row index exceeds u32") in
      let? order := push_indexes indexes in
      Ok (index :: order)
  end.

(** The end of [build_key_locator]. *)
Definition finish_locator (entry_count : Z) (b : LocatorBuilder) : Result KeyLocator :=
  if negb (zlen (lb_digests b) =? entry_count)
  then Err (InvalidData ("locator row count mismatch: expected " +++ fmt_dec entry_count
                         +++ ", decoded " +++ fmt_dec (zlen (lb_digests b)))%string)
  else
    try_reserve_vec 0 size_of_u32 entry_count "normalized locator index" ;;?
    let? order := push_indexes (seqZ 0 entry_count) in
    Ok {| kl_text := lb_text b; kl_bounds := lb_bounds b;
          kl_order := sort_rows (compare_rows (lb_text b) (lb_bounds b)) order;
          kl_raw_digest := lb_digests b; kl_memory := lb_memory b |}.

(** The rows and the bytes that do not depend on the text. *)
Definition locator_sizes : Result (Z * Z) :=
  let maximum_entries := Z.min (locator_entries (mf_limits f)) u32_max in
  if maximum_entries <? mdict_len f
  then Err (LimitExceeded "locator_entries" (mdict_len f) maximum_entries)
  else
    let? entry_count := checked_usize (mdict_len f) "locator entry count" in
    let? bound_slots := ok_or (checked_add entry_count 1)
                          (InvalidFormat "key locator size overflow") in
    let? order_and_digest_slots := ok_or (checked_mul entry_count 2)
                                     (InvalidFormat "key locator size overflow") in
    let? fixed_bytes := ok_or (slots ← checked_add bound_slots order_and_digest_slots;
                               checked_mul slots size_of_u32)
                          (InvalidFormat "key locator size overflow") in
    enforce_locator_size fixed_bytes (locator_bytes (mf_limits f)) ;;?
    Ok (entry_count, fixed_bytes).

(** The part of [build_key_locator] that owns the growing reservation. *)
Definition fill_locator (entry_count : Z) : Build KeyLocator :=
  let! _ := lift (try_reserve_vec 0 size_of_u32 (entry_count + 1) "key locator bounds") in
  let! _ := lift (try_reserve_vec 0 size_of_u32 entry_count "key locator raw digests") in
  let! _ := build_blocks (seqZ 0 (key_block_count f)) in
  let! b := get_builder in
  lift (finish_locator entry_count b).

(** [build_key_locator] *)
Definition build_key_locator : M CoreState KeyLocator :=
  let! '(entry_count, fixed_bytes) := lift locator_sizes in
  let! retained_memory := reserve fixed_bytes in
  fun s =>
    match fill_locator entry_count
            (s, {| lb_text := []; lb_bounds := [0]; lb_digests := [];
                   lb_estimated := fixed_bytes; lb_previous := None;
                   lb_memory := retained_memory |}) with
    | (Ok locator, (s, _)) => (Ok locator, s)
    | (r, (s, b)) => (r, drop_reservation (lb_memory b) s)
    end.

(** [cached_locator] *)
Definition cached_locator (value : CachedValue KeyLocator) : M CoreState (Arc KeyLocator) :=
  match value with
  | Ready locator => arc_clone locator
  | Failed error => merr (replay error)
  end.

(** [key_locator]; the second look at the cell is the one behind the lock. *)
Definition key_locator : M CoreState (Arc KeyLocator) :=
  let! cell := read_state cs_locator in
  match cell with
  | Some value => cached_locator value
  | None =>
      let! cell := read_state cs_locator in
      match cell with
      | Some value => cached_locator value
      | None =>
          let! result := attempt build_key_locator in
          match result with
          | inl locator =>
              let! locator := arc_new locator (kl_memory locator) in
              let! cached := arc_clone locator in
              let! _ := set_locator (Ready cached) in
              mret locator
          | inr error =>
              let! cached := capture error in
              let! _ := match cached with
                        | Some cached => set_locator (Failed cached)
                        | None => mret tt
                        end in
              merr error
          end
      end
  end.

End Locator.

(** * The index is built *)

Lemma offsets_from_snoc `{Env} n start keys key :
  offsets_from n start (keys ++ [key]) =
  offsets_from n start keys ++ [start + zlen (arena n (keys ++ [key]))].
Proof.
  revert start; induction keys as [|k keys IH]; intros start; cbn [offsets_from app].
  - unfold arena. simpl. by rewrite app_nil_r.
  - rewrite IH. f_equal. f_equal. f_equal. unfold arena. simpl. rewrite (length_app (normalized n k)). lia.
Qed.

Lemma arena_snoc `{Env} n keys key : arena n (keys ++ [key]) = arena n keys ++ normalized n key.
Proof. unfold arena. rewrite map_app, concat_app. simpl. by rewrite app_nil_r. Qed.

Section LocatorProofs.

Context `{EnvOk} (f : MdictFile) (Hf : file_ok f).

Let max := working_memory_bytes (mf_limits f).

(** The caller holds [base] and [hs], the builder its reservation. *)
Definition build_ok (base : Z) (hs : list nat) (sb : CoreState * LocatorBuilder) : Prop :=
  0 <= base /\ 0 <= lb_memory (snd sb) /\
  core_ok max (contracts f) (base + lb_memory (snd sb)) hs (fst sb).

(** From builders in [P], [m] leaves builders in [Q]. *)
Definition builds {A} (m : Build A) (P : LocatorBuilder -> Prop) (Q : A -> LocatorBuilder -> Prop)
    : Prop :=
  forall base hs sb, build_ok base hs sb -> P (snd sb) ->
    wpM m sb (fun a sb' => Q a (snd sb') /\ build_ok base hs sb') (fun _ => build_ok base hs).

Lemma builds_bind {A B} (m : Build A) (k : A -> Build B) P Q R :
  builds m P Q -> (forall a, builds (k a) (Q a) R) -> builds (Errors.mbind m k) P R.
Proof.
  intros Hm Hk base hs sb Hs HP. apply wpM_bind. eapply wpM_mono; [by apply Hm| |done].
  intros a sb' [? ?]. by apply Hk.
Qed.

Lemma builds_lift {A} (r : Result A) (P : LocatorBuilder -> Prop) (Q : A -> LocatorBuilder -> Prop) :
  (forall b, P b -> wp r (fun a => Q a b)) -> builds (lift r) P Q.
Proof.
  intros Hr base hs sb Hs HP. apply wpM_lift; [|done]. eapply wp_mono; [by apply Hr|]. done.
Qed.

Lemma builds_mono {A} (m : Build A) (P P' : LocatorBuilder -> Prop) (Q Q' : A -> LocatorBuilder -> Prop) :
  builds m P Q -> (forall b, P' b -> P b) -> (forall a b, Q a b -> Q' a b) -> builds m P' Q'.
Proof.
  intros Hm HP HQ base hs sb Hs HP'. eapply wpM_mono; [apply (Hm base hs sb Hs); auto| |done].
  intros a sb' [? ?]. auto.
Qed.

Lemma builds_keeps {A} (m : M CoreState A) P (R : A -> Prop) :
  keeps max (contracts f) m R -> builds (in_core m) P (fun a b => R a /\ P b).
Proof.
  intros Hm base hs [s b] (Hbase & Hb & Hs) HP. specialize (Hm _ _ _ Hs). unfold wpM, in_core in *.
  cbn [snd fst] in *. destruct (m s) as [[a|e| |] s']; try done.
  destruct Hm as [? Hm]. split; [done|]. by split.
Qed.

(** Growing the reservation of the builder. *)
Lemma build_grow base hs s b additional estimated start :
  build_ok base hs (s, b) -> 0 <= additional ->
  wpM (let! memory := in_core (grow (lb_memory b) additional) in
       put_builder {| lb_text := lb_text b; lb_bounds := lb_bounds b; lb_digests := lb_digests b;
                      lb_estimated := estimated; lb_previous := Some start; lb_memory := memory |}) (s, b)
    (fun _ sb' => snd sb' = {| lb_text := lb_text b; lb_bounds := lb_bounds b;
        lb_digests := lb_digests b; lb_estimated := estimated; lb_previous := Some start;
        lb_memory := lb_memory b + additional |} /\ build_ok base hs sb')
    (fun _ => build_ok base hs).
Proof.
  intros (Hbase & Hb & Hs) Ha. simpl in *. apply wpM_bind. unfold in_core, wpM, grow, Errors.mbind, lift.
  unfold checked_add. destruct (Z.leb_spec (lb_memory b + additional) u64_max); simpl; [|by split_and!].
  pose proof (triple_reserve max (contracts f) (base + lb_memory b) hs additional Ha s Hs) as Hr.
  unfold wpM in Hr. destruct (reserve additional s) as [[n|e| |] s']; try done.
  destruct Hr as [_ Hr]. split; [done|]. split_and!; simpl; [done|lia|]. by rewrite Z.add_assoc.
Qed.

(** The builder has processed [keys]. *)
Definition builder_at (keys : list text) (b : LocatorBuilder) : Prop :=
  lb_text b = arena (mf_normalizer f) keys /\
  lb_bounds b = offsets_from (mf_normalizer f) 0 keys /\
  lb_digests b = map raw_digest keys.

Lemma builds_row keys entry :
  builds (build_row f entry) (builder_at keys) (fun _ => builder_at (keys ++ [row_key entry])).
Proof.
  intros base hs [s b] Hs (Ht & Hb & Hd). cbn [snd] in Ht, Hb, Hd. unfold build_row. apply wpM_bind.
  unfold get_builder at 1, wpM at 1. apply wpM_bind, wpM_lift; [|done].
  unfold check_record_start. apply wp_if; intros _; [done|].
  assert (forall Q : unit -> Prop, Q tt -> wp (match lb_previous b with
     | Some previous => if record_start entry <? previous
         then Err (InvalidData ("record starts decrease from " +++ fmt_dec previous +++ " to "
                                +++ fmt_dec (record_start entry))%string) else Ok tt
     | None => Ok tt end) Q) as Hprev by (intros Q ?; destruct (lb_previous b); [by destruct (_ <? _)|done]).
  apply Hprev. apply wpM_bind, wpM_lift; [|done].
  eapply wp_mono; [apply wp_normalized_len|]. intros len [Hlen ?].
  apply wpM_bind, wpM_lift; [|done]. apply wp_ok_or. intros estimated _.
  apply wpM_bind, wpM_lift; [|done]. apply wp_enforce_locator_size. intros _.
  pose proof (build_grow base hs s b len estimated (record_start entry) Hs ltac:(lia)) as Hg.
  unfold Errors.mbind, wpM in Hg |- *. destruct (in_core _ _) as [[memory|e| |] [s2 b2]]; try done.
  unfold put_builder in Hg |- *. cbn [fst snd] in Hg. destruct Hg as [Eb Hs2]. injection Eb as ->.
  unfold lift at 1. destruct (try_reserve_string _ _ _) as [[]|e| |] eqn:Er; try done.
  all: try (pose proof (wp_try_reserve_string (zlen (lb_text b)) len "key locator text" (fun _ => True) I) as Hw;
            by rewrite Er in Hw).
  unfold lift, ok_or. destruct (try_u32 _) as [bound|] eqn:Eu; [|done].
  apply try_u32_Some in Eu as [-> _].
  split; [|exact Hs2]. split_and!; simpl.
  - by rewrite normalize_into_spec, arena_snoc, Ht.
  - rewrite Hb, offsets_from_snoc. do 2 f_equal. by rewrite normalize_into_spec, arena_snoc, Ht.
  - by rewrite Hd, map_app.
Qed.

Lemma builds_rows keys entries :
  builds (build_rows f entries) (builder_at keys) (fun _ => builder_at (keys ++ map row_key entries)).
Proof.
  revert keys; induction entries as [|entry entries IH]; intros keys; cbn [build_rows].
  - rewrite app_nil_r. intros base hs sb Hs Hb. done.
  - eapply builds_bind; [apply builds_row|]. intros []. cbv beta.
    specialize (IH (keys ++ [row_key entry])). rewrite <- app_assoc in IH. exact IH.
Qed.

(** The rows of the first [i] blocks. *)
Definition blocks_at (i : nat) (blocks : list (list DecodedKeyRow)) (b : LocatorBuilder) : Prop :=
  builder_at (map row_key (concat blocks)) b /\ Forall (fun row => text_ok (row_key row)) (concat blocks) /\
  forall content modified, stable (mf_source f) content modified ->
    Forall2 (fun block rows => block_rows f content block = Ok rows)
      (take i (vl_key_blocks (mf_layout f))) blocks.

Lemma builds_block (i : nat) :
  builds (build_block f (Z.of_nat i)) (fun b => exists blocks, blocks_at i blocks b)
    (fun _ b => exists blocks, blocks_at (Datatypes.S i) blocks b).
Proof.
  intros base hs [s b] Hs [blocks (Hb & Ht & Hst)]. unfold build_block.
  apply wpM_bind, wpM_lift; [|done]. apply wp_ok_or. intros block Hblk.
  apply wpM_bind. destruct (id Hs) as (Hbase & Hm & Hcore). simpl in Hm, Hcore.
  pose proof (acquires_decode_key_block f Hf (Z.of_nat i) _ _ s Hcore) as Hd. fold max in Hd.
  unfold in_core, wpM in Hd |- *.
  destruct (decode_key_block f (Z.of_nat i) s) as [[entries|e| |] s1]; try done.
  destruct Hd as [[Hkb _] Hs1]. assert (build_ok base (arc_id entries :: hs) (s1, b)) as Hs1' by done.
  destruct Hkb as (block' & Hblk' & (Hlen & Hrows & _) & _ & Hsrows).
  assert (block' = block) as -> by congruence.
  pose proof (builds_rows (map row_key (concat blocks)) (kb_entries (arc_value entries)) _ _ _ Hs1' Hb) as Hr.
  unfold building_with, Errors.mbind, wpM in Hr |- *.
  assert (forall s b, build_ok base (arc_id entries :: hs) (s, b) -> build_ok base hs (arc_drop entries s, b)) as Hdrop.
  { intros s0 b0 (? & ? & ?). split_and!; [done|done|]. by apply core_ok_arc_drop. }
  destruct (build_rows f _ _) as [[[]|e| |] [s2 b2]]; try done; [|by apply Hdrop].
  destruct Hr as [Hb2 Hs2]. simpl in Hb2. unfold get_builder, lift.
  destruct (check_row_count block (Z.of_nat i) (zlen (lb_digests b2))) as [[]|e| |] eqn:Ec.
  - split; [|by apply Hdrop]. exists (blocks ++ [kb_entries (arc_value entries)]). split_and!; simpl.
    + rewrite concat_app, map_app. simpl. by rewrite app_nil_r.
    + rewrite concat_app. simpl. rewrite app_nil_r. apply Forall_app. split; [done|].
      eapply Forall_impl; [exact Hrows|]. by intros row [? _].
    + intros content modified Hs'. apply get_at_lookup in Hblk as [Hblk _]. rewrite Nat2Z.id in Hblk.
      rewrite (take_S_r _ _ _ Hblk). apply Forall2_app; [by eapply Hst|].
      constructor; [|done]. by eapply Hsrows.
  - by apply Hdrop.
  - assert (wp (check_row_count block (Z.of_nat i) (zlen (lb_digests b2))) (fun _ => True)) as Hw
      by (unfold check_row_count; wp_steps; done). by rewrite Ec in Hw.
  - assert (wp (check_row_count block (Z.of_nat i) (zlen (lb_digests b2))) (fun _ => True)) as Hw
      by (unfold check_row_count; wp_steps; done). by rewrite Ec in Hw.
Qed.

Lemma builds_blocks (i k : nat) :
  builds (build_blocks f (seqZ (Z.of_nat i) (Z.of_nat k))) (fun b => exists blocks, blocks_at i blocks b)
    (fun _ b => exists blocks, blocks_at (i + k) blocks b).
Proof.
  revert i; induction k as [|k IH]; intros i.
  - rewrite Nat.add_0_r. intros base hs sb Hs Hb. done.
  - rewrite seqZ_cons by lia. cbn [build_blocks]. eapply builds_bind; [apply builds_block|].
    intros []. cbv beta. specialize (IH (Datatypes.S i)).
    replace (Datatypes.S i + k)%nat with (i + Datatypes.S k)%nat in IH by lia.
    replace (Z.succ (Z.of_nat i)) with (Z.of_nat (Datatypes.S i)) by lia.
    replace (Z.pred (Z.of_nat (Datatypes.S k))) with (Z.of_nat k) by lia. exact IH.
Qed.

Lemma push_indexes_spec l : wp (push_indexes l) (fun order => order = l).
Proof.
  induction l as [|i l IH]; [done|]. cbn [push_indexes]. wp_step. wp_step.
  destruct (try_u32 i) eqn:E; [|done]. rinv. apply wp_bind. eapply wp_mono; [exact IH|].
  intros order ->. simpl. congruence.
Qed.

(** The finished index describes the keys the builder has processed. *)
Lemma wp_finish_locator n keys b :
  builder_at keys b ->
  wp (finish_locator n b) (fun l =>
    locator_of (mf_normalizer f) keys l /\ zlen keys = n /\ kl_memory l = lb_memory b).
Proof.
  intros (Ht & Hb & Hd). unfold finish_locator. wp_step; [done|]. zbool.
  apply wp_bind, wp_try_reserve_vec. apply wp_bind. eapply wp_mono; [apply push_indexes_spec|].
  intros order ->. simpl. rewrite Hd, length_map in *. subst n.
  destruct (merge_sort_rows (mf_normalizer f) keys (seqZ 0 (zlen keys))) as [Hp Hs].
  { apply Forall_seqZ. lia. }
  rewrite Ht, Hb. by split_and!.
Qed.

Lemma builds_fill_locator :
  mdict_len f <= u32_max ->
  builds (fill_locator f (mdict_len f))
    (fun b => lb_text b = [] /\ lb_bounds b = [0] /\ lb_digests b = [])
    (fun l b => locator_at f l /\ kl_memory l = lb_memory b).
Proof.
  intros Hmax. unfold fill_locator.
  eapply (builds_bind _ _ _ (fun _ b => exists blocks, blocks_at 0 blocks b)).
  { apply builds_lift. intros b (Ht & Hb & Hd). apply wp_try_reserve_vec. exists []. by split_and!. }
  intros []. eapply (builds_bind _ _ _ (fun _ b => exists blocks, blocks_at 0 blocks b)).
  { apply builds_lift. intros b Hb. by apply wp_try_reserve_vec. }
  intros []. eapply builds_bind; [apply (builds_blocks 0)|]. intros []. cbv beta.
  intros base hs [s b] Hs [blocks (Hb & Ht & Hst)]. cbn [snd] in *. apply wpM_bind. unfold get_builder at 1, wpM at 1.
  apply wpM_lift; [|done]. eapply wp_mono; [by apply wp_finish_locator|]. intros l (Hl & Hz & Hm).
  split; [|done]. split; [|done]. eexists. split; [exact Hl|]. split; [done|]. split; [lia|]. split.
  { by apply Forall_map. }
  intros content modified Hs'. exists (concat blocks). split; [|done].
  specialize (Hst _ _ Hs'). rewrite take_ge in Hst by (unfold key_block_count; lia).
  apply decode_all_Forall2 in Hst. unfold all_rows. by rewrite Hst.
Qed.

Lemma wp_locator_sizes :
  wp (locator_sizes f) (fun '(n, fixed) => n = mdict_len f /\ mdict_len f <= u32_max /\ 0 <= fixed).
Proof.
  destruct Hf as (_ & _ & Hl & _). destruct (layout_key_blocks _ _ _ _ Hl) as (_ & [Hlen _] & _).
  unfold locator_sizes. wp_steps. rinv. apply wp_enforce_locator_size. intros _. simpl.
  fold (mdict_len f) in Hlen. split_and!; [done|lia|].
  match goal with E : _ ≫= _ = Some _ |- _ => apply bind_Some in E as (slots & ? & ?) end.
  rinv. unfold size_of_u32 in *. lia.
Qed.

Lemma triple_build_key_locator base hs :
  0 <= base ->
  triple max (contracts f) base hs (build_key_locator f)
    (fun l => locator_at f l /\ 0 <= kl_memory l) (fun l => base + kl_memory l) (fun _ => hs) base hs.
Proof.
  intros Hbase. unfold build_key_locator.
  eapply triple_bind; [apply triple_lift, wp_locator_sizes|]. intros [n fixed] (-> & Hmax & Hfixed). cbv beta iota.
  eapply triple_bind; [by apply triple_reserve|]. intros ? ->. cbv beta. intros s Hs.
  set (b0 := {| lb_text := []; lb_bounds := [0]; lb_digests := []; lb_estimated := fixed;
                lb_previous := None; lb_memory := fixed |}).
  pose proof (builds_fill_locator Hmax base hs (s, b0) (conj Hbase (conj Hfixed Hs)) ltac:(done)) as Hb.
  unfold wpM in *. destruct (fill_locator f (mdict_len f) (s, b0)) as [[l|e| |] [s' b']]; try done.
  - destruct Hb as ([Hl E] & _ & ? & Hs'). cbn [fst snd] in *. rewrite E. by split_and!.
  - destruct Hb as (_ & ? & Hs'). by apply core_ok_drop.
Qed.

(** The index of the dictionary: built once, then shared. *)
Lemma acquires_key_locator : acquires max (contracts f) (key_locator f) (locator_at f).
Proof.
  intros base hs s Hs. destruct (id Hs) as (_ & _ & Hbase & _). unfold key_locator.
  apply wpM_bind. unfold read_state at 1, wpM at 1.
  destruct (cs_locator s) as [value|] eqn:Ec.
  { unfold cached_locator. destruct value as [locator|failure]; [|by apply triple_err].
    split.
    - destruct Hs as (_ & _ & _ & _ & _ & _ & _ & Hc). by rewrite Ec in Hc.
    - apply core_ok_clone; [done|]. apply elem_of_app. left. unfold cache_handles. rewrite Ec.
      simpl. rewrite !elem_of_app. right. right. apply list_elem_of_here. }
  apply wpM_bind. unfold read_state at 1, wpM at 1. rewrite Ec. clear Ec. revert s Hs.
  eapply triple_bind; [by apply triple_attempt, triple_build_key_locator|].
  intros [locator|error] Hl; cbv beta iota.
  - destruct Hl as [Hl Hm]. eapply triple_bind; [by apply (triple_arc_new _ _ _ _ _ _ (locator_at f))|].
    intros arc Ha. cbv beta in *. eapply triple_bind; [apply triple_arc_clone, list_elem_of_here|].
    intros cached ->. cbv beta. eapply triple_bind.
    { pose proof (set_locator_ok max (contracts f) base (arc_id arc :: hs) (Ready arc) base hs Hbase Ha) as Ht.
      simpl in Ht. rewrite Z.add_0_r in Ht. exact Ht. }
    intros [] _. cbv beta. by apply triple_ret.
  - eapply triple_bind; [apply capture_ok|]. intros captured Hcap. cbv beta.
    eapply (triple_bind _ _ _ _ _ _ (fun _ => True) (fun _ => base) (fun _ => hs)).
    { destruct captured as [failure|]; simpl.
      - apply (set_locator_ok max (contracts f) base hs (Failed failure)); [done|exact Hcap].
      - apply triple_ret; [done|lia|done]. }
    intros [] _. cbv beta. apply triple_err.
Qed.

End LocatorProofs.

(** * The cell of the index *)

(** [m] leaves the part [get] of the state as it was. *)
Definition pins {S A X} (get : S -> X) (m : M S A) : Prop := forall s, get (snd (m s)) = get s.

Lemma pins_bind {S A B X} (get : S -> X) (m : M S A) (k : A -> M S B) :
  pins get m -> (forall a, pins get (k a)) -> pins get (Errors.mbind m k).
Proof.
  intros Hm Hk s. specialize (Hm s). unfold Errors.mbind. destruct (m s) as [[a|e| |] s']; try done.
  cbn [snd] in Hm. rewrite <- Hm. apply Hk.
Qed.

Lemma pins_lift {S A X} (get : S -> X) (r : Result A) : pins get (lift r).
Proof. done. Qed.

Lemma pins_ret {S A X} (get : S -> X) (a : A) : pins get (mret a).
Proof. done. Qed.

Lemma pins_err {S A X} (get : S -> X) e : pins get (@merr S A e).
Proof. done. Qed.

Lemma pins_if {S A X} (get : S -> X) (b : bool) (m1 m2 : M S A) :
  pins get m1 -> pins get m2 -> pins get (if b then m1 else m2).
Proof. by destruct b. Qed.

(** Steps on the dictionary that leave the cell of its index alone. *)
Section Cell.

Context `{Env}.

#[local] Notation keeps_cell m := (pins cs_locator m).

Lemma cell_drop_reservation bytes (s : CoreState) : cs_locator (drop_reservation bytes s) = cs_locator s.
Proof. done. Qed.

Lemma cell_arc_drop {A} (arc : Arc A) s : cs_locator (arc_drop arc s) = cs_locator s.
Proof. unfold arc_drop. by destruct (arcs_drop _ _). Qed.

Lemma cell_reserve bytes : keeps_cell (reserve bytes).
Proof. intros s. unfold reserve. by destruct (claim _ _). Qed.

Lemma cell_grow bytes additional : keeps_cell (grow bytes additional).
Proof. apply pins_bind; [done|]. intros n. apply pins_bind; [apply cell_reserve|done]. Qed.

Lemma cell_scoped {A} bytes context (m : M CoreState A) : keeps_cell m -> keeps_cell (scoped bytes context m).
Proof.
  intros Hm. apply pins_bind; [apply cell_reserve|]. intros _ s. specialize (Hm s). by destruct (m s).
Qed.

Lemma cell_retained {A} bytes context (m : M CoreState A) : keeps_cell m -> keeps_cell (retained bytes context m).
Proof.
  intros Hm. apply pins_bind; [apply cell_reserve|]. intros n s. specialize (Hm s). unfold or_drop.
  by destruct (m s) as [[] s'].
Qed.

Lemma cell_access file : keeps_cell (access file).
Proof. intros s. unfold access. by destruct (file _). Qed.

Lemma cell_read_state {A} (get : CoreState -> A) : keeps_cell (read_state get).
Proof. done. Qed.

Lemma cell_arc_new {A} (value : A) bytes : keeps_cell (arc_new value bytes).
Proof. done. Qed.

Lemma cell_arc_clone {A} (arc : Arc A) : keeps_cell (arc_clone arc).
Proof. done. Qed.

Lemma cell_with_arc {A B} (arc : Arc A) (m : M CoreState B) : keeps_cell m -> keeps_cell (with_arc arc m).
Proof.
  intros Hm s. specialize (Hm s). unfold with_arc. destruct (m s) as [r s']. cbn [snd] in *.
  by rewrite cell_arc_drop.
Qed.

Lemma cell_or_drop_arc {A B} (arc : Arc A) (m : M CoreState B) : keeps_cell m -> keeps_cell (or_drop_arc arc m).
Proof.
  intros Hm s. specialize (Hm s). unfold or_drop_arc. destruct (m s) as [[] s']; cbn [snd] in *;
    by rewrite ?cell_arc_drop.
Qed.

Lemma cell_attempt {A} (m : M CoreState A) : keeps_cell m -> keeps_cell (attempt m).
Proof. intros Hm s. specialize (Hm s). unfold attempt. by destruct (m s) as [[] s']. Qed.

Lemma cell_capture e : keeps_cell (capture e).
Proof.
  intros s. unfold capture. destruct (failure_kind e) as [[]|]; try done.
  pose proof (cell_reserve (Z.of_nat (String.length context)) s) as Hr.
  destruct (reserve _ s) as [[] s']; try done. by destruct (try_reserve_string _ _ _).
Qed.

Lemma cell_set_key_block_cache value : keeps_cell (set_key_block_cache value).
Proof.
  intros s. unfold set_key_block_cache. cbn [snd].
  destruct (cs_key_block_cache s) as [[? [arc|failure]]|]; [|done|done]. cbn [drop_cached]. by rewrite cell_arc_drop.
Qed.

(** Goes through a computation step by step. *)
Ltac pin := repeat first
  [ done | apply cell_scoped | apply cell_retained | apply cell_with_arc | apply cell_or_drop_arc
  | apply cell_attempt | apply cell_reserve | apply cell_grow | apply cell_access | apply cell_capture
  | apply cell_set_key_block_cache | apply pins_if | apply pins_bind; [|intros ?; cbv beta] ].

Context (f : MdictFile).

Lemma cell_read_key_block block comp decomp : keeps_cell (read_key_block f block comp decomp).
Proof.
  assert (forall a b, keeps_cell (key_summary_matches f a b)) as Hsum by (intros; unfold key_summary_matches; pin).
  assert (forall source offset len context, keeps_cell (read_exact_at source offset len context)) as Hread
    by (intros; unfold read_exact_at; pin).
  unfold read_key_block. repeat first [apply Hsum|apply Hread|progress pin].
Qed.

Lemma cell_decode_key_block_uncached index : keeps_cell (decode_key_block_uncached f index).
Proof. unfold decode_key_block_uncached. repeat first [apply cell_read_key_block|progress pin]. Qed.

Lemma cell_decode_key_block_miss index : keeps_cell (decode_key_block_miss f index).
Proof.
  unfold decode_key_block_miss. destruct (get_at _ index); [|done].
  pose proof cell_decode_key_block_uncached as Hun.
  repeat first [apply Hun|progress pin]. destruct (cache_hit _ _) as [[]|]; repeat first [apply Hun|progress pin].
Qed.

Lemma cell_decode_key_block index : keeps_cell (decode_key_block f index).
Proof.
  unfold decode_key_block. apply pins_bind; [done|]. intros cache.
  destruct (cache_hit _ index) as [[]|]; [done|done|].
  apply pins_bind; [apply cell_attempt, cell_decode_key_block_miss|]. intros result.
  destruct result as [entries|error]; pin.
  match goal with |- context [match ?r with Some _ => _ | None => _ end] => destruct r end; pin.
Qed.

(** ** The builder *)

#[local] Notation builds_beside m := (pins (fun sb : CoreState * LocatorBuilder => cs_locator (fst sb)) m).

Lemma cell_in_core {A} (m : M CoreState A) : keeps_cell m -> builds_beside (in_core m).
Proof. intros Hm [s b]. specialize (Hm s). unfold in_core. by destruct (m s). Qed.

Lemma cell_get_builder : builds_beside get_builder.
Proof. by intros []. Qed.

Lemma cell_put_builder b : builds_beside (put_builder b).
Proof. by intros []. Qed.

Lemma cell_building_with {A B} (arc : Arc A) (m : Build B) : builds_beside m -> builds_beside (building_with arc m).
Proof.
  intros Hm sb. specialize (Hm sb). unfold building_with. destruct (m sb) as [r [s b]]. cbn [snd fst] in *.
  by rewrite cell_arc_drop.
Qed.

Lemma cell_build_row entry : builds_beside (build_row f entry).
Proof.
  unfold build_row.
  repeat first [apply cell_in_core, cell_grow|apply cell_get_builder|apply cell_put_builder
               |done|apply pins_bind; [|intros ?; cbv beta]].
Qed.

Lemma cell_build_rows entries : builds_beside (build_rows f entries).
Proof. induction entries as [|entry entries IH]; cbn [build_rows]; [done|]. apply pins_bind; [apply cell_build_row|done]. Qed.

Lemma cell_build_blocks indexes : builds_beside (build_blocks f indexes).
Proof.
  induction indexes as [|index indexes IH]; cbn [build_blocks]; [done|]. apply pins_bind; [|done].
  unfold build_block. apply pins_bind; [done|]. intros block.
  apply pins_bind; [apply cell_in_core, cell_decode_key_block|]. intros entries. apply cell_building_with.
  apply pins_bind; [apply cell_build_rows|]. intros _. apply pins_bind; [apply cell_get_builder|done].
Qed.

Lemma cell_build_key_locator : keeps_cell (build_key_locator f).
Proof.
  unfold build_key_locator. apply pins_bind; [done|]. intros [entry_count fixed].
  apply pins_bind; [apply cell_reserve|]. intros memory s.
  assert (builds_beside (fill_locator f entry_count)) as Hfill.
  { unfold fill_locator. do 2 (apply pins_bind; [done|]; intros _). apply pins_bind; [apply cell_build_blocks|].
    intros _. apply pins_bind; [apply cell_get_builder|done]. }
  match goal with |- context [fill_locator f entry_count ?sb] => specialize (Hfill sb) end.
  by destruct (fill_locator _ _ _) as [[] [s' b]].
Qed.

(** ** What a call leaves in the cell *)

(** A remembered failure gives its error back, or, when it has a text of its
    own that cannot be copied, the failure to allocate the copy. *)
Definition replays (failure : CachedFailure) (e : Error) : Prop :=
  replay failure = e \/
  exists size, replay failure = AllocationFailed "replayed deterministic failure" size.

(** A call that failed with [e] left the failure in the cell for every later
    call, or it left the cell empty because the failure of the build cannot be
    remembered. *)
Definition failure_left (s s' : CoreState) (e : Error) : Prop :=
  match cs_locator s' with
  | Some (Ready _) => False
  | Some (Failed failure) => replays failure e /\
      forall later, cs_locator later = cs_locator s' -> key_locator f later = (Err (replay failure), later)
  | None => exists built, build_key_locator f s = (Err e, built) /\ fst (capture e built) = Ok None
  end.

Lemma key_locator_again value s : cs_locator s = Some value -> key_locator f s = cached_locator value s.
Proof. intros E. unfold key_locator, Errors.mbind, read_state. by rewrite E. Qed.

Lemma capture_replays e s failure s' : capture e s = (Ok (Some failure), s') -> replays failure e.
Proof.
  intros Hc. assert (failure_kind e = Some (cf_kind failure)) as Hk.
  { unfold capture in Hc. destruct (failure_kind e) as [[]|]; try done; try by injection Hc as <- _.
    destruct (reserve _ s) as [[n|x|x|] s1]; try done. destruct (try_reserve_string _ _ _); try done.
    by injection Hc as <- _. }
  unfold replays, replay. destruct e; cbn [failure_kind] in Hk; try done; try by (injection Hk as <-; left).
  - injection Hk as <-. destruct (try_reserve_string _ _ _) as [|e| |] eqn:E; auto.
    right. unfold try_reserve_string, reserve_bytes in E. destruct (_ || _); [done|]. injection E as <-. by eexists.
  - destruct (_ =? _)%string; [done|]. injection Hk as <-. by left.
Qed.

Lemma capture_returns e s : exists r, fst (capture e s) = Ok r.
Proof.
  unfold capture. destruct (failure_kind e) as [[]|]; try by eexists.
  destruct (reserve _ s) as [[] s1]; try by eexists. destruct (try_reserve_string _ _ _); by eexists.
Qed.

(** A call with an empty cell: the build decides what the cell becomes. *)
Lemma key_locator_first s :
  cs_locator s = None ->
  match build_key_locator f s with
  | (Ok locator, built) => exists arc s', key_locator f s = (Ok arc, s') /\ arc_value arc = locator /\
      cs_locator s' = Some (Ready arc)
  | (Err e, built) => exists s', key_locator f s = (Err e, s') /\
      match fst (capture e built) with
      | Ok (Some failure) => cs_locator s' = Some (Failed failure)
      | _ => cs_locator s' = None
      end
  | (Panic site, built) => key_locator f s = (Panic site, built)
  | (OutOfFuel, built) => key_locator f s = (OutOfFuel, built)
  end.
Proof.
  intros E. pose proof (cell_build_key_locator s) as Hcell. rewrite E in Hcell.
  unfold key_locator, Errors.mbind, read_state, attempt. cbv iota. rewrite !E.
  destruct (build_key_locator f s) as [[locator|e| |] built]; cbn [snd] in Hcell; try done.
  - eexists _, _. split; [reflexivity|]. split; [done|]. cbn. by rewrite Hcell.
  - pose proof (capture_returns e built) as [r Hr]. pose proof (cell_capture e built) as Hc. rewrite Hcell in Hc.
    destruct (capture e built) as [r' s1]. cbn [fst snd] in *. subst r'.
    destruct r as [failure|]; eexists; (split; [reflexivity|]); [|exact Hc].
    unfold set_locator. cbn [snd]. by rewrite Hc.
Qed.

(** The index is shared by the later calls, and a failure replayed. *)
Lemma key_locator_shared s :
  match key_locator f s with
  | (Ok locator, s') => cs_locator s' = Some (Ready locator) /\
      forall later, cs_locator later = cs_locator s' -> key_locator f later = arc_clone locator later
  | (Err e, s') => failure_left s s' e
  | _ => True
  end /\
  (cs_locator s <> None -> cs_locator (snd (key_locator f s)) = cs_locator s).
Proof.
  destruct (cs_locator s) as [value|] eqn:E.
  - rewrite (key_locator_again _ _ E). destruct value as [locator|failure]; cbn [cached_locator].
    + split; [|by intros]. split; [done|]. intros later El. apply (key_locator_again (Ready locator)).
      by rewrite El.
    + split; [|by intros]. unfold merr, failure_left; cbv beta iota. rewrite E. split; [by left|].
      intros later El. by apply (key_locator_again (Failed failure)).
  - split; [|by intros]. pose proof (key_locator_first s E) as Hfirst. unfold failure_left.
    destruct (build_key_locator f s) as [[locator|e|site|] built] eqn:Eb.
    + destruct Hfirst as (arc & s' & -> & _ & Ec). split; [done|]. intros later El.
      apply (key_locator_again (Ready arc)). by rewrite El.
    + destruct Hfirst as (s' & -> & Ec). pose proof (capture_returns e built) as [r Hr]. rewrite Hr in Ec.
      destruct r as [failure|]; rewrite Ec; [|by exists built]. split.
      * destruct (capture e built) as [r' s1] eqn:Ecap. cbn [fst] in Hr. subst r'. by eapply capture_replays.
      * intros later El. by apply (key_locator_again (Failed failure)).
    + by rewrite Hfirst.
    + by rewrite Hfirst.
Qed.

End Cell.
