(* ===== verification/History.v ===== *)
(** What the key block cache remembers of a failure.  [decode_key_block] checks
    a block against the end of the block in front of it and caches the failure
    of that check under the number of the block; the access to the next block
    takes the remembered failure for a failure to decode.  So a readable key
    can become unreadable by a failed access to its neighbour. *)

From S2P Require Import Prelude Errors Types Budget Encoding Source Descriptors Format Normalize LocatorIndex Samples Arcs Core Dictionary Keys Locator.

(** Three key blocks; the record starts decrease from the first to the second
    and from there on increase. *)
Definition decreasing_contents : Contents := {|
  ct_key_blocks := [[row "a" 0; row "b" 10]; [row "c" 5; row "d" 12]; [row "e" 15; row "f" 16]];
  ct_record_blocks := [lit "twenty-record-bytes."];
|}.

Definition decreasing_file : bytes := v2_file (dictionary_header "2.0") EncUtf8 decreasing_contents.

Definition decreasing_fs : bytes -> nat -> option FileState :=
  fun _ _ => Some {| fc_content := decreasing_file; fc_modified := 0 |}.

(** The answer for ordinal 4 in a fresh state, and the one behind a request
    for ordinal 2. *)
Definition fresh_and_later : Result (Result (option KeyEntry) * Result (option KeyEntry)) :=
  let? '(f, s) := @open simple_env decreasing_fs (lit "words.mdx") Mdx sample_options 0 in
  Ok (fst (@key_at_ordinal simple_env f 4 s),
      fst (@key_at_ordinal simple_env f 4 (snd (@key_at_ordinal simple_env f 2 s)))).

(** The key block cache is not transparent: in a dictionary whose record
    starts decrease between its first two key blocks, the key of ordinal 4, in
    the third block, is found in a fresh state, but asking for it after the
    failed request for ordinal 2, in the second block, reports the failure of
    the second block. *)
Example key_failure_depends_on_history :
  fresh_and_later =
  Ok (Ok (Some {| ke_ordinal := 4; ke_key := lit "e" |}),
      Err (InvalidData "record starts decrease across key blocks from 10 to 5")).
Proof. vm_compute. reflexivity. Qed.

(** What a request for a key leaves behind a remembered failure of the block in
    front of its own: the failure, now under its own block, when the copy can
    be remembered, and otherwise the caches as they were; the file is not read. *)
Definition failure_spread `{Env} (s s' : CoreState) (index : Z) (failure : CachedFailure) : Prop :=
  cs_record_block_cache s' = cs_record_block_cache s /\ cs_locator s' = cs_locator s /\
  w_clock (cs_world s') = w_clock (cs_world s) /\
  match fst (capture (replay failure) s) with
  | Ok (Some copy) => cs_key_block_cache s' = Some (index, Failed copy) /\ replays copy (replay failure)
  | _ => cs_key_block_cache s' = cs_key_block_cache s
  end.

(** Remembering a failure changes nothing but the budget. *)
Lemma capture_only_reserves `{Env} e (s : CoreState) :
  let s' := snd (capture e s) in
  cs_key_block_cache s' = cs_key_block_cache s /\ cs_record_block_cache s' = cs_record_block_cache s /\
  cs_locator s' = cs_locator s /\ w_clock (cs_world s') = w_clock (cs_world s).
Proof.
  unfold capture. destruct (failure_kind e) as [[]|]; try done. unfold reserve.
  destruct (claim _ _); try done. by destruct (try_reserve_string _ _ _).
Qed.

Lemma resolve_ordinal_block `{Env} f ordinal index entry :
  resolve_ordinal f ordinal = Ok (index, entry) ->
  exists block, get_at (vl_key_blocks (mf_layout f)) index = Some block.
Proof.
  unfold resolve_ordinal. destruct (find_key_block_by_ordinal f ordinal) as [[i|]| | |]; cbn [ok_or rbind]; try done.
  destruct (get_at _ i) as [block|] eqn:E; cbn [ok_or rbind]; [|done].
  destruct (ok_or _ _); cbn [rbind]; try done. destruct (ok_or _ _); cbn [rbind]; try done.
  intros [= <- _]. by exists block.
Qed.

Lemma decode_key_block_spreads `{Env} f s index failure block :
  0 <= index -> get_at (vl_key_blocks (mf_layout f)) (index + 1) = Some block ->
  cs_key_block_cache s = Some (index, Failed failure) ->
  exists s', decode_key_block f (index + 1) s = (Err (replay failure), s') /\
    failure_spread s s' (index + 1) failure.
Proof.
  intros Hi Hb Hc.
  assert (decode_key_block_miss f (index + 1) s = (Err (replay failure), s)) as Hmiss.
  { unfold decode_key_block_miss. rewrite Hb. unfold Errors.mbind, read_state. rewrite Hc.
    rewrite (proj2 (Z.eqb_neq _ _)) by lia. replace (index + 1 - 1) with index by lia.
    unfold cache_hit. by rewrite Z.eqb_refl. }
  unfold decode_key_block, Errors.mbind, read_state, attempt. rewrite Hc. unfold cache_hit.
  rewrite (proj2 (Z.eqb_neq _ _)) by lia. rewrite Hmiss. unfold failure_spread.
  destruct (capture_only_reserves (replay failure) s) as (E1 & E2 & E3 & E4).
  pose proof (capture_returns (replay failure) s) as [r Hr]. pose proof (capture_replays (replay failure) s) as Hcopy.
  destruct (capture (replay failure) s) as [r' s1]. cbn [fst snd] in *. subst r'.
  destruct r as [copy|]; eexists; (split; [reflexivity|]); [|by split_and!].
  unfold set_key_block_cache. cbn [snd]. rewrite E1, Hc. cbn [drop_cached].
  split_and!; try done. by eapply Hcopy.
Qed.

(** C30: a failure remembered for a key block is taken for a failure of the
    next one: whatever that block holds, and although it is neither read nor
    decoded, every request for one of its keys fails with the error of the
    block in front, and the failure is then remembered for the block itself (if
    a copy of it can be remembered), from where the next request takes it to the
    block behind.  The other caches stay as they are. *)
Theorem key_failure_spreads `{Env} f s index failure ordinal entry :
  0 <= index -> ordinal < mdict_len f -> resolve_ordinal f ordinal = Ok (index + 1, entry) ->
  cs_key_block_cache s = Some (index, Failed failure) ->
  exists s', key_at_ordinal f ordinal s = (Err (replay failure), s') /\ failure_spread s s' (index + 1) failure.
Proof.
  intros Hi Ho Hr Hc. apply resolve_ordinal_block in Hr as Hb. destruct Hb as [block Hb].
  destruct (decode_key_block_spreads f s index failure block Hi Hb Hc) as (s' & Hd & Hs'). exists s'. split; [|done].
  unfold key_at_ordinal, key_entry_at_ordinal. rewrite (proj2 (Z.leb_gt _ _)) by lia.
  unfold Errors.mbind, lift. by rewrite Hr, Hd.
Qed.

(** The dictionary above opens, ordinal 4 is in its third block, and behind the
    request for ordinal 2 the cache holds the failure of the second. *)
Example decreasing_facts :
  match @open simple_env decreasing_fs (lit "words.mdx") Mdx sample_options 0 with
  | Ok (f, s) =>
      (4 <? mdict_len f) = true /\ @resolve_ordinal f 4 = Ok (1 + 1, 0) /\
      match cs_key_block_cache (snd (@key_at_ordinal simple_env f 2 s)) with
      | Some (index, Failed _) => (index =? 1) = true
      | _ => False
      end
  | _ => False
  end.
Proof. vm_compute. by split_and!. Qed.

(** So the failure spreads to the third block. *)
Example key_failure_spreads_witness :
  match @open simple_env decreasing_fs (lit "words.mdx") Mdx sample_options 0 with
  | Ok (f, s) =>
      let later := snd (@key_at_ordinal simple_env f 2 s) in
      exists failure s', cs_key_block_cache later = Some (1, Failed failure) /\
        @key_at_ordinal simple_env f 4 later = (Err (@replay simple_env failure), s') /\
        @failure_spread simple_env later s' 2 failure
  | _ => False
  end.
Proof.
  pose proof decreasing_facts as Hfacts.
  destruct (open _ _ _ _ _) as [[f s]|e|site|]; [|exact Hfacts..].
  destruct Hfacts as (Hlen & Hr & Hc). intros later.
  destruct (cs_key_block_cache _) as [[index [arc|failure]]|] eqn:E; [destruct Hc| |destruct Hc].
  apply Z.eqb_eq in Hc as ->. apply Z.ltb_lt in Hlen.
  destruct (@key_failure_spreads simple_env f later 1 failure 4 0) as (s' & Hrun & Hs'); [lia|exact Hlen|exact Hr|exact E|].
  exists failure, s'. split; [reflexivity|]. split; [exact Hrun|exact Hs'].
Defined.
