(* ===== verification/Locate.v ===== *)
(** Global lookup: the operations of [src/core/locator.rs] on the index.
    [locate_spec] is the specification: the rows spelled like the query if
    there are any, otherwise the rows with its normalized form, in physical
    order. *)

From stdpp Require Import list_numbers sorting.
From S2P Require Import Prelude Errors Types Budget Logic Utf8 Encoding Source Descriptors Header KeySection Format Normalize LocatorIndex Samples Arcs Core Dictionary SampleDictionary Keys Locator.

(** [LocatorBasis] *)
Inductive LocatorBasis := RawExact | HeaderNormalized | CaseVariants.

(** [LocatedOrdinals]; a shared reservation is an [Arc] of its size. *)
Inductive LocatedOrdinals :=
| InLocator (locator : Arc KeyLocator) (range : Z * Z)
| Owned (ordinals : list Z) (reservation : option (Arc Z)).

(** [LocatedKeys] *)
Record LocatedKeys := {
  lk_basis : LocatorBasis;
  lk_ordinals : LocatedOrdinals;
}.

(** [LocatedKeyPage]; its reservation is its size. *)
Record LocatedKeyPage := {
  lp_basis : LocatorBasis;
  lp_total : Z;
  lp_ordinals : list Z;
  lp_reservation : option Z;
}.

(** [LocatedKeys::from_owned_with_reservation] *)
Definition keys_from_owned (basis : LocatorBasis) (ordinals : list Z) (reservation : option Z)
    : M CoreState (option LocatedKeys) :=
  match ordinals with
  | [] =>
      fun s => (Ok None, match reservation with Some bytes => drop_reservation bytes s | None => s end)
  | _ =>
      match reservation with
      | Some bytes =>
          let! arc := arc_new bytes bytes in
          mret (Some {| lk_basis := basis; lk_ordinals := Owned ordinals (Some arc) |})
      | None => mret (Some {| lk_basis := basis; lk_ordinals := Owned ordinals None |})
      end
  end.

(** [LocatedKeys::len] *)
Definition located_len (k : LocatedKeys) : Z :=
  match lk_ordinals k with
  | InLocator _ (start, end_) => saturating_sub end_ start
  | Owned ordinals _ => zlen ordinals
  end.

(** [LocatedKeys::ordinal_at] *)
Definition located_ordinal_at (k : LocatedKeys) (index : Z) : option Z :=
  match lk_ordinals k with
  | InLocator locator (start, end_) =>
      position ← checked_add start index;
      if end_ <=? position then None else get_at (kl_order (arc_value locator)) position
  | Owned ordinals _ => get_at ordinals index
  end.

(** [LocatedKeyPage::ordinal_at] *)
Definition page_ordinal_at (p : LocatedKeyPage) (index : Z) : option Z := get_at (lp_ordinals p) index.

(** [LocatedKeyPage::into_matches] *)
Definition into_matches (p : LocatedKeyPage) : M CoreState (option LocatedKeys) :=
  keys_from_owned (lp_basis p) (lp_ordinals p) (lp_reservation p).


(** [KeyOrdinal] *)
Definition size_of_key_ordinal : Z := 8.

(** The result of a visitor: its new state and [ControlFlow::is_break]. *)
Definition Visit (A : Type) : Type := A -> Z -> text -> A * bool.

(** The loop of [scan_normalized_keys]; [row_text] is [locator.row]. *)
Fixpoint scan_loop {A} (row_text : Z -> text) (visit : Visit A) (rows : list Z) (acc : A) : A :=
  match rows with
  | [] => acc
  | row :: rows =>
      let (acc, is_break) := visit acc row (row_text row) in
      if is_break then acc else scan_loop row_text visit rows acc
  end.

(** The loop of [locate_prefix]. *)
Fixpoint prefix_loop `{Env} (l : KeyLocator) (normalized : text) (limit : Z) (rows found : list Z)
    : Result (list Z) :=
  match rows with
  | [] => Ok found
  | row :: rows =>
      if negb (starts_with (kl_row l row) normalized) then Ok found
      else
        try_reserve_vec (zlen found) size_of_key_ordinal 1 "prefix locator matches" ;;?
        let found := found ++ [row] in
        if zlen found =? limit then Ok found else prefix_loop l normalized limit rows found
  end.

(** The loop that copies a page of the order. *)
Fixpoint copy_order (order : list Z) (positions ordinals : list Z) : Result (list Z) :=
  match positions with
  | [] => Ok ordinals
  | position :: positions =>
      let? row := ok_or (get_at order position)
                    (InvalidFormat "locator page escaped its order index") in
      copy_order order positions (ordinals ++ [row])
  end.

Section Query.

Context `{Env} {S} `{HasWorld S} (f : MdictFile).

(** The normalized query under its reservation, as every lookup makes it. *)
Definition with_normalized {A} (query : text) (context : string) (body : text -> M S A)
    : M S A :=
  let! normalized_len := lift (normalized_len (mf_normalizer f) query) in
  let! _ := lift (ensure_usize_limit "normalized_query_bytes" normalized_len
                    (locator_bytes (mf_limits f))) in
  scoped normalized_len context (
    let! normalized := lift (normalize (mf_normalizer f) query) in
    body normalized).

End Query.

Section Locate.

Context `{Env} (f : MdictFile).

(** The row at a position of the order when its raw key is the query: the
    body of the loops of [raw_exact_within] and [locate_key_page].  A digest
    that agrees is only a candidate; the key block decides. *)
Definition raw_exact_row (l : KeyLocator) (query : text) (digest position : Z)
    : M CoreState (option Z) :=
  let! row := lift (ok_or (get_at (kl_order l) position)
                      (InvalidFormat "locator range escaped its order index")) in
  let! index := lift (ok_or (try_usize row) (InvalidFormat "locator row index exceeds usize")) in
  let! raw := lift (ok_or (get_at (kl_raw_digest l) index)
                      (InvalidFormat "locator row has no raw digest")) in
  if negb (raw =? digest) then mret None
  else
    let! hit := key_entry_at_ordinal f row in
    match hit with
    | None => merr (InvalidFormat "locator row has no key block entry")
    | Some hit =>
        with_arc (kh_entries hit) (
          let! entry := lift (ok_or (get_at (kb_entries (arc_value (kh_entries hit)))
                                       (kh_entry_index hit))
                                (InvalidFormat "locator row escaped its key block")) in
          mret (if bytes_eqb (row_key entry) query then Some row else None))
    end.

(** The loop of [raw_exact_within]. *)
Fixpoint raw_exact_loop (l : KeyLocator) (query : text) (digest : Z) (positions matches : list Z)
    : M CoreState (list Z) :=
  match positions with
  | [] => mret matches
  | position :: positions =>
      let! found := raw_exact_row l query digest position in
      let! matches :=
        match found with
        | Some row =>
            let! _ := lift (try_reserve_vec (zlen matches) size_of_u32 1
                              "raw-exact locator matches") in
            mret (matches ++ [row])
        | None => mret matches
        end in
      raw_exact_loop l query digest positions matches
  end.

(** [raw_exact_within] *)
Definition raw_exact_within (l : KeyLocator) (start end_ : Z) (query : text)
    : M CoreState (option (list Z)) :=
  let! matches := raw_exact_loop l query (raw_digest query) (seqZ start (end_ - start)) [] in
  match matches with
  | [] => mret None
  | _ => mret (Some (merge_sort Z.le matches))
  end.

(** [locate_keys] *)
Definition locate_keys (query : text) : M CoreState (option LocatedKeys) :=
  let! locator := key_locator f in
  or_drop_arc locator (
    with_normalized f query "normalized lookup query" (fun normalized =>
      match equal_range (arc_value locator) normalized with
      | None => let! _ := drop_handle locator in mret None
      | Some (start, end_) =>
          let! exact := raw_exact_within (arc_value locator) start end_ query in
          match exact with
          | Some exact =>
              let! _ := drop_handle locator in
              mret (Some {| lk_basis := RawExact; lk_ordinals := Owned exact None |})
          | None =>
              mret (Some {| lk_basis := HeaderNormalized;
                            lk_ordinals := InLocator locator (start, end_) |})
          end
      end)).

(** The first loop of [locate_key_page]. *)
Fixpoint page_exact_loop (l : KeyLocator) (query : text) (digest offset limit : Z)
    (positions : list Z) (exact_count : Z) (ordinals : list Z) : M CoreState (Z * list Z) :=
  match positions with
  | [] => mret (exact_count, ordinals)
  | position :: positions =>
      let! found := raw_exact_row l query digest position in
      match found with
      | Some row =>
          let match_index := exact_count in
          let! exact_count := lift (ok_or (checked_add exact_count 1)
                                      (InvalidFormat "raw-exact match count overflow")) in
          let ordinals :=
            if (offset <=? match_index) && (zlen ordinals <? limit)
            then ordinals ++ [row] else ordinals in
          page_exact_loop l query digest offset limit positions exact_count ordinals
      | None => page_exact_loop l query digest offset limit positions exact_count ordinals
      end
  end.

(** The part of [locate_key_page] that fills the page. *)
Definition fill_page (l : KeyLocator) (query : text) (start end_ offset limit page_bytes : Z)
    : M CoreState LocatedKeyPage :=
  let page_capacity := Z.min limit (saturating_sub (end_ - start) offset) in
  let! _ := lift (try_reserve_vec 0 size_of_u32 page_capacity "key match page") in
  let! '(exact_count, ordinals) :=
    page_exact_loop l query (raw_digest query) offset limit (seqZ start (end_ - start)) 0 [] in
  if negb (exact_count =? 0)
  then mret {| lp_basis := RawExact; lp_total := exact_count; lp_ordinals := ordinals;
               lp_reservation := Some page_bytes |}
  else
    let total := end_ - start in
    let page_start := saturating_add start (Z.min offset total) in
    let page_end := Z.min (saturating_add page_start limit) end_ in
    let! ordinals := lift (copy_order (kl_order l) (seqZ page_start (page_end - page_start)) []) in
    mret {| lp_basis := HeaderNormalized; lp_total := total; lp_ordinals := ordinals;
            lp_reservation := Some page_bytes |}.

(** [locate_key_page] *)
Definition locate_key_page (query : text) (offset limit : Z) : M CoreState (option LocatedKeyPage) :=
  let! locator := key_locator f in
  with_arc locator (
    with_normalized f query "normalized paged lookup query" (fun normalized =>
      match equal_range (arc_value locator) normalized with
      | None => mret None
      | Some (start, end_) =>
          let page_capacity := Z.min limit (saturating_sub (end_ - start) offset) in
          let! page_bytes := lift (ok_or (checked_mul page_capacity size_of_u32)
                                     (InvalidFormat "key match page size overflow")) in
          let! _ := lift (ensure_usize_limit "key_match_page_bytes" page_bytes
                            (locator_bytes (mf_limits f))) in
          let! page := retained page_bytes "key match page"
                         (fill_page (arc_value locator) query start end_ offset limit page_bytes) in
          mret (Some page)
      end)).

(** [locate_prefix] *)
Definition locate_prefix (prefix : text) (limit : Z) : M CoreState (list Z) :=
  if limit =? 0 then mret []
  else
    let! locator := key_locator f in
    with_arc locator (
      with_normalized f prefix "normalized prefix query" (fun normalized =>
        let l := arc_value locator in
        let start := partition_point (fun row => bytes_ltb (kl_row l row) normalized) (kl_order l) in
        lift (prefix_loop l normalized limit (drop (Z.to_nat start) (kl_order l)) []))).

(** [scan_normalized_keys] *)
Definition scan_normalized_keys {A} (visit : Visit A) (acc : A) : M CoreState A :=
  let! locator := key_locator f in
  with_arc locator (
    mret (scan_loop (kl_row (arc_value locator)) visit (seqZ 0 (row_count (arc_value locator))) acc)).

End Locate.

(** * Specification *)

Section Spec.

Context `{Env} (n : KeyNormalizer).

(** What a lookup of [query] finds among [keys]. *)
Definition locate_spec (keys : list text) (query : text) : option (LocatorBasis * list Z) :=
  match matching n keys (normalized n query) with
  | [] => None
  | found =>
      match raw_matching keys query with
      | [] => Some (HeaderNormalized, found)
      | exact => Some (RawExact, exact)
      end
  end.

(** A page of a list. *)
Definition page_of (offset limit : Z) (l : list Z) : list Z :=
  take (Z.to_nat limit) (drop (Z.to_nat offset) l).

(** What a page lookup finds: the basis, the number of all matches and the
    page. *)
Definition page_spec (keys : list text) (query : text) (offset limit : Z)
    : option (LocatorBasis * Z * list Z) :=
  '(basis, ordinals) ← locate_spec keys query;
  Some (basis, zlen ordinals, page_of offset limit ordinals).

(** [found] are the first [limit] rows, in normalized order, whose normalized
    key starts with [p]. *)
Definition prefix_spec (keys : list text) (p : text) (limit : Z) (found : list Z) : Prop :=
  exists all, StronglySorted (row_le n keys) all /\
    all ≡ₚ List.filter (fun row => starts_with (normalized_row n keys row) p) (seqZ 0 (zlen keys)) /\
    found = take (Z.to_nat limit) all.

End Spec.

(** [k] stands for the list [ordinals]. *)
Definition denotes (k : LocatedKeys) (ordinals : list Z) : Prop :=
  located_len k = zlen ordinals /\
  forall i, 0 <= i -> located_ordinal_at k i = get_at ordinals i.

(** The handles of a result. *)
Definition located_handles (r : option LocatedKeys) : list nat :=
  match r with
  | Some {| lk_ordinals := InLocator locator _ |} => [arc_id locator]
  | Some {| lk_ordinals := Owned _ (Some reservation) |} => [arc_id reservation]
  | _ => []
  end.

(** The reservation of a page. *)
Definition page_bytes (r : option LocatedKeyPage) : Z :=
  match r with Some p => default 0 (lp_reservation p) | None => 0 end.

(** * Lemmas *)

(** ** Prefixes in the byte order *)

Lemma starts_with_not_less x p : starts_with x p = true -> bytes_ltb x p = false.
Proof.
  revert x; induction p as [|a p IH]; intros [|b x] Hs; try done.
  simpl in Hs. apply andb_true_iff in Hs as [->%Z.eqb_eq Hs]. specialize (IH _ Hs).
  unfold bytes_ltb in *. simpl. by rewrite Z.compare_refl.
Qed.

(** A text between a prefix and a text that has it has it too. *)
Lemma starts_with_between x y p :
  bytes_ltb x p = false -> bytes_cmp x y <> Gt -> starts_with y p = true -> starts_with x p = true.
Proof.
  revert x y; induction p as [|a p IH]; intros x y Hx Hxy Hy; [by destruct x|].
  destruct y as [|c y]; [done|]. simpl in Hy. apply andb_true_iff in Hy as [<-%Z.eqb_eq Hy].
  destruct x as [|b x]; [done|]. unfold bytes_ltb in *. simpl in *.
  destruct (Z.compare_spec b a) as [->| |]; try done.
  rewrite Z.eqb_refl. by eapply IH.
Qed.

Lemma not_less_mono x y p : bytes_ltb x p = false -> bytes_cmp x y <> Gt -> bytes_ltb y p = false.
Proof.
  unfold bytes_ltb. intros Hx Hxy. destruct (bytes_cmp y p) eqn:Ey; try done.
  destruct (bytes_cmp x y) eqn:Exy; [|by rewrite (bytes_cmp_lt_trans _ _ _ Exy Ey) in Hx|done].
  apply bytes_cmp_eq in Exy as ->. by rewrite Ey in Hx.
Qed.

Lemma page_of_snoc offset limit l row :
  0 <= offset -> 0 <= limit ->
  page_of offset limit (l ++ [row]) =
  if (offset <=? zlen l) && (zlen (page_of offset limit l) <? limit)
  then page_of offset limit l ++ [row] else page_of offset limit l.
Proof.
  intros Ho Hl. unfold page_of. rewrite length_take, length_drop.
  destruct (Z.leb_spec offset (zlen l)); simpl.
  - rewrite drop_app_le by lia. destruct (Z.ltb_spec (Z.of_nat (Z.to_nat limit `min` (length l - Z.to_nat offset))) limit).
    + rewrite take_app_ge, (take_ge (drop _ l)) by (rewrite length_drop; lia). f_equal.
      apply take_ge. simpl. rewrite length_drop. lia.
    + by rewrite take_app_le by (rewrite length_drop; lia).
  - rewrite !drop_ge by (rewrite ?length_app; simpl; lia). by rewrite !take_nil.
Qed.

Section LocateProofs.

Context `{EnvOk} (f : MdictFile) (Hf : file_ok f).

Let max := working_memory_bytes (mf_limits f).

Let n := mf_normalizer f.

(** The key of a row of the index. *)
Definition key_at (keys : list text) (row : Z) : text := default [] (get_at keys row).

(** [keys] are the keys [l] was built from. *)
Definition index_of (keys : list text) (l : KeyLocator) : Prop :=
  locator_of n keys l /\ zlen keys = mdict_len f /\ zlen keys <= u32_max /\ Forall text_ok keys /\
  forall content modified, stable (mf_source f) content modified ->
    exists rows, all_rows f content = Ok rows /\ keys = map row_key rows.

(** Raw equality implies normalized equality. *)
Lemma raw_in_matching keys query :
  List.filter (fun row => bytes_eqb (key_at keys row) query) (matching n keys (normalized n query)) =
  raw_matching keys query.
Proof.
  unfold matching, raw_matching. induction (seqZ 0 (zlen keys)) as [|row rows IH]; [done|].
  cbn [List.filter]. fold (key_at keys row). unfold normalized_row. fold (key_at keys row).
  destruct (bytes_eqb (key_at keys row) query) eqn:E.
  - apply bytes_eqb_true in E. rewrite E.
    rewrite (proj2 (bytes_eqb_true (normalized n query) (normalized n query)) eq_refl).
    cbn [List.filter]. rewrite E, (proj2 (bytes_eqb_true query query) eq_refl). f_equal. exact IH.
  - destruct (bytes_eqb (normalized n _) _); [|exact IH]. cbn [List.filter]. rewrite E. exact IH.
Qed.

(** The raw key of a row, in a stable file. *)
Lemma row_at_key keys l content modified ordinal row :
  index_of keys l -> stable (mf_source f) content modified -> 0 <= ordinal < zlen keys ->
  row_at f content ordinal row -> row_key row = key_at keys ordinal.
Proof.
  intros (_ & _ & _ & _ & Hst) Hs Ho Hrow. destruct (Hst _ _ Hs) as (rows & Hr & ->).
  destruct (all_rows_spec f Hf content modified Hs rows Hr) as [_ Hat].
  unfold key_at, get_at. specialize (Hat _ _ Hrow). unfold get_at in Hat.
  destruct (0 <=? ordinal); [|done]. by rewrite list_lookup_fmap, Hat.
Qed.

Lemma wp_hit_entry ordinal hit e :
  hit_ok f ordinal hit ->
  wp (ok_or (get_at (kb_entries (arc_value (kh_entries hit))) (kh_entry_index hit)) e) (fun row =>
    forall content modified, stable (mf_source f) content modified -> row_at f content ordinal row).
Proof.
  intros [[Hkb _] (block & row & Hb & -> & He & Hrow)]. apply wp_ok_or. intros row' Hrow'.
  destruct (key_block_lookup f _ _ _ _ Hkb Hb He) as (row'' & Hrow'' & _ & _ & Hst).
  assert (row'' = row') as -> by congruence. exact Hst.
Qed.

(** One probe: in a stable file it decides raw equality. *)
Lemma keeps_raw_exact_row keys l query position :
  index_of keys l ->
  keeps max (contracts f) (raw_exact_row f l query (raw_digest query) position) (fun r =>
    exists row, get_at (kl_order l) position = Some row /\ 0 <= row < zlen keys /\
      (r = None \/ r = Some row) /\
      forall content modified, stable (mf_source f) content modified ->
        r = if bytes_eqb (key_at keys row) query then Some row else None).
Proof.
  intros Hl. destruct (id Hl) as ((_ & _ & Hd & Hp & _) & Hz & Hmax & _). unfold raw_exact_row.
  eapply keeps_bind; [apply keeps_lift, wp_ok_or; intros row Hrow; exact Hrow|]. intros row Hrow. cbv beta in Hrow |- *.
  assert (0 <= row < zlen keys) as Hr.
  { apply get_at_elem_of in Hrow. rewrite Hp in Hrow. apply elem_of_seqZ in Hrow. lia. }
  eapply keeps_bind; [apply keeps_lift, wp_ok_or; intros i Hi; exact Hi|]. intros i Hi. cbv beta in Hi.
  apply try_usize_Some in Hi as [-> _].
  eapply keeps_bind; [apply keeps_lift, wp_ok_or; intros raw Hraw; exact Hraw|]. intros raw Hraw. cbv beta in Hraw.
  assert (raw = raw_digest (key_at keys row)) as ->.
  { rewrite Hd in Hraw. unfold key_at, get_at in *. destruct (0 <=? row); [|done].
    rewrite list_lookup_fmap in Hraw. destruct (keys !! Z.to_nat row); [|done]. by injection Hraw as <-. }
  apply keeps_if; intros Hdig; zbool.
  { apply keeps_ret. exists row. split_and!; try done; [lia..|by left|]. intros _ _ _.
    destruct (bytes_eqb _ query) eqn:E; [|done]. apply bytes_eqb_true in E. by rewrite E in Hdig. }
  intros base hs. eapply triple_bind; [apply (triple_key_entry_at_ordinal f Hf); lia|].
  intros [hit|] Hhit; cbv beta iota in *; [|apply triple_err]. destruct Hhit as [_ Hhit].
  apply triple_with_arc. eapply triple_bind; [by apply triple_lift, (wp_hit_entry row)|].
  intros entry Hent. cbv beta. apply triple_ret; [|done|done]. exists row. split_and!; try done; [lia..| |].
  - destruct (bytes_eqb _ _); auto.
  - intros content modified Hs. by rewrite (row_at_key keys l content modified row entry Hl Hs Hr (Hent _ _ Hs)).
Qed.

(** The rows [rows] with the raw key [query]. *)
Definition exact_of (keys : list text) (query : text) (rows : list Z) : list Z :=
  List.filter (fun row => bytes_eqb (key_at keys row) query) rows.

Lemma exact_of_cons keys query row rows :
  exact_of keys query (row :: rows) =
  (if bytes_eqb (key_at keys row) query then [row] else []) ++ exact_of keys query rows.
Proof. unfold exact_of. cbn [List.filter]. by destruct (bytes_eqb _ _). Qed.

(** [positions] are the positions of [rows] in the order. *)
Definition positions_of (l : KeyLocator) (positions rows : list Z) : Prop :=
  Forall2 (fun position row => get_at (kl_order l) position = Some row) positions rows.

Lemma positions_of_slice l start end_ rows :
  slice (kl_order l) start end_ = Some rows -> positions_of l (seqZ start (end_ - start)) rows.
Proof.
  intros Hs. pose proof (slice_length _ _ _ _ Hs) as Hlen. apply slice_Some in Hs as [? ->].
  apply Forall2_same_length_lookup. split; [rewrite length_seqZ; lia|].
  intros i p row [-> ?]%lookup_seqZ Hrow. apply lookup_take_Some in Hrow as [Hrow _].
  rewrite lookup_drop in Hrow. unfold get_at. rewrite (proj2 (Z.leb_le 0 _)) by lia.
  rewrite <- Hrow. f_equal. lia.
Qed.

Lemma keeps_raw_exact_loop keys l query positions rows matches :
  index_of keys l -> positions_of l positions rows ->
  Forall (Z.le 0) matches ->
  keeps max (contracts f) (raw_exact_loop f l query (raw_digest query) positions matches) (fun r =>
    Forall (Z.le 0) r /\
    forall content modified, stable (mf_source f) content modified ->
      r = matches ++ exact_of keys query rows).
Proof.
  intros Hl Hp; revert matches; induction Hp as [|p row positions rows Hrow _ IH]; intros matches Hpos;
    cbn [raw_exact_loop].
  { apply keeps_ret. split; [done|]. intros _ _ _. by rewrite app_nil_r. }
  eapply keeps_bind; [by apply (keeps_raw_exact_row keys)|].
  intros found (row' & Hrow' & Hr0 & Hcase & Hst). cbv beta. assert (row' = row) as -> by congruence.
  eapply (keeps_bind _ _ _ _ (fun m => Forall (Z.le 0) m /\
    forall content modified, stable (mf_source f) content modified ->
      m = matches ++ if bytes_eqb (key_at keys row) query then [row] else [])).
  - destruct Hcase as [->| ->].
    + apply keeps_ret. split; [done|]. intros content modified Hs. specialize (Hst _ _ Hs).
      destruct (bytes_eqb _ _); [done|]. by rewrite app_nil_r.
    + eapply (keeps_bind _ _ _ _ (fun _ => True)); [by apply keeps_lift, wp_try_reserve_vec|]. intros [] _. cbv beta.
      apply keeps_ret. split; [apply Forall_app; split; [done|by apply Forall_singleton; lia]|].
      intros content modified Hs. specialize (Hst _ _ Hs). by destruct (bytes_eqb _ _).
  - intros m [Hm0 Hm]. cbv beta. eapply keeps_mono; [by apply IH|]. intros r [Hr1 Hr]. split; [done|].
    intros content modified Hs. by rewrite (Hr _ _ Hs), (Hm _ _ Hs), exact_of_cons, app_assoc.
Qed.

Lemma merge_sort_sorted (l : list Z) : StronglySorted Z.le l -> merge_sort Z.le l = l.
Proof.
  intros Hl. apply (StronglySorted_unique Z.le); [|done|apply merge_sort_Permutation].
  apply StronglySorted_merge_sort; apply _.
Qed.

Lemma matching_sorted keys query : StronglySorted Z.le (matching n keys query).
Proof. apply filter_sorted, seqZ_sorted. Qed.

(** What [equal_range] finds, as positions and rows. *)
Lemma keeps_raw_exact_within keys l query start end_ :
  index_of keys l ->
  slice (kl_order l) start end_ = Some (matching n keys (normalized n query)) ->
  keeps max (contracts f) (raw_exact_within f l start end_ query) (fun r =>
    (forall exact, r = Some exact -> exists o, head exact = Some o /\ 0 <= o) /\
    forall content modified, stable (mf_source f) content modified ->
      r = match raw_matching keys query with [] => None | exact => Some exact end).
Proof.
  intros Hl Hs. unfold raw_exact_within.
  eapply keeps_bind; [by apply (keeps_raw_exact_loop keys); [|apply (positions_of_slice _ _ _ _ Hs)|]|].
  intros matches [Hm0 Hm]. cbv beta. simpl in Hm.
  assert (forall content modified, stable (mf_source f) content modified ->
            matches = raw_matching keys query) as Hm'.
  { intros content modified Hst. rewrite (Hm _ _ Hst). apply raw_in_matching. }
  destruct matches as [|row rows].
  { apply keeps_ret. split; [done|]. intros content modified Hst. by rewrite <- (Hm' _ _ Hst). }
  apply keeps_ret. split.
  { intros exact [= <-]. pose proof (merge_sort_Permutation Z.le (row :: rows)) as Hp.
    rewrite <- Hp in Hm0. destruct (merge_sort Z.le (row :: rows)) as [|o exact].
    - apply Permutation_length in Hp. done.
    - exists o. split; [done|]. by apply Forall_cons in Hm0 as [? _]. }
  intros content modified Hst. rewrite <- (Hm' _ _ Hst).
  rewrite merge_sort_sorted; [done|]. rewrite (Hm' _ _ Hst). unfold raw_matching.
  apply filter_sorted, seqZ_sorted.
Qed.

(** The query is normalized under a reservation that is given back. *)
Lemma htriple_with_normalized {S} `{HasWorld S} (Inv : Z -> list nat -> S -> Prop) `{!Resources Inv} {A}
    base hs query context (body : text -> M S A) P base' hs' :
  0 <= base -> (forall a, P a -> 0 <= base' a) ->
  (forall len, 0 <= len ->
   htriple Inv (base + len) hs (body (normalized n query)) P (fun a => base' a + len) hs' (base + len) hs) ->
  htriple Inv base hs (with_normalized f query context body) P base' hs' base hs.
Proof.
  intros Hbase Hb' Hbody. unfold with_normalized.
  eapply (htriple_bind Inv); [apply (htriple_lift Inv), wp_normalized_len|]. intros len [_ Hlen]. cbv beta.
  eapply (htriple_bind Inv _ _ _ _ (fun _ => True)); [by apply (htriple_lift Inv), wp_ensure_usize_limit|].
  intros [] _. cbv beta. apply (htriple_scoped Inv); [lia|done|done|].
  eapply (htriple_bind Inv); [apply (htriple_lift Inv), wp_normalize|]. intros t ->. cbv beta. apply Hbody. lia.
Qed.

Lemma triple_with_normalized {A} base hs query context (body : text -> M CoreState A) P base' hs' :
  0 <= base -> (forall a, P a -> 0 <= base' a) ->
  (forall len, 0 <= len ->
   triple max (contracts f) (base + len) hs (body (normalized n query)) P (fun a => base' a + len) hs'
     (base + len) hs) ->
  triple max (contracts f) base hs (with_normalized f query context body) P base' hs' base hs.
Proof. by apply (htriple_with_normalized (core_ok max (contracts f))). Qed.

(** The first match of a result, which every result has. *)
Definition first_ok (r : option LocatedKeys) : Prop :=
  forall k, r = Some k -> exists o, located_ordinal_at k 0 = Some o /\ 0 <= o.

(** [r] answers [query] in every stable file. *)
Definition located_ok (query : text) (r : option LocatedKeys) : Prop :=
  forall content modified, stable (mf_source f) content modified ->
    exists rows, all_rows f content = Ok rows /\
      match r, locate_spec n (map row_key rows) query with
      | Some k, Some (basis, ordinals) => lk_basis k = basis /\ denotes k ordinals
      | None, None => True
      | _, _ => False
      end.

Lemma denotes_range locator start end_ rows :
  0 <= start <= end_ -> end_ <= u64_max -> slice (kl_order (arc_value locator)) start end_ = Some rows ->
  denotes {| lk_basis := HeaderNormalized; lk_ordinals := InLocator locator (start, end_) |} rows.
Proof.
  intros Hse Hmax Hs. pose proof (slice_length _ _ _ _ Hs) as Hlen. split.
  - unfold located_len; simpl. unfold saturating_sub. lia.
  - intros i Hi. unfold located_ordinal_at; simpl. apply slice_Some in Hs as [? ->].
    unfold checked_add. destruct (Z.leb_spec (start + i) u64_max); simpl.
    + unfold get_at at 2. rewrite (proj2 (Z.leb_le 0 i)) by lia.
      destruct (Z.leb_spec end_ (start + i)).
      * symmetry. apply lookup_take_None. lia.
      * rewrite lookup_take_lt, lookup_drop by lia. unfold get_at.
        rewrite (proj2 (Z.leb_le 0 _)) by lia. f_equal. lia.
    + unfold get_at. rewrite (proj2 (Z.leb_le 0 i)) by lia.
      symmetry. apply lookup_take_None. lia.
Qed.

Lemma order_length keys l : index_of keys l -> zlen (kl_order l) = zlen keys.
Proof. intros ((_ & _ & _ & Hp & _) & _). apply Permutation_length in Hp. rewrite Hp, length_seqZ. lia. Qed.

Lemma triple_locate_keys base hs query :
  0 <= base ->
  triple max (contracts f) base hs (locate_keys f query) (fun r => first_ok r /\ located_ok query r)
    (fun _ => base) (fun r => located_handles r ++ hs) base hs.
Proof.
  intros Hbase. unfold locate_keys.
  eapply triple_bind; [apply (acquires_key_locator f Hf)|]. intros locator [keys Hl]. cbv beta.
  apply triple_or_drop_arc. apply triple_with_normalized; [done|done|]. intros len Hlen.
  pose proof (equal_range_spec n keys (arc_value locator) (normalized n query) (proj1 Hl)) as Hrange.
  destruct (equal_range _ _) as [[start end_]|].
  - destruct Hrange as [Hse Hs].
    eapply triple_bind; [by apply (keeps_raw_exact_within keys)|]. intros exact [Hfirst Hex]. cbv beta.
    assert (forall r : option LocatedKeys, (forall content modified, stable (mf_source f) content modified ->
              match r, locate_spec n keys query with
              | Some k, Some (basis, ordinals) => lk_basis k = basis /\ denotes k ordinals
              | None, None => True
              | _, _ => False
              end) -> located_ok query r) as Hok.
    { intros r Hr content modified Hst. destruct Hl as (_ & _ & _ & _ & Hk).
      destruct (Hk _ _ Hst) as (rows & Hrows & ->). exists rows. split; [done|]. by eapply Hr. }
    assert (matching n keys (normalized n query) <> []) as Hne.
    { intros E. rewrite E in Hs. apply slice_length in Hs. simpl in Hs. lia. }
    destruct exact as [exact|].
    + eapply triple_bind; [apply triple_drop_handle|]. intros [] _. cbv beta.
      apply triple_ret; [|done|done]. split.
      { intros k [= <-]. destruct (Hfirst _ eq_refl) as (o & Ho & ?). exists o. split; [|done].
        unfold located_ordinal_at. simpl. by destruct exact. }
      apply Hok. intros content modified Hst. specialize (Hex _ _ Hst).
      unfold locate_spec. destruct (matching n keys _) eqn:Em; [done|].
      destruct (raw_matching keys query) eqn:Er; [done|]. injection Hex as ->. split; [done|]. split; done.
    + assert (end_ <= u64_max) as Hmax.
      { apply slice_Some in Hs as [[_ Hend] _]. rewrite (order_length _ _ Hl) in Hend.
        destruct Hl as (_ & _ & Hm & _). unfold u32_max, u64_max in *. lia. }
      pose proof (denotes_range locator start end_ _ ltac:(lia) Hmax Hs) as Hden.
      apply triple_ret; [|done|done]. split.
      { intros k [= <-]. destruct Hden as [_ Hden]. rewrite Hden by lia.
        destruct (matching n keys (normalized n query)) as [|o m] eqn:Em; [done|]. exists o. split; [done|].
        assert (o ∈ matching n keys (normalized n query)) as Hin by (rewrite Em; apply list_elem_of_here).
        apply list_elem_of_In, filter_In in Hin as [Hin _]. apply list_elem_of_In, elem_of_seqZ in Hin. lia. }
      apply Hok. intros content modified Hst. specialize (Hex _ _ Hst).
      unfold locate_spec. destruct (matching n keys _) eqn:Em; [done|].
      by destruct (raw_matching keys query) eqn:Er.
  - eapply triple_bind; [apply triple_drop_handle|]. intros [] _. cbv beta.
    apply triple_ret; [|done|done]. split; [done|]. intros content modified Hst.
    destruct Hl as (_ & _ & _ & _ & Hk). destruct (Hk _ _ Hst) as (rows & Hrows & ->).
    exists rows. split; [done|]. unfold locate_spec. by rewrite Hrange.
Qed.

(** ** Pages *)

Lemma keeps_page_exact_loop keys l query offset limit positions rows seen :
  index_of keys l -> positions_of l positions rows -> 0 <= offset -> 0 <= limit ->
  keeps max (contracts f)
    (page_exact_loop f l query (raw_digest query) offset limit positions (zlen seen)
       (page_of offset limit seen)) (fun r =>
    exists all, r = (zlen all, page_of offset limit all) /\
      forall content modified, stable (mf_source f) content modified ->
        all = seen ++ exact_of keys query rows).
Proof.
  intros Hl Hp Ho Hlim; revert seen; induction Hp as [|p row positions rows Hrow _ IH]; intros seen;
    cbn [page_exact_loop].
  { apply keeps_ret. exists seen. split; [done|]. intros _ _ _. by rewrite app_nil_r. }
  eapply keeps_bind; [by apply (keeps_raw_exact_row keys)|].
  intros found (row' & Hrow' & _ & Hcase & Hst). cbv beta. assert (row' = row) as -> by congruence.
  destruct Hcase as [->| ->].
  - eapply keeps_mono; [apply IH|]. intros r (all & -> & Hall). exists all. split; [done|].
    intros content modified Hs. rewrite (Hall _ _ Hs), exact_of_cons. specialize (Hst _ _ Hs).
    by destruct (bytes_eqb _ _).
  - eapply keeps_bind; [apply keeps_lift, wp_ok_or; intros c Hc; exact Hc|]. intros c Hc. cbv beta in Hc |- *.
    apply checked_add_Some in Hc as [-> _]. rewrite <- page_of_snoc by done.
    replace (zlen seen + 1) with (zlen (seen ++ [row])) by (rewrite length_app; simpl; lia).
    eapply keeps_mono; [apply IH|]. intros r (all & -> & Hall). exists all. split; [done|].
    intros content modified Hs. rewrite (Hall _ _ Hs), exact_of_cons, <- app_assoc.
    specialize (Hst _ _ Hs). by destruct (bytes_eqb _ _).
Qed.

Lemma copy_order_spec l positions rows ordinals :
  positions_of l positions rows -> copy_order (kl_order l) positions ordinals = Ok (ordinals ++ rows).
Proof.
  intros Hp; revert ordinals; induction Hp as [|p row positions rows Hrow _ IH]; intros ordinals; simpl.
  - by rewrite app_nil_r.
  - rewrite Hrow. simpl. rewrite IH. by rewrite <- app_assoc.
Qed.

(** The page of a range of the order. *)
Lemma page_slice {A} (l : list A) start end_ m offset limit :
  slice l start end_ = Some m -> 0 <= offset -> 0 <= limit -> end_ <= u64_max ->
  let total := end_ - start in
  let page_start := saturating_add start (Z.min offset total) in
  let page_end := Z.min (saturating_add page_start limit) end_ in
  slice l page_start page_end = Some (take (Z.to_nat limit) (drop (Z.to_nat offset) m)).
Proof.
  intros Hs Ho Hl Hmax total page_start page_end. apply slice_Some in Hs as [[? ?] ->].
  unfold page_end, page_start, total, saturating_add in *. rewrite (Z.min_r u64_max) by lia.
  apply slice_Some. split; [lia|]. apply list_eq. intros i.
  rewrite !lookup_take, !lookup_drop, lookup_take, lookup_drop.
  destruct (Z.le_gt_cases total offset).
  - repeat case_decide; try done; lia.
  - replace (Z.to_nat start + (Z.to_nat offset + i))%nat
      with (Z.to_nat (start + Z.min offset (end_ - start)) + i)%nat by lia.
    repeat case_decide; try done; lia.
Qed.

(** The public content of a page. *)
Definition page_content (p : LocatedKeyPage) : LocatorBasis * Z * list Z :=
  (lp_basis p, lp_total p, lp_ordinals p).

(** [r] is the answer of [spec] in every stable file. *)
Definition page_ok (spec : list text -> option (LocatorBasis * Z * list Z)) (r : option LocatedKeyPage)
    : Prop :=
  0 <= page_bytes r /\
  forall content modified, stable (mf_source f) content modified ->
    exists rows, all_rows f content = Ok rows /\ page_content <$> r = spec (map row_key rows).

Lemma page_ok_index keys l spec r :
  index_of keys l -> 0 <= page_bytes r ->
  (forall content modified, stable (mf_source f) content modified -> page_content <$> r = spec keys) ->
  page_ok spec r.
Proof.
  intros (_ & _ & _ & _ & Hk) Hb Hr. split; [done|]. intros content modified Hst.
  destruct (Hk _ _ Hst) as (rows & Hrows & ->). exists rows. split; [done|]. by eapply Hr.
Qed.

Lemma range_max keys l start end_ rows :
  index_of keys l -> slice (kl_order l) start end_ = Some rows -> end_ <= u64_max.
Proof.
  intros Hl [[_ Hend] _]%slice_Some. rewrite (order_length _ _ Hl) in Hend.
  destruct Hl as (_ & _ & Hm & _). unfold u32_max, u64_max in *. lia.
Qed.

Lemma keeps_fill_page keys l query start end_ offset limit bytes :
  index_of keys l -> 0 <= start < end_ -> 0 <= offset -> 0 <= limit -> 0 <= bytes ->
  slice (kl_order l) start end_ = Some (matching n keys (normalized n query)) ->
  keeps max (contracts f) (fill_page f l query start end_ offset limit bytes) (fun p =>
    lp_reservation p = Some bytes /\
    page_ok (fun keys => page_spec n keys query offset limit) (Some p)).
Proof.
  intros Hl Hse Ho Hlim Hbytes Hs. unfold fill_page.
  eapply (keeps_bind _ _ _ _ (fun _ => True)); [by apply keeps_lift, wp_try_reserve_vec|]. intros [] _. cbv beta.
  pose proof (positions_of_slice _ _ _ _ Hs) as Hpos.
  pose proof (keeps_page_exact_loop keys l query offset limit _ _ [] Hl Hpos Ho Hlim) as Hk.
  unfold page_of in Hk at 1. rewrite drop_nil, take_nil in Hk.
  eapply keeps_bind; [exact Hk|]. intros [count ordinals] (all & [= -> ->] & Hall). cbv beta iota.
  assert (matching n keys (normalized n query) <> []) as Hne.
  { intros E. rewrite E in Hs. apply slice_length in Hs. simpl in Hs. lia. }
  assert (forall content modified, stable (mf_source f) content modified -> all = raw_matching keys query) as Hall'.
  { intros content modified Hst. rewrite (Hall _ _ Hst). apply raw_in_matching. }
  apply keeps_if; intros Hcount; zbool.
  - apply keeps_ret. split; [done|]. eapply page_ok_index; [exact Hl|done|]. intros content modified Hst.
    rewrite (Hall' _ _ Hst) in Hcount |- *. unfold page_spec, locate_spec. simpl.
    destruct (matching n keys _); [done|]. by destruct (raw_matching keys query).
  - pose proof (page_slice _ _ _ _ offset limit Hs Ho Hlim (range_max _ _ _ _ _ Hl Hs)) as Hpage.
    cbv zeta in Hpage. pose proof (positions_of_slice _ _ _ _ Hpage) as Hpp.
    eapply (keeps_bind _ _ _ _ (fun os => os = page_of offset limit (matching n keys (normalized n query)))).
    { apply keeps_lift. by rewrite (copy_order_spec _ _ _ _ Hpp). }
    intros os ->. cbv beta. apply keeps_ret. split; [done|]. eapply page_ok_index; [exact Hl|done|].
    intros content modified Hst. assert (all = []) as -> by (destruct all; done).
    unfold page_spec, locate_spec. rewrite <- (Hall' _ _ Hst).
    pose proof (slice_length _ _ _ _ Hs) as Hlen. destruct (matching n keys _) as [|row m]; [done|].
    unfold page_content. simpl in *. by rewrite Hlen.
Qed.

Lemma triple_locate_key_page base hs query offset limit :
  0 <= base -> 0 <= offset -> 0 <= limit ->
  triple max (contracts f) base hs (locate_key_page f query offset limit)
    (page_ok (fun keys => page_spec n keys query offset limit))
    (fun r => base + page_bytes r) (fun _ => hs) base hs.
Proof.
  intros Hbase Ho Hlim. unfold locate_key_page.
  eapply triple_bind; [apply (acquires_key_locator f Hf)|]. intros locator [keys Hl]. cbv beta.
  intros s Hs. revert s Hs.
  assert (forall r, page_ok (fun keys => page_spec n keys query offset limit) r -> 0 <= base + page_bytes r) as Hpos
    by (intros r [? _]; lia).
  apply triple_with_arc_bytes. apply triple_with_normalized; [done|done|]. intros len Hlen.
  pose proof (equal_range_spec n keys (arc_value locator) (normalized n query) (proj1 Hl)) as Hrange.
  destruct (equal_range _ _) as [[start end_]|].
  - destruct Hrange as [Hse Hs].
    eapply triple_bind; [apply triple_lift, wp_ok_or; intros bytes Hb; exact Hb|]. intros bytes Hb. cbv beta in Hb |- *.
    apply checked_mul_Some in Hb as [-> _].
    set (bytes := Z.min limit (saturating_sub (end_ - start) offset) * size_of_u32).
    assert (0 <= bytes) by (unfold bytes, saturating_sub, size_of_u32; lia). clearbody bytes.
    eapply (triple_bind _ _ _ _ _ _ (fun _ => True)); [by apply triple_lift, wp_ensure_usize_limit|].
    intros [] _. cbv beta. eapply triple_bind.
    { apply triple_retained; [done|]. by apply (keeps_fill_page keys). }
    intros p [Hres Hp]. cbv beta. apply triple_ret; [done| |done]. simpl. rewrite Hres. simpl. lia.
  - apply triple_ret; [|simpl; lia|done]. eapply page_ok_index; [exact Hl|done|].
    intros content modified Hst. unfold page_spec, locate_spec. by rewrite Hrange.
Qed.

(** ** Prefixes *)

(** The order is: smaller rows, rows with the prefix, greater rows. *)
Lemma prefix_split keys p m :
  StronglySorted (row_le n keys) m ->
  exists before all after, m = before ++ all ++ after /\
    Forall (fun row => bytes_ltb (normalized_row n keys row) p = true) before /\
    Forall (fun row => starts_with (normalized_row n keys row) p = true) all /\
    Forall (fun row => bytes_ltb (normalized_row n keys row) p = false /\
                       starts_with (normalized_row n keys row) p = false) after.
Proof.
  induction 1 as [|x m _ (before & all & after & -> & Hb & Ha & Hg) Hx]; [by exists [], [], []|].
  assert (forall y, y ∈ before ++ all ++ after -> bytes_cmp (normalized_row n keys x) (normalized_row n keys y) <> Gt) as Hle.
  { rewrite Forall_forall in Hx. intros y [E|[E _]]%Hx; rewrite E; [done|]. by rewrite bytes_cmp_refl. }
  destruct (bytes_ltb (normalized_row n keys x) p) eqn:Elt.
  { exists (x :: before), all, after. split_and!; [done|by constructor|done|done]. }
  assert (before = []) as ->.
  { destruct before as [|y before]; [done|]. apply Forall_cons in Hb as [Hy _].
    rewrite (not_less_mono _ _ _ Elt (Hle y ltac:(apply list_elem_of_here))) in Hy. done. }
  destruct (starts_with (normalized_row n keys x) p) eqn:Es.
  { exists [], (x :: all), after. split_and!; [done|done|by constructor|done]. }
  assert (all = []) as ->.
  { destruct all as [|y all]; [done|]. apply Forall_cons in Ha as [Hy _].
    rewrite (starts_with_between _ _ _ Elt (Hle y ltac:(apply list_elem_of_here)) Hy) in Es. done. }
  exists [], [], (x :: after). split_and!; [done|done|done|by constructor].
Qed.

Lemma filter_all_true {A} (p : A -> bool) l : Forall (fun x => p x = true) l -> List.filter p l = l.
Proof. induction 1 as [|x l Hx _ IH]; [done|]. simpl. by rewrite Hx, IH. Qed.

Lemma filter_perm {A} (p : A -> bool) l l' : l ≡ₚ l' -> List.filter p l ≡ₚ List.filter p l'.
Proof.
  induction 1 as [|x l l' _ IH|x y l|l1 l2 l3 _ IH1 _ IH2]; cbn [List.filter]; [done|..].
  - by destruct (p x); rewrite IH.
  - destruct (p x), (p y); try done. apply Permutation_swap.
  - by rewrite IH1.
Qed.

Lemma wp_prefix_loop l p limit all after found :
  zlen found < limit ->
  Forall (fun row => starts_with (kl_row l row) p = true) all ->
  (forall row, head after = Some row -> starts_with (kl_row l row) p = false) ->
  wp (prefix_loop l p limit (all ++ after) found)
    (fun r => r = found ++ take (Z.to_nat (limit - zlen found)) all).
Proof.
  intros Hf0 Hall Hafter. revert found Hf0. induction Hall as [|row all Hrow _ IH]; intros found Hlen.
  - simpl. rewrite take_nil, app_nil_r. destruct after as [|row after]; [done|].
    simpl. by rewrite (Hafter row).
  - cbn [app prefix_loop]. rewrite Hrow. cbn [negb]. apply wp_bind, wp_try_reserve_vec.
    rewrite length_app. simpl length.
    replace (take (Z.to_nat (limit - zlen found)) (row :: all))
      with (row :: take (Z.to_nat (limit - (zlen found + 1))) all)
      by (by replace (Z.to_nat (limit - zlen found)) with (Datatypes.S (Z.to_nat (limit - (zlen found + 1)))) by lia).
    wp_step; zbool.
    + simpl. replace (Z.to_nat (limit - (zlen found + 1))) with 0%nat by lia. done.
    + eapply wp_mono; [apply IH; rewrite length_app; simpl; lia|]. intros r ->.
      rewrite length_app, <- app_assoc. simpl. do 4 f_equal. lia.
Qed.

(** Where the rows with a prefix are in the order. *)
Lemma prefix_order keys l p :
  locator_of n keys l ->
  let start := partition_point (fun row => bytes_ltb (kl_row l row) p) (kl_order l) in
  0 <= start <= zlen (kl_order l) /\
  exists all after, drop (Z.to_nat start) (kl_order l) = all ++ after /\
    Forall (fun row => starts_with (normalized_row n keys row) p = true) all /\
    (forall row, head after = Some row -> starts_with (normalized_row n keys row) p = false) /\
    (forall limit, prefix_spec n keys p limit (take (Z.to_nat limit) all)).
Proof.
  intros Hl. destruct (id Hl) as (_ & _ & _ & Hp & Hs).
  destruct (prefix_split keys p _ Hs) as (before & all & after & E & Hb & Ha & Hg).
  assert (forall row, row ∈ before ++ all ++ after -> kl_row l row = normalized_row n keys row) as Hrow.
  { intros row Hin. rewrite <- E in Hin. by destruct (locator_rows n keys l row Hl Hin). }
  cbv zeta. rewrite E. rewrite (partition_point_app _ before).
  - split; [rewrite length_app; lia|]. exists all, after. rewrite Nat2Z.id, drop_app_length.
    split_and!; [done|done| |].
    + intros row Hrow'. destruct after as [|y after]; [done|]. injection Hrow' as ->.
      by apply Forall_cons in Hg as [[_ Hg] _].
    + intros limit. exists all. split_and!; [| |done].
      * rewrite E in Hs. apply StronglySorted_app_1_r in Hs. by apply StronglySorted_app_1_l in Hs.
      * rewrite <- (filter_perm _ _ _ Hp), E, !List.filter_app, (filter_all_true _ all) by done.
        rewrite (filter_none _ before), (filter_none _ after); [by rewrite app_nil_r| |].
        -- rewrite Forall_forall in Hg. by intros y [_ ?]%Hg.
        -- rewrite Forall_forall in Hb. intros y Hy%Hb. destruct (starts_with _ p) eqn:Es; [|done].
           apply starts_with_not_less in Es. by rewrite Es in Hy.
  - rewrite Forall_forall in Hb |- *. intros row Hin. rewrite Hrow by (rewrite elem_of_app; auto). auto.
  - intros row Hhead. destruct (all ++ after) as [|y rest] eqn:Er; [done|]. injection Hhead as ->.
    rewrite Hrow by (rewrite elem_of_app; right; apply list_elem_of_here).
    destruct all as [|z all].
    + simpl in Er. subst after. apply Forall_cons in Hg as [[Hg _] _]. done.
    + injection Er as -> _. apply Forall_cons in Ha as [Ha _]. by apply starts_with_not_less.
Qed.

Lemma wp_prefix_search keys l p limit :
  index_of keys l -> 0 < limit ->
  let start := partition_point (fun row => bytes_ltb (kl_row l row) p) (kl_order l) in
  wp (prefix_loop l p limit (drop (Z.to_nat start) (kl_order l)) []) (prefix_spec n keys p limit).
Proof.
  intros (Hl & _) Hlim start. destruct (prefix_order keys l p Hl) as (_ & all & after & E & Ha & Hg & Hspec).
  fold start in E.
  assert (forall row, row ∈ all ++ after -> kl_row l row = normalized_row n keys row) as Hrow.
  { intros row Hin. rewrite <- E in Hin. apply (subseteq_drop (Z.to_nat start)) in Hin.
    by destruct (locator_rows n keys l row Hl Hin). }
  rewrite E. eapply wp_mono; [apply (wp_prefix_loop l p limit all after []); [done| |]|].
  - rewrite Forall_forall in Ha |- *. intros row Hin. rewrite Hrow by (rewrite elem_of_app; auto). auto.
  - intros row Hhead. rewrite Hrow; [by apply Hg|]. destruct after; [done|]. injection Hhead as ->.
    apply elem_of_app. right. apply list_elem_of_here.
  - intros r ->. simpl. rewrite Z.sub_0_r. apply Hspec.
Qed.

Lemma keeps_locate_prefix prefix limit :
  0 <= limit ->
  keeps max (contracts f) (locate_prefix f prefix limit) (fun found =>
    limit = 0 /\ found = [] \/
    0 < limit /\ exists keys, prefix_spec n keys (normalized n prefix) limit found /\
      forall content modified, stable (mf_source f) content modified ->
        exists rows, all_rows f content = Ok rows /\ keys = map row_key rows).
Proof.
  intros Hlim base hs s Hs. destruct (id Hs) as (_ & _ & Hbase & _). revert s Hs.
  unfold locate_prefix. apply triple_if; intros Hz; zbool; [apply triple_ret; auto|].
  eapply triple_bind; [apply (acquires_key_locator f Hf)|]. intros locator [keys Hl]. cbv beta.
  apply triple_with_arc, triple_with_normalized; [done|done|]. intros len Hlen.
  apply triple_lift. eapply wp_mono; [apply (wp_prefix_search keys); [done|lia]|].
  intros found Hfound. right. split; [lia|]. exists keys. split; [done|]. by destruct Hl as (_ & _ & _ & _ & ?).
Qed.

(** ** Scanning *)

Lemma scan_loop_ext {A} (t1 t2 : Z -> text) (visit : Visit A) rows acc :
  (forall row, row ∈ rows -> t1 row = t2 row) -> scan_loop t1 visit rows acc = scan_loop t2 visit rows acc.
Proof.
  revert acc; induction rows as [|row rows IH]; intros acc He; simpl; [done|].
  rewrite He by apply list_elem_of_here. destruct (visit acc row _) as [acc' []]; [done|].
  apply IH. intros r Hr. apply He. by apply list_elem_of_further.
Qed.

Lemma keeps_scan {A} (visit : Visit A) acc :
  keeps max (contracts f) (scan_normalized_keys f visit acc) (fun r =>
    forall content modified, stable (mf_source f) content modified ->
      exists rows, all_rows f content = Ok rows /\
        r = scan_loop (normalized_row n (map row_key rows)) visit (seqZ 0 (zlen rows)) acc).
Proof.
  intros base hs. unfold scan_normalized_keys.
  eapply triple_bind; [apply (acquires_key_locator f Hf)|]. intros locator [keys Hl]. cbv beta.
  apply triple_with_arc, triple_ret; [|done|done]. intros content modified Hst.
  pose proof (order_length _ _ Hl) as Hlen. destruct Hl as (Hl & Hz & Hmax & _ & Hk).
  destruct (Hk _ _ Hst) as (rows & Hrows & ->). exists rows. split; [done|].
  rewrite length_map in *. unfold row_count. rewrite Hlen.
  unfold wrap32. rewrite Z.mod_small by (unfold u32_max in *; lia).
  apply scan_loop_ext. intros row Hrow. apply (locator_rows n _ _ row Hl).
  destruct Hl as (_ & _ & _ & Hp & _). rewrite Hp. by rewrite length_map.
Qed.

End LocateProofs.

(** * Properties *)

(** C20: the index is built from every key in physical order and sorted
    without losing or repeating a row; building it either succeeds, and then
    in a stable file it is the index of all keys, or fails and gives back what
    it had reserved.  It is built once: the index returned is in the cell of
    the dictionary, and every later call with that cell returns it without
    another build.  A failure that can be remembered is in the cell too, and
    every later call replays it without changing anything; the cell stays empty
    only behind a build whose failure cannot be remembered.  A cell that is set
    is never set again. *)
Theorem key_locator_correct `{EnvOk} f base hs s :
  file_ok f -> state_ok f base hs s ->
  wpM (key_locator f) s
    (fun locator s' =>
      (forall content modified, stable (mf_source f) content modified ->
         exists rows, all_rows f content = Ok rows /\
           locator_of (mf_normalizer f) (map row_key rows) (arc_value locator)) /\
      (cs_locator s' = Some (Ready locator) /\
       forall later, cs_locator later = cs_locator s' -> key_locator f later = arc_clone locator later) /\
      (cs_locator s <> None -> cs_locator s' = cs_locator s) /\
      state_ok f base (arc_id locator :: hs) s')
    (fun e s' =>
      failure_left f s s' e /\ (cs_locator s <> None -> cs_locator s' = cs_locator s) /\
      state_ok f base hs s').
Proof.
  intros Hf Hs. pose proof (acquires_key_locator f Hf base hs s Hs) as Ha.
  destruct (key_locator_shared f s) as [Hshared Hcell]. unfold wpM in *.
  destruct (key_locator f s) as [[locator|e| |] s']; try done.
  destruct Ha as [(keys & Hl & _ & _ & _ & Hk) Hs']. split; [|done]. intros content modified Hst.
  destruct (Hk _ _ Hst) as (rows & Hrows & ->). by exists rows.
Qed.

(** C11: a lookup returns the rows whose key is spelled exactly like the
    query, if there are any, and otherwise all rows with the query's
    normalized form, in both cases every such row once, in physical order;
    without a row of that form it returns nothing. *)
Theorem locate_keys_correct `{EnvOk} f base hs s query :
  file_ok f -> state_ok f base hs s ->
  wpM (locate_keys f query) s
    (fun r s' =>
      (forall content modified, stable (mf_source f) content modified ->
         exists rows, all_rows f content = Ok rows /\
           match r, locate_spec (mf_normalizer f) (map row_key rows) query with
           | Some k, Some (basis, ordinals) => lk_basis k = basis /\ denotes k ordinals
           | None, None => True
           | _, _ => False
           end) /\
      state_ok f base (located_handles r ++ hs) s')
    (fun _ s' => state_ok f base hs s').
Proof.
  intros Hf Hs. destruct (id Hs) as (_ & _ & Hbase & _).
  eapply wpM_mono; [exact (triple_locate_keys f Hf base hs query Hbase s Hs)| |done].
  by intros r s' [[_ Hr] Hs'].
Qed.

(** C22: a page lookup agrees with the full lookup: the same basis, the
    number of all matches, and the window [offset, offset + limit) of them,
    for any offset and limit. *)
Theorem locate_key_page_correct `{EnvOk} f base hs s query offset limit :
  file_ok f -> state_ok f base hs s -> 0 <= offset -> 0 <= limit ->
  wpM (locate_key_page f query offset limit) s
    (fun r s' =>
      (forall content modified, stable (mf_source f) content modified ->
         exists rows, all_rows f content = Ok rows /\
           page_content <$> r = page_spec (mf_normalizer f) (map row_key rows) query offset limit) /\
      state_ok f (base + page_bytes r) hs s')
    (fun _ s' => state_ok f base hs s').
Proof.
  intros Hf Hs Ho Hl. destruct (id Hs) as (_ & _ & Hbase & _).
  eapply wpM_mono; [exact (triple_locate_key_page f Hf base hs query offset limit Hbase Ho Hl s Hs)| |done].
  by intros r s' [[_ Hr] Hs'].
Qed.

(** A prefix lookup returns the first [limit] rows, in normalized order
    and then physical order, whose normalized key starts with the normalized
    prefix: the binary search skips no such row. *)
Theorem locate_prefix_correct `{EnvOk} f base hs s prefix limit :
  file_ok f -> state_ok f base hs s -> 0 < limit ->
  wpM (locate_prefix f prefix limit) s
    (fun found s' =>
      (forall content modified, stable (mf_source f) content modified ->
         exists rows, all_rows f content = Ok rows /\
           prefix_spec (mf_normalizer f) (map row_key rows)
             (normalized (mf_normalizer f) prefix) limit found) /\
      state_ok f base hs s')
    (fun _ s' => state_ok f base hs s').
Proof.
  intros Hf Hs Hlim.
  eapply wpM_mono; [apply (keeps_locate_prefix f Hf prefix limit ltac:(lia) base hs s Hs)| |done].
  intros found s' [Hr Hs']. split; [|done]. intros content modified Hst.
  destruct Hr as [[? _]|(_ & keys & Hp & Hk)]; [lia|].
  destruct (Hk _ _ Hst) as (rows & Hrows & ->). by exists rows.
Qed.

(** A scan shows the visitor the normalized key of every row in
    physical order until it breaks. *)
Theorem scan_normalized_keys_correct `{EnvOk} {A} f (visit : Visit A) acc base hs s :
  file_ok f -> state_ok f base hs s ->
  wpM (scan_normalized_keys f visit acc) s
    (fun r s' =>
      (forall content modified, stable (mf_source f) content modified ->
         exists rows, all_rows f content = Ok rows /\
           r = scan_loop (normalized_row (mf_normalizer f) (map row_key rows)) visit
                 (seqZ 0 (zlen rows)) acc) /\
      state_ok f base hs s')
    (fun _ s' => state_ok f base hs s').
Proof. intros Hf Hs. exact (keeps_scan f Hf visit acc base hs s Hs). Qed.

(** ** Witnesses, on the sample with keys Alpha, Beta, alpha and gamma *)

Example key_locator_witness :
  wpM (@key_locator simple_env sample_file) sample_state
    (fun locator s' => @state_ok simple_env sample_file sample_base [arc_id locator] s' /\
       @key_locator simple_env sample_file s' = @arc_clone KeyLocator locator s')
    (fun _ s' => @state_ok simple_env sample_file sample_base [] s') /\
  match fst (@key_locator simple_env sample_file sample_state) with
  | Ok locator => kl_order (arc_value locator) = [0; 2; 1; 3]
  | _ => False
  end.
Proof.
  split; [|vm_compute; reflexivity].
  eapply wpM_mono; [apply (@key_locator_correct simple_env simple_env_ok sample_file sample_base []
    sample_state (proj1 sample_ok) (proj2 sample_ok))|..].
  - intros locator s' (_ & [_ Hagain] & _ & Hs). split; [exact Hs|]. exact (Hagain s' eq_refl).
  - intros e s' (_ & _ & Hs). exact Hs.
Defined.

Example locate_keys_witness :
  wpM (@locate_keys simple_env sample_file (lit "ALPHA")) sample_state
    (fun r s' => @state_ok simple_env sample_file sample_base (located_handles r ++ []) s')
    (fun _ s' => @state_ok simple_env sample_file sample_base [] s') /\
  match fst (@locate_keys simple_env sample_file (lit "ALPHA") sample_state) with
  | Ok (Some k) => lk_basis k = HeaderNormalized /\
      map (located_ordinal_at k) [0; 1; 2] = [Some 0; Some 2; None]
  | _ => False
  end.
Proof.
  split; [|vm_compute; split; reflexivity].
  eapply wpM_mono; [apply (@locate_keys_correct simple_env simple_env_ok sample_file sample_base []
    sample_state (lit "ALPHA") (proj1 sample_ok) (proj2 sample_ok))| |done].
  intros r s' [_ Hs]. exact Hs.
Defined.

Example locate_key_page_witness :
  wpM (@locate_key_page simple_env sample_file (lit "alpha") 0 5) sample_state
    (fun r s' => @state_ok simple_env sample_file (sample_base + page_bytes r) [] s')
    (fun _ s' => @state_ok simple_env sample_file sample_base [] s') /\
  match fst (@locate_key_page simple_env sample_file (lit "alpha") 0 5 sample_state) with
  | Ok (Some p) => page_content p = (RawExact, 1, [2])
  | _ => False
  end.
Proof.
  split; [|vm_compute; reflexivity].
  eapply wpM_mono; [apply (@locate_key_page_correct simple_env simple_env_ok sample_file sample_base []
    sample_state (lit "alpha") 0 5 (proj1 sample_ok) (proj2 sample_ok)); lia| |done].
  intros r s' [_ Hs]. exact Hs.
Defined.

Example locate_prefix_witness :
  wpM (@locate_prefix simple_env sample_file (lit "al") 2) sample_state
    (fun r s' => @state_ok simple_env sample_file sample_base [] s')
    (fun _ s' => @state_ok simple_env sample_file sample_base [] s') /\
  fst (@locate_prefix simple_env sample_file (lit "al") 2 sample_state) = Ok [0; 2].
Proof.
  split; [|vm_compute; reflexivity].
  eapply wpM_mono; [apply (@locate_prefix_correct simple_env simple_env_ok sample_file sample_base []
    sample_state (lit "al") 2 (proj1 sample_ok) (proj2 sample_ok)); lia| |done].
  intros r s' [_ Hs]. exact Hs.
Defined.

(** A visitor that collects the keys and breaks behind the third. *)
Example scan_normalized_keys_witness :
  let visit acc (row : Z) key := (acc ++ [key], row =? 2) in
  wpM (@scan_normalized_keys simple_env sample_file _ visit []) sample_state
    (fun r s' => @state_ok simple_env sample_file sample_base [] s')
    (fun _ s' => @state_ok simple_env sample_file sample_base [] s') /\
  fst (@scan_normalized_keys simple_env sample_file _ visit [] sample_state) =
    Ok [lit "alpha"; lit "beta"; lit "alpha"].
Proof.
  intros visit. split; [|vm_compute; reflexivity].
  eapply wpM_mono; [apply (@scan_normalized_keys_correct simple_env simple_env_ok _ sample_file visit []
    sample_base [] sample_state (proj1 sample_ok) (proj2 sample_ok))| |done].
  intros r s' [_ Hs]. exact Hs.
Defined.
