(* ===== verification/CaseVariants.v ===== *)
(** Case-only selection inside a normalized range: [src/core/case_variants.rs]
    and [locate_case_variants] of [src/core/locator.rs].  [select_page] sees
    the candidates through [source_key] only, so that both index backends use
    it; its theorem is about any state and any source that reports the rows of a
    list. *)

From stdpp Require Import list_numbers.
From S2P Require Import Prelude Errors Types Budget Logic Utf8 Encoding Source Descriptors Header KeySection Format Normalize LocatorIndex Samples Arcs Core Dictionary SampleDictionary Keys Locator Locate.

Section CaseVariants.

Context `{Env} {S} `{HasWorld S} (f : MdictFile).

(** [str::is_ascii] *)
Definition is_ascii (t : text) : bool := forallb (fun b => b <? 128) t.

(** [equal_ignoring_case] *)
Definition equal_ignoring_case (left right : text) : bool :=
  if is_ascii left && is_ascii right then eq_ignore_ascii_case left right
  else bytes_eqb (flat_map to_lowercase (chars left)) (flat_map to_lowercase (chars right)).

(** [x += 1] *)
Definition increment (x : Z) : Result Z :=
  or_panic (checked_add x 1) "attempt to add with overflow".

(** The first loop of [select_page]: the counts and the exact part of the
    page. *)
Fixpoint classify_loop (query : text) (offset limit : Z) (source_key : Z -> M S (Z * KeyEntry))
    (positions : list Z) (exact_count variant_count : Z) (ordinals : list Z)
    : M S (Z * Z * list Z) :=
  match positions with
  | [] => mret (exact_count, variant_count, ordinals)
  | position :: positions =>
      let! '(ordinal, key) := source_key position in
      if bytes_eqb (ke_key key) query then
        let ordinals :=
          if (offset <=? exact_count) && (zlen ordinals <? limit)
          then ordinals ++ [ordinal] else ordinals in
        let! exact_count := lift (increment exact_count) in
        classify_loop query offset limit source_key positions exact_count variant_count ordinals
      else if equal_ignoring_case (ke_key key) query then
        let! variant_count := lift (increment variant_count) in
        classify_loop query offset limit source_key positions exact_count variant_count ordinals
      else classify_loop query offset limit source_key positions exact_count variant_count ordinals
  end.

(** The second loop of [select_page]: the variants of the page. *)
Fixpoint variant_loop (query : text) (wanted variant_offset : Z)
    (source_key : Z -> M S (Z * KeyEntry)) (positions : list Z) (variant_position : Z)
    (ordinals : list Z) : M S (list Z) :=
  match positions with
  | [] => mret ordinals
  | position :: positions =>
      let! '(ordinal, key) := source_key position in
      if negb (bytes_eqb (ke_key key) query) && equal_ignoring_case (ke_key key) query then
        let ordinals :=
          if variant_offset <=? variant_position then ordinals ++ [ordinal] else ordinals in
        if (variant_offset <=? variant_position) && (zlen ordinals =? wanted) then mret ordinals
        else
          let! variant_position := lift (increment variant_position) in
          variant_loop query wanted variant_offset source_key positions variant_position ordinals
      else variant_loop query wanted variant_offset source_key positions variant_position ordinals
  end.

(** The part of [select_page] that owns the reservation of the page; [None]
    drops it. *)
Definition select_within (query : text) (candidate_count offset limit bytes : Z)
    (source_key : Z -> M S (Z * KeyEntry)) : M S (option LocatedKeyPage) :=
  let capacity := Z.min limit (saturating_sub candidate_count offset) in
  let! _ := lift (try_reserve_vec 0 size_of_u32 capacity "case-variant match page") in
  let! '(exact_count, variant_count, ordinals) :=
    classify_loop query offset limit source_key (seqZ 0 candidate_count) 0 0 [] in
  let! total := lift (or_panic (checked_add exact_count variant_count)
                        "attempt to add with overflow") in
  if total =? 0 then (fun s => (Ok None, drop_reservation bytes s))
  else
    let wanted := Z.min limit (saturating_sub total offset) in
    let! ordinals :=
      if zlen ordinals <? wanted
      then variant_loop query wanted (saturating_sub offset exact_count) source_key
             (seqZ 0 candidate_count) 0 ordinals
      else mret ordinals in
    mret (Some {| lp_basis := if variant_count =? 0 then RawExact else CaseVariants;
                  lp_total := total; lp_ordinals := ordinals; lp_reservation := Some bytes |}).

(** [select_page] *)
Definition select_page (query : text) (candidate_count offset limit : Z)
    (source_key : Z -> M S (Z * KeyEntry)) : M S (option LocatedKeyPage) :=
  let capacity := Z.min limit (saturating_sub candidate_count offset) in
  let! bytes := lift (ok_or (checked_mul capacity size_of_u32)
                        (InvalidFormat "case-variant page size overflow")) in
  let! _ := lift (ensure_usize_limit "key_match_page_bytes" bytes (locator_bytes (mf_limits f))) in
  retained bytes "case-variant match page"
    (select_within query candidate_count offset limit bytes source_key).

End CaseVariants.

Section LocateCaseVariants.

Context `{Env} (f : MdictFile).

(** The closure of [locate_case_variants]. *)
Definition locator_source_key (l : KeyLocator) (start position : Z) : M CoreState (Z * KeyEntry) :=
  let! ordinal := lift (ok_or (get_at (kl_order l) (start + position))
                          (InvalidFormat "case-variant range escaped locator")) in
  let! key := key_at_ordinal f ordinal in
  let! key := lift (ok_or key (InvalidFormat "case-variant row has no source key")) in
  mret (ordinal, key).

(** [locate_case_variants] *)
Definition locate_case_variants (query : text) (offset limit : Z)
    : M CoreState (option LocatedKeyPage) :=
  let! locator := key_locator f in
  with_arc locator (
    with_normalized f query "case-variant query" (fun normalized =>
      match equal_range (arc_value locator) normalized with
      | None => mret None
      | Some (start, end_) =>
          select_page f query (end_ - start) offset limit
            (locator_source_key (arc_value locator) start)
      end)).

End LocateCaseVariants.

(** * Specification *)

Section Spec.

Context `{Env}.

(** A key that differs from the query in case only. *)
Definition is_variant (query key : text) : bool :=
  negb (bytes_eqb key query) && equal_ignoring_case key query.

Definition variants_of (keys : list text) (query : text) (rows : list Z) : list Z :=
  List.filter (fun row => is_variant query (key_at keys row)) rows.

(** The exact rows and then the variants, among [rows]. *)
Definition select_spec (keys : list text) (query : text) (offset limit : Z) (rows : list Z)
    : option (LocatorBasis * Z * list Z) :=
  let exact := exact_of keys query rows in
  let variants := variants_of keys query rows in
  match exact ++ variants with
  | [] => None
  | all => Some (match variants with [] => RawExact | _ => CaseVariants end, zlen all,
                 page_of offset limit all)
  end.

Definition variants_spec (n : KeyNormalizer) (keys : list text) (query : text) (offset limit : Z) :=
  select_spec keys query offset limit (matching n keys (normalized n query)).

End Spec.

(** * Lemmas *)

Section CaseProofs.

Context `{Env} {S} `{HasWorld S} (Inv : Z -> list nat -> S -> Prop) `{!Resources Inv}.

(** What the source needs to report its rows as they are. *)
Context (St : Prop).

(** What a backend promises of its closure: it reports the candidates [m] and their keys. *)
Definition reports (keys : list text) (m : list Z) (source_key : Z -> M S (Z * KeyEntry)) : Prop :=
  forall position row, get_at m position = Some row ->
    hkeeps Inv (source_key position)
      (fun r => St -> fst r = row /\ ke_key (snd r) = key_at keys row).

Context (keys : list text) (query : text) (source_key : Z -> M S (Z * KeyEntry)).

(** The candidates at [positions] are [rows]. *)
Definition reported (positions rows : list Z) : Prop :=
  Forall2 (fun position row => hkeeps Inv (source_key position)
             (fun r => St -> fst r = row /\ ke_key (snd r) = key_at keys row)) positions rows.

Lemma variants_of_cons row rows :
  variants_of keys query (row :: rows) =
  (if is_variant query (key_at keys row) then [row] else []) ++ variants_of keys query rows.
Proof. unfold variants_of. cbn [List.filter]. by destruct (is_variant _ _). Qed.

Lemma keeps_increment x :
  x < u64_max -> hkeeps Inv (lift (increment x)) (fun y => y = x + 1).
Proof.
  intros ?. apply (hkeeps_lift Inv). unfold increment, checked_add. rewrite (proj2 (Z.leb_le _ _)) by lia. done.
Qed.

(** The first pass, when [exact] and [variants] have been seen. *)
Lemma keeps_classify_loop offset limit positions rows exact variants :
  reported positions rows -> 0 <= offset -> 0 <= limit ->
  zlen exact + zlen variants + zlen positions <= u64_max ->
  hkeeps Inv
    (classify_loop query offset limit source_key positions (zlen exact) (zlen variants)
       (page_of offset limit exact)) (fun r =>
    exists exact' variants', r = (zlen exact', zlen variants', page_of offset limit exact') /\
      zlen exact' + zlen variants' <= zlen exact + zlen variants + zlen positions /\
      (St -> exact' = exact ++ exact_of keys query rows /\
             variants' = variants ++ variants_of keys query rows)).
Proof.
  intros Hp Ho Hl; revert exact variants; induction Hp as [|p row positions rows Hrow _ IH];
    intros exact variants Hmax; cbn [classify_loop].
  { apply (hkeeps_ret Inv). exists exact, variants. split; [done|]. split; [simpl; lia|].
    intros _. by rewrite !app_nil_r. }
  eapply (hkeeps_bind Inv); [exact Hrow|]. intros [ordinal key] Hkey. cbv beta iota. simpl in Hkey.
  rewrite length_cons in Hmax. rewrite length_cons.
  destruct (bytes_eqb (ke_key key) query) eqn:Ee; [|destruct (equal_ignoring_case (ke_key key) query) eqn:Ei].
  - rewrite <- page_of_snoc by done. eapply (hkeeps_bind Inv); [apply keeps_increment; lia|]. intros ? ->. cbv beta.
    replace (zlen exact + 1) with (zlen (exact ++ [ordinal])) by (rewrite length_app; simpl; lia).
    eapply (hkeeps_mono Inv); [apply IH; rewrite length_app; simpl; lia|].
    intros r (exact' & variants' & -> & Hz & Hst). exists exact', variants'. split; [done|].
    split; [rewrite length_app in Hz; simpl in Hz; lia|]. intros Hs. destruct (Hkey Hs) as [-> Hk].
    destruct (Hst Hs) as [-> ->]. rewrite exact_of_cons, variants_of_cons. unfold is_variant.
    rewrite <- Hk, Ee, <- app_assoc. done.
  - eapply (hkeeps_bind Inv); [apply keeps_increment; lia|]. intros ? ->. cbv beta.
    replace (zlen variants + 1) with (zlen (variants ++ [ordinal])) by (rewrite length_app; simpl; lia).
    eapply (hkeeps_mono Inv); [apply IH; rewrite length_app; simpl; lia|].
    intros r (exact' & variants' & -> & Hz & Hst). exists exact', variants'. split; [done|].
    split; [rewrite length_app in Hz; simpl in Hz; lia|]. intros Hs. destruct (Hkey Hs) as [-> Hk].
    destruct (Hst Hs) as [-> ->]. rewrite exact_of_cons, variants_of_cons. unfold is_variant.
    rewrite <- Hk, Ee, Ei, <- app_assoc. done.
  - eapply (hkeeps_mono Inv); [apply IH; lia|].
    intros r (exact' & variants' & -> & Hz & Hst). exists exact', variants'. split; [done|].
    split; [lia|]. intros Hs. destruct (Hkey Hs) as [-> Hk].
    destruct (Hst Hs) as [-> ->]. rewrite exact_of_cons, variants_of_cons. unfold is_variant.
    by rewrite <- Hk, Ee, Ei.
Qed.

(** The second pass. *)
Lemma keeps_variant_loop wanted variant_offset positions rows vp ordinals :
  reported positions rows -> zlen ordinals < wanted -> 0 <= vp -> vp + zlen positions <= u64_max ->
  hkeeps Inv
    (variant_loop query wanted variant_offset source_key positions vp ordinals) (fun r => St ->
    r = ordinals ++ take (Z.to_nat (wanted - zlen ordinals))
                      (drop (Z.to_nat (variant_offset - vp)) (variants_of keys query rows))).
Proof.
  intros Hp; revert vp ordinals; induction Hp as [|p row positions rows Hrow _ IH];
    intros vp ordinals Hlen Hvp Hmax; cbn [variant_loop].
  { apply (hkeeps_ret Inv). intros _. unfold variants_of; simpl. by rewrite drop_nil, take_nil, app_nil_r. }
  eapply (hkeeps_bind Inv); [exact Hrow|]. intros [ordinal key] Hkey. cbv beta iota. simpl in Hkey.
  rewrite length_cons in Hmax. fold (is_variant query (ke_key key)).
  destruct (is_variant query (ke_key key)) eqn:Ev.
  2: { eapply (hkeeps_mono Inv); [apply IH; lia|]. intros r Hr Hs. destruct (Hkey Hs) as [-> Hk].
       by rewrite (Hr Hs), variants_of_cons, <- Hk, Ev. }
  destruct (Z.leb_spec variant_offset vp); cbn [andb].
  - apply (hkeeps_if Inv); intros Hw; zbool; rewrite length_app in Hw; simpl length in Hw.
    + apply (hkeeps_ret Inv). intros Hs. destruct (Hkey Hs) as [-> Hk]. rewrite variants_of_cons, <- Hk, Ev.
      replace (Z.to_nat (variant_offset - vp)) with 0%nat by lia.
      by replace (Z.to_nat (wanted - zlen ordinals)) with 1%nat by lia.
    + eapply (hkeeps_bind Inv); [apply keeps_increment; lia|]. intros ? ->. cbv beta.
      eapply (hkeeps_mono Inv); [apply IH; rewrite ?length_app; simpl; lia|]. intros r Hr Hs.
      destruct (Hkey Hs) as [-> Hk]. rewrite (Hr Hs), variants_of_cons, <- Hk, Ev, length_app, <- app_assoc.
      replace (Z.to_nat (variant_offset - vp)) with 0%nat by lia.
      replace (Z.to_nat (variant_offset - (vp + 1))) with 0%nat by lia. simpl.
      replace (Z.to_nat (wanted - zlen ordinals))
        with (Datatypes.S (Z.to_nat (wanted - Z.of_nat (length ordinals + 1)))) by lia. done.
  - eapply (hkeeps_bind Inv); [apply keeps_increment; lia|]. intros ? ->. cbv beta.
    eapply (hkeeps_mono Inv); [apply IH; lia|]. intros r Hr Hs.
    destruct (Hkey Hs) as [-> Hk]. rewrite (Hr Hs), variants_of_cons, <- Hk, Ev.
    by replace (Z.to_nat (variant_offset - vp)) with (Datatypes.S (Z.to_nat (variant_offset - (vp + 1)))) by lia.
Qed.

Lemma take_same {A} (a b : nat) (l : list A) :
  (a = b \/ length l <= a /\ length l <= b)%nat -> take a l = take b l.
Proof. intros [->|[? ?]]; [done|]. by rewrite !take_ge. Qed.

Lemma page_of_two offset limit exact variants :
  0 <= offset -> 0 <= limit ->
  let os := page_of offset limit exact in
  let wanted := Z.min limit (saturating_sub (zlen exact + zlen variants) offset) in
  page_of offset limit (exact ++ variants) =
  if zlen os <? wanted
  then os ++ take (Z.to_nat (wanted - zlen os))
               (drop (Z.to_nat (saturating_sub offset (zlen exact) - 0)) variants)
  else os.
Proof.
  intros Ho Hl os wanted. unfold os, wanted, page_of, saturating_sub.
  rewrite drop_app, take_app, length_drop, length_take, length_drop.
  destruct (Z.ltb_spec (Z.of_nat (Z.to_nat limit `min` (length exact - Z.to_nat offset)))
              (Z.min limit (Z.max 0 (zlen exact + zlen variants - offset)))).
  - f_equal. replace (Z.to_nat (Z.max 0 (offset - zlen exact) - 0)) with (Z.to_nat offset - length exact)%nat by lia.
    apply take_same. rewrite length_drop. lia.
  - destruct (Nat.le_gt_cases (Z.to_nat limit) (length exact - Z.to_nat offset)).
    + rewrite (proj2 (Nat.sub_0_le _ _)) by lia. by rewrite take_0, app_nil_r.
    + rewrite (drop_ge variants) by lia. by rewrite take_nil, app_nil_r.
Qed.

Lemma reports_all m :
  reports keys m source_key -> reported (seqZ 0 (zlen m)) m.
Proof.
  intros Hr. apply Forall2_same_length_lookup. split; [rewrite length_seqZ; lia|].
  intros i position row [-> _]%lookup_seqZ Hrow. apply Hr. rewrite Z.add_0_l. by apply lookup_get_at.
Qed.

(** What a page of [m] must be. *)
Definition selected (offset limit : Z) (m : list Z) (r : option LocatedKeyPage) : Prop :=
  0 <= page_bytes r /\ (St -> page_content <$> r = select_spec keys query offset limit m).

Lemma triple_select_within base hs m offset limit bytes :
  reports keys m source_key -> zlen m <= u32_max -> 0 <= offset -> 0 <= limit -> 0 <= bytes -> 0 <= base ->
  htriple Inv (base + bytes) hs
    (select_within query (zlen m) offset limit bytes source_key) (selected offset limit m)
    (fun r => base + page_bytes r) (fun _ => hs) (base + bytes) hs.
Proof.
  intros Hr Hm Ho Hl Hb Hbase. apply reports_all in Hr as Hall. unfold select_within.
  eapply (htriple_bind Inv _ _ _ _ (fun _ => True)); [by apply (htriple_lift Inv), wp_try_reserve_vec|].
  intros [] _. cbv beta.
  assert (zlen (seqZ 0 (zlen m)) = zlen m) as Hlen by (rewrite length_seqZ; lia).
  pose proof (keeps_classify_loop offset limit _ _ [] [] Hall Ho Hl) as Hc. rewrite Hlen in Hc.
  unfold page_of in Hc at 1. rewrite drop_nil, take_nil in Hc. unfold u32_max in Hm.
  eapply (htriple_bind Inv); [apply Hc; unfold u64_max; simpl; lia|].
  intros [[ec vc] os] (exact & variants & [= -> -> ->] & Hz & Hst). cbv beta iota. cbn [length] in Hz.
  assert (zlen exact + zlen variants <= u64_max) as Hsum by (unfold u64_max; lia).
  eapply (htriple_bind Inv _ _ _ _ (fun t => t = zlen exact + zlen variants));
    [apply (htriple_lift Inv); unfold checked_add; by rewrite (proj2 (Z.leb_le _ _) Hsum)|]. intros ? ->. cbv beta.
  apply (htriple_if Inv); intros Ht; zbool.
  - intros s Hs. split.
    + split; [done|]. intros HSt. destruct (Hst HSt) as [-> ->]. unfold select_spec. simpl in Ht.
      destruct (exact_of keys query m), (variants_of keys query m); simpl in *; done || lia.
    + simpl. rewrite Z.add_0_r. by apply inv_drop.
  - eapply (htriple_bind Inv _ _ _ _ (fun os => St -> os = page_of offset limit (exact ++ variants))
              (fun _ => base + bytes) (fun _ => hs)).
    + apply (htriple_if Inv); intros Hw; zbool.
      * eapply (htriple_mono Inv); [apply keeps_variant_loop; [exact Hall|exact Hw|done|rewrite Hlen; unfold u64_max; lia]|].
        intros os Hos. split; [|done]. intros HSt. rewrite (Hos HSt). destruct (Hst HSt) as [_ Ev].
        rewrite page_of_two, (proj2 (Z.ltb_lt _ _) Hw) by done. simpl in Ev. by rewrite Ev.
      * apply (htriple_ret Inv); [|done|done]. intros HSt. by rewrite page_of_two, (proj2 (Z.ltb_ge _ _) Hw).
    + intros os Hos. cbv beta. apply (htriple_ret Inv); [|simpl; lia|done]. split; [simpl; lia|]. intros HSt.
      destruct (Hst HSt) as [E1 E2]. simpl in E1, E2. unfold select_spec. rewrite <- E1, <- E2.
      unfold page_content; simpl. rewrite (Hos HSt).
      destruct exact, variants; simpl in *; try (exfalso; lia); rewrite ?length_app; repeat f_equal; simpl; lia.
Qed.

Lemma triple_select_page (f : MdictFile) base hs m offset limit :
  reports keys m source_key -> zlen m <= u32_max -> 0 <= offset -> 0 <= limit -> 0 <= base ->
  htriple Inv base hs (select_page f query (zlen m) offset limit source_key)
    (selected offset limit m) (fun r => base + page_bytes r) (fun _ => hs) base hs.
Proof.
  intros Hr Hm Ho Hl Hbase. unfold select_page.
  eapply (htriple_bind Inv); [apply (htriple_lift Inv), wp_ok_or; intros bytes Hb; exact Hb|]. intros bytes Hb. cbv beta in Hb |- *.
  apply checked_mul_Some in Hb as [-> _].
  set (bytes := Z.min limit (saturating_sub (zlen m) offset) * size_of_u32).
  assert (0 <= bytes) by (unfold bytes, saturating_sub, size_of_u32; lia). clearbody bytes.
  eapply (htriple_bind Inv _ _ _ _ (fun _ => True)); [by apply (htriple_lift Inv), wp_ensure_usize_limit|].
  intros [] _. cbv beta. apply (htriple_retained Inv); [done|]. by apply triple_select_within.
Qed.

End CaseProofs.

Section CaseLookup.

Context `{EnvOk} (f : MdictFile) (Hf : file_ok f).

Let max := working_memory_bytes (mf_limits f).

Let n := mf_normalizer f.

Let St : Prop := exists content modified, stable (mf_source f) content modified.

(** The closure over the in-memory index keeps the promise. *)
Lemma locator_reports keys l start end_ m :
  index_of f keys l -> 0 <= start -> slice (kl_order l) start end_ = Some m ->
  reports (core_ok max (contracts f)) St keys m (locator_source_key f l start).
Proof.
  intros Hl Hstart Hs position row Hrow. unfold locator_source_key.
  pose proof (slice_length _ _ _ _ Hs). pose proof (get_at_Some _ _ _ Hrow).
  rewrite (slice_get_at _ _ _ _ position Hs) in Hrow by lia. rewrite Hrow.
  destruct (id Hl) as ((_ & _ & _ & Hp & _) & Hz & _).
  assert (0 <= row < zlen keys) as Hr.
  { apply get_at_elem_of in Hrow. rewrite Hp in Hrow. apply elem_of_seqZ in Hrow. lia. }
  eapply (keeps_bind _ _ _ _ (fun o => o = row)); [by apply keeps_lift|]. intros ? ->. cbv beta.
  eapply keeps_bind; [apply (keeps_key_at_ordinal f Hf); lia|]. intros key Hkey. cbv beta.
  destruct key as [key|]; [|apply keeps_err]. simpl in Hkey. destruct Hkey as (_ & _ & _ & Hkey).
  eapply (keeps_bind _ _ _ _ (fun k => k = key)); [by apply keeps_lift|]. intros ? ->. cbv beta.
  apply keeps_ret. intros (content & modified & Hst). split; [done|].
  destruct (Hkey _ _ Hst) as (r & Hat & E). cbn [snd]. rewrite E. by eapply row_at_key.
Qed.

Lemma triple_locate_case_variants base hs query offset limit :
  0 <= base -> 0 <= offset -> 0 <= limit ->
  triple max (contracts f) base hs (locate_case_variants f query offset limit)
    (page_ok f (fun keys => variants_spec n keys query offset limit))
    (fun r => base + page_bytes r) (fun _ => hs) base hs.
Proof.
  intros Hbase Ho Hl. unfold locate_case_variants.
  eapply triple_bind; [apply (acquires_key_locator f Hf)|]. intros locator [keys Hk]. cbv beta.
  apply triple_with_arc_bytes. apply triple_with_normalized; [done|by intros r [? _]; lia|]. intros len Hlen.
  pose proof (equal_range_spec n keys (arc_value locator) (normalized n query) (proj1 Hk)) as Hrange.
  destruct (equal_range _ _) as [[start end_]|].
  - destruct Hrange as [Hse Hs]. pose proof (slice_length _ _ _ _ Hs) as Hm. rewrite <- Hm.
    eapply triple_mono; [apply (triple_select_page (core_ok max (contracts f)) St keys); [|..|lia]|].
    + eapply locator_reports; [exact Hk|lia|exact Hs].
    + apply slice_Some in Hs as [[_ Hend] _]. rewrite (order_length f _ _ Hk) in Hend.
      destruct Hk as (_ & _ & ? & _). lia.
    + done.
    + done.
    + intros r [Hb Hr]. split; [|split; [lia|done]]. eapply page_ok_index; [exact Hk|done|].
      intros content modified Hst. apply Hr. by exists content, modified.
  - apply triple_ret; [|simpl; lia|done]. eapply page_ok_index; [exact Hk|done|].
    intros content modified Hst. unfold variants_spec. by rewrite Hrange.
Qed.

End CaseLookup.

(** * Properties *)

(** C23: a case-variant page lists the rows spelled like the query first and
    then those that differ from it in case only, both in physical order; its
    total and its window are those of that list, although at most the page is
    ever held in memory and the keys are visited twice. *)
Theorem locate_case_variants_correct `{EnvOk} f base hs s query offset limit :
  file_ok f -> state_ok f base hs s -> 0 <= offset -> 0 <= limit ->
  wpM (locate_case_variants f query offset limit) s
    (fun r s' =>
      (forall content modified, stable (mf_source f) content modified ->
         exists rows, all_rows f content = Ok rows /\
           page_content <$> r = variants_spec (mf_normalizer f) (map row_key rows) query offset limit) /\
      state_ok f (base + page_bytes r) hs s')
    (fun _ s' => state_ok f base hs s').
Proof.
  intros Hf Hs Ho Hl. destruct (id Hs) as (_ & _ & Hbase & _).
  eapply wpM_mono;
    [exact (triple_locate_case_variants f Hf base hs query offset limit Hbase Ho Hl s Hs)| |done].
  by intros r s' [[_ Hr] Hs'].
Qed.

Example locate_case_variants_witness :
  wpM (@locate_case_variants simple_env sample_file (lit "alpha") 0 9) sample_state
    (fun r s' => @state_ok simple_env sample_file (sample_base + page_bytes r) [] s')
    (fun _ s' => @state_ok simple_env sample_file sample_base [] s') /\
  match fst (@locate_case_variants simple_env sample_file (lit "alpha") 0 9 sample_state) with
  | Ok (Some p) => page_content p = (CaseVariants, 2, [2; 0])
  | _ => False
  end.
Proof.
  split; [|vm_compute; reflexivity].
  eapply wpM_mono; [apply (@locate_case_variants_correct simple_env simple_env_ok sample_file sample_base []
    sample_state (lit "alpha") 0 9 (proj1 sample_ok) (proj2 sample_ok)); lia| |done].
  intros r s' [_ Hs]. exact Hs.
Defined.
