(* ===== verification/Lookup.v ===== *)
(** What the two public facades share: the match sets of [src/lookup.rs], the
    handles they keep alive, and the iterators of [src/mdx.rs] and
    [src/mdd.rs], which read an item for every record descriptor. *)

From stdpp Require Import list_numbers.
From S2P Require Import Prelude Errors Types Budget Utf8 Encoding Source Descriptors Header KeySection Format Normalize Samples LocatorIndex Arcs Core Dictionary SampleDictionary Keys Records Iter Locator Locate CaseVariants.

(** [KeyMatches::basis] and [KeyMatchPage::basis] *)
Definition match_basis (basis : LocatorBasis) : MatchBasis :=
  match basis with
  | RawExact => Types.RawExact
  | HeaderNormalized => Types.HeaderNormalized
  | CaseVariants => Types.CaseVariants
  end.

(** [KeyMatches::is_empty] *)
Definition matches_is_empty (k : LocatedKeys) : bool := located_len k =? 0.

(** [KeyMatches::first] *)
Definition matches_first (k : LocatedKeys) : Result Z :=
  or_panic (located_ordinal_at k 0) "KeyMatches always contains at least one ordinal".

(** [KeyMatches::iter], collected *)
Fixpoint iter_from {A} (get : Z -> option A) (indexes : list Z) : Result (list A) :=
  match indexes with
  | [] => Ok []
  | index :: indexes =>
      let? item := or_panic (get index) "iterator indices stay inside the locator range" in
      let? items := iter_from get indexes in
      Ok (item :: items)
  end.

Definition matches_iter (k : LocatedKeys) : Result (list Z) :=
  iter_from (located_ordinal_at k) (seqZ 0 (located_len k)).

(** [KeyMatchPage::iter], collected *)
Definition page_iter (p : LocatedKeyPage) : Result (list Z) :=
  iter_from (page_ordinal_at p) (seqZ 0 (zlen (lp_ordinals p))).

(** Dropping a match set. *)
Definition drop_located (k : LocatedKeys) (s : CoreState) : CoreState :=
  match lk_ordinals k with
  | InLocator locator _ => arc_drop locator s
  | Owned _ (Some reservation) => arc_drop reservation s
  | Owned _ None => s
  end.

(** A scope that owns a match set and drops it on every exit. *)
Definition with_located {A} (k : LocatedKeys) (body : M CoreState A) : M CoreState A := fun s =>
  let (r, s) := body s in (r, drop_located k s).

(** [Option::map] of a fallible step, followed by [transpose]. *)
Definition traverse {A B} (step : A -> M CoreState B) (o : option A) : M CoreState (option B) :=
  match o with
  | None => mret None
  | Some a => let! b := step a in mret (Some b)
  end.

(** [MdxEntryIter] and [MddResourceIter] *)
Record ItemIter := {
  ii_records : BlockIter;
  ii_done : bool;
}.

(** [MdxFile::entries] and [MddFile::resources] *)
Definition item_iter_new : ItemIter := {| ii_records := block_iter_new; ii_done := false |}.

Section ItemIter.

Context `{Env} (f : MdictFile).

(** [MdxEntryIter::next] and [MddResourceIter::next]; [read] is the closure of
    the [and_then]. *)
Definition item_next {A} (read : RecordDescriptor -> M CoreState A) (it : ItemIter)
    : M CoreState (option (A + Error) * ItemIter) :=
  if ii_done it then mret (None, it)
  else
    let! '(next, records) := record_next f (ii_records it) in
    let! result :=
      match next with
      | None => mret None
      | Some (inr error) => mret (Some (inr error))
      | Some (inl descriptor) =>
          let! item := attempt (read descriptor) in
          mret (Some item)
      end in
    mret (result,
          {| ii_records := records;
             ii_done := match result with Some (inr _) => true | _ => ii_done it end |}).

End ItemIter.

(** * Lemmas *)

Section LookupProofs.

Context `{EnvOk} (f : MdictFile) (Hf : file_ok f).

Let max := working_memory_bytes (mf_limits f).

Lemma core_ok_drop_located c base hs s k :
  core_ok max c base (located_handles (Some k) ++ hs) s -> core_ok max c base hs (drop_located k s).
Proof.
  destruct k as [basis [locator range|ordinals [reservation|]]]; unfold drop_located; simpl;
    [apply core_ok_arc_drop|apply core_ok_arc_drop|done].
Qed.

Lemma triple_with_located {A} base hs k (m : M CoreState A) P :
  triple max (contracts f) base (located_handles (Some k) ++ hs) m P (fun _ => base)
    (fun _ => located_handles (Some k) ++ hs) base (located_handles (Some k) ++ hs) ->
  triple max (contracts f) base (located_handles (Some k) ++ hs) (with_located k m) P (fun _ => base)
    (fun _ => hs) base hs.
Proof.
  intros Hm s Hs. specialize (Hm s Hs). unfold wpM, with_located in *.
  destruct (m s) as [[a|e| |] s']; try done.
  - destruct Hm as [? Hm]. split; [done|]. by apply core_ok_drop_located.
  - by apply core_ok_drop_located.
Qed.

Lemma keeps_traverse {A B} (step : A -> M CoreState B) o P :
  (forall a, o = Some a -> keeps max (contracts f) (step a) P) ->
  keeps max (contracts f) (traverse step o) (fun r =>
    match o, r with None, None => True | Some _, Some b => P b | _, _ => False end).
Proof.
  intros Hs. destruct o as [a|]; [|by apply keeps_ret].
  eapply keeps_bind; [by apply Hs|]. intros b Hb. by apply keeps_ret.
Qed.

(** Turning an owned list into a match set. *)
Lemma triple_keys_from_owned base hs basis ordinals reservation base_e hs_e :
  0 <= base -> 0 <= default 0 reservation ->
  triple max (contracts f) (base + default 0 reservation) hs (keys_from_owned basis ordinals reservation)
    (fun r => match ordinals, r with
              | [], None => True
              | _ :: _, Some k => lk_basis k = basis /\ denotes k ordinals
              | _, _ => False
              end)
    (fun _ => base) (fun r => located_handles r ++ hs) base_e hs_e.
Proof.
  intros Hbase Hres. unfold keys_from_owned. destruct ordinals as [|o ordinals].
  - intros s Hs. split; [done|]. destruct reservation as [bytes|]; simpl in *; [by apply core_ok_drop|].
    by rewrite Z.add_0_r in Hs.
  - destruct reservation as [bytes|]; simpl in *.
    + eapply triple_bind; [by apply (triple_arc_new _ _ _ _ _ _ (fun _ => True))|].
      intros arc _. cbv beta. apply triple_ret; [|done|done]. by repeat split.
    + apply triple_ret; [by repeat split|lia|done].
Qed.

(** The list of a match set is what its iterator yields. *)
Lemma iter_from_list {A} (get : Z -> option A) (l : list A) :
  (forall i, 0 <= i -> get i = get_at l i) -> iter_from get (seqZ 0 (zlen l)) = Ok l.
Proof.
  assert (forall l' k, 0 <= k -> (forall i, 0 <= i -> get (k + i) = get_at l' i) ->
            iter_from get (seqZ k (zlen l')) = Ok l') as Hgen.
  { induction l' as [|x l' IH]; intros k Hk Hget; [done|].
    rewrite length_cons, seqZ_cons by lia. cbn [iter_from].
    pose proof (Hget 0 ltac:(lia)) as H0'. rewrite Z.add_0_r in H0'. rewrite H0'. simpl.
    replace (Z.pred (Z.of_nat (Datatypes.S (length l')))) with (zlen l') by lia.
    rewrite IH; [done|lia|]. intros i Hi. replace (Z.succ k + i) with (k + (i + 1)) by lia.
    rewrite Hget by lia. unfold get_at. rewrite !(proj2 (Z.leb_le 0 _)) by lia.
    by replace (Z.to_nat (i + 1)) with (Datatypes.S (Z.to_nat i)) by lia. }
  intros Hget. apply Hgen; [done|]. intros i Hi. by apply Hget.
Qed.

Lemma denotes_iter k ordinals : denotes k ordinals -> matches_iter k = Ok ordinals.
Proof. intros [Hlen Hat]. unfold matches_iter. rewrite Hlen. by apply iter_from_list. Qed.

(** ** Iterators that read an item per descriptor *)

Definition item_at (it : ItemIter) (pos : Z) : Prop := ii_done it = false /\ iter_at f (ii_records it) pos.

Definition item_exhausted (it : ItemIter) : bool := ii_done it || bi_done (ii_records it).

Definition item_handles (it : ItemIter) : list nat := iter_handles (ii_records it).

(** [read] turns the descriptor of an entry into an item. *)
Definition reads {A} (read : RecordDescriptor -> M CoreState A) (P : Z -> A -> Prop) : Prop :=
  forall ordinal d, 0 <= ordinal < mdict_len f -> descriptor_ok f ordinal d ->
    keeps max (contracts f) (read d) (P ordinal).

Lemma iter_at_nonneg it pos : iter_at f it pos -> 0 <= pos.
Proof.
  intros (_ & _ & Hc). destruct (bi_current_block it).
  - destruct Hc as (block & Hb & _ & ? & ->). destruct Hf as (_ & _ & Hl & _).
    destruct (layout_key_blocks _ _ _ _ Hl) as (_ & _ & _ & Hk). rewrite Forall_forall in Hk.
    pose proof (Hk block (get_at_elem_of _ _ _ Hb)). lia.
  - destruct Hf as (_ & _ & Hl & _).
    destruct (layout_key_blocks _ _ _ _ Hl) as (_ & _ & _ & Hk).
    eapply consecutive_le; [|exact Hc]. apply Forall_take. eapply Forall_impl; [exact Hk|]. simpl. lia.
Qed.

Lemma triple_item_next {A} (read : RecordDescriptor -> M CoreState A) P base hs it pos base_e hs_e :
  reads read P -> item_at it pos ->
  triple max (contracts f) base (item_handles it ++ hs) (item_next f read it)
    (next_ok_at f item_at item_exhausted P pos)
    (fun _ => base) (fun r => item_handles (snd r) ++ hs) base_e hs_e.
Proof.
  intros Hread [Hd Hat]. pose proof (iter_at_nonneg _ _ Hat). unfold item_next. rewrite Hd.
  eapply triple_bind; [by apply (triple_record_next f Hf)|].
  intros [[[d|error]|] records] Hr; cbv beta iota.
  - destruct Hr as (Hpos & Hdesc & Hat').
    eapply triple_bind; [eapply triple_bind; [eapply triple_attempt, (Hread pos d); [lia|done]|]|].
    + intros item Hitem. cbv beta.
      apply (triple_ret _ _ _ _ (Some item)
        (fun r => exists item, r = Some item /\ match item with inl a => P pos a | inr _ => True end)
        (fun _ => base) (fun _ => iter_handles records ++ hs)); [by exists item|by destruct item..].
    + intros ? (item & -> & Hitem). cbv beta. apply triple_ret; [|done|done].
      destruct item as [a|error]; simpl; unfold item_at, item_exhausted; simpl; split_and!; done.
  - destruct Hr as [Hpos Hdone].
    eapply triple_bind; [by apply (triple_ret _ _ _ _ (Some (inr error)) (fun r => r = Some (inr error))
                               (fun _ => base) (fun _ => iter_handles records ++ hs))|].
    intros ? ->. cbv beta. by apply triple_ret.
  - destruct Hr as [Hpos Hdone].
    eapply triple_bind; [by apply (triple_ret _ _ _ _ None (fun r => r = None)
                               (fun _ => base) (fun _ => iter_handles records ++ hs))|].
    intros ? ->. cbv beta. apply triple_ret; [|done|done]. split; [done|].
    unfold item_exhausted. cbn [ii_done ii_records]. rewrite Hdone. by destruct (ii_done it).
Qed.

(** The [for] loop over such an iterator. *)
Lemma triple_collect_items {A} (read : RecordDescriptor -> M CoreState A) P base hs :
  reads read P ->
  triple max (contracts f) base hs
    (collect (item_next f read) (S (Z.to_nat (mdict_len f))) item_iter_new)
    (collected f item_exhausted P 0) (fun _ => base) (fun r => item_handles (snd r) ++ hs) (-1) [].
Proof.
  intros Hread.
  pose proof (triple_collect f (item_next f read) item_at item_exhausted item_handles P base hs
    (S (Z.to_nat (mdict_len f))) item_iter_new 0 (-1) []) as Ht.
  apply Ht; [|split; [done|by apply iter_at_new]|lia].
  intros. by apply triple_item_next.
Qed.

Lemma item_next_exhausted {A} (read : RecordDescriptor -> M CoreState A) it s :
  item_exhausted it = true -> item_next f read it s = (Ok (None, it), s).
Proof.
  intros Hd%orb_true_iff. unfold item_next. destruct it as [records [|]]; simpl in *; [done|].
  destruct Hd as [|Hd]; [done|]. unfold record_next, Errors.mbind, mret. by rewrite Hd.
Qed.

(** ** The first match *)

(** The item of the first row that a lookup finds. *)
Definition answers {A} (P : Z -> A -> Prop) (query : text) (r : option A) : Prop :=
  match r with
  | None => forall content modified, stable (mf_source f) content modified ->
      exists rows, all_rows f content = Ok rows /\
        locate_spec (mf_normalizer f) (map row_key rows) query = None
  | Some a => exists ordinal, 0 <= ordinal /\ P ordinal a /\
      forall content modified, stable (mf_source f) content modified ->
        exists rows basis found, all_rows f content = Ok rows /\
          locate_spec (mf_normalizer f) (map row_key rows) query = Some (basis, ordinal :: found)
  end.

(** Every row a lookup finds is a row. *)
Lemma locate_spec_rows n keys query basis found o :
  locate_spec n keys query = Some (basis, found) -> o ∈ found -> 0 <= o < zlen keys.
Proof.
  unfold locate_spec. intros Hl Hin.
  assert (o ∈ matching n keys (normalized n query) \/ o ∈ raw_matching keys query) as [Ho|Ho].
  { destruct (matching n keys _) as [|x m]; [done|].
    destruct (raw_matching keys query) as [|y r]; injection Hl as _ <-; [by left|by right]. }
  - apply list_elem_of_In, filter_In in Ho as [Ho _]. apply list_elem_of_In, elem_of_seqZ in Ho. lia.
  - apply list_elem_of_In, filter_In in Ho as [Ho _]. apply list_elem_of_In, elem_of_seqZ in Ho. lia.
Qed.

Lemma keeps_first {A} (at_ : Z -> M CoreState (option A)) (P : Z -> A -> Prop) query :
  (forall ordinal, 0 <= ordinal -> keeps max (contracts f) (at_ ordinal) (fun r =>
     match r with None => mdict_len f <= ordinal | Some a => ordinal < mdict_len f /\ P ordinal a end)) ->
  keeps max (contracts f)
    (let! matches := locate_keys f query in
     match matches with
     | None => mret None
     | Some matches =>
         with_located matches (
           let! first := lift (matches_first matches) in
           at_ first)
     end) (answers P query).
Proof.
  intros Hat base hs s Hs. destruct (id Hs) as (_ & _ & Hbase & _). revert s Hs.
  eapply triple_bind; [by apply (triple_locate_keys f Hf)|]. intros [k|] [Hfirst Hok]; cbv beta iota.
  2: { apply triple_ret; [|done|done]. intros content modified Hst.
       destruct (Hok _ _ Hst) as (rows & Hrows & Hspec). exists rows. split; [done|].
       by destruct (locate_spec _ _ _) as [[]|]. }
  apply triple_with_located. destruct (Hfirst k eq_refl) as (o & Ho & Ho0).
  eapply (triple_bind _ _ _ _ _ _ (fun x => x = o)).
  { apply triple_lift, wp_or_panic; [by eexists|]. intros x Hx. congruence. }
  intros ? ->. cbv beta. eapply triple_mono; [by apply Hat|].
  assert (forall content modified, stable (mf_source f) content modified ->
            exists rows basis found, all_rows f content = Ok rows /\
              locate_spec (mf_normalizer f) (map row_key rows) query = Some (basis, o :: found)) as Hl.
  { intros content modified Hst. destruct (Hok _ _ Hst) as (rows & Hrows & Hspec).
    destruct (locate_spec _ _ _) as [[basis found]|] eqn:El; [|done]. destruct Hspec as [_ [_ Hd]].
    rewrite Hd in Ho by lia. destruct found as [|x found]; [done|]. injection Ho as ->. by exists rows, basis, found. }
  intros [a|] Ha; (split; [|done]).
  - exists o. by destruct Ha.
  - intros content modified Hst. destruct (Hl _ _ Hst) as (rows & basis & found & Hrows & Hspec). exfalso.
    destruct (all_rows_spec f Hf content modified Hst rows Hrows) as [Hlen _].
    apply (locate_spec_rows _ _ _ _ _ o) in Hspec; [|apply list_elem_of_here].
    rewrite length_map in Hspec. lia.
Qed.

End LookupProofs.
