(* ===== verification/Mdx.v ===== *)
(** MDX dictionaries: [src/mdx.rs].  The operations are compositions of the
    core's; [entry_of] is what they must return, as a function of the rows and
    the record stream of the file. *)

From stdpp Require Import list_numbers.
From S2P Require Import Prelude Errors Types Budget Utf8 Encoding Source Descriptors Header KeySection Format Normalize Samples LocatorIndex Arcs Core Dictionary SampleDictionary Keys Records Iter Locator Locate CaseVariants Lookup.

#[export] Instance MatchMode_eq_dec : EqDecision MatchMode.
Proof. solve_decision. Defined.

(** [MdxEntry] *)
Record MdxEntry := {
  me_key : KeyEntry;
  me_text : text;
}.

(** [String::truncate] *)
Definition truncate (t : text) (new_len : Z) : Result text :=
  if zlen t <? new_len then Ok t
  else if is_char_boundary t new_len then Ok (take (Z.to_nat new_len) t)
  else Panic "assertion failed: self.is_char_boundary(new_len)".

(** [decode_record_text] *)
Definition decode_record_text `{Env} (encoding : TextEncoding) (bytes : bytes) : Result text :=
  let? text := decode encoding bytes "mdx record" in
  let trimmed_len := zlen (trim_end_matches (fun c => c =? 0) text) in
  truncate text trimmed_len.

(** [MdxFile::open_with_options] *)
Definition mdx_open_with_options `{Env} (fs : bytes -> nat -> option FileState) (path : bytes)
    (options : OpenOptions) (clock : nat) : Result (MdictFile * CoreState) :=
  Core.open fs path Mdx options clock.

(** [MdxFile::open] *)
Definition mdx_open `{Env} (fs : bytes -> nat -> option FileState) (path : bytes) (clock : nat)
    : Result (MdictFile * CoreState) :=
  mdx_open_with_options fs path open_options_new clock.

Section Mdx.

Context `{Env} (f : MdictFile).

(** [MdxFile::read_entry] *)
Definition read_entry (descriptor : RecordDescriptor) : M CoreState MdxEntry :=
  let! encoded_len := lift (ok_or (checked_sub (rd_end descriptor) (rd_start descriptor))
                              (InvalidFormat "record range is inverted")) in
  with_decoded_record_text f encoded_len (
    let! bytes := read_record_span f (rd_start descriptor) (rd_end descriptor) in
    let! encoding := lift (record_text_encoding f) in
    let! text := lift (decode_record_text encoding bytes) in
    mret {| me_key := rd_key descriptor; me_text := text |}).

(** [MdxFile::entry_at] *)
Definition entry_at (ordinal : Z) : M CoreState (option MdxEntry) :=
  let! descriptor := record_at_ordinal f ordinal in
  traverse read_entry descriptor.

(** [MdxFile::locate] *)
Definition locate (query : text) : M CoreState (option LocatedKeys) := locate_keys f query.

(** [MdxFile::includes_case_variants] *)
Definition includes_case_variants (mode : MatchMode) : bool :=
  bool_decide (mode = IncludeCaseVariants) && negb (key_case_sensitive (vl_header (mf_layout f))).

(** [MdxFile::locate_with_mode] *)
Definition locate_with_mode (query : text) (mode : MatchMode) : M CoreState (option LocatedKeys) :=
  let! page := if includes_case_variants mode
               then locate_case_variants f query 0 usize_max else mret None in
  match page with
  | Some page => into_matches page
  | None => locate query
  end.

(** [MdxFile::locate_page] *)
Definition locate_page (query : text) (offset limit : Z) : M CoreState (option LocatedKeyPage) :=
  locate_key_page f query offset limit.

(** [MdxFile::locate_page_with_mode] *)
Definition locate_page_with_mode (query : text) (offset limit : Z) (mode : MatchMode)
    : M CoreState (option LocatedKeyPage) :=
  let! page := if includes_case_variants mode
               then locate_case_variants f query offset limit else mret None in
  match page with
  | Some page => mret (Some page)
  | None => locate_page query offset limit
  end.

(** [MdxFile::prefix_keys] *)
Definition prefix_keys (prefix : text) (limit : Z) : M CoreState (list KeyEntry) :=
  let! ordinals := locate_prefix f prefix limit in
  let! keys := keys_at_ordinals f ordinals in
  mret (omap id keys).

(** [MdxFile::lookup] *)
Definition lookup (query : text) : M CoreState (option MdxEntry) :=
  let! matches := locate query in
  match matches with
  | None => mret None
  | Some matches =>
      with_located matches (
        let! first := lift (matches_first matches) in
        entry_at first)
  end.

(** [MdxEntryIter::next] *)
Definition entry_next : ItemIter -> M CoreState (option (MdxEntry + Error) * ItemIter) :=
  item_next f read_entry.

(** * Specification *)

(** The text of a record: the bytes of its span, decoded, without the NULs at
    its end. *)
Definition record_text (bytes : bytes) : Result text :=
  let? encoding := record_text_encoding f in
  let? text := decode encoding bytes "mdx record" in
  Ok (trim_end_matches (fun c => c =? 0) text).

(** The entry of an ordinal in a file with these rows and this stream. *)
Definition entry_of (rows : list DecodedKeyRow) (stream : bytes) (ordinal : Z)
    : option (Result MdxEntry) :=
  d ← row_descriptor (vl_total_decoded_record_len (mf_layout f)) rows ordinal;
  Some (let? bytes := ok_or (slice stream (rd_start d) (rd_end d)) (InvalidFormat "record range") in
        let? text := record_text bytes in
        Ok {| me_key := rd_key d; me_text := text |}).

(** Entry [ordinal], whether the whole file decodes or not. *)
Definition entry_ok (ordinal : Z) (e : MdxEntry) : Prop :=
  exists d bytes, descriptor_ok f ordinal d /\ me_key e = rd_key d /\
    rd_end d <= vl_total_decoded_record_len (mf_layout f) /\
    span_of f (rd_start d) (rd_end d) bytes /\ record_text bytes = Ok (me_text e) /\
    text_ok (me_text e).

End Mdx.

(** * Lemmas *)

(** Removing characters at the end leaves a prefix, and the first character
    removed satisfies the predicate. *)
Lemma drop_while_end_split p l :
  exists tail, l = drop_while_end p l ++ tail /\ Forall (fun c => p c = true) tail.
Proof.
  unfold drop_while_end.
  assert (forall l, exists front, l = front ++ drop_while p l /\ Forall (fun c => p c = true) front) as Hd.
  { clear l. induction l as [|c l (front & E & IH)]; simpl; [by exists []|].
    destruct (p c) eqn:Ec; [|by exists []]. exists (c :: front). split; [by rewrite E at 1|by constructor]. }
  destruct (Hd (rev l)) as (front & E & Hf). exists (rev front). split; [|by apply Forall_rev].
  by rewrite <- rev_app_distr, <- E, rev_involutive.
Qed.

(** Trimming NULs off a text truncates it at a character boundary. *)
Lemma truncate_trimmed t :
  text_ok t ->
  truncate t (zlen (trim_end_matches (fun c => c =? 0) t)) = Ok (trim_end_matches (fun c => c =? 0) t) /\
  exists k, t = trim_end_matches (fun c => c =? 0) t ++ replicate k 0.
Proof.
  intros Ht. unfold trim_end_matches. set (p := fun c => c =? 0).
  destruct (drop_while_end_split p (chars t)) as (tail & E & Hp).
  assert (tail = replicate (length tail) 0) as Etail.
  { symmetry. apply replicate_as_elem_of. split; [done|]. intros c Hc. rewrite Forall_forall in Hp.
    by apply Z.eqb_eq, Hp. }
  assert (utf8_encode tail = replicate (length tail) 0) as Enul.
  { rewrite Etail at 1. clear. induction (length tail) as [|k IH]; [done|]. simpl replicate.
    unfold utf8_encode in *. simpl. by rewrite IH. }
  set (front := utf8_encode (drop_while_end p (chars t))) in *.
  assert (t = front ++ replicate (length tail) 0) as Et.
  { rewrite <- Enul. unfold front. by rewrite <- utf8_encode_app, <- E, encode_chars. }
  split; [|by eexists]. unfold truncate. rewrite Et at 1. rewrite length_app.
  rewrite (proj2 (Z.ltb_ge _ _)) by lia.
  assert (is_char_boundary t (zlen front) = true) as ->.
  { rewrite Et. unfold is_char_boundary. destruct (length tail) as [|k].
    - simpl. rewrite app_nil_r, Z.eqb_refl. by rewrite orb_true_r.
    - unfold get_at. rewrite (proj2 (Z.leb_le 0 _)) by lia. rewrite Nat2Z.id.
      rewrite lookup_app_r by lia. rewrite Nat.sub_diag. simpl. apply orb_true_r. }
  by rewrite Et, Nat2Z.id, take_app_length at 1.
Qed.

Section MdxProofs.

Context `{EnvOk} (f : MdictFile) (Hf : file_ok f).

Let max := working_memory_bytes (mf_limits f).

Lemma wp_decode_record_text encoding bytes :
  bytes_ok bytes -> record_text_encoding f = Ok encoding ->
  wp (decode_record_text encoding bytes) (fun t => record_text f bytes = Ok t /\ text_ok t).
Proof.
  intros Hb He. unfold decode_record_text, record_text. rewrite He. cbn [rbind].
  apply wp_bind, wp_eq; [by eapply wp_safe, wp_decode|]. intros t Ht.
  pose proof (wp_Ok _ _ _ (wp_decode encoding bytes "mdx record" Hb) Ht) as Hok.
  rewrite Ht. cbn [rbind]. destruct (truncate_trimmed t Hok) as [-> _]. split; [done|].
  apply trim_end_matches_ok.
Qed.

Lemma wp_decoded_record_text_bytes encoded_len :
  0 <= encoded_len -> wp (decoded_record_text_bytes f encoded_len) (fun n => 0 <= n).
Proof.
  intros Hn. unfold decoded_record_text_bytes, record_text_encoding. wp_steps.
  eapply wp_mono; [apply wp_max_decoded_len; unfold is_u64, usize_max, u64_max in *; lia|].
  intros m Hm. cbv beta in Hm |- *. wp_steps. rinv.
  lia.
Qed.

(** [read_entry] on the descriptor of an entry. *)
Lemma keeps_read_entry ordinal d :
  descriptor_ok f ordinal d -> keeps max (contracts f) (read_entry f d) (entry_ok f ordinal).
Proof.
  intros Hd. destruct (id Hd) as (_ & _ & [Hs0 Hse] & _). unfold read_entry.
  eapply (keeps_bind _ _ _ _ (fun n => 0 <= n)).
  { apply keeps_lift, wp_ok_or. intros n Hn%checked_sub_Some. lia. }
  intros len Hlen. unfold with_decoded_record_text.
  eapply keeps_bind; [by apply keeps_lift, wp_decoded_record_text_bytes|]. intros combined Hc.
  apply keeps_scoped; [done|].
  eapply keeps_bind; [by apply (keeps_read_record_span_within f Hf)|]. intros bytes [Hend Hspan]. cbv beta.
  eapply (keeps_bind _ _ _ _ (fun e => record_text_encoding f = Ok e)).
  { apply keeps_lift, wp_eq; [|done]. unfold record_text_encoding. by apply wp_ok_or. }
  intros encoding He. cbv beta.
  eapply keeps_bind; [apply keeps_lift, (wp_decode_record_text encoding); [|done]|].
  { by destruct Hspan as (_ & ? & _). }
  intros text [Ht Hok]. cbv beta. apply keeps_ret. by exists d, bytes.
Qed.

Lemma entry_reads : reads f (read_entry f) (entry_ok f).
Proof. intros ordinal d _ Hd. by apply keeps_read_entry. Qed.

Lemma keeps_entry_at ordinal :
  0 <= ordinal ->
  keeps max (contracts f) (entry_at f ordinal) (fun r =>
    match r with None => mdict_len f <= ordinal | Some e => ordinal < mdict_len f /\ entry_ok f ordinal e end).
Proof.
  intros Hord. unfold entry_at. eapply keeps_bind; [by apply (keeps_record_at_ordinal f Hf)|].
  intros [d|] Hd; cbv beta.
  - destruct Hd as [? Hd]. eapply keeps_mono; [apply (keeps_traverse _ _ _ (entry_ok f ordinal))|].
    + intros ? [= <-]. by apply keeps_read_entry.
    + by intros [e|] He.
  - by apply keeps_ret.
Qed.

(** An entry of a file that decodes completely. *)
Lemma entry_ok_of content modified rows stream ordinal e :
  stable (mf_source f) content modified -> all_rows f content = Ok rows ->
  record_stream f content = Ok stream -> 0 <= ordinal -> entry_ok f ordinal e ->
  entry_of f rows stream ordinal = Some (Ok e).
Proof.
  intros Hs Hrows Hstream Hord (d & bytes & Hd & Hkey & Hend & Hspan & Ht & _). unfold entry_of.
  rewrite <- (descriptor_ok_rows f content modified rows ordinal d Hf Hs Hrows Hord Hd). simpl.
  destruct Hd as (_ & _ & [Hs0 _] & _).
  rewrite (span_of_slice f Hf content modified stream _ _ _ Hs Hstream Hs0 Hend Hspan). simpl.
  rewrite Ht. simpl. destruct e; simpl in *. by rewrite Hkey.
Qed.

Lemma keeps_lookup query : keeps max (contracts f) (lookup f query) (answers f (entry_ok f) query).
Proof. apply (keeps_first f Hf). apply keeps_entry_at. Qed.

End MdxProofs.

(** ** Matching modes *)

Section Modes.

Context `{EnvOk} (f : MdictFile) (Hf : file_ok f).

Let max := working_memory_bytes (mf_limits f).

Let n := mf_normalizer f.

(** What a lookup under a mode finds: the case variants when the mode asks for
    them, the header allows it and there are any; otherwise what [locate]
    finds. *)
Definition mode_page_spec (mode : MatchMode) (keys : list text) (query : text) (offset limit : Z)
    : option (LocatorBasis * Z * list Z) :=
  match (if includes_case_variants f mode then variants_spec n keys query offset limit else None) with
  | Some page => Some page
  | None => page_spec n keys query offset limit
  end.

Definition mode_spec (mode : MatchMode) (keys : list text) (query : text)
    : option (LocatorBasis * list Z) :=
  match (if includes_case_variants f mode then variants_spec n keys query 0 usize_max else None) with
  | Some (basis, _, found) => Some (basis, found)
  | None => locate_spec n keys query
  end.

(** Two answers about the same file. *)
Lemma page_ok_rows spec r content modified rows :
  page_ok f spec r -> stable (mf_source f) content modified -> all_rows f content = Ok rows ->
  page_content <$> r = spec (map row_key rows).
Proof.
  intros [_ Hr] Hs Hrows. destruct (Hr _ _ Hs) as (rows' & Hrows' & Hp).
  by assert (rows' = rows) as -> by congruence.
Qed.

Lemma triple_locate_page_with_mode base hs query offset limit mode :
  0 <= base -> 0 <= offset -> 0 <= limit ->
  triple max (contracts f) base hs (locate_page_with_mode f query offset limit mode)
    (page_ok f (fun keys => mode_page_spec mode keys query offset limit))
    (fun r => base + page_bytes r) (fun _ => hs) base hs.
Proof.
  intros Hbase Ho Hl. unfold locate_page_with_mode, locate_page, mode_page_spec.
  destruct (includes_case_variants f mode).
  2: { eapply (triple_bind _ _ _ _ _ _ (fun r => r = None) (fun _ => base) (fun _ => hs));
         [by apply triple_ret|]. intros ? ->. cbv beta iota. by apply (triple_locate_key_page f Hf). }
  eapply triple_bind; [by apply (triple_locate_case_variants f Hf)|]. intros [p|] Hp; cbv beta iota.
  - apply triple_ret; [|done|done]. split; [by destruct Hp|]. intros content modified Hst.
    destruct (proj2 Hp _ _ Hst) as (rows & Hrows & E). exists rows. split; [done|]. fold n in E. by rewrite <- E.
  - simpl. rewrite Z.add_0_r. eapply triple_mono; [by apply (triple_locate_key_page f Hf)|].
    intros r Hr. split; [|done]. split; [by destruct Hr|]. intros content modified Hst.
    destruct (proj2 Hp _ _ Hst) as (rows & Hrows & E). exists rows. split; [done|]. fold n in E. rewrite <- E.
    simpl. by eapply page_ok_rows in Hr.
Qed.

(** The rows a case-variant query finds are at most the rows of the file. *)
Lemma select_length keys query m :
  (length (exact_of keys query m) + length (variants_of keys query m) <= length m)%nat.
Proof.
  induction m as [|row m IH]; [done|]. rewrite exact_of_cons, variants_of_cons. unfold is_variant.
  destruct (bytes_eqb _ query), (equal_ignoring_case _ query); simpl; lia.
Qed.

Lemma variants_spec_all keys query basis total found :
  zlen keys <= u64_max -> variants_spec n keys query 0 usize_max = Some (basis, total, found) ->
  found <> [] /\ total = zlen found.
Proof.
  intros Hk. unfold variants_spec, select_spec.
  set (m := matching n keys _). pose proof (select_length keys query m) as Hlen.
  rewrite <- length_app in Hlen. set (all := exact_of keys query m ++ variants_of keys query m) in *.
  assert (length m <= length keys)%nat as Hm.
  { unfold m, matching. etransitivity; [apply List.filter_length_le|]. rewrite length_seqZ. lia. }
  assert (page_of 0 usize_max all = all) as Hpage.
  { unfold page_of. rewrite drop_0. apply take_ge. apply Nat2Z.inj_le. rewrite Z2Nat.id by done.
    change usize_max with u64_max. lia. }
  destruct all as [|x rest]; [done|]. rewrite Hpage. by intros [= _ <- <-].
Qed.

Lemma triple_locate_with_mode base hs query mode :
  0 <= base ->
  triple max (contracts f) base hs (locate_with_mode f query mode) (fun r =>
    forall content modified, stable (mf_source f) content modified ->
      exists rows, all_rows f content = Ok rows /\
        match r, mode_spec mode (map row_key rows) query with
        | Some k, Some (basis, ordinals) => lk_basis k = basis /\ denotes k ordinals
        | None, None => True
        | _, _ => False
        end)
    (fun _ => base) (fun r => located_handles r ++ hs) base hs.
Proof.
  intros Hbase. unfold locate_with_mode, locate, mode_spec. destruct (includes_case_variants f mode).
  2: { eapply (triple_bind _ _ _ _ _ _ (fun r => r = None) (fun _ => base) (fun _ => hs));
         [by apply triple_ret|]. intros ? ->. cbv beta iota.
       eapply triple_mono; [by apply (triple_locate_keys f Hf)|]. by intros r [_ Hr]. }
  eapply triple_bind; [by apply (triple_locate_case_variants f Hf)|]. intros [p|] Hp; cbv beta iota.
  - eapply triple_mono; [apply (triple_keys_from_owned f); [done|by destruct Hp]|].
    intros r Hr. split; [|done]. intros content modified Hst.
    destruct (proj2 Hp _ _ Hst) as (rows & Hrows & E). exists rows. split; [done|]. fold n in E.
    rewrite <- E. simpl. symmetry in E. unfold page_content in E. simpl in E.
    apply variants_spec_all in E as [Hne _]; [by destruct (lp_ordinals p), r|].
    destruct (all_rows_spec f Hf content modified Hst rows Hrows) as [Hlen _].
    rewrite length_map, Hlen. destruct Hf as (_ & _ & Hl & _). apply layout_key_blocks in Hl as (_ & [_ Hz] & _). exact Hz.
  - simpl. rewrite Z.add_0_r. eapply triple_mono; [by apply (triple_locate_keys f Hf)|].
    intros r [_ Hr]. split; [|done]. intros content modified Hst.
    destruct (proj2 Hp _ _ Hst) as (rows & Hrows & E). exists rows. split; [done|]. fold n in E.
    rewrite <- E. simpl. destruct (Hr _ _ Hst) as (rows' & Hrows' & Hspec).
    by assert (rows' = rows) as -> by congruence.
Qed.

(** [prefix_keys] resolves what [locate_prefix] found. *)
Lemma keeps_prefix_keys prefix limit :
  0 < limit ->
  keeps max (contracts f) (prefix_keys f prefix limit) (fun entries =>
    forall content modified, stable (mf_source f) content modified ->
      exists rows found, all_rows f content = Ok rows /\
        prefix_spec n (map row_key rows) (normalized n prefix) limit found /\
        map Some entries = map (fun o => row_entry o <$> get_at rows o) found).
Proof.
  intros Hlim. unfold prefix_keys.
  eapply keeps_bind; [apply (keeps_locate_prefix f Hf); lia|]. intros found Hfound. cbv beta.
  assert (Forall (fun o => 0 <= o) found) as Hpos.
  { destruct Hfound as [[? _]|(_ & keys & (all & _ & Hp & ->) & _)]; [lia|]. apply Forall_take.
    rewrite Hp. apply Forall_forall. intros o Ho%list_elem_of_In%filter_In. destruct Ho as [Ho _].
    apply list_elem_of_In, elem_of_seqZ in Ho. lia. }
  eapply keeps_bind; [by apply (keeps_keys_at_ordinals f Hf)|]. intros keys Hkeys. cbv beta.
  apply keeps_ret. intros content modified Hst.
  destruct Hfound as [[? _]|(_ & keys0 & Hp & Hk)]; [lia|].
  destruct (Hk _ _ Hst) as (rows & Hrows & ->). exists rows, found. split; [done|]. split; [done|].
  rewrite (answers_rows f content modified rows found keys Hf Hst Hrows Hpos Hkeys).
  assert (Forall (fun o => 0 <= o < zlen rows) found) as Hin.
  { destruct Hp as (all & _ & Hp & ->). apply Forall_take. rewrite Hp.
    apply Forall_forall. intros o Ho%list_elem_of_In%filter_In. destruct Ho as [Ho _].
    apply list_elem_of_In, elem_of_seqZ in Ho. rewrite length_map in Ho. lia. }
  clear -Hin. induction Hin as [|o found Ho _ IH]; [done|]. simpl.
  destruct (get_at_is_Some rows o Ho) as [row ->]. simpl. f_equal. exact IH.
Qed.

End Modes.

(** * Properties *)

(** C8: looking a key up returns the entry of the first row the lookup
    finds (the first row spelled like the query, else the first one with its
    normalized form), with the text of its record: when the whole file
    decodes, exactly [entry_of] that row; it returns nothing only when no key
    matches.  The match set is dropped, so no handle or reservation is left. *)
Theorem mdx_lookup_correct `{EnvOk} f base hs s query :
  file_ok f -> state_ok f base hs s ->
  wpM (lookup f query) s
    (fun r s' =>
      (forall content modified, stable (mf_source f) content modified ->
         exists rows, all_rows f content = Ok rows /\
           match r, locate_spec (mf_normalizer f) (map row_key rows) query with
           | Some e, Some (_, ordinal :: _) =>
               entry_ok f ordinal e /\
               forall stream, record_stream f content = Ok stream ->
                 entry_of f rows stream ordinal = Some (Ok e)
           | None, None => True
           | _, _ => False
           end) /\
      state_ok f base hs s')
    (fun _ s' => state_ok f base hs s').
Proof.
  intros Hf Hs. eapply wpM_mono; [apply (keeps_lookup f Hf query base hs s Hs)| |done].
  intros r s' [Hr Hs']. split; [|done]. intros content modified Hst. destruct r as [e|].
  - destruct Hr as (o & Ho & He & Hr). destruct (Hr _ _ Hst) as (rows & basis & found & Hrows & Hl).
    exists rows. split; [done|]. rewrite Hl. split; [done|]. intros stream Hstream. by eapply entry_ok_of.
  - destruct (Hr _ _ Hst) as (rows & Hrows & Hl). exists rows. split; [done|]. by rewrite Hl.
Qed.

(** C18: under a matching mode a lookup finds the case variants (rows
    spelled like the query first) when the mode asks for them, the header does
    not make keys case sensitive and there are any, and otherwise exactly what
    the plain lookup finds. *)
Theorem locate_with_mode_correct `{EnvOk} f base hs s query mode :
  file_ok f -> state_ok f base hs s ->
  wpM (locate_with_mode f query mode) s
    (fun r s' =>
      (forall content modified, stable (mf_source f) content modified ->
         exists rows, all_rows f content = Ok rows /\
           match r, mode_spec f mode (map row_key rows) query with
           | Some k, Some (basis, ordinals) => lk_basis k = basis /\ denotes k ordinals
           | None, None => True
           | _, _ => False
           end) /\
      state_ok f base (located_handles r ++ hs) s')
    (fun _ s' => state_ok f base hs s').
Proof.
  intros Hf Hs. destruct (id Hs) as (_ & _ & Hbase & _).
  exact (triple_locate_with_mode f Hf base hs query mode Hbase s Hs).
Qed.

(** C21: iterating the entries yields the entries 0, 1, 2, ... with their
    texts, up to the first one that cannot be read, whose error ends the
    iteration; without an error it yields all of them.  It terminates, never
    panics, stays ended, and gives back what it held when it is dropped. *)
Theorem entries_correct `{EnvOk} f base hs s :
  file_ok f -> state_ok f base hs s ->
  wpM (collect (entry_next f) (S (Z.to_nat (mdict_len f))) item_iter_new) s
    (fun '(items, error, it) s' =>
      (forall k e, get_at items k = Some e -> entry_ok f k e) /\
      (error = None -> zlen items = mdict_len f) /\
      (forall content modified rows stream, stable (mf_source f) content modified ->
         all_rows f content = Ok rows -> record_stream f content = Ok stream ->
         map (fun e => Some (Ok e)) items = map (entry_of f rows stream) (seqZ 0 (zlen items))) /\
      entry_next f it s' = (Ok (None, it), s') /\ state_ok f base hs (drop_iter (ii_records it) s'))
    (fun _ _ => False).
Proof.
  intros Hf Hs.
  eapply wpM_mono; [apply (triple_collect_items f Hf _ (entry_ok f) base hs (entry_reads f Hf) s Hs)| |].
  2: { by intros ? ? (_ & _ & ? & _). }
  intros [[items error] it] s' [Hc Hs']. cbv beta iota. destruct (id Hc) as (Hi & Hd & _ & He).
  split; [intros k e Hk; apply (Hi _ _ Hk)|]. split; [exact He|]. split.
  { intros content modified rows stream Hst Hrows Hstream.
    apply list_eq. intros i.
    rewrite !list_lookup_fmap. destruct (items !! i) as [e|] eqn:Ee; simpl.
    - pose proof (lookup_lt_Some _ _ _ Ee). rewrite lookup_seqZ_lt by lia. simpl. f_equal. symmetry.
      eapply entry_ok_of; try done; [lia|]. rewrite Z.add_0_l.
      apply (Hi (Z.of_nat i)). by apply lookup_get_at.
    - apply lookup_ge_None in Ee. by rewrite lookup_seqZ_ge by lia. }
  split; [by apply item_next_exhausted|]. by apply core_ok_drop_iter.
Qed.

(** ** Witnesses *)

Example mdx_lookup_witness :
  wpM (@lookup simple_env sample_file (lit "ALPHA")) sample_state
    (fun r s' => @state_ok simple_env sample_file sample_base [] s')
    (fun _ s' => @state_ok simple_env sample_file sample_base [] s') /\
  fst (@lookup simple_env sample_file (lit "ALPHA") sample_state) =
    Ok (Some {| me_key := row_entry 0 (row "Alpha" 0); me_text := lit "one" |}).
Proof.
  split; [|vm_compute; reflexivity].
  eapply wpM_mono; [apply (@mdx_lookup_correct simple_env simple_env_ok sample_file sample_base []
    sample_state (lit "ALPHA") (proj1 sample_ok) (proj2 sample_ok))| |done].
  intros r s' [_ Hs]. exact Hs.
Defined.

Example locate_with_mode_witness :
  wpM (@locate_with_mode simple_env sample_file (lit "alpha") IncludeCaseVariants) sample_state
    (fun r s' => @state_ok simple_env sample_file sample_base (located_handles r ++ []) s')
    (fun _ s' => @state_ok simple_env sample_file sample_base [] s') /\
  match fst (@locate_with_mode simple_env sample_file (lit "alpha") IncludeCaseVariants sample_state) with
  | Ok (Some k) => match_basis (lk_basis k) = Types.CaseVariants /\ matches_iter k = Ok [2; 0]
  | _ => False
  end.
Proof.
  split; [|vm_compute; split; reflexivity].
  eapply wpM_mono; [apply (@locate_with_mode_correct simple_env simple_env_ok sample_file sample_base []
    sample_state (lit "alpha") IncludeCaseVariants (proj1 sample_ok) (proj2 sample_ok))| |done].
  intros r s' [_ Hs]. exact Hs.
Defined.

Example entries_witness :
  wpM (collect (@entry_next simple_env sample_file) 5 item_iter_new) sample_state
    (fun '(items, error, it) s' =>
       @state_ok simple_env sample_file sample_base [] (drop_iter (ii_records it) s'))
    (fun _ _ => False) /\
  match fst (collect (@entry_next simple_env sample_file) 5 item_iter_new sample_state) with
  | Ok (items, error, _) => map me_text items = [lit "one"; lit "-two-thre"; lit "ef"; lit "ourfive"]
  | _ => False
  end.
Proof.
  split; [|vm_compute; reflexivity].
  eapply wpM_mono; [apply (@entries_correct simple_env simple_env_ok sample_file sample_base []
    sample_state (proj1 sample_ok) (proj2 sample_ok))| |done].
  intros [[items error] it] s' (_ & _ & _ & _ & Hs). exact Hs.
Defined.
