(* ===== verification/Mdd.v ===== *)
(** MDD resource dictionaries: [src/mdd.rs].  A span keeps its file open
    through an [Arc] of the file; the model's spans belong to the file of the
    section, so reading one against another file cannot be written. *)

From stdpp Require Import list_numbers.
From S2P Require Import Prelude Errors Types Budget Utf8 Encoding Source Descriptors Header KeySection Format Normalize Samples LocatorIndex Arcs Core Dictionary SampleDictionary Keys Records Iter Locator Locate Lookup.

(** [MddResource] *)
Record MddResource := {
  mr_key : KeyEntry;
  mr_bytes : bytes;
}.

(** [MddResourceSpan], without its file *)
Record MddResourceSpan := {
  ms_key : KeyEntry;
  ms_start : Z;
  ms_end : Z;
  ms_len : Z;
}.

(** [MddResourceSpan::is_empty] *)
Definition span_is_empty (span : MddResourceSpan) : bool := ms_len span =? 0.

(** [MddFile::open_with_options] *)
Definition mdd_open_with_options `{Env} (fs : bytes -> nat -> option FileState) (path : bytes)
    (options : OpenOptions) (clock : nat) : Result (MdictFile * CoreState) :=
  Core.open fs path Mdd options clock.

(** [MddFile::open] *)
Definition mdd_open `{Env} (fs : bytes -> nat -> option FileState) (path : bytes) (clock : nat)
    : Result (MdictFile * CoreState) :=
  mdd_open_with_options fs path open_options_new clock.

(** [KeyEntry::try_clone] *)
Definition key_entry_try_clone `{Env} (entry : KeyEntry) : Result KeyEntry :=
  let? key := try_clone_string (ke_key entry) "public key row" in
  Ok {| ke_ordinal := ke_ordinal entry; ke_key := key |}.

Section Mdd.

Context `{Env} (f : MdictFile).

(** [MddResourceSpan::new] *)
Definition span_new (descriptor : RecordDescriptor) : Result MddResourceSpan :=
  let? len := validate_record_span f (rd_start descriptor) (rd_end descriptor) in
  Ok {| ms_key := rd_key descriptor; ms_start := rd_start descriptor; ms_end := rd_end descriptor;
        ms_len := len |}.

(** [MddResourceSpan::read] *)
Definition span_read (span : MddResourceSpan) : M CoreState MddResource :=
  let! bytes := read_record_span f (ms_start span) (ms_end span) in
  let! key := lift (key_entry_try_clone (ms_key span)) in
  mret {| mr_key := key; mr_bytes := bytes |}.

(** The closure of [copy_to]; its state is the destination, which
    [write_all] changes, and the count. *)
Definition copy_chunk {W} (write_all : W -> bytes -> Result W) (state : W * Z) (chunk : bytes)
    : Result (W * Z) :=
  let (destination, written) := state in
  let? destination := write_all destination chunk in
  let? chunk_len := ok_or (try_u64 (zlen chunk))
                      (InvalidFormat "resource chunk length exceeds u64") in
  let? written := ok_or (checked_add written chunk_len)
                    (InvalidFormat "resource write length overflow") in
  Ok (destination, written).

(** [MddResourceSpan::copy_to]: the destination and the bytes written. *)
Definition copy_to {W} (write_all : W -> bytes -> Result W) (span : MddResourceSpan)
    (destination : W) : M CoreState (W * Z) :=
  visit_record_span f (copy_chunk write_all) (destination, 0) (ms_start span) (ms_end span).

(** [MddFile::span_at] *)
Definition span_at (ordinal : Z) : M CoreState (option MddResourceSpan) :=
  let! descriptor := record_at_ordinal f ordinal in
  traverse (fun descriptor => lift (span_new descriptor)) descriptor.

(** [MddFile::resource_at] *)
Definition resource_at (ordinal : Z) : M CoreState (option MddResource) :=
  let! span := span_at ordinal in
  traverse span_read span.

(** [MddFile::locate] *)
Definition mdd_locate (query : text) : M CoreState (option LocatedKeys) := locate_keys f query.

(** [MddFile::locate_page] *)
Definition mdd_locate_page (query : text) (offset limit : Z) : M CoreState (option LocatedKeyPage) :=
  locate_key_page f query offset limit.

(** [MddFile::lookup_span] *)
Definition lookup_span (query : text) : M CoreState (option MddResourceSpan) :=
  let! matches := mdd_locate query in
  match matches with
  | None => mret None
  | Some matches =>
      with_located matches (
        let! first := lift (matches_first matches) in
        span_at first)
  end.

(** [MddFile::lookup] *)
Definition mdd_lookup (query : text) : M CoreState (option MddResource) :=
  let! span := lookup_span query in
  traverse span_read span.

(** [MddFile::read_resource] *)
Definition read_resource (descriptor : RecordDescriptor) : M CoreState MddResource :=
  let! bytes := read_record_span f (rd_start descriptor) (rd_end descriptor) in
  mret {| mr_key := rd_key descriptor; mr_bytes := bytes |}.

(** [MddResourceIter::next] *)
Definition resource_next : ItemIter -> M CoreState (option (MddResource + Error) * ItemIter) :=
  item_next f read_resource.

(** * Specification *)

(** The resource of an ordinal in a file with these rows and this stream. *)
Definition resource_of (rows : list DecodedKeyRow) (stream : bytes) (ordinal : Z)
    : option MddResource :=
  d ← row_descriptor (vl_total_decoded_record_len (mf_layout f)) rows ordinal;
  bytes ← slice stream (rd_start d) (rd_end d);
  Some {| mr_key := rd_key d; mr_bytes := bytes |}.

(** Resource [ordinal], whether the whole file decodes or not. *)
Definition resource_ok (ordinal : Z) (r : MddResource) : Prop :=
  exists d, descriptor_ok f ordinal d /\ mr_key r = rd_key d /\
    rd_end d <= vl_total_decoded_record_len (mf_layout f) /\
    span_of f (rd_start d) (rd_end d) (mr_bytes r).

(** The span of resource [ordinal]. *)
Definition span_ok (ordinal : Z) (span : MddResourceSpan) : Prop :=
  descriptor_ok f ordinal {| rd_key := ms_key span; rd_start := ms_start span; rd_end := ms_end span |} /\
  ms_len span = ms_end span - ms_start span.

(** The destination after all chunks have been written to it in order. *)
Fixpoint write_chunks {W} (write_all : W -> bytes -> Result W) (destination : W)
    (chunks : list bytes) : Result W :=
  match chunks with
  | [] => Ok destination
  | chunk :: chunks =>
      let? destination := write_all destination chunk in write_chunks write_all destination chunks
  end.

(** [written] is the beginning of the span. *)
Definition span_prefix (span : MddResourceSpan) (written : bytes) : Prop :=
  exists reached, span_of f (ms_start span) reached written /\
    (ms_start span <= ms_end span -> reached <= ms_end span).

(** How a copy from state [s] fails with [e]: the chunks already accepted are
    the beginning of the span, and either the writer refused, with this error,
    the chunk that comes next in the span, or the dictionary failed to give it:
    reading the span from [s] for whatever reader, even one that accepts every
    chunk, fails with this error. *)
Definition copy_failed {W} (write_all : W -> bytes -> Result W) (span : MddResourceSpan) (destination : W)
    (s : CoreState) (e : Error) : Prop :=
  exists chunks destination', write_chunks write_all destination chunks = Ok destination' /\
    ((exists chunk, span_prefix span (concat (chunks ++ [chunk])) /\ write_all destination' chunk = Err e) \/
     span_prefix span (concat chunks) /\
       forall R (reader : R -> bytes -> Result R) r,
         (forall r chunk, exists r', reader r chunk = Ok r') ->
         fst (visit_record_span f reader r (ms_start span) (ms_end span) s) = Err e).

End Mdd.

(** * Lemmas *)

Section MddProofs.

Context `{EnvOk} (f : MdictFile) (Hf : file_ok f).

Let max := working_memory_bytes (mf_limits f).

Lemma wp_key_entry_try_clone entry : wp (key_entry_try_clone entry) (fun e => e = entry).
Proof. unfold key_entry_try_clone. wp_steps. by destruct entry. Qed.

Lemma keeps_span_at ordinal :
  0 <= ordinal ->
  keeps max (contracts f) (span_at f ordinal) (fun r =>
    match r with None => mdict_len f <= ordinal | Some span => ordinal < mdict_len f /\ span_ok f ordinal span end).
Proof.
  intros Hord. unfold span_at. eapply keeps_bind; [by apply (keeps_record_at_ordinal f Hf)|].
  intros [d|] Hd; cbv beta; [|by apply keeps_ret]. destruct Hd as [? Hd].
  eapply keeps_mono; [apply (keeps_traverse f _ _ (span_ok f ordinal))|by intros [span|] Hs].
  intros ? [= <-]. apply keeps_lift. unfold span_new. apply wp_bind, (wp_validate_record_span f).
  intros _ _. split; [by destruct d|done].
Qed.

(** [read] materializes the resource of a span. *)
Lemma keeps_span_read ordinal span :
  span_ok f ordinal span -> keeps max (contracts f) (span_read f span) (resource_ok f ordinal).
Proof.
  intros [Hd _]. destruct (id Hd) as (_ & _ & [Hs0 _] & _). simpl in Hs0. unfold span_read.
  eapply keeps_bind; [by apply (keeps_read_record_span_within f Hf)|]. intros bytes [Hend Hspan]. cbv beta.
  eapply keeps_bind; [by apply keeps_lift, wp_key_entry_try_clone|]. intros ? ->. cbv beta.
  apply keeps_ret. by eexists.
Qed.

Lemma keeps_read_resource ordinal d :
  descriptor_ok f ordinal d -> keeps max (contracts f) (read_resource f d) (resource_ok f ordinal).
Proof.
  intros Hd. destruct (id Hd) as (_ & _ & [Hs0 _] & _). unfold read_resource.
  eapply keeps_bind; [by apply (keeps_read_record_span_within f Hf)|]. intros bytes [Hend Hspan]. cbv beta.
  apply keeps_ret. by exists d.
Qed.

Lemma resource_reads : reads f (read_resource f) (resource_ok f).
Proof. intros ordinal d _ Hd. by apply keeps_read_resource. Qed.

(** A resource of a file that decodes completely. *)
Lemma resource_ok_of content modified rows stream ordinal r :
  stable (mf_source f) content modified -> all_rows f content = Ok rows ->
  record_stream f content = Ok stream -> 0 <= ordinal -> resource_ok f ordinal r ->
  resource_of f rows stream ordinal = Some r.
Proof.
  intros Hs Hrows Hstream Hord (d & Hd & Hkey & Hend & Hspan). unfold resource_of.
  rewrite <- (descriptor_ok_rows f content modified rows ordinal d Hf Hs Hrows Hord Hd). simpl.
  destruct Hd as (_ & _ & [Hs0 _] & _).
  rewrite (span_of_slice f Hf content modified stream _ _ _ Hs Hstream Hs0 Hend Hspan). simpl.
  destruct r; simpl in *. by rewrite Hkey.
Qed.

Lemma copy_chunk_safe {W} (Inv : W -> Prop) (write_all : W -> bytes -> Result W) :
  (forall w chunk, Inv w -> wp (write_all w chunk) Inv) ->
  forall state chunk, Inv (fst state) -> wp (copy_chunk write_all state chunk) (fun state => Inv (fst state)).
Proof.
  intros Hw [w n] chunk Hinv. unfold copy_chunk. apply wp_bind. eapply wp_mono; [by apply Hw|]. intros w' Hinv'.
  by wp_steps.
Qed.

Lemma copy_chunks {W} (write_all : W -> bytes -> Result W) chunks w n w' n' :
  visit_chunks (copy_chunk write_all) (w, n) chunks = Ok (w', n') ->
  write_chunks write_all w chunks = Ok w' /\ n' = n + zlen (concat chunks).
Proof.
  revert w n; induction chunks as [|chunk chunks IH]; intros w n; cbn [visit_chunks write_chunks].
  { intros [= <- <-]. simpl. split; [done|lia]. }
  intros Hv. apply rbind_Ok in Hv as ([w1 n1] & Hc & Hv). unfold copy_chunk in Hc.
  apply rbind_Ok in Hc as (w2 & Hw & Hc). rinv. rewrite Hw. cbn [rbind].
  destruct (IH _ _ Hv) as [? ->]. split; [done|]. cbn [concat]. rewrite length_app. lia.
Qed.

Lemma copy_chunk_Err {W} (write_all : W -> bytes -> Result W) w n chunk e :
  0 <= n -> n + zlen chunk <= u64_max -> copy_chunk write_all (w, n) chunk = Err e -> write_all w chunk = Err e.
Proof.
  intros Hn Hle. unfold copy_chunk. destruct (write_all w chunk) as [w'|e'| |]; cbn [rbind]; [|by intros [= ->]|done..].
  unfold try_u64, checked_add. rewrite (proj2 (Z.leb_le _ u64_max)) by lia. cbn [ok_or rbind].
  by rewrite (proj2 (Z.leb_le _ u64_max)) by lia.
Qed.

Lemma copy_to_fails {W} (write_all : W -> bytes -> Result W) span w base hs s e s' :
  0 <= ms_start span -> state_ok f base hs s -> copy_to f write_all span w s = (Err e, s') ->
  copy_failed f write_all span w s e.
Proof.
  intros Hs0 Hs Hrun. destruct (id Hf) as (_ & _ & Hl & _).
  destruct (layout_record_blocks _ _ _ _ Hl) as (_ & [Htot0 Htot] & _).
  apply (visit_record_span_fails f Hf _ _ _ _ _ _ _ _ _ Hs0 Hs) in Hrun as (chunks & [w' n] & Hc & Hcase).
  apply copy_chunks in Hc as [Hc ->]. exists chunks, w'. split; [done|].
  destruct Hcase as [(chunk & reached & Hspan & Hle & He)|[(reached & Hspan & Hle) He]].
  - left. exists chunk. split; [exists reached; split; [done|lia]|]. destruct Hspan as [Hlen _].
    rewrite concat_app, length_app in Hlen. cbn [concat] in Hlen. rewrite app_nil_r in Hlen.
    eapply copy_chunk_Err; [..|exact He]; lia.
  - right. split; [exists reached; split; [done|lia]|exact He].
Qed.

Lemma keeps_copy_to {W} (Inv : W -> Prop) (write_all : W -> bytes -> Result W) span w :
  (forall w chunk, Inv w -> wp (write_all w chunk) Inv) -> Inv w -> 0 <= ms_start span ->
  keeps max (contracts f) (copy_to f write_all span w) (fun '(w', n) =>
    ms_end span <= vl_total_decoded_record_len (mf_layout f) /\ n = ms_end span - ms_start span /\
    exists chunks, write_chunks write_all w chunks = Ok w' /\
      span_of f (ms_start span) (ms_end span) (concat chunks)).
Proof.
  intros Hw Hinv Hs. unfold copy_to.
  eapply keeps_mono; [apply (keeps_visit_record_span_inv f Hf (fun state => Inv (fst state)));
    [by apply copy_chunk_safe|done|done]|].
  intros [w' n] ([_ Hend] & chunks & Hv & Hspan). apply copy_chunks in Hv as [Hv ->]. split; [done|].
  split; [|by exists chunks]. destruct Hspan as (Hlen & _). lia.
Qed.

Lemma keeps_lookup_span query :
  keeps max (contracts f) (lookup_span f query) (answers f (span_ok f) query).
Proof. apply (keeps_first f Hf). apply keeps_span_at. Qed.

Lemma keeps_mdd_lookup query :
  keeps max (contracts f) (mdd_lookup f query) (answers f (resource_ok f) query).
Proof.
  unfold mdd_lookup. eapply keeps_bind; [apply keeps_lookup_span|]. intros [span|] Hspan; cbv beta.
  - destruct Hspan as (o & Ho & Hspan & Hl).
    eapply keeps_mono; [apply (keeps_traverse f _ _ (resource_ok f o))|].
    + intros ? [= <-]. by apply keeps_span_read.
    + intros [r|] Hr; [|done]. by exists o.
  - by apply keeps_ret.
Qed.

Lemma keeps_resource_at ordinal :
  0 <= ordinal ->
  keeps max (contracts f) (resource_at f ordinal) (fun r =>
    match r with None => mdict_len f <= ordinal | Some r => ordinal < mdict_len f /\ resource_ok f ordinal r end).
Proof.
  intros Hord. unfold resource_at. eapply keeps_bind; [by apply keeps_span_at|]. intros [span|] Hs; cbv beta.
  - destruct Hs as [? Hs]. eapply keeps_mono; [apply (keeps_traverse f _ _ (resource_ok f ordinal))|].
    + intros ? [= <-]. by apply keeps_span_read.
    + by intros [r|] Hr.
  - by apply keeps_ret.
Qed.

End MddProofs.

(** * Properties *)

(** Looking a resource up returns the bytes of the record of the first
    row the lookup finds, byte for byte a slice of the decoded record stream,
    under its key; it returns nothing only when no key matches.  Resolving
    first a span and reading it later gives the same. *)
Theorem mdd_lookup_correct `{EnvOk} f base hs s query :
  file_ok f -> state_ok f base hs s ->
  wpM (mdd_lookup f query) s
    (fun r s' =>
      (forall content modified, stable (mf_source f) content modified ->
         exists rows, all_rows f content = Ok rows /\
           match r, locate_spec (mf_normalizer f) (map row_key rows) query with
           | Some r, Some (_, ordinal :: _) =>
               resource_ok f ordinal r /\
               forall stream, record_stream f content = Ok stream ->
                 resource_of f rows stream ordinal = Some r
           | None, None => True
           | _, _ => False
           end) /\
      state_ok f base hs s')
    (fun _ s' => state_ok f base hs s').
Proof.
  intros Hf Hs. eapply wpM_mono; [apply (keeps_mdd_lookup f Hf query base hs s Hs)| |done].
  intros r s' [Hr Hs']. split; [|done]. intros content modified Hst. destruct r as [r|].
  - destruct Hr as (o & Ho & He & Hr). destruct (Hr _ _ Hst) as (rows & basis & found & Hrows & Hl).
    exists rows. split; [done|]. rewrite Hl. split; [done|]. intros stream Hstream. by eapply resource_ok_of.
  - destruct (Hr _ _ Hst) as (rows & Hrows & Hl). exists rows. split; [done|]. by rewrite Hl.
Qed.

(** C19: streaming a resource writes the bytes of its span, in order and
    completely, whatever the destination (its own invariant [Inv] is what
    keeps its [write_all] from panicking): the chunks handed to [write_all]
    concatenate to the span, and the count returned is its length.  A copy that
    fails has written a beginning of the span, and its error is either the one
    with which the writer refused the next chunk, or the one with which reading
    the same span from the same state fails for a reader that accepts
    everything; the counting itself never fails. *)
Theorem copy_to_correct `{EnvOk} {W} f (Inv : W -> Prop) (write_all : W -> bytes -> Result W) span w base hs s :
  file_ok f -> state_ok f base hs s -> (forall w chunk, Inv w -> wp (write_all w chunk) Inv) -> Inv w ->
  0 <= ms_start span ->
  wpM (copy_to f write_all span w) s
    (fun '(w', written) s' =>
      (written = ms_end span - ms_start span /\
       exists chunks, write_chunks write_all w chunks = Ok w' /\
         span_of f (ms_start span) (ms_end span) (concat chunks) /\
         forall content modified stream, stable (mf_source f) content modified ->
           record_stream f content = Ok stream ->
           slice stream (ms_start span) (ms_end span) = Some (concat chunks)) /\
      state_ok f base hs s')
    (fun e s' => copy_failed f write_all span w s e /\ state_ok f base hs s').
Proof.
  intros Hf Hs Hw Hinv Hstart.
  pose proof (keeps_copy_to f Hf Inv write_all span w Hw Hinv Hstart base hs s Hs) as Hk. unfold wpM in *.
  destruct (copy_to f write_all span w s) as [[[w' n]|e| |] s'] eqn:Erun; try done.
  2: { split; [by eapply copy_to_fails|done]. }
  destruct Hk as [(Hend & -> & chunks & Hc & Hspan) Hs']. split; [|done]. split; [done|].
  exists chunks. split; [done|]. split; [done|]. intros content modified stream Hst Hstream.
  by eapply span_of_slice.
Qed.

(** A row of the sample, as a resource. *)
Example mdd_lookup_witness :
  wpM (@mdd_lookup simple_env sample_file (lit "Beta")) sample_state
    (fun r s' => @state_ok simple_env sample_file sample_base [] s')
    (fun _ s' => @state_ok simple_env sample_file sample_base [] s') /\
  fst (@mdd_lookup simple_env sample_file (lit "Beta") sample_state) =
    Ok (Some {| mr_key := row_entry 1 (row "Beta" 3); mr_bytes := lit "-two-thre" |}).
Proof.
  split; [|vm_compute; reflexivity].
  eapply wpM_mono; [apply (@mdd_lookup_correct simple_env simple_env_ok sample_file sample_base []
    sample_state (lit "Beta") (proj1 sample_ok) (proj2 sample_ok))| |done].
  intros r s' [_ Hs]. exact Hs.
Defined.

(** A span over both record blocks, to a writer that accepts everything, and to
    one that is full behind the first chunk. *)
Example copy_to_witness :
  let write_all w chunk := Ok (w ++ [chunk]) in
  let write_one (w : list bytes) chunk :=
    match w with [] => Ok [chunk] | _ => Err (Io "no space left") end in
  let span := {| ms_key := row_entry 1 (row "Beta" 3); ms_start := 3; ms_end := 12; ms_len := 9 |} in
  wpM (@copy_to simple_env sample_file _ write_all span []) sample_state
    (fun r s' => @state_ok simple_env sample_file sample_base [] s')
    (fun _ s' => @state_ok simple_env sample_file sample_base [] s') /\
  @copy_failed simple_env sample_file _ write_one span [] sample_state (Io "no space left") /\
  fst (@copy_to simple_env sample_file _ write_all span [] sample_state) =
    Ok ([lit "-two-th"; lit "re"], 9).
Proof.
  intros write_all write_one span. split_and!; [| |vm_compute; reflexivity].
  - eapply wpM_mono; [apply (@copy_to_correct simple_env simple_env_ok _ sample_file (fun _ => True) write_all span []
      sample_base [] sample_state (proj1 sample_ok) (proj2 sample_ok)); done|..].
    + intros [w n] s' [_ Hs]. exact Hs.
    + intros e s' [_ Hs]. exact Hs.
  - assert (forall w chunk, True -> wp (write_one w chunk) (fun _ => True)) as Hw by (intros [|? ?] ? ?; exact I).
    pose proof (@copy_to_correct simple_env simple_env_ok _ sample_file (fun _ => True) write_one span []
      sample_base [] sample_state (proj1 sample_ok) (proj2 sample_ok) Hw I ltac:(simpl; lia)) as Hc.
    unfold wpM in Hc.
    assert (fst (@copy_to simple_env sample_file _ write_one span [] sample_state) = Err (Io "no space left")) as E
      by (vm_compute; reflexivity).
    destruct (copy_to sample_file write_one span [] sample_state) as [r s']. cbn [fst] in E. rewrite E in Hc.
    exact (proj1 Hc).
Defined.
