(* ===== verification/IndexFormat.v ===== *)
(** The file format of the persistent key index: [src/core/persistent/mod.rs]
    and the header part of [src/core/persistent/format.rs].  A header of 224
    bytes, a table of one checksum per chunk, and four sections, each at a
    multiple of eight. *)

From stdpp Require Import list_numbers.
From S2P Require Import Prelude Errors Types Encoding Checksum Descriptors.

(** * Data *)

Definition MAGIC : bytes := lit "MDKIDX01".

Definition ENDIAN_MARKER : Z := 16909060.

Definition SECTION_COUNT : Z := 4.

Definition HEADER_FIELDS_BYTES : Z := 216.

Definition HEADER_BYTES : Z := 224.

Definition HEADER_PREFIX_BYTES : Z := 24.

Definition HEADER_CHECKSUM_BYTES : Z := 4.

Definition CHECKSUM_PAGE_BYTES : Z := 4 * 1024.

Definition MIN_BUILD_MEMORY_BYTES : Z := 256.

Definition MIN_CHUNK_BYTES : Z := 64.

(** [SectionKind]; [Raw] is [SecRaw], and so on. *)
Inductive SectionKind := SecText | SecBounds | SecRaw | SecOrder.

#[export] Instance SectionKind_eq_dec : EqDecision SectionKind.
Proof. solve_decision. Defined.

(** [SectionKind::index] *)
Definition section_index (k : SectionKind) : Z :=
  match k with SecText => 0 | SecBounds => 1 | SecRaw => 2 | SecOrder => 3 end.

(** [SectionKind::name] *)
Definition section_name (k : SectionKind) : string :=
  match k with SecText => "text" | SecBounds => "bounds" | SecRaw => "raw" | SecOrder => "order" end.

(** [SectionDescriptor] *)
Record SectionDescriptor := {
  sd_offset : Z;
  sd_len : Z;
  sd_checksum_start : Z;
  sd_checksum_count : Z;
}.

(** [SectionDescriptor::EMPTY] *)
Definition descriptor_empty : SectionDescriptor :=
  {| sd_offset := 0; sd_len := 0; sd_checksum_start := 0; sd_checksum_count := 0 |}.

(** [IndexHeader] *)
Record IndexHeader := {
  ih_header_len : Z;
  ih_total_len : Z;
  ih_chunk_bytes : Z;
  ih_source_identity : KeyIndexSourceIdentity;
  ih_normalized_text_len : Z;
  ih_sections : list SectionDescriptor;
  ih_checksum_count : Z;
}.

(** [SectionFile]; the scratch file is its content. *)
Record SectionFile := {
  sf_kind : SectionKind;
  sf_file : bytes;
  sf_len : Z;
  sf_checksums : list Z;
}.

(** [BuiltIndex] *)
Record BuiltIndex := {
  bx_header : bytes;
  bx_sections : list SectionFile;
  bx_descriptors : list SectionDescriptor;
  bx_report : KeyIndexBuild;
}.

(** * Arithmetic *)

Definition invalid_layout (reason : string) : Error := reject (RejInvalidLayout reason).

(** [is_power_of_two] of an unsigned integer *)
Definition is_power_of_two (x : Z) : bool := (0 <? x) && (Z.land x (x - 1) =? 0).

(** [chunk_count] *)
Definition chunk_count (len chunk_bytes : Z) : Result Z :=
  if chunk_bytes =? 0 then Err (invalid_layout "chunk length is zero")
  else if len =? 0 then Ok 0
  else
    let? value := ok_or (checked_add len (chunk_bytes - 1)) (invalid_layout "chunk count overflow") in
    Ok (value / chunk_bytes).

(** [align8]; [!7] is the complement of 7 in 64 bits. *)
Definition align8 (value : Z) : Result Z :=
  let? value := ok_or (checked_add value 7) (invalid_layout "section alignment overflow") in
  Ok (Z.land value (u64_max - 7)).

Definition is_multiple_of_8 (value : Z) : bool := value mod 8 =? 0.

(** [to_le_bytes] of [i128], and its inverse *)
Definition i128_split (value : Z) : bytes := le_split 16 (value mod 2 ^ 128).

Definition i128_combine (l : bytes) : Z :=
  let value := le_combine l in if value <? 2 ^ 127 then value else value - 2 ^ 128.

Definition is_i128 (x : Z) : Prop := - 2 ^ 127 <= x < 2 ^ 127.

(** * Options *)

(** [validate_options] *)
Definition validate_options (options : KeyIndexOptions) : Result unit :=
  if build_memory_bytes options <? MIN_BUILD_MEMORY_BYTES
  then Err (InvalidData ("key-index build memory must be at least "
                         +++ fmt_dec MIN_BUILD_MEMORY_BYTES +++ " bytes")%string)
  else
    let maximum_chunk_bytes := Z.min (build_memory_bytes options) u32_max in
    if (chunk_bytes options <? MIN_CHUNK_BYTES) || (maximum_chunk_bytes <? chunk_bytes options)
       || negb (is_power_of_two (chunk_bytes options))
    then Err (InvalidData ("key-index chunk bytes must be a power of two from "
                           +++ fmt_dec MIN_CHUNK_BYTES +++ " through "
                           +++ fmt_dec maximum_chunk_bytes)%string)
    else if max_metadata_bytes options <? HEADER_BYTES
    then Err (InvalidData ("key-index metadata limit must be at least "
                           +++ fmt_dec HEADER_BYTES +++ " bytes")%string)
    else Ok tt.

Section Format.

Context `{Env}.

(** * Building the header *)

(** The loop of [build_header] that counts the checksums. *)
Fixpoint count_checksums (chunk_bytes : Z) (sections : list SectionFile) (checksum_count : Z)
    : Result Z :=
  match sections with
  | [] => Ok checksum_count
  | section :: sections =>
      let? expected := chunk_count (sf_len section) chunk_bytes in
      let? actual := ok_or (try_u64 (zlen (sf_checksums section)))
                       (InvalidFormat "key-index checksum count exceeds u64") in
      ensure (actual =? expected) (InvalidFormat "key-index section checksum count mismatch") ;;?
      let? checksum_count := ok_or (checked_add checksum_count actual)
                               (InvalidFormat "key-index checksum count overflow") in
      count_checksums chunk_bytes sections checksum_count
  end.

(** The loop of [build_header] that places the sections: the descriptors and
    the end of the last section. *)
Fixpoint place_sections (sections : list SectionFile) (offset checksum_start : Z)
    (descriptors : list SectionDescriptor) : Result (list SectionDescriptor * Z) :=
  match sections with
  | [] => Ok (descriptors, offset)
  | section :: sections =>
      let? offset := align8 offset in
      let? checksum_len := ok_or (try_u64 (zlen (sf_checksums section)))
                             (InvalidFormat "key-index checksum count exceeds u64") in
      let descriptors :=
        <[Z.to_nat (section_index (sf_kind section)) :=
            {| sd_offset := offset; sd_len := sf_len section; sd_checksum_start := checksum_start;
               sd_checksum_count := checksum_len |}]> descriptors in
      let? checksum_start := ok_or (checked_add checksum_start checksum_len)
                               (InvalidFormat "key-index checksum index overflow") in
      let? offset := ok_or (checked_add offset (sf_len section))
                       (InvalidFormat "key-index section end overflow") in
      place_sections sections offset checksum_start descriptors
  end.

Definition descriptor_bytes (d : SectionDescriptor) : bytes :=
  le_split 8 (sd_offset d) ++ le_split 8 (sd_len d) ++ le_split 8 (sd_checksum_start d)
  ++ le_split 8 (sd_checksum_count d).

(** The fields of the header, in the order [build_header] pushes them. *)
Definition header_fields (total_len chunk_bytes : Z) (identity : KeyIndexSourceIdentity)
    (normalized_text_len : Z) (descriptors : list SectionDescriptor) : bytes :=
  MAGIC ++ le_split 4 KEY_INDEX_FORMAT_REVISION ++ le_split 4 ENDIAN_MARKER
  ++ le_split 8 HEADER_BYTES ++ le_split 8 total_len ++ le_split 4 KEY_INDEX_PARSER_REVISION
  ++ le_split 4 KEY_INDEX_NORMALIZATION_REVISION ++ le_split 4 chunk_bytes
  ++ le_split 4 SECTION_COUNT ++ le_split 8 (source_bytes identity)
  ++ i128_split (source_modified_unix_nanos identity) ++ le_split 8 (key_count identity)
  ++ le_split 8 normalized_text_len ++ flat_map descriptor_bytes descriptors.

(** [build_header] *)
Definition build_header (sections : list SectionFile) (identity : KeyIndexSourceIdentity)
    (normalized_text_len : Z) (options : KeyIndexOptions)
    : Result (bytes * list SectionDescriptor * Z) :=
  let? chunk_bytes := ok_or (try_u32 (chunk_bytes options))
                        (InvalidData "key-index chunk size exceeds u32") in
  ensure_usize_limit "key_index_header_bytes" HEADER_BYTES (max_metadata_bytes options) ;;?
  let? checksum_count := count_checksums chunk_bytes sections 0 in
  let? checksum_bytes := ok_or (checked_mul checksum_count 4)
                           (InvalidFormat "key-index checksum table overflow") in
  let? metadata_bytes := ok_or (checked_add HEADER_BYTES checksum_bytes)
                           (InvalidFormat "key-index metadata length overflow") in
  ensure_u64_ceiling "key_index_metadata_bytes" metadata_bytes
    (or_u64_max (try_u64 (max_metadata_bytes options))) ;;?
  let? table_end := ok_or (checked_add HEADER_BYTES checksum_bytes)
                      (InvalidFormat "key-index checksum table end overflow") in
  let? offset := align8 table_end in
  let? '(descriptors, total_len) :=
    place_sections sections offset 0 (replicate (Z.to_nat SECTION_COUNT) descriptor_empty) in
  ensure_u64_ceiling "key_index_bytes" total_len (max_index_bytes options) ;;?
  try_reserve_vec 0 1 HEADER_BYTES "key-index header" ;;?
  let header := header_fields total_len chunk_bytes identity normalized_text_len descriptors in
  ensure (zlen header =? HEADER_FIELDS_BYTES)
    (InvalidFormat "key-index fixed header field length mismatch") ;;?
  let checksum_at := HEADER_BYTES - HEADER_CHECKSUM_BYTES in
  let header := header ++ replicate (Z.to_nat (checksum_at - zlen header)) 0 in
  let checksum := if is_verify (ki_checksum_policy options) then adler32 header else 0 in
  let header := header ++ le_split 4 checksum in
  ensure (zlen header =? HEADER_BYTES) (InvalidFormat "key-index header length mismatch") ;;?
  Ok (header, descriptors, total_len).

(** * Parsing the header *)

(** [HeaderCursor::read_array]; the state is the position of the cursor. *)
Definition read_array (bytes : bytes) (n : Z) : M Z (list Z) := fun position =>
  match checked_add position n with
  | None => (Err (invalid_layout "header cursor overflow"), position)
  | Some end_ =>
      match slice bytes position end_ with
      | None => (Err (invalid_layout "truncated header field"), position)
      | Some source => (Ok source, end_)
      end
  end.

(** [HeaderCursor::read_u32] *)
Definition read_u32 (bytes : bytes) : M Z Z :=
  let! value := read_array bytes 4 in mret (le_combine value).

(** [HeaderCursor::read_u64] *)
Definition read_u64 (bytes : bytes) : M Z Z :=
  let! value := read_array bytes 8 in mret (le_combine value).

(** [HeaderCursor::read_i128] *)
Definition read_i128 (bytes : bytes) : M Z Z :=
  let! value := read_array bytes 16 in mret (i128_combine value).

Definition read_position : M Z Z := fun position => (Ok position, position).

(** The loop of [parse_header] that reads the descriptors. *)
Fixpoint read_descriptors (bytes : bytes) (n : nat) : M Z (list SectionDescriptor) :=
  match n with
  | O => mret []
  | S n =>
      let! offset := read_u64 bytes in
      let! len := read_u64 bytes in
      let! checksum_start := read_u64 bytes in
      let! checksum_count := read_u64 bytes in
      let! rest := read_descriptors bytes n in
      mret ({| sd_offset := offset; sd_len := len; sd_checksum_start := checksum_start;
               sd_checksum_count := checksum_count |} :: rest)
  end.

(** The loop of [parse_header] that checks the checksum ranges. *)
Fixpoint check_checksum_ranges (chunk_bytes : Z) (sections : list SectionDescriptor)
    (expected_checksum_start : Z) : Result Z :=
  match sections with
  | [] => Ok expected_checksum_start
  | d :: sections =>
      ensure (sd_checksum_start d =? expected_checksum_start)
        (invalid_layout "checksum ranges are not contiguous") ;;?
      let? expected_count := chunk_count (sd_len d) chunk_bytes in
      ensure (sd_checksum_count d =? expected_count)
        (invalid_layout "section checksum count is inconsistent") ;;?
      let? expected_checksum_start := ok_or (checked_add expected_checksum_start (sd_checksum_count d))
                                        (invalid_layout "checksum count overflow") in
      check_checksum_ranges chunk_bytes sections expected_checksum_start
  end.

(** The lengths the sections of [key_count] rows must have. *)
Definition check_section_lengths (sections : list SectionDescriptor)
    (key_count normalized_text_len : Z) : Result unit :=
  let? bounds_len := ok_or (count ← checked_add key_count 1; checked_mul count 8)
                       (invalid_layout "bounds length overflow") in
  let? row_array_len := ok_or (checked_mul key_count 4) (invalid_layout "row array length overflow") in
  ensure (bool_decide (map sd_len sections =
                       [normalized_text_len; bounds_len; row_array_len; row_array_len]))
    (invalid_layout "section lengths do not match header counts").

(** [parse_header], from the position of its cursor *)
Definition parse_header_at (bytes : bytes) (actual_len : Z) (options : KeyIndexOptions)
    : M Z IndexHeader :=
  let! magic := read_array bytes 8 in
  let! _ := lift (ensure (bytes_eqb magic MAGIC) (reject RejInvalidMagic)) in
  let! format_revision := read_u32 bytes in
  let! _ := lift (ensure (format_revision =? KEY_INDEX_FORMAT_REVISION)
                    (reject (RejUnsupportedFormatRevision format_revision))) in
  let! endian := read_u32 bytes in
  let! _ := lift (ensure (endian =? ENDIAN_MARKER) (reject (RejUnsupportedEndianMarker endian))) in
  let! header_len := read_u64 bytes in
  let! _ := lift (ensure (header_len =? or_u64_max (try_u64 (zlen bytes)))
                    (invalid_layout "header length changed while parsing")) in
  let! total_len := read_u64 bytes in
  let! _ := lift (ensure (total_len =? actual_len)
                    (reject (RejFileLengthMismatch total_len actual_len))) in
  let! _ := lift (ensure_u64_ceiling "key_index_bytes" total_len (max_index_bytes options)) in
  let! parser_revision := read_u32 bytes in
  let! _ := lift (ensure (parser_revision =? KEY_INDEX_PARSER_REVISION)
                    (reject (RejIncompatibleParserRevision parser_revision))) in
  let! normalization_revision := read_u32 bytes in
  let! _ := lift (ensure (normalization_revision =? KEY_INDEX_NORMALIZATION_REVISION)
                    (reject (RejIncompatibleNormalizationRevision normalization_revision))) in
  let! chunk := read_u32 bytes in
  let! maximum_chunk_bytes := lift (ok_or (try_u64 (chunk_bytes options))
                                      (InvalidData "key-index chunk limit exceeds u64")) in
  let! _ := lift (ensure (negb ((chunk <? MIN_CHUNK_BYTES) || negb (is_power_of_two chunk)))
                    (invalid_layout "chunk length is not a supported power of two")) in
  let! _ := lift (ensure (negb (maximum_chunk_bytes <? chunk))
                    (LimitExceeded "key_index_chunk_bytes" chunk
                       (or_u64_max (try_u64 (chunk_bytes options))))) in
  let! section_count := read_u32 bytes in
  let! _ := lift (ensure (section_count =? SECTION_COUNT)
                    (invalid_layout "unexpected section count")) in
  let! source_bytes := read_u64 bytes in
  let! source_modified_unix_nanos := read_i128 bytes in
  let! key_count := read_u64 bytes in
  let! _ := lift (ensure (negb (u32_max <? key_count))
                    (invalid_layout "key count exceeds ordinal representation")) in
  let! normalized_text_len := read_u64 bytes in
  let! sections := read_descriptors bytes (Z.to_nat SECTION_COUNT) in
  let! checksum_count := lift (check_checksum_ranges chunk sections 0) in
  let! checksum_bytes := lift (ok_or (checked_mul checksum_count 4)
                                 (invalid_layout "checksum table overflow")) in
  let! metadata_bytes := lift (ok_or (checked_add header_len checksum_bytes)
                                 (invalid_layout "metadata length overflow")) in
  let! _ := lift (ensure_u64_ceiling "key_index_metadata_bytes" metadata_bytes
                    (or_u64_max (try_u64 (max_metadata_bytes options)))) in
  let! padding_end := lift (ok_or (checked_sub (zlen bytes) HEADER_CHECKSUM_BYTES)
                              (invalid_layout "header checksum underflow")) in
  let! position := read_position in
  let! _ := lift (ensure (negb (padding_end <? position)) (invalid_layout "header padding is not zero")) in
  let! padding := lift (or_panic (slice bytes position padding_end) "slice index out of range") in
  let! _ := lift (ensure (forallb (fun byte => byte =? 0) padding)
                    (invalid_layout "header padding is not zero")) in
  let! _ := lift (check_section_lengths sections key_count normalized_text_len) in
  mret {| ih_header_len := header_len; ih_total_len := total_len; ih_chunk_bytes := chunk;
          ih_source_identity := {| source_bytes := source_bytes;
                                   source_modified_unix_nanos := source_modified_unix_nanos;
                                   key_count := key_count |};
          ih_normalized_text_len := normalized_text_len; ih_sections := sections;
          ih_checksum_count := checksum_count |}.

(** [parse_header] *)
Definition parse_header (bytes : bytes) (actual_len : Z) (options : KeyIndexOptions)
    : Result IndexHeader :=
  fst (parse_header_at bytes actual_len options 0).

(** The loop of [validate_section_layout]. *)
Fixpoint check_section_offsets (source_len : Z) (sections : list SectionDescriptor) (cursor : Z)
    : Result Z :=
  match sections with
  | [] => Ok cursor
  | d :: sections =>
      let? aligned := align8 cursor in
      ensure ((sd_offset d =? aligned) && is_multiple_of_8 (sd_offset d))
        (invalid_layout "sections are not ordered and aligned") ;;?
      let? cursor := ok_or (checked_add (sd_offset d) (sd_len d)) (invalid_layout "section end overflow") in
      ensure (negb (source_len <? cursor)) (invalid_layout "section exceeds file length") ;;?
      check_section_offsets source_len sections cursor
  end.

(** [validate_section_layout] *)
Definition validate_section_layout (source_len : Z) (header : IndexHeader) : Result unit :=
  let? checksum_bytes := ok_or (checked_mul (ih_checksum_count header) 4)
                           (invalid_layout "checksum table overflow") in
  let? cursor := ok_or (checked_add (ih_header_len header) checksum_bytes)
                   (invalid_layout "checksum table end overflow") in
  let? cursor := if is_multiple_of_8 cursor then Ok cursor else align8 cursor in
  let? cursor := check_section_offsets source_len (ih_sections header) cursor in
  ensure (cursor =? ih_total_len header) (invalid_layout "last section does not end at total length").

End Format.

(** * Specification *)

(** The number of chunks of a section. *)
Definition chunks_of (len chunk_bytes : Z) : Z := (len + chunk_bytes - 1) / chunk_bytes.

(** The section of a kind. *)
Definition section_of (h : IndexHeader) (k : SectionKind) : SectionDescriptor :=
  default descriptor_empty (get_at (ih_sections h) (section_index k)).

Definition descriptor_ok (chunk_bytes : Z) (d : SectionDescriptor) : Prop :=
  is_u64 (sd_offset d) /\ is_u64 (sd_len d) /\ sd_checksum_count d = chunks_of (sd_len d) chunk_bytes.

(** A header that [parse_header] accepts. *)
Record header_ok (h : IndexHeader) : Prop := {
  hk_header_len : ih_header_len h = HEADER_BYTES;
  hk_chunk : MIN_CHUNK_BYTES <= ih_chunk_bytes h <= u32_max;
  hk_keys : 0 <= key_count (ih_source_identity h) <= u32_max;
  hk_count : length (ih_sections h) = Z.to_nat SECTION_COUNT;
  hk_lens : map sd_len (ih_sections h) =
    [ih_normalized_text_len h; (key_count (ih_source_identity h) + 1) * 8;
     key_count (ih_source_identity h) * 4; key_count (ih_source_identity h) * 4];
  hk_sections : Forall (descriptor_ok (ih_chunk_bytes h)) (ih_sections h);
  hk_checksums : consecutive sd_checksum_start sd_checksum_count 0 (ih_sections h) (ih_checksum_count h);
  hk_table : HEADER_BYTES + 4 * ih_checksum_count h <= u64_max;
}.

(** The layout that [validate_section_layout] accepts: the sections follow the
    checksum table in order, each at the next multiple of eight, and end at
    [source_len] or before. *)
Fixpoint sections_placed (source_len cursor : Z) (sections : list SectionDescriptor) : Prop :=
  match sections with
  | [] => True
  | d :: sections =>
      sd_offset d = 8 * ((cursor + 7) / 8) /\ sd_offset d + sd_len d <= source_len /\
      sections_placed source_len (sd_offset d + sd_len d) sections
  end.

(** * Lemmas *)

Lemma land_not_7 x : 0 <= x <= u64_max -> Z.land x (u64_max - 7) = 8 * (x / 8).
Proof.
  intros Hx. change (u64_max - 7) with (Z.shiftl (Z.ones 61) 3).
  replace (8 * (x / 8)) with (Z.shiftl (Z.shiftr x 3) 3)
    by (rewrite Z.shiftr_div_pow2, Z.shiftl_mul_pow2 by lia; change (2 ^ 3) with 8; lia).
  apply Z.bits_inj'. intros i Hi. rewrite Z.land_spec, !Z.shiftl_spec by lia.
  destruct (Z.lt_ge_cases i 3).
  { rewrite !(Z.testbit_neg_r _ (i - 3)) by lia. apply andb_false_r. }
  rewrite Z.shiftr_spec by lia. replace (i - 3 + 3) with i by lia.
  destruct (Z.lt_ge_cases i 64).
  { rewrite Z.ones_spec_low by lia. apply andb_true_r. }
  rewrite (Z.bits_above_log2 x i); [done|lia|].
  destruct (Z.eq_dec x 0) as [->|]; [simpl; lia|]. apply Z.log2_lt_pow2; [lia|].
  apply Z.lt_le_trans with (2 ^ 64); [unfold u64_max in *; lia|apply Z.pow_le_mono_r; lia].
Qed.

(** [align8] rounds up to a multiple of eight. *)
Lemma align8_spec v a :
  0 <= v -> align8 v = Ok a <-> a = 8 * ((v + 7) / 8) /\ v + 7 <= u64_max.
Proof.
  intros Hv. unfold align8, checked_add. destruct (Z.leb_spec (v + 7) u64_max); simpl.
  - rewrite land_not_7 by lia. split; [intros [= <-]|intros [-> _]]; [split; [done|lia]|done].
  - split; [done|lia].
Qed.

Lemma align8_safe v : safe (align8 v).
Proof. unfold safe, align8. by destruct (checked_add v 7). Qed.

Lemma chunk_count_safe len cb : safe (chunk_count len cb).
Proof.
  unfold safe, chunk_count. destruct (cb =? 0), (len =? 0); try done. by destruct (checked_add _ _).
Qed.

Lemma align8_bounds v : v <= 8 * ((v + 7) / 8) <= v + 7 /\ (8 * ((v + 7) / 8)) mod 8 = 0.
Proof.
  pose proof (Z.div_mod (v + 7) 8). pose proof (Z.mod_pos_bound (v + 7) 8).
  split; [lia|]. rewrite Z.mul_comm. by rewrite Z.mod_mul.
Qed.

Lemma chunk_count_spec len cb n :
  0 <= len -> 0 < cb -> chunk_count len cb = Ok n ->
  n = chunks_of len cb /\ (len = 0 \/ len + (cb - 1) <= u64_max).
Proof.
  intros Hl Hc. unfold chunk_count, chunks_of. rewrite (proj2 (Z.eqb_neq cb 0)) by lia.
  destruct (Z.eqb_spec len 0) as [->|].
  - intros [= <-]. split; [|by left]. symmetry. apply Z.div_small. lia.
  - intros Hr. rinv. split; [f_equal; lia|by right].
Qed.

Lemma chunks_of_bounds len cb :
  0 <= len -> 0 < cb -> 0 <= chunks_of len cb /\ len <= chunks_of len cb * cb < len + cb.
Proof.
  intros Hl Hc. unfold chunks_of. pose proof (Z.div_mod (len + cb - 1) cb ltac:(lia)).
  pose proof (Z.mod_pos_bound (len + cb - 1) cb ltac:(lia)).
  assert (0 <= (len + cb - 1) / cb) by (apply Z.div_pos; lia). lia.
Qed.

Lemma i128_round_trip x : is_i128 x -> i128_combine (i128_split x) = x.
Proof.
  intros Hx. unfold i128_combine, i128_split. unfold is_i128 in Hx.
  pose proof (Z.mod_pos_bound x (2 ^ 128) ltac:(lia)).
  rewrite le_combine_split by (change (256 ^ Z.of_nat 16) with (2 ^ 128); lia).
  destruct (Z.lt_ge_cases x 0).
  - replace (x mod 2 ^ 128) with (x + 2 ^ 128) by (apply Z.mod_unique with (-1); lia).
    rewrite (proj2 (Z.ltb_ge _ _)) by lia. lia.
  - rewrite Z.mod_small by lia. by rewrite (proj2 (Z.ltb_lt _ _)) by lia.
Qed.

Lemma i128_combine_range l : bytes_ok l -> length l = 16%nat -> is_i128 (i128_combine l).
Proof.
  intros Hl Hlen. pose proof (le_combine_bound l Hl) as Hb. rewrite Hlen in Hb.
  change (256 ^ Z.of_nat 16) with (2 ^ 128) in Hb. unfold i128_combine, is_i128.
  destruct (Z.ltb_spec (le_combine l) (2 ^ 127)); lia.
Qed.

(** ** Parsing any bytes *)

(** The postcondition of a parser that any error satisfies. *)
Notation parses m position Q := (wpM m position Q (fun _ _ => True)).

Section Parse.

Context (bytes : bytes) (Hbytes : bytes_ok bytes).

Lemma parses_array n position (Q : list Z -> Z -> Prop) :
  0 <= position -> 0 <= n ->
  (forall a, zlen a = n -> bytes_ok a -> position + n <= zlen bytes -> Q a (position + n)) ->
  parses (read_array bytes n) position Q.
Proof.
  intros Hp Hn HQ. unfold wpM, read_array. destruct (checked_add position n) as [end_|] eqn:Ea; [|done].
  apply checked_add_Some in Ea as [-> _].
  destruct (slice bytes position (position + n)) as [a|] eqn:Es; [|done].
  pose proof (slice_length _ _ _ _ Es). apply HQ; [lia|by eapply slice_Forall|].
  apply slice_Some in Es. lia.
Qed.

Lemma parses_u32 position (Q : Z -> Z -> Prop) :
  0 <= position -> (forall v, 0 <= v <= u32_max -> Q v (position + 4)) ->
  parses (read_u32 bytes) position Q.
Proof.
  intros Hp HQ. apply wpM_bind, parses_array; [lia..|]. intros a Ha Hok _. apply wpM_ret, HQ.
  pose proof (le_combine_bound a Hok) as Hb. rewrite Ha in Hb. unfold u32_max. lia.
Qed.

Lemma parses_u64 position (Q : Z -> Z -> Prop) :
  0 <= position -> (forall v, is_u64 v -> Q v (position + 8)) ->
  parses (read_u64 bytes) position Q.
Proof.
  intros Hp HQ. apply wpM_bind, parses_array; [lia..|]. intros a Ha Hok _. apply wpM_ret, HQ.
  pose proof (le_combine_bound a Hok) as Hb. rewrite Ha in Hb. unfold is_u64, u64_max. lia.
Qed.

Lemma parses_i128 position (Q : Z -> Z -> Prop) :
  0 <= position -> (forall v, is_i128 v -> Q v (position + 16)) ->
  parses (read_i128 bytes) position Q.
Proof.
  intros Hp HQ. apply wpM_bind, parses_array; [lia..|]. intros a Ha Hok _. apply wpM_ret, HQ.
  apply i128_combine_range; [done|lia].
Qed.

Lemma parses_position position (Q : Z -> Z -> Prop) :
  Q position position -> parses read_position position Q.
Proof. done. Qed.

Lemma parses_descriptors n position (Q : list SectionDescriptor -> Z -> Prop) :
  0 <= position ->
  (forall l p, 0 <= p -> length l = n ->
     Forall (fun d => is_u64 (sd_offset d) /\ is_u64 (sd_len d) /\ is_u64 (sd_checksum_start d) /\
                      is_u64 (sd_checksum_count d)) l -> Q l p) ->
  parses (read_descriptors bytes n) position Q.
Proof.
  revert position Q; induction n as [|n IH]; intros position Q Hp HQ; cbn [read_descriptors].
  { apply wpM_ret. by apply HQ. }
  do 4 (apply wpM_bind, parses_u64; [lia|]; intros ? ?).
  apply wpM_bind, IH; [lia|]. intros l p Hp' Hl Hok. apply wpM_ret, HQ; [done|simpl; lia|].
  by constructor.
Qed.

(** What the checks of [parse_header] establish. *)
Lemma wp_checksum_ranges cb l start :
  0 < cb -> 0 <= start ->
  Forall (fun d => is_u64 (sd_offset d) /\ is_u64 (sd_len d) /\ is_u64 (sd_checksum_start d) /\
                   is_u64 (sd_checksum_count d)) l ->
  wp (check_checksum_ranges cb l start) (fun total =>
    Forall (descriptor_ok cb) l /\ consecutive sd_checksum_start sd_checksum_count start l total).
Proof.
  intros Hcb Hs Hl; revert start Hs; induction Hl as [|d l (Ho & Hlen & _ & Hc) _ IH]; intros start Hs;
    cbn [check_checksum_ranges]; [done|].
  wp_steps. zbool.
  apply wp_eq; [apply chunk_count_safe|]. intros n Hn.
  apply chunk_count_spec in Hn as [-> _]; [|unfold is_u64 in *; lia|done].
  wp_steps. zbool. rinv. eapply wp_mono; [apply IH; unfold is_u64 in *; lia|].
  intros total [? ?]. split; [by constructor|]. split; [done|]. done.
Qed.

Lemma wp_section_lengths l k t :
  0 <= k ->
  wp (check_section_lengths l k t) (fun _ => map sd_len l = [t; (k + 1) * 8; k * 4; k * 4]).
Proof.
  intros Hk. unfold check_section_lengths. wp_steps.
  match goal with
  | H : (_ ≫= _) = Some _ |- _ => apply bind_Some in H as (count & Hcount & H)
  end.
  rinv. match goal with Hd : bool_decide _ = true |- _ => by apply bool_decide_eq_true in Hd end.
Qed.

End Parse.

(** One step of a parser. *)
Ltac pstep :=
  match goal with
  | |- wpM (Errors.mbind (read_array _ _) _) _ _ _ => apply wpM_bind, parses_array; [done|lia..|intros ? ? ? ?]
  | |- wpM (Errors.mbind (read_u32 _) _) _ _ _ => apply wpM_bind, parses_u32; [done|lia|intros ? ?]
  | |- wpM (Errors.mbind (read_u64 _) _) _ _ _ => apply wpM_bind, parses_u64; [done|lia|intros ? ?]
  | |- wpM (Errors.mbind (read_i128 _) _) _ _ _ => apply wpM_bind, parses_i128; [done|lia|intros ? ?]
  | |- wpM (Errors.mbind (read_descriptors _ _) _) _ _ _ =>
      apply wpM_bind, parses_descriptors; [done|lia|intros ? ? ? ? ?]
  | |- wpM (Errors.mbind (lift (ensure _ _)) _) _ _ _ =>
      apply wpM_bind, wpM_lift; [apply wp_ensure; intros ?|done]
  | |- wpM (Errors.mbind (lift (ok_or _ _)) _) _ _ _ =>
      apply wpM_bind, wpM_lift; [apply wp_ok_or; intros ? ?|done]
  | |- wpM (Errors.mbind (lift (ensure_u64_ceiling _ _ _)) _) _ _ _ =>
      apply wpM_bind, wpM_lift; [apply wp_ensure_u64_ceiling; intros ?|done]
  end; cbv beta.

Lemma parse_header_spec bytes (Hbytes : bytes_ok bytes) actual_len options :
  wp (parse_header bytes actual_len options) (fun h =>
    (zlen bytes = HEADER_BYTES -> header_ok h) /\ ih_total_len h = actual_len /\
    ih_chunk_bytes h <= chunk_bytes options /\ actual_len <= max_index_bytes options).
Proof.
  unfold parse_header. apply wp_fst. unfold parse_header_at.
  repeat pstep.
  apply wpM_bind, wpM_lift; [|done].
  match goal with
  | Hc : negb ((?v <? MIN_CHUNK_BYTES) || _) = true |- _ =>
      apply negb_true_iff, orb_false_iff in Hc as [Hc _]; apply Z.ltb_ge in Hc
  end.
  eapply wp_mono; [apply wp_checksum_ranges; unfold MIN_CHUNK_BYTES in *; [lia|done|eassumption]|].
  intros total [Hok Hcons]. cbv beta. repeat pstep. apply wpM_bind, parses_position.
  pstep. apply wpM_bind, wpM_lift; [|done]. zbool.
  match goal with Hs : checked_sub _ _ = Some _ |- _ => apply checked_sub_Some in Hs as [-> ?] end.
  apply wp_or_panic; [apply slice_is_Some; unfold HEADER_CHECKSUM_BYTES in *; lia|]. intros padding _.
  pstep. apply wpM_bind, wpM_lift; [|done].
  eapply wp_mono; [apply wp_section_lengths; unfold is_u64 in *; lia|]. intros u Hlens.
  apply wpM_ret. zbool. rinv. split; [|done]. intros Hz.
  rewrite Hz in *. simpl in *. constructor; simpl; try done; unfold is_u64 in *; try lia.
Qed.

(** ** The layout of the sections *)

Lemma wp_section_offsets source_len l cursor :
  0 <= cursor -> Forall (fun d => 0 <= sd_len d) l ->
  wp (check_section_offsets source_len l cursor) (fun end_ => sections_placed source_len cursor l).
Proof.
  intros Hc Hl; revert cursor Hc; induction Hl as [|d l Hd _ IH]; intros cursor Hc;
    cbn [check_section_offsets]; [done|].
  apply wp_bind, wp_eq; [apply align8_safe|]. intros a Ha.
  apply align8_spec in Ha as [-> _]; [|done]. wp_steps. rinv. zbool.
  pose proof (align8_bounds cursor).
  eapply wp_mono; [apply IH; lia|]. intros end_ Hp. by split_and!.
Qed.

Lemma header_table_nonneg h : header_ok h -> 0 <= ih_checksum_count h.
Proof.
  intros Hh. eapply consecutive_le; [|apply hk_checksums, Hh].
  eapply Forall_impl; [apply hk_sections, Hh|]. intros d (_ & [Hl _] & ->).
  pose proof (hk_chunk h Hh). apply chunks_of_bounds; unfold MIN_CHUNK_BYTES in *; lia.
Qed.

Lemma validate_section_layout_spec source_len h :
  header_ok h ->
  wp (validate_section_layout source_len h) (fun _ =>
    sections_placed source_len (HEADER_BYTES + ih_checksum_count h * 4) (ih_sections h)).
Proof.
  intros Hh. pose proof (header_table_nonneg h Hh) as Hc. unfold validate_section_layout.
  rewrite (hk_header_len h Hh).
  apply wp_bind, wp_ok_or. intros table [-> _]%checked_mul_Some.
  apply wp_bind, wp_ok_or. intros start [-> _]%checked_add_Some. apply wp_bind.
  assert (Forall (fun d => 0 <= sd_len d) (ih_sections h)) as Hlens.
  { eapply Forall_impl; [apply hk_sections, Hh|]. by intros d (_ & [? _] & _). }
  set (cursor := HEADER_BYTES + ih_checksum_count h * 4) in *. assert (0 <= cursor) by (unfold cursor, HEADER_BYTES; lia).
  pose proof (align8_bounds cursor) as [Hb Hmod].
  assert (forall c, c = 8 * ((cursor + 7) / 8) ->
            sections_placed source_len c (ih_sections h) -> sections_placed source_len cursor (ih_sections h)) as Hal.
  { intros c -> Hp. destruct (ih_sections h) as [|d l]; [done|]. destruct Hp as (Ho & ? & ?).
    assert (8 * ((8 * ((cursor + 7) / 8) + 7) / 8) = 8 * ((cursor + 7) / 8)) as E.
    { f_equal. rewrite Z.mul_comm, Z.div_add_l by lia. change (7 / 8) with 0. lia. }
    split_and!; [by rewrite Ho|done|done]. }
  eapply (wp_mono _ (fun c => c = 8 * ((cursor + 7) / 8))).
  { unfold is_multiple_of_8. destruct (Z.eqb_spec (cursor mod 8) 0) as [Hm|].
    - pose proof (Z.div_mod cursor 8). simpl. Z.to_euclidean_division_equations; lia.
    - apply wp_eq; [apply align8_safe|]. by intros a [-> _]%align8_spec. }
  intros c Hcur. cbv beta in Hcur. apply wp_bind.
  eapply wp_mono; [apply wp_section_offsets; [lia|done]|]. intros end_ Hp. cbv beta.
  apply wp_ensure. intros _. by eapply Hal.
Qed.

(** ** Parsing what was built *)

Section RoundTrip.

Context (bytes : bytes) (Hmax : zlen bytes <= u64_max).

(** [rest] is what is behind [position]. *)
Definition reads_at (position : Z) (rest : list Z) : Prop :=
  0 <= position /\ position + zlen rest = zlen bytes /\ drop (Z.to_nat position) bytes = rest.

Lemma reads_at_next position field rest :
  reads_at position (field ++ rest) -> reads_at (position + zlen field) rest.
Proof.
  intros (Hp & Hlen & Hd). rewrite length_app in Hlen. split_and!; [lia|lia|].
  replace (Z.to_nat (position + zlen field)) with (Z.to_nat position + length field)%nat by lia.
  by rewrite <- drop_drop, Hd, drop_app_length.
Qed.

Lemma round_array {A} n position field rest (k : list Z -> M Z A) R :
  reads_at position (field ++ rest) -> zlen field = n ->
  (reads_at (position + n) rest -> k field (position + n) = R) ->
  Errors.mbind (read_array bytes n) k position = R.
Proof.
  intros Hr <- Hk. pose proof (reads_at_next _ _ _ Hr) as Hn. destruct Hr as (Hp & Hlen & Hd).
  rewrite length_app in Hlen. unfold Errors.mbind, read_array, checked_add.
  rewrite (proj2 (Z.leb_le _ _)) by lia.
  assert (slice bytes position (position + zlen field) = Some field) as ->.
  { apply slice_Some. split; [lia|]. rewrite Hd. replace (Z.to_nat (position + zlen field - position))
      with (length field) by lia. by rewrite take_app_length. }
  by apply Hk.
Qed.

Lemma round_u32 {A} v position rest (k : Z -> M Z A) R :
  reads_at position (le_split 4 v ++ rest) -> 0 <= v <= u32_max ->
  (reads_at (position + 4) rest -> k v (position + 4) = R) ->
  Errors.mbind (read_u32 bytes) k position = R.
Proof.
  intros Hr Hv Hk. unfold read_u32.
  transitivity (Errors.mbind (read_array bytes 4) (fun a => k (le_combine a)) position).
  { unfold Errors.mbind, mret. by destruct (read_array bytes 4 position) as [[] ?]. }
  eapply round_array; [exact Hr|by rewrite length_le_split|].
  rewrite le_combine_split; [done|]. unfold u32_max in Hv. simpl. lia.
Qed.

Lemma round_u64 {A} v position rest (k : Z -> M Z A) R :
  reads_at position (le_split 8 v ++ rest) -> is_u64 v ->
  (reads_at (position + 8) rest -> k v (position + 8) = R) ->
  Errors.mbind (read_u64 bytes) k position = R.
Proof.
  intros Hr Hv Hk. unfold read_u64.
  transitivity (Errors.mbind (read_array bytes 8) (fun a => k (le_combine a)) position).
  { unfold Errors.mbind, mret. by destruct (read_array bytes 8 position) as [[] ?]. }
  eapply round_array; [exact Hr|by rewrite length_le_split|].
  rewrite le_combine_split; [done|]. unfold is_u64, u64_max in Hv. simpl. lia.
Qed.

Lemma round_i128 {A} v position rest (k : Z -> M Z A) R :
  reads_at position (i128_split v ++ rest) -> is_i128 v ->
  (reads_at (position + 16) rest -> k v (position + 16) = R) ->
  Errors.mbind (read_i128 bytes) k position = R.
Proof.
  intros Hr Hv Hk. unfold read_i128.
  transitivity (Errors.mbind (read_array bytes 16) (fun a => k (i128_combine a)) position).
  { unfold Errors.mbind, mret. by destruct (read_array bytes 16 position) as [[] ?]. }
  eapply round_array; [exact Hr|by unfold i128_split; rewrite length_le_split|].
  by rewrite i128_round_trip.
Qed.

Lemma round_descriptors {A} l position rest (k : list SectionDescriptor -> M Z A) R :
  reads_at position (flat_map descriptor_bytes l ++ rest) ->
  Forall (fun d => is_u64 (sd_offset d) /\ is_u64 (sd_len d) /\ is_u64 (sd_checksum_start d) /\
                   is_u64 (sd_checksum_count d)) l ->
  (forall p, reads_at p rest -> k l p = R) ->
  Errors.mbind (read_descriptors bytes (length l)) k position = R.
Proof.
  intros Hr Hl; revert position Hr k; induction Hl as [|d l (? & ? & ? & ?) _ IH]; intros position Hr k Hk.
  { by apply (Hk position). }
  cbn [flat_map] in Hr. unfold descriptor_bytes in Hr. rewrite <- !app_assoc in Hr.
  cbn [length read_descriptors].
  transitivity (
    (let! offset := read_u64 bytes in let! len := read_u64 bytes in
     let! start := read_u64 bytes in let! count := read_u64 bytes in
     let! rest := read_descriptors bytes (length l) in
     k ({| sd_offset := offset; sd_len := len; sd_checksum_start := start;
           sd_checksum_count := count |} :: rest)) position).
  { unfold Errors.mbind, mret. by repeat (case_match; simplify_eq). }
  do 4 (eapply round_u64; [exact Hr|done|clear Hr; intros Hr]).
  apply (IH _ Hr). intros p Hp. destruct d; simpl. by apply Hk.
Qed.

Lemma round_lift {A B} (r : Result A) a position (k : A -> M Z B) R :
  r = Ok a -> k a position = R -> Errors.mbind (lift r) k position = R.
Proof. by intros -> Hk. Qed.

End RoundTrip.

(** ** What [build_header] produces *)

(** The order in which the sections are built. *)
Definition section_kinds : list SectionKind := [SecText; SecBounds; SecRaw; SecOrder].

(** The descriptors of sections that start at [offset]. *)
Fixpoint describe (sections : list SectionFile) (offset start : Z) : list SectionDescriptor :=
  match sections with
  | [] => []
  | section :: sections =>
      let offset := 8 * ((offset + 7) / 8) in
      {| sd_offset := offset; sd_len := sf_len section; sd_checksum_start := start;
         sd_checksum_count := zlen (sf_checksums section) |}
      :: describe sections (offset + sf_len section) (start + zlen (sf_checksums section))
  end.

(** Where the last of them ends. *)
Fixpoint sections_end (sections : list SectionFile) (offset : Z) : Z :=
  match sections with
  | [] => offset
  | section :: sections => sections_end sections (8 * ((offset + 7) / 8) + sf_len section)
  end.

Fixpoint checksum_total (sections : list SectionFile) : Z :=
  match sections with
  | [] => 0
  | section :: sections => zlen (sf_checksums section) + checksum_total sections
  end.

Section Build.

Context `{Env}.

Definition fields_ok (d : SectionDescriptor) : Prop :=
  is_u64 (sd_offset d) /\ is_u64 (sd_len d) /\ is_u64 (sd_checksum_start d) /\ is_u64 (sd_checksum_count d).

Lemma place_sections_spec sections offset start before after ds end_ :
  map (fun s => section_index (sf_kind s)) sections = seqZ (zlen before) (zlen sections) ->
  length after = length sections -> is_u64 offset -> is_u64 start ->
  Forall (fun s => 0 <= sf_len s) sections ->
  place_sections sections offset start (before ++ after) = Ok (ds, end_) ->
  ds = before ++ describe sections offset start /\ end_ = sections_end sections offset /\
  is_u64 end_ /\ Forall fields_ok (describe sections offset start).
Proof.
  revert offset start before after. induction sections as [|section sections IH];
    intros offset start before after Hk Ha Ho Hst Hl Hp.
  { destruct after; [|done]. injection Hp as <- <-. simpl. rewrite app_nil_r. by split_and!. }
  destruct after as [|d0 after]; [done|]. apply Forall_cons in Hl as [Hl0 Hl].
  rewrite length_cons, seqZ_cons in Hk by lia. injection Hk as Hk0 Hk.
  unfold is_u64 in Ho, Hst.
  cbn [place_sections] in Hp. apply rbind_Ok in Hp as (a & Ha' & Hp).
  apply align8_spec in Ha' as [-> Hoff]; [|lia]. pose proof (align8_bounds offset) as [Hb _]. rinv.
  rewrite Hk0, Nat2Z.id in Hp. rewrite insert_app_r_alt in Hp by lia.
  rewrite Nat.sub_diag in Hp. simpl in Hp.
  match type of Hp with context [before ++ ?d :: after] => set (d1 := d) in * end.
  rewrite (cons_middle d1 before after), app_assoc in Hp.
  apply IH in Hp as (-> & -> & He & Hds); [|..].
  - rewrite <- app_assoc. split_and!; [done|done|done|]. cbn [describe]. constructor; [|done].
    unfold fields_ok, is_u64; simpl. lia.
  - rewrite length_app, Hk. simpl. f_equal; lia.
  - simpl in Ha. lia.
  - unfold is_u64. lia.
  - unfold is_u64. lia.
  - done.
Qed.

Lemma sections_end_le sections offset :
  Forall (fun s => 0 <= sf_len s) sections -> offset <= sections_end sections offset.
Proof.
  intros Hl; revert offset; induction Hl as [|s sections Hs _ IH]; intros offset; simpl; [done|].
  pose proof (align8_bounds offset) as [Hb _]. specialize (IH (8 * ((offset + 7) / 8) + sf_len s)). lia.
Qed.

Lemma describe_placed sections offset start source_len :
  Forall (fun s => 0 <= sf_len s) sections -> sections_end sections offset <= source_len ->
  sections_placed source_len offset (describe sections offset start).
Proof.
  intros Hl; revert offset start; induction Hl as [|s sections Hs Hl IH]; intros offset start He; [done|].
  cbn [sections_end] in He. pose proof (sections_end_le sections (8 * ((offset + 7) / 8) + sf_len s) Hl).
  cbn [describe sections_placed sd_offset sd_len]. split_and!; [done|lia|]. by apply IH.
Qed.

Lemma describe_checksums sections offset start :
  consecutive sd_checksum_start sd_checksum_count start (describe sections offset start)
    (start + checksum_total sections).
Proof.
  revert offset start; induction sections as [|s sections IH]; intros offset start; simpl; [lia|].
  split; [done|]. replace (start + (zlen (sf_checksums s) + checksum_total sections))
    with (start + zlen (sf_checksums s) + checksum_total sections) by lia. apply IH.
Qed.

Lemma describe_lens sections offset start : map sd_len (describe sections offset start) = map sf_len sections.
Proof. revert offset start; induction sections as [|s sections IH]; intros; simpl; [done|]. by rewrite IH. Qed.

(** Every section has one checksum per chunk. *)
Definition checksums_counted (cb : Z) (sections : list SectionFile) : Prop :=
  Forall (fun s => chunk_count (sf_len s) cb = Ok (zlen (sf_checksums s))) sections.

Lemma count_checksums_spec cb sections count total :
  count_checksums cb sections count = Ok total ->
  checksums_counted cb sections /\ total = count + checksum_total sections /\ (count <= u64_max -> total <= u64_max).
Proof.
  revert count; induction sections as [|s sections IH]; intros count; cbn [count_checksums checksum_total].
  { intros [= <-]. split; [constructor|]. split; [lia|done]. }
  intros Hc. apply rbind_Ok in Hc as (n & Hn & Hc). rinv. zbool. subst.
  apply IH in Hc as (? & -> & ?). split; [by constructor|]. split; [lia|auto].
Qed.

Lemma describe_ranges cb sections offset start :
  checksums_counted cb sections -> start + checksum_total sections <= u64_max ->
  check_checksum_ranges cb (describe sections offset start) start = Ok (start + checksum_total sections).
Proof.
  intros Hc; revert offset start; induction Hc as [|s sections Hs Hc IH]; intros offset start Hm;
    cbn [describe check_checksum_ranges checksum_total] in *; [by rewrite Z.add_0_r|].
  assert (0 <= checksum_total sections) by (clear; induction sections; simpl; lia).
  simpl. rewrite Z.eqb_refl, Hs. simpl. rewrite Z.eqb_refl. simpl.
  unfold checked_add. rewrite (proj2 (Z.leb_le _ _)) by lia. simpl. rewrite IH by lia.
  f_equal. lia.
Qed.

Lemma Ok_inj {A} (a b : A) : Ok a = Ok b -> a = b.
Proof. by intros [= ->]. Qed.

(** What [build_header] makes of four sections. *)
Lemma build_header_inv sections identity text_len options header ds total :
  map sf_kind sections = section_kinds -> Forall (fun s => 0 <= sf_len s) sections ->
  build_header sections identity text_len options = Ok (header, ds, total) ->
  let table := checksum_total sections in
  let offset := 8 * ((HEADER_BYTES + table * 4 + 7) / 8) in
  let fields := header_fields total (chunk_bytes options) identity text_len ds in
  ds = describe sections offset 0 /\ total = sections_end sections offset /\ is_u64 total /\
  Forall fields_ok ds /\ checksums_counted (chunk_bytes options) sections /\
  total <= max_index_bytes options /\ HEADER_BYTES + table * 4 <= or_u64_max (try_u64 (max_metadata_bytes options)) /\
  HEADER_BYTES + table * 4 + 7 <= u64_max /\ chunk_bytes options <= u32_max /\
  zlen fields = HEADER_FIELDS_BYTES /\
  header = fields ++ replicate 4 0 ++
    le_split 4 (if is_verify (ki_checksum_policy options) then adler32 (fields ++ replicate 4 0) else 0).
Proof.
  intros Hk Hl Hb table offset fields. unfold build_header in Hb.
  apply rbind_Ok in Hb as (cb & Hcb & Hb). apply ok_or_Ok, try_u32_Some in Hcb as [-> Hcb].
  apply rbind_Ok in Hb as (u & _ & Hb). apply rbind_Ok in Hb as (count & Hcount & Hb).
  apply count_checksums_spec in Hcount as (Hc & Hcount & _). rewrite Z.add_0_l in Hcount.
  apply rbind_Ok in Hb as (cbytes & Hcb'%ok_or_Ok%checked_mul_Some & Hb). destruct Hcb' as [-> _].
  rewrite Hcount in Hb. fold table in Hb.
  apply rbind_Ok in Hb as (mb & Hm%ok_or_Ok%checked_add_Some & Hb). destruct Hm as [-> _].
  apply rbind_Ok in Hb as (u' & Hceil%ensure_u64_ceiling_Ok & Hb).
  apply rbind_Ok in Hb as (te & Ht%ok_or_Ok%checked_add_Some & Hb). destruct Ht as [-> _].
  assert (0 <= table) as Ht0 by (unfold table; clear; induction sections; simpl; lia).
  apply rbind_Ok in Hb as (off & Hoff & Hb). apply align8_spec in Hoff as [-> Hoff]; [|unfold HEADER_BYTES; lia].
  fold offset in Hb. apply rbind_Ok in Hb as ([ds' total'] & Hp & Hb). cbv beta iota zeta in Hb.
  apply rbind_Ok in Hb as (u1 & Hmaxi%ensure_u64_ceiling_Ok & Hb). apply rbind_Ok in Hb as (u2 & _ & Hb).
  apply rbind_Ok in Hb as (u3 & Hz%ensure_Ok & Hb). apply rbind_Ok in Hb as (u4 & _ & Hb).
  apply Ok_inj, pair_equal_spec in Hb as [Hb ->]. apply pair_equal_spec in Hb as [<- ->].
  fold fields in Hz |- *. apply Z.eqb_eq in Hz. pose proof (align8_bounds (HEADER_BYTES + table * 4)) as [Hb8 _]. fold offset in Hb8.
  apply (place_sections_spec sections offset 0 [] _ ds total) in Hp as (Hds & Htot & Hu & Hf).
  - assert (Z.to_nat (HEADER_BYTES - HEADER_CHECKSUM_BYTES - zlen fields) = 4%nat) as ->
      by (by rewrite Hz).
    rewrite app_nil_l in Hds. rewrite <- app_assoc. by rewrite Hds at 2.
  - change (fun s => section_index (sf_kind s)) with (fun s => section_index (sf_kind s)).
    rewrite <- (map_map sf_kind section_index), Hk.
    apply (f_equal length) in Hk. rewrite length_map in Hk. by rewrite Hk.
  - apply (f_equal length) in Hk. rewrite length_map in Hk. by rewrite Hk.
  - unfold is_u64, HEADER_BYTES in *. lia.
  - done.
  - done.
Qed.

Lemma place_sections_safe sections offset start ds : safe (place_sections sections offset start ds).
Proof.
  revert offset start ds; induction sections as [|s sections IH]; intros offset start ds; [done|].
  cbn [place_sections]. apply wp_bind. eapply wp_mono; [apply align8_safe|]. intros o _. cbv beta zeta.
  do 3 (apply wp_bind, wp_ok_or; intros ? ?). apply IH.
Qed.

Lemma count_checksums_safe cb sections count : safe (count_checksums cb sections count).
Proof.
  revert count; induction sections as [|s sections IH]; intros count; [done|]. cbn [count_checksums].
  apply wp_bind. eapply wp_mono; [apply chunk_count_safe|]. intros expected _. cbv beta.
  apply wp_bind, wp_ok_or. intros actual _. apply wp_bind, wp_ensure. intros _.
  apply wp_bind, wp_ok_or. intros ? _. apply IH.
Qed.

Lemma build_header_safe sections identity text_len options :
  safe (build_header sections identity text_len options).
Proof.
  unfold safe, build_header. apply wp_bind, wp_ok_or. intros cb _. apply wp_bind, wp_ensure_usize_limit. intros _.
  apply wp_bind. eapply wp_mono; [apply count_checksums_safe|]. intros count _. cbv beta.
  do 2 (apply wp_bind, wp_ok_or; intros ? ?). apply wp_bind, wp_ensure_u64_ceiling. intros _.
  apply wp_bind, wp_ok_or. intros te _. apply wp_bind. eapply wp_mono; [apply align8_safe|]. intros off _. cbv beta.
  apply wp_bind. eapply wp_mono; [apply place_sections_safe|]. intros [ds total] _. cbv beta iota.
  apply wp_bind, wp_ensure_u64_ceiling. intros _. apply wp_bind, wp_try_reserve_vec.
  cbv zeta. apply wp_bind, wp_ensure. intros _. apply wp_bind, wp_ensure. by intros _.
Qed.

Lemma validate_options_safe options : safe (validate_options options).
Proof. unfold safe, validate_options. by wp_steps. Qed.

(** The layout of described sections is accepted. *)
Lemma align8_of_u64 v : 0 <= v -> 8 * ((v + 7) / 8) <= u64_max -> align8 v = Ok (8 * ((v + 7) / 8)).
Proof.
  intros Hv Hle. apply align8_spec; [done|]. split; [done|]. unfold u64_max in *.
  Z.to_euclidean_division_equations. lia.
Qed.

Lemma align8_aligned v : 8 * ((8 * ((v + 7) / 8) + 7) / 8) = 8 * ((v + 7) / 8).
Proof. f_equal. rewrite Z.mul_comm, Z.div_add_l by lia. change (7 / 8) with 0. lia. Qed.

Lemma describe_accepted sections offset start source_len :
  Forall (fun s => 0 <= sf_len s) sections -> 0 <= offset ->
  sections_end sections offset <= source_len -> source_len <= u64_max ->
  Forall fields_ok (describe sections offset start) ->
  check_section_offsets source_len (describe sections offset start) offset = Ok (sections_end sections offset).
Proof.
  intros Hl; revert offset start; induction Hl as [|s sections Hs Hl IH]; intros offset start Ho He Hu Hf; [done|].
  cbn [describe] in Hf. apply Forall_cons in Hf as [([_ Hoff] & _) Hf]. cbn [sd_offset] in Hoff.
  cbn [describe sections_end check_section_offsets] in *.
  pose proof (sections_end_le sections (8 * ((offset + 7) / 8) + sf_len s) Hl).
  pose proof (align8_bounds offset) as [Hb Hm].
  rewrite align8_of_u64 by done. cbn [rbind sd_offset sd_len]. rewrite Z.eqb_refl.
  unfold is_multiple_of_8. rewrite Hm. cbn [Z.eqb andb ensure rbind].
  unfold checked_add. rewrite (proj2 (Z.leb_le _ _)) by lia. cbn [ok_or rbind].
  rewrite (proj2 (Z.ltb_ge _ _)) by lia. cbn [negb ensure rbind]. apply IH; [lia|done..].
Qed.

End Build.

(** * Properties *)

Definition identity_ok (identity : KeyIndexSourceIdentity) : Prop :=
  is_u64 (source_bytes identity) /\ is_i128 (source_modified_unix_nanos identity) /\
  0 <= key_count identity <= u32_max.

(** The sections have the lengths that [key_count] rows and [text_len] bytes
    of text demand. *)
Definition sections_sized (identity : KeyIndexSourceIdentity) (text_len : Z)
    (sections : list SectionFile) : Prop :=
  map sf_kind sections = section_kinds /\
  map sf_len sections = [text_len; (key_count identity + 1) * 8; key_count identity * 4;
                         key_count identity * 4].

(** A reader that allows at least what the writer allowed. *)
Definition options_allow (writer reader : KeyIndexOptions) : Prop :=
  chunk_bytes writer <= chunk_bytes reader <= u64_max /\
  max_index_bytes writer <= max_index_bytes reader /\
  max_metadata_bytes writer <= max_metadata_bytes reader.

(** One field of a header that is read back. *)
Ltac rstep Hr :=
  match goal with
  | |- Errors.mbind (read_array _ _) _ _ = _ =>
      eapply (round_array _ ltac:(eassumption)); [exact Hr|done|clear Hr; intros Hr]
  | |- Errors.mbind (read_u32 _) _ _ = _ =>
      eapply (round_u32 _ ltac:(eassumption)); [exact Hr|try done|clear Hr; intros Hr]
  | |- Errors.mbind (read_u64 _) _ _ = _ =>
      eapply (round_u64 _ ltac:(eassumption)); [exact Hr|try done|clear Hr; intros Hr]
  | |- Errors.mbind (read_i128 _) _ _ = _ =>
      eapply (round_i128 _ ltac:(eassumption)); [exact Hr|try done|clear Hr; intros Hr]
  end.

Lemma Forall_of_map {A B} (g : A -> B) (P : B -> Prop) l :
  Forall P (map g l) -> Forall (fun a => P (g a)) l.
Proof. induction l as [|a l IH]; intros Hf; [constructor|]. inversion Hf; subst. constructor; auto. Qed.

(** The bytes of a header are parsed back, under the checks its values pass. *)
Lemma parse_fields header total cb identity text_len ds checksum count reader :
  let h := {| ih_header_len := HEADER_BYTES; ih_total_len := total; ih_chunk_bytes := cb;
              ih_source_identity := identity; ih_normalized_text_len := text_len;
              ih_sections := ds; ih_checksum_count := count |} in
  header = header_fields total cb identity text_len ds ++ replicate 4 0 ++ le_split 4 checksum ->
  zlen header = HEADER_BYTES -> identity_ok identity -> is_u64 text_len -> is_u64 total ->
  MIN_CHUNK_BYTES <= cb <= u32_max -> is_power_of_two cb = true -> cb <= chunk_bytes reader <= u64_max ->
  total <= max_index_bytes reader -> length ds = Z.to_nat SECTION_COUNT -> Forall fields_ok ds ->
  check_checksum_ranges cb ds 0 = Ok count -> HEADER_BYTES + count * 4 <= u64_max -> 0 <= count ->
  HEADER_BYTES + count * 4 <= or_u64_max (try_u64 (max_metadata_bytes reader)) ->
  map sd_len ds = [text_len; (key_count identity + 1) * 8; key_count identity * 4; key_count identity * 4] ->
  parse_header header total reader = Ok h.
Proof.
  intros h Hheader Hz (Hsb & Hmod & Hk) Htl Htot Hcb Hpow Hrc Hri Hlen Hf Hranges Htab Hcount Hmeta Hlens.
  assert (reads_at header 0 header) as Hr by (split_and!; [done|lia|done]).
  rewrite Hheader in Hr at 2. unfold header_fields in Hr. rewrite <- !app_assoc in Hr.
  assert (zlen header <= u64_max) as Hmax by (rewrite Hz; done).
  unfold parse_header. enough (parse_header_at header total reader 0 = (Ok h, HEADER_FIELDS_BYTES)) as -> by done.
  unfold parse_header_at.
  rstep Hr. eapply round_lift; [done|].
  rstep Hr. eapply round_lift; [done|].
  rstep Hr. eapply round_lift; [done|].
  rstep Hr. eapply round_lift; [by rewrite Hz|].
  rstep Hr. eapply round_lift; [by rewrite Z.eqb_refl|].
  eapply round_lift; [unfold ensure_u64_ceiling; by rewrite (proj2 (Z.ltb_ge _ _) Hri)|].
  do 2 (rstep Hr; eapply round_lift; [done|]).
  rstep Hr; [unfold MIN_CHUNK_BYTES in *; lia|].
  eapply round_lift; [apply ok_or_Ok, try_u64_Some; split; [done|lia]|].
  eapply round_lift; [by rewrite (proj2 (Z.ltb_ge _ _)), Hpow by lia|].
  eapply round_lift; [by rewrite (proj2 (Z.ltb_ge _ _)) by lia|].
  rstep Hr. eapply round_lift; [done|].
  rstep Hr. rstep Hr. rstep Hr; [unfold is_u64, u32_max, u64_max in *; lia|].
  eapply round_lift; [by rewrite (proj2 (Z.ltb_ge _ _)) by lia|].
  rstep Hr. rewrite <- Hlen. eapply (round_descriptors _ ltac:(eassumption)); [exact Hr|exact Hf|].
  clear Hr. intros p Hr. eapply round_lift; [exact Hranges|].
  eapply round_lift; [apply ok_or_Ok, checked_mul_Some; unfold HEADER_BYTES in *; split; [done|lia]|].
  eapply round_lift; [apply ok_or_Ok, checked_add_Some; split; [done|lia]|].
  eapply round_lift; [unfold ensure_u64_ceiling; by rewrite (proj2 (Z.ltb_ge _ _) Hmeta)|].
  eapply round_lift; [rewrite Hz; done|].
  assert (p = HEADER_FIELDS_BYTES) as ->.
  { destruct Hr as (_ & Hp & _). rewrite Hz, length_app, length_replicate, length_le_split in Hp.
    unfold HEADER_BYTES, HEADER_FIELDS_BYTES in *. lia. }
  pose proof (reads_at_next _ _ _ _ Hr) as Hn. rewrite length_replicate in Hn.
  eapply round_lift; [done|].
  assert (slice header HEADER_FIELDS_BYTES (HEADER_BYTES - HEADER_CHECKSUM_BYTES) = Some (replicate 4 0)) as Hs.
  { apply slice_Some. rewrite Hz. split; [done|]. destruct Hr as (_ & _ & ->). done. }
  eapply round_lift; [by rewrite Hs|]. eapply round_lift; [done|].
  eapply round_lift; [|by destruct identity]. unfold check_section_lengths, checked_add, checked_mul.
  unfold u32_max, u64_max in *.
  rewrite (proj2 (Z.leb_le (key_count identity + 1) _)) by lia. cbn [Errors.mbind].
  simpl. rewrite (proj2 (Z.leb_le ((key_count identity + 1) * 8) _)) by lia. simpl.
  rewrite (proj2 (Z.leb_le (key_count identity * 4) _)) by lia. simpl.
  rewrite Hlens. by rewrite bool_decide_true.
Qed.

(** A header that was built is parsed back. *)
Lemma header_parses `{Env} sections identity text_len options reader header ds total :
  identity_ok identity -> is_u64 text_len -> sections_sized identity text_len sections ->
  validate_options options = Ok tt -> options_allow options reader ->
  build_header sections identity text_len options = Ok (header, ds, total) ->
  let h := {| ih_header_len := HEADER_BYTES; ih_total_len := total;
              ih_chunk_bytes := chunk_bytes options; ih_source_identity := identity;
              ih_normalized_text_len := text_len; ih_sections := ds;
              ih_checksum_count := checksum_total sections |} in
  parse_header header total reader = Ok h /\ validate_section_layout total h = Ok tt /\
  zlen header = HEADER_BYTES.
Proof.
  intros Hid Htl [Hkinds Hlens] Hopt (Hrc & Hri & Hrm) Hb h.
  assert (Forall (fun s => 0 <= sf_len s) sections) as Hl.
  { assert (Forall (Z.le 0) (map sf_len sections)) as Hl.
    { rewrite Hlens. destruct Hid as (_ & _ & ?), Htl. by repeat constructor; lia. }
    by apply (Forall_of_map sf_len (Z.le 0)). }
  destruct (build_header_inv _ _ _ _ _ _ _ Hkinds Hl Hb) as
    (Hds & Htot & Hu & Hf & Hc & Hmi & Hmm & Htab & Hcb & Hz & Hheader). clear Hb.
  assert (0 <= checksum_total sections) as Hct by (clear; induction sections; simpl; lia).
  assert (zlen header = HEADER_BYTES) as Hlen.
  { rewrite Hheader, !length_app, length_replicate, length_le_split.
    unfold HEADER_BYTES, HEADER_FIELDS_BYTES in *. lia. }
  assert (length ds = Z.to_nat SECTION_COUNT) as Hn.
  { apply (f_equal length) in Hlens. rewrite length_map in Hlens. apply (f_equal (map sd_len)) in Hds.
    rewrite describe_lens in Hds. apply (f_equal length) in Hds. rewrite !length_map in Hds. by rewrite Hds, Hlens. }
  unfold validate_options in Hopt. rinv. repeat match goal with Hx : _ || _ = false |- _ => apply orb_false_iff in Hx as [? ?] end.
  zbool. split_and!; [|..|done].
  - eapply parse_fields; try done; try lia.
    + rewrite Hds, describe_ranges; [done|done|]. unfold HEADER_BYTES in *. lia.
    + unfold or_u64_max, try_u64 in *. clear -Hrm Hmm. revert Hmm.
      destruct (Z.leb_spec (max_metadata_bytes options) u64_max), (Z.leb_spec (max_metadata_bytes reader) u64_max);
        simpl; lia.
    + by rewrite Hds, describe_lens.
  - set (table := HEADER_BYTES + checksum_total sections * 4) in *.
    assert (0 <= table) by (unfold table, HEADER_BYTES; lia).
    pose proof (align8_bounds table) as [Hb Hm].
    unfold validate_section_layout, h; cbn [ih_checksum_count ih_header_len ih_sections ih_total_len].
    unfold checked_mul. rewrite (proj2 (Z.leb_le _ _)) by (unfold table, HEADER_BYTES in *; lia). cbn [ok_or rbind].
    unfold checked_add. rewrite (proj2 (Z.leb_le _ _)) by (unfold table, HEADER_BYTES in *; lia). cbn [ok_or rbind].
    fold table.
    assert ((if is_multiple_of_8 table then Ok table else align8 table) = Ok (8 * ((table + 7) / 8))) as ->.
    { unfold is_multiple_of_8. destruct (Z.eqb_spec (table mod 8) 0).
      - f_equal. Z.to_euclidean_division_equations. lia.
      - by apply align8_spec. }
    cbn [rbind]. rewrite Hds, (describe_accepted sections _ 0 total); [|done|lia|lia|unfold is_u64 in *; lia|].
    + cbn [rbind]. by rewrite <- Htot, Z.eqb_refl.
    + by rewrite Hds in Hf.
Qed.

(** C28: the header that [build_header] writes is parsed back by every reader
    whose limits allow the writer's options: every field, the source identity
    with its signed 128-bit time included, the four section descriptors and the
    number of checksums; and the layout it declares is accepted.  (The header's
    checksum is no part of [parse_header]: the reader checks it before, as its
    checksum policy tells.) *)
Theorem header_round_trip `{Env} sections identity text_len options reader header ds total :
  identity_ok identity -> is_u64 text_len -> sections_sized identity text_len sections ->
  validate_options options = Ok tt -> options_allow options reader ->
  build_header sections identity text_len options = Ok (header, ds, total) ->
  let h := {| ih_header_len := HEADER_BYTES; ih_total_len := total;
              ih_chunk_bytes := chunk_bytes options; ih_source_identity := identity;
              ih_normalized_text_len := text_len; ih_sections := ds;
              ih_checksum_count := checksum_total sections |} in
  parse_header header total reader = Ok h /\ validate_section_layout total h = Ok tt /\
  zlen header = HEADER_BYTES.
Proof. apply header_parses. Qed.

(** Whatever the bytes, parsing a header and validating its layout
    either fails with an error or returns a well-formed header: a fixed
    length, a power-of-two chunk of at least 64 bytes within the reader's
    limit, at most [u32::MAX] keys, four sections of the lengths these keys
    demand, contiguous checksum ranges with one checksum per chunk, and
    aligned sections in order inside the file.  No step panics. *)
Theorem parse_header_well_formed bytes actual_len options :
  bytes_ok bytes -> zlen bytes = HEADER_BYTES ->
  wp (let? h := parse_header bytes actual_len options in
      validate_section_layout actual_len h ;;? Ok h) (fun h =>
    header_ok h /\ ih_total_len h = actual_len /\ ih_chunk_bytes h <= chunk_bytes options /\
    sections_placed actual_len (HEADER_BYTES + ih_checksum_count h * 4) (ih_sections h)).
Proof.
  intros Hb Hz. apply wp_bind. eapply wp_mono; [by apply parse_header_spec|].
  intros h (Hh & Ht & Hc & _). specialize (Hh Hz). apply wp_bind.
  eapply wp_mono; [by apply validate_section_layout_spec|]. intros u Hp. by split_and!.
Qed.

(** Every section of an accepted header is where its descriptor says, behind
    the checksum table and the sections in front of it. *)
Lemma placed_lookup source_len cursor l i d :
  Forall (fun d => 0 <= sd_len d) l -> sections_placed source_len cursor l -> l !! i = Some d ->
  cursor <= sd_offset d /\ sd_offset d + sd_len d <= source_len.
Proof.
  intros Hl; revert cursor i; induction Hl as [|x l Hx _ IH]; intros cursor i Hp Hi; [done|].
  destruct Hp as (Ho & He & Hp).
  pose proof (align8_bounds cursor) as [Hb _]. destruct i as [|i]; simpl in Hi.
  - injection Hi as <-. lia.
  - destruct (IH _ _ Hp Hi). lia.
Qed.

Lemma chunk_access_bounds_of h source_len d c :
  header_ok h -> source_len <= u64_max ->
  sections_placed source_len (HEADER_BYTES + ih_checksum_count h * 4) (ih_sections h) ->
  d ∈ ih_sections h -> 0 <= c < sd_checksum_count d ->
  let start := c * ih_chunk_bytes h in
  let len := Z.min (ih_chunk_bytes h) (sd_len d - start) in
  0 <= start <= u64_max /\ 0 < len <= ih_chunk_bytes h /\ start + len <= sd_len d /\
  HEADER_BYTES + ih_checksum_count h * 4 <= sd_offset d + start /\
  sd_offset d + start + len <= source_len /\
  0 <= sd_checksum_start d + c < ih_checksum_count h /\
  (sd_checksum_start d + c) * 4 + 4 <= ih_checksum_count h * 4 <= u64_max.
Proof.
  intros Hh Hu Hp Hd Hc start len.
  pose proof (hk_chunk h Hh) as Hcb. pose proof (hk_sections h Hh) as Hs.
  assert (Forall (fun d => 0 <= sd_len d) (ih_sections h)) as Hl
    by (eapply Forall_impl; [exact Hs|]; by intros x (_ & [? _] & _)).
  assert (Forall (fun d => 0 <= sd_checksum_count d) (ih_sections h)) as Hcnt.
  { eapply Forall_impl; [exact Hs|]. intros x (_ & [? _] & ->). apply chunks_of_bounds; unfold MIN_CHUNK_BYTES in *; lia. }
  apply list_elem_of_lookup in Hd as [i Hi].
  destruct (placed_lookup _ _ _ _ _ Hl Hp Hi).
  destruct (consecutive_bounds _ _ _ _ _ _ _ Hcnt (hk_checksums h Hh) Hi) as [? ?].
  rewrite Forall_forall in Hs. destruct (Hs d (list_elem_of_lookup_2 _ _ _ Hi)) as ([? ?] & [? ?] & E).
  pose proof (chunks_of_bounds (sd_len d) (ih_chunk_bytes h) ltac:(lia) ltac:(unfold MIN_CHUNK_BYTES in *; lia)).
  pose proof (hk_table h Hh). unfold HEADER_BYTES, MIN_CHUNK_BYTES in *. rewrite E in *.
  assert (start <= (chunks_of (sd_len d) (ih_chunk_bytes h) - 1) * ih_chunk_bytes h) by (unfold start; nia).
  assert (0 <= start) by (unfold start; nia).
  unfold len. split_and!; try lia.
Qed.

(** C29: the arithmetic of every chunk access stays in range: in a file whose
    header is accepted, chunk [c] of a section starts and ends inside the
    section and the file and behind the checksum table, its length is positive
    and at most the chunk length, its checksum slot lies inside the table, and
    none of the intermediate values exceeds 64 bits. *)
Theorem chunk_access_bounds bytes file_len options h d c :
  bytes_ok bytes -> zlen bytes = HEADER_BYTES -> file_len <= u64_max ->
  parse_header bytes file_len options = Ok h -> validate_section_layout file_len h = Ok tt ->
  d ∈ ih_sections h -> 0 <= c < sd_checksum_count d ->
  let start := c * ih_chunk_bytes h in
  let len := Z.min (ih_chunk_bytes h) (sd_len d - start) in
  0 <= start <= u64_max /\ 0 < len <= ih_chunk_bytes h /\ start + len <= sd_len d /\
  HEADER_BYTES + ih_checksum_count h * 4 <= sd_offset d + start /\
  sd_offset d + start + len <= file_len /\
  0 <= sd_checksum_start d + c < ih_checksum_count h /\
  (sd_checksum_start d + c) * 4 + 4 <= ih_checksum_count h * 4 <= u64_max.
Proof.
  intros Hb Hz Hu Hp Hv. pose proof (parse_header_spec bytes Hb file_len options) as Hw. rewrite Hp in Hw.
  destruct Hw as (Hh & _). specialize (Hh Hz). apply chunk_access_bounds_of; [done|done|].
  pose proof (validate_section_layout_spec file_len h Hh) as Hw. by rewrite Hv in Hw.
Qed.

(** ** Witnesses: an index of one key *)

Definition one_key_identity : KeyIndexSourceIdentity :=
  {| source_bytes := 300; source_modified_unix_nanos := -5; key_count := 1 |}.

Definition one_key_sections : list SectionFile :=
  [{| sf_kind := SecText; sf_file := lit "beta"; sf_len := 4; sf_checksums := [adler32 (lit "beta")] |};
   {| sf_kind := SecBounds; sf_file := le_split 8 0 ++ le_split 8 4; sf_len := 16;
      sf_checksums := [adler32 (le_split 8 0 ++ le_split 8 4)] |};
   {| sf_kind := SecRaw; sf_file := le_split 4 7; sf_len := 4; sf_checksums := [adler32 (le_split 4 7)] |};
   {| sf_kind := SecOrder; sf_file := le_split 4 0; sf_len := 4; sf_checksums := [adler32 (le_split 4 0)] |}].

Definition one_key_options : KeyIndexOptions := {|
  max_index_bytes := 4096; max_metadata_bytes := 1024; build_memory_bytes := 1024; chunk_bytes := 64;
  ki_checksum_policy := Verify |}.

Definition one_key_header : bytes * list SectionDescriptor * Z :=
  match @build_header simple_env one_key_sections one_key_identity 4 one_key_options with
  | Ok built => built
  | _ => ([], [], 0)
  end.

Lemma one_key_built :
  @build_header simple_env one_key_sections one_key_identity 4 one_key_options =
    Ok (fst (fst one_key_header), snd (fst one_key_header), snd one_key_header).
Proof. vm_compute. reflexivity. Qed.

Lemma one_key_ok :
  identity_ok one_key_identity /\ sections_sized one_key_identity 4 one_key_sections /\
  validate_options one_key_options = Ok tt /\ options_allow one_key_options one_key_options.
Proof. split_and!; [repeat split; vm_compute; congruence|by split|done|repeat split; vm_compute; congruence]. Qed.

Example header_round_trip_witness :
  exists h, parse_header (fst (fst one_key_header)) (snd one_key_header) one_key_options = Ok h /\
    ih_source_identity h = one_key_identity.
Proof.
  destruct one_key_ok as (Hi & Hs & Ho & Ha).
  destruct (@header_round_trip simple_env one_key_sections one_key_identity 4 one_key_options
    one_key_options (fst (fst one_key_header)) (snd (fst one_key_header)) (snd one_key_header)
    Hi ltac:(split; vm_compute; congruence) Hs Ho Ha one_key_built) as (Hp & _ & _).
  eexists. split; [exact Hp|reflexivity].
Defined.

Example parse_header_well_formed_witness :
  bytes_ok (replicate 224 0) /\ zlen (replicate 224 0) = HEADER_BYTES /\
  wp (let? h := parse_header (replicate 224 0) 500 one_key_options in
      validate_section_layout 500 h ;;? Ok h) header_ok.
Proof.
  split_and!; [apply bytes_ok_check; by vm_compute|done|].
  eapply wp_mono; [apply (parse_header_well_formed (replicate 224 0) 500 one_key_options);
    [apply bytes_ok_check; by vm_compute|done]|]. by intros h [? _].
Defined.

Example chunk_access_bounds_witness :
  match parse_header (fst (fst one_key_header)) (snd one_key_header) one_key_options with
  | Ok h => Forall (fun d => sd_offset d + Z.min 64 (sd_len d) <= snd one_key_header) (ih_sections h)
  | _ => False
  end.
Proof.
  assert (match parse_header (fst (fst one_key_header)) (snd one_key_header) one_key_options with
          | Ok h => (ih_chunk_bytes h =? 64) && forallb (fun d => sd_checksum_count d =? 1) (ih_sections h) &&
                    match validate_section_layout (snd one_key_header) h with Ok tt => true | _ => false end
          | _ => false
          end = true) as Hok by (vm_compute; reflexivity).
  revert Hok. destruct (parse_header (fst (fst one_key_header)) (snd one_key_header) one_key_options)
    as [h|e|site|] eqn:Hp; [|discriminate..].
  intros [[Hc%Z.eqb_eq Hall]%andb_true_iff Hv]%andb_true_iff.
  destruct (validate_section_layout (snd one_key_header) h) as [[]|e|site|] eqn:Hlayout; [clear Hv|discriminate..].
  apply Forall_forall. intros d Hd. rewrite forallb_forall in Hall.
  specialize (Hall d (proj1 (list_elem_of_In _ _) Hd)). apply Z.eqb_eq in Hall.
  destruct (chunk_access_bounds (fst (fst one_key_header)) (snd one_key_header) one_key_options h d 0) as (_ & _ & _ & _ & Hend & _).
  - apply bytes_ok_check. vm_compute. reflexivity.
  - vm_compute. reflexivity.
  - vm_compute. discriminate.
  - exact Hp.
  - exact Hlayout.
  - exact Hd.
  - rewrite Hall. split; [lia|reflexivity].
  - rewrite Hc, Z.mul_0_l, Z.sub_0_r, Z.add_0_r in Hend. exact Hend.
Defined.
