(* ===== verification/Writers.v ===== *)
(** Writing files: the outcomes of file operations, the standard library's
    [Write] and its [write_all], and [check_cancelled], [write_u32], [write_u64]
    of [src/core/persistent/format.rs].  [WriteOk] is what the functions that
    write promise: a relation between a writer and the bytes it was given. *)

From stdpp Require Import list_numbers.
From S2P Require Import Prelude Errors Types Budget.

(** The outcomes of file operations and of the caller's [cancelled], as
    functions of the number of operations made before. *)
Class BuildIo := {
  (** Whether an operation on a file succeeds. *)
  io_succeeds : nat -> bool;
  (** How many of [len] bytes a [File::write] takes; [None] is an error. *)
  io_write : nat -> Z -> option Z;
  io_cancelled : nat -> bool;
  (** The capacity of a vector of [cap] elements that [try_reserve] has made
      hold [needed]. *)
  vec_capacity : Z -> Z -> Z;
}.

(** The contract of [Write::write]: it takes some of the bytes. *)
Class BuildIoOk `{BuildIo} : Prop := {
  io_write_takes t len k : io_write t len = Some k -> 0 <= k <= len;
}.

(** [std::io::Write]: how many bytes of [input] a [write] took. *)
Class Write (S W : Type) := write : W -> bytes -> M S (Z * W).

Section Operations.

Context `{BuildIo} {S : Type} `{HasWorld S}.

(** One operation: its number. *)
Definition tick : M S nat := fun s =>
  let w := get_world s in
  (Ok (w_clock w), set_world {| w_budget := w_budget w; w_clock := Datatypes.S (w_clock w) |} s).

(** An operation on a file that may fail. *)
Definition file_operation : M S unit :=
  let! t := tick in
  if io_succeeds t then mret tt else merr (Io "input/output error").

(** [check_cancelled] *)
Definition check_cancelled (operation : string) : M S unit :=
  let! t := tick in
  if io_cancelled t then merr (Cancelled operation) else mret tt.

(** [File::write]: how many of [len] bytes it takes. *)
Definition file_write (len : Z) : M S Z :=
  let! t := tick in lift (ok_or (io_write t len) (Io "input/output error")).

Context {W : Type} `{Write S W}.

(** [Write::write_all] *)
Fixpoint write_all_loop (fuel : nat) (writer : W) (input : bytes) : M S W :=
  match input with
  | [] => mret writer
  | _ =>
      match fuel with
      | O => lift OutOfFuel
      | Datatypes.S fuel =>
          let! '(count, writer) := write writer input in
          let! _ := lift (ensure (negb (count =? 0)) (Io "failed to write whole buffer")) in
          let! input := lift (or_panic (slice input count (zlen input)) "slice index out of range") in
          write_all_loop fuel writer input
      end
  end.

(** A round takes at least one byte. *)
Definition write_all (writer : W) (input : bytes) : M S W :=
  write_all_loop (length input) writer input.

(** [write_u32] *)
Definition write_u32 (writer : W) (value : Z) : M S W := write_all writer (le_split 4 value).

(** [write_u64] *)
Definition write_u64 (writer : W) (value : Z) : M S W := write_all writer (le_split 8 value).

End Operations.

(** * Lemmas *)

(** [written w data]: [w] was given exactly [data]. *)
Class WriteOk {S W : Type} `{HasWorld S} `{Write S W} (written : W -> list Z -> Prop) : Prop :=
  write_ok : forall w data input, written w data -> input <> [] ->
    budgeted (S := S) (write w input) (fun r => 0 <= fst r <= zlen input /\
      written (snd r) (data ++ take (Z.to_nat (fst r)) input)) (fun _ => 0).

Section Proofs.

Context `{BuildIo} {S : Type} `{HasWorld S}.

Lemma budgeted_tick : budgeted (S := S) tick (fun _ => True) (fun _ => 0).
Proof.
  intros s Hs. unfold wpM, tick. split; [done|]. unfold accounts, get_budget in *. rewrite !get_set_world. simpl.
  by split_and!; try lia.
Qed.

Lemma budgeted_file_operation : budgeted (S := S) file_operation (fun _ => True) (fun _ => 0).
Proof.
  unfold file_operation. eapply budgeted_bind; [apply budgeted_tick|]. intros t _. cbv beta.
  apply budgeted_if; intros _; [by apply budgeted_ret|]. by apply (budgeted_lift (Err _)).
Qed.

Lemma budgeted_check_cancelled operation :
  budgeted (S := S) (check_cancelled operation) (fun _ => True) (fun _ => 0).
Proof.
  unfold check_cancelled. eapply budgeted_bind; [apply budgeted_tick|]. intros t _. cbv beta.
  apply budgeted_if; intros _; [by apply (budgeted_lift (Err _))|by apply budgeted_ret].
Qed.

Lemma budgeted_file_write `{!BuildIoOk} len :
  budgeted (S := S) (file_write len) (fun k => 0 <= k <= len) (fun _ => 0).
Proof.
  unfold file_write. eapply budgeted_bind; [apply budgeted_tick|]. intros t _. cbv beta.
  apply budgeted_lift, wp_ok_or. intros k. apply io_write_takes.
Qed.

Context {W : Type} `{Write S W} (written : W -> list Z -> Prop) `{!WriteOk written}.

Lemma budgeted_write_all_loop fuel w data input :
  written w data -> (length input <= fuel)%nat ->
  budgeted (S := S) (write_all_loop fuel w input) (fun w' => written w' (data ++ input)) (fun _ => 0).
Proof.
  revert w data input; induction fuel as [|fuel IH]; intros w data [|b input] Hw Hf; cbn [write_all_loop];
    try (apply budgeted_ret; by rewrite app_nil_r); [simpl in Hf; lia|].
  set (all := b :: input) in *.
  eapply budgeted_bind; [by apply write_ok|]. intros [count w'] [Hc Hw']. cbv beta iota. cbn [fst snd] in *.
  apply (budgeted_bind _ _ (fun _ => count <> 0)); [apply budgeted_lift, wp_ensure; intros; by zbool|].
  intros [] Hn. cbv beta.
  apply (budgeted_bind _ _ (fun rest => rest = drop (Z.to_nat count) all)).
  { apply budgeted_lift, wp_or_panic; [apply slice_is_Some; lia|]. intros rest [_ ->]%slice_Some.
    apply take_ge. rewrite length_drop. lia. }
  intros ? ->. cbv beta. eapply budgeted_mono; [apply (IH _ _ _ Hw')| |done].
  - rewrite length_drop. lia.
  - intros w''. by rewrite <- app_assoc, take_drop.
Qed.

Lemma budgeted_write_all w data input :
  written w data -> budgeted (S := S) (write_all w input) (fun w' => written w' (data ++ input)) (fun _ => 0).
Proof. intros Hw. by apply budgeted_write_all_loop. Qed.

Lemma budgeted_write_u32 w data value :
  written w data ->
  budgeted (S := S) (write_u32 w value) (fun w' => written w' (data ++ le_split 4 value)) (fun _ => 0).
Proof. apply budgeted_write_all. Qed.

Lemma budgeted_write_u64 w data value :
  written w data ->
  budgeted (S := S) (write_u64 w value) (fun w' => written w' (data ++ le_split 8 value)) (fun _ => 0).
Proof. apply budgeted_write_all. Qed.

End Proofs.

(** A step whose value does not matter: an operation on a file, a look at
    [cancelled], a check or an allocation. *)
Ltac budgeted_step :=
  first
    [ eapply budgeted_bind; [first [apply budgeted_file_operation | apply budgeted_check_cancelled]|];
      intros [] _; cbv beta
    | apply (budgeted_bind _ _ (fun _ => True));
      [apply budgeted_lift;
       first [by apply wp_ensure | by apply wp_ok_or | by apply wp_try_reserve_vec | by apply wp_reserve_bytes
             | by apply wp_ensure_usize_limit] |];
      intros ? _; cbv beta ].
