(* ===== verification/IndexWrite.v ===== *)
(** Writing a built index: [write_built_index] and its helpers of
    [src/core/persistent/format.rs].  A destination is its content and its
    position.  Every operation on a file may fail, and the caller may cancel at
    every check: both are functions of the number of operations made before. *)

From stdpp Require Import list_numbers.
From S2P Require Import Prelude Errors Types Budget Encoding Checksum Source Descriptors IndexFormat Writers.

(** A destination: [W: Write + Seek]. *)
Record Sink := {
  sk_content : bytes;
  sk_position : Z;
}.

Section Write.

Context `{Env} `{BuildIo} {S : Type} `{HasWorld S}.

(** [content] after [data] has been written at [position]. *)
Definition overwrite (content : bytes) (position : Z) (data : bytes) : bytes :=
  let p := Z.to_nat position in
  take p content ++ replicate (p - length content) 0 ++ data ++ drop (p + length data) content.

(** [destination.write(data)] *)
#[export] Instance sink_write : Write S Sink := fun sink data =>
  let! count := file_write (zlen data) in
  mret (count, {| sk_content := overwrite (sk_content sink) (sk_position sink) (take (Z.to_nat count) data);
                  sk_position := sk_position sink + count |}).

(** [destination.seek(SeekFrom::Start(position))] *)
Definition sink_seek (sink : Sink) (position : Z) : M S Sink :=
  let! _ := file_operation in
  mret {| sk_content := sk_content sink; sk_position := position |}.

(** [destination.stream_position()] *)
Definition sink_position (sink : Sink) : M S Z :=
  let! _ := file_operation in mret (sk_position sink).

(** [destination.seek(SeekFrom::End(0))] *)
Definition sink_end (sink : Sink) : M S (Z * Sink) :=
  let! _ := file_operation in
  let len := zlen (sk_content sink) in
  mret (len, {| sk_content := sk_content sink; sk_position := len |}).

(** The loops of [write_built_index] over the checksums. *)
Fixpoint write_checksums (sink : Sink) (checksums : list Z) : M S Sink :=
  match checksums with
  | [] => mret sink
  | checksum :: checksums =>
      let! sink := write_u32 sink checksum in
      write_checksums sink checksums
  end.

(** [pad_to] *)
Definition pad_to (sink : Sink) (target : Z) : M S Sink :=
  let! current := sink_position sink in
  let! _ := lift (ensure (negb (target <? current))
                    (InvalidFormat "key-index section overlaps predecessor")) in
  let! padding := lift (checked_usize (target - current) "key-index section padding") in
  let! _ := lift (ensure (negb (7 <? padding))
                    (InvalidFormat "key-index section padding exceeds alignment")) in
  write_all sink (replicate (Z.to_nat padding) 0).

(** [source.read_exact(&mut buffer[..len])] of a file whose unread bytes are
    [source]: the bytes and what is unread after them. *)
Definition source_read_exact (source : bytes) (len : Z) : M S (list Z * list Z) :=
  let! _ := file_operation in
  let! out := lift (ok_or (slice source 0 len) (Io "failed to fill whole buffer")) in
  mret (out, drop (Z.to_nat len) source).

(** The loop of [copy_exact]. *)
Fixpoint copy_exact_loop (fuel : nat) (source : bytes) (sink : Sink) (remaining buffer_bytes : Z)
    : M S Sink :=
  if remaining <=? 0 then mret sink
  else
    match fuel with
    | O => lift OutOfFuel
    | Datatypes.S fuel =>
        let! _ := check_cancelled "writing persistent key index" in
        let! read_len := lift (checked_usize (Z.min remaining buffer_bytes) "key-index copy length") in
        let! '(out, source) := source_read_exact source read_len in
        let! sink := write_all sink out in
        let! remaining := lift (ok_or (checked_sub remaining read_len)
                                  (InvalidFormat "key-index copy remaining underflow")) in
        copy_exact_loop fuel source sink remaining buffer_bytes
    end.

(** [copy_exact]; a round copies at least one byte. *)
Definition copy_exact (source : bytes) (sink : Sink) (len buffer_bytes : Z) : M S Sink :=
  let! _ := lift (ok_or (try_u64 buffer_bytes) (InvalidFormat "key-index copy buffer exceeds u64")) in
  let! _ := lift (try_reserve_vec 0 1 buffer_bytes "key-index copy buffer") in
  copy_exact_loop (Z.to_nat len) source sink len buffer_bytes.

(** The loop of [write_built_index] over the sections. *)
Fixpoint write_sections (sections : list SectionFile) (descriptors : list SectionDescriptor)
    (sink : Sink) (buffer_bytes : Z) : M S Sink :=
  match sections, descriptors with
  | section :: sections, descriptor :: descriptors =>
      let! _ := check_cancelled "writing persistent key index" in
      let! sink := pad_to sink (sd_offset descriptor) in
      let! _ := file_operation in
      let! sink := copy_exact (sf_file section) sink (sf_len section) buffer_bytes in
      write_sections sections descriptors sink buffer_bytes
  | _, _ => mret sink
  end.

(** [write_built_index]; a scratch file is read from its start. *)
Definition write_built_index (built : BuiltIndex) (sink : Sink) (buffer_bytes : Z) : M S Sink :=
  let! sink := sink_seek sink 0 in
  let! sink := write_all sink (bx_header built) in
  let! sink := write_checksums sink (flat_map sf_checksums (bx_sections built)) in
  let! sink := write_sections (bx_sections built) (bx_descriptors built) sink buffer_bytes in
  let! _ := file_operation in
  let! written := sink_position sink in
  let! _ := lift (ensure (written =? bytes_written (bx_report built))
                    (InvalidFormat "generated key-index length mismatch")) in
  let! '(destination_len, sink) := sink_end sink in
  let! _ := lift (ensure (destination_len =? bytes_written (bx_report built))
                    (InvalidFormat "key-index destination was not empty or truncated")) in
  sink_seek sink written.

End Write.

(** * Specification *)

(** The bytes of the sections, each padded to its place. *)
Fixpoint placed_bytes (sections : list SectionFile) (descriptors : list SectionDescriptor)
    (position : Z) : bytes :=
  match sections, descriptors with
  | section :: sections, descriptor :: descriptors =>
      replicate (Z.to_nat (sd_offset descriptor - position)) 0
      ++ take (Z.to_nat (sf_len section)) (sf_file section)
      ++ placed_bytes sections descriptors (sd_offset descriptor + sf_len section)
  | _, _ => []
  end.

(** The file that a built index makes. *)
Definition index_image (built : BuiltIndex) : bytes :=
  let table := flat_map (fun checksum => le_split 4 checksum) (flat_map sf_checksums (bx_sections built)) in
  bx_header built ++ table
  ++ placed_bytes (bx_sections built) (bx_descriptors built) (zlen (bx_header built) + zlen table).

(** * Lemmas *)

Section WriteProofs.

Context `{Env} `{BuildIoOk} {S : Type} `{HasWorld S}.

(** The destination starts with [written] and is positioned behind it. *)
Definition sink_at (written : list Z) (sink : Sink) : Prop :=
  sk_position sink = zlen written /\ exists rest, sk_content sink = written ++ rest.

Lemma overwrite_app written rest data :
  overwrite (written ++ rest) (zlen written) data = written ++ data ++ drop (length data) rest.
Proof.
  unfold overwrite. rewrite Nat2Z.id, take_app_length, length_app.
  replace (length written - (length written + length rest))%nat with 0%nat by lia. simpl.
  by rewrite drop_app_add.
Qed.

#[export] Instance sink_write_ok : WriteOk (S := S) (fun sink written => sink_at written sink).
Proof.
  intros sink written data [Hp [rest Hc]] _. unfold write, sink_write.
  eapply budgeted_bind; [apply budgeted_file_write|]. intros count Hk. cbv beta in Hk |- *. apply budgeted_ret. simpl.
  split; [done|]. split; simpl; [rewrite Hp, length_app, length_take; lia|].
  rewrite Hc, Hp, overwrite_app. eexists. by rewrite <- app_assoc.
Qed.

Lemma budgeted_write_checksums checksums written sink :
  sink_at written sink ->
  budgeted (S := S) (write_checksums sink checksums)
    (sink_at (written ++ flat_map (fun checksum => le_split 4 checksum) checksums)) (fun _ => 0).
Proof.
  revert written sink; induction checksums as [|checksum checksums IH]; intros written sink Hs;
    cbn [write_checksums flat_map].
  { apply budgeted_ret. by rewrite app_nil_r. }
  eapply budgeted_bind; [by apply (budgeted_write_all (fun sink written => sink_at written sink))|]. intros sink' Hs'. cbv beta.
  rewrite app_assoc. by apply IH.
Qed.

Lemma budgeted_pad_to written sink target :
  sink_at written sink ->
  budgeted (S := S) (pad_to sink target) (fun sink' => zlen written <= target /\
    sink_at (written ++ replicate (Z.to_nat (target - zlen written)) 0) sink') (fun _ => 0).
Proof.
  intros Hs. unfold pad_to, sink_position.
  apply (budgeted_bind _ _ (fun p => p = zlen written)).
  { eapply budgeted_bind; [apply budgeted_file_operation|]. intros [] _. apply budgeted_ret. apply Hs. }
  intros ? ->. cbv beta.
  apply (budgeted_bind _ _ (fun _ => zlen written <= target)); [apply budgeted_lift, wp_ensure; intros; by zbool|].
  intros [] Hle. cbv beta.
  apply (budgeted_bind _ _ (fun p => p = target - zlen written)); [by apply budgeted_lift, wp_checked_usize|].
  intros ? ->. cbv beta. apply (budgeted_bind _ _ (fun _ => True)); [by apply budgeted_lift, wp_ensure|].
  intros [] _. cbv beta. eapply budgeted_mono; [by apply (budgeted_write_all (fun sink written => sink_at written sink))| |done]. done.
Qed.

Lemma budgeted_copy_loop fuel source written sink remaining buffer_bytes :
  sink_at written sink -> 0 < buffer_bytes -> remaining <= Z.of_nat fuel ->
  budgeted (S := S) (copy_exact_loop fuel source sink remaining buffer_bytes)
    (fun sink' => sink_at (written ++ take (Z.to_nat remaining) source) sink' /\ remaining <= zlen source \/ remaining <= 0 /\ sink_at written sink')
    (fun _ => 0).
Proof.
  revert source written sink remaining; induction fuel as [|fuel IH]; intros source written sink remaining Hs Hb Hf;
    cbn [copy_exact_loop].
  { rewrite (proj2 (Z.leb_le _ _)) by lia. apply budgeted_ret. by right. }
  apply budgeted_if; intros Hr; zbool; [apply budgeted_ret; by right|].
  eapply budgeted_bind; [apply budgeted_check_cancelled|]. intros [] _. cbv beta.
  set (len := Z.min remaining buffer_bytes). assert (0 < len <= remaining) as Hlen by (unfold len; lia).
  apply (budgeted_bind _ _ (fun n => n = len)); [by apply budgeted_lift, wp_checked_usize|]. intros ? ->. cbv beta.
  apply (budgeted_bind _ _ (fun r => len <= zlen source /\ r = (take (Z.to_nat len) source, drop (Z.to_nat len) source))).
  { unfold source_read_exact. eapply budgeted_bind; [apply budgeted_file_operation|]. intros [] _. cbv beta.
    apply (budgeted_bind _ _ (fun out => len <= zlen source /\ out = take (Z.to_nat len) source)).
    - apply budgeted_lift, wp_ok_or. intros out [[_ ?] ->]%slice_Some. split; [done|]. by rewrite Z.sub_0_r.
    - intros out [? ->]. cbv beta. by apply budgeted_ret. }
  intros [out rest] [Hle [= -> ->]]. cbv beta iota.
  eapply budgeted_bind; [by apply (budgeted_write_all (fun sink written => sink_at written sink))|]. intros sink' Hs'. cbv beta.
  apply (budgeted_bind _ _ (fun n => n = remaining - len));
    [apply budgeted_lift, wp_ok_or; intros n Hn; by apply checked_sub_Some in Hn as [-> _]|]. intros ? ->. cbv beta.
  eapply budgeted_mono; [apply IH; [exact Hs'|done|lia]| |done]. intros sink'' Hpost. left.
  assert (take (Z.to_nat remaining) source =
            take (Z.to_nat len) source ++ take (Z.to_nat (remaining - len)) (drop (Z.to_nat len) source)) as E.
  { rewrite take_take_drop. f_equal. lia. }
  rewrite E, app_assoc. destruct Hpost as [[Hs'' Hz]|[Hz Hs'']].
  - split; [done|]. rewrite length_drop in Hz. lia.
  - replace (Z.to_nat (remaining - len)) with 0%nat by lia. rewrite take_0, app_nil_r. split; [done|lia].
Qed.

Lemma budgeted_copy_exact source written sink len buffer_bytes :
  sink_at written sink -> 0 < buffer_bytes -> 0 <= len ->
  budgeted (S := S) (copy_exact source sink len buffer_bytes)
    (fun sink' => sink_at (written ++ take (Z.to_nat len) source) sink' /\ len <= zlen source) (fun _ => 0).
Proof.
  intros Hs Hb Hl. unfold copy_exact.
  apply (budgeted_bind _ _ (fun _ => True)); [by apply budgeted_lift, wp_ok_or|]. intros ? _. cbv beta.
  apply (budgeted_bind _ _ (fun _ => True)); [by apply budgeted_lift, wp_try_reserve_vec|]. intros [] _. cbv beta.
  eapply budgeted_mono; [apply budgeted_copy_loop; [exact Hs|done|lia]| |done].
  intros sink' [?|[? ?]]; [done|]. replace (Z.to_nat len) with 0%nat by lia. rewrite take_0, app_nil_r. split; [done|lia].
Qed.

Lemma budgeted_write_sections sections descriptors written sink buffer_bytes :
  sink_at written sink -> 0 < buffer_bytes -> Forall (fun s => 0 <= sf_len s) sections ->
  budgeted (S := S) (write_sections sections descriptors sink buffer_bytes)
    (sink_at (written ++ placed_bytes sections descriptors (zlen written))) (fun _ => 0).
Proof.
  intros Hs Hb Hl; revert descriptors written sink Hs; induction Hl as [|section sections Hlen _ IH];
    intros [|d descriptors] written sink Hs; cbn [write_sections placed_bytes];
    [apply budgeted_ret; by rewrite app_nil_r..|].
  eapply budgeted_bind; [apply budgeted_check_cancelled|]. intros [] _. cbv beta.
  eapply budgeted_bind; [by apply budgeted_pad_to|]. intros sink1 [Hle Hs1]. cbv beta.
  eapply budgeted_bind; [apply budgeted_file_operation|]. intros [] _. cbv beta.
  eapply budgeted_bind; [by apply budgeted_copy_exact|]. intros sink2 [Hs2 Hz]. cbv beta.
  rewrite !app_assoc. eapply budgeted_mono; [by apply IH| |done]. intros sink' Hs'.
  rewrite !length_app, length_replicate, length_take in Hs'.
  by replace (Z.of_nat (length written + Z.to_nat (sd_offset d - zlen written) +
                (Z.to_nat (sf_len section) `min` length (sf_file section))))
    with (sd_offset d + sf_len section) in Hs' by lia.
Qed.

(** A destination that was written to completely holds the image and nothing
    else, whatever it held before. *)
Lemma budgeted_write_built_index built sink buffer_bytes :
  0 < buffer_bytes -> Forall (fun s => 0 <= sf_len s) (bx_sections built) ->
  budgeted (S := S) (write_built_index built sink buffer_bytes) (fun sink' =>
    sk_content sink' = index_image built /\ zlen (index_image built) = bytes_written (bx_report built) /\
    sk_position sink' = bytes_written (bx_report built)) (fun _ => 0).
Proof.
  intros Hb Hl. unfold write_built_index.
  apply (budgeted_bind _ _ (sink_at [])).
  { unfold sink_seek. eapply budgeted_bind; [apply budgeted_file_operation|]. intros [] _. apply budgeted_ret.
    split; [done|]. by eexists. }
  intros sink0 Hs0. cbv beta. eapply budgeted_bind; [by apply (budgeted_write_all (fun sink written => sink_at written sink))|]. intros sink1 Hw1. cbv beta.
  eapply budgeted_bind; [by apply budgeted_write_checksums|]. intros sink2 Hw2. cbv beta.
  eapply budgeted_bind; [by apply budgeted_write_sections|]. intros sink3 Hw3. cbv beta.
  rewrite app_nil_l, <- app_assoc, length_app, Nat2Z.inj_add in Hw3. fold (index_image built) in Hw3.
  eapply budgeted_bind; [apply budgeted_file_operation|]. intros [] _. cbv beta.
  apply (budgeted_bind _ _ (fun p => p = zlen (index_image built))).
  { unfold sink_position. eapply budgeted_bind; [apply budgeted_file_operation|]. intros [] _. apply budgeted_ret. apply Hw3. }
  intros ? ->. cbv beta.
  apply (budgeted_bind _ _ (fun _ => zlen (index_image built) = bytes_written (bx_report built)));
    [apply budgeted_lift, wp_ensure; intros; by zbool|]. intros [] Hz. cbv beta.
  apply (budgeted_bind _ _ (fun r => fst r = zlen (sk_content sink3) /\ sk_content (snd r) = sk_content sink3)).
  { unfold sink_end. eapply budgeted_bind; [apply budgeted_file_operation|]. intros [] _. by apply budgeted_ret. }
  intros [len sink4] [? Hc]. simpl in *. subst len.
  apply (budgeted_bind _ _ (fun _ => zlen (sk_content sink3) = bytes_written (bx_report built)));
    [apply budgeted_lift, wp_ensure; intros; by zbool|]. intros [] Hlen. cbv beta.
  unfold sink_seek. eapply budgeted_bind; [apply budgeted_file_operation|]. intros [] _. apply budgeted_ret. simpl.
  split; [|by split]. destruct Hw3 as [_ [rest E]]. rewrite Hc. rewrite E in Hlen |- *. rewrite length_app in Hlen.
  destruct rest; [by rewrite app_nil_r|]. simpl in Hlen. lia.
Qed.

End WriteProofs.

(** ** The image *)

Lemma slice_app_left {A} (l r : list A) a b s : slice l a b = Some s -> slice (l ++ r) a b = Some s.
Proof.
  intros [[? ?] ->]%slice_Some. apply slice_Some. split; [rewrite length_app; lia|].
  rewrite drop_app_le by lia. rewrite take_app_le; [done|]. rewrite length_drop. lia.
Qed.

Lemma slice_app_exact {A} (p m q : list A) a b :
  a = zlen p -> b = zlen p + zlen m -> slice (p ++ m ++ q) a b = Some m.
Proof. intros -> ->. apply slice_app_mid. Qed.

(** Every section is where its descriptor says. *)
Lemma placed_bytes_spec total prefix sections descriptors i section d :
  sections_placed total (zlen prefix) descriptors ->
  map sd_len descriptors = map sf_len sections ->
  Forall (fun s => sf_len s = zlen (sf_file s)) sections ->
  sections !! i = Some section -> descriptors !! i = Some d ->
  slice (prefix ++ placed_bytes sections descriptors (zlen prefix)) (sd_offset d) (sd_offset d + sd_len d) =
    Some (sf_file section).
Proof.
  revert prefix sections descriptors; induction i as [|i IH];
    intros prefix [|s sections] [|d0 descriptors] Hp Hlens Hf Hs Hd; try done;
    cbn [placed_bytes map] in *; injection Hlens as Hlen Hlens; apply Forall_cons in Hf as [Hfile Hf];
    destruct Hp as (Ho & _ & Hp); pose proof (align8_bounds (zlen prefix)) as [Hal _];
    rewrite (take_ge (sf_file s)) by lia.
  - injection Hs as ->. injection Hd as ->. rewrite app_assoc.
    apply slice_app_exact; rewrite length_app, length_replicate; lia.
  - simpl in Hs, Hd. rewrite !app_assoc.
    set (prefix' := (prefix ++ replicate (Z.to_nat (sd_offset d0 - zlen prefix)) 0) ++ sf_file s).
    assert (zlen prefix' = sd_offset d0 + sd_len d0) as Hz
      by (unfold prefix'; rewrite !length_app, length_replicate; lia).
    rewrite <- Hlen, <- Hz. apply IH; try done. by rewrite Hz.
Qed.
