(* ===== verification/Scratch.v ===== *)
(** Scratch files of [src/core/persistent/build.rs]: the buffered writer of
    sorted runs and the writer of a section, which cuts its bytes into chunks
    and keeps a checksum of each.  [section_written] is what the section writer
    promises, whatever sizes the bytes come in. *)

From stdpp Require Import list_numbers.
From S2P Require Import Prelude Errors Types Budget Checksum IndexFormat Writers.

(** A scratch file that is only appended to: its content. *)
Definition File : Type := bytes.

(** [BufferedScratchWriter] *)
Record BufferedScratchWriter := {
  bw_file : File;
  bw_buffer : bytes;
  bw_capacity : Z;
}.

(** [SectionScratchWriter] *)
Record SectionScratchWriter := {
  sw_inner : BufferedScratchWriter;
  sw_chunk_bytes : Z;
  sw_chunk_len : Z;
  sw_checksum : option IncrementalAdler32;
  sw_checksums : list Z;
  sw_len : Z;
}.

(** [scratch_write_buffer_bytes] *)
Definition scratch_write_buffer_bytes (options : KeyIndexOptions) : Z :=
  Z.max (Z.min (chunk_bytes options) (build_memory_bytes options / 16)) 1.

Section Scratch.

Context `{Env} `{BuildIo} {S : Type} `{HasWorld S}.

(** [scratch_file]: a new file. *)
Definition scratch_file : M S File :=
  let! _ := file_operation in mret [].

#[export] Instance file_write_instance : Write S File := fun file input =>
  let! count := file_write (zlen input) in
  mret (count, file ++ take (Z.to_nat count) input).

(** [BufferedScratchWriter::new] *)
Definition buffered_new (file : File) (capacity : Z) : Result BufferedScratchWriter :=
  try_reserve_vec 0 1 capacity "key-index scratch write buffer" ;;?
  Ok {| bw_file := file; bw_buffer := []; bw_capacity := capacity |}.

(** [BufferedScratchWriter::flush_buffer] *)
Definition flush_buffer (w : BufferedScratchWriter) : M S BufferedScratchWriter :=
  if zlen (bw_buffer w) =? 0 then mret w
  else
    let! file := write_all (bw_file w) (bw_buffer w) in
    mret {| bw_file := file; bw_buffer := []; bw_capacity := bw_capacity w |}.

(** [<BufferedScratchWriter as Write>::write] *)
#[export] Instance buffered_write : Write S BufferedScratchWriter := fun w input =>
  if zlen input =? 0 then mret (0, w)
  else if (zlen (bw_buffer w) =? 0) && (bw_capacity w <=? zlen input)
  then
    let! '(count, file) := write (bw_file w) input in
    mret (count, {| bw_file := file; bw_buffer := bw_buffer w; bw_capacity := bw_capacity w |})
  else
    let! w := if zlen (bw_buffer w) =? bw_capacity w then flush_buffer w else mret w in
    let available := saturating_sub (bw_capacity w) (zlen (bw_buffer w)) in
    let written := Z.min available (zlen input) in
    mret (written, {| bw_file := bw_file w; bw_buffer := bw_buffer w ++ take (Z.to_nat written) input;
                      bw_capacity := bw_capacity w |}).

(** [<BufferedScratchWriter as Write>::flush] *)
Definition buffered_flush (w : BufferedScratchWriter) : M S BufferedScratchWriter :=
  let! w := flush_buffer w in
  let! _ := file_operation in
  mret w.

(** [BufferedScratchWriter::into_file] *)
Definition buffered_into_file (w : BufferedScratchWriter) : M S File :=
  let! w := buffered_flush w in mret (bw_file w).

(** [SectionScratchWriter::new] *)
Definition section_writer_new (file : File) (buffer_bytes chunk_bytes : Z) (policy : ChecksumPolicy)
    : Result SectionScratchWriter :=
  let? inner := buffered_new file buffer_bytes in
  Ok {| sw_inner := inner; sw_chunk_bytes := chunk_bytes; sw_chunk_len := 0;
        sw_checksum := if is_verify policy then Some incremental_new else None;
        sw_checksums := []; sw_len := 0 |}.

(** [SectionScratchWriter::finish_chunk] *)
Definition finish_chunk (w : SectionScratchWriter) : Result SectionScratchWriter :=
  match try_reserve_vec (zlen (sw_checksums w)) 4 1 "persistent index checksum table" with
  | Err _ => Err (Io "could not allocate persistent index checksum table")
  | _ =>
      let checksum := match sw_checksum w with Some c => incremental_finish c | None => 0 end in
      Ok {| sw_inner := sw_inner w; sw_chunk_bytes := sw_chunk_bytes w; sw_chunk_len := 0;
            sw_checksum := match sw_checksum w with Some _ => Some incremental_new | None => None end;
            sw_checksums := sw_checksums w ++ [checksum]; sw_len := sw_len w |}
  end.

(** One round of the loop of [<SectionScratchWriter as Write>::write]; [count]
    bytes fit into the current chunk. *)
Definition write_piece (w : SectionScratchWriter) (bytes : bytes) : M S SectionScratchWriter :=
  let count := zlen bytes in
  let! inner := write_all (sw_inner w) bytes in
  let! len := lift (ok_or (checked_add (sw_len w) (or_u64_max (try_u64 count)))
                      (Io "persistent index section overflow")) in
  let w := {| sw_inner := inner; sw_chunk_bytes := sw_chunk_bytes w;
              sw_chunk_len := sw_chunk_len w + count;
              sw_checksum := match sw_checksum w with
                             | Some c => Some (incremental_update c bytes)
                             | None => None
                             end;
              sw_checksums := sw_checksums w; sw_len := len |} in
  if sw_chunk_len w =? sw_chunk_bytes w then lift (finish_chunk w) else mret w.

(** The loop of [<SectionScratchWriter as Write>::write]. *)
Fixpoint section_write_loop (fuel : nat) (w : SectionScratchWriter) (input : bytes)
    : M S SectionScratchWriter :=
  match input with
  | [] => mret w
  | _ =>
      match fuel with
      | O => lift OutOfFuel
      | Datatypes.S fuel =>
          let! remaining := lift (or_panic (checked_sub (sw_chunk_bytes w) (sw_chunk_len w))
                                    "attempt to subtract with overflow") in
          let count := Z.min remaining (zlen input) in
          let! bytes := lift (or_panic (slice input 0 count) "slice index out of range") in
          let! w := write_piece w bytes in
          section_write_loop fuel w (drop (Z.to_nat count) input)
      end
  end.

(** [<SectionScratchWriter as Write>::write]; a round takes at least one
    byte. *)
#[export] Instance section_write : Write S SectionScratchWriter := fun w input =>
  let! w := section_write_loop (length input) w input in
  mret (zlen input, w).

(** [SectionScratchWriter::into_section] *)
Definition into_section (w : SectionScratchWriter) (kind : SectionKind) : M S SectionFile :=
  let! w := if sw_chunk_len w =? 0 then mret w else lift (finish_chunk w) in
  let! file := buffered_into_file (sw_inner w) in
  let! _ := file_operation in
  let! _ := lift (ensure (zlen file =? sw_len w)
                    (InvalidFormat "key-index scratch section length mismatch")) in
  let! _ := file_operation in
  mret {| sf_kind := kind; sf_file := file; sf_len := sw_len w; sf_checksums := sw_checksums w |}.

End Scratch.

(** * Specification *)

(** The checksum of a chunk. *)
Definition chunk_sum (policy : ChecksumPolicy) (chunk : bytes) : Z :=
  if is_verify policy then adler32 chunk else 0.

(** A section that holds [data], with the checksum of every chunk. *)
Definition section_holds (kind : SectionKind) (chunk_bytes : Z) (policy : ChecksumPolicy)
    (data : bytes) (section : SectionFile) : Prop :=
  sf_kind section = kind /\ sf_file section = data /\ sf_len section = zlen data /\
  (bytes_ok data -> sf_checksums section = map (chunk_sum policy) (chunks chunk_bytes data)).

(** A buffered writer that was given [data]. *)
Definition buffered_written (w : BufferedScratchWriter) (data : list Z) : Prop :=
  bw_file w ++ bw_buffer w = data /\ 0 < bw_capacity w /\ zlen (bw_buffer w) <= bw_capacity w.

(** The running checksum of the bytes of the current chunk. *)
Definition running (policy : ChecksumPolicy) (tail : list Z) (checksum : option IncrementalAdler32) : Prop :=
  match checksum with
  | Some c => is_verify policy = true /\ (bytes_ok tail -> adler_reduced (ia_a c, ia_b c) /\
      (ia_a c, ia_b c) = adler_spec_sums tail (1, 0))
  | None => is_verify policy = false
  end.

(** A section writer that was given [data]: the full chunks and what follows
    them. *)
Definition section_written (chunk_bytes : Z) (policy : ChecksumPolicy) (w : SectionScratchWriter)
    (data : list Z) : Prop :=
  buffered_written (sw_inner w) data /\ (sw_chunk_bytes w = chunk_bytes /\ chunk_bytes <= u64_max) /\ sw_len w = zlen data /\
  exists full tail_, data = concat full ++ tail_ /\ Forall (fun c => zlen c = chunk_bytes) full /\
    zlen tail_ = sw_chunk_len w /\ sw_chunk_len w < chunk_bytes /\
    running policy tail_ (sw_checksum w) /\
    (bytes_ok data -> sw_checksums w = map (chunk_sum policy) full).

(** * Lemmas *)

Lemma chunks_fuel_full {A} fuel n (full : list (list A)) tail_ :
  (0 < n)%nat -> Forall (fun c => length c = n) full -> (length tail_ < n)%nat ->
  (length (concat full ++ tail_) <= fuel)%nat ->
  chunks_fuel fuel n (concat full ++ tail_) = full ++ match tail_ with [] => [] | _ => [tail_] end.
Proof.
  intros Hn Hf Ht; revert full Hf; induction fuel as [|fuel IH]; intros full Hf Hl.
  { destruct Hf as [|c full Hc Hf]; simpl in *; [destruct tail_; [done|simpl in *; lia]|]. rewrite !length_app in Hl. lia. }
  destruct Hf as [|c full Hc Hf]; simpl concat in *.
  - destruct tail_ as [|x tail_]; [done|]. cbn [app chunks_fuel]. rewrite take_ge by lia. f_equal.
    rewrite drop_ge by lia. by destruct fuel.
  - rewrite <- app_assoc in *. destruct c as [|x c]; [simpl in Hc; lia|]. cbn [app chunks_fuel].
    change (x :: c ++ concat full ++ tail_) with ((x :: c) ++ concat full ++ tail_).
    rewrite take_app_length', drop_app_length' by done. f_equal. apply IH; [done|].
    rewrite length_app in Hl. simpl in Hl, Hc. lia.
Qed.

Lemma chunks_full {A} n (full : list (list A)) tail_ :
  Forall (fun c => zlen c = n) full -> zlen tail_ < n ->
  chunks n (concat full ++ tail_) = full ++ match tail_ with [] => [] | _ => [tail_] end.
Proof.
  intros Hf Ht. unfold chunks. apply chunks_fuel_full; [lia| |lia|done].
  eapply Forall_impl; [exact Hf|]. simpl. lia.
Qed.

Lemma running_new policy : running policy [] (if is_verify policy then Some incremental_new else None).
Proof. unfold running. by destruct (is_verify policy). Qed.

Lemma running_update policy tail_ bytes checksum :
  running policy tail_ checksum ->
  running policy (tail_ ++ bytes)
    (match checksum with Some c => Some (incremental_update c bytes) | None => None end).
Proof.
  destruct checksum as [c|]; [|done]. intros [Hv Hr]. split; [done|]. intros [Ht Hb]%bytes_ok_app.
  destruct (Hr Ht) as [Hred Hsum]. pose proof (incremental_update_spec c bytes Hb Hred) as Hu.
  rewrite Hu. split; [by apply adler_chunks_spec|]. rewrite Hsum. unfold adler_spec_sums. by rewrite fold_left_app.
Qed.

Lemma running_finish policy tail_ checksum :
  running policy tail_ checksum -> bytes_ok tail_ ->
  match checksum with Some c => incremental_finish c | None => 0 end = chunk_sum policy tail_.
Proof.
  unfold chunk_sum. destruct checksum as [c|]; simpl; [|by intros -> _]. intros [-> Hr] Hok.
  destruct (Hr Hok) as [Hred Hsum]. rewrite (adler32_eq_spec _ Hok). unfold incremental_finish, adler32_spec.
  by rewrite (adler_pack_sum _ Hred), Hsum.
Qed.

Section ScratchProofs.

Context `{Env} `{BuildIoOk} {S : Type} `{HasWorld S}.

#[export] Instance file_write_ok : WriteOk (S := S) (fun (file data : list Z) => file = data).
Proof.
  intros file data input -> _. unfold write, file_write_instance.
  eapply budgeted_bind; [apply budgeted_file_write|]. intros count Hk. by apply budgeted_ret.
Qed.

Lemma budgeted_flush_buffer w data :
  buffered_written w data ->
  budgeted (S := S) (flush_buffer w)
    (fun w' => bw_file w' = data /\ bw_buffer w' = [] /\ bw_capacity w' = bw_capacity w) (fun _ => 0).
Proof.
  intros (Hd & Hc & Hb). unfold flush_buffer. apply budgeted_if; intros Hz; zbool.
  - destruct (bw_buffer w) eqn:E; [|simpl in Hz; lia]. rewrite app_nil_r in Hd. by apply budgeted_ret.
  - eapply budgeted_bind; [by apply (budgeted_write_all (fun file data => file = data))|].
    intros file ->. cbv beta. by apply budgeted_ret.
Qed.

#[export] Instance buffered_write_ok : WriteOk (S := S) buffered_written.
Proof.
  intros w data input (Hd & Hc & Hb) Hin. unfold write, buffered_write.
  destruct (Z.eqb_spec (zlen input) 0) as [Hz|_]; [by destruct input|].
  apply budgeted_if; intros Hcase.
  - apply andb_true_iff in Hcase as [Hz _]. zbool. destruct (bw_buffer w) eqn:E; [|simpl in Hz; lia].
    eapply budgeted_bind; [by apply (write_ok (written := fun file data => file = data))|].
    intros [count file] [Hk Hf]. cbv beta iota. apply budgeted_ret. simpl in *. split; [done|].
    split_and!; simpl; [|done|lia]. by rewrite app_nil_r in *; subst.
  - apply (budgeted_bind _ _ (fun w' => bw_file w' ++ bw_buffer w' = data /\ bw_capacity w' = bw_capacity w /\
      zlen (bw_buffer w') <= bw_capacity w)).
    + apply budgeted_if; intros _; [|by apply budgeted_ret].
      eapply budgeted_mono; [by apply budgeted_flush_buffer| |done]. intros w' (Hf & Hbuf & Hcap).
      rewrite Hbuf, app_nil_r. simpl. split_and!; [done|done|lia].
    + intros w' (Hf & Hcap & Hle). cbv beta iota zeta. apply budgeted_ret. rewrite Hcap. unfold saturating_sub.
      split; simpl; [lia|]. split_and!; simpl; [by rewrite app_assoc, Hf|lia|].
      rewrite length_app, length_take. lia.
Qed.

Lemma wp_buffered_new capacity :
  0 < capacity -> wp (buffered_new [] capacity) (fun w => buffered_written w []).
Proof.
  intros Hc. unfold buffered_new. apply wp_bind, wp_try_reserve_vec. split_and!; simpl; [done|done|lia].
Qed.

Lemma budgeted_buffered_into_file w data :
  buffered_written w data ->
  budgeted (S := S) (buffered_into_file w) (fun file => file = data) (fun _ => 0).
Proof.
  intros Hw. unfold buffered_into_file, buffered_flush.
  apply (budgeted_bind _ _ (fun w => bw_file w = data)); [|intros w' Hw'; cbv beta; by apply budgeted_ret].
  eapply budgeted_bind; [by apply budgeted_flush_buffer|]. intros w' (Hf & _). cbv beta.
  eapply budgeted_bind; [apply budgeted_file_operation|]. intros [] _. by apply budgeted_ret.
Qed.

Lemma budgeted_scratch_file : budgeted (S := S) scratch_file (fun file => file = []) (fun _ => 0).
Proof.
  unfold scratch_file. eapply budgeted_bind; [apply budgeted_file_operation|]. intros [] _. by apply budgeted_ret.
Qed.

Lemma wp_section_writer_new buffer_bytes cb policy :
  0 < buffer_bytes -> 0 < cb <= u64_max ->
  wp (section_writer_new [] buffer_bytes cb policy) (fun w => section_written cb policy w []).
Proof.
  intros Hb Hc. unfold section_writer_new. apply wp_bind. eapply wp_mono; [by apply wp_buffered_new|].
  intros inner Hi. simpl. split_and!; try done; [lia|]. exists [], [].
  split_and!; simpl; try done; [lia|]. apply running_new.
Qed.

Lemma wp_finish_chunk w data full tail_ policy :
  data = concat full ++ tail_ -> running policy tail_ (sw_checksum w) ->
  (bytes_ok data -> sw_checksums w = map (chunk_sum policy) full) ->
  wp (finish_chunk w) (fun w' => sw_inner w' = sw_inner w /\ sw_chunk_bytes w' = sw_chunk_bytes w /\
    sw_chunk_len w' = 0 /\ sw_len w' = sw_len w /\ running policy [] (sw_checksum w') /\
    (bytes_ok data -> sw_checksums w' = map (chunk_sum policy) (full ++ [tail_]))).
Proof.
  intros -> Hr Hc. unfold finish_chunk.
  pose proof (wp_try_reserve_vec (zlen (sw_checksums w)) 4 1 "persistent index checksum table" (fun _ => True) I) as Hw.
  destruct (try_reserve_vec _ _ _ _); try done. simpl. split_and!; try done.
  - destruct (sw_checksum w); [|done]. by destruct Hr as [Hv _].
  - intros Hok. rewrite Hc, map_app by done. simpl. do 2 f_equal. apply bytes_ok_app in Hok as [_ Hok].
    by apply running_finish.
Qed.

Lemma budgeted_write_piece w data cb policy bytes :
  section_written cb policy w data -> 0 < zlen bytes -> sw_chunk_len w + zlen bytes <= cb ->
  budgeted (S := S) (write_piece w bytes) (fun w' => section_written cb policy w' (data ++ bytes)) (fun _ => 0).
Proof.
  intros (Hi & [Hcb Hmax] & Hlen & full & tail_ & Hdata & Hfull & Ht & Hlt & Hrun & Hsums) Hpos Hfit.
  unfold write_piece. eapply budgeted_bind; [by apply (budgeted_write_all buffered_written)|].
  intros inner Hinner. cbv beta.
  apply (budgeted_bind _ _ (fun len => len = zlen data + zlen bytes)).
  { apply budgeted_lift, wp_ok_or. intros len [-> Hle]%checked_add_Some. rewrite Hlen. f_equal.
    unfold or_u64_max, try_u64 in *. destruct (Z.leb_spec (zlen bytes) u64_max); simpl in *; [done|].
    lia. }
  intros ? ->. cbv beta zeta.
  match goal with |- context [finish_chunk ?v] => set (w1 := v) end.
  assert (running policy (tail_ ++ bytes) (sw_checksum w1)) as Hrun1 by (by apply running_update).
  assert (data ++ bytes = concat full ++ (tail_ ++ bytes)) as Hdata1 by (by rewrite Hdata, app_assoc).
  assert (bytes_ok (data ++ bytes) -> sw_checksums w1 = map (chunk_sum policy) full) as Hsums1
    by (intros [? _]%bytes_ok_app; auto).
  apply budgeted_if; intros Hz; zbool.
  - apply budgeted_lift. eapply wp_mono; [by apply (wp_finish_chunk w1 (data ++ bytes) full (tail_ ++ bytes) policy)|].
    intros w' (E1 & E2 & E3 & E4 & Hr' & Hs'). unfold w1 in *; simpl in *.
    split; [by rewrite E1|]. split; [by rewrite E2|]. split; [rewrite E4, length_app; lia|].
    exists (full ++ [tail_ ++ bytes]), []. rewrite concat_app. simpl. rewrite !app_nil_r.
    split_and!; try done; try lia. apply Forall_app. split; [done|]. constructor; [|done]. rewrite length_app. lia.
  - apply budgeted_ret. unfold section_written, w1 in *; simpl in *. split; [done|]. split; [done|].
    split; [rewrite length_app; lia|]. exists full, (tail_ ++ bytes). simpl.
    split_and!; try done; try (rewrite length_app); lia.
Qed.

Lemma budgeted_section_write_loop fuel w data cb policy input :
  section_written cb policy w data -> (length input <= fuel)%nat ->
  budgeted (S := S) (section_write_loop fuel w input)
    (fun w' => section_written cb policy w' (data ++ input)) (fun _ => 0).
Proof.
  revert w data input; induction fuel as [|fuel IH]; intros w data [|b input] Hw Hf; cbn [section_write_loop];
    try (apply budgeted_ret; by rewrite app_nil_r); [simpl in Hf; lia|].
  set (all := b :: input) in *. assert (0 < zlen all) as Hpos by (unfold all; simpl; lia).
  destruct (id Hw) as (_ & [Hcb _] & _ & full & tail_ & _ & _ & Ht & Hlt & _).
  apply (budgeted_bind _ _ (fun r => r = cb - sw_chunk_len w)).
  { apply budgeted_lift, wp_or_panic; [rewrite Hcb; unfold checked_sub; rewrite (proj2 (Z.leb_le _ _)) by lia; by eexists|].
    intros r [-> _]%checked_sub_Some. by rewrite Hcb. }
  intros ? ->. cbv beta zeta. set (count := Z.min (cb - sw_chunk_len w) (zlen all)).
  assert (0 < count <= zlen all) as Hcount by (unfold count; lia).
  apply (budgeted_bind _ _ (fun bytes => bytes = take (Z.to_nat count) all)).
  { apply budgeted_lift, wp_or_panic; [apply slice_is_Some; lia|]. intros bytes [_ ->]%slice_Some.
    by rewrite Z.sub_0_r. }
  intros ? ->. cbv beta. assert (zlen (take (Z.to_nat count) all) = count) as Hz by (rewrite length_take; lia).
  eapply budgeted_bind; [apply (budgeted_write_piece w data cb policy); [done|lia|unfold count in *; lia]|].
  intros w' Hw'. cbv beta. eapply budgeted_mono; [apply (IH w' _ _ Hw')| |done].
  - rewrite length_drop. lia.
  - intros w''. by rewrite <- app_assoc, take_drop.
Qed.

#[export] Instance section_write_ok cb policy : WriteOk (S := S) (section_written cb policy).
Proof.
  intros w data input Hw _. unfold write, section_write.
  eapply budgeted_bind; [by apply budgeted_section_write_loop|]. intros w' Hw'. cbv beta.
  apply budgeted_ret. simpl. split; [lia|]. by rewrite take_ge by lia.
Qed.

(** A finished section holds what was written, chunk by chunk. *)
Lemma budgeted_into_section w data cb policy kind :
  section_written cb policy w data ->
  budgeted (S := S) (into_section w kind) (section_holds kind cb policy data) (fun _ => 0).
Proof.
  intros (Hi & [Hcb Hmax] & Hlen & full & tail_ & Hdata & Hfull & Ht & Hlt & Hrun & Hsums). unfold into_section.
  apply (budgeted_bind _ _ (fun w' => sw_inner w' = sw_inner w /\ sw_len w' = zlen data /\ (bytes_ok data ->
    sw_checksums w' = map (chunk_sum policy) (chunks cb data)))).
  - assert (chunks cb data = full ++ match tail_ with [] => [] | _ => [tail_] end) as Hch
      by (rewrite Hdata; apply chunks_full; [done|lia]).
    apply budgeted_if; intros Hz; zbool.
    + apply budgeted_ret. split_and!; [done|done|]. intros Hok. destruct tail_; [|simpl in *; lia].
      by rewrite Hch, app_nil_r, Hsums.
    + apply budgeted_lift. eapply wp_mono; [by apply (wp_finish_chunk w data full tail_ policy)|].
      intros w' (E1 & _ & _ & E4 & _ & Hs'). split_and!; [done|by rewrite E4|]. intros Hok.
      rewrite Hs', Hch by done. destruct tail_; [simpl in *; lia|done].
  - intros w' (Ei & El & Hs'). cbv beta. rewrite Ei.
    eapply budgeted_bind; [by apply budgeted_buffered_into_file|]. intros file ->. cbv beta.
    eapply budgeted_bind; [apply budgeted_file_operation|]. intros [] _. cbv beta.
    apply (budgeted_bind _ _ (fun _ => True)); [by apply budgeted_lift, wp_ensure|]. intros [] _. cbv beta.
    eapply budgeted_bind; [apply budgeted_file_operation|]. intros [] _. cbv beta. by apply budgeted_ret.
Qed.

End ScratchProofs.
