(* ===== verification/ExternalSort.v ===== *)
(** The external sort of [src/core/persistent/sort.rs]: rows are sorted in
    memory into runs, and the runs of a scratch file are merged, at most
    [MAX_MERGE_FAN_IN] at a time, in as many passes as it takes.  [encode_runs]
    is the file format of the runs. *)

From stdpp Require Import list_numbers sorting.
From S2P Require Import Prelude Errors Types Budget Utf8 LocatorIndex IndexFormat Writers Scratch.

(** * Data *)

Definition MAX_MERGE_FAN_IN : Z := 32.

Definition RUN_READ_BUFFER_BYTES : Z := 64 * 1024.

(** [ArenaRecord] *)
Record ArenaRecord := {
  ar_start : Z;
  ar_len : Z;
  ar_ordinal : Z;
}.

(** [SortBuffer], with the capacities of its two vectors. *)
Record SortBuffer := {
  sb_normalized : bytes;
  sb_records : list ArenaRecord;
  sb_normalized_capacity : Z;
  sb_records_capacity : Z;
}.

(** [RunRecord] *)
Record RunRecord := {
  rr_normalized : bytes;
  rr_ordinal : Z;
}.

(** [RunCursor] *)
Record RunCursor := {
  rc_cursor : Z;
  rc_end : Z;
  rc_remaining : Z;
  rc_body_len : Z;
  rc_buffer : bytes;
  rc_buffer_position : Z;
  rc_buffer_capacity : Z;
}.

(** [HeapRecord] *)
Record HeapRecord := {
  hr_record : RunRecord;
  hr_run : Z;
}.

(** [MergeOutput] *)
Inductive MergeOutput :=
| OutRuns (writer : BufferedScratchWriter)
| OutOrder (writer : SectionScratchWriter).

Definition size_of_arena_record : Z := 24.

Definition size_of_run_record : Z := 32.

Definition size_of_run_cursor : Z := 72.

Definition size_of_heap_record : Z := 40.

(** [cmp] of two keys, then of their ordinals. *)
Definition compare_records (a b : RunRecord) : comparison :=
  match bytes_cmp (rr_normalized a) (rr_normalized b) with
  | Eq => rr_ordinal a ?= rr_ordinal b
  | c => c
  end.

(** * The sort buffer *)

Definition sort_buffer_new : SortBuffer :=
  {| sb_normalized := []; sb_records := []; sb_normalized_capacity := 0; sb_records_capacity := 0 |}.

(** [SortBuffer::is_empty] *)
Definition sort_buffer_is_empty (b : SortBuffer) : bool := zlen (sb_records b) =? 0.

(** [SortBuffer::clear]; the vectors keep their capacity. *)
Definition sort_buffer_clear (b : SortBuffer) : SortBuffer :=
  {| sb_normalized := []; sb_records := []; sb_normalized_capacity := sb_normalized_capacity b;
     sb_records_capacity := sb_records_capacity b |}.

(** [SortBuffer::allocated_bytes] *)
Definition allocated_bytes (b : SortBuffer) : Result Z :=
  ok_or (size ← checked_mul (sb_records_capacity b) size_of_arena_record;
         checked_add size (sb_normalized_capacity b))
    (InvalidFormat "key-index sort capacity overflow").

(** [SortBuffer::key] *)
Definition sort_key (b : SortBuffer) (r : ArenaRecord) : Result bytes :=
  let? end_ := or_panic (checked_add (ar_start r) (ar_len r)) "attempt to add with overflow" in
  or_panic (slice (sb_normalized b) (ar_start r) end_) "slice index out of range".

(** A record of the buffer with its key.  The ranges of the records lie in the
    buffer. *)
Definition run_record (b : SortBuffer) (r : ArenaRecord) : RunRecord :=
  {| rr_normalized := default [] (slice (sb_normalized b) (ar_start r) (ar_start r + ar_len r));
     rr_ordinal := ar_ordinal r |}.

(** The comparison of [sort_records]. *)
Definition arena_le (b : SortBuffer) (x y : ArenaRecord) : Prop :=
  compare_records (run_record b x) (run_record b y) <> Gt.

#[export] Instance arena_le_dec b x y : Decision (arena_le b x y).
Proof. unfold arena_le. apply _. Defined.

(** [sort_records]; the standard library's sort. *)
Definition sort_records (b : SortBuffer) : list ArenaRecord := merge_sort (arena_le b) (sb_records b).

Section ExternalSort.

Context `{Env} `{BuildIo} {S : Type} `{HasWorld S}.

(** [SortBuffer::reserve_record] *)
Definition reserve_record (b : SortBuffer) (normalized_upper maximum : Z) : Result SortBuffer :=
  try_reserve_vec (zlen (sb_normalized b)) 1 normalized_upper "key-index normalized sort arena" ;;?
  try_reserve_vec (zlen (sb_records b)) size_of_arena_record 1 "key-index sort rows" ;;?
  let b := {| sb_normalized := sb_normalized b; sb_records := sb_records b;
              sb_normalized_capacity :=
                vec_capacity (sb_normalized_capacity b) (zlen (sb_normalized b) + normalized_upper);
              sb_records_capacity := vec_capacity (sb_records_capacity b) (zlen (sb_records b) + 1) |} in
  let? allocated := allocated_bytes b in
  ensure (negb (maximum <? allocated))
    (LimitExceeded "key_index_build_memory_bytes" (or_u64_max (try_u64 allocated))
       (or_u64_max (try_u64 maximum))) ;;?
  Ok b.

(** * Writing sorted rows *)

Section Writing.

Context {W : Type} `{Write S W}.

(** The loop of [write_sorted_order]. *)
Fixpoint write_ordinals (w : W) (records : list ArenaRecord) : M S W :=
  match records with
  | [] => mret w
  | record :: records =>
      let! w := write_u32 w (ar_ordinal record) in
      write_ordinals w records
  end.

(** [write_sorted_order] *)
Definition write_sorted_order (w : W) (b : SortBuffer) : M S W := write_ordinals w (sort_records b).

(** The loop of [write_sorted_run] over the lengths. *)
Fixpoint run_body_len (records : list ArenaRecord) (body_len : Z) : Result Z :=
  match records with
  | [] => Ok body_len
  | record :: records =>
      let? body_len := ok_or (len ← checked_add body_len 12; n ← try_u64 (ar_len record); checked_add len n)
                         (InvalidFormat "key-index run length overflow") in
      run_body_len records body_len
  end.

(** The loop of [write_sorted_run] over the rows. *)
Fixpoint write_run_rows (w : W) (b : SortBuffer) (records : list ArenaRecord) : M S W :=
  match records with
  | [] => mret w
  | record :: records =>
      let! len := lift (ok_or (try_u64 (ar_len record))
                          (InvalidFormat "normalized key length exceeds u64")) in
      let! w := write_u64 w len in
      let! key := lift (sort_key b record) in
      let! w := write_all w key in
      let! w := write_u32 w (ar_ordinal record) in
      write_run_rows w b records
  end.

(** [write_sorted_run] *)
Definition write_sorted_run (w : W) (b : SortBuffer) : M S W :=
  let records := sort_records b in
  let! body_len := lift (run_body_len records 0) in
  let! w := write_u64 w body_len in
  let! count := lift (ok_or (try_u64 (zlen records)) (InvalidFormat "key-index run count exceeds u64")) in
  let! w := write_u64 w count in
  write_run_rows w b records.

(** [write_run_record] *)
Definition write_run_record (w : W) (record : RunRecord) : M S W :=
  let! len := lift (ok_or (try_u64 (zlen (rr_normalized record)))
                      (InvalidFormat "normalized key length exceeds u64")) in
  let! w := write_u64 w len in
  let! w := write_all w (rr_normalized record) in
  write_u32 w (rr_ordinal record).

End Writing.

(** * Reading runs *)

(** [file.read_exact] of [len] bytes at [position]. *)
Definition file_read_exact (file : File) (position len : Z) : M S (list Z) :=
  let! _ := file_operation in
  lift (ok_or (slice file position (position + len)) (Io "failed to fill whole buffer")).

(** [RunCursor::reserve_buffer] *)
Definition reserve_buffer (run : RunCursor) (capacity : Z) : Result RunCursor :=
  try_reserve_vec (zlen (rc_buffer run)) 1 capacity "key-index scratch read buffer" ;;?
  Ok {| rc_cursor := rc_cursor run; rc_end := rc_end run; rc_remaining := rc_remaining run;
        rc_body_len := rc_body_len run; rc_buffer := rc_buffer run;
        rc_buffer_position := rc_buffer_position run; rc_buffer_capacity := capacity |}.

(** The refill in the loop of [RunCursor::read_exact]. *)
Definition refill (file : File) (run : RunCursor) : M S RunCursor :=
  let! _ := lift (ensure (negb (rc_end run <=? rc_cursor run))
                    (InvalidFormat "key-index scratch record is truncated")) in
  let! unread := lift (sub_or_panic (rc_end run) (rc_cursor run)) in
  let! read_len := lift (checked_usize (Z.min unread (or_u64_max (try_u64 (rc_buffer_capacity run))))
                           "key-index scratch read length") in
  let! _ := file_operation in
  let! buffer := file_read_exact file (rc_cursor run) read_len in
  mret {| rc_cursor := rc_cursor run; rc_end := rc_end run; rc_remaining := rc_remaining run;
          rc_body_len := rc_body_len run; rc_buffer := buffer; rc_buffer_position := 0;
          rc_buffer_capacity := rc_buffer_capacity run |}.

(** The loop of [RunCursor::read_exact]: the bytes read and the cursor. *)
Fixpoint run_read_loop (fuel : nat) (file : File) (run : RunCursor) (wanted : Z) (output : list Z)
    : M S (list Z * RunCursor) :=
  if wanted <=? 0 then mret (output, run)
  else
    match fuel with
    | O => lift OutOfFuel
    | Datatypes.S fuel =>
        let! run := if rc_buffer_position run =? zlen (rc_buffer run) then refill file run else mret run in
        let! available := lift (sub_or_panic (zlen (rc_buffer run)) (rc_buffer_position run)) in
        let copied := Z.min available wanted in
        let! part := lift (or_panic (slice (rc_buffer run) (rc_buffer_position run)
                                       (rc_buffer_position run + copied)) "slice index out of range") in
        let! count := lift (ok_or (try_u64 copied)
                              (InvalidFormat "key-index scratch read length exceeds u64")) in
        let! cursor := lift (ok_or (checked_add (rc_cursor run) count)
                               (InvalidFormat "key-index scratch cursor overflow")) in
        let run := {| rc_cursor := cursor; rc_end := rc_end run; rc_remaining := rc_remaining run;
                      rc_body_len := rc_body_len run; rc_buffer := rc_buffer run;
                      rc_buffer_position := rc_buffer_position run + copied;
                      rc_buffer_capacity := rc_buffer_capacity run |} in
        run_read_loop fuel file run (wanted - copied) (output ++ part)
    end.

(** [RunCursor::read_exact]; a round copies at least one byte when the buffer
    has a capacity. *)
Definition run_read_exact (file : File) (run : RunCursor) (len : Z) : M S (list Z * RunCursor) :=
  run_read_loop (Z.to_nat len) file run len [].

(** [read_run_header] *)
Definition read_run_header (file : File) (offset : Z) : M S (RunCursor * Z) :=
  let! _ := file_operation in
  let! body_len := file_read_exact file offset 8 in
  let body_len := le_combine body_len in
  let! count := file_read_exact file (offset + 8) 8 in
  let count := le_combine count in
  let! body_start := lift (ok_or (checked_add offset 16) (InvalidFormat "key-index run offset overflow")) in
  let! end_ := lift (ok_or (checked_add body_start body_len) (InvalidFormat "key-index run end overflow")) in
  let! _ := file_operation in
  let! _ := lift (ensure (negb (zlen file <? end_)) (InvalidFormat "key-index scratch run is truncated")) in
  mret ({| rc_cursor := body_start; rc_end := end_; rc_remaining := count; rc_body_len := body_len;
           rc_buffer := []; rc_buffer_position := 0; rc_buffer_capacity := 0 |}, end_).

(** [read_sort_record]; the vector it reuses is emptied first. *)
Definition read_sort_record (file : File) (run : RunCursor) (maximum : Z)
    : M S (option RunRecord * RunCursor) :=
  if rc_remaining run =? 0
  then
    let! _ := lift (ensure (rc_cursor run =? rc_end run)
                      (InvalidFormat "key-index scratch run has trailing bytes")) in
    mret (None, run)
  else
    let record_start := rc_cursor run in
    let! '(len_bytes, run) := run_read_exact file run 8 in
    let len := le_combine len_bytes in
    let! len_usize := lift (checked_usize len "key-index scratch key length") in
    let! _ := lift (ensure_usize_limit "key_index_build_memory_bytes" len_usize maximum) in
    let! record_end := lift (ok_or (offset ← checked_add record_start 12; checked_add offset len)
                               (InvalidFormat "key-index scratch record overflow")) in
    let! _ := lift (ensure (negb (rc_end run <? record_end))
                      (InvalidFormat "key-index scratch record is truncated")) in
    let! _ := lift (try_reserve_vec 0 1 len_usize "key-index scratch key") in
    let! '(normalized, run) := run_read_exact file run len_usize in
    let! '(ordinal_bytes, run) := run_read_exact file run 4 in
    let ordinal := le_combine ordinal_bytes in
    let! _ := lift (ensure (rc_cursor run =? record_end)
                      (InvalidFormat "key-index scratch record length mismatch")) in
    let! remaining := lift (sub_or_panic (rc_remaining run) 1) in
    let run := {| rc_cursor := rc_cursor run; rc_end := rc_end run; rc_remaining := remaining;
                  rc_body_len := rc_body_len run; rc_buffer := rc_buffer run;
                  rc_buffer_position := rc_buffer_position run;
                  rc_buffer_capacity := rc_buffer_capacity run |} in
    let! _ := lift (ok_or (utf8_decode normalized) (InvalidFormat "key-index scratch key is not UTF-8")) in
    mret (Some {| rr_normalized := normalized; rr_ordinal := ordinal |}, run).

End ExternalSort.

(** * The heap *)

(** [<HeapRecord as Ord>::cmp]: the reverse, because the heap is a maximum
    heap. *)
Definition heap_cmp (self other : HeapRecord) : comparison :=
  match compare_records (hr_record other) (hr_record self) with
  | Eq => hr_run other ?= hr_run self
  | c => c
  end.

(** [BinaryHeap::pop]: a greatest element. *)
Fixpoint heap_pop (heap : list HeapRecord) : option (HeapRecord * list HeapRecord) :=
  match heap with
  | [] => None
  | x :: heap =>
      match heap_pop heap with
      | None => Some (x, [])
      | Some (y, rest) =>
          match heap_cmp y x with
          | Gt => Some (y, x :: rest)
          | _ => Some (x, y :: rest)
          end
      end
  end.

(** * Specification *)

Definition rec_le (a b : RunRecord) : Prop := compare_records a b <> Gt.

(** The bytes of a record, of a run and of a file of runs. *)
Definition encode_record (r : RunRecord) : bytes :=
  le_split 8 (zlen (rr_normalized r)) ++ rr_normalized r ++ le_split 4 (rr_ordinal r).

Definition encode_run (records : list RunRecord) : bytes :=
  le_split 8 (zlen (flat_map encode_record records)) ++ le_split 8 (zlen records)
  ++ flat_map encode_record records.

Definition encode_runs (runs : list (list RunRecord)) : bytes := flat_map encode_run runs.

(** The bytes of the ordinals. *)
Definition encode_ordinals (records : list RunRecord) : bytes :=
  flat_map (fun r => le_split 4 (rr_ordinal r)) records.

(** A run that was written: sorted, and every number fits its field. *)
Record run_ok (records : list RunRecord) : Prop := {
  ro_sorted : StronglySorted rec_le records;
  ro_ordinals : Forall (fun r => is_u32 (rr_ordinal r)) records;
  ro_body : zlen (flat_map encode_record records) <= u64_max;
  ro_count : zlen records <= u64_max;
}.

(** The records of a buffer lie in its arena. *)
Definition buffer_ok (b : SortBuffer) : Prop :=
  Forall (fun r => 0 <= ar_start r /\ 0 <= ar_len r /\ ar_start r + ar_len r <= zlen (sb_normalized b) /\
    is_u32 (ar_ordinal r)) (sb_records b) /\ zlen (sb_normalized b) <= u64_max.

Definition buffer_records (b : SortBuffer) : list RunRecord := map (run_record b) (sb_records b).

Definition sorted_records (b : SortBuffer) : list RunRecord := map (run_record b) (sort_records b).

(** The unread bytes of a run are [rest]; the buffer holds some of them. *)
Definition cursor_at (file : File) (run : RunCursor) (rest : list Z) : Prop :=
  slice file (rc_cursor run) (rc_end run) = Some rest /\ 0 < rc_buffer_capacity run /\ rc_end run <= u64_max /\
  0 <= rc_buffer_position run <= zlen (rc_buffer run) /\
  rc_cursor run + (zlen (rc_buffer run) - rc_buffer_position run) <= rc_end run /\
  slice file (rc_cursor run) (rc_cursor run + (zlen (rc_buffer run) - rc_buffer_position run)) =
    Some (drop (Z.to_nat (rc_buffer_position run)) (rc_buffer run)).

(** The unread records of a run. *)
Definition cursor_reads (file : File) (run : RunCursor) (records : list RunRecord) : Prop :=
  cursor_at file run (flat_map encode_record records) /\ rc_remaining run = zlen records /\
  Forall (fun r => is_u32 (rr_ordinal r)) records.

(** * Lemmas *)

(** ** The order of the records *)

Lemma compare_records_antisym a b : compare_records b a = CompOpp (compare_records a b).
Proof.
  unfold compare_records. rewrite (bytes_cmp_antisym (rr_normalized a)).
  destruct (bytes_cmp (rr_normalized a) _); [|done..]. apply Z.compare_antisym.
Qed.

Lemma compare_records_lt_trans a b c :
  compare_records a b <> Gt -> compare_records b c <> Gt -> compare_records a c <> Gt.
Proof.
  unfold compare_records. intros H1 H2.
  destruct (bytes_cmp (rr_normalized a) (rr_normalized b)) eqn:E1; [|clear H1|done].
  - apply bytes_cmp_eq in E1. rewrite E1.
    destruct (bytes_cmp (rr_normalized b) (rr_normalized c)); [|done|done].
    change (rr_ordinal a <= rr_ordinal c). change (rr_ordinal a <= rr_ordinal b) in H1.
    change (rr_ordinal b <= rr_ordinal c) in H2. lia.
  - destruct (bytes_cmp (rr_normalized b) (rr_normalized c)) eqn:E2; [|clear H2|done].
    + apply bytes_cmp_eq in E2. rewrite <- E2, E1. done.
    + by rewrite (bytes_cmp_lt_trans _ _ _ E1 E2).
Qed.

#[export] Instance rec_le_trans : Transitive rec_le.
Proof. intros a b c. apply compare_records_lt_trans. Qed.

Lemma rec_le_total a b : rec_le a b \/ rec_le b a.
Proof.
  unfold rec_le. rewrite (compare_records_antisym a b). destruct (compare_records a b); naive_solver.
Qed.

(** ** The sort buffer *)

Lemma sort_records_Permutation b : sort_records b ≡ₚ sb_records b.
Proof. apply merge_sort_Permutation. Qed.

Lemma sorted_records_Permutation b : sorted_records b ≡ₚ buffer_records b.
Proof. unfold sorted_records, buffer_records. by rewrite sort_records_Permutation. Qed.

Lemma sorted_records_sorted b : StronglySorted rec_le (sorted_records b).
Proof.
  assert (Total (arena_le b)) as Htot by (intros x y; apply rec_le_total).
  pose proof (Sorted_merge_sort (arena_le b) (sb_records b)) as Hs.
  assert (StronglySorted (arena_le b) (sort_records b)) as Hss.
  { apply Sorted_StronglySorted; [intros x y z; apply compare_records_lt_trans|exact Hs]. }
  unfold sorted_records. clear Hs. induction Hss as [|x l Hl IH Hx]; simpl; constructor; [done|].
  by apply Forall_map.
Qed.

Lemma buffer_ok_sorted b :
  buffer_ok b -> Forall (fun r => 0 <= ar_len r /\ is_u32 (ar_ordinal r) /\
    sort_key b r = Ok (rr_normalized (run_record b r)) /\ zlen (rr_normalized (run_record b r)) = ar_len r)
    (sort_records b).
Proof.
  intros [Hb Hz]. rewrite sort_records_Permutation. eapply Forall_impl; [exact Hb|]. intros r (Hs & Hl & He & Ho).
  destruct (slice_is_Some (sb_normalized b) (ar_start r) (ar_start r + ar_len r)) as [key Hkey]; [lia|lia|].
  unfold sort_key, run_record; simpl. rewrite Hkey; simpl.
  unfold checked_add. rewrite (proj2 (Z.leb_le _ _)) by lia. simpl. rewrite Hkey. simpl.
  split_and!; try done; try apply Ho. apply slice_length in Hkey. lia.
Qed.

Lemma zlen_encode_record r : zlen (encode_record r) = 12 + zlen (rr_normalized r).
Proof. unfold encode_record. rewrite !length_app, !length_le_split. lia. Qed.

Section SortProofs.

Context `{Env} `{BuildIoOk} {S : Type} `{HasWorld S}.

Section WritingProofs.

Context {W : Type} `{Write S W} (written : W -> list Z -> Prop) `{!WriteOk written}.

Lemma budgeted_write_ordinals w data b records :
  written w data ->
  budgeted (S := S) (write_ordinals w records)
    (fun w' => written w' (data ++ encode_ordinals (map (run_record b) records))) (fun _ => 0).
Proof.
  revert w data; induction records as [|r records IH]; intros w data Hw; cbn [write_ordinals map encode_ordinals flat_map].
  { apply budgeted_ret. by rewrite app_nil_r. }
  eapply budgeted_bind; [by apply (budgeted_write_u32 written)|]. intros w' Hw'. cbv beta.
  rewrite app_assoc. by apply IH.
Qed.

Lemma budgeted_write_sorted_order w data b :
  written w data ->
  budgeted (S := S) (write_sorted_order w b)
    (fun w' => written w' (data ++ encode_ordinals (sorted_records b))) (fun _ => 0).
Proof. apply budgeted_write_ordinals. Qed.

Lemma wp_run_body_len b records body_len :
  Forall (fun r => zlen (rr_normalized (run_record b r)) = ar_len r) records ->
  wp (run_body_len records body_len) (fun n =>
    n = body_len + zlen (flat_map encode_record (map (run_record b) records)) /\ (n <= u64_max \/ records = [])).
Proof.
  intros Hr; revert body_len; induction Hr as [|r records Hlen Hr IH]; intros body_len;
    cbn [run_body_len map flat_map]; [simpl; split; [lia|by right]|].
  apply wp_bind, wp_ok_or. intros len Hl. apply bind_Some in Hl as (l1 & [-> _]%checked_add_Some & Hl).
  apply bind_Some in Hl as (n & [-> _]%try_u64_Some & [-> Hle]%checked_add_Some).
  eapply wp_mono; [apply IH|]. intros n [-> Hn]. rewrite length_app, zlen_encode_record || rewrite length_app.
  pose proof (zlen_encode_record (run_record b r)) as Hz. split; [lia|]. left.
  destruct Hn as [?| ->]; [lia|]. simpl. lia.
Qed.

Lemma budgeted_write_run_rows w data b records :
  written w data ->
  Forall (fun r => 0 <= ar_len r /\ is_u32 (ar_ordinal r) /\
    sort_key b r = Ok (rr_normalized (run_record b r)) /\ zlen (rr_normalized (run_record b r)) = ar_len r) records ->
  budgeted (S := S) (write_run_rows w b records)
    (fun w' => written w' (data ++ flat_map encode_record (map (run_record b) records))) (fun _ => 0).
Proof.
  intros Hw Hr; revert w data Hw; induction Hr as [|r records (_ & _ & Hkey & Hlen) _ IH]; intros w data Hw;
    cbn [write_run_rows map flat_map].
  { apply budgeted_ret. by rewrite app_nil_r. }
  apply (budgeted_bind _ _ (fun n => n = ar_len r)).
  { apply budgeted_lift, wp_ok_or. by intros n [-> _]%try_u64_Some. }
  intros ? ->. cbv beta. eapply budgeted_bind; [by apply (budgeted_write_u64 written)|]. intros w1 Hw1. cbv beta in Hw1 |- *.
  rewrite Hkey. apply (budgeted_bind _ _ (fun key => key = rr_normalized (run_record b r))); [by apply budgeted_lift|].
  intros ? ->. cbv beta. eapply budgeted_bind; [by apply (budgeted_write_all written)|]. intros w2 Hw2. cbv beta in Hw2 |- *.
  eapply budgeted_bind; [by apply (budgeted_write_u32 written)|]. intros w3 Hw3. cbv beta in Hw3 |- *.
  eapply budgeted_mono; [by apply IH| |done]. intros w4. rewrite <- !app_assoc. unfold encode_record at 2.
  rewrite Hlen, <- !app_assoc. by change (rr_ordinal (run_record b r)) with (ar_ordinal r).
Qed.

(** A sorted run is a run of the format. *)
Lemma budgeted_write_sorted_run w data b :
  written w data -> buffer_ok b ->
  budgeted (S := S) (write_sorted_run w b)
    (fun w' => written w' (data ++ encode_run (sorted_records b)) /\ run_ok (sorted_records b)) (fun _ => 0).
Proof.
  intros Hw Hb. pose proof (buffer_ok_sorted b Hb) as Hr. unfold write_sorted_run. cbv zeta.
  apply (budgeted_bind _ _ (fun n => n = zlen (flat_map encode_record (sorted_records b)) /\ n <= u64_max)).
  { apply budgeted_lift. eapply wp_mono; [apply (wp_run_body_len b)|].
    - eapply Forall_impl; [exact Hr|]. by intros r (_ & _ & _ & ?).
    - intros n [-> Hn]. split; [unfold sorted_records; lia|]. destruct Hn as [?| ->]; [lia|done]. }
  intros n [-> Hn]. cbv beta. eapply budgeted_bind; [by apply (budgeted_write_u64 written)|]. intros w1 Hw1. cbv beta in Hw1 |- *.
  apply (budgeted_bind _ _ (fun n => n = zlen (sorted_records b) /\ n <= u64_max)).
  { apply budgeted_lift, wp_ok_or. intros c [-> ?]%try_u64_Some. unfold sorted_records. by rewrite length_map. }
  intros c [-> Hc]. cbv beta. eapply budgeted_bind; [by apply (budgeted_write_u64 written)|]. intros w2 Hw2. cbv beta in Hw2 |- *.
  eapply budgeted_mono; [by apply budgeted_write_run_rows| |done]. intros w3 Hw3. split.
  - unfold encode_run. by rewrite <- !app_assoc in Hw3.
  - constructor; [apply sorted_records_sorted| |done|done]. unfold sorted_records. apply Forall_map.
    eapply Forall_impl; [exact Hr|]. intros r (_ & Ho & _). exact Ho.
Qed.

Lemma budgeted_write_run_record w data r :
  written w data ->
  budgeted (S := S) (write_run_record w r) (fun w' => written w' (data ++ encode_record r)) (fun _ => 0).
Proof.
  intros Hw. unfold write_run_record.
  apply (budgeted_bind _ _ (fun n => n = zlen (rr_normalized r)));
    [apply budgeted_lift, wp_ok_or; by intros n [-> _]%try_u64_Some|].
  intros ? ->. cbv beta. eapply budgeted_bind; [by apply (budgeted_write_u64 written)|]. intros w1 Hw1. cbv beta in Hw1 |- *.
  eapply budgeted_bind; [by apply (budgeted_write_all written)|]. intros w2 Hw2. cbv beta in Hw2 |- *.
  eapply budgeted_mono; [by apply (budgeted_write_u32 written)| |done]. intros w3. unfold encode_record.
  by rewrite <- !app_assoc.
Qed.

End WritingProofs.

(** ** Reading *)

Lemma budgeted_file_read_exact file position len :
  budgeted (S := S) (file_read_exact file position len)
    (fun out => slice file position (position + len) = Some out) (fun _ => 0).
Proof. unfold file_read_exact. budgeted_step. by apply budgeted_lift, wp_ok_or. Qed.

(** What a read leaves of a cursor. *)
Definition same_run (run run' : RunCursor) (len : Z) : Prop :=
  rc_cursor run' = rc_cursor run + len /\ rc_end run' = rc_end run /\
  rc_remaining run' = rc_remaining run /\ rc_body_len run' = rc_body_len run.

Lemma budgeted_refill file run rest :
  cursor_at file run rest -> rest <> [] -> rc_buffer_position run = zlen (rc_buffer run) ->
  budgeted (S := S) (refill file run) (fun run' =>
    cursor_at file run' rest /\ same_run run run' 0 /\ rc_buffer_position run' < zlen (rc_buffer run')) (fun _ => 0).
Proof.
  intros (Hrest & Hcap & Hmax & _ & Hle & _) Hne Hp. unfold refill. budgeted_step.
  assert (rc_cursor run < rc_end run) as Hlt.
  { pose proof (slice_length _ _ _ _ Hrest). destruct rest; [done|]. simpl in *. lia. }
  apply slice_Some in Hrest as Hr. destruct Hr as [[Hc He] _].
  apply (budgeted_bind _ _ (fun n => n = rc_end run - rc_cursor run)).
  { apply budgeted_lift. unfold sub_or_panic, checked_sub. by rewrite (proj2 (Z.leb_le _ _)) by lia. }
  intros ? ->. cbv beta.
  set (len := Z.min (rc_end run - rc_cursor run) (or_u64_max (try_u64 (rc_buffer_capacity run)))).
  assert (0 < len <= rc_end run - rc_cursor run) as Hlen.
  { unfold len, or_u64_max, try_u64, u64_max. destruct (_ <=? _); simpl; lia. }
  apply (budgeted_bind _ _ (fun n => n = len)); [by apply budgeted_lift, wp_checked_usize|]. intros ? ->. cbv beta.
  budgeted_step. eapply budgeted_bind; [apply budgeted_file_read_exact|]. intros buffer Hb. cbv beta in Hb |- *.
  pose proof (slice_length _ _ _ _ Hb) as Hz. apply budgeted_ret. unfold cursor_at, same_run; simpl.
  rewrite Z.sub_0_r, Hz. replace (rc_cursor run + (rc_cursor run + len - rc_cursor run)) with (rc_cursor run + len) by lia.
  split_and!; try done; lia.
Qed.

Lemma budgeted_run_read_loop fuel file run a rest output :
  cursor_at file run (a ++ rest) -> (length a <= fuel)%nat ->
  budgeted (S := S) (run_read_loop fuel file run (zlen a) output)
    (fun r => fst r = output ++ a /\ cursor_at file (snd r) rest /\ same_run run (snd r) (zlen a)) (fun _ => 0).
Proof.
  revert run a output; induction fuel as [|fuel IH]; intros run a output Hc Hf; cbn [run_read_loop].
  { destruct a; [|simpl in Hf; lia]. apply budgeted_ret. rewrite app_nil_r. simpl.
    split_and!; try done. unfold same_run. split_and!; try done. lia. }
  apply budgeted_if; intros Hz; zbool.
  { destruct a; [|simpl in Hz; lia]. apply budgeted_ret. rewrite app_nil_r. simpl.
    split_and!; try done. unfold same_run. split_and!; try done. lia. }
  apply (budgeted_bind _ _ (fun run' => cursor_at file run' (a ++ rest) /\ same_run run run' 0 /\
            rc_buffer_position run' < zlen (rc_buffer run'))).
  { apply budgeted_if; intros Hp; zbool.
    - apply budgeted_refill; [done| |done]. intros [-> _]%app_nil. simpl in Hz. lia.
    - apply budgeted_ret. split_and!; [done| |]; [|destruct Hc as (_ & _ & _ & ? & _); lia].
      unfold same_run. split_and!; try done. lia. }
  intros run1 (Hc1 & Hsame & Hlt). cbv beta.
  destruct (id Hc1) as (Hrest & Hcap & Hmax & Hpos & Hend & Hbuf).
  set (available := zlen (rc_buffer run1) - rc_buffer_position run1) in *.
  apply (budgeted_bind _ _ (fun n => n = available)).
  { apply budgeted_lift. unfold sub_or_panic, checked_sub. by rewrite (proj2 (Z.leb_le _ _)) by lia. }
  intros ? ->. cbv beta zeta. set (copied := Z.min available (zlen a)).
  assert (0 < copied <= available /\ copied <= zlen a) as Hcopied by (unfold copied, available; lia).
  assert (take (Z.to_nat copied) (drop (Z.to_nat (rc_buffer_position run1)) (rc_buffer run1)) = take (Z.to_nat copied) a)
    as Htake.
  { apply slice_Some in Hbuf as [[? ?] Hbuf]. rewrite Hbuf. apply slice_Some in Hrest as [[? ?] Hrest].
    replace (take (Z.to_nat copied) a) with (take (Z.to_nat copied) (a ++ rest)) by (by rewrite take_app_le by lia).
    rewrite Hrest, !take_take. f_equal. lia. }
  apply (budgeted_bind _ _ (fun part => part = take (Z.to_nat copied) a)).
  { apply budgeted_lift, wp_or_panic; [apply slice_is_Some; unfold available in *; lia|].
    intros part [_ ->]%slice_Some. rewrite <- Htake. f_equal. lia. }
  intros ? ->. cbv beta. apply (budgeted_bind _ _ (fun n => n = copied)).
  { apply budgeted_lift, wp_ok_or. by intros n [-> _]%try_u64_Some. }
  intros ? ->. cbv beta. apply (budgeted_bind _ _ (fun n => n = rc_cursor run1 + copied)).
  { apply budgeted_lift, wp_ok_or. by intros n [-> _]%checked_add_Some. }
  intros ? ->. cbv beta.
  rewrite <- (take_drop (Z.to_nat copied) a) at 1.
  replace (zlen (take (Z.to_nat copied) a ++ drop (Z.to_nat copied) a) - copied) with (zlen (drop (Z.to_nat copied) a))
    by (rewrite length_app, length_take, length_drop; lia).
  eapply budgeted_mono; [apply IH| |done].
  - unfold cursor_at; simpl. split_and!; try done; try (unfold available in *; lia).
    + apply slice_Some in Hrest as [[? ?] Hrest]. apply slice_Some. split; [unfold available in *; lia|].
      rewrite <- (take_drop (Z.to_nat copied) a), <- app_assoc in Hrest.
      rewrite (f_equal (drop (Z.to_nat copied))  (eq_sym Hrest)) || idtac.
      assert (drop (Z.to_nat copied) (take (Z.to_nat copied) a ++ drop (Z.to_nat copied) a ++ rest) =
                drop (Z.to_nat copied) a ++ rest) as <- by (rewrite drop_app_length'; [done|rewrite length_take; lia]).
      rewrite Hrest, skipn_firstn_comm, drop_drop. f_equal; [lia|]. f_equal. lia.
    + pose proof (slice_Some (rc_buffer run1) (rc_buffer_position run1 + copied) (zlen (rc_buffer run1))) as _.
      apply slice_Some in Hbuf as [[? ?] Hbuf]. apply slice_Some. split; [unfold available in *; lia|].
      assert (drop (Z.to_nat (rc_buffer_position run1 + copied)) (rc_buffer run1) =
                drop (Z.to_nat copied) (drop (Z.to_nat (rc_buffer_position run1)) (rc_buffer run1))) as ->
        by (rewrite drop_drop; f_equal; lia).
      rewrite Hbuf, skipn_firstn_comm, drop_drop. unfold available in *. f_equal; [lia|]. f_equal. lia.
  - rewrite length_drop. lia.
  - intros [out run2] (-> & Hc2 & Hs2). simpl in *. rewrite <- app_assoc, take_drop. split_and!; try done.
    unfold same_run in *; simpl in *. destruct Hsame as (? & ? & ? & ?), Hs2 as (? & ? & ? & ?).
    rewrite length_drop in *. split_and!; try congruence. lia.
Qed.

Lemma budgeted_run_read_exact file run a rest len :
  cursor_at file run (a ++ rest) -> len = zlen a ->
  budgeted (S := S) (run_read_exact file run len)
    (fun r => fst r = a /\ cursor_at file (snd r) rest /\ same_run run (snd r) len) (fun _ => 0).
Proof.
  intros Hc ->. unfold run_read_exact. eapply budgeted_mono; [apply budgeted_run_read_loop; [exact Hc|lia]| |done].
  done.
Qed.

(** A record of the run, or its end. *)
Lemma budgeted_read_sort_record file run records maximum :
  cursor_reads file run records ->
  budgeted (S := S) (read_sort_record file run maximum) (fun r =>
    fst r = head records /\ cursor_reads file (snd r) (tail records)) (fun _ => 0).
Proof.
  intros (Hc & Hrem & Hord). unfold read_sort_record. apply budgeted_if; intros Hz; zbool.
  { destruct records; [|simpl in Hrem; lia]. budgeted_step. by apply budgeted_ret. }
  destruct records as [|r records]; [simpl in Hrem; lia|]. cbn [flat_map head tail] in *.
  apply Forall_cons in Hord as [Ho Hord]. unfold encode_record in Hc at 1. rewrite <- !app_assoc in Hc.
  assert (zlen (rr_normalized r) <= u64_max) as Hn.
  { destruct Hc as (Hs & _ & Hmax & _). pose proof (slice_length _ _ _ _ Hs) as Hz'.
    apply slice_Some in Hs as [[? ?] _]. rewrite !length_app in Hz'. lia. }
  cbv zeta. eapply budgeted_bind; [by apply budgeted_run_read_exact|]. intros [out run1] (Hout & Hc1 & Hs1).
  cbn [fst snd] in Hout, Hc1, Hs1. subst out. cbv beta iota. rewrite le_combine_split by (unfold u64_max in *; lia).
  apply (budgeted_bind _ _ (fun n => n = zlen (rr_normalized r))); [by apply budgeted_lift, wp_checked_usize|].
  intros ? ->. cbv beta. budgeted_step. budgeted_step. budgeted_step. budgeted_step.
  eapply budgeted_bind; [by apply budgeted_run_read_exact|]. intros [out run2] (Hout & Hc2 & Hs2).
  cbn [fst snd] in Hout, Hc2, Hs2. subst out. cbv beta iota.
  eapply budgeted_bind; [by apply budgeted_run_read_exact|]. intros [out run3] (Hout & Hc3 & Hs3).
  cbn [fst snd] in Hout, Hc3, Hs3. subst out. cbv beta iota. rewrite le_combine_split by (unfold is_u32, u32_max in *; lia).
  budgeted_step. unfold same_run in *.
  apply (budgeted_bind _ _ (fun n => n = zlen records)).
  { apply budgeted_lift. unfold sub_or_panic, checked_sub. rewrite (proj2 (Z.leb_le _ _)) by (simpl in Hrem; lia).
    simpl in *. lia. }
  intros ? ->. cbv beta. budgeted_step. apply budgeted_ret. simpl. split; [by destruct r|].
  split_and!; try done.
Qed.

(** A run whose header was read. *)
Definition run_opened (file : File) (run : RunCursor) (records : list RunRecord) : Prop :=
  slice file (rc_cursor run) (rc_end run) = Some (flat_map encode_record records) /\ rc_end run <= u64_max /\
  rc_buffer run = [] /\ rc_buffer_position run = 0 /\ rc_remaining run = zlen records /\
  rc_body_len run = zlen (flat_map encode_record records) /\ Forall (fun r => is_u32 (rr_ordinal r)) records.

Lemma budgeted_read_run_header file before records after :
  file = before ++ encode_run records ++ after -> run_ok records ->
  budgeted (S := S) (read_run_header file (zlen before)) (fun r =>
    run_opened file (fst r) records /\ snd r = zlen before + zlen (encode_run records)) (fun _ => 0).
Proof.
  intros Hfile [_ Hord Hbody Hcount]. unfold encode_run in Hfile.
  set (body := flat_map encode_record records) in *.
  assert (zlen (encode_run records) = 16 + zlen body) as Hz
    by (unfold encode_run, body; rewrite !length_app, !length_le_split; lia).
  unfold read_run_header. budgeted_step.
  eapply budgeted_bind; [apply budgeted_file_read_exact|]. intros b1 Hb1. cbv beta in Hb1 |- *.
  assert (b1 = le_split 8 (zlen body)) as ->.
  { rewrite Hfile, <- app_assoc in Hb1. pose proof (slice_app_mid before (le_split 8 (zlen body))
      ((le_split 8 (zlen records) ++ body) ++ after)) as Hm. rewrite length_le_split in Hm.
    change (Z.of_nat 8) with 8 in Hm. congruence. }
  cbv zeta. rewrite le_combine_split by (unfold u64_max in *; lia).
  eapply budgeted_bind; [apply budgeted_file_read_exact|]. intros b2 Hb2. cbv beta in Hb2 |- *.
  assert (b2 = le_split 8 (zlen records)) as ->.
  { pose proof (slice_app_mid (before ++ le_split 8 (zlen body)) (le_split 8 (zlen records)) (body ++ after)) as Hm.
    rewrite <- !app_assoc, length_app, !length_le_split in Hm.
    rewrite Hfile, <- !app_assoc in Hb2. rewrite Nat2Z.inj_add in Hm. change (Z.of_nat 8) with 8 in Hm. congruence. }
  rewrite le_combine_split by (unfold u64_max in *; lia).
  apply (budgeted_bind _ _ (fun n => n = zlen before + 16));
    [by apply budgeted_lift, wp_ok_or; intros n [-> _]%checked_add_Some|]. intros ? ->. cbv beta.
  apply (budgeted_bind _ _ (fun n => n = zlen before + 16 + zlen body /\ n <= u64_max));
    [by apply budgeted_lift, wp_ok_or; intros n [-> ?]%checked_add_Some|]. intros ? [-> Hle]. cbv beta.
  budgeted_step. budgeted_step. apply budgeted_ret. cbn [fst snd]. split; [unfold run_opened; simpl|lia].
  split_and!; try done.
  pose proof (slice_app_mid (before ++ le_split 8 (zlen body) ++ le_split 8 (zlen records)) body after) as Hm.
  rewrite <- !app_assoc, !length_app, !length_le_split in Hm. rewrite Hfile, <- !app_assoc.
  by replace (zlen before + 16) with (Z.of_nat (length before + (8 + 8))) by lia.
Qed.

Lemma wp_reserve_buffer file run records capacity :
  run_opened file run records -> 0 < capacity ->
  wp (reserve_buffer run capacity) (fun run' => cursor_reads file run' records /\
    rc_remaining run' = zlen records /\ rc_body_len run' = zlen (flat_map encode_record records)).
Proof.
  intros (Hs & Hmax & Hb & Hp & Hr & Hbody & Ho) Hcap. unfold reserve_buffer. apply wp_bind, wp_try_reserve_vec.
  apply slice_Some in Hs as Hs'. destruct Hs' as [[? ?] _].
  simpl. unfold cursor_reads, cursor_at; simpl. rewrite Hb, Hp. simpl. rewrite !Z.add_0_r.
  split_and!; try done; try lia. apply slice_Some. split; [lia|]. by rewrite Z.sub_diag.
Qed.

End SortProofs.
