(* ===== verification/MergeRuns.v ===== *)
(** The merge of [src/core/persistent/sort.rs]: [merge_runs] and the loops it
    consists of.  A pass merges groups of at most the fan-in; the final pass
    writes ordinals instead of runs. *)

From stdpp Require Import list_numbers sorting.
From S2P Require Import Prelude Errors Types Budget LocatorIndex IndexFormat Writers Scratch ExternalSort.

Section MergeRuns.

Context `{Env} `{BuildIo} {S : Type} `{HasWorld S}.

(** [MergeOutput::into_runs] *)
Definition into_runs (output : MergeOutput) : M S File :=
  match output with
  | OutRuns writer => buffered_into_file writer
  | OutOrder _ => merr (InvalidFormat "final order writer used for intermediate runs")
  end.

(** [MergeOutput::into_order] *)
Definition into_order (output : MergeOutput) : M S SectionFile :=
  match output with
  | OutOrder writer => into_section writer SecOrder
  | OutRuns _ => merr (InvalidFormat "intermediate run writer used for final order")
  end.

(** [<MergeOutput as Write>::write] *)
#[export] Instance merge_write : Write S MergeOutput := fun output input =>
  match output with
  | OutRuns writer => let! '(count, writer) := write writer input in mret (count, OutRuns writer)
  | OutOrder writer => let! '(count, writer) := write writer input in mret (count, OutOrder writer)
  end.

Context (options : KeyIndexOptions).

(** A section writer on a new scratch file. *)
Definition new_order_writer : M S SectionScratchWriter :=
  let! file := scratch_file in
  lift (section_writer_new file (scratch_write_buffer_bytes options) (chunk_bytes options)
          (ki_checksum_policy options)).

(** The loop of [merge_runs] that opens the runs of a group: the cursors, the
    sums of their lengths and counts, and where the next group starts. *)
Fixpoint open_group (n : nat) (input : File) (run_read_buffer_bytes : Z) (cursors : list RunCursor)
    (body_len row_count input_offset : Z) : M S (list RunCursor * Z * Z * Z) :=
  match n with
  | O => mret (cursors, body_len, row_count, input_offset)
  | Datatypes.S n =>
      let! '(cursor, next) := read_run_header input input_offset in
      let! cursor := lift (reserve_buffer cursor run_read_buffer_bytes) in
      let! body_len := lift (ok_or (checked_add body_len (rc_body_len cursor))
                               (InvalidFormat "merged run length overflow")) in
      let! row_count := lift (ok_or (checked_add row_count (rc_remaining cursor))
                                (InvalidFormat "merged run count overflow")) in
      open_group n input run_read_buffer_bytes (cursors ++ [cursor]) body_len row_count next
  end.

(** The loop that reads the first record of every run. *)
Fixpoint fill_heap (input : File) (cursors : list RunCursor) (run : Z) (heap : list HeapRecord)
    : M S (list RunCursor * list HeapRecord) :=
  match cursors with
  | [] => mret ([], heap)
  | cursor :: cursors =>
      let! '(record, cursor) := read_sort_record input cursor (build_memory_bytes options) in
      let heap := match record with
                  | Some record => {| hr_record := record; hr_run := run |} :: heap
                  | None => heap
                  end in
      let! '(cursors, heap) := fill_heap input cursors (run + 1) heap in
      mret (cursor :: cursors, heap)
  end.

(** The loop that empties the heap: the output and the number of rows. *)
Fixpoint drain_heap (fuel : nat) (input : File) (final_pass : bool) (cursors : list RunCursor)
    (heap : list HeapRecord) (output : MergeOutput) (written : Z) : M S (MergeOutput * Z) :=
  match heap_pop heap with
  | None => mret (output, written)
  | Some (item, heap) =>
      match fuel with
      | O => lift OutOfFuel
      | Datatypes.S fuel =>
          let! _ := check_cancelled "merging persistent key-index runs" in
          let! output := if final_pass then write_u32 output (rr_ordinal (hr_record item))
                         else write_run_record output (hr_record item) in
          let! written := lift (ok_or (checked_add written 1) (InvalidFormat "merged run count overflow")) in
          let run := hr_run item in
          let! cursor := lift (ok_or (get_at cursors run) (InvalidFormat "merge run index out of range")) in
          let! '(record, cursor) := read_sort_record input cursor (build_memory_bytes options) in
          let cursors := <[Z.to_nat run := cursor]> cursors in
          let heap := match record with
                      | Some record => {| hr_record := record; hr_run := run |} :: heap
                      | None => heap
                      end in
          drain_heap fuel input final_pass cursors heap output written
      end
  end.

(** One round of the loop over the groups: the output, where the next group
    starts, and the number of runs merged.  A round of the inner loop takes one
    of the [row_count] rows. *)
Definition merge_group (input : File) (final_pass : bool) (fan_in run_read_buffer_bytes : Z)
    (output : MergeOutput) (input_offset remaining_runs : Z) : M S (MergeOutput * Z * Z) :=
  let! _ := check_cancelled "merging persistent key-index runs" in
  let! group_len := lift (ok_or (try_usize (Z.min remaining_runs fan_in))
                            (InvalidFormat "key-index merge fan-in exceeds usize")) in
  let! _ := lift (try_reserve_vec 0 size_of_run_cursor group_len "key-index merge cursors") in
  let! '(cursors, body_len, row_count, input_offset) :=
    open_group (Z.to_nat group_len) input run_read_buffer_bytes [] 0 0 input_offset in
  let! output := if final_pass then mret output
                 else let! output := write_u64 output body_len in write_u64 output row_count in
  let! _ := lift (reserve_bytes "key-index merge heap" (saturating_mul group_len size_of_heap_record)) in
  let! '(cursors, heap) := fill_heap input cursors 0 [] in
  let! '(output, written) := drain_heap (Z.to_nat row_count) input final_pass cursors heap output 0 in
  let! _ := lift (ensure (written =? row_count) (InvalidFormat "merged run row-count mismatch")) in
  mret (output, input_offset, group_len).

(** The loop over the groups of a pass: the output and the number of runs it
    has. *)
Fixpoint merge_groups (fuel : nat) (input : File) (final_pass : bool) (fan_in run_read_buffer_bytes : Z)
    (output : MergeOutput) (input_offset remaining_runs next_run_count : Z) : M S (MergeOutput * Z) :=
  if remaining_runs <=? 0 then mret (output, next_run_count)
  else
    match fuel with
    | O => lift OutOfFuel
    | Datatypes.S fuel =>
        let! '(output, input_offset, group_len) :=
          merge_group input final_pass fan_in run_read_buffer_bytes output input_offset remaining_runs in
        let! remaining_runs := lift (ok_or (checked_sub remaining_runs group_len)
                                       (InvalidFormat "key-index merge run underflow")) in
        let! next_run_count := lift (ok_or (checked_add next_run_count 1)
                                       (InvalidFormat "key-index merge run count overflow")) in
        merge_groups fuel input final_pass fan_in run_read_buffer_bytes output input_offset remaining_runs
          next_run_count
    end.

(** The check of a finished order section. *)
Definition check_order_len (expected_rows : Z) (order : SectionFile) : M S SectionFile :=
  let! expected := lift (ok_or (checked_mul expected_rows 4)
                           (InvalidFormat "key-index order length overflow")) in
  let! _ := lift (ensure (sf_len order =? expected) (InvalidFormat "key-index order length mismatch")) in
  mret order.

(** The last loop of [merge_runs]: the ordinals of a single run. *)
Fixpoint copy_ordinals (fuel : nat) (input : File) (run : RunCursor) (order : SectionScratchWriter)
    : M S SectionScratchWriter :=
  let! '(record, run) := read_sort_record input run (build_memory_bytes options) in
  match record with
  | None => mret order
  | Some record =>
      match fuel with
      | O => lift OutOfFuel
      | Datatypes.S fuel =>
          let! _ := check_cancelled "writing persistent key-index order" in
          let! order := write_u32 order (rr_ordinal record) in
          copy_ordinals fuel input run order
      end
  end.

(** The end of [merge_runs], for a single run. *)
Definition finish_single_run (input : File) (expected_rows run_read_buffer_bytes : Z) : M S SectionFile :=
  let! '(run, next) := read_run_header input 0 in
  let! _ := file_operation in
  let! _ := lift (ensure ((next =? zlen input) && (rc_remaining run =? expected_rows))
                    (InvalidFormat "final key-index run shape mismatch")) in
  let! order := new_order_writer in
  let! run := lift (reserve_buffer run run_read_buffer_bytes) in
  let! order := copy_ordinals (Z.to_nat (rc_remaining run)) input run order in
  let! order := into_section order SecOrder in
  check_order_len expected_rows order.

(** The loop of [merge_runs] over the passes; a pass that is not the last
    leaves fewer runs. *)
Fixpoint merge_passes (fuel : nat) (input : File) (run_count expected_rows fan_in run_read_buffer_bytes : Z)
    : M S SectionFile :=
  if run_count <=? 1 then finish_single_run input expected_rows run_read_buffer_bytes
  else
    match fuel with
    | O => lift OutOfFuel
    | Datatypes.S fuel =>
        let final_pass := run_count <=? fan_in in
        let! output :=
          if final_pass then let! writer := new_order_writer in mret (OutOrder writer)
          else
            let! file := scratch_file in
            let! writer := lift (buffered_new file (scratch_write_buffer_bytes options)) in
            mret (OutRuns writer) in
        let! '(output, next_run_count) :=
          merge_groups (Z.to_nat run_count) input final_pass fan_in run_read_buffer_bytes output 0 run_count 0 in
        if final_pass
        then
          let! order := into_order output in
          let! _ := lift (ensure (next_run_count =? 1) (InvalidFormat "key-index order length mismatch")) in
          check_order_len expected_rows order
        else
          let! input := into_runs output in
          merge_passes fuel input next_run_count expected_rows fan_in run_read_buffer_bytes
    end.

(** The fan-in and the size of a read buffer. *)
Definition merge_plan (run_count maximum_record_bytes : Z) : Result (Z * Z) :=
  let? base_per_run := ok_or (checked_add maximum_record_bytes (size_of_run_cursor + size_of_heap_record + 64))
                         (InvalidFormat "key-index merge memory size overflow") in
  let? minimum_per_run := ok_or (checked_add base_per_run 1)
                            (InvalidFormat "key-index merge memory size overflow") in
  let? quotient := div_or_panic (build_memory_bytes options) minimum_per_run in
  let fan_in := Z.min quotient MAX_MERGE_FAN_IN in
  if (1 <? run_count) && (fan_in <? 2)
  then Err (LimitExceeded "key_index_build_memory_bytes" (or_u64_max (try_u64 (saturating_mul minimum_per_run 2)))
              (or_u64_max (try_u64 (build_memory_bytes options))))
  else
    let active_buffers := Z.min (or_u64_max (try_usize run_count)) (Z.max fan_in 1) in
    let buffer_budget := saturating_sub (build_memory_bytes options)
                           (saturating_mul base_per_run active_buffers) in
    let maximum_run_read_buffer := Z.min (chunk_bytes options) RUN_READ_BUFFER_BYTES in
    let? share := div_or_panic buffer_budget active_buffers in
    if maximum_run_read_buffer <? 1 then Panic "assertion failed: min <= max"
    else Ok (fan_in, Z.min (Z.max share 1) maximum_run_read_buffer).

(** [merge_runs] *)
Definition merge_runs (input : File) (run_count expected_rows maximum_record_bytes : Z) : M S SectionFile :=
  if run_count =? 0
  then
    let! _ := lift (ensure (expected_rows =? 0) (InvalidFormat "missing key-index sort runs")) in
    let! order := new_order_writer in
    into_section order SecOrder
  else
    let! '(fan_in, run_read_buffer_bytes) := lift (merge_plan run_count maximum_record_bytes) in
    merge_passes (Z.to_nat run_count) input run_count expected_rows fan_in run_read_buffer_bytes.

End MergeRuns.
