(* ===== verification/MergeProofs.v ===== *)
(** The merge of [MergeRuns] sorts: from a file of sorted runs it makes one
    order section with the ordinals of all their records, sorted, in however
    many passes. *)

From stdpp Require Import list_numbers sorting.
From S2P Require Import Prelude Errors Types Budget Checksum LocatorIndex IndexFormat Writers Scratch ExternalSort MergeRuns.

(** ** The heap *)

(** The first records of the runs, from run [k]. *)
Fixpoint heads (k : Z) (pending : list (list RunRecord)) : list HeapRecord :=
  match pending with
  | [] => []
  | [] :: pending => heads (k + 1) pending
  | (r :: _) :: pending => {| hr_record := r; hr_run := k |} :: heads (k + 1) pending
  end.

Lemma heads_app k l1 l2 : heads k (l1 ++ l2) = heads k l1 ++ heads (k + zlen l1) l2.
Proof.
  revert k; induction l1 as [|[|r rs] l1 IH]; intros k; cbn [app heads].
  - by rewrite Z.add_0_r.
  - rewrite IH. do 2 f_equal. simpl. lia.
  - rewrite IH. simpl. do 3 f_equal. lia.
Qed.

Lemma elem_of_heads k pending x :
  x ∈ heads k pending -> exists l1 rs l2, pending = l1 ++ (hr_record x :: rs) :: l2 /\ hr_run x = k + zlen l1.
Proof.
  revert k; induction pending as [|[|r rs] pending IH]; intros k Hx; cbn [heads] in Hx.
  - by apply elem_of_nil in Hx.
  - destruct (IH _ Hx) as (l1 & rs & l2 & -> & Hr). exists ([] :: l1), rs, l2. split; [done|]. simpl. lia.
  - apply elem_of_cons in Hx as [->|Hx].
    + exists [], rs, pending. simpl. split; [done|lia].
    + destruct (IH _ Hx) as (l1 & rs' & l2 & -> & Hr). exists ((r :: rs) :: l1), rs', l2. split; [done|]. simpl. lia.
Qed.

(** A record that is not greater than the heads is not greater than any. *)
Lemma heads_least k pending r :
  Forall (StronglySorted rec_le) pending -> Forall (fun h => rec_le r (hr_record h)) (heads k pending) ->
  Forall (rec_le r) (concat pending).
Proof.
  intros Hs; revert k; induction Hs as [|[|h rs] pending Hrun Hs IH]; intros k Hh; cbn [heads concat] in *; [done|..].
  - by apply (IH (k + 1)).
  - apply Forall_cons in Hh as [Hr Hh]. simpl in Hr. inversion Hrun as [|? ? Hrs Hall]; subst.
    apply Forall_app. split; [|by apply (IH (k + 1))]. constructor; [done|].
    eapply Forall_impl; [exact Hall|]. intros x Hx. by etrans.
Qed.

Lemma heap_pop_None heap : heap_pop heap = None -> heap = [].
Proof.
  destruct heap as [|x heap]; [done|]. cbn [heap_pop]. destruct (heap_pop heap) as [[y rest]|]; [|done].
  by destruct (heap_cmp y x).
Qed.

Lemma heap_cmp_le x y : heap_cmp y x <> Gt -> rec_le (hr_record x) (hr_record y).
Proof.
  unfold heap_cmp, rec_le. by destruct (compare_records (hr_record x) (hr_record y)).
Qed.

Lemma heap_cmp_ge x y : heap_cmp y x = Gt -> rec_le (hr_record y) (hr_record x).
Proof.
  unfold heap_cmp, rec_le. rewrite (compare_records_antisym (hr_record x)).
  by destruct (compare_records (hr_record x) (hr_record y)).
Qed.

(** [pop] takes a least record. *)
Lemma heap_pop_Some heap item rest :
  heap_pop heap = Some (item, rest) ->
  heap ≡ₚ item :: rest /\ Forall (fun h => rec_le (hr_record item) (hr_record h)) rest.
Proof.
  revert item rest; induction heap as [|x heap IH]; intros item rest Hp; cbn [heap_pop] in Hp; [done|].
  destruct (heap_pop heap) as [[y l]|] eqn:E.
  - destruct (IH y l eq_refl) as [Hperm Hle].
    assert (heap_cmp y x <> Gt -> Some (x, y :: l) = Some (item, rest) ->
      x :: heap ≡ₚ item :: rest /\ Forall (fun h => rec_le (hr_record item) (hr_record h)) rest) as Hge.
    { intros Hc%heap_cmp_le [= <- <-]. split; [by rewrite Hperm|]. constructor; [done|].
      eapply Forall_impl; [exact Hle|]. intros h Hh. by etrans. }
    destruct (heap_cmp y x) eqn:Ec; [by apply Hge|by apply Hge|].
    injection Hp as <- <-. split; [rewrite Hperm; apply perm_swap|]. constructor; [by apply heap_cmp_ge|done].
  - injection Hp as <- <-. by rewrite (heap_pop_None heap E).
Qed.

Lemma heads_nil k pending : heads k pending = [] -> concat pending = [].
Proof.
  revert k; induction pending as [|[|r rs] pending IH]; intros k; cbn [heads concat]; [done|apply IH|done].
Qed.

(** What [pop] takes is the head of a run that is not greater than any
    record. *)
Lemma heap_pop_head heap item rest pending :
  heap_pop heap = Some (item, rest) -> heap ≡ₚ heads 0 pending -> Forall (StronglySorted rec_le) pending ->
  exists l1 rs l2, pending = l1 ++ (hr_record item :: rs) :: l2 /\ hr_run item = zlen l1 /\
    rest ≡ₚ heads 0 l1 ++ heads (zlen l1 + 1) l2 /\ Forall (rec_le (hr_record item)) (concat pending).
Proof.
  intros Hp Hh Hs. destruct (heap_pop_Some _ _ _ Hp) as [Hperm Hle].
  assert (Forall (fun h => rec_le (hr_record item) (hr_record h)) heap) as Hall.
  { rewrite Hperm. constructor; [|done]. unfold rec_le, compare_records. by rewrite bytes_cmp_refl, Z.compare_refl. }
  rewrite Hh in Hall, Hperm. destruct (elem_of_heads 0 pending item) as (l1 & rs & l2 & E & Hr).
  { rewrite Hperm. apply list_elem_of_here. }
  exists l1, rs, l2. split_and!; [done|lia| |by eapply heads_least].
  rewrite E, heads_app in Hperm. cbn [heads] in Hperm. rewrite <- Hr in Hperm.
  replace {| hr_record := hr_record item; hr_run := hr_run item |} with item in Hperm by (by destruct item).
  rewrite Hr, <- Permutation_middle in Hperm. symmetry. by apply Permutation_cons_inv in Hperm.
Qed.

(** ** Outputs *)

(** An output that was given [data]. *)
Definition merge_written (cb : Z) (policy : ChecksumPolicy) (final_pass : bool) (output : MergeOutput)
    (data : list Z) : Prop :=
  match output with
  | OutRuns w => final_pass = false /\ buffered_written w data
  | OutOrder w => final_pass = true /\ section_written cb policy w data
  end.

(** What a pass writes for a merged run. *)
Definition encode_merged (final_pass : bool) (records : list RunRecord) : bytes :=
  if final_pass then encode_ordinals records else encode_run records.

Definition encode_rows (final_pass : bool) (records : list RunRecord) : bytes :=
  if final_pass then encode_ordinals records else flat_map encode_record records.

Lemma encode_ordinals_length records : zlen (encode_ordinals records) = 4 * zlen records.
Proof.
  unfold encode_ordinals. induction records as [|r records IH]; [done|]. cbn [flat_map].
  rewrite length_app, length_le_split. simpl in *. lia.
Qed.

Lemma encode_runs_app a b : encode_runs (a ++ b) = encode_runs a ++ encode_runs b.
Proof. apply flat_map_app. Qed.

Section MergeProofs.

Context `{Env} `{BuildIoOk} {S : Type} `{HasWorld S} (options : KeyIndexOptions).

#[local] Notation cb := (chunk_bytes options).

#[local] Notation policy := (ki_checksum_policy options).

Context (Hcb : 0 < cb <= u64_max).

#[local] Notation written := (merge_written cb policy).

#[export] Instance merge_write_ok final_pass : WriteOk (S := S) (written final_pass).
Proof.
  intros [w|w] data input [Hf Hw] Hin; unfold write, merge_write; simpl in Hw.
  - eapply budgeted_bind; [by apply (write_ok (written := buffered_written))|].
    intros [n w'] [Hn Hw']. cbv beta iota. by apply budgeted_ret.
  - eapply budgeted_bind; [by apply (write_ok (written := section_written cb policy))|].
    intros [n w'] [Hn Hw']. cbv beta iota. by apply budgeted_ret.
Qed.

Lemma budgeted_new_order_writer :
  budgeted (S := S) (new_order_writer options) (fun w => section_written cb policy w []) (fun _ => 0).
Proof.
  unfold new_order_writer. eapply budgeted_bind; [apply budgeted_scratch_file|]. intros file ->. cbv beta.
  apply budgeted_lift, wp_section_writer_new; [|done]. unfold scratch_write_buffer_bytes. lia.
Qed.

(** ** One group *)

Lemma budgeted_open_group group file before after capacity cursors done_ body_len row_count :
  file = before ++ encode_runs group ++ after -> Forall run_ok group -> 0 < capacity ->
  Forall2 (cursor_reads file) cursors done_ ->
  budgeted (S := S) (open_group (length group) file capacity cursors body_len row_count (zlen before))
    (fun '(cursors', body_len', row_count', offset') =>
       Forall2 (cursor_reads file) cursors' (done_ ++ group) /\
       body_len' = body_len + zlen (flat_map encode_record (concat group)) /\
       row_count' = row_count + zlen (concat group) /\
       (body_len' <= u64_max /\ row_count' <= u64_max \/ group = []) /\
       offset' = zlen before + zlen (encode_runs group)) (fun _ => 0).
Proof.
  intros Hfile Hok Hcap Hdone. revert before cursors done_ body_len row_count Hfile Hdone.
  induction Hok as [|run group Hrun Hok IH]; intros before cursors done_ body_len row_count Hfile Hdone;
    cbn [length open_group].
  { apply budgeted_ret. rewrite app_nil_r. cbn. split_and!; try done; try lia. by right. }
  cbn [encode_runs flat_map] in Hfile. fold (encode_runs group) in Hfile. rewrite <- app_assoc in Hfile.
  eapply budgeted_bind; [by apply (budgeted_read_run_header file before run (encode_runs group ++ after))|].
  intros [cursor next] (Hopen & Hnext). cbn [fst snd] in Hopen, Hnext. subst next. cbv beta iota.
  eapply budgeted_bind; [by apply budgeted_lift, (wp_reserve_buffer file cursor run)|].
  intros cursor' (Hreads & Hrem & Hbody). cbv beta. rewrite Hrem, Hbody.
  apply (budgeted_bind _ _ (fun n => n = body_len + zlen (flat_map encode_record run) /\ n <= u64_max));
    [by apply budgeted_lift, wp_ok_or; intros n [-> ?]%checked_add_Some|]. intros ? [-> Hb]. cbv beta.
  apply (budgeted_bind _ _ (fun n => n = row_count + zlen run /\ n <= u64_max));
    [by apply budgeted_lift, wp_ok_or; intros n [-> ?]%checked_add_Some|]. intros ? [-> Hr]. cbv beta.
  replace (zlen before + zlen (encode_run run)) with (zlen (before ++ encode_run run)) by (rewrite length_app; lia).
  eapply budgeted_mono; [apply (IH (before ++ encode_run run) _ (done_ ++ [run]))| |done].
  - by rewrite <- app_assoc.
  - apply Forall2_app; [done|]. by constructor.
  - intros [[[cursors' body_len'] row_count'] offset'] (Hc & -> & -> & Hle & ->).
    cbn [concat encode_runs flat_map]. fold (encode_runs group). rewrite flat_map_app, !length_app in *.
    rewrite <- app_assoc in Hc. split_and!; try done; try lia.
    left. destruct Hle as [[? ?]| ->]; [lia|]. simpl. lia.
Qed.

(** The cursors have read the heads. *)
Definition cursors_behind (file : File) : list RunCursor -> list (list RunRecord) -> Prop :=
  Forall2 (fun c rs => cursor_reads file c (tail rs)).

Lemma budgeted_fill_heap file cursors pending k heap :
  Forall2 (cursor_reads file) cursors pending ->
  budgeted (S := S) (fill_heap options file cursors k heap)
    (fun '(cursors', heap') => cursors_behind file cursors' pending /\ heap' ≡ₚ heads k pending ++ heap) (fun _ => 0).
Proof.
  intros Hc; revert k heap; induction Hc as [|cursor rs cursors pending Hcursor Hc IH]; intros k heap;
    cbn [fill_heap].
  { apply budgeted_ret. by split; [constructor|]. }
  eapply budgeted_bind; [by apply (budgeted_read_sort_record file cursor rs)|].
  intros [record cursor'] (Hr & Hcursor'). cbn [fst snd] in Hr, Hcursor'. cbv beta iota zeta.
  eapply budgeted_bind; [apply IH|]. intros [cursors' heap'] [Hcs Hheap]. cbv beta iota.
  apply budgeted_ret. split; [by constructor|]. rewrite Hheap, Hr.
  destruct rs as [|r rs]; cbn [head heads]; [done|]. simpl. by rewrite Permutation_middle.
Qed.

Lemma budgeted_drain_heap fuel file final_pass cursors pending heap output data n :
  cursors_behind file cursors pending -> heap ≡ₚ heads 0 pending -> Forall (StronglySorted rec_le) pending ->
  written final_pass output data -> (length (concat pending) <= fuel)%nat ->
  budgeted (S := S) (drain_heap options fuel file final_pass cursors heap output n)
    (fun '(output', n') => exists merged, merged ≡ₚ concat pending /\ StronglySorted rec_le merged /\
       n' = n + zlen merged /\ written final_pass output' (data ++ encode_rows final_pass merged)) (fun _ => 0).
Proof.
  revert cursors pending heap output data n;
    induction fuel as [|fuel IH]; intros cursors pending heap output data n Hc Hh Hs Hw Hf; cbn [drain_heap];
    destruct (heap_pop heap) as [[item rest]|] eqn:Ep.
  2, 4: (apply heap_pop_None in Ep; subst heap; symmetry in Hh; apply Permutation_nil_r, heads_nil in Hh;
    apply budgeted_ret; exists []; rewrite Hh; split_and!;
      [done|constructor|simpl; lia|by destruct final_pass; rewrite app_nil_r]).
  all: destruct (heap_pop_head _ _ _ _ Ep Hh Hs) as (l1 & rs & l2 & E & Hrun & Hrest & Hleast).
  { rewrite E, concat_app, length_app in Hf. simpl in Hf. lia. }
  set (r := hr_record item) in *. budgeted_step.
  apply (budgeted_bind _ _ (fun output' => written final_pass output' (data ++ encode_rows final_pass [r]))).
  { unfold encode_rows, encode_ordinals. destruct final_pass; cbn [flat_map]; rewrite app_nil_r.
    - by apply (budgeted_write_u32 (written true)).
    - by apply (budgeted_write_run_record (written false)). }
  intros output' Hw'. cbv beta. apply (budgeted_bind _ _ (fun m => m = n + 1));
    [by apply budgeted_lift, wp_ok_or; intros m [-> _]%checked_add_Some|]. intros ? ->. cbv beta zeta.
  rewrite E in Hc. apply Forall2_app_inv_r in Hc as (c1 & c2' & Hc1 & Hc2 & ->).
  apply Forall2_cons_inv_r in Hc2 as (cursor & c2 & Hcursor & Hc2 & ->). cbn [tail] in Hcursor.
  pose proof (Forall2_length _ _ _ Hc1) as Hlen.
  apply (budgeted_bind _ _ (fun c => c = cursor)).
  { apply budgeted_lift. rewrite Hrun. unfold get_at. rewrite (proj2 (Z.leb_le _ _)) by lia.
    rewrite Nat2Z.id, <- Hlen, list_lookup_middle by done. done. }
  intros ? ->. cbv beta. eapply budgeted_bind; [by apply (budgeted_read_sort_record file cursor rs)|].
  intros [record cursor'] (Hrecord & Hcursor'). cbn [fst snd] in Hrecord, Hcursor'. cbv beta iota zeta.
  eapply budgeted_mono; [apply (IH _ (l1 ++ rs :: l2) _ output' (data ++ encode_rows final_pass [r]))| |done].
  - rewrite Hrun, Nat2Z.id, <- Hlen, insert_app_r_alt, Nat.sub_diag by done. cbn.
    apply Forall2_app; [done|]. by constructor.
  - rewrite heads_app, Hrecord, Z.add_0_l. destruct rs as [|r' rs]; cbn [head heads]; [done|].
    rewrite Hrun, Hrest. by rewrite Permutation_middle.
  - rewrite E in Hs. apply Forall_app in Hs as [Hs1 [Hs2 Hs3]%Forall_cons]. apply Forall_app. split; [done|].
    constructor; [|done]. by inversion Hs2.
  - done.
  - rewrite E, concat_app, length_app in Hf. rewrite concat_app, length_app. simpl in *. lia.
  - intros [output'' n''] (merged & Hperm & Hsorted & -> & Hw''). exists (r :: merged). rewrite E.
    assert (concat (l1 ++ (r :: rs) :: l2) ≡ₚ r :: concat (l1 ++ rs :: l2)) as Hcat.
    { rewrite !concat_app. simpl. by rewrite <- Permutation_middle. }
    split_and!.
    + by rewrite Hcat, Hperm.
    + constructor; [done|]. rewrite Hperm. rewrite E, Hcat in Hleast. by apply Forall_cons in Hleast as [_ ?].
    + simpl. lia.
    + rewrite <- app_assoc in Hw''. unfold encode_rows, encode_ordinals in *.
      destruct final_pass; cbn [flat_map] in *; by rewrite app_nil_r in Hw''.
Qed.

(** ** Passes *)

(** The runs of a group, merged. *)
Definition merged_from (group : list (list RunRecord)) (merged : list RunRecord) : Prop :=
  merged ≡ₚ concat group /\ run_ok merged.

Lemma budgeted_merge_group file final_pass fan_in capacity output data before runs :
  file = before ++ encode_runs runs -> Forall run_ok runs -> 0 < capacity -> 0 < fan_in -> 0 < zlen runs ->
  written final_pass output data ->
  budgeted (S := S) (merge_group options file final_pass fan_in capacity output (zlen before) (zlen runs))
    (fun '(output', offset', group_len) => group_len = Z.min (zlen runs) fan_in /\
       offset' = zlen (before ++ encode_runs (take (Z.to_nat group_len) runs)) /\
       exists merged, merged_from (take (Z.to_nat group_len) runs) merged /\
         written final_pass output' (data ++ encode_merged final_pass merged)) (fun _ => 0).
Proof.
  intros Hfile Hok Hcap Hfan Hpos Hw. unfold merge_group. budgeted_step.
  set (len := Z.min (zlen runs) fan_in). assert (0 < len <= zlen runs) as Hlen by (unfold len; lia).
  apply (budgeted_bind _ _ (fun n => n = len));
    [by apply budgeted_lift, wp_ok_or; intros n [-> _]%try_usize_Some|]. intros ? ->. cbv beta. budgeted_step.
  set (group := take (Z.to_nat len) runs). set (others := drop (Z.to_nat len) runs).
  assert (runs = group ++ others) as Eruns by (by unfold group, others; rewrite take_drop).
  assert (length group = Z.to_nat len) as Hgroup by (unfold group; rewrite length_take; lia).
  rewrite Eruns in Hok. apply Forall_app in Hok as [Hok _].
  rewrite <- Hgroup. rewrite Eruns, encode_runs_app in Hfile.
  eapply budgeted_bind; [by apply (budgeted_open_group group file before (encode_runs others) capacity [] [])|].
  intros [[[cursors body_len] row_count] offset'] (Hc & -> & -> & Hmax & ->). cbv beta iota. rewrite app_nil_l in Hc.
  rewrite !Z.add_0_l in *.
  assert (zlen (flat_map encode_record (concat group)) <= u64_max /\ zlen (concat group) <= u64_max) as [Hbody Hcount].
  { destruct Hmax as [?|Hnil]; [done|]. rewrite Hnil in Hgroup. simpl in Hgroup. lia. }
  set (header := if final_pass then [] else le_split 8 (zlen (flat_map encode_record (concat group)))
                   ++ le_split 8 (zlen (concat group))).
  apply (budgeted_bind _ _ (fun output' => written final_pass output' (data ++ header))).
  { unfold header. destruct final_pass; [apply budgeted_ret; by rewrite app_nil_r|].
    eapply budgeted_bind; [by apply (budgeted_write_u64 (written false))|]. intros o1 Ho1. cbv beta in Ho1 |- *.
    rewrite app_assoc. by apply (budgeted_write_u64 (written false)). }
  intros output1 Hw1. cbv beta in Hw1 |- *. budgeted_step.
  eapply budgeted_bind; [by apply (budgeted_fill_heap file cursors group 0 [])|].
  intros [cursors' heap] [Hcs Hheap]. cbv beta iota. rewrite app_nil_r in Hheap.
  eapply budgeted_bind; [apply (budgeted_drain_heap _ file final_pass cursors' group heap output1 (data ++ header));
    [done|done| |done|lia]|].
  { eapply Forall_impl; [exact Hok|]. intros run Hrun. apply Hrun. }
  intros [output2 n] (merged & Hperm & Hsorted & -> & Hw2). cbv beta iota. budgeted_step. apply budgeted_ret.
  fold group. split_and!; [done|rewrite length_app; lia|]. exists merged.
  assert (flat_map encode_record merged ≡ₚ flat_map encode_record (concat group)) as Hflat
    by (by apply Permutation_flat_map).
  assert (merged_from group merged) as Hmerged.
  { split; [done|]. constructor; [done| | |].
    - rewrite Hperm. apply Forall_concat. eapply Forall_impl; [exact Hok|]. intros run Hrun. apply Hrun.
    - by rewrite Hflat.
    - by rewrite Hperm. }
  split; [done|]. rewrite <- app_assoc in Hw2. unfold encode_merged, encode_rows, header in *.
  destruct final_pass; [done|]. unfold encode_run. rewrite (Permutation_length Hflat), (Permutation_length Hperm). by rewrite <- app_assoc in Hw2.
Qed.

(** What a pass writes. *)
Definition encode_pass (final_pass : bool) (merged : list (list RunRecord)) : bytes :=
  flat_map (encode_merged final_pass) merged.

Lemma budgeted_merge_groups fuel file final_pass fan_in capacity output data before runs count :
  file = before ++ encode_runs runs -> Forall run_ok runs -> 0 < capacity -> 0 < fan_in ->
  written final_pass output data -> (length runs <= fuel)%nat ->
  budgeted (S := S) (merge_groups options fuel file final_pass fan_in capacity output (zlen before) (zlen runs) count)
    (fun '(output', count') => exists merged, concat merged ≡ₚ concat runs /\ Forall run_ok merged /\
       count' = count + zlen merged /\ (2 <= fan_in -> 2 * zlen merged <= zlen runs + 1) /\ (0 < zlen runs -> 0 < zlen merged) /\
       written final_pass output' (data ++ encode_pass final_pass merged)) (fun _ => 0).
Proof.
  revert output data before runs count; induction fuel as [|fuel IH];
    intros output data before runs count Hfile Hok Hcap Hfan Hw Hf; cbn [merge_groups];
    (apply budgeted_if; intros Hz; zbool;
     [destruct runs; [|simpl in Hz; lia]; apply budgeted_ret; exists []; split_and!; try done; simpl; try lia;
      by rewrite app_nil_r|]); [simpl in Hf; lia|].
  eapply budgeted_bind; [by apply (budgeted_merge_group file final_pass fan_in capacity output data before runs)|].
  intros [[output' offset'] len] (-> & -> & merged & [Hperm Hmerged] & Hw'). cbv beta iota.
  set (len := Z.min (zlen runs) fan_in) in *. assert (0 < len <= zlen runs) as Hlen by (unfold len; lia).
  apply (budgeted_bind _ _ (fun m => m = zlen (drop (Z.to_nat len) runs))).
  { apply budgeted_lift, wp_ok_or. intros m [-> _]%checked_sub_Some. rewrite length_drop. lia. }
  intros ? ->. cbv beta. apply (budgeted_bind _ _ (fun m => m = count + 1));
    [by apply budgeted_lift, wp_ok_or; intros m [-> _]%checked_add_Some|]. intros ? ->. cbv beta.
  eapply budgeted_mono; [apply (IH output' (data ++ encode_merged final_pass merged)
    (before ++ encode_runs (take (Z.to_nat len) runs)) (drop (Z.to_nat len) runs))| |done]; try done.
  - by rewrite <- app_assoc, <- encode_runs_app, take_drop.
  - by apply Forall_drop.
  - rewrite length_drop. lia.
  - intros [output'' count'] (others & Hperm' & Hok' & -> & Hcount & _ & Hw''). exists (merged :: others).
    cbn [concat]. split_and!.
    + rewrite Hperm, Hperm', <- concat_app, take_drop. done.
    + by constructor.
    + simpl. lia.
    + intros Htwo. specialize (Hcount Htwo). rewrite length_drop in Hcount. simpl. unfold len in *. lia.
    + simpl. lia.
    + cbn [encode_pass flat_map]. by rewrite <- app_assoc in Hw''.
Qed.

(** The order section of the records of [runs]. *)
Definition ordered (runs : list (list RunRecord)) (rows : Z) (section : SectionFile) : Prop :=
  exists sorted, sorted ≡ₚ concat runs /\ StronglySorted rec_le sorted /\ zlen sorted = rows /\
    section_holds SecOrder cb policy (encode_ordinals sorted) section.

Lemma budgeted_check_order_len runs sorted rows section :
  sorted ≡ₚ concat runs -> StronglySorted rec_le sorted ->
  section_holds SecOrder cb policy (encode_ordinals sorted) section ->
  budgeted (S := S) (check_order_len rows section) (ordered runs rows) (fun _ => 0).
Proof.
  intros Hperm Hsorted Hs. unfold check_order_len.
  apply (budgeted_bind _ _ (fun n => n = rows * 4));
    [by apply budgeted_lift, wp_ok_or; intros m [-> _]%checked_mul_Some|]. intros ? ->. cbv beta.
  apply (budgeted_bind _ _ (fun _ => sf_len section = rows * 4)); [apply budgeted_lift, wp_ensure; intros; by zbool|].
  intros [] Hlen. cbv beta. apply budgeted_ret. exists sorted. split_and!; try done.
  destruct Hs as (_ & _ & Hz & _). rewrite Hz, encode_ordinals_length in Hlen. lia.
Qed.

Lemma budgeted_copy_ordinals fuel file run records order data :
  cursor_reads file run records -> section_written cb policy order data -> (length records <= fuel)%nat ->
  budgeted (S := S) (copy_ordinals options fuel file run order)
    (fun order' => section_written cb policy order' (data ++ encode_ordinals records)) (fun _ => 0).
Proof.
  revert run records order data; induction fuel as [|fuel IH]; intros run records order data Hc Hw Hf;
    cbn [copy_ordinals];
    (eapply budgeted_bind; [by apply (budgeted_read_sort_record file run records)|]);
    intros [record run'] (Hr & Hc'); cbn [fst snd] in Hr, Hc'; cbv beta iota; rewrite Hr;
    (destruct records as [|r records]; cbn [head tail] in *; [apply budgeted_ret; by rewrite app_nil_r|]);
    [simpl in Hf; lia|].
  budgeted_step. eapply budgeted_bind; [by apply (budgeted_write_u32 (section_written cb policy))|].
  intros order' Hw'. cbv beta in Hw' |- *. cbn [encode_ordinals flat_map]. rewrite app_assoc.
  apply (IH run' records); [done|done|simpl in Hf; lia].
Qed.

Lemma budgeted_finish_single_run file run rows capacity :
  file = encode_runs [run] -> run_ok run -> 0 < capacity ->
  budgeted (S := S) (finish_single_run options file rows capacity) (ordered [run] rows) (fun _ => 0).
Proof.
  intros Hfile Hok Hcap. unfold finish_single_run.
  eapply budgeted_bind; [apply (budgeted_read_run_header file [] run []); [by rewrite Hfile|done]|].
  intros [cursor next] (Hopen & _). cbn [fst] in Hopen. cbv beta iota. budgeted_step. budgeted_step.
  eapply budgeted_bind; [apply budgeted_new_order_writer|]. intros order Hw. cbv beta.
  eapply budgeted_bind; [by apply budgeted_lift, (wp_reserve_buffer file cursor run)|].
  intros cursor' (Hreads & Hrem & _). cbv beta. rewrite Hrem, Nat2Z.id.
  eapply budgeted_bind; [by apply (budgeted_copy_ordinals _ file cursor' run order [])|]. intros order' Hw'. cbv beta.
  eapply budgeted_bind; [by apply (budgeted_into_section order' (encode_ordinals run) cb policy SecOrder)|]. intros section Hs. cbv beta.
  apply (budgeted_check_order_len _ run); [simpl; by rewrite app_nil_r|apply Hok|done].
Qed.

Lemma budgeted_merge_passes fuel file runs rows fan_in capacity :
  file = encode_runs runs -> Forall run_ok runs -> 0 < capacity -> 0 < zlen runs ->
  (1 < zlen runs -> 2 <= fan_in) -> (length runs <= fuel)%nat ->
  budgeted (S := S) (merge_passes options fuel file (zlen runs) rows fan_in capacity) (ordered runs rows) (fun _ => 0).
Proof.
  revert file runs; induction fuel as [|fuel IH]; intros file runs Hfile Hok Hcap Hpos Hfan Hf; [lia|].
  cbn [merge_passes]. apply budgeted_if; intros Hone; zbool.
  { destruct runs as [|run [|]]; try (simpl in *; lia). inversion Hok; subst. by apply budgeted_finish_single_run. }
  specialize (Hfan ltac:(lia)). set (final_pass := zlen runs <=? fan_in).
  apply (budgeted_bind _ _ (fun output => written final_pass output [])).
  { unfold final_pass. destruct (Z.leb_spec (zlen runs) fan_in).
    - eapply budgeted_bind; [apply budgeted_new_order_writer|]. intros w Hw. by apply budgeted_ret.
    - eapply budgeted_bind; [apply budgeted_scratch_file|]. intros file' ->. cbv beta.
      eapply budgeted_bind; [apply budgeted_lift, wp_buffered_new|].
      + unfold scratch_write_buffer_bytes. lia.
      + intros w Hw. by apply budgeted_ret. }
  intros output Hw. cbv beta. rewrite Nat2Z.id.
  eapply budgeted_bind; [apply (budgeted_merge_groups _ file final_pass fan_in capacity output [] [] runs 0);
    try done; lia|].
  intros [output' count] (merged & Hperm & Hmerged & -> & Hcount & Hne & Hw'). cbv beta iota. rewrite Z.add_0_l.
  specialize (Hcount Hfan). rewrite app_nil_l in Hw'.
  destruct final_pass; (destruct output' as [w|w]; destruct Hw' as [Hfp Hw']; [try done|try done]).
  - cbn [into_order]. eapply budgeted_bind; [eapply budgeted_into_section; exact Hw'|].
    intros section Hs. cbv beta.
    apply (budgeted_bind _ _ (fun _ => zlen merged = 1)); [apply budgeted_lift, wp_ensure; intros; by zbool|].
    intros [] Hsingle. cbv beta. destruct merged as [|m [|]]; try (simpl in Hsingle; lia).
    cbn [encode_pass flat_map encode_merged concat] in *. rewrite app_nil_r in *.
    apply (budgeted_check_order_len _ m); [done|by inversion Hmerged as [|? ? Hm]; apply Hm|done].
  - cbn [into_runs]. eapply budgeted_bind; [by apply budgeted_buffered_into_file|]. intros input ->. cbv beta.
    eapply budgeted_mono; [apply (IH _ merged)| |done]; try done; try lia.
    + intros section (sorted & Hs & Hrest). exists sorted. split; [|done]. by rewrite Hs.
Qed.

Lemma wp_merge_plan run_count maximum_record_bytes :
  0 < run_count -> 0 <= maximum_record_bytes ->
  wp (merge_plan options run_count maximum_record_bytes) (fun '(fan_in, capacity) =>
    0 < capacity /\ (1 < run_count -> 2 <= fan_in)).
Proof.
  intros Hr Hm. unfold merge_plan. apply wp_bind, wp_ok_or. intros per_run [-> _]%checked_add_Some.
  apply wp_bind, wp_ok_or. intros minimum [-> _]%checked_add_Some. cbv zeta.
  set (minimum := maximum_record_bytes + (size_of_run_cursor + size_of_heap_record + 64) + 1).
  assert (0 < minimum) by (unfold minimum, size_of_run_cursor, size_of_heap_record; lia).
  unfold div_or_panic. rewrite (proj2 (Z.eqb_neq minimum 0)) by lia. cbn [rbind].
  apply wp_if; intros Hfan; [done|].
  set (fan_in := Z.min (build_memory_bytes options / minimum) MAX_MERGE_FAN_IN) in *.
  set (active := Z.min (or_u64_max (try_usize run_count)) (Z.max fan_in 1)).
  assert (0 < active).
  { unfold active, or_u64_max, try_usize. destruct (_ <=? _); simpl; unfold u64_max; lia. }
  rewrite (proj2 (Z.eqb_neq active 0)) by lia. cbn [rbind].
  assert (1 <= Z.min cb RUN_READ_BUFFER_BYTES) as Hmax by (unfold RUN_READ_BUFFER_BYTES; lia).
  rewrite (proj2 (Z.ltb_ge _ _)) by lia. simpl. split; [lia|]. intros Hmany.
  rewrite (proj2 (Z.ltb_lt _ _) Hmany) in Hfan. rewrite andb_true_l in Hfan. by zbool.
Qed.

(** The external sort sorts. *)
Lemma budgeted_merge_runs file runs rows maximum_record_bytes :
  file = encode_runs runs -> Forall run_ok runs -> 0 <= maximum_record_bytes ->
  budgeted (S := S) (merge_runs options file (zlen runs) rows maximum_record_bytes) (ordered runs rows) (fun _ => 0).
Proof.
  intros Hfile Hok Hm. unfold merge_runs. apply budgeted_if; intros Hz; zbool.
  - destruct runs; [|simpl in Hz; lia].
    apply (budgeted_bind _ _ (fun _ => rows = 0)); [apply budgeted_lift, wp_ensure; intros; by zbool|].
    intros [] ->. cbv beta. eapply budgeted_bind; [apply budgeted_new_order_writer|]. intros w Hw. cbv beta in Hw |- *.
    eapply budgeted_mono; [eapply budgeted_into_section; exact Hw| |done]. intros section Hs. exists [].
    split_and!; try done. constructor.
  - eapply budgeted_bind; [apply budgeted_lift, (wp_merge_plan (zlen runs)); lia|].
    intros [fan_in capacity] [Hcap Hfan]. cbv beta iota. apply budgeted_merge_passes; try done; lia.
Qed.

End MergeProofs.
