(* ===== verification/IndexBuild.v ===== *)
(** Building a persistent key index: [src/core/persistent/build.rs].  The keys
    are read block by block; their normalized texts, bounds and digests go to
    three section writers and their order to an external sort. *)

From stdpp Require Import list_numbers sorting.
From S2P Require Import Prelude Errors Types Budget Logic Source Descriptors Header KeySection Format Normalize LocatorIndex Arcs Core Dictionary Keys CaseVariants IndexFormat Writers IndexWrite Scratch ExternalSort MergeRuns.

(** [BuildMetadataPlan] *)
Record BuildMetadataPlan := {
  mp_fixed_checksum_count : Z;
  mp_maximum_text_bytes : Z;
  mp_limit : Z;
}.

(** The local variables of [build_index]. *)
Record IndexBuilder := {
  bi_text : SectionScratchWriter;
  bi_bounds : SectionScratchWriter;
  bi_raw : SectionScratchWriter;
  bi_runs : BufferedScratchWriter;
  bi_buffer : SortBuffer;
  bi_buffer_bytes : Z;
  bi_maximum_record_bytes : Z;
  bi_run_count : Z;
  bi_normalized_text_len : Z;
  bi_built_rows : Z;
}.

Section IndexBuild.

Context `{Env} `{BuildIo}.

(** [build_metadata_plan] *)
Definition build_metadata_plan (rows : Z) (options : KeyIndexOptions) : Result BuildMetadataPlan :=
  let? chunk_bytes := ok_or (try_u64 (chunk_bytes options))
                        (InvalidFormat "key-index chunk length exceeds u64") in
  let? bounds_bytes := ok_or (count ← checked_add rows 1; checked_mul count 8)
                         (InvalidFormat "key-index bounds length overflow") in
  let? ordinal_bytes := ok_or (checked_mul rows 4) (InvalidFormat "key-index ordinal length overflow") in
  let? bounds_checksum_count := chunk_count bounds_bytes chunk_bytes in
  let? ordinal_checksum_count := chunk_count ordinal_bytes chunk_bytes in
  let? fixed_checksum_count :=
    ok_or (count ← checked_mul ordinal_checksum_count 2; checked_add count bounds_checksum_count)
      (InvalidFormat "key-index checksum count overflow") in
  let limit := or_u64_max (try_u64 (max_metadata_bytes options)) in
  let? available := ok_or (checked_sub limit HEADER_BYTES)
                      (LimitExceeded "key_index_metadata_bytes" HEADER_BYTES limit) in
  let checksum_slots := available / 4 in
  if checksum_slots <? fixed_checksum_count
  then
    let? required := ok_or (bytes ← checked_mul fixed_checksum_count 4; checked_add HEADER_BYTES bytes)
                       (InvalidFormat "key-index metadata length overflow") in
    Err (LimitExceeded "key_index_metadata_bytes" required limit)
  else
    Ok {| mp_fixed_checksum_count := fixed_checksum_count;
          mp_maximum_text_bytes :=
            or_u64_max (count ← checked_sub checksum_slots fixed_checksum_count; checked_mul count chunk_bytes);
          mp_limit := limit |}.

Context (f : MdictFile) (options : KeyIndexOptions).

(** [source_identity] *)
Definition source_identity : M CoreState KeyIndexSourceIdentity :=
  let! current := current_identity (mf_source f) in
  let! _ := lift (ensure (fi_len current =? fs_len (mf_source f))
                    (SourceChanged "reading key-index source identity")) in
  mret {| source_bytes := fi_len current; source_modified_unix_nanos := fi_modified_unix_nanos current;
          key_count := mdict_len f |}.

(** [ensure_source_unchanged] *)
Definition ensure_source_unchanged (expected : KeyIndexSourceIdentity) (operation : string)
    : M CoreState unit :=
  let! current := source_identity in
  lift (ensure (bool_decide (current = expected)) (SourceChanged operation)).

(** The planned size of a sort record: the bytes to reserve, the normalized
    length when it was computed, and the bytes of the record. *)
Definition plan_record (key : text) (single_limit : Z) : Result (Z * option Z * Z) :=
  let ascii_upper := checked_add (zlen key) size_of_arena_record in
  if is_ascii key && match ascii_upper with Some record_bytes => record_bytes <=? single_limit | None => false end
  then Ok (zlen key, None, default single_limit ascii_upper)
  else
    let? normalized_len := normalized_len (mf_normalizer f) key in
    let? record_bytes := ok_or (checked_add normalized_len size_of_arena_record)
                           (InvalidFormat "key-index sort record size overflow") in
    ensure (negb (single_limit <? record_bytes))
      (LimitExceeded "key_index_build_memory_bytes" (or_u64_max (try_u64 record_bytes))
         (or_u64_max (try_u64 single_limit))) ;;?
    Ok (normalized_len, Some normalized_len, record_bytes).

(** The sort buffer is written out before it outgrows half of the memory. *)
Definition flush_run (b : IndexBuilder) (planned_record_bytes : Z) : M CoreState IndexBuilder :=
  let! next_buffer := lift (ok_or (checked_add (bi_buffer_bytes b) planned_record_bytes)
                              (InvalidFormat "key-index sort buffer size overflow")) in
  if negb (sort_buffer_is_empty (bi_buffer b)) && (build_memory_bytes options / 2 <? next_buffer)
  then
    let! runs := write_sorted_run (bi_runs b) (bi_buffer b) in
    let! run_count := lift (ok_or (checked_add (bi_run_count b) 1)
                              (InvalidFormat "key-index run count overflow")) in
    mret {| bi_text := bi_text b; bi_bounds := bi_bounds b; bi_raw := bi_raw b; bi_runs := runs;
            bi_buffer := sort_buffer_clear (bi_buffer b); bi_buffer_bytes := 0;
            bi_maximum_record_bytes := bi_maximum_record_bytes b; bi_run_count := run_count;
            bi_normalized_text_len := bi_normalized_text_len b; bi_built_rows := bi_built_rows b |}
  else mret b.

(** The key is normalized into the arena of the sort buffer: the buffer, where
    the text starts and its length. *)
Definition normalize_record (buffer : SortBuffer) (key : text) (reserve_len : Z) (expected : option Z)
    : Result (SortBuffer * Z * Z) :=
  let? buffer := reserve_record buffer reserve_len (build_memory_bytes options) in
  let normalized_start := zlen (sb_normalized buffer) in
  let normalized := normalize_bytes_into (mf_normalizer f) key (sb_normalized buffer) in
  let? normalized_len := ok_or (checked_sub (zlen normalized) normalized_start)
                           (InvalidFormat "normalized key arena underflow") in
  ensure (negb match expected with Some expected => negb (normalized_len =? expected) | None => false end)
    (InvalidFormat "normalized key length changed during construction") ;;?
  ensure (negb (reserve_len <? normalized_len))
    (InvalidFormat "normalized key exceeded its reserved upper bound") ;;?
  Ok ({| sb_normalized := normalized; sb_records := sb_records buffer;
         sb_normalized_capacity := sb_normalized_capacity buffer;
         sb_records_capacity := sb_records_capacity buffer |}, normalized_start, normalized_len).

(** The checks on the size of a record and of the whole text: the bytes of the
    record and the new length of the text. *)
Definition check_record_size (plan : BuildMetadataPlan) (normalized_text_len normalized_len single_limit : Z)
    : Result (Z * Z) :=
  let? record_bytes := ok_or (checked_add normalized_len (size_of_run_record + 12))
                         (InvalidFormat "key-index sort record size overflow") in
  ensure (negb (single_limit <? record_bytes))
    (LimitExceeded "key_index_build_memory_bytes" (or_u64_max (try_u64 record_bytes))
       (or_u64_max (try_u64 single_limit))) ;;?
  let? len := ok_or (try_u64 normalized_len) (InvalidFormat "normalized key length exceeds u64") in
  let? next := ok_or (checked_add normalized_text_len len) (InvalidFormat "normalized text length overflow") in
  if mp_maximum_text_bytes plan <? next
  then
    let? chunk := ok_or (try_u64 (chunk_bytes options)) (InvalidFormat "key-index chunk length exceeds u64") in
    let? text_checksums := chunk_count next chunk in
    let? required :=
      ok_or (count ← checked_add (mp_fixed_checksum_count plan) text_checksums;
             bytes ← checked_mul count 4; checked_add HEADER_BYTES bytes)
        (InvalidFormat "key-index metadata length overflow") in
    Err (LimitExceeded "key_index_metadata_bytes" required (mp_limit plan))
  else Ok (record_bytes, next).

(** One round of the inner loop of [build_index]. *)
Definition build_entry (plan : BuildMetadataPlan) (block : KeyBlockDescriptor) (entry_index : Z)
    (entry : DecodedKeyRow) (b : IndexBuilder) : M CoreState IndexBuilder :=
  let! _ := if entry_index =? 0 then mret tt
            else check_cancelled "building persistent key index" in
  let! index := lift (ok_or (try_u64 entry_index) (InvalidFormat "key ordinal exceeds u64")) in
  let! ordinal := lift (ok_or (checked_add (entry_start_index block) index)
                          (InvalidFormat "key ordinal overflow")) in
  let! ordinal := lift (ok_or (try_u32 ordinal) (LimitExceeded "key_index_entries" ordinal u32_max)) in
  let key := row_key entry in
  let single_limit := build_memory_bytes options / 4 in
  let! '(reserve_len, expected, planned_record_bytes) := lift (plan_record key single_limit) in
  let! b := flush_run b planned_record_bytes in
  let! '(buffer, normalized_start, normalized_len) :=
    lift (normalize_record (bi_buffer b) key reserve_len expected) in
  let! '(record_bytes, next_normalized_text_len) :=
    lift (check_record_size plan (bi_normalized_text_len b) normalized_len single_limit) in
  let! text := write_all (bi_text b) (drop (Z.to_nat normalized_start) (sb_normalized buffer)) in
  let! bounds := write_u64 (bi_bounds b) next_normalized_text_len in
  let! raw := write_u32 (bi_raw b) (raw_digest key) in
  let! buffer_bytes := lift (ok_or (checked_add (bi_buffer_bytes b) planned_record_bytes)
                               (InvalidFormat "key-index sort buffer size overflow")) in
  let! built_rows := lift (ok_or (checked_add (bi_built_rows b) 1)
                             (InvalidFormat "key-index row count overflow")) in
  mret {| bi_text := text; bi_bounds := bounds; bi_raw := raw; bi_runs := bi_runs b;
          bi_buffer :=
            {| sb_normalized := sb_normalized buffer;
               sb_records := sb_records buffer ++
                 [{| ar_start := normalized_start; ar_len := normalized_len; ar_ordinal := ordinal |}];
               sb_normalized_capacity := sb_normalized_capacity buffer;
               sb_records_capacity := sb_records_capacity buffer |};
          bi_buffer_bytes := buffer_bytes;
          bi_maximum_record_bytes := Z.max (bi_maximum_record_bytes b) record_bytes;
          bi_run_count := bi_run_count b; bi_normalized_text_len := next_normalized_text_len;
          bi_built_rows := built_rows |}.

(** The inner loop of [build_index]. *)
Fixpoint build_entries (plan : BuildMetadataPlan) (block : KeyBlockDescriptor) (entry_index : Z)
    (entries : list DecodedKeyRow) (b : IndexBuilder) : M CoreState IndexBuilder :=
  match entries with
  | [] => mret b
  | entry :: entries =>
      let! b := build_entry plan block entry_index entry b in
      build_entries plan block (entry_index + 1) entries b
  end.

(** The block of the outer loop; a file that has changed is reported as
    such. *)
Definition decode_build_block (before : KeyIndexSourceIdentity) (block_index : Z)
    : M CoreState (Arc DecodedKeyBlock) :=
  let! result := attempt (decode_key_block f block_index) in
  match result with
  | inl entries => mret entries
  | inr error =>
      let! current := source_identity in
      if bool_decide (current = before) then merr error
      else merr (SourceChanged "building persistent key index")
  end.

(** One round of the outer loop of [build_index]. *)
Definition build_key_block (plan : BuildMetadataPlan) (before : KeyIndexSourceIdentity) (block_index : Z)
    (b : IndexBuilder) : M CoreState IndexBuilder :=
  let! entries := decode_build_block before block_index in
  with_arc entries (
    let! block := lift (ok_or (get_at (vl_key_blocks (mf_layout f)) block_index)
                          (InvalidFormat "key block index out of range")) in
    build_entries plan block 0 (kb_entries (arc_value entries)) b).

(** The outer loop of [build_index]. *)
Fixpoint build_key_blocks (plan : BuildMetadataPlan) (before : KeyIndexSourceIdentity)
    (block_indexes : list Z) (b : IndexBuilder) : M CoreState IndexBuilder :=
  match block_indexes with
  | [] => mret b
  | block_index :: block_indexes =>
      let! _ := check_cancelled "building persistent key index" in
      let! b := build_key_block plan before block_index b in
      build_key_blocks plan before block_indexes b
  end.

(** The section and run writers of [build_index]. *)
Definition new_section_writer : M CoreState SectionScratchWriter :=
  let! file := scratch_file in
  lift (section_writer_new file (scratch_write_buffer_bytes options) (chunk_bytes options)
          (ki_checksum_policy options)).

Definition index_builder_new : M CoreState IndexBuilder :=
  let! text := new_section_writer in
  let! bounds := new_section_writer in
  let! raw := new_section_writer in
  let! file := scratch_file in
  let! runs := lift (buffered_new file (scratch_write_buffer_bytes options)) in
  let! bounds := write_u64 bounds 0 in
  mret {| bi_text := text; bi_bounds := bounds; bi_raw := raw; bi_runs := runs;
          bi_buffer := sort_buffer_new; bi_buffer_bytes := 0;
          bi_maximum_record_bytes := size_of_run_record + 12; bi_run_count := 0;
          bi_normalized_text_len := 0; bi_built_rows := 0 |}.

(** The order section. *)
Definition build_order (b : IndexBuilder) : M CoreState SectionFile :=
  if bi_run_count b =? 0
  then
    let! order := new_section_writer in
    let! order := write_sorted_order order (bi_buffer b) in
    into_section order SecOrder
  else
    let! '(runs, run_count) :=
      if negb (sort_buffer_is_empty (bi_buffer b))
      then
        let! runs := write_sorted_run (bi_runs b) (bi_buffer b) in
        let! run_count := lift (ok_or (checked_add (bi_run_count b) 1)
                                  (InvalidFormat "key-index run count overflow")) in
        mret (runs, run_count)
      else mret (bi_runs b, bi_run_count b) in
    let! input := buffered_into_file runs in
    merge_runs options input run_count (mdict_len f) (bi_maximum_record_bytes b).

(** The end of [build_index]. *)
Definition finish_index (before : KeyIndexSourceIdentity) (b : IndexBuilder) : M CoreState BuiltIndex :=
  let! _ := lift (ensure (bi_built_rows b =? mdict_len f)
                    (InvalidFormat "key-index source row count mismatch")) in
  let! text := into_section (bi_text b) SecText in
  let! bounds := into_section (bi_bounds b) SecBounds in
  let! raw := into_section (bi_raw b) SecRaw in
  let! expected_bounds := lift (ok_or (count ← checked_add (mdict_len f) 1; checked_mul count 8)
                                  (InvalidFormat "key-index bounds length overflow")) in
  let! _ := lift (ensure (sf_len bounds =? expected_bounds)
                    (InvalidFormat "key-index physical section length mismatch")) in
  let! expected_raw := lift (ok_or (checked_mul (mdict_len f) 4)
                               (InvalidFormat "key-index raw length overflow")) in
  let! _ := lift (ensure (sf_len raw =? expected_raw)
                    (InvalidFormat "key-index physical section length mismatch")) in
  let! order := build_order b in
  let sections := [text; bounds; raw; order] in
  let! '(header, descriptors, total_len) :=
    lift (build_header sections before (bi_normalized_text_len b) options) in
  mret {| bx_header := header; bx_sections := sections; bx_descriptors := descriptors;
          bx_report := {| kb_source_identity := before; bytes_written := total_len |} |}.

(** [build_index] *)
Definition build_index : M CoreState BuiltIndex :=
  let! _ := lift (validate_options options) in
  let! _ := lift (ensure (bool_decide (mf_kind f = Mdx)) (Unsupported "persistent key indexes for MDD")) in
  let! _ := lift (ensure (negb (u32_max <? mdict_len f))
                    (LimitExceeded "key_index_entries" (mdict_len f) u32_max)) in
  let! before := source_identity in
  let! plan := lift (build_metadata_plan (mdict_len f) options) in
  let! b := index_builder_new in
  let! b := build_key_blocks plan before (seqZ 0 (key_block_count f)) b in
  finish_index before b.

(** [build_to_writer] and [MdxFile::build_key_index]: the report and the
    destination. *)
Definition build_to_writer (destination : Sink) : M CoreState (KeyIndexBuild * Sink) :=
  let! built := build_index in
  let! destination := write_built_index built destination (chunk_bytes options) in
  let! _ := ensure_source_unchanged (kb_source_identity (bx_report built)) "building persistent key index" in
  mret (bx_report built, destination).

(** [build_to_path] and [MdxFile::build_key_index_to_path]: the report and the
    content of the new file. *)
Definition build_to_path : M CoreState (KeyIndexBuild * File) :=
  let! built := build_index in
  let! _ := file_operation in
  let! destination := write_built_index built {| sk_content := []; sk_position := 0 |} (chunk_bytes options) in
  let! _ := file_operation in
  let! _ := file_operation in
  let! _ := ensure_source_unchanged (kb_source_identity (bx_report built)) "building persistent key index" in
  mret (bx_report built, sk_content destination).

End IndexBuild.
