(* ===== verification/IndexBuildProofs.v ===== *)
(** What [IndexBuild] builds: the four sections hold the index of the
    dictionary's keys, the same that [LocatorIndex] describes. *)

From stdpp Require Import list_numbers sorting.
From S2P Require Import Prelude Errors Types Budget Logic Utf8 Encoding Checksum Source Descriptors Header KeySection Format Normalize LocatorIndex Arcs Core Dictionary Keys Iter Locator CaseVariants IndexFormat Writers IndexWrite Scratch ExternalSort MergeRuns MergeProofs IndexBuild.

(** The bytes of a list of numbers. *)
Definition words_of (width : nat) (values : list Z) : bytes := flat_map (le_split width) values.

Lemma words_of_app width a b : words_of width (a ++ b) = words_of width a ++ words_of width b.
Proof. apply flat_map_app. Qed.

Lemma length_words_of width values : zlen (words_of width values) = Z.of_nat width * zlen values.
Proof.
  unfold words_of. induction values as [|v values IH]; [simpl; lia|]. cbn [flat_map].
  rewrite length_app, length_le_split. simpl in *. lia.
Qed.

Lemma words_of_ok width values : bytes_ok (words_of width values).
Proof.
  unfold words_of. induction values as [|v values IH]; [constructor|]. cbn [flat_map].
  apply bytes_ok_app. split; [apply le_split_ok|done].
Qed.

Lemma encode_ordinals_words records : encode_ordinals records = words_of 4 (map rr_ordinal records).
Proof.
  unfold encode_ordinals, words_of. induction records as [|r records IH]; [done|]. cbn [flat_map map]. by rewrite IH.
Qed.

Section Records.

Context `{Env} (n : KeyNormalizer).

(** The sort record of a row. *)
Definition key_record (keys : list text) (row : Z) : RunRecord :=
  {| rr_normalized := normalized_row n keys row; rr_ordinal := row |}.

Definition keys_records (keys : list text) : list RunRecord := map (key_record keys) (seqZ 0 (zlen keys)).

Lemma keys_records_snoc keys key :
  keys_records (keys ++ [key]) =
  keys_records keys ++ [{| rr_normalized := normalized n key; rr_ordinal := zlen keys |}].
Proof.
  unfold keys_records. rewrite length_app. simpl.
  replace (Z.of_nat (length keys + 1)) with (zlen keys + 1) by lia.
  rewrite seqZ_app by lia. rewrite map_app. f_equal.
  - apply map_ext_in. intros i Hi%list_elem_of_In%elem_of_seqZ. unfold key_record, normalized_row, get_at.
    rewrite (proj2 (Z.leb_le _ _)), lookup_app_l by lia. done.
  - rewrite seqZ_cons by lia. rewrite Z.add_0_l. cbn [map]. rewrite seqZ_nil by lia. cbn [map].
    unfold key_record, normalized_row, get_at.
    rewrite (proj2 (Z.leb_le _ _)), lookup_app_r by lia. by rewrite Nat2Z.id, Nat.sub_diag.
Qed.

Lemma row_le_records keys i j : row_le n keys i j <-> rec_le (key_record keys i) (key_record keys j).
Proof.
  unfold row_le, rec_le, compare_records, key_record; simpl.
  destruct (bytes_cmp _ _) eqn:E.
  - apply bytes_cmp_eq in E. rewrite E. destruct (Z.compare_spec i j); naive_solver lia.
  - naive_solver.
  - assert (normalized_row n keys i <> normalized_row n keys j)
      by (intros E'; rewrite E', bytes_cmp_refl in E; done). naive_solver.
Qed.

(** The sorted records are the rows in the order of the index. *)
Lemma sorted_order keys sorted :
  sorted ≡ₚ keys_records keys -> StronglySorted rec_le sorted ->
  map rr_ordinal sorted ≡ₚ seqZ 0 (zlen keys) /\ StronglySorted (row_le n keys) (map rr_ordinal sorted).
Proof.
  intros Hp Hs. split.
  { rewrite Hp. unfold keys_records. by rewrite map_map, map_id. }
  assert (Forall (fun r => r = key_record keys (rr_ordinal r)) sorted) as Hall.
  { rewrite Hp. unfold keys_records. apply Forall_map, Forall_forall. by intros i _. }
  clear Hp. induction Hs as [|r sorted Hs IH Hr]; simpl; [constructor|]. apply Forall_cons in Hall as [E Hall].
  constructor; [by apply IH|]. apply Forall_map, Forall_forall. intros x Hx. rewrite Forall_forall in Hr, Hall.
  apply row_le_records. rewrite <- E, <- (Hall x Hx). by apply Hr.
Qed.

End Records.

Section BuildProofs.

Context `{EnvOk} `{BuildIoOk} (f : MdictFile) (Hf : file_ok f) (options : KeyIndexOptions).

#[local] Notation max := (working_memory_bytes (mf_limits f)).
#[local] Notation n := (mf_normalizer f).
#[local] Notation cb := (chunk_bytes options).
#[local] Notation policy := (ki_checksum_policy options).

Context (Hcb : 0 < cb <= u64_max).

(** The builder has processed [keys]. *)
Record builder_ok (keys : list text) (b : IndexBuilder) : Prop := {
  bo_text : section_written cb policy (bi_text b) (arena n keys);
  bo_bounds : section_written cb policy (bi_bounds b) (words_of 8 (offsets_from n 0 keys));
  bo_raw : section_written cb policy (bi_raw b) (words_of 4 (map raw_digest keys));
  bo_runs : exists runs, buffered_written (bi_runs b) (encode_runs runs) /\ Forall run_ok runs /\
    bi_run_count b = zlen runs /\ concat runs ++ buffer_records (bi_buffer b) ≡ₚ keys_records n keys;
  bo_buffer : buffer_ok (bi_buffer b);
  bo_arena : zlen (sb_normalized (bi_buffer b)) <= zlen (arena n keys) <= u64_max;
  bo_text_len : bi_normalized_text_len b = zlen (arena n keys);
  bo_record_bytes : 0 <= bi_maximum_record_bytes b;
  bo_rows : bi_built_rows b = zlen keys;
}.

Lemma budgeted_flush_run keys b planned :
  builder_ok keys b ->
  budgeted (flush_run options b planned) (builder_ok keys) (fun _ => 0).
Proof.
  intros [Ht Hb Hr (runs & Hw & Hok & Hcount & Hperm) Hbuf Ha Hl Hm Hrows]. unfold flush_run. budgeted_step.
  apply budgeted_if; intros _; [|apply budgeted_ret; constructor; try done; by exists runs].
  eapply budgeted_bind; [by apply (budgeted_write_sorted_run buffered_written)|].
  intros runs' [Hw' Hrun]. cbv beta.
  apply (budgeted_bind _ _ (fun c => c = bi_run_count b + 1));
    [by apply budgeted_lift, wp_ok_or; intros c [-> _]%checked_add_Some|]. intros ? ->. cbv beta.
  apply budgeted_ret. constructor; simpl; try done.
  - exists (runs ++ [sorted_records (bi_buffer b)]). rewrite encode_runs_app, concat_app, length_app. cbn.
    rewrite !app_nil_r. split_and!; [done| |lia|].
    + apply Forall_app. split; [done|]. by constructor.
    + by rewrite sorted_records_Permutation.
  - pose proof (Zle_0_nat (length (arena n keys))). lia.
Qed.

Lemma wp_plan_record key single_limit : wp (plan_record f key single_limit) (fun _ => True).
Proof.
  unfold plan_record. apply wp_if; intros _; [done|]. apply wp_bind.
  eapply wp_mono; [apply wp_normalized_len|]. intros len _. cbv beta. by wp_steps.
Qed.

Lemma wp_normalize_record buffer key reserve_len expected :
  wp (normalize_record f options buffer key reserve_len expected) (fun '(buffer', start, len) =>
    sb_normalized buffer' = sb_normalized buffer ++ normalized n key /\ sb_records buffer' = sb_records buffer /\
    start = zlen (sb_normalized buffer) /\ len = zlen (normalized n key)).
Proof.
  unfold normalize_record, reserve_record. apply wp_bind, wp_bind, wp_try_reserve_vec.
  apply wp_bind, wp_try_reserve_vec. apply wp_bind. unfold allocated_bytes. apply wp_ok_or. intros allocated _.
  apply wp_bind, wp_ensure. intros _. cbn [rbind wp sb_normalized]. apply wp_bind, wp_ok_or.
  rewrite normalize_bytes_into_spec, length_app. intros len [-> _]%checked_sub_Some.
  apply wp_bind, wp_ensure. intros _. apply wp_bind, wp_ensure. intros _. simpl. split_and!; try done. lia.
Qed.

Lemma wp_check_record_size plan text_len len single_limit :
  0 <= len ->
  wp (check_record_size options plan text_len len single_limit) (fun '(record_bytes, next) =>
    0 <= record_bytes /\ next = text_len + len /\ next <= u64_max).
Proof.
  intros Hl. unfold check_record_size. apply wp_bind, wp_ok_or. intros rb [-> _]%checked_add_Some.
  apply wp_bind, wp_ensure. intros _. apply wp_bind, wp_ok_or. intros l [-> _]%try_u64_Some.
  apply wp_bind, wp_ok_or. intros next [-> ?]%checked_add_Some.
  apply wp_if; intros _; [|simpl; unfold size_of_run_record; lia].
  apply wp_bind, wp_ok_or. intros chunk _. apply wp_bind. eapply wp_mono; [apply chunk_count_safe|]. intros c _.
  by apply wp_bind, wp_ok_or.
Qed.

(** A record appended to the sort buffer. *)
Lemma buffer_push buffer buffer' key ordinal :
  buffer_ok buffer -> is_u32 ordinal ->
  sb_normalized buffer' = sb_normalized buffer ++ key ->
  sb_records buffer' = sb_records buffer ++
    [{| ar_start := zlen (sb_normalized buffer); ar_len := zlen key; ar_ordinal := ordinal |}] ->
  zlen (sb_normalized buffer') <= u64_max ->
  buffer_ok buffer' /\
  buffer_records buffer' = buffer_records buffer ++ [{| rr_normalized := key; rr_ordinal := ordinal |}].
Proof.
  intros [Hok Hz] Ho En Er Hmax. split.
  - split; [|done]. rewrite Er, En, length_app. apply Forall_app. split.
    + eapply Forall_impl; [exact Hok|]. simpl. intros r (? & ? & ? & ?). split_and!; try done; lia.
    + constructor; [|done]. simpl. split_and!; try apply Ho; lia.
  - unfold buffer_records. rewrite Er, map_app. cbn [map]. f_equal.
    + apply map_ext_in. intros r Hr%list_elem_of_In. rewrite Forall_forall in Hok. destruct (Hok r Hr) as (? & ? & ? & _).
      unfold run_record. rewrite En. f_equal.
      destruct (slice_is_Some (sb_normalized buffer) (ar_start r) (ar_start r + ar_len r)) as [k Hk]; [lia|lia|].
      by rewrite Hk, (slice_app_left _ _ _ _ _ Hk).
    + unfold run_record; simpl. rewrite En. pose proof (slice_app_mid (sb_normalized buffer) key []) as Hm.
      rewrite app_nil_r in Hm. by rewrite Hm.
Qed.

Lemma budgeted_build_entry plan block entry_index entry keys b :
  builder_ok keys b -> zlen keys = entry_start_index block + entry_index ->
  budgeted (build_entry f options plan block entry_index entry b) (builder_ok (keys ++ [row_key entry])) (fun _ => 0).
Proof.
  intros Hb Hpos. unfold build_entry.
  apply (budgeted_bind _ _ (fun _ => True));
    [apply budgeted_if; intros _; [by apply budgeted_ret|apply budgeted_check_cancelled]|]. intros [] _. cbv beta.
  apply (budgeted_bind _ _ (fun i => i = entry_index));
    [by apply budgeted_lift, wp_ok_or; intros i [-> _]%try_u64_Some|]. intros ? ->. cbv beta.
  apply (budgeted_bind _ _ (fun o => o = zlen keys));
    [by apply budgeted_lift, wp_ok_or; intros o [-> _]%checked_add_Some|]. intros ? ->. cbv beta.
  apply (budgeted_bind _ _ (fun o => o = zlen keys /\ is_u32 o)).
  { apply budgeted_lift, wp_ok_or. intros o [-> ?]%try_u32_Some. split; [done|]. unfold is_u32. lia. }
  intros ? [-> Ho]. cbv beta zeta. eapply budgeted_bind; [apply budgeted_lift, wp_plan_record|].
  intros [[reserve_len expected] planned] _. cbv beta iota.
  eapply budgeted_bind; [by apply (budgeted_flush_run keys)|]. clear b Hb. intros b Hb. cbv beta.
  eapply budgeted_bind; [apply budgeted_lift, wp_normalize_record|].
  intros [[buffer start] len] (En & Er & -> & ->). cbv beta iota.
  eapply budgeted_bind; [apply budgeted_lift, wp_check_record_size; lia|]. intros [record_bytes next] (Hrb & -> & Hnext).
  cbv beta iota. destruct Hb as [Ht Hbd Hr (runs & Hw & Hok & Hcount & Hperm) Hbuf Ha Hl Hm Hrows].
  rewrite Hl in *.
  assert (drop (Z.to_nat (zlen (sb_normalized (bi_buffer b)))) (sb_normalized buffer) = normalized n (row_key entry))
    as -> by (by rewrite En, Nat2Z.id, drop_app_length).
  assert (zlen (arena n (keys ++ [row_key entry])) = zlen (arena n keys) + zlen (normalized n (row_key entry))) as Hz
    by (rewrite arena_snoc, length_app; lia).
  eapply budgeted_bind; [by apply (budgeted_write_all (section_written cb policy))|]. intros text Htext. cbv beta.
  eapply budgeted_bind; [by apply (budgeted_write_u64 (section_written cb policy))|]. intros bounds Hbounds. cbv beta.
  eapply budgeted_bind; [by apply (budgeted_write_u32 (section_written cb policy))|]. intros raw Hraw. cbv beta.
  apply (budgeted_bind _ _ (fun _ => True)); [by apply budgeted_lift, wp_ok_or|]. intros buffer_bytes _. cbv beta.
  apply (budgeted_bind _ _ (fun r => r = zlen keys + 1));
    [apply budgeted_lift, wp_ok_or; intros r [-> _]%checked_add_Some; lia|]. intros ? ->. cbv beta.
  apply budgeted_ret.
  match goal with |- builder_ok _ {| bi_buffer := ?v |} => set (buffer' := v) end.
  destruct (buffer_push (bi_buffer b) buffer' (normalized n (row_key entry)) (zlen keys)) as [Hok' Hrec']; try done.
  { unfold buffer'; simpl. by rewrite Er. }
  { unfold buffer'; simpl. rewrite En, length_app. lia. }
  constructor; simpl; try done.
  - by rewrite arena_snoc.
  - rewrite offsets_from_snoc, words_of_app, Hz, Z.add_0_l. cbn [words_of flat_map]. by rewrite app_nil_r.
  - rewrite map_app, words_of_app. cbn [map words_of flat_map]. by rewrite app_nil_r.
  - exists runs. split_and!; try done. by rewrite Hrec', keys_records_snoc, app_assoc, Hperm.
  - rewrite En, length_app. lia.
  - lia.
  - rewrite length_app. simpl. lia.
Qed.

Lemma budgeted_build_entries plan block entry_index entries keys b :
  builder_ok keys b -> zlen keys = entry_start_index block + entry_index ->
  budgeted (build_entries f options plan block entry_index entries b)
    (builder_ok (keys ++ map row_key entries)) (fun _ => 0).
Proof.
  revert entry_index keys b; induction entries as [|entry entries IH]; intros entry_index keys b Hb Hpos;
    cbn [build_entries map].
  { apply budgeted_ret. by rewrite app_nil_r. }
  eapply budgeted_bind; [by apply budgeted_build_entry|]. intros b' Hb'. cbv beta.
  specialize (IH (entry_index + 1) (keys ++ [row_key entry]) b' Hb'). rewrite <- app_assoc in IH. apply IH.
  rewrite length_app. simpl. lia.
Qed.

(** The identity of a stable file. *)
Definition identity_now (identity : KeyIndexSourceIdentity) : Prop :=
  source_bytes identity = fs_len (mf_source f) /\ key_count identity = mdict_len f /\
  forall content modified, stable (mf_source f) content modified ->
    source_modified_unix_nanos identity = modified.

Lemma budgeted_source_identity : budgeted (source_identity f) identity_now (fun _ => 0).
Proof.
  unfold source_identity, current_identity.
  apply (budgeted_bind _ _ (fun current => forall content modified, stable (mf_source f) content modified ->
            fi_modified_unix_nanos current = modified)).
  { eapply (budgeted_bind _ _ (fun st => forall content modified, stable (mf_source f) content modified ->
              fc_modified st = modified)).
    - apply budgeted_access. intros t st Ht content modified [_ Hst]. rewrite Hst in Ht. by injection Ht as <-.
    - intros st Hst. by apply budgeted_ret. }
  intros current Hcur. cbv beta.
  apply (budgeted_bind _ _ (fun _ => fi_len current = fs_len (mf_source f)));
    [apply budgeted_lift, wp_ensure; intros; by zbool|]. intros [] Hlen. cbv beta. by apply budgeted_ret.
Qed.

(** The rows of the first [i] blocks are built. *)
Definition blocks_built (i : nat) (blocks : list (list DecodedKeyRow)) (b : IndexBuilder) : Prop :=
  builder_ok (map row_key (concat blocks)) b /\ Forall (fun row => text_ok (row_key row)) (concat blocks) /\
  consecutive entry_start_index entry_count 0 (take i (vl_key_blocks (mf_layout f))) (zlen (concat blocks)) /\
  forall content modified, stable (mf_source f) content modified ->
    Forall2 (fun block rows => block_rows f content block = Ok rows)
      (take i (vl_key_blocks (mf_layout f))) blocks.

Lemma acquires_decode_build_block before i :
  acquires max (contracts f) (decode_build_block f before i) (cached_key_block_at f i).
Proof.
  intros base hs. unfold decode_build_block.
  eapply triple_bind; [apply triple_attempt, (acquires_decode_key_block f Hf i base hs)|].
  intros [entries|error] Hent; cbv beta iota; [by apply triple_ret; [|lia|done]|].
  eapply triple_bind; [apply (keeps_budgeted max (contracts f)), budgeted_source_identity|].
  intros current _. cbv beta. destruct (bool_decide _); apply triple_err.
Qed.

Lemma keeps_build_block plan before (i : nat) blocks b :
  blocks_built i blocks b ->
  keeps max (contracts f) (build_key_block f options plan before (Z.of_nat i) b)
    (fun b' => exists blocks', blocks_built (Datatypes.S i) blocks' b').
Proof.
  intros (Hb & Ht & Hc & Hst). unfold build_key_block. eapply keeps_with_arc; [apply acquires_decode_build_block|].
  intros entries [(block & Hblk & (Hlen & Hrows & _) & _ & Hsrows) _]. cbv beta.
  apply (keeps_bind _ _ _ _ (fun blk => blk = block)); [apply keeps_lift, wp_ok_or; intros; congruence|].
  intros ? ->. cbv beta. apply get_at_lookup in Hblk as [Hlk _]. rewrite Nat2Z.id in Hlk.
  assert (zlen (concat blocks) = entry_start_index block) as Hpos.
  { destruct Hf as (_ & _ & Hl & _). destruct (layout_key_blocks _ _ _ _ Hl) as (Hk & _ & Hall & _).
    assert (Forall (fun b => 0 <= entry_count b) (vl_key_blocks (mf_layout f))) as Hsz
      by (eapply Forall_impl; [exact Hk|]; by intros x (? & ? & ?)).
    destruct (consecutive_lookup entry_start_index entry_count _ _ _ _ _ Hsz Hall Hlk) as [Hc' _].
    by eapply consecutive_unique. }
  apply keeps_budgeted. eapply budgeted_mono; [apply (budgeted_build_entries _ _ _ _ _ _ Hb)| |done].
  { rewrite length_map. lia. }
  intros b' Hb'. exists (blocks ++ [kb_entries (arc_value entries)]). unfold blocks_built.
  rewrite concat_app, map_app, (take_S_r _ _ _ Hlk). cbn [concat]. rewrite app_nil_r. split_and!.
  - done.
  - apply Forall_app. split; [done|]. eapply Forall_impl; [exact Hrows|]. by intros row [? _].
  - apply consecutive_app. exists (zlen (concat blocks)). split; [done|]. simpl. split; [lia|].
    rewrite length_app. unfold key_row_context in Hlen. simpl in Hlen. lia.
  - intros content modified Hs. apply Forall2_app; [by eapply Hst|]. constructor; [|done]. by eapply Hsrows.
Qed.

Lemma keeps_build_key_blocks plan before (i k : nat) blocks b :
  blocks_built i blocks b ->
  keeps max (contracts f) (build_key_blocks f options plan before (seqZ (Z.of_nat i) (Z.of_nat k)) b)
    (fun b' => exists blocks', blocks_built (i + k) blocks' b').
Proof.
  revert i blocks b; induction k as [|k IH]; intros i blocks b Hb.
  { rewrite Nat.add_0_r. apply keeps_ret. by exists blocks. }
  rewrite seqZ_cons by lia. cbn [build_key_blocks].
  apply (keeps_bind _ _ _ _ (fun _ => True)); [apply keeps_budgeted, budgeted_check_cancelled|]. intros [] _. cbv beta.
  eapply keeps_bind; [by apply (keeps_build_block plan before i blocks)|]. intros b' [blocks' Hb']. cbv beta.
  specialize (IH (Datatypes.S i) blocks' b' Hb').
  replace (Datatypes.S i + k)%nat with (i + Datatypes.S k)%nat in IH by lia.
  replace (Z.succ (Z.of_nat i)) with (Z.of_nat (Datatypes.S i)) by lia.
  replace (Z.pred (Z.of_nat (Datatypes.S k))) with (Z.of_nat k) by lia. exact IH.
Qed.

Lemma budgeted_new_section_writer :
  budgeted (new_section_writer options) (fun w => section_written cb policy w []) (fun _ => 0).
Proof.
  unfold new_section_writer. eapply budgeted_bind; [apply budgeted_scratch_file|]. intros file ->. cbv beta.
  apply budgeted_lift, wp_section_writer_new; [|done]. unfold scratch_write_buffer_bytes. lia.
Qed.

Lemma budgeted_index_builder_new : budgeted (index_builder_new options) (blocks_built 0 []) (fun _ => 0).
Proof.
  unfold index_builder_new.
  eapply budgeted_bind; [apply budgeted_new_section_writer|]. intros text Htext. cbv beta.
  eapply budgeted_bind; [apply budgeted_new_section_writer|]. intros bounds Hbounds. cbv beta in Hbounds |- *.
  eapply budgeted_bind; [apply budgeted_new_section_writer|]. intros raw Hraw. cbv beta.
  eapply budgeted_bind; [apply budgeted_scratch_file|]. intros file ->. cbv beta.
  eapply budgeted_bind; [apply budgeted_lift, wp_buffered_new; unfold scratch_write_buffer_bytes; lia|].
  intros runs Hruns. cbv beta in Hruns |- *.
  eapply budgeted_bind; [by apply (budgeted_write_u64 (section_written cb policy))|]. intros bounds' Hbounds'. cbv beta.
  apply budgeted_ret. split_and!; try done.
  - constructor; simpl; try done.
    exists []. split_and!; try done.
Qed.

(** The order section. *)
Lemma budgeted_build_order keys b :
  builder_ok keys b ->
  budgeted (build_order f options b) (fun section => exists order,
    order ≡ₚ seqZ 0 (zlen keys) /\ StronglySorted (row_le n keys) order /\
    section_holds SecOrder cb policy (words_of 4 order) section) (fun _ => 0).
Proof.
  intros [_ _ _ (runs & Hw & Hok & Hcount & Hperm) Hbuf _ _ Hm _].
  assert (forall sorted section, sorted ≡ₚ concat runs ++ buffer_records (bi_buffer b) ->
    StronglySorted rec_le sorted -> section_holds SecOrder cb policy (encode_ordinals sorted) section ->
    exists order, order ≡ₚ seqZ 0 (zlen keys) /\ StronglySorted (row_le n keys) order /\
      section_holds SecOrder cb policy (words_of 4 order) section) as Hdone.
  { intros sorted section Hp Hs Hsec. rewrite Hperm in Hp. destruct (sorted_order n keys sorted Hp Hs) as [H1' H2'].
    exists (map rr_ordinal sorted). by rewrite <- encode_ordinals_words. }
  unfold build_order. apply budgeted_if; intros Hz; zbool.
  - destruct runs; [|simpl in *; lia].
    eapply budgeted_bind; [apply budgeted_new_section_writer|]. intros w Hw'. cbv beta in Hw' |- *.
    eapply budgeted_bind; [by apply (budgeted_write_sorted_order (section_written cb policy))|].
    intros w' Hw''. cbv beta in Hw'' |- *. rewrite app_nil_l in Hw''.
    eapply budgeted_mono; [eapply budgeted_into_section; exact Hw''| |done]. intros section Hs.
    apply (Hdone (sorted_records (bi_buffer b))); [apply sorted_records_Permutation|apply sorted_records_sorted|done].
  - apply (budgeted_bind _ _ (fun r => exists runs', buffered_written (fst r) (encode_runs runs') /\
      Forall run_ok runs' /\ snd r = zlen runs' /\ concat runs' ≡ₚ concat runs ++ buffer_records (bi_buffer b))).
    + apply budgeted_if; intros He.
      * eapply budgeted_bind; [by apply (budgeted_write_sorted_run buffered_written)|]. intros runs' [Hw' Hrun]. cbv beta.
        apply (budgeted_bind _ _ (fun c => c = bi_run_count b + 1));
          [by apply budgeted_lift, wp_ok_or; intros c [-> _]%checked_add_Some|]. intros ? ->. cbv beta.
        apply budgeted_ret. exists (runs ++ [sorted_records (bi_buffer b)]).
        rewrite encode_runs_app, concat_app, length_app. cbn. rewrite !app_nil_r. split_and!; [done| |lia|].
        { apply Forall_app. split; [done|]. by constructor. }
        by rewrite sorted_records_Permutation.
      * apply budgeted_ret. exists runs. split_and!; try done. unfold sort_buffer_is_empty in He.
        apply negb_false_iff in He. zbool. unfold buffer_records.
        destruct (sb_records (bi_buffer b)); [|simpl in *; lia]. by rewrite app_nil_r.
    + intros [w count] (runs' & Hw' & Hok' & Hc & Hp). cbn [fst snd] in *. cbv beta iota.
      eapply budgeted_bind; [by apply budgeted_buffered_into_file|]. intros input ->. cbv beta. rewrite Hc.
      eapply budgeted_mono; [by apply (budgeted_merge_runs options Hcb _ runs')| |done].
      intros section (sorted & Hs & Hsorted & _ & Hsec). apply (Hdone sorted); [by rewrite Hs|done|done].
Qed.

(** The contents of the sections of an index. *)
Definition index_sections (keys : list text) (order : list Z) : list (SectionKind * bytes) :=
  [(SecText, arena n keys); (SecBounds, words_of 8 (offsets_from n 0 keys));
   (SecRaw, words_of 4 (map raw_digest keys)); (SecOrder, words_of 4 order)].

(** All keys of the dictionary, in physical order. *)
Definition dictionary_keys (keys : list text) : Prop :=
  zlen keys = mdict_len f /\ zlen keys <= u32_max /\ Forall text_ok keys /\
  forall content modified, stable (mf_source f) content modified ->
    exists rows, all_rows f content = Ok rows /\ keys = map row_key rows.

(** A built index: its sections are the index of the dictionary's keys, and
    its header describes them. *)
Definition built_ok (keys : list text) (built : BuiltIndex) : Prop :=
  dictionary_keys keys /\ zlen (arena n keys) <= u64_max /\ identity_now (kb_source_identity (bx_report built)) /\
  build_header (bx_sections built) (kb_source_identity (bx_report built)) (zlen (arena n keys)) options =
    Ok (bx_header built, bx_descriptors built, bytes_written (bx_report built)) /\
  exists order, order ≡ₚ seqZ 0 (zlen keys) /\ StronglySorted (row_le n keys) order /\
    Forall2 (fun content section => section_holds (fst content) cb policy (snd content) section)
      (index_sections keys order) (bx_sections built).

Lemma budgeted_finish_index before keys b :
  builder_ok keys b -> identity_now before -> zlen keys <= u32_max -> Forall text_ok keys ->
  (zlen keys = mdict_len f -> dictionary_keys keys) ->
  budgeted (finish_index f options before b)
    (fun built => built_ok keys built /\ kb_source_identity (bx_report built) = before) (fun _ => 0).
Proof.
  intros Hb Hid Hmax Htext Hkeys. destruct (id Hb) as [Ht Hbd Hr _ _ Ha Hl _ Hrows]. unfold finish_index.
  rewrite Hrows, Hl.
  apply (budgeted_bind _ _ (fun _ => zlen keys = mdict_len f)); [apply budgeted_lift, wp_ensure; intros; by zbool|].
  intros [] Hlen. cbv beta.
  eapply budgeted_bind; [eapply budgeted_into_section; exact Ht|]. intros text Hts. cbv beta.
  eapply budgeted_bind; [eapply budgeted_into_section; exact Hbd|]. intros bounds Hbs. cbv beta.
  eapply budgeted_bind; [eapply budgeted_into_section; exact Hr|]. intros raw Hrs. cbv beta.
  do 4 budgeted_step.
  eapply budgeted_bind; [by apply (budgeted_build_order keys)|]. intros order (rows & Hperm & Hsorted & Hos). cbv beta zeta.
  set (sections := [text; bounds; raw; order]).
  apply (budgeted_bind _ _ (fun r => build_header sections before (zlen (arena n keys)) options = Ok r)).
  { apply budgeted_lift, wp_self, build_header_safe. }
  intros [[header descriptors] total] Hheader. cbv beta iota. apply budgeted_ret. split; [|done].
  split_and!; try done; [by apply Hkeys|lia|]. exists rows. split_and!; try done.
  unfold index_sections, sections. do 4 (constructor; [done|]). constructor.
Qed.

Lemma build_metadata_plan_safe rows : safe (build_metadata_plan rows options).
Proof.
  unfold safe, build_metadata_plan. do 3 (apply wp_bind, wp_ok_or; intros ? ?).
  do 2 (apply wp_bind; eapply wp_mono; [apply chunk_count_safe|]; intros ? _; cbv beta).
  apply wp_bind, wp_ok_or. intros fixed _. cbv zeta. apply wp_bind, wp_ok_or. intros available _.
  apply wp_if; intros _; [|done]. by apply wp_bind, wp_ok_or.
Qed.

(** Building an index. *)
Lemma keeps_build_index :
  keeps max (contracts f) (build_index f options) (fun built => exists keys,
    built_ok keys built /\ validate_options options = Ok tt).
Proof.
  unfold build_index.
  apply (keeps_bind _ _ _ _ (fun _ => validate_options options = Ok tt)).
  { apply keeps_lift. eapply wp_mono; [apply wp_self, validate_options_safe|]. by intros []. }
  intros [] Hopt. cbv beta. apply (keeps_bind _ _ _ _ (fun _ => True)); [by apply keeps_lift, wp_ensure|].
  intros [] _. cbv beta. apply (keeps_bind _ _ _ _ (fun _ => mdict_len f <= u32_max));
    [apply keeps_lift, wp_ensure; intros; by zbool|]. intros [] Hmax. cbv beta.
  eapply keeps_bind; [apply keeps_budgeted, budgeted_source_identity|]. intros before Hid. cbv beta.
  apply (keeps_bind _ _ _ _ (fun _ => True)); [apply keeps_lift, build_metadata_plan_safe|]. intros plan _. cbv beta.
  eapply keeps_bind; [apply keeps_budgeted, budgeted_index_builder_new|]. intros b Hb. cbv beta.
  eapply keeps_bind; [by apply (keeps_build_key_blocks plan before 0 (length (vl_key_blocks (mf_layout f))) [])|].
  intros b' (blocks & Hb' & Ht & Hc & Hst). cbv beta.
  assert (zlen (map row_key (concat blocks)) = mdict_len f) as Hlen.
  { rewrite length_map. destruct Hf as (_ & _ & Hl & _). destruct (layout_key_blocks _ _ _ _ Hl) as (_ & _ & Hall & _).
    rewrite take_ge in Hc by lia. unfold mdict_len. by eapply consecutive_unique. }
  apply keeps_budgeted. eapply budgeted_mono; [apply (budgeted_finish_index before (map row_key (concat blocks)))| |done].
  - done.
  - done.
  - lia.
  - by apply Forall_map.
  - intros _. split_and!; [done|lia|by apply Forall_map|]. intros content modified Hs. exists (concat blocks).
    split; [|done]. specialize (Hst _ _ Hs). rewrite take_ge in Hst by lia.
    apply decode_all_Forall2 in Hst. unfold all_rows. by rewrite Hst.
  - intros built [Hbuilt _]. by exists (map row_key (concat blocks)).
Qed.

End BuildProofs.
