(* ===== verification/IndexCache.v ===== *)
(** Reading a persistent key index: [src/core/persistent/cache.rs] and
    [read_index_header] of [src/core/persistent/format.rs].  Every section is
    read in chunks; the last chunk of each section and the last page of the
    checksum table stay in memory.  [caches_hold] says that what a
    slot holds is what the file holds, so that a read returns the bytes of the
    section whatever was read before. *)

From stdpp Require Import list_numbers.
From S2P Require Import Prelude Errors Types Budget Logic Utf8 Encoding Checksum Source Descriptors Format Normalize LocatorIndex Arcs Core Dictionary Keys IndexFormat.

(** * State *)

(** [VerifiedChunk] *)
Record VerifiedChunk := {
  vc_number : option Z;
  vc_bytes : bytes;
}.

(** [VerifiedChunk::new] *)
Definition verified_chunk_new : VerifiedChunk := {| vc_number := None; vc_bytes := [] |}.

(** [IndexText]; its reservation is its size. *)
Record IndexText := {
  it_text : text;
  it_memory : Z;
}.

(** [IndexBytes] *)
Record IndexBytes := {
  ib_bytes : bytes;
  ib_memory : Z;
}.

(** [PersistentKeyIndex], its immutable part; an [IndexSource] is a file and
    the length seen when it was opened. *)
Record PersistentKeyIndex := {
  pi_source : FileSource;
  pi_header : IndexHeader;
  pi_cache_memory : Z;
  pi_max_row_bytes : Z;
  pi_checksum_policy : ChecksumPolicy;
}.

(** The state of the dictionary, whose memory budget the index shares, and the
    two caches of the index. *)
Record IndexState := {
  is_core : CoreState;
  is_chunk_cache : list VerifiedChunk;
  is_checksum_cache : VerifiedChunk;
}.

Definition set_is_core (c : CoreState) (s : IndexState) : IndexState :=
  {| is_core := c; is_chunk_cache := is_chunk_cache s; is_checksum_cache := is_checksum_cache s |}.

#[export] Instance HasWorld_IndexState : HasWorld IndexState.
Proof.
  refine {| get_world := fun s => get_world (is_core s);
            set_world := fun w s => set_is_core (set_world w (is_core s)) s |}.
  - intros w s. exact (get_set_world w (is_core s)).
  - intros [c chunks page]. unfold set_is_core; simpl. f_equal. exact (set_get_world c).
  - done.
Defined.

(** An operation of the dictionary. *)
Definition on_core {A} (m : M CoreState A) : M IndexState A := fun s =>
  let (r, c) := m (is_core s) in (r, set_is_core c s).

(** [cache[section.index()] = slot] *)
Definition set_chunk (section : SectionKind) (slot : VerifiedChunk) : M IndexState unit := fun s =>
  (Ok tt, {| is_core := is_core s;
             is_chunk_cache := <[Z.to_nat (section_index section) := slot]> (is_chunk_cache s);
             is_checksum_cache := is_checksum_cache s |}).

Definition set_checksum_page (slot : VerifiedChunk) : M IndexState unit := fun s =>
  (Ok tt, {| is_core := is_core s; is_chunk_cache := is_chunk_cache s; is_checksum_cache := slot |}).

Definition read_slot {A} (get : IndexState -> A) : M IndexState A := fun s => (Ok (get s), s).

(** [Vec::resize(len, 0)] *)
Definition resize_zero (l : bytes) (len : Z) : bytes :=
  take (Z.to_nat len) l ++ replicate (Z.to_nat len - length l) 0.

(** [output[start..end_].copy_from_slice(source)] *)
Definition copy_into (output : bytes) (start end_ : Z) (source : bytes) : Result bytes :=
  let? target := or_panic (slice output start end_) "slice index out of range" in
  if zlen target =? zlen source
  then Ok (take (Z.to_nat start) output ++ source ++ drop (Z.to_nat end_) output)
  else Panic "copy_from_slice: source slice length does not match destination slice length".

Section IndexCache.

Context `{Env}.

(** * The index file *)

Section Reads.

Context {S : Type} `{HasWorld S}.

(** [IndexSource::new] of an opened file *)
Definition index_source_new (file : nat -> option FileState) : M S FileSource :=
  let! st := access file in mret {| fs_len := zlen (fc_content st); fs_file := file |}.

(** The range check that [IndexSource::read_exact] and [read_exact_into]
    share. *)
Definition check_read_range (source : FileSource) (offset len : Z) : Result unit :=
  let? len_u64 := ok_or (try_u64 len) (invalid_layout "read length exceeds u64") in
  let? end_ := ok_or (checked_add offset len_u64) (invalid_layout "read range overflow") in
  ensure (negb (fs_len source <? end_)) (invalid_layout "read range exceeds file length").

(** [seek] and [read_exact] *)
Definition seek_and_read (source : FileSource) (offset len : Z) : M S bytes :=
  let! file := access (fs_file source) in
  lift (ok_or (slice (fc_content file) offset (offset + len)) (Io "failed to fill whole buffer")).

(** [IndexSource::read_exact] *)
Definition index_read_exact (source : FileSource) (offset len : Z) : M S bytes :=
  let! _ := lift (check_read_range source offset len) in
  let! _ := lift (try_reserve_vec 0 1 len "persistent key-index read") in
  seek_and_read source offset len.

(** [IndexSource::read_exact_into]: the new content of the buffer. *)
Definition index_read_exact_into (source : FileSource) (offset len : Z) : M S bytes :=
  let! _ := lift (check_read_range source offset len) in
  seek_and_read source offset len.

(** [read_u32_slice] *)
Definition read_u32_slice (bytes : bytes) (offset : Z) : Result Z :=
  let? end_ := ok_or (checked_add offset 4) (invalid_layout "header offset overflow") in
  let? value := ok_or (slice bytes offset end_) (invalid_layout "truncated header field") in
  Ok (le_combine value).

(** [read_u64_slice] *)
Definition read_u64_slice (bytes : bytes) (offset : Z) : Result Z :=
  let? end_ := ok_or (checked_add offset 8) (invalid_layout "header offset overflow") in
  let? value := ok_or (slice bytes offset end_) (invalid_layout "truncated header field") in
  Ok (le_combine value).

(** What [read_index_header] checks of the first 24 bytes: the header length. *)
Definition check_prefix (prefix : bytes) : Result Z :=
  ensure (bool_decide (slice prefix 0 8 = Some MAGIC)) (reject RejInvalidMagic) ;;?
  let? format_revision := read_u32_slice prefix 8 in
  ensure (format_revision =? KEY_INDEX_FORMAT_REVISION)
    (reject (RejUnsupportedFormatRevision format_revision)) ;;?
  let? endian := read_u32_slice prefix 12 in
  ensure (endian =? ENDIAN_MARKER) (reject (RejUnsupportedEndianMarker endian)) ;;?
  read_u64_slice prefix 16.

(** The checksum of the header. *)
Definition check_header_checksum (checksum_policy : ChecksumPolicy) (header_bytes : bytes)
    (checksum_at : Z) : Result unit :=
  let? expected := read_u32_slice header_bytes checksum_at in
  if is_verify checksum_policy then
    let? covered := or_panic (slice header_bytes 0 checksum_at) "slice index out of range" in
    let actual := adler32 covered in
    ensure (expected =? actual) (reject (RejChecksumMismatch "header" None expected actual))
  else Ok tt.

(** [read_index_header] *)
Definition read_index_header (source : FileSource) (options : KeyIndexOptions)
    (checksum_policy : ChecksumPolicy) : M S IndexHeader :=
  let! _ := lift (ensure (negb (fs_len source <? HEADER_PREFIX_BYTES))
                    (invalid_layout "truncated header prefix")) in
  let! header_len := scoped HEADER_PREFIX_BYTES "persistent key-index header prefix" (
    let! prefix := index_read_exact source 0 HEADER_PREFIX_BYTES in
    lift (check_prefix prefix)) in
  let! header_len_usize := lift (checked_usize header_len "persistent key-index header length") in
  let! _ := lift (ensure_usize_limit "key_index_header_bytes" header_len_usize
                    (max_metadata_bytes options)) in
  let! _ := lift (ensure (negb (negb (header_len_usize =? HEADER_BYTES) || (fs_len source <? header_len)))
                    (invalid_layout "invalid header length")) in
  scoped header_len_usize "persistent key-index header" (
    let! header_bytes := index_read_exact source 0 header_len_usize in
    let! checksum_at := lift (sub_or_panic header_len_usize HEADER_CHECKSUM_BYTES) in
    let! _ := lift (check_header_checksum checksum_policy header_bytes checksum_at) in
    lift (parse_header header_bytes (fs_len source) options)).

End Reads.

(** * Chunks *)

Context (idx : PersistentKeyIndex).

(** [PersistentKeyIndex::section]; the array has an element for every kind. *)
Definition section (k : SectionKind) : SectionDescriptor := section_of (pi_header idx) k.

(** [PersistentKeyIndex::len] *)
Definition index_len : Z := key_count (ih_source_identity (pi_header idx)).

(** The page of the checksum table at [page_start], from the cache or the
    file. *)
Definition checksum_page (page page_start page_len : Z) : M IndexState bytes :=
  let! cache := read_slot is_checksum_cache in
  if negb (bool_decide (vc_number cache = Some page)) || negb (zlen (vc_bytes cache) =? page_len)
  then
    let! _ := set_checksum_page {| vc_number := None; vc_bytes := resize_zero (vc_bytes cache) page_len |} in
    let! absolute := lift (ok_or (checked_add (ih_header_len (pi_header idx)) page_start)
                             (invalid_layout "checksum table offset overflow")) in
    let! bytes := index_read_exact_into (pi_source idx) absolute page_len in
    let! _ := set_checksum_page {| vc_number := Some page; vc_bytes := bytes |} in
    mret bytes
  else mret (vc_bytes cache).

(** [PersistentKeyIndex::expected_checksum] *)
Definition expected_checksum (index : Z) : M IndexState Z :=
  let header := pi_header idx in
  let! _ := lift (ensure (index <? ih_checksum_count header)
                    (invalid_layout "checksum index is out of range")) in
  let! byte_offset := lift (ok_or (checked_mul index 4) (invalid_layout "checksum offset overflow")) in
  let page := byte_offset / CHECKSUM_PAGE_BYTES in
  let! page_start := lift (ok_or (checked_mul page CHECKSUM_PAGE_BYTES)
                             (invalid_layout "checksum page overflow")) in
  let! table_bytes := lift (ok_or (checked_mul (ih_checksum_count header) 4)
                              (invalid_layout "checksum table overflow")) in
  let! behind := lift (sub_or_panic table_bytes page_start) in
  let! page_len := lift (checked_usize (Z.min behind CHECKSUM_PAGE_BYTES)
                           "persistent checksum page length") in
  let! bytes := checksum_page page page_start page_len in
  let! relative := lift (sub_or_panic byte_offset page_start) in
  let! relative := lift (checked_usize relative "persistent checksum offset") in
  let! end_ := lift (ok_or (checked_add relative 4) (invalid_layout "checksum offset overflow")) in
  let! field := lift (ok_or (slice bytes relative end_) (invalid_layout "checksum exceeds cached page")) in
  mret (le_combine field).

(** The end of [load_verified_chunk]: fills the slot of a section. *)
Definition fill_chunk (k : SectionKind) (chunk offset len : Z) (expected : option Z)
    (slot : VerifiedChunk) : M IndexState bytes :=
  let! _ := set_chunk k {| vc_number := None; vc_bytes := resize_zero (vc_bytes slot) len |} in
  let! bytes := index_read_exact_into (pi_source idx) offset len in
  let! _ :=
    match expected with
    | Some expected =>
        let actual := adler32 bytes in
        if negb (expected =? actual) then
          let! _ := set_chunk k {| vc_number := None; vc_bytes := [] |} in
          merr (reject (RejChecksumMismatch (section_name k) (Some chunk) expected actual))
        else mret tt
    | None => mret tt
    end in
  let! _ := set_chunk k {| vc_number := Some chunk; vc_bytes := bytes |} in
  mret bytes.

(** [PersistentKeyIndex::load_verified_chunk] *)
Definition load_verified_chunk (k : SectionKind) (chunk : Z) : M IndexState bytes :=
  let descriptor := section k in
  let! _ := lift (ensure (chunk <? sd_checksum_count descriptor)
                    (invalid_layout "chunk index is out of range")) in
  let! checksum_index := lift (ok_or (checked_add (sd_checksum_start descriptor) chunk)
                                 (invalid_layout "checksum index overflow")) in
  let! expected :=
    if is_verify (pi_checksum_policy idx)
    then let! checksum := expected_checksum checksum_index in mret (Some checksum)
    else mret None in
  let chunk_bytes := ih_chunk_bytes (pi_header idx) in
  let! relative := lift (ok_or (checked_mul chunk chunk_bytes) (invalid_layout "chunk offset overflow")) in
  let! remaining := lift (ok_or (checked_sub (sd_len descriptor) relative)
                            (invalid_layout "chunk exceeds section")) in
  let len := Z.min remaining chunk_bytes in
  let! offset := lift (ok_or (checked_add (sd_offset descriptor) relative)
                         (invalid_layout "chunk offset overflow")) in
  let! len := lift (checked_usize len "persistent key-index chunk length") in
  let! cache := read_slot is_chunk_cache in
  let! slot := lift (ok_or (get_at cache (section_index k))
                       (invalid_layout "chunk cache section is out of range")) in
  if bool_decide (vc_number slot = Some chunk) && (zlen (vc_bytes slot) =? len)
  then mret (vc_bytes slot)
  else fill_chunk k chunk offset len expected slot.

(** * Sections *)

(** The check that [read_section] and [read_section_into_cached] share: the
    end of the range. *)
Definition check_section_range (k : SectionKind) (offset len : Z) : Result Z :=
  let? len_u64 := ok_or (try_u64 len) (invalid_layout "section read exceeds u64") in
  let? end_ := ok_or (checked_add offset len_u64) (invalid_layout "section read overflow") in
  ensure (negb (sd_len (section k) <? end_)) (invalid_layout "section read exceeds its bounds") ;;?
  Ok end_.

(** The loop of [read_section_into_cached]. *)
Fixpoint copy_chunks (k : SectionKind) (offset end_ : Z) (chunks : list Z) (output : bytes)
    : M IndexState bytes :=
  match chunks with
  | [] => mret output
  | chunk :: chunks =>
      let! bytes := load_verified_chunk k chunk in
      let! chunk_start := lift (ok_or (checked_mul chunk (ih_chunk_bytes (pi_header idx)))
                                  (invalid_layout "chunk offset overflow")) in
      let! bytes_len := lift (ok_or (try_u64 (zlen bytes)) (invalid_layout "chunk length exceeds u64")) in
      let! chunk_end := lift (ok_or (checked_add chunk_start bytes_len)
                                (invalid_layout "chunk end overflow")) in
      let copy_start := Z.max offset chunk_start in
      let copy_end := Z.min end_ chunk_end in
      let! d := lift (sub_or_panic copy_start chunk_start) in
      let! source_start := lift (checked_usize d "chunk copy source") in
      let! d := lift (sub_or_panic copy_end chunk_start) in
      let! source_end := lift (checked_usize d "chunk copy source") in
      let! d := lift (sub_or_panic copy_start offset) in
      let! target_start := lift (checked_usize d "chunk copy target") in
      let! d := lift (sub_or_panic copy_end offset) in
      let! target_end := lift (checked_usize d "chunk copy target") in
      let! source := lift (or_panic (slice bytes source_start source_end) "slice index out of range") in
      let! output := lift (copy_into output target_start target_end source) in
      copy_chunks k offset end_ chunks output
  end.

(** [PersistentKeyIndex::read_section_into_cached] of a buffer of [len]
    zeros *)
Definition read_section_into_cached (k : SectionKind) (offset len : Z) : M IndexState bytes :=
  let! end_ := lift (check_section_range k offset len) in
  if len =? 0 then mret []
  else
    let chunk_bytes := ih_chunk_bytes (pi_header idx) in
    let! first := lift (div_or_panic offset chunk_bytes) in
    let! before := lift (sub_or_panic end_ 1) in
    let! last := lift (div_or_panic before chunk_bytes) in
    copy_chunks k offset end_ (seqZ first (last - first + 1)) (replicate (Z.to_nat len) 0).

(** [PersistentKeyIndex::read_section] *)
Definition read_section (k : SectionKind) (offset len : Z) : M IndexState IndexBytes :=
  let! _ := lift (check_section_range k offset len) in
  retained len "persistent key-index read result" (
    let! _ := lift (try_reserve_vec 0 1 len "persistent key-index read result") in
    if len =? 0 then mret {| ib_bytes := []; ib_memory := len |}
    else
      let! output := read_section_into_cached k offset len in
      mret {| ib_bytes := output; ib_memory := len |}).

End IndexCache.

(** * Specification *)

Section Spec.

Context (idx : PersistentKeyIndex).

Let h := pi_header idx.

(** An index as [open_file] leaves it. *)
Record index_ok : Prop := {
  xk_source : source_ok (pi_source idx);
  xk_header : header_ok h;
  xk_placed : sections_placed (fs_len (pi_source idx)) (HEADER_BYTES + ih_checksum_count h * 4) (ih_sections h);
  xk_row_bytes : 0 <= pi_max_row_bytes idx;
}.

(** The length of chunk [c] of a section, and the place of the chunk in the
    file. *)
Definition chunk_len (k : SectionKind) (c : Z) : Z :=
  Z.min (sd_len (section idx k) - c * ih_chunk_bytes h) (ih_chunk_bytes h).

Definition chunk_at (k : SectionKind) (c : Z) (content bytes : bytes) : Prop :=
  let start := sd_offset (section idx k) + c * ih_chunk_bytes h in
  slice content start (start + chunk_len k c) = Some bytes.

(** The length of page [p] of the checksum table, and its place. *)
Definition page_len (p : Z) : Z :=
  Z.min (ih_checksum_count h * 4 - p * CHECKSUM_PAGE_BYTES) CHECKSUM_PAGE_BYTES.

Definition page_at (p : Z) (content bytes : bytes) : Prop :=
  let start := HEADER_BYTES + p * CHECKSUM_PAGE_BYTES in
  slice content start (start + page_len p) = Some bytes.

(** A slot with a number holds what the file holds. *)
Definition slot_holds (valid : Z -> Prop) (len : Z -> Z) (at_ : Z -> bytes -> bytes -> Prop)
    (slot : VerifiedChunk) : Prop :=
  forall c, vc_number slot = Some c ->
    valid c /\ zlen (vc_bytes slot) = len c /\ bytes_ok (vc_bytes slot) /\
    forall content modified, stable (pi_source idx) content modified -> at_ c content (vc_bytes slot).

Definition chunk_slot_ok (k : SectionKind) : VerifiedChunk -> Prop :=
  slot_holds (fun c => 0 <= c < sd_checksum_count (section idx k)) (chunk_len k) (chunk_at k).

Definition page_slot_ok : VerifiedChunk -> Prop :=
  slot_holds (fun p => 0 <= p /\ p * CHECKSUM_PAGE_BYTES < ih_checksum_count h * 4) page_len page_at.

Definition caches_hold (s : IndexState) : Prop :=
  (forall k, exists slot, get_at (is_chunk_cache s) (section_index k) = Some slot /\ chunk_slot_ok k slot) /\
  page_slot_ok (is_checksum_cache s).

(** The file can always be read and, where checksums are verified, its
    checksum table agrees with its chunks. *)
Definition intact (content : bytes) (modified : Z) : Prop :=
  stable (pi_source idx) content modified /\
  (is_verify (pi_checksum_policy idx) = true -> forall k c bytes,
     0 <= c < sd_checksum_count (section idx k) -> chunk_at k c content bytes ->
     let at_ := HEADER_BYTES + (sd_checksum_start (section idx k) + c) * 4 in
     slice content at_ (at_ + 4) = Some (le_split 4 (adler32 bytes))).

(** The bytes of a section. *)
Definition section_at (k : SectionKind) (content bytes : bytes) : Prop :=
  let start := sd_offset (section idx k) in
  slice content start (start + sd_len (section idx k)) = Some bytes.

End Spec.

(** The state is consistent when the caller holds [base] and [hs]. *)
Definition index_state_ok (max : Z) (c : Contracts) (idx : PersistentKeyIndex) (base : Z)
    (hs : list nat) (s : IndexState) : Prop :=
  core_ok max c base hs (is_core s) /\ caches_hold idx s.

(** * Lemmas *)

Section Geometry.

Context (idx : PersistentKeyIndex) (Hidx : index_ok idx).

Let h := pi_header idx.

Lemma section_in k : section idx k ∈ ih_sections h.
Proof.
  unfold section, section_of. pose proof (hk_count h (xk_header idx Hidx)) as Hc. fold h.
  destruct (get_at_is_Some (ih_sections h) (section_index k)) as [d Hd].
  { rewrite Hc. by destruct k. }
  rewrite Hd. simpl. by eapply get_at_elem_of.
Qed.

Lemma section_lens :
  sd_len (section idx SecText) = ih_normalized_text_len h /\
  sd_len (section idx SecBounds) = (index_len idx + 1) * 8 /\
  sd_len (section idx SecRaw) = index_len idx * 4 /\ sd_len (section idx SecOrder) = index_len idx * 4.
Proof.
  pose proof (hk_lens h (xk_header idx Hidx)) as Hl. unfold section, section_of. fold h.
  destruct (ih_sections h) as [|d0 [|d1 [|d2 [|d3 [|]]]]]; try done. simpl in Hl.
  by injection Hl.
Qed.

Lemma section_bounds k :
  is_u64 (sd_offset (section idx k)) /\ is_u64 (sd_len (section idx k)) /\
  sd_offset (section idx k) + sd_len (section idx k) <= fs_len (pi_source idx) /\
  sd_checksum_count (section idx k) = chunks_of (sd_len (section idx k)) (ih_chunk_bytes h).
Proof.
  pose proof (hk_sections h (xk_header idx Hidx)) as Hs. pose proof (section_in k) as Hin.
  rewrite Forall_forall in Hs. destruct (Hs _ Hin) as (? & ? & E).
  apply list_elem_of_lookup in Hin as [i Hi].
  destruct (placed_lookup _ _ _ _ _ ltac:(eapply Forall_impl; [apply (hk_sections h), Hidx|]; by intros x (_ & [? _] & _))
              (xk_placed idx Hidx) Hi). by split_and!.
Qed.

Lemma chunk_bytes_pos : MIN_CHUNK_BYTES <= ih_chunk_bytes h <= u32_max.
Proof. apply (hk_chunk h), Hidx. Qed.

Lemma source_len_u64 : is_u64 (fs_len (pi_source idx)).
Proof. apply (xk_source idx Hidx). Qed.

(** Chunk [c] lies in its section. *)
Lemma chunk_bounds k c :
  0 <= c < sd_checksum_count (section idx k) ->
  0 <= c * ih_chunk_bytes h < sd_len (section idx k) /\
  0 < chunk_len idx k c <= ih_chunk_bytes h /\
  c * ih_chunk_bytes h + chunk_len idx k c <= sd_len (section idx k) /\
  0 <= sd_checksum_start (section idx k) + c < ih_checksum_count h.
Proof.
  intros Hc. destruct source_len_u64 as [_ Hu].
  pose proof (chunk_access_bounds_of h _ _ c (xk_header idx Hidx) Hu (xk_placed idx Hidx) (section_in k) Hc) as
    (? & ? & ? & ? & ? & ? & ?).
  unfold chunk_len. fold h. rewrite Z.min_comm. lia.
Qed.

Lemma checksum_count_bound : 0 <= ih_checksum_count h /\ HEADER_BYTES + ih_checksum_count h * 4 <= u64_max.
Proof.
  split; [apply header_table_nonneg, Hidx|]. pose proof (hk_table h (xk_header idx Hidx)). lia.
Qed.

(** The checksum table lies in front of the sections. *)
Lemma table_bounds : HEADER_BYTES + ih_checksum_count h * 4 <= fs_len (pi_source idx).
Proof.
  pose proof (section_bounds SecText) as (_ & [? _] & ? & _). pose proof (section_in SecText) as Hin.
  apply list_elem_of_lookup in Hin as [i Hi].
  destruct (placed_lookup _ _ _ _ _ ltac:(eapply Forall_impl; [apply (hk_sections h), Hidx|]; by intros x (_ & [? _] & _))
              (xk_placed idx Hidx) Hi). unfold h. lia.
Qed.

End Geometry.

Section Reading.

Context `{Env} (max : Z) (c : Contracts) (idx : PersistentKeyIndex) (Hidx : index_ok idx).

#[local] Notation h := (pi_header idx).

Let Inv := index_state_ok max c idx.

#[local] Notation src := (pi_source idx).

#[export] Instance index_resources : Resources (index_state_ok max c idx).
Proof.
  split.
  - intros base hs s [Hs _]. by eapply inv_nonneg.
  - intros base hs s [Hs _]. exact (inv_budget _ _ _ Hs).
  - intros base hs s s' d [Hs Hc] (Hb & Hm & Hu & Hp & E) Hd.
    assert (is_core s' = set_world (get_world (is_core s')) (is_core s)) as E1 by (by rewrite E at 1).
    assert (is_chunk_cache s' = is_chunk_cache s /\ is_checksum_cache s' = is_checksum_cache s) as [E2 E3]
      by (by rewrite E).
    split; [|by unfold caches_hold; rewrite E2, E3].
    eapply inv_accounts; [exact Hs| |done]. by split_and!.
  - intros base hs s bytes ? ? [Hs Hc]. split; [|exact Hc].
    by apply (inv_drop (S := CoreState)).
Qed.

(** An operation of the dictionary keeps the caches. *)
Lemma on_core_triple {A} base hs (m : M CoreState A) P base' hs' base_e hs_e :
  triple max c base hs m P base' hs' base_e hs_e ->
  htriple Inv base hs (on_core m) P base' hs' base_e hs_e.
Proof.
  intros Hm s [Hs Hc]. specialize (Hm _ Hs). unfold wpM, on_core in *.
  destruct (m (is_core s)) as [[a|e| |] s']; try done.
  destruct Hm as [? Hm]. by split.
Qed.

Lemma on_core_keeps {A} (m : M CoreState A) P : keeps max c m P -> hkeeps Inv (on_core m) P.
Proof. intros Hm base hs. apply on_core_triple, Hm. Qed.

(** [m] keeps the invariant and succeeds when the index is intact. *)
Definition succeeds {A} (m : M IndexState A) (P : A -> Prop) : Prop :=
  forall base hs s, Inv base hs s ->
    wpM m s (fun a s' => P a /\ Inv base hs s')
      (fun _ s' => Inv base hs s' /\ forall content modified, ~ intact idx content modified).

Lemma succeeds_keeps {A} (m : M IndexState A) P : succeeds m P -> hkeeps Inv m P.
Proof. intros Hm base hs s Hs. eapply wpM_mono; [by apply Hm|done|]. by intros e s' [? _]. Qed.

Lemma succeeds_bind {A B} (m : M IndexState A) (k : A -> M IndexState B) P Q :
  succeeds m P -> (forall a, P a -> succeeds (k a) Q) -> succeeds (Errors.mbind m k) Q.
Proof.
  intros Hm Hk base hs s Hs. apply wpM_bind. eapply wpM_mono; [by apply Hm| |done].
  intros a s' [Ha Hs']. by apply Hk.
Qed.

Lemma succeeds_mono {A} (m : M IndexState A) (P Q : A -> Prop) :
  succeeds m P -> (forall a, P a -> Q a) -> succeeds m Q.
Proof.
  intros Hm HPQ base hs s Hs. eapply wpM_mono; [by apply Hm| |done]. intros a s' [? ?]. auto.
Qed.

Lemma succeeds_ret {A} (a : A) (P : A -> Prop) : P a -> succeeds (mret a) P.
Proof. intros ? base hs s ?. by apply wpM_ret. Qed.

Lemma succeeds_lift {A} (r : Result A) (P : A -> Prop) : returns r P -> succeeds (lift r) P.
Proof. intros Hr base hs s Hs. unfold wpM, lift. by destruct r. Qed.

(** A step whose value is known. *)
Lemma succeeds_step {A B} (r : Result A) a (k : A -> M IndexState B) Q :
  r = Ok a -> succeeds (k a) Q -> succeeds (Errors.mbind (lift r) k) Q.
Proof. intros -> Hk base hs s Hs. by apply Hk. Qed.

(** A step that writes or reads a slot. *)
Lemma succeeds_set_chunk k slot : chunk_slot_ok idx k slot -> succeeds (set_chunk k slot) (fun _ => True).
Proof.
  intros Hslot base hs s [Hs [Hc Hp]]. split; [done|]. split; [exact Hs|]. split; [|exact Hp].
  intros k'. unfold set_chunk; simpl. destruct (Hc k) as (old & Hold & _). destruct (Hc k') as (slot' & Hs' & Hok).
  pose proof (get_at_Some _ _ _ Hold) as Hlen. unfold get_at in Hs' |- *.
  destruct (decide (k' = k)) as [->|Hne].
  - exists slot. rewrite (proj2 (Z.leb_le _ _)) by lia. split; [|exact Hslot].
    apply list_lookup_insert_eq. lia.
  - exists slot'. destruct (Z.leb_spec 0 (section_index k')); [|done].
    rewrite list_lookup_insert_ne; [done|]. by destruct k, k'.
Qed.

Lemma succeeds_set_page slot : page_slot_ok idx slot -> succeeds (set_checksum_page slot) (fun _ => True).
Proof. intros Hslot base hs s [Hs [Hc _]]. by split. Qed.

Lemma succeeds_read_page : succeeds (read_slot is_checksum_cache) (page_slot_ok idx).
Proof. intros base hs s Hs. split; [apply Hs|done]. Qed.

Lemma succeeds_read_chunks :
  succeeds (read_slot is_chunk_cache) (fun cache => forall k, exists slot,
    get_at cache (section_index k) = Some slot /\ chunk_slot_ok idx k slot).
Proof. intros base hs s Hs. split; [apply Hs|done]. Qed.

Lemma slot_empty valid len at_ bytes : slot_holds idx valid len at_ {| vc_number := None; vc_bytes := bytes |}.
Proof. by intros ? [=]. Qed.

Lemma succeeds_read_into offset len :
  0 <= offset -> 0 <= len -> offset + len <= fs_len src ->
  succeeds (index_read_exact_into src offset len) (fun out =>
    zlen out = len /\ bytes_ok out /\
    forall content modified, stable src content modified -> slice content offset (offset + len) = Some out).
Proof.
  intros Ho Hl He. destruct (source_len_u64 idx Hidx) as [_ Hu].
  unfold index_read_exact_into. apply (succeeds_step _ tt).
  { unfold check_read_range, try_u64. rewrite (proj2 (Z.leb_le _ _)) by lia. cbn [ok_or rbind].
    unfold checked_add. rewrite (proj2 (Z.leb_le _ _)) by lia. cbn [ok_or rbind].
    by rewrite (proj2 (Z.ltb_ge _ _)) by lia. }
  intros base hs s Hs. unfold seek_and_read. apply wpM_bind.
  eapply (wpM_mono _ _ (fun f s' => (bytes_ok (fc_content f) /\
             forall content modified, stable src content modified -> fc_content f = content) /\ Inv base hs s')
            _ (fun _ s' => Inv base hs s' /\ forall content modified, ~ intact idx content modified)).
  - destruct (id Hs) as [Hcore Hcaches]. pose proof (inv_budget _ _ _ Hs) as Hb.
    unfold wpM, access.
    set (s1 := set_world _ s). assert (Inv base hs s1) as Hs1.
    { replace base with (base + 0) by lia. eapply (inv_accounts (Inv := Inv)); [exact Hs| |].
      - split_and!; try done; unfold get_budget in *; simpl; lia.
      - pose proof (inv_nonneg _ _ _ Hs). lia. }
    destruct (fs_file src (w_clock (get_world s))) as [f|] eqn:Ef.
    + split; [|exact Hs1]. split; [apply (proj2 (xk_source idx Hidx) _ _ Ef)|].
      intros content modified [_ Hst]. rewrite Hst in Ef. by injection Ef as <-.
    + split; [exact Hs1|]. intros content modified [[_ Hst] _]. by rewrite Hst in Ef.
  - intros f s' [[Hok Hst] Hs']. unfold wpM, lift.
    destruct (slice (fc_content f) offset (offset + len)) as [out|] eqn:Es; simpl.
    + split; [|exact Hs']. split_and!; [|by eapply slice_Forall|].
      * apply slice_length in Es. lia.
      * intros content modified Hc. by rewrite <- (Hst _ _ Hc).
    + split; [exact Hs'|]. intros content modified [Hc _].
      rewrite (Hst _ _ Hc) in Es. apply slice_None in Es. destruct Hc as [Hz _]. lia.
  - done.
Qed.

(** ** The checksum table *)

Lemma page_bounds i :
  0 <= i < ih_checksum_count h ->
  let p := i * 4 / CHECKSUM_PAGE_BYTES in
  0 <= p /\ 0 <= p * CHECKSUM_PAGE_BYTES <= i * 4 /\ i * 4 + 4 <= p * CHECKSUM_PAGE_BYTES + page_len idx p /\
  0 < page_len idx p <= CHECKSUM_PAGE_BYTES /\
  p * CHECKSUM_PAGE_BYTES + page_len idx p <= ih_checksum_count h * 4.
Proof.
  intros Hi p. unfold page_len, CHECKSUM_PAGE_BYTES in *.
  assert (p = i / 1024) as -> by (unfold p; change (4 * 1024) with (1024 * 4); by rewrite Z.div_mul_cancel_r).
  pose proof (Z.div_mod i 1024 ltac:(lia)). pose proof (Z.mod_pos_bound i 1024 ltac:(lia)).
  assert (0 <= i / 1024) by (apply Z.div_pos; lia). lia.
Qed.

Lemma succeeds_checksum_page p :
  0 <= p -> p * CHECKSUM_PAGE_BYTES < ih_checksum_count h * 4 ->
  succeeds (checksum_page idx p (p * CHECKSUM_PAGE_BYTES) (page_len idx p)) (fun bytes =>
    zlen bytes = page_len idx p /\ bytes_ok bytes /\
    forall content modified, stable src content modified -> page_at idx p content bytes).
Proof.
  intros Hp Hlt. unfold checksum_page.
  assert (0 <= page_len idx p) as Hl by (unfold page_len, CHECKSUM_PAGE_BYTES in *; lia).
  destruct (checksum_count_bound idx Hidx) as [_ Ht]. pose proof (table_bounds idx Hidx) as Hb.
  assert (p * CHECKSUM_PAGE_BYTES + page_len idx p <= ih_checksum_count h * 4) by (unfold page_len; lia).
  eapply succeeds_bind; [apply succeeds_read_page|]. intros cache Hcache. cbv beta zeta.
  destruct (bool_decide _) eqn:Hn; [destruct (Z.eqb_spec (zlen (vc_bytes cache)) (page_len idx p)) as [Hz|]|];
    cbn [negb orb].
  1: { apply bool_decide_eq_true in Hn. destruct (Hcache _ Hn) as (_ & ? & ? & ?). by apply succeeds_ret. }
  all: eapply succeeds_bind; [apply succeeds_set_page, slot_empty|]; intros [] _; cbv beta.
  all: apply (succeeds_step _ (HEADER_BYTES + p * CHECKSUM_PAGE_BYTES));
    [rewrite (hk_header_len h (xk_header idx Hidx)); unfold checked_add; by rewrite (proj2 (Z.leb_le _ _)) by lia|].
  all: eapply succeeds_bind; [apply succeeds_read_into; unfold HEADER_BYTES, CHECKSUM_PAGE_BYTES in *; lia|].
  all: intros bytes (Hz & Hok & Hst); cbv beta.
  all: eapply succeeds_bind; [apply succeeds_set_page; intros ? [= <-]; by split_and!|]; intros [] _.
  all: by apply succeeds_ret.
Qed.

(** A checksum is the field of the table it is read from. *)
Lemma succeeds_expected_checksum i :
  0 <= i < ih_checksum_count h ->
  succeeds (expected_checksum idx i) (fun v =>
    forall content modified, stable src content modified ->
      exists field, slice content (HEADER_BYTES + i * 4) (HEADER_BYTES + i * 4 + 4) = Some field /\
        v = le_combine field).
Proof.
  intros Hi. unfold expected_checksum. destruct (page_bounds i Hi) as (Hp & Hle & Hend & Hlen & Htab).
  set (p := i * 4 / CHECKSUM_PAGE_BYTES) in *.
  destruct (checksum_count_bound idx Hidx) as [_ Ht].
  unfold HEADER_BYTES in Ht.
  apply (succeeds_step _ tt); [by rewrite (proj2 (Z.ltb_lt _ _)) by lia|].
  apply (succeeds_step _ (i * 4)); [apply ok_or_Ok, checked_mul_Some; split; [done|lia]|]. fold p.
  apply (succeeds_step _ (p * CHECKSUM_PAGE_BYTES)); [apply ok_or_Ok, checked_mul_Some; split; [done|lia]|].
  apply (succeeds_step _ (ih_checksum_count h * 4)); [apply ok_or_Ok, checked_mul_Some; split; [done|lia]|].
  apply (succeeds_step _ (ih_checksum_count h * 4 - p * CHECKSUM_PAGE_BYTES));
    [apply or_panic_Ok, checked_sub_Some; split; [done|lia]|].
  apply (succeeds_step _ (page_len idx p)).
  { apply ok_or_Ok, try_usize_Some. split; [done|]. fold (page_len idx p). unfold usize_max, CHECKSUM_PAGE_BYTES, u64_max in *.
    change (Z.min _ _) with (page_len idx p). lia. }
  eapply succeeds_bind; [apply succeeds_checksum_page; unfold CHECKSUM_PAGE_BYTES in *; lia|].
  intros bytes (Hz & Hok & Hst). cbv beta.
  apply (succeeds_step _ (i * 4 - p * CHECKSUM_PAGE_BYTES)); [apply or_panic_Ok, checked_sub_Some; split; [done|lia]|].
  apply (succeeds_step _ (i * 4 - p * CHECKSUM_PAGE_BYTES));
    [apply ok_or_Ok, try_usize_Some; unfold usize_max; split; [done|lia]|].
  apply (succeeds_step _ (i * 4 - p * CHECKSUM_PAGE_BYTES + 4)); [apply ok_or_Ok, checked_add_Some; split; [done|lia]|].
  destruct (slice_is_Some bytes (i * 4 - p * CHECKSUM_PAGE_BYTES) (i * 4 - p * CHECKSUM_PAGE_BYTES + 4))
    as [field Hf]; [lia|lia|].
  apply (succeeds_step _ field); [by rewrite Hf|]. apply succeeds_ret. intros content modified Hs.
  exists field. split; [|done].
  pose proof (slice_slice _ _ _ _ _ _ _ (Hst _ _ Hs) Hf) as Hr.
  rewrite <- Hr. f_equal; lia.
Qed.

(** ** Chunks *)

Definition chunk_read (k : SectionKind) (n : Z) (bytes : list Z) : Prop :=
  zlen bytes = chunk_len idx k n /\ bytes_ok bytes /\
  forall content modified, stable src content modified -> chunk_at idx k n content bytes.

Lemma succeeds_fill_chunk k n expected slot :
  0 <= n < sd_checksum_count (section idx k) ->
  (forall e content modified bytes, expected = Some e -> intact idx content modified ->
     chunk_at idx k n content bytes -> bytes_ok bytes -> e = adler32 bytes) ->
  succeeds (fill_chunk idx k n (sd_offset (section idx k) + n * ih_chunk_bytes h) (chunk_len idx k n) expected slot)
    (chunk_read k n).
Proof.
  intros Hn He. destruct (chunk_bounds idx Hidx k n Hn) as (? & ? & ? & ?).
  destruct (section_bounds idx Hidx k) as ([? ?] & ? & ? & _).
  unfold fill_chunk.
  eapply succeeds_bind; [apply succeeds_set_chunk, slot_empty|]. intros [] _. cbv beta.
  eapply succeeds_bind; [apply succeeds_read_into; lia|]. intros bytes (Hz & Hok & Hst). cbv beta.
  apply (succeeds_bind _ _ (fun _ => True)).
  - destruct expected as [e|]; [|by apply succeeds_ret]. destruct (Z.eqb_spec e (adler32 bytes)) as [|Hne]; simpl.
    + by apply succeeds_ret.
    + eapply succeeds_bind; [apply succeeds_set_chunk, slot_empty|]. intros [] _ base hs s Hs.
      split; [exact Hs|]. intros content modified Hi. apply Hne. eapply He; [done|exact Hi| |done].
      apply (Hst content modified), Hi.
  - intros [] _. cbv beta. eapply succeeds_bind; [apply succeeds_set_chunk; intros ? [= <-]; split; [exact Hn|by split_and!]|].
    intros [] _. by apply succeeds_ret.
Qed.

Lemma succeeds_load_chunk k n :
  0 <= n < sd_checksum_count (section idx k) -> succeeds (load_verified_chunk idx k n) (chunk_read k n).
Proof.
  intros Hn. destruct (chunk_bounds idx Hidx k n Hn) as (? & Hl & ? & Hc).
  destruct (section_bounds idx Hidx k) as ([? ?] & [? ?] & ? & _).
  destruct (source_len_u64 idx Hidx) as [_ ?]. destruct (checksum_count_bound idx Hidx) as [_ ?].
  pose proof (chunk_bytes_pos idx Hidx). unfold HEADER_BYTES in *.
  unfold load_verified_chunk.
  apply (succeeds_step _ tt); [by rewrite (proj2 (Z.ltb_lt _ _)) by lia|].
  apply (succeeds_step _ (sd_checksum_start (section idx k) + n));
    [apply ok_or_Ok, checked_add_Some; split; [done|lia]|].
  apply (succeeds_bind _ _ (fun expected => forall e content modified bytes, expected = Some e ->
           intact idx content modified -> chunk_at idx k n content bytes -> bytes_ok bytes -> e = adler32 bytes)).
  { destruct (is_verify (pi_checksum_policy idx)) eqn:Ev; [|by apply succeeds_ret].
    eapply succeeds_bind; [by apply succeeds_expected_checksum|]. intros v Hv. apply succeeds_ret.
    intros e content modified bytes [= <-] [Hst Ht] Hat Hok. destruct (Hv _ _ Hst) as (field & Hf & ->).
    pose proof (Ht Ev k n bytes Hn Hat) as Hf'. cbv zeta in Hf'. rewrite Hf in Hf'. assert (field = le_split 4 (adler32 bytes)) as -> by congruence.
    apply le_combine_split. pose proof (adler32_u32 bytes Hok). unfold is_u32, u32_max in *. simpl. lia. }
  intros expected Hexp. cbv beta.
  apply (succeeds_step _ (n * ih_chunk_bytes h)); [apply ok_or_Ok, checked_mul_Some; split; [done|lia]|].
  apply (succeeds_step _ (sd_len (section idx k) - n * ih_chunk_bytes h));
    [apply ok_or_Ok, checked_sub_Some; split; [done|lia]|].
  apply (succeeds_step _ (sd_offset (section idx k) + n * ih_chunk_bytes h));
    [apply ok_or_Ok, checked_add_Some; split; [done|lia]|].
  change (Z.min (sd_len (section idx k) - n * ih_chunk_bytes h) (ih_chunk_bytes h)) with (chunk_len idx k n).
  apply (succeeds_step _ (chunk_len idx k n));
    [apply ok_or_Ok, try_usize_Some; unfold usize_max, u32_max, u64_max in *; split; [done|lia]|].
  eapply succeeds_bind; [apply succeeds_read_chunks|]. intros cache Hcache. cbv beta in Hcache |- *.
  destruct (Hcache k) as (slot & Hslot & Hok).
  apply (succeeds_step _ slot); [by rewrite Hslot|].
  destruct (bool_decide _) eqn:Eb; [destruct (Z.eqb_spec (zlen (vc_bytes slot)) (chunk_len idx k n)) as [Hz|]|];
    cbn [andb]; [|by apply succeeds_fill_chunk..].
  apply bool_decide_eq_true in Eb. destruct (Hok _ Eb) as (_ & ? & ? & ?). by apply succeeds_ret.
Qed.

(** ** Sections *)

(** Bytes [offset] to [end_] of a section. *)
Definition range_at (k : SectionKind) (offset end_ : Z) (content bytes : list Z) : Prop :=
  slice content (sd_offset (section idx k) + offset) (sd_offset (section idx k) + end_) = Some bytes.

Definition range_read (k : SectionKind) (offset end_ : Z) (bytes : list Z) : Prop :=
  zlen bytes = end_ - offset /\ bytes_ok bytes /\
  forall content modified, stable src content modified -> range_at k offset end_ content bytes.

Lemma copy_into_zeros done_ n source :
  (length source <= n)%nat ->
  copy_into (done_ ++ replicate n 0) (zlen done_) (zlen done_ + zlen source) source =
    Ok ((done_ ++ source) ++ replicate (n - length source) 0).
Proof.
  intros Hn. unfold copy_into.
  destruct (slice_is_Some (done_ ++ replicate n 0) (zlen done_) (zlen done_ + zlen source)) as [t Ht];
    [lia|rewrite length_app, length_replicate; lia|].
  rewrite Ht. cbn [or_panic rbind]. pose proof (slice_length _ _ _ _ Ht).
  rewrite (proj2 (Z.eqb_eq _ _)) by lia. f_equal. rewrite <- app_assoc. f_equal.
  - rewrite Nat2Z.id. by rewrite take_app_length.
  - f_equal. replace (Z.to_nat (zlen done_ + zlen source)) with (length done_ + length source)%nat by lia.
    by rewrite drop_app_add, drop_replicate.
Qed.

(** One chunk of the loop of [read_section_into_cached]. *)
Lemma succeeds_copy_chunks k offset end_ m n done_ :
  0 <= offset < end_ -> end_ <= sd_len (section idx k) ->
  0 <= n -> (end_ - 1) / ih_chunk_bytes h + 1 = n + Z.of_nat m ->
  (m = 0%nat \/ offset / ih_chunk_bytes h <= n) ->
  range_read k offset (Z.min end_ (Z.max offset (n * ih_chunk_bytes h))) done_ ->
  succeeds (copy_chunks idx k offset end_ (seqZ n (Z.of_nat m))
              (done_ ++ replicate (Z.to_nat (end_ - offset) - length done_) 0))
    (range_read k offset end_).
Proof.
  intros Ho He Hn Hm Hfirst Hdone. set (cb := ih_chunk_bytes h) in *.
  pose proof (chunk_bytes_pos idx Hidx) as Hcb. fold cb in Hcb. unfold MIN_CHUNK_BYTES in Hcb.
  destruct (section_bounds idx Hidx k) as ([? ?] & [? ?] & ? & Hcount). fold cb in Hcount.
  pose proof (Z.div_mod (end_ - 1) cb ltac:(lia)). pose proof (Z.mod_pos_bound (end_ - 1) cb ltac:(lia)).
  pose proof (Z.div_mod offset cb ltac:(lia)). pose proof (Z.mod_pos_bound offset cb ltac:(lia)).
  revert n done_ Hn Hm Hfirst Hdone; induction m as [|m IH]; intros n done_ Hn Hm Hfirst Hdone.
  { cbn [copy_chunks seqZ]. apply succeeds_ret.
    assert (n * cb >= end_) by nia. replace (Z.min _ _) with end_ in Hdone by lia.
    destruct (id Hdone) as [Hz _]. replace (Z.to_nat (end_ - offset) - length done_)%nat with 0%nat by lia.
    by rewrite app_nil_r. }
  destruct Hfirst as [?|Hfirst]; [lia|].
  rewrite Nat2Z.inj_succ, seqZ_cons by lia. rewrite Z.pred_succ. cbn [copy_chunks].
  assert (n * cb < end_) by nia.
  pose proof (chunks_of_bounds (sd_len (section idx k)) cb ltac:(lia) ltac:(lia)) as [_ Hcc].
  assert (0 <= n < sd_checksum_count (section idx k)) as Hin by (rewrite Hcount; nia).
  destruct (chunk_bounds idx Hidx k n Hin) as (_ & Hl & _). fold cb in Hl.
  eapply succeeds_bind; [by apply succeeds_load_chunk|]. intros bytes (Hz & Hok & Hst). cbv beta.
  fold cb. assert (chunk_len idx k n = Z.min (sd_len (section idx k) - n * cb) cb) as Hlen by done.
  assert (offset < (n + 1) * cb) by nia. unfold u32_max, u64_max in *.
  apply (succeeds_step _ (n * cb)); [apply ok_or_Ok, checked_mul_Some; unfold u64_max; split; [done|lia]|].
  apply (succeeds_step _ (zlen bytes)); [apply ok_or_Ok, try_u64_Some; unfold u64_max; split; [done|lia]|].
  apply (succeeds_step _ (n * cb + zlen bytes)); [apply ok_or_Ok, checked_add_Some; unfold u64_max; split; [done|lia]|].
  set (cs := Z.max offset (n * cb)). set (ce := Z.min end_ (n * cb + zlen bytes)).
  assert (n * cb <= cs /\ cs < ce /\ offset <= cs) as (? & ? & ?) by (unfold cs, ce; lia).
  assert (ce - n * cb <= zlen bytes) by (unfold ce; lia).
  assert (forall a b ctx (k' : Z -> M IndexState (list Z)), b <= a <= 18446744073709551615 -> 0 <= b ->
            succeeds (k' (a - b)) (range_read k offset end_) ->
            succeeds (let! d := lift (sub_or_panic a b) in let! d := lift (checked_usize d ctx) in k' d)
              (range_read k offset end_)) as Hsub.
  { intros a b ctx k' ? ? Hk. apply (succeeds_step _ (a - b)); [apply or_panic_Ok, checked_sub_Some; split; [done|lia]|].
    apply (succeeds_step _ (a - b)); [apply ok_or_Ok, try_usize_Some; unfold usize_max, u64_max; split; [done|lia]|done]. }
  assert (ce <= end_) by (unfold ce; lia).
  do 4 (apply Hsub; [lia|lia|]). clear Hsub.
  destruct (slice_is_Some bytes (cs - n * cb) (ce - n * cb)) as [source Hs]; [lia|lia|].
  apply (succeeds_step _ source); [by rewrite Hs|]. pose proof (slice_length _ _ _ _ Hs) as Hsl.
  destruct Hdone as (Hdz & Hdok & Hdst).
  assert (zlen done_ = cs - offset) as Hd by (rewrite Hdz; unfold cs; lia).
  apply (succeeds_step _ ((done_ ++ source) ++
            replicate (Z.to_nat (end_ - offset) - length done_ - length source) 0)).
  { replace (cs - offset) with (zlen done_) by lia. replace (ce - offset) with (zlen done_ + zlen source) by lia.
    apply copy_into_zeros. lia. }
  rewrite <- Nat.sub_add_distr, <- length_app. apply IH; [lia|lia|right; lia|].
  assert (Z.min end_ (Z.max offset (Z.succ n * cb)) = ce) as -> by (unfold ce; rewrite Hz, Hlen; lia).
  split; [rewrite length_app; lia|]. split; [apply bytes_ok_app; split; [done|by eapply slice_Forall]|].
  intros content modified Hc. specialize (Hdst _ _ Hc). specialize (Hst _ _ Hc).
  unfold range_at in *. replace (Z.min end_ (Z.max offset (n * cb))) with cs in Hdst by (unfold cs; lia).
  eapply slice_join; [exact Hdst|]. pose proof (slice_slice _ _ _ _ _ _ _ Hst Hs) as Hr.
  rewrite <- Hr. fold cb. f_equal; lia.
Qed.

(** A read inside a section returns its bytes. *)
Lemma succeeds_read_cached k offset len :
  0 <= offset -> 0 <= len -> offset + len <= sd_len (section idx k) ->
  succeeds (read_section_into_cached idx k offset len) (range_read k offset (offset + len)).
Proof.
  intros Ho Hl He. destruct (section_bounds idx Hidx k) as ([? ?] & [? ?] & ? & _).
  pose proof (chunk_bytes_pos idx Hidx). unfold MIN_CHUNK_BYTES in *.
  unfold read_section_into_cached, check_section_range. apply (succeeds_step _ (offset + len)).
  { unfold try_u64. rewrite (proj2 (Z.leb_le _ _)) by lia. cbn [ok_or rbind].
    unfold checked_add. rewrite (proj2 (Z.leb_le _ _)) by lia. cbn [ok_or rbind].
    by rewrite (proj2 (Z.ltb_ge _ _)) by lia. }
  destruct (Z.eqb_spec len 0) as [->|].
  { apply succeeds_ret. split; [simpl; lia|]. split; [constructor|]. intros content modified [Hz _].
    apply slice_Some. split; [lia|]. by replace (Z.to_nat _) with 0%nat by lia. }
  assert (forall a, 0 <= a -> div_or_panic a (ih_chunk_bytes h) = Ok (a / ih_chunk_bytes h)) as Hdiv
    by (intros a Ha; unfold div_or_panic; by rewrite (proj2 (Z.eqb_neq _ _)) by lia).
  apply (succeeds_step _ (offset / ih_chunk_bytes h)); [apply Hdiv; lia|].
  apply (succeeds_step _ (offset + len - 1)); [apply or_panic_Ok, checked_sub_Some; split; [done|lia]|].
  apply (succeeds_step _ ((offset + len - 1) / ih_chunk_bytes h)); [apply Hdiv; lia|].
  set (first := offset / ih_chunk_bytes h). set (last := (offset + len - 1) / ih_chunk_bytes h).
  assert (0 <= first <= last) by (unfold first, last; split; [apply Z.div_pos; lia|apply Z.div_le_mono; lia]).
  replace (last - first + 1) with (Z.of_nat (Z.to_nat (last - first + 1))) by lia.
  replace (replicate (Z.to_nat len) 0)
    with ([] ++ replicate (Z.to_nat (offset + len - offset) - length (@nil Z)) 0)
    by (simpl; f_equal; lia).
  apply succeeds_copy_chunks; [lia|lia|lia|unfold first, last in *; lia|right; unfold first; lia|].
  pose proof (Z.div_mod offset (ih_chunk_bytes h) ltac:(lia)) as Hdm.
  pose proof (Z.mod_pos_bound offset (ih_chunk_bytes h) ltac:(lia)). fold first in Hdm.
  replace (Z.min _ _) with offset by lia. split; [simpl; lia|]. split; [constructor|].
  intros content modified [Hz _]. apply slice_Some. split; [lia|]. by replace (Z.to_nat _) with 0%nat by lia.
Qed.

End Reading.
