(* ===== verification/IndexOpen.v ===== *)
(** Opening a persistent key index: [PersistentKeyIndex::open_file] of
    [src/core/persistent/cache.rs] and [validate_dictionary_identity] of
    [src/core/persistent/query.rs]. *)

From stdpp Require Import list_numbers.
From S2P Require Import Prelude Errors Types Budget Logic Encoding Checksum Source Descriptors Format Normalize Arcs Core Dictionary IndexFormat IndexCache.

Section IndexOpen.

Context `{Env} (f : MdictFile).

(** [validate_dictionary_identity] *)
Definition validate_dictionary_identity (identity : KeyIndexSourceIdentity) : M CoreState unit :=
  let! current := current_identity (mf_source f) in
  if negb (fs_len (mf_source f) =? source_bytes identity) || negb (fi_len current =? source_bytes identity)
  then merr (reject (RejSourceLengthMismatch (source_bytes identity) (fi_len current)))
  else if negb (fi_modified_unix_nanos current =? source_modified_unix_nanos identity)
  then merr (reject (RejSourceModifiedMismatch (source_modified_unix_nanos identity)
                       (fi_modified_unix_nanos current)))
  else if negb (mdict_len f =? key_count identity)
  then merr (reject (RejKeyCountMismatch (key_count identity) (mdict_len f)))
  else mret tt.

(** The bytes of the two caches. *)
Definition index_cache_bytes (header : IndexHeader) (options : KeyIndexOptions) : Result (Z * Z * Z) :=
  let? chunk_bytes := checked_usize (ih_chunk_bytes header) "persistent key-index chunk cache" in
  let? chunk_cache_bytes := ok_or (checked_mul chunk_bytes SECTION_COUNT)
                              (InvalidFormat "persistent key-index chunk cache size overflow") in
  let? checksum_table_bytes := ok_or (checked_mul (ih_checksum_count header) 4)
                                 (InvalidFormat "persistent checksum table overflow") in
  let? checksum_cache_bytes :=
    checked_usize (if is_verify (ki_checksum_policy options)
                   then Z.min checksum_table_bytes (or_u64_max (try_u64 CHECKSUM_PAGE_BYTES)) else 0)
      "persistent checksum cache" in
  let? cache_bytes := ok_or (checked_add chunk_cache_bytes checksum_cache_bytes)
                        (InvalidFormat "persistent key-index cache size overflow") in
  Ok (chunk_bytes, checksum_cache_bytes, cache_bytes).

(** The allocation of the [n] slots. *)
Fixpoint reserve_slots (n : nat) (chunk_bytes : Z) : Result unit :=
  match n with
  | O => Ok tt
  | S n =>
      try_reserve_vec 0 1 chunk_bytes "persistent key-index chunk cache" ;;?
      reserve_slots n chunk_bytes
  end.

(** [PersistentKeyIndex::open_file]; the caches it makes are
    [index_state_new]. *)
Definition open_file (file : nat -> option FileState) (expected : KeyIndexSourceIdentity)
    (options : KeyIndexOptions) : M CoreState PersistentKeyIndex :=
  let! _ := lift (validate_options options) in
  let! source := index_source_new file in
  let! _ := lift (ensure_u64_ceiling "key_index_bytes" (fs_len source) (max_index_bytes options)) in
  let! header := read_index_header source options (ki_checksum_policy options) in
  let! _ := lift (ensure (bool_decide (ih_source_identity header = expected))
                    (reject RejSourceIdentityMismatch)) in
  let! _ := validate_dictionary_identity expected in
  let! _ := lift (validate_section_layout (fs_len source) header) in
  let! '(chunk_bytes, checksum_cache_bytes, cache_bytes) := lift (index_cache_bytes header options) in
  retained cache_bytes "persistent key-index chunk cache" (
    let! _ := lift (reserve_slots (Z.to_nat SECTION_COUNT) chunk_bytes) in
    let! _ := lift (try_reserve_vec 0 1 checksum_cache_bytes "persistent key-index checksum cache") in
    mret {| pi_source := source; pi_header := header; pi_cache_memory := cache_bytes;
            pi_max_row_bytes := decompressed_block_bytes (mf_limits f);
            pi_checksum_policy := ki_checksum_policy options |}).

(** The state of a freshly opened index. *)
Definition index_state_new (s : CoreState) : IndexState :=
  {| is_core := s; is_chunk_cache := replicate (Z.to_nat SECTION_COUNT) verified_chunk_new;
     is_checksum_cache := verified_chunk_new |}.

End IndexOpen.

(** * Lemmas *)

Section OpenProofs.

Context `{EnvOk} (f : MdictFile) (Hf : file_ok f).

(** The states an index file goes through. *)
Definition index_file_ok (file : nat -> option FileState) : Prop :=
  forall t st, file t = Some st -> bytes_ok (fc_content st) /\ zlen (fc_content st) <= u64_max.

(** The file always has this content. *)
Definition always (file : nat -> option FileState) (content : bytes) (modified : Z) : Prop :=
  forall t, file t = Some {| fc_content := content; fc_modified := modified |}.

Lemma budgeted_index_source_new {S} `{HasWorld S} file :
  index_file_ok file ->
  budgeted (S := S) (index_source_new file) (fun source => source_ok source /\ fs_file source = file /\
    forall content modified, always file content modified -> stable source content modified) (fun _ => 0).
Proof.
  intros Hfile. unfold index_source_new.
  eapply (budgeted_bind _ _ (fun st => zlen (fc_content st) <= u64_max /\
            forall content modified, always file content modified -> fc_content st = content)).
  { apply budgeted_access. intros t st Ht. split; [apply (Hfile t st Ht)|].
    intros content modified Hall. rewrite Hall in Ht. by injection Ht as <-. }
  intros st [? Hst]. cbv beta. apply budgeted_ret. split_and!; [|done|].
  - split; [unfold is_u64; simpl; lia|]. intros t st' Ht. apply (Hfile t st' Ht).
  - intros content modified Hall. split; [|done]. simpl. by rewrite (Hst _ _ Hall).
Qed.

Lemma budgeted_seek_and_read {S} `{HasWorld S} source offset len :
  source_ok source -> 0 <= offset -> 0 <= len ->
  budgeted (S := S) (seek_and_read source offset len) (fun out => (zlen out = len /\ bytes_ok out) /\
    forall content modified, stable source content modified -> slice content offset (offset + len) = Some out)
    (fun _ => 0).
Proof.
  intros [_ Hok] Ho Hl. unfold seek_and_read.
  eapply (budgeted_bind _ _ (fun st => bytes_ok (fc_content st) /\
            forall content modified, stable source content modified -> fc_content st = content)).
  { apply budgeted_access. intros t st Ht. split; [by eapply Hok|].
    intros content modified [_ Hall]. rewrite Hall in Ht. by injection Ht as <-. }
  intros st [Hb Hst]. cbv beta. apply budgeted_lift, wp_ok_or. intros out Hout. split.
  - split; [apply slice_length in Hout; lia|by eapply slice_Forall].
  - intros content modified Hs. by rewrite <- (Hst _ _ Hs).
Qed.

Lemma budgeted_index_read_exact {S} `{HasWorld S} source offset len :
  source_ok source -> 0 <= offset -> 0 <= len ->
  budgeted (S := S) (index_read_exact source offset len) (fun out => (zlen out = len /\ bytes_ok out) /\
    forall content modified, stable source content modified -> slice content offset (offset + len) = Some out)
    (fun _ => 0).
Proof.
  intros Hs Ho Hl. unfold index_read_exact.
  apply (budgeted_bind _ _ (fun _ => True)); [apply budgeted_lift; unfold check_read_range; by wp_steps|].
  intros [] _. cbv beta. apply (budgeted_bind _ _ (fun _ => True)); [by apply budgeted_lift, wp_try_reserve_vec|].
  intros [] _. by apply budgeted_seek_and_read.
Qed.

(** [h] is the header of the file. *)
Definition header_of (source : FileSource) (options : KeyIndexOptions) (h : IndexHeader) : Prop :=
  forall content modified, stable source content modified ->
    exists bytes, slice content 0 HEADER_BYTES = Some bytes /\ parse_header bytes (fs_len source) options = Ok h.

Lemma wp_read_u32_slice bytes offset : safe (read_u32_slice bytes offset).
Proof. unfold safe, read_u32_slice. by wp_steps. Qed.

Lemma wp_check_prefix prefix : bytes_ok prefix -> wp (check_prefix prefix) (fun n => 0 <= n).
Proof.
  intros Hp. unfold check_prefix. wp_steps; try apply wp_read_u32_slice.
  eapply wp_mono; [apply wp_read_u32_slice|]. intros v _. wp_steps.
  eapply wp_mono; [apply wp_read_u32_slice|]. intros w _. wp_steps.
  unfold read_u64_slice. wp_steps.
  apply le_combine_bound. by eapply slice_Forall.
Qed.

Lemma wp_header_checksum policy bytes at_ :
  0 <= at_ <= zlen bytes -> safe (check_header_checksum policy bytes at_).
Proof.
  intros Ha. unfold safe, check_header_checksum. apply wp_bind.
  eapply wp_mono; [apply wp_read_u32_slice|]. intros v _. cbv beta. destruct (is_verify policy); [|done].
  destruct (slice_is_Some bytes 0 at_) as [covered ->]; [lia|lia|]. simpl. by apply wp_ensure.
Qed.

Lemma budgeted_read_index_header {S} `{HasWorld S} source options policy :
  source_ok source ->
  budgeted (S := S) (read_index_header source options policy)
    (fun h => header_ok h /\ ih_total_len h = fs_len source /\ header_of source options h) (fun _ => 0).
Proof.
  intros Hs. unfold read_index_header.
  apply (budgeted_bind _ _ (fun _ => True)); [by apply budgeted_lift, wp_ensure|]. intros [] _. cbv beta.
  eapply (budgeted_bind _ _ (fun n => 0 <= n)).
  { apply budgeted_scoped; [done|done|]. eapply budgeted_bind; [by apply budgeted_index_read_exact|].
    intros prefix [[_ Hp] _]. by apply budgeted_lift, wp_check_prefix. }
  intros header_len Hn. cbv beta.
  apply (budgeted_bind _ _ (fun n => n = header_len)); [by apply budgeted_lift, wp_checked_usize|]. intros ? ->. cbv beta.
  apply (budgeted_bind _ _ (fun _ => True)); [by apply budgeted_lift, wp_ensure_usize_limit|]. intros [] _. cbv beta.
  apply (budgeted_bind _ _ (fun _ => header_len = HEADER_BYTES)).
  { apply budgeted_lift, wp_ensure. intros Hb. rewrite negb_true_iff, orb_false_iff, negb_false_iff in Hb.
    by destruct Hb as [?%Z.eqb_eq _]. }
  intros [] ->. cbv beta. apply budgeted_scoped; [done|done|].
  eapply budgeted_bind; [by apply budgeted_index_read_exact|]. intros bytes [[Hz Hok] Hslice]. cbv beta.
  apply (budgeted_bind _ _ (fun n => n = HEADER_BYTES - HEADER_CHECKSUM_BYTES)); [by apply budgeted_lift|].
  intros ? ->. cbv beta.
  apply (budgeted_bind _ _ (fun _ => True)).
  { apply budgeted_lift, wp_header_checksum. rewrite Hz. done. }
  intros [] _. cbv beta. apply budgeted_lift.
  pose proof (parse_header_spec bytes Hok (fs_len source) options) as Hw.
  destruct (parse_header bytes (fs_len source) options) as [h| | |] eqn:Eh; [|done|done|done].
  destruct Hw as (Hh & Ht & _). simpl. split_and!; [by apply Hh|done|].
  intros content modified Hst. exists bytes. split; [by eapply Hslice|done].
Qed.

Lemma budgeted_validate_identity identity :
  budgeted (validate_dictionary_identity f identity)
    (fun _ => mdict_len f = key_count identity /\ fs_len (mf_source f) = source_bytes identity /\
       forall content modified, stable (mf_source f) content modified ->
         modified = source_modified_unix_nanos identity) (fun _ => 0).
Proof.
  unfold validate_dictionary_identity, current_identity.
  eapply (budgeted_bind _ _ (fun current => forall content modified, stable (mf_source f) content modified ->
            modified = fi_modified_unix_nanos current)).
  { eapply (budgeted_bind _ _ (fun st => forall content modified, stable (mf_source f) content modified ->
              modified = fc_modified st)).
    - apply budgeted_access. intros t st Ht content modified [_ Hst]. rewrite Hst in Ht. by injection Ht as <-.
    - intros st Hst. by apply budgeted_ret. }
  intros current Hcur. cbv beta.
  apply budgeted_if; intros H1; [intros s Hs; apply wpM_err; by apply accounts_refl|].
  repeat (apply budgeted_if; intros ?; [intros s Hs; apply wpM_err; by apply accounts_refl|]).
  apply budgeted_ret. rewrite ?orb_false_iff, ?negb_false_iff in *. zbool.
  destruct H1 as [?%Z.eqb_eq _].
  split_and!; [done|done|]. intros content modified Hst. by rewrite (Hcur _ _ Hst).
Qed.

Lemma wp_index_cache_bytes header options :
  header_ok header -> wp (index_cache_bytes header options) (fun r => 0 <= snd r).
Proof.
  intros Hh. pose proof (hk_chunk header Hh). pose proof (header_table_nonneg header Hh).
  unfold index_cache_bytes, MIN_CHUNK_BYTES in *. apply wp_bind, wp_checked_usize. intros _.
  do 2 (apply wp_bind, wp_ok_or; intros ? ?). apply wp_bind, wp_checked_usize. intros _. wp_steps. rinv. simpl. unfold SECTION_COUNT in *.
  destruct (is_verify _); [|lia].
  change (or_u64_max (try_u64 CHECKSUM_PAGE_BYTES)) with CHECKSUM_PAGE_BYTES. unfold CHECKSUM_PAGE_BYTES. lia.
Qed.

Lemma reserve_slots_safe n bytes : safe (reserve_slots n bytes).
Proof.
  induction n as [|n IH]; [done|]. unfold safe. cbn [reserve_slots]. apply wp_bind.
  apply wp_try_reserve_vec. exact IH.
Qed.

Let max := working_memory_bytes (mf_limits f).

Lemma caches_hold_new idx s : caches_hold idx (index_state_new s).
Proof.
  split; [|by intros ? [=]]. intros k. exists verified_chunk_new. split; [by destruct k|by intros ? [=]].
Qed.

Lemma index_state_ok_new m c idx base hs s :
  core_ok m c base hs s -> index_state_ok m c idx base hs (index_state_new s).
Proof. split; [done|apply caches_hold_new]. Qed.

(** The identity is that of the dictionary file, where the file does not
    change. *)
Definition identity_matches (identity : KeyIndexSourceIdentity) : Prop :=
  fs_len (mf_source f) = source_bytes identity /\
  forall content modified, stable (mf_source f) content modified ->
    modified = source_modified_unix_nanos identity.

(** The index of [file]. *)
Definition opened_from (file : nat -> option FileState) (options : KeyIndexOptions)
    (idx : PersistentKeyIndex) : Prop :=
  fs_file (pi_source idx) = file /\ header_of (pi_source idx) options (pi_header idx) /\
  pi_checksum_policy idx = ki_checksum_policy options /\
  forall content modified, always file content modified -> stable (pi_source idx) content modified.

Lemma triple_open_file base hs file expected options :
  index_file_ok file ->
  triple max (contracts f) base hs (open_file f file expected options)
    (fun idx => index_ok idx /\ ih_source_identity (pi_header idx) = expected /\
       mdict_len f = key_count expected /\ opened_from file options idx /\ 0 <= pi_cache_memory idx /\ identity_matches expected)
    (fun idx => base + pi_cache_memory idx) (fun _ => hs) base hs.
Proof.
  intros Hfile. unfold open_file.
  eapply (triple_bind _ _ _ _ _ _ (fun _ => True) (fun _ => base) (fun _ => hs)).
  { apply triple_lift. unfold validate_options. wp_steps; done. }
  intros [] _. cbv beta.
  eapply triple_bind; [apply (keeps_budgeted max (contracts f)), (budgeted_index_source_new file Hfile)|].
  intros source (Hsrc & Efile & Hst). cbv beta.
  eapply (triple_bind _ _ _ _ _ _ (fun _ => True)); [by apply triple_lift, wp_ensure_u64_ceiling|]. intros [] _. cbv beta.
  eapply triple_bind; [by apply (keeps_budgeted max (contracts f)), budgeted_read_index_header|].
  intros header (Hh & Htot & Hof). cbv beta.
  eapply (triple_bind _ _ _ _ _ _ (fun _ => ih_source_identity header = expected));
    [apply triple_lift, wp_ensure; intros Hb; by apply bool_decide_eq_true in Hb|]. intros [] Hid. cbv beta.
  eapply triple_bind; [apply (keeps_budgeted max (contracts f)), budgeted_validate_identity|].
  intros [] (Hlen & Hmatch). cbv beta.
  eapply triple_bind; [by apply triple_lift, validate_section_layout_spec|]. intros [] Hplaced. cbv beta in Hplaced |- *.
  eapply triple_bind; [by apply triple_lift, wp_index_cache_bytes|].
  intros [[chunk_bytes checksum_bytes] cache_bytes] Hcache. cbv beta iota. simpl in Hcache.
  apply triple_retained_bytes; [done|].
  eapply (triple_bind _ _ _ _ _ _ (fun _ => True)); [apply triple_lift, reserve_slots_safe|]. intros [] _. cbv beta.
  eapply (triple_bind _ _ _ _ _ _ (fun _ => True)); [by apply triple_lift, wp_try_reserve_vec|]. intros [] _. cbv beta.
  apply triple_ret; [|done|done]. split_and!; try done. constructor; simpl; try done.
  destruct Hf as (_ & Hlim & _). unfold limits_ok, is_u64 in Hlim. lia.
Qed.

End OpenProofs.
