(* ===== verification/IndexSearch.v ===== *)
(** Searching a persistent key index: the typed accessors of
    [src/core/persistent/cache.rs] and its binary search.  [index_locator] is
    the in-memory index a file stands for; the searches find in the file what
    [LocatorIndex] finds in it. *)

From stdpp Require Import list_numbers.
From S2P Require Import Prelude Errors Types Budget Logic Utf8 Encoding Source Descriptors Format Normalize LocatorIndex Arcs Core Dictionary Keys IndexFormat IndexCache.

Section IndexSearch.

Context `{Env} (idx : PersistentKeyIndex).

(** [bound_at], with [bound_at_cached] *)
Definition bound_at (index : Z) : M IndexState Z :=
  let! _ := lift (ensure (negb (index_len idx <? index)) (invalid_layout "text-bound index is out of range")) in
  let! offset := lift (ok_or (checked_mul index 8) (invalid_layout "text-bound offset overflow")) in
  let! bytes := read_section_into_cached idx SecBounds offset 8 in
  mret (le_combine bytes).

(** [order_at], with [order_at_cached] *)
Definition order_at (position : Z) : M IndexState Z :=
  let! _ := lift (ensure (negb (index_len idx <=? position)) (invalid_layout "order position is out of range")) in
  let! offset := lift (ok_or (checked_mul position 4) (invalid_layout "order offset overflow")) in
  let! bytes := read_section_into_cached idx SecOrder offset 4 in
  mret (le_combine bytes).

(** [raw_digest_at], with [raw_digest_at_cached] *)
Definition raw_digest_at (ordinal : Z) : M IndexState Z :=
  let! _ := lift (ensure (negb (index_len idx <=? ordinal)) (invalid_layout "raw-digest ordinal is out of range")) in
  let! offset := lift (ok_or (checked_mul ordinal 4) (invalid_layout "raw-digest offset overflow")) in
  let! bytes := read_section_into_cached idx SecRaw offset 4 in
  mret (le_combine bytes).

(** [row_text] *)
Definition index_row_text (ordinal : Z) : M IndexState IndexText :=
  let! _ := lift (ensure (negb (index_len idx <=? ordinal)) (invalid_layout "text ordinal is out of range")) in
  let! start := bound_at ordinal in
  let! next := lift (or_panic (checked_add ordinal 1) "attempt to add with overflow") in
  let! end_ := bound_at next in
  let! len := lift (ok_or (checked_sub end_ start) (invalid_layout "text bounds are inverted")) in
  let! _ := lift (ensure (negb (ih_normalized_text_len (pi_header idx) <? end_))
                    (invalid_layout "text bounds exceed text section")) in
  let! len := lift (checked_usize len "persistent normalized key length") in
  let! _ := lift (ensure_usize_limit "key_index_row_bytes" len (pi_max_row_bytes idx)) in
  let! bytes := read_section idx SecText start len in
  or_drop (ib_memory bytes) (
    let! _ := lift (ok_or (utf8_decode (ib_bytes bytes)) (invalid_layout "normalized key is not UTF-8")) in
    mret {| it_text := ib_bytes bytes; it_memory := ib_memory bytes |}).

(** A scope that owns an [IndexText] and drops it on every exit. *)
Definition with_index_text {A} (row : IndexText) (body : M IndexState A) : M IndexState A := fun s =>
  let (r, s) := body s in (r, drop_reservation (it_memory row) s).

(** * Searching *)

(** The loop of [lower_bound]; a round halves the interval. *)
Fixpoint lower_bound_loop (fuel : nat) (query : text) (inclusive_end : bool) (left right : Z)
    : M IndexState Z :=
  match fuel with
  | O => lift OutOfFuel
  | S fuel =>
      if left <? right then
        let middle := left + (right - left) / 2 in
        let! ordinal := order_at middle in
        let! row := index_row_text ordinal in
        let! goes_left :=
          with_index_text row (mret (if inclusive_end then bytes_ltb query (it_text row)
                                     else bytes_leb query (it_text row))) in
        if goes_left then lower_bound_loop fuel query inclusive_end left middle
        else lower_bound_loop fuel query inclusive_end (middle + 1) right
      else mret left
  end.

(** [lower_bound] *)
Definition index_lower_bound (query : text) (inclusive_end : bool) : M IndexState Z :=
  lower_bound_loop (S (Z.to_nat (index_len idx))) query inclusive_end 0 (index_len idx).

(** [equal_range] *)
Definition index_equal_range (query : text) : M IndexState (option (Z * Z)) :=
  let! start := index_lower_bound query false in
  let! end_ := index_lower_bound query true in
  mret (if start <? end_ then Some (start, end_) else None).

(** The loop of [ordinals_in]. *)
Fixpoint ordinals_loop (positions ordinals : list Z) : M IndexState (list Z) :=
  match positions with
  | [] => mret ordinals
  | position :: positions =>
      let! ordinal := order_at position in
      ordinals_loop positions (ordinals ++ [ordinal])
  end.

(** [ordinals_in] *)
Definition ordinals_in (start end_ : Z) : M IndexState (list Z) :=
  let! count := lift (ok_or (checked_sub end_ start) (invalid_layout "order range is inverted")) in
  let! count := lift (checked_usize count "persistent key-index match count") in
  let! _ := lift (try_reserve_vec 0 size_of_u32 count "persistent key-index matches") in
  ordinals_loop (seqZ start (end_ - start)) [].

End IndexSearch.

(** * Specification *)

(** The little-endian words of a section. *)
Definition word_at (width : Z) (bytes : list Z) (i : Z) : Z :=
  le_combine (default [] (slice bytes (i * width) (i * width + width))).

Definition words (width count : Z) (bytes : list Z) : list Z :=
  map (word_at width bytes) (seqZ 0 count).

(** The index that a file stands for. *)
Definition index_locator (idx : PersistentKeyIndex) (content : bytes) : KeyLocator :=
  let bytes k := default [] (slice content (sd_offset (section idx k))
                               (sd_offset (section idx k) + sd_len (section idx k))) in
  {| kl_text := bytes SecText; kl_bounds := words 8 (index_len idx + 1) (bytes SecBounds);
     kl_order := words 4 (index_len idx) (bytes SecOrder);
     kl_raw_digest := words 4 (index_len idx) (bytes SecRaw); kl_memory := 0 |}.

(** The file does not change and stands for [l]. *)
Definition stands_for (idx : PersistentKeyIndex) (l : KeyLocator) : Prop :=
  exists content modified, stable (pi_source idx) content modified /\ l = index_locator idx content.

(** The text of a row, as [row_text] reads it. *)
Definition stored_row (l : KeyLocator) (row : Z) : option text :=
  start ← get_at (kl_bounds l) row; end_ ← get_at (kl_bounds l) (row + 1); slice (kl_text l) start end_.

(** * Lemmas *)

Lemma get_at_words width count bytes i :
  0 <= i < count -> get_at (words width count bytes) i = Some (word_at width bytes i).
Proof.
  intros Hi. unfold words, get_at. rewrite (proj2 (Z.leb_le _ _)) by lia.
  rewrite list_lookup_fmap, (proj2 (lookup_seqZ _ _ _ i)); [done|]. lia.
Qed.

Lemma length_words width count bytes : 0 <= count -> zlen (words width count bytes) = count.
Proof. intros ?. unfold words. rewrite length_map, length_seqZ. lia. Qed.

(** ** The index of the keys *)

Section Encoded.

Context `{EnvOk} (n : KeyNormalizer).

Lemma stored_row_normalized keys l row :
  locator_of n keys l -> 0 <= row < zlen keys -> stored_row l row = Some (normalized_row n keys row).
Proof.
  intros (Ht & Hb & _) Hr. destruct (arena_row n keys row Hr) as (p & q & E & _ & _ & E1 & E2).
  unfold stored_row. rewrite Ht, Hb, E1, E2, E. simpl. apply slice_app_mid.
Qed.

Lemma order_row keys l i row :
  locator_of n keys l -> get_at (kl_order l) i = Some row -> 0 <= row < zlen keys.
Proof.
  intros Hl Hrow. apply get_at_elem_of in Hrow. by destruct (locator_rows n keys l row Hl Hrow).
Qed.

Lemma index_keys_length idx keys content :
  index_ok idx -> locator_of n keys (index_locator idx content) -> zlen keys = index_len idx.
Proof.
  intros Hidx (_ & _ & _ & Hp & _). apply Permutation_length in Hp. rewrite length_seqZ in Hp.
  pose proof (hk_keys _ (xk_header idx Hidx)) as [? _].
  pose proof (length_words 4 (index_len idx) (default [] (slice content (sd_offset (section idx SecOrder))
    (sd_offset (section idx SecOrder) + sd_len (section idx SecOrder)))) ltac:(done)) as Hw.
  simpl kl_order in Hp. lia.
Qed.

(** The rows that [lower_bound] leaves on the left. *)
Definition on_left (query : text) (inclusive_end : bool) (row : text) : bool :=
  if inclusive_end then bytes_leb row query else bytes_ltb row query.

Definition boundary (l : KeyLocator) (query : text) (inclusive_end : bool) : Z :=
  partition_point (fun row => on_left query inclusive_end (kl_row l row)) (kl_order l).

Lemma boundary_equal_range l query :
  equal_range l query =
  if boundary l query false <? boundary l query true
  then Some (boundary l query false, boundary l query true) else None.
Proof. done. Qed.

(** The rows in front of the boundary are exactly those on its left. *)
Lemma boundary_spec keys l query inclusive_end :
  locator_of n keys l ->
  0 <= boundary l query inclusive_end <= zlen (kl_order l) /\
  forall i row, get_at (kl_order l) i = Some row ->
    on_left query inclusive_end (normalized_row n keys row) = (i <? boundary l query inclusive_end).
Proof.
  intros Hl. destruct (order_split n keys l query Hl) as (before & after & E & Hb & Hm & Ha).
  set (left_ := fun row => on_left query inclusive_end (kl_row l row)).
  assert (exists l1 l2, kl_order l = l1 ++ l2 /\ Forall (fun row => left_ row = true) l1 /\
            Forall (fun row => left_ row = false) l2) as (l1 & l2 & E' & H1 & H2).
  { destruct inclusive_end.
    - exists (before ++ matching n keys query), after. rewrite <- app_assoc. split; [done|]. split.
      + apply Forall_app. split; [eapply Forall_impl; [exact Hb|]|eapply Forall_impl; [exact Hm|]];
          intros row Hrow; unfold left_, on_left, bytes_leb; rewrite Hrow; [done|by rewrite bytes_cmp_refl].
      + eapply Forall_impl; [exact Ha|]. intros row Hrow. unfold left_, on_left, bytes_leb. by rewrite Hrow.
    - exists before, (matching n keys query ++ after). split; [done|]. split.
      + eapply Forall_impl; [exact Hb|]. intros row Hrow. unfold left_, on_left, bytes_ltb. by rewrite Hrow.
      + apply Forall_app. split; [eapply Forall_impl; [exact Hm|]|eapply Forall_impl; [exact Ha|]];
          intros row Hrow; unfold left_, on_left, bytes_ltb; rewrite Hrow; [by rewrite bytes_cmp_refl|done]. }
  assert (boundary l query inclusive_end = zlen l1) as ->.
  { unfold boundary. rewrite E'. apply partition_point_app; [exact H1|].
    intros row Hrow. destruct l2; [done|]. injection Hrow as <-. by apply Forall_cons in H2 as [? _]. }
  split; [rewrite E', length_app; lia|]. intros i row Hrow.
  destruct (locator_rows n keys l row Hl (get_at_elem_of _ _ _ Hrow)) as [_ <-]. change (left_ row = (i <? zlen l1)).
  pose proof (get_at_Some _ _ _ Hrow) as Hi. rewrite E' in Hrow. unfold get_at in Hrow.
  rewrite (proj2 (Z.leb_le _ _)) in Hrow by lia. destruct (Z.ltb_spec i (zlen l1)).
  - rewrite lookup_app_l in Hrow by lia. rewrite Forall_forall in H1. apply H1. by eapply list_elem_of_lookup_2.
  - rewrite lookup_app_r in Hrow by lia. rewrite Forall_forall in H2. apply H2. by eapply list_elem_of_lookup_2.
Qed.

End Encoded.

Section Searching.

Context `{EnvOk} (max : Z) (c : Contracts) (idx : PersistentKeyIndex) (Hidx : index_ok idx).

#[local] Notation h := (pi_header idx).

#[local] Notation src := (pi_source idx).

#[local] Notation Inv := (index_state_ok max c idx).

#[local] Notation succeeds := (succeeds max c idx).

Lemma index_len_bounds : 0 <= index_len idx <= u32_max.
Proof. apply (hk_keys h), Hidx. Qed.

(** The bytes of a range of a section, in the index the file stands for. *)
Lemma range_at_section k offset end_ content modified bytes :
  stable src content modified -> 0 <= offset -> end_ <= sd_len (section idx k) ->
  range_at idx k offset end_ content bytes ->
  slice (default [] (slice content (sd_offset (section idx k))
           (sd_offset (section idx k) + sd_len (section idx k)))) offset end_ = Some bytes.
Proof.
  intros [Hz _] Ho He Hr. destruct (section_bounds idx Hidx k) as ([? ?] & [? ?] & ? & _).
  destruct (slice_is_Some content (sd_offset (section idx k)) (sd_offset (section idx k) + sd_len (section idx k)))
    as [sec Hs]; [lia|lia|].
  rewrite Hs. simpl. pose proof (slice_length _ _ _ _ Hs).
  unfold range_at in Hr. pose proof (proj1 (slice_Some _ _ _ _) Hr) as [[Hb _] _].
  destruct (slice_is_Some sec offset end_) as [r Hr']; [lia|lia|].
  by rewrite Hr', <- Hr, (slice_slice _ _ _ _ _ _ _ Hs Hr').
Qed.

(** ** Accessors *)

(** A word of a section. *)
Lemma keeps_word k width i bytes :
  0 <= i -> 0 < width -> i * width + width <= sd_len (section idx k) ->
  range_read idx k (i * width) (i * width + width) bytes ->
  0 <= le_combine bytes < 256 ^ width /\
  forall content modified, stable src content modified ->
    le_combine bytes = word_at width (default [] (slice content (sd_offset (section idx k))
      (sd_offset (section idx k) + sd_len (section idx k)))) i.
Proof.
  intros Hi Hw He (Hz & Hok & Hst). split.
  - pose proof (le_combine_bound bytes Hok) as Hb. by replace (zlen bytes) with width in Hb by lia.
  - intros content modified Hs. unfold word_at.
    rewrite (range_at_section k (i * width) (i * width + width) content modified bytes); [done|done|nia|done|].
    by eapply Hst.
Qed.

(** The shape that the three accessors share. *)
Lemma keeps_word_access k width b e1 e2 i :
  0 <= i -> 0 < width -> (b = true -> i * width + width <= sd_len (section idx k)) ->
  hkeeps Inv
    (let! _ := lift (ensure b e1) in
     let! offset := lift (ok_or (checked_mul i width) e2) in
     let! bytes := read_section_into_cached idx k offset width in
     mret (le_combine bytes)) (fun v => b = true /\ 0 <= v < 256 ^ width /\
    forall content modified, stable src content modified ->
      v = word_at width (default [] (slice content (sd_offset (section idx k))
            (sd_offset (section idx k) + sd_len (section idx k)))) i).
Proof.
  intros Hi Hw Hb.
  eapply (hkeeps_bind Inv); [apply (hkeeps_lift Inv), (wp_ensure _ _ (fun _ => b = true)); done|].
  intros [] Hbt. cbv beta in Hbt |- *. specialize (Hb Hbt).
  eapply (hkeeps_bind Inv); [apply (hkeeps_lift Inv), wp_ok_or; intros o Ho; exact Ho|].
  intros o [-> _]%checked_mul_Some.
  eapply (hkeeps_bind Inv); [apply (succeeds_keeps max c idx), (succeeds_read_cached max c idx Hidx); nia|].
  intros bytes Hr. cbv beta in Hr |- *. apply (hkeeps_ret Inv). split; [done|]. by apply keeps_word.
Qed.

Lemma keeps_bound_at i :
  0 <= i -> hkeeps Inv (bound_at idx i) (fun v => i <= index_len idx /\ is_u64 v /\
    forall l, stands_for idx l -> get_at (kl_bounds l) i = Some v).
Proof.
  intros Hi. pose proof index_len_bounds. destruct (section_lens idx Hidx) as (_ & Hl & _).
  eapply (hkeeps_mono Inv); [apply (keeps_word_access SecBounds 8); [done|done|intros; zbool; lia]|].
  intros v (Hb & Hv & Hst). zbool. split; [done|]. split; [unfold is_u64, u64_max; lia|].
  intros l (content & modified & Hs & ->). simpl kl_bounds. rewrite get_at_words by lia. by rewrite <- (Hst _ _ Hs).
Qed.

Lemma keeps_order_at i :
  0 <= i -> hkeeps Inv (order_at idx i) (fun v => i < index_len idx /\ is_u32 v /\
    forall l, stands_for idx l -> get_at (kl_order l) i = Some v).
Proof.
  intros Hi. pose proof index_len_bounds. destruct (section_lens idx Hidx) as (_ & _ & _ & Hl).
  eapply (hkeeps_mono Inv); [apply (keeps_word_access SecOrder 4); [done|done|intros; zbool; lia]|].
  intros v (Hb & Hv & Hst). zbool. split; [done|]. split; [unfold is_u32, u32_max; lia|].
  intros l (content & modified & Hs & ->). simpl kl_order. rewrite get_at_words by lia. by rewrite <- (Hst _ _ Hs).
Qed.

Lemma keeps_raw_digest_at i :
  0 <= i -> hkeeps Inv (raw_digest_at idx i) (fun v => i < index_len idx /\ is_u32 v /\
    forall l, stands_for idx l -> get_at (kl_raw_digest l) i = Some v).
Proof.
  intros Hi. pose proof index_len_bounds. destruct (section_lens idx Hidx) as (_ & _ & Hl & _).
  eapply (hkeeps_mono Inv); [apply (keeps_word_access SecRaw 4); [done|done|intros; zbool; lia]|].
  intros v (Hb & Hv & Hst). zbool. split; [done|]. split; [unfold is_u32, u32_max; lia|].
  intros l (content & modified & Hs & ->). simpl kl_raw_digest. rewrite get_at_words by lia. by rewrite <- (Hst _ _ Hs).
Qed.

(** ** Texts *)

(** [read_section] of any range: the bytes, under a reservation of their
    number. *)
Lemma triple_read_section base hs k offset len :
  0 <= offset -> 0 <= len ->
  htriple Inv base hs (read_section idx k offset len)
    (fun b => range_read idx k offset (offset + len) (ib_bytes b) /\ ib_memory b = len /\
       offset + len <= sd_len (section idx k))
    (fun b => base + ib_memory b) (fun _ => hs) base hs.
Proof.
  intros Ho Hl. unfold read_section, check_section_range.
  apply (htriple_bind Inv _ _ _ _ (fun _ => offset + len <= sd_len (section idx k)) (fun _ => base) (fun _ => hs)).
  { apply (htriple_lift Inv). wp_steps. zbool. rinv. done. }
  intros end_ He. cbv beta in He |- *. apply (htriple_retained Inv); [done|].
  apply (htriple_bind Inv _ _ _ _ (fun _ => True) (fun _ => base + len) (fun _ => hs));
    [by apply (htriple_lift Inv), wp_try_reserve_vec|]. intros [] _. cbv beta.
  pose proof (succeeds_read_cached max c idx Hidx k offset len Ho Hl He) as Hr.
  destruct (Z.eqb_spec len 0) as [->|].
  - apply (htriple_ret Inv); [|done|done]. cbn [ib_bytes ib_memory]. split; [|by split].
    split; [simpl; lia|]. split; [constructor|]. intros content modified [Hz _]. apply slice_Some.
    destruct (section_bounds idx Hidx k) as ([? ?] & [? ?] & ? & _).
    split; [lia|]. by replace (Z.to_nat _) with 0%nat by lia.
  - eapply (htriple_bind Inv); [by apply (succeeds_keeps max c idx)|]. intros out Hout. cbv beta.
    by apply (htriple_ret Inv).
Qed.

(** [row_text]: the stored text, which is UTF-8, under a reservation of its
    length. *)
Lemma triple_index_row_text base hs ordinal :
  0 <= ordinal ->
  htriple Inv base hs (index_row_text idx ordinal)
    (fun t => ordinal < index_len idx /\ text_ok (it_text t) /\ it_memory t = zlen (it_text t) /\
       forall l, stands_for idx l -> stored_row l ordinal = Some (it_text t))
    (fun t => base + it_memory t) (fun _ => hs) base hs.
Proof.
  intros Ho. apply (htriple_nonneg Inv). intros Hbase. unfold index_row_text. pose proof index_len_bounds as Hlen. unfold u32_max in Hlen.
  apply (htriple_bind Inv _ _ _ _ (fun _ => ordinal < index_len idx) (fun _ => base) (fun _ => hs)).
  { apply (htriple_lift Inv), wp_ensure. intros. by zbool. }
  intros [] Hlt. cbv beta in Hlt |- *.
  eapply (htriple_bind Inv); [by apply (keeps_bound_at ordinal)|]. intros start (_ & [Hs0 _] & Hstart). cbv beta.
  apply (htriple_bind Inv _ _ _ _ (fun n => n = ordinal + 1) (fun _ => base) (fun _ => hs)).
  { apply (htriple_lift Inv). unfold checked_add. by rewrite (proj2 (Z.leb_le _ _)) by (unfold u64_max; lia). }
  intros ? ->. cbv beta.
  eapply (htriple_bind Inv); [apply (keeps_bound_at (ordinal + 1)); lia|]. intros end_ (_ & [He0 _] & Hend). cbv beta.
  apply (htriple_bind Inv _ _ _ _ (fun n => n = end_ - start /\ start <= end_) (fun _ => base) (fun _ => hs)).
  { apply (htriple_lift Inv), wp_ok_or. intros n Hn. by apply checked_sub_Some in Hn. }
  intros ? [-> Hle]. cbv beta.
  apply (htriple_bind Inv _ _ _ _ (fun _ => True) (fun _ => base) (fun _ => hs));
    [by apply (htriple_lift Inv), wp_ensure|]. intros [] _. cbv beta.
  apply (htriple_bind Inv _ _ _ _ (fun n => n = end_ - start) (fun _ => base) (fun _ => hs));
    [by apply (htriple_lift Inv), wp_checked_usize|]. intros ? ->. cbv beta.
  apply (htriple_bind Inv _ _ _ _ (fun _ => True) (fun _ => base) (fun _ => hs));
    [by apply (htriple_lift Inv), wp_ensure_usize_limit|]. intros [] _. cbv beta.
  eapply (htriple_bind Inv); [apply triple_read_section; lia|].
  intros b ((Hz & Hok & Hst) & Hm & Hin). cbv beta. rewrite Hm. replace (start + (end_ - start)) with end_ in * by lia.
  intros s Hs. unfold wpM, or_drop, Errors.mbind, lift. destruct (utf8_decode (ib_bytes b)) as [cs|] eqn:Eu; simpl.
  - split; [|exact Hs]. split; [done|]. split; [by exists cs|]. split; [lia|].
    intros l (content & modified & Hstb & ->). unfold stored_row.
    rewrite (Hstart (index_locator idx content)) by (by exists content, modified). cbn [mbind option_bind].
    rewrite (Hend (index_locator idx content)) by (by exists content, modified). cbn [mbind option_bind].
    eapply (range_at_section SecText); [exact Hstb|done|done|by eapply Hst].
  - exact (inv_drop (Inv := Inv) _ _ _ (end_ - start) ltac:(lia) Hbase Hs).
Qed.

(** A scope that owns a row text. *)
Lemma triple_with_index_text {A} base hs t (body : M IndexState A) P base' hs' :
  0 <= it_memory t -> 0 <= base -> (forall a, P a -> 0 <= base' a) ->
  htriple Inv (base + it_memory t) hs body P (fun a => base' a + it_memory t) hs' (base + it_memory t) hs ->
  htriple Inv (base + it_memory t) hs (with_index_text t body) P base' hs' base hs.
Proof.
  intros Ht Hbase Hb' Hm s Hs. specialize (Hm s Hs). unfold wpM, with_index_text in *.
  destruct (body s) as [[a|e| |] s']; try done.
  - destruct Hm as [Ha Hm]. split; [done|]. apply (inv_drop (Inv := Inv)); auto.
  - by apply (inv_drop (Inv := Inv)).
Qed.

(** ** Searching *)

(** The index holds [keys]. *)
Definition encodes (n : KeyNormalizer) (keys : list text) (l : KeyLocator) : Prop :=
  stands_for idx l /\ locator_of n keys l.

Lemma encodes_length n keys l : encodes n keys l -> zlen keys = index_len idx /\ zlen (kl_order l) = index_len idx.
Proof.
  intros [(content & modified & _ & ->) Hl]. pose proof (index_keys_length n idx keys content Hidx Hl) as Hk.
  split; [done|]. destruct Hl as (_ & _ & _ & Hp & _). apply Permutation_length in Hp.
  rewrite length_seqZ in Hp. lia.
Qed.

Lemma keeps_lower_bound_loop n fuel query inclusive_end left right :
  0 <= left <= right -> right <= index_len idx -> right - left < Z.of_nat fuel ->
  hkeeps Inv (lower_bound_loop idx fuel query inclusive_end left right) (fun r =>
    left <= r <= right /\ forall keys l, encodes n keys l ->
      left <= boundary l query inclusive_end <= right -> r = boundary l query inclusive_end).
Proof.
  revert left right; induction fuel as [|fuel IH]; intros left right Hl Hr Hf; [lia|].
  cbn [lower_bound_loop]. apply (hkeeps_if Inv); intros Hlt; zbool.
  2: { apply (hkeeps_ret Inv). split; [lia|]. intros. lia. }
  set (middle := left + (right - left) / 2).
  assert (left <= middle < right) as Hmid.
  { unfold middle. pose proof (Z.div_mod (right - left) 2). pose proof (Z.mod_pos_bound (right - left) 2). lia. }
  eapply (hkeeps_bind Inv); [apply keeps_order_at; lia|]. intros ordinal (_ & [Ho _] & Hord). cbv beta.
  intros base hs. apply (htriple_nonneg Inv). intros Hbase.
  eapply (htriple_bind Inv); [by apply triple_index_row_text|]. intros t (_ & _ & Hm & Hrow). cbv beta.
  apply (htriple_bind Inv _ _ _ _ (fun b => b = negb (on_left query inclusive_end (it_text t)))
           (fun _ => base) (fun _ => hs)).
  { apply triple_with_index_text; [lia|done|by intros|].
    apply (htriple_ret Inv); [|done|done]. unfold on_left. destruct inclusive_end.
    - apply bytes_ltb_leb.
    - by rewrite bytes_ltb_leb, negb_involutive. }
  intros ? ->. cbv beta.
  assert (forall keys l, encodes n keys l ->
            on_left query inclusive_end (it_text t) = (middle <? boundary l query inclusive_end)) as Hside.
  { intros keys l [Hst Hof]. pose proof (Hord l Hst) as Hat. pose proof (order_row n keys l _ _ Hof Hat) as Hin.
    pose proof (Hrow l Hst) as Htext. rewrite (stored_row_normalized n keys l ordinal Hof Hin) in Htext.
    injection Htext as <-. by apply (boundary_spec n keys l query inclusive_end Hof). }
  destruct (on_left query inclusive_end (it_text t)) eqn:Eside; cbn [negb].
  - eapply (htriple_mono Inv); [apply IH; lia|]. intros r [Hrange Hb]. split; [|done]. split; [lia|].
    intros keys l He Hbd. apply (Hb keys l He). specialize (Hside keys l He). symmetry in Hside. zbool. lia.
  - eapply (htriple_mono Inv); [apply IH; lia|]. intros r [Hrange Hb]. split; [|done]. split; [lia|].
    intros keys l He Hbd. apply (Hb keys l He). specialize (Hside keys l He). symmetry in Hside. zbool. lia.
Qed.

Lemma keeps_lower_bound n query inclusive_end :
  hkeeps Inv (index_lower_bound idx query inclusive_end) (fun r =>
    0 <= r <= index_len idx /\ forall keys l, encodes n keys l -> r = boundary l query inclusive_end).
Proof.
  pose proof index_len_bounds. unfold index_lower_bound.
  eapply (hkeeps_mono Inv); [apply (keeps_lower_bound_loop n); lia|].
  intros r [Hr Hb]. split; [done|]. intros keys l He. apply (Hb keys l He).
  rewrite <- (proj2 (encodes_length n keys l He)). apply (boundary_spec n keys l query inclusive_end (proj2 He)).
Qed.

Lemma keeps_equal_range n query :
  hkeeps Inv (index_equal_range idx query) (fun r =>
    match r with Some (start, end_) => 0 <= start < end_ /\ end_ <= index_len idx | None => True end /\
    forall keys l, encodes n keys l -> r = equal_range l query).
Proof.
  unfold index_equal_range. eapply (hkeeps_bind Inv); [apply (keeps_lower_bound n)|]. intros start [Hs Hsb]. cbv beta.
  eapply (hkeeps_bind Inv); [apply (keeps_lower_bound n)|]. intros end_ [He Heb]. cbv beta.
  apply (hkeeps_ret Inv). split.
  - destruct (Z.ltb_spec start end_); [lia|done].
  - intros keys l Henc. rewrite boundary_equal_range. by rewrite <- (Hsb keys l Henc), <- (Heb keys l Henc).
Qed.

(** The rows at a range of the order. *)
Lemma keeps_ordinals_loop positions ordinals :
  Forall (fun p => 0 <= p) positions ->
  hkeeps Inv (ordinals_loop idx positions ordinals) (fun r => exists found,
    r = ordinals ++ found /\ length found = length positions /\ Forall is_u32 found /\
    forall l, stands_for idx l -> Forall2 (fun p row => get_at (kl_order l) p = Some row) positions found).
Proof.
  intros Hp; revert ordinals; induction Hp as [|p positions Hp _ IH]; intros ordinals; cbn [ordinals_loop].
  { apply (hkeeps_ret Inv). exists []. rewrite app_nil_r. by split_and!. }
  eapply (hkeeps_bind Inv); [by apply keeps_order_at|]. intros row (_ & Hrow & Hat). cbv beta.
  eapply (hkeeps_mono Inv); [apply IH|]. intros r (found & -> & Hlen & Hok & Hall).
  exists (row :: found). rewrite <- app_assoc. split_and!; [done|simpl; lia|by constructor|].
  intros l Hst. constructor; [by apply Hat|by apply Hall].
Qed.

Lemma keeps_ordinals_in start end_ :
  0 <= start ->
  hkeeps Inv (ordinals_in idx start end_) (fun found =>
    zlen found = end_ - start /\ Forall is_u32 found /\
    forall l, stands_for idx l ->
      Forall2 (fun p row => get_at (kl_order l) p = Some row) (seqZ start (end_ - start)) found).
Proof.
  intros Hs. unfold ordinals_in.
  eapply (hkeeps_bind Inv _ _ (fun n => n = end_ - start /\ start <= end_));
    [apply (hkeeps_lift Inv), wp_ok_or; intros n Hn; by apply checked_sub_Some in Hn|]. intros ? [-> Hle]. cbv beta.
  eapply (hkeeps_bind Inv _ _ (fun _ => True)); [by apply (hkeeps_lift Inv), wp_checked_usize|]. intros ? _. cbv beta.
  eapply (hkeeps_bind Inv _ _ (fun _ => True)); [by apply (hkeeps_lift Inv), wp_try_reserve_vec|]. intros [] _. cbv beta.
  eapply (hkeeps_mono Inv); [apply keeps_ordinals_loop, Forall_seqZ; lia|].
  intros r (found & -> & Hlen & Hok & Hall). simpl. rewrite length_seqZ in Hlen. split; [lia|]. by split.
Qed.

End Searching.
