(* ===== verification/IndexQuery.v ===== *)
(** Queries through a persistent key index: [src/core/persistent/query.rs] and
    the index methods of [src/mdx.rs].  An index file is not trusted: every
    row that decides an answer is checked against the key of the dictionary. *)

From stdpp Require Import list_numbers.
From S2P Require Import Prelude Errors Types Budget Logic Utf8 Encoding Source Descriptors Header KeySection Format Normalize LocatorIndex Arcs Core Dictionary Keys Locator Locate CaseVariants Lookup Mdx IndexFormat IndexCache IndexOpen IndexSearch.

Section IndexQuery.

Context `{Env} (f : MdictFile) (idx : PersistentKeyIndex).

Definition key_mismatch (ordinal : Z) : Error := reject (RejSourceKeyMismatch ordinal).

(** [verified_source_key] *)
Definition verified_source_key (ordinal : Z) (expected_normalized : text) : M IndexState KeyEntry :=
  let! entry := on_core (key_at_ordinal f ordinal) in
  let! entry := lift (ok_or entry (key_mismatch ordinal)) in
  let! normalized := lift (normalize (mf_normalizer f) (ke_key entry)) in
  if negb (bytes_eqb normalized expected_normalized) then merr (key_mismatch ordinal)
  else
    let! row := index_row_text idx ordinal in
    let! differs := with_index_text row (mret (negb (bytes_eqb (it_text row) normalized))) in
    if differs : bool then merr (key_mismatch ordinal)
    else
      let! digest := raw_digest_at idx ordinal in
      if negb (digest =? raw_digest (ke_key entry)) then merr (key_mismatch ordinal) else mret entry.

(** The identity check and the normalized query, with which every lookup
    begins. *)
Definition with_index_query {A} (query : text) (context : string) (body : text -> M IndexState A)
    : M IndexState A :=
  let! _ := on_core (validate_dictionary_identity f (ih_source_identity (pi_header idx))) in
  with_normalized f query context body.

(** The number of rows of a range. *)
Definition range_count (start end_ : Z) (context : string) : Result Z :=
  let? count := ok_or (checked_sub end_ start) (invalid_layout "order range is inverted") in
  checked_usize count context.

(** The test of one row in the loops of [locate] and [locate_page]: is it
    spelled like the query? *)
Definition exact_row (normalized query : text) (digest ordinal : Z) : M IndexState bool :=
  let! raw := raw_digest_at idx ordinal in
  if negb (raw =? digest) then mret false
  else
    let! key := verified_source_key ordinal normalized in
    mret (bytes_eqb (ke_key key) query).

(** The loop of [locate] that moves the exact rows to the front of the vector
    it reads. *)
Fixpoint compact_loop (normalized query : text) (digest : Z) (positions ordinals : list Z)
    (exact_count : Z) : M IndexState (list Z * Z) :=
  match positions with
  | [] => mret (ordinals, exact_count)
  | position :: positions =>
      let! ordinal := lift (or_panic (get_at ordinals position) "index out of bounds") in
      let! exact := exact_row normalized query digest ordinal in
      if exact : bool then
        let! _ := lift (or_panic (get_at ordinals exact_count) "index out of bounds") in
        let ordinals := <[Z.to_nat exact_count := ordinal]> ordinals in
        let! exact_count := lift (increment exact_count) in
        compact_loop normalized query digest positions ordinals exact_count
      else compact_loop normalized query digest positions ordinals exact_count
  end.

(** The loop of [locate] that verifies all rows. *)
Fixpoint verify_loop (normalized : text) (ordinals : list Z) : M IndexState unit :=
  match ordinals with
  | [] => mret tt
  | ordinal :: ordinals =>
      let! _ := verified_source_key ordinal normalized in
      verify_loop normalized ordinals
  end.

(** The part of [locate] that owns the reservation of the matches. *)
Definition locate_matches (normalized query : text) (start end_ match_bytes : Z)
    : M IndexState (option LocatedKeys) :=
  let! ordinals := ordinals_in idx start end_ in
  let! '(compacted, exact_count) :=
    compact_loop normalized query (raw_digest query) (seqZ 0 (zlen ordinals)) ordinals 0 in
  if negb (exact_count =? 0)
  then on_core (keys_from_owned RawExact (take (Z.to_nat exact_count) compacted) (Some match_bytes))
  else
    let! _ := verify_loop normalized compacted in
    on_core (keys_from_owned HeaderNormalized compacted (Some match_bytes)).

(** [locate] *)
Definition index_locate (query : text) : M IndexState (option LocatedKeys) :=
  with_index_query query "persistent key-index query" (fun normalized =>
    let! range := index_equal_range idx normalized in
    match range with
    | None => mret None
    | Some (start, end_) =>
        let! match_count := lift (range_count start end_ "persistent key-index match count") in
        let! match_bytes := lift (ok_or (checked_mul match_count size_of_u32)
                                    (InvalidFormat "persistent key-index match size overflow")) in
        let! _ := lift (ensure_usize_limit "key_index_match_bytes" match_bytes (locator_bytes (mf_limits f))) in
        retained match_bytes "persistent key-index matches"
          (locate_matches normalized query start end_ match_bytes)
    end).

(** The row of match [match_index] on a page that has room for it. *)
Definition page_push (offset limit match_index ordinal : Z) (ordinals : list Z) : list Z :=
  if (offset <=? match_index) && (zlen ordinals <? limit) then ordinals ++ [ordinal] else ordinals.

(** The first loop of [locate_page]. *)
Fixpoint index_page_exact_loop (normalized query : text) (digest offset limit : Z) (positions : list Z)
    (exact_count : Z) (ordinals : list Z) : M IndexState (Z * list Z) :=
  match positions with
  | [] => mret (exact_count, ordinals)
  | position :: positions =>
      let! ordinal := order_at idx position in
      let! exact := exact_row normalized query digest ordinal in
      if exact : bool then
        let match_index := exact_count in
        let! exact_count := lift (ok_or (checked_add exact_count 1)
                                    (InvalidFormat "raw-exact match count overflow")) in
        index_page_exact_loop normalized query digest offset limit positions exact_count
          (page_push offset limit match_index ordinal ordinals)
      else index_page_exact_loop normalized query digest offset limit positions exact_count ordinals
  end.

(** The second loop of [locate_page]. *)
Fixpoint index_page_all_loop (normalized : text) (offset limit : Z) (positions : list Z)
    (match_index : Z) (ordinals : list Z) : M IndexState (list Z) :=
  match positions with
  | [] => mret ordinals
  | position :: positions =>
      let! ordinal := order_at idx position in
      let! _ := verified_source_key ordinal normalized in
      index_page_all_loop normalized offset limit positions (match_index + 1)
        (page_push offset limit match_index ordinal ordinals)
  end.

(** The part of [locate_page] that owns the reservation of the page. *)
Definition index_fill_page (normalized query : text) (start end_ offset limit page_bytes : Z)
    : M IndexState LocatedKeyPage :=
  let page_capacity := Z.min limit (saturating_sub (end_ - start) offset) in
  let! _ := lift (try_reserve_vec 0 size_of_u32 page_capacity "persistent key-index match page") in
  let! '(exact_count, ordinals) :=
    index_page_exact_loop normalized query (raw_digest query) offset limit (seqZ start (end_ - start)) 0 [] in
  if negb (exact_count =? 0)
  then mret {| lp_basis := RawExact; lp_total := exact_count; lp_ordinals := ordinals;
               lp_reservation := Some page_bytes |}
  else
    let! ordinals :=
      index_page_all_loop normalized offset limit (seqZ start (end_ - start)) 0 [] in
    mret {| lp_basis := HeaderNormalized; lp_total := end_ - start; lp_ordinals := ordinals;
            lp_reservation := Some page_bytes |}.

(** [locate_page] *)
Definition index_locate_page (query : text) (offset limit : Z) : M IndexState (option LocatedKeyPage) :=
  with_index_query query "persistent paged key-index query" (fun normalized =>
    let! range := index_equal_range idx normalized in
    match range with
    | None => mret None
    | Some (start, end_) =>
        let! total := lift (range_count start end_ "persistent key-index match count") in
        let page_capacity := Z.min limit (saturating_sub total offset) in
        let! page_bytes := lift (ok_or (checked_mul page_capacity size_of_u32)
                                   (InvalidFormat "persistent key-index page size overflow")) in
        let! _ := lift (ensure_usize_limit "key_match_page_bytes" page_bytes (locator_bytes (mf_limits f))) in
        let! page := retained page_bytes "persistent key-index match page"
                       (index_fill_page normalized query start end_ offset limit page_bytes) in
        mret (Some page)
    end).

(** The closure of [locate_case_variants]. *)
Definition index_source_key (normalized : text) (start position : Z) : M IndexState (Z * KeyEntry) :=
  let! position := lift (ok_or (try_u64 position) (InvalidFormat "case-variant position exceeds u64")) in
  let! at_ := lift (or_panic (checked_add start position) "attempt to add with overflow") in
  let! ordinal := order_at idx at_ in
  let! key := verified_source_key ordinal normalized in
  mret (ordinal, key).

(** [locate_case_variants] *)
Definition index_case_variants (query : text) (offset limit : Z) : M IndexState (option LocatedKeyPage) :=
  with_index_query query "persistent case-variant query" (fun normalized =>
    let! range := index_equal_range idx normalized in
    match range with
    | None => mret None
    | Some (start, end_) =>
        let! count := lift (range_count start end_ "persistent case-variant count") in
        select_page f query count offset limit (index_source_key normalized start)
    end).

Definition size_of_key_entry : Z := 32.

(** One round of the loop of [prefix]; [None] breaks. *)
Definition prefix_row (normalized : text) (position : Z) : M IndexState (option KeyEntry) :=
  let! ordinal := order_at idx position in
  let! row := index_row_text idx ordinal in
  with_index_text row (
    if negb (starts_with (it_text row) normalized) then mret None
    else let! key := verified_source_key ordinal (it_text row) in mret (Some key)).

(** The loop of [prefix]. *)
Fixpoint index_prefix_loop (normalized : text) (limit : Z) (positions : list Z) (found : list KeyEntry)
    : M IndexState (list KeyEntry) :=
  match positions with
  | [] => mret found
  | position :: positions =>
      if negb (zlen found <? limit) then mret found
      else
        let! key := prefix_row normalized position in
        match key with
        | None => mret found
        | Some key =>
            let! _ := lift (try_reserve_vec (zlen found) size_of_key_entry 1 "persistent prefix matches") in
            index_prefix_loop normalized limit positions (found ++ [key])
        end
  end.

(** [prefix] *)
Definition index_prefix (prefix : text) (limit : Z) : M IndexState (list KeyEntry) :=
  if limit =? 0 then mret []
  else
    with_index_query prefix "persistent key-index prefix query" (fun normalized =>
      let! position := index_lower_bound idx normalized false in
      index_prefix_loop normalized limit (seqZ position (index_len idx - position)) []).

(** [scan] runs with the variables its visitor captures, of type [V]: they keep
    what the visitor did to them when the scan fails. *)
Definition Scan (V A : Type) : Type := M (IndexState * V) A.

Definition in_index {V A} (m : M IndexState A) : Scan V A := fun '(s, v) =>
  let (r, s) := m s in (r, (s, v)).

(** [visit(KeyOrdinal::new(row), &text).is_break()] *)
Definition call_visit {V} (visit : Visit V) (row : Z) (text : text) : Scan V bool := fun '(s, v) =>
  let (v, is_break) := visit v row text in (Ok is_break, (s, v)).

(** The scope of the text of a row. *)
Definition scanning_text {V A} (row : IndexText) (body : Scan V A) : Scan V A := fun sv =>
  match body sv with (r, (s, v)) => (r, (drop_reservation (it_memory row) s, v)) end.

(** The loop of [scan]. *)
Fixpoint index_scan_loop {V} (visit : Visit V) (rows : list Z) : Scan V unit :=
  match rows with
  | [] => mret tt
  | row :: rows =>
      let! ordinal := lift (ok_or (try_u32 row)
                              (invalid_layout "key count exceeds ordinal representation")) in
      let! text := in_index (index_row_text idx ordinal) in
      let! is_break := scanning_text text (
        let! _ := in_index (verified_source_key ordinal (it_text text)) in
        call_visit visit row (it_text text)) in
      if is_break : bool then mret tt else index_scan_loop visit rows
  end.

(** [scan] *)
Definition index_scan {V} (visit : Visit V) : Scan V unit :=
  let! _ := in_index (on_core (validate_dictionary_identity f (ih_source_identity (pi_header idx)))) in
  index_scan_loop visit (seqZ 0 (index_len idx)).

(** * The methods of [MdxFile] *)

(** [MdxFile::locate_with_key_index] *)
Definition locate_with_key_index (query : text) : M IndexState (option LocatedKeys) := index_locate query.

(** [MdxFile::locate_page_with_key_index] *)
Definition locate_page_with_key_index (query : text) (offset limit : Z) : M IndexState (option LocatedKeyPage) :=
  index_locate_page query offset limit.

(** [MdxFile::prefix_keys_with_index] *)
Definition prefix_keys_with_index (prefix : text) (limit : Z) : M IndexState (list KeyEntry) :=
  index_prefix prefix limit.

(** [MdxFile::scan_normalized_keys_with_index] *)
Definition scan_normalized_keys_with_index {V} (visit : Visit V) : Scan V unit := index_scan visit.

(** [MdxFile::locate_with_key_index_and_mode] *)
Definition locate_with_key_index_and_mode (query : text) (mode : MatchMode)
    : M IndexState (option LocatedKeys) :=
  let! page := if includes_case_variants f mode
               then index_case_variants query 0 usize_max else mret None in
  match page with
  | Some page => on_core (into_matches page)
  | None => locate_with_key_index query
  end.

(** [MdxFile::locate_page_with_key_index_and_mode] *)
Definition locate_page_with_key_index_and_mode (query : text) (offset limit : Z) (mode : MatchMode)
    : M IndexState (option LocatedKeyPage) :=
  let! page := if includes_case_variants f mode
               then index_case_variants query offset limit else mret None in
  match page with
  | Some page => mret (Some page)
  | None => locate_page_with_key_index query offset limit
  end.

End IndexQuery.

(** * Lemmas *)

Section QueryProofs.

Context `{EnvOk} (f : MdictFile) (Hf : file_ok f) (idx : PersistentKeyIndex) (Hidx : index_ok idx).

Let max := working_memory_bytes (mf_limits f).

Let n := mf_normalizer f.

#[local] Notation Inv := (index_state_ok max (contracts f) idx).

(** The rows of the dictionary, when its file is stable and decodes. *)
Definition dictionary_rows (rows : list DecodedKeyRow) : Prop :=
  exists content modified, stable (mf_source f) content modified /\ all_rows f content = Ok rows.

(** An ordinal whose key satisfies [P]. *)
Definition key_satisfies (P : text -> Prop) (ordinal : Z) : Prop :=
  forall rows, dictionary_rows rows -> exists row, get_at rows ordinal = Some row /\ P (row_key row).

(** The index file stands for the index of the keys of the dictionary. *)
Definition indexed (keys : list text) (l : KeyLocator) : Prop :=
  encodes idx n keys l /\ exists rows, dictionary_rows rows /\ keys = map row_key rows.

Lemma row_entry_key rows ordinal e :
  row_entry ordinal <$> get_at rows ordinal = Some e ->
  exists row, get_at rows ordinal = Some row /\ ke_key e = row_key row /\ ke_ordinal e = ordinal.
Proof. destruct (get_at rows ordinal) as [row|]; [|done]. intros [= <-]. by exists row. Qed.

(** A key that [verified_source_key] returns is the key of the dictionary, has
    the expected normalized form, and the index agrees with it. *)
Lemma keeps_verified_source_key ordinal expected :
  0 <= ordinal ->
  hkeeps Inv (verified_source_key f idx ordinal expected) (fun e =>
    normalized n (ke_key e) = expected /\ ke_ordinal e = ordinal /\
    (forall rows, dictionary_rows rows -> row_entry ordinal <$> get_at rows ordinal = Some e)).
Proof.
  intros Ho. unfold verified_source_key.
  eapply (hkeeps_bind Inv); [apply on_core_keeps, (keeps_key_at_ordinal f Hf ordinal Ho)|].
  intros answer Hans. cbv beta.
  eapply (hkeeps_bind Inv _ _ (fun e => answer = Some e));
    [by apply (hkeeps_lift Inv), wp_ok_or|]. intros entry ->. cbv beta.
  eapply (hkeeps_bind Inv); [apply (hkeeps_lift Inv), wp_normalize|]. intros t ->. cbv beta.
  apply (hkeeps_if Inv); intros Hn; [apply (hkeeps_err Inv)|]. apply negb_false_iff, bytes_eqb_true in Hn.
  assert (forall rows, dictionary_rows rows -> row_entry ordinal <$> get_at rows ordinal = Some entry) as Hrow.
  { intros rows (content & modified & Hst & Hrows). symmetry. by eapply key_answer_rows. }
  intros base hs. apply (htriple_nonneg Inv). intros Hbase.
  eapply (htriple_bind Inv); [by apply (triple_index_row_text max (contracts f) idx Hidx)|].
  intros row (_ & _ & Hm & _). cbv beta.
  eapply (htriple_bind Inv _ _ _ _ (fun _ => True) (fun _ => base) (fun _ => hs)).
  { apply triple_with_index_text; [lia|done|by intros|]. by apply (htriple_ret Inv). }
  intros differs _. cbv beta. destruct differs; [apply (htriple_err Inv)|].
  eapply (htriple_bind Inv); [by apply (keeps_raw_digest_at max (contracts f) idx Hidx)|]. intros digest _. cbv beta.
  apply (htriple_if Inv); intros _; [apply (htriple_err Inv)|]. apply (htriple_ret Inv); [|done|done].
  split; [done|]. split; [apply Hans|done].
Qed.

Context (keys : list text) (l : KeyLocator).

#[local] Notation Enc := (indexed keys l).

(** What the index says of a row, when it is the index of the dictionary. *)
Lemma indexed_key ordinal e :
  (forall rows, dictionary_rows rows -> row_entry ordinal <$> get_at rows ordinal = Some e) ->
  Enc -> ke_key e = key_at keys ordinal /\ 0 <= ordinal < zlen keys.
Proof.
  intros He (_ & rows & Hrows & ->). destruct (row_entry_key _ _ _ (He rows Hrows)) as (row & Hrow & -> & _).
  pose proof (get_at_Some _ _ _ Hrow). rewrite length_map. split; [|done].
  unfold key_at, get_at in *. rewrite (proj2 (Z.leb_le _ _)) in * by lia.
  by rewrite list_lookup_fmap, Hrow.
Qed.

Lemma indexed_digest ordinal digest :
  (forall l, stands_for idx l -> get_at (kl_raw_digest l) ordinal = Some digest) ->
  Enc -> 0 <= ordinal < zlen keys -> digest = raw_digest (key_at keys ordinal).
Proof.
  intros Hd [[Hst (_ & _ & Hdig & _)] _] Ho. specialize (Hd l Hst). rewrite Hdig in Hd.
  unfold key_at, get_at in *. rewrite (proj2 (Z.leb_le _ _)) in * by lia. rewrite list_lookup_fmap in Hd.
  destruct (keys !! Z.to_nat ordinal); simpl in Hd; [by injection Hd|done].
Qed.

(** The test of one row. *)
Lemma keeps_exact_row query ordinal :
  0 <= ordinal ->
  hkeeps Inv (exact_row f idx (normalized n query) query (raw_digest query) ordinal) (fun b =>
    (b = true -> key_satisfies (fun key => key = query) ordinal) /\
    (Enc -> 0 <= ordinal < zlen keys -> b = bytes_eqb (key_at keys ordinal) query)).
Proof.
  intros Ho. unfold exact_row.
  eapply (hkeeps_bind Inv); [by apply (keeps_raw_digest_at max (contracts f) idx Hidx)|].
  intros digest (_ & _ & Hd). cbv beta. apply (hkeeps_if Inv); intros Heq.
  - apply (hkeeps_ret Inv). split; [done|]. intros Henc Hr. symmetry. apply not_true_iff_false.
    rewrite bytes_eqb_true. intros Hk. apply negb_true_iff, Z.eqb_neq in Heq. apply Heq.
    rewrite (indexed_digest _ _ Hd Henc Hr). by rewrite Hk.
  - eapply (hkeeps_bind Inv); [by apply keeps_verified_source_key|]. intros e (_ & _ & He). cbv beta.
    apply (hkeeps_ret Inv). split.
    + intros Hb%bytes_eqb_true rows Hrows. destruct (row_entry_key _ _ _ (He rows Hrows)) as (row & ? & Hk & _).
      exists row. split; [done|congruence].
    + intros Henc _. by destruct (indexed_key _ _ He Henc) as [-> _].
Qed.

(** ** [locate] *)

(** Moving the exact rows forward; [gap] is what lies between them and the
    rows still to be read. *)
Lemma keeps_compact_loop query kept gap remaining :
  Forall is_u32 remaining -> Forall (key_satisfies (fun key => key = query)) kept ->
  zlen kept + zlen gap + zlen remaining < u64_max ->
  hkeeps Inv
    (compact_loop f idx (normalized n query) query (raw_digest query)
       (seqZ (zlen kept + zlen gap) (zlen remaining)) (kept ++ gap ++ remaining) (zlen kept)) (fun r =>
    exists kept' tail_, r = (kept' ++ tail_, zlen kept') /\
      Forall (key_satisfies (fun key => key = query)) kept' /\
      (length kept <= length kept')%nat /\
      (length kept' = length kept -> kept' ++ tail_ = kept ++ gap ++ remaining) /\
      (Enc -> Forall (fun o => 0 <= o < zlen keys) remaining ->
       kept' = kept ++ exact_of keys query remaining)).
Proof.
  intros Hu; revert kept gap; induction Hu as [|o remaining [Ho _] _ IH]; intros kept gap Hkept Hmax.
  { cbn [length Z.of_nat seqZ compact_loop]. apply (hkeeps_ret Inv). exists kept, gap.
    rewrite !app_nil_r. split_and!; try done. }
  rewrite length_cons in Hmax |- *. rewrite Nat2Z.inj_succ, seqZ_cons, Z.pred_succ by lia. cbn [compact_loop].
  assert (get_at (kept ++ gap ++ o :: remaining) (zlen kept + zlen gap) = Some o) as Hat.
  { unfold get_at. rewrite (proj2 (Z.leb_le _ _)) by lia.
    rewrite lookup_app_r by lia. rewrite lookup_app_r by lia.
    by replace (_ - _ - _)%nat with 0%nat by lia. }
  eapply (hkeeps_bind Inv _ _ (fun x => x = o)); [apply (hkeeps_lift Inv); by rewrite Hat|]. intros ? ->. cbv beta.
  eapply (hkeeps_bind Inv); [by apply keeps_exact_row|]. intros b [Hb Hst]. cbv beta. destruct b.
  - eapply (hkeeps_bind Inv _ _ (fun _ => True)).
    { apply (hkeeps_lift Inv), wp_or_panic; [|done]. apply get_at_is_Some. rewrite !length_app, length_cons. lia. }
    intros ? _. cbv beta.
    eapply (hkeeps_bind Inv); [apply (keeps_increment Inv); lia|]. intros ? ->. cbv beta.
    assert (exists gap', <[Z.to_nat (zlen kept) := o]> (kept ++ gap ++ o :: remaining) =
              (kept ++ [o]) ++ gap' ++ remaining /\ length gap' = length gap) as (gap' & -> & Hgap).
    { rewrite Nat2Z.id. replace (length kept) with (length kept + 0)%nat by lia. rewrite insert_app_r.
      destruct gap as [|g gap]; simpl.
      - exists []. by rewrite <- app_assoc.
      - exists (gap ++ [o]). rewrite length_app, <- !app_assoc. simpl. split; [done|lia]. }
    replace (Z.succ (zlen kept + zlen gap)) with (zlen (kept ++ [o]) + zlen gap')
      by (rewrite length_app; simpl; lia).
    replace (zlen kept + 1) with (zlen (kept ++ [o])) by (rewrite length_app; simpl; lia).
    eapply (hkeeps_mono Inv); [apply IH|].
    + apply Forall_app. split; [done|]. constructor; [by apply Hb|done].
    + rewrite length_app. simpl. lia.
    + intros r (kept' & tail_ & -> & Hk & Hle & _ & Hall). exists kept', tail_. rewrite length_app in Hle. simpl in Hle.
      split; [done|]. split; [done|]. split; [lia|]. split; [lia|]. intros Henc Hr. apply Forall_cons in Hr as [Hr Hrs].
      rewrite exact_of_cons, <- (Hst Henc Hr), app_assoc. by apply Hall.
  - replace (Z.succ (zlen kept + zlen gap)) with (zlen kept + zlen (gap ++ [o])) by (rewrite length_app; simpl; lia).
    replace (kept ++ gap ++ o :: remaining) with (kept ++ (gap ++ [o]) ++ remaining) by (by rewrite <- !app_assoc).
    eapply (hkeeps_mono Inv); [apply IH; [done|rewrite length_app; simpl; lia]|].
    intros r (kept' & tail_ & -> & Hk & Hle & Hsame & Hall). exists kept', tail_.
    split_and!; [done|done|done|done|]. intros Henc Hr. apply Forall_cons in Hr as [Hr Hrs].
    rewrite exact_of_cons, <- (Hst Henc Hr). by apply Hall.
Qed.

Lemma keeps_verify_loop query ordinals :
  Forall is_u32 ordinals ->
  hkeeps Inv (verify_loop f idx (normalized n query) ordinals) (fun _ =>
    Forall (key_satisfies (fun key => normalized n key = normalized n query)) ordinals).
Proof.
  induction 1 as [|o ordinals [Ho _] _ IH]; cbn [verify_loop]; [by apply (hkeeps_ret Inv)|].
  eapply (hkeeps_bind Inv); [by apply keeps_verified_source_key|]. intros e (Hn & _ & He). cbv beta.
  eapply (hkeeps_mono Inv); [exact IH|]. intros [] Hall. constructor; [|done]. intros rows Hrows.
  destruct (row_entry_key _ _ _ (He rows Hrows)) as (row & ? & Hk & _). exists row. split; [done|congruence].
Qed.

(** What a match on [query] promises of its keys, whatever the index. *)
Definition sound_key (query : text) (basis : LocatorBasis) (key : text) : Prop :=
  normalized n key = normalized n query /\ (basis = RawExact -> key = query).

Definition sound_matches (query : text) (r : option LocatedKeys) : Prop :=
  forall k, r = Some k -> exists ordinals, denotes k ordinals /\ ordinals <> [] /\
    Forall (key_satisfies (sound_key query (lk_basis k))) ordinals.

(** The answer of the specification. *)
Definition answers_query (query : text) (r : option LocatedKeys) : Prop :=
  match r, locate_spec n keys query with
  | Some k, Some (basis, ordinals) => lk_basis k = basis /\ denotes k ordinals
  | None, None => True
  | _, _ => False
  end.

Lemma positions_unique (l' : KeyLocator) positions a b :
  positions_of l' positions a -> positions_of l' positions b -> a = b.
Proof.
  intros Ha; revert b; induction Ha as [|p x positions a Hx _ IH]; intros b Hb; inversion Hb; [done|].
  subst. f_equal; [congruence|by apply IH].
Qed.

Lemma key_satisfies_mono (P Q : text -> Prop) ordinal :
  (forall key, P key -> Q key) -> key_satisfies P ordinal -> key_satisfies Q ordinal.
Proof. intros HPQ HP rows Hrows. destruct (HP rows Hrows) as (row & ? & ?). exists row. auto. Qed.

Lemma exact_matching query :
  exact_of keys query (matching n keys (normalized n query)) = raw_matching keys query.
Proof. exact (raw_in_matching f keys query). Qed.

(** A non-empty list of matches. *)
Lemma triple_from_owned base hs basis o ordinals bytes base_e hs_e :
  0 <= base -> 0 <= bytes ->
  htriple Inv (base + bytes) hs (on_core (keys_from_owned basis (o :: ordinals) (Some bytes)))
    (fun r => exists k, r = Some k /\ lk_basis k = basis /\ denotes k (o :: ordinals))
    (fun _ => base) (fun r => located_handles r ++ hs) base_e hs_e.
Proof.
  intros Hbase Hb. apply on_core_triple. eapply triple_mono; [by apply (triple_keys_from_owned f base hs basis (o :: ordinals) (Some bytes))|].
  intros [k|] Hk; [|done]. split; [by exists k|done].
Qed.

Lemma triple_locate_matches base hs query start end_ bytes :
  0 <= base -> 0 <= bytes -> 0 <= start < end_ -> end_ <= index_len idx ->
  (Enc -> slice (kl_order l) start end_ = Some (matching n keys (normalized n query))) ->
  htriple Inv (base + bytes) hs (locate_matches f idx (normalized n query) query start end_ bytes)
    (fun r => sound_matches query r /\ (Enc -> answers_query query r))
    (fun _ => base) (fun r => located_handles r ++ hs) (base + bytes) hs.
Proof.
  intros Hbase Hb Hse Hend Hslice. unfold locate_matches. pose proof (index_len_bounds idx Hidx) as Hlen.
  eapply (htriple_bind Inv); [apply (keeps_ordinals_in max (contracts f) idx Hidx); lia|].
  intros ordinals (Hz & Hu & Hpos). cbv beta.
  assert (Enc -> ordinals = matching n keys (normalized n query)) as Hm.
  { intros Henc. eapply positions_unique; [apply Hpos, Henc|]. by apply positions_of_slice, Hslice. }
  assert (Enc -> Forall (fun o => 0 <= o < zlen keys) ordinals) as Hrange.
  { intros Henc. rewrite (Hm Henc). apply Forall_forall. intros o Ho.
    by apply list_elem_of_In, filter_seqZ_In in Ho as [? _]. }
  unfold u32_max in Hlen.
  pose proof (keeps_compact_loop query [] [] ordinals Hu ltac:(constructor) ltac:(unfold u64_max; simpl; lia)) as Hc.
  simpl in Hc. eapply (htriple_bind Inv); [apply Hc|].
  intros [compacted count] (kept & tail_ & [= -> ->] & Hkept & _ & Hsame & Hall). cbv beta iota.
  apply (htriple_if Inv); intros Hcount; zbool.
  - rewrite Nat2Z.id, take_app_length. destruct kept as [|o kept]; [done|].
    eapply (htriple_mono Inv); [by apply triple_from_owned|]. intros r (k & -> & Hbasis & Hden).
    split; [|done]. split.
    + intros ? [= <-]. exists (o :: kept). split_and!; [done|done|]. rewrite Hbasis.
      eapply Forall_impl; [exact Hkept|]. intros x. apply key_satisfies_mono. by intros key ->.
    + intros Henc. unfold answers_query, locate_spec. specialize (Hall Henc (Hrange Henc)).
      rewrite (Hm Henc), exact_matching in Hall. rewrite <- Hall.
      destruct (matching n keys _) eqn:Em; [|done]. specialize (Hm Henc). subst ordinals. simpl in Hz. lia.
  - destruct kept; [|simpl in Hcount; lia]. specialize (Hsame eq_refl). rewrite Hsame. clear Hsame Hkept Hcount tail_.
    eapply (htriple_bind Inv); [by apply keeps_verify_loop|]. intros [] Hver. cbv beta.
    destruct ordinals as [|o ordinals]; [simpl in Hz; lia|].
    eapply (htriple_mono Inv); [by apply triple_from_owned|]. intros r (k & -> & Hbasis & Hden).
    split; [|done]. split.
    + intros ? [= <-]. exists (o :: ordinals). split_and!; [done|done|]. rewrite Hbasis.
      eapply Forall_impl; [exact Hver|]. intros x. by apply key_satisfies_mono.
    + intros Henc. unfold answers_query, locate_spec. specialize (Hall Henc (Hrange Henc)).
      rewrite (Hm Henc), exact_matching in Hall. rewrite <- Hall, <- (Hm Henc). done.
Qed.

(** The range of a query. *)
Lemma keeps_query_range query :
  hkeeps Inv (index_equal_range idx (normalized n query)) (fun r =>
    match r with
    | Some (start, end_) => 0 <= start < end_ /\ end_ <= index_len idx /\
        (Enc -> slice (kl_order l) start end_ = Some (matching n keys (normalized n query)))
    | None => Enc -> matching n keys (normalized n query) = []
    end).
Proof.
  eapply (hkeeps_mono Inv); [apply (keeps_equal_range max (contracts f) idx Hidx n)|].
  intros r [Hr Hrange].
  assert (Enc -> r = equal_range l (normalized n query)) as He by (intros [Henc _]; by eapply Hrange).
  assert (Enc -> match equal_range l (normalized n query) with
            | Some (start, end_) => 0 <= start < end_ /\ slice (kl_order l) start end_ = Some (matching n keys (normalized n query))
            | None => matching n keys (normalized n query) = []
            end) as Hspec by (intros [[_ Hl] _]; by apply equal_range_spec).
  destruct r as [[start end_]|].
  - destruct Hr as [? ?]. split; [done|]. split; [done|]. intros Henc. specialize (Hspec Henc).
    rewrite <- (He Henc) in Hspec. apply Hspec.
  - intros Henc. specialize (Hspec Henc). by rewrite <- (He Henc) in Hspec.
Qed.

Lemma htriple_with_index_query {A} base hs query context (body : text -> M IndexState A) P base' hs' :
  0 <= base -> (forall a, P a -> 0 <= base' a) ->
  (forall len, 0 <= len ->
   htriple Inv (base + len) hs (body (normalized n query)) P (fun a => base' a + len) hs' (base + len) hs) ->
  htriple Inv base hs (with_index_query f idx query context body) P base' hs' base hs.
Proof.
  intros Hbase Hb' Hbody. unfold with_index_query.
  eapply (htriple_bind Inv); [apply on_core_triple, (keeps_budgeted max (contracts f)), (budgeted_validate_identity f)|].
  intros [] _. cbv beta. by apply (htriple_with_normalized f Inv).
Qed.

Lemma wp_range_count start end_ context :
  wp (range_count start end_ context) (fun count => count = end_ - start).
Proof.
  unfold range_count. apply wp_bind, wp_ok_or. intros count [-> _]%checked_sub_Some. by apply wp_checked_usize.
Qed.

Lemma triple_index_locate base hs query :
  0 <= base ->
  htriple Inv base hs (index_locate f idx query)
    (fun r => sound_matches query r /\ (Enc -> answers_query query r))
    (fun _ => base) (fun r => located_handles r ++ hs) base hs.
Proof.
  intros Hbase. unfold index_locate. apply htriple_with_index_query; [done|done|]. intros len Hlen.
  eapply (htriple_bind Inv); [apply keeps_query_range|]. intros [[start end_]|] Hrange; cbv beta iota.
  - destruct Hrange as (Hse & Hend & Hslice).
    eapply (htriple_bind Inv); [apply (htriple_lift Inv), wp_range_count|]. intros ? ->. cbv beta.
    eapply (htriple_bind Inv _ _ _ _ (fun bytes => bytes = (end_ - start) * size_of_u32));
      [apply (htriple_lift Inv), wp_ok_or; intros bytes Hb; by apply checked_mul_Some in Hb as [-> _]|]. intros ? ->. cbv beta.
    eapply (htriple_bind Inv _ _ _ _ (fun _ => True)); [by apply (htriple_lift Inv), wp_ensure_usize_limit|].
    intros [] _. cbv beta. apply (htriple_retained Inv); [unfold size_of_u32; lia|].
    apply triple_locate_matches; [lia|unfold size_of_u32; lia|done|done|done].
  - apply (htriple_ret Inv); [|done|done]. split; [done|]. intros Henc. unfold answers_query, locate_spec.
    by rewrite (Hrange Henc).
Qed.

(** ** [locate_page] *)

Lemma keeps_index_page_exact_loop query offset limit positions seen :
  Forall (fun p => 0 <= p) positions -> 0 <= offset -> 0 <= limit ->
  Forall (key_satisfies (fun key => key = query)) seen ->
  hkeeps Inv
    (index_page_exact_loop f idx (normalized n query) query (raw_digest query) offset limit positions
       (zlen seen) (page_of offset limit seen)) (fun r =>
    exists all, r = (zlen all, page_of offset limit all) /\
      Forall (key_satisfies (fun key => key = query)) all /\
      (Enc -> forall rows, positions_of l positions rows -> all = seen ++ exact_of keys query rows)).
Proof.
  intros Hp Ho Hl; revert seen; induction Hp as [|p positions Hp _ IH]; intros seen Hseen;
    cbn [index_page_exact_loop].
  { apply (hkeeps_ret Inv). exists seen. split_and!; [done|done|]. intros _ rows Hr. inversion Hr; subst. simpl.
    by rewrite app_nil_r. }
  eapply (hkeeps_bind Inv); [by apply (keeps_order_at max (contracts f) idx Hidx)|].
  intros o (_ & [Hu _] & Hat). cbv beta.
  eapply (hkeeps_bind Inv); [by apply keeps_exact_row|]. intros b [Hb Hst]. cbv beta.
  assert (Enc -> forall x rows, positions_of l (p :: positions) (x :: rows) -> x = o /\ 0 <= o < zlen keys) as Hx.
  { intros Henc x rows Hr. inversion Hr; subst. destruct Henc as [[Hs Hl'] _]. pose proof (Hat l Hs) as Ha.
    split; [congruence|by eapply (order_row n)]. }
  destruct b.
  - eapply (hkeeps_bind Inv _ _ (fun c => c = zlen seen + 1));
      [apply (hkeeps_lift Inv), wp_ok_or; intros c Hc; by apply checked_add_Some in Hc as [-> _]|]. intros ? ->. cbv beta.
    unfold page_push. rewrite <- page_of_snoc by done.
    replace (zlen seen + 1) with (zlen (seen ++ [o])) by (rewrite length_app; simpl; lia).
    eapply (hkeeps_mono Inv); [apply IH, Forall_app; split; [done|constructor; [by apply Hb|done]]|].
    intros r (all & -> & Hall & He). exists all. split_and!; [done|done|]. intros Henc rows Hr.
    inversion Hr as [|? x ? rows' Hxp Hrs]; subst. destruct (Hx Henc _ _ Hr) as [-> Hin].
    rewrite exact_of_cons, <- (Hst Henc Hin), app_assoc. by apply He.
  - eapply (hkeeps_mono Inv); [by apply IH|].
    intros r (all & -> & Hall & He). exists all. split_and!; [done|done|]. intros Henc rows Hr.
    inversion Hr as [|? x ? rows' Hxp Hrs]; subst. destruct (Hx Henc _ _ Hr) as [-> Hin].
    rewrite exact_of_cons, <- (Hst Henc Hin). by apply He.
Qed.

Lemma keeps_index_page_all_loop query offset limit positions seen :
  Forall (fun p => 0 <= p) positions -> 0 <= offset -> 0 <= limit ->
  Forall (key_satisfies (fun key => normalized n key = normalized n query)) seen ->
  hkeeps Inv
    (index_page_all_loop f idx (normalized n query) offset limit positions (zlen seen) (page_of offset limit seen))
    (fun r => exists all, r = page_of offset limit all /\
      Forall (key_satisfies (fun key => normalized n key = normalized n query)) all /\
      length all = (length seen + length positions)%nat /\
      (Enc -> forall rows, positions_of l positions rows -> all = seen ++ rows)).
Proof.
  intros Hp Ho Hl; revert seen; induction Hp as [|p positions Hp _ IH]; intros seen Hseen;
    cbn [index_page_all_loop].
  { apply (hkeeps_ret Inv). exists seen. split_and!; [done|done|simpl; lia|]. intros _ rows Hr. inversion Hr; subst.
    by rewrite app_nil_r. }
  eapply (hkeeps_bind Inv); [by apply (keeps_order_at max (contracts f) idx Hidx)|].
  intros o (_ & [Hu _] & Hat). cbv beta.
  eapply (hkeeps_bind Inv); [by apply keeps_verified_source_key|]. intros e (Hn & _ & He). cbv beta.
  unfold page_push. rewrite <- page_of_snoc by done.
  replace (zlen seen + 1) with (zlen (seen ++ [o])) by (rewrite length_app; simpl; lia).
  eapply (hkeeps_mono Inv); [apply IH, Forall_app; split; [done|constructor; [|done]]|].
  - intros rows Hrows. destruct (row_entry_key _ _ _ (He rows Hrows)) as (row & ? & Hk & _).
    exists row. split; [done|congruence].
  - intros r (all & -> & Hall & Hlen & Hpos). exists all. rewrite length_app in Hlen. simpl in Hlen.
    split_and!; [done|done|simpl; lia|]. intros Henc rows Hr.
    inversion Hr as [|? x ? rows' Hxp Hrs]; subst. destruct (id Henc) as [[Hs _] _].
    assert (x = o) as -> by (pose proof (Hat l Hs); congruence).
    rewrite (Hpos Henc rows' Hrs), <- app_assoc. done.
Qed.

Definition sound_page (query : text) (offset limit : Z) (r : option LocatedKeyPage) : Prop :=
  forall p, r = Some p -> exists all, lp_total p = zlen all /\ all <> [] /\
    lp_ordinals p = page_of offset limit all /\
    Forall (key_satisfies (sound_key query (lp_basis p))) all.

Lemma keeps_index_fill_page query start end_ offset limit bytes :
  0 <= start < end_ -> end_ <= index_len idx -> 0 <= offset -> 0 <= limit ->
  (Enc -> slice (kl_order l) start end_ = Some (matching n keys (normalized n query))) ->
  hkeeps Inv (index_fill_page f idx (normalized n query) query start end_ offset limit bytes) (fun p =>
    lp_reservation p = Some bytes /\ sound_page query offset limit (Some p) /\
    (Enc -> Some (page_content p) = page_spec n keys query offset limit)).
Proof.
  intros Hse Hend Ho Hl Hslice. unfold index_fill_page.
  eapply (hkeeps_bind Inv _ _ (fun _ => True)); [by apply (hkeeps_lift Inv), wp_try_reserve_vec|]. intros [] _. cbv beta.
  assert (Forall (fun p => 0 <= p) (seqZ start (end_ - start))) as Hpos by (apply Forall_seqZ; lia).
  assert (Enc -> positions_of l (seqZ start (end_ - start)) (matching n keys (normalized n query))) as Hm
    by (intros Henc; by apply positions_of_slice, Hslice).
  pose proof (keeps_index_page_exact_loop query offset limit _ [] Hpos Ho Hl ltac:(constructor)) as Hk.
  unfold page_of in Hk at 1. rewrite drop_nil, take_nil in Hk.
  eapply (hkeeps_bind Inv); [exact Hk|]. intros [count ordinals] (all & [= -> ->] & Hall & Hex). cbv beta iota.
  assert (Enc -> all = raw_matching keys query) as Hraw.
  { intros Henc. rewrite (Hex Henc _ (Hm Henc)). simpl. apply exact_matching. }
  assert (Enc -> matching n keys (normalized n query) <> []) as Hne.
  { intros Henc E. specialize (Hslice Henc). rewrite E in Hslice. apply slice_length in Hslice. simpl in Hslice. lia. }
  apply (hkeeps_if Inv); intros Hcount; zbool.
  - apply (hkeeps_ret Inv). split; [done|]. split.
    + intros ? [= <-]. exists all. split_and!; [done|by destruct all|done|]. cbn [lp_basis].
      eapply Forall_impl; [exact Hall|]. intros x. apply key_satisfies_mono. by intros key ->.
    + intros Henc. unfold page_spec, locate_spec. rewrite <- (Hraw Henc). specialize (Hne Henc).
      destruct (matching n keys _); [done|]. by destruct all.
  - pose proof (keeps_index_page_all_loop query offset limit _ [] Hpos Ho Hl ltac:(constructor)) as Hk2.
    unfold page_of in Hk2 at 1. rewrite drop_nil, take_nil in Hk2.
    eapply (hkeeps_bind Inv); [exact Hk2|]. intros ordinals (found & -> & Hfound & Hlen & Hfe). cbv beta.
    rewrite length_seqZ in Hlen. simpl in Hlen. assert (all = []) as -> by (destruct all; done).
    apply (hkeeps_ret Inv). split; [done|]. split.
    + intros ? [= <-]. exists found. split_and!; [simpl; lia|by destruct found; simpl in Hlen; [lia|]|done|].
      eapply Forall_impl; [exact Hfound|]. intros x. by apply key_satisfies_mono.
    + intros Henc. unfold page_spec, locate_spec. rewrite <- (Hraw Henc). specialize (Hne Henc).
      pose proof (slice_length _ _ _ _ (Hslice Henc)) as Hz. rewrite (Hfe Henc _ (Hm Henc)). simpl.
      destruct (matching n keys _); [done|]. unfold page_content. simpl in *. by rewrite Hz.
Qed.

Lemma triple_index_locate_page base hs query offset limit :
  0 <= base -> 0 <= offset -> 0 <= limit ->
  htriple Inv base hs (index_locate_page f idx query offset limit)
    (fun r => 0 <= page_bytes r /\ sound_page query offset limit r /\
       (Enc -> page_content <$> r = page_spec n keys query offset limit))
    (fun r => base + page_bytes r) (fun _ => hs) base hs.
Proof.
  intros Hbase Ho Hl. unfold index_locate_page.
  apply htriple_with_index_query; [done|by intros r [? _]; lia|]. intros len Hlen.
  eapply (htriple_bind Inv); [apply keeps_query_range|]. intros [[start end_]|] Hrange; cbv beta iota.
  - destruct Hrange as (Hse & Hend & Hslice).
    eapply (htriple_bind Inv); [apply (htriple_lift Inv), wp_range_count|]. intros ? ->. cbv beta.
    eapply (htriple_bind Inv _ _ _ _ (fun bytes => bytes = Z.min limit (saturating_sub (end_ - start) offset) * size_of_u32));
      [apply (htriple_lift Inv), wp_ok_or; intros bytes Hb; by apply checked_mul_Some in Hb as [-> _]|]. intros ? ->. cbv beta.
    set (bytes := Z.min limit (saturating_sub (end_ - start) offset) * size_of_u32).
    assert (0 <= bytes) by (unfold bytes, saturating_sub, size_of_u32; lia). clearbody bytes.
    eapply (htriple_bind Inv _ _ _ _ (fun _ => True)); [by apply (htriple_lift Inv), wp_ensure_usize_limit|].
    intros [] _. cbv beta. eapply (htriple_bind Inv).
    { apply (htriple_retained Inv); [done|]. by apply keeps_index_fill_page. }
    intros p (Hres & Hs & Hp). cbv beta. apply (htriple_ret Inv); [|simpl; rewrite Hres; simpl; lia|done].
    simpl. rewrite Hres. by split_and!.
  - apply (htriple_ret Inv); [|simpl; lia|done]. split_and!; [done|done|]. intros Henc.
    unfold page_spec, locate_spec. by rewrite (Hrange Henc).
Qed.

End QueryProofs.
