(* ===== verification/IndexScan.v ===== *)
(** More queries through a persistent key index: case variants, prefixes and
    the scan over all rows; the methods of [MdxFile] over an index. *)

From stdpp Require Import list_numbers.
From S2P Require Import Prelude Errors Types Budget Logic Utf8 Encoding Source Descriptors Header KeySection Format Normalize LocatorIndex Arcs Core Dictionary Keys Locator Locate CaseVariants Lookup Mdx IndexFormat IndexCache IndexOpen IndexSearch IndexQuery.

Section ScanProofs.

Context `{EnvOk} (f : MdictFile) (Hf : file_ok f) (idx : PersistentKeyIndex) (Hidx : index_ok idx).

#[local] Notation max := (working_memory_bytes (mf_limits f)).

#[local] Notation n := (mf_normalizer f).

#[local] Notation Inv := (index_state_ok max (contracts f) idx).

(** An entry of the dictionary. *)
Definition real_entry (e : KeyEntry) : Prop :=
  forall rows, dictionary_rows f rows -> row_entry (ke_ordinal e) <$> get_at rows (ke_ordinal e) = Some e.

(** ** The scan *)

(** The captured variables went from [v] to [v'] over visits of [rows], none of
    which broke the scan. *)
Fixpoint visited {V} (row_text : Z -> text) (visit : Visit V) (rows : list Z) (v v' : V) : Prop :=
  match rows with
  | [] => v' = v
  | row :: rows => exists v1, visit v row (row_text row) = (v1, false) /\ visited row_text visit rows v1 v'
  end.

(** What a scan over [rows] from [(s, v)] does, whatever the index: when it
    ends, the visits are those of a scan over the normalized keys of the
    dictionary; when it fails, they are the first of them. *)
Definition scans {V} (visit : Visit V) (rows : list Z) (m : Scan V unit) : Prop :=
  forall base hs s v, Inv base hs s ->
    wpM m (s, v)
      (fun _ '(s', v') => Inv base hs s' /\ forall drows, dictionary_rows f drows ->
         v' = scan_loop (normalized_row n (map row_key drows)) visit rows v)
      (fun _ '(s', v') => Inv base hs s' /\ exists k, (k <= length rows)%nat /\
         forall drows, dictionary_rows f drows ->
           visited (normalized_row n (map row_key drows)) visit (take k rows) v v').

Lemma wpM_in_index {V A} (m : M IndexState A) s (v : V) (Q : A -> IndexState * V -> Prop) E :
  wpM m s (fun a s' => Q a (s', v)) (fun e s' => E e (s', v)) -> wpM (in_index m) (s, v) Q E.
Proof. unfold wpM, in_index. by destruct (m s) as [[] s']. Qed.

(** One round: the text of the row is checked before it is visited. *)
Lemma index_scan_round {V} (visit : Visit V) row base hs s (v : V) :
  0 <= row -> Inv base hs s ->
  wpM (let! text := in_index (index_row_text idx row) in
       scanning_text text (let! _ := in_index (verified_source_key f idx row (it_text text)) in
                           call_visit visit row (it_text text))) (s, v)
    (fun is_break '(s', v') => Inv base hs s' /\ forall drows, dictionary_rows f drows ->
       visit v row (normalized_row n (map row_key drows) row) = (v', is_break))
    (fun _ '(s', v') => Inv base hs s' /\ v' = v).
Proof.
  intros Hrow Hs. destruct (id Hs) as ((_ & _ & Hbase & _) & _).
  apply wpM_bind, wpM_in_index.
  eapply wpM_mono; [by apply (triple_index_row_text max (contracts f) idx Hidx)| |done].
  intros t s1 [(_ & _ & Hm & _) Hs1]. cbv beta in *.
  pose proof (keeps_verified_source_key f Hf idx Hidx row (it_text t) Hrow (base + it_memory t) hs s1 Hs1) as Hv.
  unfold wpM, scanning_text, Errors.mbind, in_index, call_visit in *.
  assert (forall s', Inv (base + it_memory t) hs s' -> Inv base hs (drop_reservation (it_memory t) s')) as Hdrop
    by (intros s' Hs'; apply (inv_drop (Inv := Inv)); [lia|done|exact Hs']).
  destruct (verified_source_key f idx row (it_text t) s1) as [[e|e| |] s2]; try done.
  - destruct Hv as [(Hn & _ & He) Hs2]. destruct (visit v row (it_text t)) as [v' is_break] eqn:Ev.
    split; [by apply Hdrop|]. intros drows Hd. rewrite <- Ev. f_equal.
    destruct (row_entry_key _ _ _ (He drows Hd)) as (r & Hat & Hk & _).
    unfold normalized_row, get_at in *. rewrite (proj2 (Z.leb_le _ _)) in * by lia.
    rewrite list_lookup_fmap, Hat. simpl. by rewrite <- Hk.
  - split; [by apply Hdrop|done].
Qed.

Lemma index_scan_loop_scans {V} (visit : Visit V) rows :
  Forall (fun r => 0 <= r) rows -> scans visit rows (index_scan_loop f idx visit rows).
Proof.
  induction 1 as [|row rows Hrow _ IH]; intros base hs s v Hs; cbn [index_scan_loop]; [by split|].
  apply wpM_bind, wpM_lift; [|split; [done|]; exists 0%nat; split; [lia|done]].
  apply wp_ok_or. intros o Ho. apply try_u32_Some in Ho as [-> _].
  pose proof (index_scan_round visit row base hs s v Hrow Hs) as Hround.
  unfold wpM in *. unfold Errors.mbind in Hround |- *.
  destruct (in_index _ _) as [[t|e| |] [s1 v1]]; try done.
  2: { destruct Hround as [? ->]. split; [done|]. exists 0%nat. split; [lia|done]. }
  destruct (scanning_text _ _ _) as [[is_break|e| |] [s2 v2]]; try done.
  2: { destruct Hround as [? ->]. split; [done|]. exists 0%nat. split; [lia|done]. }
  destruct Hround as [Hs2 Hv]. destruct is_break.
  - split; [done|]. intros drows Hd. cbn [scan_loop]. by rewrite (Hv drows Hd).
  - specialize (IH base hs s2 v2 Hs2). unfold wpM in IH.
    destruct (index_scan_loop f idx visit rows (s2, v2)) as [[[]|e| |] [s3 v3]]; try done.
    + destruct IH as [Hs3 IH]. split; [done|]. intros drows Hd. cbn [scan_loop]. rewrite (Hv drows Hd). by apply IH.
    + destruct IH as (Hs3 & k & Hk & IH). split; [done|]. exists (Datatypes.S k). split; [simpl; lia|].
      intros drows Hd. cbn [take visited]. exists v2. split; [by apply Hv|by apply IH].
Qed.

Lemma index_scan_scans {V} (visit : Visit V) base hs s (v : V) :
  Inv base hs s ->
  wpM (index_scan f idx visit) (s, v)
    (fun _ '(s', v') => Inv base hs s' /\ forall drows, dictionary_rows f drows ->
       v' = scan_loop (normalized_row n (map row_key drows)) visit (seqZ 0 (zlen drows)) v)
    (fun _ '(s', v') => Inv base hs s' /\ exists k, 0 <= k <= index_len idx /\
       forall drows, dictionary_rows f drows ->
         visited (normalized_row n (map row_key drows)) visit (seqZ 0 k) v v').
Proof.
  intros Hs. unfold index_scan. apply wpM_bind, wpM_in_index. pose proof (index_len_bounds idx Hidx) as Hb.
  eapply wpM_mono; [apply on_core_keeps; [apply (keeps_budgeted max (contracts f)), (budgeted_validate_identity f)|exact Hs]|..];
    cbv beta.
  - intros [] s1 [(Hlen & _) Hs1].
    eapply wpM_mono; [eapply (index_scan_loop_scans visit); [apply Forall_seqZ; lia|exact Hs1]|..].
    + intros [] [s' v'] [Hs' Hv]. split; [done|]. intros drows Hd. rewrite (Hv drows Hd). do 2 f_equal.
      destruct Hd as (content & modified & Hst & Hrows).
      destruct (all_rows_spec f Hf content modified Hst drows Hrows) as [Hz _]. unfold index_len. lia.
    + intros e [s' v'] (Hs' & k & Hk & Hv). split; [done|]. rewrite length_seqZ in Hk.
      exists (Z.of_nat k). split; [lia|]. intros drows Hd. specialize (Hv drows Hd).
      rewrite <- (Zplus_minus (Z.of_nat k) (index_len idx)), seqZ_app, take_app_length' in Hv; [done|..];
        rewrite ?length_seqZ; lia.
  - intros e s1 Hs1. split; [done|]. exists 0. split; [lia|done].
Qed.

Context (keys : list text) (l : KeyLocator).

#[local] Notation Enc := (indexed f idx keys l).

(** ** Case variants *)

(** The candidates of a range. *)
Definition candidates (start end_ : Z) : list Z :=
  default (replicate (Z.to_nat (end_ - start)) 0) (slice (kl_order l) start end_).

Lemma length_candidates start end_ : start <= end_ -> zlen (candidates start end_) = end_ - start.
Proof.
  intros ?. unfold candidates. destruct (slice _ _ _) eqn:E; simpl; [by eapply slice_length|].
  rewrite length_replicate. lia.
Qed.

Lemma index_reports query start end_ :
  0 <= start < end_ -> end_ <= index_len idx ->
  (Enc -> slice (kl_order l) start end_ = Some (matching n keys (normalized n query))) ->
  reports Inv Enc keys (candidates start end_) (index_source_key f idx (normalized n query) start).
Proof.
  intros Hse Hend Hslice position row Hrow. unfold index_source_key.
  pose proof (get_at_Some _ _ _ Hrow) as Hp. rewrite length_candidates in Hp by lia.
  pose proof (index_len_bounds idx Hidx) as Hb. unfold u32_max in Hb.
  eapply (hkeeps_bind Inv _ _ (fun p => p = position));
    [apply (hkeeps_lift Inv), wp_ok_or; intros p Hq; by apply try_u64_Some in Hq as [-> _]|]. intros ? ->. cbv beta.
  eapply (hkeeps_bind Inv _ _ (fun a => a = start + position)).
  { apply (hkeeps_lift Inv). unfold checked_add. by rewrite (proj2 (Z.leb_le _ _)) by (unfold u64_max; lia). }
  intros ? ->. cbv beta.
  eapply (hkeeps_bind Inv); [apply (keeps_order_at max (contracts f) idx Hidx); lia|].
  intros o (_ & [Ho _] & Hat). cbv beta.
  eapply (hkeeps_bind Inv); [by apply (keeps_verified_source_key f Hf idx Hidx)|]. intros e (_ & _ & He). cbv beta.
  apply (hkeeps_ret Inv). intros Henc. cbn [fst snd].
  destruct (indexed_key f idx keys l o e He Henc) as [Hk _].
  assert (row = o) as ->; [|done].
  unfold candidates in Hrow. rewrite (Hslice Henc) in Hrow. simpl in Hrow.
  destruct (id Henc) as [[Hst _] _]. specialize (Hat l Hst).
  assert (0 <= position < zlen (matching n keys (normalized n query))) as Hpm by by eapply get_at_Some.
  rewrite (slice_get_at _ _ _ _ position (Hslice Henc)) in Hrow; [congruence|].
  pose proof (slice_length _ _ _ _ (Hslice Henc)). lia.
Qed.

Lemma triple_index_case_variants base hs query offset limit :
  0 <= base -> 0 <= offset -> 0 <= limit ->
  htriple Inv base hs (index_case_variants f idx query offset limit)
    (fun r => 0 <= page_bytes r /\ (Enc -> page_content <$> r = variants_spec n keys query offset limit))
    (fun r => base + page_bytes r) (fun _ => hs) base hs.
Proof.
  intros Hbase Ho Hl. unfold index_case_variants. pose proof (index_len_bounds idx Hidx) as Hb.
  apply (htriple_with_index_query f idx); [done|by intros r [? _]; lia|]. intros len Hlen.
  eapply (htriple_bind Inv); [apply (keeps_query_range f idx Hidx keys l)|].
  intros [[start end_]|] Hrange; cbv beta iota.
  - destruct Hrange as (Hse & Hend & Hslice).
    eapply (htriple_bind Inv); [apply (htriple_lift Inv), wp_range_count|]. intros ? ->. cbv beta.
    rewrite <- (length_candidates start end_) by lia.
    eapply (htriple_mono Inv); [apply (triple_select_page Inv Enc keys); [by apply index_reports|..|lia]|].
    + rewrite length_candidates; lia.
    + done.
    + done.
    + intros r [Hpb Hr]. split; [|split; [lia|done]]. split; [done|]. intros Henc. rewrite (Hr Henc).
      unfold variants_spec, candidates. by rewrite (Hslice Henc).
  - apply (htriple_ret Inv); [|simpl; lia|done]. split; [done|]. intros Henc. unfold variants_spec.
    by rewrite (Hrange Henc).
Qed.

(** ** Prefixes *)

Definition prefix_entry (p : text) (e : KeyEntry) : Prop :=
  real_entry e /\ starts_with (normalized n (ke_key e)) p = true.

Lemma keeps_prefix_row p position :
  0 <= position ->
  hkeeps Inv (prefix_row f idx p position) (fun r =>
    match r with
    | Some e => prefix_entry p e /\
        (Enc -> forall row, get_at (kl_order l) position = Some row ->
           ke_ordinal e = row /\ starts_with (normalized_row n keys row) p = true)
    | None => Enc -> forall row, get_at (kl_order l) position = Some row ->
        starts_with (normalized_row n keys row) p = false
    end).
Proof.
  intros Hp. unfold prefix_row.
  eapply (hkeeps_bind Inv); [by apply (keeps_order_at max (contracts f) idx Hidx)|].
  intros o (_ & [Ho _] & Hat). cbv beta. intros base hs. apply (htriple_nonneg Inv). intros Hbase.
  eapply (htriple_bind Inv); [by apply (triple_index_row_text max (contracts f) idx Hidx)|].
  intros t (_ & _ & Hm & Hrow). cbv beta.
  assert (Enc -> forall row, get_at (kl_order l) position = Some row ->
            row = o /\ normalized_row n keys row = it_text t) as Hstored.
  { intros [[Hst Hof] _] row Hr. specialize (Hat l Hst). assert (row = o) as -> by congruence. split; [done|].
    pose proof (Hrow l Hst) as Ht. rewrite (stored_row_normalized n keys l o Hof) in Ht; [by injection Ht|].
    by eapply (order_row n). }
  apply triple_with_index_text; [lia|done|by intros|].
  apply (htriple_if Inv); intros Hs.
  - apply negb_true_iff in Hs. apply (htriple_ret Inv); [|done|done]. intros Henc row Hr.
    by destruct (Hstored Henc row Hr) as [_ ->].
  - apply negb_false_iff in Hs.
    eapply (htriple_bind Inv); [by apply (keeps_verified_source_key f Hf idx Hidx)|].
    intros e (Hn & Hord & He). cbv beta. apply (htriple_ret Inv); [|done|done].
    split; [split; [by unfold real_entry; rewrite Hord|by rewrite Hn]|].
    intros Henc row Hr. destruct (Hstored Henc row Hr) as [-> ->]. done.
Qed.

Lemma keeps_index_prefix_loop p limit positions found :
  Forall (fun q => 0 <= q) positions -> zlen found <= limit -> Forall (prefix_entry p) found ->
  hkeeps Inv (index_prefix_loop f idx p limit positions found) (fun r => exists new,
    r = found ++ new /\ Forall (prefix_entry p) r /\ zlen r <= limit /\
    (Enc -> forall all after, positions_of l positions (all ++ after) ->
       Forall (fun row => starts_with (normalized_row n keys row) p = true) all ->
       (forall row, head after = Some row -> starts_with (normalized_row n keys row) p = false) ->
       map ke_ordinal new = take (Z.to_nat (limit - zlen found)) all)).
Proof.
  intros Hp; revert found; induction Hp as [|q positions Hq _ IH]; intros found Hlen Hfound;
    cbn [index_prefix_loop].
  { apply (hkeeps_ret Inv). exists []. rewrite app_nil_r. split_and!; [done|done|done|].
    intros _ all after Hpos _ _. inversion Hpos as [E|]. destruct all; [|done]. by rewrite take_nil. }
  apply (hkeeps_if Inv); intros Hlt; zbool.
  { apply (hkeeps_ret Inv). exists []. rewrite app_nil_r. split_and!; [done|done|done|].
    intros _ all after _ _ _. by replace (Z.to_nat _) with 0%nat by lia. }
  eapply (hkeeps_bind Inv); [by apply keeps_prefix_row|]. intros [e|] Hrow; cbv beta iota.
  - destruct Hrow as [He Hst].
    eapply (hkeeps_bind Inv _ _ (fun _ => True)); [by apply (hkeeps_lift Inv), wp_try_reserve_vec|]. intros [] _. cbv beta.
    eapply (hkeeps_mono Inv); [apply IH|].
    + rewrite length_app. simpl. lia.
    + apply Forall_app. split; [done|]. by constructor.
    + intros r (new & -> & Hall & Hz & Hspec). exists (e :: new). rewrite <- app_assoc in *. simpl in *.
      split_and!; [done|done|done|]. intros Henc all after Hpos Ha Hb.
      destruct all as [|row all].
      * destruct after as [|row after]; [inversion Hpos|]. inversion Hpos as [|? ? ? ? Hr Hrest]; subst.
        destruct (Hst Henc row Hr) as [_ Hs]. by rewrite (Hb row eq_refl) in Hs.
      * inversion Hpos as [|? ? ? ? Hr Hrest]; subst. apply Forall_cons in Ha as [_ Ha].
        destruct (Hst Henc row Hr) as [-> _]. rewrite (Hspec Henc all after Hrest Ha Hb), length_app.
        by replace (Z.to_nat (limit - zlen found))
          with (Datatypes.S (Z.to_nat (limit - Z.of_nat (length found + length [e])))) by (simpl; lia).
  - apply (hkeeps_ret Inv). exists []. rewrite app_nil_r. split_and!; [done|done|done|].
    intros Henc all after Hpos Ha Hb. destruct all as [|row all]; [by rewrite take_nil|].
    inversion Hpos as [|? ? ? ? Hr Hrest]; subst. apply Forall_cons in Ha as [Ha _].
    by rewrite (Hrow Henc row Hr) in Ha.
Qed.

Lemma keeps_index_prefix prefix limit :
  0 <= limit ->
  hkeeps Inv (index_prefix f idx prefix limit) (fun found =>
    Forall (prefix_entry (normalized n prefix)) found /\ zlen found <= limit /\
    (Enc -> 0 < limit -> prefix_spec n keys (normalized n prefix) limit (map ke_ordinal found))).
Proof.
  intros Hlim. unfold index_prefix. apply (hkeeps_if Inv); intros Hz; zbool.
  { apply (hkeeps_ret Inv). split_and!; [done|simpl; lia|lia]. }
  intros base hs. apply (htriple_nonneg Inv). intros Hbase.
  apply (htriple_with_index_query f idx); [done|done|]. intros len Hlen.
  eapply (htriple_bind Inv); [apply (keeps_lower_bound max (contracts f) idx Hidx n)|].
  intros start [Hs Hb]. cbv beta.
  eapply (htriple_mono Inv); [apply (keeps_index_prefix_loop (normalized n prefix) limit _ []); [apply Forall_seqZ; lia|simpl; lia|done]|].
  intros r (new & -> & Hall & Hzl & Hspec). split; [|done]. split_and!; [done|done|]. intros Henc _.
  destruct (id Henc) as [Hen _]. destruct (prefix_order f keys l (normalized n prefix) (proj2 Hen)) as
    (_ & all & after & E & Ha & Hg & Hp).
  pose proof (Hb keys l Hen) as Hstart. unfold boundary, on_left in Hstart.
  assert (zlen (kl_order l) = index_len idx) as Hol by apply (encodes_length idx Hidx n keys l Hen).
  cbn [app]. rewrite (Hspec Henc all after); [simpl; rewrite Z.sub_0_r; apply Hp| |done|done].
  rewrite <- E, <- Hstart. apply (positions_of_slice f). apply slice_Some. split; [lia|].
  rewrite take_ge; [done|]. rewrite length_drop. lia.
Qed.

(** ** The methods of [MdxFile] *)

Lemma triple_index_page_with_mode base hs query offset limit mode :
  0 <= base -> 0 <= offset -> 0 <= limit ->
  htriple Inv base hs (locate_page_with_key_index_and_mode f idx query offset limit mode)
    (fun r => 0 <= page_bytes r /\
       (Enc -> page_content <$> r = mode_page_spec f mode keys query offset limit))
    (fun r => base + page_bytes r) (fun _ => hs) base hs.
Proof.
  intros Hbase Ho Hl. unfold locate_page_with_key_index_and_mode, mode_page_spec.
  destruct (includes_case_variants f mode).
  2: { eapply (htriple_bind Inv _ _ _ _ (fun r => r = None) (fun _ => base) (fun _ => hs));
         [by apply (htriple_ret Inv)|]. intros ? ->. cbv beta iota.
       eapply (htriple_mono Inv); [by apply (triple_index_locate_page f Hf idx Hidx keys l)|]. by intros r (? & _ & ?). }
  eapply (htriple_bind Inv); [by apply triple_index_case_variants|]. intros [p|] [Hb Hp]; cbv beta iota.
  - apply (htriple_ret Inv); [|done|done]. split; [done|]. intros Henc. by rewrite <- (Hp Henc).
  - simpl. rewrite Z.add_0_r. eapply (htriple_mono Inv); [by apply (triple_index_locate_page f Hf idx Hidx keys l)|].
    intros r (Hr & _ & Hspec). split; [|done]. split; [done|]. intros Henc. rewrite <- (Hp Henc). by apply Hspec.
Qed.

Lemma triple_index_locate_with_mode base hs query mode :
  0 <= base ->
  htriple Inv base hs (locate_with_key_index_and_mode f idx query mode)
    (fun r => Enc ->
       match r, mode_spec f mode keys query with
       | Some k, Some (basis, ordinals) => lk_basis k = basis /\ denotes k ordinals
       | None, None => True
       | _, _ => False
       end)
    (fun _ => base) (fun r => located_handles r ++ hs) base hs.
Proof.
  intros Hbase. unfold locate_with_key_index_and_mode, mode_spec. destruct (includes_case_variants f mode).
  2: { eapply (htriple_bind Inv _ _ _ _ (fun r => r = None) (fun _ => base) (fun _ => hs));
         [by apply (htriple_ret Inv)|]. intros ? ->. cbv beta iota.
       eapply (htriple_mono Inv); [by apply (triple_index_locate f Hf idx Hidx keys l)|]. by intros r (_ & ?). }
  eapply (htriple_bind Inv); [by apply triple_index_case_variants|]. intros [p|] [Hb Hp]; cbv beta iota.
  - apply on_core_triple. eapply triple_mono; [by apply (triple_keys_from_owned f)|].
    intros r Hr. split; [|done]. intros Henc. specialize (Hp Henc). simpl in Hp. rewrite <- Hp. simpl.
    symmetry in Hp. unfold page_content in Hp. apply variants_spec_all in Hp as [Hne _].
    + by destruct (lp_ordinals p), r.
    + destruct Henc as [He _]. rewrite (proj1 (encodes_length idx Hidx n keys l He)).
      pose proof (index_len_bounds idx Hidx). unfold u32_max, u64_max in *. lia.
  - simpl. rewrite Z.add_0_r. eapply (htriple_mono Inv); [by apply (triple_index_locate f Hf idx Hidx keys l)|].
    intros r (_ & Hspec). split; [|done]. intros Henc. rewrite <- (Hp Henc). by apply Hspec.
Qed.

End ScanProofs.
