(* ===== verification/IndexRoundTrip.v ===== *)
(** From a built index to an opened one: what [IndexWrite] writes is what
    [IndexCache] reads, so that an index of a dictionary, once written and
    opened again, stands for the index of its keys; and with checksums it is
    intact. *)

From stdpp Require Import list_numbers sorting.
From S2P Require Import Prelude Errors Types Budget Logic Utf8 Encoding Checksum Source Descriptors Header KeySection Format Normalize LocatorIndex Arcs Core Dictionary Keys IndexFormat Writers IndexWrite Scratch ExternalSort MergeRuns IndexBuild IndexBuildProofs IndexCache IndexOpen IndexSearch IndexQuery.

(** ** Words *)

Lemma slice_words_of width values i v :
  (0 < width)%nat -> values !! i = Some v ->
  slice (words_of width values) (Z.of_nat i * Z.of_nat width) (Z.of_nat i * Z.of_nat width + Z.of_nat width) =
    Some (le_split width v).
Proof.
  intros Hw Hi. rewrite <- (take_drop_middle _ _ _ Hi).
  change (take i values ++ v :: drop (S i) values) with (take i values ++ [v] ++ drop (S i) values).
  rewrite !words_of_app. cbn [words_of flat_map]. rewrite app_nil_r.
  pose proof (length_words_of width (take i values)) as Hl. pose proof (lookup_lt_Some _ _ _ Hi).
  rewrite length_take, Nat.min_l in Hl by lia.
  apply slice_app_exact; [lia|]. rewrite length_le_split. lia.
Qed.

Lemma words_words_of width values :
  (0 < width)%nat -> Forall (fun v => 0 <= v < 256 ^ Z.of_nat width) values ->
  words (Z.of_nat width) (zlen values) (words_of width values) = values.
Proof.
  intros Hw Hv. apply list_eq. intros i. unfold words. rewrite list_lookup_fmap.
  destruct (values !! i) as [v|] eqn:Hi.
  - pose proof (lookup_lt_Some _ _ _ Hi). rewrite lookup_seqZ_lt by lia. simpl. f_equal. unfold word_at.
    rewrite Z.add_0_l, (slice_words_of width values i v Hw Hi). simpl. apply le_combine_split.
    rewrite Forall_forall in Hv. apply Hv. by eapply list_elem_of_lookup_2.
  - apply lookup_ge_None in Hi. by rewrite lookup_seqZ_ge by lia.
Qed.

Lemma raw_digest_range raw : 0 <= raw_digest raw < 2 ^ 32.
Proof.
  unfold raw_digest. induction raw as [|b raw IH] using rev_ind; [done|].
  rewrite fold_left_app. apply Z.mod_pos_bound. lia.
Qed.

Lemma offsets_from_range `{Env} n start keys limit :
  0 <= start -> start + zlen (arena n keys) <= limit ->
  Forall (fun v => 0 <= v <= limit) (offsets_from n start keys) /\ zlen (offsets_from n start keys) = zlen keys + 1.
Proof.
  revert start; induction keys as [|key keys IH]; intros start Hs Hl; cbn [offsets_from].
  - unfold arena in Hl. simpl in Hl. split; [|simpl; lia]. by repeat constructor; lia.
  - unfold arena in Hl. cbn [map concat] in Hl. fold (arena n keys) in Hl. rewrite length_app in Hl.
    destruct (IH (start + zlen (normalized n key))) as [Hr Hz]; [lia|lia|]. split.
    + constructor; [lia|done].
    + simpl in *. lia.
Qed.

(** ** Chunks *)

Lemma chunks_fuel_lookup {A} fuel n (l : list A) c :
  (0 < n)%nat -> (length l <= fuel)%nat -> (c * n < length l)%nat ->
  chunks_fuel fuel n l !! c = Some (take n (drop (c * n) l)).
Proof.
  intros Hn; revert l c; induction fuel as [|fuel IH]; intros l c Hf Hc; [lia|].
  destruct l as [|x l]; [simpl in Hc; lia|]. cbn [chunks_fuel]. destruct c as [|c]; [done|].
  cbn [lookup list_lookup]. rewrite IH; [|rewrite length_drop; simpl in *; lia..].
  rewrite drop_drop. do 3 f_equal.
Qed.

Lemma chunks_lookup {A} n (l : list A) c :
  0 < n -> 0 <= c -> c * n < zlen l ->
  chunks n l !! Z.to_nat c = slice l (c * n) (c * n + Z.min (zlen l - c * n) n).
Proof.
  intros Hn Hc Hlt. unfold chunks. rewrite chunks_fuel_lookup by lia. symmetry. apply slice_Some. split; [lia|].
  replace (Z.to_nat (c * n)) with (Z.to_nat c * Z.to_nat n)%nat by lia.
  destruct (Z.le_ge_cases n (zlen l - c * n)).
  - f_equal. lia.
  - rewrite !take_ge; [done|rewrite length_drop; lia..].
Qed.

(** * The image *)

Section Image.

Context `{EnvOk} (f : MdictFile) (Hf : file_ok f) (options : KeyIndexOptions) (Hopt : validate_options options = Ok tt).
Context (keys : list text) (built : BuiltIndex) (Hbuilt : built_ok f options keys built).

#[local] Notation n := (mf_normalizer f).
#[local] Notation identity := (kb_source_identity (bx_report built)).
#[local] Notation content := (index_image built).

Context (Hmod : is_i128 (source_modified_unix_nanos identity)).
Context (Hlen : zlen content = bytes_written (bx_report built)).

Lemma options_chunk : 0 < chunk_bytes options <= u64_max /\ chunk_bytes options <= u32_max.
Proof.
  clear - Hopt. unfold validate_options in Hopt. rinv.
  repeat match goal with Hx : _ || _ = false |- _ => apply orb_false_iff in Hx as [? ?] end. zbool.
  unfold MIN_CHUNK_BYTES, u32_max, u64_max in *. lia.
Qed.

Lemma built_identity_ok : identity_ok identity.
Proof.
  destruct Hbuilt as ((Hz & Hmax & _) & _ & (Hs & Hk & _) & _). destruct Hf as ([Hsrc _] & _).
  split; [by rewrite Hs|]. split; [done|]. lia.
Qed.

(** The sections, one by one. *)
Lemma built_section order k :
  Forall2 (fun content section => section_holds (fst content) (chunk_bytes options) (ki_checksum_policy options)
             (snd content) section) (index_sections f keys order) (bx_sections built) ->
  exists data section, index_sections f keys order !! Z.to_nat (section_index k) = Some (k, data) /\
    bx_sections built !! Z.to_nat (section_index k) = Some section /\
    section_holds k (chunk_bytes options) (ki_checksum_policy options) data section.
Proof.
  intros Hall. unfold index_sections in Hall.
  destruct (bx_sections built) as [|s0 [|s1 [|s2 [|s3 [|]]]]];
    repeat match goal with H : Forall2 _ _ _ |- _ => inversion H; clear H; subst end.
  destruct k; simpl in *; by eexists _, _.
Qed.

Lemma built_sized :
  sections_sized identity (zlen (arena n keys)) (bx_sections built) /\ length (bx_sections built) = 4%nat.
Proof.
  destruct Hbuilt as ((Hz & Hmax & _) & Ha & (_ & Hk & _) & _ & order & Hperm & _ & Hall).
  apply Permutation_length in Hperm. rewrite length_seqZ in Hperm.
  destruct (offsets_from_range n 0 keys u64_max) as [_ Ho]; [lia|lia|].
  unfold index_sections in Hall. unfold sections_sized.
  destruct (bx_sections built) as [|s0 [|s1 [|s2 [|s3 [|]]]]];
    repeat match goal with H : Forall2 _ _ _ |- _ => inversion H; clear H; subst end.
  repeat match goal with H : section_holds _ _ _ _ _ |- _ => destruct H as (? & _ & ? & _) end. simpl in *.
  repeat match goal with H : _ = zlen (words_of _ _) |- _ => rewrite length_words_of in H end.
  rewrite length_map in *. split; [|done]. unfold section_kinds.
  split; [congruence|]. repeat (apply (f_equal2 cons); [lia|]). done.
Qed.

(** The header that is read back. *)
Definition built_header : IndexHeader := {|
  ih_header_len := HEADER_BYTES; ih_total_len := bytes_written (bx_report built);
  ih_chunk_bytes := chunk_bytes options; ih_source_identity := identity;
  ih_normalized_text_len := zlen (arena n keys); ih_sections := bx_descriptors built;
  ih_checksum_count := checksum_total (bx_sections built) |}.

Lemma built_parses reader :
  options_allow options reader ->
  parse_header (bx_header built) (zlen content) reader = Ok built_header /\ zlen (bx_header built) = HEADER_BYTES.
Proof.
  intros Hr. destruct built_sized as [Hs _]. destruct (id Hbuilt) as (_ & Ha & _ & Hheader & _).
  rewrite Hlen. destruct (header_parses (bx_sections built) identity (zlen (arena n keys)) options reader
    (bx_header built) (bx_descriptors built) (bytes_written (bx_report built))) as (Hp & _ & Hz); try done.
  - exact built_identity_ok.
  - unfold is_u64. lia.
Qed.

Lemma image_header : slice content 0 HEADER_BYTES = Some (bx_header built).
Proof.
  assert (options_allow options options) as Hr by (pose proof options_chunk; split_and!; lia).
  destruct (built_parses options Hr) as [_ Hz]. unfold index_image. cbv zeta.
  pose proof (slice_app_exact [] (bx_header built)
    (flat_map (fun checksum => le_split 4 checksum) (flat_map sf_checksums (bx_sections built)) ++
     placed_bytes (bx_sections built) (bx_descriptors built) (zlen (bx_header built) +
       zlen (flat_map (fun checksum => le_split 4 checksum) (flat_map sf_checksums (bx_sections built))))) 0 HEADER_BYTES)
    as Hs. apply Hs; [done|]. simpl. by rewrite Hz.
Qed.

(** The prefix of the image that the sections follow. *)
Definition image_prefix : bytes :=
  bx_header built ++ flat_map (fun checksum => le_split 4 checksum) (flat_map sf_checksums (bx_sections built)).

Lemma image_prefix_app :
  content = image_prefix ++ placed_bytes (bx_sections built) (bx_descriptors built) (zlen image_prefix).
Proof. unfold index_image, image_prefix. cbv zeta. by rewrite length_app, Nat2Z.inj_add, <- app_assoc. Qed.

Lemma checksum_total_length sections : checksum_total sections = zlen (flat_map sf_checksums sections).
Proof.
  induction sections as [|s sections IH]; [done|]. cbn [checksum_total flat_map]. rewrite length_app, IH. lia.
Qed.

(** ** The opened index *)

Section Opened.

Context (idx : PersistentKeyIndex) (Hidx : index_ok idx) (reader : KeyIndexOptions) (modified : Z).
Context (Hreader : options_allow options reader) (Hst : stable (pi_source idx) content modified).
Context (Hof : header_of (pi_source idx) reader (pi_header idx)).

Lemma opened_header : pi_header idx = built_header /\ zlen image_prefix = HEADER_BYTES + ih_checksum_count (pi_header idx) * 4.
Proof.
  destruct (built_parses reader Hreader) as [Hp Hz]. destruct (Hof _ _ Hst) as (bytes & Hs & Hp').
  rewrite image_header in Hs. injection Hs as <-. destruct Hst as [E _]. rewrite E, Hp in Hp'.
  injection Hp' as <-. split; [done|]. unfold image_prefix. rewrite length_app.
  pose proof (length_words_of 4 (flat_map sf_checksums (bx_sections built))) as Hw. unfold words_of in Hw.
  change (fun checksum => le_split 4 checksum) with (le_split 4).
  cbn [built_header ih_checksum_count]. rewrite checksum_total_length. lia.
Qed.

Lemma built_lens : map sd_len (bx_descriptors built) = map sf_len (bx_sections built).
Proof.
  destruct opened_header as [E _]. pose proof (hk_lens _ (xk_header idx Hidx)) as Hl. rewrite E in Hl. simpl in Hl.
  destruct built_sized as [[_ ->] _]. exact Hl.
Qed.

Lemma sections_exact : Forall (fun s => sf_len s = zlen (sf_file s)) (bx_sections built).
Proof.
  destruct Hbuilt as (_ & _ & _ & _ & order & _ & _ & Hall). apply Forall_forall. intros section Hs.
  apply list_elem_of_lookup in Hs as [i Hi]. destruct (Forall2_lookup_r _ _ _ _ _ Hall Hi) as (c & _ & _ & E & El & _).
  by rewrite E.
Qed.

(** Every section is where the opened index looks for it. *)
Lemma opened_section order k :
  Forall2 (fun content section => section_holds (fst content) (chunk_bytes options) (ki_checksum_policy options)
             (snd content) section) (index_sections f keys order) (bx_sections built) ->
  exists data section, index_sections f keys order !! Z.to_nat (section_index k) = Some (k, data) /\
    bx_sections built !! Z.to_nat (section_index k) = Some section /\
    section_holds k (chunk_bytes options) (ki_checksum_policy options) data section /\
    section_at idx k content data /\ sd_len (IndexCache.section idx k) = zlen data.
Proof.
  intros Hall. destruct (built_section order k Hall) as (data & section & Hi & Hs & Hholds).
  exists data, section. destruct opened_header as [E Hprefix].
  assert (exists d, bx_descriptors built !! Z.to_nat (section_index k) = Some d /\ IndexCache.section idx k = d)
    as (d & Hd & Esec).
  { unfold IndexCache.section, section_of, get_at. rewrite E. cbn [built_header ih_sections].
    rewrite (proj2 (Z.leb_le _ _)) by (destruct k; simpl; lia).
    destruct (bx_descriptors built !! Z.to_nat (section_index k)) as [d|] eqn:Hd; [by exists d|].
    apply lookup_ge_None in Hd. pose proof (hk_count _ (xk_header idx Hidx)) as Hc. rewrite E in Hc.
    change (Z.to_nat SECTION_COUNT) with 4%nat in Hc. cbn [built_header ih_sections] in Hc.
    destruct k; simpl in Hd; lia. }
  destruct (id Hholds) as (_ & Efile & El & _).
  assert (sd_len d = zlen data) as Elen.
  { pose proof built_lens as Hl. apply (f_equal (fun l => l !! Z.to_nat (section_index k))) in Hl.
    rewrite !list_lookup_fmap, Hd, Hs in Hl. injection Hl as ->. exact El. }
  split_and!; try done; [|by rewrite Esec]. unfold section_at. rewrite Esec, image_prefix_app.
  pose proof (xk_placed idx Hidx) as Hplaced. rewrite <- Hprefix, E in Hplaced. cbn [built_header ih_sections] in Hplaced.
  rewrite <- Efile. eapply placed_bytes_spec; [exact Hplaced|exact built_lens|exact sections_exact|exact Hs|exact Hd].
Qed.

(** The index that was opened is the index that was built. *)
Lemma opened_encodes : encodes idx n keys (index_locator idx content).
Proof.
  split; [by exists content, modified|].
  destruct (id Hbuilt) as ((Hz & Hmax & _) & Ha & (_ & Hk & _) & _ & order & Hperm & Hsorted & Hall).
  pose proof (Permutation_length Hperm) as Hlo. rewrite length_seqZ in Hlo.
  destruct (offsets_from_range n 0 keys u64_max) as [Hrange Hlb]; [lia|lia|].
  destruct opened_header as [E _].
  assert (index_len idx = zlen keys) as Hil by (unfold index_len; rewrite E; simpl; lia).
  assert (forall k data, index_sections f keys order !! Z.to_nat (section_index k) = Some (k, data) ->
    default [] (slice content (sd_offset (IndexCache.section idx k))
      (sd_offset (IndexCache.section idx k) + sd_len (IndexCache.section idx k))) = data) as Hsec.
  { intros k data Hi. destruct (opened_section order k Hall) as (data' & section & Hi' & _ & _ & Hat & _).
    rewrite Hi in Hi'. injection Hi' as <-. unfold section_at in Hat. by rewrite Hat. }
  unfold locator_of, index_locator. cbn [kl_text kl_bounds kl_order kl_raw_digest].
  rewrite (Hsec SecText (arena n keys)), (Hsec SecBounds (words_of 8 (offsets_from n 0 keys))),
    (Hsec SecRaw (words_of 4 (map raw_digest keys))), (Hsec SecOrder (words_of 4 order)), Hil by done.
  assert (words 4 (zlen keys) (words_of 4 order) = order) as ->.
  { replace (zlen keys) with (zlen order) by lia. apply (words_words_of 4); [lia|]. rewrite Hperm.
    apply Forall_seqZ. unfold u32_max in Hmax. intros v. lia. }
  split_and!; [done| | |done|done].
  - rewrite <- Hlb. apply (words_words_of 8); [lia|]. eapply Forall_impl; [exact Hrange|]. simpl.
    unfold u64_max. intros v ?. lia.
  - replace (zlen keys) with (zlen (map raw_digest keys)) by (by rewrite length_map). apply (words_words_of 4); [lia|].
    apply Forall_map, Forall_forall. intros key _. apply raw_digest_range.
Qed.

(** ** The checksums *)

Lemma describe_counts sections offset start :
  Forall2 (fun d s => zlen s = sd_checksum_count d) (describe sections offset start) (map sf_checksums sections).
Proof. revert offset start; induction sections; intros; simpl; constructor; [done|auto]. Qed.

(** The checksum of a chunk is in the table, where the index looks for it. *)
Lemma table_entry k section d c v :
  bx_sections built !! Z.to_nat (section_index k) = Some section ->
  bx_descriptors built !! Z.to_nat (section_index k) = Some d ->
  0 <= c -> sf_checksums section !! Z.to_nat c = Some v ->
  let at_ := HEADER_BYTES + (sd_checksum_start d + c) * 4 in
  slice content at_ (at_ + 4) = Some (le_split 4 v).
Proof.
  intros Hs Hd Hc Hv at_. destruct opened_header as [E Hprefix]. destruct built_sized as [[Hkinds _] _].
  destruct (id Hbuilt) as (_ & _ & _ & Hheader & _).
  apply build_header_inv in Hheader as (Hds & _); [|done|].
  2: { eapply Forall_impl; [exact sections_exact|]. simpl. intros x ->. lia. }
  pose proof (describe_counts (bx_sections built) (8 * ((HEADER_BYTES + checksum_total (bx_sections built) * 4 + 7) / 8)) 0)
    as Hcounts. rewrite <- Hds in Hcounts.
  pose proof (hk_checksums _ (xk_header idx Hidx)) as Hcons. rewrite E in Hcons. cbn [built_header ih_sections] in Hcons.
  destruct (concat_consecutive _ _ _ _ _ _ Hcons Hcounts) as [_ Hat].
  assert (map sf_checksums (bx_sections built) !! Z.to_nat (section_index k) = Some (sf_checksums section)) as Hm
    by (by rewrite list_lookup_fmap, Hs).
  assert (get_at (sf_checksums section) c = Some v) as Hget
    by (unfold get_at; rewrite (proj2 (Z.leb_le 0 c)) by lia; exact Hv).
  specialize (Hat _ _ _ _ _ Hd Hm Hget). rewrite Z.sub_0_r in Hat.
  apply get_at_lookup in Hat as [Hat Hrange].
  set (all := concat (map sf_checksums (bx_sections built))) in *. set (i := sd_checksum_start d + c) in *.
  assert (content = bx_header built ++ words_of 4 all ++
    placed_bytes (bx_sections built) (bx_descriptors built) (zlen image_prefix)) as Econtent.
  { rewrite image_prefix_app at 1. unfold image_prefix at 1. rewrite <- app_assoc. do 2 f_equal.
    unfold words_of, all. by rewrite (flat_map_concat_map sf_checksums). }
  destruct (built_parses reader Hreader) as [_ Hz].
  pose proof (slice_app_mid (bx_header built) (words_of 4 all)
    (placed_bytes (bx_sections built) (bx_descriptors built) (zlen image_prefix))) as Htable.
  rewrite <- Econtent, Hz in Htable.
  pose proof (slice_slice _ _ _ _ _ _ _ Htable (slice_words_of 4 all (Z.to_nat i) v ltac:(lia) Hat)) as Hslice.
  unfold at_. replace (HEADER_BYTES + i * 4 + 4) with (HEADER_BYTES + (Z.of_nat (Z.to_nat i) * Z.of_nat 4 + Z.of_nat 4)) by lia.
  by replace (HEADER_BYTES + i * 4) with (HEADER_BYTES + Z.of_nat (Z.to_nat i) * Z.of_nat 4) by lia.
Qed.

(** An index that was built with checksums is intact. *)
Lemma opened_intact : is_verify (ki_checksum_policy options) = true -> intact idx content modified.
Proof.
  intros Hverify. split; [exact Hst|]. intros _ k c bytes Hc Hchunk at_.
  destruct (id Hbuilt) as ((_ & _ & Htext & _) & _ & _ & _ & order & _ & _ & Hall).
  destruct (opened_section order k Hall) as (data & section & Hi & Hs & Hholds & Hat & Hlen_k).
  destruct options_chunk as [Hcb _]. destruct opened_header as [E _].
  assert (bytes_ok data) as Hok.
  { destruct k; simpl in Hi; injection Hi as <-; try apply words_of_ok. unfold arena. apply Forall_concat, Forall_map.
    eapply Forall_impl; [exact Htext|]. intros key _. apply text_ok_bytes, normalized_text. }
  destruct (id Hholds) as (_ & _ & _ & Hsums). specialize (Hsums Hok).
  destruct (chunk_bounds idx Hidx k c Hc) as (Hb1 & Hb2 & Hb3 & _). rewrite Hlen_k in Hb1, Hb3.
  unfold chunk_at, chunk_len in Hchunk. unfold chunk_len in Hb2, Hb3. rewrite Hlen_k in Hchunk, Hb2, Hb3.
  rewrite E in Hchunk, Hb1, Hb2, Hb3. cbn [built_header ih_chunk_bytes] in Hchunk, Hb1, Hb2, Hb3.
  set (cb := chunk_bytes options) in *.
  destruct (slice_is_Some data (c * cb) (c * cb + Z.min (zlen data - c * cb) cb)) as [bytes' Hbytes]; [lia|lia|].
  assert (bytes' = bytes) as ->.
  { unfold section_at in Hat. pose proof (slice_slice _ _ _ _ _ _ _ Hat Hbytes) as Hss.
    rewrite Z.add_assoc in Hss. congruence. }
  assert (sf_checksums section !! Z.to_nat c = Some (adler32 bytes)) as Hv.
  { rewrite Hsums, list_lookup_fmap, chunks_lookup, Hbytes by lia. simpl. unfold chunk_sum. by rewrite Hverify. }
  assert (exists d, bx_descriptors built !! Z.to_nat (section_index k) = Some d) as [d Hd].
  { pose proof built_lens as Hl. apply (f_equal length) in Hl. rewrite !length_map in Hl.
    apply lookup_lt_is_Some. rewrite Hl. by eapply lookup_lt_Some. }
  assert (IndexCache.section idx k = d) as Esec.
  { unfold IndexCache.section, section_of, get_at. rewrite E. cbn [built_header ih_sections].
    rewrite (proj2 (Z.leb_le _ _)), Hd by (destruct k; simpl; lia). done. }
  unfold at_. rewrite Esec. eapply table_entry; [exact Hs|exact Hd|lia|exact Hv].
Qed.

End Opened.

End Image.
