(* ===== verification/IndexSample.v ===== *)
(** A persistent index of the sample dictionary: written, opened, and shown to
    stand for the index of the four keys.  The witnesses of the theorems about
    the persistent index evaluate the model on it. *)

From stdpp Require Import list_numbers.
From S2P Require Import Prelude Errors Types Budget Encoding Checksum Source Descriptors Samples Format Normalize LocatorIndex Arcs Core Dictionary SampleDictionary IndexFormat Writers IndexWrite Scratch ExternalSort MergeRuns IndexBuild IndexBuildProofs IndexCache IndexOpen IndexSearch IndexQuery.

Definition sample_keys : list text := map lit ["Alpha"; "Beta"; "alpha"; "gamma"]%string.

Definition sample_index_options : KeyIndexOptions := {|
  max_index_bytes := 4096; max_metadata_bytes := 1024; build_memory_bytes := 1024; chunk_bytes := 64;
  ki_checksum_policy := Verify |}.

Definition sample_identity : KeyIndexSourceIdentity :=
  {| source_bytes := zlen sample_v2; source_modified_unix_nanos := 1700000000000000000; key_count := 4 |}.

(** A section of [chunk]-byte chunks with their checksums. *)
Definition section_file (chunk : nat) (kind : SectionKind) (content : bytes) : SectionFile := {|
  sf_kind := kind; sf_file := content; sf_len := zlen content;
  sf_checksums := map (fun c => adler32 (take chunk (drop (c * chunk) content)))
                    (seq 0 (Z.to_nat (chunks_of (zlen content) (Z.of_nat chunk)))) |}.

Definition sample_sections : list SectionFile :=
  let n := mf_normalizer sample_file in
  [section_file 64 SecText (@arena simple_env n sample_keys);
   section_file 64 SecBounds (words_of 8 (@offsets_from simple_env n 0 sample_keys));
   section_file 64 SecRaw (words_of 4 (map raw_digest sample_keys));
   section_file 64 SecOrder (words_of 4 [0; 2; 1; 3])].

Definition sample_built : BuiltIndex :=
  match @build_header simple_env sample_sections sample_identity
          (zlen (@arena simple_env (mf_normalizer sample_file) sample_keys)) sample_index_options with
  | Ok (header, descriptors, total) =>
      {| bx_header := header; bx_sections := sample_sections; bx_descriptors := descriptors;
         bx_report := {| kb_source_identity := sample_identity; bytes_written := total |} |}
  | _ => {| bx_header := []; bx_sections := []; bx_descriptors := [];
            bx_report := {| kb_source_identity := sample_identity; bytes_written := 0 |} |}
  end.

Definition sample_image : bytes := Eval vm_compute in index_image sample_built.

Definition sample_index_file : nat -> option FileState :=
  fun _ => Some {| fc_content := sample_image; fc_modified := 0 |}.

Definition sample_open : Result PersistentKeyIndex * CoreState :=
  @open_file simple_env sample_file sample_index_file sample_identity sample_index_options sample_state.

(** A stand-in for an index that does not open, which this one does. *)
Definition unopened_index : PersistentKeyIndex := {|
  pi_source := sample_source;
  pi_header := {| ih_header_len := 0; ih_total_len := 0; ih_chunk_bytes := 0;
                  ih_source_identity := sample_identity; ih_normalized_text_len := 0; ih_sections := [];
                  ih_checksum_count := 0 |};
  pi_cache_memory := 0; pi_max_row_bytes := 0; pi_checksum_policy := Verify |}.

Definition sample_index : PersistentKeyIndex :=
  match fst sample_open with Ok idx => idx | _ => unopened_index end.

Definition sample_index_state : IndexState := index_state_new (snd sample_open).

Definition sample_locator : KeyLocator := index_locator sample_index sample_image.

Lemma sample_index_file_ok : index_file_ok sample_index_file.
Proof.
  intros t st [= <-]. split; [apply bytes_ok_check; by vm_compute|]. vm_compute. congruence.
Qed.

Lemma sample_index_opens :
  @open_file simple_env sample_file sample_index_file sample_identity sample_index_options sample_state =
    (Ok sample_index, snd sample_open).
Proof.
  assert (match fst sample_open with Ok _ => true | _ => false end = true) as Hok by (vm_compute; reflexivity).
  revert Hok. unfold sample_index, sample_open.
  destruct (@open_file simple_env sample_file sample_index_file sample_identity sample_index_options sample_state)
    as [[idx|e|site|] s]; [done|discriminate..].
Qed.

Lemma sample_index_opened :
  (index_ok sample_index /\ ih_source_identity (pi_header sample_index) = sample_identity /\
     mdict_len sample_file = key_count sample_identity /\ opened_from sample_index_file sample_index_options sample_index /\
     0 <= pi_cache_memory sample_index /\ @identity_matches sample_file sample_identity) /\
  core_ok (working_memory_bytes (mf_limits sample_file)) (@contracts simple_env sample_file)
    (sample_base + pi_cache_memory sample_index) [] (snd sample_open).
Proof.
  exact (wpM_run _ _ _ _ _ _
    (@triple_open_file simple_env sample_file (proj1 sample_ok) sample_base [] sample_index_file
      sample_identity sample_index_options sample_index_file_ok sample_state (proj2 sample_ok))
    sample_index_opens).
Qed.

Lemma sample_index_ok : index_ok sample_index.
Proof. exact (proj1 (proj1 sample_index_opened)). Qed.

Lemma sample_index_state_ok :
  index_state_ok (working_memory_bytes (mf_limits sample_file)) (@contracts simple_env sample_file)
    sample_index (sample_base + pi_cache_memory sample_index) [] sample_index_state.
Proof. exact (index_state_ok_new _ _ _ _ _ _ (proj2 sample_index_opened)). Qed.

Lemma sample_index_stable : stable (pi_source sample_index) sample_image 0.
Proof. vm_compute. by split. Qed.

Lemma sample_dictionary_rows :
  exists rows, @dictionary_rows simple_env sample_file rows /\ map row_key rows = sample_keys.
Proof.
  destruct (@all_rows simple_env sample_file sample_v2) as [rows| | |] eqn:E;
    [|exfalso; assert (match @all_rows simple_env sample_file sample_v2 with Ok _ => true | _ => false end = true)
        as Hok by (by vm_compute); by rewrite E in Hok..].
  exists rows. split; [by exists sample_v2, 1700000000000000000; split; [exact sample_stable|]|].
  assert (match @all_rows simple_env sample_file sample_v2 with Ok rows => map row_key rows | _ => [] end = sample_keys)
    as Hk by (by vm_compute).
  by rewrite E in Hk.
Qed.

Lemma sample_locator_of : @locator_of simple_env (mf_normalizer sample_file) sample_keys sample_locator.
Proof.
  split; [by vm_compute|]. split; [by vm_compute|]. split; [by vm_compute|].
  assert (kl_order sample_locator = [0; 2; 1; 3]) as -> by (by vm_compute).
  split; [change (seqZ 0 (zlen sample_keys)) with [0; 1; 2; 3]; by rewrite (Permutation_swap 1 2)|].
  assert (forall i j, (bytes_cmp (@normalized_row simple_env (mf_normalizer sample_file) sample_keys i)
             (@normalized_row simple_env (mf_normalizer sample_file) sample_keys j) = Lt) ->
             @row_le simple_env (mf_normalizer sample_file) sample_keys i j) as Hlt by (intros; by left).
  repeat match goal with |- StronglySorted _ _ => constructor | |- Forall _ _ => constructor end;
    try (apply Hlt; by vm_compute); right; split; [by vm_compute|lia].
Qed.

Lemma sample_indexed : @indexed simple_env sample_file sample_index sample_keys sample_locator.
Proof.
  split.
  - split; [by exists sample_image, 0; split; [exact sample_index_stable|]|exact sample_locator_of].
  - destruct sample_dictionary_rows as (rows & Hr & Hk). by exists rows.
Qed.
