(* ===== verification/IndexTheorems.v ===== *)
(** What the persistent index promises: it opens only for its dictionary, its
    reads do not depend on its caches, its searches end, no index file makes a
    lookup return a wrong key, and an index of the dictionary's keys answers
    every query as the in-memory index does. *)

From stdpp Require Import list_numbers.
From S2P Require Import Prelude Errors Types Budget Logic Encoding Checksum Source Descriptors Samples Format Normalize LocatorIndex Arcs Core Dictionary SampleDictionary Keys Locate CaseVariants Lookup Mdx IndexFormat IndexWrite IndexCache IndexOpen IndexSearch IndexQuery IndexScan IndexSample.

Section IndexTheorems.

Context `{EnvOk} (f : MdictFile) (Hf : file_ok f).

#[local] Notation max := (working_memory_bytes (mf_limits f)).
#[local] Notation n := (mf_normalizer f).

(** C15: opening an index file, whatever it contains and however it changes,
    never panics.  An index that opens has a well-formed header whose sections
    lie in the file, the identity that was expected and the number of keys the
    dictionary has; it takes the bytes of its caches from the budget and starts
    in a consistent state.  A failure takes nothing. *)
Theorem open_file_correct base hs s file expected options :
  index_file_ok file -> state_ok f base hs s ->
  wpM (open_file f file expected options) s
    (fun idx s' => index_ok idx /\ ih_source_identity (pi_header idx) = expected /\
       mdict_len f = key_count expected /\
       index_state_ok max (contracts f) idx (base + pi_cache_memory idx) hs (index_state_new s'))
    (fun _ s' => state_ok f base hs s').
Proof.
  intros Hfile Hs. eapply wpM_mono; [by apply (triple_open_file f Hf base hs)| |done].
  intros idx s' [(Hidx & Hid & Hlen & _ & _) Hs']. split_and!; try done. by apply index_state_ok_new.
Qed.

Section Opened.

Context (idx : PersistentKeyIndex) (Hidx : index_ok idx) (base : Z) (hs : list nat) (s : IndexState).
Context (Hs : index_state_ok max (contracts f) idx base hs s).

#[local] Notation Inv := (index_state_ok max (contracts f) idx).

(** C16: a read of a section of an intact index succeeds and returns the bytes
    of the file, whatever chunks the caches hold and however many chunks the
    range spans. *)
Theorem section_read_correct k offset len content modified bytes :
  intact idx content modified -> section_at idx k content bytes ->
  0 <= offset -> 0 <= len -> offset + len <= sd_len (section idx k) ->
  exists out s', read_section_into_cached idx k offset len s = (Ok out, s') /\
    slice bytes offset (offset + len) = Some out /\ Inv base hs s'.
Proof.
  intros Hint Hat Ho Hl Hle.
  pose proof (succeeds_read_cached max (contracts f) idx Hidx k offset len Ho Hl Hle base hs s Hs) as Hw.
  unfold wpM in Hw. destruct (read_section_into_cached idx k offset len s) as [[out|e|site|] s'];
    [|by destruct Hw as [_ []%(fun h => h content modified)]|done..].
  destruct Hw as [(_ & _ & Hread) Hs']. exists out, s'. split_and!; try done.
  pose proof (range_at_section idx Hidx k offset (offset + len) content modified out (proj1 Hint) Ho Hle
    (Hread content modified (proj1 Hint))) as Hr.
  unfold section_at in Hat. by rewrite Hat in Hr.
Qed.

(** C17: the binary search over an index file ends on every file: its result
    is a position, found in at most as many rounds as there are keys, and when
    the file is the index of [keys] it is the number of rows before the query
    (or not behind it, with [inclusive_end]). *)
Theorem index_lower_bound_correct query inclusive_end :
  wpM (index_lower_bound idx query inclusive_end) s
    (fun r s' => 0 <= r <= index_len idx /\ Inv base hs s' /\
       forall keys l, encodes idx n keys l ->
         r = boundary l query inclusive_end /\
         forall i row, get_at (kl_order l) i = Some row ->
           on_left query inclusive_end (normalized_row n keys row) = (i <? r))
    (fun _ s' => Inv base hs s').
Proof.
  eapply wpM_mono; [by apply (keeps_lower_bound max (contracts f) idx Hidx n query inclusive_end base hs)| |done].
  intros r s' [[Hr Hl] Hs']. split_and!; try done; try lia. intros keys l He. specialize (Hl keys l He). split; [done|].
  rewrite Hl. apply (boundary_spec n keys l query inclusive_end), He.
Qed.

(** C9: whatever an index file contains, a key that a lookup through it
    returns is a key of the dictionary with the normalized form of the query,
    and equal to the query when the match is called exact; a hit is never
    empty.  What the lookup took is given back when it fails or finds
    nothing. *)
Theorem index_lookup_sound query :
  wpM (locate_with_key_index f idx query) s
    (fun r s' => sound_matches f query r /\ Inv base (located_handles r ++ hs) s')
    (fun _ s' => Inv base hs s').
Proof.
  destruct (id Hs) as ((_ & _ & Hbase & _) & _).
  eapply wpM_mono; [by apply (triple_index_locate f Hf idx Hidx [] sample_locator base hs query Hbase)| |done].
  intros r s' [[Hr _] Hs']. by split.
Qed.

(** The same for a page of the matches: whatever the index file
    contains, the page is a page of keys of the dictionary that match. *)
Theorem index_page_sound query offset limit :
  0 <= offset -> 0 <= limit ->
  wpM (locate_page_with_key_index f idx query offset limit) s
    (fun r s' => sound_page f query offset limit r /\ Inv (base + page_bytes r) hs s')
    (fun _ s' => Inv base hs s').
Proof.
  intros Ho Hl. destruct (id Hs) as ((_ & _ & Hbase & _) & _).
  eapply wpM_mono;
    [by apply (triple_index_locate_page f Hf idx Hidx [] sample_locator base hs query offset limit Hbase Ho Hl)| |done].
  intros r s' [(_ & Hr & _) Hs']. by split.
Qed.

(** C26: a scan through any index file visits the normalized forms of the
    dictionary's own keys in physical order, up to the first visit that breaks.
    The variables the visitor captures survive a failure, and then they are
    what the visits of the first [k] of these keys made of them, none of which
    broke: a row whose text the dictionary does not confirm fails the scan
    before it is visited, so no visit, behind a failure or not, is ever of
    another text. *)
Theorem index_scan_correct {V} (visit : Visit V) v :
  wpM (scan_normalized_keys_with_index f idx visit) (s, v)
    (fun _ '(s', v') => Inv base hs s' /\ forall rows, dictionary_rows f rows ->
       v' = scan_loop (normalized_row n (map row_key rows)) visit (seqZ 0 (zlen rows)) v)
    (fun _ '(s', v') => Inv base hs s' /\ exists k, 0 <= k <= index_len idx /\
       forall rows, dictionary_rows f rows ->
         visited (normalized_row n (map row_key rows)) visit (seqZ 0 k) v v').
Proof. by apply (index_scan_scans f Hf idx Hidx). Qed.

(** C12: an index of the dictionary's keys answers a lookup in every match
    mode as the in-memory index does: the same basis and the same ordinals. *)
Theorem index_locate_with_mode_correct keys l query mode :
  indexed f idx keys l ->
  wpM (locate_with_key_index_and_mode f idx query mode) s
    (fun r s' => Inv base (located_handles r ++ hs) s' /\
       match r, mode_spec f mode keys query with
       | Some k, Some (basis, ordinals) => lk_basis k = basis /\ denotes k ordinals
       | None, None => True
       | _, _ => False
       end)
    (fun _ s' => Inv base hs s').
Proof.
  intros Henc. destruct (id Hs) as ((_ & _ & Hbase & _) & _).
  eapply wpM_mono;
    [by apply (triple_index_locate_with_mode f Hf idx Hidx keys l base hs query mode Hbase)| |done].
  intros r s' [Hr Hs']. split; [done|by apply Hr].
Qed.

(** C24: the same for a page: basis, total and ordinals are those of the
    specification of the in-memory index. *)
Theorem index_page_with_mode_correct keys l query offset limit mode :
  indexed f idx keys l -> 0 <= offset -> 0 <= limit ->
  wpM (locate_page_with_key_index_and_mode f idx query offset limit mode) s
    (fun r s' => Inv (base + page_bytes r) hs s' /\
       page_content <$> r = mode_page_spec f mode keys query offset limit)
    (fun _ s' => Inv base hs s').
Proof.
  intros Henc Ho Hl. destruct (id Hs) as ((_ & _ & Hbase & _) & _).
  eapply wpM_mono;
    [by apply (triple_index_page_with_mode f Hf idx Hidx keys l base hs query offset limit mode Hbase Ho Hl)| |done].
  intros r s' [[_ Hr] Hs']. split; [done|by apply Hr].
Qed.

(** C25: a prefix search through any index file returns at most [limit]
    entries of the dictionary whose normalized keys start with the normalized
    prefix; through an index of the dictionary's keys they are the first
    [limit] of them in normalized order. *)
Theorem index_prefix_correct prefix limit :
  0 <= limit ->
  wpM (prefix_keys_with_index f idx prefix limit) s
    (fun found s' => Inv base hs s' /\ zlen found <= limit /\
       Forall (prefix_entry f (normalized n prefix)) found /\
       forall keys l, indexed f idx keys l -> 0 < limit ->
         prefix_spec n keys (normalized n prefix) limit (map ke_ordinal found))
    (fun _ s' => Inv base hs s').
Proof.
  intros Hl.
  eapply wpM_mono; [apply (wpM_all (([], sample_locator) : list text * KeyLocator)); intros kl;
    by apply (keeps_index_prefix f Hf idx Hidx (fst kl) (snd kl) prefix limit Hl base hs)| |done].
  intros found s' Hall. destruct (Hall ([], sample_locator)) as [(Hp & Hz & _) Hs']. split_and!; try done.
  intros keys l Henc. by apply (Hall (keys, l)).
Qed.

End Opened.

End IndexTheorems.

(** ** Witnesses, on the index of Alpha, Beta, alpha and gamma *)

#[local] Existing Instance simple_env.

#[local] Notation sample_inv base hs s :=
  (index_state_ok (working_memory_bytes (mf_limits sample_file)) (@contracts simple_env sample_file)
     sample_index base hs s).

#[local] Notation opened_base := (sample_base + pi_cache_memory sample_index).

Example open_file_witness :
  wpM (@open_file simple_env sample_file sample_index_file sample_identity sample_index_options) sample_state
    (fun idx s' => index_ok idx) (fun _ s' => @state_ok simple_env sample_file sample_base [] s') /\
  match fst sample_open with Ok idx => pi_cache_memory idx = 4 * 64 + 16 | _ => False end.
Proof.
  split; [|vm_compute; reflexivity].
  eapply wpM_mono; [apply (@open_file_correct simple_env sample_file (proj1 sample_ok) sample_base [] sample_state
    sample_index_file sample_identity sample_index_options sample_index_file_ok (proj2 sample_ok))| |done].
  intros idx s' [Hidx _]. exact Hidx.
Defined.

Lemma sample_intact : intact sample_index sample_image 0.
Proof.
  split; [exact sample_index_stable|]. intros _ k c bytes Hc Hat. unfold chunk_at in Hat.
  assert (sd_checksum_count (section sample_index k) = 1) as E by (destruct k; by vm_compute).
  assert (c = 0) as -> by lia.
  assert (forall k,
    let start := sd_offset (section sample_index k) + 0 * ih_chunk_bytes (pi_header sample_index) in
    let at_ := HEADER_BYTES + (sd_checksum_start (section sample_index k) + 0) * 4 in
    match slice sample_image start (start + chunk_len sample_index k 0) with
    | Some b => bool_decide (slice sample_image at_ (at_ + 4) = Some (le_split 4 (adler32 b)))
    | None => false
    end = true) as Hall by (intros []; by vm_compute).
  specialize (Hall k). cbv beta zeta in Hall. rewrite Hat in Hall. by apply bool_decide_eq_true in Hall.
Qed.

Example section_read_witness :
  exists out s', read_section_into_cached sample_index SecText 5 4 sample_index_state = (Ok out, s') /\
    out = lit "beta".
Proof.
  destruct (@section_read_correct simple_env sample_file sample_index sample_index_ok opened_base [] sample_index_state
    sample_index_state_ok SecText 5 4 sample_image 0 (lit "alphabetaalphagamma"))
    as (out & s' & Hr & Hout & _).
  - exact sample_intact.
  - vm_compute. reflexivity.
  - lia.
  - lia.
  - vm_compute. discriminate.
  - exists out, s'. split; [exact Hr|]. vm_compute in Hout. by injection Hout as <-.
Defined.

Example index_lower_bound_witness :
  wpM (index_lower_bound sample_index (lit "alpha") true) sample_index_state
    (fun r s' => 0 <= r <= 4) (fun _ s' => sample_inv opened_base [] s') /\
  fst (index_lower_bound sample_index (lit "alpha") true sample_index_state) = Ok 2.
Proof.
  split; [|vm_compute; reflexivity].
  eapply wpM_mono; [apply (@index_lower_bound_correct simple_env simple_env_ok sample_file sample_index
    sample_index_ok opened_base [] sample_index_state sample_index_state_ok (lit "alpha") true)| |done].
  intros r s' [Hr _]. exact Hr.
Defined.

Example index_lookup_sound_witness :
  wpM (@locate_with_key_index simple_env sample_file sample_index (lit "BETA")) sample_index_state
    (fun r s' => @sound_matches simple_env sample_file (lit "BETA") r) (fun _ s' => sample_inv opened_base [] s') /\
  match fst (@locate_with_key_index simple_env sample_file sample_index (lit "BETA") sample_index_state) with
  | Ok (Some k) => lk_basis k = HeaderNormalized /\ matches_iter k = Ok [1]
  | _ => False
  end.
Proof.
  split; [|vm_compute; split; reflexivity].
  eapply wpM_mono; [apply (@index_lookup_sound simple_env simple_env_ok sample_file (proj1 sample_ok) sample_index
    sample_index_ok opened_base [] sample_index_state sample_index_state_ok (lit "BETA"))| |done].
  intros r s' [Hr _]. exact Hr.
Defined.

Example index_page_sound_witness :
  wpM (@locate_page_with_key_index simple_env sample_file sample_index (lit "ALPHA") 1 5) sample_index_state
    (fun r s' => @sound_page simple_env sample_file (lit "ALPHA") 1 5 r)
    (fun _ s' => sample_inv opened_base [] s') /\
  match fst (@locate_page_with_key_index simple_env sample_file sample_index (lit "ALPHA") 1 5 sample_index_state) with
  | Ok (Some p) => lp_total p = 2 /\ lp_ordinals p = [2]
  | _ => False
  end.
Proof.
  split; [|vm_compute; split; reflexivity].
  eapply wpM_mono; [apply (@index_page_sound simple_env simple_env_ok sample_file (proj1 sample_ok) sample_index
    sample_index_ok opened_base [] sample_index_state sample_index_state_ok (lit "ALPHA") 1 5); lia| |done].
  intros r s' [Hr _]. exact Hr.
Defined.

Example index_scan_witness :
  let visit : Visit (list Z) := fun visits row _ => (visits ++ [row], row =? 2) in
  wpM (@scan_normalized_keys_with_index simple_env sample_file sample_index _ visit) (sample_index_state, [])
    (fun _ sv => sample_inv opened_base [] (fst sv)) (fun _ sv => sample_inv opened_base [] (fst sv)) /\
  snd (snd (@scan_normalized_keys_with_index simple_env sample_file sample_index _ visit (sample_index_state, []))) =
    [0; 1; 2].
Proof.
  intros visit. split; [|vm_compute; reflexivity].
  eapply wpM_mono; [apply (@index_scan_correct simple_env simple_env_ok sample_file (proj1 sample_ok) sample_index
    sample_index_ok opened_base [] sample_index_state sample_index_state_ok _ visit [])|..].
  - intros r [s' v'] [Hs' _]. exact Hs'.
  - intros e [s' v'] [Hs' _]. exact Hs'.
Defined.

Example index_locate_with_mode_witness :
  wpM (@locate_with_key_index_and_mode simple_env sample_file sample_index (lit "alpha") IncludeCaseVariants)
    sample_index_state
    (fun r s' => sample_inv opened_base (located_handles r ++ []) s')
    (fun _ s' => sample_inv opened_base [] s') /\
  match fst (@locate_with_key_index_and_mode simple_env sample_file sample_index (lit "alpha")
               IncludeCaseVariants sample_index_state) with
  | Ok (Some k) => matches_iter k = Ok [2; 0]
  | _ => False
  end.
Proof.
  split; [|vm_compute; reflexivity].
  eapply wpM_mono; [apply (@index_locate_with_mode_correct simple_env simple_env_ok sample_file (proj1 sample_ok)
    sample_index sample_index_ok opened_base [] sample_index_state sample_index_state_ok sample_keys sample_locator
    (lit "alpha") IncludeCaseVariants sample_indexed)| |done].
  intros r s' [Hs' _]. exact Hs'.
Defined.

Example index_page_with_mode_witness :
  wpM (@locate_page_with_key_index_and_mode simple_env sample_file sample_index (lit "alpha") 1 7
         IncludeCaseVariants) sample_index_state
    (fun r s' => page_content <$> r =
       @mode_page_spec simple_env sample_file IncludeCaseVariants sample_keys (lit "alpha") 1 7)
    (fun _ s' => sample_inv opened_base [] s') /\
  @mode_page_spec simple_env sample_file IncludeCaseVariants sample_keys (lit "alpha") 1 7 =
    Some (Locate.CaseVariants, 2, [0]).
Proof.
  split; [|vm_compute; reflexivity].
  eapply wpM_mono; [apply (@index_page_with_mode_correct simple_env simple_env_ok sample_file (proj1 sample_ok)
    sample_index sample_index_ok opened_base [] sample_index_state sample_index_state_ok sample_keys sample_locator
    (lit "alpha") 1 7 IncludeCaseVariants sample_indexed); lia| |done].
  intros r s' [_ Hr]. exact Hr.
Defined.

Example index_prefix_witness :
  wpM (@prefix_keys_with_index simple_env sample_file sample_index (lit "AL") 9) sample_index_state
    (fun found s' => zlen found <= 9) (fun _ s' => sample_inv opened_base [] s') /\
  match fst (@prefix_keys_with_index simple_env sample_file sample_index (lit "AL") 9 sample_index_state) with
  | Ok found => map ke_ordinal found = [0; 2]
  | _ => False
  end.
Proof.
  split; [|vm_compute; reflexivity].
  eapply wpM_mono; [apply (@index_prefix_correct simple_env simple_env_ok sample_file (proj1 sample_ok) sample_index
    sample_index_ok opened_base [] sample_index_state sample_index_state_ok (lit "AL") 9); lia| |done].
  intros r s' (_ & Hz & _). exact Hz.
Defined.
