(* ===== verification/BuildTheorems.v ===== *)
(** The persistent index from end to end: the external sort sorts, a
    destination that was written to completely holds the image, and an index
    that is built, written and opened answers as the in-memory index does. *)

From stdpp Require Import list_numbers sorting.
From S2P Require Import Prelude Errors Types Budget Logic Utf8 Encoding Checksum Source Descriptors Header KeySection Samples Format Normalize LocatorIndex Arcs Core Dictionary SampleDictionary Keys Iter Locator Locate CaseVariants Lookup Mdx IndexFormat Writers IndexWrite Scratch ExternalSort MergeRuns MergeProofs IndexBuild IndexBuildProofs IndexCache IndexOpen IndexSearch IndexQuery IndexScan IndexRoundTrip IndexSample.

(** Writing the pieces of a section. *)
Fixpoint write_pieces `{Env} `{BuildIo} {S : Type} `{HasWorld S} (writer : SectionScratchWriter) (pieces : list bytes)
    : M S SectionScratchWriter :=
  match pieces with
  | [] => mret writer
  | piece :: pieces => let! writer := write_all writer piece in write_pieces writer pieces
  end.

Section Writing.

Context `{EnvOk} `{BuildIoOk} {S : Type} `{HasWorld S} (chunk : Z) (policy : ChecksumPolicy).

Lemma budgeted_write_pieces writer pieces data :
  section_written chunk policy writer data ->
  budgeted (S := S) (write_pieces writer pieces) (fun w => section_written chunk policy w (data ++ concat pieces))
    (fun _ => 0).
Proof.
  revert writer data; induction pieces as [|piece pieces IH]; intros writer data Hw; cbn [write_pieces concat].
  { apply budgeted_ret. by rewrite app_nil_r. }
  eapply budgeted_bind; [by apply (budgeted_write_all (section_written chunk policy))|].
  intros writer' Hw'. cbv beta in Hw' |- *. rewrite app_assoc. by apply IH.
Qed.

Lemma budgeted_write_section pieces kind capacity :
  0 < capacity -> 0 < chunk <= u64_max ->
  budgeted (S := S)
    (let! writer := lift (section_writer_new [] capacity chunk policy) in
     let! writer := write_pieces writer pieces in
     into_section writer kind) (section_holds kind chunk policy (concat pieces)) (fun _ => 0).
Proof.
  intros Hc Hchunk. eapply budgeted_bind; [by apply budgeted_lift, wp_section_writer_new|].
  intros writer Hw. cbv beta in Hw |- *. eapply budgeted_bind; [by apply budgeted_write_pieces|].
  intros writer' Hw'. cbv beta in Hw' |- *. eapply budgeted_into_section. exact Hw'.
Qed.

End Writing.

Section BuildTheorems.

Context `{EnvOk} `{BuildIoOk} (f : MdictFile) (Hf : file_ok f) (options : KeyIndexOptions).

#[local] Notation max := (working_memory_bytes (mf_limits f)).
#[local] Notation n := (mf_normalizer f).

(** ** Building into a file *)

(** What a build leaves behind. *)
Definition written_index (report : KeyIndexBuild) (file : File) : Prop :=
  exists keys built, built_ok f options keys built /\ validate_options options = Ok tt /\
    report = bx_report built /\ file = index_image built /\ zlen file = bytes_written report.

(** Two results that hold the same matches. *)
Definition same_matches (r r' : option LocatedKeys) : Prop :=
  match r, r' with
  | Some k, Some k' => lk_basis k = lk_basis k' /\ exists ordinals, denotes k ordinals /\ denotes k' ordinals
  | None, None => True
  | _, _ => False
  end.

Lemma keeps_build_index_valid :
  keeps max (contracts f) (build_index f options) (fun built => exists keys,
    built_ok f options keys built /\ validate_options options = Ok tt).
Proof.
  assert (validate_options options = Ok tt \/ exists e, validate_options options = Err e) as [Hopt|[e Hopt]].
  { pose proof (validate_options_safe options) as Hs. destruct (validate_options options) as [[]|e|site|]; try done; eauto. }
  - by apply (keeps_build_index f Hf), (options_chunk options Hopt).
  - unfold build_index. apply (keeps_bind _ _ _ _ (fun _ => False)); [|done]. apply keeps_lift. by rewrite Hopt.
Qed.

Lemma keeps_write_index sink keys built :
  built_ok f options keys built -> validate_options options = Ok tt ->
  keeps max (contracts f) (write_built_index built sink (chunk_bytes options)) (fun sink' =>
    sk_content sink' = index_image built /\ zlen (index_image built) = bytes_written (bx_report built)).
Proof.
  intros Hb Hopt. apply keeps_budgeted.
  eapply budgeted_mono; [apply budgeted_write_built_index| |done].
  - apply (options_chunk options Hopt).
  - eapply Forall_impl; [by apply (sections_exact f options keys built)|]. simpl. intros section ->. lia.
  - intros sink' (? & ? & _). done.
Qed.

Lemma budgeted_ensure_source_unchanged expected operation :
  budgeted (ensure_source_unchanged f expected operation) (fun _ => True) (fun _ => 0).
Proof.
  unfold ensure_source_unchanged. eapply budgeted_bind; [apply budgeted_source_identity|].
  intros current _. by apply budgeted_lift, wp_ensure.
Qed.

Lemma keeps_build_to_path :
  keeps max (contracts f) (build_to_path f options) (fun '(report, file) => written_index report file).
Proof.
  unfold build_to_path. eapply keeps_bind; [apply keeps_build_index_valid|]. intros built (keys & Hb & Hopt). cbv beta.
  eapply keeps_bind; [apply keeps_budgeted, budgeted_file_operation|]. intros [] _. cbv beta.
  eapply keeps_bind; [by eapply keeps_write_index|]. intros sink [Hc Hz]. cbv beta.
  eapply keeps_bind; [apply keeps_budgeted, budgeted_file_operation|]. intros [] _. cbv beta.
  eapply keeps_bind; [apply keeps_budgeted, budgeted_file_operation|]. intros [] _. cbv beta.
  apply (keeps_bind _ _ _ _ (fun _ => True)); [apply keeps_budgeted, budgeted_ensure_source_unchanged|].
  intros [] _. cbv beta. apply keeps_ret. exists keys, built. by rewrite Hc.
Qed.

Lemma keeps_build_to_writer destination :
  keeps max (contracts f) (build_to_writer f options destination)
    (fun '(report, sink) => written_index report (sk_content sink)).
Proof.
  unfold build_to_writer. eapply keeps_bind; [apply keeps_build_index_valid|]. intros built (keys & Hb & Hopt). cbv beta.
  eapply keeps_bind; [by eapply keeps_write_index|]. intros sink [Hc Hz]. cbv beta.
  apply (keeps_bind _ _ _ _ (fun _ => True)); [apply keeps_budgeted, budgeted_ensure_source_unchanged|].
  intros [] _. cbv beta. apply keeps_ret. exists keys, built. by rewrite Hc.
Qed.

(** ** Opening what was built *)

Section Opened.

Context (report : KeyIndexBuild) (file : File) (Hwritten : written_index report file).
Context (content : bytes) (modified : Z) (Hstable : stable (mf_source f) content modified) (Hmod : is_i128 modified).
Context (reader : KeyIndexOptions) (Hreader : options_allow options reader).
Context (target : nat -> option FileState) (Htarget : index_file_ok target).
Context (written : Z) (Hnow : always target file written).

(** The index that was built, opened. *)
Definition reopened (idx : PersistentKeyIndex) (keys : list text) : Prop :=
  (exists rows, all_rows f content = Ok rows /\ keys = map row_key rows) /\
  indexed f idx keys (index_locator idx file) /\
  (is_verify (ki_checksum_policy options) = true -> intact idx file written).

Lemma triple_reopen base hs expected :
  triple max (contracts f) base hs (open_file f target expected reader)
    (fun idx => index_ok idx /\ exists keys, reopened idx keys)
    (fun idx => base + pi_cache_memory idx) (fun _ => hs) base hs.
Proof.
  eapply triple_mono; [by apply (triple_open_file f Hf base hs)|]. intros idx (Hidx & _ & _ & (_ & Hof & _ & Hst) & _). split_and!; try done.
  specialize (Hst _ _ Hnow).
  destruct Hwritten as (keys & built & Hbuilt & Hopt & Ereport & Efile & Hz). rewrite Ereport in Hz. rewrite Efile in Hst, Hz.
  unfold reopened. rewrite Efile. exists keys.
  destruct (id Hbuilt) as ((_ & _ & _ & Hrows) & _ & (_ & _ & Hid) & _).
  destruct (Hrows _ _ Hstable) as (rows & Hall & Hkeys).
  assert (is_i128 (source_modified_unix_nanos (kb_source_identity (bx_report built)))) as Hm
    by by rewrite (Hid _ _ Hstable).
  split_and!.
  - by exists rows.
  - split; [|exists rows; split; [by exists content, modified|done]].
    by apply (opened_encodes f Hf options Hopt keys built Hbuilt Hm Hz idx Hidx reader written).
  - by apply (opened_intact f Hf options Hopt keys built Hbuilt Hm Hz idx Hidx reader written).
Qed.

End Opened.

(** ** Properties *)

(** C2: building an index of a dictionary file that stays as it is into a new
    file never panics and always ends, whatever the operations on the files it
    writes and [cancelled] do.  When it succeeds, the
    report names the dictionary file and the length of the index, and opening
    the file under the reported identity gives, whenever it succeeds, an index
    that stands for the keys of the dictionary, intact when it was written
    with checksums. *)
Theorem build_to_path_round_trip base hs s content modified :
  state_ok f base hs s -> stable (mf_source f) content modified -> is_i128 modified ->
  wpM (build_to_path f options) s
    (fun '(report, file) s' => state_ok f base hs s' /\ zlen file = bytes_written report /\
       kb_source_identity report = {| source_bytes := zlen content; source_modified_unix_nanos := modified;
                                      key_count := mdict_len f |} /\
       forall base1 hs1 s1 reader target written,
         state_ok f base1 hs1 s1 -> options_allow options reader ->
         index_file_ok target -> always target file written ->
         wpM (open_file f target (kb_source_identity report) reader) s1
           (fun idx s2 => (exists keys, reopened file content written idx keys) /\
              index_state_ok max (contracts f) idx (base1 + pi_cache_memory idx) hs1 (index_state_new s2))
           (fun _ s2 => state_ok f base1 hs1 s2))
    (fun _ s' => state_ok f base hs s').
Proof.
  intros Hs Hstable Hmod. eapply wpM_mono; [apply (keeps_build_to_path base hs s Hs)| |done].
  intros [report file] s' [Hw Hs']. cbv beta iota. split_and!; try done.
  - by destruct Hw as (? & ? & _ & _ & _ & _ & ?).
  - destruct Hw as (? & built & (_ & _ & (Hsrc & Hkc & Hid) & _) & _ & -> & _). specialize (Hid _ _ Hstable).
    destruct Hstable as [E _]. destruct (kb_source_identity (bx_report built)); simpl in *. by subst; rewrite <- E.
  - intros base1 hs1 s1 reader target written Hs1 Hreader Htarget Hnow.
    eapply wpM_mono;
      [by apply (triple_reopen report file Hw content modified Hstable Hmod reader Hreader target Htarget written Hnow
         base1 hs1)| |done].
    intros idx s2 [[_ Hidx] Hs2]. split; [done|]. by apply index_state_ok_new.
Qed.

(** C1: from end to end: an index that is built into a file and opened from
    it answers a lookup in any match mode exactly as the in-memory index
    does, whenever both answer: for a dictionary file that stays as it is, an
    index file that is what was built, and a reader whose limits allow what
    the writer's did. *)
Theorem built_index_agrees base0 hs0 s0 report file s1 base2 hs2 s2 reader target written idx s3
    base4 hs4 s4 content modified query mode r s5 r' s6 :
  stable (mf_source f) content modified -> is_i128 modified ->
  state_ok f base0 hs0 s0 -> build_to_path f options s0 = (Ok (report, file), s1) ->
  options_allow options reader -> index_file_ok target -> always target file written ->
  state_ok f base2 hs2 s2 -> open_file f target (kb_source_identity report) reader s2 = (Ok idx, s3) ->
  locate_with_key_index_and_mode f idx query mode (index_state_new s3) = (Ok r, s5) ->
  state_ok f base4 hs4 s4 -> locate_with_mode f query mode s4 = (Ok r', s6) ->
  same_matches r r'.
Proof.
  intros Hstable Hmod Hs0 Hbuild Hreader Htarget Hnow Hs2 Hopen Hindex Hs4 Hmem.
  destruct (wpM_run _ _ _ _ _ _ (keeps_build_to_path base0 hs0 s0 Hs0) Hbuild) as [Hw _].
  destruct (wpM_run _ _ _ _ _ _ (triple_reopen report file Hw content modified Hstable Hmod reader Hreader target
    Htarget written Hnow base2 hs2 _ s2 Hs2) Hopen) as [(Hidx & keys & (rows & Hrows & Hkeys) & Henc & _) Hs3].
  apply (index_state_ok_new _ _ idx) in Hs3. destruct (id Hs3) as ((_ & _ & Hbase & _) & _).
  destruct (wpM_run _ _ _ _ _ _ (triple_index_locate_with_mode f Hf idx Hidx keys (index_locator idx file)
    _ hs2 query mode Hbase _ Hs3) Hindex)
    as [Hr _]. specialize (Hr Henc).
  destruct (id Hs4) as (_ & _ & Hbase4 & _).
  destruct (wpM_run _ _ _ _ _ _ (triple_locate_with_mode f Hf base4 hs4 query mode Hbase4 s4 Hs4) Hmem) as [Hr' _].
  destruct (Hr' _ _ Hstable) as (rows' & Hrows' & Hanswer). assert (rows' = rows) as -> by congruence.
  rewrite Hkeys in Hr. unfold same_matches.
  destruct (mode_spec f mode (map row_key rows) query) as [[basis ordinals]|]; destruct r, r'; try done.
  destruct Hr as [-> ?], Hanswer as [-> ?]. split; [done|]. by exists ordinals.
Qed.

(** C27: an index is never opened for a dictionary file that is not the one
    it is expected to be of: when the size, the modification time or the
    number of keys of the dictionary differ from the expected identity,
    opening fails, whatever the index file contains, and takes nothing. *)
Theorem stale_index_rejected base hs s target expected reader content modified :
  state_ok f base hs s -> index_file_ok target -> stable (mf_source f) content modified ->
  expected <> {| source_bytes := zlen content; source_modified_unix_nanos := modified; key_count := mdict_len f |} ->
  exists e s', open_file f target expected reader s = (Err e, s') /\ state_ok f base hs s'.
Proof.
  intros Hs Htarget Hstable Hne. pose proof (triple_open_file f Hf base hs target expected reader Htarget s Hs) as Hw.
  unfold wpM in Hw. destruct (open_file f target expected reader s) as [[idx|e|site|] s']; try done; [|by exists e, s'].
  exfalso. apply Hne. destruct Hw as [(_ & _ & Hk & _ & _ & Hl & Hm) _]. specialize (Hm _ _ Hstable).
  destruct Hstable as [E _]. destruct expected; simpl in *. f_equal; congruence.
Qed.

End BuildTheorems.

Section Parts.

Context `{EnvOk} `{BuildIoOk} {S : Type} `{HasWorld S}.

(** C10: the external sort ends and sorts: from any number of sorted runs, in
    as many passes as the memory for the build requires and however short the
    writes are, it makes the order section hold the ordinals of all records of
    the runs in the order of their keys and ordinals, with the checksums of
    its chunks.  It never panics, and it fails without taking anything. *)
Theorem merge_runs_correct options runs rows maximum_record_bytes (s : S) :
  0 < chunk_bytes options <= u64_max -> Forall run_ok runs -> 0 <= maximum_record_bytes -> budget_ok (get_budget s) ->
  wpM (merge_runs options (encode_runs runs) (zlen runs) rows maximum_record_bytes) s
    (fun section s' => accounts s s' 0 /\ exists sorted,
       sorted ≡ₚ concat runs /\ StronglySorted rec_le sorted /\ zlen sorted = rows /\
       section_holds SecOrder (chunk_bytes options) (ki_checksum_policy options) (encode_ordinals sorted) section)
    (fun _ s' => accounts s s' 0).
Proof.
  intros Hcb Hruns Hm Hs.
  eapply wpM_mono; [by apply (budgeted_merge_runs options Hcb (encode_runs runs) runs rows)| |done].
  intros section s' [Hsorted Hs']. by split.
Qed.

(** Writing a built index ends and never panics; when it succeeds the
    destination holds the header, the checksums and the sections at their
    offsets and nothing else, whatever it held before and however short the
    writes are, and its length is the one in the report. *)
Theorem write_built_index_correct built sink buffer_bytes (s : S) :
  0 < buffer_bytes -> Forall (fun section => 0 <= sf_len section) (bx_sections built) -> budget_ok (get_budget s) ->
  wpM (write_built_index built sink buffer_bytes) s
    (fun sink' s' => accounts s s' 0 /\ sk_content sink' = index_image built /\
       zlen (index_image built) = bytes_written (bx_report built))
    (fun _ s' => accounts s s' 0).
Proof.
  intros Hb Hl Hs. eapply wpM_mono; [by apply budgeted_write_built_index| |done].
  intros sink' s' [(Hc & Hz & _) Hs']. by split.
Qed.

(** A section that is written piece by piece holds the pieces one after
    the other and one checksum for every chunk of them, wherever the pieces
    and the chunks end. *)
Theorem section_writer_correct pieces kind capacity chunk policy (s : S) :
  0 < capacity -> 0 < chunk <= u64_max -> bytes_ok (concat pieces) -> budget_ok (get_budget s) ->
  wpM (let! writer := lift (section_writer_new [] capacity chunk policy) in
       let! writer := write_pieces writer pieces in
       into_section writer kind) s
    (fun section s' => accounts s s' 0 /\ sf_kind section = kind /\ sf_file section = concat pieces /\
       sf_len section = zlen (concat pieces) /\
       sf_checksums section = map (chunk_sum policy) (chunks chunk (concat pieces)))
    (fun _ s' => accounts s s' 0).
Proof.
  intros Hc Hchunk Hok Hs. eapply wpM_mono; [apply (budgeted_write_section chunk policy pieces kind capacity)| |done]; try done.
  intros section s' [(Hk & Hf & Hl & Hsums) Hs']. split_and!; auto.
Qed.

End Parts.


(** ** Witnesses, on the dictionary of Alpha, Beta, alpha and gamma *)

(** Writes are short, nothing fails and nothing is cancelled. *)
#[local] Instance short_writes : BuildIo := {|
  io_succeeds _ := true;
  io_write t len := if len <? 0 then None else Some (if len =? 0 then 0 else 1 + Z.of_nat t mod len);
  io_cancelled _ := false;
  vec_capacity cap needed := Z.max cap needed |}.

#[local] Instance short_writes_ok : BuildIoOk.
Proof.
  constructor. intros t len k. simpl. destruct (Z.ltb_spec len 0); [done|].
  destruct (Z.eqb_spec len 0); intros [= <-]; [lia|]. pose proof (Z.mod_pos_bound (Z.of_nat t) len). lia.
Qed.

#[local] Existing Instance simple_env.
#[local] Existing Instance simple_env_ok.

Definition sample_build : Result (KeyIndexBuild * File) * CoreState :=
  build_to_path sample_file sample_index_options sample_state.

Definition sample_report : KeyIndexBuild :=
  {| kb_source_identity := sample_identity; bytes_written := zlen sample_image |}.

Lemma sample_builds :
  build_to_path sample_file sample_index_options sample_state = (Ok (sample_report, sample_image), snd sample_build).
Proof.
  assert (match fst sample_build with
          | Ok (report, file) => bool_decide (kb_source_identity report = sample_identity) &&
              (bytes_written report =? zlen sample_image) && bool_decide (file = sample_image)
          | _ => false end = true) as Hok by (vm_compute; reflexivity).
  revert Hok. unfold sample_build.
  destruct (build_to_path sample_file sample_index_options sample_state) as [[[report file]|e|site|] s];
    [|discriminate..].
  cbn [fst snd]. intros [[Hi%bool_decide_eq_true Hl%Z.eqb_eq]%andb_true_iff Hf%bool_decide_eq_true]%andb_true_iff.
  unfold sample_report. rewrite Hf, <- Hi, <- Hl. by destruct report.
Qed.

Lemma sample_modified_range : is_i128 1700000000000000000.
Proof. unfold is_i128. lia. Qed.

Lemma sample_reader : options_allow sample_index_options sample_index_options.
Proof. unfold options_allow, sample_index_options, u64_max. simpl. lia. Qed.

Example build_to_path_witness :
  wpM (build_to_path sample_file sample_index_options) sample_state
    (fun '(report, file) s' => zlen file = bytes_written report)
    (fun _ s' => state_ok sample_file sample_base [] s') /\
  match fst sample_build with Ok (_, file) => file = sample_image | _ => False end.
Proof.
  split; [|unfold sample_build; rewrite sample_builds; reflexivity].
  eapply wpM_mono; [apply (build_to_path_round_trip sample_file (proj1 sample_ok) sample_index_options sample_base []
    sample_state sample_v2 1700000000000000000 (proj2 sample_ok) sample_stable sample_modified_range)| |done].
  intros [report file] s' (_ & Hz & _). exact Hz.
Defined.

Example built_index_agrees_witness :
  match locate_with_key_index_and_mode sample_file sample_index (lit "alpha") IncludeCaseVariants sample_index_state,
        locate_with_mode sample_file (lit "alpha") IncludeCaseVariants sample_state with
  | (Ok r, _), (Ok r', _) => same_matches r r'
  | _, _ => False
  end.
Proof.
  assert (match fst (locate_with_key_index_and_mode sample_file sample_index (lit "alpha") IncludeCaseVariants
                       sample_index_state),
                fst (locate_with_mode sample_file (lit "alpha") IncludeCaseVariants sample_state) with
          | Ok _, Ok _ => true | _, _ => false end = true) as Hok by (vm_compute; reflexivity).
  revert Hok.
  destruct (locate_with_key_index_and_mode sample_file sample_index (lit "alpha") IncludeCaseVariants
              sample_index_state) as [[r|e|site|] s5] eqn:Hindex; [|discriminate..].
  destruct (locate_with_mode sample_file (lit "alpha") IncludeCaseVariants sample_state)
    as [[r'|e|site|] s6] eqn:Hmem; [|discriminate..].
  intros _. exact (built_index_agrees sample_file (proj1 sample_ok) sample_index_options sample_base [] sample_state
    sample_report sample_image _ sample_base [] sample_state sample_index_options sample_index_file 0 sample_index _
    sample_base [] sample_state sample_v2 1700000000000000000 (lit "alpha") IncludeCaseVariants r s5 r' s6
    sample_stable sample_modified_range (proj2 sample_ok) sample_builds sample_reader sample_index_file_ok
    (fun _ => eq_refl) (proj2 sample_ok) sample_index_opens Hindex (proj2 sample_ok) Hmem).
Defined.

Example stale_index_witness :
  exists e s', open_file sample_file sample_index_file
    {| source_bytes := zlen sample_v2; source_modified_unix_nanos := 0; key_count := 4 |}
    sample_index_options sample_state = (Err e, s').
Proof.
  destruct (stale_index_rejected sample_file (proj1 sample_ok) sample_base [] sample_state sample_index_file
    {| source_bytes := zlen sample_v2; source_modified_unix_nanos := 0; key_count := 4 |}
    sample_index_options sample_v2 1700000000000000000 (proj2 sample_ok) sample_index_file_ok sample_stable)
    as (e & s' & He & _); [intros [=]|]. by exists e, s'.
Defined.

Definition sort_record (key : string) (ordinal : Z) : RunRecord :=
  {| rr_normalized := lit key; rr_ordinal := ordinal |}.

(** Five runs, two of which a merge with 600 bytes of memory takes at once. *)
Definition sample_runs : list (list RunRecord) :=
  [[sort_record "a" 3; sort_record "c" 0]; [sort_record "b" 1; sort_record "b" 2]; [];
   [sort_record "a" 5; sort_record "d" 4]; [sort_record "" 6]].

Definition sort_options : KeyIndexOptions := {|
  max_index_bytes := 4096; max_metadata_bytes := 1024; build_memory_bytes := 600; chunk_bytes := 64;
  ki_checksum_policy := Verify |}.

Lemma sample_runs_ok : Forall run_ok sample_runs.
Proof.
  repeat (constructor; [constructor; [repeat constructor; by vm_compute|repeat constructor; by vm_compute
    |by vm_compute|by vm_compute]|]). constructor.
Qed.

Lemma sample_budget_ok : budget_ok (get_budget sample_state).
Proof. pose proof (proj2 sample_ok) as Hok. unfold state_ok, core_ok in Hok. exact (proj1 Hok). Qed.

Example merge_runs_witness :
  wpM (merge_runs sort_options (encode_runs sample_runs) 5 7 45) sample_state
    (fun section s' => exists sorted, sorted ≡ₚ concat sample_runs /\ StronglySorted rec_le sorted)
    (fun _ s' => accounts sample_state s' 0) /\
  match fst (merge_runs sort_options (encode_runs sample_runs) 5 7 45 sample_state) with
  | Ok section => sf_file section = words_of 4 [6; 3; 5; 1; 2; 0; 4]
  | _ => False
  end.
Proof.
  split; [|vm_compute; reflexivity].
  eapply wpM_mono; [apply (merge_runs_correct sort_options sample_runs 7 45 sample_state)| |done].
  - vm_compute. split; [reflexivity|discriminate].
  - exact sample_runs_ok.
  - lia.
  - exact sample_budget_ok.
  - intros section s' (_ & sorted & Hp & Hs & _). by exists sorted.
Defined.

Example write_built_index_witness :
  wpM (write_built_index sample_built {| sk_content := [1; 2; 3]; sk_position := 2 |} 7) sample_state
    (fun sink s' => sk_content sink = index_image sample_built) (fun _ s' => accounts sample_state s' 0) /\
  match fst (write_built_index sample_built {| sk_content := [1; 2; 3]; sk_position := 2 |} 7 sample_state) with
  | Ok sink => sk_content sink = sample_image
  | _ => False
  end.
Proof.
  split; [|vm_compute; reflexivity].
  eapply wpM_mono; [apply (write_built_index_correct sample_built {| sk_content := [1; 2; 3]; sk_position := 2 |} 7
    sample_state)| |done].
  - lia.
  - vm_compute. repeat constructor; discriminate.
  - exact sample_budget_ok.
  - intros sink s' (_ & Hc & _). exact Hc.
Defined.

Example section_writer_witness :
  let pieces := [lit "al"; lit "phabetaal"; []; lit "phagamma"] in
  let write : M CoreState SectionFile :=
    let! writer := lift (section_writer_new [] 3 8 Verify) in
    let! writer := write_pieces writer pieces in
    into_section writer SecText in
  wpM write sample_state (fun section s' => sf_file section = lit "alphabetaalphagamma")
    (fun _ s' => accounts sample_state s' 0) /\
  match fst (write sample_state) with
  | Ok section => sf_checksums section = map adler32 [lit "alphabet"; lit "aalphaga"; lit "mma"]
  | _ => False
  end.
Proof.
  split; [|vm_compute; reflexivity].
  eapply wpM_mono; [apply (section_writer_correct [lit "al"; lit "phabetaal"; []; lit "phagamma"] SecText 3 8 Verify
    sample_state)| |done].
  - lia.
  - unfold u64_max. lia.
  - apply bytes_ok_check. by vm_compute.
  - exact sample_budget_ok.
  - intros section s' (_ & _ & Hf & _). exact Hf.
Defined.
