(* ===== verification/Slices.v ===== *)
(** In-place writes to byte buffers: what [copy_from_slice], [fill] and an
    indexed [^=] do to a [Vec<u8>] or an array, with the panics of ranges that
    do not fit. *)

From S2P Require Import Prelude Errors.

(** [buffer[start..start + source.len()].copy_from_slice(source)] *)
Definition copy_into (buffer : bytes) (start : Z) (source : bytes) : Result bytes :=
  let? _ := or_panic (slice buffer start (start + zlen source)) "range end index out of range" in
  Ok (take (Z.to_nat start) buffer ++ source ++ drop (Z.to_nat (start + zlen source)) buffer).

(** [buffer[start..end].fill(0)] *)
Definition fill_zero (buffer : bytes) (start end_ : Z) : Result bytes :=
  let? _ := or_panic (slice buffer start end_) "slice index starts after its end" in
  copy_into buffer start (replicate (Z.to_nat (end_ - start)) 0).

(** [buffer[index] = value] *)
Definition store_at (buffer : bytes) (index value : Z) : Result bytes :=
  let? _ := or_panic (get_at buffer index) "index out of bounds" in
  Ok (<[Z.to_nat index := value]> buffer).

(** [buffer[index] ^= value] *)
Definition xor_at (buffer : bytes) (index value : Z) : Result bytes :=
  let? byte := or_panic (get_at buffer index) "index out of bounds" in
  store_at buffer index (Z.lxor byte value).

(** * Lemmas *)

Lemma copy_into_correct buffer start source :
  0 <= start -> start + zlen source <= zlen buffer ->
  exists out, copy_into buffer start source = Ok out /\ zlen out = zlen buffer /\
    take (Z.to_nat (start + zlen source)) out = take (Z.to_nat start) buffer ++ source /\
    drop (Z.to_nat (start + zlen source)) out = drop (Z.to_nat (start + zlen source)) buffer.
Proof.
  intros Hs Hl. unfold copy_into.
  destruct (slice_is_Some buffer start (start + zlen source)) as [x ->]; [lia|done|]. cbn [or_panic rbind].
  eexists. split; [done|].
  assert (length (take (Z.to_nat start) buffer ++ source) = Z.to_nat (start + zlen source)) as Hlen
    by (rewrite length_app, length_take; lia).
  rewrite app_assoc, take_app_length', drop_app_length' by done. split; [|done].
  rewrite length_app, length_drop, Hlen. lia.
Qed.

Lemma fill_zero_correct buffer start end_ :
  0 <= start <= end_ -> end_ <= zlen buffer ->
  exists out, fill_zero buffer start end_ = Ok out /\ zlen out = zlen buffer /\
    take (Z.to_nat end_) out = take (Z.to_nat start) buffer ++ replicate (Z.to_nat (end_ - start)) 0 /\
    drop (Z.to_nat end_) out = drop (Z.to_nat end_) buffer.
Proof.
  intros Hs Hl. unfold fill_zero.
  destruct (slice_is_Some buffer start end_) as [x ->]; [lia|done|]. cbn [or_panic rbind].
  assert (start + zlen (replicate (Z.to_nat (end_ - start)) (0 : Z)) = end_) as E
    by (rewrite length_replicate; lia).
  destruct (copy_into_correct buffer start (replicate (Z.to_nat (end_ - start)) 0)) as (out & Ho & Hlen & Ht & Hd);
    [lia|lia|]. rewrite E in *. by exists out.
Qed.

(** Writes keep bytes bytes and leave everything outside the range alone. *)
Lemma copy_into_ok buffer start source out :
  copy_into buffer start source = Ok out -> bytes_ok buffer -> bytes_ok source ->
  bytes_ok out /\ zlen out = zlen buffer.
Proof.
  unfold copy_into. intros Ho Hb Hs. destruct (slice _ _ _) as [x|] eqn:E; [|done]. injection Ho as <-.
  apply slice_Some in E as [? _]. split.
  - apply bytes_ok_app. split; [by apply Forall_take|]. apply bytes_ok_app. split; [done|by apply Forall_drop].
  - rewrite !length_app, length_take, length_drop. lia.
Qed.

Lemma store_at_ok buffer index value :
  0 <= index < zlen buffer -> bytes_ok buffer -> is_byte value ->
  exists out, store_at buffer index value = Ok out /\ zlen out = zlen buffer /\ bytes_ok out /\
    forall i, i <> index -> get_at out i = get_at buffer i.
Proof.
  intros Hi Hb Hv. unfold store_at. destruct (get_at_is_Some buffer index Hi) as [x ->]. cbn [or_panic rbind].
  eexists. split; [done|]. split; [by rewrite length_insert|]. split; [by apply Forall_insert|].
  intros i Hne. unfold get_at. destruct (Z.leb_spec 0 i); [|done]. apply list_lookup_insert_ne. lia.
Qed.

Lemma xor_at_ok buffer index value :
  0 <= index < zlen buffer -> bytes_ok buffer -> is_byte value ->
  exists out, xor_at buffer index value = Ok out /\ zlen out = zlen buffer /\ bytes_ok out /\
    forall i, i <> index -> get_at out i = get_at buffer i.
Proof.
  intros Hi Hb Hv. unfold xor_at. destruct (get_at_is_Some buffer index Hi) as [x Hx]. rewrite Hx.
  cbn [or_panic rbind]. apply store_at_ok; [done|done|]. apply lxor_byte; [|done].
  eapply Forall_forall; [exact Hb|]. by eapply get_at_elem_of.
Qed.
