(* ===== verification/Sha256.v ===== *)
(** SHA-256 as the audit tools compute it: [examples/support/sha256.rs].  The
    digest is fed in pieces of any size through a 64-byte buffer; the theorem
    says that the pieces do not matter and that the result is the function of
    FIPS 180-4, which the module [Fips] writes down on its own. *)

From S2P Require Import Prelude Errors Slices Checksum Crypto.

(** * The code *)

(** A 32-bit literal as the table writes it, in two halves: [0x428a_2f98]. *)
Definition halves (high low : Z) : Z := high * 65536 + low.

Definition SHA256_K : list Z := Eval cbv in
  [halves 0x428a 0x2f98; halves 0x7137 0x4491; halves 0xb5c0 0xfbcf; halves 0xe9b5 0xdba5; halves 0x3956 0xc25b;
   halves 0x59f1 0x11f1; halves 0x923f 0x82a4; halves 0xab1c 0x5ed5; halves 0xd807 0xaa98; halves 0x1283 0x5b01;
   halves 0x2431 0x85be; halves 0x550c 0x7dc3; halves 0x72be 0x5d74; halves 0x80de 0xb1fe; halves 0x9bdc 0x06a7;
   halves 0xc19b 0xf174; halves 0xe49b 0x69c1; halves 0xefbe 0x4786; halves 0x0fc1 0x9dc6; halves 0x240c 0xa1cc;
   halves 0x2de9 0x2c6f; halves 0x4a74 0x84aa; halves 0x5cb0 0xa9dc; halves 0x76f9 0x88da; halves 0x983e 0x5152;
   halves 0xa831 0xc66d; halves 0xb003 0x27c8; halves 0xbf59 0x7fc7; halves 0xc6e0 0x0bf3; halves 0xd5a7 0x9147;
   halves 0x06ca 0x6351; halves 0x1429 0x2967; halves 0x27b7 0x0a85; halves 0x2e1b 0x2138; halves 0x4d2c 0x6dfc;
   halves 0x5338 0x0d13; halves 0x650a 0x7354; halves 0x766a 0x0abb; halves 0x81c2 0xc92e; halves 0x9272 0x2c85;
   halves 0xa2bf 0xe8a1; halves 0xa81a 0x664b; halves 0xc24b 0x8b70; halves 0xc76c 0x51a3; halves 0xd192 0xe819;
   halves 0xd699 0x0624; halves 0xf40e 0x3585; halves 0x106a 0xa070; halves 0x19a4 0xc116; halves 0x1e37 0x6c08;
   halves 0x2748 0x774c; halves 0x34b0 0xbcb5; halves 0x391c 0x0cb3; halves 0x4ed8 0xaa4a; halves 0x5b9c 0xca4f;
   halves 0x682e 0x6ff3; halves 0x748f 0x82ee; halves 0x78a5 0x636f; halves 0x84c8 0x7814; halves 0x8cc7 0x0208;
   halves 0x90be 0xfffa; halves 0xa450 0x6ceb; halves 0xbef9 0xa3f7; halves 0xc671 0x78f2].

(** [u32::rotate_right] *)
Definition rotate_right32 (x n : Z) : Z :=
  Z.lor (Z.shiftr x n) (wrap32 (Z.shiftl x (32 - n))).

(** The eight working variables and the state. *)
Record Words8 := { wa : Z; wb : Z; wc : Z; wd : Z; we : Z; wf : Z; wg : Z; wh : Z }.

(** The first sixteen words of the schedule. *)
Definition block_words (block : bytes) : list Z :=
  map (fun index => be_combine (take 4 (drop (index * 4) block))) (seq 0 16).

(** One round of the schedule loop: [words[index]] is written. *)
Definition schedule_word (words : list Z) (index : nat) : list Z :=
  let word k := nth (index - k) words 0 in
  let s0 := Z.lxor (Z.lxor (rotate_right32 (word 15%nat) 7) (rotate_right32 (word 15%nat) 18))
              (Z.shiftr (word 15%nat) 3) in
  let s1 := Z.lxor (Z.lxor (rotate_right32 (word 2%nat) 17) (rotate_right32 (word 2%nat) 19))
              (Z.shiftr (word 2%nat) 10) in
  <[index := wrapping_add32 (wrapping_add32 (wrapping_add32 (word 16%nat) s0) (word 7%nat)) s1]> words.

Definition schedule (block : bytes) : list Z :=
  fold_left schedule_word (seq 16 48) (block_words block ++ replicate 48 0).

(** One round of the main loop. *)
Definition sha_round (words : list Z) (v : Words8) (index : nat) : Words8 :=
  let sum1 := Z.lxor (Z.lxor (rotate_right32 (we v) 6) (rotate_right32 (we v) 11))
                (rotate_right32 (we v) 25) in
  let choice := Z.lxor (Z.land (we v) (wf v)) (Z.land (not32 (we v)) (wg v)) in
  let temporary1 :=
    wrapping_add32 (wrapping_add32 (wrapping_add32 (wrapping_add32 (wh v) sum1) choice)
      (nth index SHA256_K 0)) (nth index words 0) in
  let sum0 := Z.lxor (Z.lxor (rotate_right32 (wa v) 2) (rotate_right32 (wa v) 13))
                (rotate_right32 (wa v) 22) in
  let majority := Z.lxor (Z.lxor (Z.land (wa v) (wb v)) (Z.land (wa v) (wc v)))
                    (Z.land (wb v) (wc v)) in
  let temporary2 := wrapping_add32 sum0 majority in
  {| wa := wrapping_add32 temporary1 temporary2; wb := wa v; wc := wb v; wd := wc v;
     we := wrapping_add32 (wd v) temporary1; wf := we v; wg := wf v; wh := wg v |}.

(** [compress] *)
Definition sha_compress (state : Words8) (block : bytes) : Words8 :=
  let v := fold_left (sha_round (schedule block)) (seq 0 64) state in
  {| wa := wrapping_add32 (wa state) (wa v); wb := wrapping_add32 (wb state) (wb v);
     wc := wrapping_add32 (wc state) (wc v); wd := wrapping_add32 (wd state) (wd v);
     we := wrapping_add32 (we state) (we v); wf := wrapping_add32 (wf state) (wf v);
     wg := wrapping_add32 (wg state) (wg v); wh := wrapping_add32 (wh state) (wh v) |}.

Definition state_words (v : Words8) : list Z :=
  [wa v; wb v; wc v; wd v; we v; wf v; wg v; wh v].

(** [Sha256] *)
Record Sha256 := {
  sha_state : Words8;
  sha_buffer : bytes;
  sha_buffer_len : Z;
  sha_bit_len : Z;
}.

Definition sha_initial : Words8 :=
  {| wa := 0x6a09e667; wb := 0xbb67ae85; wc := 0x3c6ef372; wd := 0xa54ff53a;
     we := 0x510e527f; wf := 0x9b05688c; wg := 0x1f83d9ab; wh := 0x5be0cd19 |}.

(** [Sha256::new] *)
Definition sha_new : Sha256 :=
  {| sha_state := sha_initial; sha_buffer := replicate 64 0; sha_buffer_len := 0; sha_bit_len := 0 |}.

(** [while bytes.len() >= 64]: the state and the bytes left. *)
Fixpoint sha_blocks (fuel : nat) (state : Words8) (bytes : bytes) : Result (Words8 * list Z) :=
  if zlen bytes <? 64 then Ok (state, bytes)
  else match fuel with
       | O => OutOfFuel
       | S fuel => sha_blocks fuel (sha_compress state (take 64 bytes)) (drop 64 bytes)
       end.

(** The tail of [update]: whole blocks, then the rest into the buffer. *)
Definition sha_absorb (state : Words8) (buffer bytes : bytes) (bit_len : Z) : Result Sha256 :=
  let? '(state, rest) := sha_blocks (length bytes) state bytes in
  let? buffer := copy_into buffer 0 rest in
  Ok {| sha_state := state; sha_buffer := buffer; sha_buffer_len := zlen rest; sha_bit_len := bit_len |}.

(** [Sha256::update] *)
Definition sha_update (s : Sha256) (bytes : bytes) : Result Sha256 :=
  let bit_len := (sha_bit_len s + zlen bytes * 8 mod 2 ^ 64) mod 2 ^ 64 in
  if sha_buffer_len s =? 0 then sha_absorb (sha_state s) (sha_buffer s) bytes bit_len
  else
    let? needed := or_panic (checked_sub 64 (sha_buffer_len s)) "attempt to subtract with overflow" in
    let copied := Z.min needed (zlen bytes) in
    let? buffer := copy_into (sha_buffer s) (sha_buffer_len s) (take (Z.to_nat copied) bytes) in
    let buffer_len := sha_buffer_len s + copied in
    let bytes := drop (Z.to_nat copied) bytes in
    if buffer_len =? 64 then sha_absorb (sha_compress (sha_state s) buffer) buffer bytes bit_len
    else Ok {| sha_state := sha_state s; sha_buffer := buffer; sha_buffer_len := buffer_len;
               sha_bit_len := bit_len |}.

(** [Sha256::finish] *)
Definition sha_finish (s : Sha256) : Result bytes :=
  let? buffer := copy_into (sha_buffer s) (sha_buffer_len s) [0x80] in
  let buffer_len := sha_buffer_len s + 1 in
  let? '(state, buffer, buffer_len) :=
    if 56 <? buffer_len then
      let? buffer := fill_zero buffer buffer_len 64 in
      Ok (sha_compress (sha_state s) buffer, buffer, 0)
    else Ok (sha_state s, buffer, buffer_len) in
  let? buffer := fill_zero buffer buffer_len 56 in
  let? buffer := copy_into buffer 56 (be_split 8 (sha_bit_len s)) in
  Ok (concat (map (be_split 4) (state_words (sha_compress state buffer)))).

(** [hex] *)
Definition HEX_DIGITS : bytes := lit "0123456789abcdef".

Definition hex (bytes : bytes) : text :=
  concat (map (fun byte => [at_ HEX_DIGITS (byte / 16); at_ HEX_DIGITS (byte mod 16)]) bytes).

(** Several updates in a row. *)
Fixpoint sha_updates (s : Sha256) (pieces : list bytes) : Result Sha256 :=
  match pieces with
  | [] => Ok s
  | piece :: pieces => let? s := sha_update s piece in sha_updates s pieces
  end.

(** * Specification: FIPS 180-4 *)

(** The padded message: one bit, zeros up to a multiple of 64 bytes less
    eight, and the length in bits. *)
Definition sha_pad (message : bytes) : bytes :=
  message ++ [0x80] ++ replicate (Z.to_nat ((55 - zlen message) mod 64)) 0
    ++ be_split 8 (zlen message * 8 mod 2 ^ 64).

Definition sha_digest (state : Words8) : bytes := concat (map (be_split 4) (state_words state)).

(** The hash of a message, folding [sha_compress] over the padded blocks; it is
    the function of the standard, [Fips.hash], on every message of bytes
    ([sha256_fips]). *)
Definition sha256 (message : bytes) : bytes :=
  sha_digest (fold_left sha_compress (chunks 64 (sha_pad message)) sha_initial).

(** The standard itself, from its text: the constants are computed from the
    primes, the functions are arithmetic on numbers below [2 ^ 32], and the
    schedule is the recurrence for [W_t]. *)
Module Fips.

Definition is_prime (p : Z) : bool := forallb (fun d => negb (p mod d =? 0)) (seqZ 2 (p - 2)).

(** The first 64 primes end at 311. *)
Definition primes : list Z := filter is_prime (seqZ 2 310).

(** The integer part of the cube root of [n < (r + 2 ^ k) ^ 3], bit by bit. *)
Fixpoint cube_root (k : nat) (r n : Z) : Z :=
  match k with
  | O => r
  | S k => cube_root k (if (r + 2 ^ Z.of_nat k) ^ 3 <=? n then r + 2 ^ Z.of_nat k else r) n
  end.

(** 4.2.2: the first 32 bits of the fractional parts of the cube roots of the
    first 64 primes. *)
Definition K : list Z := map (fun p => cube_root 36 0 (p * 2 ^ 96) mod 2 ^ 32) primes.

(** 5.3.3: the first 32 bits of the fractional parts of the square roots of the
    first eight primes. *)
Definition H0 : list Z := map (fun p => Z.sqrt (p * 2 ^ 64) mod 2 ^ 32) (take 8 primes).

(** 3.2 and 4.1.2: the functions on words. *)
Definition ROTR (n x : Z) : Z := x / 2 ^ n + (x mod 2 ^ n) * 2 ^ (32 - n).

Definition SHR (n x : Z) : Z := x / 2 ^ n.

Definition complement (x : Z) : Z := 2 ^ 32 - 1 - x.

Definition xor3 (x y z : Z) : Z := Z.lxor (Z.lxor x y) z.

Definition Ch (x y z : Z) : Z := Z.lxor (Z.land x y) (Z.land (complement x) z).

Definition Maj (x y z : Z) : Z := xor3 (Z.land x y) (Z.land x z) (Z.land y z).

Definition Sigma0 (x : Z) : Z := xor3 (ROTR 2 x) (ROTR 13 x) (ROTR 22 x).

Definition Sigma1 (x : Z) : Z := xor3 (ROTR 6 x) (ROTR 11 x) (ROTR 25 x).

Definition sigma0 (x : Z) : Z := xor3 (ROTR 7 x) (ROTR 18 x) (SHR 3 x).

Definition sigma1 (x : Z) : Z := xor3 (ROTR 17 x) (ROTR 19 x) (SHR 10 x).

(** 6.2.2, step 1: [W_t] for [t < 16 + n]. *)
Definition M (block : bytes) (t : nat) : Z :=
  let byte k := nth (4 * t + k) block 0 in
  byte 0%nat * 2 ^ 24 + byte 1%nat * 2 ^ 16 + byte 2%nat * 2 ^ 8 + byte 3%nat.

Fixpoint W (block : bytes) (n : nat) : list Z :=
  match n with
  | O => map (M block) (seq 0 16)
  | S n =>
      let before := W block n in
      let w k := nth (16 + n - k) before 0 in
      before ++ [(sigma1 (w 2%nat) + w 7%nat + sigma0 (w 15%nat) + w 16%nat) mod 2 ^ 32]
  end.

(** Steps 2 to 4. *)
Definition round (w : list Z) (v : Words8) (t : nat) : Words8 :=
  let T1 := (wh v + Sigma1 (we v) + Ch (we v) (wf v) (wg v) + nth t K 0 + nth t w 0) mod 2 ^ 32 in
  let T2 := (Sigma0 (wa v) + Maj (wa v) (wb v) (wc v)) mod 2 ^ 32 in
  {| wa := (T1 + T2) mod 2 ^ 32; wb := wa v; wc := wb v; wd := wc v;
     we := (wd v + T1) mod 2 ^ 32; wf := we v; wg := wf v; wh := wg v |}.

Definition add (u v : Words8) : Words8 :=
  {| wa := (wa u + wa v) mod 2 ^ 32; wb := (wb u + wb v) mod 2 ^ 32; wc := (wc u + wc v) mod 2 ^ 32;
     wd := (wd u + wd v) mod 2 ^ 32; we := (we u + we v) mod 2 ^ 32; wf := (wf u + wf v) mod 2 ^ 32;
     wg := (wg u + wg v) mod 2 ^ 32; wh := (wh u + wh v) mod 2 ^ 32 |}.

Definition compress (state : Words8) (block : bytes) : Words8 :=
  add state (fold_left (round (W block 48)) (seq 0 64) state).

Definition initial : Words8 :=
  let h i := nth i H0 0 in
  {| wa := h 0%nat; wb := h 1%nat; wc := h 2%nat; wd := h 3%nat;
     we := h 4%nat; wf := h 5%nat; wg := h 6%nat; wh := h 7%nat |}.

(** The hash of a message. *)
Definition hash (message : bytes) : bytes :=
  sha_digest (fold_left compress (chunks 64 (sha_pad message)) initial).

End Fips.

(** * Lemmas *)

(** ** Words and blocks *)

Lemma chunks_fuel_enough {A} n fuel fuel' (l : list A) :
  (0 < n)%nat -> (length l <= fuel)%nat -> (length l <= fuel')%nat ->
  chunks_fuel fuel n l = chunks_fuel fuel' n l.
Proof.
  intros Hn. revert fuel' l.
  induction fuel as [|fuel IH]; intros [|fuel'] [|x l] Hl Hl'; simpl in *; try done; try lia.
  f_equal. apply IH; rewrite length_drop; simpl; lia.
Qed.

Lemma chunks_cons n (l : bytes) :
  0 < n -> l <> [] -> chunks n l = take (Z.to_nat n) l :: chunks n (drop (Z.to_nat n) l).
Proof.
  intros Hn Hl. destruct l as [|x l]; [done|]. unfold chunks at 1. cbn [length chunks_fuel]. f_equal.
  apply chunks_fuel_enough; rewrite ?length_drop; simpl; lia.
Qed.

(** Compressing the blocks of a message. *)
Definition absorb (state : Words8) (message : bytes) : Words8 :=
  fold_left sha_compress (chunks 64 message) state.

Lemma absorb_cons state block message :
  zlen block = 64 -> absorb state (block ++ message) = absorb (sha_compress state block) message.
Proof.
  intros Hb. unfold absorb. rewrite chunks_cons; [|done|by destruct block]. cbn [fold_left].
  by rewrite take_app_length', drop_app_length' by lia.
Qed.

Lemma absorb_app state full message :
  (64 | zlen full) -> absorb state (full ++ message) = absorb (absorb state full) message.
Proof.
  intros [k Hk]. assert (0 <= k) by lia. revert full state Hk. pattern k.
  apply natlike_ind; [| |done]; clear k H.
  - intros full state Hk. by destruct full.
  - intros k Hk IH full state Hf.
    rewrite <- (take_drop 64 full), <- app_assoc. set (rest := drop 64 full).
    assert (zlen rest = k * 64) by (unfold rest; rewrite length_drop; lia).
    assert (zlen (take 64 full) = 64) by (rewrite length_take; lia).
    rewrite (absorb_cons state _ (rest ++ message)), (absorb_cons state _ rest) by done. by apply IH.
Qed.

Lemma sha_blocks_correct fuel state bytes :
  (length bytes <= fuel)%nat ->
  exists full tail, bytes = full ++ tail /\ (64 | zlen full) /\ zlen tail < 64 /\
    sha_blocks fuel state bytes = Ok (absorb state full, tail).
Proof.
  revert state bytes; induction fuel as [|fuel IH]; intros state bytes Hl; cbn [sha_blocks].
  - assert (bytes = []) as -> by (destruct bytes; simpl in *; [done|lia]).
    exists [], []. split_and!; [done|apply Z.divide_0_r|done|done].
  - destruct (Z.ltb_spec (zlen bytes) 64).
    { exists [], bytes. split_and!; [done|apply Z.divide_0_r|lia|done]. }
    destruct (IH (sha_compress state (take 64 bytes)) (drop 64 bytes)) as (full & tail & E & Hd & Ht & ->).
    { rewrite length_drop. lia. }
    assert (zlen (take 64 bytes) = 64) as Hb by (rewrite length_take; lia).
    exists (take 64 bytes ++ full), tail. split; [by rewrite <- app_assoc, <- E, take_drop|].
    split; [rewrite length_app, Nat2Z.inj_add, Hb; by apply Z.divide_add_r|]. split; [done|].
    by rewrite absorb_cons.
Qed.

(** ** The buffer *)

(** The state after [message]: its whole blocks are compressed, the rest is in
    the buffer. *)
Definition hashes (message : bytes) (s : Sha256) : Prop :=
  exists full tail, message = full ++ tail /\ (64 | zlen full) /\ zlen tail < 64 /\
    sha_state s = absorb sha_initial full /\
    zlen (sha_buffer s) = 64 /\ take (length tail) (sha_buffer s) = tail /\
    sha_buffer_len s = zlen tail /\ sha_bit_len s = zlen message * 8 mod 2 ^ 64.

Lemma hashes_new : hashes [] sha_new.
Proof. exists [], []. split_and!; try done. apply Z.divide_0_r. Qed.

Lemma bit_len_add a b : (a * 8 mod 2 ^ 64 + b * 8 mod 2 ^ 64) mod 2 ^ 64 = (a + b) * 8 mod 2 ^ 64.
Proof. rewrite <- Z.add_mod by lia. f_equal. lia. Qed.

(** The tail of [update], when the buffer is empty. *)
Lemma sha_absorb_correct full more buffer bit_len :
  (64 | zlen full) -> zlen buffer = 64 -> bit_len = zlen (full ++ more) * 8 mod 2 ^ 64 ->
  exists s, sha_absorb (absorb sha_initial full) buffer more bit_len = Ok s /\ hashes (full ++ more) s.
Proof.
  intros Hd Hb ->. unfold sha_absorb.
  destruct (sha_blocks_correct (length more) (absorb sha_initial full) more) as (f2 & tail & -> & Hd2 & Ht & ->);
    [done|]. cbn [rbind].
  destruct (copy_into_correct buffer 0 tail) as (out & -> & Hlen & Htake & _); [done|lia|].
  cbn [rbind]. eexists. split; [done|]. exists (full ++ f2), tail. rewrite app_assoc.
  rewrite Z.add_0_l, Nat2Z.id in Htake.
  split; [done|]. split; [rewrite length_app, Nat2Z.inj_add; by apply Z.divide_add_r|].
  split; [done|]. cbn [sha_state sha_buffer sha_buffer_len sha_bit_len].
  split; [by rewrite absorb_app|]. split; [lia|]. by split.
Qed.

Lemma sha_update_correct message s more :
  hashes message s -> exists s', sha_update s more = Ok s' /\ hashes (message ++ more) s'.
Proof.
  intros (full & tail & -> & Hd & Ht & Hst & Hb & Hbuf & Hbl & Hbits). unfold sha_update.
  rewrite Hbl, Hbits, Hst, bit_len_add.
  assert (zlen (full ++ tail) + zlen more = zlen ((full ++ tail) ++ more)) as ->
    by (rewrite (length_app _ more); lia).
  destruct (Z.eqb_spec (zlen tail) 0) as [E|E].
  { assert (tail = []) as -> by (by destruct tail). rewrite app_nil_r.
    by apply sha_absorb_correct. }
  unfold checked_sub. rewrite (proj2 (Z.leb_le _ _)) by lia. cbn [or_panic rbind].
  set (copied := Z.min (64 - zlen tail) (zlen more)).
  assert (zlen (take (Z.to_nat copied) more) = copied) as Hc by (rewrite length_take; lia).
  destruct (copy_into_correct (sha_buffer s) (zlen tail) (take (Z.to_nat copied) more))
    as (out & -> & Hlen & Htake & _); [lia|lia|]. cbn [rbind].
  rewrite Hc in Htake. rewrite Nat2Z.id, Hbuf in Htake.
  destruct (Z.eqb_spec (zlen tail + copied) 64) as [E64|E64].
  - rewrite E64, (take_ge out) in Htake by lia. change (sha_compress (absorb sha_initial full) out) with (absorb (sha_compress (absorb sha_initial full) out) []). rewrite <- absorb_cons, app_nil_r by lia.
    rewrite <- absorb_app by done.
    assert ((full ++ tail) ++ more = (full ++ out) ++ drop (Z.to_nat copied) more) as ->.
    { rewrite Htake, <- !app_assoc. by rewrite take_drop. }
    apply sha_absorb_correct; [|lia|done]. rewrite length_app, Nat2Z.inj_add.
    apply Z.divide_add_r; [done|]. exists 1. lia.
  - assert (copied = zlen more) as Em by lia. rewrite (take_ge more) in Htake by lia.
    eexists. split; [done|]. exists full, (tail ++ more). rewrite <- app_assoc. split; [done|]. split; [done|].
    cbn [sha_state sha_buffer sha_buffer_len sha_bit_len]. rewrite length_app.
    split_and!; try lia; try done. rewrite <- Htake. f_equal. lia.
Qed.

Lemma sha_updates_correct message s pieces :
  hashes message s -> exists s', sha_updates s pieces = Ok s' /\ hashes (message ++ concat pieces) s'.
Proof.
  revert message s; induction pieces as [|piece pieces IH]; intros message s Hs; cbn [sha_updates concat].
  - exists s. by rewrite app_nil_r.
  - destruct (sha_update_correct message s piece Hs) as (s1 & -> & Hs1). cbn [rbind]. rewrite app_assoc.
    by apply IH.
Qed.

(** ** The padding *)

(** [finish] compresses the padded tail: one block, or two when the length
    does not fit behind it. *)
Lemma sha_finish_correct message s : hashes message s -> sha_finish s = Ok (sha256 message).
Proof.
  intros (full & tail & -> & [q Hq] & Ht & Hst & Hb & Hbuf & Hbl & Hbits). unfold sha_finish.
  rewrite Hbl, Hst, Hbits.
  set (bits := be_split 8 (zlen (full ++ tail) * 8 mod 2 ^ 64)).
  assert (zlen bits = 8) as Hbz by (unfold bits; rewrite length_be_split; done).
  assert (sha256 (full ++ tail) = sha_digest (absorb (absorb sha_initial full)
            (tail ++ [0x80] ++ replicate (Z.to_nat ((55 - zlen tail) mod 64)) 0 ++ bits))) as ->.
  { unfold sha256, sha_pad. fold (absorb sha_initial). fold bits. rewrite <- app_assoc.
    rewrite <- absorb_app by (by exists q). unfold absorb. do 6 f_equal.
    rewrite length_app, Nat2Z.inj_add, Hq.
    replace (55 - (q * 64 + zlen tail)) with (55 - zlen tail + - q * 64) by lia.
    by rewrite Z_mod_plus_full. }
  set (state := absorb sha_initial full).
  destruct (copy_into_correct (sha_buffer s) (zlen tail) [0x80]) as (b1 & -> & Hl1 & Ht1 & _); [lia|simpl; lia|].
  cbn [rbind]. rewrite Nat2Z.id, Hbuf in Ht1. change (zlen [0x80]) with 1 in Ht1.
  assert (forall st buffer len, zlen buffer = 64 -> 0 <= len <= 56 ->
    exists out, (let? b := fill_zero buffer len 56 in copy_into b 56 bits) = Ok out /\
      out = take (Z.to_nat len) buffer ++ replicate (Z.to_nat (56 - len)) 0 ++ bits /\
      sha_compress st out = absorb st out) as Hlast.
  { intros st buffer len Hz Hlen. destruct (fill_zero_correct buffer len 56) as (b & -> & Hl & Hta & _); [lia|lia|].
    cbn [rbind]. destruct (copy_into_correct b 56 bits) as (out & -> & Hlo & Hto & _); [lia|lia|].
    exists out. split; [done|]. rewrite take_ge in Hto by lia. change (Z.to_nat 56) with 56%nat in *.
    rewrite Hta in Hto. split; [by rewrite Hto, <- app_assoc|].
    rewrite <- (app_nil_r out) at 2. by rewrite absorb_cons by lia. }
  destruct (Z.ltb_spec 56 (zlen tail + 1)) as [Hbig|Hsmall].
  - destruct (fill_zero_correct b1 (zlen tail + 1) 64) as (b2 & -> & Hl2 & Ht2 & _); [lia|lia|]. cbn [rbind].
    destruct (Hlast (sha_compress state b2) b2 0) as (out & Ho & Eo & Hco); [lia|lia|].
    destruct (fill_zero b2 0 56) as [b3| | |]; try discriminate. cbn [rbind] in *. rewrite Ho. cbn [rbind].
    unfold sha_digest. rewrite Hco. do 4 f_equal.
    rewrite take_ge in Ht2 by lia. rewrite <- (absorb_cons state b2 out) by lia. f_equal.
    rewrite Ht2, Eo, Ht1. change (take (Z.to_nat 0) b2) with (@nil Z). rewrite <- !app_assoc. do 2 f_equal.
    cbn [app]. rewrite app_assoc, <- replicate_add. do 2 f_equal.
    rewrite <- (Z.mod_unique (55 - zlen tail) 64 (-1) (119 - zlen tail)); lia.
  - destruct (Hlast state b1 (zlen tail + 1)) as (out & Ho & Eo & Hco); [lia|lia|]. cbn [rbind].
    destruct (fill_zero b1 (zlen tail + 1) 56) as [b3| | |]; try discriminate. cbn [rbind] in *. rewrite Ho.
    cbn [rbind]. unfold sha_digest. rewrite Hco. do 4 f_equal. rewrite Eo, Ht1, <- app_assoc. do 3 f_equal.
    rewrite Z.mod_small by lia. do 2 f_equal. lia.
Qed.

(** ** The standard *)

(** The bits of a cube root are right. *)
Lemma cube_root_spec k r n :
  0 <= r -> r ^ 3 <= n < (r + 2 ^ Z.of_nat k) ^ 3 ->
  let c := Fips.cube_root k r n in c ^ 3 <= n < (c + 1) ^ 3.
Proof.
  revert r; induction k as [|k IH]; intros r Hr Hn; cbn [Fips.cube_root]; [exact Hn|].
  rewrite Nat2Z.inj_succ, Z.pow_succ_r in Hn by lia. pose proof (Z.pow_pos_nonneg 2 (Z.of_nat k)).
  destruct (Z.leb_spec ((r + 2 ^ Z.of_nat k) ^ 3) n); apply IH; lia.
Qed.

(** So the round constants are integer parts of the cube roots of the primes,
    with 32 binary places. *)
Lemma cube_root_prime p :
  0 <= p <= 311 -> let c := Fips.cube_root 36 0 (p * 2 ^ 96) in c ^ 3 <= p * 2 ^ 96 < (c + 1) ^ 3.
Proof. intros Hp. apply cube_root_spec; lia. Qed.

(** The tables of the code are the numbers the standard derives. *)
Lemma fips_constants : Fips.K = SHA256_K /\ Fips.initial = sha_initial.
Proof. vm_compute. by split. Qed.

Definition is_word (x : Z) : Prop := 0 <= x < 2 ^ 32.

Lemma rotr_fips n x : 0 <= n <= 32 -> is_word x -> rotate_right32 x n = Fips.ROTR n x.
Proof.
  intros Hn Hx. unfold rotate_right32, Fips.ROTR, wrap32, is_word in *.
  rewrite Z.shiftr_div_pow2, Z.shiftl_mul_pow2 by lia.
  assert (2 ^ 32 = 2 ^ n * 2 ^ (32 - n)) as E by (rewrite <- Z.pow_add_r by lia; f_equal; lia).
  pose proof (Z.pow_pos_nonneg 2 n). pose proof (Z.pow_pos_nonneg 2 (32 - n)).
  replace ((x * 2 ^ (32 - n)) mod 2 ^ 32) with ((x mod 2 ^ n) * 2 ^ (32 - n))
    by (rewrite E; symmetry; apply Z.mul_mod_distr_r; lia).
  rewrite <- (Z.add_lor_land (x / 2 ^ n)).
  assert (Z.land (x / 2 ^ n) (x mod 2 ^ n * 2 ^ (32 - n)) = 0) as ->; [|lia].
  apply Z.bits_inj'. intros i Hi. rewrite Z.land_spec, Z.bits_0.
  destruct (Z.ltb_spec i (32 - n)).
  - rewrite Z.mul_pow2_bits_low by lia. by rewrite andb_false_r.
  - rewrite Z.div_pow2_bits by lia. apply andb_false_iff. left.
    destruct (Z.eq_dec x 0) as [->|]; [apply Z.bits_0|]. apply Z.bits_above_log2; [lia|].
    apply Z.log2_lt_pow2; [lia|]. eapply Z.lt_le_trans; [apply Hx|]. apply Z.pow_le_mono_r; lia.
Qed.

Lemma wrapping_add32_word a b : is_word (wrapping_add32 a b).
Proof. apply Z.mod_pos_bound. lia. Qed.

Lemma wrapping_add32_fips a b : wrapping_add32 a b = (a + b) mod 2 ^ 32.
Proof. done. Qed.

Lemma mod_add_l a b : (a mod 2 ^ 32 + b) mod 2 ^ 32 = (a + b) mod 2 ^ 32.
Proof. apply Z.add_mod_idemp_l. lia. Qed.

(** The sums of the code, which wrap after every addition. *)
Lemma wrapping_add32_mod a b : wrapping_add32 (a mod 2 ^ 32) b = (a + b) mod 2 ^ 32.
Proof. apply mod_add_l. Qed.

Ltac wrap_sums :=
  repeat first [rewrite wrapping_add32_mod
               |match goal with |- context [wrapping_add32 ?a ?b] =>
                  lazymatch a with context [wrapping_add32] => fail | _ => rewrite (wrapping_add32_fips a b) end end].

Definition words_ok (v : Words8) : Prop := Forall is_word (state_words v).

(** The schedule. *)
Lemma take_four k (l : list Z) :
  (k + 4 <= length l)%nat ->
  take 4 (drop k l) = [nth k l 0; nth (k + 1) l 0; nth (k + 2) l 0; nth (k + 3) l 0].
Proof.
  revert l; induction k as [|k IH]; intros l Hl.
  - destruct l as [|a [|b [|c [|d l]]]]; simpl in Hl; [lia..|done].
  - destruct l as [|a l]; simpl in Hl; [lia|]. apply IH. lia.
Qed.

Lemma be_combine_bound_four l : bytes_ok l -> length l = 4%nat -> is_word (be_combine l).
Proof. intros Hl E. pose proof (be_combine_bound l Hl) as Hb. rewrite E in Hb. exact Hb. Qed.

Lemma block_words_fips block : length block = 64%nat -> block_words block = Fips.W block 0.
Proof.
  intros Hb. cbn [Fips.W]. unfold block_words. apply map_ext_in. intros t Ht. apply in_seq in Ht.
  rewrite take_four by lia. unfold Fips.M, be_combine. cbn [rev app le_combine].
  rewrite (Nat.mul_comm t 4), Nat.add_0_r. lia.
Qed.

Lemma is_word_nth (l : list Z) k : Forall is_word l -> is_word (nth k l 0).
Proof.
  intros Hl. destruct (nth_in_or_default k l 0) as [Hin| ->]; [|unfold is_word; lia].
  rewrite List.Forall_forall in Hl. by apply Hl.
Qed.

Lemma is_word_mod x : is_word (x mod 2 ^ 32).
Proof. apply Z.mod_pos_bound. lia. Qed.

Lemma W_length block n : length (Fips.W block n) = (16 + n)%nat.
Proof. induction n as [|n IH]; cbn [Fips.W]; [done|]. rewrite length_app, IH. simpl. lia. Qed.

Lemma W_ok block n : bytes_ok block -> length block = 64%nat -> Forall is_word (Fips.W block n).
Proof.
  intros Hb Hl. induction n as [|n IH]; [|cbn [Fips.W]].
  - rewrite <- block_words_fips by done. unfold block_words. apply List.Forall_forall. intros w Hw.
    apply in_map_iff in Hw as (k & <- & Hk). apply in_seq in Hk.
    apply be_combine_bound_four; [by apply Forall_take, Forall_drop|]. rewrite length_take, length_drop. lia.
  - apply Forall_app. split; [done|]. constructor; [apply is_word_mod|constructor].
Qed.

(** The functions on words. *)
Lemma sigma0_fips x :
  is_word x ->
  Z.lxor (Z.lxor (rotate_right32 x 7) (rotate_right32 x 18)) (Z.shiftr x 3) = Fips.sigma0 x.
Proof. intros Hx. rewrite !rotr_fips by (done || lia). by rewrite Z.shiftr_div_pow2. Qed.

Lemma sigma1_fips x :
  is_word x ->
  Z.lxor (Z.lxor (rotate_right32 x 17) (rotate_right32 x 19)) (Z.shiftr x 10) = Fips.sigma1 x.
Proof. intros Hx. rewrite !rotr_fips by (done || lia). by rewrite Z.shiftr_div_pow2. Qed.

Lemma Sigma0_fips x :
  is_word x ->
  Z.lxor (Z.lxor (rotate_right32 x 2) (rotate_right32 x 13)) (rotate_right32 x 22) = Fips.Sigma0 x.
Proof. intros Hx. by rewrite !rotr_fips by (done || lia). Qed.

Lemma Sigma1_fips x :
  is_word x ->
  Z.lxor (Z.lxor (rotate_right32 x 6) (rotate_right32 x 11)) (rotate_right32 x 25) = Fips.Sigma1 x.
Proof. intros Hx. by rewrite !rotr_fips by (done || lia). Qed.

(** One round of the schedule appends the next word. *)
Lemma schedule_word_fips block n m :
  bytes_ok block -> length block = 64%nat ->
  schedule_word (Fips.W block n ++ replicate (S m) 0) (16 + n) = Fips.W block (S n) ++ replicate m 0.
Proof.
  intros Hb Hl. unfold schedule_word. pose proof (W_length block n) as Hlen.
  assert (forall k, (1 <= k)%nat ->
    nth (16 + n - k) (Fips.W block n ++ replicate (S m) 0) 0 = nth (16 + n - k) (Fips.W block n) 0) as Hnth
    by (intros k Hk; apply app_nth1; lia).
  rewrite !Hnth by lia. pose proof (fun k => is_word_nth _ k (W_ok block n Hb Hl)) as Hw.
  rewrite sigma0_fips, sigma1_fips by apply Hw.
  rewrite insert_app_r_alt by lia. rewrite Hlen, Nat.sub_diag. cbn [replicate]. cbn [Fips.W].
  rewrite <- app_assoc. cbn [app]. do 2 f_equal. wrap_sums. cbn [insert list_insert]. do 2 f_equal. lia.
Qed.

Lemma schedule_fips block : bytes_ok block -> length block = 64%nat -> schedule block = Fips.W block 48.
Proof.
  intros Hb Hl. unfold schedule. rewrite block_words_fips by done.
  assert (forall n, (n <= 48)%nat ->
    fold_left schedule_word (seq 16 n) (Fips.W block 0 ++ replicate 48 0) = Fips.W block n ++ replicate (48 - n) 0) as Hn.
  { induction n as [|n IH]; intros Hn; [done|]. rewrite seq_S, fold_left_app, IH by lia. cbn [fold_left].
    replace (48 - n)%nat with (S (48 - S n)) by lia. by apply schedule_word_fips. }
  rewrite Hn by lia. by rewrite app_nil_r.
Qed.

(** The rounds. *)
Lemma sha_round_fips w v t :
  words_ok v -> Forall is_word w -> sha_round w v t = Fips.round w v t /\ words_ok (sha_round w v t).
Proof.
  intros Hv Hw. destruct v as [a b c d e f g h]. unfold words_ok, state_words in *. cbn in Hv.
  rewrite !Forall_cons in Hv. destruct Hv as (? & ? & ? & ? & ? & ? & ? & ? & _).
  unfold sha_round, Fips.round. cbn [wa wb wc wd we wf wg wh]. rewrite Sigma0_fips, Sigma1_fips by done. split.
  - rewrite (proj1 fips_constants). wrap_sums. by rewrite !mod_add_l.
  - rewrite !Forall_cons. split_and!; try done; apply wrapping_add32_word.
Qed.

Lemma rounds_fips w ts v :
  words_ok v -> Forall is_word w ->
  fold_left (sha_round w) ts v = fold_left (Fips.round w) ts v /\ words_ok (fold_left (sha_round w) ts v).
Proof.
  intros Hv Hw. revert v Hv; induction ts as [|t ts IH]; intros v Hv; cbn [fold_left]; [done|].
  destruct (sha_round_fips w v t Hv Hw) as [<- ?]. by apply IH.
Qed.

Lemma sha_compress_fips state block :
  words_ok state -> bytes_ok block -> length block = 64%nat ->
  sha_compress state block = Fips.compress state block /\ words_ok (sha_compress state block).
Proof.
  intros Hs Hb Hl. unfold sha_compress, Fips.compress. rewrite schedule_fips by done.
  destruct (rounds_fips (Fips.W block 48) (seq 0 64) state Hs (W_ok block 48 Hb Hl)) as [-> _]. split; [done|].
  unfold words_ok, state_words. cbn [wa wb wc wd we wf wg wh].
  rewrite !Forall_cons. split_and!; try done; apply wrapping_add32_word.
Qed.

Lemma absorb_fips message state :
  bytes_ok message -> (64 | zlen message) -> words_ok state ->
  absorb state message = fold_left Fips.compress (chunks 64 message) state.
Proof.
  intros Hm [k Hk]. assert (0 <= k) as Hk0 by lia. revert message state Hm Hk. pattern k.
  apply natlike_ind; [| |done]; clear k Hk0.
  - intros message state _ Hk _. by destruct message.
  - intros k Hk IH message state Hm Hl Hs.
    assert (length (take 64 message) = 64%nat) as Hb by (rewrite length_take; lia).
    unfold absorb. rewrite chunks_cons; [|done|by intros ->; simpl in Hl; lia]. cbn [fold_left].
    change (Z.to_nat 64) with 64%nat.
    destruct (sha_compress_fips state (take 64 message)) as [<- Hs']; [done|by apply Forall_take|done|].
    apply IH; [by apply Forall_drop|rewrite length_drop; lia|done].
Qed.

Lemma sha_pad_ok message : bytes_ok message -> bytes_ok (sha_pad message) /\ (64 | zlen (sha_pad message)).
Proof.
  intros Hm. unfold sha_pad. split.
  - apply Forall_app. split; [done|]. constructor; [unfold is_byte; lia|]. apply Forall_app.
    split; [apply Forall_replicate; unfold is_byte; lia|apply be_split_ok].
  - rewrite !length_app, length_replicate, length_be_split. cbn [length].
    pose proof (Z.mod_pos_bound (55 - zlen message) 64). exists ((zlen message + (55 - zlen message) mod 64 + 9) / 64).
    assert ((zlen message + (55 - zlen message) mod 64 + 9) mod 64 = 0) as E.
    { replace (zlen message + (55 - zlen message) mod 64 + 9) with ((55 - zlen message) mod 64 + (zlen message + 9))
        by lia. rewrite Z.add_mod_idemp_l by lia. by replace (55 - zlen message + (zlen message + 9)) with 64 by lia. }
    pose proof (Z.div_mod (zlen message + (55 - zlen message) mod 64 + 9) 64). lia.
Qed.

(** The hash of the code's blocks is the hash of the standard. *)
Lemma sha256_fips message : bytes_ok message -> sha256 message = Fips.hash message.
Proof.
  intros Hm. destruct (sha_pad_ok message Hm) as [Hp Hd]. unfold sha256, Fips.hash.
  rewrite (proj2 fips_constants). f_equal. apply absorb_fips; [done|done|].
  unfold words_ok, state_words, sha_initial, is_word. cbn [wa wb wc wd we wf wg wh]. repeat constructor; lia.
Qed.

(** ** Digests *)

Lemma sha256_length message : zlen (sha256 message) = 32.
Proof. reflexivity. Qed.

Lemma sha256_ok message : bytes_ok (sha256 message).
Proof.
  unfold sha256, sha_digest. generalize (state_words (fold_left sha_compress (chunks 64 (sha_pad message)) sha_initial)).
  intros l. induction l as [|w l IH]; cbn [map concat]; [constructor|]. apply bytes_ok_app. split; [apply be_split_ok|done].
Qed.

Lemma hex_digits_inj a b :
  0 <= a < 16 -> 0 <= b < 16 -> at_ HEX_DIGITS a = at_ HEX_DIGITS b -> a = b.
Proof.
  intros Ha Hb.
  assert (forallb (fun a => forallb (fun b => negb (at_ HEX_DIGITS a =? at_ HEX_DIGITS b) || (a =? b))
            (map Z.of_nat (seq 0 16))) (map Z.of_nat (seq 0 16)) = true) as Hall by (vm_compute; reflexivity).
  rewrite forallb_forall in Hall.
  assert (forall x, 0 <= x < 16 -> In x (map Z.of_nat (seq 0 16))) as Hin.
  { intros x Hx. apply in_map_iff. exists (Z.to_nat x). split; [lia|]. apply in_seq. lia. }
  specialize (Hall a (Hin a Ha)). rewrite forallb_forall in Hall. specialize (Hall b (Hin b Hb)).
  intros E. rewrite E, Z.eqb_refl in Hall. by apply Z.eqb_eq in Hall.
Qed.

(** Digests are compared by their hexadecimal form. *)
Lemma hex_inj a b : bytes_ok a -> bytes_ok b -> hex a = hex b -> a = b.
Proof.
  intros Ha. revert b. induction Ha as [|x a Hx _ IH]; intros b Hb; destruct Hb as [|y b Hy Hb]; try done.
  unfold hex. cbn [map concat app]. intros [= E1 E2 E3]. fold (hex a) in E3. fold (hex b) in E3.
  f_equal; [|by apply IH]. unfold is_byte in *.
  apply hex_digits_inj in E1; [|split; [apply Z.div_pos|apply Z.div_lt_upper_bound]; lia..].
  apply hex_digits_inj in E2; [|apply Z.mod_pos_bound; lia..].
  rewrite (Z.div_mod x 16), (Z.div_mod y 16) by lia. lia.
Qed.

(** * Properties *)

(** C35: hashing a message in pieces gives the SHA-256 of the whole message,
    however it is cut (empty pieces, pieces over several blocks, a message
    that ends anywhere in a block): [Fips.hash] is FIPS 180-4 written on its
    own, with its constants derived from the primes, its rotations and sums in
    arithmetic and its schedule as a recurrence.  The code never indexes its
    buffer out of range, and its tables, rotations, rounds and padding, in one
    block or two, are those of the standard. *)
Theorem sha256_correct (pieces : list bytes) :
  Forall bytes_ok pieces ->
  (let? s := sha_updates sha_new pieces in sha_finish s) = Ok (Fips.hash (concat pieces)).
Proof.
  intros Hp. destruct (sha_updates_correct [] sha_new pieces hashes_new) as (s & -> & Hs). cbn [rbind app] in *.
  rewrite <- sha256_fips; [by apply sha_finish_correct|]. clear s Hs.
  induction Hp as [|p ps Hp _ IH]; cbn [concat]; [constructor|by apply bytes_ok_app].
Qed.

(** A message in three pieces, one of them empty. *)
Example sha256_witness :
  (let? s := sha_updates sha_new [lit "a"; []; lit "bc"] in sha_finish s) = Ok (Fips.hash (lit "abc")) /\
  hex (Fips.hash (lit "abc")) = lit "ba7816bf8f01cfea414140de5dae2223b00361a396177a9cb410ff61f20015ad".
Proof.
  split; [|vm_compute; reflexivity]. apply (sha256_correct [lit "a"; []; lit "bc"]).
  repeat (constructor; [apply bytes_ok_check; reflexivity|]). constructor.
Defined.

(** The test vectors of the standard. *)
Example sha256_abc :
  hex (sha256 (lit "abc")) = lit "ba7816bf8f01cfea414140de5dae2223b00361a396177a9cb410ff61f20015ad".
Proof. vm_compute. reflexivity. Qed.

Example sha256_two_blocks :
  hex (sha256 (lit "abcdbcdecdefdefgefghfghighijhijkijkljklmklmnlmnomnopnopq")) =
  lit "248d6a61d20638b8e5c026930c3e6039a33ce45964ff2167f6ecedd419db06c1".
Proof. vm_compute. reflexivity. Qed.
