(* ===== verification/ToolText.v ===== *)
(** The texts the tools of [examples] print: JSON strings, the line protocol
    of the dumps, one-line diagnostics and prefixes.  An escaped text can be
    read back, and none of them breaks the protocol it is printed in. *)

From S2P Require Import Prelude Errors Types Utf8.

(** * The code *)

(** A string literal whose double quotes are written as single quotes. *)
Definition quoted (s : string) : text := map (fun c => if c =? 39 then 34 else c) (lit s).

(** [char::is_control]: the general category Cc. *)
Definition is_control (c : Z) : bool := in_range 0 31 c || in_range 127 159 c.

(** [{:04x}] of a value below 65536. *)
Definition fmt_hex4 (x : Z) : string := (fmt_hex2 (x / 256) +++ fmt_hex2 (x mod 256))%string.

(** [for character in value.chars() { match character { .. } }] *)
Definition map_chars (f : Z -> list Z) (value : text) : text :=
  utf8_encode (concat (map f (chars value))).

(** The components of a path that its iterator yields: neither empty ones nor
    [.]. *)
Fixpoint path_components (current path : bytes) : list bytes :=
  let yielded rest := if bytes_eqb current [] || bytes_eqb current [46] then rest else current :: rest in
  match path with
  | [] => yielded []
  | c :: path => if c =? 47 then yielded (path_components [] path) else path_components (current ++ [c]) path
  end.

(** [Path::file_name]: the last component, unless it is [..]. *)
Definition file_name (path : bytes) : option bytes :=
  match last (path_components [] path) with
  | Some name => if bytes_eqb name [46; 46] then None else Some name
  | None => None
  end.

(** What precedes and follows the last dot. *)
Fixpoint split_last_dot (name : bytes) : option (bytes * bytes) :=
  match name with
  | [] => None
  | c :: name =>
      match split_last_dot name with
      | Some (before, after) => Some (c :: before, after)
      | None => if c =? 46 then Some ([], name) else None
      end
  end.

(** [Path::extension] *)
Definition path_extension (path : bytes) : option bytes :=
  match file_name path with
  | None => None
  | Some name =>
      match split_last_dot name with
      | None | Some ([], _) => None
      | Some (_, after) => Some after
      end
  end.

(** [path.extension().is_some_and(|extension| extension.eq_ignore_ascii_case("mdd"))] *)
Definition is_mdd (path : bytes) : bool :=
  match path_extension path with
  | Some extension => bytes_eqb (map to_ascii_lowercase extension) (lit "mdd")
  | None => false
  end.

(** The arms of [escape_json]. *)
Definition escape_json_char (c : Z) : list Z :=
  if c =? 34 then [92; 34]
  else if c =? 92 then [92; 92]
  else if c =? 10 then [92; 110]
  else if c =? 13 then [92; 114]
  else if c =? 9 then [92; 116]
  else if is_control c then [92; 117] ++ lit (fmt_hex4 c)
  else [c].

(** [escape_json] of [v1_audit.rs] *)
Definition escape_json (value : text) : text := map_chars escape_json_char value.

(** [optional_json] *)
Definition optional_json (value : option text) : text :=
  match value with
  | None => lit "null"
  | Some text => [34] ++ escape_json text ++ [34]
  end.

(** [truncate] of [v1_audit.rs] and [prefix] of [inspect.rs] *)
Definition take_chars (max_chars : Z) (value : text) : text :=
  utf8_encode (take (Z.to_nat max_chars) (chars value)).

(** The arms of [sanitize]. *)
Definition sanitize_char (c : Z) : list Z :=
  if c =? 92 then [92; 92]
  else if c =? 9 then [92; 116]
  else if c =? 10 then [92; 110]
  else if c =? 13 then [92; 114]
  else [c].

(** [sanitize] of [v1_dump.rs] *)
Definition sanitize (key : text) : text := map_chars sanitize_char key.

Definition MAX_DIAGNOSTIC_CHARS : Z := 2048.

(** The arms of [sanitize_diagnostic]. *)
Definition diagnostic_char (c : Z) : Z :=
  if (c =? 10) || (c =? 13) || (c =? 9) then 32
  else if is_control c then 0xfffd
  else c.

(** The loop of [sanitize_diagnostic]: what is pushed, and whether it stopped
    early. *)
Fixpoint diagnostic_loop (count : Z) (l : list Z) : list Z * bool :=
  match l with
  | [] => ([], false)
  | c :: l =>
      if MAX_DIAGNOSTIC_CHARS <=? count then ([], true)
      else let '(output, truncated) := diagnostic_loop (count + 1) l in (diagnostic_char c :: output, truncated)
  end.

(** [sanitize_diagnostic] of [corpus_audit.rs] *)
Definition sanitize_diagnostic (value : text) : text :=
  let '(output, truncated) := diagnostic_loop 0 (chars value) in
  utf8_encode (output ++ if truncated then [0x2026] else []).

(** [sanitize_field] of [bench_local.rs] *)
Definition sanitize_field (value : text) : text :=
  map_chars (fun c => if (c =? 9) || (c =? 13) || (c =? 10) then [32] else [c]) value.

(** [str::contains] *)
Fixpoint contains (l p : text) : bool :=
  starts_with l p || match l with [] => false | _ :: l => contains l p end.

(** [str::parse::<u64>], with its optional sign. *)
Fixpoint parse_digits (acc : Z) (l : text) : option Z :=
  match l with
  | [] => Some acc
  | c :: l =>
      if in_range 48 57 c && (acc * 10 + (c - 48) <=? u64_max)
      then parse_digits (acc * 10 + (c - 48)) l
      else None
  end.

Definition parse_u64 (l : text) : option Z :=
  match l with
  | [] => None
  | [43] => None
  | 43 :: digits => parse_digits 0 digits
  | _ => parse_digits 0 l
  end.

(** * Specification *)

(** One JSON hexadecimal digit. *)
Definition json_hex (c : Z) : option Z :=
  if in_range 48 57 c then Some (c - 48)
  else if in_range 97 102 c then Some (c - 87)
  else if in_range 65 70 c then Some (c - 55)
  else None.

(** The characters of a JSON string and what follows its closing quote; the
    input starts behind the opening quote (RFC 8259, without escaped
    surrogates). *)
Fixpoint json_string (l : list Z) : option (list Z * list Z) :=
  match l with
  | [] => None
  | c :: l =>
      if c =? 34 then Some ([], l)
      else if c <? 32 then None
      else if c =? 92 then
        match l with
        | [] => None
        | e :: l =>
            if e =? 117 then
              match l with
              | a :: b :: c :: d :: l =>
                  a ← json_hex a; b ← json_hex b; c ← json_hex c; d ← json_hex d;
                  '(text, rest) ← json_string l;
                  Some (a * 4096 + b * 256 + c * 16 + d :: text, rest)
              | _ => None
              end
            else
              e ← (if (e =? 34) || (e =? 92) || (e =? 47) then Some e
                   else if e =? 98 then Some 8 else if e =? 102 then Some 12
                   else if e =? 110 then Some 10 else if e =? 114 then Some 13
                   else if e =? 116 then Some 9 else None);
              '(text, rest) ← json_string l;
              Some (e :: text, rest)
        end
      else '(text, rest) ← json_string l; Some (c :: text, rest)
  end.

(** The characters of a field of the dump, up to a tab or a newline. *)
Fixpoint dump_field (l : list Z) : option (list Z * list Z) :=
  match l with
  | [] => Some ([], [])
  | c :: l' =>
      if (c =? 9) || (c =? 10) then Some ([], l)
      else if c =? 92 then
        match l' with
        | [] => None
        | e :: l' =>
            e ← (if e =? 92 then Some 92 else if e =? 116 then Some 9
                 else if e =? 110 then Some 10 else if e =? 114 then Some 13 else None);
            '(text, rest) ← dump_field l';
            Some (e :: text, rest)
        end
      else '(text, rest) ← dump_field l'; Some (c :: text, rest)
  end.

(** * Lemmas *)

Lemma chars_map_chars f value :
  (forall c, is_scalar c = true -> Forall (fun d => is_scalar d = true) (f c)) ->
  chars (map_chars f value) = concat (map f (chars value)).
Proof.
  intros Hf. apply chars_encode. pose proof (chars_scalar value) as Hc.
  induction Hc as [|c cs Hc _ IH]; simpl; [constructor|]. apply Forall_app. auto.
Qed.

Lemma map_chars_ok f value :
  (forall c, is_scalar c = true -> Forall (fun d => is_scalar d = true) (f c)) -> text_ok (map_chars f value).
Proof.
  intros Hf. apply text_ok_encode. pose proof (chars_scalar value) as Hc.
  induction Hc as [|c cs Hc _ IH]; simpl; [constructor|]. apply Forall_app. auto.
Qed.

Lemma is_control_true c : is_control c = true <-> 0 <= c <= 31 \/ 127 <= c <= 159.
Proof. unfold is_control. rewrite orb_true_iff, !in_range_true. lia. Qed.

(** The control characters, for proofs by computation. *)
Lemma control_cases (P : Z -> Prop) :
  Forall P (map Z.of_nat (seq 0 32 ++ seq 127 33)) -> forall c, is_control c = true -> P c.
Proof.
  rewrite Forall_forall. intros HP c Hc%is_control_true. apply HP, list_elem_of_In, in_map_iff.
  exists (Z.to_nat c). split; [lia|]. apply in_app_iff. rewrite !in_seq. lia.
Qed.

Ltac case_char :=
  repeat match goal with
    | |- context [Z.eqb ?a ?b] => destruct (Z.eqb_spec a b); [subst; try done|]
    end.

Lemma escape_json_char_ok c :
  is_scalar c = true -> Forall (fun d => is_scalar d = true /\ is_control d = false) (escape_json_char c).
Proof.
  intros Hc. unfold escape_json_char. case_char; try (repeat constructor).
  destruct (is_control c) eqn:E; [|by repeat constructor].
  apply Forall_forall. intros d Hd.
  assert (forallb (fun d => is_scalar d && negb (is_control d)) ([92; 117] ++ lit (fmt_hex4 c)) = true) as Ha.
  { revert c E Hc n n0 n1 n2 n3 Hd. 
    enough (forall c, is_control c = true ->
      forallb (fun d => is_scalar d && negb (is_control d)) ([92; 117] ++ lit (fmt_hex4 c)) = true) by auto.
    apply control_cases. repeat (constructor; [vm_compute; reflexivity|]). constructor. }
  rewrite forallb_forall in Ha. apply list_elem_of_In, Ha, andb_true_iff in Hd as [? Hd].
  split; [done|by apply negb_true_iff].
Qed.

Lemma json_string_escape_char c l text rest :
  json_string l = Some (text, rest) -> is_scalar c = true ->
  json_string (escape_json_char c ++ l) = Some (c :: text, rest).
Proof.
  intros Hl Hc. unfold escape_json_char.
  destruct (Z.eqb_spec c 34); [subst; simpl; by rewrite Hl|].
  destruct (Z.eqb_spec c 92); [subst; simpl; by rewrite Hl|].
  destruct (Z.eqb_spec c 10); [subst; simpl; by rewrite Hl|].
  destruct (Z.eqb_spec c 13); [subst; simpl; by rewrite Hl|].
  destruct (Z.eqb_spec c 9); [subst; simpl; by rewrite Hl|].
  destruct (is_control c) eqn:E.
  - revert E. revert c Hc n n0 n1 n2 n3.
    enough (forall c, is_control c = true -> json_string (([92; 117] ++ lit (fmt_hex4 c)) ++ l) = Some (c :: text, rest))
      by auto.
    apply control_cases. vm_compute map. repeat (constructor; [simpl; by rewrite Hl|]). constructor.
  - cbn [app json_string]. destruct (Z.eqb_spec c 34); [done|]. destruct (Z.ltb_spec c 32).
    + exfalso. apply is_scalar_true in Hc. assert (is_control c = true) by (apply is_control_true; lia). congruence.
    + destruct (Z.eqb_spec c 92); [done|]. by rewrite Hl.
Qed.

Lemma json_string_escape cs rest :
  Forall (fun c => is_scalar c = true) cs ->
  json_string (concat (map escape_json_char cs) ++ 34 :: rest) = Some (cs, rest).
Proof.
  induction 1 as [|c cs Hc _ IH]; [done|]. cbn [map concat]. rewrite <- app_assoc.
  by apply json_string_escape_char.
Qed.

Lemma sanitize_char_ok c :
  is_scalar c = true -> Forall (fun d => is_scalar d = true /\ d <> 9 /\ d <> 10 /\ d <> 13) (sanitize_char c).
Proof. intros Hc. unfold sanitize_char. case_char; repeat constructor; done. Qed.

Lemma dump_field_sanitize cs rest text after :
  dump_field rest = Some (text, after) ->
  dump_field (concat (map sanitize_char cs) ++ rest) = Some (cs ++ text, after).
Proof.
  intros Hr. induction cs as [|c cs IH]; [done|]. cbn [map concat]. rewrite <- app_assoc.
  unfold sanitize_char at 1. cbn [app].
  destruct (Z.eqb_spec c 92); [subst; simpl; by rewrite IH|].
  destruct (Z.eqb_spec c 9); [subst; simpl; by rewrite IH|].
  destruct (Z.eqb_spec c 10); [subst; simpl; by rewrite IH|].
  destruct (Z.eqb_spec c 13); [subst; simpl; by rewrite IH|].
  cbn [app dump_field]. destruct (Z.eqb_spec c 9); [done|]. destruct (Z.eqb_spec c 10); [done|].
  destruct (Z.eqb_spec c 92); [done|]. cbn [orb]. by rewrite IH.
Qed.

Lemma diagnostic_loop_spec count l :
  diagnostic_loop count l =
  (map diagnostic_char (take (Z.to_nat (MAX_DIAGNOSTIC_CHARS - count)) l),
   bool_decide (MAX_DIAGNOSTIC_CHARS - count < zlen l /\ l <> [])).
Proof.
  revert count. induction l as [|c l IH]; intros count; cbn [diagnostic_loop].
  { rewrite take_nil. by rewrite bool_decide_eq_false_2 by naive_solver. }
  destruct (Z.leb_spec MAX_DIAGNOSTIC_CHARS count).
  - replace (Z.to_nat (MAX_DIAGNOSTIC_CHARS - count)) with 0%nat by lia. cbn [take map]. f_equal. symmetry.
    apply bool_decide_eq_true. split; [simpl; lia|done].
  - rewrite IH. replace (Z.to_nat (MAX_DIAGNOSTIC_CHARS - count)) with (S (Z.to_nat (MAX_DIAGNOSTIC_CHARS - (count + 1)))) by lia.
    cbn [take map]. f_equal. apply bool_decide_ext. cbn [length].
    destruct l as [|d l]; cbn [length]; [|split; intros [? _]; (split; [lia|done])].
    split; intros [? ?]; [done|]. exfalso. lia.
Qed.

Lemma diagnostic_char_ok c :
  is_scalar c = true -> is_scalar (diagnostic_char c) = true /\ is_control (diagnostic_char c) = false.
Proof.
  intros Hc. unfold diagnostic_char. destruct ((c =? 10) || (c =? 13) || (c =? 9)); [done|].
  by destruct (is_control c) eqn:E.
Qed.

(** ** Printable text *)

(** No control character below the space: the text stays on its line. *)
Definition printable (t : text) : Prop := Forall (fun b => 32 <= b) t.

Lemma printable_app a b : printable a -> printable b -> printable (a ++ b).
Proof. intros. by apply Forall_app. Qed.

Lemma printable_check t : forallb (fun b => 32 <=? b) t = true -> printable t.
Proof. intros Ht. apply Forall_forall. intros b Hb%list_elem_of_In. apply Z.leb_le. by eapply forallb_forall in Ht. Qed.

Lemma printable_encode cs :
  Forall (fun c => is_scalar c = true /\ is_control c = false) cs -> printable (utf8_encode cs).
Proof.
  unfold utf8_encode. induction 1 as [|c cs [Hc Hk] _ IH]; [constructor|]. cbn [map concat]. apply printable_app; [|done].
  apply is_scalar_true in Hc.
  assert (32 <= c) by (destruct (Z.leb_spec 32 c); [done|]; assert (is_control c = true) by (apply is_control_true; lia); congruence).
  unfold utf8_encode_char. destruct (c <? 128); [by repeat constructor|].
  assert (forall x, 0 <= x mod 64) by (intros; by apply Z.mod_pos_bound).
  destruct (c <? 2048); [|destruct (c <? 65536)]; repeat constructor;
    try (pose proof (Z.div_pos c 64); pose proof (Z.div_pos c 4096); pose proof (Z.div_pos c 262144); lia);
    match goal with |- 32 <= 128 + ?x mod 64 => specialize (H0 x); lia end.
Qed.

Lemma printable_escape_json t : printable (escape_json t).
Proof.
  apply printable_encode. pose proof (chars_scalar t) as Hc. induction Hc as [|c cs Hc _ IH]; simpl; [constructor|].
  apply Forall_app. split; [by apply escape_json_char_ok|done].
Qed.

Lemma printable_pretty_N x s : printable (lit s) -> printable (lit (pretty_N_go x s)).
Proof.
  revert s. induction (N.lt_wf_0 x) as [x _ IH]; intros s Hs. destruct (decide (x = 0)%N) as [->|Hx].
  - by rewrite pretty_N_go_0.
  - rewrite pretty_N_go_step by lia. apply IH; [by apply N.div_lt; lia|].
    unfold lit. cbn [String.list_ascii_of_string map]. constructor; [|done].
    unfold pretty_N_char. repeat case_match; vm_compute; discriminate.
Qed.

Lemma printable_fmt_dec x : printable (lit (fmt_dec x)).
Proof.
  unfold fmt_dec, pretty, pretty_Z. destruct x as [|p|p].
  - apply printable_check. vm_compute. reflexivity.
  - unfold pretty, pretty_positive, pretty, pretty_N. destruct (decide _); [apply printable_check; reflexivity|].
    apply printable_pretty_N. constructor.
  - unfold lit. cbn [String.list_ascii_of_string map]. constructor; [vm_compute; discriminate|].
    unfold pretty, pretty_positive, pretty, pretty_N. destruct (decide _); [apply printable_check; reflexivity|].
    apply printable_pretty_N. constructor.
Qed.

(** ** Numbers *)

Lemma digit_char x : (x < 10)%N -> Z.of_N (Ascii.N_of_ascii (pretty_N_char x)) = 48 + Z.of_N x.
Proof.
  intros Hx. assert (x = 0 \/ x = 1 \/ x = 2 \/ x = 3 \/ x = 4 \/ x = 5 \/ x = 6 \/ x = 7 \/ x = 8 \/ x = 9)%N
    as Hcases by lia.
  by repeat (destruct Hcases as [->|Hcases]; [reflexivity|]); subst.
Qed.

Lemma lit_cons c s : lit (String c s) = Z.of_N (Ascii.N_of_ascii c) :: lit s.
Proof. done. Qed.

Lemma parse_digits_go x s :
  Z.of_N x <= u64_max -> parse_digits 0 (lit (pretty_N_go x s)) = parse_digits (Z.of_N x) (lit s).
Proof.
  revert s. induction (N.lt_wf_0 x) as [x _ IH]; intros s Hx. destruct (decide (x = 0)%N) as [->|Hn].
  - by rewrite pretty_N_go_0.
  - assert (x mod 10 < 10)%N as Hd by (by apply N.mod_lt). pose proof (N.div_mod x 10 ltac:(done)) as Hdm.
    rewrite pretty_N_go_step by lia. specialize (IH (x / 10)%N).
    generalize dependent (x / 10)%N. generalize dependent (x mod 10)%N. intros r Hr q IH Hdm.
    rewrite IH by lia. rewrite lit_cons. cbn [parse_digits]. rewrite digit_char by done.
    rewrite (proj2 (in_range_true 48 57 (48 + Z.of_N r))) by lia.
    replace (Z.of_N q * 10 + (48 + Z.of_N r - 48)) with (Z.of_N x) by lia.
    by rewrite (proj2 (Z.leb_le _ _)).
Qed.

Lemma pretty_go_head x s c l :
  (0 < x)%N -> lit (pretty_N_go x s) = c :: l -> 48 <= c.
Proof.
  revert s. induction (N.lt_wf_0 x) as [x _ IH]; intros s Hx. rewrite pretty_N_go_step by done.
  assert (x mod 10 < 10)%N as Hd by (by apply N.mod_lt). pose proof (N.div_lt x 10 Hx ltac:(done)) as Hq.
  specialize (IH (x / 10)%N Hq). generalize dependent (x / 10)%N. generalize dependent (x mod 10)%N.
  intros r Hr q IH Hq. destruct (decide (q = 0)%N) as [->|Hn]; [|apply IH; lia].
  rewrite pretty_N_go_0, lit_cons, digit_char by done. intros E.
  assert (48 + Z.of_N r = c) as <- by congruence. lia.
Qed.

(** A printed number parses back. *)
Lemma parse_u64_fmt_dec x : 0 <= x <= u64_max -> parse_u64 (lit (fmt_dec x)) = Some x.
Proof.
  intros Hx. destruct x as [|p|p]; [done| |lia].
  unfold fmt_dec, pretty, pretty_Z, pretty, pretty_positive, pretty, pretty_N. rewrite decide_False by done.
  pose proof (parse_digits_go (N.pos p) "" ltac:(simpl; lia)) as Hd.
  destruct (lit (pretty_N_go (N.pos p) "")) as [|c l] eqn:E; [by simpl in Hd|].
  apply pretty_go_head in E; [|lia].
  change (parse_digits (Z.of_N (N.pos p)) (lit EmptyString)) with (Some (Z.pos p)) in Hd. rewrite <- Hd. clear Hd. unfold parse_u64. destruct l; (destruct (Z.eq_dec c 43); [lia|]);
    destruct c as [|c|]; try done; do 6 (destruct c as [c|c|]; try done); by destruct c.
Qed.

(** * Properties *)

(** An escaped text, between quotes, is a JSON string that reads back as
    the text, whatever follows it, and it holds no control character. *)
Theorem escape_json_round_trip t rest :
  json_string (chars (escape_json t) ++ 34 :: rest) = Some (chars t, rest) /\
  Forall (fun c => is_control c = false) (chars (escape_json t)).
Proof.
  unfold escape_json. rewrite chars_map_chars.
  2: { intros c Hc. eapply Forall_impl; [by apply escape_json_char_ok|]. by intros d []. }
  split; [apply json_string_escape, chars_scalar|].
  pose proof (chars_scalar t) as Hc. induction Hc as [|c cs Hc _ IH]; simpl; [constructor|].
  apply Forall_app. split; [|done]. eapply Forall_impl; [by apply escape_json_char_ok|]. by intros d [].
Qed.

(** The sanitized key of a dump is lossless, and it ends neither the field
    nor the line. *)
Theorem sanitize_round_trip key rest :
  (rest = [] \/ exists c rest', rest = c :: rest' /\ (c = 9 \/ c = 10)) ->
  dump_field (chars (sanitize key) ++ rest) = Some (chars key, rest) /\
  Forall (fun c => c <> 9 /\ c <> 10 /\ c <> 13) (chars (sanitize key)).
Proof.
  intros Hrest. unfold sanitize. rewrite chars_map_chars.
  2: { intros c Hc. eapply Forall_impl; [by apply sanitize_char_ok|]. by intros d []. }
  split.
  - rewrite (dump_field_sanitize _ rest [] rest), app_nil_r; [done|].
    destruct Hrest as [->|(c & rest' & -> & [->| ->])]; done.
  - pose proof (chars_scalar key) as Hc. induction Hc as [|c cs Hc _ IH]; simpl; [constructor|].
    apply Forall_app. split; [|done]. eapply Forall_impl; [by apply sanitize_char_ok|]. by intros d [].
Qed.

(** A diagnostic is one line of at most 2049 printable characters; a
    short diagnostic without control characters is printed as it is. *)
Theorem sanitize_diagnostic_correct value :
  zlen (chars (sanitize_diagnostic value)) <= MAX_DIAGNOSTIC_CHARS + 1 /\
  Forall (fun c => is_control c = false) (chars (sanitize_diagnostic value)) /\
  (text_ok value -> zlen (chars value) <= MAX_DIAGNOSTIC_CHARS ->
   Forall (fun c => is_control c = false) (chars value) -> sanitize_diagnostic value = value).
Proof.
  unfold sanitize_diagnostic. rewrite diagnostic_loop_spec, Z.sub_0_r.
  set (truncated := bool_decide _).
  assert (Forall (fun c => is_scalar c = true /\ is_control c = false)
    (map diagnostic_char (take (Z.to_nat MAX_DIAGNOSTIC_CHARS) (chars value)) ++ if truncated then [0x2026] else [])) as Ha.
  { apply Forall_app. split; [|destruct truncated; by repeat constructor]. apply Forall_map, Forall_take.
    eapply Forall_impl; [apply chars_scalar|]. apply diagnostic_char_ok. }
  rewrite chars_encode by (eapply Forall_impl; [exact Ha|]; by intros c []).
  split; [|split].
  - rewrite length_app, length_map, length_take. unfold MAX_DIAGNOSTIC_CHARS. destruct truncated; cbn [length]; lia.
  - eapply Forall_impl; [exact Ha|]. by intros c [].
  - intros Ht Hlen Hc. rewrite take_ge by lia. unfold truncated.
    rewrite bool_decide_eq_false_2 by (intros [? _]; lia). rewrite app_nil_r.
    rewrite <- (encode_chars value Ht) at 2. f_equal. clear -Hc. induction Hc as [|c cs Hc _ IH]; [done|].
    cbn [map]. f_equal; [|done]. unfold diagnostic_char. rewrite Hc.
    destruct (Z.eqb_spec c 10); [by subst|]. destruct (Z.eqb_spec c 13); [by subst|].
    by destruct (Z.eqb_spec c 9); [subst|].
Qed.

(** A prefix is made of the first characters, and is the whole text when there
    are no more. *)
Theorem take_chars_correct max_chars value :
  chars (take_chars max_chars value) = take (Z.to_nat max_chars) (chars value) /\
  (text_ok value -> zlen (chars value) <= max_chars -> take_chars max_chars value = value).
Proof.
  unfold take_chars. split; [by apply chars_encode, Forall_take, chars_scalar|].
  intros Ht Hl. rewrite take_ge by lia. by apply encode_chars.
Qed.

Example escape_json_sample : escape_json (lit "a\b" ++ [10; 1]) = lit "a\\b\n\u0001".
Proof. vm_compute. reflexivity. Qed.

(** ** Paths *)

Lemma bytes_eqb_ne a b : a <> b -> bytes_eqb a b = false.
Proof. intros Hne. destruct (bytes_eqb a b) eqn:E; [|done]. by apply bytes_eqb_true in E. Qed.

Lemma path_components_app current a b :
  path_components current (a ++ 47 :: b) = path_components current a ++ path_components [] b.
Proof.
  revert current. induction a as [|c a IH]; intros current; simpl.
  - by destruct (_ || _).
  - destruct (c =? 47); [|apply IH]. rewrite IH. by destruct (_ || _).
Qed.

Lemma path_components_name current name :
  47 ∉ name -> current ++ name <> [] -> current ++ name <> [46] ->
  path_components current name = [current ++ name].
Proof.
  revert current. induction name as [|c name IH]; intros current Hn Hne Hdot; simpl.
  - rewrite app_nil_r in *. by rewrite !bytes_eqb_ne.
  - apply not_elem_of_cons in Hn as [Hc Hn]. rewrite (proj2 (Z.eqb_neq c 47)) by done.
    rewrite IH; rewrite <- ?(app_assoc current [c] name); done.
Qed.

Lemma split_last_dot_app before after :
  46 ∉ after -> split_last_dot (before ++ 46 :: after) = Some (before, after).
Proof.
  intros Ha. assert (forall l, 46 ∉ l -> split_last_dot l = None) as Hnone.
  { induction l as [|c l IH]; [done|]. intros [Hc Hl]%not_elem_of_cons. simpl. rewrite IH by done.
    by rewrite (proj2 (Z.eqb_neq c 46)). }
  induction before as [|c before IH]; simpl; [by rewrite Hnone|by rewrite IH].
Qed.

(** The extension of [directory/name.extension] is what follows the last dot
    of the last component. *)
Theorem path_extension_correct directory name extension :
  name <> [] -> extension <> [] -> 47 ∉ name -> 47 ∉ extension -> 46 ∉ extension ->
  path_extension (directory ++ 47 :: name ++ 46 :: extension) = Some extension.
Proof.
  intros Hn He Hn47 He47 He46. unfold path_extension, file_name. rewrite path_components_app.
  assert (2 < zlen (name ++ 46 :: extension)) as Hlen.
  { rewrite length_app. destruct name, extension; simpl; try done; lia. }
  rewrite (path_components_name [] (name ++ 46 :: extension)); simpl.
  - rewrite last_snoc. rewrite bytes_eqb_ne by (intros E; rewrite E in Hlen; simpl in Hlen; lia).
    rewrite split_last_dot_app by done. by destruct name.
  - intros [?|[?|?]%elem_of_cons]%elem_of_app; done.
  - intros E. rewrite E in Hlen. simpl in Hlen. lia.
  - intros E. rewrite E in Hlen. simpl in Hlen. lia.
Qed.

Example is_mdd_examples :
  is_mdd (lit "a/b.MDD") = true /\ is_mdd (lit ".mdd") = false /\ is_mdd (lit "a.mdd/./") = true /\
  is_mdd (lit "a.mdd/..") = false /\ is_mdd (lit "a.b.mdx") = false.
Proof. by vm_compute. Qed.
