(* ===== verification/FuzzSupport.v ===== *)
(** The structured inputs of the fuzz targets: [fuzz/support/mod.rs].  A
    fixture is a small dictionary of either wire version with the positions of
    its parts; the mutators overwrite bytes inside one part and repair the
    checksum of the block they changed. *)

From stdpp Require Import list_numbers.
From S2P Require Import Prelude Errors Types Slices Checksum Crypto Utf8 Encoding ToolText.

Definition MAX_MUTATIONS : Z := 64.

(** [Kind] *)
Inductive FuzzKind := KindMdx | KindMdd.

(** [Wire] *)
Inductive Wire := WireV1 | WireV2.

(** [Range<usize>] *)
Record Range := { range_start : Z; range_end : Z }.

Definition range_is_empty (r : Range) : bool := range_end r <=? range_start r.

Definition range_len (r : Range) : Z := saturating_sub (range_end r) (range_start r).

(** [Layout] *)
Record Layout := {
  lay_keyword_header : Range;
  lay_key_index : Range;
  lay_key_blocks : list Range;
  lay_record_header : Range;
  lay_record_index : Range;
  lay_record_blocks : list Range;
  lay_record_offsets : list Z;
}.

(** [Fixture] *)
Record Fixture := {
  fx_kind : FuzzKind;
  fx_bytes : bytes;
  fx_layout : Layout;
}.

Definition with_bytes (f : Fixture) (bytes : bytes) : Fixture :=
  {| fx_kind := fx_kind f; fx_bytes := bytes; fx_layout := fx_layout f |}.

(** [adler32], byte by byte *)
Definition fuzz_adler32 (bytes : bytes) : Z :=
  let '(first, second) :=
    fold_left (fun '(first, second) byte =>
      let first := (first + byte) mod 65521 in (first, (second + first) mod 65521)) bytes (1, 0) in
  Z.lor (wrap32 (Z.shiftl second 16)) first.

(** [utf16le] *)
Definition utf16le (t : text) : bytes := utf16_bytes (utf16_encode (chars t)).

(** [encode_key] *)
Definition encode_key (kind : FuzzKind) (key : text) : bytes :=
  match kind with KindMdx => key | KindMdd => utf16le key end.

(** [key_unit_size] *)
Definition key_unit_size (kind : FuzzKind) : Z := match kind with KindMdx => 1 | KindMdd => 2 end.

(** [iter::repeat_n(0, key_unit_size(kind))] *)
Definition key_terminator (kind : FuzzKind) : bytes := replicate (Z.to_nat (key_unit_size kind)) 0.

(** [put_summary] *)
Definition put_summary (output : bytes) (kind : FuzzKind) (summary : text) : bytes :=
  let encoded := encode_key kind summary in
  output ++ be_split 2 (zlen encoded / key_unit_size kind) ++ encoded ++ key_terminator kind.

(** [put_v1_summary] *)
Definition put_v1_summary (output : bytes) (kind : FuzzKind) (summary : text) : bytes :=
  let encoded := encode_key kind summary in
  output ++ be_split 1 (zlen encoded / key_unit_size kind) ++ encoded.

(** [uncompressed_block] *)
Definition uncompressed_block (payload : bytes) : bytes :=
  [0; 0; 0; 0] ++ be_split 4 (fuzz_adler32 payload) ++ payload.

(** [split_bytes] *)
Fixpoint split_bytes (bytes : bytes) (offset : Z) (sizes : list Z) : Result (list (list Z)) :=
  match sizes with
  | [] => Ok []
  | size :: sizes =>
      let? part := or_panic (slice bytes offset (offset + size)) "range end index out of range" in
      let? parts := split_bytes bytes (offset + size) sizes in
      Ok (part :: parts)
  end.

(** * Fixtures *)

Definition fixture_keys (kind : FuzzKind) : list text :=
  map lit (match kind with
           | KindMdx => ["alpha"; "duplicate"; "duplicate"; "empty"; "omega"; "zulu"]
           | KindMdd => ["\alpha.bin"; "\duplicate.bin"; "\duplicate.bin"; "\empty.bin"; "\omega.bin"; "\zulu.bin"]
           end)%string.

Definition fixture_records : list bytes := map lit ["A"; "BB"; "CCC"; ""; "DD"; "E"]%string.

(** The [scan] over the record lengths. *)
Fixpoint record_starts (offset : Z) (records : list bytes) : list Z :=
  match records with
  | [] => []
  | record :: records => offset :: record_starts (offset + zlen record) records
  end.

(** The inner loop over the entries of a key block: its payload and the
    offsets of its rows. *)
Fixpoint block_payload (put : Z -> bytes) (kind : FuzzKind) (keys : list text) (starts indexes : list Z)
    (payload : bytes) (offsets : list Z) : Result (bytes * list Z) :=
  match indexes with
  | [] => Ok (payload, offsets)
  | index :: indexes =>
      let? start := or_panic (get_at starts index) "index out of bounds" in
      let? key := or_panic (get_at keys index) "index out of bounds" in
      block_payload put kind keys starts indexes
        (payload ++ put start ++ encode_key kind key ++ key_terminator kind)
        (offsets ++ [zlen payload])
  end.

(** What the loop over [key_block_counts] collects for a block. *)
Record FixtureBlock := {
  fb_payload : bytes;
  fb_offsets : list Z;
  fb_summary : text * text;
}.

Fixpoint fixture_blocks (put : Z -> bytes) (kind : FuzzKind) (keys : list text) (starts : list Z)
    (entry_index : Z) (counts : list Z) : Result (list FixtureBlock) :=
  match counts with
  | [] => Ok []
  | count :: counts =>
      let end_ := entry_index + count in
      let? '(payload, offsets) := block_payload put kind keys starts (seqZ entry_index count) [] [] in
      let? first := or_panic (get_at keys entry_index) "index out of bounds" in
      let? last := or_panic (get_at keys (end_ - 1)) "index out of bounds" in
      let? blocks := fixture_blocks put kind keys starts end_ counts in
      Ok ({| fb_payload := payload; fb_offsets := offsets; fb_summary := (first, last) |} :: blocks)
  end.

(** The entries of the keyword index. *)
Definition fixture_index (number : Z -> bytes) (put_summary : bytes -> FuzzKind -> text -> bytes)
    (kind : FuzzKind) (blocks : list FixtureBlock) : bytes :=
  fold_left (fun output block =>
    let output := output ++ number 2 in
    let output := put_summary output kind (fst (fb_summary block)) in
    let output := put_summary output kind (snd (fb_summary block)) in
    output ++ number (zlen (uncompressed_block (fb_payload block))) ++ number (zlen (fb_payload block)))
    blocks [].

(** [header_xml], of the declared version *)
Definition fixture_header (version : string) (kind : FuzzKind) : text :=
  quoted (match kind with
       | KindMdx => "<Dictionary GeneratedByEngineVersion='" +++ version +++ "' RequiredEngineVersion='"
                      +++ version +++ "' Encoding='UTF-8' KeyCaseSensitive='No' StripKey='No'/>"
       | KindMdd => "<Library_Data GeneratedByEngineVersion='" +++ version +++ "' RequiredEngineVersion='"
                      +++ version +++ "' KeyCaseSensitive='No' StripKey='No'/>"
       end)%string.

(** The loop that appends the key blocks: their ranges and the positions of
    the record offsets in the file. *)
Fixpoint append_key_blocks (bytes : list Z) (blocks : list FixtureBlock) : list Z * list Range * list Z :=
  match blocks with
  | [] => (bytes, [], [])
  | block :: blocks =>
      let start := zlen bytes in
      let bytes := bytes ++ uncompressed_block (fb_payload block) in
      let positions := map (fun relative => start + 8 + relative) (fb_offsets block) in
      let '(out, ranges, rest) := append_key_blocks bytes blocks in
      (out, {| range_start := start; range_end := zlen bytes |} :: ranges, positions ++ rest)
  end.

(** The loop that appends the record blocks. *)
Fixpoint append_record_blocks (bytes : list Z) (payloads : list (list Z)) : list Z * list Range :=
  match payloads with
  | [] => (bytes, [])
  | payload :: payloads =>
      let start := zlen bytes in
      let bytes := bytes ++ uncompressed_block payload in
      let '(out, ranges) := append_record_blocks bytes payloads in
      (out, {| range_start := start; range_end := zlen bytes |} :: ranges)
  end.

(** The header section: length, UTF-16 text, checksum. *)
Definition fixture_head (version : string) (kind : FuzzKind) : bytes :=
  let header_xml := utf16le (fixture_header version kind) in
  be_split 4 (zlen header_xml) ++ header_xml ++ le_split 4 (fuzz_adler32 header_xml).

Definition sum_lengths (blocks : list bytes) : Z := fold_left (fun n block => n + zlen block) blocks 0.

(** What both fixtures do after the keyword header: the key index, the key
    blocks and the record section, with the width of its numbers. *)
Definition fixture_tail (width : nat) (kind : FuzzKind) (keys : list text) (keyword_header : Range)
    (bytes key_index : list Z) (blocks : list FixtureBlock) (record_payloads : list (list Z)) : Fixture :=
  let number := be_split width in
  let key_index_start := zlen bytes in
  let bytes := bytes ++ key_index in
  let key_index_range := {| range_start := key_index_start; range_end := zlen bytes |} in
  let '(bytes, key_block_ranges, record_offset_positions) := append_key_blocks bytes blocks in
  let record_blocks := map uncompressed_block record_payloads in
  let record_header_start := zlen bytes in
  let bytes := bytes ++ number (zlen record_blocks) ++ number (zlen keys)
                 ++ number (zlen record_blocks * (2 * Z.of_nat width)) ++ number (sum_lengths record_blocks) in
  let record_header_range := {| range_start := record_header_start; range_end := zlen bytes |} in
  let record_index_start := zlen bytes in
  let bytes := bytes ++ concat (map (fun payload =>
                 number (zlen (uncompressed_block payload)) ++ number (zlen payload)) record_payloads) in
  let record_index_range := {| range_start := record_index_start; range_end := zlen bytes |} in
  let '(bytes, record_block_ranges) := append_record_blocks bytes record_payloads in
  {| fx_kind := kind; fx_bytes := bytes;
     fx_layout := {|
       lay_keyword_header := keyword_header; lay_key_index := key_index_range;
       lay_key_blocks := key_block_ranges; lay_record_header := record_header_range;
       lay_record_index := record_index_range; lay_record_blocks := record_block_ranges;
       lay_record_offsets := record_offset_positions |} |}.

(** [fixture]: version 2 *)
Definition fixture (kind : FuzzKind) : Result Fixture :=
  let keys := fixture_keys kind in
  let starts := record_starts 0 fixture_records in
  let? blocks := fixture_blocks (be_split 8) kind keys starts 0 [2; 2; 2] in
  let? record_payloads := split_bytes (concat fixture_records) 0 [2; 3; 4] in
  let key_index_payload := fixture_index (be_split 8) put_summary kind blocks in
  let key_index_block := uncompressed_block key_index_payload in
  let bytes := fixture_head "2.0" kind in
  let start := zlen bytes in
  let keyword_header :=
    be_split 8 (zlen blocks) ++ be_split 8 (zlen keys) ++ be_split 8 (zlen key_index_payload)
      ++ be_split 8 (zlen key_index_block)
      ++ be_split 8 (sum_lengths (map (fun b => uncompressed_block (fb_payload b)) blocks)) in
  let bytes := bytes ++ keyword_header ++ be_split 4 (fuzz_adler32 keyword_header) in
  Ok (fixture_tail 8 kind keys {| range_start := start; range_end := zlen bytes |} bytes
        key_index_block blocks record_payloads).

(** [fixture_v1]: version 1 *)
Definition fixture_v1 (kind : FuzzKind) : Result Fixture :=
  let keys := fixture_keys kind in
  let starts := record_starts 0 fixture_records in
  let? blocks := fixture_blocks (be_split 4) kind keys starts 0 [2; 2; 2] in
  let? record_payloads := split_bytes (concat fixture_records) 0 [2; 3; 4] in
  let key_info := fixture_index (be_split 4) put_v1_summary kind blocks in
  let bytes := fixture_head "1.2" kind in
  let start := zlen bytes in
  let bytes := bytes ++ be_split 4 (zlen blocks) ++ be_split 4 (zlen keys) ++ be_split 4 (zlen key_info)
                 ++ be_split 4 (sum_lengths (map (fun b => uncompressed_block (fb_payload b)) blocks)) in
  Ok (fixture_tail 4 kind keys {| range_start := start; range_end := zlen bytes |} bytes
        key_info blocks record_payloads).

(** [fixture_for] *)
Definition fixture_for (wire : Wire) (kind : FuzzKind) : Result Fixture :=
  match wire with WireV1 => fixture_v1 kind | WireV2 => fixture kind end.

(** * Mutators *)

(** The loop of [mutate_region] over [data.chunks_exact(3)]. *)
Fixpoint mutate_loop (bytes : bytes) (range : Range) (mutations : list (list Z)) : Result (list Z) :=
  match mutations with
  | [] => Ok bytes
  | mutation :: mutations =>
      let relative := be_combine (take 2 mutation) mod range_len range in
      let? bytes := xor_at bytes (range_start range + relative) (nth 2 mutation 0) in
      mutate_loop bytes range mutations
  end.

(** [mutate_region] *)
Definition mutate_region (bytes : list Z) (range : Range) (data : list Z) : Result (list Z) :=
  if range_is_empty range then Ok bytes
  else mutate_loop bytes range (take (Z.to_nat MAX_MUTATIONS) (chunks_exact 3 data)).

(** [refresh_block_checksum] *)
Definition refresh_block_checksum (bytes : bytes) (range : Range) : Result (list Z) :=
  let? payload := or_panic (slice bytes (range_start range + 8) (range_end range))
                    "slice index starts after its end" in
  copy_into bytes (range_start range + 4) (be_split 4 (fuzz_adler32 payload)).

(** [mutate_block_payload] *)
Definition mutate_block_payload (bytes : list Z) (range : Range) (data : list Z) : Result (list Z) :=
  if range_len range <=? 8 then Ok bytes
  else
    let payload := {| range_start := range_start range + 8; range_end := range_end range |} in
    let? bytes := mutate_region bytes payload data in
    refresh_block_checksum bytes range.

(** The loop of [mutate_record_offsets]. *)
Fixpoint mutate_offsets_loop (bytes : bytes) (offsets : list Z) (mutations : list (list Z))
    : Result (list Z) :=
  match mutations with
  | [] => Ok bytes
  | mutation :: mutations =>
      let entry := nth 0 mutation 0 mod zlen offsets in
      let byte := nth 1 mutation 0 mod 8 in
      let? offset := or_panic (get_at offsets entry) "index out of bounds" in
      let? bytes := xor_at bytes (offset + byte) (nth 2 mutation 0) in
      mutate_offsets_loop bytes offsets mutations
  end.

Fixpoint refresh_blocks (bytes : bytes) (blocks : list Range) : Result (list Z) :=
  match blocks with
  | [] => Ok bytes
  | block :: blocks => let? bytes := refresh_block_checksum bytes block in refresh_blocks bytes blocks
  end.

(** [mutate_record_offsets] *)
Definition mutate_record_offsets (f : Fixture) (data : bytes) : Result Fixture :=
  match lay_record_offsets (fx_layout f) with
  | [] => Ok f
  | offsets =>
      let? bytes := mutate_offsets_loop (fx_bytes f) offsets
                      (take (Z.to_nat MAX_MUTATIONS) (chunks_exact 3 data)) in
      let? bytes := refresh_blocks bytes (lay_key_blocks (fx_layout f)) in
      Ok (with_bytes f bytes)
  end.

(** [corrupt_block_envelope] *)
Definition corrupt_block_envelope (bytes : list Z) (range : Range) (data : list Z) : Result (list Z) :=
  if (range_len range <? 8) || (zlen data =? 0) then Ok bytes
  else mutate_region bytes {| range_start := range_start range; range_end := range_start range + 8 |} data.

(** The scan of [set_declared_major_version] for [EngineVersion=]. *)
Fixpoint set_digits (fuel : nat) (bytes needle : list Z) (cursor end_ major : Z) : Result (list Z) :=
  if end_ <? cursor + zlen needle + 2 then Ok bytes
  else match fuel with
       | O => OutOfFuel
       | S fuel =>
           let? window := or_panic (slice bytes cursor (cursor + zlen needle)) "range end index out of range" in
           let? bytes :=
             if bytes_eqb window needle then
               let digit := cursor + zlen needle in
               let? value := or_panic (if 48 + major <=? u8_max then Some (48 + major) else None)
                               "attempt to add with overflow" in
               let? bytes := store_at bytes digit value in
               store_at bytes (digit + 1) 0
             else Ok bytes in
           set_digits fuel bytes needle (cursor + 2) end_ major
       end.

(** [set_declared_major_version] *)
Definition set_declared_major_version (f : Fixture) (major : Z) : Result Fixture :=
  let? length_bytes := or_panic (slice (fx_bytes f) 0 4) "index out of bounds" in
  let xml_len := be_combine length_bytes in
  let? bytes := set_digits (Z.to_nat xml_len) (fx_bytes f) (utf16le (quoted "EngineVersion='"))
                  4 (4 + xml_len) major in
  let? xml := or_panic (slice bytes 4 (4 + xml_len)) "range end index out of range" in
  let? bytes := copy_into bytes (4 + xml_len) (le_split 4 (fuzz_adler32 xml)) in
  Ok (with_bytes f bytes).

(** * Lemmas *)

(** The byte-by-byte checksum of the harness is the library's. *)
Lemma fuzz_adler32_correct bytes : bytes_ok bytes -> fuzz_adler32 bytes = adler32 bytes.
Proof.
  intros Hb. destruct (adler_chunks_spec bytes (1, 0) Hb one_zero_reduced) as (E & _ & [_ Hr]).
  unfold adler32, fuzz_adler32. rewrite E.
  assert (forall a b, fold_left (fun '(first, second) byte =>
            let first := (first + byte) mod 65521 in (first, (second + first) mod 65521)) bytes (a, b) =
          adler_spec_sums bytes (a, b)) as ->.
  { clear. unfold adler_spec_sums. induction bytes as [|x l IH]; intros a b; [done|].
    cbn [fold_left]. by rewrite IH. }
  destruct (adler_spec_sums bytes (1, 0)) as [a b]. unfold adler_pack. cbn [fst snd] in *. f_equal.
  apply wrap32_small. unfold MOD_ADLER, u32_max in *. rewrite Z.shiftl_mul_pow2 by lia. lia.
Qed.

(** ** What a mutator may change *)

(** [out] differs from [bytes] only inside [range]. *)
Definition changes_only (bytes out : list Z) (range : Range) : Prop :=
  zlen out = zlen bytes /\ bytes_ok out /\
  forall i, i < range_start range \/ range_end range <= i -> get_at out i = get_at bytes i.

Definition range_inside (range : Range) (bytes : list Z) : Prop :=
  0 <= range_start range <= range_end range /\ range_end range <= zlen bytes.

Lemma changes_only_refl bytes range : bytes_ok bytes -> changes_only bytes bytes range.
Proof. by split. Qed.

Lemma changes_only_trans a b c range :
  changes_only a b range -> changes_only b c range -> changes_only a c range.
Proof.
  intros (Hl & _ & Ha) (Hl' & Hb & Hb'). split; [lia|]. split; [done|]. intros i Hi.
  rewrite Hb' by done. by apply Ha.
Qed.

Lemma changes_only_mono a b r r' :
  changes_only a b r -> range_start r' <= range_start r -> range_end r <= range_end r' -> changes_only a b r'.
Proof. intros (? & ? & Ha) ? ?. split; [done|]. split; [done|]. intros i Hi. apply Ha. lia. Qed.

Lemma chunks_exact_ok n data :
  bytes_ok data -> 0 < n -> Forall (fun c => zlen c = n /\ bytes_ok c) (chunks_exact n data).
Proof.
  intros Hd Hn. unfold chunks_exact. apply Forall_forall. intros c [Hc Hin]%list_elem_of_filter.
  split; [done|]. assert (bytes_ok (concat (chunks n data))) as Hok by (by rewrite chunks_concat).
  apply Forall_concat_inv in Hok. rewrite Forall_forall in Hok. by apply Hok.
Qed.

Lemma mutation_bytes m : zlen m = 3 -> bytes_ok m -> exists a b c, m = [a; b; c] /\ is_byte a /\ is_byte b /\ is_byte c.
Proof.
  intros Hl Hm. destruct m as [|a [|b [|c [|]]]]; simpl in Hl; try lia.
  exists a, b, c. repeat (apply Forall_cons in Hm as [? Hm]). done.
Qed.

Lemma mutate_loop_ok bytes range mutations :
  bytes_ok bytes -> range_inside range bytes -> 0 < range_len range ->
  Forall (fun c => zlen c = 3 /\ bytes_ok c) mutations ->
  exists out, mutate_loop bytes range mutations = Ok out /\ changes_only bytes out range.
Proof.
  intros Hb Hr Hl Hm. revert bytes Hb Hr. induction Hm as [|m mutations [Hz Hm] _ IH]; intros bytes Hb Hr.
  { exists bytes. split; [done|]. by apply changes_only_refl. }
  cbn [mutate_loop]. destruct (mutation_bytes m Hz Hm) as (a & b & c & -> & Ha & Hb' & Hc).
  cbn [take nth]. set (relative := be_combine [a; b] mod range_len range).
  assert (0 <= relative < range_len range) as Hrel by (by apply Z.mod_pos_bound).
  destruct Hr as [Hs He]. unfold range_len, saturating_sub in *.
  destruct (xor_at_ok bytes (range_start range + relative) c) as (out & -> & Hlen & Hok & Hother); [lia|done|done|].
  cbn [rbind]. assert (changes_only bytes out range) as Hco.
  { split; [done|]. split; [done|]. intros i Hi. apply Hother. lia. }
  destruct (IH out Hok) as (out' & -> & Hco'); [split; [done|lia]|].
  exists out'. split; [done|]. by eapply changes_only_trans.
Qed.

Lemma mutate_region_ok bytes range data :
  bytes_ok bytes -> bytes_ok data -> range_inside range bytes ->
  exists out, mutate_region bytes range data = Ok out /\ changes_only bytes out range.
Proof.
  intros Hb Hd Hr. unfold mutate_region, range_is_empty.
  destruct (Z.leb_spec (range_end range) (range_start range)).
  { exists bytes. split; [done|]. by apply changes_only_refl. }
  apply mutate_loop_ok; [done|done|unfold range_len, saturating_sub; lia|].
  by apply Forall_take, chunks_exact_ok.
Qed.

(** The stored checksum of a block is the one of its payload. *)
Definition block_checked (bytes : list Z) (range : Range) : Prop :=
  exists block, slice bytes (range_start range) (range_end range) = Some block /\
    take 4 (drop 4 block) = be_split 4 (adler32 (drop 8 block)).

(** Repairing the checksum changes four bytes, and then the block is valid. *)
Lemma refresh_block_checksum_ok bytes range :
  bytes_ok bytes -> range_inside range bytes -> 8 <= range_len range ->
  exists out, refresh_block_checksum bytes range = Ok out /\
    changes_only bytes out {| range_start := range_start range + 4; range_end := range_start range + 8 |} /\
    block_checked out range.
Proof.
  intros Hb [Hs He] Hl. unfold range_len, saturating_sub in Hl. unfold refresh_block_checksum.
  destruct (slice_is_Some bytes (range_start range + 8) (range_end range)) as [payload Hp]; [lia|done|].
  rewrite Hp. cbn [or_panic rbind]. set (sum := be_split 4 (fuzz_adler32 payload)).
  assert (zlen sum = 4) as Hz by (unfold sum; by rewrite length_be_split).
  destruct (copy_into_correct bytes (range_start range + 4) sum) as (out & Ho & Hlen & Ht & Hd); [lia|lia|].
  rewrite Ho. exists out. split; [done|].
  destruct (copy_into_ok _ _ _ _ Ho Hb (be_split_ok 4 _)) as [Hok _].
  replace (range_start range + 4 + zlen sum) with (range_start range + 8) in * by lia.
  assert (out = take (Z.to_nat (range_start range + 4)) bytes ++ sum ++ drop (Z.to_nat (range_start range + 8)) bytes) as E.
  { rewrite <- (take_drop (Z.to_nat (range_start range + 8)) out), Ht, Hd. by rewrite <- app_assoc. }
  split.
  - split; [done|]. split; [done|]. cbn [range_start range_end]. intros i Hi. rewrite E.
    unfold get_at. destruct (Z.leb_spec 0 i); [|done]. destruct Hi as [Hi|Hi].
    + rewrite lookup_app_l by (rewrite length_take; lia). by rewrite lookup_take_lt by lia.
    + rewrite lookup_app_r by (rewrite length_take; lia). rewrite lookup_app_r by (rewrite length_take; lia).
      rewrite lookup_drop, length_take. f_equal. lia.
  - destruct (slice_is_Some out (range_start range) (range_end range)) as [block Hbl]; [lia|lia|].
    exists block. split; [done|]. apply slice_Some in Hbl as [_ ->]. apply slice_Some in Hp as [_ Hp].
    set (s := Z.to_nat (range_start range)) in *. set (n := Z.to_nat (range_end range - range_start range)).
    assert (take 4 (drop 4 (take n (drop s out))) = sum) as ->.
    { rewrite skipn_firstn_comm, drop_drop, take_take.
      replace (Init.Nat.min 4 (n - 4)) with 4%nat by lia. rewrite E.
      rewrite drop_app_length' by (rewrite length_take; lia). by rewrite take_app_length' by lia. }
    unfold sum. f_equal. rewrite fuzz_adler32_correct.
    + f_equal. rewrite Hp, skipn_firstn_comm, drop_drop.
      replace (s + 8)%nat with (Z.to_nat (range_start range + 8)) by lia. rewrite Hd. f_equal. lia.
    + rewrite Hp. by apply Forall_take, Forall_drop.
Qed.

Lemma mutate_block_payload_ok bytes range data :
  bytes_ok bytes -> bytes_ok data -> range_inside range bytes -> 8 < range_len range ->
  exists out, mutate_block_payload bytes range data = Ok out /\
    changes_only bytes out {| range_start := range_start range + 4; range_end := range_end range |} /\
    block_checked out range.
Proof.
  intros Hb Hd [Hs He] Hl. unfold mutate_block_payload. rewrite (proj2 (Z.leb_gt _ _)) by lia.
  unfold range_len, saturating_sub in Hl.
  destruct (mutate_region_ok bytes {| range_start := range_start range + 8; range_end := range_end range |} data)
    as (mid & -> & Hmid); [done|done|split; simpl; lia|]. cbn [rbind].
  destruct (id Hmid) as (Hlen & Hok & _).
  destruct (refresh_block_checksum_ok mid range) as (out & -> & Hout & Hc);
    [done|split; lia|unfold range_len, saturating_sub; lia|].
  exists out. split; [done|]. split; [|done].
  eapply changes_only_trans; (eapply changes_only_mono; [eassumption|simpl; lia..]).
Qed.

Lemma corrupt_block_envelope_ok bytes range data :
  bytes_ok bytes -> bytes_ok data -> range_inside range bytes ->
  exists out, corrupt_block_envelope bytes range data = Ok out /\ changes_only bytes out range.
Proof.
  intros Hb Hd [Hs He]. unfold corrupt_block_envelope. destruct (_ || _) eqn:E.
  { exists bytes. split; [done|]. by apply changes_only_refl. }
  apply orb_false_iff in E as [E _]. apply Z.ltb_ge in E. unfold range_len, saturating_sub in E.
  destruct (mutate_region_ok bytes {| range_start := range_start range; range_end := range_start range + 8 |} data)
    as (out & -> & Ho); [done|done|split; simpl; lia|].
  exists out. split; [done|]. eapply changes_only_mono; [exact Ho|simpl; lia..].
Qed.

Definition whole (bytes : list Z) : Range := {| range_start := 0; range_end := zlen bytes |}.

Lemma changes_only_whole bytes out range :
  range_inside range bytes -> changes_only bytes out range -> changes_only bytes out (whole bytes).
Proof. intros [? ?] Hc. eapply changes_only_mono; [exact Hc|simpl; lia..]. Qed.

Lemma range_inside_length r a b : zlen b = zlen a -> range_inside r a -> range_inside r b.
Proof. intros E [? ?]. split; [done|lia]. Qed.

Lemma mutate_offsets_loop_ok bytes offsets mutations :
  bytes_ok bytes -> offsets <> [] -> Forall (fun o => 0 <= o /\ o + 8 <= zlen bytes) offsets ->
  Forall (fun c => zlen c = 3 /\ bytes_ok c) mutations ->
  exists out, mutate_offsets_loop bytes offsets mutations = Ok out /\ changes_only bytes out (whole bytes).
Proof.
  intros Hb Hne Ho Hm. revert bytes Hb Ho. induction Hm as [|m mutations [Hz Hm] _ IH]; intros bytes Hb Ho.
  { exists bytes. split; [done|]. by apply changes_only_refl. }
  cbn [mutate_offsets_loop]. destruct (mutation_bytes m Hz Hm) as (a & b & c & -> & Ha & Hb' & Hc). cbn [nth].
  assert (0 < zlen offsets) by (destruct offsets; simpl; [done|lia]).
  destruct (get_at_is_Some offsets (a mod zlen offsets)) as [o Hat]; [by apply Z.mod_pos_bound|].
  rewrite Hat. cbn [or_panic rbind]. apply get_at_elem_of in Hat. rewrite Forall_forall in Ho.
  destruct (Ho o Hat) as [Ho0 Ho8]. pose proof (Z.mod_pos_bound b 8 ltac:(lia)).
  destruct (xor_at_ok bytes (o + b mod 8) c) as (mid & -> & Hlen & Hok & Hother); [lia|done|done|]. cbn [rbind].
  assert (changes_only bytes mid (whole bytes)) as Hco.
  { split; [done|]. split; [done|]. simpl. intros i Hi. apply Hother. lia. }
  destruct (IH mid Hok) as (out & -> & Hco'); [apply Forall_forall; intros x Hx; rewrite Hlen; by apply Ho|].
  exists out. split; [done|]. eapply changes_only_trans; [exact Hco|].
  unfold whole in *. by rewrite Hlen in Hco'.
Qed.

Lemma refresh_blocks_ok bytes blocks :
  bytes_ok bytes -> Forall (fun r => range_inside r bytes /\ 8 <= range_len r) blocks ->
  exists out, refresh_blocks bytes blocks = Ok out /\ changes_only bytes out (whole bytes).
Proof.
  intros Hb Hr. revert bytes Hb Hr. induction blocks as [|r blocks IH]; intros bytes Hb Hr; cbn [refresh_blocks].
  { exists bytes. split; [done|]. by apply changes_only_refl. }
  apply Forall_cons in Hr as [[Hi Hl] Hr].
  destruct (refresh_block_checksum_ok bytes r Hb Hi Hl) as (mid & -> & Hmid & _). cbn [rbind].
  destruct (id Hmid) as (Hlen & Hok & _).
  destruct (IH mid Hok) as (out & -> & Hout).
  { eapply Forall_impl; [exact Hr|]. intros x [Hx ?]. split; [|done]. by eapply range_inside_length. }
  exists out. split; [done|]. unfold whole in Hout. rewrite Hlen in Hout.
  eapply changes_only_trans; [|exact Hout].
  destruct Hi as [? ?]. unfold range_len, saturating_sub in Hl.
  eapply changes_only_mono; [exact Hmid|simpl; lia..].
Qed.

Lemma mutate_record_offsets_ok f data :
  bytes_ok (fx_bytes f) -> bytes_ok data ->
  Forall (fun o => 0 <= o /\ o + 8 <= zlen (fx_bytes f)) (lay_record_offsets (fx_layout f)) ->
  Forall (fun r => range_inside r (fx_bytes f) /\ 8 <= range_len r) (lay_key_blocks (fx_layout f)) ->
  exists out, mutate_record_offsets f data = Ok (with_bytes f out) /\
    changes_only (fx_bytes f) out (whole (fx_bytes f)).
Proof.
  intros Hb Hd Ho Hk. unfold mutate_record_offsets. destruct (lay_record_offsets (fx_layout f)) as [|o os] eqn:E.
  { exists (fx_bytes f). split; [by destruct f|]. by apply changes_only_refl. }
  destruct (mutate_offsets_loop_ok (fx_bytes f) (o :: os)
    (take (Z.to_nat MAX_MUTATIONS) (chunks_exact 3 data))) as (mid & -> & Hmid); [done|done|done| |].
  { by apply Forall_take, chunks_exact_ok. }
  cbn [rbind]. destruct (id Hmid) as (Hlen & Hok & _).
  destruct (refresh_blocks_ok mid (lay_key_blocks (fx_layout f)) Hok) as (out & -> & Hout).
  { eapply Forall_impl; [exact Hk|]. intros x [Hx ?]. split; [|done]. by eapply range_inside_length. }
  cbn [rbind]. exists out. split; [done|]. unfold whole in Hout. rewrite Hlen in Hout.
  by eapply changes_only_trans.
Qed.

(** The scan ends and stays inside the header text. *)
Lemma set_digits_ok fuel bytes needle cursor end_ major :
  bytes_ok bytes -> 0 <= cursor -> end_ <= zlen bytes -> end_ - cursor <= 2 * Z.of_nat fuel + 1 ->
  0 <= major -> 48 + major <= u8_max ->
  exists out, set_digits fuel bytes needle cursor end_ major = Ok out /\ zlen out = zlen bytes /\ bytes_ok out.
Proof.
  revert bytes cursor; induction fuel as [|fuel IH]; intros bytes cursor Hb Hc He Hf Hm Hu; cbn [set_digits].
  { rewrite (proj2 (Z.ltb_lt _ _)) by lia. by exists bytes. }
  destruct (Z.ltb_spec end_ (cursor + zlen needle + 2)); [by exists bytes|].
  destruct (slice_is_Some bytes cursor (cursor + zlen needle)) as [window ->]; [lia|lia|]. cbn [or_panic rbind].
  assert (exists mid, (if bytes_eqb window needle then
     let? value := or_panic (if 48 + major <=? u8_max then Some (48 + major) else None)
                     "attempt to add with overflow" in
     let? bytes := store_at bytes (cursor + zlen needle) value in
     store_at bytes (cursor + zlen needle + 1) 0 else Ok bytes) = Ok mid /\
     zlen mid = zlen bytes /\ bytes_ok mid) as (mid & -> & Hlen & Hok).
  { destruct (bytes_eqb window needle); [|by exists bytes]. rewrite (proj2 (Z.leb_le _ _)) by lia.
    cbn [or_panic rbind]. destruct (store_at_ok bytes (cursor + zlen needle) (48 + major)) as (b1 & -> & H1 & H2 & _);
      [lia|done|unfold is_byte, u8_max in *; lia|]. cbn [rbind].
    destruct (store_at_ok b1 (cursor + zlen needle + 1) 0) as (b2 & -> & H3 & H4 & _);
      [lia|done|unfold is_byte; lia|]. exists b2. split; [done|]. split; [lia|done]. }
  cbn [rbind]. destruct (IH mid (cursor + 2)) as (out & -> & Ho & Hoo); [done|lia|lia|lia|done|done|].
  exists out. split; [done|]. split; [lia|done].
Qed.

Lemma set_declared_major_version_ok f length_bytes major :
  bytes_ok (fx_bytes f) -> slice (fx_bytes f) 0 4 = Some length_bytes ->
  be_combine length_bytes + 8 <= zlen (fx_bytes f) -> 0 <= major -> 48 + major <= u8_max ->
  exists out, set_declared_major_version f major = Ok (with_bytes f out) /\
    zlen out = zlen (fx_bytes f) /\ bytes_ok out.
Proof.
  intros Hb Hl Hlen Hm Hu. unfold set_declared_major_version. rewrite Hl. cbn [or_panic rbind].
  assert (bytes_ok length_bytes) as Hlb by (by eapply slice_Forall).
  pose proof (be_combine_bound length_bytes Hlb) as [Hx0 _]. set (xml_len := be_combine length_bytes) in *.
  destruct (set_digits_ok (Z.to_nat xml_len) (fx_bytes f) (utf16le (quoted "EngineVersion='")) 4 (4 + xml_len) major)
    as (mid & -> & Hml & Hmo); [done|lia|lia|lia|done|done|]. cbn [rbind].
  destruct (slice_is_Some mid 4 (4 + xml_len)) as [xml ->]; [lia|lia|]. cbn [or_panic rbind].
  destruct (copy_into_correct mid (4 + xml_len) (le_split 4 (fuzz_adler32 xml))) as (out & Ho & Hol & _);
    [lia|rewrite length_le_split; lia|].
  rewrite Ho. cbn [rbind]. exists out. split; [done|]. split; [lia|].
  by destruct (copy_into_ok _ _ _ _ Ho Hmo (le_split_ok 4 _)).
Qed.

(** ** The fixtures *)

(** A fixture as the targets expect it. *)
Definition fixture_ok (f : Fixture) : Prop :=
  bytes_ok (fx_bytes f) /\ zlen (fx_bytes f) <= 4096 /\
  Forall (fun r => range_inside r (fx_bytes f) /\ 8 < range_len r)
    (lay_keyword_header (fx_layout f) :: lay_key_index (fx_layout f) :: lay_record_header (fx_layout f)
       :: lay_record_index (fx_layout f) :: lay_key_blocks (fx_layout f) ++ lay_record_blocks (fx_layout f)) /\
  lay_key_blocks (fx_layout f) <> [] /\ lay_record_blocks (fx_layout f) <> [] /\
  Forall (fun o => 0 <= o /\ o + 8 <= zlen (fx_bytes f)) (lay_record_offsets (fx_layout f)) /\
  exists length_bytes, slice (fx_bytes f) 0 4 = Some length_bytes /\
    be_combine length_bytes + 8 <= zlen (fx_bytes f).

Definition fixture_check (f : Fixture) : bool :=
  let n := zlen (fx_bytes f) in
  forallb (fun b => (0 <=? b) && (b <? 256)) (fx_bytes f) && (n <=? 4096) &&
  forallb (fun r => (0 <=? range_start r) && (range_start r + 8 <? range_end r) && (range_end r <=? n))
    (lay_keyword_header (fx_layout f) :: lay_key_index (fx_layout f) :: lay_record_header (fx_layout f)
       :: lay_record_index (fx_layout f) :: lay_key_blocks (fx_layout f) ++ lay_record_blocks (fx_layout f)) &&
  negb (zlen (lay_key_blocks (fx_layout f)) =? 0) && negb (zlen (lay_record_blocks (fx_layout f)) =? 0) &&
  forallb (fun o => (0 <=? o) && (o + 8 <=? n)) (lay_record_offsets (fx_layout f)) &&
  match slice (fx_bytes f) 0 4 with Some length_bytes => be_combine length_bytes + 8 <=? n | None => false end.

Lemma fixture_check_ok f : fixture_check f = true -> fixture_ok f.
Proof.
  unfold fixture_check. rewrite !andb_true_iff. intros ((((((Hb & Hn) & Hr) & Hk) & Hrb) & Ho) & Hl).
  split; [by apply bytes_ok_check|]. split; [by apply Z.leb_le|]. split.
  { apply Forall_forall. intros r Hin%list_elem_of_In. rewrite forallb_forall in Hr. specialize (Hr r Hin).
    rewrite !andb_true_iff in Hr. destruct Hr as ((? & ?) & ?). zbool.
    unfold range_inside, range_len, saturating_sub. lia. }
  split; [by destruct (lay_key_blocks (fx_layout f))|]. split; [by destruct (lay_record_blocks (fx_layout f))|]. split.
  { apply Forall_forall. intros o Hin%list_elem_of_In. rewrite forallb_forall in Ho. specialize (Ho o Hin).
    rewrite andb_true_iff in Ho. destruct Ho. zbool. lia. }
  destruct (slice (fx_bytes f) 0 4) as [lb|]; [|done]. exists lb. split; [done|]. by apply Z.leb_le.
Qed.

(** Building a fixture never fails. *)
Lemma fixture_for_ok wire kind : exists f, fixture_for wire kind = Ok f /\ fixture_ok f.
Proof.
  assert (match fixture_for wire kind with Ok f => fixture_check f | _ => false end = true) as Hc
    by (destruct wire, kind; vm_compute; reflexivity).
  destruct (fixture_for wire kind) as [f| | |]; try done. exists f. split; [done|]. by apply fixture_check_ok.
Qed.
