(* ===== verification/Flow.v ===== *)
(** The control flow of the tools around the library ([fuzz], [examples]):
    operations whose errors are inspected instead of propagated, loops over
    iterators and lists, early returns with a value of the tool's own failure
    type.  [always] and [steady] are what the proofs about them show: the
    computation succeeds in every state of an open dictionary and gives back
    what it took. *)

From S2P Require Import Prelude Errors Types Budget Logic Utf8 Encoding Source Descriptors Header KeySection Format Normalize LocatorIndex Arcs Core Dictionary Keys Records Iter Locator Locate Lookup.

(** A computation that may return early with an [F]. *)
Definition Flow (F A : Type) : Type := M CoreState (A + F).

Definition fret {F A} (a : A) : Flow F A := mret (inl a).

Definition ffail {F A} (e : F) : Flow F A := mret (inr e).

Definition fbind {F A B} (m : Flow F A) (k : A -> Flow F B) : Flow F B :=
  let! r := m in
  match r with
  | inl a => k a
  | inr e => mret (inr e)
  end.

Notation "'let*' x ':=' e 'in' k" := (fbind e (fun x => k))
  (at level 200, x binder, e at level 100, k at level 200, right associativity) : mdict_scope.

Notation "e ';;*' k" := (fbind e (fun _ => k))
  (at level 100, k at level 200, right associativity) : mdict_scope.

(** [operation.map_err(on_error)?] *)
Definition try_or {F A} (m : M CoreState A) (on_error : Error -> F) : Flow F A :=
  let! r := attempt m in
  match r with
  | inl a => fret a
  | inr e => ffail (on_error e)
  end.

(** [option.ok_or_else(..)?] *)
Definition some_or {F A} (o : option A) (e : F) : Flow F A :=
  match o with Some a => fret a | None => ffail e end.

(** [if !condition { return Err(e) }] *)
Definition check {F} (condition : bool) (e : F) : Flow F unit :=
  if condition then fret tt else ffail e.

(** A scope that owns a match set. *)
Definition owning_matches {F A} (k : LocatedKeys) (body : Flow F A) : Flow F A := with_located k body.

(** [locate(query).map_err(on_error)?] and the rest of the scope, which owns
    the match set. *)
Definition try_locate `{Env} {F B} (f : MdictFile) (query : text) (on_error : Error -> F)
    (k : option LocatedKeys -> Flow F B) : Flow F B :=
  let! r := attempt (locate_keys f query) in
  match r with
  | inl None => k None
  | inl (Some matches) => owning_matches matches (k (Some matches))
  | inr e => ffail (on_error e)
  end.

(** [for item in iterator { body }]; the iterator is dropped on every exit. *)
Fixpoint for_iter {F I A S} (next : I -> M CoreState (option (A + Error) * I))
    (drop : I -> CoreState -> CoreState) (body : S -> A + Error -> Flow F S) (fuel : nat) (it : I) (acc : S)
    : Flow F S :=
  match fuel with
  | O => lift OutOfFuel
  | Datatypes.S fuel =>
      let! '(item, it) := next it in
      match item with
      | None => fun s => (Ok (inl acc), drop it s)
      | Some item =>
          let! r := body acc item in
          match r with
          | inl acc => for_iter next drop body fuel it acc
          | inr e => fun s => (Ok (inr e), drop it s)
          end
      end
  end.

(** [for x in list { body }] *)
Fixpoint for_list {F A S} (body : S -> A -> Flow F S) (l : list A) (acc : S) : Flow F S :=
  match l with
  | [] => fret acc
  | a :: l => let* acc := body acc a in for_list body l acc
  end.

(** * Rules *)

Section Flow.

Context `{EnvOk} (f : MdictFile) (Hf : file_ok f).

#[local] Notation max := (working_memory_bytes (mf_limits f)).

(** [m] succeeds in every state and gives back everything it took. *)
Definition always {A} (m : M CoreState A) (P : A -> Prop) : Prop :=
  forall base hs, triple max (contracts f) base hs m P (fun _ => base) (fun _ => hs) (-1) [].

Lemma always_bind {A B} (m : M CoreState A) (k : A -> M CoreState B) P Q :
  always m P -> (forall a, P a -> always (k a) Q) -> always (let! a := m in k a) Q.
Proof. intros Hm Hk base hs. eapply triple_bind; [apply Hm|]. intros a Ha. by apply Hk. Qed.

Lemma always_ret {A} (a : A) (P : A -> Prop) : P a -> always (mret a) P.
Proof. intros ? base hs. by apply triple_ret. Qed.

Lemma always_mono {A} (m : M CoreState A) (P Q : A -> Prop) :
  always m P -> (forall a, P a -> Q a) -> always m Q.
Proof. intros Hm HPQ base hs. eapply triple_mono; [apply Hm|]. naive_solver. Qed.

(** An attempt of anything that gives back what it took. *)
Lemma always_attempt {A} (m : M CoreState A) P :
  keeps max (contracts f) m P -> always (attempt m) (fun r => match r with inl a => P a | inr _ => True end).
Proof.
  intros Hm base hs. eapply triple_mono; [eapply triple_attempt, Hm|]. by intros [a|e] Ha.
Qed.

(** Running such a computation on a consistent state. *)
Lemma always_run {A} (m : M CoreState A) P base hs s :
  always m P -> state_ok f base hs s ->
  wpM m s (fun a s' => P a /\ state_ok f base hs s') (fun _ _ => False).
Proof.
  intros Hm Hs. eapply wpM_mono; [exact (Hm base hs s Hs)|done|]. by intros e s' (_ & _ & ? & _).
Qed.

(** [m] ends with a value in [P] or an early return in [E]. *)
Definition steady {F A} (m : Flow F A) (P : A -> Prop) (E : F -> Prop) : Prop :=
  always m (fun r => match r with inl a => P a | inr e => E e end).

Context {F : Type} (E : F -> Prop).

Lemma steady_ret {A} (a : A) (P : A -> Prop) : P a -> steady (F:=F) (fret a) P E.
Proof. intros ?. by apply always_ret. Qed.

Lemma steady_fail {A} e (P : A -> Prop) : E e -> steady (ffail e) P E.
Proof. intros ?. by apply always_ret. Qed.

Lemma steady_mono {A} (m : Flow F A) (P Q : A -> Prop) :
  steady m P E -> (forall a, P a -> Q a) -> steady m Q E.
Proof. intros Hm HPQ. eapply always_mono; [exact Hm|]. intros [a|e]; auto. Qed.

Lemma steady_bind {A B} (m : Flow F A) (k : A -> Flow F B) P Q :
  steady m P E -> (forall a, P a -> steady (k a) Q E) -> steady (let* a := m in k a) Q E.
Proof.
  intros Hm Hk. eapply always_bind; [exact Hm|]. intros [a|e] Ha; [by apply Hk|by apply always_ret].
Qed.

Lemma steady_try {A} (m : M CoreState A) on_error P :
  keeps max (contracts f) m P -> (forall e, E (on_error e)) -> steady (try_or m on_error) P E.
Proof.
  intros Hm He. eapply always_bind; [by apply always_attempt|].
  intros [a|e] Ha; [by apply steady_ret|by apply steady_fail].
Qed.

Lemma steady_some {A} (o : option A) e (P : A -> Prop) :
  (forall a, o = Some a -> P a) -> (o = None -> E e) -> steady (some_or o e) P E.
Proof. intros Ho He. destruct o; [by apply steady_ret, Ho|by apply steady_fail, He]. Qed.

Lemma steady_check condition e : condition = true -> steady (check condition e) (fun _ => True) E.
Proof. intros ->. by apply steady_ret. Qed.

(** A pure step that returns. *)
Lemma steady_returns {A B} (r : Result A) (k : A -> Flow F B) P Q :
  returns r P -> (forall a, P a -> steady (k a) Q E) -> steady (let! a := lift r in k a) Q E.
Proof.
  intros Hr Hk. destruct r as [a| | |]; try done. intros base hs s Hs. apply wpM_bind, wpM_ret.
  exact (Hk a Hr base hs s Hs).
Qed.

(** Locating keys, with the match set alive in the rest of the scope. *)
Lemma steady_locate {B} query on_error (k : option LocatedKeys -> Flow F B) Q :
  (forall e, E (on_error e)) ->
  (first_ok None -> located_ok f query None -> steady (k None) Q E) ->
  (forall matches, first_ok (Some matches) -> located_ok f query (Some matches) ->
     steady (k (Some matches)) Q E) ->
  steady (try_locate f query on_error k) Q E.
Proof.
  intros He Hnone Hsome base hs. unfold try_locate. apply (htriple_nonneg (core_ok max (contracts f))). intros Hbase.
  eapply triple_bind; [eapply triple_attempt, (triple_locate_keys f Hf); done|].
  intros [[matches|]|e] Hr; cbv beta iota.
  - destruct Hr as [Hfirst Hok]. intros s Hs.
    pose proof (Hsome matches Hfirst Hok base (located_handles (Some matches) ++ hs) s Hs) as Hm.
    unfold owning_matches, with_located. unfold wpM in *.
    destruct (k (Some matches) s) as [[r|e| |] s']; try done.
    + destruct Hm as [? Hm]. split; [done|]. by apply (core_ok_drop_located f).
    + by destruct Hm as (_ & _ & ? & _).
  - destruct Hr. by apply Hnone.
  - by apply steady_fail.
Qed.

(** ** Loops *)

Lemma steady_for_list {A S} (body : S -> A -> Flow F S) (Inv : list A -> S -> Prop) l acc :
  Inv [] acc ->
  (forall before a after acc, l = before ++ a :: after -> Inv before acc ->
     steady (body acc a) (Inv (before ++ [a])) E) ->
  steady (for_list body l acc) (Inv l) E.
Proof.
  intros Hacc Hbody.
  assert (forall before after acc, l = before ++ after -> Inv before acc ->
            steady (for_list body after acc) (Inv l) E) as Hgen.
  { intros before after. revert before. induction after as [|a after IH]; intros before acc' El Hinv; cbn [for_list].
    - rewrite app_nil_r in El. subst. by apply steady_ret.
    - eapply steady_bind; [by eapply Hbody|]. intros acc'' Hinv'.
      apply (IH (before ++ [a])); [|done]. by rewrite <- app_assoc. }
  by apply (Hgen []).
Qed.

(** A [for] loop over an iterator of the entries of the file. *)
Lemma steady_for_iter {I A S} (next : I -> M CoreState (option (A + Error) * I)) (drop : I -> CoreState -> CoreState)
    (at_ : I -> Z -> Prop) (exhausted : I -> bool) (owned : I -> list nat) (P : Z -> A -> Prop)
    (body : S -> A + Error -> Flow F S) (Inv : Z -> S -> Prop) fuel it pos acc :
  (forall base hs it pos base_e hs_e, at_ it pos ->
     triple max (contracts f) base (owned it ++ hs) (next it) (next_ok_at f at_ exhausted P pos)
       (fun _ => base) (fun r => owned (snd r) ++ hs) base_e hs_e) ->
  (forall base hs it s, core_ok max (contracts f) base (owned it ++ hs) s ->
     core_ok max (contracts f) base hs (drop it s)) ->
  (forall pos acc a, 0 <= pos < mdict_len f -> P pos a -> Inv pos acc -> steady (body acc (inl a)) (Inv (pos + 1)) E) ->
  (forall pos acc e, Inv pos acc -> steady (body acc (inr e)) (fun _ => False) E) ->
  at_ it pos -> 0 <= pos -> Inv pos acc -> (Z.to_nat (mdict_len f - pos) < fuel)%nat ->
  forall base hs,
  triple max (contracts f) base (owned it ++ hs) (for_iter next drop body fuel it acc)
    (fun r => match r with inl acc => Inv (mdict_len f) acc | inr e => E e end)
    (fun _ => base) (fun _ => hs) (-1) [].
Proof.
  intros Hnext Hdrop Hbody Herror. revert it pos acc.
  induction fuel as [|fuel IH]; intros it pos acc Hat Hpos Hinv Hfuel base hs; [lia|].
  cbn [for_iter]. eapply triple_bind; [by apply Hnext|].
  intros [[[a|error]|] it'] Hr; cbv beta iota; cbn [snd].
  - destruct Hr as (Hlt & Ha & Hat').
    eapply triple_bind; [apply (Hbody pos acc a); [lia|done|done]|].
    intros [acc'|e] Hr'; cbv beta iota.
    + apply (IH it' (pos + 1)); [done|lia|done|lia].
    + intros s Hs. split; [done|]. by apply Hdrop.
  - eapply triple_bind; [by apply (Herror pos acc error)|].
    intros [acc'|e] Hr'; cbv beta iota; [done|]. intros s Hs. split; [done|]. by apply Hdrop.
  - destruct Hr as [-> _]. intros s Hs. split; [done|]. by apply Hdrop.
Qed.

(** The loops over the entries or resources, and over the keys. *)
Lemma steady_for_items {A S} (read : RecordDescriptor -> M CoreState A) (P : Z -> A -> Prop)
    (body : S -> A + Error -> Flow F S) (Inv : Z -> S -> Prop) acc :
  reads f read P -> Inv 0 acc ->
  (forall pos acc a, 0 <= pos < mdict_len f -> P pos a -> Inv pos acc -> steady (body acc (inl a)) (Inv (pos + 1)) E) ->
  (forall pos acc e, Inv pos acc -> steady (body acc (inr e)) (fun _ => False) E) ->
  steady (for_iter (item_next f read) (fun it => drop_iter (ii_records it)) body
            (Datatypes.S (Z.to_nat (mdict_len f))) item_iter_new acc) (Inv (mdict_len f)) E.
Proof.
  intros Hread Hinv Hbody Herror base hs.
  apply (steady_for_iter (item_next f read) (fun it => drop_iter (ii_records it)) (item_at f) item_exhausted
           item_handles P body Inv _ item_iter_new 0); try done.
  - intros. by apply (triple_item_next f Hf).
  - intros. by apply (core_ok_drop_iter f).
  - split; [done|]. apply iter_at_new.
  - lia.
Qed.

Lemma steady_for_keys {S} (body : S -> KeyEntry + Error -> Flow F S) (Inv : Z -> S -> Prop) acc :
  Inv 0 acc ->
  (forall pos acc e, 0 <= pos < mdict_len f -> key_answer f pos (Some e) -> Inv pos acc ->
     steady (body acc (inl e)) (Inv (pos + 1)) E) ->
  (forall pos acc e, Inv pos acc -> steady (body acc (inr e)) (fun _ => False) E) ->
  steady (for_iter (key_next f) drop_iter body (Datatypes.S (Z.to_nat (mdict_len f))) block_iter_new acc)
    (Inv (mdict_len f)) E.
Proof.
  intros Hinv Hbody Herror base hs.
  apply (steady_for_iter (key_next f) drop_iter (iter_at f) bi_done iter_handles
           (fun pos e => key_answer f pos (Some e)) body Inv _ block_iter_new 0); try done.
  - intros. by apply (triple_key_next f Hf).
  - intros. by apply (core_ok_drop_iter f).
  - apply iter_at_new.
  - lia.
Qed.

End Flow.
