(* ===== verification/FuzzExercise.v ===== *)
(** The drivers of the fuzz targets: [src/fuzzing.rs] and the second half of
    [fuzz/support/mod.rs].  A driver opens arbitrary bytes and calls the whole
    read interface on what opened; the theorem says that it always comes back:
    no call panics and no loop runs forever, whatever the bytes are. *)

From stdpp Require Import list_numbers.
From S2P Require Import Prelude Errors Types Options Budget Logic Utf8 FileUrl Encoding Source Compression Descriptors Header KeySection Format Normalize Samples LocatorIndex Arcs Core Dictionary SampleDictionary Keys Records Iter Locator Locate Lookup Mdx Mdd Flow FuzzSupport.

Definition MAX_ROWS : Z := 16.

Definition MAX_STREAMED_SPAN : Z := 65536.

(** [fuzz_options] *)
Definition fuzz_options : OpenOptions :=
  let l := with_header_xml_bytes limits_new (256 * 1024) in
  let l := with_header_attributes l 256 in
  let l := with_key_index_bytes l (1024 * 1024) in
  let l := with_record_index_bytes l (1024 * 1024) in
  let l := with_compressed_block_bytes l (1024 * 1024) in
  let l := with_decompressed_block_bytes l (2 * 1024 * 1024) in
  let l := with_block_metadata_bytes l (1024 * 1024) in
  let l := with_key_block_entries l 4096 in
  let l := with_materialized_record_bytes l MAX_STREAMED_SPAN in
  let l := with_locator_entries l MAX_ROWS in
  let l := with_locator_bytes l (2 * 1024 * 1024) in
  let l := with_working_memory_bytes l (16 * 1024 * 1024) in
  with_limits open_options_new l.

(** [let _ = operation;] *)
Definition discard {A} (m : M CoreState A) : M CoreState unit := let! _ := attempt m in mret tt.

(** The same for a match set, which is dropped. *)
Definition discard_located (m : M CoreState (option LocatedKeys)) : M CoreState unit :=
  let! r := attempt m in
  match r with
  | inl (Some matches) => fun s => (Ok tt, drop_located matches s)
  | _ => mret tt
  end.

(** [for x in list { step(x) }] *)
Fixpoint for_each {A} (step : A -> M CoreState unit) (l : list A) : M CoreState unit :=
  match l with
  | [] => mret tt
  | a :: l => let! _ := step a in for_each step l
  end.

(** [iterator.take(n)], consumed to the end: its items, errors included. *)
Fixpoint take_items {I A} (next : I -> M CoreState (option (A + Error) * I)) (n : nat) (it : I)
    : M CoreState (list (A + Error) * I) :=
  match n with
  | O => mret ([], it)
  | S n =>
      let! '(item, it) := next it in
      match item with
      | None => mret ([], it)
      | Some item =>
          let! '(items, it) := take_items next n it in
          mret (item :: items, it)
      end
  end.

(** [filter_map(Result::ok)] *)
Definition keep_ok {A} (items : list (A + Error)) : list A :=
  omap (fun r => match r with inl a => Some a | inr _ => None end) items.

Section Exercise.

Context `{Env} (f : MdictFile).

(** The first keys of a dictionary. *)
Definition first_keys : M CoreState (list KeyEntry) :=
  let! '(items, it) := take_items (key_next f) (Z.to_nat MAX_ROWS) block_iter_new in
  fun s => (Ok (keep_ok items), drop_iter it s).

(** What both drivers do with them. *)
Definition exercise_keys : M CoreState unit :=
  let! keys := first_keys in
  for_each (fun key => discard (key_at_ordinal f (ke_ordinal key))) keys ;;!
  if mdict_len f <=? MAX_ROWS
  then for_each (fun key => discard_located (locate_keys f (ke_key key))) keys
  else mret tt.

(** [exercise_mdx], after the file has opened *)
Definition exercise_entries (deep : bool) : M CoreState unit :=
  exercise_keys ;;!
  if deep then
    for_each (fun ordinal => discard (entry_at f ordinal)) (seqZ 0 (Z.min (mdict_len f) MAX_ROWS)) ;;!
    let! '(_, it) := take_items (entry_next f) (Z.to_nat MAX_ROWS) item_iter_new in
    fun s => (Ok tt, drop_iter (ii_records it) s)
  else mret tt.

(** [io::sink()] *)
Definition sink_write (w : unit) (chunk : bytes) : Result unit := Ok tt.

(** The body of the loop of [exercise_mdd]. *)
Definition exercise_span (ordinal : Z) : M CoreState unit :=
  let! r := attempt (span_at f ordinal) in
  match r with
  | inl (Some span) =>
      if ms_len span <=? MAX_STREAMED_SPAN
      then discard (copy_to f sink_write span tt) ;;! discard (span_read f span)
      else mret tt
  | _ => mret tt
  end.

(** [exercise_mdd], after the file has opened *)
Definition exercise_resources (deep : bool) : M CoreState unit :=
  exercise_keys ;;!
  if deep then for_each exercise_span (seqZ 0 (Z.min (mdict_len f) MAX_ROWS)) else mret tt.

End Exercise.

(** [exercise_mdx] and [exercise_mdd] *)
Definition exercise_with `{Env} (fs : bytes -> nat -> option FileState) (path : bytes)
    (kind : ContainerKind) (body : MdictFile -> bool -> M CoreState unit) (deep : bool) (clock : nat)
    : Result bool :=
  match Core.open fs path kind fuzz_options clock with
  | Ok (dictionary, s) => let? _ := fst (body dictionary deep s) in Ok true
  | Err _ => Ok false
  | Panic site => Panic site
  | OutOfFuel => OutOfFuel
  end.

Definition exercise_mdx `{Env} fs path := exercise_with fs path Mdx exercise_entries.

Definition exercise_mdd `{Env} fs path := exercise_with fs path Mdd exercise_resources.

(** Where the operating system puts the temporary files. *)
Record TempSystem := {
  ts_directory : bytes;
  ts_process_id : Z;
  ts_writable : bool;
  ts_modified : Z;
}.

(** [Kind::extension] *)
Definition extension (kind : FuzzKind) : bytes := lit (match kind with KindMdx => "mdx" | KindMdd => "mdd" end)%string.

(** The path of [TempDictionary::write]. *)
Definition temp_path (system : TempSystem) (label : string) (serial : Z) (kind : FuzzKind) : bytes :=
  ts_directory system ++ lit ("/mdictlib-fuzz-" +++ label +++ "-" +++ fmt_dec (ts_process_id system)
                                +++ "-" +++ fmt_dec serial +++ ".")%string ++ extension kind.

(** A file system that holds one file. *)
Definition one_file (path : bytes) (file : FileState) : bytes -> nat -> option FileState :=
  fun p => if bytes_eqb p path then fun _ => Some file else fun _ => None.

(** [TempDictionary::write]: the path and the file system with the file. *)
Definition temp_write (system : TempSystem) (label : string) (serial : Z) (kind : FuzzKind)
    (bytes : list Z) : option (list Z * (list Z -> nat -> option FileState)) :=
  let path := temp_path system label serial kind in
  if ts_writable system
  then Some (path, one_file path {| fc_content := bytes; fc_modified := ts_modified system |})
  else None.

(** [exercise_bytes] *)
Definition exercise_bytes `{Env} (system : TempSystem) (serial : Z) (kind : FuzzKind) (label : string)
    (bytes : list Z) (deep : bool) : Result bool :=
  match temp_write system label serial kind bytes with
  | None => Ok false
  | Some (path, fs) =>
      match kind with
      | KindMdx => exercise_mdx fs path deep 0
      | KindMdd => exercise_mdd fs path deep 0
      end
  end.

(** [parse_header_bytes] of [format/common/header.rs], which only exists for
    tests and fuzzing *)
Definition parse_header_bytes `{Env} (bytes : bytes) (kind : ContainerKind) : Result HeaderSection :=
  fst (parse_header_bytes_with_limits bytes kind limits_new Verify
         {| w_budget := memory_budget_new (working_memory_bytes limits_new); w_clock := 0%nat |}).

(** [let _ = result;] *)
Definition ignore {A} (r : Result A) : Result unit :=
  match r with
  | Ok _ | Err _ => Ok tt
  | Panic site => Panic site
  | OutOfFuel => OutOfFuel
  end.

(** [exercise_header_bytes] of [src/fuzzing.rs] *)
Definition exercise_header_bytes `{Env} (data : bytes) : Result unit :=
  ignore (parse_header_bytes data Mdx) ;;? ignore (parse_header_bytes data Mdd).

(** [exercise_compressed_block] of [src/fuzzing.rs] *)
Definition exercise_compressed_block `{Env} (data : bytes) (expected_len : Z) : Result unit :=
  ignore (decode_block "fuzz block" data expected_len limits_new Skip).

(** * Lemmas *)

Lemma ignore_safe {A} (r : Result A) : safe r -> ignore r = Ok tt.
Proof. by destruct r. Qed.

Lemma fuzz_options_ok : limits_ok (limits fuzz_options).
Proof. vm_compute. repeat split; discriminate. Qed.

Section ExerciseProofs.

Context `{EnvOk} (f : MdictFile) (Hf : file_ok f).

Let max := working_memory_bytes (mf_limits f).

Lemma always_discard {A} (m : M CoreState A) P : keeps max (contracts f) m P -> always f (discard m) (fun _ => True).
Proof.
  intros Hm. unfold discard. eapply always_bind; [by eapply always_attempt|]. intros r _. by apply always_ret.
Qed.

Lemma always_discard_located query : always f (discard_located (locate_keys f query)) (fun _ => True).
Proof.
  intros base hs. apply (htriple_nonneg (core_ok max (contracts f))). intros Hbase. unfold discard_located.
  eapply triple_bind; [eapply triple_attempt, (triple_locate_keys f Hf); done|].
  intros [[k|]|e] _; cbv beta iota; [|by apply triple_ret..].
  intros s Hs. split; [done|]. by apply (core_ok_drop_located f).
Qed.

Lemma always_for_each {A} (step : A -> M CoreState unit) l :
  Forall (fun a => always f (step a) (fun _ => True)) l -> always f (for_each step l) (fun _ => True).
Proof.
  induction 1 as [|a l Ha _ IH]; cbn [for_each]; [by apply always_ret|].
  eapply always_bind; [exact Ha|]. by intros _ _.
Qed.

(** Consuming the first [n] items of an iterator, which may be exhausted. *)
Lemma triple_take_items {I A} (next : I -> M CoreState (option (A + Error) * I)) (at_ : I -> Z -> Prop)
    (exhausted : I -> bool) (owned : I -> list nat) (P : Z -> A -> Prop) base hs n it pos :
  (forall it pos base_e hs_e, at_ it pos ->
     triple max (contracts f) base (owned it ++ hs) (next it) (next_ok_at f at_ exhausted P pos)
       (fun _ => base) (fun r => owned (snd r) ++ hs) base_e hs_e) ->
  (forall it s, exhausted it = true -> next it s = (Ok (None, it), s)) ->
  at_ it pos \/ exhausted it = true -> 0 <= pos ->
  triple max (contracts f) base (owned it ++ hs) (take_items next n it)
    (fun '(items, it) => Forall (fun r => match r with inl a => exists k, 0 <= k /\ P k a | inr _ => True end) items)
    (fun _ => base) (fun r => owned (snd r) ++ hs) (-1) [].
Proof.
  intros Hnext Hend. revert it pos. induction n as [|n IH]; intros it pos Hit Hpos; cbn [take_items].
  { by apply triple_ret. }
  destruct Hit as [Hat|Hex].
  - eapply triple_bind; [by apply Hnext|]. intros [[[a|error]|] it'] Hr; cbv beta iota.
    + destruct Hr as (_ & Ha & Hat').
      eapply triple_bind; [apply (IH it' (pos + 1)); [by left|lia]|].
      intros [items it''] Hitems. cbv beta iota. apply triple_ret; [|done|done].
      constructor; [by exists pos|done].
    + destruct Hr as [_ Hex].
      eapply triple_bind; [apply (IH it' pos); [by right|done]|].
      intros [items it''] Hitems. cbv beta iota. apply triple_ret; [|done|done]. by constructor.
    + by apply triple_ret.
  - intros s Hs. unfold wpM, Errors.mbind. rewrite Hend by done. by split.
Qed.

Lemma key_next_exhausted it s : bi_done it = true -> key_next f it s = (Ok (None, it), s).
Proof. intros Hd. unfold key_next. by rewrite Hd. Qed.

Lemma always_first_keys :
  always f (first_keys f) (Forall (fun e => 0 <= ke_ordinal e)).
Proof.
  intros base hs. unfold first_keys.
  pose proof (triple_take_items (key_next f) (iter_at f) bi_done iter_handles
    (fun pos e => key_answer f pos (Some e)) base hs (Z.to_nat MAX_ROWS) block_iter_new 0) as Ht.
  eapply triple_bind; [apply Ht; [|by apply key_next_exhausted|left; apply (iter_at_new f)|done]|].
  { intros. by apply (triple_key_next f Hf). }
  intros [items it] Hitems s Hs. cbv beta iota in *. split; [|by apply (core_ok_drop_iter f)].
  clear Hs Ht. induction Hitems as [|[e|] items He _ IH]; simpl; [constructor| |done].
  constructor; [|done]. by destruct He as (k & Hk & (_ & -> & _)).
Qed.

Lemma always_exercise_keys : always f (exercise_keys f) (fun _ => True).
Proof.
  unfold exercise_keys. eapply always_bind; [apply always_first_keys|]. intros keys Hkeys. cbv beta.
  eapply always_bind; [apply always_for_each|].
  { eapply Forall_impl; [exact Hkeys|]. intros key Hk. eapply always_discard. by apply (keeps_key_at_ordinal f Hf). }
  intros _ _. destruct (mdict_len f <=? MAX_ROWS); [|by apply always_ret].
  apply always_for_each. apply Forall_forall. intros key _. apply always_discard_located.
Qed.

Lemma ordinals_nonneg n : Forall (fun o => 0 <= o) (seqZ 0 n).
Proof. apply Forall_forall. intros o Ho%elem_of_seqZ. lia. Qed.

Lemma always_exercise_entries deep : always f (exercise_entries f deep) (fun _ => True).
Proof.
  unfold exercise_entries. eapply always_bind; [apply always_exercise_keys|]. intros _ _. cbv beta.
  destruct deep; [|by apply always_ret].
  eapply always_bind; [apply always_for_each|].
  { eapply Forall_impl; [apply ordinals_nonneg|]. intros o Ho. eapply always_discard.
    by apply (keeps_entry_at f Hf). }
  intros _ _ base hs.
  pose proof (triple_take_items (entry_next f) (item_at f) item_exhausted item_handles (entry_ok f)
    base hs (Z.to_nat MAX_ROWS) item_iter_new 0) as Ht.
  eapply triple_bind; [apply Ht; [| |left; by split; [done|apply iter_at_new]|done]|].
  - intros. apply (triple_item_next f Hf); [by apply entry_reads|done].
  - intros. by apply item_next_exhausted.
  - intros [items it] _ s Hs. cbv beta iota in *. split; [done|]. by apply (core_ok_drop_iter f).
Qed.

Lemma always_exercise_span ordinal : 0 <= ordinal -> always f (exercise_span f ordinal) (fun _ => True).
Proof.
  intros Ho. unfold exercise_span.
  eapply always_bind; [by apply always_attempt, (keeps_span_at f Hf)|].
  intros [[span|]|e] Hspan; cbv beta iota; [|by apply always_ret..].
  destruct (ms_len span <=? MAX_STREAMED_SPAN); [|by apply always_ret].
  destruct Hspan as [_ Hspan]. destruct (id Hspan) as [(_ & _ & [Hs0 _] & _) _].
  eapply always_bind; [eapply always_discard, (keeps_copy_to f Hf (fun _ => True) sink_write); [done|done|exact Hs0]|].
  intros _ _. eapply always_discard. by apply (keeps_span_read f Hf ordinal).
Qed.

Lemma always_exercise_resources deep : always f (exercise_resources f deep) (fun _ => True).
Proof.
  unfold exercise_resources. eapply always_bind; [apply always_exercise_keys|]. intros _ _. cbv beta.
  destruct deep; [|by apply always_ret]. apply always_for_each.
  eapply Forall_impl; [apply ordinals_nonneg|]. apply always_exercise_span.
Qed.

End ExerciseProofs.

Lemma exercise_with_total `{EnvOk} fs path kind body deep clock :
  file_system_ok fs ->
  (forall f, file_ok f -> always f (body f deep) (fun _ => True)) ->
  exercise_with fs path kind body deep clock =
  Ok (match Core.open fs path kind fuzz_options clock with Ok _ => true | _ => false end).
Proof.
  intros Hfs Hbody. pose proof (open_ok fs path kind fuzz_options clock Hfs fuzz_options_ok) as Hopen.
  unfold exercise_with. destruct (Core.open _ _ _ _ _) as [[f s]|e|site|]; try done.
  destruct Hopen as (Hf & Hs & _). pose proof (always_run f (body f deep) _ _ _ _ (Hbody f Hf) Hs) as Hrun.
  unfold wpM in Hrun. by destruct (body f deep s) as [[[]|e| |] s'].
Qed.

Lemma one_file_ok path file :
  bytes_ok (fc_content file) -> zlen (fc_content file) <= u64_max -> file_system_ok (one_file path file).
Proof. intros Hb Hl p t file'. unfold one_file. destruct (bytes_eqb p path); [|done]. by intros [= <-]. Qed.

(** The container kind of a fixture. *)
Definition container_kind (kind : FuzzKind) : ContainerKind :=
  match kind with KindMdx => Mdx | KindMdd => Mdd end.

(** Whether the bytes open, from the file they were written to. *)
Definition opens `{Env} (system : TempSystem) (label : string) (serial : Z) (kind : FuzzKind)
    (bytes : list Z) : bool :=
  match temp_write system label serial kind bytes with
  | None => false
  | Some (path, fs) =>
      match Core.open fs path (container_kind kind) fuzz_options 0 with Ok _ => true | _ => false end
  end.

(** * Properties *)

(** The drivers of the fuzz targets come back on every file, even one
    that changes between any two accesses: opening it, iterating its keys and
    entries, resolving ordinals, locating keys, streaming and materializing
    records never panics and never loops, and a driver reports [true] exactly
    when the file opened. *)
Theorem exercise_total `{EnvOk} fs path deep clock :
  file_system_ok fs ->
  exercise_mdx fs path deep clock =
    Ok (match Core.open fs path Mdx fuzz_options clock with Ok _ => true | _ => false end) /\
  exercise_mdd fs path deep clock =
    Ok (match Core.open fs path Mdd fuzz_options clock with Ok _ => true | _ => false end).
Proof.
  intros Hfs. split; apply exercise_with_total; try done; intros f Hf.
  - by apply always_exercise_entries.
  - by apply always_exercise_resources.
Qed.

(** The same for bytes that are written to a temporary file first. *)
Theorem exercise_bytes_total `{EnvOk} system serial kind label bytes deep :
  bytes_ok bytes -> zlen bytes <= u64_max ->
  exercise_bytes system serial kind label bytes deep = Ok (opens system label serial kind bytes).
Proof.
  intros Hb Hl. unfold exercise_bytes, opens, temp_write. destruct (ts_writable system); [|done].
  destruct kind; apply exercise_with_total; try (by apply one_file_ok); intros f Hf.
  - by apply always_exercise_entries.
  - by apply always_exercise_resources.
Qed.

(** The drivers of the parser internals come back on every input too. *)
Theorem exercise_header_bytes_total `{EnvOk} data : bytes_ok data -> exercise_header_bytes data = Ok tt.
Proof.
  intros Hb.
  assert (forall kind, ignore (parse_header_bytes data kind) = Ok tt) as Hk.
  { intros kind. apply ignore_safe. unfold parse_header_bytes.
    pose proof (budgeted_parse_header_bytes (S:=World) data kind limits_new Verify Hb ltac:(done)
      {| w_budget := memory_budget_new (working_memory_bytes limits_new); w_clock := 0%nat |}) as Hp.
    eapply wp_fst, wpM_mono; [apply Hp| |]; [|done|done].
    unfold budget_ok, get_budget. vm_compute. repeat split; discriminate. }
  unfold exercise_header_bytes. by rewrite !Hk.
Qed.

Theorem exercise_compressed_block_total `{EnvOk} data expected_len :
  bytes_ok data -> 0 <= expected_len -> exercise_compressed_block data expected_len = Ok tt.
Proof.
  intros Hb He. apply ignore_safe. eapply wp_safe. by apply wp_decode_block.
Qed.

(** ** Witnesses *)

(** A file that changes under the reader: complete at first, then cut. *)
Definition shrinking_fs : bytes -> nat -> option FileState := fun _ t =>
  Some {| fc_content := if (t <? 7)%nat then sample_v2 else take 40 sample_v2; fc_modified := 0 |}.

Example exercise_witness :
  let opened_mdx := match @Core.open simple_env shrinking_fs (lit "x") Mdx fuzz_options 0 with
                    | Ok _ => true | _ => false end in
  @exercise_mdx simple_env shrinking_fs (lit "x") true 0 = Ok opened_mdx.
Proof.
  intros opened_mdx. refine (proj1 (@exercise_total simple_env simple_env_ok shrinking_fs (lit "x") true 0 _)).
  intros path t file [= <-]. simpl.
  destruct (t <? 7)%nat; (split; [apply bytes_ok_check; vm_compute; reflexivity|vm_compute; discriminate]).
Defined.

(** It opens: the accesses of [open] see the complete file. *)
Example shrinking_opens :
  match @Core.open simple_env shrinking_fs (lit "x") Mdx fuzz_options 0 with Ok _ => true | _ => false end = true.
Proof. vm_compute. reflexivity. Qed.
