(* ===== verification/FuzzTargets.v ===== *)
(** The fuzz targets: [fuzz/fuzz_targets].  Every target turns its input into
    mutations of a fixture, or into the file itself, runs a driver on the
    result, and asserts that an unmutated fixture opens.  The theorem says that
    a fuzzer can never find a crash: for every input each target returns, its
    assertion included. *)

From stdpp Require Import list_numbers.
From S2P Require Import Prelude Errors Types Options Budget Utf8 FileUrl Encoding Source Descriptors Header Normalize Format Core Dictionary Samples Slices Checksum FuzzSupport FuzzExercise.

Definition MAX_WHOLE_FILE_INPUT : Z := 1024 * 1024.

(** [assert!(condition, message)] *)
Definition assert_ (condition : bool) (message : string) : Result unit :=
  if condition then Ok tt else Panic message.

(** [a % n], which panics when [n] is zero. *)
Definition remainder (a n : Z) : Result Z :=
  if n =? 0 then Panic "attempt to calculate the remainder with a divisor of zero" else Ok (a mod n).

(** [data.first().copied().unwrap_or(0)] *)
Definition selector_of (data : bytes) : Z := default 0 (head data).

(** [data.get(1..).unwrap_or_default()] *)
Definition payload_of (data : bytes) : list Z := drop 1 data.

(** [blocks[usize::from(selector) % blocks.len()]] *)
Definition select_block (blocks : list Range) (selector : Z) : Result Range :=
  let? index := remainder selector (zlen blocks) in
  or_panic (get_at blocks index) "index out of bounds".

(** [if condition { corrupt_block_envelope(..) }] *)
Definition corrupt_if (condition : bool) (bytes : list Z) (range : Range) (data : list Z) : Result (list Z) :=
  if condition then corrupt_block_envelope bytes range data else Ok bytes.

(** [NEXT_TEMP_FILE] after [n] more files. *)
Definition next_serial (n serial : Z) : Z := (serial + n) mod 2 ^ 64.

(** [for kind in [Kind::Mdx, Kind::Mdd]]; a round writes [files] files. *)
Definition for_kinds (files serial : Z) (body : Z -> FuzzKind -> Result unit) : Result unit :=
  body serial KindMdx ;;? body (next_serial files serial) KindMdd.

Definition UNMODIFIED : string := "the unmodified structured fixture must open".

Section Targets.

Context `{Env} (system : TempSystem) (serial : Z) (data : list Z).

(** [compression_block.rs] *)
Definition compression_block_target : Result unit :=
  fold_left (fun r expected_len => r ;;? exercise_compressed_block data expected_len)
    [0; 1; 8; 32; 256; 4096] (Ok tt).

(** [header_bytes.rs] *)
Definition header_bytes_target : Result unit := exercise_header_bytes data.

(** [key_block.rs] *)
Definition key_block_target : Result unit :=
  for_kinds 1 serial (fun serial kind =>
    let? f := fixture kind in
    let selector := selector_of data in
    let? range := select_block (lay_key_blocks (fx_layout f)) selector in
    let? bytes := mutate_block_payload (fx_bytes f) range (payload_of data) in
    let? bytes := corrupt_if (Z.land selector 0x0f =? 0x0f) bytes range data in
    let? opened := exercise_bytes system serial kind "key-block" bytes false in
    if zlen data =? 0 then assert_ opened UNMODIFIED else Ok tt).

(** [key_index.rs] *)
Definition key_index_target : Result unit :=
  for_kinds 1 serial (fun serial kind =>
    let? f := fixture kind in
    let range := lay_key_index (fx_layout f) in
    let? bytes := mutate_block_payload (fx_bytes f) range data in
    let? bytes := corrupt_if (match head data with Some selector => Z.land selector 0x07 =? 0x07 | None => false end)
                    bytes range data in
    let? opened := exercise_bytes system serial kind "key-index" bytes false in
    if zlen data =? 0 then assert_ opened UNMODIFIED else Ok tt).

(** [record_index.rs] *)
Definition record_index_target : Result unit :=
  let? f := fixture KindMdd in
  let range := if Z.land (selector_of data) 1 =? 0 then lay_record_header (fx_layout f)
               else lay_record_index (fx_layout f) in
  let? bytes := mutate_region (fx_bytes f) range (payload_of data) in
  let? opened := exercise_bytes system serial KindMdd "record-index" bytes true in
  if zlen data =? 0 then assert_ opened UNMODIFIED else Ok tt.

(** [record_span.rs] *)
Definition record_span_target : Result unit :=
  let? f := fixture KindMdd in
  let? f := mutate_record_offsets f data in
  let selector := selector_of data in
  let? range := select_block (lay_record_blocks (fx_layout f)) selector in
  let? bytes := mutate_block_payload (fx_bytes f) range (payload_of data) in
  let? bytes := corrupt_if (Z.land selector 0x1f =? 0x1f) bytes range data in
  let? opened := exercise_bytes system serial KindMdd "record-span" bytes true in
  if zlen data =? 0 then assert_ opened UNMODIFIED else Ok tt.

(** [v1_truncation.rs] *)
Definition v1_truncation_target : Result unit :=
  for_kinds 1 serial (fun serial kind =>
    let? f := fixture_v1 kind in
    let total := zlen (fx_bytes f) in
    let keep :=
      if zlen data =? 0 then total
      else fold_left (fun acc byte => ((acc * 31) mod 2 ^ 64 + byte) mod 2 ^ 64) data 0 mod (total + 1) in
    let? bytes := or_panic (slice (fx_bytes f) 0 keep) "range end index out of range" in
    let? opened := exercise_bytes system serial kind "v1-truncation" bytes true in
    if keep =? total then assert_ opened "the untruncated version 1 fixture must open" else Ok tt).

(** The mutation that [v1_whole_file.rs] selects. *)
Definition v1_mutation (f : Fixture) (selector : Z) (payload : list Z) : Result (list Z) :=
  let lay := fx_layout f in
  let block blocks :=
    let? range := select_block blocks selector in
    let? bytes := mutate_block_payload (fx_bytes f) range payload in
    corrupt_if (negb (Z.land selector 0x40 =? 0)) bytes range payload in
  match selector mod 6 with
  | 0 => mutate_region (fx_bytes f) (lay_keyword_header lay) payload
  | 1 => mutate_region (fx_bytes f) (lay_key_index lay) payload
  | 2 => block (lay_key_blocks lay)
  | 3 => mutate_region (fx_bytes f) (lay_record_header lay) payload
  | 4 => mutate_region (fx_bytes f) (lay_record_index lay) payload
  | _ => block (lay_record_blocks lay)
  end.

(** [v1_whole_file.rs] *)
Definition v1_whole_file_target : Result unit :=
  for_kinds 1 serial (fun serial kind =>
    let? f := fixture_v1 kind in
    let? bytes := v1_mutation f (selector_of data) (payload_of data) in
    let? opened := exercise_bytes system serial kind "v1-whole-file" bytes true in
    if zlen data =? 0 then assert_ opened "the unmodified version 1 fixture must open" else Ok tt).

(** The body of [version_dispatch.rs]. *)
Definition version_dispatch_case (serial : Z) (kind : FuzzKind) (wire : Wire) : Result unit :=
  let? f := fixture_for wire kind in
  let? f := set_declared_major_version f (selector_of data mod 4) in
  let? bytes :=
    match data with
    | [] => Ok (fx_bytes f)
    | _ :: payload => mutate_region (fx_bytes f) (lay_keyword_header (fx_layout f)) payload
    end in
  let? _ := exercise_bytes system serial kind "version-dispatch" bytes true in
  Ok tt.

(** [version_dispatch.rs] *)
Definition version_dispatch_target : Result unit :=
  for_kinds 2 serial (fun serial kind =>
    version_dispatch_case serial kind WireV1 ;;? version_dispatch_case (next_serial 1 serial) kind WireV2).

(** [whole_file.rs] *)
Definition whole_file_target : Result unit :=
  let bounded := take (Z.to_nat (Z.min (zlen data) MAX_WHOLE_FILE_INPUT)) data in
  let? _ := exercise_bytes system serial KindMdx "whole-file-mdx" bounded false in
  let? _ := exercise_bytes system (next_serial 1 serial) KindMdd "whole-file-mdd" bounded false in
  Ok tt.

(** All targets. *)
Definition fuzz_targets : list (string * Result unit) :=
  [("compression_block", compression_block_target); ("header_bytes", header_bytes_target);
   ("key_block", key_block_target); ("key_index", key_index_target);
   ("record_index", record_index_target); ("record_span", record_span_target);
   ("v1_truncation", v1_truncation_target); ("v1_whole_file", v1_whole_file_target);
   ("version_dispatch", version_dispatch_target); ("whole_file", whole_file_target)]%string.

End Targets.

(** * The fixtures open *)

(** An environment whose allocator grants every request. *)
Definition granting (e : Env) : Env := {|
  allocator := fun _ _ => true;
  lzo_enabled := @lzo_enabled e;
  miniz_inflate := @miniz_inflate e;
  lzokay_decompress := @lzokay_decompress e;
  charset_max_len := @charset_max_len e;
  charset_decode := @charset_decode e;
  to_lowercase := @to_lowercase e;
|}.

Lemma granting_ok e : @EnvOk e -> @EnvOk (granting e).
Proof. intros []. split; done. Qed.

(** Temporary files can be written and have absolute paths. *)
Definition system_ok (system : TempSystem) : Prop :=
  ts_writable system = true /\ head (ts_directory system) = Some 47.

Lemma resolve_absolute path : head path = Some 47 -> resolve path = Ok path.
Proof.
  intros Hp. unfold resolve. destruct (utf8_decode path); [|done].
  destruct path as [|b path]; [done|]. injection Hp as ->. done.
Qed.

(** Whether the bytes of a file parse. *)
Definition parses `{Env} (kind : FuzzKind) (bytes : list Z) (modified : Z) : bool :=
  match fst (open_layout (constant_source bytes modified) (container_kind kind) fuzz_options
               {| w_budget := memory_budget_new (working_memory_bytes (limits fuzz_options)); w_clock := 1%nat |}) with
  | Ok _ => true
  | _ => false
  end.

(** Opening a temporary file is parsing its bytes. *)
Lemma opens_parses `{Env} system label serial kind bytes :
  system_ok system -> zlen bytes <> 0 ->
  opens system label serial kind bytes = parses kind bytes (ts_modified system).
Proof.
  intros [Hw Hd] Hz. unfold opens, temp_write. rewrite Hw.
  set (path := temp_path system label serial kind).
  assert (resolve path = Ok path) as Hr.
  { apply resolve_absolute. unfold path, temp_path. by destruct (ts_directory system). }
  set (file := {| fc_content := bytes; fc_modified := ts_modified system |}).
  assert (one_file path file path = fun _ => Some file) as Hfile.
  { unfold one_file. by rewrite (proj2 (bytes_eqb_true path path) eq_refl). }
  unfold Core.open, source_open, parses. rewrite Hr.
  unfold access, Errors.mbind, lift, mret, merr. rewrite Hfile.
  cbn [get_world set_world HasWorld_World w_clock w_budget fc_content].
  rewrite (proj2 (Z.eqb_neq _ 0)) by done. unfold constant_source.
  by destruct (open_layout _ _ _ _) as [[] ?].
Qed.

(** Mutating a block with no mutations changes nothing. *)
Definition unmutated (f : Fixture) (range : Range) : Prop :=
  mutate_block_payload (fx_bytes f) range [] = Ok (fx_bytes f).

Definition unmutated_check (f : Fixture) (range : Range) : bool :=
  match mutate_block_payload (fx_bytes f) range [] with Ok b => bytes_eqb b (fx_bytes f) | _ => false end.

(** The parts of a fixture that are blocks with an envelope. *)
Definition enveloped (wire : Wire) (f : Fixture) : list Range :=
  match wire with WireV1 => [] | WireV2 => [lay_key_index (fx_layout f)] end
    ++ lay_key_blocks (fx_layout f) ++ lay_record_blocks (fx_layout f).

(** A fixture is built, fits its layout, is what no mutation leaves, and
    opens. *)
Lemma fixture_facts e wire kind :
  exists f, fixture_for wire kind = Ok f /\ fixture_ok f /\ Forall (unmutated f) (enveloped wire f) /\
    forall modified, @parses (granting e) kind (fx_bytes f) modified = true.
Proof.
  destruct (fixture_for_ok wire kind) as (f & Ef & Hf). exists f. split; [done|]. split; [done|].
  assert (match fixture_for wire kind with Ok f => forallb (unmutated_check f) (enveloped wire f) | _ => false end = true)
    as Hc by (destruct wire, kind; vm_compute; reflexivity).
  assert (match fixture_for wire kind with
          | Ok f => forall modified, @parses (granting e) kind (fx_bytes f) modified = true | _ => False end)
    as Ho by (destruct wire, kind; vm_compute; done).
  rewrite Ef in Hc, Ho. split; [|done]. apply Forall_forall. intros r Hr%list_elem_of_In.
  rewrite forallb_forall in Hc. specialize (Hc r Hr). unfold unmutated, unmutated_check in *.
  destruct (mutate_block_payload _ _ _) as [b| | |]; try done. by apply bytes_eqb_true in Hc as ->.
Qed.

(** * Every target returns *)

Section Targets.

Context (e : Env) `{!@EnvOk e} (system : TempSystem) (Hsystem : system_ok system).

(** The last lines of a target: exercise the bytes, assert that they opened. *)
Lemma exercise_and_assert serial kind label bytes deep (must_open : bool) message :
  bytes_ok bytes -> zlen bytes <= u64_max ->
  (must_open = true -> zlen bytes <> 0 /\ @parses (granting e) kind bytes (ts_modified system) = true) ->
  (let? opened := @exercise_bytes (granting e) system serial kind label bytes deep in
   if must_open then assert_ opened message else Ok tt) = Ok tt.
Proof.
  intros Hb Hl Hopen. pose proof (granting_ok e _) as Hok. rewrite exercise_bytes_total by done. cbn [rbind].
  destruct must_open; [|done]. destruct (Hopen eq_refl) as [Hz Hp]. by rewrite opens_parses, Hp by done.
Qed.

(** A block of a fixture is mutated, and its envelope corrupted if wanted. *)
Lemma mutated_block wire f range payload corrupt data :
  fixture_ok f -> Forall (unmutated f) (enveloped wire f) -> In range (enveloped wire f) ->
  bytes_ok payload -> bytes_ok data ->
  exists mid out, mutate_block_payload (fx_bytes f) range payload = Ok mid /\
    corrupt_if corrupt mid range data = Ok out /\ bytes_ok out /\ zlen out = zlen (fx_bytes f) /\
    (payload = [] -> corrupt = false -> out = fx_bytes f).
Proof.
  intros (Hb & _ & Hr & _) Hu Hin Hp Hd.
  assert (range_inside range (fx_bytes f) /\ 8 < range_len range) as [Hi Hlen].
  { rewrite Forall_forall in Hr. apply Hr. apply list_elem_of_In. unfold enveloped in Hin.
    apply in_app_or in Hin as [Hin|Hin]; [|do 4 right; by apply Hin].
    destruct wire; [done|]. destruct Hin as [<-|[]]. right. by left. }
  destruct (mutate_block_payload_ok (fx_bytes f) range payload Hb Hp Hi Hlen) as (mid & Hm & Hmid & _).
  destruct (id Hmid) as (Hml & Hmo & _).
  assert (range_inside range mid) as Him by (by eapply range_inside_length).
  unfold corrupt_if. destruct corrupt.
  - destruct (corrupt_block_envelope_ok mid range data Hmo Hd Him) as (out & Ho & (Hol & Hoo & _)).
    exists mid, out. rewrite Hm. repeat split; [done..|lia|done].
  - exists mid, mid. rewrite Hm. split; [done|]. split; [done|]. split; [done|]. split; [done|].
    intros -> _. rewrite Forall_forall in Hu. specialize (Hu range (proj2 (list_elem_of_In _ _) Hin)).
    unfold unmutated in Hu. congruence.
Qed.

Lemma select_block_ok blocks selector :
  blocks <> [] -> exists range, select_block blocks selector = Ok range /\ In range blocks.
Proof.
  intros Hne. unfold select_block, remainder.
  assert (0 < zlen blocks) by (destruct blocks; simpl; [done|lia]).
  rewrite (proj2 (Z.eqb_neq _ 0)) by lia. cbn [rbind].
  destruct (get_at_is_Some blocks (selector mod zlen blocks)) as [r Hr]; [by apply Z.mod_pos_bound|].
  rewrite Hr. exists r. split; [done|]. by apply list_elem_of_In, (get_at_elem_of _ _ _ Hr).
Qed.

Lemma for_kinds_ok files serial body : (forall serial kind, body serial kind = Ok tt) -> for_kinds files serial body = Ok tt.
Proof. intros Hb. unfold for_kinds. by rewrite !Hb. Qed.

Lemma enveloped_key wire f r : In r (lay_key_blocks (fx_layout f)) -> In r (enveloped wire f).
Proof. intros Hr. apply in_or_app. right. apply in_or_app. by left. Qed.

Lemma enveloped_record wire f r : In r (lay_record_blocks (fx_layout f)) -> In r (enveloped wire f).
Proof. intros Hr. apply in_or_app. right. apply in_or_app. by right. Qed.

Lemma payload_ok data : bytes_ok data -> bytes_ok (payload_of data).
Proof. apply Forall_drop. Qed.

Lemma fixture_small f (out : list Z) : fixture_ok f -> zlen out = zlen (fx_bytes f) -> zlen out <= u64_max /\ zlen out <> 0.
Proof.
  intros (_ & Hl & _ & _ & _ & _ & (lb & Hs & _)) ->. apply slice_Some in Hs as [? _].
  unfold u64_max. lia.
Qed.

Lemma key_block_returns serial data : bytes_ok data -> @key_block_target (granting e) system serial data = Ok tt.
Proof.
  intros Hd. apply for_kinds_ok. clear serial. intros serial kind.
  destruct (fixture_facts e WireV2 kind) as (f & Ef & Hf & Hu & Hp). cbn [fixture_for] in Ef. rewrite Ef. cbn [rbind].
  destruct (id Hf) as (_ & _ & _ & Hk & _).
  destruct (select_block_ok (lay_key_blocks (fx_layout f)) (selector_of data) Hk) as (range & -> & Hin). cbn [rbind].
  destruct (mutated_block WireV2 f range (payload_of data) (Z.land (selector_of data) 0x0f =? 0x0f) data)
    as (mid & out & -> & Hout & Hb & Hl & Hsame);
    [done|done|by apply enveloped_key|by apply payload_ok|done|].
  cbn [rbind]. rewrite Hout. cbn [rbind]. destruct (fixture_small f out Hf Hl).
  apply exercise_and_assert; [done|done|]. intros Hz. split; [done|].
  destruct data; [|done]. by rewrite Hsame.
Qed.

Lemma key_index_returns serial data : bytes_ok data -> @key_index_target (granting e) system serial data = Ok tt.
Proof.
  intros Hd. apply for_kinds_ok. clear serial. intros serial kind.
  destruct (fixture_facts e WireV2 kind) as (f & Ef & Hf & Hu & Hp). cbn [fixture_for] in Ef. rewrite Ef. cbn [rbind].
  destruct (mutated_block WireV2 f (lay_key_index (fx_layout f)) data
    (match head data with Some selector => Z.land selector 0x07 =? 0x07 | None => false end) data)
    as (mid & out & -> & Hout & Hb & Hl & Hsame); [done|done|by left|done|done|].
  cbn [rbind]. rewrite Hout. cbn [rbind]. destruct (fixture_small f out Hf Hl).
  apply exercise_and_assert; [done|done|]. intros Hz. split; [done|].
  destruct data; [|done]. by rewrite Hsame.
Qed.

(** A part without an envelope is mutated in place. *)
Lemma mutated_region f range payload :
  fixture_ok f -> range_inside range (fx_bytes f) -> bytes_ok payload ->
  exists out, mutate_region (fx_bytes f) range payload = Ok out /\ bytes_ok out /\
    zlen out = zlen (fx_bytes f) /\ (payload = [] -> out = fx_bytes f).
Proof.
  intros Hf Hr Hp. destruct (id Hf) as (Hb & _).
  destruct (mutate_region_ok (fx_bytes f) range payload Hb Hp Hr) as (out & Ho & (Hl & Hok & _)).
  exists out. split; [done|]. split; [done|]. split; [done|]. intros ->.
  unfold mutate_region in Ho. destruct (range_is_empty range); by injection Ho as <-.
Qed.

Lemma part_inside f r :
  fixture_ok f ->
  In r [lay_keyword_header (fx_layout f); lay_key_index (fx_layout f); lay_record_header (fx_layout f);
        lay_record_index (fx_layout f)] -> range_inside r (fx_bytes f).
Proof.
  intros (_ & _ & Hr & _) Hin. rewrite Forall_forall in Hr. apply Hr, list_elem_of_In.
  destruct Hin as [<-|[<-|[<-|[<-|[]]]]]; simpl; tauto.
Qed.

Lemma record_index_returns serial data : bytes_ok data -> @record_index_target (granting e) system serial data = Ok tt.
Proof.
  intros Hd. unfold record_index_target.
  destruct (fixture_facts e WireV2 KindMdd) as (f & Ef & Hf & Hu & Hp). cbn [fixture_for] in Ef. rewrite Ef. cbn [rbind].
  destruct (mutated_region f (if Z.land (selector_of data) 1 =? 0 then lay_record_header (fx_layout f)
                              else lay_record_index (fx_layout f)) (payload_of data))
    as (out & -> & Hb & Hl & Hsame); [done| |by apply payload_ok|].
  { apply part_inside; [done|]. destruct (_ =? _); simpl; tauto. }
  cbn [rbind]. destruct (fixture_small f out Hf Hl). apply exercise_and_assert; [done|done|].
  intros Hz. split; [done|]. destruct data; [|done]. by rewrite Hsame.
Qed.

Lemma record_span_returns serial data : bytes_ok data -> @record_span_target (granting e) system serial data = Ok tt.
Proof.
  intros Hd. unfold record_span_target.
  destruct (fixture_facts e WireV2 KindMdd) as (f & Ef & Hf & Hu & Hp). cbn [fixture_for] in Ef. rewrite Ef. cbn [rbind].
  destruct (id Hf) as (Hbytes & Hsmall & Hregions & Hk & Hrb & Hoffsets & Hheader).
  destruct (mutate_record_offsets_ok f data Hbytes Hd Hoffsets) as (b1 & Hm1 & (Hl1 & Hb1 & _)).
  { apply Forall_forall. intros r Hr. rewrite Forall_forall in Hregions.
    destruct (Hregions r) as [? ?]; [|split; [done|lia]].
    apply list_elem_of_In. do 4 right. apply in_or_app. left. by apply list_elem_of_In. }
  rewrite Hm1. cbn [rbind fx_layout with_bytes fx_bytes].
  destruct (select_block_ok (lay_record_blocks (fx_layout f)) (selector_of data) Hrb) as (range & -> & Hin). cbn [rbind].
  set (f1 := with_bytes f b1).
  assert (range_inside range b1 /\ 8 < range_len range) as [Hi Hlen].
  { rewrite Forall_forall in Hregions. destruct (Hregions range) as [? ?].
    - apply list_elem_of_In. do 4 right. apply in_or_app. by right.
    - split; [by eapply range_inside_length|done]. }
  destruct (mutate_block_payload_ok b1 range (payload_of data)) as (mid & Hm & Hmid & _);
    [done|by apply payload_ok|done|done|].
  rewrite Hm. cbn [rbind]. destruct (id Hmid) as (Hml & Hmo & _).
  assert (exists out, corrupt_if (Z.land (selector_of data) 0x1f =? 0x1f) mid range data = Ok out /\ bytes_ok out /\
            zlen out = zlen (fx_bytes f) /\ (data = [] -> out = mid)) as (out & -> & Hb & Hl & Hsame).
  { unfold corrupt_if. destruct (Z.eqb_spec (Z.land (selector_of data) 0x1f) 0x1f) as [E|E].
    - destruct (corrupt_block_envelope_ok mid range data Hmo Hd) as (out & -> & (Hol & Hoo & _));
        [by eapply range_inside_length|]. exists out. repeat split; [done|lia|]. by intros ->.
    - exists mid. repeat split; [done|lia]. }
  cbn [rbind]. destruct (fixture_small f out Hf Hl). apply exercise_and_assert; [done|done|].
  intros Hz. split; [done|]. destruct data; [|done]. rewrite Hsame by done.
  assert (b1 = fx_bytes f) as ->.
  { assert (match fixture KindMdd with
            | Ok f => match mutate_record_offsets f [] with
                      | Ok f' => bytes_eqb (fx_bytes f') (fx_bytes f) | _ => false end
            | _ => false end = true) as Hn by (vm_compute; reflexivity).
    rewrite Ef, Hm1 in Hn. by apply bytes_eqb_true. }
  rewrite Forall_forall in Hu.
  assert (unmutated f range) as Hur by (apply Hu; apply list_elem_of_In; by apply enveloped_record).
  unfold unmutated in Hur. change (payload_of []) with (@nil Z) in Hm. rewrite Hur in Hm. by injection Hm as <-.
Qed.

(** A prefix of a fixture is exercised; the whole of it must open. *)
Lemma v1_truncation_returns serial data : bytes_ok data -> @v1_truncation_target (granting e) system serial data = Ok tt.
Proof.
  intros Hd. apply for_kinds_ok. clear serial. intros serial kind.
  destruct (fixture_facts e WireV1 kind) as (f & Ef & Hf & Hu & Hp). cbn [fixture_for] in Ef. rewrite Ef. cbn [rbind].
  destruct (id Hf) as (Hb & Hsmall & _).
  set (total := zlen (fx_bytes f)) in *.
  match goal with |- context [slice _ 0 ?k] => set (keep := k) end.
  assert (0 <= keep <= total) as Hk.
  { unfold keep. destruct (zlen data =? 0); [lia|].
    pose proof (Z.mod_pos_bound (fold_left (fun acc byte => ((acc * 31) mod 2 ^ 64 + byte) mod 2 ^ 64) data 0)
                  (total + 1) ltac:(lia)). lia. }
  destruct (slice_is_Some (fx_bytes f) 0 keep) as [out Hout]; [lia|lia|]. rewrite Hout. cbn [or_panic rbind].
  pose proof (slice_length _ _ _ _ Hout) as Hlen. pose proof (slice_Forall _ _ _ _ _ Hout Hb) as Hok.
  apply exercise_and_assert; [done|unfold u64_max; lia|]. intros Hz%Z.eqb_eq.
  apply slice_Some in Hout as [_ ->]. rewrite Z.sub_0_r, Hz. unfold total. rewrite Nat2Z.id.
  change (Z.to_nat 0) with 0%nat. rewrite drop_0, firstn_all. split; [|done].
  by destruct (fixture_small f (fx_bytes f) Hf eq_refl).
Qed.

Lemma v1_mutation_ok f selector payload :
  fixture_ok f -> Forall (unmutated f) (enveloped WireV1 f) -> bytes_ok payload ->
  exists out, v1_mutation f selector payload = Ok out /\ bytes_ok out /\ zlen out = zlen (fx_bytes f) /\
    (payload = [] -> selector = 0 -> out = fx_bytes f).
Proof.
  intros Hf Hu Hp.
  assert (forall r, In r [lay_keyword_header (fx_layout f); lay_key_index (fx_layout f);
                          lay_record_header (fx_layout f); lay_record_index (fx_layout f)] ->
    exists out, mutate_region (fx_bytes f) r payload = Ok out /\ bytes_ok out /\ zlen out = zlen (fx_bytes f) /\
      (payload = [] -> selector = 0 -> out = fx_bytes f)) as Hregion.
  { intros r Hr. destruct (mutated_region f r payload Hf (part_inside f r Hf Hr) Hp) as (out & Ho & Hb & Hl & Hs).
    exists out. repeat split; [done..|]. intros ? _. by apply Hs. }
  assert (forall blocks, blocks <> [] -> (forall r, In r blocks -> In r (enveloped WireV1 f)) ->
    exists out, (let? range := select_block blocks selector in
                 let? bytes := mutate_block_payload (fx_bytes f) range payload in
                 corrupt_if (negb (Z.land selector 0x40 =? 0)) bytes range payload) = Ok out /\
      bytes_ok out /\ zlen out = zlen (fx_bytes f) /\ (payload = [] -> selector = 0 -> out = fx_bytes f)) as Hblock.
  { intros blocks Hne Hin. destruct (select_block_ok blocks selector Hne) as (r & -> & Hr). cbn [rbind].
    destruct (mutated_block WireV1 f r payload (negb (Z.land selector 0x40 =? 0)) payload)
      as (mid & out & -> & Ho & Hb & Hl & Hs); [done|done|by apply Hin|done|done|].
    cbn [rbind]. exists out. repeat split; [done..|]. intros ? ->. by apply Hs. }
  destruct (id Hf) as (_ & _ & _ & Hk & Hrb & _). unfold v1_mutation.
  assert (0 <= selector mod 6 < 6) as Hsel by (by apply Z.mod_pos_bound).
  assert (selector mod 6 = 0 \/ selector mod 6 = 1 \/ selector mod 6 = 2 \/ selector mod 6 = 3 \/
          selector mod 6 = 4 \/ selector mod 6 = 5) as Hcases by lia.
  destruct Hcases as [->|[->|[->|[->|[->| ->]]]]];
    [apply Hregion; simpl; tauto|apply Hregion; simpl; tauto| |apply Hregion; simpl; tauto
    |apply Hregion; simpl; tauto|];
    apply Hblock; auto using enveloped_key, enveloped_record.
Qed.

Lemma v1_whole_file_returns serial data : bytes_ok data -> @v1_whole_file_target (granting e) system serial data = Ok tt.
Proof.
  intros Hd. apply for_kinds_ok. clear serial. intros serial kind.
  destruct (fixture_facts e WireV1 kind) as (f & Ef & Hf & Hu & Hp). cbn [fixture_for] in Ef. rewrite Ef. cbn [rbind].
  destruct (v1_mutation_ok f (selector_of data) (payload_of data) Hf Hu (payload_ok _ Hd))
    as (out & -> & Hb & Hl & Hsame).
  cbn [rbind]. destruct (fixture_small f out Hf Hl). apply exercise_and_assert; [done|done|].
  intros Hz. split; [done|]. destruct data; [|done]. by rewrite Hsame.
Qed.

Lemma version_dispatch_returns serial data : bytes_ok data -> @version_dispatch_target (granting e) system serial data = Ok tt.
Proof.
  intros Hd. pose proof (granting_ok e _) as Hok.
  assert (forall serial kind wire, @version_dispatch_case (granting e) system data serial kind wire = Ok tt) as Hcase.
  { clear serial. intros serial kind wire. unfold version_dispatch_case.
    destruct (fixture_facts e wire kind) as (f & Ef & Hf & _). rewrite Ef. cbn [rbind].
    destruct (id Hf) as (Hb & Hsmall & Hregions & _ & _ & _ & (lb & Hlb & Hfit)).
    pose proof (Z.mod_pos_bound (selector_of data) 4 ltac:(lia)).
    destruct (set_declared_major_version_ok f lb (selector_of data mod 4)) as (mid & -> & Hl & Ho);
      [done|done|done|lia|unfold u8_max; lia|]. cbn [rbind with_bytes fx_bytes fx_layout].
    assert (exists out, match data with
      | [] => Ok mid
      | _ :: payload => mutate_region mid (lay_keyword_header (fx_layout f)) payload
      end = Ok out /\ bytes_ok out /\ zlen out = zlen (fx_bytes f)) as (out & -> & Hbo & Hlo).
    { destruct data as [|b payload]; [by exists mid|]. apply Forall_cons in Hd as [_ Hd].
      destruct (mutate_region_ok mid (lay_keyword_header (fx_layout f)) payload) as (out & Hm & (? & ? & _));
        [done|done|eapply range_inside_length; [exact Hl|]; apply part_inside; [done|by left]|].
      exists out. repeat split; [done..|lia]. }
    cbn [rbind]. destruct (fixture_small f out Hf Hlo). by rewrite exercise_bytes_total. }
  apply for_kinds_ok. intros ? ?. by rewrite !Hcase.
Qed.

Lemma whole_file_returns serial data : bytes_ok data -> @whole_file_target (granting e) system serial data = Ok tt.
Proof.
  intros Hd. pose proof (granting_ok e _) as Hok. unfold whole_file_target.
  set (bounded := take _ data).
  assert (bytes_ok bounded) by (by apply Forall_take).
  assert (zlen bounded <= u64_max) by (unfold bounded; rewrite length_take; unfold MAX_WHOLE_FILE_INPUT, u64_max; lia).
  by rewrite !exercise_bytes_total.
Qed.

Lemma compression_block_returns data : bytes_ok data -> @compression_block_target (granting e) data = Ok tt.
Proof.
  intros Hd. pose proof (granting_ok e _) as Hok. unfold compression_block_target. cbn [fold_left].
  by rewrite !exercise_compressed_block_total.
Qed.

End Targets.

(** * Properties *)

(** C33: no input crashes a fuzz target: whatever bytes the fuzzer
    supplies, every target builds its fixture, mutates it inside its bounds,
    exercises the result and returns; the assertions that an unmutated (or
    untruncated) fixture opens hold.  The temporary directory is writable and
    allocations succeed, which the assertions need. *)
Theorem fuzz_targets_return (e : Env) system serial data :
  @EnvOk e -> system_ok system -> bytes_ok data ->
  Forall (fun target => snd target = Ok tt) (@fuzz_targets (granting e) system serial data).
Proof.
  intros He Hs Hd. repeat constructor; cbn [snd].
  - by apply compression_block_returns.
  - exact (@exercise_header_bytes_total (granting e) (granting_ok e He) data Hd).
  - by apply key_block_returns.
  - by apply key_index_returns.
  - by apply record_index_returns.
  - by apply record_span_returns.
  - by apply v1_truncation_returns.
  - by apply v1_whole_file_returns.
  - by apply version_dispatch_returns.
  - by apply whole_file_returns.
Qed.

(** The declared version decides the grammar: a fixture whose header is
    rewritten to declare version [major] opens exactly when its body is written
    in that version; no path retries the other grammar. *)
Theorem declared_version_decides e wire kind major modified :
  In major [0; 1; 2; 3] ->
  match (let? f := fixture_for wire kind in set_declared_major_version f major) with
  | Ok f => @parses (granting e) kind (fx_bytes f) modified = (major =? match wire with WireV1 => 1 | WireV2 => 2 end)
  | _ => False
  end.
Proof.
  intros Hm. simpl in Hm. destruct Hm as [<-|[<-|[<-|[<-|[]]]]]; destruct wire, kind; vm_compute; done.
Qed.

(** The rows and the record stream of a fixture, read with the parser. *)
Definition fixture_contents `{Env} (wire : Wire) (kind : FuzzKind) : Result (list (text * Z) * bytes) :=
  let? f := fixture_for wire kind in
  let source := constant_source (fx_bytes f) 0 in
  let? layout := fst (open_layout source (container_kind kind) fuzz_options
                        {| w_budget := memory_budget_new (working_memory_bytes (limits fuzz_options)); w_clock := 0%nat |}) in
  let dictionary := {| mf_kind := container_kind kind; mf_source := source; mf_layout := layout;
                       mf_normalizer := from_header (vl_header layout) (container_kind kind);
                       mf_limits := limits fuzz_options; mf_checksum_policy := Verify |} in
  let? rows := all_rows dictionary (fx_bytes f) in
  let? stream := record_stream dictionary (fx_bytes f) in
  Ok (map (fun r => (row_key r, record_start r)) rows, stream).

(** Both wire versions of a fixture hold the same dictionary: the keys with
    the starts of their records, and the records. *)
Theorem fixtures_agree e wire kind :
  @fixture_contents (granting e) wire kind =
  Ok (zip (fixture_keys kind) (record_starts 0 fixture_records), concat fixture_records).
Proof. destruct wire, kind; vm_compute; reflexivity. Qed.

Example fuzz_targets_witness :
  let system := {| ts_directory := lit "/tmp"; ts_process_id := 7; ts_writable := true; ts_modified := 0 |} in
  Forall (fun target => snd target = Ok tt) (@fuzz_targets (granting simple_env) system 0 [255; 0; 9; 77]).
Proof.
  intros system. apply (fuzz_targets_return simple_env system 0 [255; 0; 9; 77]).
  - exact simple_env_ok.
  - by split.
  - apply bytes_ok_check. vm_compute. reflexivity.
Defined.
