(* ===== verification/AuditSupport.v ===== *)
(** What the audit tools of [examples] share: the map from keys to ordinals,
    the destinations that hash what is streamed into them, and the list of a
    match set. *)

From stdpp Require Import list_numbers sorting.
From S2P Require Import Prelude Errors Types Budget Logic Utf8 Encoding Source Crypto Descriptors Header KeySection Format Normalize Samples LocatorIndex Arcs Core Dictionary SampleDictionary Keys Records Iter Locator Locate Lookup Mdx Mdd Flow Sha256 ToolText.

(** * The code *)

(** [BTreeMap<String, Vec<u64>>]: the keys in their order, with the ordinals. *)
Definition BTree : Type := list (text * list Z).

(** [map.entry(key).or_default().push(ordinal)] *)
Fixpoint btree_push (m : BTree) (key : text) (ordinal : Z) : BTree :=
  match m with
  | [] => [(key, [ordinal])]
  | (k, ordinals) :: m' =>
      match bytes_cmp key k with
      | Lt => (key, [ordinal]) :: m
      | Eq => (k, ordinals ++ [ordinal]) :: m'
      | Gt => (k, ordinals) :: btree_push m' key ordinal
      end
  end.

(** [a += b] on [u64] *)
Definition add_assign (a b : Z) : Result Z := or_panic (checked_add a b) "attempt to add with overflow".

(** [write_all] of [StreamHash] and [DigestWriter]: [write] takes everything,
    so it is called at most once. *)
Definition hash_write_all (hash : Sha256) (buffer : bytes) : Result Sha256 :=
  match buffer with
  | [] => Ok hash
  | _ => sha_update hash buffer
  end.

(** [(0..matches.len()).filter_map(|index| matches.get(index)).collect()] *)
Definition located_list (k : LocatedKeys) : list Z :=
  omap (located_ordinal_at k) (seqZ 0 (located_len k)).

(** [digest_bytes] and [digest_key] of [corpus_audit.rs] and [bench_local.rs] *)
Definition digest_bytes (digest : Sha256) (bytes : bytes) : Result Sha256 :=
  let? digest := sha_update digest (be_split 8 (zlen bytes)) in
  sha_update digest bytes.

Definition digest_key (digest : Sha256) (key : KeyEntry) : Result Sha256 :=
  let? digest := sha_update digest (be_split 8 (ke_ordinal key)) in
  let? digest := sha_update digest (be_split 8 (zlen (ke_key key))) in
  sha_update digest (ke_key key).

(** * Specification *)

Section Contents.

Context `{Env} (f : MdictFile) (rows : list DecodedKeyRow) (stream : bytes).

(** The keys of the file. *)
Definition row_keys : list text := map row_key rows.

(** The entries and the resources of the file that decode. *)
Definition entry_list (ordinals : list Z) : list MdxEntry :=
  omap (fun o => match entry_of f rows stream o with Some (Ok e) => Some e | _ => None end) ordinals.

Definition resource_list (ordinals : list Z) : list MddResource :=
  omap (resource_of f rows stream) ordinals.

Definition all_ordinals : list Z := seqZ 0 (mdict_len f).

End Contents.

(** What the digests take in. *)
Definition bytes_row (bytes : bytes) : list Z := be_split 8 (zlen bytes) ++ bytes.

Definition key_row_bytes (key : KeyEntry) : bytes := be_split 8 (ke_ordinal key) ++ bytes_row (ke_key key).

(** The key rows of the first ordinals. *)
Definition row_entries (rows : list DecodedKeyRow) (ordinals : list Z) : list KeyEntry :=
  omap (fun o => row_entry o <$> get_at rows o) ordinals.

(** What the payload digests cover. *)
Definition entry_bytes (e : MdxEntry) : bytes := key_row_bytes (me_key e) ++ bytes_row (me_text e).

Definition resource_bytes (r : MddResource) : bytes := key_row_bytes (mr_key r) ++ bytes_row (mr_bytes r).

(** [m] groups the rows of [keys] by their key. *)
Definition groups_ok (keys : list text) (m : BTree) : Prop :=
  StronglySorted (fun a b => bytes_cmp (fst a) (fst b) = Lt) m /\
  forall k ordinals, (k, ordinals) ∈ m <-> k ∈ keys /\ ordinals = raw_matching keys k.

(** The keys that occur more than once. *)
Definition duplicated (keys : list text) : list text :=
  List.filter (fun k => 1 <? zlen (raw_matching keys k)) (remove_dups keys).

(** * Lemmas *)

(** ** Hashes *)

Lemma returns_update message s more :
  hashes message s -> returns (sha_update s more) (hashes (message ++ more)).
Proof. intros Hs. by destruct (sha_update_correct message s more Hs) as (s' & -> & Hs'). Qed.

Lemma hash_write_all_correct message s more :
  hashes message s -> returns (hash_write_all s more) (hashes (message ++ more)).
Proof. intros Hs. destruct more as [|b more]; [by rewrite app_nil_r|]. by apply returns_update. Qed.

Lemma returns_finish message s (Q : bytes -> Prop) : hashes message s -> Q (sha256 message) -> returns (sha_finish s) Q.
Proof. intros Hs HQ. by rewrite (sha_finish_correct message). Qed.

Lemma digest_bytes_correct message s bytes :
  hashes message s -> returns (digest_bytes s bytes) (hashes (message ++ bytes_row bytes)).
Proof.
  intros Hs. unfold digest_bytes, bytes_row. rewrite app_assoc.
  destruct (sha_update_correct message s (be_split 8 (zlen bytes)) Hs) as (s1 & -> & Hs1). cbn [rbind].
  by apply returns_update.
Qed.

Lemma digest_key_correct message s key :
  hashes message s -> returns (digest_key s key) (hashes (message ++ key_row_bytes key)).
Proof.
  intros Hs. unfold digest_key, key_row_bytes. rewrite app_assoc.
  destruct (sha_update_correct message s (be_split 8 (ke_ordinal key)) Hs) as (s1 & -> & Hs1). cbn [rbind].
  by apply digest_bytes_correct.
Qed.

(** Streaming into a hash never fails and hashes the stream, whatever the state
    of the hash is when no chunk is written. *)
Lemma write_chunks_hash message s chunks :
  hashes message s ->
  exists s', write_chunks hash_write_all s chunks = Ok s' /\ hashes (message ++ concat chunks) s'.
Proof.
  revert message s; induction chunks as [|chunk chunks IH]; intros message s Hs; cbn [write_chunks concat].
  - exists s. by rewrite app_nil_r.
  - pose proof (hash_write_all_correct message s chunk Hs) as Hw.
    destruct (hash_write_all s chunk) as [s1| | |]; try done. cbn [rbind]. rewrite app_assoc. by apply IH.
Qed.

(** ** The map *)

Fixpoint btree_get (m : BTree) (key : text) : list Z :=
  match m with
  | [] => []
  | (k, ordinals) :: m => if decide (k = key) then ordinals else btree_get m key
  end.

Definition key_lt (a b : text * list Z) : Prop := bytes_cmp (fst a) (fst b) = Lt.

Lemma key_lt_irrefl k a b : ~ key_lt (k, a) (k, b).
Proof. unfold key_lt. simpl. by rewrite bytes_cmp_refl. Qed.

Lemma btree_get_elem m key ordinals :
  StronglySorted key_lt m -> (key, ordinals) ∈ m -> btree_get m key = ordinals.
Proof.
  induction 1 as [|[k os] m Hm IH Hlt]; intros Hin; [by apply not_elem_of_nil in Hin|]. simpl.
  apply elem_of_cons in Hin as [[= -> ->]|Hin]; [by rewrite decide_True|].
  rewrite decide_False; [by apply IH|]. intros ->.
  rewrite Forall_forall in Hlt. by apply Hlt, key_lt_irrefl in Hin.
Qed.

Lemma btree_get_none m key : (forall ordinals, (key, ordinals) ∉ m) -> btree_get m key = [].
Proof.
  induction m as [|[k os] m IH]; intros Hn; [done|]. simpl. rewrite decide_False.
  - apply IH. intros ordinals Hin. apply (Hn ordinals). by apply list_elem_of_further.
  - intros ->. apply (Hn os). by apply list_elem_of_here.
Qed.

Lemma btree_push_elem m key ordinal k ordinals :
  StronglySorted key_lt m ->
  (k, ordinals) ∈ btree_push m key ordinal <->
  if decide (k = key) then ordinals = btree_get m key ++ [ordinal] else (k, ordinals) ∈ m.
Proof.
  induction 1 as [|[k' os] m Hm IH Hlt]; cbn [btree_push btree_get].
  { rewrite list_elem_of_singleton. destruct (decide (k = key)) as [->|Hk].
    - split; [by intros [= ->]|by intros ->].
    - split; [by intros [= -> _]|]. intros Hin. by apply not_elem_of_nil in Hin. }
  destruct (bytes_cmp key k') eqn:E.
  - apply bytes_cmp_eq in E as <-. destruct (decide (k = key)) as [->|Hk]; rewrite !elem_of_cons.
    + rewrite decide_True by done. split; [|by intros ->; left]. intros [[= ->]|Hin]; [done|].
      rewrite Forall_forall in Hlt. by apply Hlt, key_lt_irrefl in Hin.
    + split; (intros [[= ? ?]|?]; [congruence|by right]).
  - assert (key <> k') by (intros ->; by rewrite bytes_cmp_refl in E).
    rewrite (decide_False (P:=k' = key)) by done.
    assert (forall os', (key, os') ∉ m) as Hn.
    { intros os' Hin. rewrite Forall_forall in Hlt. specialize (Hlt _ Hin). unfold key_lt in Hlt. simpl in Hlt.
      pose proof (bytes_cmp_lt_trans _ _ _ E Hlt) as E'. by rewrite bytes_cmp_refl in E'. }
    rewrite (btree_get_none m key Hn). destruct (decide (k = key)) as [->|Hk]; rewrite !elem_of_cons.
    + split; [|by intros ->; left]. intros [[= ->]|[[= ? ?]|Hin]]; [done|done|]. by apply Hn in Hin.
    + split; [|by right]. by intros [[= ? ?]|?].
  - assert (key <> k') by (intros ->; by rewrite bytes_cmp_refl in E).
    rewrite (decide_False (P:=k' = key)) by done.
    destruct (decide (k = key)) as [->|Hk]; rewrite !elem_of_cons, IH; [|done].
    split; [|by right]. by intros [[= ? ?]|?].
Qed.

Lemma btree_push_sorted m key ordinal :
  StronglySorted key_lt m -> StronglySorted key_lt (btree_push m key ordinal).
Proof.
  induction 1 as [|[k os] m Hm IH Hlt]; cbn [btree_push]; [by repeat constructor|].
  destruct (bytes_cmp key k) eqn:E.
  - constructor; [done|]. apply bytes_cmp_eq in E as <-. exact Hlt.
  - constructor; [by constructor|]. constructor; [done|]. eapply Forall_impl; [exact Hlt|].
    intros [k' os'] Hk. unfold key_lt in *. simpl in *. by eapply bytes_cmp_lt_trans.
  - constructor; [done|]. apply Forall_forall. intros [k' os'] Hin.
    apply btree_push_elem in Hin; [|done]. destruct (decide (k' = key)) as [->|Hk].
    + unfold key_lt. simpl. by rewrite bytes_cmp_antisym, E.
    + rewrite Forall_forall in Hlt. by apply Hlt.
Qed.

Lemma get_at_snoc {A} (l : list A) x i :
  get_at (l ++ [x]) i = if i =? zlen l then Some x else get_at l i.
Proof.
  unfold get_at. destruct (Z.eqb_spec i (zlen l)) as [->|Hi].
  - rewrite (proj2 (Z.leb_le 0 _)) by lia. rewrite Nat2Z.id, lookup_app_r by lia. by rewrite Nat.sub_diag.
  - destruct (Z.leb_spec 0 i); [|done]. destruct (decide (Z.to_nat i < length l)%nat).
    + by rewrite lookup_app_l.
    + rewrite lookup_app_r by lia. rewrite (lookup_ge_None_2 l) by lia. apply lookup_ge_None. simpl. lia.
Qed.

Lemma seqZ_one k : seqZ k 1 = [k].
Proof. unfold seqZ. simpl. f_equal. Qed.

Lemma raw_matching_snoc keys key k :
  raw_matching (keys ++ [key]) k = raw_matching keys k ++ if decide (k = key) then [zlen keys] else [].
Proof.
  unfold raw_matching. rewrite length_app. simpl. replace (Z.of_nat (length keys + 1)) with (zlen keys + 1) by lia.
  rewrite seqZ_app by lia. rewrite List.filter_app. f_equal.
  - apply List.filter_ext_in. intros o Ho%list_elem_of_In%elem_of_seqZ.
    rewrite get_at_snoc. by rewrite (proj2 (Z.eqb_neq _ _)) by lia.
  - rewrite Z.add_0_l, seqZ_one. cbn [List.filter]. rewrite get_at_snoc, Z.eqb_refl. simpl. destruct (decide (k = key)) as [->|Hk].
    + by rewrite (proj2 (bytes_eqb_true key key) eq_refl).
    + destruct (bytes_eqb key k) eqn:E; [|done]. apply bytes_eqb_true in E. congruence.
Qed.

Lemma raw_matching_none keys k : k ∉ keys -> raw_matching keys k = [].
Proof.
  intros Hk. induction keys as [|key keys IH] using rev_ind; [done|]. rewrite raw_matching_snoc.
  rewrite decide_False, app_nil_r.
  - apply IH. intros Hin. apply Hk, elem_of_app. by left.
  - intros ->. apply Hk, elem_of_app. right. by apply list_elem_of_singleton.
Qed.

Lemma raw_matching_ne keys k : k ∈ keys -> raw_matching keys k <> [].
Proof.
  induction keys as [|key keys IH] using rev_ind; intros Hin; [by apply not_elem_of_nil in Hin|].
  rewrite raw_matching_snoc. apply elem_of_app in Hin as [Hin|Hin%list_elem_of_singleton].
  - specialize (IH Hin). by destruct (raw_matching keys k).
  - subst. rewrite decide_True by done. by destruct (raw_matching keys key).
Qed.

Lemma raw_matching_elem keys k o :
  o ∈ raw_matching keys k <-> get_at keys o = Some k.
Proof.
  unfold raw_matching. rewrite list_elem_of_In, filter_In, <- list_elem_of_In, elem_of_seqZ. split.
  - intros [Ho E%bytes_eqb_true]. destruct (get_at_is_Some keys o) as [k' Hk]; [lia|]. rewrite Hk in *. by subst.
  - intros E. rewrite E. apply get_at_Some in E as ?. split; [lia|]. by apply bytes_eqb_true.
Qed.

Lemma raw_matching_elem_head keys k o : head (raw_matching keys k) = Some o -> 0 <= o.
Proof.
  intros Ho. assert (o ∈ raw_matching keys k) as Hin by (destruct (raw_matching keys k); [done|]; injection Ho as <-; by left).
  apply raw_matching_elem, get_at_Some in Hin. lia.
Qed.

Lemma seqZ_lt_sorted a m : StronglySorted Z.lt (seqZ a m).
Proof.
  destruct (Z.lt_ge_cases m 0) as [?|Hm]; [rewrite seqZ_nil by lia; constructor|].
  revert a. pattern m. apply natlike_ind; [constructor| |done].
  intros n Hn IH a. rewrite seqZ_cons by lia. constructor; [by replace (Z.pred (Z.succ n)) with n by lia|].
  apply Forall_forall. intros x Hx%elem_of_seqZ. lia.
Qed.

Lemma raw_matching_sorted keys k : StronglySorted Z.lt (raw_matching keys k).
Proof. apply filter_sorted, seqZ_lt_sorted. Qed.

(** Elements of a strictly ascending list. *)
Lemma sorted_get_at (l : list Z) i j a b :
  StronglySorted Z.lt l -> get_at l i = Some a -> get_at l j = Some b -> i < j -> a < b.
Proof.
  intros Hl Ha Hb Hij. apply get_at_lookup in Ha as [Ha ?]. apply get_at_lookup in Hb as [Hb ?].
  rewrite <- (take_drop (Z.to_nat j) l) in Hl.
  apply (StronglySorted_app_1_elem_of _ _ _ _ _ Hl).
  - apply (list_elem_of_lookup_2 _ (Z.to_nat i)). rewrite lookup_take_lt by lia. done.
  - apply (list_elem_of_lookup_2 _ 0%nat). rewrite lookup_drop. by rewrite Nat.add_0_r.
Qed.

Lemma groups_ok_nil : groups_ok [] [].
Proof. split; [constructor|]. intros k ordinals. split; [intros Hin|intros [Hin _]]; by apply not_elem_of_nil in Hin. Qed.

Lemma groups_ok_get keys m key : groups_ok keys m -> btree_get m key = raw_matching keys key.
Proof.
  intros [Hs Hm]. destruct (decide (key ∈ keys)) as [Hin|Hn].
  - apply btree_get_elem; [done|]. by apply Hm.
  - rewrite raw_matching_none by done. apply btree_get_none. intros ordinals Hin. by apply Hm in Hin as [? _].
Qed.

Lemma groups_ok_push keys m key :
  groups_ok keys m -> groups_ok (keys ++ [key]) (btree_push m key (zlen keys)).
Proof.
  intros Hg. destruct (id Hg) as [Hs Hm]. split; [by apply btree_push_sorted|].
  intros k ordinals. rewrite btree_push_elem by done. rewrite elem_of_app, list_elem_of_singleton, raw_matching_snoc.
  destruct (decide (k = key)) as [->|Hk].
  - rewrite (groups_ok_get keys m key Hg). naive_solver.
  - rewrite Hm, app_nil_r. naive_solver.
Qed.

Lemma groups_ok_keys keys m : groups_ok keys m -> map fst m ≡ₚ remove_dups keys.
Proof.
  intros [Hs Hm]. apply NoDup_Permutation.
  - clear Hm. induction Hs as [|[k os] m Hm IH Hlt]; simpl; [constructor|]. constructor; [|done].
    intros Hin. apply list_elem_of_In, in_map_iff in Hin as ([k' os'] & <- & Hin%list_elem_of_In).
    rewrite Forall_forall in Hlt. by apply Hlt, key_lt_irrefl in Hin.
  - apply NoDup_remove_dups.
  - intros k. rewrite elem_of_remove_dups. split.
    + intros Hin%list_elem_of_In%in_map_iff. destruct Hin as ([k' os] & <- & Hin%list_elem_of_In).
      by apply Hm in Hin as [? _].
    + intros Hk. apply list_elem_of_In, in_map_iff. exists (k, raw_matching keys k). split; [done|].
      apply list_elem_of_In. by apply Hm.
Qed.

Lemma remove_dups_length (l : list text) : (length (remove_dups l) <= length l)%nat.
Proof. induction l as [|k l IH]; simpl; [done|]. destruct (decide_rel _ _ _); simpl; lia. Qed.

Lemma groups_ok_length keys m : groups_ok keys m -> zlen m = zlen (remove_dups keys).
Proof. intros Hg%groups_ok_keys%Permutation_length. rewrite length_map in Hg. lia. Qed.

(** Every row is in exactly one group. *)
Lemma btree_push_total m key ordinal :
  sum_list_with (fun g => length (snd g)) (btree_push m key ordinal) =
  S (sum_list_with (fun g => length (snd g)) m).
Proof.
  induction m as [|[k os] m IH]; [done|]. cbn [btree_push]. destruct (bytes_cmp key k); simpl.
  - rewrite length_app. simpl. lia.
  - lia.
  - rewrite IH. lia.
Qed.

(** The groups of more than one row are the duplicated keys. *)
Lemma groups_ok_duplicated keys m :
  groups_ok keys m ->
  zlen (List.filter (fun g => 1 <? zlen (snd g)) m) = zlen (duplicated keys).
Proof.
  intros Hg. unfold duplicated.
  assert (forall l : list text, length (List.filter (fun k => 1 <? zlen (raw_matching keys k)) l) =
    sum_list_with (fun k => if 1 <? zlen (raw_matching keys k) then 1%nat else 0%nat) l) as Hl.
  { induction l as [|k l IH]; simpl; [done|]. destruct (1 <? _); simpl; lia. }
  rewrite Hl, <- (groups_ok_keys keys m Hg). destruct Hg as [_ Hm]. f_equal.
  assert (Forall (fun g => snd g = raw_matching keys (fst g)) m) as Hf.
  { apply Forall_forall. intros [k os] Hin. by apply Hm in Hin as [_ ->]. }
  clear -Hf. induction Hf as [|[k os] m E _ IH]; [done|]. simpl in *. subst os.
  destruct (1 <? _); simpl; lia.
Qed.

(** ** Match sets *)

Lemma omap_seq_ext {A} (g h : Z -> option A) start len :
  (forall i, start <= i < start + len -> g i = h i) -> omap g (seqZ start len) = omap h (seqZ start len).
Proof.
  intros Hgh. assert (Forall (fun i => g i = h i) (seqZ start len)) as Hf.
  { apply Forall_forall. intros i Hi%elem_of_seqZ. by apply Hgh. }
  induction Hf as [|i l E _ IH]; [done|]. csimpl. by rewrite E, IH.
Qed.

Lemma located_list_denotes k ordinals : denotes k ordinals -> located_list k = ordinals.
Proof.
  intros [Hlen Hat]. unfold located_list. rewrite Hlen.
  enough (omap (located_ordinal_at k) (seqZ 0 (zlen ordinals)) = omap (get_at ordinals) (seqZ 0 (zlen ordinals))) as ->.
  - clear. induction ordinals as [|o ordinals IH] using rev_ind; [done|].
    rewrite length_app. simpl. replace (Z.of_nat (length ordinals + 1)) with (zlen ordinals + 1) by lia.
    rewrite seqZ_app by lia. rewrite omap_app. f_equal.
    + etransitivity; [|exact IH]. apply omap_seq_ext. intros i Hi. rewrite get_at_snoc.
      by rewrite (proj2 (Z.eqb_neq _ _)) by lia.
    + rewrite Z.add_0_l, seqZ_one. csimpl. by rewrite get_at_snoc, Z.eqb_refl.
  - apply omap_seq_ext. intros i Hi. apply Hat. lia.
Qed.

(** ** Lists by ordinal *)

Lemma returns_add a b (Q : Z -> Prop) : a + b <= u64_max -> Q (a + b) -> returns (add_assign a b) Q.
Proof. intros ? ?. unfold add_assign, checked_add. by rewrite (proj2 (Z.leb_le _ _)) by lia. Qed.

Lemma omap_seq_snoc {A} (g : Z -> option A) n a :
  0 <= n -> g n = Some a -> omap g (seqZ 0 (n + 1)) = omap g (seqZ 0 n) ++ [a].
Proof.
  intros Hn Hg. rewrite seqZ_app, omap_app, Z.add_0_l, seqZ_one by lia. csimpl. by rewrite Hg.
Qed.

(** The first [n] items are a prefix of all of them. *)
Lemma omap_seq_prefix {A} (g : Z -> option A) n total :
  0 <= n <= total -> exists rest, omap g (seqZ 0 total) = omap g (seqZ 0 n) ++ rest.
Proof.
  intros Hn. replace total with (n + (total - n)) by lia. rewrite seqZ_app, omap_app by lia. by eexists.
Qed.

Lemma take_snoc {A} (l : list A) n x : 0 <= n -> get_at l n = Some x ->
  take (Z.to_nat (n + 1)) l = take (Z.to_nat n) l ++ [x].
Proof.
  intros Hn Hx. unfold get_at in Hx. rewrite (proj2 (Z.leb_le 0 n)) in Hx by lia.
  replace (Z.to_nat (n + 1)) with (S (Z.to_nat n)) by lia. by apply take_S_r.
Qed.

Lemma get_at_row_keys rows n row : get_at rows n = Some row -> get_at (row_keys rows) n = Some (row_key row).
Proof. unfold row_keys, get_at. destruct (0 <=? n); [|done]. intros H. by rewrite list_lookup_fmap, H. Qed.

Lemma seqZ_split n before index after :
  seqZ 0 n = before ++ index :: after -> index = zlen before /\ 0 <= index < n.
Proof.
  intros E. assert (seqZ 0 n !! length before = Some index) as Hl by (rewrite E; by apply list_lookup_middle).
  apply lookup_seqZ in Hl. lia.
Qed.

Lemma row_entries_snoc rows pos row :
  0 <= pos -> get_at rows pos = Some row ->
  concat (map key_row_bytes (row_entries rows (seqZ 0 (pos + 1)))) =
  concat (map key_row_bytes (row_entries rows (seqZ 0 pos))) ++ key_row_bytes (row_entry pos row).
Proof.
  intros Hpos Hrow. unfold row_entries. rewrite (omap_seq_snoc _ pos (row_entry pos row)) by (done || by rewrite Hrow).
  rewrite map_app, concat_app. cbn [map concat]. by rewrite app_nil_r.
Qed.

(** ** A file that decodes *)

Section Rows.

Context `{EnvOk} (f : MdictFile) (Hf : file_ok f).

Context (content : bytes) (modified : Z) (rows : list DecodedKeyRow) (stream : bytes).

Context (Hst : stable (mf_source f) content modified) (Hrows : all_rows f content = Ok rows).

Context (Hstream : record_stream f content = Ok stream).

#[local] Notation keys := (row_keys rows).

#[local] Notation total := (vl_total_decoded_record_len (mf_layout f)).

Lemma rows_len : zlen rows = mdict_len f.
Proof. apply (all_rows_spec f Hf content modified Hst rows Hrows). Qed.

Lemma keys_len : zlen keys = mdict_len f.
Proof. unfold row_keys. rewrite length_map. apply rows_len. Qed.

Lemma mdict_len_range : 0 <= mdict_len f <= u64_max.
Proof. destruct Hf as (_ & _ & Hl & _). by apply layout_key_blocks in Hl as (_ & ? & _). Qed.

(** What a lookup of a key of the file finds. *)
Lemma locate_spec_key key :
  key ∈ keys -> locate_spec (mf_normalizer f) keys key = Some (RawExact, raw_matching keys key).
Proof.
  intros Hk. pose proof (raw_matching_ne keys key Hk) as Hr. unfold locate_spec.
  pose proof (raw_in_matching f keys key) as Hin.
  destruct (matching _ _ _); [by rewrite <- Hin in Hr|]. by destruct (raw_matching keys key).
Qed.

Lemma located_group key matches :
  key ∈ keys -> located_ok f key (Some matches) ->
  lk_basis matches = RawExact /\ denotes matches (raw_matching keys key).
Proof.
  intros Hk Hl. destruct (Hl _ _ Hst) as (rows' & Hrows' & Hd). rewrite Hrows in Hrows'. injection Hrows' as <-.
  fold (row_keys rows) in Hd. by rewrite (locate_spec_key key Hk) in Hd.
Qed.

(** An item that answers a key of the file belongs to its first row. *)
Lemma answers_first {A} (P : Z -> A -> Prop) key r pos :
  answers f P key r -> head (raw_matching keys key) = Some pos -> exists a, r = Some a /\ P pos a.
Proof.
  intros Hr Hhead.
  assert (key ∈ keys) as Hk.
  { destruct (decide (key ∈ keys)) as [|Hn]; [done|]. by rewrite raw_matching_none in Hhead. }
  destruct r as [a|].
  - destruct Hr as (o & _ & HP & Hr). destruct (Hr _ _ Hst) as (rows' & basis & found & Hrows' & Hl).
    rewrite Hrows in Hrows'. injection Hrows' as <-. fold (row_keys rows) in Hl.
    rewrite (locate_spec_key key Hk) in Hl. injection Hl as _ Hl. rewrite Hl in Hhead. injection Hhead as <-. by exists a.
  - destruct (Hr _ _ Hst) as (rows' & Hrows' & Hl). rewrite Hrows in Hrows'. injection Hrows' as <-.
    fold (row_keys rows) in Hl. by rewrite (locate_spec_key key Hk) in Hl.
Qed.

Lemma located_not_none key : key ∈ keys -> ~ located_ok f key None.
Proof.
  intros Hk Hl. destruct (Hl _ _ Hst) as (rows' & Hrows' & Hd). rewrite Hrows in Hrows'. injection Hrows' as <-.
  fold (row_keys rows) in Hd. by rewrite (locate_spec_key key Hk) in Hd.
Qed.

Lemma entry_row pos e :
  0 <= pos -> entry_ok f pos e ->
  entry_of f rows stream pos = Some (Ok e) /\ exists row, get_at rows pos = Some row /\ me_key e = row_entry pos row.
Proof.
  intros Hpos He. pose proof (entry_ok_of f Hf content modified rows stream pos e Hst Hrows Hstream Hpos He) as E.
  split; [done|]. unfold entry_of, row_descriptor in E. destruct (get_at rows pos) as [row|]; [|done].
  exists row. split; [done|]. simpl in E. destruct (slice stream _ _); [|done]. simpl in E.
  destruct (record_text f _); try done. by injection E as <-.
Qed.

(** The start of a record, or the end of the stream. *)
Definition record_start_of (pos : Z) : Z := default total (record_start <$> get_at rows pos).

Lemma span_row pos span :
  0 <= pos -> span_ok f pos span ->
  exists row, get_at rows pos = Some row /\ ms_key span = row_entry pos row /\
    ms_start span = record_start row /\ ms_end span = record_start_of (pos + 1) /\
    0 <= ms_start span <= ms_end span /\ ms_end span <= total /\ ms_len span = ms_end span - ms_start span.
Proof.
  intros Hpos [Hd Hlen]. pose proof (descriptor_ok_rows f content modified rows pos _ Hf Hst Hrows Hpos Hd) as E.
  unfold row_descriptor in E. destruct (get_at rows pos) as [row|]; [|done]. injection E as Ek Es Ee.
  destruct Hd as (_ & _ & Hse & Hend & _). simpl in *. exists row. unfold record_start_of. split_and!; (done || lia).
Qed.

(** The bytes of a resource, streamed and materialized. *)
Lemma resource_slice pos span r :
  0 <= pos -> span_ok f pos span -> resource_ok f pos r ->
  resource_of f rows stream pos = Some r /\ slice stream (ms_start span) (ms_end span) = Some (mr_bytes r).
Proof.
  intros Hpos Hs Hr. pose proof (resource_ok_of f Hf content modified rows stream pos r Hst Hrows Hstream Hpos Hr) as E.
  split; [done|]. destruct (span_row pos span Hpos Hs) as (row & Hrow & _ & Es & Ee & _).
  unfold resource_of, row_descriptor in E. rewrite Hrow in E. simpl in E. rewrite Es, Ee. unfold record_start_of.
  destruct (slice stream _ _); [|done]. simpl in E. by injection E as <-.
Qed.

Lemma keeps_copy_hash pos span :
  0 <= pos -> span_ok f pos span ->
  keeps (working_memory_bytes (mf_limits f)) (contracts f) (copy_to f hash_write_all span sha_new) (fun '(hash, n) =>
    n = ms_len span /\
    exists bytes, hashes bytes hash /\ slice stream (ms_start span) (ms_end span) = Some bytes).
Proof.
  intros Hpos Hs. destruct (span_row pos span Hpos Hs) as (_ & _ & _ & _ & _ & Hse & _ & Hlen).
  eapply keeps_mono; [apply (keeps_copy_to f Hf (fun hash => exists message, hashes message hash))|].
  - intros hash chunk [message Hh]. pose proof (hash_write_all_correct message hash chunk Hh) as Hw.
    destruct (hash_write_all hash chunk); try done. by eexists.
  - exists []. apply hashes_new.
  - lia.
  - intros [hash n] (Hend & -> & chunks & Hw & Hspan). split; [done|]. exists (concat chunks). split.
    + destruct (write_chunks_hash [] sha_new chunks hashes_new) as (hash' & Hw' & Hh). rewrite Hw in Hw'. injection Hw' as <-. exact Hh.
    + eapply span_of_slice; (done || lia).
Qed.

End Rows.

(** ** Digests *)

Lemma printable_hex bytes : bytes_ok bytes -> printable (hex bytes).
Proof.
  unfold hex. induction 1 as [|b bytes Hb _ IH]; [constructor|]. cbn [map concat].
  apply printable_app; [|done].
  unfold is_byte in Hb.
  assert (forall d, 0 <= d < 16 -> 32 <= at_ HEX_DIGITS d) as Hd.
  { intros d Hd. assert (In d (map Z.of_nat (seq 0 16))) as Hin.
    { apply in_map_iff. exists (Z.to_nat d). rewrite in_seq. split; lia. }
    simpl in Hin. repeat (destruct Hin as [<-|Hin]; [vm_compute; discriminate|]). done. }
  constructor; [|constructor; [|constructor]]; apply Hd.
  - split; [apply Z.div_pos|apply Z.div_lt_upper_bound]; lia.
  - by apply Z.mod_pos_bound.
Qed.

(** ** Opening *)

(** What opening a file with the default options promises. *)
Lemma opened_ok `{EnvOk} fs path kind clock :
  file_system_ok fs ->
  wp (Core.open fs path kind open_options_new clock)
    (fun '(f, s) => file_ok f /\ state_ok f (retained_total (mf_layout f)) [] s).
Proof.
  intros Hfs. eapply wp_mono; [by apply open_ok, limits_new_ok|]. by intros [f s] (? & ? & _).
Qed.

(** * The sample *)

(** The sample file under the options of the audit. *)
Definition audit_sample : MdictFile * CoreState :=
  match @mdx_open simple_env sample_fs (lit "words.mdx") 0 with Ok opened => opened | _ => unopened end.

Lemma audit_sample_opens :
  @mdx_open simple_env sample_fs (lit "words.mdx") 0 = Ok (fst audit_sample, snd audit_sample).
Proof.
  unfold audit_sample.
  destruct (@mdx_open simple_env sample_fs (lit "words.mdx") 0) as [[f s]|e|site|] eqn:E; [done|exfalso..];
    assert (match @mdx_open simple_env sample_fs (lit "words.mdx") 0 with Ok _ => true | _ => false end = true)
      as Hok by (vm_compute; reflexivity);
    by rewrite E in Hok.
Qed.

Lemma audit_sample_stable : stable (mf_source (fst audit_sample)) sample_v2 1700000000000000000.
Proof. vm_compute. by split. Qed.
