(* ===== verification/AuditV1.v ===== *)
(** [examples/v1_audit.rs]: the audit of one artifact.  It opens the file,
    reads every entry, looks every key up and cross-checks the answers.  The
    theorems say what an accepted artifact's row holds, and that the
    cross-checks never fail: a rejection is always an error of the library. *)

From stdpp Require Import list_numbers.
From S2P Require Import Prelude Errors Types Options Budget Logic Utf8 Encoding Source Crypto Descriptors Header KeySection Format Normalize Samples LocatorIndex Arcs Core Dictionary SampleDictionary Keys Records Iter Locator Locate Lookup Mdx Mdd Flow Sha256 ToolText AuditSupport.

(** * The code *)

Definition PROTOCOL : text := lit "mdictlib-v1-audit-v1".

Definition MAX_MESSAGE_CHARS : Z := 512.

Inductive Category :=
| CatIo
| CatUnsupportedVersion
| CatUnsupportedEncoding
| CatUnsupportedCompression
| CatUnsupportedEncryption
| CatTruncated
| CatChecksumMismatch
| CatKeyDecode
| CatRecordDecode
| CatInvalidGeometry
| CatCompressionFailure
| CatLimitExceeded
| CatAllocationFailed
| CatPasscodeRequired
| CatUnclassified.

(** [Category::as_str] *)
Definition category_str (c : Category) : string :=
  match c with
  | CatIo => "io"
  | CatUnsupportedVersion => "unsupported-version"
  | CatUnsupportedEncoding => "unsupported-encoding"
  | CatUnsupportedCompression => "unsupported-compression"
  | CatUnsupportedEncryption => "unsupported-encryption"
  | CatTruncated => "truncated"
  | CatChecksumMismatch => "checksum-mismatch"
  | CatKeyDecode => "key-decode"
  | CatRecordDecode => "record-decode"
  | CatInvalidGeometry => "invalid-geometry"
  | CatCompressionFailure => "compression-failure"
  | CatLimitExceeded => "limit-exceeded"
  | CatAllocationFailed => "allocation-failed"
  | CatPasscodeRequired => "passcode-required"
  | CatUnclassified => "unclassified"
  end.

(** [classify] *)
Definition classify (error : Error) : Category :=
  match error with
  | Io _ => CatIo
  | Truncated _ _ _ => CatTruncated
  | ChecksumMismatch _ _ _ => CatChecksumMismatch
  | LimitExceeded _ _ _ => CatLimitExceeded
  | AllocationFailed _ _ => CatAllocationFailed
  | MissingPasscode | InvalidPasscode _ => CatPasscodeRequired
  | Decode context _ => if contains (lit context) (lit "key") then CatKeyDecode else CatRecordDecode
  | Unsupported feature =>
      if contains (lit feature) (lit "major version") then CatUnsupportedVersion
      else if contains (lit feature) (lit "encoding") then CatUnsupportedEncoding
      else if contains (lit feature) (lit "encrypted") then CatUnsupportedEncryption
      else CatUnsupportedCompression
  | InvalidData message =>
      let lowered := map to_ascii_lowercase (lit message) in
      if contains lowered (lit "lzo") || contains lowered (lit "zlib") then CatCompressionFailure
      else CatInvalidGeometry
  | InvalidFormat _ => CatInvalidGeometry
  | _ => CatUnclassified
  end.

Record Failure := {
  fl_category : Category;
  fl_message : text;
  fl_ordinal : option Z;
}.

(** [Failure::new] *)
Definition failure_new (error : Error) (ordinal : option Z) : Failure :=
  {| fl_category := classify error;
     fl_message := take_chars MAX_MESSAGE_CHARS (lit (error_display error));
     fl_ordinal := ordinal |}.

(** The failures of the cross-checks. *)
Definition geometry (message : string) (ordinal : option Z) : Failure :=
  {| fl_category := CatInvalidGeometry; fl_message := lit message; fl_ordinal := ordinal |}.

Record Accepted := {
  ac_entries : Z;
  ac_distinct_keys : Z;
  ac_duplicate_groups : Z;
  ac_key_sha256 : text;
  ac_payload_sha256 : text;
  ac_total_payload_bytes : Z;
}.

(** [{}] of a [bool] *)
Definition fmt_bool (b : bool) : string := if b then "true" else "false".

(** [header_json] *)
Definition header_json (dictionary_header : option Header) : text :=
  match dictionary_header with
  | None => quoted "'header':null"
  | Some header =>
      quoted "'header':{'tag':'" ++ escape_json (tag_name header)
        ++ quoted "','generatedByEngineVersion':'" ++ escape_json (generated_by_engine_version header)
        ++ quoted "','requiredEngineVersion':'" ++ escape_json (required_engine_version header)
        ++ quoted "','encoding':" ++ optional_json (encoding_label header)
        ++ quoted ",'encryptedBits':" ++ lit (fmt_dec (encrypted header))
        ++ quoted ",'format':" ++ optional_json (format header)
        ++ quoted ",'stripKey':" ++ lit (fmt_bool (strip_key header))
        ++ quoted ",'keyCaseSensitive':" ++ lit (fmt_bool (key_case_sensitive header)) ++ lit "}"
  end.

(** The row that [main] prints. *)
Definition audit_row (outcome : (text * Accepted) + (text * Failure)) : text :=
  match outcome with
  | inl (header, accepted) =>
      quoted "{'protocol':'" ++ PROTOCOL ++ quoted "','status':'accepted'," ++ header
        ++ quoted ",'entries':" ++ lit (fmt_dec (ac_entries accepted))
        ++ quoted ",'distinctKeys':" ++ lit (fmt_dec (ac_distinct_keys accepted))
        ++ quoted ",'duplicateGroups':" ++ lit (fmt_dec (ac_duplicate_groups accepted))
        ++ quoted ",'payloadBytes':" ++ lit (fmt_dec (ac_total_payload_bytes accepted))
        ++ quoted ",'keySha256':'" ++ ac_key_sha256 accepted
        ++ quoted "','payloadSha256':'" ++ ac_payload_sha256 accepted ++ quoted "'}"
  | inr (header, failure) =>
      quoted "{'protocol':'" ++ PROTOCOL ++ quoted "','status':'rejected'," ++ header
        ++ quoted ",'category':'" ++ lit (category_str (fl_category failure))
        ++ quoted "','message':'" ++ escape_json (fl_message failure)
        ++ quoted "','failingOrdinal':"
        ++ lit (match fl_ordinal failure with None => "null" | Some value => fmt_dec value end) ++ lit "}"
  end.

(** The local variables of the sequential pass. *)
Record Pass := {
  ps_index : Z;
  ps_key_hash : Sha256;
  ps_payload_hash : Sha256;
  ps_payload_bytes : Z;
  ps_ordinals_by_key : BTree;
}.

Definition pass_new : Pass :=
  {| ps_index := 0; ps_key_hash := sha_new; ps_payload_hash := sha_new; ps_payload_bytes := 0;
     ps_ordinals_by_key := [] |}.

(** [b'\n'] *)
Definition newline : bytes := [10].

Section Audit.

Context `{Env} (f : MdictFile) (header : text).

#[local] Notation Audit := (Flow (text * Failure)).

(** The body of the loop over the entries. *)
Definition audit_entry (acc : Pass) (result : MdxEntry + Error) : Audit Pass :=
  let ordinal := ps_index acc in
  match result with
  | inr error => ffail (header, failure_new error (Some ordinal))
  | inl entry =>
      check (ke_ordinal (me_key entry) =? ordinal)
        (header, geometry ("ordinal discontinuity: expected " +++ fmt_dec ordinal +++ ", got "
                             +++ fmt_dec (ke_ordinal (me_key entry))) (Some ordinal)) ;;*
      let* direct := try_or (key_at_ordinal f (ke_ordinal (me_key entry)))
                       (fun error => (header, failure_new error (Some ordinal))) in
      check (match direct with Some direct => bytes_eqb (ke_key direct) (ke_key (me_key entry)) | None => false end)
        (header, geometry "key_at disagreed with sequential iteration" (Some ordinal)) ;;*
      let! key_hash := lift (let? h := sha_update (ps_key_hash acc) (ke_key (me_key entry)) in sha_update h newline) in
      let! payload_hash := lift (let? h := sha_update (ps_payload_hash acc) (me_text entry) in sha_update h newline) in
      let! payload_bytes := lift (add_assign (ps_payload_bytes acc) (zlen (me_text entry))) in
      fret {| ps_index := ps_index acc + 1; ps_key_hash := key_hash; ps_payload_hash := payload_hash;
              ps_payload_bytes := payload_bytes;
              ps_ordinals_by_key := btree_push (ps_ordinals_by_key acc) (ke_key (me_key entry)) ordinal |}
  end.

(** The body of the loop over the distinct keys; [after] is what follows the
    check of the ordinals. *)
Definition audit_group (after : text -> list Z -> Audit unit) (duplicate_groups : Z) (group : text * list Z)
    : Audit Z :=
  let (key, ordinals) := group in
  let! duplicate_groups := lift (if 1 <? zlen ordinals then add_assign duplicate_groups 1 else Ok duplicate_groups) in
  try_locate f key (fun error => (header, failure_new error (head ordinals))) (fun matches =>
    let* matches := some_or matches
      (header, geometry "a physical key did not resolve through lookup" (head ordinals)) in
    check (bool_decide (located_list matches = ordinals))
      (header, geometry "duplicate ordinals were not in physical order" (head ordinals)) ;;*
    after key ordinals ;;*
    fret duplicate_groups).

(** The lookup of the MDX audit. *)
Definition audit_lookup (key : text) (ordinals : list Z) : Audit unit :=
  let wrong := (header, geometry "lookup did not select the lowest physical ordinal" (head ordinals)) in
  let* found := try_or (lookup f key) (fun error => (header, failure_new error (head ordinals))) in
  match found with
  | Some entry =>
      let! first := lift (or_panic (head ordinals) "index out of bounds") in
      check (ke_ordinal (me_key entry) =? first) wrong
  | None => ffail wrong
  end.

(** The result of both audits. *)
Definition accepted (acc : Pass) (duplicate_groups : Z) : Audit (text * Accepted) :=
  let! key_digest := lift (sha_finish (ps_key_hash acc)) in
  let! payload_digest := lift (sha_finish (ps_payload_hash acc)) in
  fret (header,
    {| ac_entries := mdict_len f; ac_distinct_keys := zlen (ps_ordinals_by_key acc);
       ac_duplicate_groups := duplicate_groups; ac_key_sha256 := hex key_digest;
       ac_payload_sha256 := hex payload_digest; ac_total_payload_bytes := ps_payload_bytes acc |}).

(** [audit_mdx], after the file has opened. *)
Definition audit_mdx_opened : Audit (text * Accepted) :=
  let* acc := for_iter (entry_next f) (fun it => drop_iter (ii_records it)) audit_entry
                (S (Z.to_nat (mdict_len f))) item_iter_new pass_new in
  let observed := Z.of_nat (sum_list_with (fun g => length (snd g)) (ps_ordinals_by_key acc)) in
  check (observed =? mdict_len f)
    (header, geometry ("declared " +++ fmt_dec (mdict_len f) +++ " entries but traversed " +++ fmt_dec observed) None) ;;*
  let* duplicate_groups := for_list (audit_group audit_lookup) (ps_ordinals_by_key acc) 0 in
  accepted acc duplicate_groups.

(** The body of the loop over the resources. *)
Definition audit_resource (acc : Pass) (index : Z) : Audit Pass :=
  let failure error := (header, failure_new error (Some index)) in
  let* span := try_or (span_at f index) failure in
  let* span := some_or span (header, geometry "declared ordinal had no span" (Some index)) in
  let* streamed := try_or (copy_to f hash_write_all span sha_new) failure in
  let* materialized := try_or (span_read f span) failure in
  let! streamed_digest := lift (sha_finish (fst streamed)) in
  let! direct := lift (sha_update sha_new (mr_bytes materialized)) in
  let! direct_digest := lift (sha_finish direct) in
  check (bytes_eqb direct_digest streamed_digest)
    (header, geometry "streamed and materialized resource bytes disagreed" (Some index)) ;;*
  let! key_hash := lift (let? h := sha_update (ps_key_hash acc) (ke_key (ms_key span)) in sha_update h newline) in
  let! payload_hash := lift (sha_update (ps_payload_hash acc) streamed_digest) in
  let! payload_bytes := lift (add_assign (ps_payload_bytes acc) (ms_len span)) in
  fret {| ps_index := ps_index acc; ps_key_hash := key_hash; ps_payload_hash := payload_hash;
          ps_payload_bytes := payload_bytes;
          ps_ordinals_by_key := btree_push (ps_ordinals_by_key acc) (ke_key (ms_key span)) index |}.

(** [audit_mdd], after the file has opened. *)
Definition audit_mdd_opened : Audit (text * Accepted) :=
  let* acc := for_list audit_resource (seqZ 0 (mdict_len f)) pass_new in
  let* duplicate_groups := for_list (audit_group (fun _ _ => fret tt)) (ps_ordinals_by_key acc) 0 in
  accepted acc duplicate_groups.

End Audit.

(** The beginning of both audits: the file is opened. *)
Definition audit_file `{Env} (opened : Result (MdictFile * CoreState))
    (body : MdictFile -> text -> Flow (text * Failure) (text * Accepted))
    : Result ((text * Accepted) + (text * Failure)) :=
  match opened with
  | Ok (f, s) => fst (body f (header_json (Some (vl_header (mf_layout f)))) s)
  | Err error => Ok (inr (header_json None, failure_new error None))
  | Panic site => Panic site
  | OutOfFuel => OutOfFuel
  end.

(** [audit_mdx] *)
Definition audit_mdx `{Env} (fs : bytes -> nat -> option FileState) (path : bytes) (clock : nat) :=
  audit_file (mdx_open fs path clock) audit_mdx_opened.

(** [audit_mdd] *)
Definition audit_mdd `{Env} (fs : bytes -> nat -> option FileState) (path : bytes) (clock : nat) :=
  audit_file (mdd_open fs path clock) audit_mdd_opened.

(** [main]: the row for the standard output, or the complaint for the standard
    error that comes with the exit code of a failure. *)
Definition main `{Env} (fs : bytes -> nat -> option FileState) (arguments : list bytes) (clock : nat)
    : Result (text + text) :=
  match arguments with
  | [] => Ok (inr (lit "usage: v1_audit <path>"))
  | [path] =>
      let? outcome := if is_mdd path then audit_mdd fs path clock else audit_mdx fs path clock in
      Ok (inl (audit_row outcome))
  | _ => Ok (inr (lit "v1_audit: unexpected extra argument"))
  end.

(** * Specification *)

(** The lines of the hashed streams. *)
Definition lines (ts : list text) : bytes := concat (map (fun t => t ++ newline) ts).

Section Spec.

Context `{Env} (f : MdictFile) (rows : list DecodedKeyRow) (stream : bytes).

(** The row of an accepted artifact with these payload digest and size. *)
Definition accepted_row (payload : bytes) (total : Z) : Accepted :=
  {| ac_entries := zlen rows; ac_distinct_keys := zlen (remove_dups (row_keys rows));
     ac_duplicate_groups := zlen (duplicated (row_keys rows)); ac_key_sha256 := hex (sha256 (lines (row_keys rows)));
     ac_payload_sha256 := hex (sha256 payload); ac_total_payload_bytes := total |}.

Definition accepted_mdx : Accepted :=
  let texts := map me_text (entry_list f rows stream (all_ordinals f)) in
  accepted_row (lines texts) (zlen (concat texts)).

Definition accepted_mdd : Accepted :=
  let contents := map mr_bytes (resource_list f rows stream (all_ordinals f)) in
  accepted_row (concat (map sha256 contents)) (zlen (concat contents)).

End Spec.

(** A failure that reports an error of the library. *)
Definition reports (header : text) (failure : text * Failure) : Prop :=
  fst failure = header /\ exists error ordinal, snd failure = failure_new error ordinal.

(** * Lemmas *)

Lemma lines_snoc ts t : lines (ts ++ [t]) = lines ts ++ t ++ newline.
Proof. unfold lines. rewrite map_app, concat_app. simpl. by rewrite app_nil_r. Qed.

Lemma lines_update ts s t :
  hashes (lines ts) s ->
  returns (let? h := sha_update s t in sha_update h newline) (hashes (lines (ts ++ [t]))).
Proof.
  intros Hs. destruct (sha_update_correct _ s t Hs) as (s1 & -> & Hs1). cbn [rbind].
  rewrite lines_snoc, app_assoc. by apply returns_update.
Qed.

Section AuditProofs.

Context `{EnvOk} (f : MdictFile) (Hf : file_ok f) (header : text).

Context (content : bytes) (modified : Z) (rows : list DecodedKeyRow) (stream : bytes).

Context (Hst : stable (mf_source f) content modified) (Hrows : all_rows f content = Ok rows).

Context (Hstream : record_stream f content = Ok stream).

#[local] Notation max := (working_memory_bytes (mf_limits f)).

#[local] Notation keys := (row_keys rows).

#[local] Notation rows_len := (rows_len f Hf content modified rows Hst Hrows).

#[local] Notation keys_len := (keys_len f Hf content modified rows Hst Hrows).

#[local] Notation mdict_len_range := (mdict_len_range f Hf).

#[local] Notation locate_spec_key := (locate_spec_key f rows).

#[local] Notation entry_row := (entry_row f Hf content modified rows stream Hst Hrows Hstream).

Lemma reports_new error ordinal : reports header (header, failure_new error ordinal).
Proof. split; [done|by eexists _, _]. Qed.

(** What both audits have gathered from the first [pos] rows, apart from the
    payloads. *)
Definition pass_keys (pos : Z) (acc : Pass) : Prop :=
  0 <= pos <= mdict_len f /\ hashes (lines (take (Z.to_nat pos) keys)) (ps_key_hash acc) /\
  groups_ok (take (Z.to_nat pos) keys) (ps_ordinals_by_key acc) /\
  sum_list_with (fun g => length (snd g)) (ps_ordinals_by_key acc) = Z.to_nat pos.

Lemma pass_keys_new : pass_keys 0 pass_new.
Proof.
  split; [pose proof mdict_len_range; lia|]. split; [apply hashes_new|]. split; [apply groups_ok_nil|done].
Qed.

Lemma pass_keys_push pos acc row key_hash acc' :
  pass_keys pos acc -> get_at rows pos = Some row -> pos < mdict_len f ->
  ps_key_hash acc' = key_hash -> hashes (lines (take (Z.to_nat pos) keys ++ [row_key row])) key_hash ->
  ps_ordinals_by_key acc' = btree_push (ps_ordinals_by_key acc) (row_key row) pos ->
  pass_keys (pos + 1) acc'.
Proof.
  intros (Hpos & _ & Hg & Hsum) Hrow Hlt Ek Hh Eo. unfold pass_keys. rewrite Ek, Eo. pose proof (get_at_row_keys _ _ _ Hrow) as Hkey.
  split; [lia|]. rewrite (take_snoc keys pos (row_key row)) by (done || lia). split; [done|].
  assert (zlen (take (Z.to_nat pos) keys) = pos) as E by (rewrite length_take; pose proof keys_len; lia).
  split; [rewrite <- E at 2; by apply groups_ok_push|]. rewrite btree_push_total, Hsum. lia.
Qed.

Lemma pass_keys_end acc :
  pass_keys (mdict_len f) acc ->
  hashes (lines keys) (ps_key_hash acc) /\ groups_ok keys (ps_ordinals_by_key acc) /\
  Z.of_nat (sum_list_with (fun g => length (snd g)) (ps_ordinals_by_key acc)) = mdict_len f.
Proof.
  intros (Hpos & Hh & Hg & Hsum). rewrite take_ge in Hh, Hg by (pose proof keys_len; lia).
  split_and!; [done|done|]. rewrite Hsum. lia.
Qed.

(** ** The groups *)

Lemma steady_audit_groups after m :
  groups_ok keys m ->
  (forall key, key ∈ keys -> steady f (after key (raw_matching keys key)) (fun _ => True) (reports header)) ->
  steady f (for_list (audit_group f header after) m 0) (fun n => n = zlen (duplicated keys)) (reports header).
Proof.
  intros Hg Hafter. rewrite <- (groups_ok_duplicated keys m Hg).
  assert (zlen m <= mdict_len f) as Hm.
  { rewrite (groups_ok_length keys m Hg), <- keys_len.
    pose proof (remove_dups_length keys). lia. }
  apply (steady_for_list f _ _ (fun before acc => acc = zlen (List.filter (fun g => 1 <? zlen (snd g)) before)));
    [done|].
  intros before [key ordinals] rest acc -> ->.
  assert ((key, ordinals) ∈ before ++ (key, ordinals) :: rest) as Hin by (apply elem_of_app; right; left).
  apply (proj2 Hg) in Hin as [Hkey ->]. unfold audit_group.
  set (n := zlen (List.filter _ before)). set (ordinals := raw_matching keys key).
  eapply (steady_returns f _ _ _ (fun n' => n' = zlen (List.filter (fun g => 1 <? zlen (snd g)) (before ++ [(key, ordinals)])))).
  { rewrite List.filter_app. cbn [List.filter snd]. rewrite length_app.
    assert (n <= zlen before) by (unfold n; pose proof (filter_length_le (fun g : text * list Z => 1 <? zlen (snd g)) before); lia).
    destruct (1 <? zlen ordinals); cbn [length].
    - apply returns_add; [|lia]. rewrite length_app in Hm. simpl in Hm. pose proof mdict_len_range. lia.
    - simpl. lia. }
  intros n' ->. apply (steady_locate f Hf); [intros; apply reports_new|intros _ Hl|intros matches _ Hl].
  { by eapply located_not_none in Hl. }
  eapply steady_bind; [by apply (steady_some f _ _ _ (fun k => k = matches)); [congruence|]|]. intros ? ->.
  eapply steady_bind.
  { apply steady_check. apply bool_decide_eq_true, located_list_denotes. by eapply (located_group f content modified). }
  intros _ _. eapply steady_bind; [by apply Hafter|]. intros _ _. by apply steady_ret.
Qed.

(** The end of both audits. *)
Lemma steady_accepted acc payload total duplicate_groups :
  pass_keys (mdict_len f) acc -> hashes payload (ps_payload_hash acc) -> ps_payload_bytes acc = total ->
  duplicate_groups = zlen (duplicated keys) ->
  steady f (accepted f header acc duplicate_groups) (fun r => r = (header, accepted_row rows payload total))
    (reports header).
Proof.
  intros (Hh & Hg & _)%pass_keys_end Hp <- ->. unfold accepted.
  eapply steady_returns; [by eapply (returns_finish _ _ (fun d => d = sha256 (lines keys)))|]. intros ? ->.
  eapply steady_returns; [by eapply (returns_finish _ _ (fun d => d = sha256 payload))|]. intros ? ->.
  apply steady_ret. unfold accepted_row. by rewrite (groups_ok_length _ _ Hg), rows_len.
Qed.

(** ** Entries *)

Definition pass_entries (pos : Z) (acc : Pass) : Prop :=
  let texts := map me_text (entry_list f rows stream (seqZ 0 pos)) in
  pass_keys pos acc /\ ps_index acc = pos /\ zlen texts = pos /\
  hashes (lines texts) (ps_payload_hash acc) /\ ps_payload_bytes acc = zlen (concat texts).

Context (Hbytes : zlen (concat (map me_text (entry_list f rows stream (all_ordinals f)))) <= u64_max).

Lemma steady_audit_entry pos acc e :
  0 <= pos < mdict_len f -> entry_ok f pos e -> pass_entries pos acc ->
  steady f (audit_entry f header acc (inl e)) (pass_entries (pos + 1)) (reports header).
Proof.
  intros Hpos He (Hk & Hi & Hlen & Hp & Hb). destruct (entry_row pos e ltac:(lia) He) as (Hof & row & Hrow & Hkey).
  unfold audit_entry. rewrite Hi, Hkey. cbn [row_entry ke_ordinal ke_key].
  eapply steady_bind; [apply steady_check, Z.eqb_refl|]. intros _ _.
  eapply steady_bind; [apply (steady_try f _ _ _ (key_answer f pos)); [apply (keeps_key_at_ordinal f Hf); lia|intros; apply reports_new]|].
  intros direct Hd. rewrite (key_answer_rows f content modified rows pos direct Hf Hst Hrows ltac:(lia) Hd), Hrow.
  eapply steady_bind; [by apply steady_check, bytes_eqb_true|]. intros _ _.
  eapply steady_returns; [by apply lines_update, Hk|]. intros key_hash Hkh. cbv beta in Hkh.
  eapply steady_returns; [by apply lines_update|]. intros payload_hash Hph. cbv beta in Hph.
  assert (entry_list f rows stream (seqZ 0 (pos + 1)) = entry_list f rows stream (seqZ 0 pos) ++ [e]) as Es.
  { apply omap_seq_snoc; [lia|]. by rewrite Hof. }
  destruct (omap_seq_prefix (fun o => match entry_of f rows stream o with Some (Ok e) => Some e | _ => None end)
              (pos + 1) (mdict_len f)) as [rest Er]; [lia|].
  unfold all_ordinals in Hbytes. unfold entry_list in Hbytes at 1. rewrite Er in Hbytes.
  fold (entry_list f rows stream (seqZ 0 (pos + 1))) in Hbytes. rewrite Es in Hbytes.
  rewrite !map_app, !concat_app, !length_app in Hbytes. cbn [map concat] in Hbytes. rewrite app_nil_r in Hbytes.
  eapply (steady_returns f _ _ _ (fun n => n = ps_payload_bytes acc + zlen (me_text e))); [apply returns_add; [lia|done]|].
  intros ? ->. apply steady_ret. unfold pass_entries. rewrite Es, map_app. cbn [map].
  split; [eapply (pass_keys_push pos acc row key_hash); (done || lia)|]. cbn [ps_index ps_payload_hash ps_payload_bytes].
  rewrite length_app, concat_app, length_app. cbn [length concat]. rewrite app_nil_r.
  split_and!; [done|lia|done|lia].
Qed.

Lemma steady_audit_mdx :
  steady f (audit_mdx_opened f header) (fun r => r = (header, accepted_mdx f rows stream)) (reports header).
Proof.
  unfold audit_mdx_opened. eapply steady_bind.
  { apply (steady_for_items f Hf _ (read_entry f) (entry_ok f) _ pass_entries).
    - apply (entry_reads f Hf).
    - split; [apply pass_keys_new|]. by repeat split; try apply hashes_new.
    - intros pos acc e. apply steady_audit_entry.
    - intros pos acc error _. apply steady_fail, reports_new. }
  intros acc (Hk & _ & _ & Hp & Hb). destruct (pass_keys_end acc Hk) as (_ & Hg & Hsum).
  eapply steady_bind; [apply steady_check; by apply Z.eqb_eq|]. intros _ _.
  eapply steady_bind.
  { apply (steady_audit_groups (audit_lookup f header) _ Hg). intros key Hkey. unfold audit_lookup.
    eapply steady_bind; [apply steady_try; [apply (keeps_lookup f Hf)|intros; apply reports_new]|].
    intros found Ha.
    destruct (head (raw_matching keys key)) as [o|] eqn:Eo.
    2: { pose proof (raw_matching_ne keys key Hkey). by destruct (raw_matching keys key). }
    destruct (answers_first f content modified rows Hst Hrows _ _ _ _ Ha Eo) as (e & -> & He).
    apply raw_matching_elem_head in Eo as Ho. destruct (entry_row o e Ho He) as (_ & row & _ & ->). cbn [or_panic].
    eapply (steady_returns f _ _ _ (fun x => x = o)); [done|]. intros ? ->. apply steady_check, Z.eqb_refl. }
  intros n Hn. by eapply steady_accepted.
Qed.

End AuditProofs.

(** ** Resources *)

Section ResourceProofs.

Context `{EnvOk} (f : MdictFile) (Hf : file_ok f) (header : text).

Context (content : bytes) (modified : Z) (rows : list DecodedKeyRow) (stream : bytes).

Context (Hst : stable (mf_source f) content modified) (Hrows : all_rows f content = Ok rows).

Context (Hstream : record_stream f content = Ok stream).

#[local] Notation total := (vl_total_decoded_record_len (mf_layout f)).

Definition pass_resources (before : list Z) (acc : Pass) : Prop :=
  let pos := zlen before in
  let contents := map mr_bytes (resource_list f rows stream (seqZ 0 pos)) in
  pass_keys f rows pos acc /\ zlen contents = pos /\
  hashes (concat (map sha256 contents)) (ps_payload_hash acc) /\
  ps_payload_bytes acc = zlen (concat contents) /\ (0 < pos -> zlen (concat contents) <= record_start_of f rows pos).

Lemma steady_audit_resource before index after acc :
  seqZ 0 (mdict_len f) = before ++ index :: after -> pass_resources before acc ->
  steady f (audit_resource f header acc index) (pass_resources (before ++ [index])) (reports header).
Proof.
  intros E (Hk & Hlen & Hp & Hb & Hmax). destruct (seqZ_split _ _ _ _ E) as [Hi Hr]. rewrite <- Hi in *.
  unfold pass_resources. rewrite length_app. cbn [length].
  replace (Z.of_nat (length before + 1)) with (index + 1) by lia. unfold audit_resource.
  eapply steady_bind; [apply steady_try; [apply (keeps_span_at f Hf); lia|intros; apply reports_new]|].
  intros [span|] Hspan; [|lia]. destruct Hspan as [_ Hspan].
  eapply steady_bind; [by apply (steady_some f _ _ _ (fun x => x = span)); [congruence|]|]. intros ? ->.
  destruct (span_row f Hf content modified rows Hst Hrows index span ltac:(lia) Hspan) as (row & Hrow & Hkey & Hstart & Hend & Hse & Htot & Hl).
  eapply steady_bind; [apply steady_try; [apply (keeps_copy_hash f Hf content modified rows stream Hst Hrows Hstream index); [lia|done]|intros; apply reports_new]|].
  intros [streamed n] (_ & bytes & Hh & Hslice). cbn [fst].
  eapply steady_bind; [apply steady_try; [by apply (keeps_span_read f Hf index)|intros; apply reports_new]|].
  intros r Hres. destruct (resource_slice f Hf content modified rows stream Hst Hrows Hstream index span r ltac:(lia) Hspan Hres) as [Hof Hslice'].
  rewrite Hslice' in Hslice. injection Hslice as <-.
  eapply steady_returns; [by eapply (returns_finish _ _ (fun d => d = sha256 (mr_bytes r)))|]. intros ? ->.
  eapply steady_returns; [apply (returns_update []), hashes_new|]. intros direct Hdirect. cbv beta in Hdirect.
  eapply steady_returns; [by eapply (returns_finish _ _ (fun d => d = sha256 (mr_bytes r)))|]. intros ? ->.
  eapply steady_bind; [by apply steady_check, bytes_eqb_true|]. intros _ _. rewrite Hkey. cbn [row_entry ke_key].
  eapply steady_returns; [by apply lines_update, Hk|]. intros key_hash Hkh. cbv beta in Hkh.
  eapply steady_returns; [by eapply returns_update|]. intros payload_hash Hph. cbv beta in Hph.
  pose proof (slice_length _ _ _ _ Hslice') as Hz.
  assert (zlen (concat (map mr_bytes (resource_list f rows stream (seqZ 0 index)))) + ms_len span <= record_start_of f rows (index + 1)) as Hnext.
  { destruct (Z.eq_dec index 0) as [->|]; [change (concat (map mr_bytes (resource_list f rows stream (seqZ 0 0)))) with (@nil Z); cbn [length]; lia|].
    specialize (Hmax ltac:(lia)).
    unfold record_start_of in Hmax at 1. rewrite Hrow in Hmax. simpl in Hmax. lia. }
  assert (resource_list f rows stream (seqZ 0 (index + 1)) = resource_list f rows stream (seqZ 0 index) ++ [r]) as Es.
  { by apply omap_seq_snoc; [lia|]. }
  destruct (id Hf) as (_ & _ & Hlay & _). destruct (layout_record_blocks _ _ _ _ Hlay) as (_ & [_ Hu64] & _).
  eapply (steady_returns f _ _ _ (fun n => n = ps_payload_bytes acc + ms_len span)); [apply returns_add; [lia|done]|].
  intros ? ->. apply steady_ret. rewrite Es, !map_app, !concat_app, !length_app. cbn [map concat length].
  rewrite !app_nil_r. cbn [ps_payload_hash ps_payload_bytes].
  split; [eapply (pass_keys_push f Hf content modified rows Hst Hrows index acc row key_hash); (done || lia)|].
  split_and!; [lia|done|lia|intros _; lia].
Qed.

Lemma steady_audit_mdd :
  steady f (audit_mdd_opened f header) (fun r => r = (header, accepted_mdd f rows stream)) (reports header).
Proof.
  unfold audit_mdd_opened. eapply steady_bind.
  { apply (steady_for_list f _ _ pass_resources).
    - split; [by eapply pass_keys_new|]. cbn. split_and!; try done. apply hashes_new.
    - intros. by eapply steady_audit_resource. }
  intros acc (Hk & _ & Hp & Hb & _). pose proof (mdict_len_range f Hf) as Hr.
  assert (zlen (seqZ 0 (mdict_len f)) = mdict_len f) as El by (rewrite length_seqZ; lia). rewrite El in *.
  destruct (pass_keys_end f Hf content modified rows Hst Hrows acc Hk) as (_ & Hg & _).
  eapply steady_bind.
  { eapply (steady_audit_groups f Hf header content modified rows Hst Hrows); [exact Hg|]. intros. by apply steady_ret. }
  intros n Hn. by eapply steady_accepted.
Qed.

End ResourceProofs.

(** ** Files *)

(** What the end of an audit may be. *)
Definition audited (f : MdictFile) (row : Accepted) (r : (text * Accepted) + (text * Failure)) : Prop :=
  match r with
  | inl accepted => accepted = (header_json (Some (vl_header (mf_layout f))), row)
  | inr failure => reports (header_json (Some (vl_header (mf_layout f)))) failure
  end.

Lemma audit_file_correct `{EnvOk} opened body (P : MdictFile -> Accepted -> Prop) :
  wp opened (fun '(f, s) => file_ok f /\ state_ok f (retained_total (mf_layout f)) [] s) ->
  (forall f row header, file_ok f -> P f row -> steady f (body f header) (fun r => r = (header, row)) (reports header)) ->
  match opened with
  | Ok (f, s) => forall row, P f row -> exists r, audit_file opened body = Ok r /\ audited f row r
  | Err error => audit_file opened body = Ok (inr (header_json None, failure_new error None))
  | _ => False
  end.
Proof.
  intros Hopen Hbody. unfold audit_file. destruct opened as [[f s]|error| |]; try done.
  destruct Hopen as (Hf & Hs). intros row HP.
  pose proof (always_run f _ _ _ _ _ (Hbody f row (header_json (Some (vl_header (mf_layout f)))) Hf HP) Hs) as Hrun. unfold wpM in Hrun.
  destruct (body f (header_json (Some (vl_header (mf_layout f)))) s) as [[r|e| |] s']; try done.
  exists r. split; [done|]. by destruct Hrun.
Qed.

(** [row] is what the audit must report of a file that never changes and whose
    rows and records all decode. *)
Definition mdx_row `{Env} (f : MdictFile) (row : Accepted) : Prop :=
  exists content modified rows stream, stable (mf_source f) content modified /\
    all_rows f content = Ok rows /\ record_stream f content = Ok stream /\ row = accepted_mdx f rows stream /\
    ac_total_payload_bytes row <= u64_max.

Definition mdd_row `{Env} (f : MdictFile) (row : Accepted) : Prop :=
  exists content modified rows stream, stable (mf_source f) content modified /\
    all_rows f content = Ok rows /\ record_stream f content = Ok stream /\ row = accepted_mdd f rows stream.

(** ** The printed row *)

Lemma printable_fmt_bool b : printable (lit (fmt_bool b)).
Proof. destruct b; by apply printable_check. Qed.

Lemma printable_optional_json o : printable (optional_json o).
Proof.
  destruct o; cbn [optional_json]; [|by apply printable_check].
  apply printable_app; [by apply printable_check|].
  apply printable_app; [apply printable_escape_json|by apply printable_check].
Qed.

Ltac printable_steps :=
  repeat lazymatch goal with
    | |- printable (_ ++ _) => apply printable_app
    | |- printable (escape_json _) => apply printable_escape_json
    | |- printable (optional_json _) => apply printable_optional_json
    | |- printable (lit (fmt_dec _)) => apply printable_fmt_dec
    | |- printable (lit (fmt_bool _)) => apply printable_fmt_bool
    | |- printable (hex (sha256 _)) => apply printable_hex, sha256_ok
    | |- printable (quoted _) => apply printable_check; vm_compute; reflexivity
    | |- printable PROTOCOL => apply printable_check; vm_compute; reflexivity
    | |- printable (lit (String _ _)) => apply printable_check; vm_compute; reflexivity
    end.

Lemma printable_header_json h : printable (header_json h).
Proof. destruct h; cbn [header_json]; printable_steps. Qed.

(** * Properties *)

(** The audit of an MDX artifact that never changes and whose rows and
    records decode ends, and reports either the row that follows from the rows
    and the records alone (their number, the distinct and the duplicated keys,
    the digests of the keys and of the texts in physical order, the size of
    the texts) or an error of the library: none of its own cross-checks
    (sequential order, key by ordinal, complete and ordered match sets, first
    match) can fail. *)
Theorem v1_audit_mdx_correct `{EnvOk} fs path clock f s row :
  file_system_ok fs -> mdx_open fs path clock = Ok (f, s) -> mdx_row f row ->
  exists r, audit_mdx fs path clock = Ok r /\ audited f row r.
Proof.
  intros Hfs Hopen Hrow.
  enough (match mdx_open fs path clock with
          | Ok (f, s) => forall row, mdx_row f row -> exists r, audit_mdx fs path clock = Ok r /\ audited f row r
          | Err error => audit_mdx fs path clock = Ok (inr (header_json None, failure_new error None))
          | _ => False
          end) as Ha by (rewrite Hopen in Ha; by apply Ha).
  unfold audit_mdx. apply (audit_file_correct (mdx_open fs path clock) audit_mdx_opened mdx_row); [by apply opened_ok|].
  intros f' row' header Hf (content & modified & rows & stream & Hst & Hrows & Hstream & -> & Hb).
  by eapply steady_audit_mdx.
Qed.

(** The same for an MDD artifact, whose payload digest covers the digests
    of the resources: streaming a resource and materializing it always agree. *)
Theorem v1_audit_mdd_correct `{EnvOk} fs path clock f s row :
  file_system_ok fs -> mdd_open fs path clock = Ok (f, s) -> mdd_row f row ->
  exists r, audit_mdd fs path clock = Ok r /\ audited f row r.
Proof.
  intros Hfs Hopen Hrow.
  enough (match mdd_open fs path clock with
          | Ok (f, s) => forall row, mdd_row f row -> exists r, audit_mdd fs path clock = Ok r /\ audited f row r
          | Err error => audit_mdd fs path clock = Ok (inr (header_json None, failure_new error None))
          | _ => False
          end) as Ha by (rewrite Hopen in Ha; by apply Ha).
  unfold audit_mdd. apply (audit_file_correct (mdd_open fs path clock) audit_mdd_opened mdd_row); [by apply opened_ok|].
  intros f' row' header Hf (content & modified & rows & stream & Hst & Hrows & Hstream & ->).
  by eapply steady_audit_mdd.
Qed.

(** Whatever an audit ends with is printed as one line without control
    characters, whatever the header of the file and the messages hold. *)
Theorem audit_row_one_line f rows payload total r :
  audited f (accepted_row rows payload total) r -> printable (audit_row r).
Proof.
  intros Hr. destruct r as [[h a]|[h fl]]; cbn [audit_row].
  - cbn [audited] in Hr. pose proof (f_equal fst Hr) as Eh. pose proof (f_equal snd Hr) as Ea.
    cbn [fst snd] in Eh, Ea. subst h a. cbn [accepted_row ac_entries ac_distinct_keys ac_duplicate_groups ac_key_sha256
      ac_payload_sha256 ac_total_payload_bytes]. printable_steps; apply printable_header_json.
  - destruct Hr as [Eh _]. cbn [fst] in Eh. subst h.
    printable_steps; try apply printable_header_json.
    + destruct (fl_category fl); cbn [category_str]; printable_steps.
    + destruct (fl_ordinal fl); printable_steps.
Qed.

(** ** Witnesses *)

Definition audit_sample_row : Accepted :=
  match @all_rows simple_env (fst audit_sample) sample_v2, @record_stream simple_env (fst audit_sample) sample_v2 with
  | Ok rows, Ok stream => @accepted_mdx simple_env (fst audit_sample) rows stream
  | _, _ => @accepted_row [] [] 0
  end.

Example v1_audit_mdx_witness :
  (exists r, @audit_mdx simple_env sample_fs (lit "words.mdx") 0 = Ok r /\
     audited (fst audit_sample) audit_sample_row r) /\
  match @audit_mdx simple_env sample_fs (lit "words.mdx") 0 with
  | Ok (inl (_, a)) => Some (ac_entries a, ac_distinct_keys a, ac_duplicate_groups a, ac_total_payload_bytes a)
  | _ => None
  end = Some (4, 4, 0, 21).
Proof.
  split; [|vm_compute; reflexivity].
  apply (@v1_audit_mdx_correct simple_env simple_env_ok sample_fs (lit "words.mdx") 0 (fst audit_sample)
    (snd audit_sample) audit_sample_row sample_fs_ok audit_sample_opens).
  assert ((ac_total_payload_bytes audit_sample_row <=? u64_max) = true) as Hb%Z.leb_le by (vm_compute; reflexivity).
  revert Hb. unfold mdx_row, audit_sample_row.
  destruct (@all_rows simple_env (fst audit_sample) sample_v2) as [rows|e| |] eqn:Er;
    [|exfalso; revert Er; vm_compute; discriminate..].
  destruct (@record_stream simple_env (fst audit_sample) sample_v2) as [stream|e| |] eqn:Es;
    [|exfalso; revert Es; vm_compute; discriminate..].
  intros Hb. exists sample_v2, 1700000000000000000, rows, stream. split; [vm_compute; by split|]. by split_and!.
Defined.
