(* ===== verification/CorpusAudit.v ===== *)
(** [examples/corpus_audit.rs]: the audit of one locked artifact, which checks
    every route of the read interface against every other one.  The theorems
    say that no cross-check can fail on a file that never changes, and what the
    digests of the report cover. *)

From stdpp Require Import list_numbers.
From S2P Require Import Prelude Errors Types Options Budget Logic Utf8 Encoding Source Descriptors Header KeySection Format Normalize Samples LocatorIndex Arcs Core Dictionary SampleDictionary Keys Records Iter Locator Locate Lookup Mdx Mdd Flow Sha256 ToolText AuditSupport.

(** * The code *)

Definition PROTOCOL : text := lit "mdictlib-corpus-audit-v1".

Definition IDENTITY_PROTOCOL : text := lit "mdictlib-corpus-audit-identity-v1".

Definition TOOL : text := lit "mdictlib corpus_audit".

Inductive Kind := KMdx | KMdd.

(** [Kind::parse]; an argument that is not UTF-8 is neither. *)
Definition kind_parse (value : bytes) : Kind + string :=
  if bytes_eqb value (lit "mdx") then inl KMdx
  else if bytes_eqb value (lit "mdd") then inl KMdd
  else inr "kind must be `mdx` or `mdd`"%string.

(** [Kind::as_str] *)
Definition kind_str (kind : Kind) : text := lit (match kind with KMdx => "mdx" | KMdd => "mdd" end).

Record Audit := {
  au_entries : Z;
  au_key_sha256 : bytes;
  au_payload_sha256 : bytes;
}.

Definition USAGE : string := "usage: corpus_audit <mdx|mdd> <path> <expected-entries>".

(** The arguments of [run], the program's name excluded. *)
Definition parse_arguments (arguments : list bytes) : (Kind * bytes * Z) + string :=
  match arguments with
  | [] => inr USAGE
  | kind :: arguments =>
      match kind_parse kind with
      | inr error => inr error
      | inl kind =>
          match arguments with
          | [] => inr USAGE
          | path :: arguments =>
              match arguments with
              | [] => inr "expected-entries must be an unsigned decimal integer"%string
              | expected :: extra =>
                  match parse_u64 expected with
                  | None => inr "expected-entries must be an unsigned decimal integer"%string
                  | Some expected =>
                      match extra with
                      | [] => inl (kind, path, expected)
                      | _ => inr "unexpected extra argument"%string
                      end
                  end
              end
          end
      end
  end.

(** [identity_requested] *)
Definition identity_requested (arguments : list bytes) : bool :=
  match arguments with
  | [argument] => bytes_eqb argument (lit "--identity")
  | _ => false
  end.

(** The line of a report. *)
Definition audit_line (kind : Kind) (audit : Audit) : text :=
  PROTOCOL ++ [9] ++ kind_str kind ++ [9] ++ lit (fmt_dec (au_entries audit)) ++ [9]
    ++ hex (au_key_sha256 audit) ++ [9] ++ hex (au_payload_sha256 audit).

(** The binary search of [ordinal_position_by]; a [usize] range is empty after
    at most 64 halvings. *)
Fixpoint position_loop (fuel : nat) (ordinal_at : Z -> option Z) (target start end_ : Z)
    : Result (option Z) :=
  match fuel with
  | O => OutOfFuel
  | S fuel =>
      if start <? end_ then
        let middle := start + (end_ - start) / 2 in
        match ordinal_at middle with
        | None => Ok None
        | Some ordinal =>
            match Z.compare ordinal target with
            | Lt => position_loop fuel ordinal_at target (middle + 1) end_
            | Eq => Ok (Some middle)
            | Gt => position_loop fuel ordinal_at target start middle
            end
        end
      else Ok None
  end.

(** [ordinal_position_by] *)
Definition ordinal_position_by (len target : Z) (ordinal_at : Z -> option Z) : Result (option Z) :=
  position_loop 65 ordinal_at target 0 len.

(** [ordinal_position] *)
Definition ordinal_position (matches : LocatedKeys) (target : Z) : Result (option Z) :=
  ordinal_position_by (located_len matches) target (located_ordinal_at matches).

#[export] Instance KeyEntry_eq_dec : EqDecision KeyEntry.
Proof. solve_decision. Defined.

#[export] Instance MdxEntry_eq_dec : EqDecision MdxEntry.
Proof. solve_decision. Defined.

#[export] Instance MddResource_eq_dec : EqDecision MddResource.
Proof. solve_decision. Defined.

(** The messages: an error of the library, and a disagreement. *)
Definition failed (step : string) (current : Z) (error : Error) : string :=
  (step +++ " failed at ordinal " +++ fmt_dec current +++ ": " +++ error_display error)%string.

Definition at_ordinal (message : string) (current : Z) : string :=
  (message +++ " at ordinal " +++ fmt_dec current)%string.

(** [require_contiguous] *)
Definition require_contiguous (key : KeyEntry) (expected : Z) : Flow string unit :=
  check (ke_ordinal key =? expected)
    ("physical ordinal " +++ fmt_dec (ke_ordinal key) +++ " appeared where " +++ fmt_dec expected
       +++ " was required")%string.

(** The local variables of the loop over the keys. *)
Record Progress := {
  pg_key_digest : Sha256;
  pg_payload_digest : Sha256;
  pg_count : Z;
}.

Definition progress_new : Progress :=
  {| pg_key_digest := sha_new; pg_payload_digest := sha_new; pg_count := 0 |}.

Section Corpus.

Context `{Env} (f : MdictFile).

(** The body of the loop of [validate_raw_match_group_if_first]. *)
Definition validate_member (key : KeyEntry) (matches : LocatedKeys) (current : Z)
    (previous : option Z) (index : Z) : Flow string (option Z) :=
  let! ordinal := lift (or_panic (located_ordinal_at matches index)
                          "iterator indices stay inside the locator range") in
  check (match previous with Some value => negb (ordinal <=? value) | None => true end)
    (at_ordinal "raw duplicate ordinals were not strictly ascending" current) ;;*
  let* matched := try_or (key_at_ordinal f ordinal) (failed "duplicate key_at" current) in
  let* matched := some_or matched (at_ordinal "duplicate key_at returned no row" current) in
  check (bytes_eqb (ke_key matched) (ke_key key))
    (at_ordinal "raw duplicate set included a different key" current) ;;*
  fret (Some ordinal).

(** [validate_raw_match_group_if_first] *)
Definition validate_raw_match_group_if_first (key : KeyEntry) (matches : LocatedKeys) (current : Z)
    : Flow string bool :=
  check (bool_decide (match_basis (lk_basis matches) = Types.RawExact))
    (at_ordinal "raw locate used normalized matching" current) ;;*
  let! position := lift (ordinal_position matches (ke_ordinal key)) in
  check (match position with Some _ => true | None => false end)
    ("raw duplicate set omitted physical ordinal " +++ fmt_dec current)%string ;;*
  let! first := lift (matches_first matches) in
  if negb (ke_ordinal key =? first) then fret false
  else
    let* _ := for_list (validate_member key matches current) (seqZ 0 (located_len matches)) None in
    fret true.

(** The beginning of both loops: the key and its ordinal. *)
Definition audit_key (count : Z) (key : KeyEntry) : Flow string unit :=
  let* ordinal_key := try_or (key_at_ordinal f (ke_ordinal key)) (failed "key_at" count) in
  let* ordinal_key := some_or ordinal_key (at_ordinal "key_at returned no row" count) in
  check (bool_decide (ordinal_key = key)) (at_ordinal "key_at disagreed" count).

(** The end of both loops: the match set of the key, and what the first row of
    a group does. *)
Definition audit_matches (count : Z) (key : KeyEntry) (if_first : Flow string unit) : Flow string unit :=
  try_locate f (ke_key key) (failed "raw locate" count) (fun matches =>
    let* matches := some_or matches (at_ordinal "raw locate returned no matches" count) in
    let* is_group_first := validate_raw_match_group_if_first key matches count in
    if is_group_first then if_first else fret tt).

(** [count.checked_add(1)] and the digests of the next round. *)
Definition advance (count : Z) (key_digest payload_digest : Sha256) : Flow string Progress :=
  let* count := some_or (checked_add count 1) "physical entry count overflowed u64"%string in
  fret {| pg_key_digest := key_digest; pg_payload_digest := payload_digest; pg_count := count |}.

(** The body of the loop of [audit_mdx]. *)
Definition audit_entry (acc : Progress) (result : KeyEntry + Error) : Flow string Progress :=
  let count := pg_count acc in
  match result with
  | inr error => ffail (failed "key iteration" count error)
  | inl key =>
      require_contiguous key count ;;*
      let! key_digest := lift (digest_key (pg_key_digest acc) key) in
      audit_key count key ;;*
      let* entry := try_or (entry_at f (ke_ordinal key)) (failed "entry_at" count) in
      let* entry := some_or entry (at_ordinal "entry_at returned no row" count) in
      check (bool_decide (me_key entry = key)) (at_ordinal "entry_at key disagreed" count) ;;*
      let! payload_digest := lift (let? d := digest_key (pg_payload_digest acc) (me_key entry) in
                                   digest_bytes d (me_text entry)) in
      audit_matches count key (
        let* found := try_or (lookup f (ke_key key)) (failed "raw lookup" count) in
        let* found := some_or found (at_ordinal "raw lookup returned no entry" count) in
        check (bool_decide (found = entry)) (at_ordinal "raw lookup disagreed" count)) ;;*
      advance count key_digest payload_digest
  end.

(** The streamed and the materialized bytes of a resource. *)
Definition audit_span (count : Z) (span : MddResourceSpan) (resource : MddResource) : Flow string unit :=
  let* span_resource := try_or (span_read f span) (failed "span read" count) in
  check (bool_decide (span_resource = resource)) (at_ordinal "span read disagreed" count) ;;*
  check (ms_len span =? zlen (mr_bytes resource)) (at_ordinal "span length disagreed" count) ;;*
  let* copied := try_or (copy_to f hash_write_all span sha_new) (failed "span stream" count) in
  check (snd copied =? ms_len span) (at_ordinal "span stream length disagreed" count) ;;*
  let! materialized_digest := lift (sha_update sha_new (mr_bytes resource)) in
  let! streamed := lift (sha_finish (fst copied)) in
  let! materialized := lift (sha_finish materialized_digest) in
  check (bytes_eqb streamed materialized)
    (at_ordinal "span stream bytes disagreed with materialization" count).

(** The lookups of the first row of a group of resources. *)
Definition audit_resource_lookups (count : Z) (key : KeyEntry) (span : MddResourceSpan)
    (resource : MddResource) : Flow string unit :=
  let* lookup_span := try_or (lookup_span f (ke_key key)) (failed "raw lookup_span" count) in
  let* lookup_span := some_or lookup_span (at_ordinal "raw lookup_span returned no row" count) in
  check ((ke_ordinal (ms_key lookup_span) =? ke_ordinal key)
         && bytes_eqb (ke_key (ms_key lookup_span)) (ke_key key)
         && (ms_len lookup_span =? ms_len span)) (at_ordinal "raw lookup_span disagreed" count) ;;*
  let* found := try_or (mdd_lookup f (ke_key key)) (failed "raw lookup" count) in
  let* found := some_or found (at_ordinal "raw lookup returned no resource" count) in
  check (bool_decide (found = resource)) (at_ordinal "raw lookup disagreed" count).

(** The body of the loop of [audit_mdd]. *)
Definition audit_resource (acc : Progress) (result : KeyEntry + Error) : Flow string Progress :=
  let count := pg_count acc in
  match result with
  | inr error => ffail (failed "key iteration" count error)
  | inl key =>
      require_contiguous key count ;;*
      let! key_digest := lift (digest_key (pg_key_digest acc) key) in
      audit_key count key ;;*
      let* span := try_or (span_at f (ke_ordinal key)) (failed "span_at" count) in
      let* span := some_or span (at_ordinal "span_at returned no row" count) in
      check (bool_decide (ms_key span = key)) (at_ordinal "span_at key disagreed" count) ;;*
      let* resource := try_or (resource_at f (ke_ordinal key)) (failed "resource_at" count) in
      let* resource := some_or resource (at_ordinal "resource_at returned no row" count) in
      check (bool_decide (mr_key resource = key)) (at_ordinal "resource_at key disagreed" count) ;;*
      audit_span count span resource ;;*
      let! payload_digest := lift (let? d := digest_key (pg_payload_digest acc) (mr_key resource) in
                                   let? d := sha_update d (be_split 8 (ms_len span)) in
                                   sha_update d (mr_bytes resource)) in
      audit_matches count key (audit_resource_lookups count key span resource) ;;*
      advance count key_digest payload_digest
  end.

(** What both audits do with an open file. *)
Definition audit_opened (body : Progress -> KeyEntry + Error -> Flow string Progress) (expected : Z)
    : Flow string Audit :=
  check (mdict_len f =? expected)
    ("declared entry count is " +++ fmt_dec (mdict_len f) +++ "; lock expects " +++ fmt_dec expected)%string ;;*
  let* acc := for_iter (key_next f) drop_iter body (S (Z.to_nat (mdict_len f))) block_iter_new progress_new in
  check (pg_count acc =? expected)
    ("key iteration produced " +++ fmt_dec (pg_count acc) +++ " rows; lock expects " +++ fmt_dec expected)%string ;;*
  let! key_sha256 := lift (sha_finish (pg_key_digest acc)) in
  let! payload_sha256 := lift (sha_finish (pg_payload_digest acc)) in
  fret {| au_entries := pg_count acc; au_key_sha256 := key_sha256; au_payload_sha256 := payload_sha256 |}.

End Corpus.

(** [audit_mdx] and [audit_mdd] *)
Definition audit_file `{Env} (opened : Result (MdictFile * CoreState))
    (body : MdictFile -> Progress -> KeyEntry + Error -> Flow string Progress) (expected : Z)
    : Result (Audit + string) :=
  match opened with
  | Ok (f, s) => fst (audit_opened f (body f) expected s)
  | Err error => Ok (inr ("open failed: " +++ error_display error)%string)
  | Panic site => Panic site
  | OutOfFuel => OutOfFuel
  end.

Definition audit_mdx `{Env} (fs : bytes -> nat -> option FileState) (path : bytes) (expected : Z) (clock : nat) :=
  audit_file (mdx_open fs path clock) audit_entry expected.

Definition audit_mdd `{Env} (fs : bytes -> nat -> option FileState) (path : bytes) (expected : Z) (clock : nat) :=
  audit_file (mdd_open fs path clock) audit_resource expected.

(** [run] *)
Definition run `{Env} (fs : bytes -> nat -> option FileState) (arguments : list bytes) (clock : nat)
    : Result ((Kind * Audit) + string) :=
  match parse_arguments arguments with
  | inr error => Ok (inr error)
  | inl (kind, path, expected) =>
      let? audit := match kind with
                    | KMdx => audit_mdx fs path expected clock
                    | KMdd => audit_mdd fs path expected clock
                    end in
      Ok (match audit with inl audit => inl (kind, audit) | inr error => inr error end)
  end.

(** [main]: the line for the standard output, or the one for the standard
    error and the exit code of a failure. *)
Definition main `{Env} (version : text) (fs : bytes -> nat -> option FileState) (arguments : list bytes)
    (clock : nat) : Result (text + text) :=
  if identity_requested arguments
  then Ok (inl (IDENTITY_PROTOCOL ++ [9] ++ PROTOCOL ++ [9] ++ TOOL ++ [9] ++ version))
  else
    let? outcome := run fs arguments clock in
    Ok (match outcome with
        | inl (kind, audit) => inl (audit_line kind audit)
        | inr error => inr (lit "corpus-audit: " ++ sanitize_diagnostic (lit error))
        end).

(** * Specification *)

(** A message that reports an error of the library. *)
Definition reports (message : string) : Prop :=
  exists step current error, message = failed step current error.

Definition audit_of `{Env} (f : MdictFile) (rows : list DecodedKeyRow) (payload : bytes) : Audit :=
  {| au_entries := mdict_len f;
     au_key_sha256 := sha256 (concat (map key_row_bytes (row_entries rows (all_ordinals f))));
     au_payload_sha256 := sha256 payload |}.

Definition audit_of_mdx `{Env} f rows stream : Audit :=
  audit_of f rows (concat (map entry_bytes (entry_list f rows stream (all_ordinals f)))).

Definition audit_of_mdd `{Env} f rows stream : Audit :=
  audit_of f rows (concat (map resource_bytes (resource_list f rows stream (all_ordinals f)))).

(** * Lemmas *)

(** ** The binary search *)

(** A search over less than [2 ^ (fuel - 1)] elements makes at most [fuel]
    rounds. *)
Lemma position_loop_correct l ordinal_at target fuel start end_ :
  StronglySorted Z.lt l -> (forall i, 0 <= i < zlen l -> ordinal_at i = get_at l i) ->
  0 <= start <= end_ -> end_ <= zlen l ->
  (forall i a, get_at l i = Some a -> i < start -> a < target) ->
  (forall i a, get_at l i = Some a -> end_ <= i -> target < a) ->
  (0 < fuel)%nat -> end_ - start < 2 ^ (Z.of_nat fuel - 1) ->
  returns (position_loop fuel ordinal_at target start end_) (fun r =>
    match r with Some i => get_at l i = Some target | None => target ∉ l end).
Proof.
  intros Hl Hat. revert start end_. induction fuel as [|fuel IH]; intros start end_ Hse Hend Hlow Hhigh Hf0 Hfuel;
    [lia|].
  assert (end_ <= start -> target ∉ l) as Hnone.
  { intros Hle (i & Hi)%list_elem_of_lookup_1. apply lookup_get_at in Hi.
    destruct (Z.lt_ge_cases (Z.of_nat i) start); [pose proof (Hlow _ _ Hi)|pose proof (Hhigh _ _ Hi)]; lia. }
  cbn [position_loop]. destruct (Z.ltb_spec start end_) as [Hlt|]; [|by apply Hnone].
  set (middle := start + (end_ - start) / 2).
  assert (0 <= (end_ - start) / 2) by (apply Z.div_pos; lia).
  assert (2 * ((end_ - start) / 2) <= end_ - start < 2 * ((end_ - start) / 2) + 2) as Hhalf.
  { pose proof (Z.div_mod (end_ - start) 2). pose proof (Z.mod_pos_bound (end_ - start) 2). lia. }
  rewrite Hat by (unfold middle; lia). destruct (get_at_is_Some l middle) as [o Ho]; [unfold middle; lia|].
  rewrite Ho. replace (Z.of_nat (S fuel) - 1) with (Z.of_nat fuel) in Hfuel by lia.
  destruct (decide (fuel = 0%nat)) as [->|Hf]; [simpl in Hfuel; lia|].
  replace (Z.of_nat fuel) with (Z.succ (Z.of_nat fuel - 1)) in Hfuel by lia.
  rewrite Z.pow_succ_r in Hfuel by lia.
  destruct (Z.compare_spec o target) as [->|Hcmp|Hcmp]; [done|apply IH|apply IH]; try (unfold middle; lia); try done.
  - intros i a Ha Hi. destruct (Z.eq_dec i middle) as [->|]; [congruence|].
    destruct (Z.lt_ge_cases i start); [by eapply Hlow|].
    pose proof (sorted_get_at l i middle a o Hl Ha Ho ltac:(lia)). lia.
  - intros i a Ha Hi. destruct (Z.eq_dec i middle) as [->|]; [congruence|].
    pose proof (sorted_get_at l middle i o a Hl Ho Ha ltac:(lia)). lia.
Qed.

Lemma ordinal_position_by_correct l ordinal_at target :
  StronglySorted Z.lt l -> (forall i, 0 <= i < zlen l -> ordinal_at i = get_at l i) -> zlen l <= usize_max ->
  returns (ordinal_position_by (zlen l) target ordinal_at) (fun r =>
    match r with Some i => get_at l i = Some target | None => target ∉ l end).
Proof.
  intros Hl Hat Hmax. apply (position_loop_correct l); try done.
  - lia.
  - intros i a Ha Hi. apply get_at_Some in Ha. lia.
  - intros i a Ha Hi. apply get_at_Some in Ha. lia.
  - lia.
  - assert (2 ^ (Z.of_nat 65 - 1) = 18446744073709551616) as -> by reflexivity. unfold usize_max, u64_max in Hmax. lia.
Qed.

Section CorpusProofs.

Context `{EnvOk} (f : MdictFile) (Hf : file_ok f).

Context (content : bytes) (modified : Z) (rows : list DecodedKeyRow) (stream : bytes).

Context (Hst : stable (mf_source f) content modified) (Hrows : all_rows f content = Ok rows).

Context (Hstream : record_stream f content = Ok stream).

#[local] Notation keys := (row_keys rows).

#[local] Notation group key := (raw_matching keys key).

Lemma corpus_reports_new step current error : reports (failed step current error).
Proof. by eexists _, _, _. Qed.

Lemma raw_matching_length key : zlen (group key) <= mdict_len f.
Proof.
  rewrite <- (keys_len f Hf content modified rows Hst Hrows). unfold raw_matching.
  pose proof (filter_length_le (fun row => bytes_eqb (default [] (get_at keys row)) key) (seqZ 0 (zlen keys))) as Hle.
  rewrite length_seqZ in Hle. lia.
Qed.

(** The key of an ordinal of a group. *)
Lemma key_at_group key o r :
  o ∈ group key -> key_answer f o r -> exists e, r = Some e /\ ke_key e = key.
Proof.
  intros Ho Hr. apply raw_matching_elem in Ho. apply get_at_Some in Ho as Hrange.
  rewrite (key_answer_rows f content modified rows o r Hf Hst Hrows ltac:(lia) Hr).
  unfold row_keys, get_at in *. destruct (0 <=? o); [|done]. rewrite list_lookup_fmap in Ho.
  destruct (rows !! Z.to_nat o) as [row|]; [|done]. injection Ho as <-. by eexists.
Qed.

(** ** Match sets *)

Context (pos : Z) (row : DecodedKeyRow) (Hrow : get_at rows pos = Some row).

#[local] Notation key := (row_key row).

Lemma row_in_group : pos ∈ group key.
Proof. apply raw_matching_elem. by apply get_at_row_keys. Qed.

Lemma steady_validate matches current :
  lk_basis matches = RawExact -> denotes matches (group key) ->
  steady f (validate_raw_match_group_if_first f (row_entry pos row) matches current)
    (fun first => first = true -> head (group key) = Some pos) reports.
Proof.
  intros Hbasis [Hlen Hat]. unfold validate_raw_match_group_if_first. cbn [row_entry ke_ordinal ke_key].
  pose proof (raw_matching_sorted keys key) as Hsorted. pose proof (raw_matching_length key) as Hmax.
  pose proof (mdict_len_range f Hf) as Hrange.
  eapply steady_bind; [apply steady_check; by rewrite Hbasis|]. intros _ _.
  eapply steady_returns.
  { unfold ordinal_position. rewrite Hlen. apply (ordinal_position_by_correct (group key)); [done| |].
    - intros i Hi. apply Hat. lia.
    - unfold usize_max. lia. }
  intros position Hposition. cbv beta in Hposition.
  eapply steady_bind.
  { apply steady_check. destruct position; [done|]. exfalso. apply Hposition, row_in_group. }
  intros _ _. destruct (group key) as [|first rest] eqn:Eg.
  { pose proof row_in_group as Hin. rewrite Eg in Hin. by apply not_elem_of_nil in Hin. }
  eapply (steady_returns f _ _ _ (fun x => x = first)).
  { unfold matches_first. by rewrite Hat. }
  intros ? ->. destruct (Z.eqb_spec pos first) as [->|]; cbn [negb]; [|by apply steady_ret].
  eapply steady_bind.
  { apply (steady_for_list f _ _ (fun before previous => previous = get_at (first :: rest) (zlen before - 1))); [done|].
    intros before index after previous E ->.
    rewrite Hlen in E. apply seqZ_split in E as [-> Hi].
    destruct (get_at_is_Some (first :: rest) (zlen before)) as [o Ho]; [lia|]. unfold validate_member.
    eapply (steady_returns f _ _ _ (fun x => x = o)); [by rewrite Hat, Ho by lia|]. intros ? ->.
    eapply steady_bind.
    { apply steady_check. destruct (get_at (first :: rest) (zlen before - 1)) as [v|] eqn:Ev; [|done].
      pose proof (sorted_get_at _ _ _ _ _ Hsorted Ev Ho ltac:(lia)). apply negb_true_iff, Z.leb_gt. lia. }
    intros _ _.
    assert (o ∈ group key) as Hin by (rewrite Eg; by eapply get_at_elem_of).
    assert (0 <= o) by (apply raw_matching_elem, get_at_Some in Hin; lia).
    eapply steady_bind; [apply steady_try; [by apply (keeps_key_at_ordinal f Hf)|intros; apply corpus_reports_new]|].
    intros r Hr. destruct (key_at_group key o r Hin Hr) as (e & -> & Ek).
    eapply steady_bind; [by apply (steady_some f _ _ _ (fun x => x = e)); [congruence|]|]. intros ? ->.
    eapply steady_bind; [by apply steady_check, bytes_eqb_true|]. intros _ _. apply steady_ret.
    rewrite length_app. cbn [length]. rewrite <- Ho. f_equal. lia. }
  intros ? _. by apply steady_ret.
Qed.

Lemma steady_audit_matches current if_first :
  (head (group key) = Some pos -> steady f if_first (fun _ => True) reports) ->
  steady f (audit_matches f current (row_entry pos row) if_first) (fun _ => True) reports.
Proof.
  intros Hfirst. unfold audit_matches. cbn [row_entry ke_key].
  assert (key ∈ keys) as Hk by (by eapply get_at_elem_of, get_at_row_keys).
  apply (steady_locate f Hf); [intros; apply corpus_reports_new|intros _ Hl|intros matches _ Hl].
  { by eapply located_not_none in Hl. }
  destruct (located_group f content modified rows Hst Hrows key matches Hk Hl) as [Hb Hd].
  eapply steady_bind; [by apply (steady_some f _ _ _ (fun k => k = matches)); [congruence|]|]. intros ? ->.
  eapply steady_bind; [by apply steady_validate|]. intros first Hhead. cbv beta in Hhead.
  destruct first; [by apply Hfirst, Hhead|by apply steady_ret].
Qed.

Lemma pos_range : 0 <= pos < mdict_len f.
Proof.
  apply get_at_Some in Hrow as Hr. rewrite <- (rows_len f Hf content modified rows Hst Hrows). lia.
Qed.

Lemma steady_audit_key current :
  steady f (audit_key f current (row_entry pos row)) (fun _ => True) reports.
Proof.
  pose proof pos_range as Hpos. unfold audit_key. cbn [row_entry ke_ordinal].
  eapply steady_bind; [apply steady_try; [apply (keeps_key_at_ordinal f Hf); lia|intros; apply corpus_reports_new]|].
  intros r Hr. rewrite (key_answer_rows f content modified rows pos r Hf Hst Hrows ltac:(lia) Hr), Hrow.
  eapply steady_bind; [by apply (steady_some f _ _ _ (fun x => x = row_entry pos row)); [naive_solver|]|]. intros ? ->.
  by apply steady_check, bool_decide_eq_true.
Qed.

End CorpusProofs.

(** ** The loops *)

Section AuditProofs.

Context `{EnvOk} (f : MdictFile) (Hf : file_ok f).

Context (content : bytes) (modified : Z) (rows : list DecodedKeyRow) (stream : bytes).

Context (Hst : stable (mf_source f) content modified) (Hrows : all_rows f content = Ok rows).

Context (Hstream : record_stream f content = Ok stream).

#[local] Notation key_bytes pos := (concat (map key_row_bytes (row_entries rows (seqZ 0 pos)))).

(** The progress after the first [pos] keys, with what the payload digest has
    taken in. *)
Definition progress (payload : Z -> bytes) (pos : Z) (acc : Progress) : Prop :=
  pg_count acc = pos /\ hashes (key_bytes pos) (pg_key_digest acc) /\ hashes (payload pos) (pg_payload_digest acc).

Lemma steady_advance payload pos count key_digest payload_digest :
  0 <= pos < mdict_len f -> count = pos -> hashes (key_bytes (pos + 1)) key_digest ->
  hashes (payload (pos + 1)) payload_digest ->
  steady f (advance count key_digest payload_digest) (progress payload (pos + 1)) reports.
Proof.
  intros Hpos -> Hk Hp. pose proof (mdict_len_range f Hf). unfold advance, checked_add.
  rewrite (proj2 (Z.leb_le _ _)) by lia.
  eapply steady_bind; [by apply (steady_some f _ _ _ (fun n => n = pos + 1)); [congruence|]|]. intros ? ->.
  apply steady_ret. by split_and!.
Qed.

Definition entries_payload (pos : Z) : bytes := concat (map entry_bytes (entry_list f rows stream (seqZ 0 pos))).

Definition resources_payload (pos : Z) : bytes :=
  concat (map resource_bytes (resource_list f rows stream (seqZ 0 pos))).

(** What both loops know about the key they are given. *)
Lemma key_row_of pos e :
  0 <= pos < mdict_len f -> key_answer f pos (Some e) -> exists row, get_at rows pos = Some row /\ e = row_entry pos row.
Proof.
  intros Hpos He. pose proof (key_answer_rows f content modified rows pos _ Hf Hst Hrows ltac:(lia) He) as E.
  destruct (get_at rows pos) as [row|]; [|done]. injection E as ->. by exists row.
Qed.

Lemma steady_corpus_entry pos acc e :
  0 <= pos < mdict_len f -> key_answer f pos (Some e) -> progress entries_payload pos acc ->
  steady f (audit_entry f acc (inl e)) (progress entries_payload (pos + 1)) reports.
Proof.
  intros Hpos He (Hcount & Hk & Hp). destruct (key_row_of pos e Hpos He) as (row & Hrow & ->).
  unfold audit_entry, require_contiguous. rewrite Hcount. cbn [row_entry ke_ordinal].
  fold (row_entry pos row).
  eapply steady_bind; [apply steady_check, Z.eqb_refl|]. intros _ _.
  eapply steady_returns; [by apply digest_key_correct|]. intros key_digest Hkd. cbv beta in Hkd.
  rewrite <- row_entries_snoc in Hkd by (done || lia).
  eapply steady_bind; [by eapply (steady_audit_key f Hf content modified rows)|]. intros _ _.
  eapply steady_bind; [apply steady_try; [apply (keeps_entry_at f Hf); lia|intros; apply corpus_reports_new]|].
  intros [entry|] Hentry; [|lia]. destruct Hentry as [_ Hentry].
  eapply steady_bind; [by apply (steady_some f _ _ _ (fun x => x = entry)); [congruence|]|]. intros ? ->.
  destruct (entry_row f Hf content modified rows stream Hst Hrows Hstream pos entry ltac:(lia) Hentry) as (Hof & row' & Hrow' & Ekey).
  assert (row' = row) as -> by congruence.
  eapply steady_bind; [by apply steady_check, bool_decide_eq_true|]. intros _ _.
  eapply (steady_returns f _ _ _ (hashes (entries_payload (pos + 1)))).
  { pose proof (digest_key_correct _ _ (me_key entry) Hp) as Hd.
    destruct (digest_key (pg_payload_digest acc) (me_key entry)) as [d| | |]; try done. cbn [rbind] in *.
    pose proof (digest_bytes_correct _ _ (me_text entry) Hd) as Hb.
    destruct (digest_bytes d (me_text entry)) as [d'| | |]; try done. simpl in Hb |- *.
    unfold entries_payload, entry_list in *. rewrite (omap_seq_snoc _ pos entry) by (lia || by rewrite Hof).
    rewrite map_app, concat_app. cbn [map concat]. unfold entry_bytes at 2. by rewrite app_nil_r, app_assoc. }
  intros payload_digest Hpd.
  eapply steady_bind.
  { eapply (steady_audit_matches f Hf content modified rows Hst Hrows pos row Hrow). intros Hhead.
    cbn [row_entry ke_key].
    eapply steady_bind; [apply steady_try; [apply (keeps_lookup f Hf)|intros; apply corpus_reports_new]|].
    intros found Ha. destruct (answers_first f content modified rows Hst Hrows _ _ _ _ Ha Hhead) as (e & -> & He').
    eapply steady_bind; [by apply (steady_some f _ _ _ (fun x => x = e)); [congruence|]|]. intros ? ->.
    destruct (entry_row f Hf content modified rows stream Hst Hrows Hstream pos e ltac:(lia) He') as [Hof' _].
    apply steady_check, bool_decide_eq_true. congruence. }
  intros _ _. by apply steady_advance.
Qed.

Lemma steady_audit_span pos current span resource :
  0 <= pos -> span_ok f pos span -> resource_ok f pos resource ->
  steady f (audit_span f current span resource) (fun _ => True) reports.
Proof.
  intros Hpos Hs Hr.
  destruct (resource_slice f Hf content modified rows stream Hst Hrows Hstream pos span resource Hpos Hs Hr) as [Hof Hslice].
  destruct (span_row f Hf content modified rows Hst Hrows pos span Hpos Hs) as (_ & _ & _ & _ & _ & _ & _ & Hlen).
  unfold audit_span.
  eapply steady_bind; [apply steady_try; [by apply (keeps_span_read f Hf pos)|intros; apply corpus_reports_new]|].
  intros span_resource Hsr.
  destruct (resource_slice f Hf content modified rows stream Hst Hrows Hstream pos span span_resource Hpos Hs Hsr) as [Hof' _].
  eapply steady_bind; [apply steady_check, bool_decide_eq_true; congruence|]. intros _ _.
  pose proof (slice_length _ _ _ _ Hslice) as Hz.
  eapply steady_bind; [apply steady_check, Z.eqb_eq; lia|]. intros _ _.
  eapply steady_bind.
  { apply steady_try; [by apply (keeps_copy_hash f Hf content modified rows stream Hst Hrows Hstream pos)|].
    intros; apply corpus_reports_new. }
  intros [hash n] (-> & bytes & Hh & Hslice'). cbn [fst snd]. rewrite Hslice in Hslice'. injection Hslice' as <-.
  eapply steady_bind; [apply steady_check, Z.eqb_refl|]. intros _ _.
  eapply steady_returns; [apply (returns_update []), hashes_new|]. intros direct Hdirect. cbv beta in Hdirect.
  eapply steady_returns; [by eapply (returns_finish _ _ (fun d => d = sha256 (mr_bytes resource)))|]. intros ? ->.
  eapply steady_returns; [by eapply (returns_finish _ _ (fun d => d = sha256 (mr_bytes resource)))|]. intros ? ->.
  by apply steady_check, bytes_eqb_true.
Qed.

Lemma steady_resource_lookups pos row current span resource :
  get_at rows pos = Some row -> 0 <= pos -> span_ok f pos span -> resource_ok f pos resource ->
  head (raw_matching (row_keys rows) (row_key row)) = Some pos ->
  steady f (audit_resource_lookups f current (row_entry pos row) span resource) (fun _ => True) reports.
Proof.
  intros Hrow Hpos Hs Hr Hhead. unfold audit_resource_lookups. cbn [row_entry ke_key ke_ordinal].
  eapply steady_bind; [apply steady_try; [apply (keeps_lookup_span f Hf)|intros; apply corpus_reports_new]|].
  intros found Ha. destruct (answers_first f content modified rows Hst Hrows _ _ _ _ Ha Hhead) as (ls & -> & Hls).
  eapply steady_bind; [by apply (steady_some f _ _ _ (fun x => x = ls)); [congruence|]|]. intros ? ->.
  destruct (span_row f Hf content modified rows Hst Hrows pos span Hpos Hs) as (r1 & Hr1 & _ & Es1 & Ee1 & _ & _ & Hl1).
  destruct (span_row f Hf content modified rows Hst Hrows pos ls Hpos Hls) as (r2 & Hr2 & Ek2 & Es2 & Ee2 & _ & _ & Hl2).
  assert (r1 = row) as -> by congruence. assert (r2 = row) as -> by congruence.
  eapply steady_bind.
  { apply steady_check. rewrite Ek2. cbn [row_entry ke_ordinal ke_key].
    rewrite Z.eqb_refl, (proj2 (bytes_eqb_true _ _) eq_refl). apply Z.eqb_eq. lia. }
  intros _ _.
  eapply steady_bind; [apply steady_try; [apply (keeps_mdd_lookup f Hf)|intros; apply corpus_reports_new]|].
  intros found Hb. destruct (answers_first f content modified rows Hst Hrows _ _ _ _ Hb Hhead) as (r & -> & Hr').
  eapply steady_bind; [by apply (steady_some f _ _ _ (fun x => x = r)); [congruence|]|]. intros ? ->.
  destruct (resource_slice f Hf content modified rows stream Hst Hrows Hstream pos span resource Hpos Hs Hr) as [Hof _].
  destruct (resource_slice f Hf content modified rows stream Hst Hrows Hstream pos span r Hpos Hs Hr') as [Hof' _].
  apply steady_check, bool_decide_eq_true. congruence.
Qed.

Lemma steady_corpus_resource pos acc e :
  0 <= pos < mdict_len f -> key_answer f pos (Some e) -> progress resources_payload pos acc ->
  steady f (audit_resource f acc (inl e)) (progress resources_payload (pos + 1)) reports.
Proof.
  intros Hpos He (Hcount & Hk & Hp). destruct (key_row_of pos e Hpos He) as (row & Hrow & ->).
  unfold audit_resource, require_contiguous. rewrite Hcount. cbn [row_entry ke_ordinal].
  fold (row_entry pos row).
  eapply steady_bind; [apply steady_check, Z.eqb_refl|]. intros _ _.
  eapply steady_returns; [by apply digest_key_correct|]. intros key_digest Hkd. cbv beta in Hkd.
  rewrite <- row_entries_snoc in Hkd by (done || lia).
  eapply steady_bind; [by eapply (steady_audit_key f Hf content modified rows)|]. intros _ _.
  eapply steady_bind; [apply steady_try; [apply (keeps_span_at f Hf); lia|intros; apply corpus_reports_new]|].
  intros [span|] Hspan; [|lia]. destruct Hspan as [_ Hspan].
  eapply steady_bind; [by apply (steady_some f _ _ _ (fun x => x = span)); [congruence|]|]. intros ? ->.
  destruct (span_row f Hf content modified rows Hst Hrows pos span ltac:(lia) Hspan) as (r1 & Hr1 & Ek1 & _).
  assert (r1 = row) as -> by congruence.
  eapply steady_bind; [by apply steady_check, bool_decide_eq_true|]. intros _ _.
  eapply steady_bind; [apply steady_try; [apply (keeps_resource_at f Hf); lia|intros; apply corpus_reports_new]|].
  intros [resource|] Hresource; [|lia]. destruct Hresource as [_ Hresource].
  eapply steady_bind; [by apply (steady_some f _ _ _ (fun x => x = resource)); [congruence|]|]. intros ? ->.
  destruct (resource_slice f Hf content modified rows stream Hst Hrows Hstream pos span resource ltac:(lia) Hspan Hresource)
    as [Hof Hslice].
  assert (mr_key resource = row_entry pos row) as Ekey.
  { unfold resource_of, row_descriptor in Hof. rewrite Hrow in Hof. simpl in Hof.
    destruct (slice stream _ _); [|done]. simpl in Hof. by injection Hof as <-. }
  eapply steady_bind; [by apply steady_check, bool_decide_eq_true|]. intros _ _.
  eapply steady_bind; [apply (steady_audit_span pos); (done || lia)|]. intros _ _.
  eapply (steady_returns f _ _ _ (hashes (resources_payload (pos + 1)))).
  { pose proof (digest_key_correct _ _ (mr_key resource) Hp) as Hd.
    destruct (digest_key (pg_payload_digest acc) (mr_key resource)) as [d| | |]; try done. cbn [rbind] in *.
    pose proof (slice_length _ _ _ _ Hslice) as Hz.
    destruct (span_row f Hf content modified rows Hst Hrows pos span ltac:(lia) Hspan) as (_ & _ & _ & _ & _ & _ & _ & Hl).
    replace (ms_len span) with (zlen (mr_bytes resource)) by lia.
    pose proof (digest_bytes_correct _ _ (mr_bytes resource) Hd) as Hb. unfold digest_bytes in Hb.
    destruct (let? digest := sha_update d _ in _) as [d'| | |]; try done. simpl in Hb |- *.
    unfold resources_payload, resource_list in *. rewrite (omap_seq_snoc _ pos resource) by (done || lia).
    rewrite map_app, concat_app. cbn [map concat]. unfold resource_bytes at 2. by rewrite app_nil_r, app_assoc. }
  intros payload_digest Hpd.
  eapply steady_bind.
  { eapply (steady_audit_matches f Hf content modified rows Hst Hrows pos row Hrow). intros Hhead.
    apply steady_resource_lookups; (done || lia). }
  intros _ _. by apply steady_advance.
Qed.

(** The frame of both audits. *)
Lemma steady_audit_opened body payload :
  payload 0 = [] ->
  (forall pos acc e, 0 <= pos < mdict_len f -> key_answer f pos (Some e) -> progress payload pos acc ->
     steady f (body acc (inl e)) (progress payload (pos + 1)) reports) ->
  (forall acc error, steady f (body acc (inr error)) (fun _ => False) reports) ->
  steady f (audit_opened f body (mdict_len f)) (fun a => a = audit_of f rows (payload (mdict_len f))) reports.
Proof.
  intros Hnil Hbody Herror. unfold audit_opened.
  eapply steady_bind; [apply steady_check, Z.eqb_refl|]. intros _ _.
  eapply steady_bind.
  { apply (steady_for_keys f Hf _ _ (progress payload)).
    - split; [done|]. rewrite Hnil. split; apply hashes_new.
    - intros pos acc e Hpos He Hp. by apply Hbody.
    - intros pos acc error _. apply Herror. }
  intros acc (Hcount & Hk & Hp).
  eapply steady_bind; [by apply steady_check, Z.eqb_eq|]. intros _ _.
  eapply steady_returns; [by eapply (returns_finish _ _ (fun d => d = sha256 _))|]. intros ? ->.
  eapply steady_returns; [by eapply (returns_finish _ _ (fun d => d = sha256 _))|]. intros ? ->.
  apply steady_ret. unfold audit_of, all_ordinals. by rewrite Hcount.
Qed.

Lemma steady_corpus_mdx :
  steady f (audit_opened f (audit_entry f) (mdict_len f)) (fun a => a = audit_of_mdx f rows stream) reports.
Proof.
  apply (steady_audit_opened _ entries_payload); [done|intros; by apply steady_corpus_entry|].
  intros acc error. apply steady_fail, corpus_reports_new.
Qed.

Lemma steady_corpus_mdd :
  steady f (audit_opened f (audit_resource f) (mdict_len f)) (fun a => a = audit_of_mdd f rows stream) reports.
Proof.
  apply (steady_audit_opened _ resources_payload); [done|intros; by apply steady_corpus_resource|].
  intros acc error. apply steady_fail, corpus_reports_new.
Qed.

End AuditProofs.

(** ** Files *)

Lemma corpus_file_correct `{EnvOk} opened body f s row :
  wp opened (fun '(f, s) => file_ok f /\ state_ok f (retained_total (mf_layout f)) [] s) -> opened = Ok (f, s) ->
  (file_ok f -> steady f (audit_opened f (body f) (mdict_len f)) (fun a => a = row) reports) ->
  exists r, audit_file opened body (mdict_len f) = Ok r /\
    match r with inl a => a = row | inr message => reports message end.
Proof.
  intros Hopen -> Hbody. destruct Hopen as (Hf & Hs). unfold audit_file.
  pose proof (always_run f _ _ _ _ _ (Hbody Hf) Hs) as Hrun. unfold wpM in Hrun.
  destruct (audit_opened f (body f) (mdict_len f) s) as [[r|e| |] s']; try done. exists r. split; [done|].
  by destruct Hrun.
Qed.

(** The file kind and the report of an artifact kind. *)
Definition container (kind : Kind) : ContainerKind := match kind with KMdx => Mdx | KMdd => Mdd end.

Definition audit_of_kind `{Env} (kind : Kind) f rows stream : Audit :=
  match kind with KMdx => audit_of_mdx f rows stream | KMdd => audit_of_mdd f rows stream end.

(** * Properties *)

(** The membership search of the corpus audit finds a member of a
    strictly ascending list of [usize] length, at its position, and reports a
    stranger as absent; the halving ends in at most 65 rounds. *)
Theorem ordinal_position_correct l ordinal_at target :
  StronglySorted Z.lt l -> (forall i, 0 <= i < zlen l -> ordinal_at i = get_at l i) -> zlen l <= usize_max ->
  exists r, ordinal_position_by (zlen l) target ordinal_at = Ok r /\
    (forall i, r = Some i <-> get_at l i = Some target) /\ (r = None <-> target ∉ l).
Proof.
  intros Hl Hat Hmax. pose proof (ordinal_position_by_correct l ordinal_at target Hl Hat Hmax) as Hr.
  destruct (ordinal_position_by _ _ _) as [r| | |]; try done. simpl in Hr. exists r. split; [done|]. split.
  - intros i. destruct r as [j|].
    + split; [by intros [= <-]|]. intros Hi. f_equal. destruct (Z.lt_trichotomy i j) as [Hlt|[->|Hlt]]; [|done|].
      * pose proof (sorted_get_at l i j _ _ Hl Hi Hr Hlt). lia.
      * pose proof (sorted_get_at l j i _ _ Hl Hr Hi Hlt). lia.
    + split; [done|]. intros Hi%get_at_elem_of. done.
  - destruct r as [j|]; [|done]. split; [done|]. intros Hn. by apply get_at_elem_of in Hr.
Qed.

(** C32: run on its three arguments (the kind, the path and the number of
    entries the file declares), the corpus audit of a file that never changes
    and whose rows and records decode ends and reports exactly the digests of
    the keys and of the contents, row by row in physical order; otherwise the
    message is that of an error of the library.  No route of the read
    interface disagrees with another one. *)
Theorem corpus_audit_correct `{EnvOk} fs path kind clock f s content modified rows stream :
  file_system_ok fs -> Core.open fs path (container kind) open_options_new clock = Ok (f, s) ->
  stable (mf_source f) content modified -> all_rows f content = Ok rows -> record_stream f content = Ok stream ->
  exists r, run fs [kind_str kind; path; lit (fmt_dec (mdict_len f))] clock = Ok r /\
    match r with
    | inl (k, audit) => k = kind /\ audit = audit_of_kind kind f rows stream
    | inr message => reports message
    end.
Proof.
  intros Hfs Hopen Hst Hrows Hstream.
  pose proof (opened_ok fs path (container kind) clock Hfs) as Hok.
  assert (parse_arguments [kind_str kind; path; lit (fmt_dec (mdict_len f))] = inl (kind, path, mdict_len f)) as Hargs.
  { assert (file_ok f) as Hf by (rewrite Hopen in Hok; by destruct Hok).
    assert (kind_parse (kind_str kind) = inl kind) as Hk by (by destruct kind).
    unfold parse_arguments. rewrite Hk, parse_u64_fmt_dec by (by apply mdict_len_range). done. }
  unfold run. rewrite Hargs. destruct kind; cbn [container audit_of_kind] in *.
  - destruct (corpus_file_correct (mdx_open fs path clock) audit_entry f s (audit_of_mdx f rows stream) Hok Hopen)
      as (r & Hr & Hcases); [intros Hf; by eapply steady_corpus_mdx|].
    unfold audit_mdx. rewrite Hr. cbn [rbind]. eexists. split; [done|]. by destruct r.
  - destruct (corpus_file_correct (mdd_open fs path clock) audit_resource f s (audit_of_mdd f rows stream) Hok Hopen)
      as (r & Hr & Hcases); [intros Hf; by eapply steady_corpus_mdd|].
    unfold audit_mdd. rewrite Hr. cbn [rbind]. eexists. split; [done|]. by destruct r.
Qed.

(** ** Witnesses *)

Example ordinal_position_witness :
  exists r, ordinal_position_by 4 9 (get_at [2; 5; 9; 11]) = Ok r /\
    (forall i, r = Some i <-> get_at [2; 5; 9; 11] i = Some 9) /\ (r = None <-> 9 ∉ [2; 5; 9; 11]).
Proof.
  apply (ordinal_position_correct [2; 5; 9; 11] (get_at [2; 5; 9; 11]) 9).
  - repeat (constructor; [|by repeat constructor]). constructor.
  - done.
  - vm_compute. discriminate.
Defined.

Example corpus_audit_witness :
  let dictionary := fst audit_sample in
  (exists rows stream r,
     @run simple_env sample_fs [lit "mdx"; lit "words.mdx"; lit (fmt_dec (mdict_len dictionary))] 0 = Ok r /\
     match r with
     | inl (k, audit) => k = KMdx /\ audit = @audit_of_mdx simple_env dictionary rows stream
     | inr message => reports message
     end) /\
  match @run simple_env sample_fs [lit "mdx"; lit "words.mdx"; lit "4"] 0 with
  | Ok (inl (_, audit)) => Some (au_entries audit)
  | _ => None
  end = Some 4.
Proof.
  intros dictionary. split; [|vm_compute; reflexivity].
  destruct (@all_rows simple_env dictionary sample_v2) as [rows|e| |] eqn:Er;
    [|exfalso; revert Er; vm_compute; discriminate..].
  destruct (@record_stream simple_env dictionary sample_v2) as [stream|e| |] eqn:Es;
    [|exfalso; revert Es; vm_compute; discriminate..].
  exists rows, stream.
  exact (@corpus_audit_correct simple_env simple_env_ok sample_fs (lit "words.mdx") KMdx 0 dictionary
    (snd audit_sample) sample_v2 1700000000000000000 rows stream sample_fs_ok audit_sample_opens
    audit_sample_stable Er Es).
Defined.
