(* ===== verification/Dump.v ===== *)
(** [examples/v1_dump.rs]: one line per entry, the digest of the payload and
    the key, for comparing two readers.  The theorems say what is printed, and
    that the printed lines determine the digests and the keys. *)

From stdpp Require Import list_numbers.
From S2P Require Import Prelude Errors Types Options Budget Logic Utf8 Encoding Source Crypto Descriptors Header KeySection Format Normalize Samples LocatorIndex Arcs Core Dictionary SampleDictionary Keys Records Iter Locator Locate Lookup Mdx Mdd Flow Sha256 ToolText AuditSupport.

(** * The code *)

(** The line of an entry; [writeln!] ends it. *)
Definition dump_line (digest : bytes) (key : text) : text := hex digest ++ [9] ++ sanitize key ++ [10].

(** A failure keeps what has been written. *)
Definition Dump (W A : Type) : Type := Flow (string * W) A.

Section Dump.

Context `{Env} (f : MdictFile) {W : Type} (write : W -> text -> W + string).

(** [writeln!(output, ..).map_err(|error| error.to_string())?] *)
Definition write_line (output : W) (line : text) : Dump W W :=
  match write output line with
  | inl output => fret output
  | inr error => ffail (error, output)
  end.

(** The body of the loop of [dump_mdx]. *)
Definition dump_entry (output : W) (result : MdxEntry + Error) : Dump W W :=
  match result with
  | inr error => ffail ("entry failed: " +++ error_display error, output)%string
  | inl entry =>
      let! digest := lift (let? hash := sha_update sha_new (me_text entry) in sha_finish hash) in
      write_line output (dump_line digest (ke_key (me_key entry)))
  end.

(** [dump_mdx], after the file has opened. *)
Definition dump_mdx_opened (output : W) : Dump W W :=
  for_iter (entry_next f) (fun it => drop_iter (ii_records it)) dump_entry
    (S (Z.to_nat (mdict_len f))) item_iter_new output.

(** The body of the loop of [dump_mdd]. *)
Definition dump_resource (output : W) (index : Z) : Dump W W :=
  let* span := try_or (span_at f index) (fun error => ("span failed: " +++ error_display error, output)%string) in
  let* span := some_or span ("ordinal " +++ fmt_dec index +++ " had no span", output)%string in
  let* resource := try_or (span_read f span) (fun error => ("resource failed: " +++ error_display error, output)%string) in
  let! digest := lift (let? hash := sha_update sha_new (mr_bytes resource) in sha_finish hash) in
  write_line output (dump_line digest (ke_key (ms_key span))).

(** [dump_mdd], after the file has opened. *)
Definition dump_mdd_opened (output : W) : Dump W W :=
  for_list dump_resource (seqZ 0 (mdict_len f)) output.

End Dump.

(** The beginning of both: the file is opened. *)
Definition dump_file `{Env} {W} (opened : Result (MdictFile * CoreState)) (body : MdictFile -> W -> Dump W W)
    (output : W) : Result (W + (string * W)) :=
  match opened with
  | Ok (f, s) => fst (body f output s)
  | Err error => Ok (inr ("open failed: " +++ error_display error, output)%string)
  | Panic site => Panic site
  | OutOfFuel => OutOfFuel
  end.

(** [dump_mdx] and [dump_mdd] *)
Definition dump_mdx `{Env} {W} (write : W -> text -> W + string) fs path clock (output : W) :=
  dump_file (mdx_open fs path clock) (fun f => dump_mdx_opened f write) output.

Definition dump_mdd `{Env} {W} (write : W -> text -> W + string) fs path clock (output : W) :=
  dump_file (mdd_open fs path clock) (fun f => dump_mdd_opened f write) output.

(** [main], with the buffered output and its [flush]: what has been written,
    and the complaint of a failure. *)
Definition main `{Env} {W} (write : W -> text -> W + string) (flush : W -> W + string) fs (arguments : list bytes)
    clock (output : W) : Result (W * option text) :=
  match arguments with
  | [] => Ok (output, Some (lit "usage: v1_dump <path>"))
  | [path] =>
      let? result := if is_mdd path then dump_mdd write fs path clock output else dump_mdx write fs path clock output in
      Ok (match result with
          | inl output =>
              match flush output with
              | inl output => (output, None)
              | inr message => (output, Some (lit ("v1_dump: " +++ message)%string))
              end
          | inr (message, output) => (output, Some (lit ("v1_dump: " +++ message)%string))
          end)
  | _ => Ok (output, Some (lit "v1_dump: unexpected extra argument"))
  end.

(** * Specification *)

(** What is printed of an entry and of a resource. *)
Definition entry_fields (e : MdxEntry) : bytes * text := (sha256 (me_text e), ke_key (me_key e)).

Definition resource_fields (r : MddResource) : bytes * text := (sha256 (mr_bytes r), ke_key (mr_key r)).

Definition dump_text (fields : list (bytes * text)) : text :=
  concat (map (fun x => dump_line (fst x) (snd x)) fields).

(** A destination in memory. *)
Definition append (output line : text) : text + string := inl (output ++ line).

(** * Lemmas *)

(** ** Reading the lines back *)

(** The digits of a digest, up to the tab. *)
Fixpoint until (stop : Z) (l : list Z) : option (list Z * list Z) :=
  match l with
  | [] => None
  | c :: l => if c =? stop then Some ([], l) else '(a, b) ← until stop l; Some (c :: a, b)
  end.

Lemma until_app stop a b : stop ∉ a -> until stop (a ++ stop :: b) = Some (a, b).
Proof.
  induction a as [|c a IH]; intros Ha; simpl; [by rewrite Z.eqb_refl|].
  apply not_elem_of_cons in Ha as [Hc Ha]. rewrite (proj2 (Z.eqb_neq _ _)) by done. by rewrite IH.
Qed.

(** Each sanitized character, as bytes. *)
Lemma sanitize_bytes key : sanitize key = concat (map (fun c => utf8_encode (sanitize_char c)) (chars key)).
Proof.
  unfold sanitize, map_chars. induction (chars key) as [|c cs IH]; [done|].
  cbn [map concat]. by rewrite utf8_encode_app, IH.
Qed.

Lemma sanitize_byte key b : b ∈ sanitize key -> b <> 9 /\ b <> 10.
Proof.
  intros Hb. rewrite sanitize_bytes in Hb. pose proof (chars_scalar key) as Hc. revert Hb.
  induction Hc as [|c cs Hc _ IH]; cbn [map concat]; [by intros ?%not_elem_of_nil|].
  intros [Hb|Hb]%elem_of_app; [|by apply IH].
  unfold utf8_encode in Hb. apply list_elem_of_In, in_concat in Hb as (l & Hl & Hb).
  apply in_map_iff in Hl as (d & <- & Hd).
  pose proof (sanitize_char_ok c Hc) as Hf. rewrite Forall_forall in Hf. apply list_elem_of_In, Hf in Hd as (Hs & H9 & H10 & _).
  apply is_scalar_true in Hs. unfold utf8_encode_char in Hb.
  assert (forall x, 0 <= x mod 64) by (intros; by apply Z.mod_pos_bound).
  destruct (Z.ltb_spec d 128); [simpl in Hb; destruct Hb as [<-|[]]; done|].
  pose proof (H (d / 4096)). pose proof (H (d / 64)). pose proof (H d).
  pose proof (Z.div_pos d 64 ltac:(lia) ltac:(lia)). pose proof (Z.div_pos d 4096 ltac:(lia) ltac:(lia)).
  pose proof (Z.div_pos d 262144 ltac:(lia) ltac:(lia)).
  destruct (d <? 2048); [|destruct (d <? 65536)]; simpl in Hb; intuition lia.
Qed.

Lemma hex_byte bytes b : bytes_ok bytes -> b ∈ hex bytes -> b <> 9.
Proof.
  intros Hb Hin ->. pose proof (printable_hex bytes Hb) as Hp. unfold printable in Hp. rewrite Forall_forall in Hp.
  by specialize (Hp 9 Hin).
Qed.

Lemma sanitize_inj a b : text_ok a -> text_ok b -> sanitize a = sanitize b -> a = b.
Proof.
  intros Ha Hb E. apply chars_inj; [done|done|].
  destruct (sanitize_round_trip a []) as [Ea _]; [by left|]. destruct (sanitize_round_trip b []) as [Eb _]; [by left|].
  rewrite E in Ea. rewrite Ea in Eb. by injection Eb.
Qed.

Lemma dump_text_nil x fields : ~ (dump_text [] = dump_text (x :: fields)).
Proof.
  intros E%(f_equal length). unfold dump_text in E. cbn [map concat] in E. unfold dump_line in E.
  rewrite !length_app in E. cbn [length] in E. lia.
Qed.

(** ** The loops *)

Section DumpProofs.

Context `{EnvOk} (f : MdictFile) (Hf : file_ok f).

Context (content : bytes) (modified : Z) (rows : list DecodedKeyRow) (stream : bytes).

Context (Hst : stable (mf_source f) content modified) (Hrows : all_rows f content = Ok rows).

Context (Hstream : record_stream f content = Ok stream).

(** A failure has printed the first lines. *)
Definition partial (fields : list (bytes * text)) (failure : string * text) : Prop :=
  exists n, snd failure = dump_text (take n fields).

Lemma dump_text_snoc fields x : dump_text (fields ++ [x]) = dump_text fields ++ dump_line (fst x) (snd x).
Proof. unfold dump_text. rewrite map_app, concat_app. simpl. by rewrite app_nil_r. Qed.

(** The fields printed so far are a prefix of all of them. *)
Lemma partial_prefix {A} (g : Z -> option A) (fields : A -> bytes * text) pos message output :
  0 <= pos <= mdict_len f ->
  output = dump_text (map fields (omap g (seqZ 0 pos))) ->
  partial (map fields (omap g (all_ordinals f))) (message, output).
Proof.
  intros Hpos ->. destruct (omap_seq_prefix g pos (mdict_len f) Hpos) as [rest E].
  exists (length (map fields (omap g (seqZ 0 pos)))). unfold all_ordinals. rewrite E, map_app. simpl.
  by rewrite take_app_length.
Qed.

Lemma returns_digest bytes (Q : list Z -> Prop) :
  Q (sha256 bytes) -> returns (let? hash := sha_update sha_new bytes in sha_finish hash) Q.
Proof.
  intros HQ. destruct (sha_update_correct [] sha_new bytes hashes_new) as (s & -> & Hs). cbn [rbind].
  by apply (returns_finish bytes).
Qed.

Lemma steady_dump_mdx :
  steady f (dump_mdx_opened f append [])
    (fun output => output = dump_text (map entry_fields (entry_list f rows stream (all_ordinals f))))
    (partial (map entry_fields (entry_list f rows stream (all_ordinals f)))).
Proof.
  pose proof (mdict_len_range f Hf) as Hlen. unfold dump_mdx_opened.
  eapply steady_mono.
  { apply (steady_for_items f Hf _ (read_entry f) (entry_ok f) _ (fun pos output =>
      0 <= pos <= mdict_len f /\ output = dump_text (map entry_fields (entry_list f rows stream (seqZ 0 pos))))).
    - apply (entry_reads f Hf).
    - split; [lia|done].
    - intros pos output e Hpos He [_ ->]. unfold dump_entry.
      destruct (entry_row f Hf content modified rows stream Hst Hrows Hstream pos e ltac:(lia) He) as [Hof _].
      eapply (steady_returns f _ _ _ (fun d => d = sha256 (me_text e))); [by apply returns_digest|]. intros ? ->.
      apply steady_ret. split; [lia|].
      unfold entry_list. rewrite (omap_seq_snoc _ pos e) by (lia || by rewrite Hof).
      rewrite map_app. cbn [map]. by rewrite dump_text_snoc.
    - intros pos output error [Hpos Ho]. apply steady_fail. by eapply partial_prefix. }
  by intros output [_ ->].
Qed.

Lemma steady_dump_mdd :
  steady f (dump_mdd_opened f append [])
    (fun output => output = dump_text (map resource_fields (resource_list f rows stream (all_ordinals f))))
    (partial (map resource_fields (resource_list f rows stream (all_ordinals f)))).
Proof.
  pose proof (mdict_len_range f Hf) as Hlen. unfold dump_mdd_opened.
  set (E := partial _).
  eapply steady_mono.
  { apply (steady_for_list f E _ (fun before output =>
      output = dump_text (map resource_fields (resource_list f rows stream (seqZ 0 (zlen before)))))); [done|].
    intros before index after output El ->. apply seqZ_split in El as [-> Hpos].
    assert (forall message, E (message, dump_text (map resource_fields (resource_list f rows stream (seqZ 0 (zlen before))))))
      as HE by (intros; eapply partial_prefix; [|done]; lia).
    unfold dump_resource.
    eapply steady_bind; [apply steady_try; [apply (keeps_span_at f Hf); lia|intros; apply HE]|].
    intros [span|] Hspan; [|lia]. destruct Hspan as [_ Hspan].
    eapply steady_bind; [by apply (steady_some f _ _ _ (fun x => x = span)); [congruence|]|]. intros ? ->.
    eapply steady_bind; [apply steady_try; [by apply (keeps_span_read f Hf (zlen before))|intros; apply HE]|].
    intros r Hr.
    destruct (resource_slice f Hf content modified rows stream Hst Hrows Hstream (zlen before) span r ltac:(lia) Hspan Hr) as [Hof _].
    destruct (span_row f Hf content modified rows Hst Hrows (zlen before) span ltac:(lia) Hspan) as (row & Hrow & Ek & _).
    eapply (steady_returns f _ _ _ (fun d => d = sha256 (mr_bytes r))); [by apply returns_digest|]. intros ? ->.
    apply steady_ret. rewrite length_app. cbn [length]. replace (Z.of_nat (length before + 1)) with (zlen before + 1) by lia.
    unfold resource_list. rewrite (omap_seq_snoc _ (zlen before) r) by (done || lia).
    rewrite map_app. cbn [map]. rewrite dump_text_snoc. do 2 f_equal. cbn [resource_fields fst snd].
    unfold resource_of, row_descriptor in Hof. rewrite Hrow in Hof. simpl in Hof.
    destruct (slice stream _ _); [|done]. simpl in Hof. injection Hof as <-. by rewrite Ek. }
  intros output ->. rewrite length_seqZ. unfold all_ordinals. by rewrite Z2Nat.id by lia.
Qed.

End DumpProofs.

(** * Properties *)

(** C34: two dumps are equal exactly when they list the same digests with
    the same keys in the same order: no key, whatever it holds, can make two
    different dictionaries look alike or one dictionary look different. *)
Theorem dump_lossless (a b : list (bytes * text)) :
  Forall (fun x => bytes_ok (fst x) /\ text_ok (snd x)) a ->
  Forall (fun x => bytes_ok (fst x) /\ text_ok (snd x)) b ->
  dump_text a = dump_text b <-> a = b.
Proof.
  intros Ha Hb. split; [|by intros ->]. revert b Hb. induction Ha as [|[d k] a [Hd Hk] Ha IH]; intros b Hb E.
  - destruct b as [|x b]; [done|]. by apply dump_text_nil in E.
  - destruct Hb as [|[d' k'] b [Hd' Hk'] Hb]; [symmetry in E; by apply dump_text_nil in E|].
    cbn [fst snd] in *. unfold dump_text in E. cbn [map concat fst snd] in E. unfold dump_line in E.
    rewrite <- !app_assoc in E. cbn [app] in E.
    pose proof (f_equal (until 9) E) as E1. rewrite !until_app in E1 by (intros Hin; by eapply hex_byte in Hin).
    injection E1 as Ed E1. apply hex_inj in Ed; [|done..]. subst d'.
    pose proof (f_equal (until 10) E1) as E2.
    rewrite !until_app in E2 by (intros Hin; by apply sanitize_byte in Hin as [_ ?]).
    injection E2 as Ek E2. apply sanitize_inj in Ek; [|done..]. subst k'. f_equal. by apply IH.
Qed.

(** The dump of a file that never changes and decodes prints the digest of
    every text and its key, in physical order; an error leaves the first lines
    of it. *)
Theorem dump_mdx_correct `{EnvOk} fs path clock f s content modified rows stream :
  file_system_ok fs -> mdx_open fs path clock = Ok (f, s) ->
  stable (mf_source f) content modified -> all_rows f content = Ok rows -> record_stream f content = Ok stream ->
  let fields := map entry_fields (entry_list f rows stream (all_ordinals f)) in
  exists r, dump_mdx append fs path clock [] = Ok r /\
    match r with inl output => output = dump_text fields | inr failure => partial fields failure end.
Proof.
  intros Hfs Hopen Hst Hrows Hstream fields. pose proof (opened_ok fs path Mdx clock Hfs) as Hok.
  unfold dump_mdx, dump_file. rewrite Hopen. change (mdx_open fs path clock) with (Core.open fs path Mdx open_options_new clock) in Hopen.
  rewrite Hopen in Hok. destruct Hok as [Hf Hs].
  pose proof (always_run f _ _ _ _ _ (steady_dump_mdx f Hf content modified rows stream Hst Hrows Hstream) Hs) as Hrun.
  unfold wpM in Hrun. destruct (dump_mdx_opened f append [] s) as [[r|e| |] s']; try done. exists r. split; [done|].
  destruct Hrun as [Hr _]. by destruct r.
Qed.

Theorem dump_mdd_correct `{EnvOk} fs path clock f s content modified rows stream :
  file_system_ok fs -> mdd_open fs path clock = Ok (f, s) ->
  stable (mf_source f) content modified -> all_rows f content = Ok rows -> record_stream f content = Ok stream ->
  let fields := map resource_fields (resource_list f rows stream (all_ordinals f)) in
  exists r, dump_mdd append fs path clock [] = Ok r /\
    match r with inl output => output = dump_text fields | inr failure => partial fields failure end.
Proof.
  intros Hfs Hopen Hst Hrows Hstream fields. pose proof (opened_ok fs path Mdd clock Hfs) as Hok.
  unfold dump_mdd, dump_file. rewrite Hopen. change (mdd_open fs path clock) with (Core.open fs path Mdd open_options_new clock) in Hopen.
  rewrite Hopen in Hok. destruct Hok as [Hf Hs].
  pose proof (always_run f _ _ _ _ _ (steady_dump_mdd f Hf content modified rows stream Hst Hrows Hstream) Hs) as Hrun.
  unfold wpM in Hrun. destruct (dump_mdd_opened f append [] s) as [[r|e| |] s']; try done. exists r. split; [done|].
  destruct Hrun as [Hr _]. by destruct r.
Qed.

(** ** Witnesses *)

Example dump_lossless_witness :
  dump_text [([1; 171], lit "a")] = dump_text [([1; 171], [97; 9])] <-> [([1; 171], lit "a")] = [([1; 171], [97; 9])].
Proof.
  apply (dump_lossless [([1; 171], lit "a")] [([1; 171], [97; 9])]);
    (constructor; [|constructor]; split; [apply bytes_ok_check; vm_compute; reflexivity|vm_compute; by eexists]).
Defined.

Example dump_sample :
  match @dump_mdx simple_env text append sample_fs (lit "words.mdx") 0 [] with
  | Ok (inl output) => Some (length (List.filter (fun c => c =? 10) output))
  | _ => None
  end = Some 4%nat.
Proof. vm_compute. reflexivity. Qed.
