(* ===== verification/Bench.v ===== *)
(** The scans of [examples/bench_local.rs]: full passes over the keys and the
    contents whose digests the benchmark compares, and the numbers it prints.
    The theorems say that the two passes over the contents of a file agree.
    Clocks, threads and the printing itself are not modelled: a duration is a
    number that is given. *)

From stdpp Require Import list_numbers sorting.
From S2P Require Import Prelude Errors Types Options Budget Logic Utf8 Encoding Source Descriptors Header KeySection Format Normalize Samples LocatorIndex Arcs Core Dictionary SampleDictionary Keys Records Iter Locator Locate Lookup Mdx Mdd Flow Sha256 ToolText AuditSupport.

(** * The code *)

(** [AnyError]: an error of the library, or a message. *)
Definition AnyError : Type := Error + string.

(** The parts of a manifest entry that the scans use. *)
Record CorpusEntry := {
  ce_manifest_path : text;
  ce_expected_entries : Z;
}.

(** The entries that a run selects. *)
Definition select_entries (filter : option text) (entries : list CorpusEntry) : list CorpusEntry :=
  List.filter (fun entry => match filter with
                            | None => true
                            | Some needle => contains (ce_manifest_path entry) needle
                            end) entries.

(** [env_usize] *)
Definition env_usize (name : string) (value : option bytes) (default : Z) : Z + AnyError :=
  match value with
  | None => inl default
  | Some value =>
      match utf8_decode value with
      | None => inr (inr (name +++ " is not valid UTF-8")%string)
      | Some _ =>
          match parse_u64 value with
          | None => inr (inr (name +++ " must be a positive integer")%string)
          | Some parsed =>
              if parsed =? 0 then inr (inr (name +++ " must be greater than zero")%string) else inl parsed
          end
      end
  end.

(** [percentile] *)
Definition percentile (sorted : list Z) (percentile : Z) : Result Z :=
  let? last := or_panic (checked_sub (zlen sorted) 1) "attempt to subtract with overflow" in
  let? scaled := or_panic (checked_mul last percentile) "attempt to multiply with overflow" in
  or_panic (get_at sorted (scaled / 100)) "index out of bounds".

(** [distribution_facts]: the metrics with their values. *)
Definition distribution_facts (prefix : text) (values : list Z) : Result (list (text * Z)) :=
  let nanos := merge_sort Z.le values in
  let? p50 := percentile nanos 50 in
  let? p95 := percentile nanos 95 in
  let? p99 := percentile nanos 99 in
  Ok [(prefix ++ lit ".count", zlen nanos); (prefix ++ lit ".p50", p50); (prefix ++ lit ".p95", p95);
      (prefix ++ lit ".p99", p99)].

(** The line of [fact]. *)
Definition fact (kind : string) (entry : CorpusEntry) (metric : text) (value : text) (unit_ : string) : text :=
  lit kind ++ [9] ++ ce_manifest_path entry ++ [9] ++ metric ++ [9] ++ value ++ [9] ++ lit unit_ ++ [10].

(** [text_fact] *)
Definition text_fact (kind : string) (entry : CorpusEntry) (metric : text) (value : text) (unit_ : string) : text :=
  fact kind entry metric (sanitize_field value) unit_.

(** [memory_facts]: the metrics with their values. *)
Definition memory_facts (usage : MemoryUsage) : list (string * Z) :=
  [("memory.current", mu_current_bytes usage); ("memory.peak", mu_peak_bytes usage);
   ("memory.metadata", mu_metadata_bytes usage); ("memory.locator", mu_locator_bytes usage);
   ("memory.key_cache", mu_key_cache_bytes usage); ("memory.record_cache", mu_record_cache_bytes usage)]%string.

Section Bench.

Context `{Env} (f : MdictFile) (manifest : CorpusEntry).

#[local] Notation Scan := (Flow AnyError).

(** [operation?] *)
Definition ask {A} (m : M CoreState A) : Scan A := try_or m inl.

(** [require_count] *)
Definition require_count (actual : Z) : Scan unit :=
  check (actual =? ce_expected_entries manifest)
    (inr (msg_of_bytes (ce_manifest_path manifest) +++ " contains " +++ fmt_dec actual
            +++ " entries; manifest declares " +++ fmt_dec (ce_expected_entries manifest))%string).

(** The end of a scan with a count: [(digest, count)]. *)
Definition finish_scan (acc : Sha256 * Z) : Scan bytes :=
  require_count (snd acc) ;;*
  let! digest := lift (sha_finish (fst acc)) in
  fret digest.

(** [for key in dictionary.keys()] *)
Definition scan_key (acc : Sha256 * Z) (result : KeyEntry + Error) : Scan (Sha256 * Z) :=
  match result with
  | inr error => ffail (inl error)
  | inl key =>
      let! digest := lift (digest_key (fst acc) key) in
      let! count := lift (add_assign (snd acc) 1) in
      fret (digest, count)
  end.

Definition keys_scan : Scan bytes :=
  let* acc := for_iter (key_next f) drop_iter scan_key (S (Z.to_nat (mdict_len f))) block_iter_new (sha_new, 0) in
  finish_scan acc.

(** What both passes over the entries hash. *)
Definition digest_entry (digest : Sha256) (entry : MdxEntry) : Result Sha256 :=
  let? digest := digest_key digest (me_key entry) in
  digest_bytes digest (me_text entry).

(** [for entry in dictionary.entries()] *)
Definition scan_entry (acc : Sha256 * Z) (result : MdxEntry + Error) : Scan (Sha256 * Z) :=
  match result with
  | inr error => ffail (inl error)
  | inl entry =>
      let! digest := lift (digest_entry (fst acc) entry) in
      let! count := lift (add_assign (snd acc) 1) in
      fret (digest, count)
  end.

Definition sequential_scan : Scan bytes :=
  let* acc := for_iter (entry_next f) (fun it => drop_iter (ii_records it)) scan_entry
                (S (Z.to_nat (mdict_len f))) item_iter_new (sha_new, 0) in
  finish_scan acc.

(** [for ordinal in 0..dictionary.len()], over the entries. *)
Definition scan_ordinal (digest : Sha256) (ordinal : Z) : Scan Sha256 :=
  let* entry := ask (entry_at f ordinal) in
  let* entry := some_or entry (inr ("entry_at(" +++ fmt_dec ordinal +++ ") returned None")%string) in
  let! digest := lift (digest_entry digest entry) in
  fret digest.

Definition ordinal_scan : Scan bytes :=
  let* digest := for_list scan_ordinal (seqZ 0 (mdict_len f)) sha_new in
  let! digest := lift (sha_finish digest) in
  fret digest.

(** The scans of [benchmark_mdx]: the digests of the keys and of the
    records. *)
Definition mdx_scans : Scan (bytes * bytes) :=
  require_count (mdict_len f) ;;*
  let* key_digest := keys_scan in
  let* sequential_digest := sequential_scan in
  let* ordinal_digest := ordinal_scan in
  check (bytes_eqb ordinal_digest sequential_digest)
    (inr "MDX sequential and ordinal record hashes differ"%string) ;;*
  fret (key_digest, sequential_digest).

(** The loop of the streaming scan; the copy continues the digest. *)
Definition scan_span (digest : Sha256) (ordinal : Z) : Scan Sha256 :=
  let* span := ask (span_at f ordinal) in
  let* span := some_or span (inr ("span_at(" +++ fmt_dec ordinal +++ ") returned None")%string) in
  let! digest := lift (let? digest := digest_key digest (ms_key span) in
                       sha_update digest (be_split 8 (ms_len span))) in
  let* copied := ask (copy_to f hash_write_all span digest) in
  check (snd copied =? ms_len span)
    (inr ("span_at(" +++ fmt_dec ordinal +++ ") copied " +++ fmt_dec (snd copied) +++ " bytes; expected "
            +++ fmt_dec (ms_len span))%string) ;;*
  fret (fst copied).

Definition streaming_scan : Scan bytes :=
  let* digest := for_list scan_span (seqZ 0 (mdict_len f)) sha_new in
  let! digest := lift (sha_finish digest) in
  fret digest.

(** [for resource in dictionary.resources()] *)
Definition scan_resource (digest : Sha256) (result : MddResource + Error) : Scan Sha256 :=
  match result with
  | inr error => ffail (inl error)
  | inl resource =>
      let! digest := lift (let? digest := digest_key digest (mr_key resource) in
                           let? digest := sha_update digest (be_split 8 (zlen (mr_bytes resource))) in
                           sha_update digest (mr_bytes resource)) in
      fret digest
  end.

Definition materialized_scan : Scan bytes :=
  let* digest := for_iter (resource_next f) (fun it => drop_iter (ii_records it)) scan_resource
                   (S (Z.to_nat (mdict_len f))) item_iter_new sha_new in
  let! digest := lift (sha_finish digest) in
  fret digest.

(** The scans of [benchmark_mdd]. *)
Definition mdd_scans : Scan (bytes * bytes) :=
  require_count (mdict_len f) ;;*
  let* key_digest := keys_scan in
  let* streaming_digest := streaming_scan in
  let* materialized_digest := materialized_scan in
  check (bytes_eqb materialized_digest streaming_digest)
    (inr "MDD streaming and materialized hashes differ"%string) ;;*
  fret (key_digest, streaming_digest).

(** The key in the middle. *)
Definition representative_key (kind : string) (count : Z) : Scan (option (Z * text)) :=
  let* key := ask (key_at_ordinal f (count / 2)) in
  let* key := some_or key (inr ("representative " +++ kind +++ " ordinal returned None")%string) in
  fret (Some (count / 2, ke_key key)).

End Bench.

(** [representative_mdx_query] and [representative_mdd_key]: the key in the
    middle; the file is opened only when it is declared not to be empty. *)
Definition representative `{Env} (kind : string) (opened : Result (MdictFile * CoreState)) (count : Z)
    : Result (option (Z * text) + AnyError) :=
  if count =? 0 then Ok (inl None)
  else match opened with
       | Err error => Ok (inr (inl error))
       | Panic site => Panic site
       | OutOfFuel => OutOfFuel
       | Ok (f, s) => fst (representative_key f kind count s)
       end.

(** * Lemmas *)

Lemma percentile_returns sorted p :
  sorted <> [] -> 0 <= p <= 100 -> zlen sorted * 100 <= u64_max ->
  exists value, percentile sorted p = Ok value /\ get_at sorted ((zlen sorted - 1) * p / 100) = Some value /\
    0 <= (zlen sorted - 1) * p / 100 < zlen sorted.
Proof.
  intros Hne Hp Hmax. assert (1 <= zlen sorted) by (destruct sorted; [done|simpl; lia]).
  assert (0 <= (zlen sorted - 1) * p <= (zlen sorted - 1) * 100) as Hs by nia.
  assert (0 <= (zlen sorted - 1) * p / 100 < zlen sorted) as Hi.
  { split; [apply Z.div_pos; lia|apply Z.div_lt_upper_bound; lia]. }
  destruct (get_at_is_Some sorted _ Hi) as [value Hv]. exists value. split; [|done].
  unfold percentile, checked_sub, checked_mul. rewrite (proj2 (Z.leb_le 1 _)) by lia. cbn [or_panic rbind].
  rewrite (proj2 (Z.leb_le _ u64_max)) by lia. cbn [or_panic rbind]. by rewrite Hv.
Qed.

Section BenchProofs.

Context `{EnvOk} (f : MdictFile) (Hf : file_ok f) (manifest : CorpusEntry).

Context (content : bytes) (modified : Z) (rows : list DecodedKeyRow) (stream : bytes).

Context (Hst : stable (mf_source f) content modified) (Hrows : all_rows f content = Ok rows).

Context (Hstream : record_stream f content = Ok stream).

Context (Hcount : ce_expected_entries manifest = mdict_len f).

(** A failure is an error of the library. *)
Definition library (e : AnyError) : Prop := exists error, e = inl error.

Lemma library_new error : library (inl error).
Proof. by eexists. Qed.

Lemma steady_ask {A} (m : M CoreState A) P :
  keeps (working_memory_bytes (mf_limits f)) (contracts f) m P -> steady f (ask m) P library.
Proof. intros Hm. by apply steady_try; [|intros; apply library_new]. Qed.

Lemma steady_require_count actual :
  actual = mdict_len f -> steady f (require_count manifest actual) (fun _ => True) library.
Proof. intros ->. apply steady_check. by apply Z.eqb_eq. Qed.

Lemma steady_finish digest message :
  hashes message digest ->
  steady f (let! digest := lift (sha_finish digest) in fret digest) (fun d => d = sha256 message) library.
Proof.
  intros Hh. eapply steady_returns; [by eapply (returns_finish _ _ (fun d => d = sha256 message))|].
  intros ? ->. by apply steady_ret.
Qed.

(** The state of a scan that counts. *)
Definition scanned (message : Z -> bytes) (pos : Z) (acc : Sha256 * Z) : Prop :=
  hashes (message pos) (fst acc) /\ snd acc = pos.

Lemma steady_finish_scan message acc :
  scanned message (mdict_len f) acc ->
  steady f (finish_scan manifest acc) (fun d => d = sha256 (message (mdict_len f))) library.
Proof.
  intros [Hh Hc]. unfold finish_scan. eapply steady_bind; [by apply steady_require_count|].
  intros _ _. by apply steady_finish.
Qed.

(** Counting one row. *)
Lemma steady_count message pos (acc : Sha256 * Z) (r : Result Sha256) :
  0 <= pos < mdict_len f -> returns r (hashes (message (pos + 1))) -> snd acc = pos ->
  steady f (let! d := lift r in let! count := lift (add_assign (snd acc) 1) in fret (d, count))
    (scanned message (pos + 1)) library.
Proof.
  intros Hpos Hr Hd. pose proof (mdict_len_range f Hf).
  eapply steady_returns; [exact Hr|]. intros d Hh.
  eapply (steady_returns f _ _ _ (fun n => n = pos + 1)); [rewrite Hd; apply returns_add; [lia|done]|].
  intros ? ->. by apply steady_ret.
Qed.

Definition keys_message (pos : Z) : bytes := concat (map key_row_bytes (row_entries rows (seqZ 0 pos))).

Definition entries_message (pos : Z) : bytes := concat (map entry_bytes (entry_list f rows stream (seqZ 0 pos))).

Definition resources_message (pos : Z) : bytes :=
  concat (map resource_bytes (resource_list f rows stream (seqZ 0 pos))).

Lemma steady_keys_scan :
  steady f (keys_scan f manifest) (fun d => d = sha256 (keys_message (mdict_len f))) library.
Proof.
  unfold keys_scan. eapply steady_bind; [|intros acc Hacc; by apply steady_finish_scan].
  apply (steady_for_keys f Hf _ _ (scanned keys_message)).
  - split; [apply hashes_new|done].
  - intros pos acc e Hpos He [Hh Hc].
    pose proof (key_answer_rows f content modified rows pos _ Hf Hst Hrows ltac:(lia) He) as E.
    destruct (get_at rows pos) as [row|] eqn:Hrow; [|done]. injection E as ->.
    apply steady_count; [done| |done]. unfold keys_message. rewrite (row_entries_snoc rows pos row) by (done || lia).
    by apply digest_key_correct.
  - intros pos acc error _. apply steady_fail, library_new.
Qed.

Lemma digest_entry_correct pos digest e :
  0 <= pos -> entry_ok f pos e -> hashes (entries_message pos) digest ->
  returns (digest_entry digest e) (hashes (entries_message (pos + 1))).
Proof.
  intros Hpos He Hh. destruct (entry_row f Hf content modified rows stream Hst Hrows Hstream pos e Hpos He) as [Hof _].
  unfold digest_entry. pose proof (digest_key_correct _ _ (me_key e) Hh) as Hd.
  destruct (digest_key digest (me_key e)) as [d| | |]; try done. cbn [rbind] in *.
  pose proof (digest_bytes_correct _ _ (me_text e) Hd) as Hb.
  destruct (digest_bytes d (me_text e)) as [d'| | |]; try done. simpl in Hb |- *.
  unfold entries_message, entry_list in *. rewrite (omap_seq_snoc _ pos e) by (lia || by rewrite Hof).
  rewrite map_app, concat_app. cbn [map concat]. unfold entry_bytes at 2. by rewrite app_nil_r, app_assoc.
Qed.

Lemma steady_sequential_scan :
  steady f (sequential_scan f manifest) (fun d => d = sha256 (entries_message (mdict_len f))) library.
Proof.
  unfold sequential_scan. eapply steady_bind; [|intros acc Hacc; by apply steady_finish_scan].
  apply (steady_for_items f Hf _ (read_entry f) (entry_ok f) _ (scanned entries_message)).
  - apply (entry_reads f Hf).
  - split; [apply hashes_new|done].
  - intros pos acc e Hpos He [Hh Hc]. apply steady_count; [done| |done]. apply digest_entry_correct; (done || lia).
  - intros pos acc error _. apply steady_fail, library_new.
Qed.

(** A loop over the ordinals that hashes. *)
Lemma steady_ordinals message (body : Sha256 -> Z -> Flow AnyError Sha256) :
  message 0 = [] ->
  (forall pos digest, 0 <= pos < mdict_len f -> hashes (message pos) digest ->
     steady f (body digest pos) (hashes (message (pos + 1))) library) ->
  steady f (for_list body (seqZ 0 (mdict_len f)) sha_new) (hashes (message (mdict_len f))) library.
Proof.
  intros Hnil Hbody. pose proof (mdict_len_range f Hf) as Hlen.
  eapply steady_mono.
  { apply (steady_for_list f _ _ (fun before digest => hashes (message (zlen before)) digest)).
    - change (hashes (message 0) sha_new). rewrite Hnil. apply hashes_new.
    - intros before index after digest E Hh. apply seqZ_split in E as [-> Hpos].
      eapply steady_mono; [by apply Hbody|]. intros d Hd. rewrite length_app. cbn [length].
      by replace (Z.of_nat (length before + 1)) with (zlen before + 1) by lia. }
  intros digest Hh. cbv beta in Hh. rewrite length_seqZ, Z2Nat.id in Hh by lia. done.
Qed.

Lemma steady_ordinal_scan :
  steady f (ordinal_scan f) (fun d => d = sha256 (entries_message (mdict_len f))) library.
Proof.
  unfold ordinal_scan. eapply steady_bind; [|intros acc Hacc; by apply steady_finish].
  apply steady_ordinals; [done|]. intros pos digest Hpos Hh. unfold scan_ordinal.
  eapply steady_bind; [apply steady_ask, (keeps_entry_at f Hf); lia|].
  intros [e|] He; [|lia]. destruct He as [_ He].
  eapply steady_bind; [by apply (steady_some f _ _ _ (fun x => x = e)); [congruence|]|]. intros ? ->.
  eapply steady_returns; [apply (digest_entry_correct pos); (done || lia)|]. intros d Hd. by apply steady_ret.
Qed.

Lemma steady_streaming_scan :
  steady f (streaming_scan f) (fun d => d = sha256 (resources_message (mdict_len f))) library.
Proof.
  unfold streaming_scan. eapply steady_bind; [|intros acc Hacc; by apply steady_finish].
  apply steady_ordinals; [done|]. intros pos digest Hpos Hh. unfold scan_span.
  eapply steady_bind; [apply steady_ask, (keeps_span_at f Hf); lia|].
  intros [span|] Hspan; [|lia]. destruct Hspan as [_ Hspan].
  eapply steady_bind; [by apply (steady_some f _ _ _ (fun x => x = span)); [congruence|]|]. intros ? ->.
  destruct (span_row f Hf content modified rows Hst Hrows pos span ltac:(lia) Hspan)
    as (row & Hrow & Ek & Es & Ee & Hse & Htot & Hl).
  set (message := resources_message pos ++ key_row_bytes (ms_key span) ++ be_split 8 (ms_len span)).
  eapply (steady_returns f _ _ _ (hashes message)).
  { pose proof (digest_key_correct _ _ (ms_key span) Hh) as Hd.
    destruct (digest_key digest (ms_key span)) as [d| | |]; try done. cbn [rbind].
    unfold message. rewrite app_assoc. by apply returns_update. }
  intros d Hd.
  eapply steady_bind.
  { apply (steady_ask _ (fun '(hash, n) => n = ms_end span - ms_start span /\
      exists bytes, hashes (message ++ bytes) hash /\ slice stream (ms_start span) (ms_end span) = Some bytes)).
    eapply keeps_mono; [apply (keeps_copy_to f Hf (fun hash => exists m, hashes m hash))|].
    - intros hash chunk [m Hm]. pose proof (hash_write_all_correct m hash chunk Hm) as Hw.
      destruct (hash_write_all hash chunk); try done. by eexists.
    - by eexists.
    - lia.
    - intros [hash n] (Hend & Hn & chunks & Hw & Hsp).
      destruct (write_chunks_hash message d chunks Hd) as (hash' & Hw' & Hh').
      rewrite Hw in Hw'. injection Hw' as <-.
      pose proof (span_of_slice f Hf content modified stream (ms_start span) (ms_end span) _ Hst Hstream ltac:(lia) Hend Hsp) as Hslice.
      split; [exact Hn|]. exists (concat chunks). by split. }
  intros [hash n] (-> & bytes & Hh' & Hslice). cbn [fst snd].
  eapply steady_bind; [apply steady_check, Z.eqb_eq; lia|]. intros _ _. apply steady_ret.
  pose proof (slice_length _ _ _ _ Hslice) as Hz.
  unfold resources_message, resource_list in *.
  rewrite (omap_seq_snoc _ pos {| mr_key := ms_key span; mr_bytes := bytes |}).
  - rewrite map_app, concat_app. cbn [map concat]. unfold resource_bytes at 2, bytes_row. cbn [mr_key mr_bytes].
    rewrite app_nil_r. rewrite Hz, <- Hl. unfold message in Hh'. by rewrite <- !app_assoc in Hh'.
  - lia.
  - unfold resource_of, row_descriptor. rewrite Hrow. simpl. unfold record_start_of in Ee.
    rewrite <- Es, <- Ee, Hslice. simpl. by rewrite Ek.
Qed.

Lemma steady_materialized_scan :
  steady f (materialized_scan f) (fun d => d = sha256 (resources_message (mdict_len f))) library.
Proof.
  unfold materialized_scan, resource_next. eapply steady_bind; [|intros acc Hacc; by apply steady_finish].
  apply (steady_for_items f Hf _ (read_resource f) (resource_ok f) _ (fun pos => hashes (resources_message pos))).
  - apply (resource_reads f Hf).
  - apply hashes_new.
  - intros pos digest r Hpos Hr Hh. unfold scan_resource.
    pose proof (resource_ok_of f Hf content modified rows stream pos r Hst Hrows Hstream ltac:(lia) Hr) as Hof.
    eapply (steady_returns f _ _ _ (hashes (resources_message (pos + 1)))); [|by intros d Hd; apply steady_ret].
    pose proof (digest_key_correct _ _ (mr_key r) Hh) as Hd.
    destruct (digest_key digest (mr_key r)) as [d| | |]; try done. cbn [rbind].
    pose proof (digest_bytes_correct _ _ (mr_bytes r) Hd) as Hb. unfold digest_bytes in Hb.
    destruct (let? digest := sha_update d _ in _) as [d'| | |]; try done. simpl in Hb |- *.
    unfold resources_message, resource_list in *. rewrite (omap_seq_snoc _ pos r) by (done || lia).
    rewrite map_app, concat_app. cbn [map concat]. unfold resource_bytes at 2. by rewrite app_nil_r, app_assoc.
  - intros pos digest error _. apply steady_fail, library_new.
Qed.

Lemma steady_representative_key kind count :
  0 <= count / 2 < zlen rows ->
  steady f (representative_key f kind count)
    (fun r => exists row, get_at rows (count / 2) = Some row /\ r = Some (count / 2, row_key row)) library.
Proof.
  intros Hr. eapply steady_bind; [apply steady_ask, (keeps_key_at_ordinal f Hf); lia|].
  intros r Hkey. eapply key_answer_rows in Hkey; [|done..|lia]. destruct (get_at_is_Some rows _ Hr) as [row Hrow].
  rewrite Hrow in Hkey. cbn in Hkey. subst r.
  eapply steady_bind; [apply (steady_some f library _ _ (fun k => k = row_entry (count / 2) row)); [by intros ? [= ->]|done]|].
  intros ? ->. apply steady_ret. by exists row.
Qed.

End BenchProofs.

(** * Properties *)

(** The digests of the scans of a file that never changes and decodes: the two
    passes over its entries, in physical order and by ordinal, agree, and so do
    streaming and materializing its resources. *)
Theorem benchmark_scans_correct `{EnvOk} f manifest base hs s content modified rows stream :
  file_ok f -> state_ok f base hs s -> ce_expected_entries manifest = mdict_len f ->
  stable (mf_source f) content modified -> all_rows f content = Ok rows -> record_stream f content = Ok stream ->
  let key_digest := sha256 (concat (map key_row_bytes (row_entries rows (all_ordinals f)))) in
  wpM (mdx_scans f manifest) s (fun r s' => match r with
      | inl digests => digests = (key_digest, sha256 (concat (map entry_bytes (entry_list f rows stream (all_ordinals f)))))
      | inr error => library error
      end /\ state_ok f base hs s') (fun _ _ => False) /\
  wpM (mdd_scans f manifest) s (fun r s' => match r with
      | inl digests => digests = (key_digest, sha256 (concat (map resource_bytes (resource_list f rows stream (all_ordinals f)))))
      | inr error => library error
      end /\ state_ok f base hs s') (fun _ _ => False).
Proof.
  intros Hf Hs Hcount Hst Hrows Hstream key_digest. split.
  - eapply wpM_mono; [eapply (always_run f _ (fun r => match r with inl d => _ | inr e => library e end)); [|exact Hs]| |done].
    2: { intros r s' Hr. exact Hr. }
    unfold mdx_scans. eapply steady_bind; [by eapply steady_require_count|]. intros _ _.
    eapply steady_bind; [by eapply steady_keys_scan|]. intros ? ->.
    eapply steady_bind; [by eapply steady_sequential_scan|]. intros ? ->.
    eapply steady_bind; [by eapply steady_ordinal_scan|]. intros ? ->.
    eapply steady_bind; [by apply steady_check, bytes_eqb_true|]. intros _ _. by apply steady_ret.
  - eapply wpM_mono; [eapply (always_run f _ (fun r => match r with inl d => _ | inr e => library e end)); [|exact Hs]| |done].
    2: { intros r s' Hr. exact Hr. }
    unfold mdd_scans. eapply steady_bind; [by eapply steady_require_count|]. intros _ _.
    eapply steady_bind; [by eapply steady_keys_scan|]. intros ? ->.
    eapply steady_bind; [by eapply steady_streaming_scan|]. intros ? ->.
    eapply steady_bind; [by eapply steady_materialized_scan|]. intros ? ->.
    eapply steady_bind; [by apply steady_check, bytes_eqb_true|]. intros _ _. by apply steady_ret.
Qed.

(** The representative of a file that opens, never changes and decodes is the
    key in the middle of the declared count; an error is one of the library as
    long as the count is not too large by more than a factor of two. *)
Theorem representative_correct `{EnvOk} kind opened count :
  wp opened (fun '(f, s) => file_ok f /\ state_ok f (retained_total (mf_layout f)) [] s /\
    exists content modified rows, stable (mf_source f) content modified /\ all_rows f content = Ok rows /\
      0 <= count / 2 < zlen rows) ->
  match opened with
  | Err error => representative kind opened count = Ok (if count =? 0 then inl None else inr (inl error))
  | Ok (f, s) =>
      exists r, representative kind opened count = Ok r /\
        match r with
        | inl None => count = 0
        | inl (Some (ordinal, key)) =>
            ordinal = count / 2 /\ forall content modified rows, stable (mf_source f) content modified ->
              all_rows f content = Ok rows -> row_key <$> get_at rows ordinal = Some key
        | inr error => library error
        end
  | _ => False
  end.
Proof.
  intros Hopen. unfold representative. destruct opened as [[f s]|error| |]; try done; destruct (Z.eqb_spec count 0) as [Hc|Hc];
    [by exists (inl None)| |done..].
  destruct Hopen as (Hf & Hs & content & modified & rows & Hst & Hrows & Hr).
  pose proof (steady_representative_key f Hf content modified rows Hst Hrows kind count Hr) as Hsteady.
  pose proof (always_run f _ _ _ _ _ Hsteady Hs) as Hrun. unfold wpM in Hrun.
  set (res := _ s) in Hrun |- *. destruct res as [[r|e| |] s']; try done. exists r. split; [done|].
  destruct Hrun as [Hrun _]. destruct r as [r|e]; [|done]. destruct Hrun as (row & Hrow & ->). split; [done|].
  intros content' modified' rows' Hst' Hrows'.
  assert (content' = content) as -> by (destruct Hst as [_ H1], Hst' as [_ H2]; specialize (H1 0%nat); rewrite H2 in H1; by injection H1).
  rewrite Hrows in Hrows'. injection Hrows' as <-. by rewrite Hrow.
Qed.

(** A distribution of at least one run is printed; its percentiles are runs,
    in ascending order. *)
Theorem distribution_facts_correct prefix values :
  values <> [] -> zlen values * 100 <= u64_max ->
  exists p50 p95 p99, distribution_facts prefix values =
      Ok [(prefix ++ lit ".count", zlen values); (prefix ++ lit ".p50", p50); (prefix ++ lit ".p95", p95);
          (prefix ++ lit ".p99", p99)] /\
    p50 ∈ values /\ p95 ∈ values /\ p99 ∈ values /\ p50 <= p95 <= p99.
Proof.
  intros Hne Hmax. pose proof (merge_sort_Permutation Z.le values) as Hp.
  assert (zlen (merge_sort Z.le values) = zlen values) as El by (by rewrite (Permutation_length Hp)).
  assert (merge_sort Z.le values <> []) as Hne' by (intros E; rewrite E in El; by destruct values).
  assert (StronglySorted Z.le (merge_sort Z.le values)) as Hs by (apply StronglySorted_merge_sort; apply _).
  destruct (percentile_returns (merge_sort Z.le values) 50 Hne' ltac:(lia) ltac:(lia)) as (a & Ha & Ia & Ra).
  destruct (percentile_returns (merge_sort Z.le values) 95 Hne' ltac:(lia) ltac:(lia)) as (b & Hb & Ib & Rb).
  destruct (percentile_returns (merge_sort Z.le values) 99 Hne' ltac:(lia) ltac:(lia)) as (c & Hc & Ic & Rc).
  exists a, b, c. unfold distribution_facts. rewrite Ha. cbn [rbind]. rewrite Hb. cbn [rbind]. rewrite Hc. cbn [rbind].
  rewrite El in *.
  assert (forall i j x y, get_at (merge_sort Z.le values) i = Some x -> get_at (merge_sort Z.le values) j = Some y ->
            i <= j -> x <= y) as Hle.
  { intros i j x y Hx Hy Hij. destruct (Z.eq_dec i j) as [->|]; [rewrite Hx in Hy; by injection Hy as ->|].
    apply get_at_lookup in Hx as [Hx ?]. apply get_at_lookup in Hy as [Hy ?].
    rewrite <- (take_drop (Z.to_nat j) (merge_sort Z.le values)) in Hs.
    apply (StronglySorted_app_1_elem_of _ _ _ _ _ Hs).
    - apply (list_elem_of_lookup_2 _ (Z.to_nat i)). rewrite lookup_take_lt by lia. done.
    - apply (list_elem_of_lookup_2 _ 0%nat). rewrite lookup_drop. by rewrite Nat.add_0_r. }
  split; [done|]. rewrite <- Hp. split_and!.
  - by eapply get_at_elem_of.
  - by eapply get_at_elem_of.
  - by eapply get_at_elem_of.
  - eapply Hle; [exact Ia|exact Ib|]. apply Z.div_le_mono; lia.
  - eapply Hle; [exact Ib|exact Ic|]. apply Z.div_le_mono; lia.
Qed.

Example distribution_sample :
  distribution_facts (lit "lookup.warm") [5; 1; 9; 3] =
  Ok [(lit "lookup.warm.count", 4); (lit "lookup.warm.p50", 3); (lit "lookup.warm.p95", 5); (lit "lookup.warm.p99", 5)].
Proof. vm_compute. reflexivity. Qed.
