(* ===== verification/WrittenHeader.v ===== *)
(** Opening a file that was written: computations that only the memory budget
    can stop, and [parse_header] of a file that begins with a written
    header. *)

From S2P Require Import Prelude Errors Types Budget Checksum Cursor Utf8 Encoding Source Compression Descriptors Header KeySection V2Keyword RecordSection V2Record Samples Format.

(** * Computations that only the memory budget can stop *)

Definition over_budget (e : Error) : Prop :=
  exists requested maximum, e = LimitExceeded "working_memory_bytes" requested maximum.

Section Yields.

Context {S : Type} `{HasWorld S}.

(** In every state, [m] ends with a value in [P] or finds the budget full. *)
Definition yields {A} (m : M S A) (P : A -> Prop) : Prop :=
  forall s, wpM m s (fun a _ => P a) (fun e _ => over_budget e).

Lemma yields_mono {A} (m : M S A) (P Q : A -> Prop) :
  yields m P -> (forall a, P a -> Q a) -> yields m Q.
Proof. intros Hm HPQ s. eapply wpM_mono; [apply Hm|intros; by apply HPQ|done]. Qed.

Lemma yields_ret {A} (a : A) (P : A -> Prop) : P a -> yields (mret a) P.
Proof. by intros ? s. Qed.

Lemma yields_bind {A B} (m : M S A) (k : A -> M S B) P Q :
  yields m P -> (forall a, P a -> yields (k a) Q) -> yields (mbind m k) Q.
Proof.
  intros Hm Hk s. apply wpM_bind. eapply wpM_mono; [apply Hm| |done]. intros a s' Ha. by apply Hk.
Qed.

(** A step that is known to succeed. *)
Lemma yields_lift {A} (r : Result A) a (P : A -> Prop) : r = Ok a -> P a -> yields (lift r) P.
Proof. by intros -> ? s. Qed.

Lemma yields_step {A B} (r : Result A) a (k : A -> M S B) Q :
  r = Ok a -> yields (k a) Q -> yields (mbind (lift r) k) Q.
Proof. intros -> Hk s. apply Hk. Qed.

Lemma yields_reserve bytes : yields (reserve bytes) (fun n => n = bytes).
Proof.
  intros s. unfold wpM, reserve, claim, claim_next.
  destruct (ok_or _ _) as [next|e| |] eqn:E; cbn [rbind].
  - destruct (_ <? next); [by eexists _, _|done].
  - unfold ok_or in E. destruct (checked_add _ _); [done|]. injection E as <-. by eexists _, _.
  - unfold ok_or in E. by destruct (checked_add _ _).
  - unfold ok_or in E. by destruct (checked_add _ _).
Qed.

Lemma yields_scoped {A} bytes context (m : M S A) P : yields m P -> yields (scoped bytes context m) P.
Proof.
  intros Hm. eapply yields_bind; [apply yields_reserve|]. intros ? _ s. specialize (Hm s).
  unfold wpM in *. by destruct (m s) as [[] ?].
Qed.

Lemma yields_or_drop {A} bytes (m : M S A) P : yields m P -> yields (or_drop bytes m) P.
Proof.
  intros Hm s. specialize (Hm s). unfold wpM, or_drop in *. by destruct (m s) as [[] ?].
Qed.

Lemma yields_retained {A} bytes context (m : M S A) P : yields m P -> yields (retained bytes context m) P.
Proof. intros Hm. eapply yields_bind; [apply yields_reserve|]. intros ? _. by apply yields_or_drop. Qed.

End Yields.

Section Reads.

Context `{Env} (granted : forall context n, allocator context n = true) {S : Type} `{HasWorld S}.

Lemma ensure_range_granted source offset len context :
  0 <= offset -> 0 <= len -> offset + len <= fs_len source -> fs_len source <= u64_max ->
  ensure_range source offset len context = Ok tt.
Proof.
  intros ? ? ? ?. unfold ensure_range, checked_add. rewrite (proj2 (Z.leb_le _ u64_max)) by lia.
  cbn [ok_or rbind]. by rewrite (proj2 (Z.ltb_ge _ _)) by lia.
Qed.

(** A read of a file that never changes. *)
Lemma yields_read source pre out rest modified offset len context :
  stable source (pre ++ out ++ rest) modified -> offset = zlen pre -> len = zlen out ->
  zlen (pre ++ out ++ rest) <= isize_max ->
  yields (read_exact_at source offset len context) (fun r => r = out).
Proof.
  intros [Hlen Hfile] -> -> Hmax. pose proof (slice_app_mid pre out rest) as Hslice.
  set (content := pre ++ out ++ rest) in *. assert (isize_max <= u64_max) by done.
  assert (zlen pre + zlen out <= zlen content) as Hin by (apply slice_Some in Hslice; lia).
  unfold read_exact_at. eapply yields_step.
  { unfold checked_u64, try_u64. by rewrite (proj2 (Z.leb_le (zlen out) u64_max)) by lia. }
  eapply yields_step; [apply ensure_range_granted; lia|].
  eapply yields_step; [apply try_reserve_vec_Ok; first [apply granted|lia]|].
  intros s. unfold wpM, mbind, access. rewrite Hfile. cbn [lift fc_content]. by rewrite Hslice.
Qed.

End Reads.

(** * The header *)

Section HeaderSection.

Lemma checked_usize_granted value context : value <= usize_max -> checked_usize value context = Ok value.
Proof. intros ?. unfold checked_usize, try_usize. by rewrite (proj2 (Z.leb_le value usize_max)) by lia. Qed.

Lemma checked_u64_granted value context : value <= u64_max -> checked_u64 value context = Ok value.
Proof. intros ?. unfold checked_u64, try_u64. by rewrite (proj2 (Z.leb_le value u64_max)) by lia. Qed.

Lemma checked_add_granted a b : a + b <= u64_max -> checked_add a b = Some (a + b).
Proof. intros ?. unfold checked_add. by rewrite (proj2 (Z.leb_le (a + b) u64_max)) by lia. Qed.

Lemma checked_mul_granted a b : a * b <= u64_max -> checked_mul a b = Some (a * b).
Proof. intros ?. unfold checked_mul. by rewrite (proj2 (Z.leb_le (a * b) u64_max)) by lia. Qed.

Lemma add_u64_granted a b context : a + b <= u64_max -> add_u64 a b context = Ok (a + b).
Proof. intros ?. unfold add_u64. by rewrite checked_add_granted. Qed.

(** A text that begins and ends with characters the predicate refuses. *)
Lemma trim_matches_id p t a b cs :
  text_ok t -> chars t = a :: cs ++ [b] -> p a = false -> p b = false -> trim_matches p t = t.
Proof.
  intros Ht Hc Ha Hb. unfold trim_matches, drop_while_end. rewrite Hc. cbn [drop_while]. rewrite Ha.
  rewrite app_comm_cons, rev_app_distr. cbn [rev app drop_while]. rewrite Hb.
  change (b :: rev cs ++ [a]) with ([b] ++ rev cs ++ [a]).
  rewrite !rev_app_distr, rev_involutive. cbn [rev app]. rewrite <- Hc. by apply encode_chars.
Qed.

Lemma utf16_bytes_ok us : Forall (fun u => 0 <= u < 65536) us -> bytes_ok (utf16_bytes us).
Proof.
  induction 1 as [|u us Hu _ IH]; [constructor|]. cbn [utf16_bytes]. repeat constructor; [..|exact IH]; div_lia.
Qed.

Lemma encode_key_ok e key : text_ok key -> bytes_ok (encode_key e key).
Proof.
  intros Ht. destruct e; try by apply text_ok_bytes. cbn [encode_key].
  apply utf16_bytes_ok, utf16_encode_units, chars_scalar.
Qed.

(** The rendered tag begins with [<] and ends with [>]. *)
Lemma chars_app a b : text_ok a -> text_ok b -> chars (a ++ b) = chars a ++ chars b.
Proof.
  intros Ha Hb. rewrite <- (encode_chars a Ha), <- (encode_chars b Hb), <- utf8_encode_app.
  rewrite !chars_encode; rewrite ?Forall_app; auto using chars_scalar.
Qed.

Lemma render_tag_chars name attrs :
  tag_name_ok name -> Forall renderable attrs ->
  text_ok (render_tag name attrs) /\ exists cs, chars (render_tag name attrs) = 60 :: cs ++ [62].
Proof.
  intros (Hn & _ & _) Ha. pose proof (render_text_ok attrs Ha) as Ht.
  assert (text_ok (concat (map render_attribute attrs) ++ [47])) as Hbody.
  { change [47; 62] with ([47] ++ [62]) in Ht. rewrite app_assoc in Ht.
    eapply (text_ok_split _ [62]); [exact Ht|]. done. }
  assert (render_tag name attrs = [60] ++ (name ++ concat (map render_attribute attrs) ++ [47]) ++ [62]) as ->.
  { unfold render_tag. by rewrite <- !app_assoc. }
  assert (text_ok [60] /\ text_ok [62]) as [H1 H2] by (split; by eexists).
  assert (text_ok (name ++ concat (map render_attribute attrs) ++ [47])) as Hm by (by apply text_ok_app).
  split; [auto using text_ok_app|]. exists (chars (name ++ concat (map render_attribute attrs) ++ [47])).
  by rewrite (chars_app [60]), (chars_app (name ++ _)) by auto using text_ok_app.
Qed.

End HeaderSection.

Section ParseHeader.

Context `{Env} (granted : forall context n, allocator context n = true) {S : Type} `{HasWorld S}.

Lemma read_u32_le_at p x q context :
  is_u32 x -> zlen p + 4 <= u64_max ->
  read_u32_le context (cursor_at p (le_split 4 x ++ q)) = (Ok x, cursor_at (p ++ le_split 4 x) q).
Proof.
  intros [? ?] ?. unfold read_u32_le, mbind. rewrite read_array_at.
  - unfold mret. rewrite le_combine_split; [done|]. unfold u32_max in *. simpl. lia.
  - by rewrite length_le_split.
  - rewrite length_le_split. simpl. lia.
Qed.

(** The retained bytes only label the section. *)
Definition with_retained (hs : HeaderSection) (bytes : Z) : HeaderSection :=
  {| hs_header := hs_header hs; keyword_section_offset := keyword_section_offset hs;
     hs_retained_bytes := bytes; hs_section := hs_section hs |}.

Lemma build_header_retained kind len xml name attrs a b hs :
  build_header_section kind len xml name attrs a = Ok hs ->
  build_header_section kind len xml name attrs b = Ok (with_retained hs b).
Proof.
  unfold build_header_section. destruct (negb _); [done|].
  repeat (match goal with |- rbind ?r _ = Ok _ -> _ => destruct r; cbn [rbind]; try done end).
  by intros [= <-].
Qed.

Lemma header_memory_granted len lim :
  0 <= len <= u32_max -> 0 <= header_attributes lim ->
  exists bytes, header_memory_estimate len lim = Ok bytes.
Proof.
  intros Hlen Hlim. unfold header_memory_estimate, saturating_add.
  assert (0 <= len / 4 <= len) by (split; [apply Z.div_pos; lia|apply Z.div_le_upper_bound; lia]).
  set (n := Z.min (header_attributes lim) _).
  assert (0 <= n <= 4294967296) by (unfold n, u32_max, u64_max in *; lia). clearbody n. unfold u32_max in *. unfold size_of_string_pair, size_of_header. assert (2 ^ 60 <= u64_max) by done.
  rewrite !checked_mul_granted by lia. cbn [base.mbind option_bind].
  rewrite checked_add_granted by lia. cbn [base.mbind option_bind]. rewrite checked_add_granted by lia. by eexists.
Qed.

(** The bytes of the XML of a tag. *)
Definition tag_bytes (xml : text) : bytes := encode_key EncUtf16Le xml.

(** A tag the limits allow, which the header section is built from. *)
Definition header_written (lim : Limits) (kind : ContainerKind) (name : text) (attrs : list (text * text))
    (hs : HeaderSection) : Prop :=
  let xml := render_tag name attrs in
  tag_name_ok name /\ Forall renderable attrs /\ NoDup (map fst attrs) /\
  zlen attrs <= header_attributes lim /\ 0 ∉ xml /\ zlen xml <= u32_max /\
  zlen (tag_bytes xml) <= u32_max /\ zlen (tag_bytes xml) <= header_xml_bytes lim /\
  build_header_section kind (zlen (tag_bytes xml)) xml name attrs 0 = Ok hs.

Lemma attributes_length name attrs : zlen attrs <= zlen (render_tag name attrs) /\ zlen name <= zlen (render_tag name attrs).
Proof.
  unfold render_tag. rewrite !length_app.
  assert (zlen attrs <= zlen (concat (map render_attribute attrs))); [|simpl; lia].
  induction attrs as [|p attrs IH]; [done|]. cbn [map concat]. rewrite length_app.
  unfold render_attribute at 1. rewrite !length_app. simpl. lia.
Qed.

(** [parse_header_xml] on what a writer puts behind the length. *)
Lemma parse_header_xml_written kind lim policy name attrs hs pre retained :
  header_written lim kind name attrs hs -> zlen pre <= u32_max ->
  let body := tag_bytes (render_tag name attrs) in
  parse_header_xml kind (zlen body) lim policy retained (cursor_at pre (body ++ le_split 4 (adler32 body) ++ [])) =
    Ok (with_retained hs retained).
Proof.
  intros (Hn & Ha & Hnd & Hc & Hz & Hxml & Hlen & _ & Hbuild) Hpre body. fold body in Hlen, Hbuild.
  assert (u32_max * 64 <= isize_max /\ u32_max * 8 <= u64_max /\ 8 <= u32_max) as (? & ? & ?) by done.
  destruct (render_tag_chars name attrs Hn Ha) as (Ht & cs & Hcs). destruct (attributes_length name attrs) as [Hal Hnl].
  assert (encodable EncUtf16Le (render_tag name attrs)) as Henc.
  { split_and!; [by right|done|done|]. unfold body, tag_bytes in Hlen. lia. }
  assert (bytes_ok body) as Hok by (by apply encode_key_ok).
  unfold parse_header_xml, read_header_fields, mbind. rewrite read_bytes_at by lia.
  rewrite read_u32_le_at by (rewrite ?length_app; (by apply adler32_u32) || lia). cbn [mret fst rbind].
  unfold verify_adler32. rewrite Z.eqb_refl.
  replace (if is_verify policy then Ok tt else Ok tt) with (Ok tt) by (by destruct policy). cbn [rbind].
  unfold body, tag_bytes. rewrite (decode_encoded granted _ _ _ Henc). cbn [rbind]. fold (tag_bytes (render_tag name attrs)) body.
  rewrite (trim_matches_id _ _ 60 62 cs) by done. unfold trim. rewrite (trim_matches_id _ _ 60 62 cs) by done.
  unfold clone_header_text. rewrite (clone_granted granted) by lia. cbn [rbind].
  rewrite (parse_single_tag_rendered granted) by (done || (unfold size_of_string_pair; lia) || lia). cbn [rbind].
  by eapply build_header_retained.
Qed.

(** [parse_header] of a file that begins with a written header. *)
Lemma yields_parse_header source modified kind lim policy name attrs hs rest :
  limits_ok lim -> header_written lim kind name attrs hs ->
  let content := encode_header (render_tag name attrs) ++ rest in
  stable source content modified -> zlen content <= isize_max ->
  yields (parse_header source kind lim policy) (fun r => exists retained, r = with_retained hs retained).
Proof.
  intros Hlim Hw content Hst Hmax. pose proof Hw as (_ & _ & _ & _ & _ & _ & Hlen & Hxml & _).
  set (body := tag_bytes (render_tag name attrs)) in *.
  assert (encode_header (render_tag name attrs) = be_split 4 (zlen body) ++ body ++ le_split 4 (adler32 body)) as Ehead by done.
  assert (zlen (be_split 4 (zlen body)) = 4) as Hfour by (by rewrite length_be_split).
  assert (zlen (le_split 4 (adler32 body)) = 4) as Hfour' by (by rewrite length_le_split).
  assert (zlen (encode_header (render_tag name attrs)) = 4 + zlen body + 4) as Htotal by (rewrite Ehead, !length_app; lia).
  assert (u32_max + 8 <= u64_max /\ isize_max <= u64_max) as [? ?] by done.
  assert (0 <= zlen body <= u32_max) as Hbody by lia.
  assert (header_xml_len (zlen body) lim = Ok tt) as Hxl.
  { unfold header_xml_len. rewrite ensure_u64_limit_granted by (destruct Hlim as ([? ?] & _); lia). cbn [rbind].
    unfold body, tag_bytes. cbn [encode_key]. by rewrite length_utf16_bytes, Z.mul_comm, Z_mod_mult. }
  unfold parse_header. apply yields_scoped.
  eapply yields_bind.
  { apply (yields_read granted source [] (be_split 4 (zlen body)) (body ++ le_split 4 (adler32 body) ++ rest) modified); try done.
    all: unfold content in Hst, Hmax; rewrite Ehead, <- !app_assoc in Hst, Hmax; done. }
  intros ? ->. eapply yields_step.
  { unfold with_cursor. rewrite cursor_new_at, <- (app_nil_r (be_split 4 _)). unfold read_u32_be.
    rewrite read_be_at; [done|unfold u32_max in *; simpl; lia|simpl; lia]. }
  eapply yields_step; [exact Hxl|]. eapply yields_step.
  { rewrite checked_add_granted by lia. cbn [base.mbind option_bind]. by rewrite checked_add_granted by lia. }
  assert (fs_len source = zlen content) as Hsl by apply Hst.
  assert (4 + zlen body + 4 <= zlen content) by (unfold content; rewrite length_app; lia).
  eapply yields_step; [apply ensure_range_granted; lia|].
  eapply yields_step; [apply checked_usize_granted; unfold usize_max; lia|].
  apply yields_scoped. eapply yields_bind.
  { by apply (yields_read granted source [] (encode_header (render_tag name attrs)) rest modified). }
  intros ? ->. unfold parse_header_bytes_with_limits. rewrite cursor_new_at, Ehead.
  unfold read_u32_be. rewrite read_be_at; [|unfold u32_max in *; simpl; lia|simpl; lia]. cbn [app].
  eapply yields_step; [done|]. eapply yields_step; [exact Hxl|].
  eapply yields_step; [apply checked_usize_granted; unfold usize_max; lia|].
  destruct (header_memory_granted (zlen body) lim Hbody) as [retained Hr]; [by destruct Hlim as (_ & [? ?] & _)|].
  eapply yields_step; [exact Hr|]. apply yields_scoped. eapply yields_lift; [|by eexists].
  rewrite <- (app_nil_r (le_split 4 _)). eapply parse_header_xml_written; [exact Hw|by rewrite Hfour].
Qed.

End ParseHeader.
