(* ===== verification/Written.v ===== *)
(** What a writer puts into a file of either version, and the parts of the
    proofs that the versions share: the rows of the keyword index, the
    descriptors they are read back as, and the record section. *)

From S2P Require Import Prelude Errors Types Budget Checksum Cursor Utf8 Encoding Source Compression Descriptors KeySection V1Keyword V2Keyword RecordSection V1Record V2Record Samples Format WrittenHeader.

(** * What a writer may write *)

(** The bytes of a record offset, and of every field of a header. *)
Definition width (v : WireVersion) : nat := match v with V1 => 4 | V2 => 8 end.

Definition field_width (v : WireVersion) : FieldWidth := match v with V1 => v1_fields | V2 => v2_fields end.

(** The units of a summary that its length field can express. *)
Definition summary_limit (v : WireVersion) : Z := match v with V1 => 255 | V2 => u16_max end.

(** The bytes of a file: its fields can express them, and the counters of the
    parsers do not overflow. *)
Definition size_limit (v : WireVersion) : Z := match v with V1 => u32_max | V2 => isize_max / 128 end.

Definition total_bytes (c : Contents) : Z := sum_of (fun b => zlen b) (ct_record_blocks c).

(** The rows of a key block. *)
Definition rows_written (v : WireVersion) (e : TextEncoding) (lim : Limits) (total : Z) (rows : list DecodedKeyRow) : Prop :=
  rows <> [] /\
  Forall (fun r => encodable e (row_key r) /\ summary_units e (row_key r) <= summary_limit v /\
                   0 <= record_start r <= total) rows /\
  starts_sorted rows /\ zlen rows <= key_block_entries lim /\
  8 + zlen (encode_rows (width v) e rows) <= compressed_block_bytes lim /\
  zlen (encode_rows (width v) e rows) <= decompressed_block_bytes lim.

(** The rows of the keyword index, and the index. *)
Definition index_rows (v : WireVersion) (e : TextEncoding) (c : Contents) : list IndexRow :=
  map (index_row (width v) e) (ct_key_blocks c).

Definition index_bytes (v : WireVersion) (e : TextEncoding) (c : Contents) : bytes :=
  match v with
  | V1 => V1Keyword.encode_index e (index_rows v e c)
  | V2 => V2Keyword.encode_index e Canonical (index_rows v e c)
  end.

(** What the limits demand of an index of [n] bytes. *)
Definition index_allowed (v : WireVersion) (lim : Limits) (n : Z) : Prop :=
  match v with
  | V1 => n <= key_index_bytes lim
  | V2 => 8 + n <= key_index_bytes lim /\ 8 + n <= compressed_block_bytes lim /\ n <= decompressed_block_bytes lim
  end.

(** The index as it is stored: version 2 keeps it in a block. *)
Definition stored_index (v : WireVersion) (e : TextEncoding) (c : Contents) : bytes :=
  match v with V1 => index_bytes v e c | V2 => stored (index_bytes v e c) end.

Definition key_blocks_bytes (v : WireVersion) (e : TextEncoding) (c : Contents) : bytes :=
  concat (map (fun rows => stored (encode_rows (width v) e rows)) (ct_key_blocks c)).

(** The keyword header. *)
Definition keyword_fields (v : WireVersion) (e : TextEncoding) (c : Contents) : bytes :=
  match v with
  | V1 => be_split 4 (zlen (ct_key_blocks c)) ++ be_split 4 (num_entries c)
            ++ be_split 4 (zlen (index_bytes v e c)) ++ be_split 4 (zlen (key_blocks_bytes v e c))
  | V2 => be_split 8 (zlen (ct_key_blocks c)) ++ be_split 8 (num_entries c)
            ++ be_split 8 (zlen (index_bytes v e c)) ++ be_split 8 (8 + zlen (index_bytes v e c))
            ++ be_split 8 (zlen (key_blocks_bytes v e c))
  end.

Definition keyword_header (v : WireVersion) (e : TextEncoding) (c : Contents) : bytes :=
  match v with
  | V1 => keyword_fields v e c
  | V2 => keyword_fields v e c ++ be_split 4 (adler32 (keyword_fields v e c))
  end.

Definition keyword_header_len (v : WireVersion) : Z := match v with V1 => 16 | V2 => 44 end.

Definition keywords_bytes (v : WireVersion) (e : TextEncoding) (c : Contents) : bytes :=
  keyword_header v e c ++ stored_index v e c ++ key_blocks_bytes v e c.

(** The file. *)
Definition written_file (v : WireVersion) (header : bytes) (e : TextEncoding) (c : Contents) : bytes :=
  match v with V1 => v1_file header e c | V2 => v2_file header e c end.

Definition keywords_written (v : WireVersion) (e : TextEncoding) (lim : Limits) (c : Contents) : Prop :=
  Forall (rows_written v e lim (total_bytes c)) (ct_key_blocks c) /\
  zlen (ct_key_blocks c) * size_of_key_block_descriptor <= block_metadata_bytes lim /\
  index_allowed v lim (zlen (index_bytes v e c)).

Definition records_written (v : WireVersion) (lim : Limits) (c : Contents) : Prop :=
  Forall (fun b => bytes_ok b /\ 8 + zlen b <= compressed_block_bytes lim /\
                   zlen b <= decompressed_block_bytes lim) (ct_record_blocks c) /\
  zlen (ct_record_blocks c) * size_of_record_block_descriptor <= block_metadata_bytes lim /\
  zlen (encode_record_index (field_width v) (record_rows c)) <= record_index_bytes lim.

(** The parts of a record section. *)
Definition record_fields (v : WireVersion) (c : Contents) : bytes :=
  be_split (width v) (zlen (ct_record_blocks c)) ++ be_split (width v) (num_entries c)
    ++ be_split (width v) (zlen (encode_record_index (field_width v) (record_rows c)))
    ++ be_split (width v) (zlen (concat (map stored (ct_record_blocks c)))).

Lemma field_width_nat v : Z.to_nat (field_bytes (field_width v)) = width v /\ Z.of_nat (width v) = field_bytes (field_width v).
Proof. by destruct v. Qed.

Lemma record_section_parts v c :
  record_section (field_width v) c =
    record_fields v c ++ encode_record_index (field_width v) (record_rows c) ++ concat (map stored (ct_record_blocks c)).
Proof. unfold record_section, record_fields. rewrite (proj1 (field_width_nat v)). by rewrite <- !app_assoc. Qed.

Lemma written_file_parts v header e c :
  written_file v header e c = header ++ keywords_bytes v e c ++ record_section (field_width v) c.
Proof.
  destruct v; cbn [written_file field_width]; unfold v1_file, v2_file, keywords_bytes, keyword_header, keyword_fields,
    stored_index, key_blocks_bytes, index_bytes, index_rows; cbn [width]; by rewrite <- !app_assoc.
Qed.

Lemma size_limit_small v :
  size_limit v * 128 <= isize_max /\ size_limit v < 256 ^ Z.of_nat (width v) /\ (v = V1 -> size_limit v <= u32_max).
Proof. destruct v; split_and!; try done. Qed.

(** * Lemmas *)

Lemma length_stored data : zlen (stored data) = 8 + zlen data.
Proof. unfold stored. by rewrite length_encode_block. Qed.

Lemma unit_size_pos e : 1 <= unit_size e <= 2.
Proof. by destruct e. Qed.

Lemma encode_row_length n e r : Z.of_nat n + unit_size e <= zlen (encode_row n e r).
Proof.
  unfold encode_row, key_terminator. rewrite !length_app, length_be_split, length_replicate.
  pose proof (unit_size_pos e). lia.
Qed.

Lemma encode_rows_length n e rows : zlen rows * (Z.of_nat n + unit_size e) <= zlen (encode_rows n e rows).
Proof.
  induction rows as [|r rows IH]; [done|].
  change (encode_rows n e (r :: rows)) with (encode_row n e r ++ encode_rows n e rows).
  rewrite length_app. cbn [length]. pose proof (encode_row_length n e r). lia.
Qed.

(** ** The rows of the index *)

Lemma sum_of_map {A B} (f : B -> Z) (g : A -> B) l : sum_of f (map g l) = sum_of (fun a => f (g a)) l.
Proof. induction l as [|a l IH]; [done|]. unfold sum_of in *. cbn [map foldr]. by rewrite IH. Qed.

Lemma sum_entries v e c : sum_of ir_entry_count (index_rows v e c) = num_entries c.
Proof. unfold index_rows. by rewrite sum_of_map. Qed.

Lemma sum_comp_bytes v e c : sum_of ir_comp_size (index_rows v e c) = zlen (key_blocks_bytes v e c).
Proof.
  unfold index_rows, key_blocks_bytes. rewrite sum_of_map. induction (ct_key_blocks c) as [|rows l IH]; [done|].
  cbn [map concat]. rewrite length_app, Nat2Z.inj_add, <- IH, length_stored. done.
Qed.

Lemma index_rows_length v e c : zlen (index_rows v e c) = zlen (ct_key_blocks c).
Proof. unfold index_rows. by rewrite length_map. Qed.

Lemma index_row_keys (P : text -> Prop) n e rows :
  rows <> [] -> Forall (fun r => P (row_key r)) rows ->
  P (ir_first_key (index_row n e rows)) /\ P (ir_last_key (index_row n e rows)).
Proof.
  intros Hne Hrows. destruct rows as [|r rows]; [done|]. split; cbn [index_row ir_first_key ir_last_key].
  - by apply Forall_cons in Hrows as [? _].
  - destruct (last (r :: rows)) as [l|] eqn:El; [|by rewrite last_None in El].
    apply last_Some_elem_of in El. by eapply Forall_forall in Hrows.
Qed.

Lemma index_row_summaries v e lim total rows :
  rows_written v e lim total rows ->
  (encodable e (ir_first_key (index_row (width v) e rows)) /\
   summary_units e (ir_first_key (index_row (width v) e rows)) <= summary_limit v) /\
  (encodable e (ir_last_key (index_row (width v) e rows)) /\
   summary_units e (ir_last_key (index_row (width v) e rows)) <= summary_limit v).
Proof.
  intros (Hne & Hrows & _). apply (index_row_keys (fun k => encodable e k /\ summary_units e k <= summary_limit v)); [done|].
  eapply Forall_impl; [exact Hrows|]. by intros r (? & ? & _).
Qed.

Lemma index_row_valid v e lim total rows :
  rows_written v e lim total rows -> row_valid (Z.of_nat (width v)) e lim (index_row (width v) e rows).
Proof.
  intros (Hne & Hrows & _ & Hn & Hc & Hd). pose proof (encode_rows_length (width v) e rows) as Hlen.
  assert (1 <= zlen rows) by (destruct rows; [done|simpl; lia]). unfold row_valid. cbn. lia.
Qed.

(** ** The descriptors *)

Lemma describe_starts comp start rows :
  consecutive entry_start_index entry_count start (describe comp start rows) (start + sum_of ir_entry_count rows).
Proof.
  revert comp start. induction rows as [|r rows IH]; intros comp start; cbn [describe consecutive sum_of foldr]; [lia|].
  split; [done|]. cbn [entry_count]. rewrite Z.add_assoc.
  apply IH.
Qed.

Lemma describe_offsets comp start rows :
  consecutive kb_comp_offset kb_comp_size comp (describe comp start rows) (comp + sum_of ir_comp_size rows).
Proof.
  revert comp start. induction rows as [|r rows IH]; intros comp start; cbn [describe consecutive sum_of foldr]; [lia|].
  split; [done|]. cbn [kb_comp_size]. rewrite Z.add_assoc.
  apply IH.
Qed.

Lemma sum_of_nonneg {A} (f : A -> Z) l : Forall (fun a => 0 <= f a) l -> 0 <= sum_of f l.
Proof. induction 1; cbn [sum_of foldr]; [done|]. unfold sum_of in *. lia. Qed.

Lemma sum_comp_granted acc rows comp start :
  Forall (fun r => 0 <= ir_comp_size r) rows -> 0 <= acc -> acc + sum_of ir_comp_size rows <= u64_max ->
  sum_comp acc (describe comp start rows) = Ok (acc + sum_of ir_comp_size rows).
Proof.
  intros Hrows. revert acc comp start. induction Hrows as [|r rows Hr Hrows IH]; intros acc comp start Ha Hb;
    cbn [describe sum_comp sum_of foldr kb_comp_size] in *; [f_equal; lia|].
  pose proof (sum_of_nonneg _ _ Hrows). fold (sum_of ir_comp_size rows) in *.
  rewrite add_u64_granted by lia. cbn [rbind]. rewrite IH by lia. f_equal. lia.
Qed.

Lemma ensure_blocks_granted source rows comp start :
  Forall (fun r => 0 <= ir_comp_size r) rows -> 0 <= comp -> comp + sum_of ir_comp_size rows <= fs_len source ->
  fs_len source <= u64_max -> ensure_block_ranges source (describe comp start rows) = Ok tt.
Proof.
  intros Hrows. revert comp start. induction Hrows as [|r rows Hr Hrows IH]; intros comp start Ha Hb Hu; [done|].
  cbn [describe ensure_block_ranges sum_of foldr kb_comp_size kb_comp_offset] in *.
  pose proof (sum_of_nonneg _ _ Hrows). fold (sum_of ir_comp_size rows) in *.
  rewrite ensure_range_granted by lia. cbn [rbind]. apply IH; lia.
Qed.

(** The blocks of a written index agree with the header. *)
Lemma reconcile_granted source rows comp :
  Forall (fun r => 0 <= ir_comp_size r /\ 0 <= ir_entry_count r) rows ->
  0 <= comp -> comp + sum_of ir_comp_size rows <= fs_len source -> fs_len source <= u64_max ->
  sum_of ir_entry_count rows <= u64_max ->
  reconcile_key_blocks source (describe comp 0 rows) (sum_of ir_entry_count rows) (sum_of ir_comp_size rows) = Ok tt.
Proof.
  intros Hrows Hc Hl Hu He. unfold reconcile_key_blocks.
  assert (Forall (fun r => 0 <= ir_comp_size r) rows) as Hcomp by (eapply Forall_impl; [exact Hrows|]; by intros r []).
  pose proof (consecutive_last _ _ _ _ _ (describe_starts comp 0 rows)) as Hlast.
  assert (match last (describe comp 0 rows) with
          | Some b => add_u64 (entry_start_index b) (entry_count b) "keyword entry count overflow"
          | None => Ok 0
          end = Ok (sum_of ir_entry_count rows)) as ->.
  { destruct (last _) as [b|]; [|by rewrite Hlast]. rewrite add_u64_granted by lia. f_equal. lia. }
  cbn [rbind]. rewrite Z.eqb_refl. cbn [negb]. rewrite sum_comp_granted by (done || lia). cbn [rbind].
  rewrite Z.add_0_l, Z.eqb_refl. cbn [negb]. by apply ensure_blocks_granted.
Qed.

(** ** Sizes *)

Lemma rows_nonempty v e lim total l : Forall (rows_written v e lim total) l -> Forall (fun rows => rows <> []) l.
Proof. intros Hl. eapply Forall_impl; [exact Hl|]. by intros ? []. Qed.

Lemma keyword_counts v e c :
  Forall (fun rows => rows <> []) (ct_key_blocks c) ->
  zlen (ct_key_blocks c) <= num_entries c /\ num_entries c <= zlen (key_blocks_bytes v e c).
Proof.
  unfold num_entries, key_blocks_bytes. induction 1 as [|rows l Hne _ IH]; [done|].
  cbn [sum_of foldr map concat length]. rewrite length_app, !Nat2Z.inj_add, length_stored, Nat2Z.inj_succ.
  pose proof (encode_rows_length (width v) e rows). pose proof (unit_size_pos e).
  assert (1 <= zlen rows) by (destruct rows; [done|simpl; lia]). unfold sum_of in *. nia.
Qed.

Lemma keyword_header_length v e c : zlen (keyword_header v e c) = keyword_header_len v.
Proof. destruct v; cbn [keyword_header keyword_fields]; by rewrite !length_app, !length_be_split. Qed.

Lemma stored_index_length v e c :
  zlen (stored_index v e c) = zlen (index_bytes v e c) + match v with V1 => 0 | V2 => 8 end.
Proof. destruct v; cbn [stored_index]; [lia|]. rewrite length_stored. lia. Qed.

Lemma keywords_bytes_length v e c :
  zlen (keywords_bytes v e c) = keyword_header_len v + zlen (stored_index v e c) + zlen (key_blocks_bytes v e c).
Proof. unfold keywords_bytes. rewrite !length_app, !Nat2Z.inj_add, keyword_header_length. lia. Qed.

Section Granted.

Context `{Env} (granted : forall context n, allocator context n = true).

(** A stored block decodes to its data. *)
Lemma decode_stored context data lim policy :
  bytes_ok data -> zlen data <= isize_max -> zlen data <= decompressed_block_bytes lim ->
  8 + zlen data <= compressed_block_bytes lim ->
  decode_block context (stored data) (zlen data) lim policy = Ok data.
Proof.
  intros Hok Hmax Hd Hc. unfold stored. apply (decode_block_encoded _ _ CtNone); try done.
  unfold decode_uncompressed_block. rewrite Z.eqb_refl, try_reserve_vec_Ok; try done; lia.
Qed.

Lemma keyword_retained_granted e index_len n :
  (e = EncUtf8 \/ e = EncUtf16Le) -> 0 <= index_len -> 0 <= n -> index_len * 3 + 3 + n * 88 <= u64_max ->
  exists bytes, keyword_retained_bytes e index_len n = Ok bytes.
Proof.
  intros He Hi Hn Hmax. unfold keyword_retained_bytes, size_of_key_block_descriptor.
  assert (exists m, max_decoded_len e index_len = Ok m /\ m <= index_len * 3 + 3) as (m & -> & Hm).
  { destruct He as [-> | ->]; cbn [max_decoded_len]; [exists index_len; split; [done|lia]|].
    assert ((index_len + 1) / 2 <= index_len + 1) by (apply Z.div_le_upper_bound; lia).
    rewrite checked_add_granted by lia. cbn [base.mbind option_bind]. rewrite checked_mul_granted by lia.
    eexists. split; [done|lia]. }
  cbn [rbind]. rewrite checked_mul_granted by lia. cbn [ok_or rbind]. rewrite checked_add_granted by lia. by eexists.
Qed.

End Granted.

(** The section that is read back. *)
Definition keyword_section_of (v : WireVersion) (e : TextEncoding) (c : Contents) (offset retained : Z) : KeywordSection :=
  let index_offset := offset + keyword_header_len v in
  let blocks_offset := index_offset + zlen (stored_index v e c) in {|
    ks_num_entries := num_entries c;
    ks_blocks := describe blocks_offset 0 (index_rows v e c);
    ks_record_section_offset := blocks_offset + zlen (key_blocks_bytes v e c);
    ks_retained_bytes := retained;
    ks_sections := {|
      ksr_header := {| sr_offset := offset; sr_len := keyword_header_len v |};
      ksr_index := {| sr_offset := index_offset; sr_len := zlen (stored_index v e c) |};
      ksr_blocks := {| sr_offset := blocks_offset; sr_len := zlen (key_blocks_bytes v e c) |} |} |}.
