(* ===== verification/WrittenKeywords.v ===== *)
(** Opening a file that was written: the keyword sections of both versions. *)

From S2P Require Import Prelude Errors Types Budget Checksum Cursor Utf8 Encoding Source Crypto Compression Descriptors Header KeySection V1Keyword V2Keyword RecordSection Samples Format WrittenHeader Written.

(** * The rows of the indexes *)

Lemma v2_index_rows_ok e lim c :
  limits_ok lim -> Forall (rows_written V2 e lim (total_bytes c)) (ct_key_blocks c) ->
  Forall (fun r => V2Keyword.row_writable e r /\ row_valid 8 e lim r) (index_rows V2 e c).
Proof.
  intros (_ & _ & _ & _ & [_ Hlc] & [_ Hld] & _ & [_ Hle] & _) Hrows. unfold index_rows. apply Forall_map.
  eapply Forall_impl; [exact Hrows|]. intros rows Hr.
  pose proof (index_row_valid _ _ _ _ _ Hr) as Hv. destruct (index_row_summaries _ _ _ _ _ Hr) as ([? ?] & ? & ?).
  split; [|exact Hv]. destruct Hv as (? & ? & ? & _). unfold V2Keyword.row_writable, is_u64. split_and!; (assumption || lia).
Qed.

Lemma v1_index_rows_ok e lim c :
  Forall (rows_written V1 e lim (total_bytes c)) (ct_key_blocks c) -> zlen (key_blocks_bytes V1 e c) <= u32_max ->
  Forall (fun r => V1Keyword.row_writable e r /\ row_valid 4 e lim r) (index_rows V1 e c).
Proof.
  intros Hrows Hmax. unfold index_rows, key_blocks_bytes in *. induction Hrows as [|rows l Hr Hl IH]; [constructor|].
  cbn [map concat] in *. rewrite length_app, length_stored in Hmax || rewrite length_app, Nat2Z.inj_add, length_stored in Hmax.
  constructor; [|apply IH; lia].
  pose proof (index_row_valid _ _ _ _ _ Hr) as Hv. destruct (index_row_summaries _ _ _ _ _ Hr) as ([? ?] & ? & ?).
  pose proof (encode_rows_length 4 e rows). pose proof (unit_size_pos e).
  split; [|exact Hv]. unfold V1Keyword.row_writable, is_u32. cbn [width index_row ir_entry_count ir_comp_size ir_decomp_size] in *.
  split_and!; (assumption || lia).
Qed.

Lemma encode_summary_ok e key : encodable e key -> bytes_ok (V2Keyword.encode_summary e Canonical key).
Proof.
  intros (_ & Ht & _). unfold V2Keyword.encode_summary. rewrite !bytes_ok_app. split_and!; [apply be_split_ok|by apply encode_key_ok|].
  cbn [summary_terminator]. unfold key_terminator. by apply Forall_replicate.
Qed.

Lemma index_bytes_ok e rows : Forall (V2Keyword.row_writable e) rows -> bytes_ok (V2Keyword.encode_index e Canonical rows).
Proof.
  induction 1 as [|r rows (_ & _ & _ & H1 & _ & H2 & _) _ IH]; [constructor|].
  unfold V2Keyword.encode_index in *. cbn [map concat]. rewrite bytes_ok_app. split; [|done].
  unfold V2Keyword.encode_index_row. rewrite !bytes_ok_app. split_and!; auto using be_split_ok, encode_summary_ok.
Qed.

(** * Version 2 *)

Lemma keyword_fields_ok e c : bytes_ok (keyword_fields V2 e c).
Proof. cbn [keyword_fields]. rewrite !bytes_ok_app. split_and!; apply be_split_ok. Qed.

Lemma v2_keywords_length e c :
  zlen (keywords_bytes V2 e c) = 52 + zlen (index_bytes V2 e c) + zlen (key_blocks_bytes V2 e c).
Proof. rewrite keywords_bytes_length, stored_index_length. cbn [keyword_header_len]. lia. Qed.

Lemma keyword_fields_length e c : zlen (keyword_fields V2 e c) = 40.
Proof. cbn [keyword_fields]. by rewrite !length_app, !length_be_split. Qed.

Section ParseKeywords.

Context `{Env} (granted : forall context n, allocator context n = true) {S : Type} `{HasWorld S}.

Lemma read_keyword_fields e c :
  Forall (fun rows => rows <> []) (ct_key_blocks c) -> zlen (keywords_bytes V2 e c) <= isize_max ->
  with_cursor (keyword_fields V2 e c) V2Keyword.read_keyword_header =
    Ok {| V2Keyword.kh_num_blocks := zlen (ct_key_blocks c); kh_num_entries := num_entries c;
          kh_index_decomp_len := zlen (index_bytes V2 e c); kh_index_comp_len := 8 + zlen (index_bytes V2 e c);
          kh_key_blocks_len := zlen (key_blocks_bytes V2 e c) |}.
Proof.
  intros Hne Hmax. destruct (keyword_counts V2 e c Hne) as [? ?]. rewrite v2_keywords_length in Hmax.
  assert (isize_max <= u64_max /\ 100 <= u64_max) as [? ?] by done.
  unfold with_cursor, V2Keyword.read_keyword_header. cbn [keyword_fields]. rewrite cursor_new_at.
  rewrite <- (app_nil_r (be_split 8 (zlen (key_blocks_bytes V2 e c)))).
  do 5 (unfold mbind at 1; rewrite read_u64_be_at;
    [|unfold is_u64; lia|rewrite ?length_app, ?length_be_split; cbn [length]; lia]).
  done.
Qed.

(** The header of the section: an index with terminators. *)
Lemma keyword_header_written e c header options :
  Forall (fun rows => rows <> []) (ct_key_blocks c) -> zlen (keywords_bytes V2 e c) <= isize_max ->
  encrypted header = 0 ->
  read_keyword_header_section (keyword_fields V2 e c ++ be_split 4 (adler32 (keyword_fields V2 e c))) header options =
    Ok ({| V2Keyword.kh_num_blocks := zlen (ct_key_blocks c); kh_num_entries := num_entries c;
           kh_index_decomp_len := zlen (index_bytes V2 e c); kh_index_comp_len := 8 + zlen (index_bytes V2 e c);
           kh_key_blocks_len := zlen (key_blocks_bytes V2 e c) |}, Canonical).
Proof.
  intros Hne Hmax Henc. unfold read_keyword_header_section.
  pose proof (slice_app_mid (keyword_fields V2 e c) (be_split 4 (adler32 (keyword_fields V2 e c))) []) as H1.
  rewrite length_be_split, keyword_fields_length, app_nil_r in H1.
  change (slice (keyword_fields V2 e c ++ be_split 4 (adler32 (keyword_fields V2 e c))) 40 44 =
    Some (be_split 4 (adler32 (keyword_fields V2 e c)))) in H1. rewrite H1. cbn [or_panic rbind].
  pose proof (slice_app_mid [] (keyword_fields V2 e c) (be_split 4 (adler32 (keyword_fields V2 e c)))) as H2.
  rewrite keyword_fields_length in H2.
  change (slice (keyword_fields V2 e c ++ be_split 4 (adler32 (keyword_fields V2 e c))) 0 40 = Some (keyword_fields V2 e c)) in H2.
  rewrite H2. cbn [or_panic rbind]. rewrite Henc. change (has_keyword_header 0) with false. cbn [rbind].
  unfold detect_keyword_index_layout. rewrite be_combine_split.
  2: { pose proof (adler32_u32 _ (keyword_fields_ok e c)). unfold is_u32, u32_max in *. change (256 ^ Z.of_nat 4) with 4294967296. lia. }
  rewrite Z.eqb_refl. cbn [rbind]. by rewrite read_keyword_fields.
Qed.

(** [parse_key_index] of a written index. *)
Lemma yields_parse_key_index source pre e c rest modified header options blocks_offset :
  let h := {| V2Keyword.kh_num_blocks := zlen (ct_key_blocks c); kh_num_entries := num_entries c;
              kh_index_decomp_len := zlen (index_bytes V2 e c); kh_index_comp_len := 8 + zlen (index_bytes V2 e c);
              kh_key_blocks_len := zlen (key_blocks_bytes V2 e c) |} in
  limits_ok (limits options) -> (e = EncUtf8 \/ e = EncUtf16Le) -> keywords_written V2 e (limits options) c ->
  encrypted header = 0 ->
  stable source (pre ++ stored (index_bytes V2 e c) ++ rest) modified ->
  zlen (pre ++ stored (index_bytes V2 e c) ++ rest) * 128 <= isize_max ->
  zlen (key_blocks_bytes V2 e c) <= zlen rest -> 0 <= blocks_offset ->
  blocks_offset + zlen (key_blocks_bytes V2 e c) <= fs_len source ->
  yields (parse_key_index source header e h Canonical (zlen (ct_key_blocks c)) (zlen pre) blocks_offset options)
    (fun r => exists retained, r = (describe blocks_offset 0 (index_rows V2 e c), retained)).
Proof.
  intros h Hlim He (Hrows & Hmeta & Hki & Hci & Hdi) Henc Hst Hmax Hrest Hoff Hend.
  assert (zlen (pre ++ stored (index_bytes V2 e c) ++ rest) = zlen pre + (8 + zlen (index_bytes V2 e c)) + zlen rest) as Hl.
  { rewrite !length_app, !Nat2Z.inj_add, length_stored. lia. }
  assert (Forall (fun rows => rows <> []) (ct_key_blocks c)) as Hne by (eapply Forall_impl; [exact Hrows|]; by intros ? []).
  destruct (keyword_counts V2 e c Hne) as [Hblocks Hentries].
  assert (isize_max <= usize_max /\ isize_max * 2 <= u64_max) as [? ?] by done.
  pose proof (v2_index_rows_ok e (limits options) c Hlim Hrows) as Hir.
  assert (fs_len source = zlen (pre ++ stored (index_bytes V2 e c) ++ rest)) as Hfs by apply Hst.
  unfold parse_key_index. cbn [h kh_index_comp_len kh_index_decomp_len kh_num_entries kh_key_blocks_len].
  eapply yields_step; [apply checked_usize_granted; lia|]. apply yields_scoped.
  eapply yields_bind; [eapply (yields_read granted); [exact Hst|done|by rewrite length_stored|lia]|]. intros ? ->.
  eapply yields_step; [unfold decrypt_index_block; by rewrite Henc|].
  eapply yields_step; [apply checked_usize_granted; lia|]. apply yields_scoped.
  destruct (keyword_retained_granted e (zlen (index_bytes V2 e c)) (zlen (ct_key_blocks c))) as [retained Hret]; [done|lia..|].
  eapply yields_step; [exact Hret|]. apply yields_scoped. eapply yields_lift; [|by eexists].
  assert (bytes_ok (index_bytes V2 e c)) as Hok.
  { unfold index_bytes. apply index_bytes_ok. eapply Forall_impl; [exact Hir|]. by intros r []. }
  rewrite (decode_stored granted); [cbn [rbind]|exact Hok|lia..].
  assert (zlen (index_rows V2 e c) = zlen (ct_key_blocks c)) as Hil by (unfold index_rows; by rewrite length_map).
  rewrite <- Hil. unfold index_bytes at 1. rewrite (v2_keyword_index_round_trip e Canonical (limits options) (index_rows V2 e c) blocks_offset granted Hlim Hir).
  - cbn [rbind]. rewrite <- (sum_entries V2 e c), <- (sum_comp_bytes V2 e c). rewrite reconcile_granted; [done|..].
    + eapply Forall_impl; [exact Hir|]. intros r [(? & ? & _) _]. unfold is_u64 in *. lia.
    + lia.
    + rewrite sum_comp_bytes. lia.
    + lia.
    + rewrite sum_entries. lia.
  - rewrite sum_comp_bytes. lia.
  - rewrite sum_entries. lia.
  - fold (index_bytes V2 e c). lia.
  - rewrite Hil. unfold size_of_key_block_descriptor. lia.
Qed.

(** [validate_keyword_header_counts] of a written index. *)
Lemma header_counts_granted e lim c :
  limits_ok lim -> keywords_written V2 e lim c -> zlen (keywords_bytes V2 e c) * 128 <= isize_max ->
  V2Keyword.validate_keyword_header_counts (zlen (ct_key_blocks c)) (num_entries c) (zlen (index_bytes V2 e c)) e Canonical lim =
    Ok (zlen (ct_key_blocks c)).
Proof.
  intros Hlim (Hrows & Hmeta & _) Hmax. rewrite v2_keywords_length in Hmax.
  assert (Forall (fun rows => rows <> []) (ct_key_blocks c)) as Hne by (eapply Forall_impl; [exact Hrows|]; by intros ? []).
  destruct (keyword_counts V2 e c Hne) as [? ?]. assert (isize_max <= u64_max /\ isize_max <= usize_max) as [? ?] by done.
  assert (zlen (ct_key_blocks c) * (28 + 2 * zlen (summary_terminator e Canonical)) <= zlen (index_bytes V2 e c)) as Hmin.
  { unfold index_bytes, index_rows, V2Keyword.encode_index. generalize (ct_key_blocks c). intros l.
    induction l as [|rows l IH]; [done|]. cbn [map concat length]. rewrite length_app.
    pose proof (v2_length_index_row e Canonical (index_row (width V2) e rows)). lia. }
  unfold V2Keyword.validate_keyword_header_counts. rewrite (proj2 (Z.ltb_ge _ _)) by lia. rewrite minimum_row_Ok. cbn [rbind].
  rewrite checked_mul_granted by lia. cbn [ok_or rbind]. unfold validate_block_count.
  rewrite (proj2 (Z.ltb_ge _ _)) by lia. rewrite checked_usize_granted by lia. cbn [rbind].
  unfold size_of_key_block_descriptor in *. rewrite checked_mul_granted by lia. cbn [ok_or rbind].
  rewrite (proj2 (ensure_usize_limit_Ok _ _ _ tt)); [done|lia].
Qed.

(** [parse_keyword_section] of a written section. *)
Lemma yields_parse_keywords source pre e c rest modified header options :
  limits_ok (limits options) -> (e = EncUtf8 \/ e = EncUtf16Le) -> keywords_written V2 e (limits options) c ->
  encrypted header = 0 ->
  stable source (pre ++ keywords_bytes V2 e c ++ rest) modified ->
  zlen (pre ++ keywords_bytes V2 e c ++ rest) * 128 <= isize_max ->
  yields (V2Keyword.parse_keyword_section source header e (zlen pre) options)
    (fun r => exists retained, r = keyword_section_of V2 e c (zlen pre) retained).
Proof.
  intros Hlim He Hw Henc Hst Hmax. pose proof Hw as (Hrows & _ & Hki & _ & _).
  assert (Forall (fun rows => rows <> []) (ct_key_blocks c)) as Hne by (eapply Forall_impl; [exact Hrows|]; by intros ? []).
  pose proof (v2_keywords_length e c) as Hlen.
  assert (zlen (pre ++ keywords_bytes V2 e c ++ rest) = zlen pre + zlen (keywords_bytes V2 e c) + zlen rest) as Hl
    by (rewrite !length_app; lia).
  assert (fs_len source = zlen (pre ++ keywords_bytes V2 e c ++ rest)) as Hfs by apply Hst.
  assert (isize_max <= u64_max) by done.
  set (raw := keyword_fields V2 e c ++ be_split 4 (adler32 (keyword_fields V2 e c))).
  assert (zlen raw = 44) as Hraw by (unfold raw; by rewrite length_app, Nat2Z.inj_add, keyword_fields_length, length_be_split).
  assert (keywords_bytes V2 e c = raw ++ stored (index_bytes V2 e c) ++ key_blocks_bytes V2 e c) as Ekb
    by (unfold keywords_bytes, raw; by rewrite <- app_assoc).
  assert (pre ++ keywords_bytes V2 e c ++ rest = pre ++ raw ++ (stored (index_bytes V2 e c) ++ key_blocks_bytes V2 e c) ++ rest) as E1
    by (rewrite Ekb; by rewrite <- !app_assoc).
  assert (pre ++ keywords_bytes V2 e c ++ rest = (pre ++ raw) ++ stored (index_bytes V2 e c) ++ key_blocks_bytes V2 e c ++ rest) as E2
    by (rewrite Ekb; by rewrite <- !app_assoc).
  unfold V2Keyword.parse_keyword_section. apply yields_scoped.
  eapply yields_bind; [apply (yields_read granted source pre raw _ modified _ _ _ (eq_ind _ (fun l => stable source l modified) Hst _ E1));
    [done|done|rewrite <- E1; lia]|].
  intros ? ->. eapply yields_step; [apply keyword_header_written; [done|lia|done]|].
  cbn [kh_num_blocks kh_num_entries kh_index_decomp_len kh_index_comp_len kh_key_blocks_len].
  eapply yields_step.
  { unfold check_keyword_header. cbn [kh_index_decomp_len kh_index_comp_len].
    destruct Hlim as (_ & _ & [_ Hk] & _). rewrite !ensure_u64_limit_granted by lia. cbn [rbind].
    by rewrite (proj2 (Z.ltb_ge _ _)) by lia. }
  eapply yields_step; [apply header_counts_granted; [done|done|lia]|].
  eapply yields_step; [by rewrite checked_add_granted by lia|].
  eapply yields_step; [by rewrite checked_add_granted by lia|].
  eapply yields_step; [by rewrite checked_add_granted by lia|].
  eapply yields_step; [apply ensure_range_granted; lia|].
  eapply yields_step; [apply ensure_range_granted; lia|].
  assert (zlen (pre ++ raw) = zlen pre + 44) as Hpr by (rewrite length_app; lia).
  rewrite <- Hpr at 1.
  eapply yields_bind; [apply (yields_parse_key_index source (pre ++ raw) e c (key_blocks_bytes V2 e c ++ rest) modified);
    [done|done|done|done|by rewrite <- E2|rewrite <- E2; lia|rewrite length_app; lia|lia|lia]|].
  intros ? [retained ->]. apply yields_ret. exists retained.
  unfold keyword_section_of. cbn [stored_index keyword_header_len]. by rewrite length_stored.
Qed.

End ParseKeywords.

(** * Version 1 *)

Lemma v1_fields_length e c : zlen (keyword_fields V1 e c) = 16.
Proof. cbn [keyword_fields]. by rewrite !length_app, !length_be_split. Qed.

Lemma v1_keywords_length e c :
  zlen (keywords_bytes V1 e c) = 16 + zlen (index_bytes V1 e c) + zlen (key_blocks_bytes V1 e c).
Proof. rewrite keywords_bytes_length, stored_index_length. cbn [keyword_header_len]. lia. Qed.

Section ParseKeywordsV1.

Context `{Env} (granted : forall context n, allocator context n = true) {S : Type} `{HasWorld S}.

(** The header a written section is read back as. *)
Definition v1_header_of (e : TextEncoding) (c : Contents) : V1Keyword.KeywordHeader := {|
  V1Keyword.kh_num_blocks := zlen (ct_key_blocks c);
  V1Keyword.kh_num_entries := num_entries c;
  V1Keyword.kh_key_info_len := zlen (index_bytes V1 e c);
  V1Keyword.kh_key_blocks_len := zlen (key_blocks_bytes V1 e c) |}.

Lemma v1_read_fields e c :
  Forall (fun rows => rows <> []) (ct_key_blocks c) -> zlen (keywords_bytes V1 e c) <= u32_max ->
  with_cursor (keyword_fields V1 e c) V1Keyword.read_keyword_header = Ok (v1_header_of e c).
Proof.
  intros Hne Hmax. destruct (keyword_counts V1 e c Hne) as [? ?]. rewrite v1_keywords_length in Hmax.
  assert (u32_max <= u64_max /\ 100 <= u64_max) as [? ?] by done.
  unfold with_cursor, V1Keyword.read_keyword_header. cbn [keyword_fields]. rewrite cursor_new_at.
  rewrite <- (app_nil_r (be_split 4 (zlen (key_blocks_bytes V1 e c)))).
  do 4 (unfold mbind at 1; rewrite read_u32_be_widened_at;
    [|unfold is_u32; lia|rewrite ?length_app, ?length_be_split; cbn [length]; lia]).
  done.
Qed.

(** [parse_key_info] of a written index. *)
Lemma yields_parse_key_info source pre e c rest modified lim blocks_offset :
  limits_ok lim -> (e = EncUtf8 \/ e = EncUtf16Le) -> keywords_written V1 e lim c ->
  stable source (pre ++ index_bytes V1 e c ++ rest) modified ->
  zlen (pre ++ index_bytes V1 e c ++ rest) <= u32_max ->
  zlen (key_blocks_bytes V1 e c) <= zlen rest -> 0 <= blocks_offset ->
  blocks_offset + zlen (key_blocks_bytes V1 e c) <= fs_len source ->
  yields (V1Keyword.parse_key_info source e (v1_header_of e c) (zlen (ct_key_blocks c)) (zlen pre) blocks_offset lim)
    (fun r => exists retained, r = (describe blocks_offset 0 (index_rows V1 e c), retained)).
Proof.
  intros Hlim He (Hrows & Hmeta & Hki) Hst Hmax Hrest Hoff Hend.
  assert (zlen (pre ++ index_bytes V1 e c ++ rest) = zlen pre + zlen (index_bytes V1 e c) + zlen rest) as Hl
    by (rewrite !length_app; lia).
  destruct (keyword_counts V1 e c (rows_nonempty _ _ _ _ _ Hrows)) as [Hblocks Hentries].
  assert (u32_max * 128 <= usize_max /\ u32_max * 128 <= u64_max /\ u32_max * 128 <= isize_max /\ 100 <= u32_max) as (? & ? & ? & ?) by done.
  pose proof (v1_index_rows_ok e lim c Hrows ltac:(lia)) as Hir.
  assert (fs_len source = zlen (pre ++ index_bytes V1 e c ++ rest)) as Hfs by apply Hst.
  unfold V1Keyword.parse_key_info.
  cbn [v1_header_of V1Keyword.kh_key_info_len V1Keyword.kh_num_entries V1Keyword.kh_key_blocks_len].
  eapply yields_step; [apply checked_usize_granted; lia|]. apply yields_scoped.
  eapply yields_bind; [eapply (yields_read granted); [exact Hst|done|done|lia]|]. intros ? ->.
  destruct (keyword_retained_granted e (zlen (index_bytes V1 e c)) (zlen (ct_key_blocks c))) as [retained Hret]; [done|lia..|].
  eapply yields_step; [exact Hret|]. apply yields_scoped. eapply yields_lift; [|by eexists].
  rewrite <- (index_rows_length V1 e c). unfold index_bytes at 1.
  rewrite (v1_keyword_index_round_trip e lim (index_rows V1 e c) blocks_offset granted Hlim Hir).
  - cbn [rbind]. rewrite <- (sum_entries V1 e c), <- (sum_comp_bytes V1 e c). rewrite reconcile_granted; [done|..].
    + eapply Forall_impl; [exact Hir|]. intros r [(? & ? & _) _]. unfold is_u32 in *. lia.
    + lia.
    + rewrite sum_comp_bytes. lia.
    + lia.
    + rewrite sum_entries. lia.
  - rewrite sum_comp_bytes. lia.
  - rewrite sum_entries. lia.
  - fold (index_bytes V1 e c). lia.
  - rewrite index_rows_length. unfold size_of_key_block_descriptor. lia.
Qed.

Lemma v1_index_min e c : zlen (ct_key_blocks c) * MIN_KEY_INFO_ROW_LEN <= zlen (index_bytes V1 e c).
Proof.
  unfold index_bytes, index_rows, V1Keyword.encode_index. generalize (ct_key_blocks c). intros l.
  induction l as [|rows l IH]; [done|]. cbn [map concat length]. rewrite length_app.
  pose proof (v1_length_index_row e (index_row (width V1) e rows)). lia.
Qed.

(** [validate_keyword_header_counts] of a written index. *)
Lemma v1_counts_granted e lim c :
  keywords_written V1 e lim c -> zlen (keywords_bytes V1 e c) <= u32_max ->
  V1Keyword.validate_keyword_header_counts (zlen (ct_key_blocks c)) (num_entries c) (zlen (index_bytes V1 e c)) lim =
    Ok (zlen (ct_key_blocks c)).
Proof.
  intros (Hrows & Hmeta & _) Hmax. rewrite v1_keywords_length in Hmax.
  destruct (keyword_counts V1 e c (rows_nonempty _ _ _ _ _ Hrows)) as [? ?].
  assert (u32_max * 128 <= usize_max /\ u32_max * 128 <= u64_max) as (? & ?) by done.
  pose proof (v1_index_min e c) as Hmin. unfold V1Keyword.validate_keyword_header_counts, mul_u64.
  rewrite (proj2 (Z.ltb_ge _ _)) by lia. rewrite checked_mul_granted by (unfold MIN_KEY_INFO_ROW_LEN in *; lia).
  cbn [ok_or rbind]. unfold validate_block_count. rewrite (proj2 (Z.ltb_ge _ _)) by lia.
  rewrite checked_usize_granted by lia. cbn [rbind].
  unfold size_of_key_block_descriptor in *. rewrite checked_mul_granted by lia. cbn [ok_or rbind].
  rewrite (proj2 (ensure_usize_limit_Ok _ _ _ tt)); [done|lia].
Qed.

(** [parse_keyword_section] of a written section. *)
Lemma v1_yields_parse_keywords source pre e c rest modified header options :
  limits_ok (limits options) -> (e = EncUtf8 \/ e = EncUtf16Le) -> keywords_written V1 e (limits options) c ->
  encrypted header = 0 ->
  stable source (pre ++ keywords_bytes V1 e c ++ rest) modified ->
  zlen (pre ++ keywords_bytes V1 e c ++ rest) <= u32_max ->
  yields (V1Keyword.parse_keyword_section source header e (zlen pre) options)
    (fun r => exists retained, r = keyword_section_of V1 e c (zlen pre) retained).
Proof.
  intros Hlim He Hw Henc Hst Hmax. pose proof Hw as (Hrows & _ & Hki). cbn [index_allowed] in Hki.
  pose proof (v1_keywords_length e c) as Hlen.
  assert (zlen (pre ++ keywords_bytes V1 e c ++ rest) = zlen pre + zlen (keywords_bytes V1 e c) + zlen rest) as Hl
    by (rewrite !length_app; lia).
  assert (fs_len source = zlen (pre ++ keywords_bytes V1 e c ++ rest)) as Hfs by apply Hst.
  assert (u32_max * 128 <= u64_max /\ u32_max * 128 <= isize_max) as [? ?] by done.
  assert (pre ++ keywords_bytes V1 e c ++ rest =
    pre ++ keyword_fields V1 e c ++ (index_bytes V1 e c ++ key_blocks_bytes V1 e c) ++ rest) as E1
    by (unfold keywords_bytes; cbn [keyword_header stored_index]; by rewrite <- !app_assoc).
  assert (pre ++ keywords_bytes V1 e c ++ rest =
    (pre ++ keyword_fields V1 e c) ++ index_bytes V1 e c ++ key_blocks_bytes V1 e c ++ rest) as E2
    by (rewrite E1; by rewrite <- !app_assoc).
  unfold V1Keyword.parse_keyword_section. rewrite Henc.
  change (has_keyword_header 0 || has_keyword_index 0) with false. cbv beta iota.
  eapply yields_step; [by apply checked_usize_granted|]. apply yields_scoped.
  eapply yields_bind; [apply (yields_read granted source pre (keyword_fields V1 e c) _ modified _ _ _
      (eq_ind _ (fun l => stable source l modified) Hst _ E1)); [done|by rewrite v1_fields_length|rewrite <- E1; lia]|].
  intros ? ->. eapply yields_step; [apply v1_read_fields; [by eapply rows_nonempty|lia]|].
  cbn [v1_header_of V1Keyword.kh_num_blocks V1Keyword.kh_num_entries V1Keyword.kh_key_info_len V1Keyword.kh_key_blocks_len].
  eapply yields_step; [apply ensure_u64_limit_granted; destruct Hlim as (_ & _ & [_ ?] & _); lia|].
  eapply yields_step; [apply v1_counts_granted; [done|lia]|].
  change V1Keyword.KEYWORD_HEADER_LEN with 16.
  eapply yields_step; [apply add_u64_granted; lia|]. eapply yields_step; [apply add_u64_granted; lia|].
  eapply yields_step; [apply add_u64_granted; lia|].
  eapply yields_step; [apply ensure_range_granted; lia|]. eapply yields_step; [apply ensure_range_granted; lia|].
  assert (zlen (pre ++ keyword_fields V1 e c) = zlen pre + 16) as Hpr
    by (rewrite length_app, Nat2Z.inj_add, v1_fields_length; done).
  rewrite <- Hpr at 1. fold (v1_header_of e c).
  eapply yields_bind; [apply (yields_parse_key_info source (pre ++ keyword_fields V1 e c) e c (key_blocks_bytes V1 e c ++ rest) modified);
    [done|done|done|by rewrite <- E2|rewrite <- E2; lia|rewrite length_app; lia|lia|lia]|].
  intros ? [retained ->]. apply yields_ret. by exists retained.
Qed.

End ParseKeywordsV1.

(** * Both versions *)

(** The parser of the keyword section of a version. *)
Definition parse_keywords `{Env} {S : Type} `{HasWorld S} (v : WireVersion) :
    FileSource -> Header -> TextEncoding -> Z -> OpenOptions -> M S KeywordSection :=
  match v with V1 => V1Keyword.parse_keyword_section | V2 => V2Keyword.parse_keyword_section end.

Lemma yields_parse_keywords_of `{Env} (granted : forall context n, allocator context n = true) {S : Type} `{HasWorld S}
    v source pre e c rest modified header options :
  limits_ok (limits options) -> (e = EncUtf8 \/ e = EncUtf16Le) -> keywords_written v e (limits options) c ->
  encrypted header = 0 ->
  stable source (pre ++ keywords_bytes v e c ++ rest) modified ->
  zlen (pre ++ keywords_bytes v e c ++ rest) <= size_limit v ->
  yields (parse_keywords v source header e (zlen pre) options)
    (fun r => exists retained, r = keyword_section_of v e c (zlen pre) retained).
Proof.
  intros. pose proof (size_limit_small v) as (? & _). destruct v; cbn [parse_keywords].
  - by apply (v1_yields_parse_keywords granted source pre e c rest modified).
  - eapply (yields_parse_keywords granted source pre e c rest modified); try done. lia.
Qed.
