(* ===== verification/WholeFile.v ===== *)
(** Opening a file that was written: its record section, its layout and its
    contents.  Whatever a writer puts into a file of either version, opening the
    file gives it back. *)

From S2P Require Import Prelude Errors Types Budget Checksum Cursor Utf8 Encoding FileUrl Source Crypto Compression Descriptors Header KeySection V1Keyword V2Keyword RecordSection V1Record V2Record Samples Format Normalize LocatorIndex Arcs Core Dictionary SampleDictionary WrittenHeader Written WrittenKeywords.

(** * Lemmas *)

Lemma record_fields_length v c : zlen (record_fields v c) = record_header_len (field_width v).
Proof. unfold record_fields. rewrite !length_app, !length_be_split. by destruct v. Qed.

Lemma record_index_length v c :
  zlen (encode_record_index (field_width v) (record_rows c)) =
    record_index_row_len (field_width v) * zlen (ct_record_blocks c).
Proof.
  unfold encode_record_index, record_rows. induction (ct_record_blocks c) as [|b l IH]; [destruct v; done|].
  cbn [map concat length]. rewrite !length_app, !length_be_split.
  destruct v; cbn [field_width] in *;
    [change (Z.to_nat (field_bytes v1_fields)) with 4%nat in *; change (record_index_row_len v1_fields) with 8 in *
    |change (Z.to_nat (field_bytes v2_fields)) with 8%nat in *; change (record_index_row_len v2_fields) with 16 in *]; lia.
Qed.

Lemma record_blocks_length c : zlen (concat (map stored (ct_record_blocks c))) = sum_fst (record_rows c).
Proof.
  unfold record_rows. induction (ct_record_blocks c) as [|b l IH]; [done|].
  cbn [map concat sum_fst foldr fst]. rewrite length_app, Nat2Z.inj_add, length_stored, IH. done.
Qed.

Lemma record_total c : sum_snd (record_rows c) = total_bytes c.
Proof.
  unfold record_rows, total_bytes, sum_of, sum_snd. induction (ct_record_blocks c) as [|b l IH]; [done|].
  cbn [map foldr snd]. by rewrite IH.
Qed.

Lemma total_bytes_bound c : 0 <= total_bytes c <= sum_fst (record_rows c).
Proof.
  unfold record_rows, total_bytes, sum_of, sum_fst. induction (ct_record_blocks c) as [|b l IH]; [done|].
  cbn [map foldr fst]. lia.
Qed.

(** The rows of the index are rows the parser accepts. *)
Lemma record_rows_valid v lim c :
  records_written v lim c -> zlen (concat (map stored (ct_record_blocks c))) < 256 ^ field_bytes (field_width v) ->
  Forall (record_row_valid (field_width v) lim) (record_rows c).
Proof.
  intros (Hblocks & _) Hmax. unfold record_rows. induction Hblocks as [|b l (_ & Hc & Hd) _ IH]; [constructor|].
  cbn [map concat] in *. rewrite length_app, Nat2Z.inj_add, length_stored in Hmax.
  constructor; [|apply IH; lia]. split_and!; cbn [fst snd]; lia.
Qed.

(** The two lengths of a version: [RECORD_HEADER_LEN], and the length of the index. *)
#[local] Notation record_head v := (record_header_len (field_width v)).

Definition record_index_len (v : WireVersion) (c : Contents) : Z :=
  record_index_row_len (field_width v) * zlen (ct_record_blocks c).

Lemma record_index_len_bounds v c :
  zlen (ct_record_blocks c) * 8 <= record_index_len v c <= zlen (ct_record_blocks c) * 16.
Proof.
  unfold record_index_len. destruct v;
    [change (record_index_row_len _) with 8|change (record_index_row_len _) with 16]; lia.
Qed.

Lemma record_head_bounds v : 16 <= record_head v <= 32.
Proof. by destruct v. Qed.

Lemma field_round_trip_of v : field_round_trip (field_width v).
Proof. destruct v; [apply v1_round_trip|apply v2_round_trip]. Qed.

Section ParseRecords.

Context `{Env} (granted : forall context n, allocator context n = true) {S : Type} `{HasWorld S}.

Definition record_section_of (v : WireVersion) (c : Contents) (offset retained : Z) : RecordSection := {|
  rs_num_entries := num_entries c;
  rs_total_decompressed_len := total_bytes c;
  rs_blocks := describe_records (offset + record_head v + record_index_len v c) 0 (record_rows c);
  rs_retained_bytes := retained;
  rs_sections := {|
    rsr_header := {| sr_offset := offset; sr_len := record_head v |};
    rsr_index := {| sr_offset := offset + record_head v; sr_len := record_index_len v c |};
    rsr_blocks := {| sr_offset := offset + record_head v + record_index_len v c; sr_len := sum_fst (record_rows c) |} |} |}.

Lemma read_record_fields v c :
  zlen (ct_record_blocks c) <= size_limit v -> 0 <= num_entries c <= size_limit v ->
  0 <= sum_fst (record_rows c) <= size_limit v -> record_index_len v c <= size_limit v ->
  with_cursor (record_fields v c) (read_record_header (field_width v)) =
    Ok {| rh_num_blocks := zlen (ct_record_blocks c); rh_num_entries := num_entries c;
          rh_index_len := record_index_len v c; rh_blocks_len := sum_fst (record_rows c) |}.
Proof.
  intros Hn He Hs Hi. assert (100 <= u64_max) by done. pose proof (record_index_len_bounds v c).
  destruct (size_limit_small v) as (_ & Hlimit & _). destruct (field_round_trip_of v) as [Hw Hread].
  destruct (field_width_nat v) as [Enat Ez]. rewrite Ez in Hlimit. rewrite Enat in Hread.
  unfold with_cursor, record_fields, read_record_header. rewrite record_index_length, record_blocks_length, cursor_new_at.
  fold (record_index_len v c). rewrite <- (app_nil_r (be_split (width v) (sum_fst (record_rows c)))).
  do 4 (unfold mbind at 1; rewrite Hread; [|lia|rewrite ?length_app, ?length_be_split; cbn [length]; lia]).
  done.
Qed.

Lemma record_header_granted v lim c :
  limits_ok lim -> records_written v lim c -> record_index_len v c * 128 <= isize_max ->
  RecordSection.validate_record_header (field_width v) (zlen (ct_record_blocks c)) (record_index_len v c) lim =
    Ok (zlen (ct_record_blocks c), record_index_len v c).
Proof.
  intros (_ & _ & _ & [_ Hrl] & _ & _ & [_ Hml] & _) (_ & Hmeta & Hindex) Hmax.
  rewrite record_index_length in Hindex. fold (record_index_len v c) in Hindex. pose proof (record_index_len_bounds v c).
  assert (isize_max <= u64_max /\ isize_max <= usize_max) as [? ?] by done.
  assert (zlen (ct_record_blocks c) * record_index_row_len (field_width v) = record_index_len v c) as Em
    by (unfold record_index_len; lia).
  unfold RecordSection.validate_record_header. rewrite checked_mul_granted by (rewrite Em; lia).
  cbn [ok_or rbind]. rewrite Em, Z.eqb_refl. cbn [negb]. rewrite ensure_u64_limit_granted by lia. cbn [rbind].
  rewrite !checked_usize_granted by lia. cbn [rbind].
  unfold size_of_record_block_descriptor in *. rewrite checked_mul_granted by lia. cbn [ok_or rbind].
  rewrite (proj2 (ensure_usize_limit_Ok _ _ _ tt)); [done|lia].
Qed.

(** [parse_record_section] of a written section. *)
Lemma yields_parse_records v source pre c modified lim :
  limits_ok lim -> records_written v lim c -> 0 <= num_entries c <= size_limit v ->
  stable source (pre ++ record_section (field_width v) c) modified ->
  zlen (pre ++ record_section (field_width v) c) <= size_limit v ->
  yields (parse_record_section_with (field_width v) source (zlen pre) lim)
    (fun r => exists retained, r = record_section_of v c (zlen pre) retained).
Proof.
  intros Hlim Hrw Hentries Hst Hmax. pose proof Hrw as (Hblocks & _ & _).
  pose proof Hlim as (_ & _ & _ & _ & [_ Hcl] & [_ Hdl] & _).
  rewrite record_section_parts in Hst, Hmax. set (index := encode_record_index (field_width v) (record_rows c)) in *.
  assert (zlen index = record_index_len v c) as Hil by apply record_index_length.
  pose proof (record_index_len_bounds v c) as Hb. pose proof (record_head_bounds v) as Hh.
  pose proof (record_blocks_length c) as Hbl. pose proof (total_bytes_bound c) as Htot.
  destruct (size_limit_small v) as (Hsmall & Hlimit & _).
  assert (zlen (pre ++ record_fields v c ++ index ++ concat (map stored (ct_record_blocks c))) =
    zlen pre + record_head v + zlen index + sum_fst (record_rows c)) as Hl.
  { rewrite !length_app, !Nat2Z.inj_add, record_fields_length, Hbl. lia. }
  assert (fs_len source = zlen pre + record_head v + zlen index + sum_fst (record_rows c)) as Hfs by (rewrite <- Hl; apply Hst).
  assert (isize_max <= u64_max /\ isize_max <= usize_max) as [? ?] by done.
  unfold parse_record_section_with. apply yields_scoped. eapply yields_bind.
  { eapply (yields_read granted); [exact Hst|done|by rewrite record_fields_length|lia]. }
  intros ? ->. eapply yields_step; [apply read_record_fields; lia|].
  cbn [rh_num_blocks rh_num_entries rh_index_len rh_blocks_len].
  eapply yields_step; [apply record_header_granted; [done|done|lia]|].
  eapply yields_step; [apply add_u64_granted; lia|]. eapply yields_step; [apply add_u64_granted; lia|].
  eapply yields_step; [apply ensure_range_granted; lia|]. eapply yields_step; [apply ensure_range_granted; lia|].
  apply yields_scoped.
  eapply yields_step.
  { unfold size_of_record_block_descriptor in *. by rewrite checked_mul_granted by lia. }
  apply yields_scoped. rewrite (app_assoc pre) in Hst.
  assert (zlen (pre ++ record_fields v c) = zlen pre + record_head v) as Hpr
    by (rewrite length_app, Nat2Z.inj_add, record_fields_length; done).
  eapply yields_bind.
  { eapply (yields_read granted); [exact Hst|by rewrite Hpr|by rewrite Hil|rewrite <- app_assoc; lia]. }
  intros ? ->.
  assert (zlen (record_rows c) = zlen (ct_record_blocks c)) as Hrl' by (unfold record_rows; by rewrite length_map).
  eapply yields_step.
  { rewrite <- Hrl' at 1. apply record_index_round_trip; try done; rewrite ?record_total, ?Hrl'; fold index; try lia.
    - destruct v; [by left|by right].
    - apply record_rows_valid; [done|]. rewrite Hbl. destruct (field_width_nat v) as [_ <-]. lia.
    - unfold size_of_record_block_descriptor. lia. }
  rewrite record_total. apply yields_ret. eexists. done.
Qed.

End ParseRecords.

(** ** The layout *)

(** What [build_header_section] says of the section and of the attributes. *)
Lemma build_header_Ok `{Env} kind len xml name attrs retained hs :
  build_header_section kind len xml name attrs retained = Ok hs ->
  keyword_section_offset hs = len + 8 /\
  hs_section hs = {| sr_offset := 0; sr_len := keyword_section_offset hs |} /\
  raw_xml (hs_header hs) = xml /\ tag_name (hs_header hs) = name /\ attributes (hs_header hs) = attrs.
Proof.
  unfold build_header_section. destruct (negb _); [done|].
  repeat (match goal with
          | |- rbind (checked_u64 _ _) _ = Ok _ -> _ => fail 1
          | |- rbind ?r _ = Ok _ -> _ => destruct r; cbn [rbind]; try done
          end).
  intros Hb. rinv.
  match goal with Hx : (_ ≫= _) = Some _ |- _ => apply bind_Some in Hx as (? & ? & ?) end. rinv.
  split_and!; try done. cbn [keyword_section_offset]. lia.
Qed.

(** The operations of a version. *)
Definition wire_of `{Env} (v : WireVersion) : WireOperations :=
  match v with V1 => V1Keyword.WIRE_OPERATIONS | V2 => V2Keyword.WIRE_OPERATIONS end.

(** The layout of a written file, up to the bytes its reservations hold. *)
Definition layout_of `{Env} (v : WireVersion) (hs : HeaderSection) (e : TextEncoding) (renc : option TextEncoding)
    (c : Contents) (retained : RetainedBudget) : ValidatedLayout :=
  let offset := keyword_section_offset hs in
  let blocks := offset + keyword_header_len v + zlen (stored_index v e c) in
  let records := blocks + zlen (key_blocks_bytes v e c) in {|
    vl_header := hs_header hs;
    vl_key_encoding := e;
    vl_record_encoding := renc;
    vl_sections := {|
      s_header := hs_section hs;
      s_keyword_header := {| sr_offset := offset; sr_len := keyword_header_len v |};
      s_keyword_index := {| sr_offset := offset + keyword_header_len v; sr_len := zlen (stored_index v e c) |};
      s_keyword_blocks := {| sr_offset := blocks; sr_len := zlen (key_blocks_bytes v e c) |};
      s_record_header := {| sr_offset := records; sr_len := record_head v |};
      s_record_index := {| sr_offset := records + record_head v; sr_len := record_index_len v c |};
      s_record_blocks := {| sr_offset := records + record_head v + record_index_len v c;
                            sr_len := sum_fst (record_rows c) |} |};
    vl_total_entries := num_entries c;
    vl_total_decoded_record_len := total_bytes c;
    vl_key_blocks := describe blocks 0 (index_rows v e c);
    vl_record_blocks := describe_records (records + record_head v + record_index_len v c) 0 (record_rows c);
    vl_wire := wire_of v;
    vl_retained := retained |}.

Lemma describe_records_offsets comp decomp rows :
  consecutive rb_comp_offset rb_comp_size comp (describe_records comp decomp rows) (comp + sum_fst rows) /\
  consecutive rb_decomp_offset rb_decomp_size decomp (describe_records comp decomp rows) (decomp + sum_snd rows).
Proof.
  revert comp decomp. induction rows as [|[a b] rows IH]; intros comp decomp;
    cbn [describe_records consecutive sum_fst sum_snd foldr fst snd]; [split; lia|].
  cbn [rb_comp_offset rb_decomp_offset rb_comp_size rb_decomp_size].
  destruct (IH (comp + a) (decomp + b)) as [H1 H2]. split; (split; [done|]); rewrite Z.add_assoc; [apply H1|apply H2].
Qed.

Lemma describe_records_ok comp decomp rows :
  0 <= comp -> Forall (fun r => 0 <= fst r /\ 0 <= snd r) rows ->
  Forall record_block_ok (describe_records comp decomp rows).
Proof.
  intros Hc Hrows. revert comp decomp Hc.
  induction Hrows as [|[a b] rows [Ha Hb] _ IH]; intros comp decomp Hc; cbn [describe_records]; constructor.
  - cbn [fst snd] in *. split_and!; done.
  - apply IH. cbn [fst] in Ha. lia.
Qed.

Lemma describe_ok comp start rows :
  0 <= comp -> Forall (fun r => 0 <= ir_entry_count r /\ 0 <= ir_comp_size r /\ 0 <= ir_decomp_size r) rows ->
  Forall key_block_ok (describe comp start rows).
Proof.
  intros Hc Hrows. revert comp start Hc.
  induction Hrows as [|r rows (? & ? & ?) _ IH]; intros comp start Hc; cbn [describe]; constructor.
  - by split_and!.
  - apply IH. lia.
Qed.

Lemma layout_of_verifies `{Env} v hs e renc c retained :
  hs_section hs = {| sr_offset := 0; sr_len := keyword_section_offset hs |} -> 0 <= keyword_section_offset hs ->
  num_entries c <= u64_max ->
  keyword_section_offset hs + zlen (keywords_bytes v e c) + zlen (record_section (field_width v) c) <= u64_max ->
  verify (layout_of v hs e renc c retained) = Ok tt.
Proof.
  intros Hsec Hoff Hentries Hmax. rewrite keywords_bytes_length in Hmax.
  rewrite record_section_parts, !length_app, !Nat2Z.inj_add, record_fields_length, record_index_length,
    record_blocks_length in Hmax. fold (record_index_len v c) in Hmax.
  pose proof (total_bytes_bound c) as Htot. pose proof (record_index_len_bounds v c). pose proof (record_head_bounds v).
  assert (16 <= keyword_header_len v) by (by destruct v).
  apply verify_Ok.
  - split_and!.
    + unfold ordered_sections, layout_of. cbv beta zeta iota delta [vl_sections s_header s_keyword_header s_keyword_index
        s_keyword_blocks s_record_header s_record_index s_record_blocks]. rewrite Hsec.
      do 7 (apply Forall_cons; split; [unfold section_ok; cbn [snd sr_offset sr_len]; lia|]). by apply Forall_nil_2.
    + apply describe_ok; [lia|]. unfold index_rows. apply Forall_map, Forall_true. intros rows. cbn. lia.
    + apply describe_records_ok; [lia|]. unfold record_rows. apply Forall_map, Forall_true. intros b. cbn. lia.
  - cbn [layout_of vl_total_decoded_record_len vl_total_entries vl_sections s_header]. rewrite ?Hsec. cbn. lia.
  - unfold well_formed. cbn [layout_of vl_sections vl_total_entries vl_key_blocks vl_total_decoded_record_len
      vl_record_blocks s_header]. rewrite Hsec. split_and!; [|done| |lia|].
    + eexists. split; [exact Hmax|]. unfold ordered_sections.
      cbv beta zeta iota delta [map snd consecutive s_header s_keyword_header s_keyword_index s_keyword_blocks
        s_record_header s_record_index s_record_blocks]. cbn [sr_offset sr_len]. split_and!; lia.
    + rewrite <- (sum_entries v e c). apply describe_starts.
    + rewrite <- (record_total c). apply describe_records_offsets.
Qed.

(** [parse_layout] of a version. *)
Lemma parse_layout_of `{Env} {S : Type} `{HasWorld S} v request :
  match v with V1 => v1_parse_layout (S:=S) request | V2 => v2_parse_layout request end =
  parse_layout_with (parse_keywords v) (parse_record_section_with (field_width v)) (wire_of v) request.
Proof. by destruct v. Qed.

Section OpenLayout.

Context `{Env} (granted : forall context n, allocator context n = true) {S : Type} `{HasWorld S}.

(** A header of a version, without encryption, for these encodings. *)
Definition header_describes (v : WireVersion) (kind : ContainerKind) (h : Header) (e : TextEncoding)
    (renc : option TextEncoding) : Prop :=
  layout_version h = Ok v /\ encrypted h = 0 /\ for_keys kind h = Ok e /\ for_records kind h = Ok renc /\
  (e = EncUtf8 \/ e = EncUtf16Le).

(** Everything a file is written from. *)
Definition file_written (v : WireVersion) (lim : Limits) (kind : ContainerKind) (name : text) (attrs : list (text * text))
    (hs : HeaderSection) (e : TextEncoding) (renc : option TextEncoding) (c : Contents) : Prop :=
  header_written lim kind name attrs hs /\ header_describes v kind (hs_header hs) e renc /\
  keywords_written v e lim c /\ records_written v lim c /\
  zlen (written_file v (encode_header (render_tag name attrs)) e c) <= size_limit v.

Lemma encode_header_length name attrs :
  zlen (encode_header (render_tag name attrs)) = zlen (tag_bytes (render_tag name attrs)) + 8.
Proof.
  change (encode_header (render_tag name attrs)) with
    (be_split 4 (zlen (tag_bytes (render_tag name attrs))) ++ tag_bytes (render_tag name attrs)
       ++ le_split 4 (adler32 (tag_bytes (render_tag name attrs)))).
  rewrite !length_app, length_be_split, length_le_split. lia.
Qed.

Lemma yields_open_layout v source kind options name attrs hs e renc c modified :
  limits_ok (limits options) -> file_written v (limits options) kind name attrs hs e renc c ->
  stable source (written_file v (encode_header (render_tag name attrs)) e c) modified ->
  yields (open_layout source kind options) (fun l => exists retained, l = layout_of v hs e renc c retained).
Proof.
  intros Hlim (Hhead & (Hver & Henc & Hkeys & Hrecs & He) & Hkw & Hrw & Hmax) Hst.
  pose proof Hhead as (_ & _ & _ & _ & _ & _ & _ & _ & Hbuild).
  destruct (build_header_Ok _ _ _ _ _ _ _ Hbuild) as (Hoff & Hsec & _).
  pose proof (encode_header_length name attrs) as Hhl. set (head := encode_header (render_tag name attrs)) in *.
  assert (keyword_section_offset hs = zlen head) as Hko by lia.
  rewrite written_file_parts in Hst, Hmax.
  assert (zlen (head ++ keywords_bytes v e c ++ record_section (field_width v) c) =
    zlen head + zlen (keywords_bytes v e c) + zlen (record_section (field_width v) c)) as Hl by (rewrite !length_app; lia).
  pose proof Hkw as (Hrows & _). destruct (size_limit_small v) as (Hsmall & _).
  destruct (keyword_counts v e c (rows_nonempty _ _ _ _ _ Hrows)) as [? ?].
  pose proof (keywords_bytes_length v e c) as Hkl. assert (16 <= keyword_header_len v) by (by destruct v).
  assert (isize_max <= u64_max) by done.
  unfold open_layout. eapply yields_bind.
  { eapply (yields_parse_header granted); [exact Hlim|exact Hhead|exact Hst|]. fold head. lia. }
  intros ? [r1 ->]. eapply yields_step; [exact Hver|]. cbv zeta. eapply yields_bind with
    (P := fun l => exists retained, l = layout_of v hs e renc c retained).
  - rewrite parse_layout_of. unfold parse_layout_with. apply yields_retained.
    cbn [rq_header_section rq_kind rq_source rq_options with_retained hs_header keyword_section_offset].
    eapply yields_step; [exact Hkeys|]. eapply yields_step; [exact Hrecs|].
    eapply yields_bind.
    { rewrite Hko. eapply (yields_parse_keywords_of granted); [exact Hlim|exact He|exact Hkw|exact Henc|exact Hst|lia]. }
    intros ? [r2 ->]. apply yields_retained. eapply yields_bind.
    { assert (ks_record_section_offset (keyword_section_of v e c (zlen head) r2) = zlen (head ++ keywords_bytes v e c)) as ->
        by (cbn [ks_record_section_offset keyword_section_of]; rewrite length_app; lia).
      apply (yields_parse_records granted v source (head ++ keywords_bytes v e c) c modified); [done|done|lia| |].
      - by rewrite <- app_assoc.
      - rewrite <- app_assoc. lia. }
    intros ? [r3 ->]. apply yields_retained. eapply yields_lift.
    + unfold assemble_layout. cbn [ks_num_entries rs_num_entries keyword_section_of record_section_of].
      rewrite Z.eqb_refl. cbn [negb]. reflexivity.
    + exists {| retained_header := r1; retained_key_metadata := r2; retained_record_metadata := r3 |}.
      unfold layout_of. cbn [ks_record_section_offset keyword_section_of] in *. rewrite Hko.
      assert (zlen (head ++ keywords_bytes v e c) = zlen head + keyword_header_len v + zlen (stored_index v e c)
        + zlen (key_blocks_bytes v e c)) as -> by (rewrite length_app; lia). done.
  - intros ? [retained ->]. apply yields_or_drop. eapply yields_step.
    + apply layout_of_verifies; [done|lia..].
    + apply yields_ret. by exists retained.
Qed.

End OpenLayout.

(** ** The contents *)

Lemma encode_rows_ok n e rows : Forall (fun r => encodable e (row_key r)) rows -> bytes_ok (encode_rows n e rows).
Proof.
  induction 1 as [|r rows (_ & Ht & _) _ IH]; [constructor|].
  change (encode_rows n e (r :: rows)) with (encode_row n e r ++ encode_rows n e rows).
  rewrite bytes_ok_app. split; [|done]. unfold encode_row, key_terminator. rewrite !bytes_ok_app.
  split_and!; [apply be_split_ok|by apply encode_key_ok|by apply Forall_replicate].
Qed.

(** The rows of a block, by the decoder of the version that wrote them. *)
Lemma decode_rows_of `{EnvOk} (granted : forall context n, allocator context n = true) v ctx lim rows :
  rows_written v (krc_encoding ctx) lim (krc_total_decoded_record_len ctx) rows ->
  krc_total_decoded_record_len ctx < 256 ^ Z.of_nat (width v) -> zlen rows = expected_entries ctx ->
  zlen (encode_rows (width v) (krc_encoding ctx) rows) * 128 <= isize_max ->
  Descriptors.decode_key_rows (wire_of v) (encode_rows (width v) (krc_encoding ctx) rows) ctx = Ok rows.
Proof.
  intros (_ & Hrows & Hs & _) Htot Hn Hmax. pose proof (encode_rows_length (width v) (krc_encoding ctx) rows).
  pose proof (unit_size_pos (krc_encoding ctx)).
  assert (zlen rows * size_of_decoded_key_row <= isize_max).
  { unfold size_of_decoded_key_row. assert (0 <= Z.of_nat (width v)) by lia. nia. }
  destruct v; cbn [wire_of Descriptors.decode_key_rows V1Keyword.WIRE_OPERATIONS V2Keyword.WIRE_OPERATIONS width] in *.
  - apply (proj2 (v1_key_rows_correct ctx) rows granted); try done; [|lia].
    eapply Forall_impl; [exact Hrows|]. intros r (? & _ & ?). unfold is_u32, u32_max.
    change (256 ^ Z.of_nat 4) with 4294967296 in Htot. split_and!; [assumption|lia..].
  - apply (proj2 (v2_key_rows_correct ctx) rows granted); try done; [|lia].
    eapply Forall_impl; [exact Hrows|]. intros r (? & _ & ?). unfold is_u64, u64_max.
    change (256 ^ Z.of_nat 8) with 18446744073709551616 in Htot. split_and!; [assumption|lia..].
Qed.

Section Contents.

Context `{EnvOk} (granted : forall context n, allocator context n = true) (f : MdictFile).

Context (v : WireVersion) (e : TextEncoding) (c : Contents).

Context (Henc : vl_key_encoding (mf_layout f) = e).

Context (Hwire : vl_wire (mf_layout f) = wire_of v).

Context (Htotal : vl_total_decoded_record_len (mf_layout f) = total_bytes c).

Context (content : bytes) (Hmax : zlen content <= size_limit v).

(** Every key block of a written file decodes to its rows. *)
Lemma decode_key_blocks pre start l rest :
  content = pre ++ concat (map (fun rows => stored (encode_rows (width v) e rows)) l) ++ rest ->
  total_bytes c <= size_limit v -> Forall (rows_written v e (mf_limits f) (total_bytes c)) l ->
  decode_all (block_rows f content) (describe (zlen pre) start (map (index_row (width v) e) l)) = Ok l.
Proof.
  intros Econtent Htot Hl. destruct (size_limit_small v) as (Hsmall & Hlimit & _). revert pre start Econtent.
  induction Hl as [|rows l Hrw Hl IH]; intros pre start Econtent; [done|].
  pose proof Hrw as (Hne & Hrows & Hs & Hn & Hc & Hd).
  cbn [map concat describe decode_all]. cbn [map concat] in Econtent. rewrite <- app_assoc in Econtent.
  set (block := stored (encode_rows (width v) e rows)) in *.
  set (tail := concat (map (fun rows => stored (encode_rows (width v) e rows)) l) ++ rest) in *.
  assert (zlen block = 8 + zlen (encode_rows (width v) e rows)) as Hbl by apply length_stored.
  assert (zlen content = zlen pre + zlen block + zlen tail) as Hcl by (rewrite Econtent, !length_app; lia).
  assert (block_rows f content {| entry_count := ir_entry_count (index_row (width v) e rows); entry_start_index := start;
      first_key := ir_first_key (index_row (width v) e rows); last_key := ir_last_key (index_row (width v) e rows);
      kb_comp_offset := zlen pre; kb_comp_size := ir_comp_size (index_row (width v) e rows);
      kb_decomp_size := ir_decomp_size (index_row (width v) e rows) |} = Ok rows) as ->.
  { unfold block_rows. cbn [kb_comp_offset kb_comp_size kb_decomp_size index_row ir_comp_size ir_decomp_size ir_entry_count].
    rewrite <- Hbl, Econtent, slice_app_mid. cbn [ok_or rbind]. unfold block.
    rewrite (decode_stored granted);
      [|apply encode_rows_ok; eapply Forall_impl; [exact Hrows|]; by intros ? (? & _)|lia..].
    cbn [rbind]. rewrite Hwire. unfold key_row_context. rewrite Henc, Htotal. cbn [entry_count].
    set (ctx := {| krc_encoding := e; expected_entries := _; krc_total_decoded_record_len := _ |}).
    apply (decode_rows_of granted v ctx (mf_limits f) rows); cbn [ctx krc_encoding krc_total_decoded_record_len expected_entries];
      [done|lia|done|lia]. }
  cbn [rbind]. cbn [index_row ir_comp_size]. rewrite <- Hbl.
  replace (zlen pre + zlen block) with (zlen (pre ++ block)) by (rewrite length_app; lia).
  rewrite IH; [done|]. unfold tail. by rewrite <- app_assoc.
Qed.

(** Every record block of a written file decodes to its bytes. *)
Lemma decode_record_blocks pre start l rest :
  content = pre ++ concat (map stored l) ++ rest ->
  Forall (fun b => bytes_ok b /\ 8 + zlen b <= compressed_block_bytes (mf_limits f) /\
                   zlen b <= decompressed_block_bytes (mf_limits f)) l ->
  decode_all (block_bytes f content) (describe_records (zlen pre) start (map (fun b => (8 + zlen b, zlen b)) l)) = Ok l.
Proof.
  intros Econtent Hl. destruct (size_limit_small v) as (Hsmall & _). revert pre start Econtent.
  induction Hl as [|b l (Hok & Hc & Hd) Hl IH]; intros pre start Econtent; [done|].
  cbn [map concat describe_records decode_all]. cbn [map concat] in Econtent. rewrite <- app_assoc in Econtent.
  assert (zlen (stored b) = 8 + zlen b) as Hbl by apply length_stored.
  assert (zlen content = zlen pre + zlen (stored b) + zlen (concat (map stored l) ++ rest)) as Hcl
    by (rewrite Econtent, !length_app; lia).
  assert (block_bytes f content {| rb_comp_offset := zlen pre; rb_comp_size := 8 + zlen b;
      rb_decomp_offset := start; rb_decomp_size := zlen b |} = Ok b) as ->.
  { unfold block_bytes. cbn [rb_comp_offset rb_comp_size rb_decomp_size].
    rewrite <- Hbl, Econtent, slice_app_mid. cbn [ok_or rbind]. apply (decode_stored granted); [done|lia..]. }
  cbn [rbind]. rewrite <- Hbl. replace (zlen pre + zlen (stored b)) with (zlen (pre ++ stored b)) by (rewrite length_app; lia).
  rewrite IH; [done|]. by rewrite <- app_assoc.
Qed.

End Contents.

Lemma encode_header_nonempty xml rest : encode_header xml ++ rest <> [].
Proof.
  unfold encode_header. destruct (be_split 4 _) eqn:E; [|done].
  apply (f_equal (@length Z)) in E. by rewrite length_be_split in E.
Qed.

(** The source of a path that always holds the same file. *)
Lemma yields_source_open `{Env} {S : Type} `{HasWorld S} fs path resolved content modified :
  resolve path = Ok resolved -> content <> [] ->
  (forall t, fs resolved t = Some {| fc_content := content; fc_modified := modified |}) ->
  yields (source_open (S:=S) fs path) (fun source => stable source content modified).
Proof.
  intros Hres Hne Hfs. unfold source_open. eapply yields_step; [exact Hres|].
  eapply (yields_bind _ _ (fun file => file = {| fc_content := content; fc_modified := modified |})).
  { intros s. unfold wpM, access. by rewrite Hfs. }
  intros ? ->. cbn [fc_content]. cbv zeta. rewrite (proj2 (Z.eqb_neq _ _)) by (destruct content; [done|simpl; lia]).
  by apply yields_ret.
Qed.

Section WholeFile.

Context `{EnvOk} (granted : forall context n, allocator context n = true) (v : WireVersion).

Context (kind : ContainerKind) (options : OpenOptions) (name : text) (attrs : list (text * text)) (hs : HeaderSection).

Context (e : TextEncoding) (renc : option TextEncoding) (c : Contents) (Hlim : limits_ok (limits options)).

Context (Hw : file_written v (limits options) kind name attrs hs e renc c).

#[local] Notation content := (written_file v (encode_header (render_tag name attrs)) e c).

Lemma written_total : total_bytes c <= size_limit v.
Proof.
  destruct Hw as (_ & _ & _ & _ & Hmax). pose proof (total_bytes_bound c). pose proof (record_blocks_length c).
  rewrite written_file_parts, record_section_parts, !length_app in Hmax. lia.
Qed.

(** The blocks of a dictionary with the layout of the written file. *)
Lemma written_blocks f retained :
  mf_layout f = layout_of v hs e renc c retained -> mf_limits f = limits options ->
  decode_all (block_rows f content) (vl_key_blocks (mf_layout f)) = Ok (ct_key_blocks c) /\
  decode_all (block_bytes f content) (vl_record_blocks (mf_layout f)) = Ok (ct_record_blocks c).
Proof.
  intros Hlay Hlm. destruct Hw as (Hhead & (_ & _ & _ & _ & He) & (Hrows & _) & (Hblocks & _) & Hmax).
  pose proof Hhead as (_ & _ & _ & _ & _ & _ & _ & _ & Hbuild).
  destruct (build_header_Ok _ _ _ _ _ _ _ Hbuild) as (Hoff & _).
  pose proof (encode_header_length name attrs) as Hhl. set (head := encode_header (render_tag name attrs)) in *.
  assert (content = (head ++ keyword_header v e c ++ stored_index v e c)
    ++ key_blocks_bytes v e c ++ record_section (field_width v) c) as E1.
  { rewrite written_file_parts. unfold keywords_bytes. by rewrite <- !app_assoc. }
  assert (content = (head ++ keywords_bytes v e c ++ record_fields v c ++ encode_record_index (field_width v) (record_rows c))
    ++ concat (map stored (ct_record_blocks c)) ++ []) as E2.
  { rewrite written_file_parts, record_section_parts, app_nil_r. by rewrite <- !app_assoc. }
  assert (zlen (head ++ keyword_header v e c ++ stored_index v e c) =
    keyword_section_offset hs + keyword_header_len v + zlen (stored_index v e c)) as L1.
  { rewrite !length_app, !Nat2Z.inj_add, keyword_header_length. lia. }
  assert (zlen (head ++ keywords_bytes v e c ++ record_fields v c ++ encode_record_index (field_width v) (record_rows c)) =
    keyword_section_offset hs + keyword_header_len v + zlen (stored_index v e c) + zlen (key_blocks_bytes v e c)
      + record_head v + record_index_len v c) as L2.
  { unfold record_index_len. rewrite !length_app, !Nat2Z.inj_add, keywords_bytes_length, record_fields_length,
      record_index_length. lia. }
  pose proof written_total as Htot. clear Hw.
  destruct (size_limit_small v) as (Hsmall & _).
  rewrite Hlay. cbn [layout_of vl_key_blocks vl_record_blocks]. unfold index_rows, record_rows.
  rewrite <- L2, <- L1. split.
  - rewrite (decode_key_blocks granted f v e c) with (rest := record_section (field_width v) c); rewrite ?Hlay, ?Hlm; try done.
  - rewrite (decode_record_blocks granted f v) with (rest := []); rewrite ?Hlm; try done.
Qed.

(** Opening the written file. *)
Lemma written_opens fs path resolved modified clock :
  resolve path = Ok resolved -> (forall t, fs resolved t = Some {| fc_content := content; fc_modified := modified |}) ->
  match Core.open fs path kind options clock with
  | Ok (f, s) =>
      stable (mf_source f) content modified /\ (exists retained, mf_layout f = layout_of v hs e renc c retained) /\
      mf_limits f = limits options /\ mf_normalizer f = from_header (hs_header hs) kind /\
      exists w, s = core_state_new w
  | Err error => over_budget error
  | _ => False
  end.
Proof.
  intros Hres Hfs.
  assert (yields (S:=World) (let! source := source_open fs path in
            let! layout := open_layout source kind options in mret (source, layout))
    (fun '(source, layout) => stable source content modified /\
       exists retained, layout = layout_of v hs e renc c retained)) as Hy.
  { eapply yields_bind; [apply (yields_source_open fs path resolved content modified Hres); [|exact Hfs]|].
    - rewrite written_file_parts. apply encode_header_nonempty.
    - intros source Hst. eapply yields_bind;
        [apply (yields_open_layout granted v source kind options name attrs hs e renc c modified Hlim Hw Hst)|].
      intros layout Hl. by apply yields_ret. }
  unfold Core.open. set (w := {| w_budget := memory_budget_new _; w_clock := clock |}). specialize (Hy w). unfold wpM in Hy.
  destruct (Errors.mbind _ _ w) as [[[source layout]|error| |] w']; try done.
  destruct Hy as (Hst & retained & ->). split_and!; try done; by eexists.
Qed.

End WholeFile.

(** * Properties *)

(** C4: a file of either version written from any tag, any keys and any
    records the format can express and the limits allow, in UTF-8 or UTF-16
    and with any division into blocks, can be opened, and holds exactly what
    was written: the header has the attributes of the tag, the rows of the key
    blocks and the bytes of the record blocks are read back in their order.
    The only other outcome is that the memory budget is too small: every check
    of the parsers, from the checksums to the adjacency of the sections,
    accepts the file. *)
Theorem whole_file_round_trip `{EnvOk} v kind options name attrs hs e renc c fs path resolved modified clock :
  (forall context n, allocator context n = true) -> limits_ok (limits options) ->
  file_written v (limits options) kind name attrs hs e renc c -> resolve path = Ok resolved ->
  let content := written_file v (encode_header (render_tag name attrs)) e c in
  (forall t, fs resolved t = Some {| fc_content := content; fc_modified := modified |}) ->
  match Core.open fs path kind options clock with
  | Ok (f, s) =>
      stable (mf_source f) content modified /\ vl_header (mf_layout f) = hs_header hs /\
      tag_name (hs_header hs) = name /\ attributes (hs_header hs) = attrs /\ mdict_len f = num_entries c /\
      all_rows f content = Ok (concat (ct_key_blocks c)) /\ record_stream f content = Ok (concat (ct_record_blocks c))
  | Err error => over_budget error
  | _ => False
  end.
Proof.
  intros granted Hlim Hw Hres content Hfs.
  pose proof Hw as ((_ & _ & _ & _ & _ & _ & _ & _ & Hbuild) & _).
  destruct (build_header_Ok _ _ _ _ _ _ _ Hbuild) as (_ & _ & _ & Hname & Hattrs).
  pose proof (written_opens granted v kind options name attrs hs e renc c Hlim Hw fs path resolved modified clock Hres Hfs) as Ho.
  destruct (Core.open fs path kind options clock) as [[f s]|error| |]; try done.
  destruct Ho as (Hst & [retained Hlay] & Hlm & _).
  destruct (written_blocks granted v kind options name attrs hs e renc c Hw f retained Hlay Hlm) as [Hk Hr].
  unfold all_rows, record_stream. fold content in Hk, Hr. rewrite Hk, Hr. unfold mdict_len. by rewrite Hlay.
Qed.

(** ** Witness: both versions *)

Definition sample_attributes (version : text) : list (text * text) :=
  [(lit "GeneratedByEngineVersion", version); (lit "Encoding", lit "UTF-8")].

Definition sample_version (v : WireVersion) : text := match v with V1 => lit "1.2" | V2 => lit "2.0" end.

Definition sample_tag (v : WireVersion) : text := render_tag (lit "Dictionary") (sample_attributes (sample_version v)).

Definition sample_header (v : WireVersion) : Result HeaderSection :=
  @build_header_section simple_env Mdx (zlen (tag_bytes (sample_tag v))) (sample_tag v) (lit "Dictionary")
    (sample_attributes (sample_version v)) 0.

Definition sample_opened (v : WireVersion) : Result (MdictFile * CoreState) :=
  @Core.open simple_env (fun _ _ => Some {| fc_content := match v with V1 => sample_v1 | V2 => sample_v2 end; fc_modified := 7 |})
    (lit "words.mdx") Mdx sample_options 0.

Lemma sample_written v hs :
  sample_header v = Ok hs -> header_describes v Mdx (hs_header hs) EncUtf8 (Some EncUtf8) ->
  @file_written simple_env v limits_new Mdx (lit "Dictionary") (sample_attributes (sample_version v)) hs EncUtf8
    (Some EncUtf8) sample_contents.
Proof.
  intros Hb Hd. refine (conj _ (conj Hd (conj _ (conj _ _)))).
  - refine (conj _ (conj _ (conj _ (conj _ (conj _ (conj _ (conj _ (conj _ Hb)))))))).
    + split; [by eexists|]. split; [done|]. repeat constructor.
    + destruct v; repeat constructor; try (by eexists); try done; eexists _, _; by split.
    + apply (bool_decide_unpack _). destruct v; vm_compute; exact I.
    + destruct v; vm_compute; discriminate.
    + apply (bool_decide_unpack _). destruct v; vm_compute; exact I.
    + destruct v; vm_compute; discriminate.
    + destruct v; vm_compute; discriminate.
    + destruct v; vm_compute; discriminate.
  - refine (conj _ (conj _ _)); [|destruct v; vm_compute; discriminate|destruct v; vm_compute; split_and?; discriminate].
    destruct v; repeat constructor; try (vm_compute; discriminate); try (left; reflexivity); try (by eexists);
      apply (bool_decide_unpack _); vm_compute; exact I.
  - refine (conj _ (conj _ _)); [|destruct v; vm_compute; discriminate..].
    repeat constructor; try (vm_compute; discriminate); apply bytes_ok_check; vm_compute; reflexivity.
  - destruct v; vm_compute; discriminate.
Qed.

(** A sample file gives back the sample contents. *)
Definition sample_reads_back (v : WireVersion) : Prop :=
  match sample_opened v with
  | Ok (f, s) =>
      let content := match v with V1 => sample_v1 | V2 => sample_v2 end in
      @all_rows simple_env f content = Ok (concat (ct_key_blocks sample_contents)) /\
      @record_stream simple_env f content = Ok (lit "one-two-threefourfive") /\
      tag_name (vl_header (mf_layout f)) = lit "Dictionary" /\ mdict_len f = 4
  | _ => False
  end.

Example whole_file_witness : sample_reads_back V1 /\ sample_reads_back V2.
Proof.
  enough (forall v, sample_reads_back v) as Hall by (split; apply Hall). intros v. unfold sample_reads_back.
  destruct (sample_header v) as [hs|error|site|] eqn:Eb; [|exfalso; revert Eb; destruct v; vm_compute; discriminate..].
  assert (match sample_header v with Ok hs => header_describes v Mdx (hs_header hs) EncUtf8 (Some EncUtf8) | _ => False end) as Hd
    by (destruct v; vm_compute; split_and!; try done; by left).
  rewrite Eb in Hd.
  pose proof (@whole_file_round_trip simple_env simple_env_ok v Mdx sample_options (lit "Dictionary")
    (sample_attributes (sample_version v)) hs EncUtf8 (Some EncUtf8) sample_contents
    (fun _ _ => Some {| fc_content := match v with V1 => sample_v1 | V2 => sample_v2 end; fc_modified := 7 |})
    (lit "words.mdx") (lit "words.mdx") 7 0
    (fun _ _ => eq_refl) limits_new_ok (sample_written v hs Eb Hd) ltac:(vm_compute; reflexivity)
    ltac:(intros t; destruct v; reflexivity)) as Hr.
  assert (match sample_opened v with Ok _ => True | _ => False end) as Ho by (destruct v; vm_compute; exact I).
  unfold sample_opened in *. destruct (Core.open _ _ _ _ _) as [[f s]| | |]; [|done..].
  destruct Hr as (_ & Hh & Hn & _ & Hl & Hrows & Hstream). cbv zeta.
  split; [destruct v; exact Hrows|]. split; [destruct v; exact Hstream|]. split; [rewrite Hh; exact Hn|]. exact Hl.
Defined.
