(* ===== verification/Intact.v ===== *)
(** Intact dictionaries.  A dictionary is intact when its file does not change
    and every block decodes.  [serves] says of an operation on an intact
    dictionary that it returns the value it should, in every state the
    operations reach, unless a configured limit (the memory budget among them)
    is exceeded: no check of the code refuses a dictionary that is right. *)

From stdpp Require Import list_numbers sorting.
From S2P Require Import Prelude Errors Types Budget Utf8 Encoding Source Compression Descriptors Header KeySection Format Normalize LocatorIndex Arcs Core Dictionary Keys WrittenHeader.

(** * Exceeded limits *)

Definition over_limit (e : Error) : Prop := exists limit value maximum, e = LimitExceeded limit value maximum.

Definition limit_failure (failure : CachedFailure) : Prop :=
  exists limit value maximum, cf_kind failure = CfkLimitExceeded limit value maximum.

(** * Intact dictionaries *)

Section Intact.

Context `{Env} (f : MdictFile) (content : bytes).

(** The boundary keys of a block are those of the key index. *)
Definition boundary_keys (block : KeyBlockDescriptor) (rows : list DecodedKeyRow) : Prop :=
  exists first last, head rows = Some first /\ list.last rows = Some last /\
    normalized (mf_normalizer f) (row_key first) = normalized (mf_normalizer f) (first_key block) /\
    normalized (mf_normalizer f) (row_key last) = normalized (mf_normalizer f) (last_key block).

(** A text and its normalized form are strings of a real machine. *)
Definition text_fits (t : text) : Prop :=
  zlen t <= isize_max /\ zlen (normalized (mf_normalizer f) t) <= isize_max.

(** The size of a decoded block is a [usize]. *)
Definition block_fits (block : KeyBlockDescriptor) : Prop :=
  text_fits (first_key block) /\ text_fits (last_key block) /\
  exists size, key_block_retained_bytes f (entry_count block) (kb_decomp_size block) = Ok size.

(** The file holds the rows [blocks] and the record blocks [data]. *)
Record intact (blocks : list (list DecodedKeyRow)) (data : list bytes) : Prop := {
  intact_file : file_ok f;
  intact_stable : exists modified, stable (mf_source f) content modified;
  intact_size : zlen content <= isize_max;
  intact_rows : Forall2 (fun block rows => block_rows f content block = Ok rows) (vl_key_blocks (mf_layout f)) blocks;
  intact_data : Forall2 (fun block bytes => block_bytes f content block = Ok bytes) (vl_record_blocks (mf_layout f)) data;
  intact_boundaries : Forall2 boundary_keys (vl_key_blocks (mf_layout f)) blocks;
  intact_sorted : starts_sorted (concat blocks);
  intact_keys : Forall (fun row => text_fits (row_key row)) (concat blocks);
  intact_blocks : Forall block_fits (vl_key_blocks (mf_layout f));
}.

(** What the caches of an intact dictionary hold: right values, or failures to
    stay within a limit. *)
Definition slot_served {A} (P : A -> Prop) (slot : option (CachedValue A)) : Prop :=
  match slot with
  | Some (Ready arc) => P (arc_value arc)
  | Some (Failed failure) => limit_failure failure
  | None => True
  end.

Definition serving (blocks : list (list DecodedKeyRow)) (data : list bytes) (s : CoreState) : Prop :=
  slot_served (fun b => get_at blocks (from_option fst 0 (cs_key_block_cache s)) = Some (kb_entries b))
    (snd <$> cs_key_block_cache s) /\
  slot_served (fun b => get_at data (from_option fst 0 (cs_record_block_cache s)) = Some (rb_bytes b))
    (snd <$> cs_record_block_cache s) /\
  slot_served (locator_of (mf_normalizer f) (map row_key (concat blocks))) (cs_locator s).

End Intact.

(** * The rules *)

Section Serves.

Context `{Env} (f : MdictFile) (blocks : list (list DecodedKeyRow)) (data : list bytes).

#[local] Notation serving := (serving f blocks data).

Definition serves {A} (m : M CoreState A) (P : A -> Prop) : Prop :=
  forall s, serving s -> wpM m s (fun a s' => P a /\ serving s') (fun e s' => over_limit e /\ serving s').

(** States with the same caches. *)
Definition same_caches (s s' : CoreState) : Prop :=
  cs_key_block_cache s' = cs_key_block_cache s /\ cs_record_block_cache s' = cs_record_block_cache s /\
  cs_locator s' = cs_locator s.

Lemma serving_same s s' : same_caches s s' -> serving s -> serving s'.
Proof. intros (E1 & E2 & E3) Hs. unfold serving. by rewrite E1, E2, E3. Qed.

Lemma serving_new w : serving (core_state_new w).
Proof. by split_and!. Qed.

Lemma serves_mono {A} (m : M CoreState A) (P Q : A -> Prop) : serves m P -> (forall a, P a -> Q a) -> serves m Q.
Proof. intros Hm HPQ s Hs. eapply wpM_mono; [by apply Hm| |done]. intros a s' [? ?]. auto. Qed.

Lemma serves_ret {A} (a : A) (P : A -> Prop) : P a -> serves (mret a) P.
Proof. intros ? s ?. by split. Qed.

Lemma serves_bind {A B} (m : M CoreState A) (k : A -> M CoreState B) P Q :
  serves m P -> (forall a, P a -> serves (k a) Q) -> serves (Errors.mbind m k) Q.
Proof.
  intros Hm Hk s Hs. apply wpM_bind. eapply wpM_mono; [by apply Hm| |done]. intros a s' [Ha ?]. by apply Hk.
Qed.

Lemma serves_lift {A} (r : Result A) a (P : A -> Prop) : r = Ok a -> P a -> serves (lift r) P.
Proof. intros -> ? s ?. by split. Qed.

Lemma serves_step {A B} (r : Result A) a (k : A -> M CoreState B) Q :
  r = Ok a -> serves (k a) Q -> serves (Errors.mbind (lift r) k) Q.
Proof. intros -> Hk s Hs. by apply Hk. Qed.

(** A step that enforces a limit. *)
Lemma serves_limit {A B} (r : Result A) (k : A -> M CoreState B) (P : A -> Prop) Q :
  match r with Ok a => P a | Err e => over_limit e | _ => False end ->
  (forall a, P a -> serves (k a) Q) -> serves (Errors.mbind (lift r) k) Q.
Proof. intros Hr Hk s Hs. destruct r as [a|e| |]; try done. by apply Hk. Qed.

Lemma serves_err {A} e (P : A -> Prop) : over_limit e -> serves (merr e) P.
Proof. intros ? s ?. by split. Qed.

(** Steps that leave the caches alone. *)
Lemma serves_world {A} (m : M CoreState A) (P : A -> Prop) :
  (forall s, wpM m s (fun a s' => P a /\ same_caches s s') (fun e s' => over_limit e /\ same_caches s s')) -> serves m P.
Proof.
  intros Hm s Hs. eapply wpM_mono; [apply Hm|..]; cbv beta; intros ? s' [? ?]; (split; [done|]); by eapply serving_same.
Qed.

Lemma serving_drop bytes s : serving s -> serving (drop_reservation bytes s).
Proof. by apply serving_same. Qed.

Lemma serving_arc_drop {A} (arc : Arc A) s : serving s -> serving (arc_drop arc s).
Proof. apply serving_same. unfold arc_drop. by destruct (arcs_drop _ _). Qed.

Lemma serves_reserve bytes : serves (reserve bytes) (fun n => n = bytes).
Proof.
  intros s Hs. pose proof (yields_reserve bytes s) as Hr. unfold wpM, reserve in *.
  destruct (claim _ _) as [b|e| |]; [by split|..|done|done]. split; [|done].
  destruct Hr as (? & ? & ->). by eexists _, _, _.
Qed.

Lemma serves_scoped {A} bytes context (m : M CoreState A) P : serves m P -> serves (scoped bytes context m) P.
Proof.
  intros Hm. eapply serves_bind; [apply serves_reserve|]. intros ? _ s Hs. specialize (Hm s Hs).
  unfold wpM in *. destruct (m s) as [[] s']; try done; destruct Hm; split; by try apply serving_drop.
Qed.

Lemma serves_or_drop {A} bytes (m : M CoreState A) P : serves m P -> serves (or_drop bytes m) P.
Proof.
  intros Hm s Hs. specialize (Hm s Hs). unfold wpM, or_drop in *.
  destruct (m s) as [[] s']; try done; destruct Hm; split; by try apply serving_drop.
Qed.

Lemma serves_retained {A} bytes context (m : M CoreState A) P : serves m P -> serves (retained bytes context m) P.
Proof. intros Hm. eapply serves_bind; [apply serves_reserve|]. intros ? _. by apply serves_or_drop. Qed.

(** ** Shared values *)

Lemma serves_arc_new {A} (value : A) bytes (P : A -> Prop) : P value -> serves (arc_new value bytes) (fun arc => P (arc_value arc)).
Proof. intros Hv s Hs. by split. Qed.

Lemma serves_arc_clone {A} (arc : Arc A) : serves (arc_clone arc) (fun a => a = arc).
Proof. intros s Hs. by split. Qed.

Lemma serves_drop_handle {A} (arc : Arc A) : serves (drop_handle arc) (fun _ => True).
Proof. intros s Hs. split; [done|]. by apply serving_arc_drop. Qed.

Lemma serves_with_arc {A B} (arc : Arc A) (m : M CoreState B) P : serves m P -> serves (with_arc arc m) P.
Proof.
  intros Hm s Hs. specialize (Hm s Hs). unfold wpM, with_arc in *.
  destruct (m s) as [[] s']; try done; destruct Hm; split; by try apply serving_arc_drop.
Qed.

Lemma serves_or_drop_arc {A B} (arc : Arc A) (m : M CoreState B) P : serves m P -> serves (or_drop_arc arc m) P.
Proof.
  intros Hm s Hs. specialize (Hm s Hs). unfold wpM, or_drop_arc in *.
  destruct (m s) as [[] s']; try done; destruct Hm; split; by try apply serving_arc_drop.
Qed.

Lemma serves_attempt {A} (m : M CoreState A) (P : A -> Prop) :
  serves m P -> serves (attempt m) (fun r => match r with inl a => P a | inr e => over_limit e end).
Proof. intros Hm s Hs. specialize (Hm s Hs). unfold wpM, attempt in *. by destruct (m s) as [[] s']. Qed.

Lemma serves_read_state {A} (get : CoreState -> A) : serves (read_state get) (fun v => exists s, serving s /\ v = get s).
Proof. intros s Hs. split; [by exists s|done]. Qed.

(** ** Remembered failures *)

Lemma replay_limit failure : limit_failure failure -> over_limit (replay failure).
Proof. intros (limit & value & maximum & E). unfold replay. rewrite E. by eexists _, _, _. Qed.

Lemma serves_capture e :
  over_limit e -> serves (capture e) (fun r => match r with Some failure => limit_failure failure | None => True end).
Proof.
  intros (limit & value & maximum & ->) s Hs. unfold wpM, capture. cbn [failure_kind].
  destruct (limit =? _)%string; (split; [|done]); [done|]. by eexists _, _, _.
Qed.

Lemma serves_set_key_cache value :
  match value with
  | Some (i, v) => slot_served (fun b => get_at blocks i = Some (kb_entries b)) (Some v)
  | None => True
  end -> serves (set_key_block_cache value) (fun _ => True).
Proof.
  intros Hv s (H1 & H2 & H3). split; [done|].
  assert (serving {| cs_world := cs_world s; cs_arcs := cs_arcs s; cs_key_block_cache := value;
                     cs_record_block_cache := cs_record_block_cache s; cs_locator := cs_locator s |}) as Hs.
  { split_and!; try done. by destruct value as [[i v]|]. }
  destruct (cs_key_block_cache s) as [[i [arc|failure]]|]; cbn [drop_cached]; [by apply serving_arc_drop|by apply serving_drop|done].
Qed.

Lemma serves_set_record_cache value :
  match value with
  | Some (i, v) => slot_served (fun b => get_at data i = Some (rb_bytes b)) (Some v)
  | None => True
  end -> serves (set_record_block_cache value) (fun _ => True).
Proof.
  intros Hv s (H1 & H2 & H3). split; [done|].
  assert (serving {| cs_world := cs_world s; cs_arcs := cs_arcs s; cs_key_block_cache := cs_key_block_cache s;
                     cs_record_block_cache := value; cs_locator := cs_locator s |}) as Hs.
  { split_and!; try done. by destruct value as [[i v]|]. }
  destruct (cs_record_block_cache s) as [[i [arc|failure]]|]; cbn [drop_cached]; [by apply serving_arc_drop|by apply serving_drop|done].
Qed.

Lemma serves_set_locator value :
  slot_served (locator_of (mf_normalizer f) (map row_key (concat blocks))) (Some value) ->
  serves (set_locator value) (fun _ => True).
Proof.
  intros Hv s Hs. split; [done|]. destruct (cs_locator s) as [old|] eqn:E.
  - destruct value as [arc|failure]; cbn [drop_cached]; [by apply serving_arc_drop|by apply serving_drop].
  - destruct Hs as (H1 & H2 & _). by split_and!.
Qed.

End Serves.

(** * Key blocks *)

Section Keys.

Context `{EnvOk} (granted : forall context n, allocator context n = true) (f : MdictFile) (content : bytes).

Context (blocks : list (list DecodedKeyRow)) (data : list bytes) (Hi : intact f content blocks data).

#[local] Notation serves := (serves f blocks data).

#[local] Notation n := (mf_normalizer f).

(** A read of the file. *)
Lemma serves_read offset len context out :
  slice content offset (offset + len) = Some out ->
  serves (read_exact_at (mf_source f) offset len context) (fun r => r = out).
Proof.
  intros Hout. destruct (intact_stable _ _ _ _ Hi) as [modified [Hlen Hfile]]. pose proof (intact_size _ _ _ _ Hi) as Hmax.
  pose proof (slice_length _ _ _ _ Hout) as Hl. pose proof (proj1 (slice_Some _ _ _ _) Hout) as [? _].
  assert (isize_max <= u64_max) by done. unfold read_exact_at.
  eapply serves_step; [apply checked_u64_granted; lia|].
  eapply serves_step; [apply ensure_range_granted; lia|].
  eapply serves_step; [apply try_reserve_vec_Ok; first [apply granted|lia]|].
  eapply (serves_bind _ _ _ _ _ (fun file => fc_content file = content)).
  - apply serves_world. intros s. unfold wpM, access. rewrite Hfile. by split_and!.
  - intros file ->. by eapply serves_lift; [rewrite Hout|].
Qed.

Lemma normalized_len_fits t : text_fits f t -> normalized_len n t = Ok (zlen (normalized n t)).
Proof.
  intros [_ ?]. assert (isize_max <= u64_max) by done. rewrite normalized_len_spec. unfold checked_len.
  by rewrite (proj2 (Z.leb_le _ u64_max)) by lia.
Qed.

Lemma normalize_fits t : text_fits f t -> normalize n t = Ok (normalized n t).
Proof.
  intros Ht. unfold normalize. rewrite normalized_len_fits by done. cbn [rbind].
  rewrite (reserve_string_granted granted) by (destruct Ht; lia). cbn [rbind]. by rewrite normalize_into_spec.
Qed.

Lemma clone_fits t context : text_fits f t -> try_clone_string t context = Ok t.
Proof. intros [? _]. by apply (clone_granted granted). Qed.

Lemma serves_summary a b :
  text_fits f a -> text_fits f b -> normalized n a = normalized n b ->
  serves (key_summary_matches f a b) (fun r => r = true).
Proof.
  intros Ha Hb E. assert (isize_max + isize_max <= u64_max) by done. unfold key_summary_matches.
  eapply serves_step; [by apply normalized_len_fits|]. eapply serves_step; [by apply normalized_len_fits|].
  eapply serves_step; [rewrite checked_add_granted by (destruct Ha, Hb; lia); done|].
  apply serves_scoped. eapply serves_step; [by apply normalize_fits|]. eapply serves_step; [by apply normalize_fits|].
  apply serves_ret. rewrite E. by apply bytes_eqb_true.
Qed.

(** The block at an index, its rows, and what is known of them. *)
Lemma intact_block i block :
  get_at (vl_key_blocks (mf_layout f)) i = Some block ->
  exists rows, get_at blocks i = Some rows /\ block_rows f content block = Ok rows /\ boundary_keys f block rows /\
    key_rows_ok (key_row_context f block) rows /\ Forall (fun row => text_fits f (row_key row)) rows /\ block_fits f block.
Proof.
  intros Hb. pose proof (get_at_elem_of _ _ _ Hb) as Hin. destruct (get_at_lookup _ _ _ Hb) as [Hlk Hi0].
  destruct (Forall2_lookup_l _ _ _ _ _ (intact_rows _ _ _ _ Hi) Hlk) as (rows & Hr & Hrows).
  pose proof (Forall2_lookup_lr _ _ _ _ _ _ (intact_boundaries _ _ _ _ Hi) Hlk Hr) as Hbound.
  destruct (intact_stable _ _ _ _ Hi) as [modified Hst].
  exists rows. split; [unfold get_at; by rewrite (proj2 (Z.leb_le 0 i))|]. split_and!; try done.
  - by eapply (block_rows_ok f (intact_file _ _ _ _ Hi) content modified Hst).
  - pose proof (intact_keys _ _ _ _ Hi) as Hk. rewrite Forall_concat, Forall_lookup in Hk. by eapply Hk.
  - pose proof (intact_blocks _ _ _ _ Hi) as Hk. rewrite Forall_forall in Hk. by apply Hk.
Qed.

Lemma serves_read_key_block i block rows :
  get_at (vl_key_blocks (mf_layout f)) i = Some block -> get_at blocks i = Some rows ->
  serves (read_key_block f block (kb_comp_size block) (kb_decomp_size block)) (fun r => r = rows).
Proof.
  intros Hb Hr. destruct (intact_block i block Hb) as (rows' & Hr' & Hrows & (first & last & Hfirst & Hlast & E1 & E2) & _ & Hfit & Hf1 & Hf2 & _).
  assert (rows' = rows) as -> by congruence. unfold block_rows in Hrows. rinv. unfold read_key_block.
  eapply serves_bind; [by eapply serves_read|]. intros ? ->.
  eapply serves_step; [eassumption|]. eapply serves_step; [eassumption|].
  eapply serves_step; [by rewrite Hfirst|]. eapply serves_step; [by rewrite Hlast|].
  rewrite Forall_forall in Hfit.
  eapply serves_bind; [apply serves_summary; [apply Hfit; by apply head_Some_elem_of|done|done]|]. intros ? ->.
  eapply serves_bind; [apply serves_summary; [apply Hfit; by apply last_Some_elem_of|done|done]|]. intros ? ->.
  by apply serves_ret.
Qed.

(** The sizes of a block are [usize]s. *)
Lemma block_sizes i block :
  get_at (vl_key_blocks (mf_layout f)) i = Some block ->
  kb_comp_size block <= usize_max /\ kb_decomp_size block <= usize_max /\ entry_count block <= usize_max.
Proof.
  intros Hb. destruct (intact_block i block Hb) as (rows & _ & Hrows & _ & [Hn _] & _ & _).
  pose proof (intact_size _ _ _ _ Hi) as Hmax. assert (isize_max <= usize_max) by done.
  destruct (id (intact_file _ _ _ _ Hi)) as (_ & Hlim & Hl & _). destruct (layout_key_blocks _ _ _ _ Hl) as (Hk & [_ Htot] & Hc & Hv).
  pose proof (get_at_elem_of _ _ _ Hb) as Hin. destruct (get_at_lookup _ _ _ Hb) as [Hlk _].
  assert (Forall (fun b => 0 <= entry_count b) (vl_key_blocks (mf_layout f))) as Hsz
    by (eapply Forall_impl; [exact Hv|]; intros b (? & _); lia).
  destruct (consecutive_bounds _ _ _ _ _ _ _ Hsz Hc Hlk).
  rewrite Forall_forall in Hk, Hv. destruct (Hk block Hin) as (? & ? & ?), (Hv block Hin) as (_ & _ & ?).
  destruct Hlim as (_ & _ & _ & _ & _ & [_ ?] & _). change usize_max with u64_max in *.
  unfold block_rows in Hrows. rinv.
  match goal with Hs : slice _ _ _ = Some _ |- _ => apply slice_Some in Hs as [[? ?] _] end. lia.
Qed.

Lemma serves_decode_uncached i rows :
  get_at blocks i = Some rows ->
  serves (decode_key_block_uncached f i) (fun arc => kb_entries (arc_value arc) = rows).
Proof.
  intros Hr.
  assert (exists block, get_at (vl_key_blocks (mf_layout f)) i = Some block) as [block Hb].
  { apply get_at_is_Some. rewrite (Forall2_length _ _ _ (intact_rows _ _ _ _ Hi)). by eapply get_at_Some. }
  destruct (intact_block i block Hb) as (_ & _ & _ & _ & _ & _ & _ & _ & size & Hsize).
  destruct (block_sizes i block Hb) as (? & ? & ?).
  unfold decode_key_block_uncached. rewrite Hb. eapply serves_step; [done|].
  do 3 (eapply serves_step; [by apply checked_usize_granted|]). eapply serves_step; [exact Hsize|].
  eapply (serves_bind _ _ _ _ _ (fun entries => kb_entries entries = rows)).
  - apply serves_retained, serves_scoped, serves_scoped. eapply serves_bind; [by eapply serves_read_key_block|].
    intros ? ->. by apply serves_ret.
  - intros entries He. by apply (serves_arc_new _ _ _ _ _ (fun entries => kb_entries entries = rows)).
Qed.

(** Blocks follow each other with non-decreasing record starts. *)
Lemma block_nonempty i rows : get_at blocks i = Some rows -> exists first last, head rows = Some first /\ list.last rows = Some last.
Proof.
  intros Hr.
  assert (exists block, get_at (vl_key_blocks (mf_layout f)) i = Some block) as [block Hb].
  { apply get_at_is_Some. rewrite (Forall2_length _ _ _ (intact_rows _ _ _ _ Hi)). by eapply get_at_Some. }
  destruct (intact_block i block Hb) as (rows' & Hr' & _ & (first & last & ? & ? & _) & _).
  assert (rows' = rows) as -> by congruence. by exists first, last.
Qed.

Lemma boundary_sorted i before after a b :
  get_at blocks (i - 1) = Some before -> get_at blocks i = Some after ->
  a ∈ before -> b ∈ after -> record_start a <= record_start b.
Proof.
  intros H1 H2 Ha Hb. pose proof (intact_sorted _ _ _ _ Hi) as Hs. unfold starts_sorted in Hs.
  apply get_at_lookup in H1 as [H1 ?]. apply get_at_lookup in H2 as [H2 _].
  apply Sorted_StronglySorted in Hs; [|intros ? ? ?; lia].
  rewrite <- (take_drop (Z.to_nat i) blocks), concat_app in Hs.
  eapply (StronglySorted_app_1_elem_of _ _ _ a b) in Hs; [done|..]; apply list_elem_of_In, in_concat.
  - exists before. split; [|by apply list_elem_of_In]. apply list_elem_of_In, (list_elem_of_lookup_2 _ (Z.to_nat (i - 1))).
    rewrite lookup_take_lt by lia. done.
  - exists after. split; [|by apply list_elem_of_In]. apply list_elem_of_In, (list_elem_of_lookup_2 _ 0%nat).
    rewrite lookup_drop, Nat.add_0_r. done.
Qed.

(** What the key block cache answers. *)
Lemma key_cache_hit s i : serving f blocks data s ->
  match cache_hit (cs_key_block_cache s) i with
  | Some (Ready arc) => get_at blocks i = Some (kb_entries (arc_value arc))
  | Some (Failed failure) => limit_failure failure
  | None => True
  end.
Proof.
  intros (Hs & _). destruct (cs_key_block_cache s) as [[j value]|]; [|done]. cbn [cache_hit].
  destruct (Z.eqb_spec j i) as [->|]; [|done]. by destruct value.
Qed.

(** The closure of [decode_key_block]. *)
Lemma serves_decode_miss i rows :
  get_at blocks i = Some rows ->
  serves (decode_key_block_miss f i) (fun arc => kb_entries (arc_value arc) = rows).
Proof.
  intros Hr. pose proof (get_at_Some _ _ _ Hr) as Hrange.
  assert (exists block, get_at (vl_key_blocks (mf_layout f)) i = Some block) as [block Hb].
  { apply get_at_is_Some. rewrite (Forall2_length _ _ _ (intact_rows _ _ _ _ Hi)). lia. }
  destruct (block_nonempty i rows Hr) as (first & _ & Hfirst & _).
  unfold decode_key_block_miss. rewrite Hb.
  eapply serves_bind; [apply serves_read_state|]. intros cache (s & Hs & ->).
  eapply (serves_bind _ _ _ _ _ (fun previous => forall start, previous = Some start -> start <= record_start first)).
  - destruct (Z.eqb_spec i 0) as [->|Hne]; [by apply serves_ret|].
    assert (exists before, get_at blocks (i - 1) = Some before) as [before Hbefore] by (apply get_at_is_Some; lia).
    destruct (block_nonempty _ _ Hbefore) as (_ & last & _ & Hlast).
    assert (forall previous, kb_entries (arc_value previous) = before ->
      serves (let! start := lift (last_start (arc_value previous)) in mret (Some start))
        (fun previous => forall start, previous = Some start -> start <= record_start first)) as Hstart.
    { intros previous E. unfold last_start. rewrite E, Hlast. eapply serves_step; [done|]. apply serves_ret.
      intros start [= <-]. eapply boundary_sorted; [exact Hbefore|exact Hr|..];
        [by apply last_Some_elem_of|by apply head_Some_elem_of]. }
    pose proof (key_cache_hit s (i - 1) Hs) as Hhit.
    destruct (cache_hit (cs_key_block_cache s) (i - 1)) as [[previous|failure]|].
    + apply Hstart. congruence.
    + by apply serves_err, replay_limit.
    + eapply serves_bind; [by apply serves_decode_uncached|]. intros previous E. by apply serves_with_arc, Hstart.
  - intros previous Hprevious. eapply serves_bind; [by apply serves_set_key_cache|]. intros _ _.
    eapply serves_bind; [by apply serves_decode_uncached|]. intros entries E. apply serves_or_drop_arc.
    eapply serves_step; [|by apply serves_ret]. unfold check_boundary, first_start. rewrite E, Hfirst.
    destruct previous as [start|]; [|done]. cbn [ok_or rbind].
    by rewrite (proj2 (Z.ltb_ge _ _)) by by apply Hprevious.
Qed.

(** [decode_key_block] *)
Lemma serves_decode_key_block i rows :
  get_at blocks i = Some rows ->
  serves (decode_key_block f i) (fun arc => kb_entries (arc_value arc) = rows).
Proof.
  intros Hr. unfold decode_key_block.
  eapply serves_bind; [apply serves_read_state|]. intros cache (s & Hs & ->).
  pose proof (key_cache_hit s i Hs) as Hhit. destruct (cache_hit _ _) as [[entries|failure]|].
  - eapply serves_mono; [apply serves_arc_clone|]. intros ? ->. congruence.
  - by apply serves_err, replay_limit.
  - eapply serves_bind; [by apply serves_attempt, serves_decode_miss|]. intros [entries|error] He.
    + eapply serves_bind; [apply serves_arc_clone|]. intros ? ->.
      eapply serves_bind; [apply serves_set_key_cache; cbn; by rewrite He|]. intros _ _. by apply serves_ret.
    + eapply serves_bind; [by apply serves_capture|]. intros captured Hcap.
      eapply (serves_bind _ _ _ _ _ (fun _ => True)).
      * destruct captured; [by apply serves_set_key_cache|by apply serves_ret].
      * intros _ _. by apply serves_err.
Qed.

(** ** Ordinals *)

(** The place of a row among the blocks. *)
Lemma row_place i block rows k :
  get_at (vl_key_blocks (mf_layout f)) i = Some block -> get_at blocks i = Some rows -> 0 <= k < entry_count block ->
  exists row, get_at rows k = Some row /\ get_at (concat blocks) (entry_start_index block + k) = Some row.
Proof.
  intros Hb Hr Hk. destruct (intact_block i block Hb) as (rows' & Hr' & _ & _ & [Hn _] & _).
  assert (rows' = rows) as -> by congruence. cbn in Hn.
  destruct (get_at_is_Some rows k) as [row Hrow]; [lia|]. exists row. split; [done|].
  destruct (id (intact_file _ _ _ _ Hi)) as (_ & _ & Hl & _). destruct (layout_key_blocks _ _ _ _ Hl) as (_ & _ & Hc & _).
  assert (Forall2 (fun a b => zlen b = entry_count a) (vl_key_blocks (mf_layout f)) blocks) as Hlen.
  { apply Forall2_same_length_lookup. split; [by eapply Forall2_length, (intact_rows _ _ _ _ Hi)|]. intros j a b Ha Hbl.
    destruct (intact_block (Z.of_nat j) a (lookup_get_at _ _ _ Ha)) as (b' & Hb' & _ & _ & [? _] & _).
    apply lookup_get_at in Hbl. assert (b' = b) as -> by congruence. done. }
  destruct (concat_consecutive _ _ _ _ _ _ Hc Hlen) as [_ Hat].
  apply get_at_lookup in Hb as [Hb _]. apply get_at_lookup in Hr as [Hr _].
  specialize (Hat _ _ _ _ _ Hb Hr Hrow). by rewrite Z.sub_0_r in Hat.
Qed.

Lemma total_rows : zlen (concat blocks) = mdict_len f.
Proof.
  destruct (intact_stable _ _ _ _ Hi) as [modified Hst].
  apply (all_rows_spec f (intact_file _ _ _ _ Hi) content modified Hst). unfold all_rows.
  by rewrite (proj2 (decode_all_Forall2 _ _ _) (intact_rows _ _ _ _ Hi)).
Qed.

(** The hit of an ordinal: its place, and the rows of the block. *)
Definition hit_at (ordinal : Z) (hit : KeyBlockHit) : Prop :=
  exists block row, get_at (vl_key_blocks (mf_layout f)) (kh_block_index hit) = Some block /\
    get_at blocks (kh_block_index hit) = Some (kb_entries (arc_value (kh_entries hit))) /\
    0 <= kh_entry_index hit < entry_count block /\ ordinal = entry_start_index block + kh_entry_index hit /\
    get_at (kb_entries (arc_value (kh_entries hit))) (kh_entry_index hit) = Some row /\
    get_at (concat blocks) ordinal = Some row.

Lemma serves_key_entry ordinal :
  0 <= ordinal ->
  serves (key_entry_at_ordinal f ordinal) (fun r =>
    match r with None => mdict_len f <= ordinal | Some hit => hit_at ordinal hit end).
Proof.
  intros Hord. unfold key_entry_at_ordinal. destruct (Z.leb_spec (mdict_len f) ordinal); [by apply serves_ret|].
  pose proof (resolve_ordinal_returns f (intact_file _ _ _ _ Hi) ordinal ltac:(lia)) as Hres. unfold returns in Hres.
  destruct (resolve_ordinal f ordinal) as [[i k]|e| |]; try done. destruct Hres as (block & Hb & Ek & Hk). cbn [fst snd] in *.
  eapply serves_step; [done|]. cbv beta iota.
  destruct (intact_block i block Hb) as (rows & Hr & _ & _ & [Hn _] & _). cbn in Hn.
  eapply serves_bind; [by apply serves_decode_key_block|]. intros entries E. apply serves_or_drop_arc. rewrite E.
  rewrite (proj2 (Z.leb_gt _ _)) by lia. apply serves_ret.
  destruct (row_place i block rows k Hb Hr Hk) as (row & Hrow & Hall). rewrite Ek in Hall.
  exists block, row. cbn [kh_block_index kh_entries kh_entry_index]. rewrite E.
  split_and!; try done; try lia. rewrite <- Hall. f_equal. lia.
Qed.

(** [key_at_ordinal] gives the key of the row. *)
Lemma serves_key_at_ordinal ordinal :
  0 <= ordinal ->
  serves (key_at_ordinal f ordinal) (fun r =>
    r = (fun row => {| ke_ordinal := ordinal; ke_key := row_key row |}) <$> get_at (concat blocks) ordinal).
Proof.
  intros Hord. unfold key_at_ordinal. eapply serves_bind; [by apply serves_key_entry|]. intros [hit|] Hhit.
  - destruct Hhit as (block & row & _ & _ & _ & _ & Hrow & Hall). apply serves_with_arc.
    unfold hit_row. rewrite Hrow. eapply serves_step; [done|].
    eapply serves_step; [apply clone_fits|by apply serves_ret; rewrite Hall].
    pose proof (intact_keys _ _ _ _ Hi) as Hk. rewrite Forall_forall in Hk. apply Hk. by eapply get_at_elem_of.
  - apply serves_ret. destruct (get_at (concat blocks) ordinal) eqn:E; [|done].
    pose proof (get_at_Some _ _ _ E). rewrite total_rows in *. lia.
Qed.

End Keys.
