(* ===== verification/IntactRecords.v ===== *)
(** Records of intact dictionaries: descriptors, spans, the entries of an MDX
    file and the resources of an MDD file. *)

From stdpp Require Import list_numbers sorting.
From S2P Require Import Prelude Errors Types Budget Utf8 Encoding Source Compression Descriptors Header KeySection RecordSection Format Normalize LocatorIndex Arcs Core Dictionary Keys Records WrittenHeader Intact.

Section Records.

Context `{EnvOk} (granted : forall context n, allocator context n = true) (f : MdictFile) (content : bytes).

Context (blocks : list (list DecodedKeyRow)) (data : list bytes) (Hi : intact f content blocks data).

#[local] Notation serves := (serves f blocks data).

#[local] Notation rows := (concat blocks).

#[local] Notation stream := (concat data).

#[local] Notation total := (vl_total_decoded_record_len (mf_layout f)).

(** * Descriptors *)

Lemma row_facts ordinal row :
  get_at rows ordinal = Some row -> text_fits f (row_key row) /\ 0 <= record_start row <= total.
Proof.
  intros Hr. apply get_at_elem_of in Hr. split.
  { pose proof (intact_keys _ _ _ _ Hi) as Hk. rewrite Forall_forall in Hk. by apply Hk. }
  assert (Forall (fun row => 0 <= record_start row <= total) rows) as Hall; [|rewrite Forall_forall in Hall; by apply Hall].
  apply Forall_concat, Forall_lookup. intros i rs Hrs.
  destruct (Forall2_lookup_r _ _ _ _ _ (intact_rows _ _ _ _ Hi) Hrs) as (block & Hb & _).
  destruct (intact_block f content blocks data Hi (Z.of_nat i) block (lookup_get_at _ _ _ Hb)) as (rs' & Hrs' & _ & _ & (_ & Hok & _) & _).
  apply lookup_get_at in Hrs. assert (rs' = rs) as -> by congruence.
  eapply Forall_impl; [exact Hok|]. by intros r [_ ?].
Qed.

Lemma rows_sorted i j a b :
  get_at rows i = Some a -> get_at rows j = Some b -> i < j -> record_start a <= record_start b.
Proof.
  intros Ha Hb Hij. pose proof (intact_sorted _ _ _ _ Hi) as Hs. unfold starts_sorted in Hs.
  apply get_at_lookup in Ha as [Ha ?]. apply get_at_lookup in Hb as [Hb ?].
  apply Sorted_StronglySorted in Hs; [|intros ? ? ?; lia]. rewrite <- (take_drop (Z.to_nat j) rows) in Hs.
  apply StronglySorted_app in Hs as (Hs & _ & _). apply (Hs a b).
  - apply (list_elem_of_lookup_2 _ (Z.to_nat i)). by rewrite lookup_take_lt by lia.
  - apply (list_elem_of_lookup_2 _ 0%nat). by rewrite lookup_drop, Nat.add_0_r.
Qed.

(** The fields of a hit. *)
Lemma hit_fields_at ordinal hit :
  hit_at f blocks ordinal hit ->
  exists row, get_at rows ordinal = Some row /\
    hit_fields f hit = Ok (ordinal, record_start row, row_key row,
      record_start <$> get_at (kb_entries (arc_value (kh_entries hit))) (kh_entry_index hit + 1)).
Proof.
  intros (block & row & Hb & _ & Hk & Ho & Hrow & Hall). exists row. split; [done|].
  pose proof (get_at_Some _ _ _ Hall) as Hlen. rewrite (total_rows f content blocks data Hi) in Hlen.
  destruct (id (intact_file _ _ _ _ Hi)) as (_ & _ & Hl & _). destruct (layout_key_blocks _ _ _ _ Hl) as (_ & [_ Hmax] & _ & Hv).
  fold (mdict_len f) in Hmax. rewrite Forall_forall in Hv. destruct (Hv block) as (_ & ? & _); [by eapply get_at_elem_of|].
  unfold hit_fields. rewrite Hb. cbn [ok_or rbind]. unfold try_u64. rewrite (proj2 (Z.leb_le _ u64_max)) by lia.
  cbn [ok_or rbind]. rewrite checked_add_granted by lia. cbn [ok_or rbind]. rewrite Hrow. cbn [ok_or rbind].
  rewrite (clone_fits granted f) by by eapply row_facts. cbn [rbind]. by rewrite Ho.
Qed.

(** The row behind a hit, in its block or in the next one. *)
Lemma hit_next_row ordinal hit :
  hit_at f blocks ordinal hit ->
  match get_at (kb_entries (arc_value (kh_entries hit))) (kh_entry_index hit + 1) with
  | Some next => get_at rows (ordinal + 1) = Some next
  | None =>
      if kh_block_index hit + 1 <? key_block_count f
      then exists after next, get_at blocks (kh_block_index hit + 1) = Some after /\ head after = Some next /\
             get_at rows (ordinal + 1) = Some next
      else get_at rows (ordinal + 1) = None
  end.
Proof.
  intros (block & row & Hb & Hr & Hk & Ho & _ & _).
  destruct (intact_block f content blocks data Hi _ block Hb) as (rs & Hrs & _ & _ & [Hn _] & _).
  assert (rs = kb_entries (arc_value (kh_entries hit))) as -> by congruence. cbn in Hn.
  destruct (get_at _ (kh_entry_index hit + 1)) as [next|] eqn:En.
  - pose proof (get_at_Some _ _ _ En). destruct (row_place f content blocks data Hi _ block _ (kh_entry_index hit + 1) Hb Hr)
      as (next' & Hnext' & Hall); [lia|]. assert (next' = next) as -> by congruence. rewrite <- Hall. f_equal. lia.
  - apply get_at_None in En; [|lia].
    destruct (id (intact_file _ _ _ _ Hi)) as (_ & _ & Hl & _). destruct (layout_key_blocks _ _ _ _ Hl) as (Hkb & _ & Hc & Hv).
    assert (Forall (fun b => 0 <= entry_count b) (vl_key_blocks (mf_layout f))) as Hsz
      by (eapply Forall_impl; [exact Hkb|]; by intros b (? & ? & ?)).
    destruct (get_at_lookup _ _ _ Hb) as [Hlk Hidx].
    destruct (consecutive_lookup _ _ _ _ _ _ _ Hsz Hc Hlk) as [_ Hrest]. unfold key_block_count.
    destruct (Z.ltb_spec (kh_block_index hit + 1) (zlen (vl_key_blocks (mf_layout f)))) as [Hlt|Hge].
    + destruct (get_at_is_Some (vl_key_blocks (mf_layout f)) (kh_block_index hit + 1)) as [after Hnb]; [lia|].
      destruct (get_at_lookup _ _ _ Hnb) as [Hnlk _].
      replace (Z.to_nat (kh_block_index hit + 1)) with (Datatypes.S (Z.to_nat (kh_block_index hit))) in Hnlk by lia.
      rewrite (drop_S _ _ _ Hnlk) in Hrest. cbn [consecutive] in Hrest. destruct Hrest as [Es _].
      destruct (intact_block f content blocks data Hi _ after Hnb) as (rs & Hrs' & _ & _ & [Hn' _] & _). cbn in Hn'.
      rewrite Forall_forall in Hv. destruct (Hv after) as (? & _); [by eapply get_at_elem_of|].
      destruct (row_place f content blocks data Hi _ after rs 0 Hnb Hrs') as (next & Hnext & Hall); [lia|].
      exists rs, next. split; [done|]. split; [destruct rs; [done|exact Hnext]|]. rewrite <- Hall. f_equal. lia.
    + rewrite drop_ge in Hrest by lia. cbn [consecutive] in Hrest.
      destruct (get_at rows (ordinal + 1)) eqn:E; [|done]. pose proof (get_at_Some _ _ _ E) as Hlen.
      rewrite (total_rows f content blocks data Hi) in Hlen. unfold mdict_len in Hlen. lia.
Qed.

Lemma serves_descriptor ordinal hit :
  hit_at f blocks ordinal hit ->
  serves (record_descriptor_from_hit f hit) (fun d => Some d = row_descriptor total rows ordinal).
Proof.
  intros Hhit. destruct (hit_fields_at _ _ Hhit) as (row & Hrow & Hfields). pose proof (hit_next_row _ _ Hhit) as Hnext.
  destruct (row_facts _ _ Hrow) as [_ Hstart]. unfold record_descriptor_from_hit, row_descriptor. rewrite Hrow.
  assert (serves (with_arc (kh_entries hit) (lift (hit_fields f hit))) (fun r => hit_fields f hit = Ok r)) as Hf
    by (apply serves_with_arc; by eapply serves_lift).
  eapply serves_bind; [exact Hf|]. intros r Er. rewrite Hfields in Er. injection Er as <-.
  eapply (serves_bind _ _ _ _ _ (fun end_ => end_ = default total (record_start <$> get_at rows (ordinal + 1)))).
  - destruct (get_at _ (kh_entry_index hit + 1)) as [next|]; cbn [fmap option_fmap option_map].
    + apply serves_ret. by rewrite Hnext.
    + destruct (_ <? _); [|apply serves_ret; by rewrite Hnext].
      destruct Hnext as (after & next & Hafter & Hhead & Hall).
      eapply serves_bind; [by apply (serves_decode_key_block granted f content blocks data Hi)|].
      intros next_block E. apply serves_with_arc. eapply serves_lift; [|reflexivity].
      unfold next_block_start. rewrite E, Hhead, Hall. done.
  - intros end_ ->. rewrite (proj2 (Z.ltb_ge _ _)); [by apply serves_ret|].
    destruct (get_at rows (ordinal + 1)) as [next|] eqn:En; cbn [fmap option_fmap option_map default]; [|lia].
    eapply rows_sorted; [exact Hrow|exact En|lia].
Qed.

(** [record_at_ordinal] *)
Lemma serves_record_at ordinal :
  0 <= ordinal -> serves (record_at_ordinal f ordinal) (fun r => r = row_descriptor total rows ordinal).
Proof.
  intros Hord. unfold record_at_ordinal. eapply serves_bind; [by apply (serves_key_entry granted f content blocks data Hi)|].
  intros [hit|] Hhit.
  - eapply serves_bind; [by apply serves_descriptor|]. intros d Hd. by apply serves_ret.
  - apply serves_ret. unfold row_descriptor. destruct (get_at rows ordinal) eqn:E; [|done].
    pose proof (get_at_Some _ _ _ E) as Hlen. rewrite (total_rows f content blocks data Hi) in Hlen. lia.
Qed.

(** * Record blocks *)

(** The block at an index, its bytes, and where they are in the stream. *)
Lemma intact_record_block i block :
  get_at (vl_record_blocks (mf_layout f)) i = Some block ->
  exists bytes, get_at data i = Some bytes /\ block_bytes f content block = Ok bytes /\
    zlen bytes = rb_decomp_size block /\
    slice stream (rb_decomp_offset block) (rb_decomp_offset block + rb_decomp_size block) = Some bytes.
Proof.
  intros Hb. destruct (get_at_lookup _ _ _ Hb) as [Hlk Hidx].
  destruct (Forall2_lookup_l _ _ _ _ _ (intact_data _ _ _ _ Hi) Hlk) as (bytes & Hd & Hbytes).
  destruct (intact_stable _ _ _ _ Hi) as [modified Hst]. pose proof (intact_file _ _ _ _ Hi) as Hf.
  assert (forall b d, b ∈ vl_record_blocks (mf_layout f) -> block_bytes f content b = Ok d -> zlen d = rb_decomp_size b) as Hlen
    by (intros; by eapply (block_bytes_ok f Hf content modified Hst)).
  destruct (id Hf) as (_ & _ & Hl & _). destruct (layout_record_blocks _ _ _ _ Hl) as (Hk & _ & Hc & Hv).
  assert (Forall2 (fun a b => zlen b = rb_decomp_size a) (vl_record_blocks (mf_layout f)) data) as Hall.
  { apply Forall2_same_length_lookup. split; [by eapply Forall2_length, (intact_data _ _ _ _ Hi)|]. intros j a b Ha Hbl.
    eapply Hlen; [by eapply list_elem_of_lookup_2|by eapply (Forall2_lookup_lr _ _ _ _ _ _ (intact_data _ _ _ _ Hi))]. }
  destruct (concat_consecutive _ _ _ _ _ _ Hc Hall) as [Htotal Hat].
  assert (Forall (fun b => 0 <= rb_decomp_size b) (vl_record_blocks (mf_layout f))) as Hsz
    by (eapply Forall_impl; [exact Hk|]; by intros b' (? & ? & ?)).
  destruct (consecutive_bounds _ _ _ _ _ _ _ Hsz Hc Hlk).
  pose proof (Hlen block bytes (get_at_elem_of _ _ _ Hb) Hbytes) as Hz.
  exists bytes. split; [unfold get_at; by rewrite (proj2 (Z.leb_le 0 i))|]. split; [done|]. split; [done|].
  apply (slice_pointwise f); [lia|lia|lia|]. intros k x Hx. specialize (Hat _ _ _ _ _ Hlk Hd Hx). by rewrite Z.sub_0_r in Hat.
Qed.

Lemma stream_length : zlen stream = total.
Proof.
  destruct (intact_stable _ _ _ _ Hi) as [modified Hst].
  apply (record_stream_length f (intact_file _ _ _ _ Hi) content modified Hst). unfold record_stream.
  by rewrite (proj2 (decode_all_Forall2 _ _ _) (intact_data _ _ _ _ Hi)).
Qed.

Lemma record_sizes block bytes :
  block ∈ vl_record_blocks (mf_layout f) -> block_bytes f content block = Ok bytes ->
  rb_comp_size block <= usize_max /\ rb_decomp_size block <= usize_max /\
  0 <= rb_decomp_offset block /\ 0 <= rb_decomp_size block /\ rb_decomp_offset block + rb_decomp_size block <= total <= u64_max.
Proof.
  intros Hin Hbytes. pose proof (intact_size _ _ _ _ Hi) as Hmax. assert (isize_max <= usize_max) by done.
  destruct (id (intact_file _ _ _ _ Hi)) as (_ & _ & Hl & _). destruct (layout_record_blocks _ _ _ _ Hl) as (Hk & ? & Hc & _).
  assert (Forall (fun b => 0 <= rb_decomp_size b) (vl_record_blocks (mf_layout f))) as Hsz
    by (eapply Forall_impl; [exact Hk|]; by intros b' (? & ? & ?)).
  apply list_elem_of_lookup_1 in Hin as [i Hlk]. destruct (consecutive_bounds _ _ _ _ _ _ _ Hsz Hc Hlk).
  rewrite Forall_lookup in Hk. destruct (Hk _ _ Hlk) as (? & ? & ?). change usize_max with u64_max in *.
  unfold block_bytes in Hbytes. rinv.
  match goal with Hs : slice _ _ _ = Some _ |- _ => apply slice_Some in Hs as [[? ?] _] end. lia.
Qed.

Lemma serves_record_uncached i bytes :
  get_at data i = Some bytes ->
  serves (decode_record_block_uncached f i) (fun arc => rb_bytes (arc_value arc) = bytes).
Proof.
  intros Hd.
  assert (exists block, get_at (vl_record_blocks (mf_layout f)) i = Some block) as [block Hb].
  { apply get_at_is_Some. rewrite (Forall2_length _ _ _ (intact_data _ _ _ _ Hi)). by eapply get_at_Some. }
  destruct (intact_record_block i block Hb) as (bytes' & Hd' & Hbytes & _). assert (bytes' = bytes) as -> by congruence.
  destruct (record_sizes block bytes (get_at_elem_of _ _ _ Hb) Hbytes) as (? & ? & _).
  unfold decode_record_block_uncached. rewrite Hb. eapply serves_step; [done|].
  do 2 (eapply serves_step; [by apply checked_usize_granted|]). unfold block_bytes in Hbytes. rinv.
  eapply (serves_bind _ _ _ _ _ (fun decoded => rb_bytes decoded = bytes)).
  - apply serves_retained, serves_scoped. eapply serves_bind; [by eapply (serves_read granted f content blocks data Hi)|].
    intros ? ->. eapply serves_step; [eassumption|]. by apply serves_ret.
  - intros decoded E. by apply (serves_arc_new _ _ _ _ _ (fun decoded => rb_bytes decoded = bytes)).
Qed.

Lemma record_cache_hit s i : serving f blocks data s ->
  match cache_hit (cs_record_block_cache s) i with
  | Some (Ready arc) => get_at data i = Some (rb_bytes (arc_value arc))
  | Some (Failed failure) => limit_failure failure
  | None => True
  end.
Proof.
  intros (_ & Hs & _). destruct (cs_record_block_cache s) as [[j value]|]; [|done]. cbn [cache_hit].
  destruct (Z.eqb_spec j i) as [->|]; [|done]. by destruct value.
Qed.

(** [decode_record_block] *)
Lemma serves_decode_record_block i bytes :
  get_at data i = Some bytes ->
  serves (decode_record_block f i) (fun arc => rb_bytes (arc_value arc) = bytes).
Proof.
  intros Hd. unfold decode_record_block.
  eapply serves_bind; [apply serves_read_state|]. intros cache (s & Hs & ->).
  pose proof (record_cache_hit s i Hs) as Hhit. destruct (cache_hit _ _) as [[decoded|failure]|].
  - eapply serves_mono; [apply serves_arc_clone|]. intros ? ->. congruence.
  - by apply serves_err, replay_limit.
  - eapply serves_bind; [by apply serves_set_record_cache|]. intros _ _.
    eapply serves_bind; [by apply serves_attempt, serves_record_uncached|]. intros [decoded|error] He.
    + eapply serves_bind; [apply serves_arc_clone|]. intros ? ->.
      eapply serves_bind; [apply serves_set_record_cache; cbn; by rewrite He|]. intros _ _. by apply serves_ret.
    + eapply serves_bind; [by apply serves_capture|]. intros captured Hcap.
      eapply (serves_bind _ _ _ _ _ (fun _ => True)).
      * destruct captured; [by apply serves_set_record_cache|by apply serves_ret].
      * intros _ _. by apply serves_err.
Qed.

(** * Spans *)

(** The chunk a block contributes to a span. *)
Lemma span_chunk_at block bytes cursor end_ :
  block ∈ vl_record_blocks (mf_layout f) -> block_bytes f content block = Ok bytes -> zlen bytes = rb_decomp_size block ->
  slice stream (rb_decomp_offset block) (rb_decomp_offset block + rb_decomp_size block) = Some bytes ->
  cursor < end_ -> rb_decomp_offset block <= cursor < rb_decomp_offset block + rb_decomp_size block ->
  let next := Z.min end_ (rb_decomp_offset block + rb_decomp_size block) in
  exists chunk, span_chunk block bytes cursor end_ = Ok (chunk, next - rb_decomp_offset block) /\
    slice stream cursor next = Some chunk.
Proof.
  intros Hin Hbytes Hlen Hslice Hlt Hcover next. destruct (record_sizes block bytes Hin Hbytes) as (_ & ? & ? & ? & ? & ?).
  change usize_max with u64_max in *.
  destruct (slice_is_Some bytes (cursor - rb_decomp_offset block) (next - rb_decomp_offset block)) as [chunk Hchunk]; [lia|lia|].
  exists chunk. split.
  - unfold span_chunk, checked_sub. rewrite (proj2 (Z.leb_le _ cursor)) by lia. cbn [ok_or rbind].
    rewrite checked_usize_granted by (change usize_max with u64_max; lia). cbn [rbind].
    rewrite checked_add_granted by lia. cbn [ok_or rbind]. fold next.
    rewrite (proj2 (Z.leb_le _ next)) by lia. cbn [ok_or rbind].
    rewrite checked_usize_granted by (change usize_max with u64_max; lia). cbn [rbind].
    rewrite !(proj2 (Z.ltb_ge _ _)) by lia. cbn [orb]. by rewrite Hchunk.
  - pose proof (slice_slice _ _ _ _ _ _ _ Hslice Hchunk) as Hs. rewrite <- Hs. f_equal; lia.
Qed.

Lemma serves_visit_loop {A} (visitor : A -> bytes -> Result A) fuel acc cursor end_ :
  (forall acc chunk, exists acc', visitor acc chunk = Ok acc') ->
  0 <= cursor -> cursor <= end_ -> end_ <= total -> enough_fuel f fuel cursor end_ ->
  serves (visit_loop f visitor fuel acc cursor end_) (fun acc' =>
    exists chunks, visit_chunks visitor acc chunks = Ok acc' /\ slice stream cursor end_ = Some (concat chunks)).
Proof.
  intros Hv. revert acc cursor; induction fuel as [|fuel IH]; intros acc cursor Hc0 Hce Het Hfuel; [by destruct Hfuel; lia|].
  cbn [visit_loop]. destruct (Z.ltb_spec cursor end_) as [Hlt|Hge].
  2: { apply serves_ret. exists []. split; [done|]. replace end_ with cursor by lia.
       apply slice_Some. rewrite Z.sub_diag, stream_length. split; [lia|done]. }
  destruct (id (intact_file _ _ _ _ Hi)) as (_ & _ & Hl & _). destruct (layout_record_blocks _ _ _ _ Hl) as (Hok & [_ Htot] & Hcons & _).
  pose proof (find_record_block_returns _ cursor _ Hok Htot Hc0 Hcons) as Hfind. unfold returns in Hfind.
  destruct (find_record_block _ cursor) as [[index|]|e| |]; try done; [|lia]. destruct Hfind as (block & Hb & Hin).
  eapply serves_step; [done|]. eapply serves_step; [done|]. eapply serves_step; [by rewrite Hb|].
  destruct (intact_record_block index block Hb) as (bytes & Hd & Hbytes & Hlen & Hslice).
  pose proof (get_at_elem_of _ _ _ Hb) as Helem. destruct (get_at_lookup _ _ _ Hb) as [Hlk _].
  destruct (record_sizes block bytes Helem Hbytes) as (_ & ? & ? & ? & ? & ?).
  destruct (span_chunk_at block bytes cursor end_ Helem Hbytes Hlen Hslice Hlt Hin) as (chunk & Hchunk & Hspan).
  set (next := Z.min end_ (rb_decomp_offset block + rb_decomp_size block)) in *.
  destruct (Hv acc chunk) as [acc' Hacc'].
  eapply serves_bind; [by apply serves_decode_record_block|]. intros decoded E.
  eapply (serves_bind _ _ _ _ _ (fun r => r = (acc', next))).
  - apply serves_with_arc. eapply serves_lift; [|reflexivity]. rewrite E, Hchunk. cbn [rbind]. rewrite Hacc'. cbn [rbind].
    unfold try_u64. rewrite (proj2 (Z.leb_le _ u64_max)) by lia. cbn [ok_or rbind].
    rewrite checked_add_granted by lia. cbn [ok_or rbind].
    replace (rb_decomp_offset block + (next - rb_decomp_offset block)) with next by lia.
    by rewrite (proj2 (Z.leb_gt _ _)) by lia.
  - intros ? ->. eapply serves_mono; [apply IH; [lia|lia|lia|]|].
    + eapply (enough_fuel_next f (intact_file _ _ _ _ Hi)); [exact Hfuel|done|exact Hlk|done].
    + intros acc'' (chunks & Hchunks & Hrest). exists (chunk :: chunks). cbn [visit_chunks concat]. rewrite Hacc'.
      split; [done|]. by eapply slice_join.
Qed.

Lemma validate_span start end_ :
  0 <= start <= end_ -> end_ <= total -> validate_record_span f start end_ = Ok (end_ - start).
Proof.
  intros ? ?. unfold validate_record_span, checked_sub. rewrite (proj2 (Z.ltb_ge _ _)) by lia.
  rewrite (proj2 (Z.leb_le _ _)) by lia. cbn [ok_or rbind]. by rewrite (proj2 (Z.ltb_ge _ _)) by lia.
Qed.

(** [visit_record_span] *)
Lemma serves_visit_span {A} (visitor : A -> bytes -> Result A) acc start end_ :
  (forall acc chunk, exists acc', visitor acc chunk = Ok acc') -> 0 <= start <= end_ -> end_ <= total ->
  serves (visit_record_span f visitor acc start end_) (fun acc' =>
    exists chunks, visit_chunks visitor acc chunks = Ok acc' /\ slice stream start end_ = Some (concat chunks)).
Proof.
  intros Hv ? ?. unfold visit_record_span. eapply serves_step; [by apply validate_span|].
  apply serves_visit_loop; [done|lia..|]. split; [lia|]. intros _ i b Hlk _. lia.
Qed.

(** [read_record_span]: the slice of the stream, unless it exceeds the limit of
    a materialized record. *)
Lemma serves_read_span start end_ :
  0 <= start <= end_ -> end_ <= total -> end_ - start <= isize_max ->
  serves (read_record_span f start end_) (fun out => slice stream start end_ = Some out).
Proof.
  intros ? ? Hlen. assert (isize_max <= usize_max) by done. destruct (id (intact_file _ _ _ _ Hi)) as (_ & Hlim & _).
  destruct Hlim as (_ & _ & _ & _ & _ & _ & _ & _ & [_ Hm] & _).
  unfold read_record_span. eapply (serves_limit _ _ _ _ _ (fun len => len = end_ - start)).
  - unfold materialized_record_span_len. rewrite validate_span by done. cbn [rbind].
    rewrite checked_u64_granted by lia. cbn [rbind]. destruct (_ <? _); [by eexists _, _, _|].
    unfold try_usize. by rewrite (proj2 (Z.leb_le _ usize_max)) by lia.
  - intros ? ->. apply serves_scoped. eapply serves_step; [apply try_reserve_vec_Ok; first [apply granted|lia]|].
    eapply serves_mono; [apply serves_visit_span; [by eexists|done|done]|].
    intros out (chunks & Hc & Hs). rewrite visit_chunks_append in Hc. by injection Hc as <-.
Qed.

End Records.
