(* ===== verification/IntactLocator.v ===== *)
(** Lookups in intact dictionaries: the index is built whenever its size is
    within the limits, and a lookup, a page, a prefix search and a case-variant
    page find what their specifications say. *)

From stdpp Require Import list_numbers sorting.
From S2P Require Import Prelude Errors Types Budget Utf8 Encoding Source Compression Descriptors Header KeySection Format Normalize LocatorIndex Arcs Core Dictionary Keys Records Locator Locate CaseVariants Mdx WrittenHeader Intact IntactRecords.

Section Index.

Context `{EnvOk} (granted : forall context n, allocator context n = true) (f : MdictFile) (content : bytes).

Context (blocks : list (list DecodedKeyRow)) (data : list bytes) (Hi : intact f content blocks data).

#[local] Notation serves := (serves f blocks data).

#[local] Notation serving := (serving f blocks data).

#[local] Notation rows := (concat blocks).

#[local] Notation n := (mf_normalizer f).

(** The code keeps the ends of the normalized keys in 32 bits. *)
Context (Harena : zlen (arena n (map row_key rows)) <= u32_max).

(** * The builder *)

Definition builds_to {A} (m : Build A) (P : LocatorBuilder -> Prop) (Q : A -> LocatorBuilder -> Prop) : Prop :=
  forall s b, serving s -> P b ->
    wpM m (s, b) (fun a sb => serving (fst sb) /\ Q a (snd sb)) (fun e sb => over_limit e /\ serving (fst sb)).

Lemma builds_to_bind {A B} (m : Build A) (k : A -> Build B) P Q R :
  builds_to m P Q -> (forall a, builds_to (k a) (Q a) R) -> builds_to (Errors.mbind m k) P R.
Proof.
  intros Hm Hk s b Hs Hb. apply wpM_bind. eapply wpM_mono; [by apply Hm| |done]. intros a [s' b'] [? ?]. by apply Hk.
Qed.

Lemma builds_to_lift {A} (r : Result A) (P : LocatorBuilder -> Prop) (Q : A -> LocatorBuilder -> Prop) :
  (forall b, P b -> match r with Ok a => Q a b | Err e => over_limit e | _ => False end) -> builds_to (lift r) P Q.
Proof. intros Hr s b Hs Hb. specialize (Hr b Hb). by destruct r. Qed.

Lemma builds_to_core {A} (m : M CoreState A) P (R : A -> Prop) :
  serves m R -> builds_to (in_core m) P (fun a b => R a /\ P b).
Proof.
  intros Hm s b Hs Hb. specialize (Hm s Hs). unfold wpM, in_core in *. destruct (m s) as [[a|e| |] s']; try done.
  by destruct Hm.
Qed.

Lemma builds_to_mono {A} (m : Build A) (P P' : LocatorBuilder -> Prop) (Q Q' : A -> LocatorBuilder -> Prop) :
  builds_to m P Q -> (forall b, P' b -> P b) -> (forall a b, Q a b -> Q' a b) -> builds_to m P' Q'.
Proof. intros Hm HP HQ s b Hs Hb. eapply wpM_mono; [apply Hm; auto| |done]. intros a sb [? ?]. auto. Qed.

Lemma builds_to_with {A B} (arc : Arc A) (m : Build B) P Q :
  builds_to m P Q -> builds_to (building_with arc m) P Q.
Proof.
  intros Hm s b Hs Hb. specialize (Hm s b Hs Hb). unfold wpM, building_with in *.
  destruct (m (s, b)) as [[a|e| |] [s' b']]; try done; destruct Hm; split; by try apply serving_arc_drop.
Qed.

Lemma builds_to_assume {A} (phi : Prop) (m : Build A) P Q :
  (phi -> builds_to m P Q) -> builds_to m (fun b => phi /\ P b) Q.
Proof. intros Hm s b Hs [Hphi Hb]. by apply Hm. Qed.

(** The rows before [prefix] have been processed. *)
Definition built (fixed : Z) (prefix : list DecodedKeyRow) (b : LocatorBuilder) : Prop :=
  builder_at f (map row_key prefix) b /\
  lb_estimated b = fixed + zlen (arena n (map row_key prefix)) /\ lb_memory b = lb_estimated b /\
  lb_previous b = record_start <$> last prefix.

Lemma arena_prefix prefix rest : rows = prefix ++ rest -> zlen (arena n (map row_key prefix)) <= u32_max.
Proof. intros E. rewrite E, map_app in Harena. unfold arena in *. rewrite map_app, concat_app, length_app in Harena. lia. Qed.

Lemma prefix_row prefix entry rest : rows = prefix ++ entry :: rest -> get_at rows (zlen prefix) = Some entry.
Proof. intros ->. apply get_at_app_cases. right. rewrite Z.sub_diag. done. Qed.

Lemma check_start prefix entry rest :
  rows = prefix ++ entry :: rest ->
  check_record_start f (record_start <$> last prefix) (record_start entry) = Ok tt.
Proof.
  intros E. pose proof (prefix_row _ _ _ E) as Hrow. destruct (row_facts f content blocks data Hi _ _ Hrow) as [_ ?].
  unfold check_record_start. rewrite (proj2 (Z.ltb_ge _ _)) by lia.
  destruct (last prefix) as [l|] eqn:El; [|done]. cbn [fmap option_fmap option_map].
  rewrite (proj2 (Z.ltb_ge _ _)); [done|]. destruct prefix as [|x prefix] using rev_ind; [done|].
  rewrite last_snoc in El. injection El as ->.
  apply (rows_sorted f content blocks data Hi (zlen prefix) (zlen (prefix ++ [l]))); [|done|rewrite length_app; simpl; lia].
  rewrite <- app_assoc in E. exact (prefix_row _ _ _ E).
Qed.

Lemma reserve_string_more len additional context :
  0 <= len -> 0 <= additional -> len + additional <= isize_max -> try_reserve_string len additional context = Ok tt.
Proof.
  intros ? ? ?. assert (isize_max <= u64_max) by done. unfold try_reserve_string. rewrite checked_add_granted by lia.
  cbn [base.mbind option_bind]. unfold try_u64. rewrite (proj2 (Z.leb_le _ u64_max)) by lia.
  change (or_u64_max (Some (len + additional))) with (len + additional). unfold reserve_bytes.
  rewrite (proj2 (Z.leb_le _ isize_max)) by lia. by rewrite granted, orb_true_r.
Qed.

Lemma builds_to_row fixed prefix entry rest :
  0 <= fixed <= 16 * u32_max + 16 -> rows = prefix ++ entry :: rest ->
  builds_to (build_row f entry) (built fixed prefix) (fun _ => built fixed (prefix ++ [entry])).
Proof.
  intros Hfixed E s b Hs ((Ht & Hb & Hd) & He & Hm & Hp).
  assert (rows = (prefix ++ [entry]) ++ rest) as E' by by rewrite <- app_assoc.
  pose proof (arena_prefix _ _ E') as Hmax. rewrite map_app in Hmax. cbn [map] in Hmax. rewrite arena_snoc, length_app in Hmax.
  destruct (row_facts f content blocks data Hi _ _ (prefix_row _ _ _ E)) as [Hfit _].
  assert (17 * u32_max + 16 <= isize_max /\ isize_max <= u64_max) as [? ?] by done.
  unfold build_row. apply wpM_bind. unfold get_builder at 1, wpM at 1.
  apply wpM_bind. rewrite Hp, (check_start _ _ _ E). unfold lift at 1, wpM at 1.
  apply wpM_bind. rewrite (normalized_len_fits f) by done. unfold lift at 1, wpM at 1.
  apply wpM_bind. rewrite checked_add_granted by lia. unfold lift at 1, wpM at 1. cbn [ok_or].
  apply wpM_bind. unfold lift at 1, wpM at 1. unfold enforce_locator_size at 1.
  destruct (_ <? _); [split; [by eexists _, _, _|done]|].
  apply wpM_bind. unfold in_core at 1, wpM at 1.
  assert (serves (grow (lb_memory b) (zlen (normalized n (row_key entry)))) (fun m => m = lb_memory b + zlen (normalized n (row_key entry)))) as Hg.
  { unfold grow. eapply serves_step; [by rewrite checked_add_granted by lia|].
    eapply serves_bind; [apply serves_reserve|]. intros _ _. by apply serves_ret. }
  specialize (Hg s Hs). unfold wpM in Hg. destruct (grow _ _ s) as [[memory|e| |] s']; try done.
  destruct Hg as [-> Hs']. apply wpM_bind. unfold put_builder at 1, wpM at 1.
  apply wpM_bind. rewrite Ht, reserve_string_more by lia. unfold lift at 1, wpM at 1.
  apply wpM_bind. rewrite normalize_into_spec. unfold try_u32. rewrite (proj2 (Z.leb_le _ u32_max)) by (rewrite length_app; lia).
  unfold lift at 1, wpM at 1. cbn [ok_or]. unfold put_builder, wpM. cbn [fst snd]. split; [done|].
  unfold built, builder_at. cbn [lb_text lb_bounds lb_digests lb_estimated lb_memory lb_previous].
  rewrite map_app, map_app. cbn [map]. rewrite arena_snoc, offsets_from_snoc, arena_snoc, last_snoc, Hb, Hd, length_app.
  split_and!; try done; lia.
Qed.

Lemma builds_to_rows fixed prefix entries rest :
  0 <= fixed <= 16 * u32_max + 16 -> rows = prefix ++ entries ++ rest ->
  builds_to (build_rows f entries) (built fixed prefix) (fun _ => built fixed (prefix ++ entries)).
Proof.
  intros Hfixed. revert prefix; induction entries as [|entry entries IH]; intros prefix E; cbn [build_rows].
  - rewrite app_nil_r. by intros s b Hs Hb.
  - eapply builds_to_bind; [by apply (builds_to_row fixed prefix entry (entries ++ rest))|]. intros [].
    replace (prefix ++ entry :: entries) with ((prefix ++ [entry]) ++ entries) by by rewrite <- app_assoc.
    apply IH. by rewrite <- app_assoc.
Qed.

(** The rows of the first blocks. *)
Lemma rows_before (i : nat) block :
  vl_key_blocks (mf_layout f) !! i = Some block -> zlen (concat (take i blocks)) = entry_start_index block.
Proof.
  intros Hb. destruct (id (intact_file _ _ _ _ Hi)) as (_ & _ & Hl & _). destruct (layout_key_blocks _ _ _ _ Hl) as (Hk & _ & Hc & _).
  assert (Forall (fun b => 0 <= entry_count b) (vl_key_blocks (mf_layout f))) as Hsz
    by (eapply Forall_impl; [exact Hk|]; by intros b (? & ? & ?)).
  destruct (consecutive_lookup _ _ _ _ _ _ _ Hsz Hc Hb) as [Hfront _].
  assert (Forall2 (fun a b => zlen b = entry_count a) (take i (vl_key_blocks (mf_layout f))) (take i blocks)) as Hlen.
  { apply Forall2_take, Forall2_same_length_lookup. split; [by eapply Forall2_length, (intact_rows _ _ _ _ Hi)|].
    intros j a b Ha Hbl.
    destruct (intact_block f content blocks data Hi (Z.of_nat j) a (lookup_get_at _ _ _ Ha)) as (b' & Hb' & _ & _ & [? _] & _).
    apply lookup_get_at in Hbl. assert (b' = b) as -> by congruence. done. }
  destruct (concat_consecutive _ _ _ _ _ _ Hfront Hlen) as [-> _]. lia.
Qed.

Lemma builds_to_block fixed (i : nat) :
  0 <= fixed <= 16 * u32_max + 16 -> (i < length blocks)%nat ->
  builds_to (build_block f (Z.of_nat i)) (built fixed (concat (take i blocks)))
    (fun _ => built fixed (concat (take (Datatypes.S i) blocks))).
Proof.
  intros Hfixed Hlt. destruct (lookup_lt_is_Some_2 blocks i Hlt) as [entries He].
  destruct (Forall2_lookup_r _ _ _ _ _ (intact_rows _ _ _ _ Hi) He) as (block & Hb & _).
  pose proof (rows_before i block Hb) as Hbefore. rewrite (take_S_r _ _ _ He), concat_app. cbn [concat]. rewrite app_nil_r.
  assert (rows = concat (take i blocks) ++ entries ++ concat (drop (Datatypes.S i) blocks)) as E.
  { rewrite <- (take_drop_middle _ _ _ He) at 1. by rewrite concat_app. }
  destruct (intact_block f content blocks data Hi (Z.of_nat i) block (lookup_get_at _ _ _ Hb)) as (entries' & He' & _ & _ & [Hn _] & _).
  apply lookup_get_at in He. assert (entries' = entries) as -> by congruence. cbn in Hn.
  pose proof (total_rows f content blocks data Hi) as Htotal. rewrite E, !length_app in Htotal.
  destruct (id (intact_file _ _ _ _ Hi)) as (_ & _ & Hl & _). destruct (layout_key_blocks _ _ _ _ Hl) as (_ & [_ Hmax] & _ & _).
  fold (mdict_len f) in Hmax. change u64_max with usize_max in Hmax.
  unfold build_block. rewrite (lookup_get_at _ _ _ Hb). eapply builds_to_bind; [by apply (builds_to_lift _ _ (fun a => fun b => a = block /\ built fixed (concat (take i blocks)) b))|].
  intros block'. eapply builds_to_bind.
  { eapply builds_to_mono; [eapply (builds_to_core _ (fun b => block' = block /\ built fixed (concat (take i blocks)) b));
      by apply (serves_decode_key_block granted f content blocks data Hi)|done|intros arc b Hab; exact Hab]. }
  intros arc. apply builds_to_assume. intros Earc. apply builds_to_assume. intros ->. apply builds_to_with. rewrite Earc. eapply builds_to_bind; [by eapply builds_to_rows|]. intros [].
  intros s b Hs Hbuilt. apply wpM_bind. unfold get_builder at 1, wpM at 1. cbn [fst snd].
  destruct (id Hbuilt) as ((_ & _ & Hd) & _). rewrite Hd, !length_map, length_app.
  unfold check_row_count. rewrite checked_add_granted by (change u64_max with usize_max; lia). cbn [ok_or rbind].
  unfold try_usize. rewrite (proj2 (Z.leb_le _ usize_max)) by lia. cbn [ok_or rbind].
  rewrite (proj2 (Z.eqb_eq _ _)) by lia. done.
Qed.

Lemma builds_to_blocks fixed (i k : nat) :
  0 <= fixed <= 16 * u32_max + 16 -> (i + k = length blocks)%nat ->
  builds_to (build_blocks f (seqZ (Z.of_nat i) (Z.of_nat k))) (built fixed (concat (take i blocks)))
    (fun _ => built fixed rows).
Proof.
  intros Hfixed. revert i; induction k as [|k IH]; intros i Hik.
  - rewrite take_ge by lia. by intros s b Hs Hb.
  - rewrite seqZ_cons by lia. cbn [build_blocks]. eapply builds_to_bind; [apply builds_to_block; [done|lia]|].
    intros []. specialize (IH (Datatypes.S i) ltac:(lia)).
    replace (Z.succ (Z.of_nat i)) with (Z.of_nat (Datatypes.S i)) by lia.
    replace (Z.pred (Z.of_nat (Datatypes.S k))) with (Z.of_nat k) by lia. exact IH.
Qed.

Lemma push_indexes_granted l : Forall (fun i => i <= u32_max) l -> push_indexes l = Ok l.
Proof.
  induction 1 as [|i l Hl _ IH]; [done|]. cbn [push_indexes]. unfold try_u32.
  rewrite (proj2 (Z.leb_le _ u32_max)) by done. cbn [ok_or rbind]. by rewrite IH.
Qed.

(** The index of the dictionary. *)
Lemma finish_granted fixed b :
  mdict_len f <= u32_max -> built fixed rows b ->
  exists l, finish_locator (mdict_len f) b = Ok l /\ locator_of n (map row_key rows) l.
Proof.
  intros Hmax (Hb & _). pose proof (wp_finish_locator f (mdict_len f) _ b Hb) as Hw.
  pose proof (total_rows f content blocks data Hi) as Htotal. destruct (id Hb) as (_ & _ & Hd).
  assert (4 * u32_max <= isize_max /\ u32_max <= isize_max) as [? ?] by done.
  assert (exists l, finish_locator (mdict_len f) b = Ok l) as [l Hl].
  { unfold finish_locator. rewrite Hd, !length_map, Htotal, Z.eqb_refl. cbn [negb].
    rewrite try_reserve_vec_Ok by (first [apply granted|unfold size_of_u32; lia]). cbn [rbind].
    rewrite push_indexes_granted; [by eexists|]. apply Forall_seqZ. lia. }
  rewrite Hl in Hw. exists l. split; [done|apply Hw].
Qed.

Lemma builds_to_locator fixed :
  0 <= fixed <= 16 * u32_max + 16 -> mdict_len f <= u32_max ->
  builds_to (fill_locator f (mdict_len f)) (built fixed []) (fun l _ => locator_of n (map row_key rows) l).
Proof.
  intros Hfixed Hmax. assert (4 * (u32_max + 1) <= isize_max /\ u32_max + 1 <= isize_max) as [? ?] by done.
  pose proof (total_rows f content blocks data Hi) as Htotal. unfold fill_locator.
  rewrite !try_reserve_vec_Ok by (first [apply granted|unfold size_of_u32; lia]).
  eapply builds_to_bind; [by apply (builds_to_lift _ _ (fun _ => built fixed []))|]. intros [].
  eapply builds_to_bind; [by apply (builds_to_lift _ _ (fun _ => built fixed []))|]. intros [].
  eapply builds_to_bind.
  { unfold key_block_count. apply (builds_to_blocks fixed 0 (length (vl_key_blocks (mf_layout f)))); [done|].
    by rewrite (Forall2_length _ _ _ (intact_rows _ _ _ _ Hi)). }
  intros []. intros s b Hs Hb. apply wpM_bind. unfold get_builder at 1, wpM at 1.
  destruct (finish_granted fixed b Hmax Hb) as (l & -> & Hl). done.
Qed.

Lemma locator_sizes_served :
  match locator_sizes f with
  | Ok (count, fixed) => count = mdict_len f /\ mdict_len f <= u32_max /\ 0 <= fixed <= 16 * u32_max + 16
  | Err e => over_limit e
  | _ => False
  end.
Proof.
  pose proof (total_rows f content blocks data Hi) as Htotal.
  assert (16 * u32_max + 16 <= usize_max) by done. change usize_max with u64_max in *. unfold locator_sizes.
  destruct (Z.ltb_spec (Z.min (locator_entries (mf_limits f)) u32_max) (mdict_len f)); [by eexists _, _, _|].
  rewrite checked_usize_granted by (change usize_max with u64_max; lia). cbn [rbind].
  rewrite checked_add_granted by lia. cbn [ok_or rbind]. rewrite checked_mul_granted by lia. cbn [ok_or rbind].
  rewrite checked_add_granted by lia. cbn [base.mbind option_bind].
  rewrite checked_mul_granted by (unfold size_of_u32; lia). cbn [ok_or rbind].
  unfold enforce_locator_size. destruct (_ <? _); cbn [rbind]; [by eexists _, _, _|]. unfold size_of_u32. lia.
Qed.

Lemma serves_build_locator : serves (build_key_locator f) (locator_of n (map row_key rows)).
Proof.
  unfold build_key_locator. eapply serves_limit; [apply locator_sizes_served|]. intros [count fixed] (-> & Hmax & Hfixed).
  eapply serves_bind; [apply serves_reserve|]. intros ? -> s Hs.
  set (b0 := {| lb_text := []; lb_bounds := [0]; lb_digests := []; lb_estimated := fixed; lb_previous := None; lb_memory := fixed |}).
  assert (built fixed [] b0) as Hb0 by (split_and!; try done; cbn; lia).
  pose proof (builds_to_locator fixed Hfixed Hmax s b0 Hs Hb0) as Hb. unfold wpM in *.
  destruct (fill_locator f (mdict_len f) (s, b0)) as [[l|e| |] [s' b']]; try done; cbn [fst snd] in Hb; destruct Hb; by split.
Qed.

(** [key_locator] *)
Lemma serves_key_locator : serves (key_locator f) (fun arc => locator_of n (map row_key rows) (arc_value arc)).
Proof.
  unfold key_locator. eapply serves_bind; [apply serves_read_state|]. intros cell (s & (_ & _ & Hs) & ->).
  destruct (cs_locator s) as [[locator|failure]|]; cbn [slot_served cached_locator] in *.
  { eapply serves_mono; [apply serves_arc_clone|]. by intros ? ->. }
  { by apply serves_err, replay_limit. }
  eapply serves_bind; [apply serves_read_state|]. intros cell (s' & (_ & _ & Hs') & ->).
  destruct (cs_locator s') as [[locator|failure]|]; cbn [slot_served cached_locator] in *.
  { eapply serves_mono; [apply serves_arc_clone|]. by intros ? ->. }
  { by apply serves_err, replay_limit. }
  eapply serves_bind; [apply serves_attempt, serves_build_locator|]. intros [locator|error] Hl.
  - eapply serves_bind; [by apply serves_arc_new|]. intros arc Harc.
    eapply serves_bind; [apply serves_arc_clone|]. intros ? ->.
    eapply serves_bind; [by apply serves_set_locator|]. intros _ _. by apply serves_ret.
  - eapply serves_bind; [by apply serves_capture|]. intros captured Hcap.
    eapply (serves_bind _ _ _ _ _ (fun _ => True)); [destruct captured; [by apply serves_set_locator|by apply serves_ret]|].
    intros _ _. by apply serves_err.
Qed.

(** * Lookups *)

#[local] Notation keys := (map row_key rows).

Lemma key_at_row ordinal row : get_at rows ordinal = Some row -> key_at keys ordinal = row_key row.
Proof.
  intros Hrow. unfold key_at, get_at in *. destruct (0 <=? ordinal); [|done]. by rewrite list_lookup_fmap, Hrow.
Qed.

Lemma located_row l position row :
  locator_of n keys l -> get_at (kl_order l) position = Some row ->
  0 <= row < mdict_len f /\ get_at (kl_raw_digest l) row = Some (raw_digest (key_at keys row)).
Proof.
  intros (_ & _ & Hd & Hp & _) Hrow. pose proof (total_rows f content blocks data Hi) as Htotal.
  assert (0 <= row < zlen keys) as Hr.
  { apply get_at_elem_of in Hrow. rewrite Hp in Hrow. apply elem_of_seqZ in Hrow. lia. }
  rewrite length_map, Htotal in Hr. split; [done|]. rewrite Hd. unfold key_at, get_at.
  rewrite (proj2 (Z.leb_le 0 row)) by lia. rewrite list_lookup_fmap.
  destruct (keys !! Z.to_nat row) as [key|] eqn:E; [done|]. apply lookup_ge_None in E. rewrite length_map in E. lia.
Qed.

(** One probe decides raw equality. *)
Lemma serves_raw_exact_row l query position row :
  mdict_len f <= u32_max -> locator_of n keys l -> get_at (kl_order l) position = Some row ->
  serves (raw_exact_row f l query (raw_digest query) position) (fun r =>
    r = if bytes_eqb (key_at keys row) query then Some row else None).
Proof.
  intros Hmax Hl Hrow. destruct (located_row l position row Hl Hrow) as [Hr Hd].
  assert (u32_max <= usize_max) by done. unfold raw_exact_row. rewrite Hrow. eapply serves_step; [done|].
  unfold try_usize. rewrite (proj2 (Z.leb_le _ usize_max)) by lia. eapply serves_step; [done|].
  rewrite Hd. eapply serves_step; [done|]. destruct (Z.eqb_spec (raw_digest (key_at keys row)) (raw_digest query)) as [Ed|Ed]; cbn [negb].
  - eapply serves_bind; [apply (serves_key_entry granted f content blocks data Hi); lia|].
    intros [hit|] Hhit; [|lia]. destruct Hhit as (block & entry & _ & _ & _ & _ & Hentry & Hall). apply serves_with_arc.
    rewrite Hentry. eapply serves_step; [done|]. apply serves_ret. by rewrite (key_at_row _ _ Hall).
  - apply serves_ret. destruct (bytes_eqb _ _) eqn:E; [|done]. apply bytes_eqb_true in E. by rewrite E in Ed.
Qed.

Lemma serves_raw_exact_loop l query positions found matches :
  mdict_len f <= u32_max -> locator_of n keys l -> positions_of l positions found ->
  zlen matches + zlen positions <= u32_max ->
  serves (raw_exact_loop f l query (raw_digest query) positions matches) (fun r => r = matches ++ exact_of keys query found).
Proof.
  intros Hmax Hl Hp. assert (4 * (u32_max + 1) <= isize_max /\ u32_max + 1 <= isize_max) as [? ?] by done.
  revert matches; induction Hp as [|p row positions found Hrow _ IH]; intros matches Hlen; cbn [raw_exact_loop].
  { apply serves_ret. by rewrite app_nil_r. }
  cbn [length] in Hlen. eapply serves_bind; [by apply serves_raw_exact_row|]. intros ? ->. rewrite exact_of_cons.
  destruct (bytes_eqb _ _).
  - eapply (serves_bind _ _ _ _ _ (fun m => m = matches ++ [row])).
    + eapply serves_step; [apply try_reserve_vec_Ok; first [apply granted|unfold size_of_u32; lia]|]. by apply serves_ret.
    + intros ? ->. rewrite app_assoc. apply IH. rewrite length_app. simpl. lia.
  - eapply (serves_bind _ _ _ _ _ (fun m => m = matches)); [by apply serves_ret|]. intros ? ->. apply IH. lia.
Qed.

Lemma serves_raw_exact l query start end_ :
  mdict_len f <= u32_max -> locator_of n keys l ->
  slice (kl_order l) start end_ = Some (matching n keys (normalized n query)) ->
  serves (raw_exact_within f l start end_ query) (fun r =>
    r = match raw_matching keys query with [] => None | exact => Some exact end).
Proof.
  intros Hmax Hl Hs. pose proof (slice_length _ _ _ _ Hs) as Hlen. pose proof (proj1 (slice_Some _ _ _ _) Hs) as [[? Hend] _].
  destruct (id Hl) as (_ & _ & _ & Hp & _). apply Permutation_length in Hp.
  rewrite length_seqZ, length_map in Hp. pose proof (total_rows f content blocks data Hi) as Htotal.
  unfold raw_exact_within.
  eapply serves_bind; [apply (serves_raw_exact_loop l query _ (matching n keys (normalized n query)));
    [done|done|by apply positions_of_slice|rewrite length_seqZ; simpl; lia]|].
  intros ? ->. cbn [app]. unfold exact_of. rewrite (raw_in_matching f).
  destruct (raw_matching keys query) as [|row rest] eqn:E; [by apply serves_ret|]. apply serves_ret. f_equal.
  rewrite <- E. apply merge_sort_sorted, filter_sorted, seqZ_sorted.
Qed.

Lemma serves_with_normalized {A} query context (body : text -> M CoreState A) P :
  text_fits f query -> serves (body (normalized n query)) P -> serves (with_normalized f query context body) P.
Proof.
  intros Hq Hb. unfold with_normalized. eapply serves_step; [by apply (normalized_len_fits f)|].
  eapply (serves_limit _ _ _ _ _ (fun _ => True)).
  { unfold ensure_usize_limit. destruct (_ <? _); [by eexists _, _, _|done]. }
  intros _ _. apply serves_scoped. eapply serves_step; [by apply (normalize_fits granted f)|]. done.
Qed.

(** What a lookup finds. *)
Definition finds (query : text) (r : option LocatedKeys) : Prop :=
  match r, locate_spec n keys query with
  | Some k, Some (basis, ordinals) => lk_basis k = basis /\ denotes k ordinals
  | None, None => True
  | _, _ => False
  end.

(** [locate_keys] *)
Lemma serves_locate query : mdict_len f <= u32_max -> text_fits f query -> serves (locate_keys f query) (finds query).
Proof.
  intros Hmax Hq. unfold locate_keys. eapply serves_bind; [apply serves_key_locator|]. intros locator Hl.
  apply serves_or_drop_arc, serves_with_normalized; [done|].
  pose proof (equal_range_spec n keys (arc_value locator) (normalized n query) Hl) as Hrange.
  destruct (equal_range _ _) as [[start end_]|]; unfold finds, locate_spec.
  - destruct Hrange as [Hse Hs]. pose proof (slice_length _ _ _ _ Hs) as Hlen.
    eapply serves_bind; [by apply serves_raw_exact|]. intros exact ->.
    destruct (matching n keys (normalized n query)) as [|o m] eqn:Em; [simpl in Hlen; lia|].
    destruct (raw_matching keys query) as [|x exact] eqn:Er.
    + apply serves_ret. split; [done|].
      destruct (id Hl) as (_ & _ & _ & Hp & _). apply Permutation_length in Hp. rewrite length_seqZ, length_map in Hp.
      pose proof (total_rows f content blocks data Hi). pose proof (proj1 (slice_Some _ _ _ _) Hs) as [[_ Hend] _].
      assert (u32_max <= u64_max) by done. by apply (denotes_range f); [lia|lia|].
    + eapply serves_bind; [apply serves_drop_handle|]. intros _ _. by apply serves_ret.
  - eapply serves_bind; [apply serves_drop_handle|]. intros _ _. apply serves_ret. by rewrite Hrange.
Qed.

(** * Pages, prefixes and case variants *)

(** The index of an intact dictionary is the one the lookups expect. *)
Lemma intact_index l : mdict_len f <= u32_max -> locator_of n keys l -> index_of f keys l.
Proof.
  intros Hmax Hl. pose proof (total_rows f content blocks data Hi) as Htotal. split; [done|].
  rewrite length_map, Htotal. split_and!; [done|done| |].
  - apply Forall_map, Forall_concat, Forall_lookup. intros i rs Hrs.
    destruct (Forall2_lookup_r _ _ _ _ _ (intact_rows _ _ _ _ Hi) Hrs) as (block & Hb & _).
    destruct (intact_block f content blocks data Hi (Z.of_nat i) block (lookup_get_at _ _ _ Hb)) as (rs' & Hrs' & _ & _ & (_ & Hok & _) & _).
    apply lookup_get_at in Hrs. assert (rs' = rs) as -> by congruence.
    eapply Forall_impl; [exact Hok|]. by intros r [? _].
  - intros content' modified' Hst'. destruct (intact_stable _ _ _ _ Hi) as [modified Hst].
    assert (content' = content) as ->.
    { pose proof (proj2 Hst 0%nat) as E1. pose proof (proj2 Hst' 0%nat) as E2. congruence. }
    exists rows. split; [|done]. unfold all_rows. by rewrite (proj2 (decode_all_Forall2 _ _ _) (intact_rows _ _ _ _ Hi)).
Qed.

(** The rows of a range are not more than those of the dictionary. *)
Lemma range_size l start end_ found :
  locator_of n keys l -> slice (kl_order l) start end_ = Some found -> 0 <= start /\ end_ <= mdict_len f /\ zlen found = end_ - start.
Proof.
  intros Hl Hs. destruct (id Hl) as (_ & _ & _ & Hp & _). apply Permutation_length in Hp.
  rewrite length_seqZ, length_map in Hp. pose proof (total_rows f content blocks data Hi).
  pose proof (slice_length _ _ _ _ Hs). apply slice_Some in Hs as [[? ?] _]. lia.
Qed.

Lemma serves_page_exact_loop l query offset limit positions found seen :
  mdict_len f <= u32_max -> locator_of n keys l -> positions_of l positions found -> 0 <= offset -> 0 <= limit ->
  zlen seen + zlen positions <= u32_max ->
  serves (page_exact_loop f l query (raw_digest query) offset limit positions (zlen seen) (page_of offset limit seen)) (fun r =>
    r = (zlen (seen ++ exact_of keys query found), page_of offset limit (seen ++ exact_of keys query found))).
Proof.
  intros Hmax Hl Hp Ho Hlim. assert (u32_max + 1 <= u64_max) by done.
  revert seen; induction Hp as [|p row positions found Hrow _ IH]; intros seen Hlen; cbn [page_exact_loop].
  { apply serves_ret. by rewrite app_nil_r. }
  cbn [length] in Hlen. eapply serves_bind; [by apply serves_raw_exact_row|]. intros ? ->. rewrite exact_of_cons.
  destruct (bytes_eqb _ _); [|apply IH; lia].
  eapply serves_step; [rewrite checked_add_granted by lia; done|]. rewrite <- page_of_snoc by done.
  replace (zlen seen + 1) with (zlen (seen ++ [row])) by (rewrite length_app; simpl; lia).
  rewrite app_assoc. apply IH. rewrite length_app. simpl. lia.
Qed.

Lemma serves_fill_page l query start end_ offset limit bytes :
  mdict_len f <= u32_max -> locator_of n keys l -> 0 <= start < end_ -> 0 <= offset -> 0 <= limit ->
  slice (kl_order l) start end_ = Some (matching n keys (normalized n query)) ->
  serves (fill_page f l query start end_ offset limit bytes) (fun p =>
    lp_reservation p = Some bytes /\ Some (page_content p) = page_spec n keys query offset limit).
Proof.
  intros Hmax Hl Hse Ho Hlim Hs. destruct (range_size _ _ _ _ Hl Hs) as (_ & Hend & Hlen).
  assert (4 * (u32_max + 1) <= isize_max /\ u32_max <= u64_max) as [? ?] by done. unfold fill_page.
  eapply serves_step; [apply try_reserve_vec_Ok; first [apply granted|unfold size_of_u32, saturating_sub; lia]|].
  pose proof (positions_of_slice f _ _ _ _ Hs) as Hpos.
  pose proof (serves_page_exact_loop l query offset limit _ _ [] Hmax Hl Hpos Ho Hlim) as Hk.
  unfold page_of in Hk at 1. rewrite drop_nil, take_nil in Hk.
  eapply serves_bind; [apply Hk; rewrite length_seqZ; simpl; lia|]. intros ? ->. cbv beta iota.
  cbn [app]. unfold exact_of. rewrite (raw_in_matching f).
  assert (matching n keys (normalized n query) <> []) as Hne by (intros E; rewrite E in Hlen; simpl in Hlen; lia).
  unfold page_spec, locate_spec. destruct (raw_matching keys query) as [|x exact] eqn:Er.
  - pose proof (page_slice f _ _ _ _ offset limit Hs Ho Hlim ltac:(lia)) as Hpage. cbv zeta in Hpage.
    cbn [length]. change (Z.of_nat 0 =? 0) with true. cbn [negb].
    eapply serves_step; [by rewrite (copy_order_spec _ _ _ _ (positions_of_slice f _ _ _ _ Hpage))|].
    apply serves_ret. split; [done|]. destruct (matching n keys _) as [|row m]; [done|].
    unfold page_content. cbn [lp_basis lp_total lp_ordinals app base.mbind option_bind]. by rewrite Hlen.
  - rewrite (proj2 (Z.eqb_neq _ _)) by (cbn [length]; lia). cbn [negb]. apply serves_ret. split; [done|].
    by destruct (matching n keys _).
Qed.

(** [locate_key_page] *)
Lemma serves_locate_key_page query offset limit :
  mdict_len f <= u32_max -> text_fits f query -> 0 <= offset -> 0 <= limit ->
  serves (locate_key_page f query offset limit) (fun r => page_content <$> r = page_spec n keys query offset limit).
Proof.
  intros Hmax Hq Ho Hlim. unfold locate_key_page. eapply serves_bind; [apply serves_key_locator|]. intros locator Hl.
  apply serves_with_arc, serves_with_normalized; [done|].
  pose proof (equal_range_spec n keys (arc_value locator) (normalized n query) Hl) as Hrange.
  destruct (equal_range _ _) as [[start end_]|].
  - destruct Hrange as [Hse Hs]. destruct (range_size _ _ _ _ Hl Hs) as (_ & Hend & _).
    assert (4 * (u32_max + 1) <= u64_max) by done. unfold size_of_u32.
    eapply serves_step; [rewrite checked_mul_granted by (unfold saturating_sub; lia); done|].
    eapply (serves_limit _ _ _ _ _ (fun _ => True)).
    { unfold ensure_usize_limit. destruct (_ <? _); [by eexists _, _, _|done]. }
    intros _ _. eapply serves_bind; [by apply serves_retained, serves_fill_page|]. intros p [_ Hp]. by apply serves_ret.
  - apply serves_ret. unfold page_spec, locate_spec. by rewrite Hrange.
Qed.

Lemma prefix_loop_fits l p limit rest found :
  zlen found + zlen rest <= u32_max -> exists r, prefix_loop l p limit rest found = Ok r.
Proof.
  assert (8 * (u32_max + 1) <= isize_max /\ u32_max + 1 <= isize_max) as [? ?] by done.
  revert found. induction rest as [|row rest IH]; intros found Hlen; cbn [prefix_loop]; [by eexists|].
  cbn [length] in Hlen. destruct (negb _); [by eexists|].
  rewrite try_reserve_vec_Ok by (first [apply granted|unfold size_of_key_ordinal; lia]). cbn [rbind].
  destruct (_ =? limit); [by eexists|]. apply IH. rewrite length_app. simpl. lia.
Qed.

(** [locate_prefix] *)
Lemma serves_locate_prefix prefix limit :
  mdict_len f <= u32_max -> text_fits f prefix -> 0 <= limit ->
  serves (locate_prefix f prefix limit) (fun found =>
    limit = 0 /\ found = [] \/ 0 < limit /\ prefix_spec n keys (normalized n prefix) limit found).
Proof.
  intros Hmax Hq Hlim. unfold locate_prefix. destruct (Z.eqb_spec limit 0) as [|Hne]; [apply serves_ret; by left|].
  eapply serves_bind; [apply serves_key_locator|]. intros locator Hl.
  apply serves_with_arc, serves_with_normalized; [done|]. cbv zeta.
  cbv beta in Hl. set (l := arc_value locator) in *. set (start := partition_point _ (kl_order l)).
  pose proof (wp_prefix_search f keys l (normalized n prefix) limit (intact_index l Hmax Hl) ltac:(lia)) as Hw.
  cbv zeta in Hw. fold start in Hw.
  destruct (prefix_loop_fits l (normalized n prefix) limit (drop (Z.to_nat start) (kl_order l)) []) as [found Hfound].
  { destruct (id Hl) as (_ & _ & _ & Hp & _). apply Permutation_length in Hp. rewrite length_seqZ, length_map in Hp.
    pose proof (total_rows f content blocks data Hi). rewrite length_drop. cbn [length]. lia. }
  rewrite Hfound in Hw. eapply serves_lift; [exact Hfound|]. right. split; [lia|exact Hw].
Qed.

(** ** Case variants *)

(** The closure of [locate_case_variants] reports its candidates. *)
Definition reported_as (source_key : Z -> M CoreState (Z * KeyEntry)) (positions found : list Z) : Prop :=
  Forall2 (fun position row => serves (source_key position) (fun r => fst r = row /\ ke_key (snd r) = key_at keys row)) positions found.

Lemma serves_increment {B} x (k : Z -> M CoreState B) Q : x < u64_max -> serves (k (x + 1)) Q -> serves (let! y := lift (increment x) in k y) Q.
Proof.
  intros ? Hk. eapply serves_step; [|exact Hk]. unfold increment. by rewrite checked_add_granted by lia.
Qed.

Lemma serves_classify_loop query source_key offset limit positions found exact variants :
  reported_as source_key positions found -> 0 <= offset -> 0 <= limit ->
  zlen exact + zlen variants + zlen positions <= u64_max ->
  serves (classify_loop query offset limit source_key positions (zlen exact) (zlen variants) (page_of offset limit exact))
    (fun r => r = (zlen (exact ++ exact_of keys query found), zlen (variants ++ variants_of keys query found),
                   page_of offset limit (exact ++ exact_of keys query found))).
Proof.
  intros Hp Ho Hl. revert exact variants; induction Hp as [|p row positions found Hrow _ IH];
    intros exact variants Hmax; cbn [classify_loop].
  { apply serves_ret. by rewrite !app_nil_r. }
  eapply serves_bind; [exact Hrow|]. intros [ordinal key] [Eo Hk]. cbn [fst snd length] in *. subst ordinal. cbv beta iota.
  rewrite exact_of_cons, variants_of_cons. unfold is_variant. rewrite <- Hk.
  destruct (bytes_eqb (ke_key key) query); [|destruct (equal_ignoring_case (ke_key key) query)]; cbn [negb andb].
  - rewrite <- page_of_snoc by done. apply serves_increment; [lia|].
    replace (zlen exact + 1) with (zlen (exact ++ [row])) by (rewrite length_app; simpl; lia).
    rewrite app_assoc. apply IH. rewrite length_app. simpl. lia.
  - apply serves_increment; [lia|].
    replace (zlen variants + 1) with (zlen (variants ++ [row])) by (rewrite length_app; simpl; lia).
    rewrite (app_assoc variants). apply IH. rewrite length_app. simpl. lia.
  - apply IH. lia.
Qed.

Lemma serves_variant_loop query source_key wanted variant_offset positions found vp ordinals :
  reported_as source_key positions found -> zlen ordinals < wanted -> 0 <= vp -> vp + zlen positions <= u64_max ->
  serves (variant_loop query wanted variant_offset source_key positions vp ordinals) (fun r =>
    r = ordinals ++ take (Z.to_nat (wanted - zlen ordinals)) (drop (Z.to_nat (variant_offset - vp)) (variants_of keys query found))).
Proof.
  intros Hp; revert vp ordinals; induction Hp as [|p row positions found Hrow _ IH];
    intros vp ordinals Hlen Hvp Hmax; cbn [variant_loop].
  { apply serves_ret. unfold variants_of; simpl. by rewrite drop_nil, take_nil, app_nil_r. }
  eapply serves_bind; [exact Hrow|]. intros [ordinal key] [Eo Hk]. cbn [fst snd length] in *. subst ordinal. cbv beta iota.
  fold (is_variant query (ke_key key)). rewrite variants_of_cons, <- Hk.
  destruct (is_variant query (ke_key key)); [|apply IH; lia].
  destruct (Z.leb_spec variant_offset vp); cbn [andb].
  - replace (Z.to_nat (variant_offset - vp)) with 0%nat by lia. rewrite drop_0. rewrite length_app. cbn [length app].
    destruct (Z.eqb_spec (Z.of_nat (length ordinals + 1)) wanted).
    + apply serves_ret. by replace (Z.to_nat (wanted - zlen ordinals)) with 1%nat by lia.
    + apply serves_increment; [lia|]. eapply serves_mono; [apply IH; rewrite ?length_app; simpl; lia|].
      intros r ->. rewrite length_app, <- app_assoc. cbn [length app].
      replace (Z.to_nat (variant_offset - (vp + 1))) with 0%nat by lia.
      by replace (Z.to_nat (wanted - zlen ordinals))
        with (Datatypes.S (Z.to_nat (wanted - Z.of_nat (length ordinals + 1)))) by lia.
  - apply serves_increment; [lia|]. eapply serves_mono; [apply IH; lia|]. intros r ->. cbn [app].
    by replace (Z.to_nat (variant_offset - vp)) with (Datatypes.S (Z.to_nat (variant_offset - (vp + 1)))) by lia.
Qed.

(** [select_page] *)
Lemma serves_select_page query source_key m offset limit :
  reported_as source_key (seqZ 0 (zlen m)) m -> zlen m <= u32_max -> 0 <= offset -> 0 <= limit ->
  serves (select_page f query (zlen m) offset limit source_key) (fun r =>
    page_content <$> r = select_spec keys query offset limit m).
Proof.
  intros Hall Hm Ho Hl. assert (8 * (u32_max + 1) <= isize_max /\ isize_max <= u64_max) as [? ?] by done.
  unfold select_page, size_of_u32.
  eapply serves_step; [rewrite checked_mul_granted by (unfold saturating_sub; lia); done|].
  eapply (serves_limit _ _ _ _ _ (fun _ => True)).
  { unfold ensure_usize_limit. destruct (_ <? _); [by eexists _, _, _|done]. }
  intros _ _. apply serves_retained. unfold select_within, size_of_u32.
  eapply serves_step; [apply try_reserve_vec_Ok; first [apply granted|unfold saturating_sub; lia]|].
  assert (zlen (seqZ 0 (zlen m)) = zlen m) as Hlen by (rewrite length_seqZ; lia).
  pose proof (serves_classify_loop query source_key offset limit _ _ [] [] Hall Ho Hl) as Hc. rewrite Hlen in Hc.
  unfold page_of in Hc at 1. rewrite drop_nil, take_nil in Hc.
  eapply serves_bind; [apply Hc; cbn [length]; lia|]. intros ? ->. cbv beta iota. cbn [app].
  set (exact := exact_of keys query m). set (variants := variants_of keys query m).
  assert (zlen exact + zlen variants <= zlen m) as Hsum.
  { pose proof (select_length f keys query m) as Hs. unfold exact, variants. lia. }
  eapply serves_step; [rewrite checked_add_granted by lia; done|].
  unfold select_spec. fold exact variants.
  destruct (Z.eqb_spec (zlen exact + zlen variants) 0).
  - intros s Hs. split; [|by apply serving_drop].
    destruct exact, variants; cbn [length app] in *; done || lia.
  - eapply (serves_bind _ _ _ _ _ (fun os => os = page_of offset limit (exact ++ variants))).
    + rewrite page_of_two by done.
      destruct (Z.ltb_spec (zlen (page_of offset limit exact)) (Z.min limit (saturating_sub (zlen exact + zlen variants) offset))).
      * apply serves_variant_loop; [done|done|done|lia].
      * by apply serves_ret.
    + intros os ->. apply serves_ret. unfold page_content. cbn [fmap option_fmap option_map lp_basis lp_total lp_ordinals].
      destruct exact, variants; cbn [length app] in *; try (exfalso; lia); repeat f_equal; rewrite ?length_app; cbn [length]; lia.
Qed.

Lemma serves_source_key l start end_ m :
  locator_of n keys l -> 0 <= start -> slice (kl_order l) start end_ = Some m ->
  reported_as (locator_source_key f l start) (seqZ 0 (zlen m)) m.
Proof.
  intros Hl Hstart Hs. apply Forall2_same_length_lookup. split; [rewrite length_seqZ; lia|].
  intros i position row [-> _]%lookup_seqZ Hrow. rewrite Z.add_0_l. apply lookup_get_at in Hrow.
  pose proof (slice_length _ _ _ _ Hs). pose proof (get_at_Some _ _ _ Hrow).
  rewrite (slice_get_at _ _ _ _ (Z.of_nat i) Hs) in Hrow by lia. unfold locator_source_key. rewrite Hrow.
  destruct (located_row l _ row Hl Hrow) as [Hr _]. eapply serves_step; [done|].
  eapply serves_bind; [apply (serves_key_at_ordinal granted f content blocks data Hi); lia|]. intros key ->.
  destruct (get_at_is_Some rows row) as [r Er]; [by rewrite (total_rows f content blocks data Hi)|].
  rewrite Er. eapply serves_step; [done|]. apply serves_ret. cbn [fst snd ke_key]. by rewrite (key_at_row _ _ Er).
Qed.

(** [locate_case_variants] *)
Lemma serves_locate_case_variants query offset limit :
  mdict_len f <= u32_max -> text_fits f query -> 0 <= offset -> 0 <= limit ->
  serves (locate_case_variants f query offset limit) (fun r => page_content <$> r = variants_spec n keys query offset limit).
Proof.
  intros Hmax Hq Ho Hlim. unfold locate_case_variants. eapply serves_bind; [apply serves_key_locator|]. intros locator Hl.
  apply serves_with_arc, serves_with_normalized; [done|].
  pose proof (equal_range_spec n keys (arc_value locator) (normalized n query) Hl) as Hrange.
  destruct (equal_range _ _) as [[start end_]|].
  - destruct Hrange as [Hse Hs]. destruct (range_size _ _ _ _ Hl Hs) as (_ & Hend & Hlen). rewrite <- Hlen.
    apply serves_select_page; [by eapply serves_source_key; [|lia|]|lia|done|done].
  - apply serves_ret. unfold variants_spec. by rewrite Hrange.
Qed.

End Index.
