(* ===== verification/IntactReads.v ===== *)
(** Reading intact dictionaries: the entries of an MDX file and the resources
    of an MDD file, by ordinal, by key and in order; batches of keys and the
    lookups under a matching mode. *)

From stdpp Require Import list_numbers sorting.
From S2P Require Import Prelude Errors Types Budget Utf8 Encoding Source Compression Descriptors Header KeySection Format Normalize LocatorIndex Arcs Core Dictionary Keys Records Iter Locator Locate CaseVariants Lookup Mdx Mdd WrittenHeader Intact IntactRecords IntactLocator.

(** * The rules of match sets *)

Section Rules.

Context `{Env} (f : MdictFile) (blocks : list (list DecodedKeyRow)) (data : list bytes).

Lemma serving_drop_located k s : serving f blocks data s -> serving f blocks data (drop_located k s).
Proof. intros Hs. unfold drop_located. destruct (lk_ordinals k) as [|? [|]]; [by apply serving_arc_drop..|done]. Qed.

Lemma serves_with_located {A} k (m : M CoreState A) P : serves f blocks data m P -> serves f blocks data (with_located k m) P.
Proof.
  intros Hm s Hs. specialize (Hm s Hs). unfold wpM, with_located in *.
  destruct (m s) as [[] s']; try done; destruct Hm; split; by try apply serving_drop_located.
Qed.

Lemma serves_traverse {A B} (step : A -> M CoreState B) o (P : B -> Prop) :
  (forall a, o = Some a -> serves f blocks data (step a) P) ->
  serves f blocks data (traverse step o) (fun r => match o, r with None, None => True | Some _, Some b => P b | _, _ => False end).
Proof.
  intros Hs. destruct o as [a|]; [|by apply serves_ret].
  eapply serves_bind; [by apply Hs|]. intros b Hb. by apply serves_ret.
Qed.

End Rules.

Section Reads.

Context `{EnvOk} (granted : forall context n, allocator context n = true) (f : MdictFile) (content : bytes).

Context (blocks : list (list DecodedKeyRow)) (data : list bytes) (Hi : intact f content blocks data).

#[local] Notation serves := (serves f blocks data).

#[local] Notation rows := (concat blocks).

#[local] Notation stream := (concat data).

#[local] Notation total := (vl_total_decoded_record_len (mf_layout f)).

#[local] Notation n := (mf_normalizer f).

(** * Records *)

Lemma stream_ok : bytes_ok stream.
Proof.
  destruct (intact_stable _ _ _ _ Hi) as [modified Hst]. pose proof (intact_file _ _ _ _ Hi) as Hf.
  destruct (id Hf) as (_ & _ & Hl & _). destruct (layout_record_blocks _ _ _ _ Hl) as (Hk & _).
  apply Forall_concat, Forall_lookup. intros i bytes Hb.
  destruct (Forall2_lookup_r _ _ _ _ _ (intact_data _ _ _ _ Hi) Hb) as (block & Hblock & Hbytes).
  rewrite Forall_forall in Hk. destruct (Hk block) as (_ & _ & ?); [by eapply list_elem_of_lookup_2|].
  unfold block_bytes in Hbytes. rinv.
  match goal with Hs : slice _ _ _ = Some ?bb |- _ =>
    pose proof (slice_Forall _ _ _ _ _ Hs (stable_bytes f Hf content modified Hst)) as Hbb;
    pose proof (wp_decode_block "record block" bb (rb_decomp_size block) (mf_limits f)
      (mf_checksum_policy f) Hbb ltac:(done)) as Hw; rewrite Hbytes in Hw; by destruct Hw as (_ & ? & _)
  end.
Qed.

(** The span of a row lies in the stream. *)
Lemma descriptor_span ordinal d :
  row_descriptor total rows ordinal = Some d ->
  text_fits f (ke_key (rd_key d)) /\ 0 <= rd_start d <= rd_end d /\ rd_end d <= total /\
  exists bytes, slice stream (rd_start d) (rd_end d) = Some bytes /\ bytes_ok bytes.
Proof.
  unfold row_descriptor. destruct (get_at rows ordinal) as [row|] eqn:Hrow; [|done]. intros [= <-].
  cbn [rd_key rd_start rd_end row_entry ke_key].
  destruct (row_facts f content blocks data Hi _ _ Hrow) as [Hfit Hs]. split; [done|].
  assert (0 <= record_start row <= default total (record_start <$> get_at rows (ordinal + 1)) /\
          default total (record_start <$> get_at rows (ordinal + 1)) <= total) as [Hse Het].
  { destruct (get_at rows (ordinal + 1)) as [next|] eqn:Hnext; cbn; [|lia].
    destruct (row_facts f content blocks data Hi _ _ Hnext) as [_ ?].
    pose proof (rows_sorted f content blocks data Hi _ _ _ _ Hrow Hnext ltac:(lia)). lia. }
  split_and!; [lia|lia|done|]. destruct (slice_is_Some stream _ _ Hse) as [bytes Hb].
  { by rewrite (stream_length f content blocks data Hi). }
  exists bytes. split; [done|]. eapply slice_Forall; [exact Hb|]. exact stream_ok.
Qed.

(** The sizes [read_entry] computes for a record do not overflow. *)
Definition text_size_fits (len : Z) : Prop :=
  len <= isize_max /\ exists encoding decoded, record_text_encoding f = Ok encoding /\
    max_decoded_len encoding len = Ok decoded /\ len + decoded <= u64_max /\ decoded <= usize_max.

(** Every record of the file is a text. *)
Definition readable : Prop := forall ordinal d, row_descriptor total rows ordinal = Some d ->
  text_size_fits (rd_end d - rd_start d) /\ exists e, entry_of f rows stream ordinal = Some (Ok e).

Lemma text_bytes_fit len :
  0 <= len -> text_size_fits len ->
  match decoded_record_text_bytes f len with Ok _ => True | Err e => over_limit e | _ => False end.
Proof.
  intros ? [? (encoding & decoded & He & Hm & Hsum & Hd)]. assert (isize_max <= usize_max) by done.
  unfold decoded_record_text_bytes. rewrite He. cbn [rbind]. rewrite checked_usize_granted by lia. cbn [rbind].
  unfold ensure_usize_limit. destruct (_ <? len); [by eexists _, _, _|]. cbn [rbind]. rewrite Hm. cbn [rbind].
  destruct (_ <? decoded); [by eexists _, _, _|]. cbn [rbind]. by rewrite checked_add_granted by lia.
Qed.

(** [MdxFile::read_entry] *)
Lemma serves_read_entry ordinal d :
  readable -> row_descriptor total rows ordinal = Some d ->
  serves (read_entry f d) (fun e => entry_of f rows stream ordinal = Some (Ok e)).
Proof.
  intros Hread Hd. destruct (Hread _ _ Hd) as [Hfits [e He]]. destruct (descriptor_span _ _ Hd) as (_ & Hse & Het & bytes & Hb & Hok).
  eapply (serves_mono _ _ _ _ (fun r => r = e)); [|by intros ? ->].
  unfold entry_of in He. rewrite Hd in He. cbn [base.mbind option_bind] in He. rewrite Hb in He.
  cbn [ok_or rbind] in He. injection He as He.
  unfold read_entry, checked_sub. rewrite (proj2 (Z.leb_le _ _)) by lia. eapply serves_step; [done|].
  unfold with_decoded_record_text.
  eapply (serves_limit _ _ _ _ _ (fun _ => True)).
  { pose proof (text_bytes_fit (rd_end d - rd_start d) ltac:(lia) Hfits) as Ht. by destruct (decoded_record_text_bytes _ _). }
  intros size _. apply serves_scoped.
  eapply serves_bind; [apply (serves_read_span granted f content blocks data Hi); [lia|lia|by destruct Hfits]|].
  intros bytes' Hb'. assert (bytes' = bytes) as -> by congruence.
  destruct Hfits as (_ & encoding & _ & Henc & _). eapply serves_step; [exact Henc|].
  unfold decode_record_text, record_text in *.
  rewrite Henc in He. cbn [rbind] in He. rinv.
  match goal with Ht : decode encoding bytes _ = Ok ?t |- _ =>
    pose proof (wp_Ok _ _ _ (wp_decode encoding bytes "mdx record" Hok) Ht) as Htok; rewrite Ht;
    cbn [rbind]; rewrite (proj1 (truncate_trimmed t Htok)) end.
  eapply serves_step; [done|]. by apply serves_ret.
Qed.

(** [MdxFile::entry_at] *)
Lemma serves_entry_at ordinal :
  readable -> 0 <= ordinal -> serves (entry_at f ordinal) (fun r => Ok <$> r = entry_of f rows stream ordinal).
Proof.
  intros Hread Hord. unfold entry_at.
  eapply serves_bind; [by apply (serves_record_at granted f content blocks data Hi)|]. intros d ->.
  eapply serves_mono; [apply serves_traverse; intros d Hd; by apply (serves_read_entry ordinal)|].
  cbv beta. intros r. unfold entry_of. destruct (row_descriptor _ _ _); destruct r; try done; by intros ->.
Qed.

(** * Resources *)

(** The records are allocations of a real machine. *)
Definition spans_fit : Prop := forall ordinal d, row_descriptor total rows ordinal = Some d -> rd_end d - rd_start d <= isize_max.

(** [MddFile::span_at] *)
Lemma serves_span_at ordinal :
  0 <= ordinal -> serves (span_at f ordinal) (fun r => r =
    (fun d => {| ms_key := rd_key d; ms_start := rd_start d; ms_end := rd_end d; ms_len := rd_end d - rd_start d |})
      <$> row_descriptor total rows ordinal).
Proof.
  intros Hord. unfold span_at.
  eapply serves_bind; [by apply (serves_record_at granted f content blocks data Hi)|]. intros d ->.
  destruct (row_descriptor total rows ordinal) as [d|] eqn:Hd; cbn [traverse fmap option_fmap option_map]; [|by apply serves_ret].
  destruct (descriptor_span _ _ Hd) as (_ & Hse & Het & _). unfold span_new.
  rewrite validate_span by done. eapply serves_step; [done|]. by apply serves_ret.
Qed.

(** [MddResourceSpan::read] *)
Lemma serves_span_read ordinal d :
  spans_fit -> row_descriptor total rows ordinal = Some d ->
  serves (span_read f {| ms_key := rd_key d; ms_start := rd_start d; ms_end := rd_end d; ms_len := rd_end d - rd_start d |})
    (fun r => Some r = resource_of f rows stream ordinal).
Proof.
  intros Hspan Hd. destruct (descriptor_span _ _ Hd) as ([Hk _] & Hse & Het & bytes & Hb & _).
  unfold span_read, resource_of. rewrite Hd. cbn [ms_key ms_start ms_end base.mbind option_bind].
  eapply serves_bind; [apply (serves_read_span granted f content blocks data Hi); [lia|lia|by eapply Hspan]|].
  intros out Hout. unfold key_entry_try_clone. rewrite (clone_granted granted) by done. eapply serves_step; [done|].
  apply serves_ret. rewrite Hout. cbn [base.mbind option_bind]. by destruct (rd_key d).
Qed.

(** [MddFile::resource_at] *)
Lemma serves_resource_at ordinal :
  spans_fit -> 0 <= ordinal -> serves (resource_at f ordinal) (fun r => r = resource_of f rows stream ordinal).
Proof.
  intros Hspan Hord. unfold resource_at. eapply serves_bind; [by apply serves_span_at|]. intros span ->.
  destruct (row_descriptor total rows ordinal) as [d|] eqn:Hd; cbn [traverse fmap option_fmap option_map].
  - eapply serves_bind; [by eapply serves_span_read|]. intros r Hr. by apply serves_ret.
  - apply serves_ret. unfold resource_of. by rewrite Hd.
Qed.

(** ** Batches *)

(** A block of an intact dictionary is what the caches promise. *)
Lemma intact_cached i b : get_at blocks i = Some (kb_entries b) -> cached_key_block_at f i b.
Proof.
  intros Hr. pose proof (intact_file _ _ _ _ Hi) as Hf. destruct (intact_stable _ _ _ _ Hi) as [modified Hst].
  pose proof (get_at_Some _ _ _ Hr) as Hrange.
  assert (forall content' modified', stable (mf_source f) content' modified' -> content' = content) as Hsame.
  { intros content' modified' Hst'. pose proof (proj2 Hst 0%nat). pose proof (proj2 Hst' 0%nat). congruence. }
  assert (forall j, 0 <= j < zlen blocks -> exists block rs, get_at (vl_key_blocks (mf_layout f)) j = Some block /\
    get_at blocks j = Some rs /\ block_rows f content block = Ok rs /\ key_rows_ok (key_row_context f block) rs) as Hat.
  { intros j Hj. rewrite <- (Forall2_length _ _ _ (intact_rows _ _ _ _ Hi)) in Hj.
    destruct (get_at_is_Some _ _ Hj) as [block Hb].
    destruct (intact_block f content blocks data Hi j block Hb) as (rs & ? & ? & _ & ? & _). by exists block, rs. }
  destruct (Hat i Hrange) as (block & rs & Hb & Hrs & Hrows & Hok). assert (rs = kb_entries b) as -> by congruence.
  destruct (block_nonempty f content blocks data Hi _ _ Hr) as (first & _ & Hfirst & _). split.
  - exists block. split_and!; try done; [destruct (kb_entries b); [done|simpl; lia]|].
    intros content' modified' Hst'. by rewrite (Hsame _ _ Hst').
  - intros content' modified' Hst' Hne. rewrite (Hsame _ _ Hst').
    destruct (Hat (i - 1)) as (before & previous & Hb' & Hp & Hprev & _); [lia|].
    destruct (block_nonempty f content blocks data Hi _ _ Hp) as (_ & last & _ & Hlast).
    exists previous, last, first. split_and!; [by exists before|done|done|].
    eapply (boundary_sorted f content blocks data Hi); [exact Hp|exact Hr|by apply last_Some_elem_of|by apply head_Some_elem_of].
Qed.

(** The requests of a block can be filled. *)
Lemma fill_results_fits ordinals i b same results :
  get_at blocks i = Some (kb_entries b) -> Forall (fun r => kr_block_index r = i) same ->
  Forall (request_ok f ordinals) same -> length results = length ordinals ->
  exists results', fill_results b same results = Ok results'.
Proof.
  intros Hb. revert results; induction same as [|r same IH]; intros results Hsame Hreq Hlen; [by eexists|].
  apply Forall_cons in Hsame as [Hidx Hsame]. apply Forall_cons in Hreq as [(Hg & _ & block & Hblock & _ & Hrange) Hreq].
  rewrite Hidx in Hblock. destruct (row_place f content blocks data Hi _ _ _ _ Hblock Hb Hrange) as (row & Hrow & Hall).
  destruct (row_facts f content blocks data Hi _ _ Hall) as [[Hfit _] _].
  cbn [fill_results]. rewrite Hrow. cbn [ok_or rbind]. rewrite (Header.clone_granted granted) by done. cbn [rbind].
  destruct (get_at_is_Some results (kr_input_index r)) as [x ->]; [pose proof (get_at_Some _ _ _ Hg); lia|].
  cbn [or_panic rbind]. apply IH; [done|done|by rewrite length_insert].
Qed.

Lemma serves_requests ordinals fuel requests results :
  (length requests < fuel)%nat -> batch_ok f ordinals requests results ->
  serves (serve_requests f fuel requests results) (fun results => Forall2 (key_answer f) ordinals results).
Proof.
  pose proof (intact_file _ _ _ _ Hi) as Hf.
  revert requests results; induction fuel as [|fuel IH]; intros requests results Hfuel Hb; [lia|].
  cbn [serve_requests]. destruct requests as [|r requests].
  - apply serves_ret. destruct Hb as (Hlen & _ & Hcov). apply Forall2_same_length_lookup.
    split; [done|]. intros pos ordinal x Ho Hx.
    destruct (Hcov (Z.of_nat pos) ordinal (lookup_get_at _ _ _ Ho)) as [(y & Hy & ?)|(y & Hy & _)];
      [|by apply not_elem_of_nil in Hy].
    apply lookup_get_at in Hx. congruence.
  - destruct (take_block (kr_block_index r) (r :: requests)) as [same rest] eqn:Et.
    pose proof (take_block_spec _ _ _ _ Et) as [E Hsame].
    assert (length rest < fuel)%nat as Hrest.
    { simpl in Et. rewrite Z.eqb_refl in Et. destruct (take_block _ requests) as [s' r'] eqn:Et'.
      injection Et as <- <-. apply take_block_spec in Et' as [-> _]. simpl in Hfuel.
      rewrite length_app in Hfuel. lia. }
    assert (exists rs, get_at blocks (kr_block_index r) = Some rs) as [rs Hrs].
    { destruct Hb as (_ & Hreq & _). apply Forall_cons in Hreq as [(_ & _ & block & Hblock & _) _].
      destruct (intact_block f content blocks data Hi _ _ Hblock) as (rs & ? & _). by exists rs. }
    rewrite E in Hb. eapply serves_bind; [by apply (serves_decode_key_block granted f content blocks data Hi)|].
    intros entries He. rewrite <- He in Hrs.
    destruct (fill_results_fits ordinals (kr_block_index r) (arc_value entries) same results) as [results' Hfill];
      [done|done|by destruct Hb as (_ & Hreq & _); apply Forall_app in Hreq as [? _]|by destruct Hb|].
    pose proof (wp_fill_results f ordinals _ (arc_value entries) same rest results (intact_cached _ _ Hrs) Hsame Hb) as Hw.
    rewrite Hfill in Hw. eapply (serves_bind _ _ _ _ _ (fun x => x = results')); [by apply serves_with_arc; eapply serves_lift|].
    intros ? ->. by apply IH.
Qed.

(** [keys_at_ordinals] *)
Lemma serves_keys_at ordinals :
  Forall (fun o => 0 <= o) ordinals -> zlen ordinals * 32 <= isize_max ->
  serves (keys_at_ordinals f ordinals) (fun results => results = map (fun o => row_entry o <$> get_at rows o) ordinals).
Proof.
  intros Hpos Hlen. pose proof (intact_file _ _ _ _ Hi) as Hf. destruct (intact_stable _ _ _ _ Hi) as [modified Hst].
  unfold keys_at_ordinals. do 2 (eapply serves_step;
    [apply try_reserve_vec_Ok; first [apply granted|unfold size_of_key_entry_option, size_of_key_request; lia]|]).
  pose proof (key_requests_spec f Hf ordinals [] ordinals eq_refl Hpos) as Hreq. unfold returns in Hreq. cbn [length] in Hreq.
  change (Z.of_nat 0) with 0 in Hreq.
  destruct (key_requests f 0 ordinals) as [requests|e| |]; try done. destruct Hreq as [Hall Hcov].
  eapply serves_step; [done|]. eapply serves_mono.
  - apply (serves_requests ordinals); [lia|].
    pose proof (merge_sort_Permutation request_le requests) as Hp.
    split_and!; [by rewrite length_replicate|by rewrite Hp|].
    intros pos ordinal Hg. pose proof (get_at_Some _ _ _ Hg). destruct (Z.le_gt_cases (mdict_len f) ordinal).
    + left. exists None. split; [|done]. unfold get_at. rewrite (proj2 (Z.leb_le 0 _)) by lia.
      apply lookup_replicate. split; [done|lia].
    + right. destruct (Hcov pos ordinal) as (r & Hr & ?); [lia|done|done|]. exists r. by rewrite Hp.
  - intros results Hres. eapply answers_rows; try done. unfold all_rows.
    by rewrite (proj2 (decode_all_Forall2 _ _ _) (intact_rows _ _ _ _ Hi)).
Qed.

(** * Lookups *)

Context (Harena : zlen (arena n (map row_key rows)) <= u32_max) (Hcount : mdict_len f <= u32_max).

Lemma locate_spec_found keys query basis found : locate_spec n keys query = Some (basis, found) -> found <> [].
Proof.
  unfold locate_spec. destruct (matching n keys _) as [|x m]; [done|].
  by destruct (raw_matching keys query); intros [= _ <-].
Qed.

(** The first row a lookup finds. *)
Definition first_found (query : text) : option Z :=
  match locate_spec n (map row_key rows) query with
  | Some (_, ordinal :: _) => Some ordinal
  | _ => None
  end.

(** Every lookup that reads what it finds first. *)
Lemma serves_first {A} (at_ : Z -> M CoreState (option A)) (P : Z -> option A -> Prop) query :
  text_fits f query -> (forall ordinal, 0 <= ordinal -> serves (at_ ordinal) (P ordinal)) ->
  serves (let! matches := locate_keys f query in
          match matches with
          | None => mret None
          | Some matches => with_located matches (let! first := lift (matches_first matches) in at_ first)
          end)
    (fun r => match first_found query with Some ordinal => P ordinal r | None => r = None end).
Proof.
  intros Hq Hat. eapply serves_bind; [by apply (serves_locate granted f content blocks data Hi Harena)|].
  intros [k|] Hk; unfold finds, first_found in *.
  - destruct (locate_spec n (map row_key rows) query) as [[basis found]|] eqn:El; [|done]. destruct Hk as [_ [Hlen Hd]].
    pose proof (locate_spec_found _ _ _ _ El) as Hne.
    destruct found as [|ordinal found]; [done|]. apply serves_with_located. unfold matches_first. rewrite Hd by lia.
    eapply serves_step; [done|]. apply Hat.
    apply (locate_spec_rows f _ _ _ _ _ ordinal) in El; [lia|apply list_elem_of_here].
  - apply serves_ret. by destruct (locate_spec _ _ _) as [[]|].
Qed.

(** [MdxFile::lookup] *)
Lemma serves_lookup query :
  readable -> text_fits f query ->
  serves (lookup f query) (fun r => match first_found query with
    | Some ordinal => Ok <$> r = entry_of f rows stream ordinal | None => r = None end).
Proof. intros Hread Hq. apply (serves_first _ (fun ordinal r => Ok <$> r = _)); [done|]. intros. by apply serves_entry_at. Qed.

(** [MddFile::lookup] *)
Lemma serves_mdd_lookup query :
  spans_fit -> text_fits f query ->
  serves (mdd_lookup f query) (fun r => r = (first_found query ≫= resource_of f rows stream)).
Proof.
  intros Hspan Hq. unfold mdd_lookup, lookup_span, mdd_locate. eapply serves_bind.
  { apply serves_first; [done|]. intros ordinal Hord. by apply serves_span_at. }
  intros span. cbv beta. destruct (first_found query) as [ordinal|]; cbn [base.mbind option_bind]; intros ->; [|by apply serves_ret].
  destruct (row_descriptor total rows ordinal) as [d|] eqn:Hd; cbn [traverse fmap option_fmap option_map].
  - eapply serves_bind; [by eapply serves_span_read|]. intros r Hr. by apply serves_ret.
  - apply serves_ret. unfold resource_of. by rewrite Hd.
Qed.

(** ** Matching modes *)

#[local] Notation keys := (map row_key rows).

(** [LocatedKeys::from_owned_with_reservation] *)
Lemma serves_keys_from_owned basis ordinals reservation :
  serves (keys_from_owned basis ordinals reservation) (fun r => match ordinals, r with
    | [], None => True
    | _ :: _, Some k => lk_basis k = basis /\ denotes k ordinals
    | _, _ => False
    end).
Proof.
  unfold keys_from_owned. destruct ordinals as [|o ordinals].
  - intros s Hs. split; [done|]. destruct reservation; [by apply serving_drop|done].
  - destruct reservation as [bytes|]; [|by apply serves_ret].
    eapply serves_bind; [by apply (serves_arc_new _ _ _ _ _ (fun _ => True))|]. intros arc _. by apply serves_ret.
Qed.

(** [MdxFile::locate_page_with_mode] *)
Lemma serves_locate_page_with_mode query offset limit mode :
  text_fits f query -> 0 <= offset -> 0 <= limit ->
  serves (locate_page_with_mode f query offset limit mode) (fun r => page_content <$> r = mode_page_spec f mode keys query offset limit).
Proof.
  intros Hq Ho Hl. unfold locate_page_with_mode, locate_page, mode_page_spec.
  eapply (serves_bind _ _ _ _ _ (fun r => page_content <$> r =
    if includes_case_variants f mode then variants_spec n keys query offset limit else None)).
  - destruct (includes_case_variants f mode); [|by apply serves_ret].
    by apply (serves_locate_case_variants granted f content blocks data Hi Harena).
  - intros [page|] <-; [by apply serves_ret|]. by apply (serves_locate_key_page granted f content blocks data Hi Harena).
Qed.

(** [MdxFile::locate_with_mode] *)
Lemma serves_locate_with_mode query mode :
  text_fits f query ->
  serves (locate_with_mode f query mode) (fun r => match r, mode_spec f mode keys query with
    | Some k, Some (basis, ordinals) => lk_basis k = basis /\ denotes k ordinals
    | None, None => True
    | _, _ => False
    end).
Proof.
  intros Hq. unfold locate_with_mode, locate, mode_spec. eapply (serves_bind _ _ _ _ _ (fun r => page_content <$> r =
    if includes_case_variants f mode then variants_spec n keys query 0 usize_max else None)).
  - destruct (includes_case_variants f mode); [|by apply serves_ret].
    by apply (serves_locate_case_variants granted f content blocks data Hi Harena).
  - intros [page|] E; rewrite <- E.
    + eapply serves_mono; [apply serves_keys_from_owned|]. intros r Hr. cbn [fmap option_fmap option_map page_content].
      destruct (includes_case_variants f mode); [|done]. symmetry in E. apply variants_spec_all in E as [Hne _].
      * unfold page_content. destruct (lp_ordinals page), r; try done.
      * rewrite length_map, (total_rows f content blocks data Hi). assert (u32_max <= u64_max) by done. lia.
    + by apply (serves_locate granted f content blocks data Hi Harena).
Qed.

(** [MdxFile::prefix_keys] *)
Lemma serves_prefix_keys prefix limit :
  text_fits f prefix -> 0 < limit ->
  serves (prefix_keys f prefix limit) (fun entries => exists found,
    prefix_spec n keys (normalized n prefix) limit found /\
    map Some entries = map (fun o => row_entry o <$> get_at rows o) found).
Proof.
  intros Hq Hl. unfold prefix_keys. pose proof (total_rows f content blocks data Hi) as Htotal.
  assert (32 * (u32_max + 1) <= isize_max) by done.
  eapply serves_bind; [apply (serves_locate_prefix granted f content blocks data Hi Harena); [done|done|lia]|].
  intros found [[? _]|[_ Hfound]]; [lia|].
  assert (Forall (fun o => 0 <= o < zlen rows) found /\ zlen found <= zlen rows) as [Hin Hsize].
  { destruct Hfound as (all & _ & Hp & ->). split.
    - apply Forall_take. rewrite Hp. apply Forall_forall. intros o Ho%list_elem_of_In%filter_In. destruct Ho as [Ho _].
      apply list_elem_of_In, elem_of_seqZ in Ho. rewrite length_map in Ho. lia.
    - rewrite length_take. apply Permutation_length in Hp.
      pose proof (List.filter_length_le (fun row => starts_with (normalized_row n keys row) (normalized n prefix)) (seqZ 0 (zlen keys))) as Hle.
      rewrite length_seqZ, length_map in Hle. rewrite length_map in Hp. lia. }
  eapply serves_bind; [apply serves_keys_at|].
  - eapply Forall_impl; [exact Hin|]. simpl. lia.
  - lia.
  - intros ? ->. apply serves_ret. exists found. split; [done|].
    clear -Hin. induction Hin as [|o found Ho _ IH]; [done|]. cbn [map].
    destruct (get_at_is_Some rows o Ho) as [row ->]. cbn. f_equal. exact IH.
Qed.

End Reads.

(** * Iterators *)

(** The iterators yield every record, in order, and only a limit ends them
    before the last one. *)

Section Iter.

Context `{EnvOk} (granted : forall context n, allocator context n = true) (f : MdictFile) (content : bytes).

Context (blocks : list (list DecodedKeyRow)) (data : list bytes) (Hi : intact f content blocks data).

#[local] Notation serves := (serves f blocks data).

#[local] Notation rows := (concat blocks).

#[local] Notation stream := (concat data).

#[local] Notation total := (vl_total_decoded_record_len (mf_layout f)).

#[local] Notation key_blocks := (vl_key_blocks (mf_layout f)).

(** ** Positions *)

(** The iterator is about to yield row [pos]; its block is the one of the
    file. *)
Definition stands_at (it : BlockIter) (pos : Z) : Prop :=
  bi_done it = false /\ 0 <= bi_block_index it <= key_block_count f /\
  match bi_current_block it with
  | Some entries =>
      exists block, get_at key_blocks (bi_block_index it) = Some block /\
        get_at blocks (bi_block_index it) = Some (kb_entries (arc_value entries)) /\
        0 <= bi_entry_index it <= entry_count block /\ pos = entry_start_index block + bi_entry_index it
  | None => consecutive entry_start_index entry_count 0 (take (Z.to_nat (bi_block_index it)) key_blocks) pos
  end.

Lemma stands_new : stands_at block_iter_new 0.
Proof. split_and!; try done. unfold key_block_count. simpl. lia. Qed.

Lemma block_length i block entries :
  get_at key_blocks i = Some block -> get_at blocks i = Some entries -> zlen entries = entry_count block.
Proof.
  intros Hb Hr. destruct (intact_block f content blocks data Hi i block Hb) as (rs & Hrs & _ & _ & [Hn _] & _).
  by assert (rs = entries) as -> by congruence.
Qed.

(** At the end of the blocks every row has been yielded. *)
Lemma stands_end it pos : stands_at it pos -> key_block_count f <= bi_block_index it -> pos = mdict_len f.
Proof.
  intros (_ & Hidx & Hcur) Hge. destruct (bi_current_block it) as [entries|].
  - destruct Hcur as (block & Hb & _). apply get_at_Some in Hb. unfold key_block_count in *. lia.
  - destruct (key_blocks_consecutive f (intact_file _ _ _ _ Hi)) as (_ & Hc & _).
    rewrite take_ge in Hcur by (unfold key_block_count in *; lia). by eapply consecutive_unique.
Qed.

(** The row an iterator stands at. *)
Lemma stands_hit it pos entries :
  stands_at it pos -> bi_current_block it = Some entries -> bi_entry_index it < zlen (kb_entries (arc_value entries)) ->
  hit_at f blocks pos {| kh_block_index := bi_block_index it; kh_entry_index := bi_entry_index it; kh_entries := entries |}.
Proof.
  intros (_ & _ & Hcur) Ec Hlt. rewrite Ec in Hcur. destruct Hcur as (block & Hb & Hr & Hk & ->).
  rewrite (block_length _ _ _ Hb Hr) in Hlt.
  destruct (row_place f content blocks data Hi _ _ _ (bi_entry_index it) Hb Hr ltac:(lia)) as (row & Hrow & Hall).
  exists block, row. cbn [kh_block_index kh_entries kh_entry_index]. split_and!; try done; lia.
Qed.

(** A finished block hands over to the next one. *)
Lemma stands_next_block it pos entries index :
  stands_at it pos -> bi_current_block it = Some entries -> zlen (kb_entries (arc_value entries)) <= bi_entry_index it ->
  stands_at {| bi_block_index := bi_block_index it + 1; bi_entry_index := index;
               bi_current_block := None; bi_done := bi_done it |} pos.
Proof.
  intros (Hd & Hidx & Hcur) Ec Hge. rewrite Ec in Hcur. destruct Hcur as (block & Hb & Hr & Hk & ->).
  rewrite (block_length _ _ _ Hb Hr) in Hge. pose proof (get_at_Some _ _ _ Hb).
  unfold stands_at. cbn [bi_done bi_block_index bi_current_block]. unfold key_block_count in *. split_and!; [done|lia|lia|].
  replace (entry_start_index block + bi_entry_index it) with (entry_start_index block + entry_count block) by lia.
  by apply (block_position_next f (intact_file _ _ _ _ Hi)).
Qed.

(** Stepping over a row. *)
Lemma stands_step it pos entries :
  stands_at it pos -> bi_current_block it = Some entries -> bi_entry_index it < zlen (kb_entries (arc_value entries)) ->
  stands_at {| bi_block_index := bi_block_index it; bi_entry_index := bi_entry_index it + 1;
               bi_current_block := Some entries; bi_done := bi_done it |} (pos + 1).
Proof.
  intros (Hd & Hidx & Hcur) Ec Hlt. rewrite Ec in Hcur. destruct Hcur as (block & Hb & Hr & Hk & ->).
  rewrite (block_length _ _ _ Hb Hr) in Hlt. split; [done|]. split; [done|].
  exists block. cbn [bi_block_index bi_entry_index]. split_and!; try done; lia.
Qed.

(** ... and over the last one of a block. *)
Lemma stands_last it pos entries :
  stands_at it pos -> bi_current_block it = Some entries -> bi_entry_index it + 1 = zlen (kb_entries (arc_value entries)) ->
  stands_at {| bi_block_index := bi_block_index it + 1; bi_entry_index := 0;
               bi_current_block := None; bi_done := bi_done it |} (pos + 1).
Proof.
  intros Hat Ec Hl. pose proof (stands_step it pos entries Hat Ec ltac:(lia)) as Hstep.
  by apply (stands_next_block _ _ entries 0) in Hstep; [|done|cbn [bi_entry_index]; lia].
Qed.

(** ** The record iterator *)

(** What a call of [next] yields. *)
Definition yields_at {I A} (at_ : I -> Z -> Prop) (P : Z -> A -> Prop) (pos : Z) (r : option (A + Error) * I) : Prop :=
  match r with
  | (None, _) => pos = mdict_len f
  | (Some (inl a), it) => pos < mdict_len f /\ P pos a /\ at_ it (pos + 1)
  | (Some (inr error), _) => pos <= mdict_len f /\ over_limit error
  end.

Lemma stands_bound it pos : stands_at it pos -> 0 <= pos <= mdict_len f.
Proof.
  intros (_ & Hidx & Hcur). pose proof (intact_file _ _ _ _ Hi) as Hf. destruct (bi_current_block it) as [entries|].
  - destruct Hcur as (block & Hb & _ & Hk & ->). destruct (block_bound f Hf _ _ Hb) as (? & ? & ? & _). lia.
  - destruct (key_blocks_consecutive f Hf) as (Hsz & Hc & _).
    rewrite <- (take_drop (Z.to_nat (bi_block_index it)) key_blocks) in Hc, Hsz. apply consecutive_app in Hc as (mid & H1 & H2).
    assert (mid = pos) as -> by (by eapply consecutive_unique). apply Forall_app in Hsz as [Hs1 Hs2].
    split; (eapply consecutive_le; [|eassumption]; assumption).
Qed.

(** The head of the loop. *)
Lemma serves_iter_load it pos :
  stands_at it pos -> bi_block_index it < key_block_count f ->
  serves (iter_load f it) (fun r => match r with
    | inl it' => stands_at it' pos /\ is_Some (bi_current_block it') /\ bi_block_index it' = bi_block_index it
    | inr error => over_limit error
    end).
Proof.
  intros Hat Hlt. destruct (id Hat) as (Hd & Hidx & Hcur). unfold iter_load.
  destruct (bi_current_block it) as [entries|] eqn:Ec; [apply serves_ret; rewrite Ec; split_and!; [done|by eexists|done]|].
  destruct (get_at_is_Some key_blocks (bi_block_index it)) as [block Hb]; [unfold key_block_count in *; lia|].
  destruct (intact_block f content blocks data Hi _ _ Hb) as (rs & Hrs & _).
  eapply serves_bind; [by apply serves_attempt, (serves_decode_key_block granted f content blocks data Hi)|].
  intros [entries|error] He; [|by apply serves_ret]. apply serves_ret. split_and!; [|by eexists|done].
  split; [done|]. split; [done|]. cbn [bi_current_block bi_block_index bi_entry_index].
  exists block. rewrite He. destruct (block_bound f (intact_file _ _ _ _ Hi) _ _ Hb) as (? & _).
  rewrite (block_position f (intact_file _ _ _ _ Hi) _ _ _ Hb Hcur). split_and!; try done; lia.
Qed.

(** [RecordIter::next] *)
Lemma serves_record_next it pos :
  stands_at it pos -> serves (record_next f it) (yields_at stands_at (fun pos d => Some d = row_descriptor total rows pos) pos).
Proof.
  intros Hat. unfold record_next. destruct (id Hat) as (-> & Hidx & _).
  assert (Z.to_nat (key_block_count f - bi_block_index it) < S (S (Z.to_nat (key_block_count f))))%nat as Hfuel by lia.
  revert Hfuel. generalize (S (S (Z.to_nat (key_block_count f)))) as fuel. intros fuel. clear Hidx.
  revert it Hat. induction fuel as [|fuel IH]; intros it Hat Hfuel; [lia|]. cbn [record_next_loop].
  destruct (Z.leb_spec (key_block_count f) (bi_block_index it)) as [Hge|Hlt]; [apply serves_ret; by eapply stands_end|].
  eapply serves_bind; [by apply serves_iter_load|]. intros [it'|error] Hload.
  2: { apply serves_ret. split; [by eapply stands_bound|done]. }
  destruct Hload as (Hat' & [entries Ec] & Eidx). rewrite Ec.
  destruct (Z.leb_spec (zlen (kb_entries (arc_value entries))) (bi_entry_index it')) as [Hend|Hlive].
  - eapply serves_bind; [apply serves_drop_handle|]. intros [] _. apply IH; [by eapply stands_next_block|].
    cbn [bi_block_index]. lia.
  - pose proof (stands_hit _ _ _ Hat' Ec Hlive) as Hhit.
    assert (pos < mdict_len f) as Hpos.
    { destruct Hhit as (block & row & _ & _ & _ & _ & _ & Hall). apply get_at_Some in Hall.
      rewrite (total_rows f content blocks data Hi) in Hall. lia. }
    eapply (serves_bind _ _ _ _ _ (fun owned => owned = entries)).
    { destruct (_ =? _); [by apply serves_ret|apply serves_arc_clone]. }
    intros ? ->. eapply serves_bind;
      [apply serves_attempt; exact (serves_descriptor granted f content blocks data Hi pos _ Hhit)|].
    intros [d|error] Hd; apply serves_ret; (split; [lia|]); [|done]. split; [done|].
    destruct (Z.eqb_spec (bi_entry_index it' + 1) (zlen (kb_entries (arc_value entries))));
      [by eapply stands_last|by apply stands_step].
Qed.

(** ** Iterators over items *)

Definition item_stands_at (it : ItemIter) (pos : Z) : Prop := ii_done it = false /\ stands_at (ii_records it) pos.

Lemma serves_item_next {A} (read : RecordDescriptor -> M CoreState A) (P : Z -> A -> Prop) it pos :
  (forall pos d, row_descriptor total rows pos = Some d -> serves (read d) (P pos)) ->
  item_stands_at it pos -> serves (item_next f read it) (yields_at item_stands_at P pos).
Proof.
  intros Hread [Hd Hat]. unfold item_next. rewrite Hd. eapply serves_bind; [by apply serves_record_next|].
  intros [[[d|error]|] records] Hr; cbv beta iota.
  - destruct Hr as (Hpos & Hdesc & Hat'). eapply (serves_bind _ _ _ _ _
      (fun r => exists item, r = Some item /\ match item with inl a => P pos a | inr e => over_limit e end)).
    + eapply serves_bind; [by apply serves_attempt, Hread|]. intros item Hitem. apply serves_ret. by exists item.
    + intros ? (item & -> & Hitem). apply serves_ret. destruct item as [a|error]; [|split; [lia|done]]. by split_and!.
  - eapply (serves_bind _ _ _ _ _ (fun r => r = Some (inr error))); [by apply serves_ret|]. intros ? ->.
    by apply serves_ret.
  - eapply (serves_bind _ _ _ _ _ (fun r => r = None)); [by apply serves_ret|]. intros ? ->. by apply serves_ret.
Qed.

(** What a [for] loop collects: the items from [pos] on, all of them unless a
    limit is exceeded. *)
Definition all_items {I A} (P : Z -> A -> Prop) (pos : Z) (r : list A * option Error * I) : Prop :=
  let '(items, error, _) := r in
  (forall k a, get_at items k = Some a -> P (pos + k) a) /\ pos + zlen items <= mdict_len f /\
  match error with None => pos + zlen items = mdict_len f | Some error => over_limit error end.

Lemma serves_collect {I A} (next : I -> M CoreState (option (A + Error) * I)) (at_ : I -> Z -> Prop) P fuel it pos :
  (forall it pos, at_ it pos -> serves (next it) (yields_at at_ P pos)) ->
  at_ it pos -> (Z.to_nat (mdict_len f - pos) < fuel)%nat -> serves (collect next fuel it) (all_items P pos).
Proof.
  intros Hnext. revert it pos. induction fuel as [|fuel IH]; intros it pos Hat Hfuel; [lia|].
  cbn [collect]. eapply serves_bind; [by apply Hnext|]. intros [[[a|error]|] it'] Hr; cbv beta iota.
  - destruct Hr as (Hpos & Ha & Hat'). eapply serves_bind; [apply (IH it' (pos + 1)); [done|lia]|].
    intros [[items error] it''] (Hitems & Hb & Hend). apply serves_ret.
    assert (zlen (a :: items) = 1 + zlen items) as Hz by (rewrite length_cons; lia).
    split; [|split; [lia|destruct error; [done|lia]]]. intros k b Hk. destruct (Z.eq_dec k 0) as [->|].
    + simpl in Hk. injection Hk as <-. by rewrite Z.add_0_r.
    + pose proof (get_at_Some _ _ _ Hk). replace (pos + k) with (pos + 1 + (k - 1)) by lia.
      apply Hitems. apply get_at_lookup in Hk as [Hk _]. unfold get_at. rewrite (proj2 (Z.leb_le 0 (k - 1))) by lia.
      by replace (Z.to_nat k) with (S (Z.to_nat (k - 1))) in Hk by lia.
  - destruct Hr as [Hpos He]. apply serves_ret. split; [by intros [] ?|]. split; [cbn [length]; lia|done].
  - apply serves_ret. cbn in Hr. split; [by intros [] ?|]. cbn [length]. split; lia.
Qed.

(** Reading all items from the start. *)
Lemma serves_items {A} (read : RecordDescriptor -> M CoreState A) (g : Z -> option A) :
  (forall pos d, row_descriptor total rows pos = Some d -> serves (read d) (fun a => g pos = Some a)) ->
  serves (collect (item_next f read) (S (Z.to_nat (mdict_len f))) item_iter_new) (fun '(items, error, _) =>
    map Some items = map g (seqZ 0 (zlen items)) /\ zlen items <= mdict_len f /\
    match error with None => zlen items = mdict_len f | Some error => over_limit error end).
Proof.
  intros Hread. eapply serves_mono.
  - apply (serves_collect _ item_stands_at (fun pos a => g pos = Some a)).
    + intros it pos Hat. by apply serves_item_next.
    + split; [done|apply stands_new].
    + lia.
  - intros [[items error] it] (Hitems & Hle & Hend). split_and!; [|lia|done].
    apply list_eq. intros i. rewrite !list_lookup_fmap. destruct (items !! i) as [a|] eqn:Ea; simpl.
    + pose proof (lookup_lt_Some _ _ _ Ea). rewrite lookup_seqZ_lt by lia. simpl. f_equal.
      rewrite Z.add_0_l. symmetry. apply (Hitems (Z.of_nat i)). by apply lookup_get_at.
    + apply lookup_ge_None in Ea. by rewrite lookup_seqZ_ge by lia.
Qed.

(** [for entry in file.entries()] *)
Lemma serves_entries :
  readable f blocks data ->
  serves (collect (entry_next f) (S (Z.to_nat (mdict_len f))) item_iter_new) (fun '(items, error, _) =>
    map (fun e => Some (Ok e)) items = map (entry_of f rows stream) (seqZ 0 (zlen items)) /\
    match error with None => zlen items = mdict_len f | Some error => over_limit error end).
Proof.
  intros Hread. eapply serves_mono.
  - apply (serves_items _ (fun pos => match entry_of f rows stream pos with Some (Ok e) => Some e | _ => None end)).
    intros pos d Hd. eapply serves_mono; [by apply (serves_read_entry granted f content blocks data Hi pos)|].
    by intros e ->.
  - intros [[items error] it] (E & _ & Hend). split; [|done]. clear Hend. revert E.
    generalize (seqZ 0 (zlen items)). induction items as [|a items IH]; intros [|i l] E; try done.
    injection E as E1 E2. cbn [map]. rewrite (IH l E2). destruct (entry_of f rows stream i) as [[e| | |]|]; try done.
    by injection E1 as ->.
Qed.

(** [for resource in file.resources()] *)
Lemma serves_resources :
  spans_fit f blocks ->
  serves (collect (resource_next f) (S (Z.to_nat (mdict_len f))) item_iter_new) (fun '(items, error, _) =>
    map Some items = map (resource_of f rows stream) (seqZ 0 (zlen items)) /\
    match error with None => zlen items = mdict_len f | Some error => over_limit error end).
Proof.
  intros Hspan. eapply serves_mono.
  - apply (serves_items _ (resource_of f rows stream)). intros pos d Hd.
    destruct (descriptor_span f content blocks data Hi _ _ Hd) as (_ & Hse & Het & _).
    unfold read_resource, resource_of. rewrite Hd.
    eapply serves_bind; [apply (serves_read_span granted f content blocks data Hi); [lia|lia|by eapply Hspan]|].
    intros out Hout. apply serves_ret. cbn [base.mbind option_bind]. by rewrite Hout.
  - by intros [[items error] it] (E & _ & Hend).
Qed.

End Iter.
