(* ===== verification/WrittenReads.v ===== *)
(** Writing a dictionary, opening it and looking its keys up: a written file is
    intact, so a lookup of a written key returns the text written under it. *)

From stdpp Require Import list_numbers sorting.
From S2P Require Import Prelude Errors Types Checksum Budget Utf8 Encoding FileUrl Source Compression Descriptors Header KeySection V1Keyword V2Keyword RecordSection Format Normalize Samples LocatorIndex Arcs Core Dictionary SampleDictionary Keys Records Iter Locator Locate Lookup Mdx Mdd AuditSupport WrittenHeader Written WrittenKeywords WholeFile Intact IntactRecords IntactLocator IntactReads.

(** * Written files are intact *)

(** The descriptors of written key blocks. *)
Definition describes (width : nat) (e : TextEncoding) (block : KeyBlockDescriptor) (rows : list DecodedKeyRow) : Prop :=
  entry_count block = zlen rows /\ first_key block = ir_first_key (index_row width e rows) /\
  last_key block = ir_last_key (index_row width e rows) /\ kb_decomp_size block = zlen (encode_rows width e rows).

Lemma describe_describes width e offset start l :
  Forall2 (describes width e) (KeySection.describe offset start (map (index_row width e) l)) l.
Proof. revert offset start. induction l as [|rows l IH]; intros offset start; cbn [map KeySection.describe]; by constructor. Qed.

Lemma concat_elem_length {A} (x : list A) (l : list (list A)) : x ∈ l -> zlen x <= zlen (concat l).
Proof. induction 1 as [x l|x y l _ IH]; cbn [concat]; rewrite length_app; lia. Qed.

Section Intact.

Context `{EnvOk} (granted : forall context n, allocator context n = true) (v : WireVersion).

Context (kind : ContainerKind) (options : OpenOptions) (name : text) (attrs : list (text * text)) (hs : HeaderSection).

Context (e : TextEncoding) (renc : option TextEncoding) (c : Contents).

Context (Hw : file_written v (limits options) kind name attrs hs e renc c).

#[local] Notation content := (written_file v (encode_header (render_tag name attrs)) e c).

Lemma written_size : zlen content * 128 <= isize_max.
Proof. destruct (size_limit_small v) as (? & _). destruct Hw as (_ & _ & _ & _ & Hmax). lia. Qed.

(** What is decoded of a key block is less than the file. *)
Lemma written_block_size rows : rows ∈ ct_key_blocks c -> zlen (encode_rows (width v) e rows) <= zlen content.
Proof.
  intros Hin. transitivity (zlen (key_blocks_bytes v e c)).
  - transitivity (zlen (stored (encode_rows (width v) e rows))); [rewrite length_stored; lia|].
    apply concat_elem_length, list_elem_of_fmap. by exists rows.
  - rewrite written_file_parts. unfold keywords_bytes. rewrite !length_app. lia.
Qed.

Lemma written_intact f modified retained :
  file_ok f -> stable (mf_source f) content modified -> mf_layout f = layout_of v hs e renc c retained ->
  mf_limits f = limits options -> starts_sorted (concat (ct_key_blocks c)) ->
  Forall (fun row => text_fits f (row_key row)) (concat (ct_key_blocks c)) ->
  intact f content (ct_key_blocks c) (ct_record_blocks c).
Proof.
  intros Hf Hst Hlay Hlm Hsorted Hfit. pose proof written_size as Hsize.
  destruct (written_blocks granted v kind options name attrs hs e renc c Hw f retained Hlay Hlm) as [Hk Hr].
  destruct Hw as (_ & (_ & _ & _ & _ & He) & (Hrows & _) & _ & _).
  assert (Forall2 (describes (width v) e) (vl_key_blocks (mf_layout f)) (ct_key_blocks c)) as Hd
    by (rewrite Hlay; apply describe_describes).
  assert (forall block rows, describes (width v) e block rows -> rows ∈ ct_key_blocks c ->
    exists first last, head rows = Some first /\ list.last rows = Some last /\ first_key block = row_key first /\
      last_key block = row_key last /\ text_fits f (row_key first) /\ text_fits f (row_key last)) as Hends.
  { intros block rows (_ & E1 & E2 & _) Hin. rewrite Forall_concat, Forall_forall in Hfit. specialize (Hfit rows Hin).
    rewrite Forall_forall in Hfit. rewrite Forall_forall in Hrows. destruct (Hrows rows Hin) as [Hne _]. cbn [index_row ir_first_key ir_last_key] in *.
    destruct (list.last rows) as [l|] eqn:El; [|by apply last_None in El].
    destruct rows as [|r rows]; [done|]. exists r, l. split_and!; try done; apply Hfit; [left|by apply last_Some_elem_of]. }
  split; try done.
  - by exists modified.
  - lia.
  - by apply decode_all_Forall2.
  - by apply decode_all_Forall2.
  - apply Forall2_same_length_lookup. split; [by eapply Forall2_length|]. intros i block rows Hb Hrs.
    destruct (Hends block rows) as (first & last & ? & ? & E1 & E2 & _);
      [by eapply Forall2_lookup_lr|by eapply list_elem_of_lookup_2|].
    exists first, last. by rewrite E1, E2.
  - apply Forall_lookup. intros i block Hb. destruct (Forall2_lookup_l _ _ _ _ _ Hd Hb) as (rows & Hrs & Hdesc).
    apply list_elem_of_lookup_2 in Hrs. destruct (Hends block rows Hdesc Hrs) as (first & last & _ & _ & E1 & E2 & ? & ?).
    unfold block_fits. rewrite E1, E2. split_and!; [done|done|]. destruct Hdesc as (-> & _ & _ & ->).
    pose proof (written_block_size rows Hrs). pose proof (encode_rows_length (width v) e rows).
    pose proof (unit_size_pos e). assert (isize_max + 1000 <= u64_max) by done.
    assert (zlen rows * 1 <= zlen rows * (Z.of_nat (width v) + unit_size e)) by (apply Z.mul_le_mono_nonneg_l; lia).
    unfold key_block_retained_bytes. rewrite Hlay. cbn [layout_of vl_key_encoding]. unfold size_of_decoded_key_row.
    destruct He as [->| ->]; cbn [max_decoded_len rbind].
    + rewrite checked_mul_granted by lia. cbn [ok_or rbind]. rewrite checked_add_granted by lia. by eexists.
    + set (len := zlen (encode_rows _ _ _)) in *. rewrite checked_add_granted by lia. cbn [base.mbind option_bind].
      rewrite checked_mul_granted by div_lia. cbn [ok_or rbind]. rewrite checked_mul_granted by lia. cbn [ok_or rbind].
      rewrite checked_add_granted by div_lia. by eexists.
Qed.

End Intact.

(** * Dictionaries as lists of entries *)

(** The rows and the record stream of a list of keys and texts. *)
Definition stream_of (e : TextEncoding) (entries : list (text * text)) : bytes :=
  concat (map (fun p => encode_key e (snd p)) entries).

Fixpoint rows_of (e : TextEncoding) (start : Z) (entries : list (text * text)) : list DecodedKeyRow :=
  match entries with
  | [] => []
  | (key, t) :: entries =>
      {| row_key := key; record_start := start |} :: rows_of e (start + zlen (encode_key e t)) entries
  end.

(** The contents hold the entries, in any division into blocks. *)
Definition holds (e : TextEncoding) (c : Contents) (entries : list (text * text)) : Prop :=
  concat (ct_key_blocks c) = rows_of e 0 entries /\ concat (ct_record_blocks c) = stream_of e entries.

(** A key and its normalized form are strings of a real machine. *)
Definition key_fits `{Env} (n : KeyNormalizer) (t : text) : Prop :=
  zlen t <= isize_max /\ zlen (normalized n t) <= isize_max.

(** What a lookup returns: the first of the entries spelled like the query, or
    else the first whose key has the normalized form of the query; its text
    comes without the NULs at its end. *)
Definition written_entry `{Env} (n : KeyNormalizer) (entries : list (text * text)) (query : text) : option MdxEntry :=
  match locate_spec n (map fst entries) query with
  | Some (_, ordinal :: _) =>
      (fun p => {| me_key := {| ke_ordinal := ordinal; ke_key := fst p |};
                   me_text := trim_end_matches (fun c => c =? 0) (snd p) |}) <$> get_at entries ordinal
  | _ => None
  end.

(** All entries, in order. *)
Definition written_entries `{Env} (entries : list (text * text)) : list MdxEntry :=
  imap (fun k p => {| me_key := {| ke_ordinal := Z.of_nat k; ke_key := fst p |};
                      me_text := trim_end_matches (fun c => c =? 0) (snd p) |}) entries.

(** Lookups in a row. *)
Fixpoint lookups `{Env} (f : MdictFile) (queries : list text) : M CoreState (list (option MdxEntry)) :=
  match queries with
  | [] => mret []
  | query :: queries =>
      let! entry := lookup f query in
      let! entries := lookups f queries in
      mret (entry :: entries)
  end.

Lemma rows_of_lookup e start entries k :
  rows_of e start entries !! k =
  (fun p => {| row_key := fst p; record_start := start + zlen (stream_of e (take k entries)) |}) <$> entries !! k.
Proof.
  revert start k. induction entries as [|[key t] entries IH]; intros start [|k]; try done.
  - cbn. by rewrite Z.add_0_r.
  - change (rows_of e (start + zlen (encode_key e t)) entries !! k =
      (fun p => {| row_key := fst p; record_start := start + zlen (stream_of e ((key, t) :: take k entries)) |}) <$> entries !! k).
    rewrite IH. destruct (entries !! k) as [p|]; [|done]. cbn [fmap option_fmap option_map]. do 2 f_equal.
    unfold stream_of. cbn [map concat snd]. rewrite length_app. lia.
Qed.

Lemma rows_of_keys e start entries : map row_key (rows_of e start entries) = map fst entries.
Proof. revert start. induction entries as [|[key t] entries IH]; intros start; cbn; [done|]. by rewrite IH. Qed.

Lemma rows_of_length e start entries : zlen (rows_of e start entries) = zlen entries.
Proof. by rewrite <- (length_map row_key), rows_of_keys, length_map. Qed.

Lemma rows_of_sorted e start entries : starts_sorted (rows_of e start entries).
Proof.
  unfold starts_sorted. revert start. induction entries as [|[key t] entries IH]; intros start; cbn [rows_of]; constructor; [done|].
  destruct entries as [|[key' t'] entries]; cbn [rows_of]; constructor. cbn. lia.
Qed.

(** The span of an entry. *)
Lemma row_descriptor_of e entries k key t :
  entries !! k = Some (key, t) ->
  exists d, row_descriptor (zlen (stream_of e entries)) (rows_of e 0 entries) (Z.of_nat k) = Some d /\
    rd_key d = {| ke_ordinal := Z.of_nat k; ke_key := key |} /\ rd_end d - rd_start d = zlen (encode_key e t) /\
    slice (stream_of e entries) (rd_start d) (rd_end d) = Some (encode_key e t).
Proof.
  intros Hk. set (pre := stream_of e (take k entries)).
  assert (stream_of e (take (S k) entries) = pre ++ encode_key e t) as Enext.
  { unfold pre, stream_of. rewrite (take_S_r _ _ _ Hk), map_app, concat_app. cbn [map concat snd]. by rewrite app_nil_r. }
  assert (stream_of e entries = pre ++ encode_key e t ++ stream_of e (drop (S k) entries)) as Eall.
  { rewrite app_assoc, <- Enext. unfold stream_of. by rewrite <- concat_app, <- map_app, take_drop. }
  assert (row_descriptor (zlen (stream_of e entries)) (rows_of e 0 entries) (Z.of_nat k) =
    Some {| rd_key := {| ke_ordinal := Z.of_nat k; ke_key := key |}; rd_start := zlen pre; rd_end := zlen pre + zlen (encode_key e t) |}) as ->.
  { unfold row_descriptor, get_at. rewrite (proj2 (Z.leb_le 0 _)), (proj2 (Z.leb_le 0 _)) by lia.
    rewrite Nat2Z.id, rows_of_lookup, Hk. cbn [fmap option_fmap option_map fst row_key record_start row_entry].
    replace (Z.to_nat (Z.of_nat k + 1)) with (S k) by lia. rewrite rows_of_lookup. do 2 f_equal.
    destruct (entries !! S k) as [p|] eqn:E; cbn [fmap option_fmap option_map default record_start].
    - cbn. rewrite Enext, length_app. lia.
    - cbn. rewrite Eall, (drop_ge entries (S k)) by by apply lookup_ge_None. unfold stream_of. cbn [map concat].
      rewrite app_nil_r, length_app. lia. }
  eexists. split; [done|]. cbn [rd_key rd_start rd_end]. split_and!; [done|lia|]. rewrite Eall. apply slice_app_mid.
Qed.

(** A key looked up as it is spelled gives the first entry written under it. *)
Lemma written_entry_exact `{Env} n entries o key t :
  get_at entries o = Some (key, t) -> (forall j p, j < o -> get_at entries j = Some p -> fst p <> key) ->
  written_entry n entries key = Some {| me_key := {| ke_ordinal := o; ke_key := key |};
                                        me_text := trim_end_matches (fun c => c =? 0) t |}.
Proof.
  intros Ho Hfirst. assert (forall j, get_at (map fst entries) j = fst <$> get_at entries j) as Hget.
  { intros j. unfold get_at. destruct (0 <=? j); [|done]. by rewrite list_lookup_fmap. }
  assert (o ∈ raw_matching (map fst entries) key) as Hraw by (apply raw_matching_elem; by rewrite Hget, Ho).
  unfold written_entry, locate_spec. destruct (matching n (map fst entries) (normalized n key)) as [|x m] eqn:Em.
  { exfalso. assert (o ∈ matching n (map fst entries) (normalized n key)) as Hin; [|rewrite Em in Hin; by apply not_elem_of_nil in Hin].
    apply raw_matching_elem in Hraw. apply list_elem_of_In, filter_In. split.
    - apply list_elem_of_In, elem_of_seqZ. apply get_at_Some in Hraw. lia.
    - unfold normalized_row, key_at. rewrite Hraw. cbn. by apply bytes_eqb_true. }
  pose proof (raw_matching_sorted (map fst entries) key) as Hsorted.
  destruct (raw_matching (map fst entries) key) as [|y l] eqn:Er; [by apply not_elem_of_nil in Hraw|].
  assert (y = o) as ->; [|by rewrite Ho].
  apply elem_of_cons in Hraw as [->|Hin]; [done|]. exfalso.
  apply StronglySorted_inv in Hsorted as [_ Hall]. rewrite Forall_forall in Hall. specialize (Hall _ Hin).
  assert (y ∈ raw_matching (map fst entries) key) as Hy by (rewrite Er; by left). apply raw_matching_elem in Hy.
  rewrite Hget in Hy. destruct (get_at entries y) as [p|] eqn:Ey; [|done]. injection Hy as Hy. by eapply Hfirst.
Qed.

(** * Lookups in written files *)

Section Lookups.

Context `{EnvOk} (granted : forall context n, allocator context n = true) (v : WireVersion).

Context (options : OpenOptions) (name : text) (attrs : list (text * text)) (hs : HeaderSection).

Context (e re : TextEncoding) (c : Contents) (entries : list (text * text)).

Context (Hw : file_written v (limits options) Mdx name attrs hs e (Some re) c).

Context (Hre : re = EncUtf8 \/ re = EncUtf16Le) (Hholds : holds re c entries).

#[local] Notation content := (written_file v (encode_header (render_tag name attrs)) e c).

#[local] Notation n := (from_header (hs_header hs) Mdx).

Context (Hentries : Forall (fun p => text_ok (snd p) /\ key_fits n (fst p)) entries).

Context (Harena : zlen (arena n (map fst entries)) <= u32_max) (Hcount : zlen entries <= u32_max).

Lemma stream_size : zlen (stream_of re entries) * 128 <= isize_max.
Proof.
  destruct Hholds as [_ <-]. pose proof (written_total v Mdx options name attrs hs e (Some re) c Hw) as Ht.
  destruct (size_limit_small v) as (? & _).
  assert (zlen (concat (ct_record_blocks c)) = total_bytes c) as ->; [|lia].
  unfold total_bytes, sum_of. induction (ct_record_blocks c) as [|b l IH]; cbn [concat foldr]; [done|]. rewrite length_app. lia.
Qed.

Context (f : MdictFile) (Hi : intact f content (ct_key_blocks c) (ct_record_blocks c)).

Context (Henc : vl_record_encoding (mf_layout f) = Some re) (Hn : mf_normalizer f = n).

#[local] Notation total := (vl_total_decoded_record_len (mf_layout f)).

Lemma written_record ordinal d :
  row_descriptor total (rows_of re 0 entries) ordinal = Some d ->
  exists key t, get_at entries ordinal = Some (key, t) /\ rd_key d = {| ke_ordinal := ordinal; ke_key := key |} /\
    rd_end d - rd_start d = zlen (encode_key re t) /\ zlen (encode_key re t) <= zlen (stream_of re entries) /\ text_ok t /\
    slice (stream_of re entries) (rd_start d) (rd_end d) = Some (encode_key re t).
Proof.
  intros Hd. pose proof (stream_length f content _ _ Hi) as Hlen. rewrite (proj2 Hholds) in Hlen. rewrite <- Hlen in Hd.
  assert (0 <= ordinal < zlen entries) as Hord.
  { unfold row_descriptor in Hd. destruct (get_at _ ordinal) as [row|] eqn:E; [|done]. apply get_at_Some in E.
    by rewrite rows_of_length in E. }
  destruct (get_at_is_Some entries ordinal Hord) as [[key t] Hp]. exists key, t. split; [done|].
  pose proof (get_at_elem_of _ _ _ Hp) as Hin. apply get_at_lookup in Hp as [Hp _].
  destruct (row_descriptor_of re entries _ _ _ Hp) as (d' & Hd' & Hkey & Hsize & Hslice).
  rewrite Z2Nat.id in Hd', Hkey by lia. assert (d' = d) as -> by congruence. split_and!; try done.
  - apply concat_elem_length, list_elem_of_fmap. by exists (key, t).
  - rewrite Forall_forall in Hentries. by destruct (Hentries _ Hin).
Qed.

Lemma written_text t context :
  text_ok t -> zlen (encode_key re t) <= zlen (stream_of re entries) -> decode re (encode_key re t) context = Ok t.
Proof. intros Ht Hl. pose proof stream_size. apply (decode_encoded_text granted); [done|done|lia]. Qed.

Lemma written_entry_of ordinal d :
  row_descriptor total (rows_of re 0 entries) ordinal = Some d ->
  entry_of f (rows_of re 0 entries) (stream_of re entries) ordinal =
    (fun p => Ok {| me_key := {| ke_ordinal := ordinal; ke_key := fst p |};
                    me_text := trim_end_matches (fun c => c =? 0) (snd p) |}) <$> get_at entries ordinal.
Proof.
  intros Hd. destruct (written_record _ _ Hd) as (key & t & -> & Hkey & _ & Hle & Ht & Hs).
  unfold entry_of. rewrite Hd. cbn [base.mbind option_bind]. rewrite Hs, Hkey. cbn [ok_or rbind].
  unfold record_text, record_text_encoding. rewrite Henc. cbn [ok_or rbind]. by rewrite written_text.
Qed.

Lemma written_readable : readable f (ct_key_blocks c) (ct_record_blocks c).
Proof.
  intros ordinal d. destruct Hholds as [-> ->]. intros Hd. pose proof stream_size as Hsize. split.
  - destruct (written_record _ _ Hd) as (key & t & _ & _ & -> & Hle & _). split; [lia|].
    assert (isize_max + 1000 <= u64_max /\ isize_max + 1000 <= usize_max) as [? ?] by done.
    set (len := zlen (encode_key re t)) in *. unfold record_text_encoding. rewrite Henc.
    destruct Hre as [->| ->]; eexists _, _; (split; [done|]); cbn [max_decoded_len].
    + split; [done|lia].
    + rewrite checked_add_granted by lia. cbn [base.mbind option_bind]. rewrite checked_mul_granted by div_lia.
      split; [done|div_lia].
  - rewrite (written_entry_of _ _ Hd). destruct (written_record _ _ Hd) as (key & t & -> & _). by eexists.
Qed.

(** [MdxFile::lookup] of a written file. *)
Lemma serves_written_lookup query :
  key_fits n query -> serves f (ct_key_blocks c) (ct_record_blocks c) (lookup f query) (fun r => r = written_entry n entries query).
Proof.
  intros Hq. pose proof (total_rows f content _ _ Hi) as Htotal.
  assert (map row_key (concat (ct_key_blocks c)) = map fst entries) as Ekeys by (destruct Hholds as [-> _]; apply rows_of_keys).
  eapply serves_mono.
  { apply (serves_lookup granted f content _ _ Hi); [by rewrite Ekeys, Hn| |apply written_readable|].
    - destruct Hholds as [E _]. rewrite <- Htotal, E, rows_of_length. done.
    - unfold text_fits. by rewrite Hn. }
  intros r Hr. unfold first_found, written_entry in *. rewrite Ekeys, Hn in Hr.
  destruct (locate_spec n (map fst entries) query) as [[basis [|ordinal found]]|] eqn:El; [done| |done].
  destruct Hholds as [E1 E2]. rewrite E1, E2 in Hr.
  assert (exists d, row_descriptor total (rows_of re 0 entries) ordinal = Some d) as [d Hd].
  { apply (locate_spec_rows f _ _ _ _ _ ordinal) in El; [|apply list_elem_of_here]. rewrite length_map in El.
    unfold row_descriptor. destruct (get_at_is_Some (rows_of re 0 entries) ordinal) as [row ->]; [by rewrite rows_of_length|]. by eexists. }
  rewrite (written_entry_of _ _ Hd) in Hr. destruct (get_at entries ordinal), r; cbn in *; congruence.
Qed.

(** Any lookups in a row. *)
Lemma serves_lookups queries :
  Forall (key_fits n) queries ->
  serves f (ct_key_blocks c) (ct_record_blocks c) (lookups f queries) (fun r => r = map (written_entry n entries) queries).
Proof.
  induction 1 as [|query queries Hq _ IH]; cbn [lookups map]; [by apply serves_ret|].
  eapply serves_bind; [by apply serves_written_lookup|]. intros ? ->.
  eapply serves_bind; [exact IH|]. intros ? ->. by apply serves_ret.
Qed.

(** Iterating the entries of a written file. *)
Lemma serves_written_entries :
  serves f (ct_key_blocks c) (ct_record_blocks c) (collect (entry_next f) (S (Z.to_nat (mdict_len f))) item_iter_new)
    (fun '(items, error, _) => match error with None => items = written_entries entries | Some error => over_limit error end).
Proof.
  eapply serves_mono; [apply (serves_entries granted f content _ _ Hi), written_readable|].
  intros [[items [error|]] it] [E Hlen]; [done|]. destruct Hholds as [E1 E2]. rewrite E1, E2 in E.
  assert (zlen items = zlen entries) as Hz.
  { rewrite Hlen, <- (total_rows f content _ _ Hi), E1. apply rows_of_length. }
  apply list_eq_same_length with (n := length entries); [by unfold written_entries; rewrite length_imap|lia|].
  intros i a b Hlt Ha Hb. unfold written_entries in Hb. rewrite list_lookup_imap in Hb.
  apply (f_equal (fun l => l !! i)) in E. rewrite !list_lookup_fmap, Ha, lookup_seqZ_lt in E by lia. injection E as E.
  assert (exists d, row_descriptor total (rows_of re 0 entries) (0 + Z.of_nat i) = Some d) as [d Hd].
  { unfold row_descriptor. destruct (get_at_is_Some (rows_of re 0 entries) (0 + Z.of_nat i)) as [row ->];
      [rewrite rows_of_length; lia|by eexists]. }
  rewrite (written_entry_of _ _ Hd), Z.add_0_l in E. destruct (entries !! i) as [p|] eqn:Ep; [|done].
  rewrite (lookup_get_at _ _ _ Ep) in E. cbn in E, Hb. congruence.
Qed.

End Lookups.

(** * Properties *)

(** C5: writing a dictionary, opening it and reading it gives back
    what was written.  For any list of keys and texts, divided into key blocks
    and record blocks in any way and written in either version, in UTF-8 or
    UTF-16: the file opens, and any lookups in any order, hits and misses, with
    whatever the caches hold, return the entry the specification picks from the
    list, with the text written for it less its trailing NULs; in particular a
    key looked up as it is spelled gives the first text written under it.
    Iterating the entries gives all of them in order.  The only other outcome,
    of the opening, of a lookup or of the iteration, is that a configured limit
    or the memory budget is exceeded. *)
Theorem written_lookup_round_trip `{EnvOk} v options name attrs hs e re c entries fs path resolved modified clock queries :
  let n := from_header (hs_header hs) Mdx in
  let content := written_file v (encode_header (render_tag name attrs)) e c in
  (forall context n, allocator context n = true) -> limits_ok (limits options) -> file_system_ok fs ->
  file_written v (limits options) Mdx name attrs hs e (Some re) c ->
  re = EncUtf8 \/ re = EncUtf16Le -> holds re c entries ->
  Forall (fun p => text_ok (snd p) /\ key_fits n (fst p)) entries ->
  zlen (arena n (map fst entries)) <= u32_max -> zlen entries <= u32_max ->
  resolve path = Ok resolved -> (forall t, fs resolved t = Some {| fc_content := content; fc_modified := modified |}) ->
  Forall (key_fits n) queries ->
  match mdx_open_with_options fs path options clock with
  | Ok (f, s) =>
      wpM (lookups f queries) s (fun r _ => r = map (written_entry n entries) queries) (fun error _ => over_limit error) /\
      wpM (collect (entry_next f) (S (Z.to_nat (mdict_len f))) item_iter_new) s
        (fun '(items, error, _) _ => match error with
           | None => items = written_entries entries
           | Some error => over_limit error
           end)
        (fun error _ => over_limit error)
  | Err error => over_limit error
  | _ => False
  end /\
  (forall o key t, get_at entries o = Some (key, t) ->
     (forall j p, j < o -> get_at entries j = Some p -> fst p <> key) ->
     written_entry n entries key = Some {| me_key := {| ke_ordinal := o; ke_key := key |};
                                           me_text := trim_end_matches (fun c => c =? 0) t |}).
Proof.
  intros n content granted Hlim Hfsok Hw Hre Hholds Hentries Harena Hcount Hres Hfs Hq.
  split; [|intros o key t; by apply written_entry_exact].
  pose proof (written_opens granted v Mdx options name attrs hs e (Some re) c Hlim Hw fs path resolved modified clock Hres Hfs) as Ho.
  pose proof (open_ok fs path Mdx options clock Hfsok Hlim) as Hok. unfold mdx_open_with_options.
  destruct (Core.open fs path Mdx options clock) as [[f s]|error| |]; try done.
  - destruct Ho as (Hst & [retained Hlay] & Hlm & Hn & w & ->), Hok as [Hf _].
    assert (intact f content (ct_key_blocks c) (ct_record_blocks c)) as Hi.
    { apply (written_intact granted v Mdx options name attrs hs e (Some re) c Hw f modified retained); try done;
        destruct Hholds as [-> _]; [apply rows_of_sorted|].
      apply (Forall_map row_key (text_fits f)). rewrite rows_of_keys. apply Forall_map.
      eapply Forall_impl; [exact Hentries|]. intros p [_ Hp]. unfold text_fits. by rewrite Hn. }
    assert (vl_record_encoding (mf_layout f) = Some re) as Henc by by rewrite Hlay. split.
    + eapply wpM_mono; [apply (serves_lookups granted v options name attrs hs e re c entries Hw Hre Hholds Hentries Harena
        Hcount f Hi Henc Hn queries Hq _ (serving_new _ _ _ w))|by intros ? ? [? _]..].
    + eapply wpM_mono; [apply (serves_written_entries granted v options name attrs hs e re c entries Hw Hre Hholds Hentries
        f Hi Henc _ (serving_new _ _ _ w))|by intros [[? ?] ?] ? [? _]|by intros ? ? [? _]].
  - destruct Ho as (requested & maximum & ->). by eexists _, _, _.
Qed.

(** ** Witness *)

(** The entries of the sample contents; the text of [Beta] spans two record
    blocks. *)
Definition sample_entries : list (text * text) :=
  [(lit "Alpha", lit "one"); (lit "Beta", lit "-two-thre"); (lit "alpha", lit "ef"); (lit "gamma", lit "ourfive")].

Definition sample_queries : list text := [lit "alpha"; lit "GAMMA"; lit "nope"; lit "Beta"].

Definition sample_found (ordinal : Z) (key t : text) : option MdxEntry :=
  Some {| me_key := {| ke_ordinal := ordinal; ke_key := key |}; me_text := t |}.

Definition sample_answers : list (option MdxEntry) :=
  [sample_found 2 (lit "alpha") (lit "ef"); sample_found 3 (lit "gamma") (lit "ourfive"); None;
   sample_found 1 (lit "Beta") (lit "-two-thre")].

Lemma sample_keys_fit n : n = mf_normalizer sample_file ->
  Forall (@key_fits simple_env n) sample_queries /\
  Forall (fun p => text_ok (snd p) /\ @key_fits simple_env n (fst p)) sample_entries.
Proof.
  intros ->. unfold key_fits. split; repeat (apply Forall_cons; split; [|]); try apply Forall_nil_2; cbn [fst snd];
    split_and!; try (eexists; vm_compute; reflexivity); vm_compute; discriminate.
Qed.

Lemma sample_mdx_opens :
  @mdx_open_with_options simple_env sample_fs (lit "words.mdx") sample_options 0 = Ok (sample_file, sample_state).
Proof. exact sample_opens. Qed.

Example written_lookup_witness :
  (wpM (@lookups simple_env sample_file sample_queries) sample_state (fun r _ => r = sample_answers) (fun error _ => over_limit error) /\
   wpM (collect (@entry_next simple_env sample_file) (S (Z.to_nat (mdict_len sample_file))) item_iter_new) sample_state
     (fun '(items, error, _) _ => match error with
        | None => items = @written_entries simple_env sample_entries
        | Some error => over_limit error
        end)
     (fun error _ => over_limit error)) /\
  fst (@lookups simple_env sample_file sample_queries sample_state) = Ok sample_answers.
Proof.
  split; [|vm_compute; reflexivity].
  destruct (sample_header V2) as [hs|error|site|] eqn:Eb; [|exfalso; revert Eb; vm_compute; discriminate..].
  assert (match sample_header V2 with Ok hs => header_describes V2 Mdx (hs_header hs) EncUtf8 (Some EncUtf8) /\
            from_header (hs_header hs) Mdx = mf_normalizer sample_file | _ => False end) as Hd
    by (vm_compute; split_and!; try done; by left).
  rewrite Eb in Hd. destruct Hd as [Hd Hn]. destruct (sample_keys_fit _ Hn) as [Hq He].
  destruct (@written_lookup_round_trip simple_env simple_env_ok V2 sample_options (lit "Dictionary")
    (sample_attributes (sample_version V2)) hs EncUtf8 EncUtf8 sample_contents sample_entries sample_fs
    (lit "words.mdx") (lit "words.mdx") 1700000000000000000 0 sample_queries
    (fun _ _ => eq_refl) limits_new_ok sample_fs_ok (sample_written V2 hs Eb Hd) (or_introl eq_refl)
    ltac:(split; vm_compute; reflexivity) He) as [Hw _].
  - rewrite Hn. vm_compute. discriminate.
  - vm_compute. discriminate.
  - vm_compute. reflexivity.
  - intros t. vm_compute. reflexivity.
  - exact Hq.
  - rewrite sample_mdx_opens, Hn in Hw.
    assert (map (@written_entry simple_env (mf_normalizer sample_file) sample_entries) sample_queries = sample_answers) as E
      by (vm_compute; reflexivity).
    rewrite E in Hw. exact Hw.
Defined.
