(* ===== verification/Served.v ===== *)
(** Availability: what an intact dictionary answers, through either facade. *)

From stdpp Require Import list_numbers sorting.
From S2P Require Import Prelude Errors Types Budget Utf8 Encoding Source Compression Descriptors Header KeySection Format Normalize Samples LocatorIndex Arcs Core Dictionary SampleDictionary Keys Records Iter Locator Locate CaseVariants Lookup Mdx Mdd WrittenHeader Written WrittenKeywords WholeFile Intact IntactRecords IntactLocator IntactReads WrittenReads.

(** C6: an intact dictionary is served.  Take a file that does not change,
    whose blocks decode, with the key index and the offsets agreeing with the
    rows, and an allocator that grants every request.  From the state of a freshly opened dictionary, and after any
    operations that were served, reading by ordinal, looking up and iterating
    return exactly what the file holds: the key of the row, the entry with its
    text or the resource with its bytes, nothing for an ordinal past the end or
    a key that does not match.  No check of the decoders, of the caches or of
    the index builder refuses such a file, and the caches remember no failure
    but that to stay within a limit: the only other outcome is that a limit is
    exceeded, the memory budget among them, and then the state still serves. *)
Theorem intact_dictionary_served `{EnvOk} f content blocks data :
  let rows := concat blocks in
  let stream := concat data in
  let n := mf_normalizer f in
  (forall context n, allocator context n = true) -> intact f content blocks data ->
  zlen (arena n (map row_key rows)) <= u32_max -> mdict_len f <= u32_max ->
  (forall w, serving f blocks data (core_state_new w)) /\
  (forall ordinal, 0 <= ordinal ->
     serves f blocks data (key_at_ordinal f ordinal) (fun r =>
       r = (fun row => {| ke_ordinal := ordinal; ke_key := row_key row |}) <$> get_at rows ordinal)) /\
  (readable f blocks data ->
     (forall ordinal, 0 <= ordinal ->
        serves f blocks data (entry_at f ordinal) (fun r => Ok <$> r = entry_of f rows stream ordinal)) /\
     (forall query, text_fits f query ->
        serves f blocks data (lookup f query) (fun r => match first_found f blocks query with
          | Some ordinal => Ok <$> r = entry_of f rows stream ordinal
          | None => r = None
          end)) /\
     serves f blocks data (collect (entry_next f) (S (Z.to_nat (mdict_len f))) item_iter_new) (fun '(items, error, _) =>
       map (fun e => Some (Ok e)) items = map (entry_of f rows stream) (seqZ 0 (zlen items)) /\
       match error with None => zlen items = mdict_len f | Some error => over_limit error end)) /\
  (spans_fit f blocks ->
     (forall ordinal, 0 <= ordinal ->
        serves f blocks data (resource_at f ordinal) (fun r => r = resource_of f rows stream ordinal)) /\
     (forall query, text_fits f query ->
        serves f blocks data (mdd_lookup f query) (fun r => r = (first_found f blocks query ≫= resource_of f rows stream))) /\
     serves f blocks data (collect (resource_next f) (S (Z.to_nat (mdict_len f))) item_iter_new) (fun '(items, error, _) =>
       map Some items = map (resource_of f rows stream) (seqZ 0 (zlen items)) /\
       match error with None => zlen items = mdict_len f | Some error => over_limit error end)).
Proof.
  intros rows stream n granted Hi Harena Hcount. split; [by intros; apply serving_new|].
  split; [by intros; apply (serves_key_at_ordinal granted f content blocks data Hi)|].
  split; intros Hread; split_and!.
  - intros. by apply (serves_entry_at granted f content blocks data Hi).
  - intros. by apply (serves_lookup granted f content blocks data Hi).
  - by apply (serves_entries granted f content blocks data Hi).
  - intros. by apply (serves_resource_at granted f content blocks data Hi).
  - intros. by apply (serves_mdd_lookup granted f content blocks data Hi).
  - by apply (serves_resources granted f content blocks data Hi).
Qed.

(** C7: an intact dictionary answers every kind of lookup, when the allocator
    grants every request and the keys and their normalized text can be numbered
    in 32 bits.  Whatever the caches hold, a lookup, a page of it, the same with case variants, a prefix
    search and a batch of ordinals return exactly what their specifications
    over the list of keys say, or exceed a limit; the index is built on the way
    when there is none, and no check of its builder or of the searches stands
    in the way. *)
Theorem intact_lookups_served `{EnvOk} f content blocks data :
  let rows := concat blocks in
  let n := mf_normalizer f in
  let keys := map row_key rows in
  (forall context n, allocator context n = true) -> intact f content blocks data ->
  zlen (arena n keys) <= u32_max -> mdict_len f <= u32_max ->
  (forall query mode, text_fits f query ->
     serves f blocks data (locate_with_mode f query mode) (fun r => match r, mode_spec f mode keys query with
       | Some k, Some (basis, ordinals) => lk_basis k = basis /\ denotes k ordinals
       | None, None => True
       | _, _ => False
       end)) /\
  (forall query offset limit mode, text_fits f query -> 0 <= offset -> 0 <= limit ->
     serves f blocks data (locate_page_with_mode f query offset limit mode) (fun r =>
       page_content <$> r = mode_page_spec f mode keys query offset limit)) /\
  (forall prefix limit, text_fits f prefix -> 0 < limit ->
     serves f blocks data (prefix_keys f prefix limit) (fun entries => exists found,
       prefix_spec n keys (normalized n prefix) limit found /\
       map Some entries = map (fun o => row_entry o <$> get_at rows o) found)) /\
  (forall ordinals, Forall (fun o => 0 <= o) ordinals -> zlen ordinals * 32 <= isize_max ->
     serves f blocks data (keys_at_ordinals f ordinals) (fun results =>
       results = map (fun o => row_entry o <$> get_at rows o) ordinals)).
Proof.
  intros rows n keys granted Hi Harena Hcount. split_and!.
  - intros. by apply (serves_locate_with_mode granted f content blocks data Hi Harena Hcount).
  - intros. by apply (serves_locate_page_with_mode granted f content blocks data Hi Harena Hcount).
  - intros. by apply (serves_prefix_keys granted f content blocks data Hi Harena Hcount).
  - intros. by apply (serves_keys_at granted f content blocks data Hi).
Qed.

(** * Witnesses *)

#[local] Notation sample_blocks := (ct_key_blocks sample_contents).

#[local] Notation sample_data := (ct_record_blocks sample_contents).

Lemma sample_header_written : exists hs, sample_header V2 = Ok hs /\
  @file_written simple_env V2 limits_new Mdx (lit "Dictionary") (sample_attributes (sample_version V2)) hs EncUtf8
    (Some EncUtf8) sample_contents /\ from_header (hs_header hs) Mdx = mf_normalizer sample_file.
Proof.
  destruct (sample_header V2) as [hs|error|site|] eqn:Eb; [|exfalso; revert Eb; vm_compute; discriminate..].
  assert (match sample_header V2 with Ok hs => header_describes V2 Mdx (hs_header hs) EncUtf8 (Some EncUtf8) /\
            from_header (hs_header hs) Mdx = mf_normalizer sample_file | _ => False end) as Hd
    by (vm_compute; split_and!; try done; by left).
  rewrite Eb in Hd. destruct Hd as [Hd Hn]. exists hs. split; [done|]. split; [by apply sample_written|done].
Qed.

Lemma sample_file_intact :
  @intact simple_env sample_file sample_v2 sample_blocks sample_data /\
  @readable simple_env sample_file sample_blocks sample_data.
Proof.
  destruct sample_header_written as (hs & _ & Hw & Hn). destruct (sample_keys_fit _ eq_refl) as [_ He].
  pose proof (@written_opens simple_env (fun _ _ => eq_refl) V2 Mdx sample_options (lit "Dictionary")
    (sample_attributes (sample_version V2)) hs EncUtf8 (Some EncUtf8) sample_contents limits_new_ok Hw sample_fs
    (lit "words.mdx") (lit "words.mdx") 1700000000000000000 0 ltac:(vm_compute; reflexivity)
    ltac:(intros t; vm_compute; reflexivity)) as Ho.
  change limits_new with (limits sample_options) in Hw.
  rewrite sample_opens in Ho. destruct Ho as (Hst & [retained Hlay] & Hlm & _).
  assert (holds EncUtf8 sample_contents sample_entries) as Hh by (split; vm_compute; reflexivity).
  assert (@intact simple_env sample_file
    (written_file V2 (encode_header (render_tag (lit "Dictionary") (sample_attributes (sample_version V2)))) EncUtf8 sample_contents)
    sample_blocks sample_data) as Hi.
  { refine (@written_intact simple_env simple_env_ok (fun _ _ => eq_refl) V2 Mdx sample_options _ _ hs EncUtf8 (Some EncUtf8)
      sample_contents Hw sample_file _ retained (proj1 sample_ok) Hst Hlay Hlm _ _); rewrite (proj1 Hh); [apply rows_of_sorted|].
    apply (Forall_map row_key (@text_fits simple_env sample_file)). rewrite rows_of_keys. apply Forall_map.
    eapply Forall_impl; [exact He|]. intros p Hp. exact (proj2 Hp). }
  split; [exact Hi|]. rewrite <- Hn in He.
  eapply (@written_readable simple_env simple_env_ok); [done|exact Hw|by left|exact Hh|exact He|exact Hi|].
  by rewrite Hlay.
Qed.

Lemma sample_serving : @serving simple_env sample_file sample_blocks sample_data sample_state.
Proof. vm_compute. by split_and!. Qed.

Example intact_served_witness :
  wpM (@lookup simple_env sample_file (lit "GAMMA")) sample_state
    (fun r _ => Ok <$> r = Ok <$> sample_found 3 (lit "gamma") (lit "ourfive")) (fun error _ => over_limit error) /\
  fst (@lookup simple_env sample_file (lit "GAMMA") sample_state) = Ok (sample_found 3 (lit "gamma") (lit "ourfive")).
Proof.
  split; [|vm_compute; reflexivity]. destruct sample_file_intact as [Hi Hread].
  destruct (@intact_dictionary_served simple_env simple_env_ok sample_file sample_v2 sample_blocks sample_data
    (fun _ _ => eq_refl) Hi ltac:(vm_compute; discriminate) ltac:(vm_compute; discriminate)) as (_ & _ & Hmdx & _).
  destruct (Hmdx Hread) as (_ & Hlookup & _).
  assert (@text_fits simple_env sample_file (lit "GAMMA")) as Hq by (split; vm_compute; discriminate).
  assert (@first_found simple_env sample_file sample_blocks (lit "GAMMA") = Some 3) as Hfound by (vm_compute; reflexivity).
  assert (@entry_of simple_env sample_file (concat sample_blocks) (concat sample_data) 3 =
    Ok <$> sample_found 3 (lit "gamma") (lit "ourfive")) as Hentry by (vm_compute; reflexivity).
  pose proof (Hlookup (lit "GAMMA") Hq sample_state sample_serving) as Hs.
  eapply wpM_mono; [exact Hs|..].
  - intros r s' [Hr _]. rewrite Hfound, Hentry in Hr. exact Hr.
  - by intros error s' [? _].
Defined.

(** A page with case variants: [alpha] itself, then [Alpha]. *)
Example intact_lookups_witness :
  wpM (@locate_page_with_mode simple_env sample_file (lit "alpha") 0 10 IncludeCaseVariants) sample_state
    (fun r _ => page_content <$> r = Some (CaseVariants, 2, [2; 0])) (fun error _ => over_limit error) /\
  match fst (@locate_page_with_mode simple_env sample_file (lit "alpha") 0 10 IncludeCaseVariants sample_state) with
  | Ok r => page_content <$> r = Some (CaseVariants, 2, [2; 0])
  | _ => False
  end.
Proof.
  split; [|vm_compute; reflexivity]. destruct sample_file_intact as [Hi _].
  destruct (@intact_lookups_served simple_env simple_env_ok sample_file sample_v2 sample_blocks sample_data
    (fun _ _ => eq_refl) Hi ltac:(vm_compute; discriminate) ltac:(vm_compute; discriminate)) as (_ & Hpage & _).
  assert (@text_fits simple_env sample_file (lit "alpha")) as Hq by (split; vm_compute; discriminate).
  assert (@mode_page_spec simple_env sample_file IncludeCaseVariants (map row_key (concat sample_blocks)) (lit "alpha") 0 10 =
    Some (CaseVariants, 2, [2; 0])) as Hspec by (vm_compute; reflexivity).
  pose proof (Hpage (lit "alpha") 0 10 IncludeCaseVariants Hq ltac:(lia) ltac:(lia) sample_state sample_serving) as Hs.
  eapply wpM_mono; [exact Hs|..].
  - intros r s' [Hr _]. rewrite Hspec in Hr. exact Hr.
  - by intros error s' [? _].
Defined.
